(* ===== verification/_CoqProject ===== *)
-Q . S2P
Prelude.v
Strs.v
PodNames.v
Access.v
Hosts.v
Db.v
Ports.v
PodConn.v
HostConn.v
Json.v
Conns.v
Lifecycle.v
Bytes.v
Framing.v
ExecStream.v
Tunnel.v
Hooks.v
Subst.v
Devcontainer.v
PodSpec.v
Engine.v
Compose.v
GitServer.v
Daemon.v
Image.v
Accounts.v
PreparedImage.v
Sse.v
PodLifecycle.v
PodEvents.v
PodEnv.v
PodGit.v
Pty.v
Terminal.v
Codex.v
GitSetup.v
FileCopy.v
Merge.v
Fork.v
AgentFiles.v
Submodules.v
Proxies.v
Registry.v
LlmCache.v
Initialize.v
AgentConfig.v
Config.v
Enter.v
CodexFrontend.v
Commands.v
