(* ===== verification/Prelude.v ===== *)
(** * A verification of rumpelpod

    rumpelpod runs coding agents in containers ("pods") on the local machine, over SSH or on
    a Kubernetes cluster.  A daemon on the user's machine owns the pods: it stores them in an
    SQLite database, keeps one connection per host and per pod, repairs them when they fail,
    forwards ports, carries commands and git traffic in and out of the containers, and guards
    the user's repository against pushes of one pod to the branches of another.  The source
    is rumpelpod/src; paths below are relative to it.

    ** How the parts interact

    The daemon.  A request arrives over HTTP and is answered with one value or a stream of
    events (Sse).  It is serialized with the other operations on its pod by a lifecycle lock
    (Lifecycle), reads or writes the database (Db), resolves the pod's host (Hosts), and uses
    the connection of the pod (PodConn) on the connection of the host (HostConn).  Both are
    held in registries and driven by threads of their own: an event loop per pod and a
    supervisor of the pod's git tunnel (Conns).  Daemon composes these parts into the handlers
    that list, launch, recreate, stop and delete pods, and Fork into the one that copies a pod.

    The client.  Config reads the user's configuration and chooses the host and the
    devcontainer file; Enter asks the daemon for a pod and runs a command in it; Commands deletes
    pods; CodexFrontend attaches to the Codex program that the daemon runs for a pod.

    Creating a pod.  The devcontainer configuration (Devcontainer) is read and its variable
    references are replaced (Subst); its image is built or found (Image) and extended by the
    program's own layer (PreparedImage, which renumbers the user with Accounts); the container
    is described (PodSpec) and created by the engine's command line (Engine) or as a service of
    a compose project (Compose).  Initialize runs the initializer command of the configuration on
    the host, Registry reads the configuration of an image from its registry, Ports allocates the
    host ports of a pod and stores them in Db, and AgentConfig selects what of the user's agent
    configuration is copied into the pod.

    In the pod.  A server computes the environment (PodEnv), sets up the repository (GitSetup),
    with its submodules (Submodules),
    runs the lifecycle commands (PodLifecycle), takes and gives the files of agents
    (AgentFiles), follows the agents and streams their state to
    the daemon (PodEvents, Codex), keeps terminals (Pty) and pushes branches (PodGit).

    Between them.  ExecStream carries a command and its input and output between the client and
    the pod; Tunnel carries the pod's TCP connections to the host; Terminal is the client of a
    terminal session; Proxies carries single connections and archives; FileCopy copies files and
    uploads bind mounts; GitServer serves git and Git LFS to the pods; LlmCache records and replays
    the answers of model providers for tests.  Access is the code that git runs as hooks on either side, Hooks
    installs it, Merge brings the work of a pod into the user's branch, and PodNames is how
    pods are named towards the user and the backend.

    ** Files

    - Prelude: results, record update, machine integers, automation, list lemmas.
    - Strs: Rust strings as lists of code points with the operations of [std::str] the program
      uses, and the interface [HashLib]/[HashLaws] of the sha2 and hex crates.
    - PodNames: daemon/protocol.rs ([PodName]), executor/mod.rs ([PodId], [pod_id_for],
      [sanitize_dns_label_fragment]), daemon.rs ([sanitize_hostname]).
    - Access: hook.rs ([reference_transaction], [host_pre_receive], [check_push_access]),
      daemon.rs ([rewrite_upstream]).
    - Hosts: config.rs ([ContainerEngine], [Host]), daemon/host_connection.rs ([HostKey]).
    - Db: daemon/db.rs.  [Conn] is the content of the two tables; each function of the file is
      a definition; [db_step] is any statement the daemon runs.
    - Ports: daemon.rs (from [resolve_forward_target] to [setup_port_forwarding_async], and
      [add_forwarded_port]).
    - PodConn: daemon/pod_connection.rs.  [PodConnection] is the struct with its two mutexes'
      content; each method is a definition; [pc_step] is any method called by any thread.
    - HostConn: daemon/host_connection.rs.
    - Json: the JSON forms of the agent states of pod/types.rs.
    - Conns: daemon/connections.rs and the registry of daemon/pod_connection.rs.  [loop_step] is
      [run_pod_event_loop] and [sup_step] is [supervise_git_tunnel], one step per point where
      another thread can intervene.
    - Lifecycle: daemon.rs ([PodLifecycleLock] and its guards) as the steps [lstep], and
      daemon/creation.rs.
    - Bytes: readers, writers, [u32] in both byte orders, UTF-8 decoding.
    - Framing: the interface [Framing] of a framed byte stream, with what a loop that reads
      frames gets; ExecStream and Tunnel are its instances.
    - ExecStream: exec_stream.rs, exec.rs ([read_output], [forward_stdin]), pod/exec.rs
      ([exec_handler], [forward_input], [forward_output]).
    - Tunnel: tunnel.rs; [mstep] interleaves the tasks of [run_tunnel_server_async] and
      [spawn_host_mux].
    - Hooks: gateway.rs ([strip_host_hooks], [combine_host_hook], [install_host_hook]).
    - Subst, Devcontainer: devcontainer.rs; the scanners of variable references, and the
      configuration record with every operation on it.
    - PodSpec: daemon.rs, executor/spec.rs, executor/engine.rs and k8s.rs: from the configuration
      to the arguments of [docker create] and to the Kubernetes object.
    - Engine: executor/engine.rs and the waiting loops of k8s.rs, against the laws [DockerLaws]
      of the engine's command line.
    - Compose: compose.rs, over JSON values.
    - GitServer: git_http_server.rs; tokens, LFS, SSH agents, the environment of git-http-backend.
    - Daemon: the handlers of daemon.rs on a record of the daemon's state.
    - Image: image.rs.  Accounts, PreparedImage: prepared_image.rs.
    - Sse: the streams of daemon/protocol.rs, both ends.
    - PodLifecycle: pod/lifecycle.rs.
    - PodEvents: pod/claude.rs and the event stream of pod/server.rs and pod/client.rs.
    - PodEnv: the environment computed by pod/server.rs.
    - PodGit: git.rs and the recovery push of pod/server.rs.
    - Pty: pty_session.rs; [pty_step] is any critical section of any task.
    - Terminal: pty_attach.rs.
    - Codex: pod/codex.rs, the monitor and the relay.
    - GitSetup: pod/git_setup.rs, in a state monad over git commands; [GitLaws] and
      [BranchLaws] are what git documents.
    - FileCopy: cp.rs, the file handlers of pod/server.rs, and [upload_bind_mounts] of daemon.rs.
    - Merge: merge.rs.
    - Fork: [fork_pod_impl] of daemon.rs and [build_state_response] of pod/server.rs.
    - AgentFiles: the agent files of pod/server.rs and pod/codex/snapshot.rs; the credentials, settings
      and sessions that are uploaded to, kept in and taken from a pod.
    - Submodules: the rest of pod/git_setup.rs; [rs] is the state of all repositories of a pod.
    - Proxies: exec_proxy.rs, tcp_proxy.rs, executor/podman_ssh.rs, streaming_upload.rs, port_file.rs;
      [chain_run] interleaves the copying loops of both ends with the client and the server.
    - Registry: registry.rs.  LlmCache: llm/cache_proxy.rs.  Initialize: initialize.rs.
    - AgentConfig: the functions of daemon.rs and claude.rs that select the configuration of agents.
    - Config: the rest of config.rs, [resolve_host] of cli.rs, [determine_host] and
      [determine_devcontainer] of enter.rs.
    - Enter: the rest of enter.rs.  Commands: prune.rs, delete.rs, the description check of hook.rs,
      [detect_submodules] of gateway.rs, the patches of pod/server.rs.
    - CodexFrontend: codex.rs and [SessionWatch] of pty_session.rs.

    ** What the theorems show

    - Concurrency.  Observations made before a connection was stopped, recreated, paused or
      lost its host never change it afterwards; its invariant holds in every reachable state;
      a stopped event loop returns, a wanted one connects; a supervisor gives up after ten
      failures; a delete excludes the startups it cancelled and the requests queued before
      it; the tunnel's streams stay intact and apart in every interleaving; no child of a
      terminal session is forgotten, and terminating sessions leaves none.
    - Persistence.  The pods table refines a finite map; the database invariant holds in every
      reachable state; stale activity reports change nothing; opening a database of an earlier
      schema keeps its content; a pod's ports are allocated once and reclaimed; the cleanup
      of unconfirmed creations spares the pods of the database; stored LFS objects have the
      digests they are stored under.
    - Handlers.  A deletion removes the row exactly when the container is gone; a launch
      replaces only a pod that is gone; credentials are those of the running server; a
      recreation deletes nothing before the changes are safe; a fork has every branch, file
      and change of its source; a merge stops the pod only when its work is in the branch.
    - Byte streams and messages.  Reading inverts writing for both framings; output and input of
      commands are lossless; a lost connection is never taken for an exit status or an end of
      input; results, launches, notifications and agent states arrive as they were sent;
      forwarded connections are pipes, and an archive that failed is never taken for complete.
    - Files and images.  Copies and uploads give the tree of the source; substitution agrees
      with a reference reading; arguments survive the shell and the Dockerfile; tags depend on
      what goes into an image; renumbering a user changes that user only; submodules are cloned
      with parents first and their branches are kept; a snapshot of agent files is restored.
    - Configuration.  A setting that is not known is refused, an empty section is the default one, a
      host is read back from the text it is stored as, and host and engine come from one place;
      the configuration copied for agents holds the listed keys and this repository's history.
    - Consent.  A pod is created only if the user asked for it, and one with unmerged commits is
      deleted only with a flag or after an answer; a Codex frontend is replaced once, after it
      gave up.
    - Access and names.  A pod can push to its own refs only, also through the gateway; the
      gateway token is configured for the current gateway only and does not reach error
      messages; accepted names give valid backend identifiers, distinct for short names;
      commands run below the repository; managed hooks keep the user's hooks.
    - Errors.  Theorems named after a failure state what the code does where that differs from
      what it means to do: identifiers of long names collide, a pod may be named like the
      host's branch, a stop can be overwritten by the event loop, a reconnect can fail on its
      own ports, a busy database is discarded, a pod can be detached from its host's events,
      the pre-receive hook grows with every installation, a name outside ASCII panics, tags of
      different images agree, an interrupted upload stays, a failed deletion stays deleting, a
      progress message can pose as the greeting, typed text can be lost before a detach,
      submodules with spaces are skipped, an archive can leave its destination, a failed
      download is reported as a success, a bound file becomes a directory, a fork can get a
      name that panics, lose its primary branch or fail on an upstream, a reference with a tag
      and a digest is misread, session directories of different repositories agree, a server
      that half-closes loses input, the flag for the engine replaces the configured host, pods
      whose branches cannot be compared are deleted without a question, a blank description
      passes the hook but not the merge, and a typed draft can restart the Codex frontend.

    ** Modelling choices and bounds

    Stateful code is state passing on records; concurrent code is a step relation whose steps
    are critical sections or, in PodConn, whole methods (with the sections of two methods
    interleaved where a theorem is about them).  [Result] is [result]; a panic is [None], or
    [Panicked] where a loop may also run out of fuel.
    Integers keep their width where the code depends on it: epochs are [u64] with wrap-around
    and the theorem on late observations allows 2^62 steps after the invalidation, far below
    the wrap; ports are bounded by [u16]; frame lengths are truncated to [u32]; stream
    identifiers are [u32] and the tunnel theorem holds for the first 2^32 - 1 connections.
    Generations of the lifecycle lock and row identifiers are unbounded, and process ids are
    not reused.  Loops that read byte streams take fuel, and the theorems fix how much is
    enough: one unit per frame and one or two for the end.  The scanners of Subst and the
    closure of Compose take fuel from the length of their input and are proved never to use it
    up; the pages of Codex take one unit per message and one more, and [replace] of GitSetup
    takes the length of the text.  The search for submodules takes more units than its longest
    directory has characters, which is proved enough; nested image indexes of a registry take one
    unit each, because a registry may nest them without end.  The event loop and the supervisor are step functions, and
    the theorems about their termination count the steps.

    External programs and crates are parameters: SHA-256 and hex encoding, JSON and TOML text,
    the operating system's ports and processes, git, the engine's command line, the Kubernetes
    API, tar.  Where a theorem relies on one, a class states its documented behaviour
    ([HashLaws], [DockerLaws], [SerdeLaws], [GitView], [GitLaws], [BranchLaws], [TarLib],
    [MergeGit], [BranchGit], [MetaLaws],
    [ObjectLaws]), and an instance shows that it can be met.  SQLite is taken to
    execute the statements of daemon/db.rs as documented.  The file system of FileCopy has
    directories and regular files only.

    ** Not modelled

    What is left is input and output around external programs, without decisions of its own that a
    theorem could be about: parsing arguments and printing tables (cli.rs, list.rs, ports.rs,
    completions.rs, the image commands), the HTTP clients and routers that carry the modelled
    requests (most of daemon/protocol.rs and pod/client.rs), downloading and installing the
    programs of agents (the install functions of prepared_image.rs), the launchers of the other
    agents (claude.rs, grok.rs, pi.rs), the local pseudo-terminal programs (exec_pty), process and
    runtime wrappers, the unit files and manifests of the system service and the hub, and the
    development tools under src/tools.  Tests are not modelled. *)
From stdpp Require Export base tactics option list numbers strings gmap sets.
From stdpp Require Import options.
From Stdlib Require Import ZArith Lia.

(** ** Results: Rust's [Result], with [?] as monadic bind *)

Inductive result (E A : Type) : Type :=
| Ok (a : A)
| Err (e : E).
Arguments Ok {E A} a.
Arguments Err {E A} e.

#[export] Instance result_ret {E} : MRet (result E) := fun A => Ok.

#[export] Instance result_bind {E} : MBind (result E) :=
  fun A B f r => match r with Ok a => f a | Err e => Err e end.

#[export] Instance result_fmap {E} : FMap (result E) :=
  fun A B f r => match r with Ok a => Ok (f a) | Err e => Err e end.

(** [Result::ok], [Option::context] / [ok_or], [Result::is_ok]. *)
Definition ok {E A} (r : result E A) : option A :=
  match r with Ok a => Some a | Err _ => None end.

Definition context {E A} (e : E) (o : option A) : result E A :=
  match o with Some a => Ok a | None => Err e end.

Definition is_ok {E A} (r : result E A) : bool :=
  match r with Ok _ => true | Err _ => false end.

#[export] Instance result_eq_dec {E A} `{EqDecision E, EqDecision A} : EqDecision (result E A).
Proof. solve_decision. Defined.

(** What a loop that indexes or slices may do: return, or panic.  [Unfinished] is a model that
    ran out of fuel; each loop is proved never to give it. *)
Inductive run (A : Type) :=
| Returned (a : A)
| Panicked
| Unfinished.
Arguments Returned {A} a.
Arguments Panicked {A}.
Arguments Unfinished {A}.

#[export] Instance run_ret : MRet run := fun A => Returned.

#[export] Instance run_bind : MBind run :=
  fun A B f r => match r with Returned a => f a | Panicked => Panicked | Unfinished => Unfinished end.

#[export] Instance run_fmap : FMap run :=
  fun A B f r => match r with Returned a => Returned (f a) | Panicked => Panicked | Unfinished => Unfinished end.

#[export] Instance run_eq_dec {A} `{EqDecision A} : EqDecision (run A).
Proof. solve_decision. Defined.

Lemma run_bind_Returned {A B} (r : run A) (f : A -> run B) (b : B) :
  (a ← r; f a) = Returned b <-> exists a, r = Returned a /\ f a = Returned b.
Proof.
  split; [|intros (a & -> & H); exact H].
  destruct r as [a| |]; cbn; [|discriminate|discriminate]. by exists a.
Qed.

(** Slicing and unwrapping: [None] is the panic. *)
Definition or_panic {A} (o : option A) : run A :=
  match o with Some a => Returned a | None => Panicked end.

(** [Option::is_some_and]. *)
Definition is_some_and {A} (p : A -> bool) (o : option A) : bool :=
  match o with Some a => p a | None => false end.

(** ** Machine integers *)

Definition u64_max : Z := 2 ^ 64 - 1.
Definition u32_max : Z := 2 ^ 32 - 1.
Definition u16_max : Z := 2 ^ 16 - 1.

(** [u64::wrapping_add] *)
Definition wrapping_add64 (a b : Z) : Z := (a + b) mod 2 ^ 64.

(** [u16::checked_add] *)
Definition checked_add16 (a b : Z) : option Z :=
  if bool_decide (a + b <= u16_max)%Z then Some (a + b)%Z else None.

(** ** Record update

    [r <| f := v |>] replaces one field.  A record type declares itself
    [Updatable] with its eta expansion; the updater of a field is found by
    abstracting that field's projection in the expansion. *)

Class Updatable (R : Type) := eta_of : R -> R.
Class Updater {R T : Type} (field : R -> T) := update_field : (T -> T) -> R -> R.
Arguments update_field {R T} field {_} _ _ : simpl never.

Ltac derive_updater :=
  lazymatch goal with
  | |- @Updater ?R ?T ?field =>
      let inst := constr:(_ : Updatable R) in
      let e := eval hnf in inst in
      lazymatch eval pattern field in e with
      | ?abstracted _ =>
          let u := eval cbv beta in
            (fun (g : T -> T) => abstracted (fun r : R => g (field r))) in
          exact u
      end
  end.
#[export] Hint Extern 0 (Updater _) => derive_updater : typeclass_instances.

Declare Scope rust_scope.
Delimit Scope rust_scope with rust.
Notation "r <| f := v |>" := (update_field f (fun _ => v) r)
  (at level 1, left associativity, f at level 1, v at level 200,
   format "r <| f  :=  v |>") : rust_scope.
Notation "r <| f ::= g |>" := (update_field f g r)
  (at level 1, left associativity, f at level 1, g at level 200,
   format "r <| f  ::=  g |>") : rust_scope.
Open Scope rust_scope.

(** ** Automation *)

Create HintDb rumpel.

(** Evaluate record updates and projections. *)
Ltac rsimpl := cbv beta delta [update_field] in *; cbn in *.

(** Push projections through record updates, one update at a time. *)
Ltac rproj1 t :=
  match t with
  | context [?p (@update_field ?R ?T ?f ?u ?g ?r)] =>
      let new := match p with
                 | f => constr:(g (f r))
                 | _ => constr:(p r)
                 end in
      change (p (@update_field R T f u g r)) with new in *
  end.
Ltac rproj :=
  repeat (match goal with
          | |- ?t => rproj1 t
          | _ : ?t |- _ => rproj1 t
          end; cbv beta in *).

(** Split every [if]/[match] of the goal and of the context, and clean up. *)
Ltac split_matches := repeat (case_match; simplify_eq/=; try done).

(** Close a decidable closed goal by evaluation. *)
Ltac decide_now := apply (bool_decide_unpack _); vm_compute; exact I.

(** ** Lists *)

Lemma existsb_eq_map {A B} `{EqDecision B} (f : A -> B) (b : B) (l : list A) :
  existsb (fun x => bool_decide (f x = b)) l = true <-> b ∈ map f l.
Proof.
  rewrite existsb_exists, list_elem_of_fmap. split.
  - intros (x & Hin & Hk%bool_decide_eq_true). exists x. by rewrite list_elem_of_In.
  - intros (x & Hk & Hin). exists x. split; [by apply list_elem_of_In|by apply bool_decide_eq_true].
Qed.

Lemma map_if_same {A B} (g : A -> B) (sel : A -> bool) (upd : A -> A) (l : list A) :
  (forall a, g (upd a) = g a) -> map g (map (fun a => if sel a then upd a else a) l) = map g l.
Proof. intros H. rewrite map_map. apply map_ext. intros a. by destruct (sel a). Qed.

Lemma NoDup_map_filter {A B} (g : A -> B) (sel : A -> bool) (l : list A) :
  NoDup (map g l) -> NoDup (map g (List.filter sel l)).
Proof.
  induction l as [|a l IH]; simpl; [done|]. intros [Hni Hnd]%NoDup_cons.
  destruct (sel a); simpl; [|auto]. apply NoDup_cons. split; [|auto].
  intros (x & Hx & Hin)%list_elem_of_fmap. apply Hni, list_elem_of_fmap. exists x.
  split; [done|]. apply list_elem_of_In, filter_In in Hin as [? _]. by apply list_elem_of_In.
Qed.

Lemma elem_of_bfilter {A} (sel : A -> bool) (x : A) (l : list A) :
  x ∈ List.filter sel l <-> x ∈ l /\ sel x = true.
Proof. by rewrite list_elem_of_In, filter_In, <- list_elem_of_In. Qed.

(** Two entries of a list without duplicate keys that share a key are one entry. *)
Lemma NoDup_map_inj {A B} (g : A -> B) (l : list A) a b :
  NoDup (map g l) -> a ∈ l -> b ∈ l -> g a = g b -> a = b.
Proof.
  induction l as [|x l IH]; simpl; [by intros _ ?%not_elem_of_nil|].
  intros [Hni Hnd]%NoDup_cons [->|Ha]%elem_of_cons [->|Hb]%elem_of_cons Hg; auto.
  - destruct Hni. rewrite Hg. by apply list_elem_of_fmap_2.
  - destruct Hni. rewrite <- Hg. by apply list_elem_of_fmap_2.
Qed.

Lemma filter_unique {A B} (g : A -> B) (sel : A -> bool) (l : list A) a :
  NoDup (map g l) -> a ∈ l -> sel a = true -> (forall b, b ∈ l -> sel b = true -> g b = g a) ->
  List.filter sel l = [a].
Proof.
  induction l as [|x l IH]; simpl; [by intros _ ?%not_elem_of_nil|].
  intros [Hni Hnd]%NoDup_cons Ha Hs Hsame.
  destruct (sel x) eqn:Ex.
  - assert (List.filter sel l = []) as ->.
    { destruct (List.filter sel l) as [|y ys] eqn:Ef; [done|]. exfalso.
      assert (y ∈ l /\ sel y = true) as [Hy Hsy] by (apply elem_of_bfilter; rewrite Ef; left).
      apply Hni. rewrite (Hsame x), <- (Hsame y) by (done || by constructor).
      by apply list_elem_of_fmap_2. }
    f_equal. apply (NoDup_map_inj g (x :: l)); [by constructor|left|done|].
    symmetry. symmetry. apply Hsame; [left|done].
  - apply elem_of_cons in Ha as [->|Ha]; [congruence|].
    apply IH; auto. intros b Hb. apply Hsame. by right.
Qed.

Lemma filter_none {A} (sel : A -> bool) (l : list A) :
  (forall a, a ∈ l -> sel a = false) -> List.filter sel l = [].
Proof.
  induction l as [|x l IH]; simpl; intros H; [done|]. rewrite (H x) by left.
  apply IH. intros a Ha. apply H. by right.
Qed.
