(* ===== verification/Strs.v ===== *)
(** * Rust strings

    A Rust [str] is a sequence of Unicode scalar values; it is modelled as the
    list of its code points.  Byte-level facts ([len], [as_bytes]) go through
    the UTF-8 encoding.  The operations are the ones of [std::str] that the
    program uses; patterns are characters or strings, as in the source. *)
From S2P Require Import Prelude.
From stdpp Require Import pretty.
From Stdlib Require Import Ascii.

Abbreviation char := N (only parsing).
Abbreviation str := (list N) (only parsing).

(** String literals of the source. *)
Definition lit (s : string) : list N := N_of_ascii <$> String.list_ascii_of_string s.
Coercion lit : string >-> list.
Arguments lit : simpl never.

Open Scope string_scope.
Open Scope list_scope.
Open Scope N_scope.
Open Scope nat_scope.

(** ** UTF-8 *)

Definition utf8_char (c : char) : list N :=
  if bool_decide (c < 128)%N then [c]
  else if bool_decide (c < 2048)%N then
    [192 + c / 64; 128 + c mod 64]%N
  else if bool_decide (c < 65536)%N then
    [224 + c / 4096; 128 + (c / 64) mod 64; 128 + c mod 64]%N
  else
    [240 + c / 262144; 128 + (c / 4096) mod 64; 128 + (c / 64) mod 64; 128 + c mod 64]%N.

Definition as_bytes (s : str) : list N := s ≫= utf8_char.

(** [str::len]: the number of bytes. *)
Definition len (s : str) : nat := length (as_bytes s).

(** ** Character classes *)

Definition in_range (lo hi c : N) : bool := bool_decide (lo <= c)%N && bool_decide (c <= hi)%N.
Definition is_ascii_lowercase (c : char) : bool := in_range 97 122 c.
Definition is_ascii_uppercase (c : char) : bool := in_range 65 90 c.
Definition is_ascii_digit (c : char) : bool := in_range 48 57 c.
Definition is_ascii_alphanumeric (c : char) : bool :=
  is_ascii_lowercase c || is_ascii_uppercase c || is_ascii_digit c.
Definition is_ascii_hexdigit (c : char) : bool :=
  is_ascii_digit c || in_range 65 70 c || in_range 97 102 c.
Definition to_ascii_lowercase (c : char) : char :=
  if is_ascii_uppercase c then (c + 32)%N else c.

(** [char::is_whitespace]: the Unicode [White_Space] property. *)
Definition is_whitespace (c : char) : bool :=
  in_range 9 13 c || bool_decide (c ∈ [32; 133; 160; 5760; 8232; 8233; 8239; 8287; 12288]%N)
  || in_range 8192 8202 c.

(** The characters the source writes as literals. *)
Definition c_hyphen : char := 45%N.
Definition c_slash : char := 47%N.
Definition c_colon : char := 58%N.
Definition c_at : char := 64%N.
Definition c_eq : char := 61%N.
Definition c_nl : char := 10%N.
Definition c_cr : char := 13%N.
Definition c_space : char := 32%N.
Definition c_dot : char := 46%N.
Definition c_comma : char := 44%N.
Definition c_quote : char := 34%N.

(** ** Prefixes and suffixes *)

Fixpoint strip_prefix (p s : str) : option str :=
  match p, s with
  | [], _ => Some s
  | x :: p', y :: s' => if bool_decide (x = y) then strip_prefix p' s' else None
  | _ :: _, [] => None
  end.

Definition starts_with (p s : str) : bool := bool_decide (is_Some (strip_prefix p s)).

Definition strip_suffix (p s : str) : option str :=
  reverse <$> strip_prefix (reverse p) (reverse s).

Definition ends_with (p s : str) : bool := bool_decide (is_Some (strip_suffix p s)).

(** ** Splitting on a character *)

Fixpoint split_once (c : char) (s : str) : option (str * str) :=
  match s with
  | [] => None
  | x :: s' =>
      if bool_decide (x = c) then Some ([], s')
      else prod_map (cons x) id <$> split_once c s'
  end.

Fixpoint rsplit_once (c : char) (s : str) : option (str * str) :=
  match s with
  | [] => None
  | x :: s' =>
      match rsplit_once c s' with
      | Some (a, b) => Some (x :: a, b)
      | None => if bool_decide (x = c) then Some ([], s') else None
      end
  end.

(** [str::split] on a character: always at least one piece. *)
Fixpoint split (c : char) (s : str) : list str :=
  match s with
  | [] => [[]]
  | x :: s' =>
      if bool_decide (x = c) then [] :: split c s'
      else match split c s' with
           | [] => [[x]]
           | w :: ws => (x :: w) :: ws
           end
  end.

(** [\[T\]::join] of string pieces. *)
Fixpoint join (sep : str) (ws : list str) : str :=
  match ws with
  | [] => []
  | [w] => w
  | w :: ws' => w ++ sep ++ join sep ws'
  end.

Definition contains_char (c : char) (s : str) : bool := bool_decide (c ∈ s).

(** [str::find] of a string, as the text before the first occurrence and the text from it. *)
Fixpoint find_str (p s : str) : option (str * str) :=
  if starts_with p s then Some ([], s)
  else match s with
       | [] => None
       | x :: s' => prod_map (cons x) id <$> find_str p s'
       end.

Definition contains_str (p s : str) : bool := bool_decide (is_Some (find_str p s)).

(** [str::find] of a character: a byte offset. *)
Definition find_char (c : char) (s : str) : option nat := (fun ab => len ab.1) <$> split_once c s.

(** [str::replace] of a character. *)
Definition replace_char (c : char) (by_ : str) (s : str) : str :=
  s ≫= fun x => if bool_decide (x = c) then by_ else [x].

(** ** Byte ranges

    The text before and from byte [i]; [None] when [i] is past the end or inside a
    character, where slicing panics. *)
Fixpoint split_at (s : str) (i : nat) : option (str * str) :=
  if bool_decide (i = 0) then Some ([], s)
  else match s with
       | [] => None
       | x :: s' =>
           if bool_decide (i < length (utf8_char x)) then None
           else prod_map (cons x) id <$> split_at s' (i - length (utf8_char x))
       end.

(** [s\[i..\]], [s\[..i\]], [s\[i..j\]] *)
Definition slice_from (s : str) (i : nat) : option str := snd <$> split_at s i.
Definition slice_to (s : str) (i : nat) : option str := fst <$> split_at s i.
Definition slice (s : str) (i j : nat) : option str :=
  ab ← split_at s j; snd <$> split_at ab.1 i.

(** ** Trimming *)

Fixpoint trim_start_by (p : char -> bool) (s : str) : str :=
  match s with
  | [] => []
  | x :: s' => if p x then trim_start_by p s' else s
  end.

Definition trim_end_by (p : char -> bool) (s : str) : str :=
  reverse (trim_start_by p (reverse s)).

Definition is_char (c x : char) : bool := bool_decide (x = c).

Definition trim_start_matches (c : char) : str -> str := trim_start_by (is_char c).
Definition trim_end_matches (c : char) : str -> str := trim_end_by (is_char c).
Definition trim_matches (c : char) (s : str) : str := trim_end_matches c (trim_start_matches c s).
Definition trim_end (s : str) : str := trim_end_by is_whitespace s.
Definition trim (s : str) : str := trim_end_by is_whitespace (trim_start_by is_whitespace s).

(** [str::split_whitespace]. *)
Fixpoint split_whitespace_go (acc : str) (s : str) : list str :=
  match s with
  | [] => if bool_decide (acc = []) then [] else [reverse acc]
  | x :: s' =>
      if is_whitespace x then
        if bool_decide (acc = []) then split_whitespace_go [] s'
        else reverse acc :: split_whitespace_go [] s'
      else split_whitespace_go (x :: acc) s'
  end.
Definition split_whitespace : str -> list str := split_whitespace_go [].

(** [str::lines]: pieces between newlines, a final empty piece dropped, one
    carriage return before the newline removed. *)
Definition strip_cr (s : str) : str := default s (strip_suffix [c_cr] s).

Fixpoint lines_of (ws : list str) : list str :=
  match ws with
  | [] => []
  | [w] => if bool_decide (w = []) then [] else [w]
  | w :: ws' => strip_cr w :: lines_of ws'
  end.
Definition lines (s : str) : list str := lines_of (split c_nl s).

(** ** Decimal numbers *)

(** [Display] of an unsigned integer. *)
Definition show (n : N) : str := lit (pretty n).

(** [from_str] of an unsigned integer type with maximum [max]: an optional
    plus sign, at least one digit, and no overflow. *)
Fixpoint parse_digits (acc : N) (s : str) : option N :=
  match s with
  | [] => Some acc
  | c :: s' => if is_ascii_digit c then parse_digits (acc * 10 + (c - 48))%N s' else None
  end.

Definition parse_uint (max : N) (s : str) : option N :=
  let digits := default s (strip_prefix [43%N] s) in
  if bool_decide (digits = []) then None
  else match parse_digits 0 digits with
       | Some n => if bool_decide (n <= max)%N then Some n else None
       | None => None
       end.

(** ** The [sha2] and [hex] crates

    Neither is part of the program: [Sha256::digest] and [hex::encode] are parameters, and
    [HashLaws] is what their documentation says of them. *)
Record HashLib := mkHashLib {
  sha256_digest : list N -> list N;
  hex_encode : list N -> str;
}.

Class HashLaws (lib : HashLib) : Prop := {
  digest_length m : length (sha256_digest lib m) = 32;
  digest_bytes m : Forall (fun b => (b < 256)%N) (sha256_digest lib m);
  hex_length bs : length (hex_encode lib bs) = 2 * length bs;
  hex_lower bs : Forall (fun b => (b < 256)%N) bs ->
    Forall (fun c => is_ascii_digit c || in_range 97 102 c) (hex_encode lib bs);
}.

(** ** Laws of the string operations *)

Lemma strip_prefix_Some p s r : strip_prefix p s = Some r <-> s = p ++ r.
Proof.
  revert s. induction p as [|x p IH]; intros s; simpl; [naive_solver|].
  destruct s as [|y s]; [naive_solver|].
  case_bool_decide as Hxy; [subst; rewrite IH|]; naive_solver.
Qed.

Lemma strip_prefix_app p r : strip_prefix p (p ++ r) = Some r.
Proof. by apply strip_prefix_Some. Qed.

Lemma strip_suffix_Some p s r : strip_suffix p s = Some r <-> s = r ++ p.
Proof.
  unfold strip_suffix. rewrite fmap_Some. split.
  - intros (r' & Hr & ->). apply strip_prefix_Some in Hr.
    rewrite <- (reverse_involutive s), Hr, reverse_app. by rewrite reverse_involutive.
  - intros ->. exists (reverse r). rewrite reverse_involutive. split; [|done].
    apply strip_prefix_Some. by rewrite reverse_app.
Qed.

Lemma starts_with_true p s : starts_with p s = true <-> exists r, s = p ++ r.
Proof.
  unfold starts_with. rewrite bool_decide_eq_true. unfold is_Some.
  by setoid_rewrite strip_prefix_Some.
Qed.

Lemma ends_with_true p s : ends_with p s = true <-> exists r, s = r ++ p.
Proof.
  unfold ends_with. rewrite bool_decide_eq_true. unfold is_Some.
  by setoid_rewrite strip_suffix_Some.
Qed.

Lemma split_once_Some c s a b : split_once c s = Some (a, b) <-> s = a ++ c :: b /\ c ∉ a.
Proof.
  revert a. induction s as [|x s IH]; intros a; simpl.
  - split; [done|]. intros [H _]. by destruct a.
  - case_bool_decide as Hx.
    + subst. split.
      * intros [= <- <-]. split; [done|set_solver].
      * intros [H Hc]. destruct a as [|y a]; simplify_eq/=; [done|set_solver].
    + rewrite fmap_Some. split.
      * intros ([a' b'] & Hs & Heq). simplify_eq/=. apply IH in Hs as [-> Hc]. set_solver.
      * intros [H Hc]. destruct a as [|y a]; simplify_eq/=.
        exists (a, b). split; [|done]. apply IH. set_solver.
Qed.

Lemma split_once_None c s : split_once c s = None <-> c ∉ s.
Proof.
  induction s as [|x s IH]; simpl; [set_solver|].
  case_bool_decide; rewrite ?fmap_None, ?IH; set_solver.
Qed.

Lemma rsplit_once_None c s : rsplit_once c s = None <-> c ∉ s.
Proof.
  induction s as [|x s IH]; simpl; [set_solver|].
  destruct (rsplit_once c s) as [[a b]|] eqn:E; simpl.
  - destruct (decide (c ∈ s)) as [Hin|Hin]; [set_solver|].
    apply IH in Hin. congruence.
  - assert (c ∉ s) by (by apply IH). case_bool_decide; set_solver.
Qed.

Lemma rsplit_once_Some c s a b : rsplit_once c s = Some (a, b) <-> s = a ++ c :: b /\ c ∉ b.
Proof.
  revert a. induction s as [|x s IH]; intros a; simpl.
  - split; [done|]. intros [H _]. by destruct a.
  - destruct (rsplit_once c s) as [[a' b']|] eqn:E; simpl.
    + assert (c ∈ s) as Hin.
      { destruct (decide (c ∈ s)) as [|Hn]; [done|].
        apply rsplit_once_None in Hn. congruence. }
      split.
      * intros [= <- <-]. destruct (IH a') as [IH1 _]. destruct (IH1 eq_refl) as [-> ?]. done.
      * intros [H Hc]. destruct a as [|y a]; simplify_eq/=; [done|].
        destruct (IH a) as [_ IH2]. assert (Some (a', b') = Some (a, b)) as ? by auto. by simplify_eq.
    + assert (c ∉ s) by (by apply rsplit_once_None).
      case_bool_decide as Hx.
      * subst. split; [intros [= <- <-]; done|].
        intros [H' Hc]. destruct a as [|y a]; simplify_eq/=; [done|set_solver].
      * split; [done|]. intros [H' Hc]. destruct a as [|y a]; simplify_eq/=. set_solver.
Qed.

(** A separator that occurs in neither half determines the halves. *)
Lemma app_sep_inj_l {A} (c : A) a b a' b' :
  c ∉ a -> c ∉ a' -> a ++ c :: b = a' ++ c :: b' -> a = a' /\ b = b'.
Proof.
  revert a'. induction a as [|x a IH]; intros [|y a'] Ha Ha' Heq; simplify_eq/=; try set_solver.
  destruct (IH a') as [-> ->]; set_solver.
Qed.

Lemma app_sep_inj_r {A} (c : A) a b a' b' :
  c ∉ b -> c ∉ b' -> a ++ c :: b = a' ++ c :: b' -> a = a' /\ b = b'.
Proof.
  intros Hb Hb' Heq. apply (f_equal reverse) in Heq.
  rewrite !reverse_app, !reverse_cons, <- !app_assoc in Heq.
  apply app_sep_inj_l in Heq as [H1 H2].
  - split; by apply (inj reverse).
  - by rewrite elem_of_reverse.
  - by rewrite elem_of_reverse.
Qed.

Lemma trim_start_by_suffix p s : exists d, s = d ++ trim_start_by p s /\ Forall (fun c => p c) d.
Proof.
  induction s as [|x s (d & Hd & Hp)]; simpl; [by exists []|].
  destruct (p x) eqn:E.
  - exists (x :: d). split; [by rewrite Hd at 1|]. constructor; [by rewrite E|done].
  - by exists [].
Qed.

Lemma trim_start_by_head p s x r : trim_start_by p s = x :: r -> p x = false.
Proof.
  induction s as [|y s IH]; simpl; [done|].
  destruct (p y) eqn:E; [done|]. by intros [= -> ->].
Qed.

Lemma trim_end_by_prefix p s : exists d, s = trim_end_by p s ++ d /\ Forall (fun c => p c) d.
Proof.
  unfold trim_end_by. destruct (trim_start_by_suffix p (reverse s)) as (d & Hd & Hp).
  exists (reverse d). split; [|by apply Forall_reverse].
  rewrite <- reverse_app, <- Hd. by rewrite reverse_involutive.
Qed.

Lemma trim_end_by_last p s x r : trim_end_by p s = r ++ [x] -> p x = false.
Proof.
  unfold trim_end_by. intros H. apply (f_equal reverse) in H.
  rewrite reverse_involutive, reverse_app in H. by eapply trim_start_by_head in H.
Qed.

Lemma trim_end_by_Forall p (P : N -> Prop) s : Forall P s -> Forall P (trim_end_by p s).
Proof.
  intros H. destruct (trim_end_by_prefix p s) as (d & Hd & _).
  rewrite Hd in H. by apply Forall_app in H as [? _].
Qed.

Lemma trim_start_by_Forall p (P : N -> Prop) s : Forall P s -> Forall P (trim_start_by p s).
Proof.
  intros H. destruct (trim_start_by_suffix p s) as (d & Hd & _).
  rewrite Hd in H. by apply Forall_app in H as [_ ?].
Qed.

Lemma trim_end_by_length p s : length (trim_end_by p s) <= length s.
Proof.
  destruct (trim_end_by_prefix p s) as (d & Hd & _).
  rewrite Hd at 2. rewrite length_app. lia.
Qed.

Lemma trim_end_by_id p s : (forall x r, s = r ++ [x] -> p x = false) -> trim_end_by p s = s.
Proof.
  intros H. unfold trim_end_by. destruct (reverse s) as [|x r] eqn:E; simpl.
  - apply (f_equal reverse) in E. rewrite reverse_involutive in E. by rewrite E.
  - assert (s = reverse r ++ [x]) as Hs.
    { apply (f_equal reverse) in E. by rewrite reverse_involutive, reverse_cons in E. }
    rewrite (H _ _ Hs). by rewrite <- E, reverse_involutive.
Qed.

Lemma join_split c s : join [c] (split c s) = s.
Proof.
  induction s as [|x s IH]; simpl; [done|].
  case_bool_decide as Hx; simpl.
  - subst. destruct (split c s) as [|w ws] eqn:E; simpl in *; [|by rewrite IH].
    destruct s; simpl in E; repeat case_match; try case_bool_decide; done.
  - destruct (split c s) as [|w [|w' ws]]; simpl in *; by rewrite <- IH.
Qed.

Lemma split_sep_free c s : Forall (fun w => c ∉ w) (split c s).
Proof.
  induction s as [|x s IH]; simpl; [by constructor; [set_solver|]|].
  case_bool_decide; [constructor; [set_solver|done]|].
  destruct (split c s) as [|w ws]; [constructor; set_solver|].
  inversion IH; subst. constructor; set_solver.
Qed.

Lemma split_nonempty c s : split c s <> [].
Proof. destruct s; simpl; [done|]. case_bool_decide; [done|]. by case_match. Qed.

Lemma split_free c l : c ∉ l -> split c l = [l].
Proof.
  induction l as [|x l IH]; intros H; [done|]. simpl. rewrite bool_decide_false by set_solver.
  rewrite IH by set_solver. done.
Qed.

Lemma split_cons_sep c l s : c ∉ l -> split c (l ++ c :: s) = l :: split c s.
Proof.
  induction l as [|x l IH]; intros H; simpl; [by rewrite bool_decide_true|].
  rewrite bool_decide_false by set_solver. rewrite IH by set_solver. done.
Qed.

Lemma split_join c ws : ws <> [] -> Forall (fun w => c ∉ w) ws -> split c (join [c] ws) = ws.
Proof.
  intros Hne H. induction H as [|w ws Hw Hws IH]; [done|].
  destruct ws as [|w' ws]; [by apply split_free|].
  change (join [c] (w :: w' :: ws)) with (w ++ c :: join [c] (w' :: ws)).
  rewrite split_cons_sep by done. by rewrite IH.
Qed.

(** Text that neither starts nor ends in white space. *)
Lemma trim_id s : (forall x r, s = x :: r -> is_whitespace x = false) ->
  (forall x r, s = r ++ [x] -> is_whitespace x = false) -> trim s = s.
Proof.
  intros Hh Hl. unfold trim. destruct s as [|x s]; [done|]. cbn [trim_start_by].
  rewrite (Hh x s) by done. by apply trim_end_by_id.
Qed.

Lemma as_bytes_app a b : as_bytes (a ++ b) = as_bytes a ++ as_bytes b.
Proof. apply bind_app. Qed.

Lemma len_app a b : len (a ++ b) = len a + len b.
Proof. unfold len. by rewrite as_bytes_app, length_app. Qed.

Lemma len_cons x s : len (x :: s) = length (utf8_char x) + len s.
Proof. unfold len, as_bytes. by rewrite bind_cons, length_app. Qed.

Lemma utf8_char_pos x : 0 < length (utf8_char x).
Proof. unfold utf8_char. repeat case_bool_decide; simpl; lia. Qed.

Lemma utf8_char_ascii x : (x < 128)%N -> utf8_char x = [x].
Proof. intros H. unfold utf8_char. by rewrite bool_decide_true. Qed.

Lemma utf8_char_wide x : ~ (x < 128)%N -> 1 < length (utf8_char x).
Proof. intros H. unfold utf8_char. rewrite bool_decide_false by done. repeat case_bool_decide; simpl; lia. Qed.

(** Slicing at the end of a prefix. *)
Lemma split_at_app a b : split_at (a ++ b) (len a) = Some (a, b).
Proof.
  induction a as [|x a IH]; [by destruct b|]. simpl. rewrite len_cons.
  pose proof (utf8_char_pos x). rewrite !bool_decide_false by lia.
  by replace (length (utf8_char x) + len a - length (utf8_char x)) with (len a) by lia; rewrite IH.
Qed.

(** Slicing one byte into a character that has several. *)
Lemma split_at_inside a x b : ~ (x < 128)%N -> split_at (a ++ x :: b) (len a + 1) = None.
Proof.
  intros Hx. induction a as [|y a IH]; simpl.
  - rewrite bool_decide_true; [done|]. by apply utf8_char_wide.
  - rewrite len_cons. pose proof (utf8_char_pos y).
    rewrite (bool_decide_false (_ = 0)), bool_decide_false by lia.
    by replace (length (utf8_char y) + len a + 1 - length (utf8_char y)) with (len a + 1) by lia; rewrite IH.
Qed.

Lemma slice_app a b c : slice (a ++ b ++ c) (len a) (len a + len b) = Some b.
Proof.
  unfold slice. rewrite app_assoc, <- len_app, split_at_app. cbn. by rewrite split_at_app.
Qed.

(** The first occurrence of a string. *)
Lemma find_str_Some p s a b : p <> [] -> find_str p s = Some (a, b) ->
  s = a ++ b /\ starts_with p b = true.
Proof.
  intros Hp. revert a. induction s as [|x s IH]; intros a; cbn [find_str]; case_match eqn:E; try done.
  - intros [= <- <-]. done.
  - intros [= <- <-]. done.
  - intros ([a' b'] & Hf & Heq)%fmap_Some. simplify_eq/=. apply IH in Hf as [-> ?]. done.
Qed.

Lemma find_str_cons_no p x s : starts_with p (x :: s) = false ->
  find_str p (x :: s) = prod_map (cons x) id <$> find_str p s.
Proof. intros H. cbn [find_str]. by rewrite H. Qed.

Lemma find_str_here p s : starts_with p s = true -> find_str p s = Some ([], s).
Proof. intros H. destruct s; cbn [find_str]; by rewrite H. Qed.

Lemma starts_with_app p r : starts_with p (p ++ r) = true.
Proof. apply starts_with_true. by exists r. Qed.

Lemma starts_with_nil p : p <> [] -> starts_with p [] = false.
Proof. by destruct p. Qed.

Lemma contains_str_true p s : p <> [] -> contains_str p s = true <-> exists a b, s = a ++ p ++ b.
Proof.
  intros Hp. unfold contains_str. rewrite bool_decide_eq_true. split.
  - intros [[a b] H]. apply find_str_Some in H as [-> (r & ->)%starts_with_true]; [|done]. by exists a, r.
  - intros (a & b & ->). induction a as [|x a IH].
    + change ([] ++ p ++ b) with (p ++ b). by rewrite (find_str_here p (p ++ b)) by apply starts_with_app.
    + change ((x :: a) ++ p ++ b) with (x :: (a ++ p ++ b)).
      destruct (starts_with p (x :: (a ++ p ++ b))) eqn:E.
      * rewrite find_str_here by done. done.
      * rewrite find_str_cons_no by done. destruct IH as [? ->]. done.
Qed.

(** An ASCII string has as many bytes as characters. *)
Definition ascii_only (s : str) : Prop := Forall (fun c => (c < 128)%N) s.

Lemma as_bytes_ascii s : ascii_only s -> as_bytes s = s.
Proof.
  unfold as_bytes. induction 1 as [|x s Hx _ IH]; [done|].
  rewrite bind_cons, IH. unfold utf8_char. by rewrite bool_decide_true.
Qed.

Lemma len_ascii s : ascii_only s -> len s = length s.
Proof. intros H. unfold len. by rewrite as_bytes_ascii. Qed.

Lemma utf8_char_nonempty c : utf8_char c <> [].
Proof. unfold utf8_char. by repeat case_bool_decide. Qed.

(** A string of ASCII bytes is a string of those characters. *)
Lemma bytes_ascii_only s : Forall (fun b => (b < 128)%N) (as_bytes s) -> ascii_only s.
Proof.
  unfold as_bytes, ascii_only. induction s as [|x s IH]; intros H; [done|].
  rewrite bind_cons in H. apply Forall_app in H as [Hx Hs]. constructor; [|by apply IH].
  unfold utf8_char in Hx. repeat case_bool_decide; try done; exfalso.
  - apply Forall_cons in Hx as [Hx%N.lt_nge _]. apply Hx. etransitivity; [|apply N.le_add_r]. done.
  - apply Forall_cons in Hx as [Hx%N.lt_nge _]. apply Hx. etransitivity; [|apply N.le_add_r]. done.
  - apply Forall_cons in Hx as [Hx%N.lt_nge _]. apply Hx. etransitivity; [|apply N.le_add_r]. done.
Qed.

(** ** Decimal round trip *)

Lemma lit_cons a s : lit (String.String a s) = N_of_ascii a :: lit s.
Proof. done. Qed.

Lemma pretty_N_char_digit x : (x < 10)%N -> N_of_ascii (pretty_N_char x) = (48 + x)%N.
Proof.
  intros H. destruct x as [|p]; [done|].
  do 4 (destruct p as [p|p|]; try done; try lia).
Qed.

Lemma parse_digits_step acc x s : (x < 10)%N ->
  parse_digits acc ((48 + x)%N :: s) = parse_digits (acc * 10 + x)%N s.
Proof.
  intros H. cbn [parse_digits].
  assert (is_ascii_digit (48 + x) = true) as ->.
  { unfold is_ascii_digit, in_range. rewrite !bool_decide_true by lia. done. }
  f_equal. lia.
Qed.

Lemma parse_digits_go x : exists k, forall acc s,
  parse_digits acc (lit (pretty_N_go x s)) = parse_digits (acc * 10 ^ k + x)%N (lit s).
Proof.
  induction (N.lt_wf_0 x) as [x _ IH]. destruct (decide (0 < x)%N) as [Hx|Hx].
  - destruct (IH (x `div` 10)%N) as [k Hk]; [apply N.div_lt; lia|].
    exists (k + 1)%N. intros acc s. rewrite pretty_N_go_step by done. rewrite Hk, lit_cons.
    pose proof (N.mod_lt x 10 ltac:(done)). rewrite pretty_N_char_digit, parse_digits_step by done.
    f_equal. rewrite N.pow_add_r, N.pow_1_r. pose proof (N.div_mod x 10 ltac:(done)). lia.
  - assert (x = 0)%N as -> by lia. exists 0%N. intros acc s. rewrite pretty_N_go_0. f_equal. cbn. lia.
Qed.

Lemma pretty_N_go_digit x s : (0 < x)%N -> exists c r, lit (pretty_N_go x s) = c :: r /\ (c <> 43)%N.
Proof.
  revert s. induction (N.lt_wf_0 x) as [x _ IH]. intros s Hx. rewrite pretty_N_go_step by done.
  destruct (decide (0 < x `div` 10)%N) as [Hd|Hd].
  - apply IH; [apply N.div_lt; lia|done].
  - assert (x `div` 10 = 0)%N as -> by (by apply N.le_0_r, N.nlt_ge). rewrite pretty_N_go_0, lit_cons.
    rewrite pretty_N_char_digit by (apply N.mod_lt; done). eexists _, _. split; [done|].
    intros E. pose proof (N.le_add_r 48 (x `mod` 10)%N) as Hle. rewrite E in Hle. by vm_compute in Hle.
Qed.

Lemma parse_digits_show n : parse_digits 0 (show n) = Some n.
Proof.
  unfold show. change (pretty n) with (pretty_N n). unfold pretty_N. destruct (decide (n = 0)%N) as [->|Hn]; [done|].
  destruct (parse_digits_go n) as [k Hk]. by rewrite Hk.
Qed.

Lemma show_inj a b : show a = show b -> a = b.
Proof. intros H. pose proof (parse_digits_show a) as Ha. rewrite H, parse_digits_show in Ha. by injection Ha. Qed.

Lemma show_head n : exists c r, show n = c :: r /\ (c <> 43)%N.
Proof.
  unfold show. change (pretty n) with (pretty_N n). unfold pretty_N.
  destruct (decide (n = 0)%N) as [->|Hn]; [by eexists _, _|]. apply pretty_N_go_digit. lia.
Qed.

Lemma parse_uint_show max n : (n <= max)%N -> parse_uint max (show n) = Some n.
Proof.
  intros H. unfold parse_uint. destruct (show_head n) as (c & r & E & Hc).
  assert (strip_prefix [43%N] (show n) = None) as ->.
  { rewrite E. cbn. by rewrite bool_decide_false by done. }
  cbn [default from_option]. rewrite parse_digits_show, bool_decide_false by (by rewrite E).
  by rewrite bool_decide_true.
Qed.

Lemma show_digits n : Forall (fun c => is_ascii_digit c = true) (show n).
Proof.
  assert (forall s acc m, parse_digits acc s = Some m -> Forall (fun c => is_ascii_digit c = true) s) as H.
  { induction s as [|c s IH]; intros acc m; cbn; [done|]. case_match eqn:E; [|done]. intros Hp.
    constructor; [done|]. by eapply IH. }
  eapply H, parse_digits_show.
Qed.

(** A library that obeys the laws, for the witnesses: 32 zero bytes for every message. *)
Module ZeroHash.

Definition hex_digit (n : N) : char := if bool_decide (n < 10)%N then (48 + n)%N else (87 + n)%N.
Definition hex_byte (b : N) : str := [hex_digit (b / 16); hex_digit (b mod 16)].

Lemma hex_digit_range n : (n < 16)%N -> is_ascii_digit (hex_digit n) || in_range 97 102 (hex_digit n).
Proof.
  intros Hn. unfold hex_digit, is_ascii_digit, in_range.
  case_bool_decide; repeat case_bool_decide; simpl; try done; lia.
Qed.

Lemma length_hex_bytes bs : length (bs ≫= hex_byte) = 2 * length bs.
Proof. induction bs as [|b bs IH]; [done|]. rewrite bind_cons, length_app, IH. simpl. lia. Qed.

Lemma hex_bytes_range bs :
  Forall (fun b => (b < 256)%N) bs ->
  Forall (fun c => is_ascii_digit c || in_range 97 102 c) (bs ≫= hex_byte).
Proof.
  induction 1 as [|b bs Hb _ IH]; [done|]. simpl in Hb.
  rewrite bind_cons. apply Forall_app; split; [|done].
  unfold hex_byte. repeat constructor; apply hex_digit_range.
  - apply (N.Div0.div_lt_upper_bound _ 16 16). exact Hb.
  - by apply N.mod_lt.
Qed.

Definition lib : HashLib := mkHashLib (fun _ => replicate 32 0%N) (fun bs => bs ≫= hex_byte).

#[export] Instance laws : HashLaws lib.
Proof.
  split; intros; [done|by apply Forall_replicate|apply length_hex_bytes|by apply hex_bytes_range].
Qed.

End ZeroHash.

#[global] Arguments strip_prefix : simpl never.
#[global] Arguments strip_suffix : simpl never.
#[global] Arguments as_bytes : simpl never.
#[global] Arguments len : simpl never.
#[global] Opaque lit.
