(* ===== verification/PodNames.v ===== *)
(** * Pod names and backend identifiers

    [PodName] (daemon/protocol.rs) is the user-facing name of a pod, [PodId] and
    [Hostname] (executor/mod.rs) are the names the backend sees, and
    [sanitize_hostname] (daemon.rs) derives the container's hostname.  All of them
    are DNS-1123 labels.  [expect], [unwrap] and arithmetic underflow are [None]. *)
From S2P Require Import Prelude Strs.
#[local] Transparent lit.

(** ** The label rule, as the two validators implement it *)

Definition first_byte_ok (b : N) : bool := is_ascii_lowercase b || is_ascii_digit b.
Definition label_byte_ok (b : N) : bool :=
  is_ascii_lowercase b || is_ascii_digit b || bool_decide (b = c_hyphen).

Module Protocol.

(** [daemon::protocol::validate_dns_1123_label] *)
Definition validate_dns_1123_label (s : str) : result str unit :=
  if bool_decide (s = []) then Err (lit "empty")
  else if bool_decide (63 < len s) then Err (lit "too long (>63 chars)")
  else
    let bytes := as_bytes s in
    match bytes, last bytes with
    | first :: _, Some lst =>
        if negb (first_byte_ok first) then Err (lit "must start with [a-z0-9]")
        else if negb (first_byte_ok lst) then Err (lit "must end with [a-z0-9]")
        else if negb (forallb label_byte_ok bytes) then Err (lit "must match [-a-z0-9]*")
        else Ok tt
    | _, _ => Err (lit "empty")
    end.

Record PodName := mkPodName { pod_name : str }.

(** [PodName::new], also the serde [try_from] conversion. *)
Definition PodName_new (s : str) : result str PodName :=
  match validate_dns_1123_label s with
  | Ok _ => Ok (mkPodName s)
  | Err e => Err e
  end.

End Protocol.

Module Executor.

Inductive label_error :=
| LabelEmpty
| LabelTooLong (n : nat) (s : str)
| LabelBadStart (s : str)
| LabelBadEnd (s : str)
| LabelBadChar (s : str).

(** [executor::validate_dns_1123_label] *)
Definition validate_dns_1123_label (s : str) : result label_error unit :=
  if bool_decide (s = []) then Err LabelEmpty
  else if bool_decide (63 < len s) then Err (LabelTooLong (len s) s)
  else
    let bytes := as_bytes s in
    match bytes, last bytes with
    | first :: _, Some lst =>
        if negb (is_ascii_lowercase first) && negb (is_ascii_digit first) then Err (LabelBadStart s)
        else if negb (is_ascii_lowercase lst) && negb (is_ascii_digit lst) then Err (LabelBadEnd s)
        else if negb (forallb label_byte_ok bytes) then Err (LabelBadChar s)
        else Ok tt
    | _, _ => Err LabelEmpty
    end.

Record PodId := mkPodId { pod_id : str }.
Record Hostname := mkHostname { hostname : str }.

(** [PodId::new] and [Hostname::new] *)
Definition PodId_new (s : str) : result label_error PodId :=
  match validate_dns_1123_label s with Ok _ => Ok (mkPodId s) | Err e => Err e end.

Definition Hostname_new (s : str) : result label_error Hostname :=
  match validate_dns_1123_label s with Ok _ => Ok (mkHostname s) | Err e => Err e end.

(** [sanitize_dns_label_fragment]: the character loop, then the final pops. *)
Fixpoint sanitize_loop (max : nat) (last_was_hyphen : bool) (out s : str) : str :=
  match s with
  | [] => out
  | c :: s' =>
      let mapped := if is_ascii_alphanumeric c then to_ascii_lowercase c else c_hyphen in
      if bool_decide (mapped = c_hyphen) then
        if last_was_hyphen then sanitize_loop max true out s'
        else
          let out := out ++ [mapped] in
          if bool_decide (max <= len out) then out else sanitize_loop max true out s'
      else
        let out := out ++ [mapped] in
        if bool_decide (max <= len out) then out else sanitize_loop max false out s'
  end.

Definition sanitize_dns_label_fragment (s : str) (max : nat) : str :=
  trim_end_matches c_hyphen (sanitize_loop max true [] s).

(** [Path::file_name]: the last component, when it is a normal one. *)
Definition path_components (p : str) : list str :=
  filter (fun w => w <> [] /\ w <> lit ".") (split c_slash p).

Definition file_name (p : str) : option str :=
  match last (path_components p) with
  | Some w => if bool_decide (w = lit "..") then None else Some w
  | None => None
  end.

(** [usize] subtraction: underflow panics. *)
Definition checked_sub (a b : nat) : option nat :=
  if bool_decide (b <= a) then Some (a - b) else None.

Section PodIds.

(** The [sha2] and [hex] crates. *)
Context (lib : HashLib).

Definition repo_path_hash (repo_path : str) : str :=
  hex_encode lib (take 4 (sha256_digest lib (as_bytes repo_path))).

Definition BASENAME_MAX : nat := 15.

Definition basename_segment (repo_path : str) : str :=
  let basename :=
    match file_name repo_path with
    | Some n => sanitize_dns_label_fragment n BASENAME_MAX
    | None => []
    end in
  if bool_decide (basename = []) then [] else basename ++ [c_hyphen].

(** The number of characters of the pod name that are kept. *)
Definition max_pod (repo_path : str) : option nat :=
  a ← checked_sub 63 (len (lit "rumpel-"));
  b ← checked_sub a (len (basename_segment repo_path));
  c ← checked_sub b 1;
  checked_sub c (len (repo_path_hash repo_path)).

(** [pod_id_for] *)
Definition pod_id_for (pod : Protocol.PodName) (repo_path : str) : option PodId :=
  let hash := repo_path_hash repo_path in
  m ← max_pod repo_path;
  let pod_segment := trim_end_matches c_hyphen (take m (Protocol.pod_name pod)) in
  ok (PodId_new (lit "rumpel-" ++ basename_segment repo_path ++ pod_segment ++ [c_hyphen] ++ hash)).

End PodIds.

(** [hostname_for] *)
Definition hostname_for (pod : Protocol.PodName) : option Hostname :=
  ok (Hostname_new (Protocol.pod_name pod)).

End Executor.

(** [daemon::sanitize_hostname]; [trimmed[..63]] slices bytes. *)
Definition sanitize_hostname (s : str) : str :=
  let sanitized :=
    (fun c => if is_ascii_alphanumeric c || bool_decide (c = c_hyphen) then c else c_hyphen) <$> s in
  let trimmed := trim_matches c_hyphen sanitized in
  if bool_decide (trimmed = []) then lit "pod"
  else if bool_decide (63 < len trimmed) then trim_end_matches c_hyphen (take 63 trimmed)
  else trimmed.

(** ** The abstract rule *)

(** A DNS-1123 label: one to 63 characters of [[a-z0-9-]], no hyphen at either end. *)
Record dns_label (s : str) : Prop := {
  dns_nonempty : s <> [];
  dns_short : length s <= 63;
  dns_chars : Forall (fun c => label_byte_ok c) s;
  dns_first : forall r, s <> c_hyphen :: r;
  dns_last : forall r, s <> r ++ [c_hyphen];
}.

Lemma label_byte_ok_ascii c : label_byte_ok c -> (c < 128)%N.
Proof.
  unfold label_byte_ok, is_ascii_lowercase, is_ascii_digit, in_range, c_hyphen.
  repeat case_bool_decide; simpl; try done; lia.
Qed.

Lemma label_chars_ascii s : Forall (fun c => label_byte_ok c) s -> ascii_only s.
Proof. intros H. eapply Forall_impl; [exact H|]. intros c. apply label_byte_ok_ascii. Qed.

Lemma first_byte_ok_label c : first_byte_ok c = true <-> label_byte_ok c /\ c <> c_hyphen.
Proof.
  unfold first_byte_ok, label_byte_ok. case_bool_decide as Hc.
  - subst. split; [intros H; vm_compute in H; discriminate|by intros [_ ?]].
  - rewrite orb_false_r, Is_true_true. tauto.
Qed.

Lemma label_chars_forallb s : forallb label_byte_ok s = true <-> Forall (fun c => label_byte_ok c) s.
Proof.
  rewrite forallb_forall, Forall_forall. split; intros H x Hx.
  - apply Is_true_true, H. by apply list_elem_of_In.
  - apply Is_true_true, H. by apply list_elem_of_In.
Qed.

#[export] Hint Resolve label_chars_ascii : rumpel.

(** The case analysis both validators share, on an ASCII string. *)
Lemma dns_label_cases s :
  dns_label s <->
  s <> [] /\ length s <= 63 /\ forallb label_byte_ok s = true /\
  (exists x r, s = x :: r /\ first_byte_ok x = true) /\
  (exists x, last s = Some x /\ first_byte_ok x = true).
Proof.
  rewrite label_chars_forallb. split.
  - intros [Hne Hlen Hch Hf Hl]. split_and!; try done.
    + destruct s as [|x r]; [done|]. exists x, r. split; [done|].
      apply first_byte_ok_label. apply Forall_cons in Hch as [Hx _].
      split; [exact Hx|]. intros ->. by apply (Hf r).
    + destruct (last s) as [x|] eqn:E; [|by apply last_None in E].
      exists x. split; [done|]. apply last_Some in E as [r ->].
      apply Forall_app in Hch as [_ Hch]. apply Forall_cons in Hch as [Hx _].
      apply first_byte_ok_label. split; [exact Hx|]. intros ->. by apply (Hl r).
  - intros (Hne & Hlen & Hch & (x & r & -> & Hx) & (y & Hy & Hl)).
    apply first_byte_ok_label in Hx as [_ Hx]. apply first_byte_ok_label in Hl as [_ Hl].
    split; try done.
    + intros r' [= -> ->]. done.
    + intros r' Heq. rewrite Heq, last_snoc in Hy. by simplify_eq.
Qed.

Module NameTheorems.
Import Protocol.

Lemma validate_shape s :
  is_ok (validate_dns_1123_label s) = true <->
  s <> [] /\ len s <= 63 /\ forallb label_byte_ok (as_bytes s) = true /\
  (exists x r, as_bytes s = x :: r /\ first_byte_ok x = true) /\
  (exists x, last (as_bytes s) = Some x /\ first_byte_ok x = true).
Proof.
  unfold validate_dns_1123_label. case_bool_decide as Hne.
  { subst. split; [done|]. by intros (? & _). }
  case_bool_decide as Hlen; [split; [done|intros (_ & ? & _); lia]|].
  destruct (as_bytes s) as [|x r] eqn:Eb.
  { split; [done|]. intros (_ & _ & _ & (? & ? & ? & _) & _). done. }
  destruct (last (x :: r)) as [y|] eqn:El; [|by apply last_None in El].
  destruct (first_byte_ok x) eqn:Ex; simpl.
  2: { split; [done|]. intros (_ & _ & _ & (? & ? & ? & ?) & _). congruence. }
  destruct (first_byte_ok y) eqn:Ey; simpl.
  2: { split; [done|]. intros (_ & _ & _ & _ & (? & ? & ?)). congruence. }
  destruct (label_byte_ok x && forallb label_byte_ok r); simpl.
  - split; [|done]. intros _. split_and!; try done; [lia|eauto|eauto].
  - split; [done|]. by intros (_ & _ & ? & _).
Qed.

Lemma validate_iff s : is_ok (validate_dns_1123_label s) = true <-> dns_label s.
Proof.
  rewrite validate_shape, dns_label_cases.
  assert (forallb label_byte_ok (as_bytes s) = true \/ forallb label_byte_ok s = true ->
          as_bytes s = s) as Hb.
  { intros [H|H]; apply label_chars_forallb in H; apply as_bytes_ascii.
    - apply bytes_ascii_only. eapply Forall_impl; [done|]. intros c. apply label_byte_ok_ascii.
    - by apply label_chars_ascii. }
  split; intros (Hne & Hlen & Hch & Hrest); rewrite Hb in * by auto;
    (split_and!; try done; try (by destruct Hrest)); unfold len in *; rewrite Hb in * by auto; done.
Qed.

Lemma executor_agrees s :
  is_ok (Executor.validate_dns_1123_label s) = is_ok (validate_dns_1123_label s).
Proof.
  unfold Executor.validate_dns_1123_label, validate_dns_1123_label, first_byte_ok.
  repeat case_bool_decide; try done.
  destruct (as_bytes s) as [|x r]; [done|]. destruct (last (x :: r)) as [y|]; [|done].
  rewrite <- !negb_orb. repeat case_match; done.
Qed.

Lemma PodId_new_ok s : dns_label s -> Executor.PodId_new s = Ok (Executor.mkPodId s).
Proof.
  intros H%validate_iff. rewrite <- executor_agrees in H.
  unfold Executor.PodId_new. by destruct (Executor.validate_dns_1123_label s).
Qed.

Lemma Hostname_new_ok s : dns_label s -> Executor.Hostname_new s = Ok (Executor.mkHostname s).
Proof.
  intros H%validate_iff. rewrite <- executor_agrees in H.
  unfold Executor.Hostname_new. by destruct (Executor.validate_dns_1123_label s).
Qed.

Lemma PodName_new_Ok s p : PodName_new s = Ok p <-> dns_label s /\ p = mkPodName s.
Proof.
  rewrite <- validate_iff. unfold PodName_new.
  destruct (validate_dns_1123_label s); simpl; naive_solver.
Qed.

End NameTheorems.

Module PodIdTheorems.
Import Executor NameTheorems.

Lemma lowercased_label c :
  is_ascii_alphanumeric c -> label_byte_ok (to_ascii_lowercase c) /\ to_ascii_lowercase c <> c_hyphen.
Proof.
  unfold is_ascii_alphanumeric, to_ascii_lowercase, label_byte_ok, is_ascii_uppercase,
    is_ascii_lowercase, is_ascii_digit, in_range, c_hyphen.
  repeat (case_bool_decide; simpl; try done); try lia; intros; split; try done; lia.
Qed.

(** What the sanitizer's loop maintains about [out]. *)
Definition fragment_ok (max : nat) (out : str) : Prop :=
  Forall (fun c => label_byte_ok c) out /\ length out <= max /\ (forall r, out <> c_hyphen :: r).

Lemma fragment_ok_snoc max out c :
  fragment_ok max out -> label_byte_ok c -> (out = [] -> c <> c_hyphen) -> length out < max ->
  fragment_ok max (out ++ [c]).
Proof.
  intros (Hf & Hl & Hh) Hc Hne Hlt. split_and!.
  - apply Forall_app. split; [done|]. constructor; [exact Hc|constructor].
  - rewrite length_app. simpl. lia.
  - intros r Heq. destruct out as [|x out]; simplify_eq/=; [by apply Hne|by apply (Hh out)].
Qed.

Lemma sanitize_loop_ok max lwh out s :
  fragment_ok max out -> length out < max -> (out = [] -> lwh = true) ->
  fragment_ok max (sanitize_loop max lwh out s).
Proof.
  revert lwh out. induction s as [|c s IH]; intros lwh out Hok Hlt Hlwh; simpl; [done|].
  set (mapped := if is_ascii_alphanumeric c then to_ascii_lowercase c else c_hyphen).
  assert (label_byte_ok mapped) as Hm.
  { unfold mapped. destruct (is_ascii_alphanumeric c) eqn:E; [|done].
    by apply lowercased_label; rewrite E. }
  assert (forall lwh', (out = [] -> mapped <> c_hyphen) ->
     fragment_ok max (if bool_decide (max <= len (out ++ [mapped])) then out ++ [mapped]
                      else sanitize_loop max lwh' (out ++ [mapped]) s)) as Hpush.
  { intros lwh' Hne. assert (fragment_ok max (out ++ [mapped])) as Hok'.
    { by apply fragment_ok_snoc. }
    case_bool_decide as Hmax; [done|]. apply IH; [done| |by destruct out].
    destruct Hok' as (Hf & _). rewrite len_ascii in Hmax by (by apply label_chars_ascii). lia. }
  destruct (decide (mapped = c_hyphen)) as [Hh|Hh].
  - rewrite (bool_decide_true (mapped = c_hyphen)) by done.
    destruct lwh; [by apply IH|]. apply Hpush. intros Ho. by apply Hlwh in Ho.
  - rewrite (bool_decide_false (mapped = c_hyphen)) by done. by apply Hpush.
Qed.

Lemma sanitize_fragment_ok s max :
  0 < max ->
  fragment_ok max (sanitize_dns_label_fragment s max) /\
  (forall r, sanitize_dns_label_fragment s max <> r ++ [c_hyphen]).
Proof.
  intros Hmax. unfold sanitize_dns_label_fragment.
  assert (fragment_ok max (sanitize_loop max true [] s)) as (Hf & Hl & Hh).
  { apply sanitize_loop_ok; simpl; [|lia|done]. split_and!; [constructor|simpl; lia|done]. }
  set (out := sanitize_loop max true [] s) in *.
  destruct (trim_end_by_prefix (is_char c_hyphen) out) as (d & Hd & _).
  split; [split_and!|].
  - by apply trim_end_by_Forall.
  - etransitivity; [apply trim_end_by_length|done].
  - intros r Heq. unfold trim_end_matches in Heq. rewrite Heq in Hd. by apply (Hh (r ++ d)).
  - intros r Heq%trim_end_by_last. unfold is_char in Heq. by case_bool_decide.
Qed.

Lemma basename_segment_ok repo_path :
  Forall (fun c => label_byte_ok c) (basename_segment repo_path) /\
  length (basename_segment repo_path) <= 16.
Proof.
  unfold basename_segment. destruct (file_name repo_path) as [n|]; [|by repeat constructor; simpl; lia].
  destruct (sanitize_fragment_ok n BASENAME_MAX) as [(Hf & Hl & _) _]; [unfold BASENAME_MAX; lia|].
  case_bool_decide; [split; [constructor|simpl; lia]|].
  unfold BASENAME_MAX in *. rewrite length_app. simpl. split; [|lia].
  apply Forall_app. split; [exact Hf|]. by repeat constructor.
Qed.

Section WithDigest.
Context (lib : HashLib) {Hlib : HashLaws lib}.

Lemma hex_label_ok c : is_ascii_digit c || in_range 97 102 c -> label_byte_ok c /\ c <> c_hyphen.
Proof.
  unfold label_byte_ok, is_ascii_digit, is_ascii_lowercase, in_range, c_hyphen.
  repeat (case_bool_decide; simpl; try done); try lia; intros; split; try done; lia.
Qed.

Lemma repo_path_hash_ok repo_path :
  length (repo_path_hash lib repo_path) = 8 /\
  Forall (fun c => label_byte_ok c /\ c <> c_hyphen) (repo_path_hash lib repo_path).
Proof.
  unfold repo_path_hash. split.
  - rewrite hex_length, length_take, digest_length. done.
  - eapply Forall_impl; [apply hex_lower, Forall_take, digest_bytes|].
    intros c. apply hex_label_ok.
Qed.

Lemma max_pod_eq repo_path :
  max_pod lib repo_path = Some (47 - length (basename_segment repo_path)) /\
  31 <= 47 - length (basename_segment repo_path).
Proof.
  destruct (basename_segment_ok repo_path) as [Hb Hl].
  destruct (repo_path_hash_ok repo_path) as [Hhl Hh].
  unfold max_pod, checked_sub. rewrite !len_ascii.
  - rewrite Hhl. simpl length. repeat (rewrite bool_decide_true by lia; simpl).
    split; [f_equal|]; lia.
  - by repeat constructor.
  - by apply label_chars_ascii.
  - apply label_chars_ascii. eapply Forall_impl; [exact Hh|]. by intros c [? _].
Qed.

(** The string [pod_id_for] assembles. *)
Definition pod_id_string (name repo_path : str) : str :=
  lit "rumpel-" ++ basename_segment repo_path ++
  trim_end_matches c_hyphen (take (47 - length (basename_segment repo_path)) name) ++
  [c_hyphen] ++ repo_path_hash lib repo_path.

Lemma pod_id_string_label name repo_path :
  Forall (fun c => label_byte_ok c) name -> dns_label (pod_id_string name repo_path).
Proof.
  intros Hn. destruct (basename_segment_ok repo_path) as [Hb Hl].
  destruct (repo_path_hash_ok repo_path) as [Hhl Hh].
  destruct (max_pod_eq repo_path) as [_ Hmax].
  set (seg := trim_end_matches c_hyphen (take (47 - length (basename_segment repo_path)) name)).
  assert (Forall (fun c => label_byte_ok c) seg) as Hseg
    by (apply trim_end_by_Forall, Forall_take; done).
  assert (length seg <= 47 - length (basename_segment repo_path)) as Hsl.
  { etransitivity; [apply trim_end_by_length|]. rewrite length_take. lia. }
  split; unfold pod_id_string; fold seg.
  - done.
  - rewrite !length_app, Hhl. simpl. lia.
  - repeat (apply Forall_app; split); try done; [by repeat constructor|by repeat constructor|].
    eapply Forall_impl; [exact Hh|]. by intros c [? _].
  - done.
  - intros r Heq. destruct (repo_path_hash lib repo_path) as [|x hs _] using rev_ind; [done|].
    rewrite !app_assoc in Heq. apply app_inj_tail in Heq as [_ ->].
    apply Forall_app in Hh as [_ Hh]. by apply Forall_cons in Hh as [[_ ?] _].
Qed.

Lemma pod_id_for_eq name repo_path :
  Forall (fun c => label_byte_ok c) name ->
  pod_id_for lib (Protocol.mkPodName name) repo_path = Some (mkPodId (pod_id_string name repo_path)).
Proof.
  intros Hn. unfold pod_id_for. destruct (max_pod_eq repo_path) as [-> _]. simpl.
  change (Protocol.pod_name _) with name.
  fold (pod_id_string name repo_path). by rewrite PodId_new_ok by (by apply pod_id_string_label).
Qed.

(** The identifier determines the repository hash, and, for names that are
    not cut, the name. *)
Lemma pod_id_string_inj n1 n2 repo1 repo2 :
  pod_id_string n1 repo1 = pod_id_string n2 repo2 ->
  repo_path_hash lib repo1 = repo_path_hash lib repo2.
Proof.
  unfold pod_id_string. rewrite !app_assoc. intros Heq.
  apply app_inj_2 in Heq as [_ ->]; [done|].
  destruct (repo_path_hash_ok repo1) as [-> _]. by destruct (repo_path_hash_ok repo2) as [-> _].
Qed.

Lemma dns_label_uncut n m : dns_label n -> length n <= m -> trim_end_matches c_hyphen (take m n) = n.
Proof.
  intros Hn Hm. rewrite take_ge by done. apply trim_end_by_id.
  intros x r ->. unfold is_char. case_bool_decide as Hx; [|done].
  subst. by destruct (dns_last _ Hn r).
Qed.

End WithDigest.
End PodIdTheorems.

Module HostnameTheorems.
Import Executor NameTheorems.

Definition host_char (c : char) : bool := is_ascii_alphanumeric c || bool_decide (c = c_hyphen).

Lemma host_char_ascii c : host_char c -> (c < 128)%N.
Proof.
  unfold host_char, is_ascii_alphanumeric, is_ascii_lowercase, is_ascii_uppercase, is_ascii_digit,
    in_range, c_hyphen.
  repeat (case_bool_decide; simpl; try done); lia.
Qed.

(** RFC 1123 hostname shape, letters of either case. *)
Record rfc1123_hostname (s : str) : Prop := {
  host_nonempty : s <> [];
  host_short : length s <= 63;
  host_chars : Forall (fun c => host_char c) s;
  host_first : forall r, s <> c_hyphen :: r;
  host_last : forall r, s <> r ++ [c_hyphen];
}.

Definition host_map (c : char) : char :=
  if is_ascii_alphanumeric c || bool_decide (c = c_hyphen) then c else c_hyphen.

Lemma host_map_char c : host_char (host_map c).
Proof. unfold host_map. fold (host_char c). by destruct (host_char c) eqn:E; [rewrite E|]. Qed.

Lemma trim_end_hyphen_last s r : trim_end_matches c_hyphen s <> r ++ [c_hyphen].
Proof. intros H%trim_end_by_last. unfold is_char in H. by case_bool_decide. Qed.

Lemma trim_start_hyphen_first s r : trim_start_matches c_hyphen s <> c_hyphen :: r.
Proof. intros H%trim_start_by_head. unfold is_char in H. by case_bool_decide. Qed.

Lemma trim_end_first s c r :
  (forall r', s <> c :: r') -> trim_end_matches c_hyphen s <> c :: r.
Proof.
  intros H Heq. destruct (trim_end_by_prefix (is_char c_hyphen) s) as (d & Hd & _).
  unfold trim_end_matches in Heq. rewrite Heq in Hd. by apply (H (r ++ d)).
Qed.

(** Trimming trailing hyphens of a string that starts with something else
    leaves something. *)
Lemma trim_end_nonempty s x r :
  s = x :: r -> x <> c_hyphen -> trim_end_matches c_hyphen s <> [].
Proof.
  intros -> Hx Heq. destruct (trim_end_by_prefix (is_char c_hyphen) (x :: r)) as (d & Hd & Hall).
  unfold trim_end_matches in Heq. rewrite Heq in Hd. simpl in Hd. subst d.
  apply Forall_cons in Hall as [Hall _]. unfold is_char in Hall. by case_bool_decide.
Qed.

Lemma host_map_id s : Forall (fun c => label_byte_ok c) s -> host_map <$> s = s.
Proof.
  induction 1 as [|c s Hc _ IH]; [done|]. rewrite fmap_cons, IH. f_equal.
  unfold host_map, is_ascii_alphanumeric. unfold label_byte_ok in Hc.
  destruct (is_ascii_lowercase c), (is_ascii_digit c), (is_ascii_uppercase c);
    case_bool_decide; done.
Qed.

Lemma trim_start_id s : (forall r, s <> c_hyphen :: r) -> trim_start_by (is_char c_hyphen) s = s.
Proof.
  destruct s as [|x r]; [done|]. simpl. unfold is_char. case_bool_decide; [|done].
  subst. intros H. by destruct (H r).
Qed.

End HostnameTheorems.

(** ** Properties *)

(** A string is accepted as a pod name exactly when it is a DNS-1123 label,
    and the executor's copy of the validator accepts the same strings. *)
Theorem pod_name_validation s :
  (is_ok (Protocol.PodName_new s) = true <-> dns_label s) /\
  is_ok (Executor.PodId_new s) = is_ok (Protocol.PodName_new s).
Proof.
  rewrite <- NameTheorems.validate_iff. pose proof (NameTheorems.executor_agrees s) as H.
  unfold Protocol.PodName_new, Executor.PodId_new.
  destruct (Protocol.validate_dns_1123_label s), (Executor.validate_dns_1123_label s); done.
Qed.

(** [C38] The [expect] in [pod_id_for] never fires: for every accepted pod name and
    every repository path, no subtraction underflows and the derived backend
    identifier is a DNS-1123 label. *)
Theorem pod_id_for_total lib name pod repo_path :
  HashLaws lib ->
  Protocol.PodName_new name = Ok pod ->
  exists id, Executor.pod_id_for lib pod repo_path = Some id /\ dns_label (Executor.pod_id id).
Proof.
  intros Hlib [Hn ->]%NameTheorems.PodName_new_Ok. destruct Hn.
  eexists. split; [by apply PodIdTheorems.pod_id_for_eq|]. by apply PodIdTheorems.pod_id_string_label.
Qed.

Lemma pod_id_for_total_witness :
  exists id, Executor.pod_id_for ZeroHash.lib (Protocol.mkPodName "my-pod") "/home/me/My.Repo" = Some id
             /\ dns_label (Executor.pod_id id).
Proof.
  apply (pod_id_for_total ZeroHash.lib "my-pod"); [apply ZeroHash.laws|]. by vm_compute.
Defined.

(** Backend identifiers separate pods: equal identifiers mean equal repository
    hashes, and within one repository distinct names of at most 31 characters get
    distinct identifiers. *)
Theorem pod_id_for_injective lib n1 n2 p1 p2 repo1 repo2 id :
  HashLaws lib ->
  Protocol.PodName_new n1 = Ok p1 -> Protocol.PodName_new n2 = Ok p2 ->
  Executor.pod_id_for lib p1 repo1 = Some id ->
  Executor.pod_id_for lib p2 repo2 = Some id ->
  Executor.repo_path_hash lib repo1 = Executor.repo_path_hash lib repo2 /\
  (repo1 = repo2 -> length n1 <= 31 -> length n2 <= 31 -> n1 = n2).
Proof.
  intros Hlib [Hn1 ->]%NameTheorems.PodName_new_Ok [Hn2 ->]%NameTheorems.PodName_new_Ok H1 H2.
  pose proof (dns_chars _ Hn1) as Hc1. pose proof (dns_chars _ Hn2) as Hc2.
  rewrite (PodIdTheorems.pod_id_for_eq lib) in H1, H2 by done.
  assert (PodIdTheorems.pod_id_string lib n1 repo1 = PodIdTheorems.pod_id_string lib n2 repo2)
    as Hstr by congruence.
  split; [by eapply (PodIdTheorems.pod_id_string_inj lib)|].
  intros -> Hl1 Hl2. destruct (PodIdTheorems.max_pod_eq lib repo2) as [_ Hmax].
  revert Hstr. unfold PodIdTheorems.pod_id_string.
  rewrite !PodIdTheorems.dns_label_uncut by (done || lia).
  rewrite !app_assoc. intros Heq. do 2 apply app_inv_tail in Heq. by apply app_inv_head in Heq.
Qed.

Lemma pod_id_for_injective_witness :
  Executor.repo_path_hash ZeroHash.lib "/a/r" = Executor.repo_path_hash ZeroHash.lib "/a/r" /\
  (lit "/a/r" = lit "/a/r" -> length (lit "dev") <= 31 -> length (lit "dev") <= 31 -> lit "dev" = lit "dev").
Proof.
  apply (pod_id_for_injective ZeroHash.lib "dev" "dev" (Protocol.mkPodName "dev")
           (Protocol.mkPodName "dev") "/a/r" "/a/r" (Executor.mkPodId "rumpel-r-dev-00000000"));
    [apply ZeroHash.laws|vm_compute; reflexivity..].
Defined.

(** Longer names are cut: in every repository there are two distinct accepted pod
    names that share one backend identifier. *)
Theorem pod_id_for_collision lib repo_path :
  HashLaws lib ->
  exists n1 n2 p1 p2, n1 <> n2 /\
    Protocol.PodName_new n1 = Ok p1 /\ Protocol.PodName_new n2 = Ok p2 /\
    Executor.pod_id_for lib p1 repo_path = Executor.pod_id_for lib p2 repo_path.
Proof.
  intros Hlib. pose (base := replicate 62 97%N).
  exists (base ++ [98%N]), (base ++ [99%N]),
    (Protocol.mkPodName (base ++ [98%N])), (Protocol.mkPodName (base ++ [99%N])).
  split_and!; [intros Heq%app_inv_head; discriminate|by vm_compute|by vm_compute|].
  assert (forall c, label_byte_ok c -> Forall (fun c => label_byte_ok c) (base ++ [c])) as Hok.
  { intros c Hc. apply Forall_app. split; [by apply Forall_replicate|by repeat constructor]. }
  rewrite !(PodIdTheorems.pod_id_for_eq lib) by (by apply Hok).
  unfold PodIdTheorems.pod_id_string. by rewrite !take_app_le by (unfold base; rewrite length_replicate; lia).
Qed.

Lemma pod_id_for_collision_witness :
  exists n1 n2 p1 p2, n1 <> n2 /\
    Protocol.PodName_new n1 = Ok p1 /\ Protocol.PodName_new n2 = Ok p2 /\
    Executor.pod_id_for ZeroHash.lib p1 "/a/r" = Executor.pod_id_for ZeroHash.lib p2 "/a/r".
Proof. apply (pod_id_for_collision ZeroHash.lib "/a/r"). apply ZeroHash.laws. Defined.

(** The container hostname derived from any text is an RFC 1123 hostname, and a
    pod name is its own hostname, so the [Hostname] conversion cannot fail on it. *)
Theorem sanitize_hostname_valid s :
  HostnameTheorems.rfc1123_hostname (sanitize_hostname s) /\
  (dns_label s -> sanitize_hostname s = s /\ is_ok (Executor.Hostname_new (sanitize_hostname s)) = true).
Proof.
  unfold sanitize_hostname. fold HostnameTheorems.host_map.
  set (trimmed := trim_matches c_hyphen (HostnameTheorems.host_map <$> s)).
  assert (Forall (fun c => HostnameTheorems.host_char c) trimmed) as Hch.
  { apply trim_end_by_Forall, trim_start_by_Forall, Forall_fmap, Forall_true.
    intros c. apply HostnameTheorems.host_map_char. }
  assert (ascii_only trimmed) as Hascii
    by (eapply Forall_impl; [exact Hch|]; intros c; apply HostnameTheorems.host_char_ascii).
  assert (forall r, trimmed <> c_hyphen :: r) as Hfirst.
  { intros r. apply HostnameTheorems.trim_end_first, HostnameTheorems.trim_start_hyphen_first. }
  assert (forall r, trimmed <> r ++ [c_hyphen]) as Hlast
    by (intros r; apply HostnameTheorems.trim_end_hyphen_last).
  rewrite len_ascii by done. split.
  - repeat case_bool_decide.
    + split; [done|simpl; lia|by repeat constructor|done|].
      intros [|? [|? [|? [|]]]]; discriminate.
    + destruct trimmed as [|x r] eqn:E; [done|]. split.
      * eapply HostnameTheorems.trim_end_nonempty; [done|]. by intros ->; apply (Hfirst r).
      * etransitivity; [apply trim_end_by_length|]. rewrite length_take. lia.
      * apply trim_end_by_Forall. by apply Forall_take.
      * intros r'. apply HostnameTheorems.trim_end_first.
        intros r'' Heq. simpl in Heq. simplify_eq. by apply (Hfirst r).
      * intros r'. apply HostnameTheorems.trim_end_hyphen_last.
    + split; try done. lia.
  - intros Hs. assert (trimmed = s) as ->.
    { unfold trimmed, trim_matches, trim_start_matches, trim_end_matches.
      rewrite (HostnameTheorems.host_map_id s) by apply (dns_chars _ Hs).
      rewrite HostnameTheorems.trim_start_id by apply (dns_first _ Hs).
      rewrite trim_end_by_id; [done|]. intros x r ->. unfold is_char.
      case_bool_decide; [|done]. subst. by destruct (dns_last _ Hs r). }
    pose proof (dns_nonempty _ Hs). pose proof (dns_short _ Hs).
    rewrite !bool_decide_false by (done || lia). split; [done|].
    by rewrite NameTheorems.Hostname_new_ok.
Qed.

Lemma sanitize_hostname_valid_witness :
  sanitize_hostname "my-pod" = lit "my-pod" /\
  is_ok (Executor.Hostname_new (sanitize_hostname "my-pod")) = true.
Proof.
  apply (sanitize_hostname_valid "my-pod").
  apply NameTheorems.validate_iff. by vm_compute.
Defined.
