(* ===== verification/Access.v ===== *)
(** * Branch synchronisation and push access control

    The pod side of the [reference-transaction] hook and the host side of the
    [pre-receive] hook (hook.rs), and the translation of branch upstreams when a pod
    is forked (daemon.rs). *)
From S2P Require Import Prelude Strs PodNames.

Definition ZERO_OID : str := "0000000000000000000000000000000000000000".

(** [read_ref_updates]: the lines of standard input with exactly three fields. *)
Definition parse_ref_update (line : str) : option (str * str * str) :=
  match split_whitespace line with
  | [old; new; refname] => Some (old, new, refname)
  | _ => None
  end.

Definition read_ref_updates (stdin : str) : list (str * str * str) :=
  omap parse_ref_update (lines stdin).

(** ** Host: [check_push_access] and [host_pre_receive] *)

Inductive push_error := AccessDenied.

Definition check_push_access (refname : str) (pod_name : option str) : result push_error unit :=
  match pod_name with
  | Some name =>
      let is_namespaced :=
        starts_with "refs/rumpelpod/" refname && ends_with ([c_at] ++ name) refname in
      let is_primary_shortcut := bool_decide (refname = lit "refs/rumpelpod/" ++ name) in
      if negb is_namespaced && negb is_primary_shortcut then Err AccessDenied else Ok tt
  | None => Err AccessDenied
  end.

(** The hook rejects the whole push at the first refused update; [POD_NAME] is the
    variable the HTTP server sets. *)
Fixpoint check_all (updates : list (str * str * str)) (pod_name : option str) : result push_error unit :=
  match updates with
  | [] => Ok tt
  | (_, _, refname) :: rest =>
      match check_push_access refname pod_name with
      | Ok _ => check_all rest pod_name
      | Err e => Err e
      end
  end.

Definition host_pre_receive (pod_name : option str) (stdin : str) : result push_error unit :=
  check_all (read_ref_updates stdin) pod_name.

(** ** Pod: [reference_transaction] *)

(** One [git] invocation: its arguments and whether LFS upload is skipped. *)
Record git_run := mkRun { run_args : list str; run_skip_lfs : bool }.

Section ReferenceTransaction.

(** [git::prepare_lfs_for_new_ref], which runs [git lfs]. *)
Context (prepare_lfs_for_new_ref : str -> result unit bool).

Definition update_runs (pod_name : option str) (u : str * str * str) : list git_run :=
  let '(oldvalue, newvalue, refname) := u in
  match strip_prefix "refs/heads/" refname with
  | None => []
  | Some branch =>
      let skip :=
        if negb (bool_decide (newvalue = ZERO_OID)) && bool_decide (oldvalue = ZERO_OID)
        then prepare_lfs_for_new_ref newvalue else Ok false in
      match skip with
      | Err _ => []
      | Ok skip_lfs_pre_push =>
          (if bool_decide (newvalue = ZERO_OID)
           then mkRun [lit "push"; lit "rumpelpod"; lit "--delete"; branch; lit "--quiet"] false
           else mkRun [lit "push"; lit "rumpelpod"; branch; lit "--force"; lit "--quiet"]
                  skip_lfs_pre_push)
          :: (if bool_decide (pod_name = Some branch) then
                [if bool_decide (newvalue = ZERO_OID)
                 then mkRun [lit "push"; lit "rumpelpod"; lit "--delete";
                             lit "refs/rumpelpod/" ++ branch; lit "--quiet"] false
                 else mkRun [lit "push"; lit "rumpelpod";
                             newvalue ++ [c_colon] ++ lit "refs/rumpelpod/" ++ branch;
                             lit "--force"; lit "--quiet"] skip_lfs_pre_push]
              else [])
      end
  end.

Definition reference_transaction (state : str) (pod_name : option str) (stdin : str) : list git_run :=
  if negb (bool_decide (state = lit "committed")) then []
  else read_ref_updates stdin ≫= update_runs pod_name.

End ReferenceTransaction.

(** ** Forks: [rewrite_upstream] *)

Definition rewrite_upstream (upstream : option str) (source new_name : str)
    (branch_set : gset str) : option str :=
  upstream ← upstream;
  match strip_prefix "host/" upstream with
  | Some _ => Some upstream
  | None =>
      match strip_prefix "rumpelpod/" upstream with
      | Some rest =>
          let '(pod, branch) :=
            match rsplit_once c_at rest with
            | Some (br, pd) => (pd, Some br)
            | None => (rest, None)
            end in
          if bool_decide (pod = source) then
            Some (match branch with
                  | Some b => lit "rumpelpod/" ++ b ++ [c_at] ++ new_name
                  | None => lit "rumpelpod/" ++ new_name
                  end)
          else Some upstream
      | None =>
          if bool_decide (upstream = source) then Some new_name
          else if bool_decide (upstream ∈ branch_set) then Some upstream
          else None
      end
  end.

(** ** Lemmas *)

(** The refs a pod owns. *)
Definition owned_ref (name refname : str) : Prop :=
  (exists branch, refname = lit "refs/rumpelpod/" ++ branch ++ [c_at] ++ name) \/
  refname = lit "refs/rumpelpod/" ++ name.

(** A suffix that starts with a character absent from the prefix lies after it. *)
Lemma suffix_after_prefix {A} (c : A) p x y n :
  c ∉ p -> p ++ x = y ++ c :: n -> exists b, x = b ++ c :: n.
Proof.
  revert y. induction p as [|a p IH]; intros y Hc Heq; simpl in *; [by exists y|].
  destruct y as [|b y]; simplify_eq/=; [set_solver|]. apply (IH y); set_solver.
Qed.

Lemma at_not_in_namespace : c_at ∉ lit "refs/rumpelpod/".
Proof. decide_now. Qed.

Lemma check_push_access_owned name refname :
  check_push_access refname (Some name) = Ok tt <-> owned_ref name refname.
Proof.
  assert (starts_with "refs/rumpelpod/" refname && ends_with ([c_at] ++ name) refname = true <->
          exists branch, refname = lit "refs/rumpelpod/" ++ branch ++ [c_at] ++ name) as Hns.
  { rewrite andb_true_iff, starts_with_true, ends_with_true. split.
    - intros [[x ->] [y Heq]].
      destruct (suffix_after_prefix c_at _ x y name at_not_in_namespace Heq) as [b ->]. by exists b.
    - intros [b ->]. split; [by eexists|].
      exists (lit "refs/rumpelpod/" ++ b). by rewrite <- app_assoc. }
  unfold check_push_access, owned_ref. rewrite <- Hns.
  destruct (starts_with _ _ && ends_with _ _); simpl; [naive_solver|].
  case_bool_decide; naive_solver.
Qed.

Lemma dns_label_no_char c s : dns_label s -> label_byte_ok c = false -> c ∉ s.
Proof.
  intros [_ _ Hch _ _] Hc Hin. rewrite Forall_forall in Hch. apply Hch in Hin. by rewrite Hc in Hin.
Qed.

Lemma dns_label_no_at s : dns_label s -> c_at ∉ s.
Proof. intros H. by apply (dns_label_no_char _ _ H). Qed.

Lemma dns_label_no_slash s : dns_label s -> c_slash ∉ s.
Proof. intros H. by apply (dns_label_no_char _ _ H). Qed.

#[export] Hint Resolve dns_label_no_at dns_label_no_slash : rumpel.

Lemma owned_ref_disjoint n1 n2 r :
  dns_label n1 -> dns_label n2 -> owned_ref n1 r -> owned_ref n2 r -> n1 = n2.
Proof.
  intros H1%dns_label_no_at H2%dns_label_no_at [[b1 ->]| ->] [[b2 Heq]|Heq];
    apply app_inv_head in Heq; simpl in Heq.
  - by apply app_sep_inj_r in Heq as [_ ->].
  - subst. set_solver.
  - subst. set_solver.
  - done.
Qed.

Lemma check_all_Ok updates pod_name :
  check_all updates pod_name = Ok tt <->
  Forall (fun '(_, _, refname) => check_push_access refname pod_name = Ok tt) updates.
Proof.
  induction updates as [|[[old new] r] us IH]; simpl; [by split|].
  rewrite Forall_cons. destruct (check_push_access r pod_name) as [[]|e]; [rewrite IH|]; naive_solver.
Qed.

(** The pod an upstream under [rumpelpod/] refers to. *)
Definition upstream_pod (u : str) : option str :=
  rest ← strip_prefix "rumpelpod/" u;
  Some (match rsplit_once c_at rest with Some (_, pd) => pd | None => rest end).

Lemma upstream_pod_branch b n :
  c_at ∉ n -> upstream_pod (lit "rumpelpod/" ++ b ++ c_at :: n) = Some n.
Proof.
  intros Hn. unfold upstream_pod. rewrite strip_prefix_app. simpl.
  by rewrite (proj2 (rsplit_once_Some c_at (b ++ c_at :: n) b n)).
Qed.

Lemma upstream_pod_primary n : c_at ∉ n -> upstream_pod (lit "rumpelpod/" ++ n) = Some n.
Proof.
  intros Hn. unfold upstream_pod. rewrite strip_prefix_app. simpl.
  by rewrite (proj2 (rsplit_once_None c_at n)).
Qed.

Lemma upstream_pod_no_slash u : c_slash ∉ u -> upstream_pod u = None.
Proof.
  intros Hu. unfold upstream_pod. destruct (strip_prefix "rumpelpod/" u) as [r|] eqn:E; [|done].
  apply strip_prefix_Some in E. subst. exfalso. apply Hu. apply elem_of_app. left. decide_now.
Qed.

(** ** Properties *)



(** A push is refused as a whole: without a pod name any update is refused, and with
    one the push goes through exactly when every update is to a ref of that pod. *)
Theorem host_pre_receive_iff pod_name stdin :
  host_pre_receive pod_name stdin = Ok tt <->
  match pod_name with
  | None => read_ref_updates stdin = []
  | Some name => Forall (fun '(_, _, refname) => owned_ref name refname) (read_ref_updates stdin)
  end.
Proof.
  unfold host_pre_receive. destruct pod_name as [name|].
  - rewrite check_all_Ok. apply Forall_iff. intros [[old new] r]. apply check_push_access_owned.
  - by destruct (read_ref_updates stdin) as [|[[old new] r] us].
Qed.

(** The ref [refs/rumpelpod/host-head], from which pods learn the host's HEAD, is
    writable by exactly one pod name, the accepted name [host-head]. *)
Theorem host_head_writable name pod :
  Protocol.PodName_new name = Ok pod ->
  check_push_access "refs/rumpelpod/host-head" (Some name) = Ok tt <-> name = lit "host-head".
Proof.
  intros [Hn _]%NameTheorems.PodName_new_Ok. rewrite check_push_access_owned. split.
  - intros [[b Heq]|Heq].
    + exfalso. apply (f_equal (fun l => bool_decide (c_at ∈ l))) in Heq.
      rewrite (bool_decide_true (c_at ∈ _ ++ b ++ _)) in Heq by (rewrite !elem_of_app; set_solver).
      vm_compute in Heq. done.
    + change (lit "refs/rumpelpod/host-head") with (lit "refs/rumpelpod/" ++ lit "host-head") in Heq.
      by apply app_inv_head in Heq.
  - intros ->. by right.
Qed.

Lemma host_head_writable_witness :
  is_ok (Protocol.PodName_new "host-head") = true /\
  (check_push_access "refs/rumpelpod/host-head" (Some (lit "host-head")) = Ok tt <->
   lit "host-head" = lit "host-head").
Proof.
  split; [by vm_compute|]. apply (host_head_writable "host-head" (Protocol.mkPodName "host-head")).
  by vm_compute.
Defined.

(** The pod hook pushes each committed branch update, and additionally the primary
    shortcut exactly for the branch named after the pod; that shortcut is a ref the
    host's hook lets this pod write.  Nothing else is pushed. *)
Theorem reference_transaction_runs prepare state pod_name stdin run :
  run ∈ reference_transaction prepare state (Some pod_name) stdin ->
  state = lit "committed" /\
  exists old new branch,
    (old, new, lit "refs/heads/" ++ branch) ∈ read_ref_updates stdin /\
    ((run_args run = [lit "push"; lit "rumpelpod"; lit "--delete"; branch; lit "--quiet"] /\ new = ZERO_OID) \/
     (run_args run = [lit "push"; lit "rumpelpod"; branch; lit "--force"; lit "--quiet"] /\ new <> ZERO_OID) \/
     (branch = pod_name /\
      check_push_access (lit "refs/rumpelpod/" ++ branch) (Some pod_name) = Ok tt /\
      (run_args run = [lit "push"; lit "rumpelpod"; lit "--delete"; lit "refs/rumpelpod/" ++ branch; lit "--quiet"] /\ new = ZERO_OID \/
       run_args run = [lit "push"; lit "rumpelpod"; new ++ [c_colon] ++ lit "refs/rumpelpod/" ++ branch; lit "--force"; lit "--quiet"] /\ new <> ZERO_OID))).
Proof.
  unfold reference_transaction. case_bool_decide as Hst; cbn [negb];
    [|intros Hrun; by apply not_elem_of_nil in Hrun].
  intros ([[old new] r] & Hrun & Hin)%list_elem_of_bind. split; [done|].
  unfold update_runs in Hrun. destruct (strip_prefix _ r) as [branch|] eqn:Er;
    [|by apply not_elem_of_nil in Hrun].
  apply strip_prefix_Some in Er. subst r. exists old, new, branch. split; [done|].
  destruct (if _ && _ then _ else _) as [skip|]; [|by apply not_elem_of_nil in Hrun].
  apply elem_of_cons in Hrun as [->|Hrun].
  { destruct (decide (new = ZERO_OID)) as [Hz|Hz].
    - rewrite bool_decide_true by exact Hz. left. split; [reflexivity|exact Hz].
    - rewrite bool_decide_false by exact Hz. right; left. split; [reflexivity|exact Hz]. }
  destruct (decide (Some pod_name = Some branch)) as [Hb|Hb];
    [rewrite bool_decide_true in Hrun by exact Hb
    |rewrite bool_decide_false in Hrun by exact Hb; by apply not_elem_of_nil in Hrun].
  injection Hb as ->. apply list_elem_of_singleton in Hrun as ->.
  right; right. split; [reflexivity|]. split; [apply check_push_access_owned; by right|].
  destruct (decide (new = ZERO_OID)) as [Hz|Hz].
  - rewrite bool_decide_true by exact Hz. left. split; [reflexivity|exact Hz].
  - rewrite bool_decide_false by exact Hz. right. split; [reflexivity|exact Hz].
Qed.

Lemma reference_transaction_runs_witness :
  lit "committed" = lit "committed" /\
  exists old new branch,
    (old, new, lit "refs/heads/" ++ branch) ∈ read_ref_updates "1 2 refs/heads/dev" /\
    (([lit "push"; lit "rumpelpod"; lit "dev"; lit "--force"; lit "--quiet"]
       = [lit "push"; lit "rumpelpod"; lit "--delete"; branch; lit "--quiet"] /\ new = ZERO_OID) \/
     ([lit "push"; lit "rumpelpod"; lit "dev"; lit "--force"; lit "--quiet"]
       = [lit "push"; lit "rumpelpod"; branch; lit "--force"; lit "--quiet"] /\ new <> ZERO_OID) \/
     (branch = lit "dev" /\
      check_push_access (lit "refs/rumpelpod/" ++ branch) (Some (lit "dev")) = Ok tt /\
      ([lit "push"; lit "rumpelpod"; lit "dev"; lit "--force"; lit "--quiet"]
        = [lit "push"; lit "rumpelpod"; lit "--delete"; lit "refs/rumpelpod/" ++ branch; lit "--quiet"] /\ new = ZERO_OID \/
       [lit "push"; lit "rumpelpod"; lit "dev"; lit "--force"; lit "--quiet"]
        = [lit "push"; lit "rumpelpod"; new ++ [c_colon] ++ lit "refs/rumpelpod/" ++ branch; lit "--force"; lit "--quiet"] /\ new <> ZERO_OID))).
Proof.
  apply (reference_transaction_runs (fun _ => Ok false) "committed" "dev" "1 2 refs/heads/dev"
    (mkRun [lit "push"; lit "rumpelpod"; lit "dev"; lit "--force"; lit "--quiet"] false)).
  left.
Defined.

(** A fork never tracks its source pod: whatever upstream a branch had, the rewritten
    one does not refer to the source pod, and what referred to the source's branch
    [b] now refers to the same branch of the fork. *)
Theorem rewrite_upstream_leaves_source upstream source new_name branches u :
  dns_label source -> dns_label new_name -> source <> new_name ->
  rewrite_upstream upstream source new_name branches = Some u ->
  upstream_pod u <> Some source /\
  (forall b, upstream = Some (lit "rumpelpod/" ++ b ++ [c_at] ++ source) ->
             u = lit "rumpelpod/" ++ b ++ [c_at] ++ new_name).
Proof.
  intros Hs Hn Hne. destruct upstream as [up|]; [|done]. unfold rewrite_upstream. simpl.
  destruct (strip_prefix "host/" up) as [r|] eqn:Eh.
  { intros <-%(inj Some). apply strip_prefix_Some in Eh. subst up. split; [done|].
    intros b Heq%(inj Some). discriminate. }
  destruct (strip_prefix "rumpelpod/" up) as [rest|] eqn:Er.
  - apply strip_prefix_Some in Er. subst up.
    destruct (rsplit_once c_at rest) as [[br pd]|] eqn:Esp; simpl.
    + pose proof Esp as Esp'. apply rsplit_once_Some in Esp as [-> Hpd].
      case_bool_decide as Hpod; intros <-%(inj Some).
      * subst pd. split; [rewrite upstream_pod_branch by auto with rumpel; congruence|].
        intros b Heq%(inj Some)%app_inv_head.
        apply app_sep_inj_r in Heq as [-> _]; auto with rumpel.
      * split.
        -- unfold upstream_pod. rewrite strip_prefix_app. simpl. rewrite Esp'. congruence.
        -- intros b Heq%(inj Some)%app_inv_head.
           apply app_sep_inj_r in Heq as [_ ->]; auto with rumpel. done.
    + apply rsplit_once_None in Esp.
      case_bool_decide as Hpod; intros <-%(inj Some).
      * split; [rewrite upstream_pod_primary by auto with rumpel; congruence|].
        intros b ->%(inj Some)%app_inv_head. set_solver.
      * split; [rewrite upstream_pod_primary by done; congruence|].
        intros b ->%(inj Some)%app_inv_head. set_solver.
  - assert (forall b, up <> lit "rumpelpod/" ++ b) as Hno.
    { intros b ->. by rewrite strip_prefix_app in Er. }
    assert (upstream_pod up = None) as Hup by (unfold upstream_pod; by rewrite Er).
    repeat case_bool_decide; [| |done]; intros <-%(inj Some);
      (split; [|intros b Heq%(inj Some); by apply Hno in Heq]).
    + by rewrite upstream_pod_no_slash by auto with rumpel.
    + by rewrite Hup.
Qed.

Lemma rewrite_upstream_leaves_source_witness :
  upstream_pod "rumpelpod/main@new" <> Some (lit "src") /\
  (forall b, Some (lit "rumpelpod/main@src") = Some (lit "rumpelpod/" ++ b ++ [c_at] ++ lit "src") ->
             lit "rumpelpod/main@new" = lit "rumpelpod/" ++ b ++ [c_at] ++ lit "new").
Proof.
  apply (rewrite_upstream_leaves_source (Some (lit "rumpelpod/main@src")) "src" "new" ∅);
    [apply NameTheorems.validate_iff; by vm_compute|apply NameTheorems.validate_iff; by vm_compute
    |done|by vm_compute].
Defined.
