(* ===== verification/Hosts.v ===== *)
(** * Hosts and container engines

    [ContainerEngine] and [Host] (config.rs) say where a pod runs; [HostKey]
    (daemon/host_connection.rs) is the identity under which connections to a host
    are shared.  A [panic!] is [None]. *)
From S2P Require Import Prelude Strs.

Inductive ContainerEngine := Auto | Docker | Podman.

#[export] Instance ContainerEngine_eq_dec : EqDecision ContainerEngine.
Proof. solve_decision. Defined.

Record KubernetesToleration := mkToleration {
  tol_key : str;
  tol_value : option str;
  tol_effect : str;
  tol_operator : option str;
}.

#[export] Instance KubernetesToleration_eq_dec : EqDecision KubernetesToleration.
Proof. solve_decision. Defined.

Inductive Host :=
| Localhost (engine : ContainerEngine)
| Ssh (ssh_destination : str) (engine : ContainerEngine)
| Kubernetes (context namespace registry : str)
    (node_selector : option (list (str * str)))
    (tolerations : option (list KubernetesToleration))
    (builder : option str) (image_builder : ContainerEngine).

#[export] Instance Host_eq_dec : EqDecision Host.
Proof. solve_decision. Defined.

(** [ContainerEngine::parse], [binary_name], [resolve] *)
Definition ContainerEngine_parse (s : str) : result str ContainerEngine :=
  if bool_decide (s = lit "auto") then Ok Auto
  else if bool_decide (s = lit "docker") then Ok Docker
  else if bool_decide (s = lit "podman") then Ok Podman
  else Err (lit "unknown container engine '" ++ s ++ lit "': expected auto, docker, or podman").

Definition binary_name (e : ContainerEngine) : option str :=
  match e with
  | Auto => None
  | Docker => Some (lit "docker")
  | Podman => Some (lit "podman")
  end.

Inductive resolve_error :=
| NoEngine (reason : str)
| NoDocker (reason : str)
| DockerMissing (reason : str)
| PodmanUnsupported (reason : str)
| PodmanMissing (reason : str).

Section Resolve.

(** [crate::which]: whether a program is on the PATH. *)
Context (which : str -> bool).

Definition resolve (e : ContainerEngine) (allow_podman : bool) (reason : str)
    : result resolve_error ContainerEngine :=
  match e with
  | Auto =>
      if which "docker" then Ok Docker
      else if allow_podman && which "podman" then Ok Podman
      else if allow_podman then Err (NoEngine reason) else Err (NoDocker reason)
  | Docker => if which "docker" then Ok Docker else Err (DockerMissing reason)
  | Podman =>
      if negb allow_podman then Err (PodmanUnsupported reason)
      else if which "podman" then Ok Podman else Err (PodmanMissing reason)
  end.

(** [Host::resolve_container_tools] *)
Definition resolve_container_tools (h : Host) : result resolve_error Host :=
  match h with
  | Localhost e =>
      e' ← resolve e true "local container executor"; Ok (Localhost e')
  | Ssh d e =>
      e' ← resolve e true "ssh container executor"; Ok (Ssh d e')
  | Kubernetes c n r ns t b ib =>
      let reason := match b with
                    | Some _ => lit "kubernetes.builder, which uses Docker buildx"
                    | None => lit "kubernetes image builder"
                    end in
      ib' ← resolve ib (bool_decide (b = None)) reason;
      Ok (Kubernetes c n r ns t b ib')
  end.

(** [Host::resolve_docker_engine] *)
Definition resolve_docker_engine (h : Host) : result resolve_error Host :=
  match h with
  | Localhost e =>
      e' ← resolve e true "local container executor"; Ok (Localhost e')
  | Ssh d e =>
      e' ← resolve e true "ssh container executor"; Ok (Ssh d e')
  | Kubernetes _ _ _ _ _ _ _ => Ok h
  end.

End Resolve.

(** ** Parsing *)

(** What [Host::parse] reads of a parsed URL (the [url] crate). *)
Record Url := mkUrl {
  url_scheme : str;
  url_host_str : option str;
  url_port : option N;
  url_username : str;
}.

Inductive host_parse_error :=
| NotAHost (s : str)
| InvalidUrl (s : str)
| UrlWithoutHost (s : str)
| PortNotSupported (s : str) (port : N)
| UnsupportedScheme (scheme s : str).

Section Parse.
Context (Url_parse : str -> option Url).

Definition Host_parse (s : str) : result host_parse_error Host :=
  if bool_decide (s = lit "localhost") then Ok (Localhost Auto)
  else
    match Url_parse s with
    | None => if negb (contains_str "://" s) then Err (NotAHost s) else Err (InvalidUrl s)
    | Some url =>
        if bool_decide (url_scheme url = lit "ssh") then
          match url_host_str url with
          | None => Err (UrlWithoutHost s)
          | Some host =>
              match url_port url with
              | Some port => Err (PortNotSupported s port)
              | None =>
                  let username := url_username url in
                  let ssh_destination :=
                    if negb (bool_decide (username = [])) then username ++ [c_at] ++ host else host in
                  Ok (Ssh ssh_destination Auto)
              end
          end
        else Err (UnsupportedScheme (url_scheme url) s)
    end.
End Parse.

(** ** Accessors *)

Definition ssh_destination_of (h : Host) : option str :=
  match h with Ssh d _ => Some d | Localhost _ | Kubernetes _ _ _ _ _ _ _ => None end.

Definition is_remote (h : Host) : bool :=
  match h with Localhost _ => false | Ssh _ _ | Kubernetes _ _ _ _ _ _ _ => true end.

Definition is_docker (h : Host) : bool :=
  match h with Localhost _ | Ssh _ _ => true | Kubernetes _ _ _ _ _ _ _ => false end.

(** Outer [None]: the panic on a Kubernetes host. *)
Definition docker_host_uri (h : Host) : option (option str) :=
  match h with
  | Localhost _ => Some None
  | Ssh d _ => Some (Some (lit "ssh://" ++ d))
  | Kubernetes _ _ _ _ _ _ _ => None
  end.

Definition with_container_engine (h : Host) (engine : ContainerEngine) : Host :=
  match h with
  | Localhost _ => Localhost engine
  | Ssh d _ => Ssh d engine
  | Kubernetes c n r ns t b _ => Kubernetes c n r ns t b engine
  end.

Definition container_engine (h : Host) : option ContainerEngine :=
  match h with
  | Localhost e | Ssh _ e => Some e
  | Kubernetes _ _ _ _ _ _ _ => None
  end.

Definition image_builder_of (h : Host) : option ContainerEngine :=
  match h with
  | Localhost e | Ssh _ e => Some e
  | Kubernetes _ _ _ _ _ _ ib => Some ib
  end.

(** [Display for Host] *)
Definition podman_suffix (e : ContainerEngine) (suffix : string) : str :=
  match e with Auto | Docker => [] | Podman => lit suffix end.

Definition Host_display (h : Host) : str :=
  match h with
  | Localhost e => lit "localhost" ++ podman_suffix e " (podman)"
  | Ssh d e => lit "ssh://" ++ d ++ podman_suffix e " (podman)"
  | Kubernetes c n _ _ _ _ ib =>
      (if bool_decide (n = lit "default") then lit "k8s:" ++ c
       else lit "k8s:" ++ c ++ [c_slash] ++ n)
      ++ podman_suffix ib " (podman builder)"
  end.

(** ** Host identity *)

Inductive HostKey :=
| KeyLocalhost (engine : ContainerEngine)
| KeySsh (destination : str) (engine : ContainerEngine)
| KeyKubernetes (context namespace : str).

#[export] Instance HostKey_eq_dec : EqDecision HostKey.
Proof. solve_decision. Defined.

Definition engine_code (e : ContainerEngine) : nat :=
  match e with Auto => 0 | Docker => 1 | Podman => 2 end.
Definition engine_of_code (n : nat) : ContainerEngine :=
  match n with 0 => Auto | 1 => Docker | _ => Podman end.

#[export] Instance HostKey_countable : Countable HostKey.
Proof.
  refine (inj_countable'
    (fun k => match k with
              | KeyLocalhost e => inl (engine_code e)
              | KeySsh d e => inr (inl (d, engine_code e))
              | KeyKubernetes c n => inr (inr (c, n))
              end)
    (fun x => match x with
              | inl e => KeyLocalhost (engine_of_code e)
              | inr (inl (d, e)) => KeySsh d (engine_of_code e)
              | inr (inr (c, n)) => KeyKubernetes c n
              end) _).
  by intros [[]|? []|].
Defined.

Definition HostKey_from_host (h : Host) : HostKey :=
  match h with
  | Localhost e => KeyLocalhost e
  | Ssh d e => KeySsh d e
  | Kubernetes c n _ _ _ _ _ => KeyKubernetes c n
  end.

Definition HostKey_display (k : HostKey) : str :=
  match k with
  | KeyLocalhost e => lit "localhost" ++ podman_suffix e " (podman)"
  | KeySsh d e => lit "ssh://" ++ d ++ podman_suffix e " (podman)"
  | KeyKubernetes c n => lit "k8s:" ++ c ++ [c_slash] ++ n
  end.

(** ** Lemmas *)

Lemma resolve_concrete which e allow reason e' :
  resolve which e allow reason = Ok e' -> e' <> Auto /\ (e <> Auto -> e' = e).
Proof. unfold resolve. destruct e; split_matches; naive_solver. Qed.

Lemma resolve_idempotent which e allow reason reason' e' :
  resolve which e allow reason = Ok e' -> resolve which e' allow reason' = Ok e'.
Proof.
  unfold resolve. destruct e; repeat case_match; intros; simplify_eq; try done;
    repeat case_match; simplify_eq; try done; destruct allow; naive_solver.
Qed.

Lemma resolve_not_auto which e allow reason e' :
  e <> Auto -> resolve which e allow reason = Ok e' -> e' = e.
Proof. intros Hne H. by apply resolve_concrete in H as [_ Hid]; auto. Qed.

Lemma resolve_docker_engine_engine which h h' e :
  resolve_docker_engine which h = Ok h' -> container_engine h' = Some e ->
  is_Some (binary_name e).
Proof.
  destruct h as [e0|d e0|]; simpl; [| |by intros [= <-]];
    (destruct (resolve which e0 true _) as [e'|] eqn:E; simpl; [|done]); intros [= <-] [= <-];
    apply resolve_concrete in E as [Hne _]; destruct e'; done || by eexists.
Qed.

Lemma resolve_tools_engine which h h' :
  resolve_container_tools which h = Ok h' -> container_engine h' <> Some Auto.
Proof.
  destruct h as [e0|d e0|]; simpl.
  1, 2: destruct (resolve which e0 true _) as [e'|] eqn:E; simpl; [|done]; intros [= <-];
    apply resolve_concrete in E as [Hne _]; simpl; congruence.
  destruct (resolve _ _ _ _); simpl; [|done]. by intros [= <-].
Qed.

Lemma resolve_docker_engine_fixed which h h' :
  container_engine h <> Some Auto -> resolve_docker_engine which h = Ok h' -> h' = h.
Proof.
  destruct h as [e0|d e0|]; simpl; intros Hne; [| |congruence];
    (destruct (resolve which e0 true _) as [e'|] eqn:E; simpl; [|done]); intros [= <-];
    f_equal; apply (resolve_not_auto _ _ _ _ _) in E; congruence.
Qed.

Lemma from_host_with_engine h e :
  HostKey_from_host (with_container_engine h e) =
  match HostKey_from_host h with
  | KeyLocalhost _ => KeyLocalhost e
  | KeySsh d _ => KeySsh d e
  | KeyKubernetes c n => KeyKubernetes c n
  end.
Proof. by destruct h. Qed.

Lemma resolve_tools_shape which h h' :
  resolve_container_tools which h = Ok h' ->
  with_container_engine h' Auto = with_container_engine h Auto.
Proof.
  destruct h; simpl; (destruct (resolve _ _ _ _) as [e'|]; simpl; [|done]); by intros [= <-].
Qed.

(** ** Properties *)

(** A pod stored by a launch is reached again over the same connection: the host
    [resolve_container_tools] stores differs from the configured one at most in its
    engine, and any later successful [resolve_docker_engine], whatever is installed by
    then, returns that very host, so the connection registries are asked for the same
    [HostKey]; its engine has a binary name, so [binary_name] does not panic. *)
Theorem stored_host_reconnects which which' h stored h' :
  resolve_container_tools which h = Ok stored ->
  resolve_docker_engine which' stored = Ok h' ->
  with_container_engine stored Auto = with_container_engine h Auto /\
  h' = stored /\
  HostKey_from_host h' = HostKey_from_host stored /\
  (forall e, container_engine h' = Some e -> is_Some (binary_name e)).
Proof.
  intros Hs Hr.
  assert (h' = stored) as -> by eauto using resolve_docker_engine_fixed, resolve_tools_engine.
  split_and!; eauto using resolve_tools_shape, resolve_docker_engine_engine.
Qed.

Lemma stored_host_reconnects_witness :
  let docker_later := fun p : str => bool_decide (p = lit "podman") || bool_decide (p = lit "docker") in
  let podman_only := fun p : str => bool_decide (p = lit "podman") in
  HostKey_from_host (Ssh (lit "dev") Podman) = KeySsh (lit "dev") Podman /\
  with_container_engine (Ssh (lit "dev") Podman) Auto = with_container_engine (Ssh (lit "dev") Auto) Auto.
Proof.
  intros docker_later podman_only. split; [reflexivity|].
  apply (stored_host_reconnects podman_only docker_later (Ssh (lit "dev") Auto)
           (Ssh (lit "dev") Podman) (Ssh (lit "dev") Podman)); vm_compute; reflexivity.
Defined.
