(* ===== verification/Db.v ===== *)
(** * The pod database (daemon/db.rs)

    SQLite keeps the daemon's persistent state.  [Conn] is the content of the database
    under the schema of [SCHEMA_SQL]: the [pods] and [forwarded_ports] tables as lists of
    rows in rowid order, with the constraints the schema declares (AUTOINCREMENT keys,
    UNIQUE(repo_path, name), the unique index on [local_port], the cascading foreign key)
    enforced by the statements.  A statement that fails leaves the database as it was.
    Timestamps are their RFC 3339 text; [Utc::now] is an argument. *)
From S2P Require Import Prelude Strs Hosts.
From stdpp Require Import sorting.

(** ** Pod status *)

Inductive PodStatus :=
| Initializing | Ready | Error | Stopping | Deleting | DeleteFailed.

#[export] Instance PodStatus_eq_dec : EqDecision PodStatus.
Proof. solve_decision. Defined.

Definition as_str (s : PodStatus) : str :=
  match s with
  | Initializing => lit "initializing"
  | Ready => lit "ready"
  | Error => lit "error"
  | Stopping => lit "stopping"
  | Deleting => lit "deleting"
  | DeleteFailed => lit "delete_failed"
  end.

Definition from_str (s : str) : option PodStatus :=
  if bool_decide (s = lit "initializing") then Some Initializing
  else if bool_decide (s = lit "ready") then Some Ready
  else if bool_decide (s = lit "error") then Some Error
  else if bool_decide (s = lit "stopping") then Some Stopping
  else if bool_decide (s = lit "deleting") then Some Deleting
  else if bool_decide (s = lit "delete_failed") then Some DeleteFailed
  else None.

(** ** Tables *)

Record PodRow := mkPodRow {
  row_id : Z;
  row_repo_path : str;
  row_name : str;
  row_host : str;
  row_status : str;
  row_on_create_ran : bool;
  row_post_create_ran : bool;
  row_claude_config_copied : bool;
  row_agent_processing : bool;
  row_token : str;
  row_image : str;
  row_devcontainer_json : str;
  row_agent_service : str;
  row_compose_config : str;
  row_local_env : str;
  row_created_at : str;
  row_updated_at : str;
}.

#[export] Instance PodRow_updatable : Updatable PodRow := fun r =>
  mkPodRow (row_id r) (row_repo_path r) (row_name r) (row_host r) (row_status r)
    (row_on_create_ran r) (row_post_create_ran r) (row_claude_config_copied r)
    (row_agent_processing r) (row_token r) (row_image r) (row_devcontainer_json r)
    (row_agent_service r) (row_compose_config r) (row_local_env r)
    (row_created_at r) (row_updated_at r).

Record PortRow := mkPortRow {
  port_id : Z;
  port_pod_id : Z;
  port_service : str;
  port_container_port : Z;
  port_local_port : Z;
  port_label : str;
}.

#[export] Instance PortRow_updatable : Updatable PortRow := fun r =>
  mkPortRow (port_id r) (port_pod_id r) (port_service r) (port_container_port r)
    (port_local_port r) (port_label r).

Record Conn := mkConn {
  pods : list PodRow;
  pods_seq : Z;                   (* sqlite_sequence of the AUTOINCREMENT key *)
  forwarded_ports : list PortRow;
  ports_seq : Z;
}.

#[export] Instance Conn_updatable : Updatable Conn := fun c =>
  mkConn (pods c) (pods_seq c) (forwarded_ports c) (ports_seq c).

#[export] Instance PodRow_eq_dec : EqDecision PodRow.
Proof. solve_decision. Defined.
#[export] Instance PortRow_eq_dec : EqDecision PortRow.
Proof. solve_decision. Defined.
#[export] Instance Conn_eq_dec : EqDecision Conn.
Proof. solve_decision. Defined.

Definition empty_conn : Conn := mkConn [] 0 [] 0.

Definition i64_max : Z := 2 ^ 63 - 1.

Inductive db_error :=
| UniqueViolation
| ForeignKeyViolation
| SequenceFull
| QueryReturnedNoRows
| UnknownPodStatus (status : str)
| DuplicateColumn
| SchemaRowsUpdated (n : nat)
| SchemaMismatch (expected found : str)
| VersionUnreadable.

#[export] Instance db_error_eq_dec : EqDecision db_error.
Proof. solve_decision. Defined.

(** ** Pod functions *)

Definition has_pod_key (repo_path name : str) (r : PodRow) : bool :=
  bool_decide (row_repo_path r = repo_path) && bool_decide (row_name r = name).

(** [INSERT INTO pods]: the unlisted columns take their defaults. *)
Definition create_pod_with_compose (c : Conn) (now host_json : str)
    (repo_path name token image devcontainer_json agent_service compose_config local_env : str)
    : result db_error (Conn * Z) :=
  if existsb (has_pod_key repo_path name) (pods c) then Err UniqueViolation
  else if bool_decide (pods_seq c = i64_max) then Err SequenceFull
  else
    let id := (pods_seq c + 1)%Z in
    let row := mkPodRow id repo_path name host_json (as_str Initializing)
                 false false false false token image devcontainer_json
                 agent_service compose_config local_env now now in
    Ok (c <| pods ::= fun ps => ps ++ [row] |> <| pods_seq := id |>, id).

Definition create_pod (c : Conn) (now host_json : str)
    (repo_path name token image devcontainer_json local_env : str)
    : result db_error (Conn * Z) :=
  create_pod_with_compose c now host_json repo_path name token image devcontainer_json
    [] [] local_env.

(** [UPDATE pods SET .. WHERE ..] on columns no constraint mentions. *)
Definition update_pods (c : Conn) (sel : PodRow -> bool) (upd : PodRow -> PodRow) : Conn :=
  c <| pods ::= map (fun r => if sel r then upd r else r) |>.

Definition update_pod_status (c : Conn) (now : str) (id : Z) (status : PodStatus) : Conn :=
  update_pods c (fun r => bool_decide (row_id r = id))
    (fun r => r <| row_status := as_str status |> <| row_updated_at := now |>).

Record PodRecord := mkPodRecord {
  id : Z;
  repo_path : str;
  name : str;
  host : str;
  status : PodStatus;
  token : str;
  image : str;
  devcontainer_json : str;
  agent_service : str;
  compose_config : str;
  local_env : str;
  agent_processing : bool;
  created_at : str;
  updated_at : str;
}.

Definition row_to_pod_record (r : PodRow) : result db_error PodRecord :=
  s ← context (UnknownPodStatus (row_status r)) (from_str (row_status r));
  Ok (mkPodRecord (row_id r) (row_repo_path r) (row_name r) (row_host r) s
        (row_token r) (row_image r) (row_devcontainer_json r) (row_agent_service r)
        (row_compose_config r) (row_local_env r) (row_agent_processing r)
        (row_created_at r) (row_updated_at r)).

(** The first row a query yields, decoded. *)
Definition first_record (rows : list PodRow) : result db_error (option PodRecord) :=
  match rows with
  | r :: _ => rec ← row_to_pod_record r; Ok (Some rec)
  | [] => Ok None
  end.

Definition select_pods (c : Conn) (sel : PodRow -> bool) : list PodRow :=
  List.filter sel (pods c).

Definition get_pod (c : Conn) (repo_path name : str) : result db_error (option PodRecord) :=
  first_record (select_pods c (has_pod_key repo_path name)).

Definition get_pod_by_token (c : Conn) (token : str) : result db_error (option PodRecord) :=
  first_record (select_pods c (fun r => bool_decide (row_token r = token))).

Definition record_agent_activity (c : Conn) (repo_path name token : str) (processing : bool) : Conn :=
  update_pods c
    (fun r => has_pod_key repo_path name r && bool_decide (row_token r = token))
    (fun r => r <| row_agent_processing := processing |>).

(** *** Listings: [ORDER BY] on text compares byte-wise *)

Fixpoint str_le (a b : str) : bool :=
  match a, b with
  | [], _ => true
  | _ :: _, [] => false
  | x :: a', y :: b' => bool_decide (x < y)%N || (bool_decide (x = y) && str_le a' b')
  end.

(** [ORDER BY repo_path ASC, name ASC] *)
Definition pod_le (r1 r2 : PodRow) : Prop :=
  if bool_decide (row_repo_path r1 = row_repo_path r2)
  then str_le (row_name r1) (row_name r2) = true
  else str_le (row_repo_path r1) (row_repo_path r2) = true.

Definition name_le (r1 r2 : PodRow) : Prop := str_le (row_name r1) (row_name r2) = true.

#[export] Instance pod_le_dec : RelDecision pod_le.
Proof. intros r1 r2. unfold pod_le. destruct (bool_decide _); apply _. Defined.
#[export] Instance name_le_dec : RelDecision name_le.
Proof. intros r1 r2. unfold name_le. apply _. Defined.

Fixpoint read_rows (rows : list PodRow) : result db_error (list PodRecord) :=
  match rows with
  | [] => Ok []
  | r :: rows' => rec ← row_to_pod_record r; recs ← read_rows rows'; Ok (rec :: recs)
  end.

Definition list_pods_by_status (c : Conn) (status : PodStatus) : result db_error (list PodRecord) :=
  read_rows (merge_sort pod_le
    (select_pods c (fun r => bool_decide (row_status r = as_str status)))).

Definition list_pods (c : Conn) (repo_path : str) : result db_error (list PodRecord) :=
  read_rows (merge_sort name_le
    (select_pods c (fun r => bool_decide (row_repo_path r = repo_path)))).

Definition list_all_pods (c : Conn) : result db_error (list PodRecord) :=
  read_rows (merge_sort pod_le (pods c)).

(** [DELETE FROM pods], with the cascade to [forwarded_ports]. *)
Definition delete_pod (c : Conn) (repo_path name : str) : Conn * bool :=
  let gone := select_pods c (has_pod_key repo_path name) in
  (c <| pods ::= List.filter (fun r => negb (has_pod_key repo_path name r)) |>
     <| forwarded_ports ::= List.filter (fun p =>
          negb (existsb (fun r => bool_decide (row_id r = port_pod_id p)) gone)) |>,
   bool_decide (0 < length gone)).

Definition has_claude_config_copied (c : Conn) (id : Z) : result db_error bool :=
  match select_pods c (fun r => bool_decide (row_id r = id)) with
  | r :: _ => Ok (row_claude_config_copied r)
  | [] => Err QueryReturnedNoRows
  end.

Definition mark_claude_config_copied (c : Conn) (id : Z) : Conn :=
  update_pods c (fun r => bool_decide (row_id r = id))
    (fun r => r <| row_claude_config_copied := true |>).

(** ** Forwarded ports *)

Definition insert_forwarded_port (c : Conn) (pod_id : Z) (service : str)
    (container_port local_port : Z) (label : str) : result db_error Conn :=
  if existsb (fun p => bool_decide (port_local_port p = local_port)) (forwarded_ports c)
  then Err UniqueViolation
  else if negb (existsb (fun r => bool_decide (row_id r = pod_id)) (pods c))
  then Err ForeignKeyViolation
  else if bool_decide (ports_seq c = i64_max) then Err SequenceFull
  else
    let fid := (ports_seq c + 1)%Z in
    Ok (c <| forwarded_ports ::= fun ps =>
               ps ++ [mkPortRow fid pod_id service container_port local_port label] |>
          <| ports_seq := fid |>).

Record ForwardedPort := mkForwardedPort {
  fp_service : str;
  fp_container_port : Z;
  fp_local_port : Z;
  fp_label : str;
}.

#[export] Instance ForwardedPort_eq_dec : EqDecision ForwardedPort.
Proof. solve_decision. Defined.

(** [ORDER BY service, container_port] *)
Definition port_le (p1 p2 : PortRow) : Prop :=
  if bool_decide (port_service p1 = port_service p2)
  then (port_container_port p1 <= port_container_port p2)%Z
  else str_le (port_service p1) (port_service p2) = true.

#[export] Instance port_le_dec : RelDecision port_le.
Proof. intros p1 p2. unfold port_le. destruct (bool_decide _); apply _. Defined.

Definition row_to_forwarded_port (p : PortRow) : ForwardedPort :=
  mkForwardedPort (port_service p) (port_container_port p) (port_local_port p) (port_label p).

Definition list_forwarded_ports (c : Conn) (pod_id : Z) : list ForwardedPort :=
  map row_to_forwarded_port
    (merge_sort port_le
       (List.filter (fun p => bool_decide (port_pod_id p = pod_id)) (forwarded_ports c))).

Definition get_all_allocated_local_ports (c : Conn) : list Z :=
  map port_local_port (forwarded_ports c).

(** The statement [UPDATE forwarded_ports SET local_port = ?] of a reconnect
    (daemon.rs): every matching row takes the port, and the statement fails when the
    unique index would be violated. *)
Definition update_forwarded_local_port (c : Conn) (pod_id : Z) (service : str)
    (container_port actual : Z) : result db_error Conn :=
  let ports := map (fun p =>
    if bool_decide (port_pod_id p = pod_id) && bool_decide (port_service p = service)
       && bool_decide (port_container_port p = container_port)
    then p <| port_local_port := actual |> else p) (forwarded_ports c) in
  if bool_decide (NoDup (map port_local_port ports))
  then Ok (c <| forwarded_ports := ports |>)
  else Err UniqueViolation.

(** ** Opening and migrating *)

(** The errors of [rusqlite] the query for the stored version can give; SQLite reports
    a missing table as [Unknown]. *)
Inductive ErrorCode := Unknown | DatabaseBusy | DatabaseCorrupt | NotADatabase | SystemIoFailure.

Inductive rusqlite_error :=
| SqliteFailure (code : ErrorCode)
| NoVersionRow
| InvalidColumnType.

#[export] Instance ErrorCode_eq_dec : EqDecision ErrorCode.
Proof. solve_decision. Defined.
#[export] Instance rusqlite_error_eq_dec : EqDecision rusqlite_error.
Proof. solve_decision. Defined.

(** The database file: [stored_hash] is what the query for the [schema_version] row of
    [db_meta] gives.  The flags say whether the columns the two migrations add are
    present; a row's field of an absent column has no meaning. *)
Record DbFile := mkDbFile {
  stored_hash : result rusqlite_error str;
  has_compose_columns : bool;
  has_activity_column : bool;
  content : Conn;
}.

#[export] Instance DbFile_eq_dec : EqDecision DbFile.
Proof. solve_decision. Defined.

Definition PRE_COMPOSE_SCHEMA_HASH : str :=
  lit "ec97b2b08dddd29a2db5e026fb8bdaf2f2458743a797d713dcf72ad98b40d80e".
Definition PRE_ACTIVITY_SCHEMA_HASH : str :=
  lit "6a7f9bd88d8806b6478f319de1854599504a3df0b02349ed5d10faab621ac337".

(** [ALTER TABLE .. ADD COLUMN] fails on a column that exists and fills the rows with
    the column's default. *)
Definition PRE_ACTIVITY_MIGRATION_SQL (f : DbFile) : result db_error DbFile :=
  if has_activity_column f then Err DuplicateColumn
  else Ok (mkDbFile (stored_hash f) (has_compose_columns f) true
             ((content f) <| pods ::= map (fun r => r <| row_agent_processing := false |>) |>)).

Definition PRE_COMPOSE_MIGRATION_SQL (f : DbFile) : result db_error DbFile :=
  if has_compose_columns f then Err DuplicateColumn
  else
    PRE_ACTIVITY_MIGRATION_SQL
      (mkDbFile (stored_hash f) true (has_activity_column f)
         ((content f)
            <| pods ::= map (fun r => r <| row_agent_service := [] |> <| row_compose_config := [] |>) |>
            <| forwarded_ports ::= map (fun p => p <| port_service := [] |>) |>)).

Definition migrate_schema (f : DbFile) (migration_sql : DbFile -> result db_error DbFile)
    (current_hash : str) : result db_error DbFile :=
  f' ← migration_sql f;
  let updated := if is_ok (stored_hash f') then 1 else 0 in
  if negb (bool_decide (updated = 1)) then Err (SchemaRowsUpdated updated)
  else Ok (mkDbFile (Ok current_hash) (has_compose_columns f')
             (has_activity_column f') (content f')).

Definition create_and_init_db (current_hash : str) : DbFile :=
  mkDbFile (Ok current_hash) true true empty_conn.

(** [open_db] on the file at the path ([None]: no file).  On an error the file stays. *)
Definition open_db (current_hash : str) (file : option DbFile) : result db_error DbFile :=
  match file with
  | None => Ok (create_and_init_db current_hash)
  | Some f =>
      match stored_hash f with
      | Ok hash =>
          if negb (bool_decide (hash = current_hash)) then
            if bool_decide (hash = PRE_COMPOSE_SCHEMA_HASH) then
              migrate_schema f PRE_COMPOSE_MIGRATION_SQL current_hash
            else if bool_decide (hash = PRE_ACTIVITY_SCHEMA_HASH) then
              migrate_schema f PRE_ACTIVITY_MIGRATION_SQL current_hash
            else Err (SchemaMismatch current_hash hash)
          else Ok f
      | Err (SqliteFailure _) | Err NoVersionRow => Ok (create_and_init_db current_hash)
      | Err InvalidColumnType => Err VersionUnreadable
      end
  end.

(** ** Invariant *)

Definition pod_key (r : PodRow) : str * str := (row_repo_path r, row_name r).

Record conn_wf (c : Conn) : Prop := {
  wf_keys : NoDup (map pod_key (pods c));
  wf_ids : NoDup (map row_id (pods c));
  wf_seq : (0 <= pods_seq c)%Z;
  wf_id_range : Forall (fun r => (1 <= row_id r <= pods_seq c)%Z) (pods c);
  wf_status : Forall (fun r => is_Some (from_str (row_status r))) (pods c);
  wf_local_ports : NoDup (map port_local_port (forwarded_ports c));
  wf_fk : Forall (fun p => port_pod_id p ∈ map row_id (pods c)) (forwarded_ports c);
}.

(** One statement of the daemon against the database. *)
Inductive db_step (c : Conn) : Conn -> Prop :=
| step_create now host_json repo name tok img dj svc cc env c' pid :
    create_pod_with_compose c now host_json repo name tok img dj svc cc env = Ok (c', pid) ->
    db_step c c'
| step_status now pid s : db_step c (update_pod_status c now pid s)
| step_activity repo name tok b : db_step c (record_agent_activity c repo name tok b)
| step_delete repo name : db_step c (fst (delete_pod c repo name))
| step_config pid : db_step c (mark_claude_config_copied c pid)
| step_insert_port pid svc cp lp label c' :
    insert_forwarded_port c pid svc cp lp label = Ok c' -> db_step c c'
| step_update_port pid svc cp lp c' :
    update_forwarded_local_port c pid svc cp lp = Ok c' -> db_step c c'.

(** The states the daemon can bring a fresh database to. *)
Inductive db_reachable : Conn -> Prop :=
| db_init : db_reachable empty_conn
| db_next c c' : db_reachable c -> db_step c c' -> db_reachable c'.

(** ** Abstract view: a finite map from (repository, name) to the pod's row *)

Definition view (c : Conn) : gmap (str * str) PodRow :=
  list_to_map (map (fun r => (pod_key r, r)) (pods c)).

(** ** Lemmas *)

Lemma from_as_str s : from_str (as_str s) = Some s.
Proof. by destruct s; vm_compute. Qed.

Lemma as_str_inj s1 s2 : as_str s1 = as_str s2 -> s1 = s2.
Proof. intros H. apply (inj Some). by rewrite <- !from_as_str, H. Qed.

Lemma from_str_Some s st : from_str s = Some st -> s = as_str st.
Proof.
  unfold from_str. intros H.
  repeat case_bool_decide; try discriminate; injection H as <-; assumption.
Qed.

Lemma has_pod_key_true rp n r : has_pod_key rp n r = true <-> pod_key r = (rp, n).
Proof.
  unfold has_pod_key, pod_key. rewrite andb_true_iff, !bool_decide_eq_true.
  split; [by intros [-> ->]|by intros [= -> ->]].
Qed.

Lemma existsb_key rp n (l : list PodRow) :
  existsb (has_pod_key rp n) l = true <-> (rp, n) ∈ map pod_key l.
Proof.
  rewrite existsb_exists, list_elem_of_fmap. split.
  - intros (r & Hin & Hk). exists r. apply has_pod_key_true in Hk.
    by rewrite list_elem_of_In.
  - intros (r & Hk & Hin). exists r. split; [by apply list_elem_of_In|by apply has_pod_key_true].
Qed.

Lemma update_pods_wf c sel upd :
  (forall r, pod_key (upd r) = pod_key r) -> (forall r, row_id (upd r) = row_id r) ->
  (forall r, is_Some (from_str (row_status r)) -> is_Some (from_str (row_status (upd r)))) ->
  conn_wf c -> conn_wf (update_pods c sel upd).
Proof.
  intros Hk Hi Hs []. unfold update_pods. constructor; rsimpl; rewrite ?map_if_same; auto.
  - apply Forall_map, (Forall_impl _ _ _ wf_id_range0). intros r Hr.
    destruct (sel r); rewrite ?Hi; auto.
  - apply Forall_map, (Forall_impl _ _ _ wf_status0). intros r Hr. destruct (sel r); auto.
Qed.

Lemma create_pod_wf c now hj repo name tok img dj svc cc env c' pid :
  create_pod_with_compose c now hj repo name tok img dj svc cc env = Ok (c', pid) ->
  conn_wf c -> conn_wf c'.
Proof.
  unfold create_pod_with_compose. intros H [].
  destruct (existsb _ _) eqn:Ek; [done|]. case_bool_decide; [done|]. injection H as <- <-.
  assert (Hfresh : (pods_seq c + 1)%Z ∉ map row_id (pods c)).
  { intros (r & Hr & Hin)%list_elem_of_fmap.
    rewrite Forall_forall in wf_id_range0. apply wf_id_range0 in Hin. lia. }
  constructor; rsimpl; rewrite ?map_app; simpl; auto.
  - apply NoDup_app. split_and!; [done| |apply NoDup_singleton].
    intros k Hk ->%list_elem_of_singleton.
    pose proof (proj2 (existsb_key repo name _) Hk). congruence.
  - apply NoDup_app. split_and!; [done| |apply NoDup_singleton].
    by intros k Hk ->%list_elem_of_singleton.
  - lia.
  - apply Forall_app. split; [|by constructor; [simpl; lia|]].
    apply (Forall_impl _ _ _ wf_id_range0). simpl. intros; lia.
  - apply Forall_app. split; [done|]. apply Forall_singleton. exact (mk_is_Some _ _ (from_as_str Initializing)).
  - apply (Forall_impl _ _ _ wf_fk0). simpl. intros p Hp. apply elem_of_app. by left.
Qed.

Lemma delete_pod_wf c repo name : conn_wf c -> conn_wf (fst (delete_pod c repo name)).
Proof.
  intros []. unfold delete_pod. constructor; rsimpl; auto using NoDup_map_filter.
  - apply Forall_forall. intros r [Hr _]%elem_of_bfilter.
    rewrite Forall_forall in wf_id_range0. auto.
  - apply Forall_forall. intros r [Hr _]%elem_of_bfilter.
    rewrite Forall_forall in wf_status0. auto.
  - apply Forall_forall. intros p [Hp Hg]%elem_of_bfilter.
    rewrite Forall_forall in wf_fk0. specialize (wf_fk0 p Hp).
    apply list_elem_of_fmap in wf_fk0 as (r & Hid & Hr). rewrite Hid.
    apply list_elem_of_fmap_2, elem_of_bfilter. split; [done|].
    apply negb_true_iff in Hg. apply negb_true_iff.
    destruct (has_pod_key repo name r) eqn:Ek; [|done].
    rewrite <- not_true_iff_false, existsb_eq_map in Hg. destruct Hg.
    rewrite Hid. by apply list_elem_of_fmap_2, elem_of_bfilter.
Qed.

Lemma insert_forwarded_port_wf c pid svc cp lp label c' :
  insert_forwarded_port c pid svc cp lp label = Ok c' -> conn_wf c -> conn_wf c'.
Proof.
  unfold insert_forwarded_port. intros H [].
  destruct (existsb _ _) eqn:El; [done|]. destruct (negb _) eqn:Ep; [done|].
  case_bool_decide; [done|]. injection H as <-.
  constructor; rsimpl; rewrite ?map_app; simpl; auto.
  - apply NoDup_app. split_and!; [done| |apply NoDup_singleton].
    intros k Hk ->%list_elem_of_singleton. pose proof (proj2 (existsb_eq_map _ lp _) Hk). congruence.
  - apply Forall_app. split; [done|]. repeat constructor. simpl.
    apply negb_false_iff, existsb_eq_map in Ep. done.
Qed.

Lemma update_forwarded_local_port_wf c pid svc cp lp c' :
  update_forwarded_local_port c pid svc cp lp = Ok c' -> conn_wf c -> conn_wf c'.
Proof.
  unfold update_forwarded_local_port. intros H []. case_bool_decide as Hnd; [|done].
  injection H as <-. constructor; rsimpl; auto.
  apply Forall_map, (Forall_impl _ _ _ wf_fk0). intros p Hp. by case_match.
Qed.

#[export] Hint Resolve create_pod_wf delete_pod_wf insert_forwarded_port_wf
  update_forwarded_local_port_wf : rumpel.

Lemma db_step_wf c c' : db_step c c' -> conn_wf c -> conn_wf c'.
Proof.
  intros [] Hwf; eauto with rumpel; apply update_pods_wf; auto.
  intros r _. exact (mk_is_Some _ _ (from_as_str s)).
Qed.

Lemma db_reachable_wf c : db_reachable c -> conn_wf c.
Proof.
  induction 1; [|eauto using db_step_wf].
  constructor; simpl; try constructor; lia.
Qed.

Lemma entries_fst (l : list PodRow) : (map (fun r => (pod_key r, r)) l).*1 = map pod_key l.
Proof. exact (map_map _ fst l). Qed.

Lemma view_lookup (c : Conn) k r :
  NoDup (map pod_key (pods c)) -> view c !! k = Some r <-> r ∈ pods c /\ pod_key r = k.
Proof.
  intros Hnd. unfold view. rewrite <- elem_of_list_to_map.
  - rewrite list_elem_of_fmap. split.
    + by intros (r' & [= -> ->] & Hin).
    + intros [Hin <-]. by exists r.
  - by rewrite entries_fst.
Qed.

Lemma view_eq (c : Conn) (m : gmap (str * str) PodRow) :
  NoDup (map pod_key (pods c)) ->
  (forall k r, m !! k = Some r <-> r ∈ pods c /\ pod_key r = k) -> view c = m.
Proof. intros Hnd H. apply map_eq. intros k. apply option_eq. intros r. by rewrite view_lookup, H. Qed.

Lemma view_update_pods c sel upd :
  conn_wf c -> (forall r, pod_key (upd r) = pod_key r) ->
  view (update_pods c sel upd) = (fun r => if sel r then upd r else r) <$> view c.
Proof.
  intros [Hk _ _ _ _ _ _] Hu. unfold update_pods. apply view_eq; rsimpl.
  - by rewrite map_if_same.
  - intros k r. rewrite lookup_fmap, fmap_Some. setoid_rewrite view_lookup; [|done].
    rewrite list_elem_of_fmap. split.
    + intros (r0 & [Hin <-] & ->). split; [by exists r0|]. by destruct (sel r0).
    + intros [(r0 & -> & Hin) <-]. exists r0. split; [split; [done|]|done]. by destruct (sel r0).
Qed.

Lemma view_None c repo name :
  view c !! (repo, name) = None <-> existsb (has_pod_key repo name) (pods c) = false.
Proof.
  unfold view. rewrite <- not_elem_of_list_to_map, entries_fst.
  by rewrite <- not_true_iff_false, existsb_key.
Qed.

Lemma select_key c repo name :
  conn_wf c -> select_pods c (has_pod_key repo name) = option_list (view c !! (repo, name)).
Proof.
  intros [Hk _ _ _ _ _ _]. unfold select_pods. destruct (view c !! _) as [r|] eqn:E; simpl.
  - apply view_lookup in E as [Hin Hr]; [|done].
    apply (filter_unique pod_key); [done|done|by apply has_pod_key_true|].
    intros b _ Hb%has_pod_key_true. congruence.
  - apply filter_none. intros r Hin. apply view_None in E.
    destruct (has_pod_key repo name r) eqn:Er; [|done].
    rewrite <- E. symmetry. apply existsb_exists. exists r. split; [by apply list_elem_of_In|done].
Qed.

(** Decoding succeeds on every row of a well-formed database. *)
Definition record_of (r : PodRow) : PodRecord :=
  mkPodRecord (row_id r) (row_repo_path r) (row_name r) (row_host r)
    (default Initializing (from_str (row_status r)))
    (row_token r) (row_image r) (row_devcontainer_json r) (row_agent_service r)
    (row_compose_config r) (row_local_env r) (row_agent_processing r)
    (row_created_at r) (row_updated_at r).

Lemma row_to_pod_record_wf c r :
  conn_wf c -> r ∈ pods c -> row_to_pod_record r = Ok (record_of r).
Proof.
  intros [_ _ _ _ Hs _ _] Hin. rewrite Forall_forall in Hs. destruct (Hs r Hin) as [s Es].
  unfold row_to_pod_record, record_of. by rewrite Es.
Qed.

Lemma read_rows_wf c rows :
  conn_wf c -> (forall r, r ∈ rows -> r ∈ pods c) -> read_rows rows = Ok (map record_of rows).
Proof.
  intros Hwf. induction rows as [|r rows IH]; intros Hin; [done|]. simpl.
  rewrite (row_to_pod_record_wf c) by (done || apply Hin; left). simpl.
  rewrite IH; [done|]. intros r' Hr'. apply Hin. by right.
Qed.

Lemma get_pod_view c repo name :
  conn_wf c -> get_pod c repo name = Ok (record_of <$> view c !! (repo, name)).
Proof.
  intros Hwf. unfold get_pod. rewrite select_key by done.
  destruct (view c !! _) as [r|] eqn:E; simpl; [|done].
  apply view_lookup in E as [Hin _]; [|apply Hwf]. by rewrite (row_to_pod_record_wf c).
Qed.

Lemma view_create c now hj repo name tok img dj svc cc env c' pid :
  conn_wf c ->
  create_pod_with_compose c now hj repo name tok img dj svc cc env = Ok (c', pid) ->
  view c' = <[(repo, name) := mkPodRow pid repo name hj (as_str Initializing) false false false false
                               tok img dj svc cc env now now]> (view c).
Proof.
  intros Hwf H. unfold create_pod_with_compose in H. destruct (existsb _ _) eqn:Ek; [done|].
  case_bool_decide; [done|]. injection H as <- <-. unfold view; rsimpl.
  rewrite map_app. simpl. apply (list_to_map_snoc (M := gmap (str * str))).
  rewrite entries_fst. intros Hin%existsb_key. congruence.
Qed.

Lemma view_delete c repo name :
  conn_wf c -> view (fst (delete_pod c repo name)) = delete (repo, name) (view c).
Proof.
  intros Hwf. apply view_eq; [by apply delete_pod_wf|]. intros k r. simpl.
  unfold delete_pod; rsimpl. rewrite lookup_delete_Some, view_lookup, elem_of_bfilter by apply Hwf.
  rewrite negb_true_iff, <- not_true_iff_false, has_pod_key_true. naive_solver.
Qed.

Lemma activity_none c repo name tok b :
  (forall r, r ∈ pods c -> pod_key r = (repo, name) -> row_token r <> tok) ->
  record_agent_activity c repo name tok b = c.
Proof.
  intros H. unfold record_agent_activity, update_pods. destruct c as [ps s fp fs]; rsimpl. f_equal.
  rewrite <- (map_id ps) at 2. apply map_ext_in. intros r Hin%list_elem_of_In.
  destruct (has_pod_key repo name r) eqn:Ek; [|done]. simpl.
  apply has_pod_key_true in Ek. by rewrite bool_decide_eq_false_2 by eauto.
Qed.

(** *** The order of listings *)

Lemma str_le_total a b : str_le a b = true \/ str_le b a = true.
Proof.
  revert b. induction a as [|x a IH]; intros [|y b]; simpl; auto.
  rewrite !orb_true_iff, !andb_true_iff, !bool_decide_eq_true.
  destruct (N.lt_trichotomy x y) as [|[->|]]; auto. destruct (IH b); auto.
Qed.

Lemma str_le_trans a b c : str_le a b = true -> str_le b c = true -> str_le a c = true.
Proof.
  revert b c. induction a as [|x a IH]; intros [|y b] [|z c]; simpl; try done.
  rewrite !orb_true_iff, !andb_true_iff, !bool_decide_eq_true.
  intros [?|[-> ?]] [?|[-> ?]]; eauto using N.lt_trans.
Qed.

Lemma str_le_antisym a b : str_le a b = true -> str_le b a = true -> a = b.
Proof.
  revert b. induction a as [|x a IH]; intros [|y b]; simpl; try done.
  rewrite !orb_true_iff, !andb_true_iff, !bool_decide_eq_true.
  intros [?|[-> ?]] [?|[? ?]]; try lia. f_equal. auto.
Qed.

#[export] Instance name_le_total : Total name_le.
Proof. intros r1 r2. apply str_le_total. Qed.
#[export] Instance name_le_trans : Transitive name_le.
Proof. intros r1 r2 r3. apply str_le_trans. Qed.

#[export] Instance pod_le_total : Total pod_le.
Proof.
  intros r1 r2. unfold pod_le. repeat case_bool_decide; try congruence; apply str_le_total.
Qed.
#[export] Instance pod_le_trans : Transitive pod_le.
Proof.
  intros r1 r2 r3. unfold pod_le.
  repeat case_bool_decide; intros H12 H23; try congruence; eauto using str_le_trans.
  destruct H. apply str_le_antisym; congruence.
Qed.

Lemma StronglySorted_map_strict (rows : list PodRow) :
  StronglySorted name_le rows -> NoDup (map row_name rows) ->
  StronglySorted (fun a b => str_le (name a) (name b) = true /\ name a <> name b)
    (map record_of rows).
Proof.
  induction 1 as [|r rows Hs IH Hall]; simpl; [constructor|]. intros [Hni Hnd]%NoDup_cons.
  constructor; [auto|]. apply Forall_map. rewrite Forall_forall in Hall |- *.
  intros r' Hin. split; [by apply Hall|]. simpl. intros Heq. apply Hni. rewrite Heq.
  by apply list_elem_of_fmap_2.
Qed.

Lemma NoDup_names c repo :
  NoDup (map pod_key (pods c)) ->
  NoDup (map row_name (select_pods c (fun r => bool_decide (row_repo_path r = repo)))).
Proof.
  unfold select_pods. induction (pods c) as [|r l IH]; simpl; [constructor|].
  intros [Hni Hnd]%NoDup_cons. case_bool_decide as Hr; simpl; [|auto].
  apply NoDup_cons. split; [|auto]. intros (r' & Hn & [Hin Hr'%bool_decide_eq_true]%elem_of_bfilter)%list_elem_of_fmap.
  apply Hni, list_elem_of_fmap. exists r'. split; [|done]. unfold pod_key. congruence.
Qed.

(** *** Ids and ports *)

Lemma ports_of_none c pid :
  (forall p, p ∈ forwarded_ports c -> port_pod_id p <> pid) -> list_forwarded_ports c pid = [].
Proof.
  intros H. unfold list_forwarded_ports. rewrite filter_none; [done|].
  intros p Hp. apply bool_decide_eq_false. auto.
Qed.

Lemma port_owner_range c p :
  conn_wf c -> p ∈ forwarded_ports c -> (1 <= port_pod_id p <= pods_seq c)%Z.
Proof.
  intros [_ _ _ Hr _ _ Hfk] Hp. rewrite Forall_forall in Hr. rewrite Forall_forall in Hfk.
  apply Hfk, list_elem_of_fmap in Hp as (r & -> & Hin). by apply Hr.
Qed.

Lemma create_pod_id c now hj repo name tok img dj svc cc env c' pid :
  create_pod_with_compose c now hj repo name tok img dj svc cc env = Ok (c', pid) ->
  pid = (pods_seq c + 1)%Z /\ forwarded_ports c' = forwarded_ports c.
Proof.
  unfold create_pod_with_compose. destruct (existsb _ _); [done|]. case_bool_decide; [done|].
  by intros [= <- <-].
Qed.

Lemma db_step_seq c c' : db_step c c' -> (pods_seq c <= pods_seq c')%Z.
Proof.
  intros [| | | | |? ? ? ? ? ? H|? ? ? ? ? H]; try done.
  - unfold create_pod_with_compose in *. destruct (existsb _ _); [done|].
    case_bool_decide; [done|]. simplify_eq. rsimpl. lia.
  - unfold insert_forwarded_port in H. by split_matches.
  - unfold update_forwarded_local_port in H. by split_matches.
Qed.

Lemma db_steps_seq c c' : rtc db_step c c' -> (pods_seq c <= pods_seq c')%Z.
Proof. induction 1 as [|? ? ? Hs]; [lia|]. apply db_step_seq in Hs. lia. Qed.

Lemma db_steps_reachable c c' : db_reachable c -> rtc db_step c c' -> db_reachable c'.
Proof. induction 2; eauto using db_reachable. Qed.

(** ** Properties *)

(** [C11] Every database the daemon can produce keeps its invariant: (repository, name)
    keys, row ids and host ports are unique, every forwarded port belongs to an existing
    pod and every stored status is one [PodStatus::from_str] reads back; so reading pods
    never fails. *)
Theorem db_invariant c :
  db_reachable c ->
  conn_wf c /\
  (forall repo name, is_ok (get_pod c repo name) = true) /\
  (forall repo, is_ok (list_pods c repo) = true) /\
  (forall s, is_ok (list_pods_by_status c s) = true) /\
  is_ok (list_all_pods c) = true.
Proof.
  intros Hwf%db_reachable_wf. split_and!; [done| | | |].
  - intros. by rewrite get_pod_view.
  - intros. unfold list_pods. rewrite (read_rows_wf c); [done..|].
    intros r. rewrite merge_sort_Permutation. by intros [? _]%elem_of_bfilter.
  - intros. unfold list_pods_by_status. rewrite (read_rows_wf c); [done..|].
    intros r. rewrite merge_sort_Permutation. by intros [? _]%elem_of_bfilter.
  - unfold list_all_pods. rewrite (read_rows_wf c); [done..|].
    intros r. by rewrite merge_sort_Permutation.
Qed.

(** [C3] The pods table refines a finite map from (repository, name) to pods: [get_pod]
    is lookup, [create_pod_with_compose] fails exactly on a key that is bound and
    otherwise inserts, [delete_pod] deletes and reports whether the key was bound, and
    the updates change the selected entries only. *)
Theorem db_refines_map c :
  db_reachable c ->
  (forall repo name, get_pod c repo name = Ok (record_of <$> view c !! (repo, name))) /\
  (forall now hj repo name tok img dj svc cc env,
     match create_pod_with_compose c now hj repo name tok img dj svc cc env with
     | Ok (c', pid) =>
         view c !! (repo, name) = None /\ pid = (pods_seq c + 1)%Z /\
         view c' = <[(repo, name) := mkPodRow pid repo name hj (as_str Initializing)
                       false false false false tok img dj svc cc env now now]> (view c)
     | Err e => (e = UniqueViolation /\ is_Some (view c !! (repo, name))) \/
                (e = SequenceFull /\ pods_seq c = i64_max)
     end) /\
  (forall repo name,
     view (fst (delete_pod c repo name)) = delete (repo, name) (view c) /\
     snd (delete_pod c repo name) = bool_decide (is_Some (view c !! (repo, name)))) /\
  (forall now pid s,
     view (update_pod_status c now pid s) =
     (fun r => if bool_decide (row_id r = pid)
               then r <| row_status := as_str s |> <| row_updated_at := now |> else r) <$> view c).
Proof.
  intros Hwf%db_reachable_wf. split_and!.
  - intros. by apply get_pod_view.
  - intros. destruct (create_pod_with_compose _ _ _ _ _ _ _ _ _ _ _) as [[c' pid]|e] eqn:E.
    + split_and!; [|by unfold create_pod_with_compose in E; split_matches|by eapply view_create].
      apply view_None. unfold create_pod_with_compose in E. by destruct (existsb _ _).
    + unfold create_pod_with_compose in E. destruct (existsb _ _) eqn:Ek.
      * left. split; [congruence|]. apply not_eq_None_Some. rewrite view_None. congruence.
      * right. case_bool_decide; [split; congruence|done].
  - intros. split; [by apply view_delete|]. simpl. rewrite select_key by done.
    by destruct (view c !! _).
  - intros. by apply view_update_pods.
Qed.

(** A small database: two repositories, three pods, one of them with a forwarded port. *)
Definition pod_at (repo name tok : string) (c : Conn) : Conn :=
  match create_pod c (lit "2026-01-01T00:00:00Z") (lit "{}") (lit repo) (lit name) (lit tok)
          (lit "img") (lit "{}") (lit "[]") with
  | Ok (c', _) => c'
  | Err _ => c
  end.

Definition example_db : Conn :=
  match insert_forwarded_port (pod_at "/b" "dev" "t3" (pod_at "/a" "work" "t2" (pod_at "/a" "dev" "t1" empty_conn)))
          1 (lit "") 8080 8080 (lit "web") with
  | Ok c => c
  | Err _ => empty_conn
  end.

Lemma pod_at_reachable repo name tok c : db_reachable c -> db_reachable (pod_at repo name tok c).
Proof.
  intros H. unfold pod_at. destruct (create_pod _ _ _ _ _ _ _ _ _) as [[c' pid]|] eqn:E; [|done].
  eapply db_next; [exact H|]. eapply step_create, E.
Qed.

Lemma example_db_reachable : db_reachable example_db.
Proof.
  unfold example_db. destruct (insert_forwarded_port _ _ _ _ _ _) as [c'|] eqn:E; [|constructor].
  eapply db_next; [|eapply step_insert_port, E]. do 3 apply pod_at_reachable. constructor.
Qed.

Lemma db_invariant_witness : is_ok (list_all_pods example_db) = true.
Proof. apply (db_invariant example_db example_db_reachable). Defined.

Lemma db_refines_map_witness :
  get_pod example_db (lit "/a") (lit "dev") =
  Ok (record_of <$> view example_db !! (lit "/a", lit "dev")).
Proof. apply (db_refines_map example_db example_db_reachable). Defined.

(** An activity report is bound to the token of the pod it observed: with any other
    token (the pod was deleted, or deleted and created again) it changes nothing, and
    with the current one it changes the flag of that pod and nothing else. *)
Theorem activity_needs_current_token c repo name tok b :
  db_reachable c ->
  match view c !! (repo, name) with
  | Some r =>
      if bool_decide (row_token r = tok)
      then view (record_agent_activity c repo name tok b) =
           <[(repo, name) := r <| row_agent_processing := b |>]> (view c)
      else record_agent_activity c repo name tok b = c
  | None => record_agent_activity c repo name tok b = c
  end /\
  forwarded_ports (record_agent_activity c repo name tok b) = forwarded_ports c.
Proof.
  intros Hwf%db_reachable_wf. split; [|done].
  destruct (view c !! (repo, name)) as [r|] eqn:E; [case_bool_decide as Ht|].
  - unfold record_agent_activity. rewrite view_update_pods by done.
    apply map_eq. intros k. rewrite lookup_fmap.
    destruct (decide (k = (repo, name))) as [->|Hk].
    + rewrite E, lookup_insert_eq. simpl. apply view_lookup in E as [_ Hr]; [|apply Hwf].
      by rewrite (proj2 (has_pod_key_true _ _ _) Hr), bool_decide_eq_true_2.
    + rewrite lookup_insert_ne by done. destruct (view c !! k) as [r'|] eqn:Ek; [simpl|done].
      apply view_lookup in Ek as [_ Hr]; [|apply Hwf].
      destruct (has_pod_key repo name r') eqn:Hk'; [|done].
      apply has_pod_key_true in Hk'. congruence.
  - apply activity_none. intros r' Hin Hk'.
    assert (view c !! (repo, name) = Some r') as E' by (by apply view_lookup; [apply Hwf|]).
    congruence.
  - apply activity_none. intros r' Hin Hk'.
    assert (view c !! (repo, name) = Some r') as E' by (by apply view_lookup; [apply Hwf|]).
    congruence.
Qed.

Lemma activity_needs_current_token_witness :
  let recreated := pod_at "/a" "dev" "t9" (fst (delete_pod example_db (lit "/a") (lit "dev"))) in
  record_agent_activity recreated (lit "/a") (lit "dev") (lit "t1") true = recreated.
Proof.
  intros recreated.
  assert (H : db_reachable recreated).
  { apply pod_at_reachable. eapply db_next; [apply example_db_reachable|]. apply step_delete. }
  pose proof (activity_needs_current_token recreated (lit "/a") (lit "dev") (lit "t1") true H) as [Hm _].
  vm_compute in Hm. vm_compute. exact Hm.
Defined.

(** Deleting a pod removes exactly its own forwarded ports, and since row ids are
    never reused, not even those of deleted pods, a pod created at any later time gets
    an id above every earlier one and starts with no forwarded ports. *)
Theorem delete_cascade_and_fresh_ids c1 repo name r c2 :
  db_reachable c1 -> view c1 !! (repo, name) = Some r ->
  let c1' := fst (delete_pod c1 repo name) in
  rtc db_step c1' c2 ->
  forwarded_ports c1' =
    List.filter (fun p => negb (bool_decide (port_pod_id p = row_id r))) (forwarded_ports c1) /\
  list_forwarded_ports c1' (row_id r) = [] /\
  forall now hj repo' name' tok img dj svc cc env c3 pid,
    create_pod_with_compose c2 now hj repo' name' tok img dj svc cc env = Ok (c3, pid) ->
    (row_id r < pid)%Z /\ list_forwarded_ports c3 pid = [].
Proof.
  intros Hr Hv c1' Hsteps. pose proof (db_reachable_wf _ Hr) as Hwf.
  assert (Hports : forwarded_ports c1' =
    List.filter (fun p => negb (bool_decide (port_pod_id p = row_id r))) (forwarded_ports c1)).
  { unfold c1', delete_pod; rsimpl. rewrite select_key, Hv by done. simpl.
    apply filter_ext. intros p. rewrite orb_false_r. f_equal. by apply bool_decide_ext. }
  split_and!; [done| |].
  - apply ports_of_none. intros p Hp Hid. rewrite Hports in Hp.
    apply elem_of_bfilter in Hp as [_ Hp]. by rewrite bool_decide_eq_true_2 in Hp.
  - intros now hj repo' name' tok img dj svc cc env c3 pid Hc.
    assert (Hc2 : conn_wf c2) by
      (eapply db_reachable_wf, db_steps_reachable, Hsteps; eapply db_next, step_delete; exact Hr).
    pose proof (create_pod_id _ _ _ _ _ _ _ _ _ _ _ _ _ Hc) as [-> Hfp]. split.
    + apply view_lookup in Hv as [Hin _]; [|apply Hwf].
      pose proof (db_steps_seq _ _ Hsteps) as Hs. unfold c1', delete_pod in Hs; rsimpl.
      destruct Hwf as [_ _ _ Hrange _ _ _]. rewrite Forall_forall in Hrange.
      specialize (Hrange r Hin). lia.
    + apply ports_of_none. intros p Hp Hid. rewrite Hfp in Hp.
      pose proof (port_owner_range _ _ Hc2 Hp). lia.
Qed.

Definition example_row : PodRow :=
  mkPodRow 1 (lit "/a") (lit "dev") (lit "{}") (lit "initializing") false false false false (lit "t1")
    (lit "img") (lit "{}") [] [] (lit "[]") (lit "2026-01-01T00:00:00Z") (lit "2026-01-01T00:00:00Z").

Lemma delete_cascade_and_fresh_ids_witness :
  list_forwarded_ports (fst (delete_pod example_db (lit "/a") (lit "dev"))) 1 = [].
Proof.
  assert (Hv : view example_db !! (lit "/a", lit "dev") = Some example_row) by (vm_compute; reflexivity).
  apply (delete_cascade_and_fresh_ids example_db (lit "/a") (lit "dev") example_row
    (fst (delete_pod example_db (lit "/a") (lit "dev"))) example_db_reachable Hv (rtc_refl _ _)).
Defined.

(** [list_pods] returns every pod of the repository exactly as [get_pod] reads it,
    and no other, in strictly increasing byte order of the names. *)
Theorem list_pods_complete c repo recs :
  db_reachable c -> list_pods c repo = Ok recs ->
  StronglySorted (fun a b => str_le (name a) (name b) = true /\ name a <> name b) recs /\
  forall rec, rec ∈ recs <-> repo_path rec = repo /\ get_pod c repo (name rec) = Ok (Some rec).
Proof.
  intros Hwf%db_reachable_wf H. unfold list_pods in H.
  set (rows := merge_sort name_le _) in H.
  assert (Hrows : forall r, r ∈ rows <-> r ∈ pods c /\ row_repo_path r = repo).
  { intros r. unfold rows. rewrite merge_sort_Permutation. unfold select_pods.
    by rewrite elem_of_bfilter, bool_decide_eq_true. }
  rewrite (read_rows_wf c) in H by (done || by intros r [? _]%Hrows). injection H as <-.
  split.
  - apply StronglySorted_map_strict.
    + apply (StronglySorted_merge_sort name_le).
    + unfold rows. rewrite merge_sort_Permutation. apply NoDup_names, Hwf.
  - intros rec. rewrite get_pod_view, list_elem_of_fmap by done. split.
    + intros (r & -> & [Hin <-]%Hrows). split; [done|]. simpl.
      assert (view c !! (row_repo_path r, row_name r) = Some r) as ->; [|done].
      by apply view_lookup; [apply Hwf|].
    + intros [Hp Hg]. injection Hg as Hg. apply fmap_Some in Hg as (r & Hv & ->).
      apply view_lookup in Hv as [Hin Hk]; [|apply Hwf]. exists r. split; [done|].
      apply Hrows. split; [done|exact Hp].
Qed.

Lemma list_pods_complete_witness :
  map name (default [] (ok (list_pods example_db (lit "/a")))) = [lit "dev"; lit "work"] /\
  StronglySorted (fun a b => str_le (name a) (name b) = true /\ name a <> name b)
    (default [] (ok (list_pods example_db (lit "/a")))).
Proof.
  split; [vm_compute; reflexivity|].
  apply (list_pods_complete example_db (lit "/a") (default [] (ok (list_pods example_db (lit "/a")))));
    [apply example_db_reachable|vm_compute; reflexivity].
Defined.

(** [open_db] accepts a database of the current schema as it is and upgrades one of
    the two earlier schemas in place: pods keep their identity, status and token and the
    new columns hold their defaults, forwarded ports are kept, and opening again changes
    nothing. *)
Theorem open_db_migrates h f f' v :
  stored_hash f = Ok v -> open_db h (Some f) = Ok f' ->
  open_db h (Some f') = Ok f' /\
  stored_hash f' = Ok h /\
  map row_id (pods (content f')) = map row_id (pods (content f)) /\
  map pod_key (pods (content f')) = map pod_key (pods (content f)) /\
  map row_status (pods (content f')) = map row_status (pods (content f)) /\
  map row_token (pods (content f')) = map row_token (pods (content f)) /\
  map port_local_port (forwarded_ports (content f')) =
    map port_local_port (forwarded_ports (content f)) /\
  (v <> h -> has_activity_column f' = true /\
             Forall (fun r => row_agent_processing r = false) (pods (content f'))) /\
  (v <> h -> v = PRE_COMPOSE_SCHEMA_HASH ->
     has_compose_columns f' = true /\
     Forall (fun r => row_agent_service r = [] /\ row_compose_config r = []) (pods (content f'))).
Proof.
  intros Hv H. unfold open_db in H. rewrite Hv in H. case_bool_decide as Hh.
  - simpl in H. injection H as <-. unfold open_db.
    rewrite Hv, bool_decide_eq_true_2 by done. subst. by split_and!.
  - simpl in H. assert (Hpm : v = PRE_COMPOSE_SCHEMA_HASH \/ v <> PRE_COMPOSE_SCHEMA_HASH)
      by (destruct (decide (v = PRE_COMPOSE_SCHEMA_HASH)); auto).
    revert H. repeat case_bool_decide; [| |done];
      unfold migrate_schema, PRE_COMPOSE_MIGRATION_SQL, PRE_ACTIVITY_MIGRATION_SQL.
    + destruct (has_compose_columns f); simpl; [done|]. destruct (has_activity_column f); simpl; [done|].
      rewrite Hv. simpl. intros [= <-]. rsimpl. rewrite bool_decide_eq_true_2 by done.
      rewrite !map_map. split_and!; try done; intros; (split; [done|]);
        rewrite ?Forall_map; by apply Forall_true.
    + destruct (has_activity_column f); simpl; [done|].
      rewrite Hv. simpl. intros [= <-]. rsimpl. rewrite bool_decide_eq_true_2 by done.
      rewrite !map_map. split_and!; try done; intros; (split; [done|]);
        rewrite ?Forall_map; by apply Forall_true.
Qed.

Lemma open_db_migrates_witness :
  let old := mkDbFile (Ok PRE_COMPOSE_SCHEMA_HASH) false false example_db in
  let new := default old (ok (open_db (lit "current") (Some old))) in
  stored_hash new = Ok (lit "current") /\
  map row_token (pods (content new)) = map row_token (pods example_db).
Proof.
  intros old new.
  pose proof (open_db_migrates (lit "current") old new PRE_COMPOSE_SCHEMA_HASH
    ltac:(reflexivity) ltac:(vm_compute; reflexivity)) as (_ & H1 & _ & _ & _ & H2 & _).
  split; [exact H1|exact H2].
Defined.

(** Any SQLite failure while the version is read, a locked database or a corrupt file
    included and not only the missing table the code means, makes [open_db] throw the
    file away: it succeeds with an empty database and every pod is forgotten. *)
Theorem open_db_discards_on_failure h f code :
  stored_hash f = Err (SqliteFailure code) ->
  exists f', open_db h (Some f) = Ok f' /\ list_all_pods (content f') = Ok [].
Proof. intros Hv. unfold open_db. rewrite Hv. by eexists. Qed.

Lemma open_db_discards_on_failure_witness :
  exists f', open_db (lit "current") (Some (mkDbFile (Err (SqliteFailure DatabaseBusy)) true true example_db)) = Ok f'
             /\ list_all_pods (content f') = Ok [].
Proof.
  apply (open_db_discards_on_failure (lit "current")
    (mkDbFile (Err (SqliteFailure DatabaseBusy)) true true example_db) DatabaseBusy).
  reflexivity.
Defined.
