(* ===== verification/Ports.v ===== *)
(** * Port forwarding (daemon.rs)

    Which host port a forwarded container port gets, how the allocation is stored and how
    a restarted daemon reclaims it.  The operating system's ports are a set of ports in
    use; [bindable] says which ports the daemon may bind and [os_assign] which port the
    system hands out for a bind to port 0.  A listener stays bound while its handle
    lives, so a successful bind adds its port to the set.  Starting the exec proxy on a
    bound listener is not modelled. *)
From S2P Require Import Prelude Strs Hosts Db.

Inductive Port := Number (n : Z) | PortString (s : str).

Record ForwardTarget := mkForwardTarget {
  target_service : str;
  target_container_port : Z;
}.

#[export] Instance ForwardTarget_eq_dec : EqDecision ForwardTarget.
Proof. solve_decision. Defined.

Inductive PortProtocol := Http | Https.

Inductive OnAutoForward :=
| Notify | OpenBrowser | OpenBrowserOnce | OpenPreview | Silent | Ignore.

Record PortAttributes := mkPortAttributes {
  label : option str;
  protocol : option PortProtocol;
  on_auto_forward : option OnAutoForward;
  require_local_port : option bool;
  elevate_if_needed : option bool;
}.

Inductive port_error :=
| ZeroPort
| RequiresCompose (s : str)
| MissingAgentService
| InvalidEntry (s : str)
| NoSuchService (service : str)
| NamesAgentService (s : str)
| InvalidPort (raw : str)
| ServiceNotStarted (service : str)
| ContainerCount (service : str) (n : nat)
| MissingProjectOrAgent
| InvalidStoredService (service : str)
| BindFailed
| AlreadyForwarded (container_port local_port : Z)
| LocalPortUsed (port : Z)
| DbError (e : db_error).

#[export] Instance port_error_eq_dec : EqDecision port_error.
Proof. solve_decision. Defined.

(** ** Declared entries *)

(** [Model::validate_service]; the model is its set of service names. *)
Definition validate_service (model : gset str) (service : str) : result port_error unit :=
  if bool_decide (service ∈ model) then Ok tt else Err (NoSuchService service).

Definition resolve_forward_target (port : Port) (agent_service : option str)
    (compose_model : option (gset str)) : result port_error ForwardTarget :=
  match port with
  | Number n =>
      if bool_decide (n = 0%Z) then Err ZeroPort
      else Ok (mkForwardTarget (default [] agent_service) n)
  | PortString s =>
      model ← context (RequiresCompose s) compose_model;
      agent_service ← context MissingAgentService agent_service;
      '(service, raw_port) ← context (InvalidEntry s) (split_once c_colon s);
      if bool_decide (service = []) || bool_decide (raw_port = []) || contains_char c_colon raw_port
      then Err (InvalidEntry s)
      else
        _ ← validate_service model service;
        if bool_decide (service = agent_service) then Err (NamesAgentService s)
        else
          container_port ← context (InvalidPort raw_port) (parse_uint 65535 raw_port);
          if bool_decide (container_port = 0%N) then Err (InvalidEntry s)
          else Ok (mkForwardTarget service (Z.of_N container_port))
  end.

Fixpoint validate_declared_forward_ports (ports : list Port) (agent_service : option str)
    (compose_model : option (gset str)) (selected_services : option (gset str))
    : result port_error unit :=
  match ports with
  | [] => Ok tt
  | port :: ports' =>
      target ← resolve_forward_target port agent_service compose_model;
      if negb (bool_decide (target_service target = []))
         && is_some_and (fun services => negb (bool_decide (target_service target ∈ services)))
              selected_services
      then Err (ServiceNotStarted (target_service target))
      else validate_declared_forward_ports ports' agent_service compose_model selected_services
  end.

(** ** The container a forward goes to *)

(** A Compose project, as the containers of each service. *)
Definition Project := str -> list str.

Definition one_service_container (project : Project) (service : str) : result port_error str :=
  match project service with
  | [container] => Ok container
  | containers => Err (ContainerCount service (length containers))
  end.

Definition forwarding_container (service agent_container : str) (agent_service : option str)
    (compose_project : option Project) : result port_error str :=
  match compose_project, agent_service with
  | Some project, Some agent =>
      if bool_decide (service = agent) then Ok agent_container
      else one_service_container project service
  | None, None =>
      if bool_decide (service = []) then Ok agent_container
      else Err (InvalidStoredService service)
  | Some _, None | None, Some _ => Err MissingProjectOrAgent
  end.

Definition forwarded_port_attributes (service : str) (container_port : Z)
    (agent_service : option str) (ports_attributes : gmap str PortAttributes)
    (other_ports_attributes : option PortAttributes) : option PortAttributes :=
  let port_str := show (Z.to_N container_port) in
  let attribute_key :=
    if bool_decide (service = []) || bool_decide (agent_service = Some service)
    then port_str else service ++ [c_colon] ++ port_str in
  match ports_attributes !! attribute_key with
  | Some a => Some a
  | None =>
      match ports_attributes !! port_str with
      | Some a => Some a
      | None => other_ports_attributes
      end
  end.

(** ** Binding *)

Section Binding.
Context (bindable : Z -> bool) (os_assign : gset Z -> option Z).

(** [TcpListener::bind] on loopback: the port bound. *)
Definition tcp_bind (busy : gset Z) (port : Z) : option Z :=
  if bool_decide (port = 0%Z) then os_assign busy
  else if bool_decide (port ∈ busy) || negb (bindable port) then None
  else Some port.

Definition NEAR_ATTEMPTS : nat := 10.

(** The loop of [bind_near] over the remaining offsets. *)
Fixpoint bind_near_from (offset : Z) (attempts : nat) (preferred : Z) (reserved busy : gset Z)
    : option Z :=
  match attempts with
  | O => tcp_bind busy 0
  | S attempts' =>
      let continue := bind_near_from (offset + 1) attempts' preferred reserved busy in
      match checked_add16 preferred offset with
      | Some port =>
          if bool_decide (port = 0%Z) then continue
          else if bool_decide (port ∈ reserved) then continue
          else match tcp_bind busy port with
               | Some l => Some l
               | None => continue
               end
      | None => continue
      end
  end.

Definition bind_near (preferred : Z) (reserved busy : gset Z) : option Z :=
  bind_near_from 0 NEAR_ATTEMPTS preferred reserved busy.

Definition rebind_or_near (preferred fallback_near : Z) (reserved busy : gset Z) : option Z :=
  let near := bind_near fallback_near reserved busy in
  if negb (bool_decide (preferred ∈ reserved)) && negb (bool_decide (preferred = 0%Z)) then
    match tcp_bind busy preferred with
    | Some l => Some l
    | None => near
    end
  else near.

(** ** Setting up the listeners of a pod *)

Record handle := mkHandle { h_local_port : Z; h_container : str; h_container_port : Z }.

#[export] Instance handle_eq_dec : EqDecision handle.
Proof. solve_decision. Defined.

Definition lift_db {A} (r : result db_error A) : result port_error A :=
  match r with Ok a => Ok a | Err e => Err (DbError e) end.

(** What the setup of one pod knows. *)
Record setup_env := mkSetupEnv {
  env_agent_container : str;
  env_pod_id : Z;
  env_attributes : gmap str PortAttributes;
  env_other_attributes : option PortAttributes;
  env_agent_service : option str;
  env_model : option (gset str);
  env_project : option Project;
}.

Context (env : setup_env).

(** The two loops return the database as the statements left it, with the outcome: an
    error does not undo the rows already written. *)
Fixpoint setup_fresh (forward_ports : list Port) (reserved busy : gset Z) (c : Conn)
    : Conn * result port_error (list handle) :=
  match forward_ports with
  | [] => (c, Ok [])
  | port_spec :: rest =>
      match resolve_forward_target port_spec (env_agent_service env) (env_model env) with
      | Err e => (c, Err e)
      | Ok target =>
          let container_port := target_container_port target in
          match bind_near container_port reserved busy with
          | None => (c, Err BindFailed)
          | Some local_port =>
              let attributes := forwarded_port_attributes (target_service target) container_port
                (env_agent_service env) (env_attributes env) (env_other_attributes env) in
              let label := default [] (attributes ≫= label) in
              match insert_forwarded_port c (env_pod_id env) (target_service target)
                      container_port local_port label with
              | Err e => (c, Err (DbError e))
              | Ok c' =>
                  match forwarding_container (target_service target) (env_agent_container env)
                          (env_agent_service env) (env_project env) with
                  | Err e => (c', Err e)
                  | Ok container =>
                      let '(c'', r) := setup_fresh rest ({[local_port]} ∪ reserved)
                                         ({[local_port]} ∪ busy) c' in
                      (c'', hs ← r; Ok (mkHandle local_port container container_port :: hs))
                  end
              end
          end
      end
  end.

Fixpoint setup_saved (existing : list ForwardedPort) (reserved busy : gset Z) (c : Conn)
    : Conn * result port_error (list handle) :=
  match existing with
  | [] => (c, Ok [])
  | saved :: rest =>
      match rebind_or_near (fp_local_port saved) (fp_container_port saved) reserved busy with
      | None => (c, Err BindFailed)
      | Some actual =>
          match (if negb (bool_decide (actual = fp_local_port saved))
                 then update_forwarded_local_port c (env_pod_id env) (fp_service saved)
                        (fp_container_port saved) actual
                 else Ok c) with
          | Err e => (c, Err (DbError e))
          | Ok c' =>
              match forwarding_container (fp_service saved) (env_agent_container env)
                      (env_agent_service env) (env_project env) with
              | Err e => (c', Err e)
              | Ok container =>
                  let '(c'', r) := setup_saved rest ({[actual]} ∪ reserved)
                                     ({[actual]} ∪ busy) c' in
                  (c'', hs ← r; Ok (mkHandle actual container (fp_container_port saved) :: hs))
              end
          end
      end
  end.

Definition setup_port_forwarding (forward_ports : list Port) (busy : gset Z) (c : Conn)
    : Conn * result port_error (list handle) :=
  let existing := list_forwarded_ports c (env_pod_id env) in
  let allocated_globally : gset Z := list_to_set (get_all_allocated_local_ports c) in
  match existing with
  | [] => setup_fresh forward_ports allocated_globally busy c
  | _ =>
      let my_existing_ports : gset Z := list_to_set (map fp_local_port existing) in
      setup_saved existing (allocated_globally ∖ my_existing_ports) busy c
  end.

(** [add_forwarded_port] once the pod is known to run: the duplicate check, the choice of
    the host port and the new row. *)
Definition add_forwarded_port (c : Conn) (busy : gset Z) (pod_id : Z) (service : str)
    (container_port : Z) (local_port : option Z) (lbl : str) : result port_error (Conn * Z) :=
  match List.find (fun p => bool_decide (fp_service p = service)
                            && bool_decide (fp_container_port p = container_port))
          (list_forwarded_ports c pod_id) with
  | Some dup => Err (AlreadyForwarded container_port (fp_local_port dup))
  | None =>
      let allocated : gset Z := list_to_set (get_all_allocated_local_ports c) in
      listener ←
        match local_port with
        | Some requested =>
            if bool_decide (requested ∈ allocated) then Err (LocalPortUsed requested)
            else context BindFailed (tcp_bind busy requested)
        | None => context BindFailed (bind_near container_port allocated busy)
        end;
      c' ← lift_db (insert_forwarded_port c pod_id service container_port listener lbl);
      Ok (c', listener)
  end.
End Binding.

(** ** Lemmas *)

Section Theory.
Context (bindable : Z -> bool) (os_assign : gset Z -> option Z).

(** The system hands out a port that is not in use. *)
Definition os_assigns_free : Prop := forall busy p, os_assign busy = Some p -> p ∉ busy.

(** A port [bind_near] may return before it asks the system. *)
Definition usable (reserved busy : gset Z) (p : Z) : bool :=
  bool_decide (p <= u16_max)%Z && negb (bool_decide (p = 0%Z)) && negb (bool_decide (p ∈ reserved))
  && negb (bool_decide (p ∈ busy)) && bindable p.

(** Reference definition: the first usable port of the window. *)
Definition near_reference (preferred : Z) (reserved busy : gset Z) : option Z :=
  match List.find (usable reserved busy)
          (map (fun k => preferred + Z.of_nat k)%Z (seq 0 NEAR_ATTEMPTS)) with
  | Some p => Some p
  | None => os_assign busy
  end.

Lemma bind_near_from_find off n preferred reserved busy :
  bind_near_from bindable os_assign (Z.of_nat off) n preferred reserved busy =
  match List.find (usable reserved busy)
          (map (fun k => preferred + Z.of_nat k)%Z (seq off n)) with
  | Some p => Some p
  | None => os_assign busy
  end.
Proof.
  revert off. induction n as [|n IH]; intros off; [done|]. simpl.
  replace (Z.of_nat off + 1)%Z with (Z.of_nat (S off)) by lia. rewrite IH.
  generalize (List.find (usable reserved busy) (map (fun k => preferred + Z.of_nat k)%Z (seq (S off) n))).
  intros rest. unfold checked_add16, usable, tcp_bind.
  case_bool_decide; simpl; [|done]. case_bool_decide; simpl; [done|].
  case_bool_decide; simpl; [done|]. case_bool_decide; simpl; [done|].
  by destruct (bindable _).
Qed.

Lemma bind_near_fresh preferred reserved busy p :
  os_assigns_free -> bind_near bindable os_assign preferred reserved busy = Some p -> p ∉ busy.
Proof.
  intros Hos. unfold bind_near. rewrite (bind_near_from_find 0).
  destruct (List.find _ _) as [q|] eqn:E; [|by apply Hos]. intros [= <-].
  apply List.find_some in E as [_ E]. unfold usable in E.
  destruct (bool_decide (q ∈ busy)) eqn:Eb; [|by apply bool_decide_eq_false in Eb].
  by rewrite !andb_false_r in E.
Qed.

(** *** Fresh setup *)

Lemma insert_forwarded_port_Ok c pid svc cp lp lbl c' :
  insert_forwarded_port c pid svc cp lp lbl = Ok c' ->
  forwarded_ports c' = forwarded_ports c ++ [mkPortRow (ports_seq c + 1) pid svc cp lp lbl] /\
  pods c' = pods c /\ lp ∉ map port_local_port (forwarded_ports c).
Proof.
  unfold insert_forwarded_port. destruct (existsb _ (forwarded_ports c)) eqn:El; [done|].
  destruct (negb _); [done|]. case_bool_decide; [done|]. intros [= <-]. split_and!; [done..|].
  intros Hin%existsb_eq_map. congruence.
Qed.

Definition row_matches (env : setup_env) (h : handle) (r : PortRow) : Prop :=
  port_pod_id r = env_pod_id env /\ port_local_port r = h_local_port h /\
  port_container_port r = h_container_port h /\
  forwarding_container (port_service r) (env_agent_container env) (env_agent_service env)
    (env_project env) = Ok (h_container h).

Lemma setup_fresh_rows env forward_ports reserved busy c c' hs :
  os_assigns_free ->
  setup_fresh bindable os_assign env forward_ports reserved busy c = (c', Ok hs) ->
  exists rows, forwarded_ports c' = forwarded_ports c ++ rows /\ pods c' = pods c /\
    Forall2 (row_matches env) hs rows /\ length hs = length forward_ports /\
    NoDup (map h_local_port hs) /\ Forall (fun h => h_local_port h ∉ busy) hs.
Proof.
  intros Hos. revert reserved busy c c' hs.
  induction forward_ports as [|fp fps IH]; intros reserved busy c c' hs; simpl.
  { intros [= <- <-]. exists []. rewrite app_nil_r. split_and!; constructor. }
  destruct (resolve_forward_target _ _ _) as [tg|]; [|done].
  destruct (bind_near _ _ _ _ _) as [lp|] eqn:Eb; [|done].
  destruct (insert_forwarded_port _ _ _ _ _ _) as [c1|] eqn:Ei; [|done].
  destruct (forwarding_container _ _ _ _) as [ct|] eqn:Ef; [|done].
  destruct (setup_fresh _ _ _ _ _ _ _) as [c2 [hs'|]] eqn:Er; simpl; [|done].
  intros [= <- <-]. apply IH in Er as (rows & Hrows & Hpods & Hm & Hlen & Hnd & Hb).
  apply insert_forwarded_port_Ok in Ei as (Hf & Hp & _).
  exists (mkPortRow (ports_seq c + 1) (env_pod_id env) (target_service tg) (target_container_port tg) lp
        (default [] (forwarded_port_attributes (target_service tg) (target_container_port tg)
           (env_agent_service env) (env_attributes env) (env_other_attributes env) ≫= label)) :: rows).
  rewrite Hrows, Hf, <- app_assoc, Hpods, Hp. rewrite Forall_forall in Hb.
  split_and!; [done..| | |simpl; by rewrite Hlen| |].
  - done.
  - by constructor.
  - simpl. apply NoDup_cons. split; [|done]. intros (h & -> & Hin)%list_elem_of_fmap.
    apply Hb in Hin. set_solver.
  - constructor; [by eapply bind_near_fresh|]. apply Forall_forall. intros h Hin%Hb. set_solver.
Qed.

Lemma setup_fresh_wf env forward_ports reserved busy c c' hs :
  setup_fresh bindable os_assign env forward_ports reserved busy c = (c', hs) ->
  conn_wf c -> conn_wf c'.
Proof.
  revert reserved busy c c' hs. induction forward_ports as [|fp fps IH]; intros reserved busy c c' hs; simpl.
  { by intros [= <- <-]. }
  destruct (resolve_forward_target _ _ _) as [tg|]; [|by intros [= <- _]].
  destruct (bind_near _ _ _ _ _) as [lp|] eqn:Eb; [|by intros [= <- _]].
  destruct (insert_forwarded_port _ _ _ _ _ _) as [c1|] eqn:Ei; [|by intros [= <- _]].
  destruct (forwarding_container _ _ _ _) as [ct|]; [|intros [= <- _]; eauto with rumpel].
  destruct (setup_fresh _ _ _ _ _ _ _) as [c2 r] eqn:Er. intros [= <- _] Hwf.
  eapply IH; [exact Er|]. eauto with rumpel.
Qed.

(** *** Reconnect *)

Lemma rebind_free saved near reserved busy :
  saved ∉ reserved -> saved ∉ busy -> saved <> 0%Z -> bindable saved = true ->
  rebind_or_near bindable os_assign saved near reserved busy = Some saved.
Proof.
  intros Hr Hb Hz Hbind. unfold rebind_or_near, tcp_bind.
  rewrite !bool_decide_eq_false_2, Hbind by done. done.
Qed.

Definition handle_of (env : setup_env) (p : ForwardedPort) : result port_error handle :=
  container ← forwarding_container (fp_service p) (env_agent_container env)
                (env_agent_service env) (env_project env);
  Ok (mkHandle (fp_local_port p) container (fp_container_port p)).

Lemma setup_saved_keeps env saved reserved busy c hs :
  NoDup (map fp_local_port saved) ->
  Forall (fun p => fp_local_port p ∉ reserved /\ fp_local_port p ∉ busy /\ fp_local_port p <> 0%Z
                   /\ bindable (fp_local_port p) = true) saved ->
  Forall2 (fun p h => handle_of env p = Ok h) saved hs ->
  setup_saved bindable os_assign env saved reserved busy c = (c, Ok hs).
Proof.
  revert reserved busy hs. induction saved as [|p saved IH]; intros reserved busy hs Hnd Hf H2; simpl.
  { by inversion H2. }
  inversion H2 as [|? h ? hs' Hh H2']; subst.
  apply NoDup_cons in Hnd as [Hni Hnd]. apply Forall_cons in Hf as [(Hr & Hb & Hz & Hbi) Hf].
  rewrite rebind_free, bool_decide_eq_true_2 by done. simpl.
  unfold handle_of in Hh. destruct (forwarding_container _ _ _ _) as [ct|]; [|done].
  injection Hh as <-. rewrite (IH _ _ hs'); [done|done| |done].
  rewrite Forall_forall in Hf |- *. intros p' Hin. destruct (Hf p' Hin) as (? & ? & ? & ?).
  assert (fp_local_port p' <> fp_local_port p).
  { intros Heq. apply Hni. rewrite <- Heq. by apply list_elem_of_fmap_2. }
  split_and!; set_solver.
Qed.

Lemma list_forwarded_ports_row c pid s :
  s ∈ list_forwarded_ports c pid <->
  exists r, r ∈ forwarded_ports c /\ port_pod_id r = pid /\ s = row_to_forwarded_port r.
Proof.
  unfold list_forwarded_ports. rewrite list_elem_of_fmap. split.
  - intros (r & -> & Hin). rewrite sorting.merge_sort_Permutation in Hin.
    apply elem_of_bfilter in Hin as [Hin Hid%bool_decide_eq_true]. eauto.
  - intros (r & Hin & Hid & ->). exists r. split; [done|].
    rewrite sorting.merge_sort_Permutation. apply elem_of_bfilter.
    by rewrite bool_decide_eq_true.
Qed.

Lemma saved_local_ports_NoDup c pid :
  conn_wf c -> NoDup (map fp_local_port (list_forwarded_ports c pid)).
Proof.
  intros Hwf. unfold list_forwarded_ports. rewrite map_map. simpl.
  rewrite sorting.merge_sort_Permutation. apply NoDup_map_filter, Hwf.
Qed.

Lemma saved_not_reserved c pid s :
  s ∈ list_forwarded_ports c pid ->
  fp_local_port s ∉ (list_to_set (get_all_allocated_local_ports c)
                     ∖ list_to_set (map fp_local_port (list_forwarded_ports c pid)) : gset Z).
Proof.
  intros Hin. rewrite elem_of_difference, !elem_of_list_to_set. intros [_ Hni].
  apply Hni. by apply list_elem_of_fmap_2.
Qed.

(** Moving one forward to the host port of another row violates the unique index. *)
Lemma update_to_taken_port c pid s q r2 :
  s ∈ list_forwarded_ports c pid -> r2 ∈ forwarded_ports c -> port_local_port r2 = q ->
  q <> fp_local_port s ->
  update_forwarded_local_port c pid (fp_service s) (fp_container_port s) q = Err UniqueViolation.
Proof.
  intros (r1 & Hr1 & Hid & ->)%list_forwarded_ports_row Hr2 Hq Hne. simpl in *.
  unfold update_forwarded_local_port. rewrite bool_decide_eq_false_2; [done|]. rewrite map_map.
  intros Hnd. assert (r1 = r2) as ->; [|congruence].
  eapply NoDup_map_inj; [exact Hnd|done..|]. simpl.
  rewrite !(bool_decide_eq_true_2 (_ r1 = _)) by done. simpl. by case_match.
Qed.
End Theory.

(** ** Properties *)

(** [bind_near] returns the first of the ten ports from the preferred one upwards that
    exists, is not reserved and can be bound, and otherwise what the system assigns: the
    loop with its overflow check computes exactly this reference definition. *)
Theorem bind_near_reference bindable os_assign preferred reserved busy :
  bind_near bindable os_assign preferred reserved busy =
  near_reference bindable os_assign preferred reserved busy.
Proof. apply (bind_near_from_find bindable os_assign 0). Qed.

(** The first setup of a pod's forwards that succeeds binds one listener per entry, on
    host ports that are distinct, were free, and were allocated to no pod; the database
    gains exactly the rows of these listeners and stays well formed. *)
Theorem fresh_setup_allocates bindable os_assign env forward_ports busy c c' hs :
  db_reachable c -> os_assigns_free os_assign ->
  list_forwarded_ports c (env_pod_id env) = [] ->
  setup_port_forwarding bindable os_assign env forward_ports busy c = (c', Ok hs) ->
  conn_wf c' /\
  length hs = length forward_ports /\
  NoDup (map h_local_port hs) /\
  Forall (fun h => h_local_port h ∉ busy /\ h_local_port h ∉ get_all_allocated_local_ports c) hs /\
  exists rows, forwarded_ports c' = forwarded_ports c ++ rows /\ Forall2 (row_matches env) hs rows.
Proof.
  intros Hr Hos Hnone H. unfold setup_port_forwarding in H. rewrite Hnone in H.
  assert (Hwf : conn_wf c') by
    (eapply setup_fresh_wf; [exact H|by apply db_reachable_wf]).
  apply setup_fresh_rows in H as (rows & Hf & _ & Hm & Hlen & Hnd & Hb); [|done].
  split_and!; [done..| |by exists rows].
  apply Forall_forall. intros h Hin. rewrite Forall_forall in Hb. split; [auto|].
  apply list_elem_of_lookup in Hin as [i Hi]. destruct (Forall2_lookup_l _ _ _ _ _ Hm Hi) as (r & Hri & Hrm).
  destruct Hrm as (_ & <- & _). apply list_elem_of_lookup_2 in Hri.
  pose proof (wf_local_ports _ Hwf) as Hl. rewrite Hf, map_app in Hl.
  apply NoDup_app in Hl as (_ & Hd & _). intros Hin. apply (Hd _ Hin). by apply list_elem_of_fmap_2.
Qed.

(** Host ports survive a restart: when every saved port of the pod can be bound again,
    reconnecting binds exactly the saved ports, in the listed order, and leaves the
    database as it was. *)
Theorem reconnect_keeps_ports bindable os_assign env forward_ports busy c hs :
  db_reachable c ->
  list_forwarded_ports c (env_pod_id env) <> [] ->
  Forall (fun p => fp_local_port p ∉ busy /\ fp_local_port p <> 0%Z /\ bindable (fp_local_port p) = true)
    (list_forwarded_ports c (env_pod_id env)) ->
  Forall2 (fun p h => handle_of env p = Ok h) (list_forwarded_ports c (env_pod_id env)) hs ->
  setup_port_forwarding bindable os_assign env forward_ports busy c = (c, Ok hs) /\
  map h_local_port hs = map fp_local_port (list_forwarded_ports c (env_pod_id env)).
Proof.
  intros Hwf%db_reachable_wf Hne Hfree Hhs. split.
  - unfold setup_port_forwarding. destruct (list_forwarded_ports _ _) as [|s l] eqn:El; [done|].
    rewrite <- El in *. apply setup_saved_keeps; [by apply saved_local_ports_NoDup| |done].
    rewrite Forall_forall in Hfree |- *. intros p Hp.
    split; [by apply saved_not_reserved|by apply Hfree].
  - clear Hne Hfree. induction Hhs as [|p h ps hs Hh _ IH]; [done|]. simpl. rewrite IH. f_equal.
    unfold handle_of in Hh. destruct (forwarding_container _ _ _ _); [|done]. by injection Hh as <-.
Qed.

(** Reconnecting reserves the ports of other pods but not the pod's own saved ports: if
    the first saved port is taken by another process and the fallback lands on the saved
    port of another forward of the same pod, the update violates the unique index and
    the whole reconnect fails. *)
Theorem reconnect_conflict_fails bindable os_assign env forward_ports busy c s1 rest q :
  list_forwarded_ports c (env_pod_id env) = s1 :: rest ->
  rebind_or_near bindable os_assign (fp_local_port s1) (fp_container_port s1)
    (list_to_set (get_all_allocated_local_ports c)
     ∖ list_to_set (map fp_local_port (s1 :: rest))) busy = Some q ->
  q <> fp_local_port s1 -> q ∈ map fp_local_port rest ->
  setup_port_forwarding bindable os_assign env forward_ports busy c =
  (c, Err (DbError UniqueViolation)).
Proof.
  intros Hl Hb Hq Hin. unfold setup_port_forwarding. rewrite Hl. cbn [setup_saved]. rewrite Hb.
  rewrite bool_decide_eq_false_2 by done. cbn [negb].
  apply list_elem_of_fmap in Hin as (s2 & -> & Hs2).
  assert (Hs2' : s2 ∈ list_forwarded_ports c (env_pod_id env)) by (rewrite Hl; by right).
  apply list_forwarded_ports_row in Hs2' as (r2 & Hr2 & _ & ->).
  rewrite (update_to_taken_port c _ s1 _ r2); [done| |done|done|done].
  rewrite Hl. left.
Qed.

(** ** Witnesses *)

Definition all_bindable (p : Z) : bool := true.
Definition assign_high (busy : gset Z) : option Z :=
  List.find (fun p => bool_decide (p ∉ busy)) [40000; 40001; 40002]%Z.

Lemma assign_high_free : os_assigns_free assign_high.
Proof. intros busy p H. apply List.find_some in H as [_ H]. by apply bool_decide_eq_true in H. Qed.

Definition single_env (pod_id : Z) : setup_env :=
  mkSetupEnv (lit "container") pod_id ∅ None None None None.

Lemma fresh_setup_allocates_witness :
  let r := setup_port_forwarding all_bindable assign_high (single_env 2) [Number 8080; Number 3000]
             {[3000%Z]} example_db in
  snd r = Ok [mkHandle 8081 (lit "container") 8080; mkHandle 3001 (lit "container") 3000] /\
  conn_wf (fst r).
Proof.
  intros r. split; [vm_compute; reflexivity|].
  apply (fresh_setup_allocates all_bindable assign_high (single_env 2) [Number 8080; Number 3000]
           {[3000%Z]} example_db (fst r)
           [mkHandle 8081 (lit "container") 8080; mkHandle 3001 (lit "container") 3000]).
  - exact example_db_reachable.
  - exact assign_high_free.
  - vm_compute; reflexivity.
  - vm_compute; reflexivity.
Defined.

Lemma reconnect_keeps_ports_witness :
  setup_port_forwarding all_bindable assign_high (single_env 1) [] ∅ example_db =
  (example_db, Ok [mkHandle 8080 (lit "container") 8080]).
Proof.
  apply (reconnect_keeps_ports all_bindable assign_high (single_env 1) [] ∅ example_db
           [mkHandle 8080 (lit "container") 8080]).
  - exact example_db_reachable.
  - vm_compute; discriminate.
  - vm_compute. repeat constructor; discriminate || (intros H; discriminate H) || apply I.
  - vm_compute. repeat constructor.
Defined.

(** Container ports 8080 and 8081 forwarded to the same host ports. *)
Definition two_forwards : Conn :=
  match insert_forwarded_port example_db 1 (lit "") 8081 8081 (lit "") with
  | Ok c => c
  | Err _ => example_db
  end.

Lemma reconnect_conflict_fails_witness :
  setup_port_forwarding all_bindable assign_high (single_env 1) [] {[8080%Z]} two_forwards =
  (two_forwards, Err (DbError UniqueViolation)).
Proof.
  apply (reconnect_conflict_fails all_bindable assign_high (single_env 1) [] {[8080%Z]} two_forwards
           (mkForwardedPort (lit "") 8080 8080 (lit "web"))
           [mkForwardedPort (lit "") 8081 8081 (lit "")] 8081).
  - vm_compute; reflexivity.
  - vm_compute; reflexivity.
  - simpl; lia.
  - simpl. left.
Defined.
