(* ===== verification/PodConn.v ===== *)
(** * Pod connections (daemon/pod_connection.rs)

    A [PodConnection] is shared by the request handlers, the pod's event loop, the repair
    workers and the host monitor, which interleave.  Its state is a record; every method
    is a function on it and steps of different threads interleave whole methods, except
    where a theorem interleaves the critical sections of two methods.  What the connection
    sends (reconnect events to its subscribers, daemon events, activity observations,
    transport resets) is appended to the log [out], newest first.  Stop flags of event
    loops are kept in [loops], indexed by the order in which the loops were started. *)
From S2P Require Import Prelude Strs Hosts.

(** ** Agent states *)

Inductive ClaudeState := ClaudeProcessing | WaitingForInput | AuthError | ClaudeStopped.
Inductive CodexState := CodexProcessing | Idle | CodexError.

#[export] Instance ClaudeState_eq_dec : EqDecision ClaudeState.
Proof. solve_decision. Defined.
#[export] Instance CodexState_eq_dec : EqDecision CodexState.
Proof. solve_decision. Defined.

Definition claude_is_processing (s : option ClaudeState) : bool :=
  match s with
  | Some ClaudeProcessing => true
  | Some (WaitingForInput | AuthError | ClaudeStopped) | None => false
  end.

Definition codex_is_processing (s : option CodexState) : bool :=
  match s with
  | Some CodexProcessing => true
  | Some (Idle | CodexError) | None => false
  end.

(** ** Repair backoff: durations in milliseconds, [jitter] an argument *)

Definition POD_REPAIR_INITIAL_DELAY : Z := 1000.
Definition POD_REPAIR_MAX_DELAY : Z := 30000.
Definition POD_REPAIR_FAILURE_LIMIT : Z := 10.

Record PodRepairBackoff := mkBackoff { failures : Z; delay : Z }.

Definition backoff_new : PodRepairBackoff := mkBackoff 0 POD_REPAIR_INITIAL_DELAY.

Definition backoff_reset (b : PodRepairBackoff) : PodRepairBackoff :=
  mkBackoff 0 POD_REPAIR_INITIAL_DELAY.

Definition next_delay (jitter : Z -> Z) (b : PodRepairBackoff) : option Z * PodRepairBackoff :=
  let failures := (failures b + 1)%Z in
  if bool_decide (POD_REPAIR_FAILURE_LIMIT <= failures)%Z then (None, mkBackoff failures (delay b))
  else (Some (jitter (delay b)),
        mkBackoff failures (Z.min (delay b * 2) POD_REPAIR_MAX_DELAY)).

(** ** Repair state *)

Record PodRepairState := mkRepair { paused : bool; epoch : Z }.

#[export] Instance PodRepairState_eq_dec : EqDecision PodRepairState.
Proof. solve_decision. Defined.

Definition repair_default : PodRepairState := mkRepair false 0.
Definition signal (s : PodRepairState) : PodRepairState :=
  mkRepair (paused s) (wrapping_add64 (epoch s) 1).
Definition pause (s : PodRepairState) : PodRepairState := signal (mkRepair true (epoch s)).
Definition resume (s : PodRepairState) : PodRepairState := signal (mkRepair false (epoch s)).

(** ** Data *)

Inductive PodConnectionStatus :=
| HostDisconnected | Connecting | Connected | PodDisconnected | Stopped.

#[export] Instance PodConnectionStatus_eq_dec : EqDecision PodConnectionStatus.
Proof. solve_decision. Defined.

Record ExecProxyHandle := mkExecProxy {
  ep_port : Z;
  ep_alive : bool;
  ep_target_container : str;
}.

Record TunnelHandle := mkTunnel {
  tn_alive : bool;
  tn_target_container : str;
}.

Record CodexProxyHandle := mkCodexProxy {
  cx_port : Z;
  cx_token : str;
  cx_bypass : bool;
  cx_container_url : str;
  cx_container_token : str;
}.

Record ManagedSshAgent := mkSshAgent {
  socket_path : str;
  configured_keys_hash : option str;
  agent_is_alive : result str bool;
}.

#[export] Instance ExecProxyHandle_eq_dec : EqDecision ExecProxyHandle.
Proof. solve_decision. Defined.
#[export] Instance TunnelHandle_eq_dec : EqDecision TunnelHandle.
Proof. solve_decision. Defined.
#[export] Instance CodexProxyHandle_eq_dec : EqDecision CodexProxyHandle.
Proof. solve_decision. Defined.
#[export] Instance ManagedSshAgent_eq_dec : EqDecision ManagedSshAgent.
Proof. solve_decision. Defined.

Record PodEndpoint := mkEndpoint { url : str; endpoint_token : str }.

Record PodConnectionResources := mkResources {
  pod_server : option ExecProxyHandle;
  git_tunnel : option TunnelHandle;
  supervise_git_tunnel : bool;
  validate_pod_before_git_tunnel_repair : bool;
  forwarded_ports : option (list ExecProxyHandle);
  codex_proxy : option CodexProxyHandle;
}.

#[export] Instance PodConnectionResources_updatable : Updatable PodConnectionResources := fun r =>
  mkResources (pod_server r) (git_tunnel r) (supervise_git_tunnel r)
    (validate_pod_before_git_tunnel_repair r) (forwarded_ports r) (codex_proxy r).

#[export] Instance PodConnectionResources_eq_dec : EqDecision PodConnectionResources.
Proof. solve_decision. Defined.

Definition resources_new : PodConnectionResources :=
  mkResources None None false false None None.

Inductive ReconnectEvent :=
| Attempting | HostConnected | EvConnected | Failed (error : str) | EvStopped.
Inductive HttpVersion := HTTP_11 | HTTP_2.

#[export] Instance ReconnectEvent_eq_dec : EqDecision ReconnectEvent.
Proof. solve_decision. Defined.
#[export] Instance HttpVersion_eq_dec : EqDecision HttpVersion.
Proof. solve_decision. Defined.

Definition PodConnectionKey : Type := str * str.

Inductive output :=
| Reconnect (ev : ReconnectEvent)
| PodStatusChanged (repository pod : str)
| ActivityObserved (key : PodConnectionKey) (processing : bool)
| ResetConnections (port : Z).

#[export] Instance output_eq_dec : EqDecision output.
Proof. solve_decision. Defined.

Record PodConnection := mkPodConnection {
  key : PodConnectionKey;
  host : Host;
  host_key : HostKey;
  token : str;
  status : PodConnectionStatus;
  claude_state : option ClaudeState;
  codex_state : option CodexState;
  resources : PodConnectionResources;
  managed_ssh_agent : option ManagedSshAgent;
  git_tunnel_repair_scheduled : bool;
  connection_requested : bool;
  last_agent_processing : bool;
  activity_observer : bool;
  repair_state : PodRepairState;
  event_loop : option nat;
  loops : list bool;
  event_http_version : option HttpVersion;
  receivers : nat;
  out : list output;
}.

#[export] Instance PodConnection_updatable : Updatable PodConnection := fun c =>
  mkPodConnection (key c) (host c) (host_key c) (token c) (status c) (claude_state c)
    (codex_state c) (resources c) (managed_ssh_agent c) (git_tunnel_repair_scheduled c)
    (connection_requested c) (last_agent_processing c) (activity_observer c) (repair_state c)
    (event_loop c) (loops c) (event_http_version c) (receivers c) (out c).

#[export] Instance PodConnection_eq_dec : EqDecision PodConnection.
Proof. solve_decision. Defined.

Definition PodConnection_new (key : PodConnectionKey) (host : Host) (token : str)
    (status : PodConnectionStatus) (agent : option ManagedSshAgent) : PodConnection :=
  mkPodConnection key host (HostKey_from_host host) token status None None resources_new agent
    false false false false repair_default None [] None 0 [].

(** ** Methods *)

Definition send (o : output) (c : PodConnection) : PodConnection := c <| out ::= cons o |>.

Definition status_changed (c : PodConnection) : output :=
  PodStatusChanged (fst (key c)) (snd (key c)).

Definition emit_reconnect (ev : ReconnectEvent) (c : PodConnection) : PodConnection :=
  send (Reconnect ev) c.

(** [set_status] through [replace_and_emit] *)
Definition set_status (s : PodConnectionStatus) (c : PodConnection) : PodConnection :=
  if bool_decide (status c = s) then c else send (status_changed c) (c <| status := s |>).

Definition pod_repair_epoch (c : PodConnection) : Z := epoch (repair_state c).

Definition is_paused (c : PodConnection) : bool := paused (repair_state c).

Definition resume_locked (c : PodConnection) : PodConnection := c <| repair_state ::= resume |>.

Definition set_stop (i : nat) (l : list bool) : list bool := <[i := true]> l.

Definition stop_event_loop (c : PodConnection) : PodConnection :=
  let c := match event_loop c with
           | Some i => c <| event_loop := None |> <| loops ::= set_stop i |>
           | None => c
           end in
  c <| repair_state ::= signal |> <| event_http_version := None |>.

Definition update_host_and_token (h : Host) (tok : str) (c : PodConnection) : PodConnection :=
  let hk := HostKey_from_host h in
  let c := if bool_decide (host_key c <> hk)
           then stop_event_loop (c <| host := h |> <| host_key := hk |>)
           else c in
  c <| token := tok |>.

(** [ensure_ssh_agent]; [started] is what [ManagedSshAgent::start] returns. *)
Definition ensure_ssh_agent (started : result str ManagedSshAgent) (c : PodConnection)
    : PodConnection * result str str :=
  let start c :=
    let c := c <| managed_ssh_agent := None |> in
    match started with
    | Ok agent => (c <| managed_ssh_agent := Some agent |>, Ok (socket_path agent))
    | Err e => (c, Err e)
    end in
  match managed_ssh_agent c with
  | Some agent =>
      match agent_is_alive agent with
      | Err e => (c, Err e)
      | Ok true => (c, Ok (socket_path agent))
      | Ok false => start c
      end
  | None => start c
  end.

(** [configure_ssh_agent]; [keys_hash] is [ManagedSshAgent::configured_keys_hash] of the
    keys and [started] what [ManagedSshAgent::configured] returns. *)
Definition configure_ssh_agent (keys_hash : result str str) (started : result str ManagedSshAgent)
    (c : PodConnection) : PodConnection * result str str :=
  match keys_hash with
  | Err e => (c, Err e)
  | Ok hash =>
      let start c :=
        let c := c <| managed_ssh_agent := None |> in
        match started with
        | Ok agent => (c <| managed_ssh_agent := Some agent |>, Ok (socket_path agent))
        | Err e => (c, Err e)
        end in
      match managed_ssh_agent c with
      | Some agent =>
          if bool_decide (configured_keys_hash agent = Some hash) then
            match agent_is_alive agent with
            | Err e => (c, Err e)
            | Ok true => (c, Ok (socket_path agent))
            | Ok false => start c
            end
          else start c
      | None => start c
      end
  end.

Definition remove_ssh_agent (c : PodConnection) : PodConnection := c <| managed_ssh_agent := None |>.

Definition tunnel_alive (r : PodConnectionResources) : bool := is_some_and tn_alive (git_tunnel r).
Definition server_alive (r : PodConnectionResources) : bool := is_some_and ep_alive (pod_server r).

Definition finish_connection_request (c : PodConnection) : PodConnection :=
  if bool_decide (status c = Connected) then
    if negb (supervise_git_tunnel (resources c)) || tunnel_alive (resources c)
    then emit_reconnect EvConnected (c <| connection_requested := false |>)
    else c
  else c.

Definition subscribe (c : PodConnection) : PodConnection :=
  let c := c <| receivers ::= S |> in
  let c := if is_paused c || negb (bool_decide (status c = Connected)) then resume_locked c else c in
  if bool_decide (status c = Connected) then finish_connection_request c else c.

(** A subscriber drops its receiver. *)
Definition unsubscribe (c : PodConnection) : PodConnection := c <| receivers ::= pred |>.

Definition agent_is_processing (c : PodConnection) : bool := last_agent_processing c.

Definition restore_agent_processing (c : PodConnection) : PodConnection :=
  c <| last_agent_processing := true |>.

Definition set_activity_observer (c : PodConnection) : PodConnection :=
  c <| activity_observer := true |>.

Definition processing_now (c : PodConnection) : bool :=
  claude_is_processing (claude_state c) || codex_is_processing (codex_state c).

(** [update_agent_activity]; the flag is whether the epoch was current. *)
Definition update_agent_activity (e : option Z) (update : PodConnection -> PodConnection)
    (c : PodConnection) : PodConnection * bool :=
  if is_some_and (fun e => negb (bool_decide (e = pod_repair_epoch c))) e then (c, false)
  else
    let c := update c in
    let processing := processing_now c in
    let previous := last_agent_processing c in
    let c := c <| last_agent_processing := processing |> in
    let c := if negb (eqb previous processing) && activity_observer c
             then send (ActivityObserved (key c) processing) c else c in
    (send (status_changed c) c, true).

Definition wants_reconnect (c : PodConnection) : bool :=
  connection_requested c || bool_decide (0 < receivers c) || agent_is_processing c.

Definition request_connection (c : PodConnection) : PodConnection :=
  let c := finish_connection_request (c <| connection_requested := true |>) in
  if connection_requested c && (is_paused c || negb (bool_decide (status c = Connected)))
  then resume_locked c else c.

Definition has_event_loop (c : PodConnection) : bool := bool_decide (is_Some (event_loop c)).

Definition event_http_version_of (c : PodConnection) : result str HttpVersion :=
  context (lit "pod event connection has not established its HTTP version") (event_http_version c).

Definition server_url (h : ExecProxyHandle) : str :=
  lit "http://127.0.0.1:" ++ show (Z.to_N (ep_port h)).

Definition exec_endpoint (c : PodConnection) : option (PodEndpoint * str) :=
  handle ← pod_server (resources c);
  if negb (ep_alive handle) then None
  else Some (mkEndpoint (server_url handle) (token c), ep_target_container handle).

Definition endpoint (c : PodConnection) : option PodEndpoint := fst <$> exec_endpoint c.

Definition has_alive_pod_server (c : PodConnection) : bool := server_alive (resources c).

Definition pod_server_targets_different_container (container : str) (c : PodConnection) : bool :=
  is_some_and (fun h => negb (bool_decide (ep_target_container h = container)))
    (pod_server (resources c)).

Definition remove_pod_server (c : PodConnection) : PodConnection :=
  stop_event_loop (c <| resources ::= fun r => r <| pod_server := None |> |>).

Definition set_pod_server (h : Host) (tok : str) (handle : ExecProxyHandle) (c : PodConnection)
    : PodConnection * PodEndpoint :=
  let c := update_host_and_token h tok c in
  let c := if bool_decide (is_Some (pod_server (resources c))) then stop_event_loop c else c in
  let c := c <| resources ::= fun r => r <| pod_server := Some handle |> |> in
  (c, mkEndpoint (server_url handle) (token c)).

(** [begin_event_loop_at_epoch] returns the index of the new loop's stop flag;
    [begin_event_loop] passes no epoch. *)
Definition begin_event_loop_at_epoch (e : option Z) (c : PodConnection)
    : PodConnection * option nat :=
  if has_event_loop c || is_some_and (fun e => negb (bool_decide (e = pod_repair_epoch c))) e
  then (c, None)
  else
    let i := length (loops c) in
    (set_status Connecting (c <| event_loop := Some i |> <| loops ::= fun l => l ++ [false] |>),
     Some i).

Definition begin_event_loop : PodConnection -> PodConnection * option nat :=
  begin_event_loop_at_epoch None.

Definition install_repaired_routes (proxy : ExecProxyHandle) (ports : option (list ExecProxyHandle))
    (e : Z) (c : PodConnection) : PodConnection * bool :=
  let r := resources c in
  if negb (supervise_git_tunnel r) || negb (bool_decide (pod_repair_epoch c = e)) || server_alive r
  then (c, false)
  else
    let r := r <| pod_server := Some proxy |> in
    let r := match ports with Some ps => r <| forwarded_ports := Some ps |> | None => r end in
    (c <| resources := r |>, true).

Definition git_tunnel_is_alive (c : PodConnection) : bool := tunnel_alive (resources c).

Definition git_tunnel_targets_container (container : str) (c : PodConnection) : bool :=
  is_some_and (fun h => bool_decide (tn_target_container h = container)) (git_tunnel (resources c)).

Definition remove_git_tunnel (c : PodConnection) : PodConnection :=
  c <| resources ::= fun r => r <| git_tunnel := None |> |>.

Definition set_git_tunnel (handle : TunnelHandle) (c : PodConnection) : PodConnection :=
  let c := c <| resources ::= fun r =>
    r <| git_tunnel := Some handle |> <| supervise_git_tunnel := true |>
      <| validate_pod_before_git_tunnel_repair := false |> |> in
  let c := if is_paused c then resume_locked c else c in
  finish_connection_request c.

Definition enable_git_tunnel_supervision (c : PodConnection) : PodConnection :=
  let c := c <| resources ::= fun r =>
    r <| supervise_git_tunnel := true |>
      <| validate_pod_before_git_tunnel_repair := bool_decide (git_tunnel r = None) |> |> in
  if is_paused c then resume_locked c else c.

Definition mark_pod_validated_for_git_tunnel_repair (c : PodConnection) : PodConnection :=
  c <| resources ::= fun r => r <| validate_pod_before_git_tunnel_repair := false |> |>.

Definition disable_git_tunnel_supervision (c : PodConnection) : PodConnection :=
  c <| resources ::= fun r =>
    r <| supervise_git_tunnel := false |> <| validate_pod_before_git_tunnel_repair := false |>
      <| git_tunnel := None |> |>.

Definition try_schedule_git_tunnel_repair (c : PodConnection) : PodConnection * bool :=
  if is_paused c || negb (wants_reconnect c) then (c, false)
  else if negb (supervise_git_tunnel (resources c))
          || (tunnel_alive (resources c) && server_alive (resources c) && has_event_loop c)
  then (c, false)
  else if git_tunnel_repair_scheduled c then (c, false)
  else (c <| git_tunnel_repair_scheduled := true |>, true).

Definition finish_git_tunnel_repair (c : PodConnection) : PodConnection :=
  c <| git_tunnel_repair_scheduled := false |>.

Definition pause_pod_repair (c : PodConnection) : PodConnection :=
  c <| connection_requested := false |> <| repair_state ::= pause |>.

(** The guard of [event_request]: [None] is a request that is not started. *)
Definition event_request_admitted (stop : nat) (e : Z) (c : PodConnection) : bool :=
  negb (default true (loops c !! stop)) && bool_decide (pod_repair_epoch c = e).

(** [install_repaired_git_tunnel] holds the lock of the resources, releases it, and then
    finishes a connection request. *)
Definition install_tunnel_section (handle : TunnelHandle) (repair_epoch : Z)
    (c : PodConnection) : PodConnection :=
  if supervise_git_tunnel (resources c) && bool_decide (pod_repair_epoch c = repair_epoch)
  then c <| resources ::= fun r => r <| git_tunnel := Some handle |>
              <| validate_pod_before_git_tunnel_repair := false |> |>
  else c.

Definition install_repaired_git_tunnel (handle : TunnelHandle) (repair_epoch : Z)
    (c : PodConnection) : PodConnection :=
  finish_connection_request (install_tunnel_section handle repair_epoch c).

Definition mark_event_disconnected (e : Z) (c : PodConnection) : PodConnection :=
  if bool_decide (pod_repair_epoch c = e) then set_status PodDisconnected c else c.

Record GreetingState := mkGreeting {
  http_version : HttpVersion;
  claude : option ClaudeState;
  codex : option CodexState;
}.

Definition apply_greeting_at_epoch (g : GreetingState) (e : Z) : PodConnection -> PodConnection * bool :=
  update_agent_activity (Some e) (fun c =>
    set_status Connected
      (c <| event_http_version := Some (http_version g) |> <| claude_state := claude g |>
         <| codex_state := codex g |>)).

Definition set_claude_state_at_epoch (s : option ClaudeState) (e : Z) (c : PodConnection) : PodConnection :=
  fst (update_agent_activity (Some e) (fun c => c <| claude_state := s |>) c).

Definition set_codex_state_at_epoch (s : option CodexState) (e : Z) (c : PodConnection) : PodConnection :=
  fst (update_agent_activity (Some e) (fun c => c <| codex_state := s |>) c).

Definition resume_repair (c : PodConnection) : PodConnection := resume_locked c.

Definition has_forwarded_ports (c : PodConnection) : bool :=
  bool_decide (is_Some (forwarded_ports (resources c))).

(** The containers of the held listeners are the expected ones, in any order. *)
Definition forwarded_ports_target_containers_match (expected : list str) (c : PodConnection) : bool :=
  match forwarded_ports (resources c) with
  | None => false
  | Some handles => bool_decide (map ep_target_container handles ≡ₚ expected)
  end.

Definition remove_forwarded_ports (c : PodConnection) : PodConnection :=
  c <| resources ::= fun r => r <| forwarded_ports := None |> |>.

Definition set_forwarded_ports (handles : list ExecProxyHandle) (c : PodConnection) : PodConnection :=
  c <| resources ::= fun r => r <| forwarded_ports := Some handles |> |>.

Definition add_forwarded_port (handle : ExecProxyHandle) (c : PodConnection) : PodConnection :=
  c <| resources ::= fun r =>
    r <| forwarded_ports ::= fun ps => Some (default [] ps ++ [handle]) |> |>.

Definition remove_codex_proxy (c : PodConnection) : PodConnection :=
  c <| resources ::= fun r => r <| codex_proxy := None |> |>.

(** [ensure_codex_proxy]; [started] is the port and token of a newly started proxy, or
    why it did not start. *)
Definition ensure_codex_proxy (container_url container_token : str) (bypass : bool)
    (started : result str (Z * str)) (c : PodConnection) : PodConnection * result str (Z * str) :=
  let fresh :=
    match started with
    | Err e => (c, Err e)
    | Ok (port, tok) =>
        (c <| resources ::= fun r => r <| codex_proxy :=
           Some (mkCodexProxy port tok bypass container_url container_token) |> |>,
         Ok (port, tok))
    end in
  match codex_proxy (resources c) with
  | Some h =>
      if bool_decide (cx_container_url h = container_url)
         && bool_decide (cx_container_token h = container_token)
      then (c <| resources ::= fun r => r <| codex_proxy :=
              Some (mkCodexProxy (cx_port h) (cx_token h) bypass container_url container_token) |> |>,
            Ok (cx_port h, cx_token h))
      else fresh
  | None => fresh
  end.

Definition notify_host_connected (c : PodConnection) : PodConnection :=
  if bool_decide (status c = Stopped) || negb (wants_reconnect c) then c
  else emit_reconnect HostConnected (set_status Connecting (resume_locked c)).

(** [notify_host_disconnected] signals first and takes the lock of the resources after. *)
Definition host_disconnect_signal (c : PodConnection) : PodConnection :=
  set_status HostDisconnected (c <| repair_state ::= signal |>).

Definition host_disconnect_cleanup (c : PodConnection) : PodConnection :=
  let c := match pod_server (resources c) with
           | Some proxy => send (ResetConnections (ep_port proxy)) c
           | None => c
           end in
  if supervise_git_tunnel (resources c)
  then c <| resources ::= fun r => r <| git_tunnel := None |>
              <| validate_pod_before_git_tunnel_repair := true |> |>
  else c.

Definition notify_host_disconnected (c : PodConnection) : PodConnection :=
  if bool_decide (status c = Stopped) then c
  else emit_reconnect Attempting (host_disconnect_cleanup (host_disconnect_signal c)).

Definition clear_states (c : PodConnection) : PodConnection :=
  c <| claude_state := None |> <| codex_state := None |>.

Definition set_connection_requested (b : bool) (c : PodConnection) : PodConnection :=
  c <| connection_requested := b |>.

Definition stop_events (c : PodConnection) : PodConnection :=
  emit_reconnect EvStopped
    (disable_git_tunnel_supervision
       (set_status Stopped
          (set_connection_requested false
             (fst (update_agent_activity None clear_states (stop_event_loop c)))))).

Definition drop_resources (r : PodConnectionResources) : PodConnectionResources :=
  r <| pod_server := None |> <| git_tunnel := None |> <| forwarded_ports := None |>
    <| codex_proxy := None |>.

Definition reset_for_recreate (c : PodConnection) : PodConnection :=
  clear_states ((stop_events c) <| resources ::= drop_resources |>).

Definition drop_all (c : PodConnection) : PodConnection := remove_ssh_agent (reset_for_recreate c).

(** ** Steps

    What any thread of the daemon may do next to a connection; [step_server_died] and
    [step_tunnel_died] are the transports failing by themselves. *)

Definition kill_server (c : PodConnection) : PodConnection :=
  c <| resources ::= fun r => r <| pod_server ::= fmap (fun h =>
         mkExecProxy (ep_port h) false (ep_target_container h)) |> |>.

Definition kill_tunnel (c : PodConnection) : PodConnection :=
  c <| resources ::= fun r => r <| git_tunnel ::= fmap (fun h =>
         mkTunnel false (tn_target_container h)) |> |>.

Inductive pc_step (c : PodConnection) : PodConnection -> Prop :=
| step_update_host h tok : pc_step c (update_host_and_token h tok c)
| step_ensure_agent s : pc_step c (fst (ensure_ssh_agent s c))
| step_configure_agent k s : pc_step c (fst (configure_ssh_agent k s c))
| step_remove_agent : pc_step c (remove_ssh_agent c)
| step_subscribe : pc_step c (subscribe c)
| step_unsubscribe : pc_step c (unsubscribe c)
| step_restore : pc_step c (restore_agent_processing c)
| step_observer : pc_step c (set_activity_observer c)
| step_request : pc_step c (request_connection c)
| step_finish_request : pc_step c (finish_connection_request c)
| step_remove_server : pc_step c (remove_pod_server c)
| step_set_server h tok p : pc_step c (fst (set_pod_server h tok p c))
| step_begin_loop e : pc_step c (fst (begin_event_loop_at_epoch e c))
| step_routes p ps e : pc_step c (fst (install_repaired_routes p ps e c))
| step_remove_tunnel : pc_step c (remove_git_tunnel c)
| step_set_tunnel h : pc_step c (set_git_tunnel h c)
| step_enable_supervision : pc_step c (enable_git_tunnel_supervision c)
| step_validated : pc_step c (mark_pod_validated_for_git_tunnel_repair c)
| step_disable_supervision : pc_step c (disable_git_tunnel_supervision c)
| step_schedule : pc_step c (fst (try_schedule_git_tunnel_repair c))
| step_finish_repair : pc_step c (finish_git_tunnel_repair c)
| step_pause : pc_step c (pause_pod_repair c)
| step_install_tunnel h e : pc_step c (install_repaired_git_tunnel h e c)
| step_set_status s : pc_step c (set_status s c)
| step_event_disconnected e : pc_step c (mark_event_disconnected e c)
| step_greeting g e : pc_step c (fst (apply_greeting_at_epoch g e c))
| step_claude s e : pc_step c (set_claude_state_at_epoch s e c)
| step_codex s e : pc_step c (set_codex_state_at_epoch s e c)
| step_resume : pc_step c (resume_repair c)
| step_reconnect_event ev : pc_step c (emit_reconnect ev c)
| step_remove_ports : pc_step c (remove_forwarded_ports c)
| step_set_ports hs : pc_step c (set_forwarded_ports hs c)
| step_add_port h : pc_step c (add_forwarded_port h c)
| step_remove_codex : pc_step c (remove_codex_proxy c)
| step_ensure_codex u tok b s : pc_step c (fst (ensure_codex_proxy u tok b s c))
| step_host_connected : pc_step c (notify_host_connected c)
| step_host_disconnected : pc_step c (notify_host_disconnected c)
| step_stop_events : pc_step c (stop_events c)
| step_reset : pc_step c (reset_for_recreate c)
| step_drop_all : pc_step c (drop_all c)
| step_server_died : pc_step c (kill_server c)
| step_tunnel_died : pc_step c (kill_tunnel c).

Inductive pc_reachable : PodConnection -> Prop :=
| pc_init key host token status agent :
    pc_reachable (PodConnection_new key host token status agent)
| pc_next c c' : pc_reachable c -> pc_step c c' -> pc_reachable c'.

(** ** Invariant *)

Record pc_inv (c : PodConnection) : Prop := {
  inv_host : host_key c = HostKey_from_host (host c);
  inv_processing : processing_now c = true -> last_agent_processing c = true;
  inv_loops : forall i, loops c !! i = Some false <-> event_loop c = Some i;
  inv_tunnel : is_Some (git_tunnel (resources c)) -> supervise_git_tunnel (resources c) = true;
  inv_epoch : (0 <= pod_repair_epoch c < 2 ^ 64)%Z;
}.

(** The invariant reads nothing else. *)
Lemma pc_inv_frame c c' :
  host_key c' = host_key c -> host c' = host c ->
  processing_now c' = processing_now c -> last_agent_processing c' = last_agent_processing c ->
  loops c' = loops c -> event_loop c' = event_loop c ->
  git_tunnel (resources c') = git_tunnel (resources c) ->
  supervise_git_tunnel (resources c') = supervise_git_tunnel (resources c) ->
  pod_repair_epoch c' = pod_repair_epoch c ->
  pc_inv c -> pc_inv c'.
Proof.
  intros H1 H2 H3 H4 H5 H6 H7 H8 H9 []. constructor.
  - congruence.
  - by rewrite H3, H4.
  - intros i. by rewrite H5, H6.
  - by rewrite H7, H8.
  - by rewrite H9.
Qed.

Ltac inv_frame c := apply (pc_inv_frame c); [reflexivity..|].

Lemma epoch_range z : (0 <= wrapping_add64 z 1 < 2 ^ 64)%Z.
Proof. unfold wrapping_add64. apply Z.mod_pos_bound. lia. Qed.

Lemma inv_send o c : pc_inv c -> pc_inv (send o c).
Proof. intros. by inv_frame c. Qed.

(** Fields the invariant does not read. *)
Lemma inv_irrelevant c :
  pc_inv c ->
  (forall v, pc_inv (c <| connection_requested := v |>)) /\
  (forall v, pc_inv (c <| token := v |>)) /\
  (forall v, pc_inv (c <| event_http_version := v |>)) /\
  (forall v, pc_inv (c <| managed_ssh_agent := v |>)) /\
  (forall v, pc_inv (c <| git_tunnel_repair_scheduled := v |>)) /\
  (forall v, pc_inv (c <| activity_observer := v |>)) /\
  (forall f, pc_inv (c <| receivers ::= f |>)).
Proof. intros H. split_and!; intros v; by inv_frame c. Qed.

Lemma inv_set_status s c : pc_inv c -> pc_inv (set_status s c).
Proof. intros. unfold set_status. case_bool_decide; [done|]. by inv_frame c. Qed.

Lemma inv_signal c f :
  (forall s, (0 <= epoch (f s) < 2 ^ 64)%Z) -> pc_inv c -> pc_inv (c <| repair_state ::= f |>).
Proof. intros Hf []. constructor; [done..|]. apply Hf. Qed.

Lemma inv_resume_locked c : pc_inv c -> pc_inv (resume_locked c).
Proof. apply inv_signal. intros s. apply epoch_range. Qed.

Lemma inv_stop_event_loop c : pc_inv c -> pc_inv (stop_event_loop c).
Proof.
  intros Hc. unfold stop_event_loop. apply inv_irrelevant, inv_signal; [intros s; apply epoch_range|].
  destruct (event_loop c) as [i|] eqn:E; [|done]. destruct Hc as [? ? Hl ? ?].
  constructor; [done|done| |done|done]. intros j. rproj. unfold set_stop. split; [|done].
  intros Hj. destruct (decide (i = j)) as [->|Hne].
  - destruct (decide (j < length (loops c))) as [Hlt|Hge].
    + by rewrite list_lookup_insert_eq in Hj.
    + rewrite list_insert_ge in Hj by lia. apply lookup_lt_Some in Hj. lia.
  - rewrite list_lookup_insert_ne in Hj by done. apply Hl in Hj. congruence.
Qed.

Lemma inv_update_activity e f c :
  (forall c, pc_inv c -> pc_inv ((f c) <| last_agent_processing := processing_now (f c) |>)) ->
  pc_inv c -> pc_inv (fst (update_agent_activity e f c)).
Proof.
  intros Hf Hc. unfold update_agent_activity. case_match; [done|]. simpl. apply inv_send.
  case_match; [apply inv_send|]; by apply Hf.
Qed.

Lemma inv_reset_processing c : 
  host_key c = HostKey_from_host (host c) ->
  (forall i, loops c !! i = Some false <-> event_loop c = Some i) ->
  (is_Some (git_tunnel (resources c)) -> supervise_git_tunnel (resources c) = true) ->
  (0 <= pod_repair_epoch c < 2 ^ 64)%Z ->
  pc_inv (c <| last_agent_processing := processing_now c |>).
Proof. intros. by constructor. Qed.

Lemma inv_finish_request c : pc_inv c -> pc_inv (finish_connection_request c).
Proof. intros. unfold finish_connection_request. repeat case_match; try done. by inv_frame c. Qed.

Lemma inv_update_host h tok c : pc_inv c -> pc_inv (update_host_and_token h tok c).
Proof.
  intros Hc. unfold update_host_and_token. apply inv_irrelevant. case_bool_decide; [|done].
  apply inv_stop_event_loop. destruct Hc. by constructor.
Qed.

(** A change of the resources that does not add an unsupervised tunnel. *)
Lemma inv_resources f c :
  (is_Some (git_tunnel (f (resources c))) -> supervise_git_tunnel (f (resources c)) = true) ->
  pc_inv c -> pc_inv (c <| resources ::= f |>).
Proof. intros Hf []. by constructor. Qed.

#[export] Hint Resolve inv_send inv_set_status inv_resume_locked inv_stop_event_loop
  inv_finish_request inv_update_host : rumpel.

Lemma inv_stop_events c : pc_inv c -> pc_inv (stop_events c).
Proof.
  intros Hc. unfold stop_events, emit_reconnect. apply inv_send, inv_resources; [by intros []|].
  apply inv_set_status, inv_irrelevant, inv_update_activity; [|auto with rumpel].
  intros c' []. by apply inv_reset_processing.
Qed.

Lemma inv_reset_for_recreate c : pc_inv c -> pc_inv (reset_for_recreate c).
Proof.
  intros Hc%inv_stop_events. unfold reset_for_recreate. revert Hc. generalize (stop_events c).
  intros d []. constructor; rproj; [done|done|done|by intros []|done].
Qed.

Lemma inv_begin_loop e c : pc_inv c -> pc_inv (fst (begin_event_loop_at_epoch e c)).
Proof.
  intros Hc. unfold begin_event_loop_at_epoch, has_event_loop. case_bool_decide as Hl; [done|].
  case_match; [done|]. simpl. apply inv_set_status. destruct Hc as [? ? Hi ? ?].
  constructor; [done|done| |done|done]. intros j. rproj.
  rewrite lookup_app_Some, list_lookup_singleton_Some, Hi.
  assert (event_loop c = None) as -> by (by destruct (event_loop c); [destruct Hl; eexists|]).
  split; [|intros [= <-]; right; split; [lia|]; split; [lia|done]].
  intros [?|[? [? _]]]; [done|]. f_equal. lia.
Qed.

Lemma inv_host_disconnected c : pc_inv c -> pc_inv (notify_host_disconnected c).
Proof.
  intros Hc. unfold notify_host_disconnected, host_disconnect_cleanup, host_disconnect_signal.
  case_bool_decide; [done|]. apply inv_send.
  assert (Hs : pc_inv (set_status HostDisconnected (c <| repair_state ::= signal |>))).
  { apply inv_set_status, inv_signal; [intros s; apply epoch_range|done]. }
  revert Hs. generalize (set_status HostDisconnected (c <| repair_state ::= signal |>)). intros d Hd.
  repeat case_match; try (apply inv_resources; [by intros []|]); auto with rumpel.
Qed.

Lemma inv_install_tunnel h e c : pc_inv c -> pc_inv (install_tunnel_section h e c).
Proof.
  intros Hc. unfold install_tunnel_section. destruct (supervise_git_tunnel _) eqn:Es; simpl; [|done].
  case_bool_decide; [|done]. apply inv_resources; [|done]. by intros _.
Qed.

Lemma inv_agent_methods c :
  pc_inv c ->
  (forall s, pc_inv (fst (ensure_ssh_agent s c))) /\
  (forall k s, pc_inv (fst (configure_ssh_agent k s c))).
Proof.
  intros Hc. split; intros; unfold ensure_ssh_agent, configure_ssh_agent;
    repeat case_match; simpl; try done; by repeat apply inv_irrelevant.
Qed.

Lemma inv_resource_methods c :
  pc_inv c ->
  pc_inv (remove_git_tunnel c) /\ pc_inv (mark_pod_validated_for_git_tunnel_repair c) /\
  pc_inv (disable_git_tunnel_supervision c) /\ pc_inv (remove_forwarded_ports c) /\
  (forall hs, pc_inv (set_forwarded_ports hs c)) /\ (forall h, pc_inv (add_forwarded_port h c)) /\
  pc_inv (remove_codex_proxy c) /\ pc_inv (kill_server c) /\ pc_inv (kill_tunnel c).
Proof.
  intros Hc. pose proof (inv_tunnel _ Hc) as Ht.
  split_and!; intros; apply inv_resources; try done.
  - by intros [].
  - by intros [].
  - intros [t Hk]. apply Ht. rproj; cbn in Hk. destruct (git_tunnel (resources c)); [by eexists|done].
Qed.

Lemma inv_ensure_codex u tok b s c : pc_inv c -> pc_inv (fst (ensure_codex_proxy u tok b s c)).
Proof.
  intros Hc. pose proof (inv_tunnel _ Hc). unfold ensure_codex_proxy.
  repeat case_match; try done; by apply inv_resources.
Qed.

Lemma inv_routes p ps e c : pc_inv c -> pc_inv (fst (install_repaired_routes p ps e c)).
Proof.
  intros Hc. pose proof (inv_tunnel _ Hc) as Ht. unfold install_repaired_routes.
  case_match; [done|]. destruct ps; by apply (inv_resources (fun _ => _)).
Qed.

#[export] Hint Resolve inv_stop_events inv_reset_for_recreate inv_begin_loop inv_host_disconnected
  inv_install_tunnel inv_ensure_codex inv_routes : rumpel.

Lemma inv_supervised_methods c :
  pc_inv c -> (forall h, pc_inv (set_git_tunnel h c)) /\ pc_inv (enable_git_tunnel_supervision c).
Proof.
  intros Hc. split; intros; unfold set_git_tunnel, enable_git_tunnel_supervision.
  - apply inv_finish_request. case_match; [apply inv_resume_locked|]; by apply inv_resources.
  - case_match; [apply inv_resume_locked|]; by apply inv_resources.
Qed.

Lemma inv_demand_methods c :
  pc_inv c -> pc_inv (subscribe c) /\ pc_inv (request_connection c) /\ pc_inv (pause_pod_repair c) /\
  pc_inv (notify_host_connected c) /\ pc_inv (fst (try_schedule_git_tunnel_repair c)).
Proof.
  intros Hc. destruct (inv_irrelevant c Hc) as (Hr & _ & _ & _ & Hs & _ & Hrec). split_and!.
  - unfold subscribe. repeat case_match; auto with rumpel.
  - unfold request_connection. case_match; auto with rumpel.
  - unfold pause_pod_repair. apply inv_signal; [intros s; apply epoch_range|done].
  - unfold notify_host_connected, emit_reconnect. case_match; auto with rumpel.
  - unfold try_schedule_git_tunnel_repair. repeat case_match; try done. apply Hs.
Qed.

Lemma inv_event_methods e c :
  pc_inv c ->
  (forall g, pc_inv (fst (apply_greeting_at_epoch g e c))) /\
  (forall s, pc_inv (set_claude_state_at_epoch s e c)) /\
  (forall s, pc_inv (set_codex_state_at_epoch s e c)) /\
  pc_inv (mark_event_disconnected e c).
Proof.
  intros Hc. split_and!; intros.
  - unfold apply_greeting_at_epoch. apply inv_update_activity; [|done]. intros d [].
    unfold set_status. case_bool_decide; by apply inv_reset_processing.
  - apply inv_update_activity; [|done]. intros d []. by apply inv_reset_processing.
  - apply inv_update_activity; [|done]. intros d []. by apply inv_reset_processing.
  - unfold mark_event_disconnected. case_bool_decide; auto with rumpel.
Qed.

Lemma inv_set_pod_server h tok p c : pc_inv c -> pc_inv (fst (set_pod_server h tok p c)).
Proof.
  intros Hc. unfold set_pod_server. generalize (inv_update_host h tok c Hc).
  generalize (update_host_and_token h tok c). intros d Hd. cbv zeta. cbn [fst].
  assert (He : pc_inv (if bool_decide (is_Some (pod_server (resources d))) then stop_event_loop d else d))
    by (case_bool_decide; [by apply inv_stop_event_loop|done]).
  revert He. generalize (if bool_decide (is_Some (pod_server (resources d))) then stop_event_loop d else d).
  intros d' Hd'. apply inv_resources; [exact (inv_tunnel _ Hd')|done].
Qed.

Lemma inv_remove_pod_server c : pc_inv c -> pc_inv (remove_pod_server c).
Proof. intros Hc. apply inv_stop_event_loop, inv_resources; [exact (inv_tunnel _ Hc)|done]. Qed.

Lemma inv_restore c : pc_inv c -> pc_inv (restore_agent_processing c).
Proof. intros []. by constructor. Qed.

Lemma pc_step_inv c c' : pc_step c c' -> pc_inv c -> pc_inv c'.
Proof.
  intros Hstep Hc.
  pose proof (inv_irrelevant c Hc) as (Hi1 & Hi2 & Hi3 & Hi4 & Hi5 & Hi6 & Hi7).
  pose proof (inv_agent_methods c Hc) as [Ha1 Ha2].
  pose proof (inv_resource_methods c Hc) as (Hr1 & Hr2 & Hr3 & Hr4 & Hr5 & Hr6 & Hr7 & Hr8 & Hr9).
  pose proof (inv_supervised_methods c Hc) as [Hs1 Hs2].
  pose proof (inv_demand_methods c Hc) as (Hd1 & Hd2 & Hd3 & Hd4 & Hd5).
  destruct Hstep;
    [ apply inv_update_host, Hc | apply Ha1 | apply Ha2 | apply Hi4 | exact Hd1 | apply Hi7
    | apply inv_restore, Hc | apply Hi6 | exact Hd2 | apply inv_finish_request, Hc
    | apply inv_remove_pod_server, Hc | apply inv_set_pod_server, Hc | apply inv_begin_loop, Hc
    | apply inv_routes, Hc | exact Hr1 | apply Hs1 | exact Hs2 | exact Hr2 | exact Hr3 | exact Hd5
    | apply Hi5 | exact Hd3 | apply inv_finish_request, inv_install_tunnel, Hc
    | apply inv_set_status, Hc | exact (proj2 (proj2 (proj2 (inv_event_methods e c Hc))))
    | exact (proj1 (inv_event_methods e c Hc) g)
    | exact (proj1 (proj2 (inv_event_methods e c Hc)) s)
    | exact (proj1 (proj2 (proj2 (inv_event_methods e c Hc))) s) | apply inv_resume_locked, Hc
    | apply inv_send, Hc | exact Hr4 | apply Hr5 | apply Hr6 | exact Hr7 | apply inv_ensure_codex, Hc
    | exact Hd4 | apply inv_host_disconnected, Hc | apply inv_stop_events, Hc
    | apply inv_reset_for_recreate, Hc | apply inv_irrelevant, inv_reset_for_recreate, Hc
    | exact Hr8 | exact Hr9 ].
Qed.

Lemma pc_reachable_inv c : pc_reachable c -> pc_inv c.
Proof.
  induction 1; [|eauto using pc_step_inv].
  constructor; [done|done| |by intros []|done]. intros i. simpl. by rewrite lookup_nil.
Qed.

(** ** Epochs: every step signals at most twice *)

Definition next_epoch (e : Z) : Z := wrapping_add64 e 1.

Lemma epoch_send o c : pod_repair_epoch (send o c) = pod_repair_epoch c.
Proof. done. Qed.
Lemma epoch_set_status s c : pod_repair_epoch (set_status s c) = pod_repair_epoch c.
Proof. unfold set_status. by case_bool_decide. Qed.
Lemma epoch_resume_locked c : pod_repair_epoch (resume_locked c) = next_epoch (pod_repair_epoch c).
Proof. done. Qed.
Lemma epoch_stop_event_loop c : pod_repair_epoch (stop_event_loop c) = next_epoch (pod_repair_epoch c).
Proof. unfold stop_event_loop. by destruct (event_loop c). Qed.
Lemma epoch_finish_request c : pod_repair_epoch (finish_connection_request c) = pod_repair_epoch c.
Proof. unfold finish_connection_request. by repeat case_match. Qed.
Lemma epoch_resources f c : pod_repair_epoch (c <| resources ::= f |>) = pod_repair_epoch c.
Proof. done. Qed.

Lemma epoch_update_activity e f c :
  (forall c, pod_repair_epoch (f c) = pod_repair_epoch c) ->
  pod_repair_epoch (fst (update_agent_activity e f c)) = pod_repair_epoch c.
Proof.
  intros Hf. unfold update_agent_activity. case_match; [done|]. cbn [fst]. rewrite epoch_send.
  case_match; [rewrite epoch_send|]; apply Hf.
Qed.

Lemma epoch_clear_states c : pod_repair_epoch (clear_states c) = pod_repair_epoch c.
Proof. done. Qed.
Lemma epoch_set_requested b c : pod_repair_epoch (set_connection_requested b c) = pod_repair_epoch c.
Proof. done. Qed.
Lemma epoch_disable_supervision c :
  pod_repair_epoch (disable_git_tunnel_supervision c) = pod_repair_epoch c.
Proof. done. Qed.
Lemma epoch_remove_agent c : pod_repair_epoch (remove_ssh_agent c) = pod_repair_epoch c.
Proof. done. Qed.

Lemma epoch_stop_events c : pod_repair_epoch (stop_events c) = next_epoch (pod_repair_epoch c).
Proof.
  unfold stop_events, emit_reconnect.
  rewrite epoch_send, epoch_disable_supervision, epoch_set_status, epoch_set_requested,
    epoch_update_activity by apply epoch_clear_states. apply epoch_stop_event_loop.
Qed.

Lemma epoch_reset c : pod_repair_epoch (reset_for_recreate c) = next_epoch (pod_repair_epoch c).
Proof. unfold reset_for_recreate. by rewrite epoch_clear_states, epoch_resources, epoch_stop_events. Qed.

Lemma epoch_drop_all c : pod_repair_epoch (drop_all c) = next_epoch (pod_repair_epoch c).
Proof. unfold drop_all. by rewrite epoch_remove_agent, epoch_reset. Qed.

Lemma epoch_update_host h tok c :
  pod_repair_epoch (update_host_and_token h tok c) = pod_repair_epoch c \/
  pod_repair_epoch (update_host_and_token h tok c) = next_epoch (pod_repair_epoch c).
Proof.
  unfold update_host_and_token. case_bool_decide; [right|by left].
  pose proof (epoch_stop_event_loop (c <| host := h |> <| host_key := HostKey_from_host h |>)) as He.
  revert He. generalize (stop_event_loop (c <| host := h |> <| host_key := HostKey_from_host h |>)).
  intros d Hd. exact Hd.
Qed.

Definition epoch_after (e e' : Z) : Prop :=
  e' = e \/ e' = next_epoch e \/ e' = next_epoch (next_epoch e).

Lemma epoch_set_pod_server h tok p c :
  epoch_after (pod_repair_epoch c) (pod_repair_epoch (fst (set_pod_server h tok p c))).
Proof.
  unfold set_pod_server. generalize (epoch_update_host h tok c).
  generalize (update_host_and_token h tok c). intros d Hd. cbv zeta. cbn [fst].
  rewrite epoch_resources. unfold epoch_after.
  case_bool_decide; rewrite ?epoch_stop_event_loop; destruct Hd as [-> | ->]; auto.
Qed.

Lemma epoch_demand_methods c :
  epoch_after (pod_repair_epoch c) (pod_repair_epoch (subscribe c)) /\
  epoch_after (pod_repair_epoch c) (pod_repair_epoch (request_connection c)) /\
  epoch_after (pod_repair_epoch c) (pod_repair_epoch (notify_host_connected c)) /\
  epoch_after (pod_repair_epoch c) (pod_repair_epoch (notify_host_disconnected c)).
Proof.
  unfold epoch_after. split_and!.
  - unfold subscribe. cbv zeta.
    repeat case_match; rewrite ?epoch_finish_request, ?epoch_resume_locked; auto.
  - unfold request_connection.
    generalize (epoch_finish_request (c <| connection_requested := true |>)).
    generalize (finish_connection_request (c <| connection_requested := true |>)). intros d Hd.
    change (pod_repair_epoch d = pod_repair_epoch c) in Hd. cbv zeta.
    case_match; rewrite ?epoch_resume_locked, Hd; auto.
  - unfold notify_host_connected, emit_reconnect.
    case_match; rewrite ?epoch_send, ?epoch_set_status, ?epoch_resume_locked; auto.
  - unfold notify_host_disconnected, emit_reconnect, host_disconnect_cleanup, host_disconnect_signal.
    case_match; [by left|]. right; left. rewrite epoch_send.
    generalize (epoch_set_status HostDisconnected (c <| repair_state ::= signal |>)).
    generalize (set_status HostDisconnected (c <| repair_state ::= signal |>)). intros d Hd.
    by repeat case_match.
Qed.

Lemma epoch_same e e' : e' = e -> epoch_after e e'.
Proof. by left. Qed.
Lemma epoch_once e e' : e' = next_epoch e -> epoch_after e e'.
Proof. by right; left. Qed.

Lemma epoch_event_methods e c :
  (forall g, pod_repair_epoch (fst (apply_greeting_at_epoch g e c)) = pod_repair_epoch c) /\
  (forall s, pod_repair_epoch (set_claude_state_at_epoch s e c) = pod_repair_epoch c) /\
  (forall s, pod_repair_epoch (set_codex_state_at_epoch s e c) = pod_repair_epoch c) /\
  pod_repair_epoch (mark_event_disconnected e c) = pod_repair_epoch c.
Proof.
  split_and!; intros.
  - apply epoch_update_activity. intros d. by rewrite epoch_set_status.
  - by apply epoch_update_activity.
  - by apply epoch_update_activity.
  - unfold mark_event_disconnected. case_bool_decide; [apply epoch_set_status|done].
Qed.

Lemma epoch_other_methods c :
  (forall s, pod_repair_epoch (fst (ensure_ssh_agent s c)) = pod_repair_epoch c) /\
  (forall k s, pod_repair_epoch (fst (configure_ssh_agent k s c)) = pod_repair_epoch c) /\
  (forall e, pod_repair_epoch (fst (begin_event_loop_at_epoch e c)) = pod_repair_epoch c) /\
  (forall p ps e, pod_repair_epoch (fst (install_repaired_routes p ps e c)) = pod_repair_epoch c) /\
  (forall u tok b s, pod_repair_epoch (fst (ensure_codex_proxy u tok b s c)) = pod_repair_epoch c) /\
  pod_repair_epoch (fst (try_schedule_git_tunnel_repair c)) = pod_repair_epoch c /\
  (forall h e, pod_repair_epoch (install_repaired_git_tunnel h e c) = pod_repair_epoch c).
Proof.
  split_and!; intros.
  - unfold ensure_ssh_agent. by repeat case_match.
  - unfold configure_ssh_agent. by repeat case_match.
  - unfold begin_event_loop_at_epoch. case_match; [done|]. cbn [fst]. by rewrite epoch_set_status.
  - unfold install_repaired_routes. case_match; [done|]. by destruct ps.
  - unfold ensure_codex_proxy. by repeat case_match.
  - unfold try_schedule_git_tunnel_repair. by repeat case_match.
  - unfold install_repaired_git_tunnel. rewrite epoch_finish_request.
    unfold install_tunnel_section. by case_match.
Qed.

Lemma epoch_remove_pod_server c :
  pod_repair_epoch (remove_pod_server c) = next_epoch (pod_repair_epoch c).
Proof. unfold remove_pod_server. by rewrite epoch_stop_event_loop, epoch_resources. Qed.

Lemma epoch_supervised_methods c :
  (forall h, epoch_after (pod_repair_epoch c) (pod_repair_epoch (set_git_tunnel h c))) /\
  epoch_after (pod_repair_epoch c) (pod_repair_epoch (enable_git_tunnel_supervision c)).
Proof.
  split; intros; unfold set_git_tunnel, enable_git_tunnel_supervision; cbv zeta;
    rewrite ?epoch_finish_request; (case_match; [by apply epoch_once|by apply epoch_same]).
Qed.

Lemma pc_step_epoch c c' : pc_step c c' -> epoch_after (pod_repair_epoch c) (pod_repair_epoch c').
Proof.
  intros Hstep.
  pose proof (epoch_demand_methods c) as (Hd1 & Hd2 & Hd3 & Hd4).
  pose proof (epoch_supervised_methods c) as [Hs1 Hs2].
  pose proof (epoch_other_methods c) as (Ho1 & Ho2 & Ho3 & Ho4 & Ho5 & Ho6 & Ho7).
  destruct Hstep;
    [ destruct (epoch_update_host h tok c) as [He|He]; [by left|by right; left]
    | apply epoch_same, Ho1 | apply epoch_same, Ho2 | by apply epoch_same | exact Hd1
    | by apply epoch_same | by apply epoch_same | by apply epoch_same | exact Hd2
    | apply epoch_same, epoch_finish_request
    | apply epoch_once, epoch_remove_pod_server
    | apply epoch_set_pod_server | apply epoch_same, Ho3 | apply epoch_same, Ho4
    | by apply epoch_same | apply Hs1 | exact Hs2 | by apply epoch_same | by apply epoch_same
    | apply epoch_same, Ho6 | by apply epoch_same | by apply epoch_once | apply epoch_same, Ho7
    | apply epoch_same, epoch_set_status
    | apply epoch_same, (epoch_event_methods e c) | apply epoch_same, (epoch_event_methods e c)
    | apply epoch_same, (epoch_event_methods e c) | apply epoch_same, (epoch_event_methods e c)
    | by apply epoch_once | by apply epoch_same | by apply epoch_same | by apply epoch_same
    | by apply epoch_same | by apply epoch_same | apply epoch_same, Ho5 | exact Hd3 | exact Hd4
    | apply epoch_once, epoch_stop_events | apply epoch_once, epoch_reset | apply epoch_once, epoch_drop_all
    | by apply epoch_same | by apply epoch_same ].
Qed.

(** After [n] steps the epoch has advanced by at most [2 * n]. *)
Lemma pc_steps_epoch n c c' :
  (0 <= pod_repair_epoch c < 2 ^ 64)%Z -> nsteps pc_step n c c' ->
  exists k, (0 <= k <= 2 * Z.of_nat n)%Z /\
            pod_repair_epoch c' = ((pod_repair_epoch c + k) mod 2 ^ 64)%Z.
Proof.
  intros Hr H. induction H as [c|n c c1 c' Hs _ IH].
  { exists 0%Z. split; [lia|]. rewrite Z.add_0_r, Z.mod_small; done. }
  apply pc_step_epoch in Hs.
  destruct IH as (k & Hk & ->).
  { unfold epoch_after in Hs. destruct Hs as [-> |[-> | ->]]; [done|apply epoch_range..]. }
  destruct Hs as [-> |[-> | ->]].
  - exists k. split; [lia|done].
  - exists (k + 1)%Z. split; [lia|]. unfold next_epoch, wrapping_add64. rewrite Zplus_mod_idemp_l.
    f_equal. lia.
  - exists (k + 2)%Z. split; [lia|]. unfold next_epoch, wrapping_add64. rewrite Zplus_mod_idemp_l.
    rewrite <- Z.add_assoc, Zplus_mod_idemp_l. f_equal. lia.
Qed.

Lemma epoch_differs e k : (0 <= e < 2 ^ 64)%Z -> (0 < k < 2 ^ 64)%Z -> ((e + k) mod 2 ^ 64)%Z <> e.
Proof.
  intros He Hk H. assert (Hm : ((e + k) mod 2 ^ 64 = e mod 2 ^ 64)%Z) by (rewrite H, Z.mod_small; done).
  rewrite Z.mod_eq, (Z.mod_small e) in Hm by lia.
  assert (2 ^ 64 * ((e + k) / 2 ^ 64) = k)%Z by lia.
  assert (0 < (e + k) / 2 ^ 64 < 1)%Z by nia. lia.
Qed.

(** ** Observations of an earlier epoch *)

Lemma stale_update e f c : pod_repair_epoch c <> e -> update_agent_activity (Some e) f c = (c, false).
Proof.
  intros He. unfold update_agent_activity. simpl.
  by rewrite (bool_decide_eq_false_2 (e = _)) by congruence.
Qed.

(** The methods that publish what an event loop or a repair observed at epoch [e]. *)
Record stale_noop (e : Z) (c : PodConnection) : Prop := {
  stale_greeting : forall g, apply_greeting_at_epoch g e c = (c, false);
  stale_claude : forall s, set_claude_state_at_epoch s e c = c;
  stale_codex : forall s, set_codex_state_at_epoch s e c = c;
  stale_disconnected : mark_event_disconnected e c = c;
  stale_begin : begin_event_loop_at_epoch (Some e) c = (c, None);
  stale_routes : forall p ps, install_repaired_routes p ps e c = (c, false);
  stale_tunnel : forall h, install_tunnel_section h e c = c;
  stale_request : forall stop, event_request_admitted stop e c = false;
}.

Lemma stale_epoch_noop e c : pod_repair_epoch c <> e -> stale_noop e c.
Proof.
  intros He. constructor; intros.
  - by apply stale_update.
  - unfold set_claude_state_at_epoch. by rewrite stale_update.
  - unfold set_codex_state_at_epoch. by rewrite stale_update.
  - unfold mark_event_disconnected. by rewrite bool_decide_eq_false_2.
  - unfold begin_event_loop_at_epoch. simpl.
    by rewrite (bool_decide_eq_false_2 (e = _)), orb_true_r by congruence.
  - unfold install_repaired_routes.
    by rewrite (bool_decide_eq_false_2 (pod_repair_epoch c = e)), orb_true_r by done.
  - unfold install_tunnel_section. by rewrite (bool_decide_eq_false_2 (_ = e)), andb_false_r by done.
  - unfold event_request_admitted. by rewrite (bool_decide_eq_false_2 (_ = e)), andb_false_r by done.
Qed.

(** ** What a stopped connection looks like *)

Lemma stop_event_loop_none c : event_loop (stop_event_loop c) = None.
Proof. unfold stop_event_loop. destruct (event_loop c) eqn:E; [done|exact E]. Qed.

Lemma loops_stop c i b : loops (stop_event_loop c) !! i = Some b ->
  pc_inv c -> b = true.
Proof.
  intros Hl Hc. pose proof (inv_stop_event_loop c Hc) as [_ _ Hi _ _].
  destruct b; [done|]. apply Hi in Hl.
  by rewrite stop_event_loop_none in Hl.
Qed.

Lemma update_activity_frame e f c :
  let c' := fst (update_agent_activity e f c) in
  (forall d, event_loop (f d) = event_loop d /\ loops (f d) = loops d /\ resources (f d) = resources d /\
             receivers (f d) = receivers d /\ event_http_version (f d) = event_http_version d) ->
  event_loop c' = event_loop c /\ loops c' = loops c /\ resources c' = resources c /\
  receivers c' = receivers c /\ event_http_version c' = event_http_version c.
Proof.
  intros c' Hf. unfold c', update_agent_activity. case_match; [done|]. cbn [fst].
  destruct (Hf c) as (? & ? & ? & ? & ?). unfold send. case_match; rproj; by split_and!.
Qed.

Lemma update_activity_states c :
  let c' := fst (update_agent_activity None clear_states c) in
  claude_state c' = None /\ codex_state c' = None /\ last_agent_processing c' = false.
Proof. unfold update_agent_activity. simpl. by case_match. Qed.

Lemma set_status_frame s c :
  status (set_status s c) = s /\ event_loop (set_status s c) = event_loop c /\
  loops (set_status s c) = loops c /\ resources (set_status s c) = resources c /\
  receivers (set_status s c) = receivers c /\ claude_state (set_status s c) = claude_state c /\
  codex_state (set_status s c) = codex_state c /\
  last_agent_processing (set_status s c) = last_agent_processing c /\
  connection_requested (set_status s c) = connection_requested c.
Proof. unfold set_status. by case_bool_decide. Qed.

Record stopped (c : PodConnection) : Prop := {
  st_status : status c = Stopped;
  st_loop : event_loop c = None;
  st_loops : forall i b, loops c !! i = Some b -> b = true;
  st_claude : claude_state c = None;
  st_codex : codex_state c = None;
  st_activity : last_agent_processing c = false;
  st_requested : connection_requested c = false;
  st_tunnel : git_tunnel (resources c) = None;
  st_supervise : supervise_git_tunnel (resources c) = false;
}.

Lemma stop_events_stopped c : pc_inv c -> stopped (stop_events c) /\ receivers (stop_events c) = receivers c.
Proof.
  intros Hc. unfold stop_events.
  pose proof (update_activity_states (stop_event_loop c)) as Hs.
  pose proof (update_activity_frame None clear_states (stop_event_loop c) ltac:(done)) as Hf.
  assert (Hl : forall i b, loops (stop_event_loop c) !! i = Some b -> b = true)
    by (intros i b H; by eapply loops_stop).
  pose proof (stop_event_loop_none c) as He.
  assert (Hr : receivers (stop_event_loop c) = receivers c)
    by (unfold stop_event_loop; by destruct (event_loop c)).
  revert Hs Hf. generalize (fst (update_agent_activity None clear_states (stop_event_loop c))).
  intros d (Hc1 & Hc2 & Hc3) (Hf1 & Hf2 & Hf3 & Hf4 & _).
  pose proof (set_status_frame Stopped (set_connection_requested false d)) as Hst.
  revert Hst. generalize (set_status Stopped (set_connection_requested false d)).
  intros d' (S1 & S2 & S3 & S4 & S5 & S6 & S7 & S8 & S9). unfold set_connection_requested in *.
  unfold emit_reconnect, send, disable_git_tunnel_supervision. rproj. split; [constructor|]; rproj; try done.
  all: rewrite ?S2, ?S3, ?S5, ?S6, ?S7, ?S8, ?S9, ?Hf1, ?Hf2, ?Hf4; try done.
Qed.

(** ** Announcements: the log of what a connection sends *)

Definition observable (c : PodConnection) : PodConnectionStatus * option ClaudeState * option CodexState :=
  (status c, claude_state c, codex_state c).

(** From [c] to [c'] the log only grows, and a change of what clients display is announced. *)
Definition announced (c c' : PodConnection) : Prop :=
  key c' = key c /\
  exists new, out c' = new ++ out c /\
              (observable c' = observable c \/ status_changed c ∈ new).

Lemma announced_quiet c c' :
  key c' = key c -> out c' = out c -> observable c' = observable c -> announced c c'.
Proof. intros Hk Ho Hs. split; [done|]. exists []. by split; [|left]. Qed.

Lemma announced_trans c1 c2 c3 : announced c1 c2 -> announced c2 c3 -> announced c1 c3.
Proof.
  intros [Hk1 (n1 & Ho1 & H1)] [Hk2 (n2 & Ho2 & H2)]. split; [congruence|].
  exists (n2 ++ n1). rewrite Ho2, Ho1, app_assoc. split; [done|].
  assert (status_changed c2 = status_changed c1) as Heq by (unfold status_changed; by rewrite Hk1).
  destruct H1 as [H1|H1]; [|right; apply elem_of_app; by right].
  destruct H2 as [H2|H2]; [left; congruence|right; apply elem_of_app; left; by rewrite <- Heq].
Qed.

Lemma ann_send o c : announced c (send o c).
Proof. split; [done|]. exists [o]. by split; [|left]. Qed.

Lemma ann_set_status s c : announced c (set_status s c).
Proof.
  unfold set_status. case_bool_decide; [by apply announced_quiet|].
  split; [done|]. exists [status_changed c]. split; [done|]. right. left.
Qed.

(** Setting the agent states inside an activity update, which announces them. *)
Lemma ann_update_activity e f c :
  (forall d, key (f d) = key d /\ exists new, out (f d) = new ++ out d) ->
  announced c (fst (update_agent_activity e f c)).
Proof.
  intros Hf. unfold update_agent_activity. case_match; [by apply announced_quiet|]. cbn [fst].
  destruct (Hf c) as [Hk (new & Ho)].
  assert (Hsc : status_changed (f c) = status_changed c) by (unfold status_changed; by rewrite Hk).
  split; [by case_match|].
  case_match.
  - exists (status_changed (f c) :: ActivityObserved (key (f c)) (processing_now (f c)) :: new).
    split; [unfold send; rproj; by rewrite Ho|]. right. rewrite Hsc. left.
  - exists (status_changed (f c) :: new). split; [unfold send; rproj; by rewrite Ho|]. right. rewrite Hsc. left.
Qed.

Lemma ann_resume_locked c : announced c (resume_locked c).
Proof. by apply announced_quiet. Qed.

Lemma ann_stop_event_loop c : announced c (stop_event_loop c).
Proof. unfold stop_event_loop. destruct (event_loop c); by apply announced_quiet. Qed.

Lemma ann_finish_request c : announced c (finish_connection_request c).
Proof.
  unfold finish_connection_request. repeat case_match; [|by apply announced_quiet..].
  eapply announced_trans; [|apply ann_send]. by apply announced_quiet.
Qed.

Lemma ann_resources f c : announced c (c <| resources ::= f |>).
Proof. by apply announced_quiet. Qed.

Lemma ann_update_host h tok c : announced c (update_host_and_token h tok c).
Proof.
  unfold update_host_and_token. eapply announced_trans; [|by apply announced_quiet].
  case_bool_decide; [|by apply announced_quiet].
  eapply announced_trans; [|apply ann_stop_event_loop]. by apply announced_quiet.
Qed.

Lemma ann_reset_tail c :
  claude_state c = None -> codex_state c = None ->
  announced c (clear_states (c <| resources ::= drop_resources |>)).
Proof. intros H1 H2. apply announced_quiet; [done|done|]. unfold observable. by rewrite H1, H2. Qed.

Lemma ann_disable_supervision c : announced c (disable_git_tunnel_supervision c).
Proof. by apply announced_quiet. Qed.

Lemma ann_set_requested b c : announced c (set_connection_requested b c).
Proof. by apply announced_quiet. Qed.

Lemma ann_clear_activity c : announced c (fst (update_agent_activity None clear_states c)).
Proof. apply ann_update_activity. intros d. split; [done|]. by exists []. Qed.

Lemma ann_stop_events c : announced c (stop_events c).
Proof.
  unfold stop_events, emit_reconnect.
  refine (announced_trans _ _ _ _ (ann_send _ _)).
  refine (announced_trans _ _ _ _ (ann_disable_supervision _)).
  refine (announced_trans _ _ _ _ (ann_set_status _ _)).
  refine (announced_trans _ _ _ _ (ann_set_requested _ _)).
  exact (announced_trans _ _ _ (ann_stop_event_loop c) (ann_clear_activity _)).
Qed.

Lemma stop_events_states c : claude_state (stop_events c) = None /\ codex_state (stop_events c) = None.
Proof.
  unfold stop_events. pose proof (update_activity_states (stop_event_loop c)) as (H1 & H2 & _).
  revert H1 H2. generalize (fst (update_agent_activity None clear_states (stop_event_loop c))).
  intros d H1 H2.
  pose proof (set_status_frame Stopped (set_connection_requested false d)) as (_ & _ & _ & _ & _ & S1 & S2 & _).
  revert S1 S2. generalize (set_status Stopped (set_connection_requested false d)). intros d' S1 S2.
  change (claude_state d' = None /\ codex_state d' = None). by rewrite S1, S2.
Qed.

Lemma ann_reset c : announced c (reset_for_recreate c).
Proof.
  unfold reset_for_recreate. destruct (stop_events_states c) as [H1 H2].
  eapply announced_trans; [apply ann_stop_events|]. exact (ann_reset_tail _ H1 H2).
Qed.

Lemma ann_set_pod_server h tok p c : announced c (fst (set_pod_server h tok p c)).
Proof.
  unfold set_pod_server. cbv zeta. cbn [fst]. eapply announced_trans; [|apply ann_resources].
  eapply announced_trans; [apply ann_update_host|].
  case_bool_decide; [apply ann_stop_event_loop|by apply announced_quiet].
Qed.

Lemma ann_cleanup d : announced d (host_disconnect_cleanup d).
Proof.
  unfold host_disconnect_cleanup. cbv zeta. destruct (pod_server (resources d)) as [p|].
  - refine (announced_trans _ _ _ (ann_send (ResetConnections (ep_port p)) d) _).
    case_match; by apply announced_quiet.
  - case_match; by apply announced_quiet.
Qed.

Lemma ann_demand_methods c :
  announced c (subscribe c) /\ announced c (request_connection c) /\
  announced c (notify_host_connected c) /\ announced c (notify_host_disconnected c).
Proof.
  split_and!.
  - unfold subscribe. cbv zeta.
    eapply announced_trans; [apply (announced_quiet c (c <| receivers ::= S |>)); done|].
    repeat case_match; try (by apply announced_quiet); try apply ann_finish_request.
    eapply announced_trans; [apply ann_resume_locked|apply ann_finish_request].
  - unfold request_connection. cbv zeta.
    eapply announced_trans; [apply (announced_quiet c (c <| connection_requested := true |>)); done|].
    case_match; [|apply ann_finish_request].
    eapply announced_trans; [apply ann_finish_request|apply ann_resume_locked].
  - unfold notify_host_connected, emit_reconnect. case_match; [by apply announced_quiet|].
    eapply announced_trans; [|apply ann_send].
    eapply announced_trans; [apply ann_resume_locked|apply ann_set_status].
  - unfold notify_host_disconnected, emit_reconnect, host_disconnect_signal.
    case_match; [by apply announced_quiet|].
    refine (announced_trans _ _ _ _ (ann_send _ _)). refine (announced_trans _ _ _ _ (ann_cleanup _)).
    refine (announced_trans _ _ _ _ (ann_set_status _ _)). by apply announced_quiet.
Qed.

Lemma ann_event_methods e c :
  (forall g, announced c (fst (apply_greeting_at_epoch g e c))) /\
  (forall s, announced c (set_claude_state_at_epoch s e c)) /\
  (forall s, announced c (set_codex_state_at_epoch s e c)) /\
  announced c (mark_event_disconnected e c).
Proof.
  split_and!; intros.
  - apply ann_update_activity. intros d. unfold set_status.
    case_bool_decide; (split; [done|]); [by exists []|by exists [status_changed d]].
  - apply ann_update_activity. intros d. split; [done|]. by exists [].
  - apply ann_update_activity. intros d. split; [done|]. by exists [].
  - unfold mark_event_disconnected. case_bool_decide; [apply ann_set_status|by apply announced_quiet].
Qed.

Lemma ann_other_methods c :
  (forall s, announced c (fst (ensure_ssh_agent s c))) /\
  (forall k s, announced c (fst (configure_ssh_agent k s c))) /\
  (forall e, announced c (fst (begin_event_loop_at_epoch e c))) /\
  (forall p ps e, announced c (fst (install_repaired_routes p ps e c))) /\
  (forall u tok b s, announced c (fst (ensure_codex_proxy u tok b s c))) /\
  announced c (fst (try_schedule_git_tunnel_repair c)) /\
  (forall h e, announced c (install_repaired_git_tunnel h e c)).
Proof.
  split_and!; intros.
  - unfold ensure_ssh_agent. repeat case_match; by apply announced_quiet.
  - unfold configure_ssh_agent. repeat case_match; by apply announced_quiet.
  - unfold begin_event_loop_at_epoch. case_match; [by apply announced_quiet|]. cbn [fst].
    eapply announced_trans; [|apply ann_set_status]. by apply announced_quiet.
  - unfold install_repaired_routes. case_match; [by apply announced_quiet|].
    destruct ps; by apply announced_quiet.
  - unfold ensure_codex_proxy. repeat case_match; by apply announced_quiet.
  - unfold try_schedule_git_tunnel_repair. repeat case_match; by apply announced_quiet.
  - unfold install_repaired_git_tunnel. eapply announced_trans; [|apply ann_finish_request].
    unfold install_tunnel_section. case_match; by apply announced_quiet.
Qed.

Lemma ann_supervised_methods c :
  (forall h, announced c (set_git_tunnel h c)) /\ announced c (enable_git_tunnel_supervision c).
Proof.
  split; intros; unfold set_git_tunnel, enable_git_tunnel_supervision; cbv zeta.
  - eapply announced_trans; [|apply ann_finish_request]. case_match; by apply announced_quiet.
  - case_match; by apply announced_quiet.
Qed.

Lemma ann_remove_pod_server c : announced c (remove_pod_server c).
Proof. unfold remove_pod_server. eapply announced_trans; [|apply ann_stop_event_loop]. by apply announced_quiet. Qed.

Lemma ann_remove_agent c : announced c (remove_ssh_agent c).
Proof. by apply announced_quiet. Qed.

Lemma ann_drop_all c : announced c (drop_all c).
Proof. exact (announced_trans _ _ _ (ann_reset c) (ann_remove_agent _)). Qed.

Lemma pc_step_announced c c' : pc_step c c' -> announced c c'.
Proof.
  intros Hstep.
  pose proof (ann_demand_methods c) as (Hd1 & Hd2 & Hd3 & Hd4).
  pose proof (ann_supervised_methods c) as [Hs1 Hs2].
  pose proof (ann_other_methods c) as (Ho1 & Ho2 & Ho3 & Ho4 & Ho5 & Ho6 & Ho7).
  destruct Hstep;
    [ apply ann_update_host | apply Ho1 | apply Ho2 | by apply announced_quiet | exact Hd1
    | by apply announced_quiet | by apply announced_quiet | by apply announced_quiet | exact Hd2
    | apply ann_finish_request | apply ann_remove_pod_server | apply ann_set_pod_server
    | apply Ho3 | apply Ho4 | by apply announced_quiet | apply Hs1 | exact Hs2
    | by apply announced_quiet | by apply announced_quiet | exact Ho6 | by apply announced_quiet
    | by apply announced_quiet | apply Ho7 | apply ann_set_status
    | apply (ann_event_methods e c) | apply (ann_event_methods e c)
    | apply (ann_event_methods e c) | apply (ann_event_methods e c)
    | apply ann_resume_locked | apply ann_send | by apply announced_quiet | by apply announced_quiet
    | by apply announced_quiet | by apply announced_quiet | apply Ho5 | exact Hd3 | exact Hd4
    | apply ann_stop_events | apply ann_reset | apply ann_drop_all
    | by apply announced_quiet | by apply announced_quiet ].
Qed.

(** ** Host loss *)

Lemma cleanup_tunnel c :
  supervise_git_tunnel (resources c) = true ->
  git_tunnel (resources (host_disconnect_cleanup c)) = None /\
  validate_pod_before_git_tunnel_repair (resources (host_disconnect_cleanup c)) = true.
Proof.
  intros Hs. unfold host_disconnect_cleanup. cbv zeta.
  assert (H : forall d, supervise_git_tunnel (resources d) = true ->
    git_tunnel (resources (if supervise_git_tunnel (resources d)
      then d <| resources ::= fun r => r <| git_tunnel := None |>
                  <| validate_pod_before_git_tunnel_repair := true |> |> else d)) = None /\
    validate_pod_before_git_tunnel_repair (resources (if supervise_git_tunnel (resources d)
      then d <| resources ::= fun r => r <| git_tunnel := None |>
                  <| validate_pod_before_git_tunnel_repair := true |> |> else d)) = true)
    by (intros d ->; done).
  by destruct (pod_server (resources c)); apply H.
Qed.

Lemma epoch_cleanup c : pod_repair_epoch (host_disconnect_cleanup c) = pod_repair_epoch c.
Proof. unfold host_disconnect_cleanup. by repeat case_match. Qed.

Lemma epoch_host_signal c :
  pod_repair_epoch (host_disconnect_signal c) = next_epoch (pod_repair_epoch c).
Proof. unfold host_disconnect_signal. by rewrite epoch_set_status. Qed.

(** ** Properties *)


(** A step that ends what event loops and repairs observed before it. *)
Definition invalidates (c c1 : PodConnection) : Prop :=
  c1 = stop_events c \/ c1 = reset_for_recreate c \/ c1 = drop_all c \/ c1 = remove_pod_server c \/
  c1 = pause_pod_repair c \/ c1 = resume_repair c \/
  (status c <> Stopped /\ c1 = notify_host_disconnected c).

Lemma invalidates_epoch c c1 :
  invalidates c c1 -> pod_repair_epoch c1 = next_epoch (pod_repair_epoch c).
Proof.
  intros [-> |[-> |[-> |[-> |[-> |[-> |[Hs ->]]]]]]].
  - apply epoch_stop_events.
  - apply epoch_reset.
  - apply epoch_drop_all.
  - apply epoch_remove_pod_server.
  - done.
  - done.
  - unfold notify_host_disconnected. rewrite bool_decide_eq_false_2 by done.
    unfold emit_reconnect. rewrite epoch_send. unfold host_disconnect_signal.
    generalize (epoch_set_status HostDisconnected (c <| repair_state ::= signal |>)).
    generalize (set_status HostDisconnected (c <| repair_state ::= signal |>)). intros d Hd.
    unfold host_disconnect_cleanup. by repeat case_match.
Qed.


(** [stop_events] leaves nothing running: the connection is [Stopped] without agent
    states, without a wish to reconnect of its own, without a supervised tunnel, and with
    the stop flag of every event loop set; the host coming back or going away does not
    wake it, and no repair is scheduled for it. *)
Theorem stop_events_is_final c :
  pc_reachable c ->
  let c' := stop_events c in
  stopped c' /\
  wants_reconnect c' = bool_decide (0 < receivers c) /\
  notify_host_connected c' = c' /\ notify_host_disconnected c' = c' /\
  try_schedule_git_tunnel_repair c' = (c', false).
Proof.
  intros Hc%pc_reachable_inv. cbv zeta. destruct (stop_events_stopped c Hc) as [Hs Hr].
  revert Hs Hr. generalize (stop_events c). intros d Hd Hr.
  pose proof Hd as [Hst _ _ _ _ Ha Hreq _ Hsup]. split_and!; [done|..].
  - unfold wants_reconnect, agent_is_processing. by rewrite Ha, Hreq, Hr, orb_false_r.
  - unfold notify_host_connected. by rewrite Hst.
  - unfold notify_host_disconnected. by rewrite Hst.
  - unfold try_schedule_git_tunnel_repair. rewrite Hsup. by case_match.
Qed.

(** A host loss wins over a tunnel repair that started before it: the repair installs
    its tunnel under the lock of the resources only, and wherever that section falls,
    before the loss is signalled, between the signal and the cleanup, or after both, no
    tunnel is held afterwards and the next repair validates the pod first. *)
Theorem host_loss_beats_late_repair c handle :
  pc_reachable c -> supervise_git_tunnel (resources c) = true ->
  let e := pod_repair_epoch c in
  let install := install_tunnel_section handle e in
  Forall (fun c' => git_tunnel (resources c') = None /\
                    validate_pod_before_git_tunnel_repair (resources c') = true)
    [ host_disconnect_cleanup (host_disconnect_signal (install c));
      host_disconnect_cleanup (install (host_disconnect_signal c));
      install (host_disconnect_cleanup (host_disconnect_signal c)) ].
Proof.
  intros Hc%pc_reachable_inv Hs e install.
  assert (Hsig : forall d, supervise_git_tunnel (resources d) = true ->
    supervise_git_tunnel (resources (host_disconnect_signal d)) = true).
  { intros d Hd. unfold host_disconnect_signal.
    destruct (set_status_frame HostDisconnected (d <| repair_state ::= signal |>)) as (_ & _ & _ & Hr & _).
    by rewrite Hr. }
  assert (Hins : forall d, supervise_git_tunnel (resources d) = true ->
    supervise_git_tunnel (resources (install d)) = true).
  { intros d Hd. unfold install, install_tunnel_section. by case_match. }
  assert (Hlate : install (host_disconnect_cleanup (host_disconnect_signal c)) =
                  host_disconnect_cleanup (host_disconnect_signal c)).
  { apply (stale_tunnel e), stale_epoch_noop. rewrite epoch_cleanup, epoch_host_signal.
    apply epoch_differs; [apply (inv_epoch _ Hc)|lia]. }
  repeat apply Forall_cons_2; [..|constructor]; rewrite ?Hlate; apply cleanup_tunnel; auto.
Qed.

(** Every step that changes the status or an agent state of a connection sends a
    [PodStatusChanged] event for that pod, and no step removes what was sent. *)
Theorem changes_are_announced c c' :
  pc_step c c' ->
  key c' = key c /\
  exists new, out c' = new ++ out c /\
    (observable c' = observable c \/ PodStatusChanged (fst (key c)) (snd (key c)) ∈ new).
Proof. apply pc_step_announced. Qed.

(** A request for a connection is either satisfied at once (the pod is connected, with
    a live tunnel where one is supervised, and subscribers are told) or stays pending on
    a repair that is not paused; a repair worker waiting for it was woken, since it
    waits only while paused or not connected. *)
Theorem request_connection_progress c :
  let c' := request_connection c in
  let satisfied := bool_decide (status c = Connected)
                   && (negb (supervise_git_tunnel (resources c)) || tunnel_alive (resources c)) in
  if satisfied
  then connection_requested c' = false /\ out c' = Reconnect EvConnected :: out c
  else connection_requested c' = true /\ wants_reconnect c' = true /\ is_paused c' = false /\
       (is_paused c = true \/ status c <> Connected ->
        pod_repair_epoch c' = next_epoch (pod_repair_epoch c)).
Proof.
  unfold request_connection, finish_connection_request. rproj.
  change (status (c <| connection_requested := true |>)) with (status c).
  case_bool_decide as Hs; simpl.
  - change (tunnel_alive (resources (c <| connection_requested := true |>))) with (tunnel_alive (resources c)).
    destruct (negb _ || tunnel_alive _); simpl; [done|].
    change (is_paused (c <| connection_requested := true |>)) with (is_paused c). rproj. simpl.
    rewrite (bool_decide_eq_true_2 (status c = Connected)) by done. rewrite orb_false_r.
    destruct (is_paused c) eqn:Ep; [done|]. split_and!; [done..|]. intros [?|?]; congruence.
  - change (is_paused (c <| connection_requested := true |>)) with (is_paused c). rproj. simpl.
    rewrite (bool_decide_eq_false_2 (status c = Connected)) by done. rewrite orb_true_r. done.
Qed.

(** The delays of successive failures. *)
Fixpoint delays (jitter : Z -> Z) (n : nat) (b : PodRepairBackoff) : list (option Z) :=
  match n with
  | O => []
  | S n' => let '(d, b') := next_delay jitter b in d :: delays jitter n' b'
  end.

(** Nine failures in a row are retried, after 1, 2, 4, 8, 16 and then 30 seconds before
    jitter, and from the tenth on the repair is given up until it is resumed; with the
    jitter drawn from the upper half of each delay the pod is retried for between 75.5 and
    151 seconds, and a reset starts the schedule anew. *)
Theorem repair_backoff_schedule jitter n b :
  (forall d, 0 <= d -> d <= 2 * jitter d <= 2 * d)%Z ->
  delays jitter (9 + n) (backoff_reset b) =
    map (fun d => Some (jitter d)) [1000; 2000; 4000; 8000; 16000; 30000; 30000; 30000; 30000]%Z
    ++ replicate n None /\
  (75500 <= foldr Z.add 0 (map jitter [1000; 2000; 4000; 8000; 16000; 30000; 30000; 30000; 30000]) <= 151000)%Z.
Proof.
  intros Hj. split.
  - cbn [delays Nat.add]. simpl. do 9 f_equal.
    assert (Hn : forall n f d, (9 <= f)%Z -> delays jitter n (mkBackoff f d) = replicate n None).
    { clear. induction n as [|n IH]; intros f d Hf; [done|]. simpl. unfold next_delay. simpl.
      rewrite bool_decide_eq_true_2 by (unfold POD_REPAIR_FAILURE_LIMIT; lia). f_equal. apply IH. lia. }
    apply Hn. lia.
  - simpl. pose proof (Hj 1000%Z). pose proof (Hj 2000%Z). pose proof (Hj 4000%Z).
    pose proof (Hj 8000%Z). pose proof (Hj 16000%Z). pose proof (Hj 30000%Z). lia.
Qed.

(** ** Witnesses *)

Definition example_pod : PodConnection :=
  PodConnection_new (lit "/repo", lit "dev") (Localhost Docker) (lit "tok") Connecting None.

(** A connected pod with an event loop, an observed agent and a supervised tunnel. *)
Definition connected_pod : PodConnection :=
  let c := set_git_tunnel (mkTunnel true (lit "ctr")) example_pod in
  let c := fst (begin_event_loop_at_epoch None c) in
  fst (apply_greeting_at_epoch (mkGreeting HTTP_2 (Some ClaudeProcessing) None) (pod_repair_epoch c) c).

Lemma connected_pod_reachable : pc_reachable connected_pod.
Proof.
  unfold connected_pod. eapply pc_next; [|apply step_greeting].
  eapply pc_next; [|apply step_begin_loop]. eapply pc_next; [|apply step_set_tunnel]. apply pc_init.
Qed.



Lemma stop_events_is_final_witness :
  notify_host_connected (stop_events connected_pod) = stop_events connected_pod.
Proof.
  pose proof (stop_events_is_final connected_pod connected_pod_reachable) as (_ & _ & H & _). exact H.
Defined.

Lemma host_loss_beats_late_repair_witness :
  git_tunnel (resources (host_disconnect_cleanup
    (install_tunnel_section (mkTunnel true (lit "late")) (pod_repair_epoch connected_pod)
       (host_disconnect_signal connected_pod)))) = None.
Proof.
  pose proof (host_loss_beats_late_repair connected_pod (mkTunnel true (lit "late"))
    connected_pod_reachable ltac:(vm_compute; reflexivity)) as H.
  apply Forall_cons_1 in H as [_ H]. apply Forall_cons_1 in H as [[H _] _]. exact H.
Defined.

Lemma changes_are_announced_witness :
  key (stop_events connected_pod) = key connected_pod.
Proof.
  pose proof (changes_are_announced connected_pod (stop_events connected_pod)
    (step_stop_events connected_pod)) as [H _]. exact H.
Defined.

Lemma repair_backoff_schedule_witness :
  delays (fun d => d) 10 (backoff_reset backoff_new) =
  map Some [1000; 2000; 4000; 8000; 16000; 30000; 30000; 30000; 30000]%Z ++ [None].
Proof. apply (repair_backoff_schedule (fun d => d) 1 backoff_new). intros d Hd. lia. Defined.
