(* ===== verification/HostConn.v ===== *)
(** * Host connections (daemon/host_connection.rs)

    One connection per [HostKey], shared by all pods of the host.  Its liveness is the
    value of a watch channel; a change of it is sent to the daemon as an event.  Probing
    an engine or an API server is outside the program: the outcome of a probe is an
    argument.  The three kinds of connection share [set_status] and [request_probe] and
    differ in how they are probed. *)
From S2P Require Import Prelude Strs Hosts PodConn.

Inductive HostStatus := HConnected | HDisconnected.

#[export] Instance HostStatus_eq_dec : EqDecision HostStatus.
Proof. solve_decision. Defined.

Inductive HostConnectionEvent :=
| EvHostConnected (k : HostKey)
| EvHostDisconnected (k : HostKey)
| EvGaveUp (k : HostKey).

#[export] Instance HostConnectionEvent_eq_dec : EqDecision HostConnectionEvent.
Proof. solve_decision. Defined.

(** [hc_client] is the cached client of a Kubernetes connection, an opaque handle. *)
Record HostConnection := mkHostConnection {
  hc_key : HostKey;
  hc_status : HostStatus;
  hc_client : option Z;
  hc_probe_requested : bool;
}.

#[export] Instance HostConnection_updatable : Updatable HostConnection := fun c =>
  mkHostConnection (hc_key c) (hc_status c) (hc_client c) (hc_probe_requested c).

#[export] Instance HostConnection_eq_dec : EqDecision HostConnection.
Proof. solve_decision. Defined.

Definition HostConnection_new (h : Host) : HostConnection :=
  mkHostConnection (HostKey_from_host h) HDisconnected None false.

(** [HostConnection::status]: a localhost connection counts as connected. *)
Definition host_status (c : HostConnection) : HostStatus :=
  match hc_key c with
  | KeyLocalhost _ => HConnected
  | KeySsh _ _ | KeyKubernetes _ _ => hc_status c
  end.

Definition is_connected (c : HostConnection) : bool := bool_decide (host_status c = HConnected).

Definition request_probe (c : HostConnection) : HostConnection := c <| hc_probe_requested := true |>.

Definition event_of (k : HostKey) (s : HostStatus) : HostConnectionEvent :=
  match s with HConnected => EvHostConnected k | HDisconnected => EvHostDisconnected k end.

(** [set_status] of the three connections, with the events sent. *)
Definition host_set_status (s : HostStatus) (c : HostConnection)
    : HostConnection * list HostConnectionEvent :=
  if bool_decide (hc_status c = s) then (c, [])
  else (c <| hc_status := s |>, [event_of (hc_key c) s]).

Inductive host_error := ProbeQueueTimeout | NoAnswer | ClientBuild | ClientCheck.

(** What a probe meets: whether the bring-up lock was acquired in time, and the outcomes
    of the engine ping, of the checks of a client and of building a client. *)
Record probe_env := mkProbeEnv {
  pe_lock : bool;
  pe_ping : bool;
  pe_alive : Z -> bool;
  pe_build : option Z;
}.

(** [ensure_connected_async] of localhost and SSH connections *)
Definition ensure_engine (pe : probe_env) (c : HostConnection)
    : HostConnection * list HostConnectionEvent * result host_error unit :=
  if negb (pe_lock pe) then (c, [], Err ProbeQueueTimeout)
  else if pe_ping pe then (host_set_status HConnected c, Ok tt)
  else (host_set_status HDisconnected c, Err NoAnswer).

(** [ensure_client_async] of a Kubernetes connection *)
Definition build_client (pe : probe_env) (c : HostConnection) (sent : list HostConnectionEvent)
    : HostConnection * list HostConnectionEvent * result host_error Z :=
  match pe_build pe with
  | None =>
      let '(c, ev) := host_set_status HDisconnected c in (c, sent ++ ev, Err ClientBuild)
  | Some client =>
      if negb (pe_alive pe client) then
        let '(c, ev) := host_set_status HDisconnected c in (c, sent ++ ev, Err ClientCheck)
      else
        let '(c, ev) := host_set_status HConnected (c <| hc_client := Some client |>) in
        (c, sent ++ ev, Ok client)
  end.

Definition ensure_client (pe : probe_env) (c : HostConnection)
    : HostConnection * list HostConnectionEvent * result host_error Z :=
  if negb (pe_lock pe) then (c, [], Err ProbeQueueTimeout)
  else
    match hc_client c with
    | Some client =>
        if pe_alive pe client then (host_set_status HConnected c, Ok client)
        else let '(c, ev) := host_set_status HDisconnected (c <| hc_client := None |>) in
             build_client pe c ev
    | None => build_client pe c []
    end.

(** [HostConnection::ensure_connected_async] *)
Definition ensure_connected (pe : probe_env) (c : HostConnection)
    : HostConnection * list HostConnectionEvent * bool :=
  match hc_key c with
  | KeyLocalhost _ | KeySsh _ _ =>
      let '(c, ev, r) := ensure_engine pe c in (c, ev, is_ok r)
  | KeyKubernetes _ _ =>
      let '(c, ev, r) := ensure_client pe c in (c, ev, is_ok r)
  end.

(** ** Monitors: durations in milliseconds *)

Definition HEALTH_INTERVAL : Z := 15000.
Definition HOST_PROBE_INITIAL_BACKOFF : Z := 1000.
Definition HOST_PROBE_MAX_BACKOFF : Z := 30000.

Definition host_next_delay (jitter : Z -> Z) (delay : Z) : Z * Z :=
  (jitter delay, Z.min (delay * 2) HOST_PROBE_MAX_BACKOFF).

(** One probe of a monitor: the connection, the events, the next backoff and how long the
    monitor waits before the next probe. *)
Definition monitor_wait (jitter : Z -> Z) (connected : bool) (delay : Z) : Z * Z :=
  if connected then (HEALTH_INTERVAL, HOST_PROBE_INITIAL_BACKOFF)
  else host_next_delay jitter delay.

Definition monitor_probe (jitter : Z -> Z) (pe : probe_env) (delay : Z) (c : HostConnection)
    : HostConnection * list HostConnectionEvent * (Z * Z) :=
  let '(c, ev, connected) := ensure_connected pe (c <| hc_probe_requested := false |>) in
  (c, ev, monitor_wait jitter connected delay).

(** The Kubernetes monitor decides its wait before the probe, from the status. *)
Definition k8s_monitor_wait (jitter : Z -> Z) (c : HostConnection) (delay : Z) : Z * Z :=
  monitor_wait jitter (bool_decide (hc_status c = HConnected)) delay.

(** [RUMPELPOD_HOST_PROBE_TIMEOUT_MS] *)
Definition PING_TIMEOUT : Z := 30000.

Definition ping_timeout (var : option str) : Z :=
  match var with
  | Some raw =>
      match parse_uint (Z.to_N u64_max) raw with
      | Some ms => if bool_decide (0 < ms)%N then Z.of_N ms else PING_TIMEOUT
      | None => PING_TIMEOUT
      end
  | None => PING_TIMEOUT
  end.

(** [None]: the panic of [binary_name] on an unresolved engine. *)
Definition ssh_dial_stdio_args (destination : str) (engine : ContainerEngine) : option (list str) :=
  name ← binary_name engine;
  Some [lit "-o"; lit "BatchMode=yes"; destination; name; lit "system"; lit "dial-stdio"].

(** ** The registry *)

Notation HostConnectionRegistry := (gmap HostKey HostConnection) (only parsing).

Section Registry.
Context (which : str -> bool).

Definition host_get_or_create (h : Host) (r : HostConnectionRegistry)
    : HostConnectionRegistry * result resolve_error HostConnection :=
  match resolve_docker_engine which h with
  | Err e => (r, Err e)
  | Ok h =>
      let k := HostKey_from_host h in
      match r !! k with
      | Some conn => (r, Ok conn)
      | None => let conn := HostConnection_new h in (<[k := conn]> r, Ok conn)
      end
  end.

Definition host_get (h : Host) (r : HostConnectionRegistry) : option HostConnection :=
  h ← ok (resolve_docker_engine which h);
  r !! HostKey_from_host h.

Definition host_remove (k : HostKey) (r : HostConnectionRegistry)
    : HostConnectionRegistry * option HostConnection := (delete k r, r !! k).
End Registry.

(** ** Steps of one connection and the events it sent, oldest first *)

Inductive hc_step : HostConnection * list HostConnectionEvent -> HostConnection * list HostConnectionEvent -> Prop :=
| hc_probe pe c evs c' ev b :
    ensure_connected pe c = (c', ev, b) -> hc_step (c, evs) (c', evs ++ ev)
| hc_request c evs : hc_step (c, evs) (request_probe c, evs).

(** What the daemon knows of the host after a sequence of its events. *)
Fixpoint alternating (k : HostKey) (from to : HostStatus) (evs : list HostConnectionEvent) : Prop :=
  match evs with
  | [] => from = to
  | ev :: evs' => exists s, s <> from /\ ev = event_of k s /\ alternating k s to evs'
  end.

Lemma alternating_snoc k from mid s evs :
  alternating k from mid evs -> s <> mid -> alternating k from s (evs ++ [event_of k s]).
Proof.
  revert from. induction evs as [|ev evs IH]; simpl.
  - intros from -> Hs. by exists s.
  - intros from (s' & Hs' & -> & Ha) Hs. exists s'. auto.
Qed.

Lemma alternating_app k from mid to evs evs' :
  alternating k from mid evs -> alternating k mid to evs' -> alternating k from to (evs ++ evs').
Proof.
  revert from. induction evs as [|ev evs IH]; simpl; [by intros from ->|].
  intros from (s' & Hs' & -> & Ha) Hb. exists s'. auto.
Qed.

Lemma host_set_status_alternating s c c' ev :
  host_set_status s c = (c', ev) ->
  alternating (hc_key c) (hc_status c) (hc_status c') ev /\ hc_key c' = hc_key c /\
  hc_status c' = s /\ hc_client c' = hc_client c.
Proof.
  unfold host_set_status. case_bool_decide as H; intros [= <- <-]; [done|].
  split_and!; [|done..]. exists s. by split_and!.
Qed.

(** The status mirrors the cached client. *)
Definition client_mirrors (c : HostConnection) : Prop :=
  match hc_key c with
  | KeyKubernetes _ _ => hc_status c = HConnected <-> is_Some (hc_client c)
  | KeyLocalhost _ | KeySsh _ _ => hc_client c = None
  end.

Lemma build_client_spec pe c sent c' ev r :
  build_client pe c sent = (c', ev, r) -> hc_client c = None ->
  exists ev', ev = sent ++ ev' /\ alternating (hc_key c) (hc_status c) (hc_status c') ev' /\
    hc_key c' = hc_key c /\ (hc_status c' = HConnected <-> is_Some (hc_client c')) /\
    (is_ok r = true <-> hc_status c' = HConnected).
Proof.
  unfold build_client. intros H Hn.
  destruct (pe_build pe) as [client|]; [destruct (pe_alive pe client); simpl in H|];
    destruct (host_set_status _ _) as [d ed] eqn:E; injection H as <- <- <-;
    apply host_set_status_alternating in E as (Ha & Hk & Hs & Hc); rproj; exists ed;
    (split_and!; [done|done|done|rewrite Hs, Hc|rewrite Hs]); simpl; try done;
    rewrite ?Hn; (split; [discriminate || (intros _; by eexists)|intros H; done || by destruct H]).
Qed.

Lemma ensure_client_spec pe c c' ev r :
  ensure_client pe c = (c', ev, r) -> (hc_status c = HConnected <-> is_Some (hc_client c)) ->
  alternating (hc_key c) (hc_status c) (hc_status c') ev /\ hc_key c' = hc_key c /\
  (hc_status c' = HConnected <-> is_Some (hc_client c')) /\
  (is_ok r = true -> hc_status c' = HConnected).
Proof.
  unfold ensure_client. destruct (pe_lock pe); simpl; [|by intros [= <- <- <-]].
  intros H Hm. destruct (hc_client c) as [client|] eqn:Ec.
  - destruct (pe_alive pe client).
    + destruct (host_set_status _ _) as [d ed] eqn:E. injection H as <- <- <-.
      apply host_set_status_alternating in E as (Ha & Hk & Hs & Hc). rewrite Hs, Hc, Ec.
      split_and!; [by rewrite <- Hs|done|naive_solver|done].
    + destruct (host_set_status _ _) as [d ed] eqn:E.
      apply host_set_status_alternating in E as (Ha & Hk & Hs & Hc). rproj.
      apply build_client_spec in H as (ev' & -> & Hb & Hk' & Hm' & Hr); [|done].
      split_and!; [|congruence|done|by intros ?%Hr].
      eapply alternating_app; [exact Ha|]. by rewrite <- Hk.
  - apply build_client_spec in H as (ev' & -> & Hb & Hk' & Hm' & Hr); [|done].
    split_and!; [done|done|done|by intros ?%Hr].
Qed.

Lemma ensure_connected_spec pe c c' ev b :
  ensure_connected pe c = (c', ev, b) -> client_mirrors c ->
  alternating (hc_key c) (hc_status c) (hc_status c') ev /\ hc_key c' = hc_key c /\
  client_mirrors c' /\ (b = true -> hc_status c' = HConnected).
Proof.
  unfold ensure_connected, client_mirrors. intros H Hm. destruct (hc_key c) eqn:Ek.
  3: { destruct (ensure_client pe c) as [[d ed] r] eqn:E. injection H as <- <- <-.
       apply ensure_client_spec in E as (Ha & Hk & Hmi & Hr); [|done]. rewrite <- Ek, Hk, Ek.
       split_and!; [by rewrite <- Ek|done|done|done]. }
  all: destruct (ensure_engine pe c) as [[d ed] r] eqn:E; injection H as <- <- <-;
    unfold ensure_engine in E; destruct (pe_lock pe); simpl in E;
    [|injection E as <- <- <-; by rewrite Ek];
    destruct (pe_ping pe); destruct (host_set_status _ _) as [d' ed'] eqn:Es; injection E as <- <- <-;
    apply host_set_status_alternating in Es as (Ha & Hk & Hs & Hc); rewrite Hk, Ek, Hc;
    split_and!; rewrite <- ?Ek; done.
Qed.

Lemma hc_reach_spec h s :
  rtc hc_step (HostConnection_new h, []) s ->
  hc_key (fst s) = HostKey_from_host h /\
  alternating (HostKey_from_host h) HDisconnected (hc_status (fst s)) (snd s) /\
  client_mirrors (fst s).
Proof.
  revert s. apply rtc_ind_r; [|intros s s' _ Hs IH].
  - simpl. split_and!; [done|done|]. unfold client_mirrors. simpl.
    by destruct h.
  - destruct IH as (Hk & Ha & Hm). destruct Hs as [pe c evs c' ev b Hp|c evs]; simpl in *.
    + apply ensure_connected_spec in Hp as (Hb & Hk' & Hm' & _); [|done].
      split_and!; [congruence| |done]. rewrite Hk in Hb. by eapply alternating_app.
    + done.
Qed.

(** ** Properties *)

(** The daemon's view of a host never goes wrong: over any probes, successful, failed,
    timed out or run against a stale client, the events sent for a host alternate, starting
    with a connection, so each one is a real transition, and the last one agrees with the
    published status; a Kubernetes connection caches a client exactly while it is
    connected. *)
Theorem host_events_alternate h c evs :
  rtc hc_step (HostConnection_new h, []) (c, evs) ->
  hc_key c = HostKey_from_host h /\
  alternating (HostKey_from_host h) HDisconnected (hc_status c) evs /\
  client_mirrors c.
Proof.
  intros H. exact (hc_reach_spec h (c, evs) H).
Qed.

Lemma host_events_alternate_witness :
  let up := mkProbeEnv true true (fun _ => true) None in
  let down := mkProbeEnv true false (fun _ => true) None in
  let c0 := HostConnection_new (Ssh (lit "dev") Docker) in
  let c1 := fst (fst (ensure_connected up c0)) in
  let c2 := fst (fst (ensure_connected down c1)) in
  alternating (KeySsh (lit "dev") Docker) HDisconnected (hc_status c2)
    [EvHostConnected (KeySsh (lit "dev") Docker); EvHostDisconnected (KeySsh (lit "dev") Docker)].
Proof.
  intros up down c0 c1 c2.
  apply (host_events_alternate (Ssh (lit "dev") Docker) c2
    [EvHostConnected (KeySsh (lit "dev") Docker); EvHostDisconnected (KeySsh (lit "dev") Docker)]).
  eapply rtc_l; [exact (hc_probe up c0 [] c1 [EvHostConnected (KeySsh (lit "dev") Docker)] true eq_refl)|].
  eapply rtc_l; [|apply rtc_refl].
  exact (hc_probe down c1 [EvHostConnected (KeySsh (lit "dev") Docker)] c2
    [EvHostDisconnected (KeySsh (lit "dev") Docker)] false eq_refl).
Defined.

Definition key_engine (k : HostKey) : option ContainerEngine :=
  match k with KeyLocalhost e | KeySsh _ e => Some e | KeyKubernetes _ _ => None end.

Definition registry_inv (r : HostConnectionRegistry) : Prop :=
  forall k c, r !! k = Some c -> hc_key c = k /\ key_engine k <> Some Auto.

Lemma key_engine_from_host h : key_engine (HostKey_from_host h) = container_engine h.
Proof. by destruct h. Qed.

(** The registry holds at most one connection per host and none for an unresolved
    engine: [get_or_create] returns the connection [get] finds afterwards, creates it only
    when the key is new and leaves every other connection alone; the engine of what it
    returns has a binary, so building commands for it does not panic. *)
Theorem host_registry_get_or_create which h r r' res :
  registry_inv r -> host_get_or_create which h r = (r', res) ->
  registry_inv r' /\ r ⊆ r' /\
  match res with
  | Ok conn => host_get which h r' = Some conn /\
               (forall e, key_engine (hc_key conn) = Some e -> is_Some (binary_name e))
  | Err _ => r' = r /\ host_get which h r = None
  end.
Proof.
  intros Hinv H. unfold host_get_or_create in H.
  destruct (resolve_docker_engine which h) as [h'|e] eqn:Er.
  2: { injection H as <- <-. unfold host_get. by rewrite Er. }
  assert (Heng : forall e, container_engine h' = Some e -> is_Some (binary_name e))
    by eauto using resolve_docker_engine_engine.
  assert (Hne : key_engine (HostKey_from_host h') <> Some Auto).
  { rewrite key_engine_from_host. intros Ha. by destruct (Heng _ Ha). }
  destruct (r !! HostKey_from_host h') as [conn|] eqn:El; injection H as <- <-.
  - split_and!; [done..| |].
    + unfold host_get. by rewrite Er.
    + intros e He. apply Hinv in El as [Hk _]. rewrite Hk, key_engine_from_host in He. eauto.
  - split_and!.
    + intros k c. destruct (decide (k = HostKey_from_host h')) as [-> |Hk].
      * rewrite lookup_insert_eq. by intros [= <-].
      * rewrite lookup_insert_ne by done. apply Hinv.
    + by apply insert_subseteq.
    + unfold host_get. rewrite Er. simpl. by rewrite lookup_insert_eq.
    + intros e He. simpl in He. rewrite key_engine_from_host in He. eauto.
Qed.

Lemma host_registry_get_or_create_witness :
  let which := fun p : str => bool_decide (p = lit "docker") in
  registry_inv (fst (host_get_or_create which (Localhost Auto) ∅)).
Proof.
  intros which.
  assert (He : registry_inv ∅) by (intros k c H; by rewrite lookup_empty in H).
  exact (proj1 (host_registry_get_or_create which (Localhost Auto) ∅
    (fst (host_get_or_create which (Localhost Auto) ∅))
    (snd (host_get_or_create which (Localhost Auto) ∅)) He (surjective_pairing _))).
Defined.

(** A monitor never spins and never sleeps for long: with the jitter drawn from the
    upper half of the delay it waits at least half a second and at most thirty seconds
    before the next probe, for ever. *)
Theorem monitor_wait_bounds jitter connected delay wait delay' :
  (forall d, 0 <= d -> d <= 2 * jitter d <= 2 * d)%Z ->
  (HOST_PROBE_INITIAL_BACKOFF <= delay <= HOST_PROBE_MAX_BACKOFF)%Z ->
  monitor_wait jitter connected delay = (wait, delay') ->
  (500 <= wait <= 30000)%Z /\ (HOST_PROBE_INITIAL_BACKOFF <= delay' <= HOST_PROBE_MAX_BACKOFF)%Z.
Proof.
  unfold monitor_wait, host_next_delay, HOST_PROBE_INITIAL_BACKOFF, HOST_PROBE_MAX_BACKOFF, HEALTH_INTERVAL.
  intros Hj Hd. destruct connected; intros [= <- <-]; [lia|]. pose proof (Hj delay). lia.
Qed.

Lemma monitor_wait_bounds_witness : (500 <= 2000 <= 30000)%Z.
Proof.
  apply (monitor_wait_bounds (fun d => d) false 2000 2000 4000); [intros d Hd; lia|vm_compute; split; discriminate|reflexivity].
Defined.
