(* ===== verification/Json.v ===== *)
(** * JSON values and the agent states carried by them

    [json] is [serde_json::Value].  The text parser and printer are not part of the
    program; where they matter they are parameters.  The decoders are those [serde]
    derives for the types of pod/types.rs. *)
From S2P Require Import Prelude Strs Hosts PodConn.

Inductive json :=
| JNull
| JBool (b : bool)
| JNumber (n : Z)
| JString (s : str)
| JArray (l : list json)
| JObject (fields : list (str * json)).

(** [Value::get] with a string key. *)
Definition json_get (k : str) (j : json) : option json :=
  match j with
  | JObject fields => snd <$> List.find (fun f => bool_decide (fst f = k)) fields
  | _ => None
  end.

(** A unit variant of an externally tagged enum: its name, or an object whose only field
    is the name with a null value. *)
Definition variant_name (j : json) : option str :=
  match j with
  | JString s => Some s
  | JObject [(s, JNull)] => Some s
  | _ => None
  end.

(** [Option<T>]: null is [None]. *)
Definition decode_option {A} (decode : json -> option A) (j : json) : option (option A) :=
  match j with
  | JNull => Some None
  | _ => Some <$> decode j
  end.

Definition decode_claude (j : json) : option ClaudeState :=
  s ← variant_name j;
  if bool_decide (s = lit "processing") then Some ClaudeProcessing
  else if bool_decide (s = lit "waiting_for_input") then Some WaitingForInput
  else if bool_decide (s = lit "auth_error") then Some AuthError
  else if bool_decide (s = lit "stopped") then Some ClaudeStopped
  else None.

Definition encode_claude (s : ClaudeState) : json :=
  match s with
  | ClaudeProcessing => JString (lit "processing")
  | WaitingForInput => JString (lit "waiting_for_input")
  | AuthError => JString (lit "auth_error")
  | ClaudeStopped => JString (lit "stopped")
  end.

Definition decode_codex (j : json) : option CodexState :=
  s ← variant_name j;
  if bool_decide (s = lit "processing") then Some CodexProcessing
  else if bool_decide (s = lit "idle") then Some Idle
  else if bool_decide (s = lit "error") then Some CodexError
  else None.

Definition encode_codex (s : CodexState) : json :=
  match s with
  | CodexProcessing => JString (lit "processing")
  | Idle => JString (lit "idle")
  | CodexError => JString (lit "error")
  end.

Definition encode_option {A} (encode : A -> json) (o : option A) : json :=
  match o with Some a => encode a | None => JNull end.

Lemma decode_encode_claude o : decode_option decode_claude (encode_option encode_claude o) = Some o.
Proof. by destruct o as [[]|]; vm_compute. Qed.

Lemma decode_encode_codex o : decode_option decode_codex (encode_option encode_codex o) = Some o.
Proof. by destruct o as [[]|]; vm_compute. Qed.

Section Greeting.
Context (from_str : str -> option json).

(** [parse_greeting_state] *)
Definition parse_greeting_state (data_line : str) (v : HttpVersion) : GreetingState :=
  match strip_prefix "data: " (trim data_line) with
  | None => mkGreeting v None None
  | Some json_str =>
      match from_str json_str with
      | None => mkGreeting v None None
      | Some obj =>
          mkGreeting v
            (json_get "claude_state" obj ≫= (fun j => mjoin (decode_option decode_claude j)))
            (json_get "codex_state" obj ≫= (fun j => mjoin (decode_option decode_codex j)))
      end
  end.
End Greeting.
