(* ===== verification/Conns.v ===== *)
(** * Connections (daemon/connections.rs, the registry of daemon/pod_connection.rs)

    What needs a host and a pod: the table of pod connections, the reaction to host
    events, the event loop of a pod and the supervisor of its git tunnel.  The two loops
    run in threads of their own; a loop is a state machine whose state is the point its
    thread has reached, with the local variables, and one step runs to the next point at
    which another thread can intervene.  What a step meets outside the program (the
    liveness of the host, an admission permit, an answer of the pod, a line of its event
    stream) is its environment.  A wait that has not ended leaves the point unchanged. *)
From S2P Require Import Prelude Strs Hosts PodConn Json HostConn.

(** ** The table of pod connections *)

Notation PodConnectionRegistry := (gmap PodConnectionKey PodConnection) (only parsing).

(** [get_or_create_async]; [ssh] is [None] without configured keys, and otherwise the hash
    of the keys and what starting an agent for them gives. *)
Definition pods_get_or_create (k : PodConnectionKey) (h : Host) (tok : str)
    (initial_status : PodConnectionStatus)
    (ssh : option (result str str * result str ManagedSshAgent)) (r : PodConnectionRegistry)
    : PodConnectionRegistry * result str PodConnection :=
  let c := default (PodConnection_new k h tok initial_status None) (r !! k) in
  let c := update_host_and_token h tok c in
  match ssh with
  | Some (keys_hash, started) =>
      let '(c, res) := configure_ssh_agent keys_hash started c in
      (<[k := c]> r, _ ← res; Ok c)
  | None => let c := remove_ssh_agent c in (<[k := c]> r, Ok c)
  end.

Definition pods_remove (k : PodConnectionKey) (r : PodConnectionRegistry)
    : PodConnectionRegistry * option PodConnection :=
  (delete k r, drop_all <$> r !! k).

Definition pods_stop_events (k : PodConnectionKey) (r : PodConnectionRegistry)
    : PodConnectionRegistry := alter stop_events k r.

Definition pods_endpoint (k : PodConnectionKey) (r : PodConnectionRegistry) : option PodEndpoint :=
  c ← r !! k; endpoint c.

Definition pods_claude_state (k : PodConnectionKey) (r : PodConnectionRegistry) : option ClaudeState :=
  c ← r !! k; claude_state c.

Definition pods_codex_state (k : PodConnectionKey) (r : PodConnectionRegistry) : option CodexState :=
  c ← r !! k; codex_state c.

Definition pods_status (k : PodConnectionKey) (r : PodConnectionRegistry) : option PodConnectionStatus :=
  status <$> r !! k.

Definition on_host (hk : HostKey) (f : PodConnection -> PodConnection) (c : PodConnection) : PodConnection :=
  if bool_decide (host_key c = hk) then f c else c.

Definition pods_notify_host_connected (hk : HostKey) (r : PodConnectionRegistry)
    : PodConnectionRegistry := on_host hk notify_host_connected <$> r.

Definition pods_notify_host_disconnected (hk : HostKey) (r : PodConnectionRegistry)
    : PodConnectionRegistry := on_host hk notify_host_disconnected <$> r.

(** ** Admission of repairs *)

Definition POD_REPAIR_CONCURRENCY : nat := 2.

(** Free slots, permits held by attempts, and slots of failed or cancelled attempts that
    are still cooling down. *)
Record PodRepairLimiter := mkLimiter { free : nat; held : nat; cooling : nat }.

Definition limiter_new : PodRepairLimiter := mkLimiter POD_REPAIR_CONCURRENCY 0 0.

Inductive limiter_step : PodRepairLimiter -> PodRepairLimiter -> Prop :=
| lim_acquire f h c : limiter_step (mkLimiter (S f) h c) (mkLimiter f (S h) c)
| lim_connected f h c : limiter_step (mkLimiter f (S h) c) (mkLimiter (S f) h c)
| lim_drop f h c : limiter_step (mkLimiter f (S h) c) (mkLimiter f h (S c))
| lim_cooled f h c : limiter_step (mkLimiter f h (S c)) (mkLimiter (S f) h c).

(** ** Connections *)

Record Connections := mkConnections {
  hosts : gmap HostKey HostConnection;
  pods : gmap PodConnectionKey PodConnection;
}.

Section Methods.
Context (which : str -> bool).

Definition get_or_create_pod (k : PodConnectionKey) (h : Host) (tok : str)
    (ssh : option (result str str * result str ManagedSshAgent)) (cs : Connections)
    : Connections * result str PodConnection :=
  let '(hs, res) := host_get_or_create which h (hosts cs) in
  match res with
  | Err _ => (mkConnections hs (pods cs), Err (lit "resolving the host engine"))
  | Ok host_conn =>
      let initial_status := if is_connected host_conn then PodDisconnected else HostDisconnected in
      let '(ps, r) := pods_get_or_create k h tok initial_status ssh (pods cs) in
      (mkConnections hs ps, r)
  end.

Definition pod_host_is_connected (c : PodConnection) (cs : Connections) : bool :=
  is_some_and is_connected (host_get which (host c) (hosts cs)).

Definition prepare_pod_server_repair (cs : Connections) (c : PodConnection) : PodConnection :=
  let c := remove_pod_server c in
  let c := resume_repair c in
  let s := if pod_host_is_connected c cs then PodDisconnected else HostDisconnected in
  emit_reconnect Attempting (set_status s c).

(** [start_event_loop] gives the stop flag of the loop whose thread it spawns. *)
Definition start_event_loop (e : option Z) (cs : Connections) (c : PodConnection)
    : PodConnection * option nat :=
  match endpoint c with
  | None => (c, None)
  | Some _ =>
      match host_get which (host c) (hosts cs) with
      | None => (c, None)
      | Some _ =>
          match e with
          | Some e => begin_event_loop_at_epoch (Some e) c
          | None => begin_event_loop c
          end
      end
  end.

Definition ensure_event_loop (cs : Connections) (c : PodConnection) : PodConnection * option nat :=
  start_event_loop None cs (request_connection c).

Definition ensure_repaired_event_loop (e : Z) (cs : Connections) (c : PodConnection)
    : PodConnection * option nat := start_event_loop (Some e) cs c.

(** [git_tunnels_needing_repair]: what it does to one pod, and whether it is chosen. *)
Definition needs_repair (cs : Connections) (c : PodConnection) : PodConnection * bool :=
  if pod_host_is_connected c cs then try_schedule_git_tunnel_repair c else (c, false).

Definition git_tunnels_needing_repair (cs : Connections) : Connections * list PodConnectionKey :=
  (mkConnections (hosts cs) ((fun c => fst (needs_repair cs c)) <$> pods cs),
   map fst (List.filter (fun kc => snd (needs_repair cs (snd kc))) (map_to_list (pods cs)))).
End Methods.

(** One event of the host, as [host_event_reader] handles it. *)
Definition host_event (ev : HostConnectionEvent) (cs : Connections) : Connections :=
  match ev with
  | EvHostConnected k => mkConnections (hosts cs) (pods_notify_host_connected k (pods cs))
  | EvHostDisconnected k => mkConnections (hosts cs) (pods_notify_host_disconnected k (pods cs))
  | EvGaveUp k =>
      mkConnections (fst (host_remove k (hosts cs))) (pods_notify_host_disconnected k (pods cs))
  end.

(** ** The event loop of a pod *)

Inductive point :=
| Resume                                         (* wait_for_pod_repair_resume *)
| Probe                                          (* announce the attempt, ask for a probe *)
| WaitHost (was_disconnected : bool)             (* wait_for_host *)
| HostUp (was_disconnected : bool)
| Capture                                        (* connection_epoch = pod_repair_epoch() *)
| Admission (e : Z)                              (* event_request(limiter.acquire()) *)
| Permitted (e : Z)
| ConnectTo (e : Z)                              (* event_request(connect_pod_events()) *)
| Publish (e : Z) (g : GreetingState)
| Finish (e : Z)
| ConnectFailed (e : Z) (err : str)
| Failure                                        (* wait_after_pod_failure *)
| Backoff
| Reading (e : Z) (pending : option str)
| HostLost (e : Z)
| ReadLine (e : Z) (pending : option str)        (* event_request(read_line()) *)
| EndOfStream (e : Z)
| Line (e : Z) (pending : option str) (line : str)
| After (e : Z)
| Returned.

Record thread := mkThread {
  stop_flag : nat;
  backoff : PodRepairBackoff;
  repair_epoch : Z;
  at_point : point;
}.

#[export] Instance thread_updatable : Updatable thread := fun t =>
  mkThread (stop_flag t) (backoff t) (repair_epoch t) (at_point t).

(** What one step of the loop meets. *)
Record loop_env := mkLoopEnv {
  le_host : HostStatus;                          (* host.status() *)
  le_watch : HostStatus;                         (* the watch value of the host *)
  le_permit : bool;
  le_connect : option (result str GreetingState);
  le_line : option (result str str);             (* the empty line is the end of the stream *)
  le_sustained : bool;                           (* connected for thirty seconds *)
  le_jitter : Z -> Z;
}.

Definition goto (p : point) (t : thread) : thread := t <| at_point := p |>.

Definition stop_set (t : thread) (c : PodConnection) : bool := default true (loops c !! stop_flag t).

Section Loop.
Context (from_str : str -> option json).

(** One line of the event stream. *)
Definition event_line (e : Z) (pending : option str) (line : str) (c : PodConnection)
    : PodConnection * option str :=
  let trimmed := trim line in
  match strip_prefix "event: " trimmed with
  | Some event_type => (c, Some event_type)
  | None =>
      match strip_prefix "data: " trimmed with
      | Some data =>
          let c :=
            match pending with
            | Some ev =>
                if bool_decide (ev = lit "claude_state") then
                  match from_str data ≫= decode_option decode_claude with
                  | Some cs => set_claude_state_at_epoch cs e c
                  | None => c
                  end
                else if bool_decide (ev = lit "codex_state") then
                  match from_str data ≫= decode_option decode_codex with
                  | Some xs => set_codex_state_at_epoch xs e c
                  | None => c
                  end
                else c
            | None => c
            end in
          (c, None)
      | None => if bool_decide (trimmed = []) then (c, None) else (c, pending)
      end
  end.

(** [wait_for_pod_repair_resume]: a wait that ends with the loop still unwanted waits
    again, at the epoch it woke up in. *)
Definition wait_for_pod_repair_resume (t : thread) (c : PodConnection) : thread * PodConnection :=
  if is_paused c || negb (wants_reconnect c) then
    if stop_set t c then (goto Returned t, c)
    else (t <| repair_epoch := pod_repair_epoch c |>, c)
  else if stop_set t c then (goto Returned t, c)
  else (goto Probe t, c).

Definition wait_for_host (env : loop_env) (was : bool) (t : thread) (c : PodConnection)
    : thread * PodConnection :=
  if stop_set t c then (goto Returned t, c)
  else if bool_decide (le_watch env = HConnected) then (goto (HostUp was) t, c)
  else (t, set_status HostDisconnected c).

(** [wait_after_pod_failure]: until the wait, and after it. *)
Definition wait_after_pod_failure (env : loop_env) (t : thread) (c : PodConnection)
    : thread * PodConnection :=
  let '(d, b) := next_delay (le_jitter env) (backoff t) in
  let t := t <| backoff := b |> in
  match d with
  | None => (goto Resume t, pause_pod_repair c)
  | Some _ => (goto Backoff t, c)
  end.

Definition wait_ended (c : PodConnection) (t : thread) : thread :=
  let next := pod_repair_epoch c in
  if negb (bool_decide (next = repair_epoch t))
  then t <| repair_epoch := next |> <| backoff ::= backoff_reset |>
  else t.

Definition loop_step (env : loop_env) (t : thread) (c : PodConnection) : thread * PodConnection :=
  match at_point t with
  | Resume => wait_for_pod_repair_resume t c
  | Probe =>
      (goto (WaitHost (bool_decide (le_host env = HDisconnected))) t, emit_reconnect Attempting c)
  | WaitHost was => wait_for_host env was t c
  | HostUp was =>
      let t := if was then t <| backoff ::= backoff_reset |> <| repair_epoch := pod_repair_epoch c |>
               else t in
      (goto Capture t, emit_reconnect HostConnected (set_status Connecting c))
  | Capture => (goto (Admission (pod_repair_epoch c)) t, c)
  | Admission e =>
      if negb (event_request_admitted (stop_flag t) e c) then (goto Resume t, c)
      else if le_permit env then (goto (Permitted e) t, c)
      else (t, c)
  | Permitted e =>
      if negb (bool_decide (le_host env = HConnected)) || negb (wants_reconnect c)
      then (goto Resume t, c)
      else (goto (ConnectTo e) t, c)
  | ConnectTo e =>
      if negb (event_request_admitted (stop_flag t) e c) then (goto Resume t, c)
      else
        match le_connect env with
        | None => (t, c)
        | Some (Ok g) => (goto (Publish e g) t, c)
        | Some (Err err) => (goto (ConnectFailed e err) t, c)
        end
  | Publish e g =>
      let '(c, current) := apply_greeting_at_epoch g e c in
      if negb current then (goto Resume t, c) else (goto (Finish e) t, c)
  | Finish e => (goto (Reading e None) t, finish_connection_request c)
  | ConnectFailed e err =>
      (goto Failure t, emit_reconnect (Failed err) (mark_event_disconnected e c))
  | Failure => wait_after_pod_failure env t c
  | Backoff => (goto Resume (wait_ended c t), c)
  | Reading e pending =>
      if stop_set t c then (goto Returned t, c)
      else if bool_decide (le_host env = HDisconnected) then (goto (HostLost e) t, c)
      else (goto (ReadLine e pending) t, c)
  | HostLost e => (goto (After e) t, emit_reconnect Attempting (set_status HostDisconnected c))
  | ReadLine e pending =>
      if negb (event_request_admitted (stop_flag t) e c) then (goto (After e) t, c)
      else
        match le_line env with
        | None => (t, c)
        | Some (Ok []) | Some (Err _) => (goto (EndOfStream e) t, c)
        | Some (Ok line) => (goto (Line e pending line) t, c)
        end
  | EndOfStream e => (goto (After e) t, mark_event_disconnected e c)
  | Line e pending line =>
      let '(c, pending) := event_line e pending line c in (goto (Reading e pending) t, c)
  | After e =>
      if bool_decide (le_host env = HConnected) && bool_decide (pod_repair_epoch c = e) then
        (goto Failure (if le_sustained env then t <| backoff ::= backoff_reset |> else t), c)
      else (goto Resume t, c)
  | Returned => (t, c)
  end.

Fixpoint loop_run (envs : list loop_env) (t : thread) (c : PodConnection) : thread * PodConnection :=
  match envs with
  | [] => (t, c)
  | env :: envs' => let '(t, c) := loop_step env t c in loop_run envs' t c
  end.
End Loop.

(** The thread [start_event_loop] spawns. *)
Definition run_pod_event_loop (stop : nat) (c : PodConnection) : thread :=
  mkThread stop backoff_new (pod_repair_epoch c) Resume.

(** ** The supervisor of a git tunnel *)

Inductive sup_point :=
| SCheck | SAdmission | SAdmitted | SAttempt | SFailed | SWait | SFinish | SDone.

#[export] Instance sup_point_eq_dec : EqDecision sup_point.
Proof. solve_decision. Defined.

Record supervisor := mkSupervisor {
  s_host_key : HostKey;
  s_backoff : PodRepairBackoff;
  s_epoch : Z;
  s_point : sup_point;
}.

#[export] Instance supervisor_updatable : Updatable supervisor := fun s =>
  mkSupervisor (s_host_key s) (s_backoff s) (s_epoch s) (s_point s).

Record sup_env := mkSupEnv {
  se_connected : bool;                           (* host.is_connected() *)
  se_permit : bool;
  se_result : option bool;                       (* the attempt's outcome, once it ended *)
  se_slept : bool;
  se_jitter : Z -> Z;
}.

Definition sup_goto (p : sup_point) (s : supervisor) : supervisor := s <| s_point := p |>.

Definition sup_observe (c : PodConnection) (s : supervisor) : supervisor :=
  s <| s_epoch := pod_repair_epoch c |> <| s_backoff ::= backoff_reset |>.

Definition sup_step (env : sup_env) (s : supervisor) (c : PodConnection) : supervisor * PodConnection :=
  match s_point s with
  | SCheck =>
      if negb (supervise_git_tunnel (resources c)) || is_paused c || negb (wants_reconnect c)
         || (git_tunnel_is_alive c && has_alive_pod_server c && has_event_loop c)
         || negb (se_connected env)
         || negb (bool_decide (HostKey_from_host (host c) = s_host_key s))
      then (sup_goto SFinish s, c)
      else (sup_goto SAdmission s, c)
  | SAdmission =>
      if negb (bool_decide (pod_repair_epoch c = s_epoch s))
      then (sup_goto SCheck (sup_observe c s), c)
      else if se_permit env then (sup_goto SAdmitted s, c)
      else (s, c)
  | SAdmitted =>
      if negb (se_connected env) || negb (wants_reconnect c)
         || negb (bool_decide (HostKey_from_host (host c) = s_host_key s))
      then (sup_goto SFinish s, c)
      else (sup_goto SAttempt s, c)
  | SAttempt =>
      match se_result env with
      | None => (s, c)
      | Some true => (sup_goto SFinish s, c)
      | Some false => (sup_goto SFailed s, c)
      end
  | SFailed =>
      let '(d, b) := next_delay (se_jitter env) (s_backoff s) in
      let s := s <| s_backoff := b |> in
      match d with
      | None => (sup_goto SFinish s, pause_pod_repair c)
      | Some _ => (sup_goto SWait s, c)
      end
  | SWait =>
      if negb (bool_decide (pod_repair_epoch c = s_epoch s))
      then (sup_goto SCheck (sup_observe c s), c)
      else if se_slept env then (sup_goto SCheck s, c)
      else (s, c)
  | SFinish => (sup_goto SDone s, finish_git_tunnel_repair c)
  | SDone => (s, c)
  end.

(** The task [start_git_supervisor] spawns for a scheduled pod. *)
Definition supervise_git_tunnel_task (hk : HostKey) (c : PodConnection) : supervisor :=
  mkSupervisor hk backoff_new (pod_repair_epoch c) SCheck.

(** ** Lemmas on the loop *)

(** What clients see of the agents, and what the connection holds. *)
Definition agent_view (c : PodConnection) :=
  (claude_state c, codex_state c, last_agent_processing c, resources c, event_loop c, loops c).

Lemma view_send o c : agent_view (send o c) = agent_view c.
Proof. done. Qed.

Lemma view_emit ev c : agent_view (emit_reconnect ev c) = agent_view c.
Proof. done. Qed.

Lemma view_pause c : agent_view (pause_pod_repair c) = agent_view c.
Proof. done. Qed.

Lemma view_set_status s c : agent_view (set_status s c) = agent_view c.
Proof. unfold set_status. by case_bool_decide. Qed.

Lemma view_finish_request c : agent_view (finish_connection_request c) = agent_view c.
Proof. unfold finish_connection_request. by repeat case_match. Qed.

(** The epoch a point will publish with, if any. *)
Definition captured (p : point) : option Z :=
  match p with
  | Publish e _ | ConnectFailed e _ | EndOfStream e | Line e _ _ => Some e
  | _ => None
  end.

(** The loop was told to stop, and what it captured before is stale. *)
Definition cancelled (t : thread) (c : PodConnection) : Prop :=
  loops c !! stop_flag t = Some true /\
  match captured (at_point t) with Some e => pod_repair_epoch c <> e | None => True end.

Definition loop_measure (p : point) : nat :=
  match p with
  | Returned => 0
  | Resume | WaitHost _ | Reading _ _ => 1
  | Probe | Admission _ | ConnectTo _ | Publish _ _ | Finish _ | Backoff | Line _ _ _ => 2
  | Capture | Permitted _ | Failure => 3
  | HostUp _ | ConnectFailed _ _ | After _ => 4
  | HostLost _ | ReadLine _ _ | EndOfStream _ => 5
  end.

Lemma stop_set_true t c : loops c !! stop_flag t = Some true -> stop_set t c = true.
Proof. intros H. unfold stop_set. by rewrite H. Qed.

Lemma not_admitted t e c :
  loops c !! stop_flag t = Some true -> event_request_admitted (stop_flag t) e c = false.
Proof. intros H. unfold event_request_admitted. by rewrite H. Qed.

Lemma event_line_stale from_str e pending line c :
  pod_repair_epoch c <> e -> fst (event_line from_str e pending line c) = c.
Proof.
  intros He. pose proof (stale_epoch_noop e c He) as Hs. unfold event_line.
  repeat case_match; try done; cbn [fst]; [apply (stale_claude _ _ Hs)|apply (stale_codex _ _ Hs)].
Qed.

(** Where a step of a cancelled loop goes; the pod it leaves shows the same view. *)
Lemma cancelled_step from_str env t c t' c' :
  cancelled t c -> loop_step from_str env t c = (t', c') ->
  stop_flag t' = stop_flag t /\ agent_view c' = agent_view c /\ captured (at_point t') = None /\
  (loop_measure (at_point t') < loop_measure (at_point t) \/ at_point t = Returned /\ t' = t).
Proof.
  intros [Hl Hc] H.
  unfold loop_step, wait_for_pod_repair_resume, wait_for_host, wait_after_pod_failure, wait_ended in H.
  rewrite (stop_set_true t c Hl) in H.
  destruct (at_point t) eqn:Ep; simpl in Hc;
    rewrite ?(not_admitted t _ c Hl) in H; cbn [negb] in H;
    try (pose proof (stale_epoch_noop _ c Hc) as Hs).
  all: try (rewrite (stale_greeting _ _ Hs) in H; cbn [negb] in H).
  all: try (rewrite (stale_disconnected _ _ Hs) in H).
  all: try (pose proof (event_line_stale from_str e pending line c Hc) as Hev;
            destruct (event_line from_str e pending line c) as [c1 p1]; simpl in Hev; subst c1).
  all: try (unfold next_delay in H; case_bool_decide).
  all: repeat case_match; simplify_eq; cbn -[agent_view];
    rewrite ?Ep; (split; [done|]);
    (split; [rewrite ?view_finish_request, ?view_emit, ?view_set_status, ?view_pause; done|]);
    (split; [done|]); simpl; auto with lia.
Qed.

Lemma cancelled_next from_str env t c t' c' :
  cancelled t c -> loop_step from_str env t c = (t', c') -> cancelled t' c'.
Proof.
  intros Hc H. destruct (cancelled_step _ _ _ _ _ _ Hc H) as (Hs & Hv & Hcap & _).
  destruct Hc as [Hl _]. split; [|by rewrite Hcap]. rewrite Hs.
  unfold agent_view in Hv. congruence.
Qed.

Lemma cancelled_run from_str envs t c t' c' :
  cancelled t c -> loop_run from_str envs t c = (t', c') ->
  agent_view c' = agent_view c /\
  (loop_measure (at_point t) <= length envs -> at_point t' = Returned).
Proof.
  revert t c. induction envs as [|env envs IH]; intros t c Hc H; simpl in H.
  { injection H as <- <-. split; [done|]. simpl. intros Hm.
    destruct (at_point t); simpl in Hm; done || lia. }
  destruct (loop_step from_str env t c) as [t1 c1] eqn:E.
  destruct (cancelled_step _ _ _ _ _ _ Hc E) as (_ & Hv & _ & Hm).
  apply IH in H as [Hv' Hr]; [|by eapply cancelled_next]. split; [congruence|].
  intros Hlen. simpl in Hlen. apply Hr. destruct Hm as [Hm|[Hp ->]]; [lia|].
  rewrite Hp. simpl. lia.
Qed.

Lemma demand_frame c c' :
  connection_requested c' = connection_requested c -> receivers c' = receivers c ->
  last_agent_processing c' = last_agent_processing c -> wants_reconnect c' = wants_reconnect c.
Proof. unfold wants_reconnect, agent_is_processing. by intros -> -> ->. Qed.

Lemma announce_frame ev s c :
  let c' := emit_reconnect ev (set_status s c) in
  loops c' = loops c /\ is_paused c' = is_paused c /\ wants_reconnect c' = wants_reconnect c /\
  pod_repair_epoch c' = pod_repair_epoch c.
Proof.
  intros c'. unfold c', set_status. case_bool_decide; (split_and!; [done|done|by apply demand_frame|done]).
Qed.

(** The environment in which everything answers. *)
Definition healthy (g : GreetingState) : loop_env :=
  mkLoopEnv HConnected HConnected true (Some (Ok g)) None false (fun d => d).

Lemma loop_run_app from_str envs1 envs2 t c :
  loop_run from_str (envs1 ++ envs2) t c =
  let '(t, c) := loop_run from_str envs1 t c in loop_run from_str envs2 t c.
Proof.
  revert t c. induction envs1 as [|env envs1 IH]; intros t c; [done|]. simpl.
  by destruct (loop_step from_str env t c).
Qed.

Lemma step_resume_to_probe from_str env i b e c :
  loops c !! i = Some false -> is_paused c = false -> wants_reconnect c = true ->
  loop_step from_str env (mkThread i b e Resume) c = (mkThread i b e Probe, c).
Proof. intros Hl Hp Hw. unfold loop_step, wait_for_pod_repair_resume, stop_set. cbn [at_point stop_flag]. by rewrite Hp, Hw, Hl. Qed.

Lemma step_wait_host from_str g i b e was c :
  loops c !! i = Some false ->
  loop_step from_str (healthy g) (mkThread i b e (WaitHost was)) c = (mkThread i b e (HostUp was), c).
Proof. intros Hl. unfold loop_step, wait_for_host, stop_set. cbn [at_point stop_flag]. by rewrite Hl. Qed.

Lemma steps_admission from_str g i b e c :
  loops c !! i = Some false -> wants_reconnect c = true ->
  loop_run from_str (replicate 4 (healthy g)) (mkThread i b e Capture) c =
  (mkThread i b e (Publish (pod_repair_epoch c) g), c).
Proof.
  intros Hl Hw.
  assert (Ha : event_request_admitted i (pod_repair_epoch c) c = true).
  { unfold event_request_admitted. by rewrite Hl, bool_decide_eq_true_2. }
  assert (S1 : loop_step from_str (healthy g) (mkThread i b e (Admission (pod_repair_epoch c))) c =
               (mkThread i b e (Permitted (pod_repair_epoch c)), c))
    by (unfold loop_step; cbn [at_point stop_flag]; by rewrite Ha).
  assert (S2 : loop_step from_str (healthy g) (mkThread i b e (Permitted (pod_repair_epoch c))) c =
               (mkThread i b e (ConnectTo (pod_repair_epoch c)), c))
    by (unfold loop_step; cbn [at_point stop_flag]; by rewrite Hw).
  assert (S3 : loop_step from_str (healthy g) (mkThread i b e (ConnectTo (pod_repair_epoch c))) c =
               (mkThread i b e (Publish (pod_repair_epoch c) g), c))
    by (unfold loop_step; cbn [at_point stop_flag]; by rewrite Ha).
  cbn [replicate loop_run]. unfold loop_step at 1. cbn [at_point]. cbn -[loop_step].
  change (goto (Admission (pod_repair_epoch c)) (mkThread i b e Capture))
    with (mkThread i b e (Admission (pod_repair_epoch c))).
  by rewrite S1, S2, S3.
Qed.

Lemma loop_reaches_publish from_str g i c :
  loops c !! i = Some false -> is_paused c = false -> wants_reconnect c = true ->
  loop_run from_str (replicate 10 (healthy g)) (run_pod_event_loop i c) c =
  loop_run from_str (replicate 2 (healthy g))
    (mkThread i backoff_new (pod_repair_epoch c) (Publish (pod_repair_epoch c) g))
    (emit_reconnect HostConnected (set_status Connecting (emit_reconnect Attempting c))).
Proof.
  intros Hl Hp Hw. unfold run_pod_event_loop.
  set (c1 := emit_reconnect HostConnected (set_status Connecting (emit_reconnect Attempting c))).
  destruct (announce_frame HostConnected Connecting (emit_reconnect Attempting c)) as (Fl & Fp & Fw & Fe).
  change (replicate 10 (healthy g)) with ([healthy g; healthy g; healthy g; healthy g]
    ++ replicate 4 (healthy g) ++ replicate 2 (healthy g)).
  rewrite loop_run_app.
  assert (H4 : loop_run from_str [healthy g; healthy g; healthy g; healthy g]
    (mkThread i backoff_new (pod_repair_epoch c) Resume) c =
    (mkThread i backoff_new (pod_repair_epoch c) Capture, c1)).
  { cbn [loop_run]. rewrite step_resume_to_probe by done.
    change (loop_step from_str (healthy g) (mkThread i backoff_new (pod_repair_epoch c) Probe) c)
      with (mkThread i backoff_new (pod_repair_epoch c) (WaitHost false), emit_reconnect Attempting c).
    cbv iota beta. by rewrite step_wait_host. }
  rewrite H4, loop_run_app. rewrite steps_admission; unfold c1.
  - rewrite Fe. done.
  - by rewrite Fl.
  - rewrite Fw. by rewrite <- Hw; apply demand_frame.
Qed.

Lemma update_current f c :
  exists c', update_agent_activity (Some (pod_repair_epoch c)) f c = (c', true) /\
    status c' = status (f c) /\ claude_state c' = claude_state (f c) /\
    codex_state c' = codex_state (f c) /\ event_http_version c' = event_http_version (f c) /\
    last_agent_processing c' = processing_now (f c) /\ pod_repair_epoch c' = pod_repair_epoch (f c) /\
    resources c' = resources (f c).
Proof.
  unfold update_agent_activity. cbn [is_some_and]. rewrite bool_decide_eq_true_2 by done. cbn [negb].
  generalize (f c). intros d. case_match; eexists; (split; [reflexivity|]); by split_and!.
Qed.

Lemma greeting_current g c :
  exists c', apply_greeting_at_epoch g (pod_repair_epoch c) c = (c', true) /\
    status c' = Connected /\ claude_state c' = claude g /\ codex_state c' = codex g /\
    event_http_version c' = Some (http_version g) /\
    last_agent_processing c' = claude_is_processing (claude g) || codex_is_processing (codex g) /\
    pod_repair_epoch c' = pod_repair_epoch c.
Proof.
  unfold apply_greeting_at_epoch.
  match goal with |- context [update_agent_activity _ ?f c] =>
    destruct (update_current f c) as (c' & -> & H1 & H2 & H3 & H4 & H5 & H6 & _) end.
  exists c'. rewrite H1, H2, H3, H4, H5, H6. unfold set_status.
  case_bool_decide as Hst; by split_and!.
Qed.

Lemma finish_request_frame c :
  let c' := finish_connection_request c in
  pod_repair_epoch c' = pod_repair_epoch c /\ status c' = status c /\ claude_state c' = claude_state c /\
  codex_state c' = codex_state c /\ event_http_version c' = event_http_version c /\
  last_agent_processing c' = last_agent_processing c.
Proof. intros c'. unfold c', finish_connection_request. by repeat case_match. Qed.

Lemma stop_events_flag c :
  pc_inv c -> match event_loop c with
              | Some i => loops (stop_events c) !! i = Some true
              | None => True
              end.
Proof.
  intros Hc. destruct (event_loop c) as [i|] eqn:E; [|done].
  assert (Hi : is_Some (loops (stop_event_loop c) !! i)).
  { unfold stop_event_loop. rewrite E.
    assert (loops c !! i = Some false) as Hli by (by apply (inv_loops _ Hc)).
    change (is_Some (set_stop i (loops c) !! i)). unfold set_stop.
    rewrite list_lookup_insert_eq; [by eexists|]. by eapply lookup_lt_Some. }
  destruct Hi as [b Hb]. pose proof (loops_stop c i b Hb Hc) as ->.
  pose proof (update_activity_frame None clear_states (stop_event_loop c) ltac:(done)) as (_ & Hl & _).
  unfold stop_events. rewrite <- Hb, <- Hl.
  generalize (fst (update_agent_activity None clear_states (stop_event_loop c))). intros d.
  destruct (set_status_frame Stopped (set_connection_requested false d)) as (_ & _ & Hs & _).
  change (loops (set_status Stopped (set_connection_requested false d)) !! i = loops d !! i).
  by rewrite Hs.
Qed.

(** Past [Capture], a cancelled loop sets no status. *)
Lemma capture_keeps_status from_str envs t c t' c' :
  cancelled t c -> at_point t = Capture -> loop_run from_str envs t c = (t', c') -> status c' = status c.
Proof.
  intros Hc Hp.
  assert (Hgen : forall envs t c, cancelled t c ->
    match at_point t with Capture | Admission _ | Resume | Returned => True | _ => False end ->
    loop_run from_str envs t c = (t', c') -> status c' = status c).
  { clear envs t c Hc Hp. induction envs as [|env envs IH]; intros t c Hc Hp H; cbn [loop_run] in H.
    { by injection H as <- <-. }
    destruct (loop_step from_str env t c) as [t1 c1] eqn:E.
    assert (Hc1 : cancelled t1 c1) by (by eapply cancelled_next).
    assert (Hs : c1 = c /\ match at_point t1 with Capture | Admission _ | Resume | Returned => True | _ => False end).
    { clear H IH. destruct Hc as [Hl _]. unfold loop_step, wait_for_pod_repair_resume in E. rewrite (stop_set_true _ _ Hl) in E.
      destruct (at_point t) eqn:Ep; try done; rewrite ?(not_admitted t _ c Hl) in E; cbn [negb] in E;
        repeat case_match; simplify_eq; rewrite ?Ep; try done; simpl in *; by rewrite ?Ep in *. }
    destruct Hs as [-> Hp1]. eapply IH; eauto. }
  apply Hgen; [done|by rewrite Hp].
Qed.

Lemma update_host_detaches h tok c :
  host_key c <> HostKey_from_host h ->
  host_key (remove_ssh_agent (update_host_and_token h tok c)) = HostKey_from_host h /\
  event_loop (remove_ssh_agent (update_host_and_token h tok c)) = None.
Proof.
  intros Hne. unfold update_host_and_token. rewrite bool_decide_eq_true_2 by done.
  set (d := c <| host := h |> <| host_key := HostKey_from_host h |>).
  assert (Hd : host_key d = HostKey_from_host h) by done. clearbody d.
  pose proof (stop_event_loop_none d) as Hl.
  assert (Hs : host_key (stop_event_loop d) = host_key d)
    by (unfold stop_event_loop; by destruct (event_loop d)).
  revert Hl Hs. generalize (stop_event_loop d). intros d' Hl Hs.
  change (host_key d' = HostKey_from_host h /\ event_loop d' = None). by rewrite Hs.
Qed.

(** ** Properties *)

(** [C12] An event loop that was told to stop, with what it captured before invalidated, is
    harmless and short-lived: whatever its environment does, it returns within five steps,
    and neither the agent states nor the transports nor the registered loop change on the
    way. *)
Theorem stopped_loop_returns from_str envs t c :
  cancelled t c -> 5 <= length envs ->
  let '(t', c') := loop_run from_str envs t c in
  at_point t' = Returned /\ agent_view c' = agent_view c.
Proof.
  intros Hc Hlen. destruct (loop_run from_str envs t c) as [t' c'] eqn:E.
  apply cancelled_run in E as [Hv Hr]; [|done]. split; [|done]. apply Hr.
  etransitivity; [|exact Hlen]. destruct (at_point t); simpl; lia.
Qed.

(** [C34] A loop that is wanted connects when its host, its admission and its pod answer: in
    ten steps it is reading events at the current epoch, and the connection is [Connected]
    with exactly the agent states and the HTTP version of the greeting. *)
Theorem event_loop_connects from_str g i c :
  loops c !! i = Some false -> is_paused c = false -> wants_reconnect c = true ->
  let '(t', c') := loop_run from_str (replicate 10 (healthy g)) (run_pod_event_loop i c) c in
  at_point t' = Reading (pod_repair_epoch c) None /\ pod_repair_epoch c' = pod_repair_epoch c /\
  status c' = Connected /\ claude_state c' = claude g /\ codex_state c' = codex g /\
  event_http_version c' = Some (http_version g) /\
  last_agent_processing c' = claude_is_processing (claude g) || codex_is_processing (codex g).
Proof.
  intros Hl Hp Hw. rewrite (loop_reaches_publish from_str g i c Hl Hp Hw).
  set (c1 := emit_reconnect HostConnected (set_status Connecting (emit_reconnect Attempting c))).
  assert (He : pod_repair_epoch c1 = pod_repair_epoch c).
  { unfold c1, emit_reconnect. by rewrite epoch_send, epoch_set_status. }
  clearbody c1. rewrite <- He. cbn [replicate loop_run].
  destruct (greeting_current g c1) as (c2 & Hg & Hst & Hcl & Hcx & Hv & Hla & Hep).
  assert (S1 : forall t, loop_step from_str (healthy g) (goto (Publish (pod_repair_epoch c1) g) t) c1 =
                         (goto (Finish (pod_repair_epoch c1)) t, c2)).
  { intros t. unfold loop_step, goto. rproj. cbv iota. by rewrite Hg. }
  change (mkThread i backoff_new (pod_repair_epoch c1) (Publish (pod_repair_epoch c1) g))
    with (goto (Publish (pod_repair_epoch c1) g) (mkThread i backoff_new (pod_repair_epoch c1) Resume)).
  rewrite S1. unfold loop_step, goto. rproj. cbv iota.
  destruct (finish_request_frame c2) as (F1 & F2 & F3 & F4 & F5 & F6).
  rewrite F1, F2, F3, F4, F5, F6. by split_and!.
Qed.

(** The status of a stopped pod can be overwritten by its own event loop: when
    [stop_events] runs after the loop saw its host up and before it sets [Connecting], the
    loop still sets it and then returns, and the pod, with no loop left, shows
    [Connecting] instead of [Stopped]. *)
Theorem stop_race_overwrites_status from_str envs t was c :
  pc_reachable c -> event_loop c = Some (stop_flag t) -> at_point t = HostUp was -> length envs = 4 ->
  let '(t', c') := loop_run from_str envs t (stop_events c) in
  at_point t' = Returned /\ event_loop c' = None /\ status c' = Connecting.
Proof.
  intros Hc%pc_reachable_inv Hev Hp Hlen.
  destruct (stop_events_stopped c Hc) as [Hst _]. pose proof (stop_events_flag c Hc) as Hf.
  rewrite Hev in Hf. revert Hst Hf. generalize (stop_events c). intros d Hd Hf.
  assert (Hcan : cancelled t d) by (split; [done|by rewrite Hp]).
  destruct (loop_run from_str envs t d) as [t' c'] eqn:E.
  pose proof (cancelled_run _ _ _ _ _ _ Hcan E) as [Hv Hr].
  destruct envs as [|e1 envs]; [done|]. cbn [loop_run] in E.
  destruct (loop_step from_str e1 t d) as [t1 d1] eqn:E1.
  assert (Hd1 : status d1 = Connecting /\ at_point t1 = Capture).
  { unfold loop_step in E1. rewrite Hp in E1. injection E1 as <- <-. split; [|done].
    destruct (set_status_frame Connecting d) as [Hs _]. exact Hs. }
  destruct Hd1 as [Hs1 Hp1].
  assert (Hcan1 : cancelled t1 d1) by (by eapply cancelled_next).
  pose proof (capture_keeps_status _ _ _ _ _ _ Hcan1 Hp1 E) as Hs'.
  split_and!; [apply Hr; rewrite Hp, Hlen; simpl; lia| |congruence].
  transitivity (event_loop d); [|apply Hd]. unfold agent_view in Hv. congruence.
Qed.

(** A host transition reaches exactly the pods of that host: every other pod is left as
    it was, and a pod of the host that was not stopped loses its tunnel and invalidates
    what its loops and repairs observed. *)
Theorem host_event_isolation hk cs k c :
  pods cs !! k = Some c ->
  match pods (host_event (EvHostDisconnected hk) cs) !! k with
  | Some c' =>
      if bool_decide (host_key c = hk) && negb (bool_decide (status c = Stopped))
      then status c' = HostDisconnected /\
           pod_repair_epoch c' = next_epoch (pod_repair_epoch c) /\
           (supervise_git_tunnel (resources c) = true -> git_tunnel (resources c') = None)
      else c' = c
  | None => False
  end /\
  hosts (host_event (EvHostDisconnected hk) cs) = hosts cs.
Proof.
  intros Hk. split; [|done]. simpl. unfold pods_notify_host_disconnected.
  rewrite lookup_fmap, Hk. simpl. unfold on_host.
  case_bool_decide; simpl; [|done]. unfold notify_host_disconnected.
  case_bool_decide; simpl; [done|]. unfold emit_reconnect. rewrite epoch_send, epoch_cleanup, epoch_host_signal.
  split_and!; [|done|].
  - transitivity (status (host_disconnect_signal c)).
    + generalize (host_disconnect_signal c). intros d. unfold host_disconnect_cleanup. by repeat case_match.
    + apply set_status_frame.
  - intros Hs. apply (cleanup_tunnel (host_disconnect_signal c)).
    unfold host_disconnect_signal.
    destruct (set_status_frame HostDisconnected (c <| repair_state ::= signal |>)) as (_ & _ & _ & Hr & _).
    by rewrite Hr.
Qed.

(** A pod stored by a version without engines keeps [Auto] in its host.  Looking its
    connection up with that host, instead of the resolved one the connection was made
    with, detaches it: its event loop is stopped, and the events the host connection sends
    carry the resolved key and no longer reach it. *)
Theorem unresolved_host_detaches_pod k c tok cs s e :
  pc_reachable c -> host_key c = KeyLocalhost e -> e <> Auto -> pods cs !! k = Some c ->
  let '(ps, _) := pods_get_or_create k (Localhost Auto) tok s None (pods cs) in
  let cs' := mkConnections (hosts cs) ps in
  exists c', ps !! k = Some c' /\ event_loop c' = None /\
    pods (host_event (EvHostConnected (KeyLocalhost e)) cs') !! k = Some c' /\
    pods (host_event (EvHostDisconnected (KeyLocalhost e)) cs') !! k = Some c'.
Proof.
  intros Hc Hk He Hp. unfold pods_get_or_create. rewrite Hp. cbn [default from_option id].
  set (c1 := remove_ssh_agent (update_host_and_token (Localhost Auto) tok c)).
  assert (H1 : host_key c1 = KeyLocalhost Auto /\ event_loop c1 = None).
  { unfold c1. apply (update_host_detaches (Localhost Auto)). rewrite Hk. simpl. congruence. }
  clearbody c1. destruct H1 as [Hk1 Hl1]. exists c1.
  cbn [host_event pods]. unfold pods_notify_host_connected, pods_notify_host_disconnected.
  rewrite !lookup_fmap, !lookup_insert_eq. simpl. unfold on_host. rewrite Hk1.
  rewrite bool_decide_eq_false_2 by congruence. done.
Qed.

Fixpoint sup_run (env : sup_env) (n : nat) (s : supervisor) (c : PodConnection) : supervisor * PodConnection :=
  match n with
  | O => (s, c)
  | S n' => let '(s, c) := sup_step env s c in sup_run env n' s c
  end.

(** A connected host whose repairs fail. *)
Definition failing (jitter : Z -> Z) : sup_env := mkSupEnv true true (Some false) true jitter.

(** The supervisor has work for the pod. *)
Definition wants_repair (c : PodConnection) : Prop :=
  supervise_git_tunnel (resources c) = true /\ is_paused c = false /\ wants_reconnect c = true /\
  git_tunnel_is_alive c && has_alive_pod_server c && has_event_loop c = false.

Lemma sup_run_add env n m s c :
  sup_run env (n + m) s c = let '(s, c) := sup_run env n s c in sup_run env m s c.
Proof.
  revert s c. induction n as [|n IH]; intros s c; [done|]. simpl. by destruct (sup_step env s c).
Qed.

Lemma failed_attempt jitter b c :
  wants_repair c ->
  sup_run (failing jitter) 4 (mkSupervisor (HostKey_from_host (host c)) b (pod_repair_epoch c) SCheck) c =
  (mkSupervisor (HostKey_from_host (host c)) b (pod_repair_epoch c) SFailed, c).
Proof.
  intros (H1 & H2 & H3 & H4). cbn [sup_run]. unfold sup_step at 1. cbn [s_point s_host_key].
  rewrite H1, H2, H3, H4, bool_decide_eq_true_2 by done. cbn [negb orb andb se_connected failing].
  unfold sup_step at 1. unfold sup_goto at 1. rproj. cbv iota. unfold sup_goto at 1 2. rproj.
  cbn [s_epoch]. rewrite bool_decide_eq_true_2 by done. cbn [negb orb se_permit failing].
  unfold sup_step at 1. unfold sup_goto at 1. rproj. cbv iota. unfold sup_goto. rproj. cbn [s_host_key].
  rewrite H3, bool_decide_eq_true_2 by done. reflexivity.
Qed.

Lemma retried_attempt jitter f d c :
  wants_repair c -> (f + 1 < POD_REPAIR_FAILURE_LIMIT)%Z ->
  sup_run (failing jitter) 6 (mkSupervisor (HostKey_from_host (host c)) (mkBackoff f d) (pod_repair_epoch c) SCheck) c =
  (mkSupervisor (HostKey_from_host (host c)) (mkBackoff (f + 1) (Z.min (d * 2) POD_REPAIR_MAX_DELAY))
     (pod_repair_epoch c) SCheck, c).
Proof.
  intros Hw Hf. change 6 with (4 + 2). rewrite sup_run_add, failed_attempt by done.
  cbn [sup_run]. unfold sup_step at 1. cbn [s_point s_backoff]. unfold next_delay. cbn [failures delay].
  rewrite bool_decide_eq_false_2 by lia.
  unfold sup_step, sup_goto. rproj. cbv iota. cbn [s_epoch].
  rewrite bool_decide_eq_true_2 by done. reflexivity.
Qed.

(** A repair that keeps failing is given up: on a connected host where every attempt
    fails, the supervisor makes exactly ten attempts and returns with the repair paused,
    the pending request withdrawn and the pod free to be scheduled again. *)
Theorem supervisor_gives_up jitter c :
  wants_repair c ->
  let '(s, c') := sup_run (failing jitter) 60 (supervise_git_tunnel_task (HostKey_from_host (host c)) c) c in
  s_point s = SDone /\ failures (s_backoff s) = 10%Z /\
  c' = finish_git_tunnel_repair (pause_pod_repair c).
Proof.
  intros Hw. unfold supervise_git_tunnel_task, backoff_new.
  change 60 with (6 + (6 + (6 + (6 + (6 + (6 + (6 + (6 + (6 + (4 + 2)))))))))).
  do 9 (rewrite sup_run_add, retried_attempt by (done || unfold POD_REPAIR_FAILURE_LIMIT; lia)).
  rewrite sup_run_add, failed_attempt by done.
  cbn [sup_run]. unfold sup_step at 1. cbn [s_point s_backoff]. unfold next_delay. cbn [failures delay].
  rewrite bool_decide_eq_true_2 by (unfold POD_REPAIR_FAILURE_LIMIT; lia).
  unfold sup_step, sup_goto. rproj. cbv iota. done.
Qed.

(** At most two repairs of a host are in flight, and a failed attempt occupies its slot
    until its cooldown ends: the free slots, the permits and the slots cooling down always
    add up to the two slots of the host. *)
Theorem limiter_bounded l :
  rtc limiter_step limiter_new l -> free l + held l + cooling l = POD_REPAIR_CONCURRENCY.
Proof.
  revert l. apply rtc_ind_r; [done|]. intros l l' _ Hs IH. destruct Hs; simpl in *; lia.
Qed.

(** ** Witnesses *)

Definition no_json (s : str) : option json := None.

Definition loop_thread (p : point) : thread := mkThread 0 backoff_new 0 p.

Lemma connected_pod_loop : event_loop connected_pod = Some 0.
Proof. vm_compute. reflexivity. Qed.

Definition example_greeting : GreetingState := mkGreeting HTTP_2 (Some WaitingForInput) None.

Lemma stopped_loop_returns_witness :
  let '(t', c') := loop_run no_json (replicate 5 (healthy example_greeting))
                     (loop_thread (Publish (pod_repair_epoch connected_pod) example_greeting))
                     (stop_events connected_pod) in
  at_point t' = Returned /\ agent_view c' = agent_view (stop_events connected_pod).
Proof.
  apply (stopped_loop_returns no_json (replicate 5 (healthy example_greeting))
    (loop_thread (Publish (pod_repair_epoch connected_pod) example_greeting)) (stop_events connected_pod)).
  - split; [vm_compute; reflexivity|vm_compute; discriminate].
  - simpl. lia.
Defined.

Lemma event_loop_connects_witness :
  let '(t', c') := loop_run no_json (replicate 10 (healthy example_greeting))
                     (run_pod_event_loop 0 connected_pod) connected_pod in
  status c' = Connected /\ claude_state c' = Some WaitingForInput.
Proof.
  pose proof (event_loop_connects no_json example_greeting 0 connected_pod
    ltac:(vm_compute; reflexivity) ltac:(vm_compute; reflexivity) ltac:(vm_compute; reflexivity)) as H.
  destruct (loop_run no_json (replicate 10 (healthy example_greeting))
    (run_pod_event_loop 0 connected_pod) connected_pod) as [t' c'].
  destruct H as (_ & _ & H1 & H2 & _). split; [exact H1|exact H2].
Defined.

Lemma stop_race_overwrites_status_witness :
  let '(t', c') := loop_run no_json (replicate 4 (healthy example_greeting))
                     (loop_thread (HostUp false)) (stop_events connected_pod) in
  at_point t' = Returned /\ event_loop c' = None /\ status c' = Connecting.
Proof.
  apply (stop_race_overwrites_status no_json (replicate 4 (healthy example_greeting))
    (loop_thread (HostUp false)) false connected_pod connected_pod_reachable connected_pod_loop); reflexivity.
Defined.

Definition one_pod : Connections :=
  mkConnections ∅ {[(lit "/repo", lit "dev") := connected_pod]}.

Lemma host_event_isolation_witness :
  hosts (host_event (EvHostDisconnected (KeyLocalhost Docker)) one_pod) = ∅.
Proof.
  pose proof (host_event_isolation (KeyLocalhost Docker) one_pod (lit "/repo", lit "dev") connected_pod
    (lookup_insert_eq _ _ _)) as [_ H]. exact H.
Defined.

Lemma unresolved_host_detaches_pod_witness :
  let '(ps, _) := pods_get_or_create (lit "/repo", lit "dev") (Localhost Auto) (lit "tok") Connecting None
                    (pods one_pod) in
  exists c', ps !! (lit "/repo", lit "dev") = Some c' /\ event_loop c' = None.
Proof.
  pose proof (unresolved_host_detaches_pod (lit "/repo", lit "dev") connected_pod (lit "tok") one_pod
    Connecting Docker connected_pod_reachable ltac:(vm_compute; reflexivity) ltac:(discriminate)
    (lookup_insert_eq _ _ _)) as H.
  destruct (pods_get_or_create _ _ _ _ _ _) as [ps r]. destruct H as (c' & H1 & H2 & _).
  exists c'. split; [exact H1|exact H2].
Defined.

(** The connected pod with its tunnel lost. *)
Definition broken_pod : PodConnection := remove_git_tunnel connected_pod.

Lemma supervisor_gives_up_witness :
  let '(s, c') := sup_run (failing (fun d => d)) 60
                    (supervise_git_tunnel_task (HostKey_from_host (host broken_pod)) broken_pod) broken_pod in
  s_point s = SDone /\ failures (s_backoff s) = 10%Z /\
  c' = finish_git_tunnel_repair (pause_pod_repair broken_pod).
Proof.
  apply (supervisor_gives_up (fun d => d) broken_pod).
  split; [vm_compute; reflexivity|]. split; [vm_compute; reflexivity|].
  split; vm_compute; reflexivity.
Defined.

Lemma limiter_bounded_witness : 1 + 1 + 0 = POD_REPAIR_CONCURRENCY.
Proof. apply (limiter_bounded (mkLimiter 1 1 0)). eapply rtc_l; [apply lim_acquire|apply rtc_refl]. Defined.
