(* ===== verification/Lifecycle.v ===== *)
(** * The lifecycle lock of a pod (daemon.rs) and unconfirmed creations (daemon/creation.rs)

    Starting, stopping and deleting a pod are serialized by a lease; a delete cancels the
    startup tasks and the queued operations that came before it.  [lifecycle] is one
    [PodLifecycleLock] with everything that refers to it: the spawned tasks that have not
    completed, the queued requests, and the deletes in progress.  The steps are the
    critical sections of the code, so any two operations interleave between them.  A
    generation counter that runs over 2^64 is out of reach and is not modelled. *)
From S2P Require Import Prelude Strs Hosts PodNames Db.

(** ** The lock *)

Inductive phase := Waiting | Running | Released.

#[export] Instance phase_eq_dec : EqDecision phase.
Proof. solve_decision. Defined.

(** A spawned task: where it is, and whether a delete aborted it. *)
Record task := mkTask { t_phase : phase; t_aborted : bool }.

#[export] Instance task_eq_dec : EqDecision task.
Proof. solve_decision. Defined.

(** Who holds the lease: a startup task, a request that has not yet checked whether it was
    cancelled, the guard of a request or of a delete, or the cleanup of creations. *)
Inductive holder :=
| HTask (id : nat) | HRequest (r : nat) | HGuard (r : nat) | HDelete (d : nat) | HCleanup.

#[export] Instance holder_eq_dec : EqDecision holder.
Proof. solve_decision. Defined.

Record PodLifecycleState := mkLState {
  generation : Z;
  deleting : nat;
  next_task : nat;
  tasks : gset nat;
  owner : option nat;
  lhost : str;
}.

#[export] Instance PodLifecycleState_updatable : Updatable PodLifecycleState := fun s =>
  mkLState (generation s) (deleting s) (next_task s) (tasks s) (owner s) (lhost s).

Record lifecycle := mkLifecycle {
  lstate : PodLifecycleState;
  lease : option holder;
  live : gmap nat task;             (* tasks whose completion has not dropped *)
  requests : gmap nat Z;            (* queued requests, with the generation they saw *)
  next_request : nat;
  deletes : gmap nat (gset nat);    (* deletes in progress, with the tasks they cancelled *)
  next_delete : nat;
}.

#[export] Instance lifecycle_updatable : Updatable lifecycle := fun s =>
  mkLifecycle (lstate s) (lease s) (live s) (requests s) (next_request s) (deletes s) (next_delete s).

Definition lifecycle_default : lifecycle :=
  mkLifecycle (mkLState 0 0 0 ∅ None []) None ∅ ∅ 0 ∅ 0.

Definition cancelled_by_delete : str := lit "pod operation cancelled by delete".

(** [PodLifecycleLock::queue] *)
Definition queue (s : PodLifecycleState) : result str Z :=
  if negb (bool_decide (deleting s = 0)) then Err cancelled_by_delete else Ok (generation s).

Definition queue_request (s : lifecycle) : result str (nat * lifecycle) :=
  g ← queue (lstate s);
  Ok (next_request s, s <| requests ::= <[next_request s := g]> |> <| next_request ::= S |>).

(** [PodLifecycleLock::spawn] *)
Definition spawn (host : str) (s : lifecycle) : result str (nat * lifecycle) :=
  let st := lstate s in
  if negb (bool_decide (deleting st = 0)) then Err cancelled_by_delete
  else
    let id := next_task st in
    let st := st <| next_task ::= S |> <| lhost := host |> <| tasks ::= fun ts => {[id]} ∪ ts |> in
    Ok (id, s <| lstate := st |> <| live ::= <[id := mkTask Waiting false]> |>).

(** The spawned task takes the lease and becomes the owner. *)
Definition task_acquire (id : nat) (s : lifecycle) : lifecycle :=
  s <| lease := Some (HTask id) |>
    <| live ::= alter (fun t => mkTask Running (t_aborted t)) id |>
    <| lstate ::= fun st => st <| owner := Some id |> |>.

(** The task returns, fails, times out or is aborted: its lease drops first. *)
Definition task_release (id : nat) (s : lifecycle) : lifecycle :=
  s <| lease ::= fun l => if bool_decide (l = Some (HTask id)) then None else l |>
    <| live ::= alter (fun t => mkTask Released (t_aborted t)) id |>.

(** [Drop for StartupCompletion] *)
Definition completion_drop (id : nat) (s : lifecycle) : lifecycle :=
  s <| lstate ::= fun st =>
         st <| tasks ::= fun ts => ts ∖ {[id]} |>
            <| owner ::= fun o => if bool_decide (o = Some id) then None else o |> |>
    <| live ::= delete id |>.

(** [PodLifecycleLock::acquire_for_delete] up to the wait: cancel what came before. *)
Definition delete_begin (s : lifecycle) : lifecycle :=
  let drained := tasks (lstate s) in
  s <| lstate ::= fun st =>
         st <| deleting ::= S |> <| generation ::= Z.succ |> <| tasks := ∅ |> |>
    <| live ::= map_imap (fun id t =>
         Some (if bool_decide (id ∈ drained) then mkTask (t_phase t) true else t)) |>
    <| deletes ::= <[next_delete s := drained]> |>
    <| next_delete ::= S |>.

(** Whether the tasks a delete cancelled have all signalled their completion. *)
Definition tasks_done (ids : gset nat) (s : lifecycle) : bool :=
  bool_decide (set_Forall (fun id => live s !! id = None) ids).

(** [PodLifecycleRequest::acquire] under the lease. *)
Definition request_check (r : nat) (g : Z) (s : lifecycle) : lifecycle * result str unit :=
  let st := lstate s in
  let s := s <| requests ::= delete r |> in
  if negb (bool_decide (generation st = g)) || negb (bool_decide (deleting st = 0))
  then (s <| lease := None |>, Err cancelled_by_delete)
  else (s <| lease := Some (HGuard r) |>, Ok tt).

(** [Drop for PodLifecycleGuard]: a delete stops counting before its lease is released. *)
Definition delete_drop (d : nat) (s : lifecycle) : lifecycle :=
  s <| lstate ::= fun st => st <| deleting ::= pred |> |> <| deletes ::= delete d |>.

Definition release (s : lifecycle) : lifecycle := s <| lease := None |>.

Definition describe_owner (describe : nat -> str) (s : lifecycle) : str :=
  match owner (lstate s) with
  | Some id => if bool_decide (id ∈ tasks (lstate s)) then describe id
               else lit "another lifecycle operation"
  | None => lit "another lifecycle operation"
  end.

Inductive lstep (s : lifecycle) : lifecycle -> Prop :=
| l_queue r s' : queue_request s = Ok (r, s') -> lstep s s'
| l_spawn host id s' : spawn host s = Ok (id, s') -> lstep s s'
| l_task_acquire id a :
    live s !! id = Some (mkTask Waiting a) -> lease s = None -> lstep s (task_acquire id s)
| l_task_release id t :
    live s !! id = Some t -> t_phase t <> Released -> lstep s (task_release id s)
| l_completion id a :
    live s !! id = Some (mkTask Released a) -> lstep s (completion_drop id s)
| l_request_lease r g :
    requests s !! r = Some g -> lease s = None -> lstep s (s <| lease := Some (HRequest r) |>)
| l_request_timeout r :
    lease s <> Some (HRequest r) -> lstep s (s <| requests ::= delete r |>)
| l_request_check r g :
    lease s = Some (HRequest r) -> requests s !! r = Some g -> lstep s (fst (request_check r g s))
| l_guard_drop r : lease s = Some (HGuard r) -> lstep s (release s)
| l_delete_begin : lstep s (delete_begin s)
| l_delete_lease d ids :
    deletes s !! d = Some ids -> tasks_done ids s = true -> lease s = None ->
    lstep s (s <| lease := Some (HDelete d) |>)
| l_delete_drop d :
    lease s = Some (HDelete d) -> is_Some (deletes s !! d) -> lstep s (delete_drop d s)
| l_delete_release d :
    lease s = Some (HDelete d) -> deletes s !! d = None -> lstep s (release s)
| l_cleanup_lease : lease s = None -> lstep s (s <| lease := Some HCleanup |>)
| l_cleanup_release : lease s = Some HCleanup -> lstep s (release s).

Definition lreachable (s : lifecycle) : Prop := rtc lstep lifecycle_default s.

(** ** Invariant *)

Record linv (s : lifecycle) : Prop := {
  li_running : forall id, t_phase <$> live s !! id = Some Running <-> lease s = Some (HTask id);
  li_deleting : deleting (lstate s) = size (deletes s);
  li_no_tasks : deleting (lstate s) <> 0 -> tasks (lstate s) = ∅;
  li_owned : forall id, is_Some (live s !! id) ->
    id ∈ tasks (lstate s) \/ exists d ids, deletes s !! d = Some ids /\ id ∈ ids;
  li_ids : forall id, is_Some (live s !! id) -> id < next_task (lstate s);
  li_cancelled : forall d ids id, deletes s !! d = Some ids -> id ∈ ids -> id < next_task (lstate s);
  li_delete_lease : forall d ids, lease s = Some (HDelete d) -> deletes s !! d = Some ids ->
    forall id, id ∈ ids -> live s !! id = None;
  li_delete_ids : forall d, is_Some (deletes s !! d) -> d < next_delete s;
  li_request_ids : forall r, is_Some (requests s !! r) -> r < next_request s;
  li_tasks : forall id, id ∈ tasks (lstate s) -> id < next_task (lstate s);
  li_lease_id : forall d, lease s = Some (HDelete d) -> d < next_delete s;
}.

Lemma linv_default : linv lifecycle_default.
Proof.
  constructor; cbn [lifecycle_default lstate lease live requests deletes]; try done.
  all: intros x [y Hy]; by rewrite lookup_empty in Hy.
Qed.

Lemma linv_lease s l :
  linv s -> (forall id, lease s <> Some (HTask id)) -> (forall id, l <> Some (HTask id)) ->
  (forall d, l = Some (HDelete d) -> d < next_delete s /\
     forall ids, deletes s !! d = Some ids -> tasks_done ids s = true) ->
  linv (s <| lease := l |>).
Proof.
  intros [] Hl Hn Hd. constructor; rproj; try done.
  - intros id. rewrite li_running0. split; intros H; [by apply Hl in H|by apply Hn in H].
  - intros d ids -> Hids id Hid. destruct (Hd d eq_refl) as [_ Hdone]. specialize (Hdone ids Hids).
    unfold tasks_done in Hdone. apply bool_decide_eq_true in Hdone. by apply Hdone.
  - intros d Hl'. by apply Hd.
Qed.

Lemma linv_requests s f n :
  linv s -> (forall r, is_Some (f (requests s) !! r) -> r < n) ->
  linv (s <| requests ::= f |> <| next_request := n |>).
Proof. intros [] Hf. by constructor. Qed.

Lemma linv_spawn host s id s' : spawn host s = Ok (id, s') -> linv s -> linv s'.
Proof.
  unfold spawn. case_bool_decide as Hd; simpl; [|done]. intros [= <- <-] [].
  assert (Hfresh : live s !! next_task (lstate s) = None).
  { destruct (live s !! _) eqn:E; [|done]. assert (next_task (lstate s) < next_task (lstate s)); [|lia].
    apply li_ids0. by eexists. }
  constructor; rproj.
  - intros id. destruct (decide (id = next_task (lstate s))) as [->|Hne].
    + rewrite lookup_insert_eq. simpl. split; [done|]. intros Hl. apply li_running0 in Hl.
      by rewrite Hfresh in Hl.
    + rewrite lookup_insert_ne by done. apply li_running0.
  - done.
  - done.
  - intros id. destruct (decide (id = next_task (lstate s))) as [->|Hne]; [set_solver|].
    rewrite lookup_insert_ne by done. intros [H|H]%li_owned0; [set_solver|by right].
  - intros id. destruct (decide (id = next_task (lstate s))) as [->|Hne]; [lia|].
    rewrite lookup_insert_ne by done. intros H%li_ids0. lia.
  - intros d ids id H1 H2. specialize (li_cancelled0 d ids id H1 H2). lia.
  - intros d ids Hl Hids id Hid. rewrite lookup_insert_ne; [by eapply li_delete_lease0|].
    specialize (li_cancelled0 d ids id Hids Hid). lia.
  - done.
  - done.
  - intros id [->%elem_of_singleton|H%li_tasks0]%elem_of_union; lia.
  - done.
Qed.

(** Changing a live task to another phase. *)
Lemma lookup_phase (m : gmap nat task) id j p :
  t_phase <$> alter (fun t => mkTask p (t_aborted t)) id m !! j =
  if bool_decide (id = j) then (fun _ => p) <$> m !! j else t_phase <$> m !! j.
Proof.
  case_bool_decide as H; [subst; rewrite lookup_alter_eq|by rewrite lookup_alter_ne].
  by destruct (m !! j).
Qed.

Lemma linv_task_acquire id a s :
  live s !! id = Some (mkTask Waiting a) -> lease s = None -> linv s -> linv (task_acquire id s).
Proof.
  intros Hid Hl []. unfold task_acquire. constructor; rproj; try done.
  - intros j. rewrite lookup_phase. case_bool_decide as Hj.
    + subst j. rewrite Hid. done.
    + split; [intros H%li_running0; congruence|congruence].
  - intros j. rewrite lookup_alter_is_Some. apply li_owned0.
  - intros j. rewrite lookup_alter_is_Some. apply li_ids0.
Qed.

Lemma linv_task_release id t s :
  live s !! id = Some t -> linv s -> linv (task_release id s).
Proof.
  intros Hid []. unfold task_release. constructor; rproj; try done.
  - intros j. rewrite lookup_phase. case_bool_decide as Hj.
    + subst j. rewrite Hid. simpl. split; [done|]. case_bool_decide as Hl; [done|]. by intros ?.
    + rewrite li_running0. case_bool_decide as Hl; [|done]. rewrite Hl. split; [|done].
      intros [= ->]. done.
  - intros j. rewrite lookup_alter_is_Some. apply li_owned0.
  - intros j. rewrite lookup_alter_is_Some. apply li_ids0.
  - intros d ids Hl Hids j Hj. rewrite lookup_alter_None. case_bool_decide; [done|].
    by eapply li_delete_lease0.
  - intros d. case_bool_decide; [done|]. apply li_lease_id0.
Qed.

Lemma linv_completion id a s :
  live s !! id = Some (mkTask Released a) -> linv s -> linv (completion_drop id s).
Proof.
  intros Hid []. unfold completion_drop. constructor; rproj; try done.
  - intros j. destruct (decide (j = id)) as [->|Hne].
    + rewrite lookup_delete_eq. simpl. rewrite <- li_running0, Hid. done.
    + by rewrite lookup_delete_ne.
  - intros Hd. rewrite li_no_tasks0 by done. set_solver.
  - intros j. destruct (decide (j = id)) as [->|Hne]; [rewrite lookup_delete_eq; by intros []|].
    rewrite lookup_delete_ne by done. intros [H|H]%li_owned0; [left; set_solver|by right].
  - intros j. destruct (decide (j = id)) as [->|Hne]; [rewrite lookup_delete_eq; by intros []|].
    rewrite lookup_delete_ne by done. apply li_ids0.
  - intros d ids Hl Hids j Hj. apply lookup_delete_None. right. by eapply li_delete_lease0.
  - intros j Hj. apply li_tasks0. set_solver.
Qed.

Lemma delete_begin_lookup s id :
  live (delete_begin s) !! id =
  (fun t => if bool_decide (id ∈ tasks (lstate s)) then mkTask (t_phase t) true else t) <$> live s !! id.
Proof. unfold delete_begin. rproj. rewrite map_lookup_imap. by destruct (live s !! id). Qed.

Lemma linv_delete_begin s : linv s -> linv (delete_begin s).
Proof.
  intros []. 
  assert (Hfresh : deletes s !! next_delete s = None).
  { destruct (deletes s !! _) eqn:E; [|done]. assert (next_delete s < next_delete s); [|lia].
    apply li_delete_ids0. by eexists. }
  assert (Hsome : forall id, is_Some (live (delete_begin s) !! id) <-> is_Some (live s !! id)).
  { intros id. rewrite delete_begin_lookup. apply fmap_is_Some. }
  constructor; try rewrite Hsome.
  - intros id. rewrite delete_begin_lookup. rewrite <- li_running0.
    destruct (live s !! id) as [t|]; simpl; [|done]. by case_bool_decide.
  - unfold delete_begin. rproj. rewrite map_size_insert_None by done. by rewrite li_deleting0.
  - done.
  - intros id H%Hsome. right. unfold delete_begin. rproj.
    apply li_owned0 in H as [H|(d & ids & Hd & Hin)].
    + exists (next_delete s), (tasks (lstate s)). by rewrite lookup_insert_eq.
    + exists d, ids. rewrite lookup_insert_ne; [done|]. congruence.
  - intros id H%Hsome. unfold delete_begin. rproj. by apply li_ids0.
  - intros d ids id. unfold delete_begin. rproj.
    destruct (decide (d = next_delete s)) as [->|Hne].
    + rewrite lookup_insert_eq. intros [= <-]. apply li_tasks0.
    + rewrite lookup_insert_ne by done. apply li_cancelled0.
  - intros d ids Hl. change (lease s = Some (HDelete d)) in Hl. intros Hids id Hid.
    destruct (live (delete_begin s) !! id) eqn:E; [|done].
    assert (is_Some (live s !! id)) as [t' Ht'] by (apply Hsome; by eexists).
    unfold delete_begin in Hids. rproj. destruct (decide (d = next_delete s)) as [->|Hne].
    + apply li_lease_id0 in Hl. lia.
    + rewrite lookup_insert_ne in Hids by done. by rewrite (li_delete_lease0 d ids Hl Hids id Hid) in Ht'.
  - intros d. unfold delete_begin. rproj. destruct (decide (d = next_delete s)) as [->|Hne]; [lia|].
    rewrite lookup_insert_ne by done. intros H%li_delete_ids0. lia.
  - unfold delete_begin. rproj. done.
  - unfold delete_begin. rproj. set_solver.
  - intros d Hl. unfold delete_begin in *. rproj. apply li_lease_id0 in Hl. lia.
Qed.

Lemma linv_delete_drop d s :
  lease s = Some (HDelete d) -> is_Some (deletes s !! d) -> linv s -> linv (delete_drop d s).
Proof.
  intros Hl [ids Hd] []. unfold delete_drop. constructor; rproj; try done.
  - rewrite li_deleting0, map_size_delete_Some; [done|by eexists].
  - intros Hne. apply li_no_tasks0. lia.
  - intros id Hid. destruct (li_owned0 id Hid) as [H|(d' & ids' & Hd' & Hin)]; [by left|right].
    exists d', ids'. rewrite lookup_delete_ne; [done|]. intros ->.
    rewrite Hd in Hd'. injection Hd' as <-. destruct Hid as [t Ht].
    by rewrite (li_delete_lease0 _ _ Hl Hd _ Hin) in Ht.
  - intros d' ids' id [_ H]%lookup_delete_Some. by eapply li_cancelled0.
  - intros d' ids' Hl' [_ H]%lookup_delete_Some. by eapply li_delete_lease0.
  - intros d' [x [_ H]%lookup_delete_Some]. apply li_delete_ids0. by eexists.
Qed.

Lemma linv_release s :
  (forall id, lease s <> Some (HTask id)) -> linv s -> linv (release s).
Proof. intros Hl Hs. by apply linv_lease. Qed.

Lemma linv_drop_request r s : linv s -> linv (s <| requests ::= delete r |>).
Proof.
  intros []. constructor; rproj; try done.
  intros r' [x [_ H]%lookup_delete_Some]. apply li_request_ids0. by eexists.
Qed.

Lemma linv_request_check r g s :
  lease s = Some (HRequest r) -> linv s -> linv (fst (request_check r g s)).
Proof.
  intros Hl Hs. unfold request_check.
  assert (Hd : linv (s <| requests ::= delete r |>)) by by apply linv_drop_request.
  assert (Hl' : forall id, lease (s <| requests ::= delete r |>) <> Some (HTask id)) by (intros id; rproj; congruence).
  revert Hd Hl'. generalize (s <| requests ::= delete r |>). intros s' Hd Hl'.
  case_match; cbn [fst]; by apply linv_lease.
Qed.

Lemma lstep_inv s s' : lstep s s' -> linv s -> linv s'.
Proof.
  intros Hstep Hs. destruct Hstep as [r s' H|host id s' H|id a H1 H2|id t H1 H2|id a H|r g H1 H2|r H|r g H1 H2
    |r H| |d ids H1 H2 H3|d H1 H2|d H1 H2|H|H].
  - unfold queue_request in H. destruct (queue _) as [g|]; simpl in H; [|done]. injection H as <- <-.
    apply (linv_requests s (<[next_request s := g]>) (S (next_request s))); [done|].
    intros r. destruct (decide (r = next_request s)) as [->|Hne]; [lia|].
    rewrite lookup_insert_ne by done. intros H%(li_request_ids _ Hs). lia.
  - by eapply linv_spawn.
  - by eapply linv_task_acquire.
  - by eapply linv_task_release.
  - by eapply linv_completion.
  - apply linv_lease; try done; intros; congruence.
  - by apply linv_drop_request.
  - by apply linv_request_check.
  - apply linv_release; [congruence|done].
  - by apply linv_delete_begin.
  - apply linv_lease; try done; [congruence|]. intros d' [= <-]. split.
    + apply (li_delete_ids _ Hs). by eexists.
    + intros ids'. rewrite H1. by intros [= <-].
  - by apply linv_delete_drop.
  - apply linv_release; [congruence|done].
  - apply linv_lease; try done; congruence.
  - apply linv_release; [congruence|done].
Qed.

Lemma lreachable_inv s : lreachable s -> linv s.
Proof.
  unfold lreachable. revert s. apply rtc_ind_r; [apply linv_default|].
  intros s s' _ Hs Hi. by eapply lstep_inv.
Qed.

(** Requests saw a generation of the past, and a request with a guard is no longer queued. *)
Definition rinv (s : lifecycle) : Prop :=
  (forall r g, requests s !! r = Some g -> (g <= generation (lstate s))%Z /\ r < next_request s) /\
  (forall r, lease s = Some (HGuard r) -> requests s !! r = None /\ r < next_request s).

Lemma rinv_step s s' : lstep s s' -> rinv s -> rinv s'.
Proof.
  intros Hstep [Hg Hl]. destruct Hstep as [r' s' H|host id s' H|id a H1 H2|id t H1 H2|id a H
    |r' g H1 H2|r' H|r' g H1 H2|r' H| |d ids H1 H2 H3|d H1 H2|d H1 H2|H|H]; try (by split).
  - unfold queue_request, queue in H. case_bool_decide; [|done]. simpl in H. injection H as <- <-.
    split; rproj.
    + intros r g. destruct (decide (r = next_request s)) as [->|Hne].
      * rewrite lookup_insert_eq. intros [= <-]. lia.
      * rewrite lookup_insert_ne by done. intros Hr%Hg. lia.
    + intros r Hr. apply Hl in Hr as [Hn Hlt]. rewrite lookup_insert_ne by lia. split; [done|lia].
  - unfold spawn in H. case_match; [done|]. injection H as <- <-. by split.
  - unfold task_release. split; rproj; [done|]. case_bool_decide; [done|]. apply Hl.
  - split; rproj.
    + intros r g [_ Hr]%lookup_delete_Some. by apply Hg.
    + intros r Hr%Hl. destruct Hr as [Hn Hlt]. split; [|done]. apply lookup_delete_None. by right.
  - assert (Hd : forall r g, delete r' (requests s) !! r = Some g -> (g <= generation (lstate s))%Z /\ r < next_request s)
      by (intros r g' [_ Hr]%lookup_delete_Some; by apply Hg).
    unfold request_check. case_match; cbn [fst]; split; rproj; try done.
    intros r [= <-]. split; [apply lookup_delete_eq|]. by apply Hg in H2 as [_ ?].
  - split; [|done]. intros r g Hr. change (requests s !! r = Some g) in Hr. apply Hg in Hr.
    unfold delete_begin. rproj. lia.
Qed.

Lemma lreachable_rinv s : lreachable s -> rinv s.
Proof.
  unfold lreachable. revert s. apply rtc_ind_r.
  - split; [|done]. intros r g H. cbn [lifecycle_default requests] in H. by rewrite lookup_empty in H.
  - intros s s' _ Hs Hi. by eapply rinv_step.
Qed.

(** Request [r] is out of date: it has no guard and its generation has passed. *)
Definition outdated (r : nat) (s : lifecycle) : Prop :=
  lease s <> Some (HGuard r) /\
  (forall g, requests s !! r = Some g -> (g < generation (lstate s))%Z) /\
  r < next_request s.

Lemma outdated_step r s s' : lstep s s' -> outdated r s -> outdated r s'.
Proof.
  intros Hstep (Hl & Hg & Hr). destruct Hstep as [r' s' H|host id s' H|id a H1 H2|id t H1 H2|id a H
    |r' g H1 H2|r' H|r' g H1 H2|r' H| |d ids H1 H2 H3|d H1 H2|d H1 H2|H|H].
  - unfold queue_request in H. destruct (queue _) as [g|]; simpl in H; [|done]. injection H as <- <-.
    split_and!; rproj; [done| |lia]. intros g'. rewrite lookup_insert_ne by lia. apply Hg.
  - unfold spawn in H. case_match; [done|]. injection H as <- <-. by split_and!.
  - by split_and!.
  - unfold task_release. split_and!; rproj; [|done|done]. by case_bool_decide.
  - by split_and!.
  - by split_and!.
  - split_and!; rproj; [done| |done]. intros g [_ H']%lookup_delete_Some. by apply Hg.
  - assert (Hd : forall g', delete r' (requests s) !! r = Some g' -> (g' < generation (lstate s))%Z)
      by (intros g' [_ H']%lookup_delete_Some; by apply Hg).
    unfold request_check. case_match eqn:E; cbn [fst]; split_and!; rproj; try done.
    intros [= ->]. apply Hg in H2. apply orb_false_iff in E as [E _].
    apply negb_false_iff, bool_decide_eq_true in E. lia.
  - by split_and!.
  - split_and!; [done| |done]. intros g Hg'. apply Hg in Hg'. unfold delete_begin. rproj. lia.
  - by split_and!.
  - by split_and!.
  - by split_and!.
  - by split_and!.
  - by split_and!.
Qed.

Lemma cancelled_steps r s s' : outdated r s -> rtc lstep s s' -> lease s' <> Some (HGuard r).
Proof.
  intros Ho Hs. assert (H : outdated r s') by (induction Hs; eauto using outdated_step). apply H.
Qed.

(** ** Properties *)


(** [C13] An operation that was queued when a delete began is cancelled for good: whatever
    happens afterwards, even once the delete has finished and the pod is started again,
    it never gets its guard. *)
Theorem queued_request_cancelled s r g s' :
  lreachable s -> requests s !! r = Some g ->
  rtc lstep (delete_begin s) s' -> lease s' <> Some (HGuard r).
Proof.
  intros [Hg Hl]%lreachable_rinv Hr Hsteps. apply (cancelled_steps r (delete_begin s) s'); [|done].
  destruct (Hg r g Hr) as [Hle Hlt]. split_and!; [|  |done].
  - intros H. change (lease s = Some (HGuard r)) in H. apply Hl in H as [H _]. congruence.
  - intros g' Hg'. change (requests s !! r = Some g') in Hg'. unfold delete_begin. rproj.
    rewrite Hr in Hg'. injection Hg' as <-. lia.
Qed.

(** A startup task is waiting, an operation is queued, and a delete begins. *)
Definition busy_lock : lifecycle :=
  match queue_request lifecycle_default with
  | Ok (_, s) => match spawn (lit "localhost") s with Ok (_, s) => s | Err _ => s end
  | Err _ => lifecycle_default
  end.

Lemma busy_lock_reachable : lreachable busy_lock.
Proof.
  unfold busy_lock. eapply rtc_l; [eapply l_queue; reflexivity|].
  eapply rtc_l; [eapply (l_spawn _ (lit "localhost")); reflexivity|]. apply rtc_refl.
Qed.

(** The task is aborted, releases and completes, and the delete takes the lease. *)
Definition deleting_lock : lifecycle :=
  (completion_drop 0 (task_release 0 (delete_begin busy_lock))) <| lease := Some (HDelete 0) |>.

Lemma deleting_lock_reachable : lreachable deleting_lock.
Proof.
  unfold deleting_lock, lreachable. transitivity busy_lock; [apply busy_lock_reachable|].
  eapply rtc_l; [apply l_delete_begin|].
  eapply rtc_l; [apply (l_task_release _ 0 (mkTask Waiting true)); [vm_compute; reflexivity|discriminate]|].
  eapply rtc_l; [apply (l_completion _ 0 true); vm_compute; reflexivity|].
  eapply rtc_l; [apply (l_delete_lease _ 0 {[0]}); vm_compute; reflexivity|]. apply rtc_refl.
Qed.


Lemma queued_request_cancelled_witness : lease deleting_lock <> Some (HGuard 0).
Proof.
  apply (queued_request_cancelled busy_lock 0 0 deleting_lock busy_lock_reachable ltac:(vm_compute; reflexivity)).
  eapply rtc_l; [apply (l_task_release _ 0 (mkTask Waiting true)); [vm_compute; reflexivity|discriminate]|].
  eapply rtc_l; [apply (l_completion _ 0 true); vm_compute; reflexivity|].
  eapply rtc_l; [apply (l_delete_lease _ 0 {[0]}); vm_compute; reflexivity|]. apply rtc_refl.
Defined.

(** * Unconfirmed creations (daemon/creation.rs)

    Before the backend is asked to create a pod, an intent is written to a directory;
    a periodic scan removes what the backend created for intents that no pod of the
    database wants.  The directory maps file names to their decoded content, [None] for a
    file that does not decode. *)

Record PendingCreate := mkPendingCreate {
  pending_repo_path : str;
  pending_pod_name : str;
  pending_host : Host;
  pending_creation : str;
}.

Inductive creation_error := UndecodableIntent (name : str) | IntentMissing | DbUnreadable (e : db_error).

Section Creation.
Context (lib : HashLib).

(** [creation::id] *)
Definition creation_id (token : str) : str := take 32 (hex_encode lib (sha256_digest lib (as_bytes token))).

(** [CreateIntent::new], [confirmed] *)
Definition create_intent (repo_path pod_name : str) (h : Host) (token : str)
    (dir : gmap str (option PendingCreate)) : gmap str (option PendingCreate) :=
  let creation := creation_id token in
  <[creation := Some (mkPendingCreate repo_path pod_name h creation)]> dir.

Definition confirmed (path : str) (dir : gmap str (option PendingCreate))
    : result creation_error (gmap str (option PendingCreate)) :=
  match dir !! path with Some _ => Ok (delete path dir) | None => Err IntentMissing end.

Definition finalized (name : str) : bool :=
  bool_decide (len name = 32) && forallb is_ascii_hexdigit (as_bytes name).

Fixpoint read_pending (entries : list (str * option PendingCreate))
    : result creation_error (list (str * PendingCreate)) :=
  match entries with
  | [] => Ok []
  | (name, content) :: entries' =>
      if negb (finalized name) then read_pending entries'
      else
        record ← context (UndecodableIntent name) content;
        rest ← read_pending entries';
        Ok ((name, record) :: rest)
  end.

Definition pending_creations (dir : gmap str (option PendingCreate))
    : result creation_error (list (str * PendingCreate)) := read_pending (map_to_list dir).

Definition names_pod (repo_path pod_name : str) (p : PendingCreate) : bool :=
  bool_decide (pending_repo_path p = repo_path) && bool_decide (pending_pod_name p = pod_name).

Definition forget (repo_path pod_name : str) (dir : gmap str (option PendingCreate))
    : result creation_error (gmap str (option PendingCreate)) :=
  pending ← pending_creations dir;
  Ok (foldr (fun '(path, p) d => if names_pod repo_path pod_name p then delete path d else d) dir pending).

(** What [cleanup_pending_creations] does about one intent of its scan: the creation it
    asks the backend to delete, if any.  [lock] is the lock of the intent's pod and [dir]
    the directory when the intent's turn comes. *)
Definition cleanup_one (lock : lifecycle) (dir : gmap str (option PendingCreate)) (c : Conn)
    (path : str) (pending : PendingCreate) : result creation_error (option str) :=
  if negb (bool_decide (lease lock = None)) then Ok None
  else if negb (bool_decide (deleting (lstate lock) = 0)) then Ok None
  else if bool_decide (dir !! path = None) then Ok None
  else
    match get_pod c (pending_repo_path pending) (pending_pod_name pending) with
    | Err e => Err (DbUnreadable e)
    | Ok pod =>
        let wanted := is_some_and (fun p => bool_decide (creation_id (token p) = pending_creation pending)) pod in
        if wanted then Ok None else Ok (Some (pending_creation pending))
    end.
End Creation.

Lemma creation_id_finalized lib tok :
  HashLaws lib -> finalized (creation_id lib tok) = true.
Proof.
  intros Hlib.
  assert (Hr : Forall (fun c => is_ascii_digit c || in_range 97 102 c) (creation_id lib tok))
    by apply Forall_take, hex_lower, digest_bytes.
  assert (Ha : ascii_only (creation_id lib tok)).
  { eapply Forall_impl; [exact Hr|]. intros x Hx. unfold is_ascii_digit, in_range in Hx.
    apply Is_true_eq_true, orb_true_iff in Hx.
    destruct Hx as [Hx|Hx]; apply andb_true_iff in Hx as [_ Hx%bool_decide_eq_true]; lia. }
  assert (Hl : length (creation_id lib tok) = 32).
  { unfold creation_id. rewrite List.length_firstn, hex_length, digest_length. done. }
  unfold finalized. rewrite len_ascii, as_bytes_ascii, bool_decide_eq_true_2 by done. simpl.
  apply forallb_forall. intros x Hx%list_elem_of_In. rewrite Forall_forall in Hr.
  specialize (Hr x Hx). unfold is_ascii_hexdigit. apply Is_true_eq_true in Hr.
  apply orb_true_iff in Hr as [Hr|Hr]; rewrite Hr, ?orb_true_r; done.
Qed.

Lemma read_pending_elem entries ps path p :
  read_pending entries = Ok ps -> (path, Some p) ∈ entries -> finalized path = true -> (path, p) ∈ ps.
Proof.
  revert ps. induction entries as [|[name content] entries IH]; intros ps H Hin Hf; simpl in H.
  { by apply not_elem_of_nil in Hin. }
  apply elem_of_cons in Hin as [[= <- <-]|Hin].
  - rewrite Hf in H. simpl in H. destruct (read_pending entries); simpl in H; [|done].
    injection H as <-. left.
  - destruct (finalized name); simpl in H; [|by apply IH].
    destruct content as [rec|]; simpl in H; [|done].
    destruct (read_pending entries) as [rest|]; simpl in H; [|done]. injection H as <-.
    right. by apply IH.
Qed.

(** The record of a creation is written where the cleanup finds it: the intent's file
    name is one the scan acts on, so the intent is in every later scan until it is
    confirmed or forgotten; and the cleanup never deletes what belongs to a pod of the
    database with the token of that creation, nor acts while a delete of the pod is in
    progress or another operation holds its lease. *)
Theorem creation_cleanup_safe lib repo name h tok dir ps lock c r :
  HashLaws lib ->
  let dir' := create_intent lib repo name h tok dir in
  let p := mkPendingCreate repo name h (creation_id lib tok) in
  pending_creations dir' = Ok ps ->
  db_reachable c -> view c !! (repo, name) = Some r -> row_token r = tok ->
  (creation_id lib tok, p) ∈ ps /\
  cleanup_one lib lock dir' c (creation_id lib tok) p = Ok None /\
  (forall dir c' path q, lease lock <> None \/ deleting (lstate lock) <> 0 ->
     cleanup_one lib lock dir c' path q = Ok None).
Proof.
  intros Hsha dir' p Hps Hc Hv Htok. split_and!.
  - eapply read_pending_elem; [exact Hps| |by apply creation_id_finalized].
    apply elem_of_map_to_list. unfold dir', create_intent. by rewrite lookup_insert_eq.
  - unfold cleanup_one. repeat (case_match; [done|]). simpl.
    rewrite get_pod_view, Hv by by apply db_reachable_wf. simpl.
    by rewrite Htok, bool_decide_eq_true_2.
  - intros d c' path q Hl. unfold cleanup_one. destruct (bool_decide (lease lock = None)) eqn:E1; [|done].
    destruct (bool_decide (deleting (lstate lock) = 0)) eqn:E2; [|done].
    apply bool_decide_eq_true in E1, E2. destruct Hl; congruence.
Qed.

Lemma creation_cleanup_safe_witness :
  let dir := create_intent ZeroHash.lib (lit "/a") (lit "dev") (Localhost Docker) (lit "t1") ∅ in
  cleanup_one ZeroHash.lib lifecycle_default dir example_db (creation_id ZeroHash.lib (lit "t1"))
    (mkPendingCreate (lit "/a") (lit "dev") (Localhost Docker) (creation_id ZeroHash.lib (lit "t1"))) = Ok None.
Proof.
  intros dir.
  assert (Hps : pending_creations (create_intent ZeroHash.lib (lit "/a") (lit "dev") (Localhost Docker) (lit "t1") ∅) =
    Ok [(creation_id ZeroHash.lib (lit "t1"),
      mkPendingCreate (lit "/a") (lit "dev") (Localhost Docker) (creation_id ZeroHash.lib (lit "t1")))])
    by (vm_compute; reflexivity).
  assert (Hv : view example_db !! (lit "/a", lit "dev") = Some example_row) by (vm_compute; reflexivity).
  exact (proj1 (proj2 (creation_cleanup_safe ZeroHash.lib (lit "/a") (lit "dev") (Localhost Docker) (lit "t1") ∅
    _ lifecycle_default example_db example_row ZeroHash.laws Hps example_db_reachable Hv eq_refl))).
Defined.
