(* ===== verification/Bytes.v ===== *)
(** * Byte streams, fixed-width integers and UTF-8 decoding

    What the framing code uses of [std] and [tokio::io]: a reader is the bytes it will still
    deliver and how the stream ends, a writer is the bytes it accepted and where it starts
    to fail; [u32] is written in either byte order; [String::from_utf8] is the decoder of
    RFC 3629.  The laws at the end are what the two framing protocols need. *)
From S2P Require Import Prelude Strs.

Ltac Zify.zify_post_hook ::= Z.to_euclidean_division_equations.

(** ** Readers and writers *)

Inductive io_error := UnexpectedEof | BrokenPipe | Eio | OtherIo (e : str).

#[export] Instance io_error_eq_dec : EqDecision io_error.
Proof. solve_decision. Defined.

(** After [unread] the stream ends, or fails with the error. *)
Record Reader := mkReader { unread : list N; fault : option io_error }.

(** [AsyncReadExt::read] into a buffer of one byte: [None] is the end of the stream. *)
Definition read_one (r : Reader) : result io_error (option (N * Reader)) :=
  match unread r with
  | b :: rest => Ok (Some (b, mkReader rest (fault r)))
  | [] => match fault r with Some e => Err e | None => Ok None end
  end.

(** [AsyncReadExt::read_exact] *)
Definition read_exact (n : nat) (r : Reader) : result io_error (list N * Reader) :=
  if bool_decide (n <= length (unread r))
  then Ok (take n (unread r), mkReader (drop n (unread r)) (fault r))
  else Err (default UnexpectedEof (fault r)).

(** A writer accepts bytes until its limit and then fails with the error. *)
Record Writer := mkWriter { accepted : list N; limit : option (nat * io_error) }.

(** [AsyncWriteExt::write_all]: what fits is written before the error. *)
Definition write_all (data : list N) (w : Writer) : Writer * result io_error unit :=
  match limit w with
  | Some (n, e) =>
      if bool_decide (length (accepted w) + length data <= n)
      then (mkWriter (accepted w ++ data) (limit w), Ok tt)
      else (mkWriter (accepted w ++ take (n - length (accepted w)) data) (limit w), Err e)
  | None => (mkWriter (accepted w ++ data) None, Ok tt)
  end.

(** ** Integers *)

(** [len as u32] *)
Definition as_u32 (n : nat) : N := (N.of_nat n mod 2 ^ 32)%N.

(** [u32::to_be_bytes] and [to_le_bytes] *)
Definition to_be_bytes (n : N) : list N :=
  [n / 2 ^ 24 mod 256; n / 2 ^ 16 mod 256; n / 2 ^ 8 mod 256; n mod 256]%N.
Definition to_le_bytes (n : N) : list N := reverse (to_be_bytes n).

(** [u32::from_be_bytes] and [from_le_bytes] *)
Definition from_be_bytes (bs : list N) : N := foldl (fun acc b => acc * 256 + b)%N 0%N bs.
Definition from_le_bytes (bs : list N) : N := from_be_bytes (reverse bs).

(** [AsyncReadExt::read_u32]: big-endian. *)
Definition read_u32 (r : Reader) : result io_error (N * Reader) :=
  '(bs, r') ← read_exact 4 r; Ok (from_be_bytes bs, r').

Definition byte_ok (b : N) : Prop := (b < 256)%N.
Abbreviation bytes_ok bs := (Forall byte_ok bs).

(** ** UTF-8 *)

(** A [char]: a Unicode scalar value. *)
Definition is_scalar (c : N) : bool := in_range 0 0xD7FF c || in_range 0xE000 0x10FFFF c.

Definition continuation (b : N) : bool := in_range 128 191 b.

(** [String::from_utf8]: overlong forms, surrogates and values above U+10FFFF are refused. *)
Fixpoint from_utf8 (bs : list N) : option str :=
  match bs with
  | [] => Some []
  | b0 :: r0 =>
      if bool_decide (b0 < 128)%N then cons b0 <$> from_utf8 r0
      else match r0 with
      | [] => None
      | b1 :: r1 =>
          if negb (continuation b1) then None
          else if in_range 194 223 b0 then
            cons ((b0 - 192) * 64 + (b1 - 128))%N <$> from_utf8 r1
          else match r1 with
          | [] => None
          | b2 :: r2 =>
              if negb (continuation b2) then None
              else if in_range 224 239 b0 then
                let c := ((b0 - 224) * 4096 + (b1 - 128) * 64 + (b2 - 128))%N in
                if in_range 2048 65535 c && is_scalar c then cons c <$> from_utf8 r2 else None
              else match r2 with
              | [] => None
              | b3 :: r3 =>
                  if negb (continuation b3) then None
                  else if in_range 240 244 b0 then
                    let c := ((b0 - 240) * 262144 + (b1 - 128) * 4096 + (b2 - 128) * 64 + (b3 - 128))%N in
                    if in_range 65536 0x10FFFF c then cons c <$> from_utf8 r3 else None
                  else None
              end
          end
      end
  end.

(** ** Laws *)

Lemma in_range_true lo hi c : in_range lo hi c = true <-> (lo <= c <= hi)%N.
Proof. unfold in_range. rewrite andb_true_iff, !bool_decide_eq_true. done. Qed.

Lemma in_range_false lo hi c : in_range lo hi c = false <-> ~ (lo <= c <= hi)%N.
Proof. rewrite <- in_range_true. by destruct (in_range lo hi c). Qed.

Lemma read_exact_app bs rest e :
  read_exact (length bs) (mkReader (bs ++ rest) e) = Ok (bs, mkReader rest e).
Proof.
  unfold read_exact. simpl. rewrite bool_decide_true by (rewrite length_app; lia).
  by rewrite take_app_length, drop_app_length.
Qed.

Lemma read_exact_Ok n r bs r' :
  read_exact n r = Ok (bs, r') <->
  unread r = bs ++ unread r' /\ length bs = n /\ fault r' = fault r.
Proof.
  split.
  - unfold read_exact. case_bool_decide as H; [|done]. intros [= <- <-]. simpl.
    rewrite take_drop, length_take. split_and!; [done|lia|done].
  - destruct r as [u e], r' as [u' e']. simpl. intros (-> & <- & ->). apply read_exact_app.
Qed.

Lemma read_exact_short n r :
  length (unread r) < n -> read_exact n r = Err (default UnexpectedEof (fault r)).
Proof. intros H. unfold read_exact. by rewrite bool_decide_false by lia. Qed.

Lemma from_to_be_bytes n : (n < 2 ^ 32)%N -> from_be_bytes (to_be_bytes n) = n.
Proof. intros H. unfold to_be_bytes. cbn [from_be_bytes foldl]. lia. Qed.

Lemma to_from_be_bytes bs : length bs = 4 -> bytes_ok bs -> to_be_bytes (from_be_bytes bs) = bs.
Proof.
  intros Hl Hb. destruct bs as [|b0 [|b1 [|b2 [|b3 [|]]]]]; try done.
  repeat match goal with H : Forall _ (_ :: _) |- _ => apply Forall_cons in H as [? H] end.
  unfold byte_ok in *. cbn [from_be_bytes foldl]. unfold to_be_bytes. repeat f_equal; lia.
Qed.

Lemma from_be_bytes_bound bs : length bs = 4 -> bytes_ok bs -> (from_be_bytes bs < 2 ^ 32)%N.
Proof.
  intros Hl Hb. destruct bs as [|b0 [|b1 [|b2 [|b3 [|]]]]]; try done.
  repeat match goal with H : Forall _ (_ :: _) |- _ => apply Forall_cons in H as [? H] end.
  unfold byte_ok in *. cbn [from_be_bytes foldl]. lia.
Qed.

Lemma length_to_be_bytes n : length (to_be_bytes n) = 4.
Proof. done. Qed.

Lemma to_be_bytes_ok n : bytes_ok (to_be_bytes n).
Proof. unfold to_be_bytes, byte_ok. repeat constructor; lia. Qed.

Lemma from_to_le_bytes n : (n < 2 ^ 32)%N -> from_le_bytes (to_le_bytes n) = n.
Proof. intros H. unfold from_le_bytes, to_le_bytes. rewrite reverse_involutive. by apply from_to_be_bytes. Qed.

Lemma to_from_le_bytes bs : length bs = 4 -> bytes_ok bs -> to_le_bytes (from_le_bytes bs) = bs.
Proof.
  intros Hl Hb. unfold from_le_bytes, to_le_bytes.
  rewrite to_from_be_bytes, reverse_involutive by (by rewrite ?length_reverse || by apply Forall_reverse). done.
Qed.

Lemma from_le_bytes_bound bs : length bs = 4 -> bytes_ok bs -> (from_le_bytes bs < 2 ^ 32)%N.
Proof. intros Hl Hb. apply from_be_bytes_bound; [by rewrite length_reverse|by apply Forall_reverse]. Qed.

Lemma as_u32_small n : (N.of_nat n < 2 ^ 32)%N -> as_u32 n = N.of_nat n.
Proof. intros H. unfold as_u32. by apply N.mod_small. Qed.

(** Decoding inverts encoding on strings of scalar values. *)
Lemma from_utf8_char c bs : is_scalar c = true -> from_utf8 (utf8_char c ++ bs) = cons c <$> from_utf8 bs.
Proof.
  unfold is_scalar. intros Hc%orb_true_iff. rewrite !in_range_true in Hc.
  unfold utf8_char. repeat case_bool_decide; cbn [app from_utf8].
  - by rewrite bool_decide_true.
  - rewrite bool_decide_false by lia. unfold continuation.
    rewrite !(proj2 (in_range_true _ _ _)) by lia. simpl. f_equal. f_equal. lia.
  - rewrite bool_decide_false by lia. unfold continuation.
    rewrite !(proj2 (in_range_true 128 191 _)) by lia. simpl.
    rewrite (proj2 (in_range_false 194 223 _)), (proj2 (in_range_true 224 239 _)) by lia.
    match goal with |- context [in_range 2048 65535 ?x] => replace x with c by lia end.
    rewrite (proj2 (in_range_true 2048 65535 _)) by lia. simpl.
    unfold is_scalar. rewrite (proj2 (orb_true_iff _ _)); [done|]. by rewrite !in_range_true.
  - rewrite bool_decide_false by lia. unfold continuation.
    rewrite !(proj2 (in_range_true 128 191 _)) by lia. simpl.
    rewrite (proj2 (in_range_false 194 223 _)), (proj2 (in_range_false 224 239 _)),
      (proj2 (in_range_true 240 244 _)) by lia.
    match goal with |- context [in_range 65536 _ ?x] => replace x with c by lia end.
    by rewrite (proj2 (in_range_true 65536 _ _)) by lia.
Qed.

Lemma from_utf8_as_bytes s : Forall (fun c => is_scalar c = true) s -> from_utf8 (as_bytes s) = Some s.
Proof.
  unfold as_bytes. induction 1 as [|c s Hc _ IH]; [done|].
  by rewrite bind_cons, from_utf8_char, IH.
Qed.

(** What decodes is the encoding of its result, which has scalar values only. *)
Lemma from_utf8_Some bs s :
  from_utf8 bs = Some s -> as_bytes s = bs /\ Forall (fun c => is_scalar c = true) s.
Proof.
  revert s. induction bs as [bs IH] using (induction_ltof1 _ length).
  assert (Hcons : forall c pre rest s, bs = pre ++ rest -> pre = utf8_char c -> is_scalar c = true ->
    cons c <$> from_utf8 rest = Some s -> as_bytes s = bs /\ Forall (fun c => is_scalar c = true) s).
  { intros c pre rest s -> -> Hc Hs. destruct (from_utf8 rest) as [s'|] eqn:E; [|done].
    injection Hs as <-. destruct (IH rest) with (s := s') as [Hb Hf]; [|done|].
    - unfold ltof. rewrite length_app. pose proof (utf8_char_nonempty c).
      destruct (utf8_char c); simpl; [done|lia].
    - split; [|by constructor]. unfold as_bytes in *. by rewrite bind_cons, Hb. }
  clear IH. intros s Hs. destruct bs as [|b0 r0]; cbn [from_utf8] in Hs.
  { injection Hs as <-. done. }
  case_bool_decide.
  { eapply (Hcons b0 [b0]); [done| |by apply orb_true_iff; left; apply in_range_true; lia|done].
    unfold utf8_char. by rewrite bool_decide_true. }
  destruct r0 as [|b1 r1]; [done|].
  destruct (continuation b1) eqn:E1; [|done]. apply in_range_true in E1. cbn [negb] in Hs.
  destruct (in_range 194 223 b0) eqn:E0.
  { apply in_range_true in E0. eapply (Hcons _ [b0; b1]); [done| | |exact Hs].
    - unfold utf8_char. rewrite bool_decide_false, bool_decide_true by lia. repeat f_equal; lia.
    - apply orb_true_iff. left. apply in_range_true. lia. }
  destruct r1 as [|b2 r2]; [done|].
  destruct (continuation b2) eqn:E2; [|done]. apply in_range_true in E2. cbn [negb] in Hs.
  destruct (in_range 224 239 b0) eqn:E3.
  { apply in_range_true in E3. cbv zeta in Hs.
    destruct (in_range 2048 65535 _) eqn:E4; [|done]. apply in_range_true in E4. cbn [andb] in Hs.
    destruct (is_scalar _) eqn:E5; [|done].
    eapply (Hcons _ [b0; b1; b2]); [done| |exact E5|exact Hs].
    unfold utf8_char. rewrite !bool_decide_false, bool_decide_true by lia. repeat f_equal; lia. }
  destruct r2 as [|b3 r3]; [done|].
  destruct (continuation b3) eqn:E4; [|done]. apply in_range_true in E4. cbn [negb] in Hs.
  destruct (in_range 240 244 b0) eqn:E5; [|done]. apply in_range_true in E5. cbv zeta in Hs.
  destruct (in_range 65536 _ _) eqn:E6; [|done]. apply in_range_true in E6.
  eapply (Hcons _ [b0; b1; b2; b3]); [done| | |exact Hs].
  - unfold utf8_char. rewrite !bool_decide_false by lia. repeat f_equal; lia.
  - apply orb_true_iff. right. apply in_range_true. lia.
Qed.

#[global] Arguments to_be_bytes : simpl never.
#[global] Arguments to_le_bytes : simpl never.
#[global] Arguments from_be_bytes : simpl never.
#[global] Arguments from_le_bytes : simpl never.
#[global] Arguments as_u32 : simpl never.
#[global] Arguments read_exact : simpl never.
