(* ===== verification/Framing.v ===== *)
(** * Framed byte streams

    The interface the two framing protocols share, and what a peer that reads frames in a
    loop gets from it: the frames that were written, in order, and a prefix of them when the
    stream is cut at any byte.  ExecStream and Tunnel are its instances. *)
From S2P Require Import Prelude Strs Bytes.

Class Framing (F E : Type) := {
  frame_valid : F -> Prop;
  frame_bytes : F -> list N;
  next_frame : Reader -> result E (option (F * Reader));
  next_frame_valid f rest e :
    frame_valid f -> next_frame (mkReader (frame_bytes f ++ rest) e) = Ok (Some (f, mkReader rest e));
  next_frame_cut f k e :
    frame_valid f -> k < length (frame_bytes f) ->
    exists why, next_frame (mkReader (take k (frame_bytes f)) e) = match why with Some x => Err x | None => Ok None end;
}.

Section Frames.
Context {F E : Type} `{!Framing F E}.

(** A loop that reads frames until the stream ends; [None] is the orderly end. *)
Fixpoint read_frames (fuel : nat) (r : Reader) : list F * option (option E) :=
  match fuel with
  | O => ([], None)
  | S fuel =>
      match next_frame r with
      | Ok (Some (f, r)) => let '(fs, ended) := read_frames fuel r in (f :: fs, ended)
      | Ok None => ([], Some None)
      | Err e => ([], Some (Some e))
      end
  end.

Lemma read_frames_app fs fuel rest e :
  Forall frame_valid fs ->
  read_frames (length fs + fuel) (mkReader ((fs ≫= frame_bytes) ++ rest) e) =
  let '(more, ended) := read_frames fuel (mkReader rest e) in (fs ++ more, ended).
Proof.
  induction 1 as [|f fs Hf _ IH]; [cbn [mbind list_bind app length Nat.add]; by destruct (read_frames fuel _)|].
  rewrite bind_cons, <- app_assoc. cbn [length Nat.add read_frames]. rewrite next_frame_valid, IH by done.
  by destruct (read_frames fuel _).
Qed.

(** Cut anywhere, the stream gives the frames that are complete. *)
Lemma read_frames_cut fs k e :
  Forall frame_valid fs -> k < length (fs ≫= frame_bytes) ->
  exists fs' why, fs' `prefix_of` fs /\
    read_frames (length fs) (mkReader (take k (fs ≫= frame_bytes)) e) = (fs', Some why) /\
    length (fs' ≫= frame_bytes) <= k.
Proof.
  intros H. revert k. induction H as [|f fs Hf _ IH]; intros k Hk; [simpl in Hk; lia|].
  rewrite bind_cons in *. cbn [length read_frames]. destruct (decide (k < length (frame_bytes f))) as [Hlt|Hge].
  - rewrite take_app_le by lia. destruct (next_frame_cut f k e Hf Hlt) as [why ->].
    exists [], why. split; [apply prefix_nil|]. split; [by destruct why|simpl; lia].
  - rewrite take_app_ge by lia. rewrite next_frame_valid by done. rewrite length_app in Hk.
    destruct (IH (k - length (frame_bytes f))) as (fs' & why & Hp & -> & Hl); [lia|].
    exists (f :: fs'), why. split; [by apply prefix_cons|]. split; [done|].
    rewrite bind_cons, length_app. lia.
Qed.
End Frames.
