(* ===== verification/ExecStream.v ===== *)
(** * Streaming command execution (exec_stream.rs, exec.rs, pod/exec.rs)

    A command's input, output, errors and exit status share one HTTP body in each
    direction as length-prefixed frames.  The client side is [read_output] and
    [forward_stdin], the pod side [forward_input] and [forward_output]; each loop consumes a
    byte stream whose end or failure is part of the reader, so a lost connection at any byte
    is a case of the theorems.  The loops take fuel: one iteration consumes at least five
    bytes, and the theorems give a bound on the fuel that is enough. *)
From S2P Require Import Prelude Strs PodNames Bytes Framing.

Definition CHUNK_SIZE : nat := N.to_nat (64 * 1024).
Definition MAX_REQUEST_SIZE : nat := N.to_nat (1024 * 1024).
Definition UNKNOWN_OUTCOME : str :=
  lit "exec connection lost; command outcome is unknown (the command was not retried)".

Lemma CHUNK_SIZE_u32 n : n <= CHUNK_SIZE -> (N.of_nat n < 2 ^ 32)%N.
Proof. unfold CHUNK_SIZE. lia. Qed.

Lemma CHUNK_SIZE_ge n : (N.of_nat n <= 65536)%N -> n <= CHUNK_SIZE.
Proof. unfold CHUNK_SIZE. lia. Qed.

Lemma MAX_REQUEST_SIZE_u32 n : n <= MAX_REQUEST_SIZE -> (N.of_nat n < 2 ^ 32)%N.
Proof. unfold MAX_REQUEST_SIZE. lia. Qed.

#[global] Opaque CHUNK_SIZE MAX_REQUEST_SIZE.

(** ** Frames (exec_stream.rs) *)

Inductive Frame :=
| Stdin (data : list N)
| StdinEof
| Stdout (data : list N)
| Stderr (data : list N)
| Exit (code : N)
| Error (error : str).

#[export] Instance Frame_eq_dec : EqDecision Frame.
Proof. solve_decision. Defined.

(** The tag and the payload of a frame, the first step of [Frame::encode]. *)
Definition frame_parts (f : Frame) : N * list N :=
  match f with
  | Stdin data => (1%N, data)
  | StdinEof => (2%N, [])
  | Stdout data => (3%N, data)
  | Stderr data => (4%N, data)
  | Exit code => (5%N, [code])
  | Error error => (6%N, as_bytes error)
  end.

Definition encode (f : Frame) : list N :=
  let '(tag, payload) := frame_parts f in
  tag :: to_be_bytes (as_u32 (length payload)) ++ payload.

Inductive exec_error :=
| Io (e : io_error)
| PayloadExceeds (limit : nat)
| NotUtf8
| InvalidFrame (tag : N)
| RequestTooLarge
| InvalidRequest.

Definition io {A} (r : result io_error A) : result exec_error A :=
  match r with Ok a => Ok a | Err e => Err (Io e) end.

Definition read_payload (limit : nat) (r : Reader) : result exec_error (list N * Reader) :=
  '(n, r) ← io (read_u32 r);
  if bool_decide (N.of_nat limit < n)%N then Err (PayloadExceeds limit)
  else io (read_exact (N.to_nat n) r).

Definition read_frame (r : Reader) : result exec_error (option (Frame * Reader)) :=
  first ← io (read_one r);
  match first with
  | None => Ok None
  | Some (tag, r) =>
      '(payload, r) ← read_payload CHUNK_SIZE r;
      frame ← match tag, payload with
              | 1%N, _ => Ok (Stdin payload)
              | 2%N, [] => Ok StdinEof
              | 3%N, _ => Ok (Stdout payload)
              | 4%N, _ => Ok (Stderr payload)
              | 5%N, [code] => Ok (Exit code)
              | 6%N, _ => Error <$> context NotUtf8 (from_utf8 payload)
              | tag, _ => Err (InvalidFrame tag)
              end;
      Ok (Some (frame, r))
  end.

Section Requests.
(** [serde_json::to_vec] and [from_slice] at the request type. *)
Context {T : Type} (to_vec : T -> list N) (from_slice : list N -> option T).

Definition encode_request (request : T) : result exec_error (list N) :=
  let payload := to_vec request in
  if bool_decide (MAX_REQUEST_SIZE < length payload) then Err RequestTooLarge
  else Ok (to_be_bytes (as_u32 (length payload)) ++ payload).

Definition read_request (r : Reader) : result exec_error (T * Reader) :=
  '(payload, r) ← read_payload MAX_REQUEST_SIZE r;
  request ← context InvalidRequest (from_slice payload);
  Ok (request, r).
End Requests.

(** ** The client (exec.rs) *)

Inductive outcome :=
| Exited (code : N)
| CommandError (error : str)          (* reported by the pod *)
| Unknown (cause : option exec_error) (* [UNKNOWN_OUTCOME], with the read error if any *)
| InvalidResponse
| OutputFailed (e : io_error)         (* the client's own stdout or stderr *)
| OutOfFuel.

#[export] Instance exec_error_eq_dec : EqDecision exec_error.
Proof. solve_decision. Defined.
#[export] Instance outcome_eq_dec : EqDecision outcome.
Proof. solve_decision. Defined.

(** [read_output]: what was written to stdout and stderr, and how it ended. *)
Fixpoint read_output (fuel : nat) (r : Reader) (out err : Writer) : Writer * Writer * outcome :=
  match fuel with
  | O => (out, err, OutOfFuel)
  | S fuel =>
      match read_frame r with
      | Err e => (out, err, Unknown (Some e))
      | Ok None => (out, err, Unknown None)
      | Ok (Some (Stdout data, r)) =>
          match write_all data out with
          | (out, Ok _) => read_output fuel r out err
          | (out, Err e) => (out, err, OutputFailed e)
          end
      | Ok (Some (Stderr data, r)) =>
          match write_all data err with
          | (err, Ok _) => read_output fuel r out err
          | (err, Err e) => (out, err, OutputFailed e)
          end
      | Ok (Some (Exit code, _)) => (out, err, Exited code)
      | Ok (Some (Error error, _)) => (out, err, CommandError error)
      | Ok (Some ((Stdin _ | StdinEof), _)) => (out, err, InvalidResponse)
      end
  end.

(** A loop of [read]s into a buffer of [CHUNK_SIZE] bytes sees chunks that fit the buffer,
    then the end or an error. *)
Definition chunk_ok (data : list N) : Prop := length data <= CHUNK_SIZE /\ bytes_ok data.

(** [forward_stdin]: the bodies it sends.  [room] is how many sends the channel accepts
    before its receiver is gone. *)
Fixpoint forward_stdin (chunks : list (list N)) (fault : option io_error) (room : nat) : list (list N) :=
  match chunks, room with
  | _, O => []
  | data :: chunks, S room => encode (Stdin data) :: forward_stdin chunks fault room
  | [], S _ => match fault with None => [encode StdinEof] | Some _ => [] end
  end.

(** ** The pod (pod/exec.rs) *)

(** [forward_output], and [forward_terminal_output] with [Stdout]: the bodies sent and how
    the loop ended.  [room] is how many sends the channel accepts before its receiver is
    gone. *)
Inductive output_end := OutputDone | OutputRead (e : io_error) | ReceiverGone.

Fixpoint forward_output (frame : list N -> Frame) (chunks : list (list N)) (fault : option io_error)
    (room : nat) : list (list N) * output_end :=
  match chunks with
  | [] => ([], match fault with None => OutputDone | Some e => OutputRead e end)
  | data :: chunks =>
      match room with
      | O => ([], ReceiverGone)
      | S room =>
          let '(sent, ended) := forward_output frame chunks fault room in
          (encode (frame data) :: sent, ended)
      end
  end.

Inductive input_end :=
| Pending                             (* input is complete; waits for the response *)
| DataAfterEof | DuplicateEof | InvalidInputFrame | ClosedWithoutEof
| InputRead (e : exec_error) | InputWrite (e : io_error) | InputOutOfFuel.

(** [forward_input]: [stdin] is the writer of the child's input while it is open, [sink]
    what the child has received. *)
Fixpoint forward_input (fuel : nat) (terminal : bool) (r : Reader) (stdin : bool) (eof : bool) (sink : Writer)
    : Writer * bool * input_end :=
  match fuel with
  | O => (sink, stdin, InputOutOfFuel)
  | S fuel =>
      match read_frame r with
      | Err e => (sink, stdin, InputRead e)
      | Ok (Some (Stdin data, r)) =>
          if eof then (sink, stdin, DataAfterEof)
          else if stdin then
            match write_all data sink with
            | (sink, Ok _) => forward_input fuel terminal r true eof sink
            | (sink, Err e) =>
                if bool_decide (e = BrokenPipe) || terminal && bool_decide (e = Eio)
                then forward_input fuel terminal r false eof sink
                else (sink, stdin, InputWrite e)
            end
          else forward_input fuel terminal r false eof sink
      | Ok (Some (StdinEof, r)) =>
          if eof then (sink, stdin, DuplicateEof)
          else forward_input fuel terminal r false true sink
      | Ok (Some ((Stdout _ | Stderr _ | Exit _ | Error _), _)) => (sink, stdin, InvalidInputFrame)
      | Ok None => (sink, stdin, if eof then Pending else ClosedWithoutEof)
      end
  end.

(** The exit status a frame carries: [run_process] after the command completed. *)
Definition exit_code (code signal : option Z) : option N :=
  let u8 z := if bool_decide (0 <= z <= 255)%Z then Some (Z.to_N z) else None in
  match code, signal with
  | Some code, None => u8 code
  | None, Some signal => u8 (128 + signal)%Z
  | _, _ => None
  end.

(** ** Admission of a command (pod/exec.rs, [exec_handler]) *)

Record ExecSpec := mkExecSpec {
  exec_id : list N;
  command : list str;
  relative_workdir : str;
  terminal : bool;
}.

Record PodExec := mkPodExec {
  setup_done : bool;
  pod_repo_path : option str;
  executions : gset (list N);
}.

#[export] Instance PodExec_updatable : Updatable PodExec := fun s =>
  mkPodExec (setup_done s) (pod_repo_path s) (executions s).

(** Whether a component of the path is [ParentDir] or [RootDir]. *)
Definition leaves_directory (p : str) : bool :=
  starts_with [c_slash] p || existsb (fun w => bool_decide (w = lit "..")) (Executor.path_components p).

(** [Path::join] *)
Definition path_join (base p : str) : str :=
  if starts_with [c_slash] p then p
  else if ends_with [c_slash] base || bool_decide (base = []) then base ++ p
  else base ++ [c_slash] ++ p.

(** After the request was read: the program and working directory it starts, or the status
    and text of the refusal.  [pty] and [spawn] are whether the system provides a terminal
    and starts the program. *)
Definition exec_handler (pty spawn : result str unit) (spec : ExecSpec) (s : PodExec)
    : result (N * str) (list str * str * PodExec) :=
  if bool_decide (command spec = []) || leaves_directory (relative_workdir spec)
  then Err (400%N, lit "invalid exec command or relative directory")
  else if negb (setup_done s) then Err (409%N, lit "pod setup is not complete")
  else
    repo_path ← context (409%N, lit "pod repository is unavailable") (pod_repo_path s);
    _ ← (if terminal spec then match pty with Ok _ => Ok tt | Err e => Err (400%N, e) end else Ok tt);
    if bool_decide (exec_id spec ∈ executions s)
    then Err (409%N, lit "execution ID is already active")
    else
      _ ← match spawn with Ok _ => Ok tt | Err e => Err (400%N, lit "starting exec program: " ++ e) end;
      Ok (command spec, path_join repo_path (relative_workdir spec),
          s <| executions ::= fun ids => {[exec_id spec]} ∪ ids |>).

(** [Drop for RegisteredExecution] *)
Definition execution_drop (id : list N) (s : PodExec) : PodExec :=
  s <| executions ::= fun ids => ids ∖ {[id]} |>.

(** ** Reading inverts encoding *)

Definition payload (f : Frame) : list N := (frame_parts f).2.

(** The frames a peer can read: the payload fits one chunk and is made of bytes. *)
Definition frame_ok (f : Frame) : Prop :=
  chunk_ok (payload f) /\
  match f with Error e => Forall (fun c => is_scalar c = true) e | _ => True end.

Lemma encode_eq f : encode f = (frame_parts f).1 :: to_be_bytes (as_u32 (length (payload f))) ++ payload f.
Proof. unfold encode, payload. by destruct (frame_parts f). Qed.

Lemma length_encode f : length (encode f) = 5 + length (payload f).
Proof. rewrite encode_eq. simpl. done. Qed.

Lemma read_payload_app limit bs rest e :
  (N.of_nat (length bs) < 2 ^ 32)%N -> length bs <= limit ->
  read_payload limit (mkReader (to_be_bytes (as_u32 (length bs)) ++ bs ++ rest) e)
  = Ok (bs, mkReader rest e).
Proof.
  intros H32 Hl. unfold read_payload, read_u32.
  change 4 with (length (to_be_bytes (as_u32 (length bs)))). rewrite read_exact_app. simpl.
  rewrite as_u32_small by done. change (mbind ?f (Ok ?a)) with (f a). cbv beta iota.
  rewrite from_to_be_bytes by done.
  rewrite Nat2N.id, bool_decide_false by lia. by rewrite read_exact_app.
Qed.

Lemma read_payload_Ok limit r bs r' :
  bytes_ok (unread r) -> read_payload limit r = Ok (bs, r') ->
  unread r = to_be_bytes (as_u32 (length bs)) ++ bs ++ unread r' /\ length bs <= limit /\
  fault r' = fault r /\ bytes_ok (unread r').
Proof.
  intros Hb. unfold read_payload, read_u32.
  destruct (read_exact 4 r) as [[hd r1]|] eqn:E1; [|done]. cbn [mbind result_bind io].
  apply read_exact_Ok in E1 as (Hu & Hl & Hf). rewrite Hu in Hb.
  apply Forall_app in Hb as [Hhd Hb]. case_bool_decide as Hlim; [done|].
  destruct (read_exact (N.to_nat (from_be_bytes hd)) r1) as [[p r2]|] eqn:E2; [|done]. cbn [mbind result_bind io].
  intros [= <- <-]. apply read_exact_Ok in E2 as (Hu1 & Hl1 & Hf1). rewrite Hu1 in Hb.
  apply Forall_app in Hb as [_ Hb]. split_and!; [|lia|congruence|done].
  rewrite Hu, Hu1, Hl1. pose proof (from_be_bytes_bound hd Hl Hhd).
  rewrite as_u32_small, N2Nat.id by (rewrite N2Nat.id; done). by rewrite to_from_be_bytes.
Qed.

Lemma read_frame_encode f rest e :
  frame_ok f -> read_frame (mkReader (encode f ++ rest) e) = Ok (Some (f, mkReader rest e)).
Proof.
  intros [[Hl _] Hs]. rewrite encode_eq. unfold read_frame, read_one. cbn [unread fault app].
  change (mbind ?g (io (Ok ?a))) with (g a). cbv beta iota.
  rewrite <- app_assoc, read_payload_app by (by try apply CHUNK_SIZE_u32).
  change (mbind ?g (Ok ?a)) with (g a). cbv beta iota.
  destruct f; simpl; try done. unfold payload. simpl. by rewrite from_utf8_as_bytes.
Qed.

Lemma read_frame_encode_end f e :
  frame_ok f -> read_frame (mkReader (encode f) e) = Ok (Some (f, mkReader [] e)).
Proof. intros Hf. rewrite <- (app_nil_r (encode f)). by apply read_frame_encode. Qed.

Lemma read_frame_truncated f k e :
  frame_ok f -> 0 < k < length (encode f) ->
  read_frame (mkReader (take k (encode f)) e) = Err (Io (default UnexpectedEof e)).
Proof.
  intros [[Hl _] _]. rewrite length_encode. intros Hk. rewrite encode_eq.
  destruct k as [|k]; [lia|]. rewrite firstn_cons. unfold read_frame, read_one. cbn [unread fault].
  change (mbind ?g (io (Ok ?a))) with (g a). cbv beta iota.
  unfold read_payload, read_u32. destruct (decide (k < 4)).
  - by rewrite read_exact_short by (cbn [unread]; rewrite length_take, length_app, length_to_be_bytes; lia).
  - change 4 with (length (to_be_bytes (as_u32 (length (payload f))))) in n.
    rewrite take_app_ge by lia.
    change (read_exact 4) with (read_exact (length (to_be_bytes (as_u32 (length (payload f)))))).
    rewrite read_exact_app. change (mbind ?g (io (mbind ?h (Ok ?a)))) with (mbind g (io (h a))).
    cbv beta iota. change (mbind ?g (io (Ok ?a))) with (g a). cbv beta iota.
    rewrite as_u32_small, from_to_be_bytes, Nat2N.id, bool_decide_false by (by try apply CHUNK_SIZE_u32 || lia).
    rewrite length_to_be_bytes in *. rewrite read_exact_short; [done|]. cbn [unread]. rewrite length_take. lia.
Qed.

(** A stream cut before the end of a frame gives an error or, at a frame boundary, the
    end of the stream. *)
Lemma read_frame_cut f k e :
  frame_ok f -> k < length (encode f) ->
  exists cause, read_frame (mkReader (take k (encode f)) e) = match cause with Some c => Err c | None => Ok None end.
Proof.
  intros Hf Hk. destruct k as [|k].
  - destruct e as [e|]; [by exists (Some (Io e))|by exists None].
  - exists (Some (Io (default UnexpectedEof e))). apply read_frame_truncated; [done|lia].
Qed.

#[export] Instance exec_framing : Framing Frame exec_error := {
  frame_valid := frame_ok;
  frame_bytes := encode;
  next_frame := read_frame;
  next_frame_valid := read_frame_encode;
  next_frame_cut := read_frame_cut;
}.

(** Framing is exact: on any byte stream, the client and the pod read a frame exactly
    when the stream starts with the encoding of one whose payload fits a chunk, and then
    they are left with the rest of the stream; a stream that ends inside a frame is an
    error, never a shorter frame or an orderly end. *)
Theorem exec_framing_exact f r r' :
  bytes_ok (unread r) ->
  (read_frame r = Ok (Some (f, r')) <->
   frame_ok f /\ unread r = encode f ++ unread r' /\ fault r' = fault r) /\
  (frame_ok f -> forall k e, 0 < k < length (encode f) ->
     read_frame (mkReader (take k (encode f)) e) = Err (Io (default UnexpectedEof e))).
Proof.
  intros Hb. split; [|intros; by apply read_frame_truncated]. split.
  - unfold read_frame, read_one. destruct r as [[|tag u] e]; cbn [unread fault] in *.
    { by destruct e. }
    apply Forall_cons in Hb as [_ Hb]. cbn [mbind result_bind io].
    destruct (read_payload CHUNK_SIZE (mkReader u e)) as [[p r1]|] eqn:E; [|done].
    apply read_payload_Ok in E as (Hu & Hl & Hf & _); [|done]. cbn [unread fault] in *.
    rewrite Hu in Hb. apply Forall_app in Hb as [_ Hb]. apply Forall_app in Hb as [Hp _].
    cbn [mbind result_bind]. intros H.
    assert (Hparts : frame_parts f = (tag, p) /\ r1 = r' /\
      match f with Error s => Forall (fun c => is_scalar c = true) s | _ => True end).
    { destruct (from_utf8 p) as [s|] eqn:E1; [apply from_utf8_Some in E1 as [<- Hs]|];
        repeat (case_match; simplify_eq/=; try done). }
    destruct Hparts as (Hparts & -> & Hs). unfold frame_ok, payload, chunk_ok. rewrite Hparts.
    split_and!; try done. unfold encode. rewrite Hparts. cbv beta iota.
    by rewrite <- app_comm_cons, <- app_assoc, <- Hu.
  - destruct r as [u e], r' as [u' e']. cbn [unread fault]. intros (Hf & -> & ->).
    by apply read_frame_encode.
Qed.

(** A stdout frame with its two bytes, on a stream that goes on. *)
Lemma exec_framing_exact_witness :
  let r := mkReader [3; 0; 0; 0; 2; 104; 105; 5]%N None in
  read_frame r = Ok (Some (Stdout [104; 105]%N, mkReader [5]%N None)).
Proof.
  intros r. apply (exec_framing_exact (Stdout [104; 105]%N) r (mkReader [5]%N None)).
  - subst r. cbn. unfold byte_ok. repeat constructor; lia.
  - split_and!; [|done..]. split; [|done]. split; [by apply CHUNK_SIZE_ge|].
    cbn. unfold byte_ok. repeat constructor; lia.
Defined.

(** ** Output *)

Definition stdout_of (f : Frame) : list N := match f with Stdout d => d | _ => [] end.
Definition stderr_of (f : Frame) : list N := match f with Stderr d => d | _ => [] end.
Definition output_frame (f : Frame) : Prop :=
  frame_ok f /\ match f with Stdout _ | Stderr _ => True | _ => False end.

Lemma read_output_frames fs fuel rest e out err :
  Forall output_frame fs ->
  read_output (length fs + fuel) (mkReader ((fs ≫= encode) ++ rest) e) (mkWriter out None) (mkWriter err None)
  = read_output fuel (mkReader rest e) (mkWriter (out ++ (fs ≫= stdout_of)) None)
      (mkWriter (err ++ (fs ≫= stderr_of)) None).
Proof.
  intros H. revert out err. induction H as [|f fs [Hok Hf] _ IH]; intros out err.
  { simpl. by rewrite !app_nil_r. }
  rewrite !bind_cons, <- app_assoc. cbn [length Nat.add read_output]. rewrite read_frame_encode by done.
  destruct f; try done; cbn [write_all limit accepted stdout_of stderr_of]; rewrite IH, <- ?app_assoc; done.
Qed.

(** A merge of two sequences of sends on one channel. *)
Inductive interleave {A} : list A -> list A -> list A -> Prop :=
| il_nil : interleave [] [] []
| il_left x l r m : interleave l r m -> interleave (x :: l) r (x :: m)
| il_right x l r m : interleave l r m -> interleave l (x :: r) (x :: m).

Lemma forward_output_all frame chunks room :
  length chunks <= room -> forward_output frame chunks None room = (encode ∘ frame <$> chunks, OutputDone).
Proof.
  revert room. induction chunks as [|c chunks IH]; intros room H; [done|].
  destruct room as [|room]; simpl in H; [lia|]. simpl. rewrite IH by lia. done.
Qed.

Lemma interleave_frames outs errs m :
  interleave (encode ∘ Stdout <$> outs) (encode ∘ Stderr <$> errs) m ->
  Forall chunk_ok outs -> Forall chunk_ok errs ->
  exists fs, m = encode <$> fs /\ Forall output_frame fs /\ length fs = length outs + length errs /\
    (fs ≫= stdout_of) = concat outs /\ (fs ≫= stderr_of) = concat errs.
Proof.
  remember (encode ∘ Stdout <$> outs) as lo eqn:El. remember (encode ∘ Stderr <$> errs) as le eqn:Er.
  intros H. revert outs errs El Er. induction H as [|x l r m _ IH|x l r m _ IH]; intros outs errs El Er Ho He.
  - destruct outs, errs; try done. by exists [].
  - destruct outs as [|o outs]; [done|]. injection El as -> ->. apply Forall_cons in Ho as [Ho1 Ho].
    destruct (IH outs errs) as (fs & -> & Hf & Hl & H1 & H2); [done..|].
    exists (Stdout o :: fs). split_and!; [done|by constructor|simpl; lia|simpl; by rewrite <- H1|done].
  - destruct errs as [|o errs]; [done|]. injection Er as -> ->. apply Forall_cons in He as [He1 He].
    destruct (IH outs errs) as (fs & -> & Hf & Hl & H1 & H2); [done..|].
    exists (Stderr o :: fs). split_and!; [done|by constructor|simpl; lia|done|simpl; by rewrite <- H2].
Qed.

(** A response cut anywhere before the end of its exit status is an unknown outcome, and
    what was written is the output of the complete frames. *)
Lemma read_output_cut fs code fuel k e out err :
  Forall output_frame fs -> frame_ok (Exit code) -> length fs < fuel ->
  k < length ((fs ≫= encode) ++ encode (Exit code)) ->
  exists cause fs', fs' `prefix_of` fs /\
    read_output fuel (mkReader (take k ((fs ≫= encode) ++ encode (Exit code))) e)
      (mkWriter out None) (mkWriter err None)
    = (mkWriter (out ++ (fs' ≫= stdout_of)) None, mkWriter (err ++ (fs' ≫= stderr_of)) None, Unknown cause).
Proof.
  intros H Hexit. revert fuel k out err. induction H as [|f fs [Hok Hf] _ IH]; intros fuel k out err Hfuel Hk.
  - destruct fuel as [|fuel]; [simpl in Hfuel; lia|]. cbn [mbind list_bind app] in *.
    destruct (read_frame_cut (Exit code) k e Hexit Hk) as [cause Hc].
    exists cause, []. split; [apply prefix_nil|]. cbn [read_output mbind list_bind app]. rewrite Hc, !app_nil_r.
    by destruct cause.
  - destruct fuel as [|fuel]; [simpl in Hfuel; lia|]. rewrite bind_cons, <- app_assoc in *.
    destruct (decide (k < length (encode f))) as [Hlt|Hge].
    + destruct (read_frame_cut f k e Hok Hlt) as [cause Hc].
      exists cause, []. split; [apply prefix_nil|]. rewrite take_app_le by lia.
      cbn [read_output]. rewrite Hc, !app_nil_r. by destruct cause.
    + rewrite take_app_ge by lia. rewrite length_app in Hk. cbn [read_output].
      rewrite read_frame_encode by done.
      assert (Hn : length fs < fuel) by (simpl in Hfuel; lia).
      assert (Hk' : k - length (encode f) < length ((fs ≫= encode) ++ encode (Exit code))) by lia.
      destruct (IH fuel _ (out ++ stdout_of f) (err ++ stderr_of f) Hn Hk') as (cause & fs' & Hpre & Heq).
      exists cause, (f :: fs'). split; [by apply prefix_cons|].
      rewrite !bind_cons, !app_assoc, <- Heq.
      destruct f; try done; cbn [write_all limit accepted stdout_of stderr_of]; by rewrite app_nil_r.
Qed.

(** [C7] Command output is lossless: whatever the interleaving of the two output loops of the
    pod, the client writes exactly the bytes of the command's stdout and stderr and returns
    its exit status; and when the connection is lost at any byte before the end of the exit
    status, the client reports an unknown outcome, never an exit status, and has written a
    prefix of each stream. *)
Theorem exec_output_lossless outs errs m code rest e :
  Forall chunk_ok outs -> Forall chunk_ok errs -> byte_ok code ->
  interleave (forward_output Stdout outs None (length outs)).1
             (forward_output Stderr errs None (length errs)).1 m ->
  let body := concat m ++ encode (Exit code) in
  let client bytes :=
    read_output (S (length outs + length errs)) (mkReader bytes e) (mkWriter [] None) (mkWriter [] None) in
  client (body ++ rest) = (mkWriter (concat outs) None, mkWriter (concat errs) None, Exited code) /\
  (forall k, k < length body -> exists cause o er,
     client (take k body) = (mkWriter o None, mkWriter er None, Unknown cause) /\
     o `prefix_of` concat outs /\ er `prefix_of` concat errs).
Proof.
  intros Ho He Hc Hm. rewrite !forward_output_all in Hm by done.
  apply interleave_frames in Hm as (fs & -> & Hf & Hl & H1 & H2); [|done..].
  assert (Hexit : frame_ok (Exit code)).
  { split; [|done]. split; [by apply CHUNK_SIZE_ge|by repeat constructor]. }
  assert (Hconcat : concat (encode <$> fs) = fs ≫= encode)
    by (clear; induction fs as [|f fs IH]; [done|]; by rewrite fmap_cons, bind_cons, <- IH).
  intros body client. subst body client. cbv beta. rewrite Hconcat, <- Hl. split.
  - rewrite <- app_assoc, <- Nat.add_1_r, read_output_frames by done. cbn [app read_output].
    by rewrite read_frame_encode, H1, H2.
  - intros k Hk. destruct (read_output_cut fs code (S (length fs)) k e [] [] Hf Hexit ltac:(lia) Hk)
      as (cause & fs' & [tl ->] & Heq).
    exists cause, (fs' ≫= stdout_of), (fs' ≫= stderr_of). rewrite bind_app in H1, H2.
    split_and!; [exact Heq|rewrite <- H1; by eexists|rewrite <- H2; by eexists].
Qed.

(** A command that writes a chunk to stderr between two chunks of stdout. *)
Lemma exec_output_lossless_witness :
  exists m,
  interleave (forward_output Stdout [[104; 105]; [10]]%N None 2).1 (forward_output Stderr [[33]]%N None 1).1 m /\
  read_output 4 (mkReader (concat m ++ encode (Exit 7)) None) (mkWriter [] None) (mkWriter [] None)
  = (mkWriter [104; 105; 10]%N None, mkWriter [33]%N None, Exited 7).
Proof.
  set (outs := [[104; 105]; [10]]%N). set (errs := [[33]]%N).
  assert (Ho : Forall chunk_ok outs).
  { repeat constructor; try (by apply CHUNK_SIZE_ge); unfold byte_ok; lia. }
  assert (He : Forall chunk_ok errs).
  { repeat constructor; try (by apply CHUNK_SIZE_ge); unfold byte_ok; lia. }
  assert (Hi : interleave (forward_output Stdout outs None (length outs)).1
                 (forward_output Stderr errs None (length errs)).1
                 [encode (Stdout [104; 105]%N); encode (Stderr [33]%N); encode (Stdout [10]%N)])
    by repeat constructor.
  eexists. split; [exact Hi|]. rewrite <- (app_nil_r (_ ++ encode (Exit 7))).
  exact (proj1 (exec_output_lossless outs errs _ 7 [] None Ho He eq_refl Hi)).
Defined.

(** ** Input *)

Lemma forward_stdin_all chunks room :
  length chunks < room ->
  forward_stdin chunks None room = (encode <$> (Stdin <$> chunks)) ++ [encode StdinEof].
Proof.
  revert room. induction chunks as [|c chunks IH]; intros room H; destruct room as [|room]; simpl in H; try lia.
  - done.
  - simpl. by rewrite IH by lia.
Qed.

Lemma stdin_ok c : chunk_ok c -> frame_ok (Stdin c).
Proof. done. Qed.

Lemma stdin_eof_ok : frame_ok StdinEof.
Proof. split; [|done]. split; [by apply CHUNK_SIZE_ge|done]. Qed.

(** The bytes a request carries for its input. *)
Definition input_body (chunks : list (list N)) : list N :=
  concat (forward_stdin chunks None (S (length chunks))).

Lemma input_body_nil : input_body [] = encode StdinEof.
Proof. unfold input_body. cbn [length forward_stdin concat]. by rewrite app_nil_r. Qed.

Lemma input_body_cons c chunks : input_body (c :: chunks) = encode (Stdin c) ++ input_body chunks.
Proof. unfold input_body. rewrite !forward_stdin_all by (simpl; lia). done. Qed.

(** What a child that stops reading after [n] bytes has received. *)
Definition pipe (n : option nat) (data : list N) : Writer :=
  mkWriter (match n with Some n => take n data | None => data end) ((fun n => (n, BrokenPipe)) <$> n).

(** Once the child's input is closed, what remains of the request is only checked. *)
Lemma forward_input_closed chunks fuel terminal sink :
  Forall chunk_ok chunks -> length chunks + 1 < fuel ->
  forward_input fuel terminal (mkReader (input_body chunks) None) false false sink = (sink, false, Pending).
Proof.
  intros H. revert fuel. induction H as [|c chunks Hc _ IH]; intros fuel Hfuel.
  - do 2 (destruct fuel as [|fuel]; [simpl in Hfuel; lia|]). rewrite input_body_nil.
    cbn [forward_input]. rewrite read_frame_encode_end by apply stdin_eof_ok. done.
  - destruct fuel as [|fuel]; [simpl in Hfuel; lia|]. rewrite input_body_cons. cbn [forward_input].
    rewrite read_frame_encode by done. apply IH. simpl in Hfuel. lia.
Qed.

Lemma forward_input_frames chunks fuel terminal n acc :
  Forall chunk_ok chunks -> length chunks + 1 < fuel -> (forall m, n = Some m -> length acc <= m) ->
  forward_input fuel terminal (mkReader (input_body chunks) None) true false (pipe n acc)
  = (pipe n (acc ++ concat chunks), false, Pending).
Proof.
  intros H. revert fuel acc. induction H as [|c chunks Hc Hcs IH]; intros fuel acc Hfuel Hacc.
  - do 2 (destruct fuel as [|fuel]; [simpl in Hfuel; lia|]). rewrite input_body_nil.
    cbn [forward_input]. rewrite read_frame_encode_end by apply stdin_eof_ok.
    cbn [concat]. rewrite app_nil_r. done.
  - destruct fuel as [|fuel]; [simpl in Hfuel; lia|]. rewrite input_body_cons. cbn [forward_input concat].
    rewrite read_frame_encode by done. simpl in Hfuel.
    destruct n as [n|]; unfold pipe at 1; cbn [write_all limit accepted fmap option_fmap option_map].
    + specialize (Hacc n eq_refl). rewrite (take_ge acc) by lia.
      case_bool_decide as Hn.
      * replace (mkWriter (acc ++ c) _) with (pipe (Some n) (acc ++ c))
          by (unfold pipe; rewrite take_ge; [done|rewrite length_app; lia]).
        rewrite IH; [by rewrite <- app_assoc|lia|]. intros m [= <-]. rewrite length_app. lia.
      * rewrite forward_input_closed by (done || lia). unfold pipe. do 3 f_equal.
        rewrite !take_app_ge by lia. f_equal. rewrite take_app_le; [done|lia].
    + replace (mkWriter (acc ++ c) None) with (pipe None (acc ++ c)) by done.
      rewrite IH; [by rewrite <- app_assoc|lia|done].
Qed.

Lemma forward_input_cut chunks fuel terminal k e acc :
  Forall chunk_ok chunks -> length chunks + 1 < fuel -> k < length (input_body chunks) ->
  exists sink why,
    forward_input fuel terminal (mkReader (take k (input_body chunks)) e) true false (mkWriter acc None)
    = (mkWriter (acc ++ sink) None, true, why) /\ sink `prefix_of` concat chunks /\
    (why = ClosedWithoutEof \/ exists c, why = InputRead c).
Proof.
  intros H. revert fuel k acc. induction H as [|c chunks Hc Hcs IH]; intros fuel k acc Hfuel Hk.
  - destruct fuel as [|fuel]; [simpl in Hfuel; lia|]. rewrite input_body_nil in *.
    destruct (read_frame_cut StdinEof k e stdin_eof_ok Hk) as [cause Hc]. cbn [forward_input]. rewrite Hc.
    exists []. rewrite app_nil_r. destruct cause as [c|]; eexists; (split_and!; [done|done|eauto]).
  - destruct fuel as [|fuel]; [simpl in Hfuel; lia|]. rewrite input_body_cons in *.
    destruct (decide (k < length (encode (Stdin c)))) as [Hlt|Hge].
    + destruct (read_frame_cut (Stdin c) k e (stdin_ok c Hc) Hlt) as [cause Hr].
      rewrite take_app_le by lia. cbn [forward_input]. rewrite Hr.
      exists []. rewrite app_nil_r. destruct cause as [er|]; eexists; (split_and!; [done|apply prefix_nil|eauto]).
    + rewrite take_app_ge by lia. rewrite length_app in Hk. cbn [forward_input concat].
      rewrite read_frame_encode by done. cbn [write_all limit accepted]. simpl in Hfuel.
      destruct (IH fuel (k - length (encode (Stdin c))) (acc ++ c)) as (sink & why & Heq & Hp & Hw); [lia|lia|].
      exists (c ++ sink), why. rewrite Heq, <- app_assoc. split_and!; [done|by apply prefix_app|done].
Qed.

(** Command input is lossless: the child receives exactly the bytes the client read,
    then the end of its input; a child that stops reading after [n] bytes has got the
    first [n] and the command is not failed for it; and when the request is lost at any
    byte before its end-of-input frame, the loop fails, the child has got a prefix, and its
    input was not closed as if it were complete. *)
Theorem exec_input_lossless chunks terminal :
  Forall chunk_ok chunks ->
  let pod := forward_input (length chunks + 2) terminal in
  (forall n, pod (mkReader (input_body chunks) None) true false (pipe n [])
     = (pipe n (concat chunks), false, Pending)) /\
  (forall k e, k < length (input_body chunks) -> exists sink why,
     pod (mkReader (take k (input_body chunks)) e) true false (pipe None []) = (pipe None sink, true, why) /\
     sink `prefix_of` concat chunks /\
     (why = ClosedWithoutEof \/ exists c, why = InputRead c)).
Proof.
  intros H pod. subst pod. split.
  - intros n. replace (concat chunks) with ([] ++ concat chunks) by done.
    apply forward_input_frames; [done|lia|]. simpl. lia.
  - intros k e Hk. apply (forward_input_cut chunks _ terminal k e []); [done|lia|done].
Qed.

Lemma exec_input_lossless_witness :
  forward_input 4 false (mkReader (input_body [[97]; [98; 99]]%N) None) true false (pipe (Some 2) [])
  = (pipe (Some 2) [97; 98; 99]%N, false, Pending).
Proof.
  assert (H : Forall chunk_ok [[97]; [98; 99]]%N).
  { repeat constructor; try (by apply CHUNK_SIZE_ge); unfold byte_ok; lia. }
  exact (proj1 (exec_input_lossless _ false H) (Some 2)).
Defined.

(** ** Requests and admission *)

(** A request that is small enough arrives as it was sent, whatever follows it. *)
Lemma request_roundtrip {T} (to_vec : T -> list N) (from_slice : list N -> option T) req bs rest e :
  (forall t, from_slice (to_vec t) = Some t) ->
  encode_request to_vec req = Ok bs ->
  read_request from_slice (mkReader (bs ++ rest) e) = Ok (req, mkReader rest e).
Proof.
  intros Hserde. unfold encode_request. case_bool_decide as Hl; [done|]. intros Heq.
  replace bs with (to_be_bytes (as_u32 (length (to_vec req))) ++ to_vec req) by congruence.
  unfold read_request. rewrite <- app_assoc, read_payload_app by (try apply MAX_REQUEST_SIZE_u32; lia).
  cbn [mbind result_bind]. by rewrite Hserde.
Qed.

Lemma split_app_sep c a b : split c (a ++ c :: b) = split c a ++ split c b.
Proof.
  induction a as [|x a IH]; simpl.
  - by rewrite bool_decide_true.
  - case_bool_decide; [by rewrite IH|]. rewrite IH.
    destruct (split c a) eqn:E; [by apply split_nonempty in E|done].
Qed.

Lemma path_components_app a b :
  Executor.path_components (a ++ c_slash :: b) = Executor.path_components a ++ Executor.path_components b.
Proof. unfold Executor.path_components. by rewrite split_app_sep, filter_app. Qed.

Lemma path_components_join base p :
  starts_with [c_slash] p = false ->
  Executor.path_components (path_join base p) = Executor.path_components base ++ Executor.path_components p.
Proof.
  intros Hp. unfold path_join. rewrite Hp. destruct (ends_with [c_slash] base) eqn:E; simpl.
  - apply ends_with_true in E as [b ->]. rewrite <- app_assoc. simpl.
    rewrite !path_components_app. by rewrite app_nil_r.
  - case_bool_decide; [by subst|]. apply path_components_app.
Qed.

(** A command is started only for a non-empty command line after setup, under an id
    that no running command has, and in a directory below the repository: its path is the
    repository's, then components without [..].  While it is registered a second request
    with its id is refused, and its end frees the id again. *)
Theorem exec_admission pty spawn spec s prog cwd s' :
  exec_handler pty spawn spec s = Ok (prog, cwd, s') ->
  prog = command spec /\ prog <> [] /\ setup_done s = true /\ exec_id spec ∉ executions s /\
  (exists repo below, pod_repo_path s = Some repo /\ lit ".." ∉ below /\
     Executor.path_components cwd = Executor.path_components repo ++ below) /\
  (forall pty' spawn' again, exec_id again = exec_id spec -> is_ok (exec_handler pty' spawn' again s') = false) /\
  execution_drop (exec_id spec) s' = s.
Proof.
  unfold exec_handler. destruct (_ || _) eqn:Hc; [done|].
  apply orb_false_iff in Hc as [Hc%bool_decide_eq_false Hd].
  apply orb_false_iff in Hd as [Hs Hd].
  destruct (setup_done s) eqn:Hsetup; [|done]. simpl. destruct (pod_repo_path s) as [repo|] eqn:Hr; [|done]. simpl.
  destruct (if terminal spec then _ else _); [|done]. simpl. case_bool_decide as Hid; [done|].
  destruct spawn; [|done]. simpl. intros [= <- <- <-]. split_and!; try done.
  - exists repo, (Executor.path_components (relative_workdir spec)). split_and!; [done| |by apply path_components_join].
    intros Hin. apply not_true_iff_false in Hd. apply Hd, existsb_exists. exists (lit "..").
    split; [by apply list_elem_of_In|by apply bool_decide_eq_true].
  - intros pty' spawn' again Hag. rsimpl. rewrite Hsetup, Hr, Hag.
    rewrite (bool_decide_eq_true_2 (_ ∈ _)) by (apply elem_of_union_l, elem_of_singleton_2; done).
    by repeat case_match.
  - destruct s as [sd rp ids]. unfold execution_drop. rsimpl. f_equal.
    rewrite difference_union_distr_l_L, difference_diag_L, union_empty_l_L.
    apply difference_disjoint_L, disjoint_singleton_r. exact Hid.
Qed.

Lemma exec_admission_witness :
  exists cwd s', exec_handler (Ok tt) (Ok tt) (mkExecSpec [1%N] [lit "ls"] (lit "a/./b") false)
    (mkPodExec true (Some (lit "/repo")) ∅) = Ok ([lit "ls"], cwd, s') /\
  execution_drop [1%N] s' = mkPodExec true (Some (lit "/repo")) ∅.
Proof.
  exists (lit "/repo/a/./b"), (mkPodExec true (Some (lit "/repo")) {[ [1%N] ]}).
  assert (H : exec_handler (Ok tt) (Ok tt) (mkExecSpec [1%N] [lit "ls"] (lit "a/./b") false)
    (mkPodExec true (Some (lit "/repo")) ∅) =
    Ok ([lit "ls"], lit "/repo/a/./b", mkPodExec true (Some (lit "/repo")) {[ [1%N] ]}))
    by (vm_compute; reflexivity).
  split; [exact H|]. exact (proj2 (proj2 (proj2 (proj2 (proj2 (proj2 (exec_admission _ _ _ _ _ _ _ H))))))).
Defined.
