(* ===== verification/Tunnel.v ===== *)
(** * The multiplexed tunnel (tunnel.rs)

    TCP connections that a pod opens to the host share the stdin and stdout of one process
    in the container.  [mux] is both ends and the frames between them: the accept loop and
    the per-connection tasks of [run_tunnel_server_async] in the pod, the mux loop and the
    readers of [spawn_host_mux] on the host.  Each step is what one task does between two
    points where others can run, so the tasks interleave freely.  The two pipes deliver
    whole frames in order until the tunnel dies, which is what the framing theorem shows of
    the byte streams; a tunnel that died takes no further steps.

    [conns] records, for each stream, the bytes that crossed its two sockets; the program
    does not keep them. *)
From S2P Require Import Prelude Strs Bytes Framing.

(** ** Framing *)

Definition FRAME_OPEN : N := 1.
Definition FRAME_DATA : N := 2.
Definition FRAME_CLOSE : N := 3.
Definition MAX_PAYLOAD : nat := N.to_nat (64 * 1024).
Definition HEADER_LEN : nat := 9.

Lemma MAX_PAYLOAD_u32 n : n <= MAX_PAYLOAD -> (N.of_nat n < 2 ^ 32)%N.
Proof. unfold MAX_PAYLOAD. lia. Qed.
Lemma MAX_PAYLOAD_ge n : (N.of_nat n <= 65536)%N -> n <= MAX_PAYLOAD.
Proof. unfold MAX_PAYLOAD. lia. Qed.
#[global] Opaque MAX_PAYLOAD.

Record Frame := mkFrame { stream_id : N; frame_type : N; payload : list N }.

#[export] Instance Frame_eq_dec : EqDecision Frame.
Proof. solve_decision. Defined.

Inductive tunnel_error :=
| ReadingHeader (e : io_error) | ReadingPayload (e : io_error) | PayloadTooLarge (n : N) (sid : N).

(** [read_frame] *)
Definition read_frame (r : Reader) : result tunnel_error (Frame * Reader) :=
  match read_exact HEADER_LEN r with
  | Err e => Err (ReadingHeader e)
  | Ok (hdr, r) =>
      let sid := from_le_bytes (take 4 hdr) in
      let ty := nth 4 hdr 0%N in
      let n := from_le_bytes (drop 5 hdr) in
      if bool_decide (N.of_nat MAX_PAYLOAD < n)%N then Err (PayloadTooLarge n sid)
      else if bool_decide (0 < n)%N then
        match read_exact (N.to_nat n) r with
        | Err e => Err (ReadingPayload e)
        | Ok (p, r) => Ok (mkFrame sid ty p, r)
        end
      else Ok (mkFrame sid ty [], r)
  end.

(** [write_frame]: the bytes it writes. *)
Definition write_frame (f : Frame) : list N :=
  to_le_bytes (stream_id f) ++ [frame_type f] ++ to_le_bytes (as_u32 (length (payload f))) ++ payload f.

(** ** Both ends *)

Record conn := mkConn {
  c_in : list N;     (* read from the pod's client *)
  t_out : list N;    (* written to the host's target *)
  t_in : list N;     (* read from the target *)
  c_out : list N;    (* written to the client *)
}.

#[export] Instance conn_updatable : Updatable conn := fun c => mkConn (c_in c) (t_out c) (t_in c) (c_out c).

Record mux := mkMux {
  next_id : N;                       (* before the wrap-around of [AtomicU32] *)
  opening : option N;                (* accepted; its OPEN is not yet written *)
  pod_tx : gset N;                   (* the pod's [streams] map *)
  pod_rx : gmap N (list (list N));   (* the queues of the pod's write tasks *)
  pod_read : gmap N bool;            (* the pod's read tasks; [false] after CLOSE was sent *)
  host_writes : gset N;              (* the host's [writes] map *)
  host_read : gmap N bool;           (* the host's reader tasks *)
  up : list Frame;                   (* pod to host *)
  down : list Frame;                 (* host to pod *)
  conns : gmap N conn;
}.

#[export] Instance mux_updatable : Updatable mux := fun s =>
  mkMux (next_id s) (opening s) (pod_tx s) (pod_rx s) (pod_read s) (host_writes s) (host_read s)
    (up s) (down s) (conns s).

Definition mux_start : mux := mkMux 1 None ∅ ∅ ∅ ∅ ∅ [] [] ∅.

Definition OPEN id := mkFrame id FRAME_OPEN [].
Definition DATA id data := mkFrame id FRAME_DATA data.
Definition CLOSE id := mkFrame id FRAME_CLOSE [].

Definition send_up (f : Frame) (s : mux) : mux := s <| up ::= fun q => q ++ [f] |>.
Definition send_down (f : Frame) (s : mux) : mux := s <| down ::= fun q => q ++ [f] |>.
Definition log (id : N) (g : conn -> conn) (s : mux) : mux := s <| conns ::= alter g id |>.

(** The accept loop takes a connection, then announces it. *)
Definition accept (s : mux) : mux :=
  let id := (next_id s mod 2 ^ 32)%N in
  s <| next_id ::= N.succ |> <| opening := Some id |>
    <| pod_tx ::= fun m => {[id]} ∪ m |> <| pod_rx ::= <[id := []]> |>
    <| conns ::= <[id := mkConn [] [] [] []]> |>.

Definition write_open (id : N) (s : mux) : mux :=
  (send_up (OPEN id) s) <| opening := None |> <| pod_read ::= <[id := true]> |>.

(** The pod's read task: data of the client, its end, and the removal after it. *)
Definition pod_data (id : N) (data : list N) (s : mux) : mux :=
  log id (fun c => c <| c_in ::= fun h => h ++ data |>) (send_up (DATA id data) s).
Definition pod_eof (id : N) (s : mux) : mux :=
  (send_up (CLOSE id) s) <| pod_read ::= <[id := false]> |>.
Definition pod_remove (id : N) (s : mux) : mux :=
  s <| pod_read ::= delete id |> <| pod_tx ::= fun m => m ∖ {[id]} |>.

(** The pod's dispatcher on one frame of its stdin.  A full queue makes it wait. *)
Definition pod_frame (f : Frame) (s : mux) : mux :=
  let sid := stream_id f in
  if bool_decide (frame_type f = FRAME_DATA) then
    if bool_decide (sid ∈ pod_tx s)
    then s <| pod_rx ::= alter (fun q => q ++ [payload f]) sid |>
    else s
  else if bool_decide (frame_type f = FRAME_CLOSE) then s <| pod_tx ::= fun m => m ∖ {[sid]} |>
  else s.

(** The pod's write task: [n] bytes of the first queued payload reach the client; fewer than
    all of them is a failed write, which ends the task. *)
Definition pod_write (id : N) (data : list N) (q : list (list N)) (n : nat) (s : mux) : mux :=
  let s := log id (fun c => c <| c_out ::= fun h => h ++ take n data |>) s in
  if bool_decide (length data <= n) then s <| pod_rx ::= <[id := q]> |> else s <| pod_rx ::= delete id |>.
Definition pod_shutdown (id : N) (s : mux) : mux := s <| pod_rx ::= delete id |>.

(** The host's mux loop on one frame.  [connected] is whether the target accepts the
    connection; [n] how many bytes it takes before its socket fails. *)
Definition host_frame (connected : bool) (n : nat) (f : Frame) (s : mux) : mux :=
  let sid := stream_id f in
  if bool_decide (frame_type f = FRAME_OPEN) then
    if connected then s <| host_writes ::= fun m => {[sid]} ∪ m |> <| host_read ::= <[sid := true]> |>
    else send_down (CLOSE sid) s
  else if bool_decide (frame_type f = FRAME_DATA) then
    if bool_decide (sid ∈ host_writes s) then
      let s := log sid (fun c => c <| t_out ::= fun h => h ++ take n (payload f) |>) s in
      if bool_decide (length (payload f) <= n) then s
      else s <| host_writes ::= fun m => m ∖ {[sid]} |>
    else s
  else if bool_decide (frame_type f = FRAME_CLOSE) then s <| host_writes ::= fun m => m ∖ {[sid]} |>
  else s.

(** The host's reader tasks and the heartbeat. *)
Definition host_data (id : N) (data : list N) (s : mux) : mux :=
  log id (fun c => c <| t_in ::= fun h => h ++ data |>) (send_down (DATA id data) s).
Definition host_eof (id : N) (s : mux) : mux :=
  (send_down (CLOSE id) s) <| host_read ::= <[id := false]> |>.
Definition host_remove (id : N) (s : mux) : mux :=
  s <| host_read ::= delete id |> <| host_writes ::= fun m => m ∖ {[id]} |>.
Definition heartbeat (s : mux) : mux := send_down (DATA 0 []) s.

Definition queue_bound : nat := 64.

Inductive mstep (s : mux) : mux -> Prop :=
| m_accept : opening s = None -> mstep s (accept s)
| m_open id : opening s = Some id -> mstep s (write_open id s)
| m_pod_data id data :
    pod_read s !! id = Some true -> data <> [] -> length data <= MAX_PAYLOAD -> mstep s (pod_data id data s)
| m_pod_eof id : pod_read s !! id = Some true -> mstep s (pod_eof id s)
| m_pod_remove id : pod_read s !! id = Some false -> mstep s (pod_remove id s)
| m_pod_frame f rest :
    down s = f :: rest ->
    (frame_type f = FRAME_DATA -> stream_id f ∈ pod_tx s ->
     forall q, pod_rx s !! stream_id f = Some q -> length q < queue_bound) ->
    mstep s (pod_frame f (s <| down := rest |>))
| m_pod_write id data q n : pod_rx s !! id = Some (data :: q) -> mstep s (pod_write id data q n s)
| m_pod_shutdown id : pod_rx s !! id = Some [] -> id ∉ pod_tx s -> mstep s (pod_shutdown id s)
| m_host_frame connected n f rest :
    up s = f :: rest -> mstep s (host_frame connected n f (s <| up := rest |>))
| m_host_data id data :
    host_read s !! id = Some true -> data <> [] -> length data <= MAX_PAYLOAD -> mstep s (host_data id data s)
| m_host_eof id : host_read s !! id = Some true -> mstep s (host_eof id s)
| m_host_remove id : host_read s !! id = Some false -> mstep s (host_remove id s)
| m_heartbeat : mstep s (heartbeat s).

Definition mreachable (s : mux) : Prop := rtc mstep mux_start s.

(** ** Framing is exact *)

Definition frame_ok (f : Frame) : Prop :=
  (stream_id f < 2 ^ 32)%N /\ byte_ok (frame_type f) /\ length (payload f) <= MAX_PAYLOAD /\ bytes_ok (payload f).

Definition header (f : Frame) : list N :=
  to_le_bytes (stream_id f) ++ [frame_type f] ++ to_le_bytes (as_u32 (length (payload f))).

Lemma write_frame_eq f : write_frame f = header f ++ payload f.
Proof. unfold write_frame, header. by rewrite <- !app_assoc. Qed.

Lemma length_to_le_bytes n : length (to_le_bytes n) = 4.
Proof. done. Qed.

Lemma length_header f : length (header f) = HEADER_LEN.
Proof. unfold header. by rewrite !length_app, !length_to_le_bytes. Qed.

Lemma header_fields f :
  take 4 (header f) = to_le_bytes (stream_id f) /\ nth 4 (header f) 0%N = frame_type f /\
  drop 5 (header f) = to_le_bytes (as_u32 (length (payload f))).
Proof. done. Qed.

Lemma read_frame_header f r :
  frame_ok f -> unread r = header f ++ drop HEADER_LEN (unread r) ->
  read_frame r =
  match read_exact (length (payload f)) (mkReader (drop HEADER_LEN (unread r)) (fault r)) with
  | Ok (p, r) => Ok (mkFrame (stream_id f) (frame_type f) p, r)
  | Err e => Err (ReadingPayload e)
  end.
Proof.
  intros (Hid & _ & Hl & _) Hu. destruct r as [u e]. cbn [unread fault] in *.
  unfold read_frame. rewrite Hu at 1. rewrite <- (length_header f), read_exact_app.
  destruct (header_fields f) as (-> & -> & ->).
  rewrite as_u32_small, !from_to_le_bytes by (done || by apply MAX_PAYLOAD_u32).
  rewrite bool_decide_false by lia. rewrite (length_header f). case_bool_decide as Hz.
  - by rewrite Nat2N.id.
  - replace (length (payload f)) with 0 by lia. unfold read_exact. cbn [unread].
    rewrite bool_decide_true by lia. done.
Qed.

Lemma read_frame_Ok f r r' :
  bytes_ok (unread r) -> read_frame r = Ok (f, r') ->
  frame_ok f /\ unread r = write_frame f ++ unread r' /\ fault r' = fault r.
Proof.
  intros Hb. unfold read_frame. destruct (read_exact HEADER_LEN r) as [[hdr r1]|] eqn:E1; [|done].
  apply read_exact_Ok in E1 as (Hu & Hl & Hf). rewrite Hu in Hb. apply Forall_app in Hb as [Hh Hb].
  assert (Hsplit : exists a ty b, hdr = a ++ [ty] ++ b /\ length a = 4 /\ length b = 4).
  { exists (take 4 hdr), (nth 4 hdr 0%N), (drop 5 hdr).
    do 9 (destruct hdr as [|? hdr]; [done|]). destruct hdr; [|done]. done. }
  destruct Hsplit as (a & ty & b & -> & Ha & Hbl).
  apply Forall_app in Hh as [Hha Hh]. apply Forall_app in Hh as [Hty Hhb].
  rewrite take_app_length' by done. rewrite app_nth2, Ha by lia. cbn [nth Nat.sub].
  rewrite (drop_app_ge a) by lia. rewrite Ha. change (5 - 4) with 1. cbn [app]. rewrite skipn_cons, drop_0.
  case_bool_decide as Hmax; [done|]. cbv zeta.
  pose proof (from_le_bytes_bound a Ha Hha) as Hsid.
  pose proof (from_le_bytes_bound b Hbl Hhb) as Hn.
  assert (Hp : forall p, length p = N.to_nat (from_le_bytes b) -> bytes_ok p ->
    frame_ok (mkFrame (from_le_bytes a) ty p) /\
    write_frame (mkFrame (from_le_bytes a) ty p) = (a ++ [ty] ++ b) ++ p).
  { intros p Hpl Hpb. split.
    - split_and!; cbn; [done| |lia|done]. by apply Forall_cons in Hty as [? _].
    - unfold write_frame. cbn [stream_id frame_type payload]. rewrite Hpl, as_u32_small, N2Nat.id by (rewrite N2Nat.id; done).
      rewrite !to_from_le_bytes by done. by rewrite <- !app_assoc. }
  case_bool_decide as Hz.
  + destruct (read_exact _ r1) as [[p r2]|] eqn:E2; [|done]. intros [= <- <-].
    apply read_exact_Ok in E2 as (Hu1 & Hl1 & Hf1). rewrite Hu1 in Hb. apply Forall_app in Hb as [Hpb _].
    destruct (Hp p Hl1 Hpb) as [Hok ->]. split_and!; [exact Hok| |congruence].
    rewrite Hu, Hu1. by rewrite <- !app_assoc.
  + intros [= <- <-]. destruct (Hp []) as [Hok ->]; [simpl; lia|done|]. rewrite app_nil_r. done.
Qed.

Lemma read_frame_write f rest e :
  frame_ok f -> read_frame (mkReader (write_frame f ++ rest) e) = Ok (f, mkReader rest e).
Proof.
  intros Hok. rewrite write_frame_eq, <- app_assoc. rewrite (read_frame_header f); [|done|]; cbn [unread fault];
    rewrite <- (length_header f), drop_app_length; [|done].
  rewrite read_exact_app. by destruct f.
Qed.

Lemma tunnel_frame_truncated f k e :
  frame_ok f -> k < length (write_frame f) ->
  exists why, read_frame (mkReader (take k (write_frame f)) e) = Err why.
Proof.
  intros Hok Hk. rewrite write_frame_eq in *. rewrite length_app, length_header in Hk.
  destruct (decide (k < HEADER_LEN)).
  - unfold read_frame. rewrite read_exact_short; [by eexists|]. cbn [unread]. rewrite length_take. lia.
  - rewrite take_app_ge by (rewrite length_header; lia).
    rewrite (read_frame_header f); [|done|]; cbn [unread fault];
      rewrite <- (length_header f), drop_app_length; [|done].
    rewrite read_exact_short; [by eexists|]. cbn [unread]. rewrite length_take, length_header. lia.
Qed.

Lemma next_frame_truncated f k e :
  frame_ok f -> k < length (write_frame f) ->
  exists why, Some <$> read_frame (mkReader (take k (write_frame f)) e)
              = match why with Some x => Err x | None => Ok None end.
Proof. intros Hf Hk. destruct (tunnel_frame_truncated f k e Hf Hk) as [why ->]. by exists (Some why). Qed.

Lemma next_frame_write f rest e :
  frame_ok f -> Some <$> read_frame (mkReader (write_frame f ++ rest) e) = Ok (Some (f, mkReader rest e)).
Proof. intros Hf. by rewrite read_frame_write. Qed.

#[export] Instance tunnel_framing : Framing Frame tunnel_error := {
  frame_valid := frame_ok;
  frame_bytes := write_frame;
  next_frame r := Some <$> read_frame r;
  next_frame_valid := next_frame_write;
  next_frame_cut := next_frame_truncated;
}.

(** The tunnel's framing is exact: on any byte stream a frame is read exactly when the
    stream starts with the bytes [write_frame] writes for one whose payload is within the
    limit, and the rest of the stream is left; a stream cut inside a frame is an error. *)
Theorem tunnel_framing_exact f r r' :
  bytes_ok (unread r) ->
  (read_frame r = Ok (f, r') <->
   frame_ok f /\ unread r = write_frame f ++ unread r' /\ fault r' = fault r) /\
  (frame_ok f -> forall k e, k < length (write_frame f) ->
     is_ok (read_frame (mkReader (take k (write_frame f)) e)) = false).
Proof.
  intros Hb. split; [split|].
  - by apply read_frame_Ok.
  - destruct r as [u e], r' as [u' e']. cbn [unread fault]. intros (Hok & -> & ->). by apply read_frame_write.
  - intros Hok k e Hk. destruct (tunnel_frame_truncated f k e Hok Hk) as [why ->]. done.
Qed.

(** A pipe of the tunnel delivers whole frames in order: the peer that reads frames in a
    loop gets exactly the frames that were written to it, and when the pipe breaks at any
    byte it gets a prefix of them and then an error. *)
Theorem tunnel_pipe_ordered fs e :
  Forall frame_ok fs ->
  fst (read_frames (length fs) (mkReader (fs ≫= write_frame) e)) = fs /\
  (forall k, k < length (fs ≫= write_frame) -> exists fs' why, fs' `prefix_of` fs /\
     read_frames (length fs) (mkReader (take k (fs ≫= write_frame)) e) = (fs', Some (Some why))).
Proof.
  intros H. split.
  - pose proof (@read_frames_app _ _ tunnel_framing fs 0 [] e H) as Heq. rewrite app_nil_r, Nat.add_0_r in Heq.
    change frame_bytes with write_frame in Heq. rewrite Heq. simpl. apply app_nil_r.
  - intros k Hk. destruct (@read_frames_cut _ _ tunnel_framing fs k e H Hk) as (fs' & why & Hp & Heq & _).
    change frame_bytes with write_frame in Heq. exists fs'. destruct why as [why|].
    { by exists why. }
    exfalso. clear Hp Hk H. revert Heq. generalize (mkReader (take k (fs ≫= write_frame)) e). generalize (length fs).
    intros n. revert fs'. induction n as [|n IH]; intros fs' r Heq; [done|]. cbn [read_frames next_frame tunnel_framing] in Heq.
    destruct (read_frame r) as [[f r1]|er]; simpl in Heq; [|done].
    destruct (read_frames n r1) as [fs1 ended] eqn:E1. injection Heq as <- ->. by apply (IH fs1 r1).
Qed.

Lemma tunnel_pipe_ordered_witness :
  fst (read_frames 2 (mkReader ([OPEN 1; DATA 1 [104]%N] ≫= write_frame) None)) = [OPEN 1; DATA 1 [104]%N].
Proof.
  assert (H : Forall frame_ok [OPEN 1; DATA 1 [104]%N]).
  { repeat constructor; try (by apply MAX_PAYLOAD_ge). }
  exact (proj1 (tunnel_pipe_ordered _ None H)).
Defined.

Lemma tunnel_framing_exact_witness :
  read_frame (mkReader [1; 0; 0; 0; 2; 2; 0; 0; 0; 104; 105; 9]%N None)
  = Ok (DATA 1 [104; 105]%N, mkReader [9]%N None).
Proof.
  apply (tunnel_framing_exact (DATA 1 [104; 105]%N)
    (mkReader [1; 0; 0; 0; 2; 2; 0; 0; 0; 104; 105; 9]%N None) (mkReader [9]%N None)).
  - cbn. unfold byte_ok. repeat constructor; lia.
  - split_and!; [|done..]. split_and!; [done|done|by apply MAX_PAYLOAD_ge|].
    cbn. unfold byte_ok. repeat constructor; lia.
Defined.

(** ** What one stream sees

    [view id s] is the part of the state that belongs to stream [id]; a step of one stream
    leaves the views of the others alone, so the invariant is a property of one view. *)

Definition proj (id : N) (l : list Frame) : list Frame :=
  List.filter (fun f => bool_decide (stream_id f = id)) l.

Definition data_of (l : list Frame) : list N :=
  l ≫= fun f => if bool_decide (frame_type f = FRAME_DATA) then payload f else [].

Record sview := mkView {
  v_up : list Frame;
  v_down : list Frame;
  v_opening : bool;
  v_tx : bool;
  v_rx : option (list (list N));
  v_read : option bool;
  v_writes : bool;
  v_hread : option bool;
  v_conn : option conn;
}.

#[export] Instance sview_updatable : Updatable sview := fun v =>
  mkView (v_up v) (v_down v) (v_opening v) (v_tx v) (v_rx v) (v_read v) (v_writes v) (v_hread v) (v_conn v).

Definition view (id : N) (s : mux) : sview :=
  mkView (proj id (up s)) (proj id (down s)) (bool_decide (opening s = Some id))
    (bool_decide (id ∈ pod_tx s)) (pod_rx s !! id) (pod_read s !! id)
    (bool_decide (id ∈ host_writes s)) (host_read s !! id) (conns s !! id).

Definition is_open (f : Frame) : bool := bool_decide (frame_type f = FRAME_OPEN).

(** Whether data sent now will reach the target: the host has the stream, or its OPEN is
    still to come. *)
Definition takes (v : sview) : Prop :=
  v_writes v = true \/ v_opening v = true \/ is_some_and is_open (head (v_up v)) = true.

Record stream_ok (v : sview) (c : conn) : Prop := {
  so_open : forallb (fun f => negb (is_open f)) (tail (v_up v)) = true;
  so_opening : v_opening v = true -> v_up v = [] /\ v_read v = None;
  so_prefix_up : t_out c `prefix_of` c_in c;
  so_takes : takes v -> c_in c = t_out c ++ data_of (v_up v);
  so_prefix_down : (c_out c ++ concat (default [] (v_rx v))) `prefix_of` t_in c;
  so_delivers q : v_tx v = true -> v_rx v = Some q -> t_in c = c_out c ++ concat q ++ data_of (v_down v);
}.

Definition no_stream : sview := mkView [] [] false false None None false None None.

(** A stream that was never accepted has left no trace; one that was is intact. *)
Definition view_ok (v : sview) : Prop :=
  match v_conn v with Some c => stream_ok v c | None => v = no_stream end.

(** Stream 0 carries the heartbeats and is never a connection. *)
Definition zero_ok (v : sview) : Prop :=
  v = no_stream <| v_down := v_down v |>.

Record minv (s : mux) : Prop := {
  mi_next : (1 <= next_id s)%N;
  mi_fresh id : is_Some (conns s !! id) -> (0 < id < next_id s)%N;
  mi_view id : if decide (id = 0%N) then zero_ok (view id s) else view_ok (view id s);
}.

Lemma proj_app id l1 l2 : proj id (l1 ++ l2) = proj id l1 ++ proj id l2.
Proof. apply List.filter_app. Qed.

Lemma proj_cons_eq id f l : stream_id f = id -> proj id (f :: l) = f :: proj id l.
Proof. intros <-. unfold proj. simpl. by rewrite bool_decide_true. Qed.
Lemma proj_cons_ne id f l : id <> stream_id f -> proj id (f :: l) = proj id l.
Proof. intros H. unfold proj. simpl. by rewrite bool_decide_false. Qed.
#[global] Arguments proj : simpl never.

Lemma data_of_app l1 l2 : data_of (l1 ++ l2) = data_of l1 ++ data_of l2.
Proof. apply bind_app. Qed.

Lemma takes_no_open v : v_writes v = false -> v_opening v = false ->
  forallb (fun f => negb (is_open f)) (v_up v) = true -> ~ takes v.
Proof.
  intros Hw Ho Hf [H|[H|H]]; [congruence..|].
  destruct (v_up v) as [|f l]; [done|]. simpl in *. rewrite H in Hf. done.
Qed.

(** The update of one stream's view, the others being left alone. *)
Definition at_stream (id : N) (g : sview -> sview) (id' : N) (s : mux) : sview :=
  if decide (id' = id) then g (view id' s) else view id' s.

Lemma bd_union_ne (x y : N) (X : gset N) : x <> y -> bool_decide (x ∈ {[y]} ∪ X) = bool_decide (x ∈ X).
Proof. intros H. apply bool_decide_ext. set_solver. Qed.
Lemma bd_union_eq (x : N) (X : gset N) : bool_decide (x ∈ {[x]} ∪ X) = true.
Proof. apply bool_decide_eq_true. set_solver. Qed.
Lemma bd_diff_ne (x y : N) (X : gset N) : x <> y -> bool_decide (x ∈ X ∖ {[y]}) = bool_decide (x ∈ X).
Proof. intros H. apply bool_decide_ext. set_solver. Qed.
Lemma bd_diff_eq (x : N) (X : gset N) : bool_decide (x ∈ X ∖ {[x]}) = false.
Proof. apply bool_decide_eq_false. set_solver. Qed.

Ltac view_tac :=
  intros; unfold at_stream, view;
  match goal with |- context [decide (@eq N ?x ?y)] => destruct (decide (x = y)) end; subst;
  rsimpl; rewrite ?proj_app;
  repeat first
    [ rewrite bd_union_eq | rewrite bd_diff_eq | rewrite bd_union_ne by done | rewrite bd_diff_ne by done
    | rewrite lookup_insert_eq | rewrite lookup_insert_ne by done
    | rewrite lookup_delete_eq | rewrite lookup_delete_ne by done
    | rewrite lookup_alter_eq | rewrite lookup_alter_ne by done
    | rewrite proj_cons_eq by done | rewrite proj_cons_ne by done
    | rewrite (bool_decide_eq_true_2 (Some _ = Some _)) by done
    | rewrite (bool_decide_eq_false_2 (Some _ = Some _)) by congruence
    | match goal with H : opening _ = _ |- _ => rewrite H end ];
  rewrite ?app_nil_r; try done.

Lemma view_pod_data id data id' s :
  view id' (pod_data id data s) =
  at_stream id (fun v => v <| v_up ::= fun l => l ++ [DATA id data] |>
    <| v_conn ::= fmap (fun c => c <| c_in ::= fun h => h ++ data |>) |>) id' s.
Proof. unfold pod_data, log, send_up. view_tac. Qed.

Lemma view_pod_eof id id' s :
  view id' (pod_eof id s) =
  at_stream id (fun v => v <| v_up ::= fun l => l ++ [CLOSE id] |> <| v_read := Some false |>) id' s.
Proof. unfold pod_eof, send_up. view_tac. Qed.

Lemma view_pod_remove id id' s :
  view id' (pod_remove id s) = at_stream id (fun v => v <| v_read := None |> <| v_tx := false |>) id' s.
Proof. unfold pod_remove. view_tac. Qed.

Lemma view_write_open id id' s :
  opening s = Some id ->
  view id' (write_open id s) =
  at_stream id (fun v => v <| v_up ::= fun l => l ++ [OPEN id] |> <| v_opening := false |>
    <| v_read := Some true |>) id' s.
Proof. unfold write_open, send_up. view_tac. Qed.

Lemma view_accept id' s :
  opening s = None ->
  view id' (accept s) =
  at_stream (next_id s mod 2 ^ 32) (fun v => v <| v_opening := true |> <| v_tx := true |> <| v_rx := Some [] |>
    <| v_conn := Some (mkConn [] [] [] []) |>) id' s.
Proof. unfold accept. generalize (next_id s mod 2 ^ 32)%N. intros n. view_tac. Qed.

Lemma view_pop_down f rest id' s :
  down s = f :: rest ->
  view id' (s <| down := rest |>) = at_stream (stream_id f) (fun v => v <| v_down ::= tail |>) id' s.
Proof. intros H. unfold at_stream, view. rsimpl. rewrite H. view_tac. Qed.

Lemma view_pop_up f rest id' s :
  up s = f :: rest ->
  view id' (s <| up := rest |>) = at_stream (stream_id f) (fun v => v <| v_up ::= tail |>) id' s.
Proof. intros H. unfold at_stream, view. rsimpl. rewrite H. view_tac. Qed.

Lemma view_pod_frame f id' s :
  view id' (pod_frame f s) =
  at_stream (stream_id f) (fun v =>
    if bool_decide (frame_type f = FRAME_DATA) then
      if v_tx v then v <| v_rx ::= fmap (fun q => q ++ [payload f]) |> else v
    else if bool_decide (frame_type f = FRAME_CLOSE) then v <| v_tx := false |> else v) id' s.
Proof.
  unfold pod_frame. destruct (bool_decide (frame_type f = FRAME_DATA)).
  - destruct (bool_decide (stream_id f ∈ pod_tx s)) eqn:E; view_tac; by rewrite E.
  - destruct (bool_decide (frame_type f = FRAME_CLOSE)); view_tac.
Qed.

Lemma view_pod_write id data q n id' s :
  view id' (pod_write id data q n s) =
  at_stream id (fun v => v <| v_conn ::= fmap (fun c => c <| c_out ::= fun h => h ++ take n data |>) |>
    <| v_rx := if bool_decide (length data <= n) then Some q else None |>) id' s.
Proof. unfold pod_write, log. destruct (bool_decide (length data <= n)); view_tac. Qed.

Lemma view_pod_shutdown id id' s :
  view id' (pod_shutdown id s) = at_stream id (fun v => v <| v_rx := None |>) id' s.
Proof. unfold pod_shutdown. view_tac. Qed.

Lemma view_host_frame connected n f id' s :
  view id' (host_frame connected n f s) =
  at_stream (stream_id f) (fun v =>
    if bool_decide (frame_type f = FRAME_OPEN) then
      if connected then v <| v_writes := true |> <| v_hread := Some true |>
      else v <| v_down ::= fun l => l ++ [CLOSE (stream_id f)] |>
    else if bool_decide (frame_type f = FRAME_DATA) then
      if v_writes v then
        let v := v <| v_conn ::= fmap (fun c => c <| t_out ::= fun h => h ++ take n (payload f) |>) |> in
        if bool_decide (length (payload f) <= n) then v else v <| v_writes := false |>
      else v
    else if bool_decide (frame_type f = FRAME_CLOSE) then v <| v_writes := false |> else v) id' s.
Proof.
  unfold host_frame, send_down, log. destruct (bool_decide (frame_type f = FRAME_OPEN)).
  { destruct connected; view_tac. }
  destruct (bool_decide (frame_type f = FRAME_DATA)).
  - destruct (bool_decide (length (payload f) <= n)), (bool_decide (stream_id f ∈ host_writes s)) eqn:E;
      view_tac; by rewrite E.
  - destruct (bool_decide (frame_type f = FRAME_CLOSE)); view_tac.
Qed.

Lemma view_host_data id data id' s :
  view id' (host_data id data s) =
  at_stream id (fun v => v <| v_down ::= fun l => l ++ [DATA id data] |>
    <| v_conn ::= fmap (fun c => c <| t_in ::= fun h => h ++ data |>) |>) id' s.
Proof. unfold host_data, log, send_down. view_tac. Qed.

Lemma view_host_eof id id' s :
  view id' (host_eof id s) =
  at_stream id (fun v => v <| v_down ::= fun l => l ++ [CLOSE id] |> <| v_hread := Some false |>) id' s.
Proof. unfold host_eof, send_down. view_tac. Qed.

Lemma view_host_remove id id' s :
  view id' (host_remove id s) = at_stream id (fun v => v <| v_hread := None |> <| v_writes := false |>) id' s.
Proof. unfold host_remove. view_tac. Qed.

Lemma view_heartbeat id' s : id' <> 0%N -> view id' (heartbeat s) = view id' s.
Proof. intros H. unfold heartbeat, send_down, view. rsimpl. rewrite proj_app, proj_cons_ne by done. by rewrite app_nil_r. Qed.

(** ** The steps of one stream preserve its invariant *)

Lemma push_no_open l f :
  is_open f = false -> forallb (fun f => negb (is_open f)) (tail l) = true ->
  forallb (fun f => negb (is_open f)) (tail (l ++ [f])) = true.
Proof. intros Hf Hl. destruct l as [|x l]; [done|]. simpl in *. by rewrite forallb_app, Hl; simpl; rewrite Hf. Qed.

Lemma push_head l f :
  is_open f = false -> is_some_and is_open (head (l ++ [f])) = is_some_and is_open (head l).
Proof. by destruct l. Qed.

Lemma ok_accept : view_ok (no_stream <| v_opening := true |> <| v_tx := true |> <| v_rx := Some [] |>
    <| v_conn := Some (mkConn [] [] [] []) |>).
Proof. rsimpl. split; rsimpl; try done. by intros q _ [= <-]. Qed.

Lemma ok_write_open v c id :
  stream_ok v c -> v_opening v = true ->
  stream_ok (v <| v_up ::= fun l => l ++ [OPEN id] |> <| v_opening := false |> <| v_read := Some true |>) c.
Proof.
  intros [] Ho. destruct (so_opening0 Ho) as [Hu _].
  assert (Ht : c_in c = t_out c ++ data_of (v_up v)) by (apply so_takes0; right; by left).
  split; rsimpl; rewrite ?Hu in *; try done.
Qed.

Lemma ok_pod_data v c id data :
  stream_ok v c -> is_Some (v_read v) ->
  stream_ok (v <| v_up ::= fun l => l ++ [DATA id data] |>) (c <| c_in ::= fun h => h ++ data |>).
Proof.
  intros [] Hr. assert (Ho : v_opening v = false).
  { destruct (v_opening v) eqn:E; [|done]. destruct (so_opening0 eq_refl) as [_ Hn]. rewrite Hn in Hr. by destruct Hr. }
  split; rsimpl; rewrite ?Ho; try done.
  - by apply push_no_open.
  - by apply prefix_app_r.
  - intros Ht. rewrite data_of_app, app_assoc. cbn. rewrite app_nil_r, <- so_takes0; [done|].
    unfold takes in *. rsimpl. rewrite push_head in Ht by done. by rewrite Ho.
Qed.

Lemma ok_push_close v c id b :
  stream_ok v c -> is_Some (v_read v) ->
  stream_ok (v <| v_up ::= fun l => l ++ [CLOSE id] |> <| v_read := b |>) c.
Proof.
  intros [] Hr. assert (Ho : v_opening v = false).
  { destruct (v_opening v) eqn:E; [|done]. destruct (so_opening0 eq_refl) as [_ Hn]. rewrite Hn in Hr. by destruct Hr. }
  split; rsimpl; rewrite ?Ho; try done.
  - by apply push_no_open.
  - intros Ht. rewrite data_of_app. cbn. rewrite app_nil_r. apply so_takes0.
    unfold takes in *. rsimpl. rewrite push_head in Ht by done. by rewrite Ho.
Qed.

Lemma ok_pod_remove v c : stream_ok v c -> stream_ok (v <| v_read := None |> <| v_tx := false |>) c.
Proof. intros []. split; rsimpl; try done. intros Ho. by destruct (so_opening0 Ho). Qed.

Lemma ok_host_remove v c : stream_ok v c -> stream_ok (v <| v_hread := None |> <| v_writes := false |>) c.
Proof.
  intros []. split; rsimpl; try done. intros Ht. apply so_takes0. unfold takes in *. rsimpl.
  destruct Ht as [Ht|Ht]; [done|by right].
Qed.

Lemma ok_pod_write v c data q n :
  stream_ok v c -> v_rx v = Some (data :: q) ->
  stream_ok (v <| v_rx := if bool_decide (length data <= n) then Some q else None |>)
    (c <| c_out ::= fun h => h ++ take n data |>).
Proof.
  intros [] Hq. rewrite Hq in *. cbn [default concat] in *.
  split; rsimpl; try done; case_bool_decide as Hn; cbn [default concat].
  - by rewrite take_ge, <- app_assoc by lia.
  - rewrite app_nil_r. etransitivity; [|exact so_prefix_down0]. apply prefix_app.
    exists (drop n data ++ concat q). by rewrite app_assoc, take_drop.
  - intros q' Htx [= <-]. rewrite take_ge by lia. rewrite (so_delivers0 _ Htx eq_refl). cbn [concat].
    by rewrite <- !app_assoc.
  - done.
Qed.

Lemma ok_pod_shutdown v c : stream_ok v c -> v_rx v = Some [] -> stream_ok (v <| v_rx := None |>) c.
Proof. intros [] Hq. rewrite Hq in *. split; rsimpl; done. Qed.

Lemma ok_host_data v c id data :
  stream_ok v c ->
  stream_ok (v <| v_down ::= fun l => l ++ [DATA id data] |>) (c <| t_in ::= fun h => h ++ data |>).
Proof.
  intros []. split; rsimpl; try done.
  - by apply prefix_app_r.
  - intros q Htx Hq. rewrite data_of_app, (so_delivers0 _ Htx Hq). cbn. by rewrite app_nil_r, <- !app_assoc.
Qed.

Lemma ok_down_close v c id b :
  stream_ok v c -> stream_ok (v <| v_down ::= fun l => l ++ [CLOSE id] |> <| v_hread := b |>) c.
Proof.
  intros []. split; rsimpl; try done. intros q Htx Hq. rewrite data_of_app. cbn. rewrite app_nil_r. by apply so_delivers0.
Qed.

Lemma ok_pop_down v c f rest :
  stream_ok v c -> v_down v = f :: rest ->
  stream_ok (if bool_decide (frame_type f = FRAME_DATA) then
      if v_tx v then v <| v_down ::= tail |> <| v_rx ::= fmap (fun q => q ++ [payload f]) |>
      else v <| v_down ::= tail |>
    else if bool_decide (frame_type f = FRAME_CLOSE) then v <| v_down ::= tail |> <| v_tx := false |>
    else v <| v_down ::= tail |>) c.
Proof.
  intros [] Hd. rewrite Hd in *. case_bool_decide as Ht; [|case_bool_decide].
  - destruct (v_tx v) eqn:Htx; (split; rsimpl; rewrite ?Hd; try done).
    + destruct (v_rx v) as [q|]; [|done]. cbn in *. rewrite (so_delivers0 q) by done.
      rewrite concat_app. cbn. rewrite bool_decide_true, app_nil_r by done.
      apply prefix_app, prefix_app. by eexists.
    + intros q' _ Hq'. destruct (v_rx v) as [q|]; [|done]. injection Hq' as <-. rewrite (so_delivers0 q) by done.
      rewrite concat_app. cbn. by rewrite bool_decide_true, app_nil_r, <- app_assoc by done.
    + intros q Htx'. congruence.
  - split; rsimpl; done.
  - split; rsimpl; try done. intros q Htx Hq. rewrite Hd. rewrite (so_delivers0 q Htx Hq).
    cbn. by rewrite bool_decide_false.
Qed.

Lemma tail_no_open l : forallb (fun f => negb (is_open f)) l = true ->
  forallb (fun f => negb (is_open f)) (tail l) = true.
Proof. destruct l; [done|]. simpl. by intros [_ ?]%andb_true_iff. Qed.


(** The host consumed the first frame of a stream: what remains to be shown is about the
    bytes written to the target. *)
Lemma ok_pop v c f rest g c' :
  stream_ok v c -> v_up v = f :: rest ->
  v_up g = rest -> v_opening g = v_opening v -> v_tx g = v_tx v -> v_rx g = v_rx v ->
  data_of (v_down g) = data_of (v_down v) ->
  c_in c' = c_in c -> t_in c' = t_in c -> c_out c' = c_out c ->
  t_out c' `prefix_of` c_in c -> (takes g -> c_in c = t_out c' ++ data_of rest) ->
  stream_ok g c'.
Proof.
  intros [] Hu Hgu Hgo Hgt Hgr Hgd Hci Hti Hco Hp Ht.
  split; rewrite ?Hgu, ?Hgo, ?Hgt, ?Hgr, ?Hgd, ?Hci, ?Hti, ?Hco; auto.
  - rewrite Hu in so_open0. by apply tail_no_open.
  - intros Ho. destruct (so_opening0 Ho). congruence.
Qed.

Lemma pop_no_takes v c f rest g :
  takes g -> stream_ok v c -> v_up v = f :: rest -> v_up g = rest -> v_opening g = v_opening v ->
  v_writes g = false -> False.
Proof.
  intros Ht [] Hu Hgu Hgo Hgw. revert Ht. apply takes_no_open; [done| |].
  - destruct (v_opening g) eqn:E; [|done]. rewrite Hgo in E. destruct so_opening0; congruence.
  - rewrite Hu in so_open0. by rewrite Hgu.
Qed.

Lemma stream_ok_conn v c g : stream_ok v c -> stream_ok (v <| v_conn ::= g |>) c.
Proof. intros []. by split. Qed.

Lemma ok_host_frame v f rest (connected : bool) n :
  view_ok v -> v_up v = f :: rest ->
  let v := v <| v_up ::= tail |> in
  view_ok (if bool_decide (frame_type f = FRAME_OPEN) then
      if connected then v <| v_writes := true |> <| v_hread := Some true |>
      else v <| v_down ::= fun l => l ++ [CLOSE (stream_id f)] |>
    else if bool_decide (frame_type f = FRAME_DATA) then
      if v_writes v then
        let v := v <| v_conn ::= fmap (fun c => c <| t_out ::= fun h => h ++ take n (payload f) |>) |> in
        if bool_decide (length (payload f) <= n) then v else v <| v_writes := false |>
      else v
    else if bool_decide (frame_type f = FRAME_CLOSE) then v <| v_writes := false |> else v).
Proof.
  intros Hv Hu. unfold view_ok in Hv. destruct (v_conn v) as [c|] eqn:Hc; [|by subst v].
  cbv zeta. pose proof Hv as [].
  assert (Htl : tail (v_up v) = rest) by by rewrite Hu.
  assert (Hdrop : forall g, v_conn g = Some c -> v_up g = rest -> v_opening g = v_opening v -> v_tx g = v_tx v ->
    v_rx g = v_rx v -> data_of (v_down g) = data_of (v_down v) ->
    (takes g -> c_in c = t_out c ++ data_of rest) -> view_ok g).
  { intros g Hgc ? ? ? ? ? ?. unfold view_ok. rewrite Hgc. by eapply (ok_pop v c f rest g c). }
  case_bool_decide as Ho.
  { assert (Heq : c_in c = t_out c ++ data_of rest).
    { rewrite so_takes0, Hu; [cbn; by rewrite Ho|]. right; right. rewrite Hu. simpl. by apply bool_decide_eq_true. }
    destruct connected; apply Hdrop; rsimpl; rewrite ?data_of_app; cbn; rewrite ?app_nil_r; done. }
  case_bool_decide as Hd.
  - rsimpl. destruct (v_writes v) eqn:Hw.
    + assert (Heq : c_in c = t_out c ++ payload f ++ data_of rest).
      { rewrite so_takes0, Hu by by left. cbn. by rewrite bool_decide_true. }
      unfold view_ok. case_bool_decide as Hn; rsimpl; rewrite Hc; cbn;
        (eapply (ok_pop v c f rest); rsimpl; try done).
      * rewrite Heq, take_ge by done. apply prefix_app. by eexists.
      * intros _. by rewrite Heq, take_ge, app_assoc.
      * rewrite Heq. apply prefix_app. exists (drop n (payload f) ++ data_of rest). by rewrite app_assoc, take_drop.
      * intros Ht. destruct (pop_no_takes v c f rest _ Ht Hv Hu Htl eq_refl eq_refl).
    + apply Hdrop; rsimpl; try done. intros Ht. destruct (pop_no_takes v c f rest _ Ht Hv Hu Htl eq_refl eq_refl).
  - case_bool_decide.
    + apply Hdrop; rsimpl; try done. intros Ht. destruct (pop_no_takes v c f rest _ Ht Hv Hu Htl eq_refl eq_refl).
    + apply Hdrop; rsimpl; try done. intros Ht. rewrite so_takes0, Hu; [cbn; by rewrite bool_decide_false|].
      unfold takes in *. rsimpl. rewrite Hu. destruct Ht as [Ht|[Ht|Ht]]; [by left|by right; left|].
      exfalso. rewrite Hu in Ht, so_open0. simpl in Ht, so_open0. destruct rest as [|f' rest]; [done|].
      simpl in Ht, so_open0. by rewrite Ht in so_open0.
Qed.

(** ** All reachable states *)

Lemma minv_start : minv mux_start.
Proof.
  split; [done|by intros id [c Hc]|]. intros id. case_decide; unfold view; cbn; rewrite ?lookup_empty; [done|].
  unfold view_ok. cbn. unfold no_stream. f_equal.
Qed.

(** A step of stream [id] that keeps the stream's own invariant. *)
Lemma minv_at s s' id g :
  minv s -> id <> 0%N -> (forall id', view id' s' = at_stream id g id' s) ->
  view_ok (g (view id s)) -> (next_id s <= next_id s')%N ->
  (is_Some (v_conn (g (view id s))) -> (0 < id < next_id s')%N) -> minv s'.
Proof.
  intros [] Hid Hv Hok Hn Hc. split; [lia| |].
  - intros id' Hsome. change (is_Some (v_conn (view id' s'))) in Hsome. rewrite Hv in Hsome.
    unfold at_stream in Hsome. case_decide; [subst; auto|]. destruct (mi_fresh0 id' Hsome). lia.
  - intros id'. specialize (mi_view0 id'). rewrite Hv. unfold at_stream.
    destruct (decide (id' = id)) as [->|Hne]; [by rewrite decide_False|done].
Qed.

(** A stream that left a trace was accepted. *)
Lemma minv_conn s id :
  minv s -> id <> 0%N -> view id s <> no_stream ->
  exists c, v_conn (view id s) = Some c /\ stream_ok (view id s) c /\ (0 < id < next_id s)%N.
Proof.
  intros [] Hid Hne. specialize (mi_view0 id). rewrite decide_False in mi_view0 by done.
  unfold view_ok in mi_view0. destruct (v_conn (view id s)) as [c|] eqn:E; [|done].
  exists c. split; [done|]. split; [done|]. apply mi_fresh0. by exists c.
Qed.

Lemma minv_nonzero s : minv s -> zero_ok (view 0 s).
Proof. intros []. specialize (mi_view0 0%N). by rewrite decide_True in mi_view0. Qed.

Lemma view_ok_some v c : v_conn v = Some c -> stream_ok v c -> view_ok v.
Proof. intros H. unfold view_ok. by rewrite H. Qed.

(** A step that changes the recorded bytes and the rest of the view of one stream. *)
Lemma minv_update s s' id g c :
  minv s -> id <> 0%N -> (forall id', view id' s' = at_stream id g id' s) -> next_id s' = next_id s ->
  view id s <> no_stream ->
  (forall c0, v_conn (view id s) = Some c0 -> stream_ok (view id s) c0 ->
     v_conn (g (view id s)) = Some (c c0) /\ stream_ok (g (view id s)) (c c0)) ->
  minv s'.
Proof.
  intros Hi Hid Hv Hn Hne H. destruct (minv_conn s id Hi Hid Hne) as (c0 & Hc & Hok & Hb).
  destruct (H c0 Hc Hok) as [Hc' Hok']. eapply (minv_at s s' id g); try done; [by eapply view_ok_some|lia|].
  intros _. lia.
Qed.

Lemma no_stream_read s id b : pod_read s !! id = Some b -> view id s <> no_stream.
Proof. intros H Hv. apply (f_equal v_read) in Hv. cbn in Hv. congruence. Qed.
Lemma no_stream_hread s id b : host_read s !! id = Some b -> view id s <> no_stream.
Proof. intros H Hv. apply (f_equal v_hread) in Hv. cbn in Hv. congruence. Qed.
Lemma no_stream_rx s id q : pod_rx s !! id = Some q -> view id s <> no_stream.
Proof. intros H Hv. apply (f_equal v_rx) in Hv. cbn in Hv. congruence. Qed.

Lemma minv_id s id : minv s ->
  is_Some (pod_read s !! id) \/ is_Some (host_read s !! id) \/ is_Some (pod_rx s !! id) \/
  opening s = Some id \/ proj id (up s) <> [] -> id <> 0%N.
Proof.
  intros Hi H ->. pose proof (minv_nonzero s Hi) as Hz. unfold zero_ok in Hz.
  assert (Hr : pod_read s !! 0%N = None) by exact (f_equal v_read Hz).
  assert (Hh : host_read s !! 0%N = None) by exact (f_equal v_hread Hz).
  assert (Hx : pod_rx s !! 0%N = None) by exact (f_equal v_rx Hz).
  assert (Ho : bool_decide (opening s = Some 0%N) = false) by exact (f_equal v_opening Hz).
  assert (Hu : proj 0 (up s) = []) by exact (f_equal v_up Hz).
  apply bool_decide_eq_false in Ho.
  destruct H as [[? H]|[[? H]|[[? H]|[H|H]]]]; congruence.
Qed.

(** Frames of stream 0 change nothing for the pod. *)
Lemma minv_pod_frame_zero s f rest :
  minv s -> down s = f :: rest -> stream_id f = 0%N -> minv (pod_frame f (s <| down := rest |>)).
Proof.
  intros Hi Hd Hf. pose proof (minv_nonzero s Hi) as Hz. destruct Hi. unfold zero_ok in Hz.
  pose proof (f_equal v_tx Hz) as Htx. cbn in Htx. apply bool_decide_eq_false in Htx.
  assert (Hv : forall id, id <> 0%N -> view id (pod_frame f (s <| down := rest |>)) = view id s).
  { intros id Hid. rewrite view_pod_frame, Hf. unfold at_stream. rewrite decide_False by done.
    rewrite (view_pop_down f) by done. unfold at_stream. by rewrite decide_False by congruence. }
  assert (Hc : next_id (pod_frame f (s <| down := rest |>)) = next_id s /\
               conns (pod_frame f (s <| down := rest |>)) = conns s).
  { unfold pod_frame. repeat case_bool_decide; done. }
  destruct Hc as [Hn Hc]. split; [by rewrite Hn|by rewrite Hn, Hc|].
  intros id. specialize (mi_view0 id). case_decide as Hid; [|by rewrite Hv].
  subst id. unfold zero_ok in *. rewrite view_pod_frame, Hf. unfold at_stream. rewrite decide_True by done.
  rewrite (view_pop_down f) by done. unfold at_stream. rewrite decide_True by congruence.
  rewrite mi_view0. cbn. repeat case_bool_decide; done.
Qed.

Lemma at_stream_comp id g1 g2 s s1 s2 :
  (forall id', view id' s1 = at_stream id g1 id' s) -> (forall id', view id' s2 = at_stream id g2 id' s1) ->
  forall id', view id' s2 = at_stream id (fun v => g2 (g1 v)) id' s.
Proof. intros H1 H2 id'. rewrite H2. unfold at_stream. rewrite H1. unfold at_stream. by case_decide. Qed.

Lemma minv_pod_frame s f rest :
  minv s -> down s = f :: rest -> minv (pod_frame f (s <| down := rest |>)).
Proof.
  intros Hi Hd. destruct (decide (stream_id f = 0%N)) as [Hz|Hz]; [by apply minv_pod_frame_zero|].
  assert (Hvd : v_down (view (stream_id f) s) = f :: proj (stream_id f) rest).
  { unfold view. cbn [v_down]. rewrite Hd. by apply proj_cons_eq. }
  eapply (minv_update s _ (stream_id f) _ id Hi Hz).
  - eapply at_stream_comp; [intros; by apply view_pop_down|intros; apply view_pod_frame].
  - unfold pod_frame. repeat case_bool_decide; done.
  - intros Hn. rewrite Hn in Hvd. done.
  - intros c0 Hc Hok. pose proof (ok_pop_down _ c0 f _ Hok Hvd) as H.
    revert H Hc. generalize (view (stream_id f) s). intros v H Hc. cbv beta. unfold id.
    change (v_tx (v <| v_down ::= tail |>)) with (v_tx v).
    split; [|exact H]. clear H. by repeat case_match.
Qed.

Lemma minv_host_frame s connected n f rest :
  minv s -> up s = f :: rest -> minv (host_frame connected n f (s <| up := rest |>)).
Proof.
  intros Hi Hu.
  assert (Hvu : v_up (view (stream_id f) s) = f :: proj (stream_id f) rest).
  { unfold view. cbn [v_up]. rewrite Hu. by apply proj_cons_eq. }
  assert (Hz : stream_id f <> 0%N).
  { apply (minv_id s); [done|]. do 4 right. change (v_up (view (stream_id f) s) <> []). by rewrite Hvu. }
  assert (Hne : view (stream_id f) s <> no_stream) by (intros Hn; by rewrite Hn in Hvu).
  destruct (minv_conn s _ Hi Hz Hne) as (c & Hc & Hok & Hb).
  pose proof (ok_host_frame _ f _ connected n (view_ok_some _ _ Hc Hok) Hvu) as H.
  eapply (minv_at s _ (stream_id f)); [done|done| | | |].
  - eapply at_stream_comp; [intros; by apply view_pop_up|intros; apply view_host_frame].
  - exact H.
  - unfold host_frame. destruct connected; repeat case_bool_decide; done.
  - intros _. unfold host_frame. destruct connected; repeat case_bool_decide; done.
Qed.

Lemma minv_accept s : minv s -> opening s = None -> (next_id s < 2 ^ 32)%N -> minv (accept s).
Proof.
  intros Hi Ho Hn. pose proof (mi_next s Hi) as H1.
  assert (Hid : (next_id s mod 2 ^ 32 = next_id s)%N) by by apply N.mod_small.
  assert (Hv : view (next_id s) s = no_stream).
  { pose proof (mi_view s Hi (next_id s)) as Hv. rewrite decide_False in Hv by lia. unfold view_ok in Hv.
    destruct (v_conn (view (next_id s) s)) as [c|] eqn:E; [|done].
    destruct (mi_fresh s Hi (next_id s)) as [_ ?]; [by exists c|lia]. }
  eapply (minv_at s _ (next_id s)); [done|lia| | | |].
  - intros id'. rewrite view_accept by done. rewrite Hid. done.
  - rewrite Hv. apply ok_accept.
  - change (next_id (accept s)) with (N.succ (next_id s)). lia.
  - change (next_id (accept s)) with (N.succ (next_id s)). lia.
Qed.

Lemma minv_heartbeat s : minv s -> minv (heartbeat s).
Proof.
  intros Hi. pose proof (minv_nonzero s Hi) as Hz. destruct Hi. split; [done|done|]. intros id. specialize (mi_view0 id).
  case_decide; [|by rewrite view_heartbeat]. subst. unfold zero_ok in *.
  assert (Hv : view 0 (heartbeat s) = (view 0 s) <| v_down ::= fun l => l ++ [DATA 0 []] |>).
  { unfold heartbeat, send_down, view. rsimpl. by rewrite proj_app, proj_cons_eq. }
  rewrite Hv. destruct (view 0 s). rsimpl. injection Hz as -> -> -> -> -> -> -> ->. done.
Qed.

Lemma minv_step s s' : mstep s s' -> (next_id s' <= 2 ^ 32)%N -> minv s -> minv s'.
Proof.
  intros Hs Hn Hi. destruct Hs.
  - apply minv_accept; [done|done|]. change (next_id (accept s)) with (N.succ (next_id s)) in Hn. lia.
  - eapply (minv_update s _ id _ (fun c => c) Hi); [apply (minv_id s); tauto|by intros; apply view_write_open|done| |].
    + intros Hv. apply (f_equal v_opening) in Hv. cbn in Hv. by apply bool_decide_eq_false in Hv.
    + intros c0 Hc Hok. split; [exact Hc|]. apply ok_write_open; [done|]. by apply bool_decide_eq_true.
  - eapply (minv_update s _ id _ (fun c => c <| c_in ::= fun h => h ++ data |>) Hi);
      [apply (minv_id s); eauto|intros; apply view_pod_data|done|by eapply no_stream_read|].
    intros c0 Hc Hok. split; [exact (f_equal (fmap _) Hc)|].
    apply stream_ok_conn, ok_pod_data; [done|]. eexists; eassumption.
  - eapply (minv_update s _ id _ (fun c => c) Hi); [apply (minv_id s); eauto|intros; apply view_pod_eof|done|by eapply no_stream_read|].
    intros c0 Hc Hok. split; [exact Hc|]. apply ok_push_close; [done|]. eexists; eassumption.
  - eapply (minv_update s _ id _ (fun c => c) Hi); [apply (minv_id s); eauto|intros; apply view_pod_remove|done|by eapply no_stream_read|].
    intros c0 Hc Hok. split; [exact Hc|]. by apply ok_pod_remove.
  - by apply minv_pod_frame.
  - eapply (minv_update s _ id _ (fun c => c <| c_out ::= fun h => h ++ take n data |>) Hi);
      [apply (minv_id s); eauto|intros; apply view_pod_write| |by eapply no_stream_rx|].
    + unfold pod_write. by case_bool_decide.
    + intros c0 Hc Hok. split; [exact (f_equal (fmap _) Hc)|].
      apply ok_pod_write; [by apply stream_ok_conn|done].
  - eapply (minv_update s _ id _ (fun c => c) Hi); [apply (minv_id s); eauto|intros; apply view_pod_shutdown|done|by eapply no_stream_rx|].
    intros c0 Hc Hok. split; [exact Hc|]. by apply ok_pod_shutdown.
  - by apply minv_host_frame.
  - eapply (minv_update s _ id _ (fun c => c <| t_in ::= fun h => h ++ data |>) Hi);
      [apply (minv_id s); eauto|intros; apply view_host_data|done|by eapply no_stream_hread|].
    intros c0 Hc Hok. split; [exact (f_equal (fmap _) Hc)|]. by apply stream_ok_conn, ok_host_data.
  - eapply (minv_update s _ id _ (fun c => c) Hi); [apply (minv_id s); eauto|intros; apply view_host_eof|done|by eapply no_stream_hread|].
    intros c0 Hc Hok. split; [exact Hc|]. by apply ok_down_close.
  - eapply (minv_update s _ id _ (fun c => c) Hi); [apply (minv_id s); eauto|intros; apply view_host_remove|done|by eapply no_stream_hread|].
    intros c0 Hc Hok. split; [exact Hc|]. by apply ok_host_remove.
  - by apply minv_heartbeat.
Qed.

Lemma minv_steps s s' : rtc mstep s s' -> (next_id s' <= 2 ^ 32)%N -> minv s -> minv s'.
Proof.
  assert (Hmono : forall a b, mstep a b -> (next_id a <= next_id b)%N).
  { intros a b []; try reflexivity; try (change (next_id a <= N.succ (next_id a))%N; lia).
    - unfold pod_frame. repeat case_bool_decide; reflexivity.
    - unfold pod_write. repeat case_bool_decide; reflexivity.
    - unfold host_frame. destruct connected; repeat case_bool_decide; reflexivity. }
  assert (Hmonos : forall a b, rtc mstep a b -> (next_id a <= next_id b)%N).
  { induction 1 as [|a b c Hab _ IH]; [done|]. apply Hmono in Hab. lia. }
  induction 1 as [|a b c Hab Hbc IH]; [done|]. intros Hn Hi. apply IH; [done|].
  apply Hmonos in Hbc. eapply minv_step; [exact Hab|lia|done].
Qed.

(** [C2] The tunnel keeps its streams intact and apart, in every interleaving of its tasks as
    long as fewer than 2^32 connections were accepted: what reached the target of a stream
    is a prefix of what its client sent, what reached the client is a prefix of what the
    target sent, and nothing is missing but what is under way: while the host has the
    stream, the bytes in flight are exactly the rest of the client's bytes, and while the
    pod has it, the queue and the frames in flight are the rest of the target's. *)
Theorem tunnel_streams_intact s id c :
  mreachable s -> (next_id s <= 2 ^ 32)%N -> conns s !! id = Some c ->
  t_out c `prefix_of` c_in c /\ c_out c `prefix_of` t_in c /\
  (id ∈ host_writes s -> c_in c = t_out c ++ data_of (proj id (up s))) /\
  (forall q, id ∈ pod_tx s -> pod_rx s !! id = Some q ->
     t_in c = c_out c ++ concat q ++ data_of (proj id (down s))).
Proof.
  intros Hr Hn Hc. assert (Hi : minv s) by (eapply minv_steps; [exact Hr|done|apply minv_start]).
  assert (Hid : id <> 0%N) by (destruct (mi_fresh s Hi id) as [? _]; [by exists c|lia]).
  pose proof (mi_view s Hi id) as Hv. rewrite decide_False in Hv by done. unfold view_ok in Hv.
  change (v_conn (view id s)) with (conns s !! id) in Hv. rewrite Hc in Hv. destruct Hv. split_and!; [done| | |].
  - etransitivity; [|exact so_prefix_down0]. by eexists.
  - intros Hw. apply so_takes0. left. by apply bool_decide_eq_true.
  - intros q Htx Hq. apply so_delivers0; [by apply bool_decide_eq_true|done].
Qed.

(** A client whose connection was opened and whose first bytes are under way. *)
Definition busy_mux : mux :=
  host_frame true 0 (OPEN 1)
    ((pod_data 1 [104; 105]%N (write_open 1 (accept mux_start))) <| up := [DATA 1 [104; 105]%N] |>).

Lemma busy_mux_reachable : mreachable busy_mux.
Proof.
  unfold mreachable, busy_mux.
  eapply rtc_l; [apply m_accept; done|].
  eapply rtc_l; [apply (m_open _ 1); done|].
  eapply rtc_l; [apply (m_pod_data _ 1 [104; 105]%N); [done|done|by apply MAX_PAYLOAD_ge]|].
  apply rtc_once. apply m_host_frame. reflexivity.
Qed.

Lemma tunnel_streams_intact_witness :
  1%N ∈ host_writes busy_mux /\ [104; 105]%N = [] ++ data_of (proj 1 (up busy_mux)).
Proof.
  assert (Hc : conns busy_mux !! 1%N = Some (mkConn [104; 105]%N [] [] [])) by (vm_compute; reflexivity).
  assert (Hw : 1%N ∈ host_writes busy_mux) by (apply (bool_decide_unpack _); vm_compute; exact I).
  assert (Hn : (next_id busy_mux <= 2 ^ 32)%N) by (vm_compute; discriminate).
  split; [exact Hw|].
  exact (proj1 (proj2 (proj2 (tunnel_streams_intact busy_mux 1 _ busy_mux_reachable Hn Hc))) Hw).
Defined.

(** ** Starting the tunnel *)

(** The readiness test of [start_tunnel_inner] on what stderr has delivered so far. *)
Definition tunnel_ready (stderr_buf : list N) : bool :=
  match from_utf8 stderr_buf with
  | Some s => existsb (starts_with (lit "tunnel listening on port ")) (lines s)
  | None => false
  end.

(** A chunk that ends before the port number and its newline already counts as ready. *)
Lemma ready_without_newline :
  tunnel_ready (as_bytes (lit "tunnel listening on port ")) = true /\
  c_nl ∉ lit "tunnel listening on port ".
Proof. split; [vm_compute; reflexivity|]. apply (bool_decide_unpack _). vm_compute. exact I. Qed.
