(* ===== verification/Hooks.v ===== *)
(** * Managed blocks in the host repository's hooks (gateway.rs)

    The daemon adds its own commands to [pre-receive] and [post-receive] of the host
    repository next to whatever the user has there.  A managed block is a comment line with
    a known prefix and the command line after it; installation strips the old block and
    combines what is left with the new one.  File-system calls other than the ones whose
    results the code inspects are taken to succeed. *)
From S2P Require Import Prelude Strs Bytes.

Definition HOST_HOOK_COMMENT_PREFIX : str := lit "# Installed by rumpelpod (host".
Definition HOST_PRE_RECEIVE_COMMENT : str := lit "# Installed by rumpelpod (host pre-receive)".
Definition HOST_POST_RECEIVE_COMMENT : str := lit "# Installed by rumpelpod (host post-receive)".

Inductive HostHookPlacement := BeforeUser | AfterUser.

Definition managed (line : str) : bool := starts_with HOST_HOOK_COMMENT_PREFIX (trim line).

(** The loop of [strip_host_hooks]: a managed comment takes the next line with it. *)
Fixpoint strip_lines (ls : list str) : list str :=
  match ls with
  | [] => []
  | line :: rest =>
      if managed line then match rest with [] => [] | _ :: rest' => strip_lines rest' end
      else line :: strip_lines rest
  end.

Definition strip_host_hooks (content : str) : str :=
  let out := join [c_nl] (strip_lines (lines content)) in
  if ends_with [c_nl] content then out ++ [c_nl] else out.

Definition combine_host_hook (existing block : str) (placement : HostHookPlacement) : str :=
  match placement with
  | BeforeUser =>
      let block := trim_end block in
      match split_once c_nl existing with
      | Some (shebang, body) =>
          if starts_with (lit "#!") shebang
          then shebang ++ [c_nl] ++ block ++ [c_nl] ++ body
          else if starts_with (lit "#!") existing then existing ++ [c_nl] ++ block ++ [c_nl]
          else lit "#!/bin/sh" ++ [c_nl] ++ block ++ [c_nl] ++ existing
      | None =>
          if starts_with (lit "#!") existing then existing ++ [c_nl] ++ block ++ [c_nl]
          else lit "#!/bin/sh" ++ [c_nl] ++ block ++ [c_nl] ++ existing
      end
  | AfterUser =>
      let separator := if ends_with [c_nl] existing then [c_nl] else [c_nl; c_nl] in
      existing ++ separator ++ block
  end.

(** What is at the hook's path: its kind, link count, bytes and mode, and how often it was
    replaced by a staged file. *)
Record HookFile := mkHookFile {
  is_symlink : bool;
  nlink : nat;
  bytes : list N;
  executable : bool;
  replaced : nat;
}.

Inductive hook_error := OverSymlink | OverHardLink | UnreadableHook.

(** [write_hook_atomically] *)
Definition write_hook_atomically (content : str) (old : option HookFile) : HookFile :=
  mkHookFile false 1 (as_bytes content) true (S (default 0 (replaced <$> old))).

Definition install_host_hook (block : str) (placement : HostHookPlacement) (file : option HookFile)
    : result hook_error HookFile :=
  match file with
  | Some f =>
      if is_symlink f then Err OverSymlink
      else if bool_decide (1 < nlink f) then Err OverHardLink
      else
        existing ← context UnreadableHook (from_utf8 (bytes f));
        let content := combine_host_hook (strip_host_hooks existing) block placement in
        if negb (bool_decide (existing = content)) then Ok (write_hook_atomically content file)
        else Ok (mkHookFile (is_symlink f) (nlink f) (bytes f) true (replaced f))
  | None => Ok (write_hook_atomically (lit "#!/bin/sh" ++ [c_nl] ++ block) None)
  end.

(** The blocks [install_host_hooks] installs, from the escaped binary and repository path. *)
Definition pre_receive_command (rumpel_exe : str) : str :=
  lit "exec " ++ rumpel_exe ++ lit " git-hook host-pre-receive " ++ [c_quote] ++ lit "$@" ++ [c_quote].

Definition post_receive_command (rumpel_exe escaped_repo_path : str) : str :=
  rumpel_exe ++ lit " git-hook host-post-receive --repo-path " ++ escaped_repo_path ++
  lit " || printf '%s\n' 'warning: failed to notify the rumpelpod daemon' >&2".

(** The lines of a file, each ended by a newline. *)
Definition unlines (ls : list str) : str := ls ≫= fun l => l ++ [c_nl].

Definition pre_receive_block (rumpel_exe : str) : str :=
  unlines [HOST_PRE_RECEIVE_COMMENT; pre_receive_command rumpel_exe].
Definition post_receive_block (rumpel_exe escaped_repo_path : str) : str :=
  unlines [HOST_POST_RECEIVE_COMMENT; post_receive_command rumpel_exe escaped_repo_path].

(** ** Lines *)

(** A line as [lines] reads it back: no newline in it and no carriage return at its end. *)
Definition line_ok (l : str) : Prop := c_nl ∉ l /\ ends_with [c_cr] l = false.

Lemma unlines_cons l ls : unlines (l :: ls) = l ++ [c_nl] ++ unlines ls.
Proof. unfold unlines. by rewrite bind_cons, <- app_assoc. Qed.

Lemma unlines_app a b : unlines (a ++ b) = unlines a ++ unlines b.
Proof. apply bind_app. Qed.

Lemma strip_cr_ok l : ends_with [c_cr] l = false -> strip_cr l = l.
Proof. unfold strip_cr, ends_with. intros H%bool_decide_eq_false. destruct (strip_suffix _ _); [by destruct H|done]. Qed.

Lemma lines_unlines ls : Forall line_ok ls -> lines (unlines ls) = ls.
Proof.
  unfold lines. induction 1 as [|l ls [Hnl Hcr] _ IH]; [done|].
  rewrite unlines_cons. simpl ([c_nl] ++ _). rewrite split_cons_sep by done.
  destruct (split c_nl (unlines ls)) as [|w ws] eqn:E; [by apply split_nonempty in E|].
  change (lines_of (l :: w :: ws)) with (strip_cr l :: lines_of (w :: ws)). by rewrite IH, strip_cr_ok.
Qed.

Lemma ends_with_nl ls : ls <> [] -> ends_with [c_nl] (unlines ls) = true.
Proof.
  intros H. apply ends_with_true. destruct ls as [|l ls _] using rev_ind; [done|].
  exists (unlines ls ++ l). rewrite unlines_app. unfold unlines at 2. simpl. by rewrite app_nil_r, app_assoc.
Qed.

Lemma join_unlines ls : ls <> [] -> join [c_nl] ls ++ [c_nl] = unlines ls.
Proof.
  induction ls as [|l [|l' ls] IH]; intros H; [done| |].
  - unfold unlines. simpl. by rewrite app_nil_r.
  - rewrite unlines_cons, <- IH by done. simpl. by rewrite <- !app_assoc.
Qed.

Lemma strip_unlines ls : Forall line_ok ls -> strip_lines ls <> [] ->
  strip_host_hooks (unlines ls) = unlines (strip_lines ls).
Proof.
  intros Hok Hne. unfold strip_host_hooks. rewrite lines_unlines by done.
  rewrite ends_with_nl by (by intros ->). by apply join_unlines.
Qed.

(** ** Stripping and combining *)

Definition clean (ls : list str) : Prop := Forall (fun l => line_ok l /\ managed l = false) ls.
Definition scalar (s : str) : Prop := Forall (fun c => is_scalar c = true) s.

Lemma clean_ok ls : clean ls -> Forall line_ok ls.
Proof. intros H. eapply Forall_impl; [exact H|]. by intros l [? _]. Qed.

Lemma strip_clean ls : clean ls -> strip_lines ls = ls.
Proof. induction 1 as [|l ls [_ Hm] _ IH]; [done|]. simpl. by rewrite Hm, IH. Qed.

Lemma strip_block a c cmd b :
  clean a -> managed c = true -> clean b -> strip_lines (a ++ c :: cmd :: b) = a ++ b.
Proof.
  intros Ha Hc Hb. induction Ha as [|l ls [_ Hm] _ IH]; simpl; [by rewrite Hc, strip_clean|]. by rewrite Hm, IH.
Qed.

Lemma scalar_unlines ls : Forall scalar ls -> scalar (unlines ls).
Proof.
  unfold scalar, unlines. induction 1 as [|l ls Hl _ IH]; [done|]. rewrite bind_cons.
  apply Forall_app; split; [|done]. apply Forall_app; split; [done|]. by repeat constructor.
Qed.

(** A block: a managed comment and a command line that does not end in white space. *)
Record block_ok (c cmd : str) : Prop := {
  bo_managed : managed c = true;
  bo_lines : Forall line_ok [c; cmd];
  bo_scalar : Forall scalar [c; cmd];
  bo_end x r : cmd = r ++ [x] -> is_whitespace x = false;
  bo_nonempty : cmd <> [];
}.

Lemma trim_end_by_snoc p s x : p x = true -> trim_end_by p (s ++ [x]) = trim_end_by p s.
Proof. intros H. unfold trim_end_by. rewrite reverse_app. simpl. by rewrite H. Qed.

Lemma trim_block c cmd : block_ok c cmd -> trim_end (unlines [c; cmd]) = c ++ [c_nl] ++ cmd.
Proof.
  intros []. replace (unlines [c; cmd]) with ((c ++ [c_nl] ++ cmd) ++ [c_nl])
    by (unfold unlines; simpl; by rewrite app_nil_r, <- !app_assoc).
  unfold trim_end. rewrite trim_end_by_snoc by done. apply trim_end_by_id. intros x r Hx.
  destruct cmd as [|y r' _] using rev_ind; [done|]. rewrite !app_assoc in Hx.
  apply app_inj_tail in Hx as [_ <-]. by apply (bo_end0 y r').
Qed.

Lemma combine_before sb body c cmd :
  block_ok c cmd -> line_ok sb -> starts_with (lit "#!") sb = true ->
  combine_host_hook (unlines (sb :: body)) (unlines [c; cmd]) BeforeUser = unlines (sb :: c :: cmd :: body).
Proof.
  intros Hb [Hnl _] Hs. unfold combine_host_hook.
  assert (Hsp : split_once c_nl (unlines (sb :: body)) = Some (sb, unlines body)).
  { apply split_once_Some. by rewrite unlines_cons. }
  rewrite Hsp, Hs, trim_block by done. rewrite !unlines_cons, <- !app_assoc. done.
Qed.

Lemma combine_after ls c cmd :
  ls <> [] -> combine_host_hook (unlines ls) (unlines [c; cmd]) AfterUser = unlines (ls ++ [[]; c; cmd]).
Proof. intros H. unfold combine_host_hook. rewrite ends_with_nl by done. by rewrite unlines_app. Qed.

(** Reading a hook, stripping it and combining it again. *)
Lemma install_step placement ls ls' ls'' c cmd b n :
  Forall line_ok ls -> Forall scalar ls -> strip_lines ls = ls' -> ls' <> [] ->
  combine_host_hook (unlines ls') (unlines [c; cmd]) placement = unlines ls'' ->
  install_host_hook (unlines [c; cmd]) placement (Some (mkHookFile false 1 (as_bytes (unlines ls)) b n))
  = Ok (mkHookFile false 1 (as_bytes (unlines ls'')) true (if bool_decide (unlines ls = unlines ls'') then n else S n)).
Proof.
  intros Hl Hs Hst Hne Hcomb. unfold install_host_hook. cbn [is_symlink nlink bytes replaced].
  rewrite bool_decide_false by lia. rewrite from_utf8_as_bytes by by apply scalar_unlines.
  cbn [context mbind result_bind]. rewrite strip_unlines, Hst, Hcomb by (done || by rewrite Hst).
  case_bool_decide as He; [by rewrite He|done].
Qed.

Lemma command_block_ok c cmd r x :
  managed c = true -> line_ok c -> scalar c -> cmd = r ++ [x] -> c_nl ∉ cmd -> scalar cmd ->
  is_whitespace x = false -> block_ok c cmd.
Proof.
  intros Hm Hl Hs -> Hnl Hsc Hx. split; [done| |by repeat constructor| |by destruct r].
  - repeat constructor; try apply Hl; [done|]. apply not_true_iff_false. intros [r' Hr]%ends_with_true.
    apply app_inj_tail in Hr as [_ ->]. done.
  - intros y r' Hr. by apply app_inj_tail in Hr as [_ <-].
Qed.

(** Facts about the literals of the commands. *)
Ltac closed := apply (bool_decide_unpack _); vm_compute; exact I.

Lemma line_ok_closed s : bool_decide (c_nl ∉ s /\ ends_with [c_cr] s = false) = true -> line_ok s.
Proof. by intros H%bool_decide_eq_true. Qed.

Lemma pre_receive_block_ok exe :
  c_nl ∉ exe -> scalar exe -> block_ok HOST_PRE_RECEIVE_COMMENT (pre_receive_command exe).
Proof.
  intros Hnl Hs. eapply (command_block_ok _ _ (lit "exec " ++ exe ++ lit " git-hook host-pre-receive " ++ [c_quote] ++ lit "$@"));
    [vm_compute; reflexivity|apply line_ok_closed; vm_compute; reflexivity|unfold scalar; closed|by rewrite <- !app_assoc| | |done].
  - unfold pre_receive_command. rewrite !not_elem_of_app. split_and!; try done; closed.
  - unfold scalar, pre_receive_command in *. rewrite !Forall_app. split_and!; try done; closed.
Qed.

Lemma post_receive_block_ok exe repo :
  c_nl ∉ exe -> scalar exe -> c_nl ∉ repo -> scalar repo ->
  block_ok HOST_POST_RECEIVE_COMMENT (post_receive_command exe repo).
Proof.
  intros Hnl Hs Hnl' Hs'.
  eapply (command_block_ok _ _ (exe ++ lit " git-hook host-post-receive --repo-path " ++ repo ++
    lit " || printf '%s\n' 'warning: failed to notify the rumpelpod daemon' >&"));
    [vm_compute; reflexivity|apply line_ok_closed; vm_compute; reflexivity|unfold scalar; closed| | | |].
  - unfold post_receive_command. rewrite <- !app_assoc. do 3 f_equal. vm_compute. reflexivity.
  - unfold post_receive_command. rewrite !not_elem_of_app. split_and!; try done; closed.
  - unfold scalar, post_receive_command in *. rewrite !Forall_app. split_and!; try done; closed.
  - done.
Qed.

(** Installing the post-receive block keeps the user's hook and is idempotent: the block
    follows the shebang line, every line of the user stays in place after it, stripping the
    result gives the user's file back, and a second installation leaves the file as it is
    without replacing it. *)
Theorem post_receive_idempotent exe repo sb body b n :
  c_nl ∉ exe -> scalar exe -> c_nl ∉ repo -> scalar repo ->
  clean (sb :: body) -> Forall scalar (sb :: body) -> starts_with (lit "#!") sb = true ->
  let user := unlines (sb :: body) in
  let block := post_receive_block exe repo in
  let installed := unlines (sb :: HOST_POST_RECEIVE_COMMENT :: post_receive_command exe repo :: body) in
  let file := mkHookFile false 1 (as_bytes installed) true (S n) in
  install_host_hook block BeforeUser (Some (mkHookFile false 1 (as_bytes user) b n)) = Ok file /\
  install_host_hook block BeforeUser (Some file) = Ok file /\
  strip_host_hooks installed = user.
Proof.
  intros He Hse Hr Hsr Hcl Hsc Hsb. pose proof (post_receive_block_ok exe repo He Hse Hr Hsr) as Hb.
  intros user block installed file. subst user block installed file. unfold post_receive_block.
  set (cmd := post_receive_command exe repo) in *. pose proof Hb as [].
  pose proof Hcl as [[Hsbl Hsbm] Hbody]%Forall_cons. apply Forall_cons in Hsc as [Hsc1 Hsc].
  assert (Hl : Forall line_ok (sb :: HOST_POST_RECEIVE_COMMENT :: cmd :: body)).
  { constructor; [done|]. apply (Forall_app_2 _ [_; _]); [done|by apply clean_ok]. }
  assert (Hst : strip_lines (sb :: HOST_POST_RECEIVE_COMMENT :: cmd :: body) = sb :: body).
  { apply (strip_block [sb]); [by constructor|done|done]. }
  split_and!.
  - rewrite (install_step BeforeUser (sb :: body) (sb :: body) (sb :: HOST_POST_RECEIVE_COMMENT :: cmd :: body));
      [|by apply clean_ok|by constructor|by apply strip_clean|done|by apply combine_before].
    rewrite bool_decide_false; [done|]. intros Heq. apply (f_equal length) in Heq.
    rewrite !unlines_cons, !length_app in Heq. simpl in Heq. lia.
  - rewrite (install_step BeforeUser _ (sb :: body) (sb :: HOST_POST_RECEIVE_COMMENT :: cmd :: body));
      [by rewrite bool_decide_true|done| |done|done|by apply combine_before].
    constructor; [done|]. by apply (Forall_app_2 _ [_; _]).
  - rewrite strip_unlines by (done || by rewrite Hst). by rewrite Hst.
Qed.

Lemma post_receive_idempotent_witness :
  let user := [lit "#!/bin/sh"; lit "make check"] in
  clean user /\
  strip_host_hooks (unlines (lit "#!/bin/sh" :: HOST_POST_RECEIVE_COMMENT ::
    post_receive_command (lit "/usr/bin/rumpel") (lit "/home/me/repo") :: [lit "make check"])) = unlines user.
Proof.
  assert (H1 : c_nl ∉ lit "/usr/bin/rumpel") by closed.
  assert (H2 : scalar (lit "/usr/bin/rumpel")) by (unfold scalar; closed).
  assert (H3 : c_nl ∉ lit "/home/me/repo") by closed.
  assert (H4 : scalar (lit "/home/me/repo")) by (unfold scalar; closed).
  assert (H5 : clean [lit "#!/bin/sh"; lit "make check"]).
  { repeat constructor; try closed; vm_compute; reflexivity. }
  assert (H6 : Forall scalar [lit "#!/bin/sh"; lit "make check"]) by (repeat constructor; unfold scalar; closed).
  assert (H7 : starts_with (lit "#!") (lit "#!/bin/sh") = true) by (vm_compute; reflexivity).
  split; [exact H5|].
  exact (proj2 (proj2 (post_receive_idempotent (lit "/usr/bin/rumpel") (lit "/home/me/repo") (lit "#!/bin/sh")
    [lit "make check"] true 0 H1 H2 H3 H4 H5 H6 H7))).
Defined.

(** Installing the pre-receive block is not idempotent: after the first installation,
    each further one replaces the file and adds one more empty line before the block. *)
Theorem pre_receive_grows exe n :
  c_nl ∉ exe -> scalar exe ->
  let install := install_host_hook (pre_receive_block exe) AfterUser in
  Nat.iter n (fun r => f ← r; install (Some f)) (install None) =
  Ok (mkHookFile false 1
    (as_bytes (unlines (lit "#!/bin/sh" :: replicate n [] ++
       [HOST_PRE_RECEIVE_COMMENT; pre_receive_command exe]))) true (S n)).
Proof.
  intros He Hs install. subst install. pose proof (pre_receive_block_ok exe He Hs) as Hb. unfold pre_receive_block.
  set (cmd := pre_receive_command exe) in *. pose proof Hb as [].
  assert (Hsh : line_ok (lit "#!/bin/sh") /\ managed (lit "#!/bin/sh") = false /\ scalar (lit "#!/bin/sh")).
  { split_and!; [apply line_ok_closed; vm_compute; reflexivity|vm_compute; reflexivity|unfold scalar; closed]. }
  destruct Hsh as (Hsl & Hsm & Hss).
  assert (Hcl : forall k, clean (lit "#!/bin/sh" :: replicate k [])).
  { intros k. constructor; [done|]. apply Forall_replicate. split; [|done]. apply line_ok_closed. vm_compute. reflexivity. }
  induction n as [|n IH]; [done|]. rewrite Nat.iter_succ, IH. cbn [mbind result_bind].
  rewrite (install_step AfterUser _ (lit "#!/bin/sh" :: replicate n [])
    (lit "#!/bin/sh" :: replicate (S n) [] ++ [HOST_PRE_RECEIVE_COMMENT; cmd])).
  - rewrite bool_decide_false; [done|]. intros Heq. apply (f_equal length) in Heq.
    rewrite !unlines_cons, !unlines_app, !length_app in Heq. cbn [replicate] in Heq.
    rewrite unlines_cons, !length_app in Heq. simpl in Heq. lia.
  - apply (Forall_app_2 _ (lit "#!/bin/sh" :: replicate n [])); [by apply clean_ok|done].
  - apply (Forall_app_2 _ (lit "#!/bin/sh" :: replicate n [])); [|done].
    constructor; [done|]. apply Forall_replicate. constructor.
  - rewrite app_comm_cons, (strip_block _ _ _ []) by (done || apply Hcl || constructor). apply app_nil_r.
  - done.
  - rewrite combine_after, replicate_S_end by done. cbn [app]. by rewrite <- app_assoc.
Qed.

Lemma pre_receive_grows_witness :
  install_host_hook (pre_receive_block (lit "/usr/bin/rumpel")) AfterUser None =
  Ok (mkHookFile false 1 (as_bytes (unlines (lit "#!/bin/sh" :: [] ++
       [HOST_PRE_RECEIVE_COMMENT; pre_receive_command (lit "/usr/bin/rumpel")]))) true 1).
Proof.
  assert (H1 : c_nl ∉ lit "/usr/bin/rumpel") by closed.
  assert (H2 : scalar (lit "/usr/bin/rumpel")) by (unfold scalar; closed).
  exact (pre_receive_grows (lit "/usr/bin/rumpel") 0 H1 H2).
Defined.
