(* ===== verification/Subst.v ===== *)
(** * Variable references in devcontainer.json (devcontainer.rs)

    The loops that replace [${...}] references, over strings with byte indices where the
    source indexes bytes, and the reference reading they are compared with: a string is a
    sequence of characters, references and possibly an unterminated reference ([template]). *)
From stdpp Require Import gmap.
From S2P Require Import Prelude Strs.

Definition c_dollar : char := 36%N.
Definition c_open : char := 123%N.
Definition c_close : char := 125%N.

(** ** The source *)

Record SubstitutionContext := mkContext {
  local_env : option (gmap (list N) (list N));
  local_workspace_folder : option (list N);
  local_workspace_folder_basename : option (list N);
  container_workspace_folder : option (list N);
  container_workspace_folder_basename : option (list N);
  devcontainer_id : option (list N);
}.

Definition split_var_default (s : str) : str * option str :=
  match split_once c_colon s with
  | Some (var, default) => (var, Some default)
  | None => (s, None)
  end.

(** [inner.strip_prefix("localEnv:").or_else(|| inner.strip_prefix("env:"))] *)
Definition local_env_reference (inner : str) : option str :=
  match strip_prefix "localEnv:" inner with
  | Some rest => Some rest
  | None => strip_prefix "env:" inner
  end.

Definition resolve_variable (inner : str) (ctx : SubstitutionContext) : option str :=
  match local_env_reference inner with
  | Some rest =>
      env ← local_env ctx;
      let '(var_name, dflt) := split_var_default rest in
      Some (default (default [] dflt) (env !! var_name))
  | None =>
      if bool_decide (inner = lit "localWorkspaceFolder") then local_workspace_folder ctx
      else if bool_decide (inner = lit "localWorkspaceFolderBasename")
      then local_workspace_folder_basename ctx
      else if bool_decide (inner = lit "containerWorkspaceFolder") then container_workspace_folder ctx
      else if bool_decide (inner = lit "containerWorkspaceFolderBasename")
      then container_workspace_folder_basename ctx
      else if bool_decide (inner = lit "devcontainerId") then devcontainer_id ctx
      else None
  end.

(** The body of [substitute_vars]: the byte index [i] into the string being rewritten. *)
Fixpoint substitute_loop (fuel : nat) (ctx : SubstitutionContext) (result : str) (i : nat) : run str :=
  match fuel with
  | O => Unfinished
  | S fuel =>
      if bool_decide (i < len result) then
        tail ← or_panic (slice_from result i);
        if negb (starts_with "${" tail) then substitute_loop fuel ctx result (i + 1)
        else
          let start := i in
          let after_dollar_brace := start + 2 in
          after ← or_panic (slice_from result after_dollar_brace);
          match find_char c_close after with
          | None => Returned result
          | Some close =>
              let close := after_dollar_brace + close in
              inner ← or_panic (slice result after_dollar_brace close);
              match resolve_variable inner ctx with
              | Some val =>
                  before ← or_panic (slice_to result start);
                  after ← or_panic (slice_from result (close + 1));
                  substitute_loop fuel ctx (before ++ val ++ after) (start + len val)
              | None => substitute_loop fuel ctx result (close + 1)
              end
          end
      else Returned result
  end.

Definition substitute_vars (value : str) (ctx : SubstitutionContext) : run str :=
  substitute_loop (S (len value)) ctx value 0.

Arguments substitute_vars : simpl never.

(** [resolve_local_env_from_map]: the text left, the result so far. *)
Fixpoint local_env_loop (fuel : nat) (env : gmap (list N) (list N)) (rest result : str) : run str :=
  match fuel with
  | O => Unfinished
  | S fuel =>
      match find_str "${" rest with
      | None => Returned (result ++ rest)
      | Some (before, from) =>
          let result := result ++ before in
          let after := drop (length (lit "${")) from in
          match split_once c_close after with
          | None => Returned (result ++ from)
          | Some (inner, rest) =>
              let result :=
                match local_env_reference inner with
                | Some var =>
                    let '(var_name, dflt) := split_var_default var in
                    result ++ default (default [] dflt) (env !! var_name)
                | None => result ++ lit "${" ++ inner ++ [c_close]
                end in
              local_env_loop fuel env rest result
          end
      end
  end.

Definition resolve_local_env_from_map (value : str) (env : gmap (list N) (list N)) : run str :=
  local_env_loop (S (length value)) env value [].

(** [resolve_container_env_in_process]; the process environment is [env]. *)
Fixpoint container_env_loop (fuel : nat) (env : gmap (list N) (list N)) (rest result : str) : run str :=
  match fuel with
  | O => Unfinished
  | S fuel =>
      match find_str "${containerEnv:" rest with
      | None => Returned (result ++ rest)
      | Some (before, from) =>
          let result := result ++ before in
          let after := drop (length (lit "${containerEnv:")) from in
          match split_once c_close after with
          | None => Returned (result ++ from)
          | Some (inner, rest) =>
              let '(var_name, dflt) := split_var_default inner in
              container_env_loop fuel env rest (result ++ default (default [] dflt) (env !! var_name))
          end
      end
  end.

Definition resolve_container_env_in_process (env : gmap (list N) (list N)) (value : str) : run str :=
  container_env_loop (S (length value)) env value [].

(** [collect_local_env_var_names]: the text left, the names so far. *)
Fixpoint collect_loop (fuel : nat) (rest : str) (vars : gset (list N)) : run (gset (list N)) :=
  match fuel with
  | O => Unfinished
  | S fuel =>
      match find_str "${" rest with
      | None => Returned vars
      | Some (_, from) =>
          let after := drop (length (lit "${")) from in
          match split_once c_close after with
          | None => Returned vars
          | Some (inner, rest) =>
              let vars :=
                match local_env_reference inner with
                | Some var =>
                    let var_name := default [] (head (split c_colon var)) in
                    if bool_decide (var_name = []) then vars else {[var_name]} ∪ vars
                | None => vars
                end in
              collect_loop fuel rest vars
          end
      end
  end.

Definition collect_local_env_var_names (raw_json : str) : run (gset (list N)) :=
  collect_loop (S (length raw_json)) raw_json ∅.

(** [collect_local_env_vars]: the variables of the host environment that are named. *)
Definition collect_local_env_vars (host_env : gmap (list N) (list N)) (raw_json : str)
    : run (gmap (list N) (list N)) :=
  names ← collect_local_env_var_names raw_json;
  Returned (filter (fun kv => kv.1 ∈ names) host_env).

(** ** The reference reading *)

Inductive seg :=
| Chr (c : N)
| Ref (inner : list N)
| Unterminated (text : list N).

(** The pieces between closing braces; the first occurrence of [op] in a piece opens a
    reference to its end. *)
Definition piece_segs (op w : str) : list seg :=
  match find_str op w with
  | None => map Chr w ++ [Chr c_close]
  | Some (before, from) => map Chr before ++ [Ref (drop (length op) from)]
  end.

Definition last_segs (op w : str) : list seg :=
  match find_str op w with
  | None => map Chr w
  | Some (before, from) => map Chr before ++ [Unterminated from]
  end.

Fixpoint pieces_segs (op : str) (ws : list str) : list seg :=
  match ws with
  | [] => []
  | [w] => last_segs op w
  | w :: ws' => piece_segs op w ++ pieces_segs op ws'
  end.

Definition template (op s : str) : list seg := pieces_segs op (split c_close s).

(** Replace the references that [f] resolves, keep the others as they are written. *)
Definition expand_seg (op : str) (f : str -> option str) (g : seg) : str :=
  match g with
  | Chr c => [c]
  | Ref inner => default (op ++ inner ++ [c_close]) (f inner)
  | Unterminated text => text
  end.
Definition expand (op : str) (f : str -> option str) (s : str) : str :=
  template op s ≫= expand_seg op f.

Definition seg_ascii (g : seg) : bool :=
  match g with Chr c => bool_decide (c < 128)%N | _ => true end.

(** The characters outside references and before an unterminated one are ASCII. *)
Definition literal_text_ascii (op s : str) : bool := forallb seg_ascii (template op s).

(** ** Equations of the reading *)

Section Template.
Context (op : str) (Hop : op <> []) (Hclose : c_close ∉ op).

Lemma template_nil : template op [] = [].
Proof. unfold template. cbn. unfold last_segs. cbn. by rewrite starts_with_nil. Qed.

Lemma split_close_head x s : x <> c_close ->
  exists w ws, split c_close s = w :: ws /\ split c_close (x :: s) = (x :: w) :: ws /\ w `prefix_of` s.
Proof.
  intros Hx. cbn [split]. rewrite bool_decide_false by done.
  destruct (split c_close s) as [|w ws] eqn:E; [by apply split_nonempty in E|].
  exists w, ws. split_and!; [done|done|].
  rewrite <- (join_split c_close s), E. destruct ws; cbn [join]; [done|]. by eexists.
Qed.

Lemma starts_with_prefix p s t : s `prefix_of` t -> starts_with p t = false -> starts_with p s = false.
Proof.
  intros [r ->] H. apply not_true_is_false. intros (q & ->)%starts_with_true.
  apply not_true_iff_false in H. apply H. rewrite <- app_assoc. apply starts_with_app.
Qed.

Lemma template_chr x s : starts_with op (x :: s) = false -> template op (x :: s) = Chr x :: template op s.
Proof.
  intros Hs. unfold template. destruct (decide (x = c_close)) as [->|Hx].
  - cbn [split]. rewrite bool_decide_true by done.
    destruct (split c_close s) as [|w ws] eqn:E; [by apply split_nonempty in E|].
    cbn [pieces_segs]. unfold piece_segs at 1.
    assert (find_str op [] = None) as -> by (cbn; by rewrite starts_with_nil). done.
  - destruct (split_close_head x s Hx) as (w & ws & -> & -> & Hw).
    assert (find_str op (x :: w) = prod_map (cons x) id <$> find_str op w) as Hf.
    { apply find_str_cons_no. eapply starts_with_prefix; [|exact Hs]. destruct Hw as [r ->]. by exists r. }
    destruct ws as [|w' ws]; cbn [pieces_segs]; unfold last_segs, piece_segs; rewrite Hf;
      by destruct (find_str op w) as [[a b]|].
Qed.

Lemma template_ref inner s : c_close ∉ inner ->
  template op (op ++ inner ++ c_close :: s) = Ref inner :: template op s.
Proof.
  intros Hi. unfold template. rewrite app_assoc, split_cons_sep by set_solver.
  destruct (split c_close s) as [|w ws] eqn:E; [by apply split_nonempty in E|].
  cbn [pieces_segs]. unfold piece_segs at 1.
  rewrite find_str_here by apply starts_with_app. by rewrite drop_app_length.
Qed.

Lemma template_open s : c_close ∉ s -> template op (op ++ s) = [Unterminated (op ++ s)].
Proof.
  intros Hs. unfold template. rewrite split_free by set_solver. cbn. unfold last_segs.
  by rewrite find_str_here by apply starts_with_app.
Qed.

(** Reading a string from the left. *)
Lemma template_rect (P : str -> Prop) :
  P [] ->
  (forall x s, starts_with op (x :: s) = false -> P s -> P (x :: s)) ->
  (forall inner s, c_close ∉ inner -> P s -> P (op ++ inner ++ c_close :: s)) ->
  (forall s, c_close ∉ s -> P (op ++ s)) ->
  forall s, P s.
Proof.
  intros Hnil Hchr Href Hopen s. remember (length s) as n eqn:Hn. revert s Hn.
  induction (lt_wf n) as [n _ IH]. intros s ->. destruct s as [|x s]; [done|].
  destruct (starts_with op (x :: s)) eqn:E.
  - apply starts_with_true in E as [r Hr]. rewrite Hr.
    destruct (split_once c_close r) as [[inner after]|] eqn:Es.
    + apply split_once_Some in Es as [-> Hi]. apply Href; [done|].
      eapply IH; [|reflexivity]. rewrite Hr, !length_app. simpl. lia.
    + apply split_once_None in Es. by apply Hopen.
  - apply Hchr; [done|]. eapply IH; [|reflexivity]. simpl. lia.
Qed.

(** Writing the segments back gives the string. *)
Lemma expand_none s : expand op (fun _ => None) s = s.
Proof.
  unfold expand. induction s as [|x s Hs IH|inner s Hi IH|s Hs] using template_rect.
  - by rewrite template_nil.
  - rewrite template_chr by done. cbn. by rewrite IH.
  - rewrite template_ref by done. cbn. rewrite IH. by rewrite <- !app_assoc.
  - rewrite template_open by done. cbn. by rewrite app_nil_r.
Qed.

Lemma expand_chr f x s : starts_with op (x :: s) = false -> expand op f (x :: s) = x :: expand op f s.
Proof. intros H. unfold expand. by rewrite template_chr. Qed.

Lemma expand_ref f inner s : c_close ∉ inner ->
  expand op f (op ++ inner ++ c_close :: s) = default (op ++ inner ++ [c_close]) (f inner) ++ expand op f s.
Proof. intros H. unfold expand. by rewrite template_ref. Qed.

Lemma expand_open f s : c_close ∉ s -> expand op f (op ++ s) = op ++ s.
Proof. intros H. unfold expand. rewrite template_open by done. cbn. by rewrite app_nil_r. Qed.

Lemma expand_nil f : expand op f [] = [].
Proof. unfold expand. by rewrite template_nil. Qed.

(** Text without an opening keeps what follows in place. *)
Lemma expand_skip f before from : find_str op (before ++ from) = Some (before, from) ->
  expand op f (before ++ from) = before ++ expand op f from.
Proof.
  induction before as [|x before IH]; [done|]. cbn [app find_str]. intros H.
  case_match eqn:E; [done|]. destruct (find_str op (before ++ from)) as [[a b]|] eqn:Ef; [|done].
  cbn in H. simplify_eq/=. rewrite expand_chr by done. by rewrite IH.
Qed.

Lemma expand_absent f s : find_str op s = None -> expand op f s = s.
Proof.
  induction s as [|x s IH]; [by intros; apply expand_nil|]. cbn [find_str]. intros H.
  case_match eqn:E; [done|]. destruct (find_str op s) eqn:Ef; [done|].
  rewrite expand_chr by done. by rewrite IH.
Qed.

End Template.

(** ** The loops compute the reading *)

Definition OPEN : str := lit "${".

Lemma OPEN_ne : OPEN <> [].
Proof. by vm_compute. Qed.
Lemma OPEN_close : c_close ∉ OPEN.
Proof. decide_now. Qed.
Lemma OPEN_len : len OPEN = 2.
Proof. by vm_compute. Qed.
#[export] Hint Resolve OPEN_ne OPEN_close : rumpel.

Lemma slice_from_app a b : slice_from (a ++ b) (len a) = Some b.
Proof. unfold slice_from. by rewrite split_at_app. Qed.

Lemma slice_to_app a b : slice_to (a ++ b) (len a) = Some a.
Proof. unfold slice_to. by rewrite split_at_app. Qed.

Lemma find_char_first c a b : c ∉ a -> find_char c (a ++ c :: b) = Some (len a).
Proof.
  intros H. unfold find_char. assert (split_once c (a ++ c :: b) = Some (a, b)) as ->; [|done].
  by apply split_once_Some.
Qed.

Lemma find_char_absent c s : c ∉ s -> find_char c s = None.
Proof. intros H. unfold find_char. by apply split_once_None in H as ->. Qed.

Lemma len_pos x s : 0 < len (x :: s).
Proof. rewrite len_cons. pose proof (utf8_char_pos x). lia. Qed.

(** One turn of [substitute_loop] at the start of [rest]. *)
Lemma substitute_step_chr fuel ctx pre x s : starts_with OPEN (x :: s) = false ->
  substitute_loop (S fuel) ctx (pre ++ x :: s) (len pre) =
  substitute_loop fuel ctx (pre ++ x :: s) (len pre + 1).
Proof.
  intros Hs. cbn [substitute_loop]. pose proof (len_pos x s).
  rewrite bool_decide_true by (rewrite len_app; lia). rewrite slice_from_app. cbn [or_panic mbind run_bind].
  change (lit "${") with OPEN. by rewrite Hs.
Qed.

Lemma substitute_step_wide fuel ctx pre x s : ~ (x < 128)%N ->
  substitute_loop (S fuel) ctx (pre ++ x :: s) (len pre + 1) = Panicked.
Proof.
  intros Hx. cbn [substitute_loop]. pose proof (utf8_char_wide x Hx).
  rewrite bool_decide_true by (rewrite len_app, len_cons; lia).
  unfold slice_from. by rewrite split_at_inside.
Qed.

Lemma substitute_step_ref fuel ctx pre inner s : c_close ∉ inner ->
  substitute_loop (S fuel) ctx (pre ++ OPEN ++ inner ++ c_close :: s) (len pre) =
  match resolve_variable inner ctx with
  | Some val => substitute_loop fuel ctx (pre ++ val ++ s) (len pre + len val)
  | None => substitute_loop fuel ctx (pre ++ OPEN ++ inner ++ c_close :: s)
              (len pre + 2 + len inner + 1)
  end.
Proof.
  intros Hi. cbn [substitute_loop].
  rewrite bool_decide_true by (rewrite !len_app, OPEN_len; lia).
  rewrite slice_from_app. cbn [or_panic mbind run_bind]. change (lit "${") with OPEN.
  rewrite starts_with_app. cbn [negb].
  assert (forall t, slice_from (pre ++ OPEN ++ t) (len pre + 2) = Some t) as Hafter.
  { intros t. rewrite app_assoc, <- OPEN_len, <- len_app. apply slice_from_app. }
  rewrite Hafter. cbn [or_panic mbind run_bind]. rewrite find_char_first by done.
  assert (slice (pre ++ OPEN ++ inner ++ c_close :: s) (len pre + 2) (len pre + 2 + len inner) = Some inner) as ->.
  { rewrite (app_assoc pre OPEN), <- OPEN_len, <- len_app. apply slice_app. }
  cbn [or_panic mbind run_bind]. destruct (resolve_variable inner ctx) as [val|]; [|done].
  rewrite slice_to_app. cbn [or_panic mbind run_bind].
  assert (slice_from (pre ++ OPEN ++ inner ++ c_close :: s) (len pre + 2 + len inner + 1) = Some s) as ->; [|done].
  replace (pre ++ OPEN ++ inner ++ c_close :: s) with ((pre ++ OPEN ++ inner ++ [c_close]) ++ s)
    by (by rewrite <- !app_assoc).
  replace (len pre + 2 + len inner + 1) with (len (pre ++ OPEN ++ inner ++ [c_close])); [apply slice_from_app|].
  rewrite !len_app, OPEN_len. change (len [c_close]) with 1. lia.
Qed.

Lemma substitute_step_open fuel ctx pre s : c_close ∉ s ->
  substitute_loop (S fuel) ctx (pre ++ OPEN ++ s) (len pre) = Returned (pre ++ OPEN ++ s).
Proof.
  intros Hs. cbn [substitute_loop].
  rewrite bool_decide_true by (rewrite !len_app, OPEN_len; lia).
  rewrite slice_from_app. cbn [or_panic mbind run_bind]. change (lit "${") with OPEN.
  rewrite starts_with_app. cbn [negb].
  rewrite (app_assoc pre OPEN), <- OPEN_len, <- len_app, slice_from_app. cbn [or_panic mbind run_bind].
  by rewrite find_char_absent.
Qed.

Lemma substitute_loop_spec ctx rest : forall fuel pre, len rest < fuel ->
  substitute_loop fuel ctx (pre ++ rest) (len pre) =
  if literal_text_ascii OPEN rest
  then Returned (pre ++ expand OPEN (fun v => resolve_variable v ctx) rest) else Panicked.
Proof.
  unfold literal_text_ascii.
  induction rest as [|x s Hs IH|inner s Hi IH|s Hs] using (template_rect OPEN);
    intros fuel pre Hf; (destruct fuel as [|fuel]; [lia|]).
  - rewrite template_nil, expand_nil by auto with rumpel. rewrite app_nil_r. cbn [substitute_loop].
    by rewrite bool_decide_false by lia.
  - rewrite substitute_step_chr by done. rewrite template_chr, expand_chr by auto with rumpel.
    rewrite len_cons in Hf. cbn [forallb seg_ascii].
    destruct (decide (x < 128)%N) as [Hx|Hx].
    + rewrite bool_decide_true by done. cbn [andb].
      rewrite utf8_char_ascii in Hf by done. cbn [length] in Hf.
      replace (len pre + 1) with (len (pre ++ [x]))
        by (by rewrite len_app, len_cons, utf8_char_ascii).
      rewrite (cons_middle x pre s), app_assoc, IH by lia.
      by case_match; rewrite <- ?app_assoc.
    + rewrite bool_decide_false by done. pose proof (utf8_char_wide x Hx).
      destruct fuel as [|fuel]; [lia|]. by rewrite substitute_step_wide.
  - rewrite substitute_step_ref by done. rewrite template_ref, expand_ref by auto with rumpel.
    rewrite !len_app, OPEN_len, len_cons in Hf. cbn [forallb seg_ascii andb].
    destruct (resolve_variable inner ctx) as [val|]; cbn [default].
    + rewrite app_assoc, <- len_app, IH by lia. by case_match; rewrite <- ?app_assoc.
    + replace (pre ++ OPEN ++ inner ++ c_close :: s) with ((pre ++ OPEN ++ inner ++ [c_close]) ++ s)
        by (by rewrite <- !app_assoc).
      replace (len pre + 2 + len inner + 1) with (len (pre ++ OPEN ++ inner ++ [c_close]))
        by (rewrite !len_app, OPEN_len; change (len [c_close]) with 1; lia).
      rewrite IH by lia. by case_match; rewrite <- ?app_assoc.
  - rewrite substitute_step_open by done. by rewrite template_open, expand_open by auto with rumpel.
Qed.

Lemma substitute_vars_eq value ctx :
  substitute_vars value ctx =
  if literal_text_ascii OPEN value
  then Returned (expand OPEN (fun v => resolve_variable v ctx) value) else Panicked.
Proof. unfold substitute_vars. apply (substitute_loop_spec ctx value _ []). lia. Qed.

(** [C8] Substitution is one pass over the text: every reference the context resolves is
    replaced by its value, and every other character, the references left for a later phase
    and an unterminated reference stay as they are; values are not read again.  It panics
    exactly when the text outside references has a character beyond ASCII, because the index
    moves by bytes. *)
Theorem substitute_vars_spec value ctx :
  substitute_vars value ctx =
  if literal_text_ascii OPEN value
  then Returned (expand OPEN (fun v => resolve_variable v ctx) value) else Panicked.
Proof. apply substitute_vars_eq. Qed.

(** *** The loops that search for the opening *)

Lemma find_open op s before from : op <> [] -> find_str op s = Some (before, from) ->
  s = before ++ from /\ from = op ++ drop (length op) from.
Proof.
  intros Hop [-> (r & ->)%starts_with_true]%find_str_Some; [|done]. by rewrite drop_app_length.
Qed.

Lemma expand_find op f s before from : op <> [] -> find_str op s = Some (before, from) ->
  expand op f s = before ++ expand op f from.
Proof.
  intros Hop Hf. pose proof (find_open op s before from Hop Hf) as [-> _]. by apply expand_skip.
Qed.

(** The context of [resolve_local_env_from_map]. *)
Definition env_context (env : gmap (list N) (list N)) : SubstitutionContext :=
  mkContext (Some env) None None None None None.

Lemma resolve_env_context env inner : resolve_variable inner (env_context env) =
  match local_env_reference inner with
  | Some var => let '(n, d) := split_var_default var in Some (default (default [] d) (env !! n))
  | None => None
  end.
Proof. unfold resolve_variable. case_match; [done|]. by repeat case_bool_decide. Qed.

Lemma local_env_loop_spec env fuel : forall rest result, length rest < fuel ->
  local_env_loop fuel env rest result =
  Returned (result ++ expand OPEN (fun v => resolve_variable v (env_context env)) rest).
Proof.
  induction fuel as [|fuel IH]; [lia|]. intros rest result Hl. cbn [local_env_loop].
  change (lit "${") with OPEN. destruct (find_str OPEN rest) as [[before from]|] eqn:Ef.
  - rewrite (expand_find _ _ _ _ _ OPEN_ne Ef).
    destruct (find_open _ _ _ _ OPEN_ne Ef) as [-> Hfrom].
    remember (drop (length OPEN) from) as after eqn:Ha. clear Ha. subst from.
    destruct (split_once c_close after) as [[inner rest]|] eqn:Es.
    + apply split_once_Some in Es as [-> Hi].
      rewrite IH by (rewrite !length_app in Hl; simpl in Hl; lia).
      rewrite expand_ref, resolve_env_context by auto with rumpel.
      f_equal. destruct (local_env_reference inner) as [var|]; [destruct (split_var_default var)|];
        cbn [default from_option]; by rewrite <- !app_assoc.
    + apply split_once_None in Es. rewrite expand_open by auto with rumpel. by rewrite <- !app_assoc.
  - by rewrite expand_absent by auto with rumpel.
Qed.

Definition CONTAINER_OPEN : str := lit "${containerEnv:".

Lemma CONTAINER_OPEN_ok : CONTAINER_OPEN <> [] /\ c_close ∉ CONTAINER_OPEN.
Proof. decide_now. Qed.

(** What [${containerEnv:inner}] stands for: always something. *)
Definition container_value (env : gmap (list N) (list N)) (inner : str) : option str :=
  let '(n, d) := split_var_default inner in Some (default (default [] d) (env !! n)).

Lemma container_env_loop_spec env fuel : forall rest result, length rest < fuel ->
  container_env_loop fuel env rest result =
  Returned (result ++ expand CONTAINER_OPEN (container_value env) rest).
Proof.
  destruct CONTAINER_OPEN_ok as [Hne Hcl].
  induction fuel as [|fuel IH]; [lia|]. intros rest result Hl. cbn [container_env_loop].
  change (lit "${containerEnv:") with CONTAINER_OPEN.
  destruct (find_str CONTAINER_OPEN rest) as [[before from]|] eqn:Ef.
  - rewrite (expand_find _ _ _ _ _ Hne Ef).
    destruct (find_open _ _ _ _ Hne Ef) as [-> Hfrom].
    remember (drop (length CONTAINER_OPEN) from) as after eqn:Ha. clear Ha. subst from.
    destruct (split_once c_close after) as [[inner rest]|] eqn:Es.
    + apply split_once_Some in Es as [-> Hi]. rewrite expand_ref by done.
      unfold container_value at 1. destruct (split_var_default inner) as [n d].
      rewrite IH by (rewrite !length_app in Hl; simpl in Hl; lia). by rewrite <- !app_assoc.
    + apply split_once_None in Es. rewrite expand_open by done. by rewrite <- !app_assoc.
  - by rewrite expand_absent by auto with rumpel.
Qed.

(** The resolver of the pod reads the same references as the daemon's substitution:
    with only the host environment known it gives what [substitute_vars] gives wherever that
    returns, and it returns for every text; a [containerEnv] reference is always replaced, by
    the variable, its default or nothing. *)
Theorem pod_resolvers_agree value env :
  resolve_local_env_from_map value env =
    Returned (expand OPEN (fun v => resolve_variable v (env_context env)) value) /\
  (substitute_vars value (env_context env) = Panicked \/
   substitute_vars value (env_context env) = resolve_local_env_from_map value env) /\
  resolve_container_env_in_process env value =
    Returned (expand CONTAINER_OPEN (container_value env) value).
Proof.
  unfold resolve_local_env_from_map, resolve_container_env_in_process.
  rewrite local_env_loop_spec, container_env_loop_spec, substitute_vars_eq by lia.
  split_and!; [done| |done]. case_match; auto.
Qed.

(** *** Which host variables are collected *)

Lemma split_head_name var : default [] (head (split c_colon var)) = fst (split_var_default var).
Proof.
  unfold split_var_default. destruct (split_once c_colon var) as [[a b]|] eqn:E.
  - apply split_once_Some in E as [-> Ha]. by rewrite split_cons_sep.
  - apply split_once_None in E. by rewrite split_free.
Qed.

Definition seg_name (g : seg) : option (list N) :=
  match g with
  | Ref inner =>
      var ← local_env_reference inner;
      let n := fst (split_var_default var) in if bool_decide (n = []) then None else Some n
  | _ => None
  end.

Definition names_of (gs : list seg) : gset (list N) := list_to_set (omap seg_name gs).

Lemma names_of_app a b : names_of (a ++ b) = names_of a ∪ names_of b.
Proof. unfold names_of. by rewrite omap_app, list_to_set_app_L. Qed.

Lemma names_of_chrs s : names_of (map Chr s) = ∅.
Proof. induction s as [|x s IH]; [done|]. unfold names_of in *. cbn. by rewrite IH. Qed.

Lemma template_skip op before from : op <> [] -> find_str op (before ++ from) = Some (before, from) ->
  template op (before ++ from) = map Chr before ++ template op from.
Proof.
  intros Hop. induction before as [|x before IH]; [done|]. cbn [app find_str]. intros H.
  case_match eqn:E; [done|]. destruct (find_str op (before ++ from)) as [[a b]|] eqn:Ef; [|done].
  cbn in H. simplify_eq/=. rewrite template_chr by done. by rewrite IH.
Qed.

Lemma template_absent op s : op <> [] -> find_str op s = None -> template op s = map Chr s.
Proof.
  intros Hop. induction s as [|x s IH]; [by intros; apply template_nil|]. cbn [find_str]. intros H.
  case_match eqn:E; [done|]. destruct (find_str op s) eqn:Ef; [done|].
  rewrite template_chr by done. cbn. by rewrite IH.
Qed.

Lemma collect_loop_spec fuel : forall rest vars, length rest < fuel ->
  collect_loop fuel rest vars = Returned (vars ∪ names_of (template OPEN rest)).
Proof.
  induction fuel as [|fuel IH]; [lia|]. intros rest vars Hl. cbn [collect_loop].
  change (lit "${") with OPEN. destruct (find_str OPEN rest) as [[before from]|] eqn:Ef.
  - destruct (find_open _ _ _ _ OPEN_ne Ef) as [-> Hfrom].
    rewrite template_skip, names_of_app, names_of_chrs, union_empty_l_L by auto with rumpel.
    remember (drop (length OPEN) from) as after eqn:Ha. clear Ha Ef. subst from.
    destruct (split_once c_close after) as [[inner rest]|] eqn:Es.
    + apply split_once_Some in Es as [-> Hi].
      rewrite IH by (rewrite !length_app in Hl; simpl in Hl; lia).
      rewrite template_ref by auto with rumpel. f_equal.
      change (Ref inner :: template OPEN rest) with ([Ref inner] ++ template OPEN rest).
      rewrite names_of_app. unfold names_of at 2. cbn.
      destruct (local_env_reference inner) as [var|]; cbn; [|by rewrite union_empty_l_L].
      rewrite split_head_name. case_bool_decide; cbn; [by rewrite union_empty_l_L|].
      rewrite union_empty_r_L, !assoc_L by apply _. f_equal. apply (comm_L _).
    + apply split_once_None in Es. rewrite template_open by auto with rumpel.
      unfold names_of. cbn. by rewrite union_empty_r_L.
  - by rewrite template_absent, names_of_chrs, union_empty_r_L by auto with rumpel.
Qed.

Lemma collect_names_eq raw : collect_local_env_var_names raw = Returned (names_of (template OPEN raw)).
Proof.
  unfold collect_local_env_var_names. rewrite collect_loop_spec by lia. by rewrite union_empty_l_L.
Qed.

(** A string that ends outside references and not in a dollar sign. *)
Definition seg_closed (g : seg) : bool := match g with Unterminated _ => false | _ => true end.
Definition ends_outside (s : str) : bool :=
  forallb seg_closed (template OPEN s) && negb (ends_with [c_dollar] s).

Lemma starts_open x s : starts_with OPEN (x :: s) = true <-> x = c_dollar /\ head s = Some c_open.
Proof.
  rewrite starts_with_true. change OPEN with [c_dollar; c_open]. split.
  - intros (r & [= -> ->]). done.
  - intros [-> H]. destruct s as [|y s]; simplify_eq/=. by exists s.
Qed.

Lemma starts_open_false x s : starts_with OPEN (x :: s) = false <-> ~ (x = c_dollar /\ head s = Some c_open).
Proof. by rewrite <- starts_open, not_true_iff_false. Qed.

Lemma ends_with_cons x p s : s <> [] -> ends_with [p] (x :: s) = ends_with [p] s.
Proof.
  intros Hs. apply eq_iff_eq_true. rewrite !ends_with_true. split; intros (r & Hr).
  - destruct r as [|y r]; simplify_eq/=. by exists r.
  - exists (x :: r). by rewrite Hr.
Qed.

Lemma template_app pre s : ends_outside pre = true ->
  template OPEN (pre ++ s) = template OPEN pre ++ template OPEN s.
Proof.
  unfold ends_outside. rewrite andb_true_iff, negb_true_iff. intros [Hc He]. revert Hc He.
  induction pre as [|x p Hs IH|inner p Hi IH|p Hp] using (template_rect OPEN); intros Hc He.
  - by rewrite template_nil by auto with rumpel.
  - rewrite template_chr in Hc |- * by auto with rumpel. cbn [forallb seg_closed andb] in Hc.
    assert (starts_with OPEN (x :: (p ++ s)) = false) as Hs'.
    { apply starts_open_false in Hs. apply starts_open_false. intros [-> Hh].
      destruct p as [|y p]; [by vm_compute in He|]. by apply Hs. }
    cbn [app]. rewrite template_chr by auto with rumpel. f_equal. apply IH; [done|].
    destruct (decide (p = [])) as [->|Hp]; [done|]. by rewrite ends_with_cons in He.
  - rewrite template_ref in Hc |- * by auto with rumpel. cbn [forallb seg_closed andb] in Hc.
    rewrite <- !app_assoc. cbn [app]. rewrite template_ref by auto with rumpel. cbn [app].
    f_equal. apply IH; [done|]. destruct (decide (p = [])) as [->|Hp]; [done|].
    apply not_true_iff_false. apply not_true_iff_false in He. intros H. apply He.
    apply ends_with_true in H as (r & ->). apply ends_with_true.
    exists (OPEN ++ inner ++ c_close :: r). by rewrite <- !app_assoc.
  - by rewrite template_open in Hc by auto with rumpel.
Qed.

(** The references of a string stay references when text follows it. *)
Lemma template_refs_prefix v post inner : Ref inner ∈ template OPEN v -> Ref inner ∈ template OPEN (v ++ post).
Proof.
  induction v as [|x v Hs IH|i v Hi IH|v Hv] using (template_rect OPEN).
  - by rewrite template_nil by auto with rumpel; intros ?%not_elem_of_nil.
  - rewrite template_chr by auto with rumpel. intros [?|Hin]%elem_of_cons; [done|].
    cbn [app]. destruct v as [|y v].
    + rewrite template_nil in Hin by auto with rumpel. by apply not_elem_of_nil in Hin.
    + rewrite template_chr; [by right; apply IH|auto with rumpel..|].
      apply starts_open_false. by apply starts_open_false in Hs.
  - rewrite template_ref by auto with rumpel. rewrite <- !app_assoc. cbn [app].
    rewrite template_ref by auto with rumpel. intros [->|Hin]%elem_of_cons; [by left|].
    right. by apply IH.
  - rewrite template_open by auto with rumpel. by intros [?|?%not_elem_of_nil]%elem_of_cons.
Qed.

Lemma names_of_elem n gs : n ∈ names_of gs <-> exists g, g ∈ gs /\ seg_name g = Some n.
Proof. unfold names_of. by rewrite elem_of_list_to_set, list_elem_of_omap. Qed.

(** Expansion looks only at the references of the text. *)
Lemma expand_ext op f g s : (forall inner, Ref inner ∈ template op s -> f inner = g inner) ->
  expand op f s = expand op g s.
Proof.
  unfold expand. induction (template op s) as [|e gs IH]; intros H; [done|].
  rewrite !bind_cons. f_equal; [|apply IH; intros; apply H; by right].
  destruct e; cbn; [done| |done]. by rewrite H by left.
Qed.

Definition with_local_env (env : gmap (list N) (list N)) (ctx : SubstitutionContext) : SubstitutionContext :=
  mkContext (Some env) (local_workspace_folder ctx) (local_workspace_folder_basename ctx)
    (container_workspace_folder ctx) (container_workspace_folder_basename ctx) (devcontainer_id ctx).

Lemma resolve_with_env env env' ctx inner :
  (forall var n d, local_env_reference inner = Some var -> split_var_default var = (n, d) -> env !! n = env' !! n) ->
  resolve_variable inner (with_local_env env ctx) = resolve_variable inner (with_local_env env' ctx).
Proof.
  intros H. unfold resolve_variable. destruct (local_env_reference inner) as [var|]; [|done]. cbn.
  destruct (split_var_default var) as [n d] eqn:E. by rewrite (H var n d).
Qed.

(** The variables the client collects from the raw file are enough: a value that occurs in
    the file, where the text before it closes its references, is substituted with the
    collected map exactly as with the whole host environment. *)
Theorem collected_env_suffices host_env pre v post ctx :
  ends_outside pre = true -> host_env !! [] = None ->
  exists vars, collect_local_env_vars host_env (pre ++ v ++ post) = Returned vars /\
    substitute_vars v (with_local_env vars ctx) = substitute_vars v (with_local_env host_env ctx).
Proof.
  intros Hpre Hempty. unfold collect_local_env_vars. rewrite collect_names_eq. cbn [mbind run_bind].
  eexists. split; [done|]. rewrite !substitute_vars_eq. case_match; [|done]. f_equal.
  apply expand_ext. intros inner Hin. apply resolve_with_env. intros var n d Hr Hs.
  destruct (decide (n = [])) as [->|Hn].
  - rewrite Hempty. apply map_lookup_filter_None. by left.
  - assert (n ∈ names_of (template OPEN (pre ++ v ++ post))) as Hnames.
    { rewrite template_app, names_of_app by done. apply elem_of_union_r, names_of_elem.
      exists (Ref inner). split; [by apply template_refs_prefix|].
      cbn. rewrite Hr. cbn. rewrite Hs. cbn. by rewrite bool_decide_false. }
    destruct (host_env !! n) as [x|] eqn:E.
    + by apply map_lookup_filter_Some.
    + apply map_lookup_filter_None. by left.
Qed.

Lemma collected_env_suffices_witness :
  let env := {[lit "HOME" := lit "/home/me"; lit "SHELL" := lit "sh"]} : gmap (list N) (list N) in
  let ctx := mkContext None None None None None None in
  exists vars, collect_local_env_vars env (lit "{name: '${localEnv:NAME:none}', user: '"
                 ++ lit "${localEnv:HOME}/${containerWorkspaceFolder}" ++ lit "'}") = Returned vars /\
    substitute_vars "${localEnv:HOME}/${containerWorkspaceFolder}" (with_local_env vars ctx) =
    substitute_vars "${localEnv:HOME}/${containerWorkspaceFolder}" (with_local_env env ctx).
Proof. apply collected_env_suffices; vm_compute; reflexivity. Defined.

(** *** Phases *)

(** Resolve with [a] first, and with [b] what [a] leaves. *)
Definition context_or (a b : SubstitutionContext) : SubstitutionContext :=
  let either {A} (f : SubstitutionContext -> option A) :=
    match f a with Some x => Some x | None => f b end in
  mkContext (either local_env) (either local_workspace_folder) (either local_workspace_folder_basename)
    (either container_workspace_folder) (either container_workspace_folder_basename)
    (either devcontainer_id).

Lemma resolve_context_or inner a b : resolve_variable inner (context_or a b) =
  match resolve_variable inner a with Some v => Some v | None => resolve_variable inner b end.
Proof.
  unfold resolve_variable. destruct (local_env_reference inner) as [rest|].
  - cbn. destruct (local_env a), (local_env b); cbn; by destruct (split_var_default rest).
  - by repeat case_bool_decide.
Qed.

(** No dollar sign outside references, and none in the values put in. *)
Definition seg_settled (f : str -> option str) (g : seg) : bool :=
  match g with
  | Chr c => negb (bool_decide (c = c_dollar))
  | Ref inner => negb (is_some_and (contains_char c_dollar) (f inner))
  | Unterminated _ => true
  end.
Definition settled (ctx : SubstitutionContext) (s : str) : bool :=
  forallb (seg_settled (fun v => resolve_variable v ctx)) (template OPEN s).

(** The values put in are ASCII. *)
Definition values_ascii (ctx : SubstitutionContext) (s : str) : bool :=
  forallb (fun g => match g with
                    | Ref inner => forallb (fun c => bool_decide (c < 128)%N)
                                     (default [] (resolve_variable inner ctx))
                    | _ => true
                    end) (template OPEN s).

Definition substituted_seg (f : str -> option str) (g : seg) : list seg :=
  match g with
  | Ref inner => match f inner with Some v => map Chr v | None => [g] end
  | _ => [g]
  end.

Lemma template_no_dollar v s : c_dollar ∉ v -> template OPEN (v ++ s) = map Chr v ++ template OPEN s.
Proof.
  induction v as [|x v IH]; intros H; [done|]. cbn [app map].
  rewrite template_chr; [by rewrite IH by set_solver|auto with rumpel..|].
  apply starts_open_false. set_solver.
Qed.

Lemma template_expand f s : forallb (seg_settled f) (template OPEN s) = true ->
  template OPEN (expand OPEN f s) = template OPEN s ≫= substituted_seg f.
Proof.
  induction s as [|x s Hs IH|inner s Hi IH|s Hs] using (template_rect OPEN).
  - intros _. by rewrite expand_nil, template_nil by auto with rumpel.
  - rewrite expand_chr by auto with rumpel.
    rewrite (template_chr OPEN OPEN_ne x s Hs). cbn [forallb seg_settled].
    rewrite andb_true_iff, negb_true_iff, bool_decide_eq_false. intros [Hx Hrest].
    rewrite template_chr; [|auto with rumpel..|by apply starts_open_false; naive_solver].
    rewrite bind_cons, IH by done. done.
  - rewrite expand_ref, (template_ref OPEN) by auto with rumpel. cbn [forallb seg_settled].
    rewrite andb_true_iff, negb_true_iff. intros [Hx Hrest]. rewrite bind_cons, <- IH by done.
    cbn [substituted_seg]. destruct (f inner) as [v|]; cbn [default from_option].
    + apply bool_decide_eq_false in Hx. by apply template_no_dollar.
    + rewrite <- !app_assoc. cbn [app]. by rewrite template_ref by auto with rumpel.
  - intros _. by rewrite expand_open, template_open by auto with rumpel.
Qed.

Lemma expand_twice f g s : forallb (seg_settled f) (template OPEN s) = true ->
  expand OPEN g (expand OPEN f s) =
  expand OPEN (fun v => match f v with Some x => Some x | None => g v end) s.
Proof.
  intros H. unfold expand at 1 3. rewrite template_expand by done.
  induction (template OPEN s) as [|e gs IH]; [done|].
  cbn [forallb] in H. apply andb_true_iff in H as [_ H]. rewrite !bind_cons, bind_app, IH by done.
  f_equal. destruct e as [c|i|t]; cbn; rewrite ?app_nil_r; try done.
  destruct (f i) as [v|]; cbn; [|by rewrite app_nil_r].
  clear. induction v as [|x v IH]; [done|]. cbn. by rewrite IH.
Qed.

Lemma forallb_map_chr v : forallb seg_ascii (map Chr v) = forallb (fun c => bool_decide (c < 128)%N) v.
Proof. induction v as [|x v IH]; [done|]. cbn. by rewrite IH. Qed.

Lemma literal_ascii_expand ctx s : settled ctx s = true -> literal_text_ascii OPEN s = true ->
  literal_text_ascii OPEN (expand OPEN (fun v => resolve_variable v ctx) s) = values_ascii ctx s.
Proof.
  unfold settled, literal_text_ascii, values_ascii. intros H. rewrite template_expand by done. clear H.
  induction (template OPEN s) as [|e gs IH]; [done|]. cbn [forallb].
  rewrite andb_true_iff. intros [He Hgs]. rewrite bind_cons, forallb_app, IH by done. f_equal.
  destruct e as [c|i|t]; cbn in *; [by rewrite He| |done].
  destruct (resolve_variable i ctx) as [v|]; cbn; [apply forallb_map_chr|done].
Qed.

(** Substituting in two phases is substituting once with both contexts, for a text with
    no dollar sign outside its references and values with none, so a value is never read as
    a reference; the second phase panics on a value beyond ASCII that the first put in. *)
Theorem substitution_phases value a b :
  settled a value = true ->
  (r ← substitute_vars value a; substitute_vars r b) =
  if values_ascii a value then substitute_vars value (context_or a b) else Panicked.
Proof.
  intros Hs. rewrite !(substitute_vars_eq value).
  destruct (literal_text_ascii OPEN value) eqn:Ha; cbn [mbind run_bind]; [|by case_match].
  rewrite substitute_vars_eq, literal_ascii_expand by done. case_match; [|done].
  f_equal. rewrite expand_twice by done. apply expand_ext. intros i _. by rewrite resolve_context_or.
Qed.

Lemma substitution_phases_witness :
  let a := mkContext None None None (Some (lit "/workspaces/p")) (Some (lit "p")) None in
  let b := env_context {[lit "HOME" := lit "/home/me"]} in
  let value := lit "${localEnv:HOME}:${containerWorkspaceFolder}/bin:${unknown}" in
  (r ← substitute_vars value a; substitute_vars r b) =
    (if values_ascii a value then substitute_vars value (context_or a b) else Panicked) /\
  substitute_vars value (context_or a b) = Returned (lit "/home/me:/workspaces/p/bin:${unknown}").
Proof. split; [apply substitution_phases|]; vm_compute; reflexivity.
Defined.
