(* ===== verification/Devcontainer.v ===== *)
(** * The devcontainer configuration (devcontainer.rs)

    The configuration record with its sub-types, where the file is looked for, variable
    substitution over the whole record, env files, build paths, mounts and the workspace
    path.  A path is its text; the file system and the json5 parser are parameters. *)
From stdpp Require Import gmap.
From S2P Require Import Prelude Strs PodNames Ports Json ExecStream Subst.

(** ** Data *)

Inductive StringOrArray := SAString (s : list N) | SAArray (l : list (list N)).

Inductive LifecycleCommand :=
| LCString (s : list N)
| LCArray (l : list (list N))
| LCObject (m : gmap (list N) StringOrArray).

Inductive AppPort := APNumber (n : Z) | APString (s : list N) | APArray (l : list Port).

Inductive UserEnvProbe := ProbeNone | InteractiveShell | LoginShell | LoginInteractiveShell.

Inductive ShutdownAction := ShutdownNone | StopContainer | StopCompose.

Inductive WaitFor :=
| InitializeCommand | OnCreateCommand | UpdateContentCommand
| PostCreateCommand | PostStartCommand | PostAttachCommand.

Inductive MountType := Bind | Volume | Tmpfs.

#[export] Instance MountType_eq_dec : EqDecision MountType.
Proof. solve_decision. Defined.

Record MountObject := mkMount {
  mount_type : MountType;
  mount_source : option (list N);
  mount_target : list N;
  mount_read_only : option bool;
}.

#[export] Instance MountObject_eq_dec : EqDecision MountObject.
Proof. solve_decision. Defined.

Inductive Mount := MString (s : list N) | MObject (o : MountObject).

Record GpuDetails := mkGpuDetails {
  gpu_cores : option Z;
  gpu_memory : option (list N);
}.
Inductive GpuRequirement := Required (b : bool) | Optional (s : list N) | Detailed (d : GpuDetails).

Record HostRequirements := mkHostRequirements {
  cpus : option Z;
  memory : option (list N);
  storage : option (list N);
  gpu : option GpuRequirement;
}.

Record BuildOptions := mkBuild {
  b_dockerfile : option (list N);
  b_context : option (list N);
  b_args : option (gmap (list N) (list N));
  b_options : option (list (list N));
  b_target : option (list N);
  b_cache_from : option StringOrArray;
}.
Definition BuildOptions_default : BuildOptions := mkBuild None None None None None None.

#[export] Instance BuildOptions_updatable : Updatable BuildOptions :=
  fun r => mkBuild (b_dockerfile r) (b_context r) (b_args r) (b_options r) (b_target r) (b_cache_from r).

Record LifecycleConfig := mkLifecycle {
  on_create_command : option LifecycleCommand;
  update_content_command : option LifecycleCommand;
  post_create_command : option LifecycleCommand;
  post_start_command : option LifecycleCommand;
  post_attach_command : option LifecycleCommand;
  wait_for : WaitFor;
}.

Record DevContainer := mkDevContainer {
  dc_name : option (list N);
  dc_forward_ports : option (list Port);
  dc_ports_attributes : option (gmap (list N) PortAttributes);
  dc_other_ports_attributes : option PortAttributes;
  dc_container_env : option (gmap (list N) (list N));
  dc_remote_env : option (gmap (list N) (list N));
  dc_remote_user : option (list N);
  dc_container_user : option (list N);
  dc_update_remote_user_uid : option bool;
  dc_user_env_probe : option UserEnvProbe;
  dc_override_command : option bool;
  dc_shutdown_action : option ShutdownAction;
  dc_init : option bool;
  dc_privileged : option bool;
  dc_cap_add : option (list (list N));
  dc_security_opt : option (list (list N));
  dc_mounts : option (list Mount);
  dc_features : option (gmap (list N) json);
  dc_override_feature_install_order : option (list (list N));
  dc_customizations : option (gmap (list N) json);
  dc_image : option (list N);
  dc_build : option BuildOptions;
  dc_dockerfile : option (list N);
  dc_context : option (list N);
  dc_app_port : option AppPort;
  dc_workspace_mount : option (list N);
  dc_workspace_folder : option (list N);
  dc_run_args : option (list (list N));
  dc_docker_compose_file : option StringOrArray;
  dc_service : option (list N);
  dc_run_services : option (list (list N));
  dc_initialize_command : option LifecycleCommand;
  dc_lifecycle : LifecycleConfig;
  dc_host_requirements : option HostRequirements;
}.

#[export] Instance DevContainer_updatable : Updatable DevContainer :=
  fun r => mkDevContainer (dc_name r) (dc_forward_ports r) (dc_ports_attributes r)
    (dc_other_ports_attributes r) (dc_container_env r) (dc_remote_env r) (dc_remote_user r)
    (dc_container_user r) (dc_update_remote_user_uid r) (dc_user_env_probe r)
    (dc_override_command r) (dc_shutdown_action r) (dc_init r) (dc_privileged r) (dc_cap_add r)
    (dc_security_opt r) (dc_mounts r) (dc_features r) (dc_override_feature_install_order r)
    (dc_customizations r) (dc_image r) (dc_build r) (dc_dockerfile r) (dc_context r)
    (dc_app_port r) (dc_workspace_mount r) (dc_workspace_folder r) (dc_run_args r)
    (dc_docker_compose_file r) (dc_service r) (dc_run_services r) (dc_initialize_command r)
    (dc_lifecycle r) (dc_host_requirements r).

Definition LifecycleConfig_default : LifecycleConfig :=
  mkLifecycle None None None None None UpdateContentCommand.

Definition DevContainer_default : DevContainer :=
  mkDevContainer None None None None None None None None None None None None None None None None
    None None None None None None None None None None None None None None None None
    LifecycleConfig_default None.

(** The derived order of [WaitFor]: that of the variants. *)
Definition wait_rank (w : WaitFor) : nat :=
  match w with
  | InitializeCommand => 0 | OnCreateCommand => 1 | UpdateContentCommand => 2
  | PostCreateCommand => 3 | PostStartCommand => 4 | PostAttachCommand => 5
  end.

Definition shell_flags_exec (p : UserEnvProbe) : option str :=
  match p with
  | ProbeNone => None
  | InteractiveShell => Some (lit "-ic")
  | LoginShell => Some (lit "-lc")
  | LoginInteractiveShell => Some (lit "-lic")
  end.

Definition shell_flags_interactive (p : UserEnvProbe) : option str :=
  match p with
  | ProbeNone => None
  | InteractiveShell => Some (lit "-i")
  | LoginShell => Some (lit "-l")
  | LoginInteractiveShell => Some (lit "-li")
  end.

(** ** Shell quoting *)

Definition c_apostrophe : char := 39%N.
Definition c_backslash : char := 92%N.

Definition shell_escape (s : str) : str :=
  let escaped := replace_char c_apostrophe [c_apostrophe; c_backslash; c_apostrophe; c_apostrophe] s in
  [c_apostrophe] ++ escaped ++ [c_apostrophe].

(** ** Mounts *)

Inductive dc_error :=
| MountMissingTarget (s : list N)
| UnsupportedMountType (s : list N)
| UnresolvedMountVar (field : list N)
| EnvFileNeedsValue
| ReadingEnvFile (path : list N)
| CheckingPath (path : list N)
| NotFileOrDirectory (path : list N)
| NotJsonFile (path : list N)
| ConfigMissing (path : list N)
| ConfigNotFile (path : list N)
| ReadFailed (path : list N)
| ParseFailed (path : list N)
| NoParent (path : list N).

(** The variables of the loop of [parse_string]. *)
Record mount_parts := mkParts {
  p_type : option (list N);
  p_source : option (list N);
  p_target : option (list N);
  p_read_only : option bool;
}.

#[export] Instance mount_parts_updatable : Updatable mount_parts :=
  fun r => mkParts (p_type r) (p_source r) (p_target r) (p_read_only r).

Definition mount_part (st : mount_parts) (part : str) : mount_parts :=
  let part := trim part in
  if bool_decide (part = []) then st
  else match split_once c_eq part with
       | Some (key, value) =>
           if bool_decide (key = lit "type") then st <| p_type := Some value |>
           else if bool_decide (key = lit "source") || bool_decide (key = lit "src")
           then st <| p_source := Some value |>
           else if bool_decide (key = lit "target") || bool_decide (key = lit "destination")
                   || bool_decide (key = lit "dst")
           then st <| p_target := Some value |>
           else if bool_decide (key = lit "readonly") || bool_decide (key = lit "ro")
           then st <| p_read_only := Some (bool_decide (value = lit "true") || bool_decide (value = lit "1")) |>
           else st
       | None =>
           if bool_decide (part = lit "readonly") || bool_decide (part = lit "ro")
           then st <| p_read_only := Some true |> else st
       end.

Definition parse_mount_type (t : option str) : result dc_error MountType :=
  match t with
  | None => Ok Bind
  | Some t =>
      if bool_decide (t = lit "bind") then Ok Bind
      else if bool_decide (t = lit "volume") then Ok Volume
      else if bool_decide (t = lit "tmpfs") then Ok Tmpfs
      else Err (UnsupportedMountType t)
  end.

Definition parse_string (s : str) : result dc_error MountObject :=
  let st := fold_left mount_part (split c_comma s) (mkParts None None None None) in
  target ← context (MountMissingTarget s) (p_target st);
  mount_type ← parse_mount_type (p_type st);
  Ok (mkMount mount_type (p_source st) target (p_read_only st)).

Definition to_mount_object (m : Mount) : result dc_error MountObject :=
  match m with
  | MObject obj => Ok obj
  | MString s => parse_string s
  end.

Definition resolved_mounts (dc : DevContainer) : result dc_error (list MountObject) :=
  match dc_mounts dc with
  | Some mounts => mapM to_mount_object mounts
  | None => Ok []
  end.

Definition mount_fields (m : MountObject) : list str :=
  match mount_source m with Some s => [s] | None => [] end ++ [mount_target m].

Definition check_no_unresolved_mount_vars (mounts : list MountObject) : result dc_error unit :=
  match List.find (fun field => contains_str "${" field) (mounts ≫= mount_fields) with
  | Some field => Err (UnresolvedMountVar field)
  | None => Ok tt
  end.

(** ** Accessors *)

Definition unsupported_field_warnings (dc : DevContainer) : list str :=
  let fields :=
    [(lit "appPort", bool_decide (is_Some (dc_app_port dc)));
     (lit "features", bool_decide (is_Some (dc_features dc)));
     (lit "overrideFeatureInstallOrder", bool_decide (is_Some (dc_override_feature_install_order dc)));
     (lit "postAttachCommand", bool_decide (is_Some (post_attach_command (dc_lifecycle dc))))] in
  map (fun f => lit "warning: devcontainer.json contains '" ++ fst f
                ++ lit "' which is not supported by rumpelpod")
    (List.filter snd fields).

Definition user (dc : DevContainer) : option str :=
  match dc_remote_user dc with Some u => Some u | None => dc_container_user dc end.

Definition build_options (dc : DevContainer) : list str :=
  default [] (dc_build dc ≫= b_options).

Definition has_build (dc : DevContainer) : bool :=
  bool_decide (is_Some (dc_dockerfile dc))
  || is_some_and (fun b => bool_decide (is_Some (b_dockerfile b))) (dc_build dc).

(** The name of a directory, or [workspace] at the root. *)
Definition basename_or_workspace (p : str) : str := default (lit "workspace") (Executor.file_name p).

Definition container_repo_path (dc : DevContainer) (repo_root : str) : str :=
  match dc_workspace_folder dc with
  | Some wf => wf
  | None => lit "/workspaces/" ++ basename_or_workspace repo_root
  end.

(** ** Substitution over the record *)

(** [map.into_iter().map(..).collect()] over the values of a hash map. *)
Definition map_values {A} (f : A -> run A) (m : gmap (list N) A) : run (gmap (list N) A) :=
  l ← mapM (fun kv : list N * A => v ← f kv.2; Returned (kv.1, v)) (map_to_list m);
  Returned (list_to_map l).

Definition sub_option {A} (f : A -> run A) (o : option A) : run (option A) :=
  match o with Some a => Some <$> f a | None => Returned None end.

Definition substitute_string_or_array (sub : str -> run str) (v : StringOrArray) : run StringOrArray :=
  match v with
  | SAString s => SAString <$> sub s
  | SAArray arr => SAArray <$> mapM sub arr
  end.

Definition substitute_lifecycle_command (cmd : option LifecycleCommand) (ctx : SubstitutionContext)
    : run (option LifecycleCommand) :=
  let sub s := substitute_vars s ctx in
  sub_option (fun c => match c with
    | LCString s => LCString <$> sub s
    | LCArray arr => LCArray <$> mapM sub arr
    | LCObject m => LCObject <$> map_values (substitute_string_or_array sub) m
    end) cmd.

(** The context of [build.args]: only the host environment. *)
Definition restricted (ctx : SubstitutionContext) : SubstitutionContext :=
  mkContext (local_env ctx) None None None None None.

Definition substitute_build (ctx : SubstitutionContext) (b : BuildOptions) : run BuildOptions :=
  args ← sub_option (map_values (fun v => substitute_vars v (restricted ctx))) (b_args b);
  Returned (b <| b_args := args |>).

Definition substitute_mount (ctx : SubstitutionContext) (m : Mount) : run Mount :=
  let sub s := substitute_vars s ctx in
  match m with
  | MString s => MString <$> sub s
  | MObject obj =>
      source ← sub_option sub (mount_source obj);
      target ← sub (mount_target obj);
      Returned (MObject (mkMount (mount_type obj) source target (mount_read_only obj)))
  end.

Definition substitute (dc : DevContainer) (ctx : SubstitutionContext) : run DevContainer :=
  let sub s := substitute_vars s ctx in
  build ← sub_option (substitute_build ctx) (dc_build dc);
  mounts ← sub_option (mapM (substitute_mount ctx)) (dc_mounts dc);
  name ← sub_option sub (dc_name dc);
  run_args ← sub_option (mapM sub) (dc_run_args dc);
  workspace_mount ← sub_option sub (dc_workspace_mount dc);
  workspace_folder ← sub_option sub (dc_workspace_folder dc);
  container_env ← sub_option (map_values sub) (dc_container_env dc);
  remote_env ← sub_option (map_values sub) (dc_remote_env dc);
  container_user ← sub_option sub (dc_container_user dc);
  remote_user ← sub_option sub (dc_remote_user dc);
  initialize_command ← substitute_lifecycle_command (dc_initialize_command dc) ctx;
  on_create ← substitute_lifecycle_command (on_create_command (dc_lifecycle dc)) ctx;
  update_content ← substitute_lifecycle_command (update_content_command (dc_lifecycle dc)) ctx;
  post_create ← substitute_lifecycle_command (post_create_command (dc_lifecycle dc)) ctx;
  post_start ← substitute_lifecycle_command (post_start_command (dc_lifecycle dc)) ctx;
  Returned
    (dc <| dc_name := name |> <| dc_run_args := run_args |>
        <| dc_workspace_mount := workspace_mount |> <| dc_workspace_folder := workspace_folder |>
        <| dc_container_env := container_env |> <| dc_remote_env := remote_env |>
        <| dc_container_user := container_user |> <| dc_remote_user := remote_user |>
        <| dc_mounts := mounts |> <| dc_initialize_command := initialize_command |>
        <| dc_lifecycle := mkLifecycle on_create update_content post_create post_start
                             (post_attach_command (dc_lifecycle dc)) (wait_for (dc_lifecycle dc)) |>
        <| dc_build := build |>).

(** ** Env files *)

Definition ENV_FILE : str := lit "--env-file".

(** The loop over [runArgs]: the files named and the other arguments, in order. *)
Fixpoint split_run_args (repo_root : str) (args : list str) : result dc_error (list str * list str) :=
  match args with
  | [] => Ok ([], [])
  | arg :: rest =>
      match strip_prefix "--env-file=" arg with
      | Some path =>
          '(files, remaining) ← split_run_args repo_root rest;
          Ok (path_join repo_root path :: files, remaining)
      | None =>
          if bool_decide (arg = ENV_FILE) then
            match rest with
            | path :: rest =>
                '(files, remaining) ← split_run_args repo_root rest;
                Ok (path_join repo_root path :: files, remaining)
            | [] => Err EnvFileNeedsValue
            end
          else
            '(files, remaining) ← split_run_args repo_root rest;
            Ok (files, arg :: remaining)
      end
  end.

(** The assignment on a line, when it is one. *)
Definition env_line (line : str) : option (str * str) :=
  let trimmed := trim line in
  if bool_decide (trimmed = []) || starts_with [35%N] trimmed then None
  else match split_once c_eq trimmed with
       | Some (key, value) => Some (key, value)
       | None => Some (trimmed, [])
       end.

(** [entry(key).or_insert(value)] *)
Definition or_insert (env : gmap (list N) (list N)) (kv : str * str) : gmap (list N) (list N) :=
  match env !! kv.1 with Some _ => env | None => <[kv.1 := kv.2]> env end.

Definition load_env_line (env : gmap (list N) (list N)) (line : str) : gmap (list N) (list N) :=
  match env_line line with Some kv => or_insert env kv | None => env end.

Section EnvFiles.
Context (read_to_string : str -> option str).

Fixpoint load_env_files (files : list str) (env : option (gmap (list N) (list N)))
    : result dc_error (option (gmap (list N) (list N))) :=
  match files with
  | [] => Ok env
  | path :: files =>
      contents ← context (ReadingEnvFile path) (read_to_string path);
      load_env_files files (Some (fold_left load_env_line (lines contents) (default ∅ env)))
  end.

Definition resolve_env_files (dc : DevContainer) (repo_root : str) : result dc_error DevContainer :=
  match dc_run_args dc with
  | None => Ok dc
  | Some run_args =>
      '(env_files, remaining_args) ← split_run_args repo_root run_args;
      let dc := dc <| dc_run_args := if bool_decide (remaining_args = []) then None
                                     else Some remaining_args |> in
      env ← load_env_files env_files (dc_container_env dc);
      Ok (dc <| dc_container_env := env |>)
  end.
End EnvFiles.

(** ** Build paths *)

Definition resolve_build_paths (dc : DevContainer) (devcontainer_dir : str) : DevContainer :=
  let dockerfile := match dc_dockerfile dc with
                    | Some d => Some d
                    | None => dc_build dc ≫= b_dockerfile
                    end in
  let dc := dc <| dc_dockerfile := None |> in
  match dockerfile with
  | None => dc
  | Some dockerfile =>
      let '(context, dc) :=
        match dc_build dc ≫= b_context with
        | Some c => (c, dc)
        | None => (default (lit ".") (dc_context dc), dc <| dc_context := None |>)
        end in
      let build := default BuildOptions_default (dc_build dc) in
      dc <| dc_build := Some (build <| b_dockerfile := Some (path_join devcontainer_dir dockerfile) |>
                                    <| b_context := Some (path_join devcontainer_dir context) |>) |>
  end.

(** ** Finding the file *)

Inductive FileKind := IsFile | IsDir | IsOther.
Inductive IoError := NotFound | OtherIo.

(** [Path::extension]: what follows the last dot of the file name, unless that dot is its
    first character. *)
Definition extension (p : str) : option str :=
  name ← Executor.file_name p;
  match rsplit_once c_dot name with
  | Some (stem, ext) => if bool_decide (stem = []) then None else Some ext
  | None => None
  end.

(** [Path::parent]: without the last component and the separators before it. *)
Fixpoint trim_right (fuel : nat) (p : str) : str :=
  match fuel with
  | O => p
  | S fuel =>
      if bool_decide (p = [c_slash]) then p
      else match strip_suffix [c_slash] p with
           | Some q => trim_right fuel q
           | None => match strip_suffix "/." p with
                     | Some q => trim_right fuel (q ++ [c_slash])
                     | None => p
                     end
           end
  end.

Definition parent (p : str) : option str :=
  let q := trim_right (2 * length p) p in
  if bool_decide (q = []) || bool_decide (q = [c_slash]) then None
  else match rsplit_once c_slash q with
       | None => Some []
       | Some ([], _) => Some [c_slash]
       | Some (d, _) => Some (trim_right (2 * length d) d)
       end.

Section ConfigPath.
Context (metadata : str -> result IoError FileKind) (read_to_string : str -> option str).
Context (json5_from_str : str -> option DevContainer).

Definition is_file (p : str) : bool :=
  match metadata p with Ok IsFile => true | _ => false end.

Definition resolve_config_path (path : str) : result dc_error str :=
  config_path ←
    match metadata path with
    | Ok IsDir => Ok (path_join path "devcontainer.json")
    | Ok IsFile => Ok path
    | Ok IsOther => Err (NotFileOrDirectory path)
    | Err NotFound => Ok path
    | Err OtherIo => Err (CheckingPath path)
    end;
  if negb (bool_decide (extension config_path = Some (lit "json"))) then Err (NotJsonFile config_path)
  else if negb (is_file config_path) then Err (ConfigMissing config_path)
  else Ok config_path.

Fixpoint first_candidate (candidates : list str) : result dc_error (option str) :=
  match candidates with
  | [] => Ok None
  | candidate :: rest =>
      match metadata candidate with
      | Ok IsFile => Ok (Some candidate)
      | Ok _ => Err (ConfigNotFile candidate)
      | Err NotFound => first_candidate rest
      | Err OtherIo => Err (CheckingPath candidate)
      end
  end.

Definition config_path (repo_root : str) (selected : option str) : result dc_error (option str) :=
  match selected with
  | Some path => Some <$> resolve_config_path path
  | None => first_candidate [path_join repo_root ".devcontainer/devcontainer.json";
                             path_join repo_root ".devcontainer.json"]
  end.

Definition load (path : str) : result dc_error DevContainer :=
  contents ← context (ReadFailed path) (read_to_string path);
  context (ParseFailed path) (json5_from_str contents).

Definition find_raw (repo_root : str) (selected : option str) : result dc_error (option str) :=
  p ← config_path repo_root selected;
  match p with
  | None => Ok None
  | Some p => Some <$> context (ReadFailed p) (read_to_string p)
  end.

Definition find_and_load (repo_root : str) (selected : option str)
    : result dc_error (option (DevContainer * str)) :=
  p ← config_path repo_root selected;
  match p with
  | None => Ok None
  | Some p =>
      dc ← load p;
      match parent p with
      | Some dc_dir => Ok (Some (dc, dc_dir))
      | None => Err (NoParent p)
      end
  end.
End ConfigPath.

(** ** Values known before the container exists *)

Section ResolveVars.
Context (lib : HashLib) (json_string : str -> str) (canonicalize : str -> option str).

(** [serde_json::to_string] of the two labels; [json_string] is its rendering of a string. *)
Definition devcontainer_labels (repo_path pod_name : str) : str :=
  [c_open] ++ json_string "rumpelpod.name" ++ [c_colon] ++ json_string pod_name ++ [c_comma]
  ++ json_string "rumpelpod.repo_path" ++ [c_colon] ++ json_string repo_path ++ [c_close].

Definition compute_devcontainer_id (repo_path pod_name : str) : str :=
  hex_encode lib (sha256_digest lib (as_bytes (devcontainer_labels repo_path pod_name))).

(** The context of host-side variables. *)
Definition host_context (repo_path pod_name : str) (env : gmap (list N) (list N)) : SubstitutionContext :=
  let canonical := default repo_path (canonicalize repo_path) in
  mkContext (Some env) (Some (trim_end_matches c_slash canonical)) (Some (basename_or_workspace canonical))
    None None (Some (compute_devcontainer_id repo_path pod_name)).

Definition with_container (path : str) (ctx : SubstitutionContext) : SubstitutionContext :=
  mkContext (local_env ctx) (local_workspace_folder ctx) (local_workspace_folder_basename ctx)
    (Some path) (Some (basename_or_workspace path)) (devcontainer_id ctx).

Definition resolve_devcontainer_vars (dc : DevContainer) (repo_path pod_name : str)
    (env : gmap (list N) (list N)) : run DevContainer :=
  let host := host_context repo_path pod_name env in
  workspace_folder ← sub_option (fun wf => substitute_vars wf host) (dc_workspace_folder dc);
  let dc := dc <| dc_workspace_folder := workspace_folder |> in
  substitute dc (with_container (container_repo_path dc repo_path) host).
End ResolveVars.

(** ** Shell words

    How a POSIX shell reads the word at the start of a command line: quotes group, a
    backslash outside quotes makes the next character literal. *)
Definition shell_stop (c : char) : bool :=
  bool_decide (c ∈ [9; 10; 32; 38; 40; 41; 59; 60; 62; 124]%N).

Fixpoint shell_word (quoted : bool) (s : str) : option (str * str) :=
  match s with
  | [] => if quoted then None else Some ([], [])
  | c :: s' =>
      if bool_decide (c = c_apostrophe) then shell_word (negb quoted) s'
      else if quoted then prod_map (cons c) id <$> shell_word true s'
      else if bool_decide (c = c_backslash) then
        match s' with
        | [] => None
        | x :: s'' => if bool_decide (x = c_nl) then shell_word false s''
                      else prod_map (cons x) id <$> shell_word false s''
        end
      else if shell_stop c then Some ([], s)
      else prod_map (cons c) id <$> shell_word false s'
  end.

Lemma shell_word_escaped s rest r : shell_word false rest = Some ([], r) ->
  shell_word true (replace_char c_apostrophe [c_apostrophe; c_backslash; c_apostrophe; c_apostrophe] s
                   ++ c_apostrophe :: rest) = Some (s, r).
Proof.
  intros Hr. unfold replace_char. induction s as [|x s IH]; [by cbn|].
  rewrite bind_cons, <- app_assoc. destruct (decide (x = c_apostrophe)) as [->|Hx].
  - rewrite (bool_decide_true (c_apostrophe = _)) by done. cbn -[mbind]. by rewrite IH.
  - rewrite (bool_decide_false (x = _)) by done. cbn -[mbind].
    rewrite (bool_decide_false (x = _)) by done. by rewrite IH.
Qed.

(** A shell reads an escaped string back as one word, character for character, when the
    line ends or a separator follows: no content of the string is interpreted. *)
Theorem shell_escape_roundtrip s c rest :
  shell_word false (shell_escape s) = Some (s, []) /\
  (shell_stop c = true -> shell_word false (shell_escape s ++ c :: rest) = Some (s, c :: rest)).
Proof.
  unfold shell_escape. cbn [app shell_word]. rewrite bool_decide_true by done. cbn [negb].
  split; [by apply shell_word_escaped|]. intros Hc. rewrite <- app_assoc. apply shell_word_escaped. cbn.
  assert (c <> c_apostrophe /\ c <> c_backslash) as [? ?].
  { split; intros ->; by vm_compute in Hc. }
  rewrite !bool_decide_false by done. by rewrite Hc.
Qed.

(** ** Env files *)

(** The first value a list of assignments gives a key. *)
Definition first_value (k : str) (l : list (str * str)) : option str :=
  snd <$> List.find (fun kv => bool_decide (kv.1 = k)) l.

Definition assignments (contents : str) : list (str * str) := omap env_line (lines contents).

Lemma first_value_app k a b : first_value k (a ++ b) =
  match first_value k a with Some v => Some v | None => first_value k b end.
Proof. unfold first_value. induction a as [|x a IH]; [done|]. cbn. by case_bool_decide. Qed.

Lemma load_env_lines_lookup ls k : forall env,
  fold_left load_env_line ls env !! k =
  match env !! k with Some v => Some v | None => first_value k (omap env_line ls) end.
Proof.
  induction ls as [|l ls IH]; intros env; cbn [fold_left]; [by destruct (env !! k)|].
  rewrite IH. unfold load_env_line. cbn [omap list_omap].
  destruct (env_line l) as [[k' v']|]; [|done]. unfold or_insert. cbn [fst snd].
  change (first_value k ((k', v') :: omap env_line ls)) with (first_value k ([(k', v')] ++ omap env_line ls)).
  rewrite first_value_app. unfold first_value at 2. cbn.
  destruct (decide (k' = k)) as [->|Hk].
  - rewrite (bool_decide_true (k = k)) by done. destruct (env !! k) as [v|] eqn:E; [by rewrite E|].
    by rewrite lookup_insert_eq.
  - rewrite (bool_decide_false (k' = k)) by done. cbn.
    destruct (env !! k') eqn:E; [done|]. by rewrite lookup_insert_ne.
Qed.

Lemma load_env_files_lookup read files : forall env texts,
  mapM read files = Some texts ->
  exists env', load_env_files read files env = Ok env' /\
    (files = [] -> env' = env) /\
    forall k, default ∅ env' !! k =
      match default ∅ env !! k with Some v => Some v | None => first_value k (texts ≫= assignments) end.
Proof.
  induction files as [|f files IH]; intros env texts; cbn.
  - intros [= <-]. exists env. split_and!; [done..|]. intros k. by destruct (default ∅ env !! k).
  - intros (t & Ht & (ts & Hts & [= <-])%bind_Some)%bind_Some. rewrite Ht. cbn [context mbind result_bind].
    destruct (IH (Some (fold_left load_env_line (lines t) (default ∅ env))) ts Hts) as (env' & -> & _ & Hk).
    exists env'. split_and!; [done..|]. intros k. rewrite Hk. cbn [default from_option id].
    rewrite load_env_lines_lookup. change (list_bind _ _ assignments (t :: ts)) with ((t :: ts) ≫= assignments).
    rewrite bind_cons, first_value_app. by destruct (default ∅ env !! k).
Qed.

(** Env files named in runArgs fill in the container environment: the configuration's own
    value wins, then the first assignment in the files, in the order they are named; the
    other arguments stay, in order, and without any the field is dropped. *)
Theorem env_files_precedence read dc repo_root args files rest texts :
  dc_run_args dc = Some args ->
  split_run_args repo_root args = Ok (files, rest) ->
  mapM read files = Some texts ->
  exists dc', resolve_env_files read dc repo_root = Ok dc' /\
    dc_run_args dc' = (if bool_decide (rest = []) then None else Some rest) /\
    (files = [] -> dc_container_env dc' = dc_container_env dc) /\
    forall k, default ∅ (dc_container_env dc') !! k =
      match default ∅ (dc_container_env dc) !! k with
      | Some v => Some v
      | None => first_value k (texts ≫= assignments)
      end.
Proof.
  intros Hargs Hsplit Htexts. unfold resolve_env_files. rewrite Hargs, Hsplit. cbn [mbind result_bind].
  rproj. destruct (load_env_files_lookup read files (dc_container_env dc) texts Htexts) as (env' & -> & He & Hk).
  cbn [mbind result_bind]. eexists. split; [done|]. rproj. done.
Qed.

Lemma env_files_precedence_witness :
  let dc := DevContainer_default <| dc_run_args := Some [lit "--init"; lit "--env-file"; lit "a.env"; lit "--env-file=/b.env"] |>
              <| dc_container_env := Some {[lit "X" := lit "conf"]} |> in
  let read p := if bool_decide (p = lit "/r/a.env") then Some (lit "X=1" ++ [c_nl] ++ lit "# Y=0" ++ [c_nl] ++ lit " Y=2 ")
                else if bool_decide (p = lit "/b.env") then Some (lit "Y=3" ++ [c_nl] ++ lit "Z") else None in
  exists dc', resolve_env_files read dc "/r" = Ok dc' /\ dc_run_args dc' = Some [lit "--init"] /\
    default ∅ (dc_container_env dc') !! lit "X" = Some (lit "conf") /\
    default ∅ (dc_container_env dc') !! lit "Y" = Some (lit "2") /\
    default ∅ (dc_container_env dc') !! lit "Z" = Some [].
Proof.
  intros dc read.
  destruct (env_files_precedence read dc "/r" _ [lit "/r/a.env"; lit "/b.env"] [lit "--init"]
    [lit "X=1" ++ [c_nl] ++ lit "# Y=0" ++ [c_nl] ++ lit " Y=2 "; lit "Y=3" ++ [c_nl] ++ lit "Z"]
    eq_refl) as (dc' & Hr & Ha & _ & Hk); [vm_compute; reflexivity..|].
  exists dc'. split; [exact Hr|]. split; [exact Ha|].
  split; [rewrite Hk; vm_compute; reflexivity|]. split; rewrite Hk; vm_compute; reflexivity.
Defined.

(** ** Build paths *)

Lemma path_join_absolute base p : starts_with [c_slash] p = true -> path_join base p = p.
Proof. intros H. unfold path_join. by rewrite H. Qed.

Lemma path_join_is_absolute base p : starts_with [c_slash] base = true ->
  starts_with [c_slash] (path_join base p) = true.
Proof.
  intros Hb. unfold path_join. destruct (starts_with [c_slash] p) eqn:E; [done|].
  apply starts_with_true in Hb as (r & ->). apply starts_with_true.
  case_match; rewrite <- app_assoc; by eexists.
Qed.

(** What [resolve_build_paths] reads and writes. *)
Definition chosen_dockerfile (dc : DevContainer) : option str :=
  match dc_dockerfile dc with Some d => Some d | None => dc_build dc ≫= b_dockerfile end.
Definition chosen_context (dc : DevContainer) : str :=
  default (lit ".") (match dc_build dc ≫= b_context with Some c => Some c | None => dc_context dc end).

Lemma DevContainer_eta (dc : DevContainer) : eta_of dc = dc.
Proof. by destruct dc. Qed.

Lemma build_paths_none dc dir : has_build dc = false -> resolve_build_paths dc dir = dc.
Proof.
  unfold has_build, resolve_build_paths. rewrite orb_false_iff, bool_decide_eq_false.
  intros [Hd Hb]. destruct (dc_dockerfile dc) as [d|] eqn:Ed; [by destruct Hd|].
  assert (dc <| dc_dockerfile := None |> = dc) as ->.
  { rewrite <- Ed. exact (DevContainer_eta dc). }
  destruct (dc_build dc) as [b|]; [|done]. cbn in Hb |- *.
  by destruct (b_dockerfile b).
Qed.

Lemma build_paths_some dc dir : has_build dc = true ->
  exists b, dc_dockerfile (resolve_build_paths dc dir) = None /\
    dc_build (resolve_build_paths dc dir) = Some b /\
    b_dockerfile b = Some (path_join dir (default [] (chosen_dockerfile dc))) /\
    b_context b = Some (path_join dir (chosen_context dc)).
Proof.
  unfold has_build, resolve_build_paths, chosen_dockerfile, chosen_context. intros H.
  destruct (match dc_dockerfile dc with Some d => Some d | None => dc_build dc ≫= b_dockerfile end) as [d|] eqn:E.
  - rproj. destruct (dc_build dc ≫= b_context) as [c|]; rproj; eexists; split_and!; done.
  - destruct (dc_dockerfile dc); [done|]. destruct (dc_build dc) as [b|]; [|done]. cbn in *. by rewrite E in H.
Qed.

Lemma build_paths_settled dc dir b df cx :
  dc_dockerfile dc = None -> dc_build dc = Some b -> b_dockerfile b = Some df -> b_context b = Some cx ->
  starts_with [c_slash] df = true -> starts_with [c_slash] cx = true -> resolve_build_paths dc dir = dc.
Proof.
  intros Hd Hb Hdf Hcx Hadf Hacx. unfold resolve_build_paths. rewrite Hd, Hb. cbn [mbind option_bind].
  rewrite Hdf. rproj. rewrite Hb. cbn [mbind option_bind]. rewrite Hcx. rproj. rewrite Hb. cbn [default from_option id].
  rewrite !path_join_absolute by done. rewrite <- Hdf, <- Hcx.
  assert (b <| b_dockerfile := b_dockerfile b |> <| b_context := b_context b |> = b) as -> by (by destruct b).
  rewrite <- Hb, <- Hd. exact (DevContainer_eta dc).
Qed.

(** Anchoring the build paths: for a configuration with a Dockerfile the paths become
    absolute, the legacy fields are merged in (a legacy [dockerfile] before that of [build],
    the context of [build] before the legacy one), and resolving again from any directory
    changes nothing; a configuration without a Dockerfile is left alone. *)
Theorem build_paths_anchored dc dir dir' :
  starts_with [c_slash] dir = true ->
  let dc' := resolve_build_paths dc dir in
  resolve_build_paths dc' dir' = dc' /\ has_build dc' = has_build dc /\
  (has_build dc = false -> dc' = dc) /\
  (has_build dc = true -> exists b df cx,
    dc_build dc' = Some b /\ b_dockerfile b = Some df /\ b_context b = Some cx /\
    starts_with [c_slash] df = true /\ starts_with [c_slash] cx = true /\
    df = path_join dir (default [] (chosen_dockerfile dc)) /\
    cx = path_join dir (chosen_context dc)).
Proof.
  intros Hdir dc'.
  assert (has_build dc = false -> dc' = dc) as Hno by apply build_paths_none.
  destruct (has_build dc) eqn:Eb.
  - destruct (build_paths_some dc dir Eb) as (b & Hd & Hb & Hdf & Hcx). fold dc' in Hd, Hb.
    assert (has_build dc' = true) as Hb'.
    { unfold has_build. rewrite Hb. cbn. rewrite Hdf. by rewrite orb_true_r. }
    split_and!; [|done|done|].
    + eapply build_paths_settled; [done..| |]; by apply path_join_is_absolute.
    + intros _. eexists _, _, _. split_and!; try done; by apply path_join_is_absolute.
  - rewrite Hno by done. split_and!; try done. by apply build_paths_none.
Qed.

Lemma build_paths_anchored_witness :
  let dc := DevContainer_default <| dc_dockerfile := Some (lit "Dockerfile") |> <| dc_context := Some (lit "..") |> in
  resolve_build_paths (resolve_build_paths dc "/r/.devcontainer") "/elsewhere" = resolve_build_paths dc "/r/.devcontainer" /\
  dc_build (resolve_build_paths dc "/r/.devcontainer") =
    Some (BuildOptions_default <| b_dockerfile := Some (lit "/r/.devcontainer/Dockerfile") |> <| b_context := Some (lit "/r/.devcontainer/..") |>).
Proof.
  intros dc. destruct (build_paths_anchored dc "/r/.devcontainer" "/elsewhere") as (H & _); [vm_compute; reflexivity|].
  split; [exact H|vm_compute; reflexivity].
Defined.

(** ** Finding the file *)

Lemma resolve_config_path_Ok metadata path q : resolve_config_path metadata path = Ok q ->
  is_file metadata q = true /\ extension q = Some (lit "json") /\
  (metadata path = Ok IsDir /\ q = path_join path "devcontainer.json" \/ metadata path = Ok IsFile /\ q = path).
Proof.
  unfold resolve_config_path. intros H.
  destruct (metadata path) as [[]|[]] eqn:E; cbn [mbind result_bind] in H; try done;
    (case_match eqn:Ex; [done|]); (case_match eqn:Ef; [done|]); injection H as <-;
    apply negb_false_iff in Ex, Ef; apply bool_decide_eq_true in Ex; split_and!; auto.
  unfold is_file in Ef. by rewrite E in Ef.
Qed.

(** Where the configuration comes from.  An explicit selection gives an existing file with
    the extension [json], the selected file itself or [devcontainer.json] of the selected
    directory, or an error; without a selection the first of the two standard places that is
    not absent is taken, it must be a file, and nothing is found only if both are absent. *)
Theorem config_path_sound metadata repo_root selected r :
  config_path metadata repo_root selected = Ok r ->
  let first := path_join repo_root ".devcontainer/devcontainer.json" in
  let second := path_join repo_root ".devcontainer.json" in
  match selected, r with
  | Some path, Some q =>
      is_file metadata q = true /\ extension q = Some (lit "json") /\
      (metadata path = Ok IsDir /\ q = path_join path "devcontainer.json" \/ metadata path = Ok IsFile /\ q = path)
  | Some _, None => False
  | None, Some q =>
      is_file metadata q = true /\ (q = first \/ q = second /\ metadata first = Err NotFound)
  | None, None => metadata first = Err NotFound /\ metadata second = Err NotFound
  end.
Proof.
  unfold config_path. destruct selected as [path|].
  - destruct (resolve_config_path metadata path) as [q|] eqn:E; cbn; [|done]. intros [= <-].
    by apply resolve_config_path_Ok.
  - cbn. intros H. repeat (case_match; simplify_eq/=; try done); unfold is_file;
      repeat match goal with E : metadata _ = _ |- _ => rewrite E end; auto.
Qed.

Lemma config_path_sound_witness :
  let metadata p := if bool_decide (p = lit "/r/.devcontainer.json") then Ok IsFile
                    else if bool_decide (p = lit "/c") then Ok IsDir
                    else if bool_decide (p = lit "/c/devcontainer.json") then Ok IsFile else Err NotFound in
  is_file metadata "/r/.devcontainer.json" = true /\ is_file metadata "/c/devcontainer.json" = true.
Proof.
  intros metadata. split.
  - apply (config_path_sound metadata "/r" None (Some (lit "/r/.devcontainer.json"))). vm_compute. reflexivity.
  - apply (config_path_sound metadata "/r" (Some (lit "/c")) (Some (lit "/c/devcontainer.json"))). vm_compute. reflexivity.
Defined.

(** ** Substitution of the record *)

(** Neither out of fuel nor, in the second form, panicking. *)
Definition finished {A} (r : run A) : Prop := r <> Unfinished.

Lemma finished_bind {A B} (r : run A) (f : A -> run B) :
  finished r -> (forall a, finished (f a)) -> finished (a ← r; f a).
Proof. unfold finished. destruct r; cbn; auto. Qed.

Lemma finished_fmap {A B} (f : A -> B) (r : run A) : finished r -> finished (f <$> r).
Proof. unfold finished. by destruct r. Qed.

Lemma finished_option {A} (f : A -> run A) o : (forall a, finished (f a)) -> finished (sub_option f o).
Proof. intros H. destruct o; cbn; [by apply finished_fmap|done]. Qed.

Lemma finished_mapM {A B} (f : A -> run B) l : (forall a, finished (f a)) -> finished (mapM f l).
Proof.
  intros H. induction l as [|a l IH]; cbn; [done|]. apply finished_bind; [done|]. intros b.
  by apply finished_bind.
Qed.

Lemma finished_map_values {A} (f : A -> run A) m : (forall a, finished (f a)) -> finished (map_values f m).
Proof.
  intros H. unfold map_values. apply finished_bind; [|done]. apply finished_mapM. intros kv.
  by apply finished_bind.
Qed.

Lemma finished_substitute_vars s ctx : finished (substitute_vars s ctx).
Proof. rewrite substitute_vars_eq. unfold finished. by case_match. Qed.

Lemma finished_returned {A} (a : A) : finished (Returned a).
Proof. done. Qed.

Create HintDb finished.
#[export] Hint Resolve finished_returned finished_bind finished_fmap finished_option finished_mapM
  finished_map_values finished_substitute_vars : finished.

Lemma finished_string_or_array sub v : (forall s, finished (sub s)) -> finished (substitute_string_or_array sub v).
Proof. intros H. destruct v; cbn; auto with finished. Qed.
#[export] Hint Resolve finished_string_or_array : finished.

Lemma finished_lifecycle cmd ctx : finished (substitute_lifecycle_command cmd ctx).
Proof. apply finished_option. intros []; auto with finished. Qed.

Lemma finished_mount ctx m : finished (substitute_mount ctx m).
Proof.
  destruct m; cbn [substitute_mount]; [auto with finished|].
  repeat (apply finished_bind; [auto with finished|intros ?]). done.
Qed.

Lemma finished_build ctx b : finished (substitute_build ctx b).
Proof. unfold substitute_build. apply finished_bind; [auto with finished|done]. Qed.
#[export] Hint Resolve finished_lifecycle finished_mount finished_build : finished.

Lemma finished_substitute dc ctx : finished (substitute dc ctx).
Proof. unfold substitute. repeat (apply finished_bind; [auto with finished|intros ?]). done. Qed.

(** A panic in any part of a computation that finishes is the panic of the whole. *)
Lemma panic_bind {A B} (r : run A) (f : A -> run B) :
  finished r -> (forall a, f a = Panicked) -> (a ← r; f a) = Panicked.
Proof. unfold finished. destruct r; cbn; auto. done. Qed.

(** Substituting a configuration always comes to an end, but a character beyond ASCII in
    the text of its name (or, the same way, of any other substituted string) makes the
    launch and the startup of the pod server panic, whatever the other settings are. *)
Theorem non_ascii_name_panics lib json_string canonicalize dc ctx repo_path pod_name env name :
  finished (substitute dc ctx) /\
  (dc_name dc = Some name -> literal_text_ascii OPEN name = false ->
   substitute dc ctx = Panicked /\
   resolve_devcontainer_vars lib json_string canonicalize dc repo_path pod_name env = Panicked).
Proof.
  split; [apply finished_substitute|]. intros Hname Hascii.
  assert (forall c d, dc_name d = Some name -> substitute d c = Panicked) as H.
  { intros c d Hd. unfold substitute. apply panic_bind; [auto with finished|intros ?].
    apply panic_bind; [auto with finished|intros ?].
    rewrite Hd. cbn [sub_option]. by rewrite substitute_vars_eq, Hascii. }
  split; [by apply H|]. unfold resolve_devcontainer_vars.
  apply panic_bind; [auto with finished|]. intros wf. by apply H.
Qed.

(** The name [Café]. *)
Lemma non_ascii_name_panics_witness :
  let dc := DevContainer_default <| dc_name := Some [67; 97; 102; 233]%N |> in
  let ctx := mkContext None None None (Some (lit "/w")) (Some (lit "w")) None in
  resolve_devcontainer_vars ZeroHash.lib id (fun _ => None) dc "/r" "p" ∅ = Panicked /\
  substitute dc ctx = Panicked.
Proof.
  intros dc ctx.
  destruct (non_ascii_name_panics ZeroHash.lib id (fun _ => None) dc ctx "/r" "p" ∅ [67; 97; 102; 233]%N)
    as [_ H]. destruct H as [H1 H2]; [reflexivity|vm_compute; reflexivity|].
  split; [exact H2|exact H1].
Defined.

(** ** The workspace path *)

Definition refers_to_container (g : seg) : bool :=
  match g with
  | Ref inner => bool_decide (inner = lit "containerWorkspaceFolder")
                 || bool_decide (inner = lit "containerWorkspaceFolderBasename")
  | _ => false
  end.

Lemma resolve_with_container ctx path inner : refers_to_container (Ref inner) = false ->
  resolve_variable inner (with_container path ctx) = resolve_variable inner ctx.
Proof.
  unfold refers_to_container. rewrite orb_false_iff, !bool_decide_eq_false. intros [H1 H2].
  unfold resolve_variable. case_match; [done|]. by rewrite !(bool_decide_false _ H1), !(bool_decide_false _ H2).
Qed.

Lemma expand_again ctx path s :
  settled ctx s = true -> existsb refers_to_container (template OPEN s) = false ->
  expand OPEN (fun v => resolve_variable v (with_container path ctx))
    (expand OPEN (fun v => resolve_variable v ctx) s) = expand OPEN (fun v => resolve_variable v ctx) s.
Proof.
  intros Hs Hc. rewrite expand_twice by done. apply expand_ext. intros inner Hin.
  destruct (resolve_variable inner ctx) eqn:E; [done|]. rewrite resolve_with_container; [done|].
  apply not_true_iff_false. intros Hr. apply not_true_iff_false in Hc. apply Hc, existsb_exists.
  exists (Ref inner). split; [by apply list_elem_of_In|done].
Qed.

Lemma substitute_workspace dc ctx dc' : substitute dc ctx = Returned dc' ->
  sub_option (fun s => substitute_vars s ctx) (dc_workspace_folder dc) = Returned (dc_workspace_folder dc').
Proof.
  unfold substitute. intros H.
  do 5 (apply run_bind_Returned in H as (? & _ & H)).
  apply run_bind_Returned in H as (wf & Hwf & H).
  do 9 (apply run_bind_Returned in H as (? & _ & H)).
  rewrite Hwf. f_equal.
  exact (f_equal (fun r => match r with Returned d => dc_workspace_folder d | _ => None end) H).
Qed.

(** The launch agrees with itself on the workspace: when [workspaceFolder] does not name the
    container folder and no dollar sign is left over, every field is substituted with exactly
    the container path that the resulting configuration reports. *)
Theorem workspace_path_consistent lib json_string canonicalize dc repo_path pod_name env dc' :
  let host := host_context lib json_string canonicalize repo_path pod_name env in
  resolve_devcontainer_vars lib json_string canonicalize dc repo_path pod_name env = Returned dc' ->
  (forall wf, dc_workspace_folder dc = Some wf ->
    settled host wf = true /\ existsb refers_to_container (template OPEN wf) = false) ->
  substitute (dc <| dc_workspace_folder := dc_workspace_folder dc' |>)
    (with_container (container_repo_path dc' repo_path) host) = Returned dc'.
Proof.
  intros host H Hwf. unfold resolve_devcontainer_vars in H. fold host in H.
  destruct (sub_option (fun wf => substitute_vars wf host) (dc_workspace_folder dc)) as [w1| |] eqn:E1;
    cbn [mbind run_bind] in H; try done.
  set (dc1 := dc <| dc_workspace_folder := w1 |>) in H.
  set (path := container_repo_path dc1 repo_path) in H.
  assert (dc_workspace_folder dc' = w1) as Hw.
  { apply substitute_workspace in H. unfold dc1 in H. rproj.
    destruct (dc_workspace_folder dc) as [wf|]; cbn [sub_option] in E1;
      [|injection E1 as <-; cbn [sub_option] in H; by injection H].
    destruct (Hwf wf eq_refl) as [Hs Hc]. rewrite substitute_vars_eq in E1.
    destruct (literal_text_ascii OPEN wf); [|done]. cbn in E1. injection E1 as <-. cbn [sub_option] in H.
    rewrite substitute_vars_eq, expand_again in H by done. case_match; [|done]. by injection H. }
  replace (container_repo_path dc' repo_path) with path; [by rewrite Hw|].
  unfold path, container_repo_path, dc1. rproj. by rewrite Hw.
Qed.

Lemma workspace_path_consistent_witness :
  let dc := DevContainer_default <| dc_workspace_folder := Some (lit "/w/${localWorkspaceFolderBasename}") |>
              <| dc_remote_env := Some {[lit "W" := lit "${containerWorkspaceFolder}/x"]} |> in
  exists dc', resolve_devcontainer_vars ZeroHash.lib id (fun _ => None) dc "/r/proj" "p" ∅ = Returned dc' /\
    dc_remote_env dc' = Some {[lit "W" := lit "/w/proj/x"]} /\
    substitute (dc <| dc_workspace_folder := dc_workspace_folder dc' |>)
      (with_container (container_repo_path dc' "/r/proj")
        (host_context ZeroHash.lib id (fun _ => None) "/r/proj" "p" ∅)) = Returned dc'.
Proof.
  intros dc.
  assert (exists dc', resolve_devcontainer_vars ZeroHash.lib id (fun _ => None) dc "/r/proj" "p" ∅ = Returned dc' /\
            dc_remote_env dc' = Some {[lit "W" := lit "/w/proj/x"]}) as (dc' & Hr & He)
    by (eexists; split; vm_compute; reflexivity).
  exists dc'. split; [exact Hr|]. split; [exact He|].
  apply (workspace_path_consistent ZeroHash.lib id (fun _ => None) dc "/r/proj" "p" ∅ dc' Hr).
  intros wf [= <-]. split; vm_compute; reflexivity.
Defined.
