(* ===== verification/PodSpec.v ===== *)
(** * From the configuration to a container (daemon.rs, executor/spec.rs, executor/engine.rs, k8s.rs)

    Parsing of [runArgs], the conversion of mounts, the backend-neutral [PodSpec] built for
    Docker, Podman and Kubernetes, and what the executor makes of it: the arguments of
    [docker create], or the pod object sent to the Kubernetes API.  Warnings sent to the client
    are collected in a list; an environment variable of the daemon is an argument. *)
From stdpp Require Import gmap.
From S2P Require Import Prelude Strs PodNames Hosts Ports Json ExecStream Subst Devcontainer.

(** ** [runArgs] *)

Record DockerRunArgs := mkRunArgs {
  ra_runtime : option (list N);
  ra_network : option (list N);
  ra_dns : list (list N);
  ra_devices : list (list N);
  ra_cap_add : list (list N);
  ra_security_opt : list (list N);
  ra_labels : list (list N * list N);
  ra_privileged : bool;
  ra_init : bool;
}.

#[export] Instance DockerRunArgs_updatable : Updatable DockerRunArgs :=
  fun r => mkRunArgs (ra_runtime r) (ra_network r) (ra_dns r) (ra_devices r) (ra_cap_add r)
    (ra_security_opt r) (ra_labels r) (ra_privileged r) (ra_init r).

(** The flags with a value, in the order in which the source compares them. *)
Inductive flag := FRuntime | FNetwork | FDns | FDevice | FCapAdd | FSecurityOpt | FLabel.

#[export] Instance flag_eq_dec : EqDecision flag.
Proof. solve_decision. Defined.

Definition flag_name (f : flag) : str :=
  match f with
  | FRuntime => lit "--runtime" | FNetwork => lit "--network" | FDns => lit "--dns"
  | FDevice => lit "--device" | FCapAdd => lit "--cap-add" | FSecurityOpt => lit "--security-opt"
  | FLabel => lit "--label"
  end.

Definition all_flags : list flag := [FRuntime; FNetwork; FDns; FDevice; FCapAdd; FSecurityOpt; FLabel].

Definition set_flag (f : flag) (val : str) (r : DockerRunArgs) : DockerRunArgs :=
  match f with
  | FRuntime => r <| ra_runtime := Some val |>
  | FNetwork => r <| ra_network := Some val |>
  | FDns => r <| ra_dns ::= fun l => l ++ [val] |>
  | FDevice => r <| ra_devices ::= fun l => l ++ [val] |>
  | FCapAdd => r <| ra_cap_add ::= fun l => l ++ [val] |>
  | FSecurityOpt => r <| ra_security_opt ::= fun l => l ++ [val] |>
  | FLabel => match split_once c_eq val with
              | Some (k, v) => r <| ra_labels ::= fun l => l ++ [(k, v)] |>
              | None => r
              end
  end.

Definition strip_flag (arg name : str) : option str := strip_prefix (name ++ [c_eq]) arg.

(** How an argument matches: [--flag=value], or [--flag] with the value to follow. *)
Fixpoint match_flag (fs : list flag) (arg : str) : option (flag * option str) :=
  match fs with
  | [] => None
  | f :: fs =>
      match strip_flag arg (flag_name f) with
      | Some val => Some (f, Some val)
      | None => if bool_decide (arg = flag_name f) then Some (f, None) else match_flag fs arg
      end
  end.

Fixpoint parse_run_args (args : list str) (r : DockerRunArgs) : DockerRunArgs :=
  match args with
  | [] => r
  | arg :: args =>
      match match_flag all_flags arg with
      | Some (f, Some val) => parse_run_args args (set_flag f val r)
      | Some (f, None) =>
          match args with
          | val :: args => parse_run_args args (set_flag f val r)
          | [] => r
          end
      | None =>
          if bool_decide (arg = lit "--privileged") then parse_run_args args (r <| ra_privileged := true |>)
          else if bool_decide (arg = lit "--init") then parse_run_args args (r <| ra_init := true |>)
          else parse_run_args args r
      end
  end.

Definition no_run_args : DockerRunArgs := mkRunArgs None None [] [] [] [] [] false false.

Definition parse_run_args_for_docker (args : list str) : DockerRunArgs := parse_run_args args no_run_args.

Definition merge_string_vecs (base : option (list str)) (extra : list str) : option (list str) :=
  let result := default [] base ++ extra in
  if bool_decide (result = []) then None else Some result.

(** ** The remote user *)

Inductive RemoteUserIdUpdateDecision := UpdateDisabled | UpdateEnabled | UpdateUnsupported.

(** [linux] is [cfg!(target_os = "linux")]. *)
Definition remote_user_id_update_decision (linux : bool) (setting : option bool) (host : Host)
    (has_bind_mount : bool) : RemoteUserIdUpdateDecision :=
  let supported := linux && match host with Localhost _ => true | _ => false end in
  if negb supported then
    match setting with
    | Some true => UpdateUnsupported
    | Some false | None => UpdateDisabled
    end
  else
    match setting with
    | Some true => UpdateEnabled
    | Some false => UpdateDisabled
    | None => if has_bind_mount then UpdateEnabled else UpdateDisabled
    end.

(** ** Bind mounts on remote hosts *)

Record BindSource := mkBindSource { bind_source : list N; bind_target : list N }.

Section SplitBinds.
Context (lib : HashLib).

Definition bind_volume_name (pod_name target : str) : str :=
  lit "rumpelpod-bind-" ++ hex_encode lib (take 6 (sha256_digest lib (as_bytes (pod_name ++ [0%N] ++ target)))).

Definition convert_bind (pod_name : str) (m : MountObject) : MountObject :=
  mkMount Volume (Some (bind_volume_name pod_name (mount_target m))) (mount_target m) None.

Fixpoint split_binds (mounts : list MountObject) (pod_name : str) : list MountObject * list BindSource :=
  match mounts with
  | [] => ([], [])
  | m :: mounts =>
      let '(converted, sources) := split_binds mounts pod_name in
      if bool_decide (mount_type m = Bind) then
        (convert_bind pod_name m :: converted,
         mkBindSource (default [] (mount_source m)) (mount_target m) :: sources)
      else (m :: converted, sources)
  end.

Definition split_bind_mounts (mounts : list MountObject) (host : Host) (pod_name : str)
    : list MountObject * list BindSource :=
  if negb (is_remote host) then (mounts, []) else split_binds mounts pod_name.
End SplitBinds.

(** ** [PodSpec] *)

Record ExecMount := mkExecMount {
  em_source : option (list N);
  em_target : list N;
  em_type : MountType;
  em_read_only : bool;
}.

Record Resources := mkResources { res_cpu : option (list N); res_memory : option (list N) }.

Record DockerOnly := mkDockerOnly {
  do_init : bool;
  do_devices : list (list N);
  do_network : option (list N);
  do_security_opt : list (list N);
  do_port_bindings : gmap Z Z;
}.
Definition DockerOnly_default : DockerOnly := mkDockerOnly false [] None [] ∅.
Definition DockerOnly_is_empty (d : DockerOnly) : bool :=
  negb (do_init d) && bool_decide (do_devices d = []) && bool_decide (do_network d = None)
  && bool_decide (do_security_opt d = []) && bool_decide (do_port_bindings d = ∅).

Record K8sOnly := mkK8sOnly {
  ko_node_selector : option (list (list N * list N));
  ko_tolerations : option (list KubernetesToleration);
}.
Definition K8sOnly_default : K8sOnly := mkK8sOnly None None.
Definition K8sOnly_is_empty (k : K8sOnly) : bool :=
  match ko_node_selector k, ko_tolerations k with None, None => true | _, _ => false end.

Record PodSpec := mkPodSpec {
  ps_image : list N;
  ps_hostname : Executor.Hostname;
  ps_cmd : option (list (list N));
  ps_env : list (list N * list N);
  ps_mounts : list ExecMount;
  ps_labels : gmap (list N) (list N);
  ps_annotations : gmap (list N) (list N);
  ps_privileged : bool;
  ps_cap_add : list (list N);
  ps_seccomp_unconfined : bool;
  ps_apparmor_unconfined : bool;
  ps_resources : option Resources;
  ps_runtime : option (list N);
  ps_dns : list (list N);
  ps_docker_only : DockerOnly;
  ps_k8s_only : K8sOnly;
}.

Definition LABEL_DOCKER_REPO_PATH : str := lit "dev.rumpelpod.repo_path".
Definition LABEL_DOCKER_CONTAINER_REPO_PATH : str := lit "dev.rumpelpod.container_repo_path".
Definition LABEL_DOCKER_POD_NAME : str := lit "dev.rumpelpod.name".
Definition LABEL_CREATION : str := lit "dev.rumpelpod.creation".
Definition LABEL_K8S_MANAGED_BY : str := lit "app.kubernetes.io/managed-by".
Definition LABEL_K8S_REPO_HASH : str := lit "rumpelpod/repo-hash".
Definition LABEL_K8S_POD_NAME : str := lit "rumpelpod/pod-name".
Definition ANNOTATION_K8S_CREATED : str := lit "rumpelpod/created".
Definition SSH_AGENT_SOCK_PATH : str := lit "/tmp/rumpelpod-ssh-agent/agent.sock".

Definition docker_pod_labels (pod : Protocol.PodName) (repo_path container_repo_path : str) : gmap (list N) (list N) :=
  <[LABEL_DOCKER_POD_NAME := Protocol.pod_name pod]>
    (<[LABEL_DOCKER_CONTAINER_REPO_PATH := container_repo_path]>
      {[LABEL_DOCKER_REPO_PATH := repo_path]}).

(** [k8s::repo_path_hash] keeps 8 bytes of the digest. *)
Definition k8s_repo_path_hash (lib : HashLib) (repo_path : str) : str :=
  hex_encode lib (take 8 (sha256_digest lib (as_bytes repo_path))).

Definition k8s_pod_labels (lib : HashLib) (pod : Protocol.PodName) (repo_path : str) : gmap (list N) (list N) :=
  <[LABEL_K8S_POD_NAME := Protocol.pod_name pod]>
    (<[LABEL_K8S_REPO_HASH := k8s_repo_path_hash lib repo_path]>
      {[LABEL_K8S_MANAGED_BY := lit "rumpelpod"]}).

(** [now] is the current time in RFC 3339. *)
Definition k8s_pod_annotations (now : str) : gmap (list N) (list N) := {[ANNOTATION_K8S_CREATED := now]}.

(** [convert_memory_to_k8s]; [to_lowercase] is [str::to_lowercase]. *)
Fixpoint convert_suffix (suffixes : list (str * str)) (s : str) : option str :=
  match suffixes with
  | [] => show <$> parse_uint (2 ^ 64 - 1) s
  | (suffix, k8s_suffix) :: rest =>
      match strip_suffix suffix s with
      | Some num_str => num ← parse_uint (2 ^ 64 - 1) (trim num_str); Some (show num ++ k8s_suffix)
      | None => convert_suffix rest s
      end
  end.

Definition convert_memory_to_k8s (to_lowercase : str -> str) (s : str) : option str :=
  convert_suffix [(lit "tb", lit "Ti"); (lit "gb", lit "Gi"); (lit "mb", lit "Mi"); (lit "kb", lit "Ki")]
    (to_lowercase (trim s)).

(** ** Building the specification *)

Definition k8s_mount (m : MountObject) : ExecMount :=
  match mount_type m with
  | Volume => mkExecMount None (mount_target m) Volume (default false (mount_read_only m))
  | Tmpfs => mkExecMount None (mount_target m) Tmpfs (default false (mount_read_only m))
  | Bind => mkExecMount None (mount_target m) Bind false
  end.

Definition k8s_bind_source (m : MountObject) : option BindSource :=
  if bool_decide (mount_type m = Bind)
  then Some (mkBindSource (default [] (mount_source m)) (mount_target m)) else None.

Definition is_seccomp (opt : str) : bool :=
  bool_decide (opt = lit "seccomp=unconfined") || bool_decide (opt = lit "seccomp:unconfined").
Definition is_apparmor (opt : str) : bool :=
  bool_decide (opt = lit "apparmor=unconfined") || bool_decide (opt = lit "apparmor:unconfined").

(** The command that keeps a container alive when the image's own is overridden. *)
Definition override_cmd (dc : DevContainer) : option (list str) :=
  if default true (dc_override_command dc) then Some [lit "sleep"; lit "infinity"] else None.

Definition env_list (env : option (gmap (list N) (list N))) : list (list N * list N) :=
  map_to_list (default ∅ env).

Inductive spec_error := SpecDc (e : dc_error) | HostnameInvalid.

Section K8sSpec.
Context (lib : HashLib) (to_lowercase : str -> str) (now : str) (runtime_class : option str).

Definition k8s_resources (dc : DevContainer) : option Resources :=
  hr ← dc_host_requirements dc;
  let cpu := show ∘ Z.to_N <$> cpus hr in
  let mem := memory hr ≫= convert_memory_to_k8s to_lowercase in
  match cpu, mem with
  | None, None => None
  | _, _ => Some (mkResources cpu mem)
  end.

Definition k8s_warnings (dc : DevContainer) (ra : DockerRunArgs) : list str :=
  (if bool_decide (dc_init dc = Some true) || ra_init ra
   then [lit "warning: init has no effect on Kubernetes -- bake an init process (e.g. tini) into the image instead"]
   else [])
  ++ (if negb (bool_decide (ra_devices ra = []))
      then [lit "warning: --device has no effect on Kubernetes -- use cluster-specific device plugins instead"]
      else [])
  ++ (if bool_decide (is_Some (ra_network ra))
      then [lit "warning: --network has no effect on Kubernetes"] else [])
  ++ (if negb (bool_decide (ra_labels ra = []))
      then [lit "warning: --label in runArgs has no effect on Kubernetes"] else []).

(** The specification, the bind sources to upload and the warnings.  The source panics on
    an invalid host name; here it is the error [HostnameInvalid]. *)
Definition build_k8s_pod_spec (pod : Protocol.PodName) (image repo_path : str) (dc : DevContainer)
    (node_selector : option (list (list N * list N))) (tolerations : option (list KubernetesToleration))
    : result spec_error (PodSpec * list BindSource * list str) :=
  all_mounts ← match resolved_mounts dc with Ok m => Ok m | Err e => Err (SpecDc e) end;
  _ ← match check_no_unresolved_mount_vars all_mounts with Ok m => Ok m | Err e => Err (SpecDc e) end;
  let ra := parse_run_args_for_docker (default [] (dc_run_args dc)) in
  let merged_security_opt := default [] (merge_string_vecs (dc_security_opt dc) (ra_security_opt ra)) in
  hostname ← context HostnameInvalid (Executor.hostname_for pod);
  Ok (mkPodSpec image hostname (override_cmd dc) (env_list (dc_container_env dc))
        (map k8s_mount all_mounts) (k8s_pod_labels lib pod repo_path) (k8s_pod_annotations now)
        (bool_decide (dc_privileged dc = Some true) || ra_privileged ra)
        (default [] (merge_string_vecs (dc_cap_add dc) (ra_cap_add ra)))
        (existsb is_seccomp merged_security_opt)
        (existsb (fun opt => negb (is_seccomp opt) && is_apparmor opt) merged_security_opt)
        (k8s_resources dc)
        (match ra_runtime ra with Some r => Some r | None => runtime_class end)
        (ra_dns ra) DockerOnly_default (mkK8sOnly node_selector tolerations),
      omap k8s_bind_source all_mounts, k8s_warnings dc ra).
End K8sSpec.

Definition docker_mount (m : MountObject) : ExecMount :=
  mkExecMount (mount_source m) (mount_target m) (mount_type m) (default false (mount_read_only m)).

(** [labels.insert] of each label of [runArgs], in order. *)
Definition with_run_labels (ra : DockerRunArgs) (labels : gmap (list N) (list N)) : gmap (list N) (list N) :=
  fold_left (fun m kv => <[kv.1 := kv.2]> m) (ra_labels ra) labels.

Definition PODMAN_RUNTIME_WARNING : str :=
  lit "warning: --runtime in runArgs is ignored by Podman; configure the OCI runtime in containers.conf instead".

(** [Panicked]: the engine was not resolved, or the host name is invalid. *)
Definition build_docker_pod_spec (pod : Protocol.PodName) (image repo_path container_repo_path : str)
    (engine : ContainerEngine) (dc : DevContainer) (mounts : list MountObject)
    (publish_ports : gmap Z Z) : run (PodSpec * list str) :=
  let ra := parse_run_args_for_docker (default [] (dc_run_args dc)) in
  let labels := with_run_labels ra (docker_pod_labels pod repo_path container_repo_path) in
  let env := env_list (dc_container_env dc) ++ [(lit "SSH_AUTH_SOCK", SSH_AGENT_SOCK_PATH)] in
  '(runtime, warnings) ←
    match engine with
    | Docker => Returned (ra_runtime ra, [])
    | Podman => Returned (None, if bool_decide (is_Some (ra_runtime ra)) then [PODMAN_RUNTIME_WARNING] else [])
    | Auto => Panicked
    end;
  hostname ← or_panic (ok (Executor.Hostname_new (sanitize_hostname (Protocol.pod_name pod))));
  Returned
    (mkPodSpec image hostname (override_cmd dc) env (map docker_mount mounts) labels ∅
       (bool_decide (dc_privileged dc = Some true) || ra_privileged ra)
       (default [] (merge_string_vecs (dc_cap_add dc) (ra_cap_add ra)))
       false false None runtime (ra_dns ra)
       (mkDockerOnly (bool_decide (dc_init dc = Some true) || ra_init ra) (ra_devices ra) (ra_network ra)
          (default [] (merge_string_vecs (dc_security_opt dc) (ra_security_opt ra))) publish_ports)
       K8sOnly_default,
     warnings).

(** ** The engine's arguments *)

Definition mount_type_name (t : MountType) : str :=
  match t with Bind => lit "bind" | Volume => lit "volume" | Tmpfs => lit "tmpfs" end.

Definition docker_mount_arg (m : ExecMount) : str :=
  join [c_comma]
    ([lit "type=" ++ mount_type_name (em_type m)]
     ++ match em_source m with Some source => [lit "source=" ++ source] | None => [] end
     ++ [lit "target=" ++ em_target m]
     ++ (if em_read_only m then [lit "readonly"] else [])).

(** One flag for each element of a list. *)
Definition each {A} (flag : str) (f : A -> str) (l : list A) : list str := l ≫= fun x => [flag; f x].

Definition assignment (kv : str * str) : str := kv.1 ++ [c_eq] ++ kv.2.

Definition port_text (n : Z) : str := show (Z.to_N n).

Definition port_binding (p : Z * Z) : str :=
  lit "127.0.0.1:" ++ port_text p.2 ++ [c_colon] ++ port_text p.1 ++ lit "/tcp".

(** The arguments of [docker create]. *)
Definition docker_create_args (engine : ContainerEngine) (pod : Executor.PodId) (spec : PodSpec) : run (list str) :=
  let d := ps_docker_only spec in
  let security_opt := do_security_opt d
    ++ (if ps_seccomp_unconfined spec then [lit "seccomp=unconfined"] else [])
    ++ (if ps_apparmor_unconfined spec then [lit "apparmor=unconfined"] else []) in
  runtime ← match ps_runtime spec with
            | None => Returned []
            | Some runtime =>
                match engine with
                | Docker => Returned [lit "--runtime"; runtime]
                | Podman | Auto => Panicked
                end
            end;
  Returned
    ([lit "create"; lit "--name"; Executor.pod_id pod; lit "--hostname"; Executor.hostname (ps_hostname spec)]
     ++ match do_network d with
        | Some network => [lit "--network"; network]
        | None => if bool_decide (engine = Docker) then [lit "--network"; lit "bridge"] else []
        end
     ++ each "--dns" id (ps_dns spec)
     ++ runtime
     ++ (if ps_privileged spec then [lit "--privileged"] else [])
     ++ (if do_init d then [lit "--init"] else [])
     ++ each "--cap-add" id (ps_cap_add spec)
     ++ each "--security-opt" id security_opt
     ++ each "--device" id (do_devices d)
     ++ each "--publish" port_binding (map_to_list (do_port_bindings d))
     ++ each "--mount" docker_mount_arg (ps_mounts spec)
     ++ each "--label" assignment (map_to_list (ps_labels spec))
     ++ each "--env" assignment (ps_env spec)
     ++ [ps_image spec]
     ++ default [] (ps_cmd spec)).

(** ** The Kubernetes pod object *)

Record K8sVolumeMount := mkK8sVolume {
  vol_name : list N;
  vol_mount_path : list N;
  vol_read_only : bool;
  vol_medium : option (list N);
}.

Record K8sPodOptions := mkK8sOptions {
  k_volumes : list K8sVolumeMount;
  k_privileged : bool;
  k_cap_add : list (list N);
  k_seccomp_unconfined : bool;
  k_apparmor_unconfined : bool;
  k_hostname : option (list N);
  k_cmd : option (list (list N));
  k_resource_requests : option Resources;
  k_node_selector : option (list (list N * list N));
  k_tolerations : option (list KubernetesToleration);
  k_runtime_class_name : option (list N);
  k_dns_nameservers : list (list N);
}.

Definition k8s_volume (i : nat) (m : ExecMount) : K8sVolumeMount :=
  mkK8sVolume (lit "vol-" ++ show (N.of_nat i)) (em_target m) (em_read_only m)
    (match em_type m with Tmpfs => Some (lit "Memory") | Bind | Volume => None end).

(** The options [k8s_launch] builds. *)
Definition k8s_options (spec : PodSpec) : K8sPodOptions :=
  mkK8sOptions (imap k8s_volume (ps_mounts spec)) (ps_privileged spec) (ps_cap_add spec)
    (ps_seccomp_unconfined spec) (ps_apparmor_unconfined spec)
    (Some (Executor.hostname (ps_hostname spec))) (ps_cmd spec) (ps_resources spec)
    (ko_node_selector (ps_k8s_only spec)) (ko_tolerations (ps_k8s_only spec))
    (ps_runtime spec ≫= fun r => if bool_decide (r = lit "runc") then None else Some r)
    (ps_dns spec).

Definition jstr (s : str) : json := JString s.
Definition jmap (m : list (str * str)) : json := JObject (map (fun kv => (kv.1, jstr kv.2)) m).
(** An optional field of an object. *)
Definition field_opt {A} (k : string) (f : A -> json) (o : option A) : list (str * json) :=
  match o with Some a => [(lit k, f a)] | None => [] end.
Definition field_if (b : bool) (k : string) (j : json) : list (str * json) :=
  if b then [(lit k, j)] else [].

Definition k8s_container (image : str) (env : list (str * str)) (o : K8sPodOptions) : json :=
  let sec_ctx :=
    field_if (k_privileged o) "privileged" (JBool true)
    ++ field_if (negb (bool_decide (k_cap_add o = []))) "capabilities"
         (JObject [(lit "add", JArray (map jstr (k_cap_add o)))])
    ++ field_if (k_seccomp_unconfined o) "seccompProfile" (JObject [(lit "type", jstr "Unconfined")]) in
  let requests := match k_resource_requests o with
                  | Some r => field_opt "cpu" jstr (res_cpu r) ++ field_opt "memory" jstr (res_memory r)
                  | None => []
                  end in
  JObject
    ([(lit "name", jstr "main"); (lit "image", jstr image);
      (lit "env", JArray (map (fun kv => JObject [(lit "name", jstr kv.1); (lit "value", jstr kv.2)]) env));
      (lit "volumeMounts", JArray (map (fun v => JObject
         [(lit "name", jstr (vol_name v)); (lit "mountPath", jstr (vol_mount_path v));
          (lit "readOnly", JBool (vol_read_only v))]) (k_volumes o)))]
     ++ field_opt "args" (fun args => JArray (map jstr args)) (k_cmd o)
     ++ field_if (negb (bool_decide (length sec_ctx = 0))) "securityContext" (JObject sec_ctx)
     ++ field_if (negb (bool_decide (length requests = 0))) "resources" (JObject [(lit "requests", JObject requests)])).

Definition k8s_toleration (t : KubernetesToleration) : json :=
  JObject ([(lit "key", jstr (tol_key t)); (lit "effect", jstr (tol_effect t))]
           ++ field_opt "value" jstr (tol_value t)
           ++ [(lit "operator", jstr (default (lit "Equal") (tol_operator t)))]).

Definition APPARMOR_ANNOTATION : str := lit "container.apparmor.security.beta.kubernetes.io/main".

(** The object [create_pod_async] posts. *)
Definition k8s_pod_object (name image : str) (labels annotations : gmap (list N) (list N))
    (env : list (str * str)) (o : K8sPodOptions) : json :=
  let annotations := if k_apparmor_unconfined o then <[APPARMOR_ANNOTATION := lit "unconfined"]> annotations
                     else annotations in
  let volumes := map (fun v => JObject
     [(lit "name", jstr (vol_name v));
      (lit "emptyDir", JObject (field_opt "medium" jstr (vol_medium v)))]) (k_volumes o) in
  JObject
    [(lit "apiVersion", jstr "v1"); (lit "kind", jstr "Pod");
     (lit "metadata", JObject [(lit "name", jstr name); (lit "labels", jmap (map_to_list labels));
                               (lit "annotations", jmap (map_to_list annotations))]);
     (lit "spec", JObject
       ([(lit "containers", JArray [k8s_container image env o]);
         (lit "volumes", JArray volumes); (lit "restartPolicy", jstr "Never")]
        ++ field_opt "hostname" jstr (k_hostname o)
        ++ match k_runtime_class_name o with
           | Some r => [(lit "runtimeClassName", jstr r)]
                       ++ field_if (bool_decide (r = lit "sysbox-runc")) "hostUsers" (JBool false)
           | None => []
           end
        ++ (if bool_decide (k_dns_nameservers o = []) then []
            else [(lit "dnsPolicy", jstr "None");
                  (lit "dnsConfig", JObject [(lit "nameservers", JArray (map jstr (k_dns_nameservers o)))])])
        ++ field_opt "nodeSelector" jmap (k_node_selector o)
        ++ field_opt "tolerations" (fun ts => JArray (map k8s_toleration ts)) (k_tolerations o)))].

(** ** Sizes *)

(** [enter::parse_size_string]: the multiplication is the one of a release build, which wraps. *)
Fixpoint parse_size_suffix (suffixes : list (str * N)) (s : str) : option N :=
  match suffixes with
  | [] => parse_uint (2 ^ 64 - 1) s
  | (suffix, multiplier) :: rest =>
      match strip_suffix suffix s with
      | Some num_str =>
          (fun n => (n * multiplier) mod 2 ^ 64)%N <$> parse_uint (2 ^ 64 - 1) (trim num_str)
      | None => parse_size_suffix rest s
      end
  end.

Definition parse_size_string (to_lowercase : str -> str) (s : str) : option N :=
  parse_size_suffix
    [(lit "tb", 2 ^ 40); (lit "gb", 2 ^ 30); (lit "mb", 2 ^ 20); (lit "kb", 2 ^ 10)]%N
    (to_lowercase (trim s)).

(** The bytes of a Kubernetes quantity of the forms above. *)
Definition k8s_quantity (q : str) : option N :=
  let times m o := N.mul m <$> o in
  match strip_suffix "Ti" q, strip_suffix "Gi" q, strip_suffix "Mi" q, strip_suffix "Ki" q with
  | Some n, _, _, _ => times (2 ^ 40)%N (parse_digits 0 n)
  | _, Some n, _, _ => times (2 ^ 30)%N (parse_digits 0 n)
  | _, _, Some n, _ => times (2 ^ 20)%N (parse_digits 0 n)
  | _, _, _, Some n => times (2 ^ 10)%N (parse_digits 0 n)
  | None, None, None, None => parse_digits 0 q
  end.

Lemma strip_suffix_app s p : strip_suffix p (s ++ p) = Some s.
Proof. by apply strip_suffix_Some. Qed.

Lemma strip_suffix_last s p x y : x <> y -> strip_suffix (p ++ [x]) (s ++ [y]) = None.
Proof.
  intros H. destruct (strip_suffix (p ++ [x]) (s ++ [y])) as [r|] eqn:E; [|done].
  apply strip_suffix_Some in E. rewrite app_assoc in E. by apply app_inj_tail in E as [_ ->].
Qed.

Lemma strip_suffix_last2 s x y z : x <> y -> strip_suffix [x; z] (s ++ [y; z]) = None.
Proof.
  intros H. destruct (strip_suffix [x; z] (s ++ [y; z])) as [r|] eqn:E; [|done].
  apply strip_suffix_Some in E. change [x; z] with ([x] ++ [z]) in E. change [y; z] with ([y] ++ [z]) in E.
  rewrite !app_assoc in E. apply app_inj_tail in E as [E _]. by apply app_inj_tail in E as [_ ->].
Qed.

Lemma strip_suffix_digits n p : strip_suffix (p ++ [105%N]) (show n) = None.
Proof.
  destruct (strip_suffix (p ++ [105%N]) (show n)) as [r|] eqn:E; [|done].
  apply strip_suffix_Some in E. pose proof (show_digits n) as H. rewrite E, !Forall_app in H.
  destruct H as (_ & _ & H). by apply Forall_cons in H as [H _].
Qed.

Lemma k8s_quantity_plain n : k8s_quantity (show n) = Some n.
Proof.
  unfold k8s_quantity.
  change (lit "Ti") with ([84%N] ++ [105%N]). change (lit "Gi") with ([71%N] ++ [105%N]).
  change (lit "Mi") with ([77%N] ++ [105%N]). change (lit "Ki") with ([75%N] ++ [105%N]).
  rewrite !strip_suffix_digits. apply parse_digits_show.
Qed.

Lemma k8s_quantity_suffix n c m : (c, m) ∈ [(84, 2 ^ 40); (71, 2 ^ 30); (77, 2 ^ 20); (75, 2 ^ 10)]%N ->
  k8s_quantity (show n ++ [c; 105%N]) = Some (m * n)%N.
Proof.
  intros H. unfold k8s_quantity.
  change (lit "Ti") with [84; 105]%N. change (lit "Gi") with [71; 105]%N.
  change (lit "Mi") with [77; 105]%N. change (lit "Ki") with [75; 105]%N.
  repeat (apply elem_of_cons in H as [[= -> ->]|H];
    [repeat (rewrite strip_suffix_last2 by done); rewrite strip_suffix_app;
     by rewrite parse_digits_show|]).
  by apply not_elem_of_nil in H.
Qed.

(** [C37] A size in the configuration means the same number of bytes to Kubernetes and to the
    check of the host requirements, modulo the width of [u64]: the conversion keeps the number
    and scales the unit, and the byte count wraps at 2^64 when the size does not fit. *)
Theorem memory_sizes_agree to_lowercase s :
  parse_size_string to_lowercase s =
  (fun bytes => bytes mod 2 ^ 64)%N <$> (convert_memory_to_k8s to_lowercase s ≫= k8s_quantity).
Proof.
  unfold parse_size_string, convert_memory_to_k8s. generalize (to_lowercase (trim s)) as t. intros t.
  cbn [parse_size_suffix convert_suffix].
  change (lit "Ti") with [84; 105]%N. change (lit "Gi") with [71; 105]%N.
  change (lit "Mi") with [77; 105]%N. change (lit "Ki") with [75; 105]%N.
  assert (forall c m n, (c, m) ∈ [(84, 2 ^ 40); (71, 2 ^ 30); (77, 2 ^ 20); (75, 2 ^ 10)]%N ->
    (fun n : N => (n * m) mod 2 ^ 64)%N <$> parse_uint (2 ^ 64 - 1) n =
    (fun bytes : N => bytes mod 2 ^ 64)%N <$>
      ((num ← parse_uint (2 ^ 64 - 1) n; Some (show num ++ [c; 105%N])) ≫= k8s_quantity)) as H.
  { intros c m n Hin. destruct (parse_uint (2 ^ 64 - 1) n) as [x|]; [|done].
    cbn [mbind option_bind]. rewrite (k8s_quantity_suffix x c m Hin). cbn -[N.mul N.modulo N.pow].
    by rewrite N.mul_comm. }
  destruct (strip_suffix "tb" t) as [n|]; [apply H; set_solver|].
  destruct (strip_suffix "gb" t) as [n|]; [apply H; set_solver|].
  destruct (strip_suffix "mb" t) as [n|]; [apply H; set_solver|].
  destruct (strip_suffix "kb" t) as [n|]; [apply H; set_solver|].
  destruct (parse_uint (2 ^ 64 - 1) t) as [x|] eqn:E; [|done]. cbn [fmap option_fmap option_map mbind option_bind].
  rewrite k8s_quantity_plain. cbn [fmap option_fmap option_map]. f_equal. symmetry. apply N.mod_small.
  unfold parse_uint in E. repeat (case_match; simplify_eq/=; try done).
  match goal with H : bool_decide (_ <= _)%N = true |- _ => apply bool_decide_eq_true in H end.
  eapply N.le_lt_trans; [eassumption|]. done.
Qed.

(** ** [runArgs] as settings *)

(** What a user writes: a setting in one of the two forms, or an argument the program ignores. *)
Inductive setting :=
| SFlag (f : flag) (joined : bool) (val : list N)
| SPrivileged
| SInit
| SOther (arg : list N).

Definition ignored (arg : str) : bool :=
  match match_flag all_flags arg with
  | Some _ => false
  | None => negb (bool_decide (arg = lit "--privileged")) && negb (bool_decide (arg = lit "--init"))
  end.

Definition write_setting (s : setting) : list str :=
  match s with
  | SFlag f true val => [flag_name f ++ [c_eq] ++ val]
  | SFlag f false val => [flag_name f; val]
  | SPrivileged => [lit "--privileged"]
  | SInit => [lit "--init"]
  | SOther arg => [arg]
  end.

Definition apply_setting (r : DockerRunArgs) (s : setting) : DockerRunArgs :=
  match s with
  | SFlag f _ val => set_flag f val r
  | SPrivileged => r <| ra_privileged := true |>
  | SInit => r <| ra_init := true |>
  | SOther _ => r
  end.

Definition setting_ok (s : setting) : bool := match s with SOther arg => ignored arg | _ => true end.

Lemma strip_flag_joined f val : strip_flag (flag_name f ++ [c_eq] ++ val) (flag_name f) = Some val.
Proof. unfold strip_flag. rewrite app_assoc. apply strip_prefix_app. Qed.

(** Flags are told apart by their names up to the equals sign. *)
Lemma strip_flag_other f g val : f <> g -> strip_flag (flag_name g ++ [c_eq] ++ val) (flag_name f) = None.
Proof.
  intros Hfg. unfold strip_flag. destruct (strip_prefix _ _) as [r|] eqn:E; [|done].
  apply strip_prefix_Some in E. rewrite <- !app_assoc in E.
  apply app_sep_inj_l in E as [E _]; [|by destruct g; decide_now|by destruct f; decide_now].
  by destruct f, g.
Qed.

Lemma strip_flag_bare f g : strip_flag (flag_name g) (flag_name f) = None.
Proof. by destruct f, g; vm_compute. Qed.

Lemma match_flag_joined f val : match_flag all_flags (flag_name f ++ c_eq :: val) = Some (f, Some val).
Proof.
  change (c_eq :: val) with ([c_eq] ++ val).
  assert (forall fs, f ∈ fs -> match_flag fs (flag_name f ++ [c_eq] ++ val) = Some (f, Some val)) as H.
  { induction fs as [|g fs IH]; [by intros ?%not_elem_of_nil|]. intros Hin. cbn [match_flag].
    destruct (decide (g = f)) as [->|Hg]; [by rewrite strip_flag_joined|].
    rewrite strip_flag_other by done. rewrite bool_decide_false.
    - apply IH. by apply elem_of_cons in Hin as [->|].
    - intros E. apply (f_equal (fun s => bool_decide (c_eq ∈ s))) in E.
      rewrite bool_decide_true in E by set_solver. by destruct g. }
  apply H. by destruct f; decide_now.
Qed.

Lemma match_flag_bare f : match_flag all_flags (flag_name f) = Some (f, None).
Proof. by destruct f; vm_compute. Qed.

(** The command line of [runArgs] means its settings: whichever of the two forms each
    setting is written in, and with ignored arguments in between, parsing gives the settings
    applied in order, a later runtime or network replacing an earlier one and lists growing. *)
Theorem run_args_meaning settings :
  forallb setting_ok settings = true ->
  parse_run_args_for_docker (settings ≫= write_setting) = fold_left apply_setting settings no_run_args.
Proof.
  unfold parse_run_args_for_docker. generalize no_run_args.
  induction settings as [|s settings IH]; intros r H; [done|].
  cbn [forallb] in H. apply andb_true_iff in H as [Hs H]. rewrite bind_cons. cbn [fold_left].
  rewrite <- IH by done. clear IH.
  destruct s as [f [] val| | |arg]; cbn [write_setting app apply_setting].
  - cbn [parse_run_args]. by rewrite match_flag_joined.
  - cbn [parse_run_args]. by rewrite match_flag_bare.
  - done.
  - done.
  - cbn [parse_run_args]. cbn [setting_ok] in Hs. unfold ignored in Hs.
    destruct (match_flag all_flags arg); [done|]. apply andb_true_iff in Hs as [H1 H2].
    apply negb_true_iff in H1, H2. by rewrite H1, H2.
Qed.

Lemma run_args_meaning_witness :
  parse_run_args_for_docker [lit "--cap-add"; lit "--init"; lit "--runtime=runc"; lit "--rm"; lit "--init";
                             lit "--runtime"; lit "crun"; lit "--label=a=b"] =
  mkRunArgs (Some (lit "crun")) None [] [] [lit "--init"] [] [(lit "a", lit "b")] false true.
Proof.
  etransitivity; [apply (run_args_meaning
    [SFlag FCapAdd false (lit "--init"); SFlag FRuntime true (lit "runc"); SOther (lit "--rm"); SInit;
     SFlag FRuntime false (lit "crun"); SFlag FLabel true (lit "a=b")])|]; vm_compute; reflexivity.
Defined.

(** ** Mount arguments *)

(** No comma, and no white space at the end. *)
Definition field_ok (f : str) : bool :=
  negb (contains_char c_comma f) && match last f with Some c => negb (is_whitespace c) | None => true end.

Lemma field_ok_comma k f : c_comma ∉ k -> field_ok f = true -> c_comma ∉ k ++ f.
Proof.
  unfold field_ok, contains_char. rewrite andb_true_iff, negb_true_iff, bool_decide_eq_false. set_solver.
Qed.

Lemma trim_field x k f : field_ok f = true -> is_whitespace x = false ->
  is_whitespace (List.last (x :: k) x) = false -> trim ((x :: k) ++ f) = (x :: k) ++ f.
Proof.
  unfold field_ok. rewrite andb_true_iff. intros [_ Hf] Hx Hk. apply trim_id.
  - by intros y r [= <- _].
  - intros y r H. destruct f as [|c f _] using rev_ind.
    + rewrite app_nil_r in H. rewrite H in Hk. by rewrite List.last_last in Hk.
    + rewrite last_snoc in Hf. rewrite app_assoc in H. apply app_inj_tail in H as [_ ->]. by apply negb_true_iff.
Qed.

(** A [key=value] part of a mount string. *)
Lemma mount_part_key st k f : k <> [] -> field_ok f = true -> c_eq ∉ k ->
  trim (k ++ [c_eq] ++ f) = k ++ [c_eq] ++ f ->
  mount_part st (k ++ [c_eq] ++ f) =
  if bool_decide (k = lit "type") then st <| p_type := Some f |>
  else if bool_decide (k = lit "source") || bool_decide (k = lit "src") then st <| p_source := Some f |>
  else if bool_decide (k = lit "target") || bool_decide (k = lit "destination") || bool_decide (k = lit "dst")
  then st <| p_target := Some f |>
  else if bool_decide (k = lit "readonly") || bool_decide (k = lit "ro")
  then st <| p_read_only := Some (bool_decide (f = lit "true") || bool_decide (f = lit "1")) |>
  else st.
Proof.
  intros Hk Hf Heq Ht. unfold mount_part. rewrite Ht. rewrite bool_decide_false by (by destruct k).
  assert (split_once c_eq (k ++ [c_eq] ++ f) = Some (k, f)) as ->; [|done].
  by apply split_once_Some.
Qed.

Lemma mount_part_source st s : field_ok s = true ->
  mount_part st (lit "source=" ++ s) = st <| p_source := Some s |>.
Proof.
  intros Hs. replace (lit "source=" ++ s) with (lit "source" ++ [c_eq] ++ s)
    by (by rewrite app_assoc; f_equal; vm_compute).
  rewrite mount_part_key; [by vm_compute|by vm_compute|done|decide_now|].
  rewrite app_assoc. by apply (trim_field 115%N [111; 117; 114; 99; 101; 61]%N).
Qed.

Lemma mount_part_target st s : field_ok s = true ->
  mount_part st (lit "target=" ++ s) = st <| p_target := Some s |>.
Proof.
  intros Hs. replace (lit "target=" ++ s) with (lit "target" ++ [c_eq] ++ s)
    by (by rewrite app_assoc; f_equal; vm_compute).
  rewrite mount_part_key; [by vm_compute|by vm_compute|done|decide_now|].
  rewrite app_assoc. by apply (trim_field 116%N [97; 114; 103; 101; 116; 61]%N).
Qed.

Lemma mount_part_type st t : mount_part st (lit "type=" ++ mount_type_name t) = st <| p_type := Some (mount_type_name t) |>.
Proof. by destruct t; vm_compute. Qed.

(** The mount argument given to the engine says what the configuration says: read back by
    the program's own parser of that format it is the same mount, as long as neither path has
    a comma or ends in white space. *)
Theorem mount_argument_roundtrip m :
  forallb field_ok (mount_fields m) = true ->
  parse_string (docker_mount_arg (docker_mount m)) =
  Ok (mkMount (mount_type m) (mount_source m) (mount_target m)
        (if default false (mount_read_only m) then Some true else None)).
Proof.
  destruct m as [t src tgt ro]. unfold mount_fields. cbn [mount_source mount_target]. intros H.
  rewrite forallb_app in H. apply andb_true_iff in H as [Hsrc [Htgt _]%andb_true_iff].
  unfold parse_string, docker_mount_arg, docker_mount.
  cbn [em_type em_source em_target em_read_only mount_type mount_source mount_target mount_read_only].
  rewrite split_join; [|by destruct src|].
  - cbn [app fold_left]. rewrite mount_part_type.
    destruct src as [s|]; cbn [app fold_left] in *.
    + cbn [forallb] in Hsrc. apply andb_true_iff in Hsrc as [Hs _].
      rewrite mount_part_source, mount_part_target by done.
      by destruct t, ro as [[]|]; vm_compute.
    + rewrite mount_part_target by done.
      by destruct t, ro as [[]|]; vm_compute.
  - rewrite !Forall_app. split_and!.
    + constructor; [|done]. by destruct t; decide_now.
    + destruct src as [s|]; [|done]. cbn [forallb] in Hsrc. apply andb_true_iff in Hsrc as [Hs _].
      constructor; [|done]. apply field_ok_comma; [decide_now|done].
    + constructor; [|done]. apply field_ok_comma; [decide_now|done].
    + destruct (default false ro); [|done]. constructor; [decide_now|done].
Qed.

Lemma mount_argument_roundtrip_witness :
  parse_string "type=bind,source=/data dir,target=/mnt,readonly" =
  Ok (mkMount Bind (Some (lit "/data dir")) "/mnt" (Some true)).
Proof.
  exact (mount_argument_roundtrip (mkMount Bind (Some (lit "/data dir")) "/mnt" (Some true)) eq_refl).
Defined.

(** ** Bind mounts *)

(** Bind mounts on a remote host: none is left, every mount keeps its target and its
    place, the other mounts are unchanged, and what is uploaded is exactly the bind mounts with
    their host paths, in order; a local host keeps its mounts and uploads nothing. *)
Theorem remote_binds_converted lib mounts host pod_name :
  let '(converted, sources) := split_bind_mounts lib mounts host pod_name in
  map mount_target converted = map mount_target mounts /\
  (is_remote host = false -> converted = mounts /\ sources = []) /\
  (is_remote host = true ->
    Forall (fun m => mount_type m <> Bind) converted /\
    sources = omap k8s_bind_source mounts /\
    Forall2 (fun m c => mount_type m <> Bind /\ c = m \/
                        mount_type m = Bind /\ c = convert_bind lib pod_name m) mounts converted).
Proof.
  unfold split_bind_mounts. destruct (is_remote host); cbn [negb]; [|done].
  induction mounts as [|m mounts IH]; cbn [split_binds map omap list_omap]; [done|].
  destruct (split_binds lib mounts pod_name) as [converted sources]. destruct IH as (Ht & _ & Hr).
  destruct (Hr eq_refl) as (Hn & -> & H2). clear Hr.
  change (k8s_bind_source m) with (if bool_decide (mount_type m = Bind)
    then Some (mkBindSource (default [] (mount_source m)) (mount_target m)) else None).
  case_bool_decide as E; cbn [map]; rewrite Ht; split_and!; try done; intros _; split_and!;
    (done || (constructor; [first [done|by left|by right]|done])).
Qed.
