(* ===== verification/Engine.v ===== *)
(** * The executor (executor/engine.rs, k8s.rs)

    How the executor drives a container engine: which command line each operation runs and
    what it makes of the outcome.  The engine's command line tool is a parameter, a function
    from arguments and a state of the engine to an outcome and a new state; so is the
    Kubernetes API.  [DockerLaws] is what the tool documents; the operations are proved against
    it, and a model of the tool shows that it can be met. *)
From stdpp Require Import gmap.
From S2P Require Import Prelude Strs PodNames Hosts Json ExecStream Subst Devcontainer PodSpec.

(** ** Data *)

Inductive DockerCliTarget := TLocal | TUnixSocket (path : list N) | TSsh (uri : list N).

Record DockerBackend := mkBackend { be_engine : ContainerEngine; be_target : DockerCliTarget }.

Inductive Inner := DockerInner (b : DockerBackend) | KubernetesInner (ctx namespace : list N).

(** The status an executor reports. *)
Inductive BackendStatus := BRunning | BStopped | BGone | BDisconnected.

Record PodBackendInfo := mkInfo { info_status : BackendStatus; info_container_id : list N }.

(** The outcome of a finished process: its exit code unless a signal ended it, and its output
    as text. *)
Record Output := mkOutput { out_code : option Z; out_stdout : list N; out_stderr : list N }.

Definition success (o : Output) : bool := bool_decide (out_code o = Some 0%Z).

Inductive engine_error :=
| Spawn
| CommandFailed (what stderr : list N)
| BadReply (what : list N)
| Unsupported (what : list N).

Record Inspect := mkInspect {
  in_id : option (list N);
  in_labels : option (gmap (list N) (list N));
  in_running : option (option bool);
}.

Record ExecRequest := mkExecRequest {
  er_cmd : list (list N);
  er_workdir : option (list N);
  er_env : list (list N * list N);
  er_stdin : option (list N);
}.

(** ** Backends *)

Definition docker_executor (socket : str) (engine : ContainerEngine) : run Inner :=
  match engine with
  | Auto => Panicked
  | _ => Returned (DockerInner (mkBackend engine (TUnixSocket socket)))
  end.

Definition docker_ssh (ssh_destination : str) : Inner :=
  DockerInner (mkBackend Docker (TSsh (lit "ssh://" ++ ssh_destination))).

Definition podman : Inner := DockerInner (mkBackend Podman TLocal).

Definition podman_proxied (socket : str) : Inner := DockerInner (mkBackend Podman (TUnixSocket socket)).

(** [container_host]; [default_socket] is the local Docker socket, [start_proxy] the socket of a
    freshly started proxy to a remote Podman. *)
Definition container_host (default_socket : str) (start_proxy : str -> result engine_error str) (h : Host)
    : run (result engine_error Inner) :=
  match h with
  | Localhost Docker => Ok <$> docker_executor default_socket Docker
  | Localhost Podman => Returned (Ok podman)
  | Localhost Auto => Panicked
  | Ssh d Docker => Returned (Ok (docker_ssh d))
  | Ssh d Podman => Returned (podman_proxied <$> start_proxy d)
  | Ssh _ Auto => Panicked
  | Kubernetes _ _ _ _ _ _ _ => Panicked
  end.

(** [apply_target]: the global flags that select the engine. *)
Definition apply_target (b : DockerBackend) : run (list str) :=
  match be_engine b, be_target b with
  | Docker, TLocal => Returned []
  | Docker, TUnixSocket socket => Returned [lit "-H"; lit "unix://" ++ socket]
  | Docker, TSsh uri => Returned [lit "-H"; uri]
  | Podman, TLocal => Returned []
  | Podman, TUnixSocket socket => Returned [lit "--url"; lit "unix://" ++ socket]
  | Podman, TSsh _ => Panicked
  | Auto, _ => Panicked
  end.

(** [command]: program and global flags. *)
Definition backend_command (b : DockerBackend) : run (list str) :=
  program ← or_panic (binary_name (be_engine b));
  target ← apply_target b;
  Returned (program :: target).

Definition docker_not_found (o : Output) : bool :=
  let stderr := to_ascii_lowercase <$> out_stderr o in
  contains_str "no such container" stderr || contains_str "no such image" stderr
  || contains_str "no such object" stderr || contains_str "not found" stderr.

Definition docker_stderr (o : Output) : str := trim (out_stderr o).

Definition docker_exit_code (o : Output) : Z := default 1%Z (out_code o).

(** [docker exec] with captured output: its arguments. *)
Definition docker_exec_args (id : str) (req : ExecRequest) : list str :=
  [lit "exec"] ++ (if bool_decide (is_Some (er_stdin req)) then [lit "-i"] else [])
  ++ match er_workdir req with Some w => [lit "--workdir"; w] | None => [] end
  ++ each "--env" assignment (er_env req) ++ [id] ++ er_cmd req.

Definition docker_exec_detached_args (id : str) (req : ExecRequest) : result engine_error (list str) :=
  if bool_decide (is_Some (er_stdin req))
  then Err (Unsupported "executor::exec_detached does not support stdin on docker")
  else Ok ([lit "exec"; lit "-d"]
           ++ match er_workdir req with Some w => [lit "--workdir"; w] | None => [] end
           ++ each "--env" assignment (er_env req) ++ [id] ++ er_cmd req).

Definition docker_exec_interactive_args (id : str) (cmd : list str) (tty user_root : bool) : list str :=
  [lit "exec"] ++ (if user_root then [lit "--user"; lit "root"] else []) ++ [lit "-i"]
  ++ (if tty then [lit "-t"] else []) ++ [id] ++ cmd.

Definition k8s_exec_interactive_args (ctx namespace id : str) (cmd : list str) (tty : bool) : list str :=
  [lit "kubectl"; lit "--context"; ctx; lit "--namespace"; namespace; lit "exec"]
  ++ [if tty then lit "-it" else lit "-i"] ++ [id; lit "--"] ++ cmd.

(** [k8s_exec] refuses what the API cannot do. *)
Definition k8s_exec_check (req : ExecRequest) : result engine_error (list str) :=
  if bool_decide (is_Some (er_workdir req))
  then Err (Unsupported "executor::exec workdir is not supported on kubernetes, wrap the command in `sh -c 'cd ... && ...'` instead")
  else if negb (bool_decide (er_env req = []))
  then Err (Unsupported "executor::exec env is not supported on kubernetes, use `env VAR=val ... cmd` or the pod's baked env instead")
  else Ok (er_cmd req).

(** The background command line of [k8s_exec_detached]. *)
Definition DETACH : str := lit " </dev/null >/tmp/rumpel-detached.log 2>&1 &".
Definition detached_line (cmd : list str) : str := join [c_space] (map shell_escape cmd) ++ DETACH.

Definition k8s_exec_detached_check (req : ExecRequest) : result engine_error (list str) :=
  if bool_decide (is_Some (er_workdir req)) || negb (bool_decide (er_env req = []))
     || bool_decide (is_Some (er_stdin req))
  then Err (Unsupported "executor::exec_detached does not support workdir, env, or stdin on kubernetes, inline them into the command itself")
  else k8s_exec_check (mkExecRequest [lit "sh"; lit "-c"; detached_line (er_cmd req)] None [] None).

(** [str::parse::<i32>] *)
Definition parse_i32 (s : str) : option Z :=
  match strip_prefix [c_hyphen] s with
  | Some d => if starts_with [43%N] d then None
              else (fun n => - Z.of_N n)%Z <$> parse_uint (2 ^ 31) d
  | None => Z.of_N <$> parse_uint (2 ^ 31 - 1) s
  end.

(** [parse_k8s_exit_code]: reason and message of the status, and its causes. *)
Definition parse_k8s_exit_code (reason message : option str) (causes : option (list (option str * option str)))
    : result engine_error Z :=
  let has r := bool_decide (reason = Some (lit r)) in
  if bool_decide (reason = None) || has "" || has "Completed" || has "ExitCode" then Ok 0%Z
  else if has "NonZeroExitCode" then
    let cause := List.find (fun c => bool_decide (c.1 = Some (lit "ExitCode"))) (default [] causes) in
    Ok (default 1%Z (c ← cause; m ← snd c; parse_i32 m))
  else Err (CommandFailed (default [] reason) (default [] message)).

(** The phase of a Kubernetes pod as a status. *)
Definition phase_status (phase : option str) : BackendStatus :=
  let phase := default (lit "Unknown") phase in
  if bool_decide (phase = lit "Running") then BRunning
  else if bool_decide (phase = lit "Pending") then BStopped
  else if bool_decide (phase = lit "Failed") || bool_decide (phase = lit "Succeeded") then BGone
  else BDisconnected.

(** ** Operations on a container engine *)

Section Docker.
Context {E : Type} (cli : list str -> E -> option Output * E).
Context (parse_inspect : str -> option (list Inspect)).

(** [output_async] / [success_async] of the arguments after the global flags. *)
Definition output_async (args : list str) (e : E) : result engine_error Output * E :=
  let '(o, e) := cli args e in (context Spawn o, e).

Definition success_async (what : string) (args : list str) (e : E) : result engine_error str * E :=
  let '(o, e) := cli args e in
  (match o with
   | None => Err Spawn
   | Some o => if success o then Ok (out_stdout o) else Err (CommandFailed what (out_stdout o ++ out_stderr o))
   end, e).

Definition docker_inspect_container (id : str) (e : E) : result engine_error (option Inspect) * E :=
  let '(o, e) := output_async [lit "container"; lit "inspect"; id] e in
  (o ← o;
   if negb (success o) then
     if docker_not_found o then Ok None
     else Err (CommandFailed "docker container inspect failed" (docker_stderr o))
   else
     containers ← context (BadReply "parsing docker container inspect") (parse_inspect (out_stdout o));
     match containers with
     | [] => Err (BadReply "docker container inspect succeeded without returning a container")
     | c :: _ => Ok (Some c)
     end, e).

Definition docker_delete (id : str) (e : E) : result engine_error unit * E :=
  let '(o, e) := output_async [lit "rm"; lit "-f"; lit "-v"; id] e in
  (o ← o; if success o || docker_not_found o then Ok tt
          else Err (CommandFailed "docker rm failed" (docker_stderr o)), e).

Definition docker_status (id : str) (e : E) : result engine_error BackendStatus * E :=
  let '(c, e) := docker_inspect_container id e in
  (c ← c;
   match c with
   | None => Ok BGone
   | Some container =>
       state ← context (BadReply "docker container inspect response missing State") (in_running container);
       Ok (if default false state then BRunning else BStopped)
   end, e).

Definition docker_stop (id : str) (e : E) : result engine_error unit * E :=
  let '(o, e) := output_async [lit "stop"; lit "--time"; lit "0"; id] e in
  (o ← o; if success o || docker_not_found o then Ok tt
          else Err (CommandFailed "docker stop failed" (docker_stderr o)), e).

Definition docker_start (id : str) (e : E) : result engine_error unit * E :=
  let '(o, e) := success_async "starting container" [lit "start"; id] e in (_ ← o; Ok tt, e).

Definition docker_image_present (image : str) (e : E) : result engine_error bool * E :=
  let '(o, e) := output_async [lit "image"; lit "inspect"; image] e in
  (o ← o; if success o then Ok true
          else if docker_not_found o then Ok false
          else Err (CommandFailed "docker image inspect failed" (docker_stderr o)), e).

(** [docker_launch]: create, then start under the name it was created with. *)
Definition docker_launch (b : DockerBackend) (pod : Executor.PodId) (spec : PodSpec) (e : E)
    : run (result engine_error str * E) :=
  args ← docker_create_args (be_engine b) pod spec;
  let '(o, e) := success_async "creating container" args e in
  match o with
  | Err err => Returned (Err err, e)
  | Ok stdout =>
      let '(s, e) := docker_start (Executor.pod_id pod) e in
      Returned (_ ← s; Ok (trim stdout), e)
  end.

(** One pass of [delete_creation_async] over the ids a listing printed. *)
Fixpoint remove_each (remove : list str) (ids : list str) (e : E) : result engine_error unit * E :=
  match ids with
  | [] => (Ok tt, e)
  | id :: ids =>
      let '(o, e) := output_async (remove ++ [id]) e in
      match o with
      | Err err => (Err err, e)
      | Ok o => if negb (success o) && negb (docker_not_found o)
                then (Err (CommandFailed (lit "removing creation resource " ++ id) (docker_stderr o)), e)
                else remove_each remove ids e
      end
  end.

Definition delete_listed (list_args remove : list str) (creation : str) (e : E) : result engine_error unit * E :=
  let filter := lit "label=" ++ LABEL_CREATION ++ [c_eq] ++ creation in
  let '(o, e) := success_async "listing" (list_args ++ [lit "--filter"; filter]) e in
  match o with
  | Err err => (Err err, e)
  | Ok out => remove_each remove (lines out) e
  end.

Definition delete_creation (creation : str) (e : E) : result engine_error unit * E :=
  match delete_listed [lit "ps"; lit "-aq"] [lit "rm"; lit "-f"; lit "-v"] creation e with
  | (Ok _, e) => delete_listed [lit "network"; lit "ls"; lit "-q"] [lit "network"; lit "rm"] creation e
  | (Err err, e) => (Err err, e)
  end.

(** The loop of [docker_list_by_repo] over the inspected containers. *)
Fixpoint list_entries (containers : list Inspect) (out : gmap (list N) PodBackendInfo)
    : result engine_error (gmap (list N) PodBackendInfo) :=
  match containers with
  | [] => Ok out
  | c :: containers =>
      match default ∅ (in_labels c) !! LABEL_DOCKER_POD_NAME with
      | None => list_entries containers out
      | Some pod_name =>
          state ← context (BadReply "docker container inspect response missing State") (in_running c);
          id ← context (BadReply "docker container inspect response missing Id") (in_id c);
          list_entries containers
            (<[pod_name := mkInfo (if default false state then BRunning else BStopped) id]> out)
      end
  end.

Definition docker_list_by_repo (repo_path : str) (e : E)
    : result engine_error (gmap (list N) PodBackendInfo) * E :=
  let filter := lit "label=" ++ LABEL_DOCKER_REPO_PATH ++ [c_eq] ++ repo_path in
  let '(o, e) := success_async "listing containers"
                   [lit "container"; lit "ls"; lit "--all"; lit "--quiet"; lit "--filter"; filter] e in
  match o with
  | Err err => (Err err, e)
  | Ok stdout =>
      let ids := List.filter (fun l => negb (bool_decide (l = []))) (lines stdout) in
      if bool_decide (ids = []) then (Ok ∅, e)
      else
        let '(o, e) := success_async "inspecting listed containers" ([lit "container"; lit "inspect"] ++ ids) e in
        (stdout ← o;
         containers ← context (BadReply "parsing docker container inspect") (parse_inspect stdout);
         list_entries containers ∅, e)
  end.
End Docker.

(** ** Operations on a Kubernetes cluster *)

(** The API's answer to a delete: done, or an HTTP error. *)
Inductive api_result := ApiOk | ApiError (code : Z).

Section Kubernetes.
Context {E : Type}.
Context (get_pod : str -> E -> result engine_error (option (option str))).
Context (delete_api : str -> option str -> E -> api_result * E).
Context (list_api : str -> E -> result engine_error (list (option str * option str))).

(** [get_pod_status_async]: the outer option is whether the pod exists, the inner its phase. *)
Definition k8s_status (name : str) (e : E) : result engine_error BackendStatus :=
  p ← get_pod name e;
  Ok (match p with None => BGone | Some phase => phase_status phase end).

Definition k8s_delete (name : str) (e : E) : result engine_error unit * E :=
  let '(r, e) := delete_api name None e in
  (match r with
   | ApiOk => Ok tt
   | ApiError code => if bool_decide (code = 404%Z) then Ok tt
                      else Err (CommandFailed "deleting pod" (port_text code))
   end, e).

(** [delete_creation_async]: each listed pod under its own uid. *)
Fixpoint k8s_delete_each (pods : list (option str * option str)) (e : E) : result engine_error unit * E :=
  match pods with
  | [] => (Ok tt, e)
  | (name, uid) :: pods =>
      match name, uid with
      | Some name, Some uid =>
          let '(r, e) := delete_api name (Some uid) e in
          match r with
          | ApiOk => k8s_delete_each pods e
          | ApiError code =>
              if bool_decide (code = 404%Z) || bool_decide (code = 409%Z) then k8s_delete_each pods e
              else (Err (CommandFailed "deleting pod" (port_text code)), e)
          end
      | None, _ => (Err (BadReply "cleanup pod is missing its name"), e)
      | _, None => (Err (BadReply "cleanup pod is missing its UID"), e)
      end
  end.

Definition k8s_delete_creation (creation : str) (e : E) : result engine_error unit * E :=
  match list_api (LABEL_CREATION ++ [c_eq] ++ creation) e with
  | Err err => (Err err, e)
  | Ok pods => k8s_delete_each pods e
  end.
End Kubernetes.

(** [wait_running_async] over the observations of the poll: the phase and, per container, the
    reason and message it waits for.  [None]: still polling at the end of the observations. *)
Definition pod_observation : Type := option str * list (option (option str * option str)).

Definition failing (w : option (option str * option str)) : option (str * str) :=
  '(reason, msg) ← w;
  let reason := default (lit "Unknown") reason in
  if contains_str "Err" reason || contains_str "BackOff" reason then Some (reason, default [] msg) else None.

Fixpoint wait_running (name : str) (obs : list (result engine_error pod_observation))
    : option (result engine_error unit) :=
  match obs with
  | [] => None
  | Err e :: _ => Some (Err e)
  | Ok (phase, waiting) :: obs =>
      let phase := default (lit "Unknown") phase in
      if bool_decide (phase = lit "Running") then Some (Ok tt)
      else if bool_decide (phase = lit "Pending") then
        match omap failing waiting with
        | (reason, msg) :: _ =>
            Some (Err (CommandFailed (lit "pod '" ++ name ++ lit "' failed to start") (reason ++ [c_space] ++ msg)))
        | [] => wait_running name obs
        end
      else if bool_decide (phase = lit "Failed") || bool_decide (phase = lit "Succeeded")
      then Some (Err (CommandFailed (lit "pod '" ++ name ++ lit "' is in terminal phase") phase))
      else wait_running name obs
  end.

(** [launch_async]: which launches are refused before anything is created. *)
Definition launch_check (inner : Inner) (spec : PodSpec) : result engine_error unit :=
  match inner with
  | DockerInner _ =>
      if negb (K8sOnly_is_empty (ps_k8s_only spec))
      then Err (Unsupported "k8s-only spec fields (node_selector/tolerations) set on a docker launch") else Ok tt
  | KubernetesInner _ _ =>
      if negb (DockerOnly_is_empty (ps_docker_only spec))
      then Err (Unsupported "docker-only spec fields (init/devices/network/security_opt/port_bindings) set on a kubernetes launch")
      else Ok tt
  end.

(** ** No panic on resolved hosts *)

Lemma resolved_engine_concrete which e b reason e' : resolve which e b reason = Ok e' -> e' <> Auto.
Proof. unfold resolve. intros H. by destruct e; repeat case_match; simplify_eq. Qed.

(** The panics of the executor are unreachable: the executor of a host whose tools were
    resolved is built without panicking, and every command of it names the resolved engine's
    program and a target that engine accepts. *)
Theorem resolved_host_commands which socket start_proxy h h' :
  resolve_container_tools which h = Ok h' -> is_docker h' = true ->
  exists r, container_host socket start_proxy h' = Returned r /\
    forall inner, r = Ok inner ->
      exists b program target, inner = DockerInner b /\ Some (be_engine b) = container_engine h' /\
        backend_command b = Returned (program :: target) /\ binary_name (be_engine b) = Some program.
Proof.
  intros Hr Hd. assert (container_engine h' <> Some Auto) as Hauto.
  { destruct h; cbn in Hr; (destruct (resolve _ _ _ _) as [e'|] eqn:E; cbn in Hr; [|done]);
      injection Hr as <-; apply resolved_engine_concrete in E; cbn; congruence. }
  destruct h' as [[]|d []|]; cbn in Hauto, Hd |- *; try done; eexists; (split; [reflexivity|]);
    intros inner Hi; try (destruct (start_proxy d); cbn in Hi; [|done]); injection Hi as <-;
    eexists _, _, _; split_and!; reflexivity.
Qed.

Lemma resolved_host_commands_witness :
  exists r, container_host "/var/run/docker.sock" (fun _ => Ok (lit "/tmp/p.sock")) (Ssh "me@host" Podman) = Returned r /\
    forall inner, r = Ok inner ->
      exists b program target, inner = DockerInner b /\ Some (be_engine b) = Some Podman /\
        backend_command b = Returned (program :: target) /\ binary_name (be_engine b) = Some program.
Proof.
  apply (resolved_host_commands (fun p => bool_decide (p = lit "podman")) "/var/run/docker.sock"
           (fun _ => Ok (lit "/tmp/p.sock")) (Ssh "me@host" Auto)); vm_compute; reflexivity.
Defined.

(** The host name of an accepted pod name is accepted. *)
Lemma sanitize_label s : dns_label s -> sanitize_hostname s = s.
Proof. intros H. by apply sanitize_hostname_valid. Qed.

Lemma hostname_new_label s : dns_label s -> Executor.Hostname_new s = Ok (Executor.mkHostname s).
Proof.
  intros H. apply NameTheorems.validate_iff in H.
  pose proof (NameTheorems.executor_agrees s) as Ha. unfold Executor.Hostname_new.
  destruct (Protocol.validate_dns_1123_label s), (Executor.validate_dns_1123_label s) as [[]|]; done.
Qed.

(** Every specification the daemon builds can be launched.  For an accepted pod name and
    a resolved engine, the Docker specification is built without a panic, is not refused
    by the executor and becomes a command line, with a runtime only for Docker; the
    Kubernetes one fails only for its mounts and is not refused by the executor. *)
Theorem built_specs_launch lib to_lowercase now runtime_class name pod id image repo container engine dc mounts
    ports node_selector tolerations ctx namespace b :
  Protocol.PodName_new name = Ok pod -> engine <> Auto ->
  (exists spec warnings args,
     build_docker_pod_spec pod image repo container engine dc mounts ports = Returned (spec, warnings) /\
     launch_check (DockerInner b) spec = Ok tt /\
     docker_create_args engine id spec = Returned args /\
     (engine = Podman -> ps_runtime spec = None)) /\
  match build_k8s_pod_spec lib to_lowercase now runtime_class pod image repo dc node_selector tolerations with
  | Ok (spec, _, _) => launch_check (KubernetesInner ctx namespace) spec = Ok tt
  | Err (SpecDc _) => True
  | Err HostnameInvalid => False
  end.
Proof.
  intros [Hn ->]%NameTheorems.PodName_new_Ok He. split.
  - unfold build_docker_pod_spec. cbn [Protocol.pod_name]. rewrite sanitize_label, hostname_new_label by done.
    destruct engine; [done| |]; cbn [mbind run_bind or_panic ok].
    + unfold docker_create_args. destruct (ra_runtime _) as [r|] eqn:E; eexists _, _, _;
        (split; [reflexivity|]); split_and!; try reflexivity; try done; cbn [ps_runtime]; by rewrite ?E.
    + eexists _, _, _; split_and!; reflexivity.
  - unfold build_k8s_pod_spec, Executor.hostname_for. cbn [Protocol.pod_name].
    rewrite hostname_new_label by done. cbn [ok context].
    destruct (resolved_mounts dc); cbn [mbind result_bind]; [|done].
    destruct (check_no_unresolved_mount_vars _); cbn [mbind result_bind]; done.
Qed.

Lemma built_specs_launch_witness :
  let dc := DevContainer_default <| dc_run_args := Some [lit "--runtime=crun"; lit "--init"] |> in
  (exists spec warnings args,
     build_docker_pod_spec (Protocol.mkPodName "dev") "img" "/r" "/w" Podman dc [] ∅ = Returned (spec, warnings) /\
     launch_check podman spec = Ok tt /\
     docker_create_args Podman (Executor.mkPodId "rumpel-dev") spec = Returned args /\
     (Podman = Podman -> ps_runtime spec = None)) /\
  match build_k8s_pod_spec ZeroHash.lib id "now" None (Protocol.mkPodName "dev") "img" "/r" dc None None with
  | Ok (spec, _, _) => launch_check (KubernetesInner "c" "n") spec = Ok tt
  | Err (SpecDc _) => True
  | Err HostnameInvalid => False
  end.
Proof. intros dc. apply (built_specs_launch _ _ _ _ "dev"); [vm_compute; reflexivity|discriminate]. Defined.

(** ** Detached commands on Kubernetes *)

(** The first [n] words of a command line, separated by single spaces. *)
Fixpoint read_words (n : nat) (s : str) : option (list str * str) :=
  match n with
  | O => Some ([], s)
  | S n =>
      '(w, r) ← shell_word false (default s (strip_prefix [c_space] s));
      '(ws, r) ← read_words n r;
      Some (w :: ws, r)
  end.

Lemma shell_word_escape s c rest : shell_stop c = true ->
  shell_word false (shell_escape s ++ c :: rest) = Some (s, c :: rest).
Proof.
  intros Hc. unfold shell_escape. rewrite <- !app_assoc. cbn [app shell_word].
  rewrite bool_decide_true by done. apply shell_word_escaped. cbn.
  assert (c <> c_apostrophe /\ c <> c_backslash) as [? ?] by (split; intros ->; by vm_compute in Hc).
  rewrite !bool_decide_false by done. by rewrite Hc.
Qed.

Lemma strip_space_escape s rest : strip_prefix [c_space] (shell_escape s ++ rest) = None.
Proof. done. Qed.

Lemma read_words_join cmd c rest : shell_stop c = true ->
  forall lead : bool, cmd <> [] ->
  read_words (length cmd) ((if lead then [c_space] else []) ++ join [c_space] (map shell_escape cmd) ++ c :: rest)
  = Some (cmd, c :: rest).
Proof.
  intros Hc. induction cmd as [|w cmd IH]; intros lead Hne; [done|]. clear Hne. cbn [length read_words].
  assert (default ((if lead then [c_space] else []) ++ join [c_space] (map shell_escape (w :: cmd)) ++ c :: rest)
            (strip_prefix [c_space] ((if lead then [c_space] else []) ++ join [c_space] (map shell_escape (w :: cmd)) ++ c :: rest))
          = join [c_space] (map shell_escape (w :: cmd)) ++ c :: rest) as ->.
  { destruct lead; [by rewrite strip_prefix_app|]. cbn [app].
    cbn [map join]. destruct (map shell_escape cmd); rewrite <- ?app_assoc; by rewrite strip_space_escape. }
  destruct cmd as [|w' cmd].
  - cbn [map join length read_words]. rewrite shell_word_escape by done. done.
  - cbn [map]. change (join [c_space] (shell_escape w :: shell_escape w' :: map shell_escape cmd))
      with (shell_escape w ++ [c_space] ++ join [c_space] (map shell_escape (w' :: cmd))).
    rewrite <- !app_assoc. change ([c_space] ++ ?x) with (c_space :: x) at 1.
    rewrite shell_word_escape by done. cbn [mbind option_bind].
    pose proof (IH true ltac:(done)) as IHt. cbn [length] in IHt.
    change (read_words (S (length cmd)) (c_space :: (join [c_space] (map shell_escape (w' :: cmd)) ++ c :: rest))
            = Some (w' :: cmd, c :: rest)) in IHt.
    cbn [length]. by rewrite IHt.
Qed.

(** A detached command on Kubernetes runs exactly the requested words: the shell line that
    wraps it is read back as the command's arguments, whatever characters they have, followed
    only by the redirections and the background sign. *)
Theorem detached_line_words cmd :
  cmd <> [] -> read_words (length cmd) (detached_line cmd) = Some (cmd, DETACH).
Proof. intros H. exact (read_words_join cmd c_space _ eq_refl false H). Qed.

Lemma detached_line_words_witness :
  read_words 3 (detached_line [lit "echo"; lit "it's; rm -rf /"; lit "$(x)"]) =
  Some ([lit "echo"; lit "it's; rm -rf /"; lit "$(x)"], DETACH).
Proof. apply (detached_line_words [lit "echo"; lit "it's; rm -rf /"; lit "$(x)"]). discriminate. Defined.

(** ** The engine as a table of containers *)

Record Container := mkContainer { c_running : bool; c_labels : gmap (list N) (list N) }.

#[export] Instance Container_updatable : Updatable Container := fun c => mkContainer (c_running c) (c_labels c).

(** A call that had no effect: the tool could not be started, or it failed for a reason other
    than a missing object. *)
Definition refused (o : option Output) : Prop :=
  match o with None => True | Some o => success o = false /\ docker_not_found o = false end.

(** A call that failed because the object does not exist. *)
Definition missing (o : option Output) : Prop :=
  exists out, o = Some out /\ success out = false /\ docker_not_found out = true.

Definition succeeded (o : option Output) : Prop := exists out, o = Some out /\ success out = true.

(** What the command line tool documents of the calls above, on a table of containers by name. *)
Class DockerLaws {E} (cli : list str -> E -> option Output * E)
    (parse_inspect : str -> option (list Inspect)) (containers : E -> gmap (list N) Container) : Prop := {
  law_rm id e o e' : cli [lit "rm"; lit "-f"; lit "-v"; id] e = (o, e') ->
    (refused o /\ containers e' = containers e) \/
    (containers e !! id = None /\ missing o /\ containers e' = containers e) \/
    (is_Some (containers e !! id) /\ succeeded o /\ containers e' = delete id (containers e));
  law_stop id e o e' : cli [lit "stop"; lit "--time"; lit "0"; id] e = (o, e') ->
    (refused o /\ containers e' = containers e) \/
    (containers e !! id = None /\ missing o /\ containers e' = containers e) \/
    (is_Some (containers e !! id) /\ succeeded o /\
     containers e' = alter (fun c => c <| c_running := false |>) id (containers e));
  law_start id e o e' : cli [lit "start"; id] e = (o, e') ->
    (~ succeeded o /\ containers e' = containers e) \/
    (is_Some (containers e !! id) /\ succeeded o /\
     containers e' = alter (fun c => c <| c_running := true |>) id (containers e));
  law_inspect id e o e' : cli [lit "container"; lit "inspect"; id] e = (o, e') ->
    containers e' = containers e /\
    (refused o \/
     (containers e !! id = None /\ missing o) \/
     exists c out inspect rest, containers e !! id = Some c /\ o = Some out /\ success out = true /\
       parse_inspect (out_stdout out) = Some (inspect :: rest) /\ in_running inspect = Some (Some (c_running c)));
  law_ps creation e o e' :
    cli [lit "ps"; lit "-aq"; lit "--filter"; lit "label=" ++ LABEL_CREATION ++ [c_eq] ++ creation] e = (o, e') ->
    containers e' = containers e /\
    (~ succeeded o \/
     exists out, o = Some out /\ success out = true /\
       forall id, id ∈ lines (out_stdout out) <->
         exists c, containers e !! id = Some c /\ c_labels c !! LABEL_CREATION = Some creation);
  law_network args e o e' : cli (lit "network" :: args) e = (o, e') -> containers e' = containers e;
}.

Section Refinement.
Context {E : Type} (cli : list str -> E -> option Output * E).
Context (parse_inspect : str -> option (list Inspect)) (containers : E -> gmap (list N) Container).
Context {Hlaws : DockerLaws cli parse_inspect containers}.

Lemma outcome_ok (o : option Output) err :
  (missing o \/ succeeded o) ->
  (o ← context Spawn o; if success o || docker_not_found o then Ok tt else Err (err o)) = Ok tt.
Proof. intros [(out & -> & Hs & Hn)|(out & -> & Hs)]; cbn; rewrite Hs, ?Hn; done. Qed.

Lemma outcome_refused (o : option Output) err : refused o ->
  exists e, (o ← context Spawn o; if success o || docker_not_found o then Ok tt else Err (err o)) = Err e.
Proof. destruct o as [out|]; cbn; [|by eexists]. intros [-> ->]. by eexists. Qed.

Lemma docker_delete_spec id e r e' : docker_delete cli id e = (r, e') ->
  (r = Ok tt /\ containers e' = delete id (containers e)) \/
  ((exists err, r = Err err) /\ containers e' = containers e).
Proof.
  unfold docker_delete, output_async. destruct (cli _ e) as [o e1] eqn:Hc. intros [= <- <-].
  destruct (law_rm _ _ _ _ Hc) as [[Hr ->]|[(Hn & Hm & ->)|(Hs & Hok & ->)]].
  - right. split; [|done]. exact (outcome_refused o (fun o => CommandFailed "docker rm failed" (docker_stderr o)) Hr).
  - left. split; [|by rewrite delete_id]. apply (outcome_ok o). by left.
  - left. split; [|done]. apply (outcome_ok o). by right.
Qed.

Lemma docker_stop_spec id e r e' : docker_stop cli id e = (r, e') ->
  (r = Ok tt /\ containers e' = alter (fun c => c <| c_running := false |>) id (containers e)) \/
  ((exists err, r = Err err) /\ containers e' = containers e).
Proof.
  unfold docker_stop, output_async. destruct (cli _ e) as [o e1] eqn:Hc. intros [= <- <-].
  destruct (law_stop _ _ _ _ Hc) as [[Hr ->]|[(Hn & Hm & ->)|(Hs & Hok & ->)]].
  - right. split; [|done]. exact (outcome_refused o (fun o => CommandFailed "docker stop failed" (docker_stderr o)) Hr).
  - left. split; [apply (outcome_ok o); by left|]. symmetry. apply map_eq. intros i.
    destruct (decide (i = id)) as [->|Hi]; [by rewrite lookup_alter_eq, Hn|by rewrite lookup_alter_ne].
  - left. split; [|done]. apply (outcome_ok o). by right.
Qed.

Lemma success_async_spec what args e r e' : success_async cli what args e = (r, e') ->
  exists o, cli args e = (o, e') /\
    ((exists out, o = Some out /\ success out = true /\ r = Ok (out_stdout out)) \/
     (~ succeeded o /\ exists err, r = Err err)).
Proof.
  unfold success_async. destruct (cli args e) as [o e1]. intros [= <- <-]. exists o. split; [done|].
  destruct o as [out|]; [|right; split; [by intros (? & ? & _)|by eexists]].
  destruct (success out) eqn:Hs; [left; by exists out|].
  right. split; [|by eexists]. intros (out' & [= <-] & Hs'). congruence.
Qed.

Lemma docker_start_spec id e r e' : docker_start cli id e = (r, e') ->
  (r = Ok tt /\ is_Some (containers e !! id) /\
   containers e' = alter (fun c => c <| c_running := true |>) id (containers e)) \/
  ((exists err, r = Err err) /\ containers e' = containers e).
Proof.
  unfold docker_start. destruct (success_async cli _ _ e) as [o e1] eqn:Hs. intros [= <- <-].
  apply success_async_spec in Hs as (out & Hc & H).
  pose proof (law_start _ _ _ _ Hc) as Hlaw.
  destruct H as [(o1 & -> & Hok & ->)|[Hf (err & ->)]]; cbn.
  - left. destruct Hlaw as [[Hn _]|(Hx & _ & ->)]; [|done]. destruct Hn. by exists o1.
  - right. split; [by eexists|]. destruct Hlaw as [[_ ->]|(_ & Hok & _)]; done.
Qed.

(** The status of a container in the table. *)
Definition table_status (c : option Container) : BackendStatus :=
  match c with
  | None => BGone
  | Some c => if c_running c then BRunning else BStopped
  end.

Lemma docker_status_spec id e r e' : docker_status cli parse_inspect id e = (r, e') ->
  containers e' = containers e /\
  (r = Ok (table_status (containers e !! id)) \/ exists err, r = Err err).
Proof.
  unfold docker_status, docker_inspect_container, output_async. destruct (cli _ e) as [o e1] eqn:Hc.
  intros [= <- <-]. destruct (law_inspect _ _ _ _ Hc) as [Hcs Ho]. split; [done|].
  destruct Ho as [Hr|[(Hn & out & -> & Hf & Hm)|(c & out & insp & rest & Hl & -> & Hs & Hp & Hrun)]].
  - right. destruct o as [out|]; cbn in Hr |- *; [|by eexists].
    destruct Hr as [-> ->]. cbn. by eexists.
  - left. cbn. by rewrite Hf, Hm, Hn.
  - left. cbn. rewrite Hs. cbn. rewrite Hp. cbn. rewrite Hrun, Hl. cbn. done.
Qed.
End Refinement.


(** *** Cleaning up a creation *)

Section Cleanup.
Context {E : Type} (cli : list str -> E -> option Output * E).
Context (parse_inspect : str -> option (list Inspect)) (containers : E -> gmap (list N) Container).
Context {Hlaws : DockerLaws cli parse_inspect containers}.

Lemma remove_containers ids : forall e r e',
  remove_each cli [lit "rm"; lit "-f"; lit "-v"] ids e = (r, e') ->
  (forall i, i ∉ ids -> containers e' !! i = containers e !! i) /\
  (r = Ok tt -> forall i, i ∈ ids -> containers e' !! i = None).
Proof.
  induction ids as [|id ids IH]; intros e r e'; cbn [remove_each].
  - intros [= <- <-]. split; [done|]. intros _ i ?%not_elem_of_nil. done.
  - unfold output_async. cbn [app]. destruct (cli _ e) as [o e1] eqn:Hc.
    assert (forall i, i <> id -> containers e1 !! i = containers e !! i) as Hother.
    { intros i Hi. destruct (law_rm _ _ _ _ Hc) as [[_ ->]|[(_ & _ & ->)|(_ & _ & ->)]]; [done..|].
      by rewrite lookup_delete_ne. }
    destruct o as [out|]; cbn [context].
    2:{ intros [= <- <-]. split; [|done]. intros i Hi. apply Hother. set_solver. }
    destruct (negb (success out) && negb (docker_not_found out)) eqn:Ef.
    + intros [= <- <-]. split; [|done]. intros i Hi. apply Hother. set_solver.
    + intros Hrest. destruct (IH _ _ _ Hrest) as [Hkeep Hgone]. split.
      * intros i Hi. rewrite Hkeep by set_solver. apply Hother. set_solver.
      * intros Hr i Hi. destruct (decide (i ∈ ids)) as [Hin|Hin]; [by apply Hgone|].
        rewrite Hkeep by done. assert (i = id) as -> by set_solver.
        destruct (law_rm _ _ _ _ Hc) as [[Href _]|[(Hn & _ & ->)|(_ & _ & ->)]]; [|done|apply lookup_delete_eq].
        cbn in Href. destruct Href as [Hs Hn]. by rewrite Hs, Hn in Ef.
Qed.

Lemma networks_keep_containers ids : forall e r e',
  remove_each cli [lit "network"; lit "rm"] ids e = (r, e') -> containers e' = containers e.
Proof.
  induction ids as [|id ids IH]; intros e r e'; cbn [remove_each]; [by intros [= <- <-]|].
  unfold output_async. cbn [app]. destruct (cli _ e) as [o e1] eqn:Hc.
  apply law_network in Hc. destruct o as [out|]; cbn [context]; [|by intros [= <- <-]].
  case_match; [by intros [= <- <-]|]. intros Hk. apply IH in Hk. congruence.
Qed.

Lemma delete_networks_keep creation e r e' :
  delete_listed cli [lit "network"; lit "ls"; lit "-q"] [lit "network"; lit "rm"] creation e = (r, e') ->
  containers e' = containers e.
Proof.
  unfold delete_listed. destruct (success_async cli _ _ e) as [o e1] eqn:Hs.
  apply success_async_spec in Hs as (o1 & Hc & _). apply law_network in Hc.
  destruct o; [|by intros [= <- <-]]. intros H%networks_keep_containers. congruence.
Qed.
End Cleanup.


(** ** A model of the tool *)
Module TableDocker.

Inductive op :=
| ORm (id : list N) | OStop (id : list N) | OStart (id : list N) | OInspect (id : list N)
| OPs (creation : list N) | ONetwork.

Definition decode (args : list str) : option op :=
  match args with
  | a :: rest =>
      if bool_decide (a = lit "network") then Some ONetwork
      else match rest with
           | [id] => if bool_decide (a = lit "start") then Some (OStart id) else None
           | [b; id] => if bool_decide (a = lit "container") && bool_decide (b = lit "inspect")
                        then Some (OInspect id) else None
           | [b; c; x] =>
               if bool_decide (a = lit "rm") then Some (ORm x)
               else if bool_decide (a = lit "stop") then Some (OStop x)
               else if bool_decide (a = lit "ps")
               then OPs <$> strip_prefix (lit "label=" ++ LABEL_CREATION ++ [c_eq]) x
               else None
           | _ => None
           end
  | [] => None
  end.

Definition done_ (stdout : str) : option Output := Some (mkOutput (Some 0%Z) stdout []).
Definition no_such : option Output := Some (mkOutput (Some 1%Z) [] (lit "Error: No such container")).

Definition on_container (id : list N) (f : Container -> option Output * gmap (list N) Container)
    (e : gmap (list N) Container) : option Output * gmap (list N) Container :=
  match e !! id with Some c => f c | None => (no_such, e) end.

(** A name that a listing prints on a line of its own. *)
Definition listable (id : list N) : Prop := c_nl ∉ id /\ ends_with [c_cr] id = false.
#[export] Instance listable_dec id : Decision (listable id).
Proof. unfold listable. apply _. Defined.

Definition labelled (creation : list N) (e : gmap (list N) Container) : list (list N) :=
  fst <$> filter (fun kv => c_labels kv.2 !! LABEL_CREATION = Some creation) (map_to_list e).

Definition print_lines (ls : list str) : str := ls ≫= fun l => l ++ [c_nl].

Definition cli (args : list str) (e : gmap (list N) Container) : option Output * gmap (list N) Container :=
  match decode args with
  | Some (ORm id) => on_container id (fun _ => (done_ [], delete id e)) e
  | Some (OStop id) => on_container id (fun _ => (done_ [], alter (fun c => c <| c_running := false |>) id e)) e
  | Some (OStart id) => on_container id (fun _ => (done_ [], alter (fun c => c <| c_running := true |>) id e)) e
  | Some (OInspect id) =>
      on_container id (fun c => (done_ (if c_running c then lit "1" else lit "0"), e)) e
  | Some (OPs creation) =>
      let ids := labelled creation e in
      if bool_decide (Forall listable ids) then (done_ (print_lines ids), e) else (None, e)
  | Some ONetwork => (done_ [], e)
  | None => (None, e)
  end.

Definition parse_inspect (s : str) : option (list Inspect) :=
  Some [mkInspect None None (Some (Some (bool_decide (s = lit "1"))))].

Lemma lines_print ls : Forall listable ls -> lines (print_lines ls) = ls.
Proof.
  unfold lines, print_lines. induction 1 as [|l ls [Hn Hr] Hls IH]; [done|].
  rewrite bind_cons, <- app_assoc. cbn [app]. rewrite split_cons_sep by done.
  destruct (split c_nl (ls ≫= fun l => l ++ [c_nl])) as [|w ws] eqn:Es; [by apply split_nonempty in Es|].
  change (lines_of (l :: w :: ws)) with (strip_cr l :: lines_of (w :: ws)). rewrite IH. f_equal. unfold strip_cr.
  destruct (strip_suffix [c_cr] l) eqn:E; [|done]. unfold ends_with in Hr. rewrite E in Hr.
  by rewrite bool_decide_true in Hr by (by eexists).
Qed.

Lemma labelled_elem creation e id :
  id ∈ labelled creation e <-> exists c, e !! id = Some c /\ c_labels c !! LABEL_CREATION = Some creation.
Proof.
  unfold labelled. rewrite list_elem_of_fmap. split.
  - intros ([k c] & -> & [Hl Hin]%list_elem_of_filter). exists c. split; [by apply elem_of_map_to_list|done].
  - intros (c & He & Hl). exists (id, c). split; [done|]. apply list_elem_of_filter.
    split; [done|by apply elem_of_map_to_list].
Qed.

Lemma no_such_missing : missing no_such.
Proof. eexists. split; [done|]. split; vm_compute; reflexivity. Qed.

Lemma done_succeeded s : succeeded (done_ s).
Proof. eexists. split; [done|]. vm_compute. reflexivity. Qed.

#[export] Instance laws : DockerLaws cli parse_inspect (fun e => e).
Proof.
  assert (forall A (c : option Output * A) o e', c = (o, e') -> c.1 = o /\ c.2 = e') as Hpair by (by intros ? ? ? ? ->).
  split.
  - intros i e o e' [<- <-]%Hpair. unfold cli. change (decode _) with (Some (ORm i)). unfold on_container.
    right. destruct (e !! i) eqn:E; [right|left]; cbn; auto using done_succeeded, no_such_missing.
  - intros i e o e' [<- <-]%Hpair. unfold cli. change (decode _) with (Some (OStop i)). unfold on_container.
    right. destruct (e !! i) eqn:E; [right|left]; cbn; auto using done_succeeded, no_such_missing.
  - intros i e o e' [<- <-]%Hpair. unfold cli. change (decode _) with (Some (OStart i)). unfold on_container.
    destruct (e !! i) eqn:E; [right; cbn; auto using done_succeeded|left]. cbn. split; [|done].
    intros (out & [= <-] & H). by vm_compute in H.
  - intros i e o e' [<- <-]%Hpair. unfold cli. change (decode _) with (Some (OInspect i)). unfold on_container.
    destruct (e !! i) as [c|] eqn:E; cbn; (split; [done|]); right; [right|left; auto using no_such_missing].
    eexists c, _, _, _. split_and!; [done..|]. cbn. by destruct (c_running c).
  - intros creation e o e' [<- <-]%Hpair. unfold cli.
    assert (decode [lit "ps"; lit "-aq"; lit "--filter"; lit "label=" ++ LABEL_CREATION ++ [c_eq] ++ creation]
            = Some (OPs creation)) as -> by (vm_compute; reflexivity).
    case_bool_decide as Hl; cbn [fst snd]; (split; [done|]); [right|left; by intros (? & ? & _)].
    eexists. split; [done|]. split; [done|]. intros i.
    change (i ∈ lines (print_lines (labelled creation e)) <-> exists c, e !! i = Some c /\ c_labels c !! LABEL_CREATION = Some creation).
    rewrite lines_print by done. apply labelled_elem.
  - intros args e o e' [<- <-]%Hpair. unfold cli. by change (decode _) with (Some ONetwork).
Qed.

End TableDocker.


