(* ===== verification/Compose.v ===== *)
(** * Compose projects (compose.rs)

    The rendered configuration as a JSON value, the questions asked of it, the services a
    selection starts, the build fingerprint and the override file.  JSON objects keep their
    order ([serde_json] is built with [preserve_order]); numbers are integers.  The file
    system, [serde_json]'s printer and the directory walk of image.rs are parameters. *)
From stdpp Require Import gmap.
From S2P Require Import Prelude Strs PodNames Hosts Db Bytes Json ExecStream Subst Devcontainer PodSpec.

Inductive compose_error :=
| NoComposeFile
| FileMissing (path : list N)
| NotJson
| NoServicesObject
| NoServices
| InvalidResource (what : list N)
| NoSuchComposeService (service : list N)
| InvalidField (service field : list N)
| NotADirectory (path : list N)
| Unreadable (path : list N)
| WrongEngine (engine : list N)
| NoContainer (service : list N)
| ManyContainers (service : list N) (n : nat)
| UnsupportedArchitecture (arch : list N).

(** ** Sources *)

Record Source := mkSource { src_files : list (list N); src_working_dir : list N }.

Section Source.
Context (is_file is_dir : str -> bool).

Fixpoint resolve_files (dir : str) (entries : list str) : result compose_error (list str) :=
  match entries with
  | [] => Ok []
  | entry :: rest =>
      let path := path_join dir entry in
      if negb (is_file path) then Err (FileMissing path)
      else files ← resolve_files dir rest; Ok (path :: files)
  end.

Definition Source_new (files : StringOrArray) (devcontainer_dir : str) : result compose_error Source :=
  let entries := match files with SAString f => [f] | SAArray fs => fs end in
  if bool_decide (entries = []) then Err NoComposeFile
  else resolved ← resolve_files devcontainer_dir entries; Ok (mkSource resolved devcontainer_dir).

(** [apply]: the arguments that name the project and its files. *)
Definition source_args (s : Source) (project_name : str) : list str :=
  [lit "--project-name"; project_name] ++ (src_files s ≫= fun f => [lit "--file"; f]).

Definition local_build_context (value : str) (allow_service : bool) : result compose_error (option str) :=
  if allow_service && starts_with "service:" value then Ok None
  else if negb (starts_with [c_slash] value) then Ok None
  else if negb (is_dir value) then Err (NotADirectory value)
  else Ok (Some value).
End Source.

(** ** The model *)

Definition as_object (j : json) : option (list (str * json)) := match j with JObject o => Some o | _ => None end.
Definition as_array (j : json) : option (list json) := match j with JArray l => Some l | _ => None end.
Definition as_string (j : json) : option str := match j with JString s => Some s | _ => None end.
Definition as_bool (j : json) : option bool := match j with JBool b => Some b | _ => None end.
Definition is_null (j : json) : bool := match j with JNull => true | _ => false end.

(** [Map::get], [Map::insert] (in place, or at the end) and [Map::remove] (which in the source
    also moves the last entry; no result depends on it). *)
Definition obj_get (k : str) (o : list (str * json)) : option json := json_get k (JObject o).

Fixpoint obj_insert (k : str) (v : json) (o : list (str * json)) : list (str * json) :=
  match o with
  | [] => [(k, v)]
  | (k', v') :: o => if bool_decide (k' = k) then (k, v) :: o else (k', v') :: obj_insert k v o
  end.

Definition obj_remove (k : str) (o : list (str * json)) : list (str * json) :=
  List.filter (fun kv => negb (bool_decide (kv.1 = k))) o.

(** A model is a value whose [services] is a non-empty object. *)
Record Model := mkModel { model_value : json }.

Definition services_object (v : json) : option (list (str * json)) := json_get "services" v ≫= as_object.

Definition Model_of_value (v : json) : result compose_error Model :=
  services ← context NoServicesObject (services_object v);
  if bool_decide (length services = 0) then Err NoServices else Ok (mkModel v).

Definition Model_parse (from_str : str -> option json) (text : str) : result compose_error Model :=
  v ← context NotJson (from_str text); Model_of_value v.

Definition service_list (m : Model) : list (str * json) := default [] (services_object (model_value m)).

Definition services (m : Model) : gset (list N) := list_to_set (map fst (service_list m)).

Definition validate_model_service (m : Model) (service : str) : result compose_error unit :=
  if bool_decide (service ∈ services m) then Ok tt else Err (NoSuchComposeService service).

(** [Model::service] *)
Definition model_service (m : Model) (service : str) : result compose_error json :=
  context (NoSuchComposeService service) (obj_get service (service_list m)).

Definition has_build_section (service : json) : bool :=
  is_some_and (fun b => negb (is_null b)) (json_get "build" service).

Definition service_has_build (m : Model) (service : str) : result compose_error bool :=
  s ← model_service m service; Ok (has_build_section s).

Definition service_image_optional (m : Model) (service : str) : result compose_error (option str) :=
  s ← model_service m service; Ok (json_get "image" s ≫= as_string).

Definition service_image (m : Model) (service : str) : result compose_error str :=
  i ← service_image_optional m service; context (InvalidField service "image") i.

Definition service_user_optional (m : Model) (service : str) : result compose_error (option str) :=
  s ← model_service m service; Ok (json_get "user" s ≫= as_string).

(** The first volume that is not an object, or is a bind mount: the loop that
    [service_has_bind_mount] and [validate_remote_bind_mounts] share. *)
Fixpoint first_bind (service : str) (volumes : list json) : result compose_error (option (list (str * json))) :=
  match volumes with
  | [] => Ok None
  | v :: volumes =>
      o ← context (InvalidField service "volumes") (as_object v);
      if bool_decide ((obj_get "type" o ≫= as_string) = Some (lit "bind")) then Ok (Some o)
      else first_bind service volumes
  end.

Definition service_bind (service : str) (s : json) : result compose_error (option (list (str * json))) :=
  match json_get "volumes" s with
  | None => Ok None
  | Some volumes => l ← context (InvalidField service "volumes") (as_array volumes); first_bind service l
  end.

Definition service_has_bind_mount (m : Model) (service : str) : result compose_error bool :=
  s ← model_service m service;
  b ← service_bind service s;
  Ok (bool_decide (is_Some b)).

Fixpoint check_remote_binds (svcs : list (str * json)) : result compose_error unit :=
  match svcs with
  | [] => Ok tt
  | (name, s) :: svcs =>
      b ← service_bind name s;
      match b with
      | Some o => Err (InvalidField name (default (lit "<unknown>") (obj_get "source" o ≫= as_string)))
      | None => check_remote_binds svcs
      end
  end.

Definition validate_remote_bind_mounts (m : Model) : result compose_error unit := check_remote_binds (service_list m).

Definition published_port_services (m : Model) : list str :=
  map fst (List.filter (fun kv => is_some_and (fun l => negb (bool_decide (length l = 0)))
                                    (json_get "ports" kv.2 ≫= as_array)) (service_list m)).

(** ** Changing the model *)

Definition label_resource (creation : str) (kv : str * json) : result compose_error (str * json) :=
  o ← context (InvalidResource kv.1) (as_object kv.2);
  if bool_decide ((obj_get "external" o ≫= as_bool) = Some true) then Ok kv
  else
    labels ← context (InvalidResource kv.1) (as_object (default (JObject []) (obj_get "labels" o)));
    Ok (kv.1, JObject (obj_insert "labels" (JObject (obj_insert LABEL_CREATION (JString creation) labels)) o)).

Definition label_kind (creation kind : str) (value : list (str * json)) : result compose_error (list (str * json)) :=
  match obj_get kind value with
  | None => Ok value
  | Some resources =>
      o ← context (InvalidResource kind) (as_object resources);
      o ← mapM (label_resource creation) o;
      Ok (obj_insert kind (JObject o) value)
  end.

Definition label_creation (m : Model) (creation : str) : result compose_error Model :=
  match model_value m with
  | JObject value =>
      value ← label_kind creation "services" value;
      value ← label_kind creation "networks" value;
      Ok (mkModel (JObject value))
  | _ => Ok m
  end.

Definition set_built_service_image (m : Model) (service image : str) : result compose_error Model :=
  match model_value m with
  | JObject value =>
      svcs ← context (InvalidField service "object") (obj_get "services" value ≫= as_object);
      s ← context (InvalidField service "object") (obj_get service svcs ≫= as_object);
      let s := obj_insert "pull_policy" (JString "never") (obj_remove "build" (obj_insert "image" (JString image) s)) in
      Ok (mkModel (JObject (obj_insert "services" (JObject (obj_insert service (JObject s) svcs)) value)))
  | _ => Err (InvalidField service "object")
  end.

(** ** Services started with a selection *)

Definition strings_of (service field : str) (l : list json) : result compose_error (list str) :=
  mapM (fun j => context (InvalidField service field) (as_string j)) l.

Definition depends_on (service : str) (s : list (str * json)) : result compose_error (list str) :=
  match obj_get "depends_on" s with
  | None | Some JNull => Ok []
  | Some (JObject o) => Ok (map fst o)
  | Some (JArray l) => strings_of service "depends_on" l
  | Some _ => Err (InvalidField service "depends_on")
  end.

(** The part of a reference before the first colon. *)
Definition reference_service (r : str) : str := default r (head (split c_colon r)).

Definition references (service : str) (field : string) (s : list (str * json)) : result compose_error (list str) :=
  match obj_get field s with
  | None | Some JNull => Ok []
  | Some (JArray l) =>
      rs ← strings_of service field l;
      Ok (map reference_service
            (List.filter (fun r => negb (bool_decide (field = "volumes_from"%string) && starts_with "container:" r)) rs))
  | Some _ => Err (InvalidField service field)
  end.

Definition namespace_of (service : str) (field : string) (s : list (str * json)) : result compose_error (list str) :=
  match obj_get field s with
  | None | Some JNull => Ok []
  | Some (JString r) => Ok (match strip_prefix "service:" r with Some d => [d] | None => [] end)
  | Some _ => Err (InvalidField service field)
  end.

(** What one turn of the loop pushes, in order. *)
Definition dependencies (service : str) (j : json) : result compose_error (list str) :=
  s ← context (InvalidField service "object") (as_object j);
  d ← depends_on service s;
  l ← references service "links" s;
  v ← references service "volumes_from" s;
  i ← namespace_of service "ipc" s;
  n ← namespace_of service "network_mode" s;
  p ← namespace_of service "pid" s;
  Ok (d ++ l ++ v ++ i ++ n ++ p).

(** The loop; [pending] is the stack with its top first. *)
Fixpoint start_loop (fuel : nat) (m : Model) (pending : list str) (started : gset (list N))
    : run (result compose_error (gset (list N))) :=
  match fuel with
  | O => Unfinished
  | S fuel =>
      match pending with
      | [] => Returned (Ok started)
      | service :: pending =>
          match validate_model_service m service with
          | Err e => Returned (Err e)
          | Ok _ =>
              if bool_decide (service ∈ started) then start_loop fuel m pending started
              else
                match model_service m service ≫= dependencies service with
                | Err e => Returned (Err e)
                | Ok deps => start_loop fuel m (reverse deps ++ pending) ({[service]} ∪ started)
                end
          end
      end
  end.

(** The number of dependencies of a service. *)
Definition dependency_count (m : Model) (service : str) : nat :=
  match model_service m service ≫= dependencies service with Ok deps => length deps | Err _ => 0 end.

Definition start_fuel (m : Model) (selected : list str) : nat :=
  S (length selected + sum_list_with (dependency_count m) (elements (services m))).

Definition services_started_with (m : Model) (selected : list str) : run (result compose_error (gset (list N))) :=
  start_loop (start_fuel m selected) m (reverse selected) ∅.

(** ** Selection *)

Definition selected_services (dc : DevContainer) (agent_service : str) : list str :=
  match dc_run_services dc with
  | None => []
  | Some run_services =>
      if existsb (fun s => bool_decide (s = agent_service)) run_services then run_services
      else run_services ++ [agent_service]
  end.

Fixpoint validate_all (m : Model) (selected : list str) : result compose_error unit :=
  match selected with
  | [] => Ok tt
  | s :: selected => _ ← validate_model_service m s; validate_all m selected
  end.

Definition validate_selected_services (m : Model) (agent_service : str) (selected : list str) : result compose_error unit :=
  _ ← validate_model_service m agent_service; validate_all m selected.

Definition validate_architecture (arch : str) : result compose_error str :=
  if bool_decide (arch = lit "amd64") || bool_decide (arch = lit "arm64") then Ok arch
  else Err (UnsupportedArchitecture arch).

(** [docker_command]: which engine may run a compose project. *)
Definition compose_engine (h : Host) : run (result compose_error unit) :=
  match container_engine h with
  | Some Docker => Returned (Ok tt)
  | Some Podman => Returned (Err (WrongEngine "Podman"))
  | Some Auto => Panicked
  | None => Returned (Err (WrongEngine "Kubernetes"))
  end.

(** [service_containers] and [one_service_container] on the output of [docker compose ps]. *)
Definition containers_of (stdout : str) : list str :=
  List.filter (fun l => negb (bool_decide (l = []))) (map trim (lines stdout)).

Definition one_container (service : str) (containers : list str) : result compose_error str :=
  match containers with
  | [c] => Ok c
  | [] => Err (NoContainer service)
  | _ => Err (ManyContainers service (length containers))
  end.

(** ** The fingerprint of the build *)

(** [(n as u64).to_le_bytes()] *)
Fixpoint le_bytes (k : nat) (n : N) : list N :=
  match k with O => [] | S k => (n mod 256)%N :: le_bytes k (n / 256)%N end.
Definition le64 (n : nat) : list N := le_bytes 8 (N.of_nat n).

(** Byte strings of the source, [b"..."]. *)
Definition framed (bs : list N) : list N := le64 (length bs) ++ bs.

Fixpoint insert_key {A} (kv : str * A) (l : list (str * A)) : list (str * A) :=
  match l with
  | [] => [kv]
  | kv' :: l' => if str_le kv.1 kv'.1 then kv :: l else kv' :: insert_key kv l'
  end.
Fixpoint sort_keys {A} (l : list (str * A)) : list (str * A) :=
  match l with [] => [] | kv :: l => insert_key kv (sort_keys l) end.

Definition show_Z (n : Z) : str := if bool_decide (n < 0)%Z then c_hyphen :: show (Z.to_N (- n)) else show (Z.to_N n).

Definition hash_string (s : str) : list N := lit "string" ++ framed (as_bytes s).

(** The bytes [hash_json_value] feeds to the hasher. *)
Fixpoint hash_json_value (v : json) : list N :=
  match v with
  | JNull => lit "null"
  | JBool b => lit "bool" ++ [if b then 1%N else 0%N]
  | JNumber n => lit "number" ++ framed (as_bytes (show_Z n))
  | JString s => hash_string s
  | JArray l => lit "array" ++ le64 (length l) ++ concat (map hash_json_value l)
  | JObject o =>
      lit "object" ++ le64 (length o)
      ++ concat (map (fun kb => hash_string kb.1 ++ kb.2)
                   (sort_keys (map (fun kv => (kv.1, hash_json_value kv.2)) o)))
  end.

(** *** Sets of paths: [BTreeSet<PathBuf>] compares components *)

Fixpoint comps_le (a b : list str) : bool :=
  match a, b with
  | [], _ => true
  | _ :: _, [] => false
  | x :: a, y :: b => if bool_decide (x = y) then comps_le a b else str_le x y
  end.

Fixpoint path_insert (p : str) (l : list str) : list str :=
  match l with
  | [] => [p]
  | q :: l' =>
      let cp := Executor.path_components p in
      let cq := Executor.path_components q in
      if bool_decide (cp = cq) then l
      else if comps_le cp cq then p :: l else q :: path_insert p l'
  end.

Definition BUILD_CACHE_DOMAIN : list N := lit "rumpelpod compose build cache v1".

(** The variables of the loop of [build_cache_tags]. *)
Record fingerprint := mkFingerprint {
  fp_bytes : list N;
  fp_contexts : list (list N);
  fp_dockerfiles : list (list N);
}.

Section BuildCache.
Context (lib : HashLib) (is_dir : str -> bool) (read : str -> option (list N)).
(** [image::hash_context_dir]: the bytes fed for a directory. *)
Context (hash_context_dir : str -> option (list N)).

Definition nonnull (k : string) (o : list (str * json)) : bool :=
  is_some_and (fun v => negb (is_null v)) (obj_get k o).
Definition flag_set (k : string) (o : list (str * json)) : bool :=
  bool_decide ((obj_get k o ≫= as_bool) = Some true).

Definition unresolved_args (service : str) (build : list (str * json)) : result compose_error bool :=
  match obj_get "args" build with
  | None | Some JNull => Ok false
  | Some (JObject args) => Ok (existsb (fun kv => is_null kv.2) args)
  | Some (JArray args) =>
      args ← strings_of service "args" args;
      Ok (existsb (fun a => negb (contains_char c_eq a)) args)
  | Some _ => Err (InvalidField service "args")
  end.

Definition additional_contexts (service : str) (build : list (str * json)) : result compose_error (list str) :=
  match obj_get "additional_contexts" build with
  | None | Some JNull => Ok []
  | Some (JObject entries) => strings_of service "additional_contexts" (map snd entries)
  | Some (JArray entries) =>
      mapM (fun j => entry ← context (InvalidField service "additional_contexts") (as_string j);
                     snd <$> context (InvalidField service "additional_contexts") (split_once c_eq entry)) entries
  | Some _ => Err (InvalidField service "additional_contexts")
  end.

(** Inner [None]: a context without a local digest. *)
Fixpoint add_contexts (values contexts : list str) : result compose_error (option (list str)) :=
  match values with
  | [] => Ok (Some contexts)
  | value :: values =>
      p ← local_build_context is_dir value true;
      match p with
      | Some path => add_contexts values (path_insert path contexts)
      | None => if starts_with "service:" value then add_contexts values contexts else Ok None
      end
  end.

Definition dockerfile_path (service context_path : str) (build : list (str * json))
    : result compose_error (option str) :=
  match obj_get "dockerfile_inline" build with
  | Some _ => Ok None
  | None =>
      match obj_get "dockerfile" build with
      | None => Ok (Some (path_join context_path "Dockerfile"))
      | Some v => d ← context (InvalidField service "dockerfile") (as_string v); Ok (Some (path_join context_path d))
      end
  end.

(** One service: [Ok None] is a build that is not cached. *)
Definition fingerprint_service (f : fingerprint) (service_name : str) (service : json)
    : result compose_error (option fingerprint) :=
  let build := default JNull (json_get "build" service) in
  o ← context (InvalidField service_name "build") (as_object build);
  let bytes := fp_bytes f ++ hash_string service_name ++ hash_json_value build
    ++ match json_get "platform" service with
       | Some platform => lit "service platform" ++ hash_json_value platform
       | None => []
       end in
  if nonnull "secrets" o || nonnull "ssh" o || flag_set "no_cache" o || flag_set "pull" o then Ok None
  else
    unresolved ← unresolved_args service_name o;
    if (unresolved : bool) then Ok None
    else
      ctx ← context (InvalidField service_name "context") (obj_get "context" o ≫= as_string);
      local ← local_build_context is_dir ctx false;
      match local with
      | None => Ok None
      | Some context_path =>
          dockerfile ← dockerfile_path service_name context_path o;
          values ← additional_contexts service_name o;
          contexts ← add_contexts values (path_insert context_path (fp_contexts f));
          let dockerfiles := match dockerfile with
                             | Some d => path_insert d (fp_dockerfiles f)
                             | None => fp_dockerfiles f
                             end in
          Ok (match contexts with
              | Some cs => Some (mkFingerprint bytes cs dockerfiles)
              | None => None
              end)
      end.

Fixpoint fingerprint_services (f : fingerprint) (svcs : list (str * json))
    : result compose_error (option fingerprint) :=
  match svcs with
  | [] => Ok (Some f)
  | (name, s) :: svcs =>
      r ← fingerprint_service f name s;
      match r with Some f => fingerprint_services f svcs | None => Ok None end
  end.

Definition build_services (m : Model) : list (str * json) :=
  sort_keys (List.filter (fun kv => has_build_section kv.2) (service_list m)).

(** The bytes hashed for the contexts and the Dockerfiles. *)
Fixpoint hash_contexts (contexts : list str) : result compose_error (list N) :=
  match contexts with
  | [] => Ok []
  | c :: contexts =>
      d ← context (Unreadable c) (hash_context_dir c);
      rest ← hash_contexts contexts;
      Ok (lit "context" ++ as_bytes c ++ d ++ rest)
  end.

Fixpoint hash_dockerfiles (files : list str) : result compose_error (list N) :=
  match files with
  | [] => Ok []
  | d :: files =>
      contents ← context (Unreadable d) (read d);
      rest ← hash_dockerfiles files;
      Ok (lit "dockerfile" ++ as_bytes d ++ framed contents ++ rest)
  end.

Definition service_tag (project_digest : list N) (service : str) : str :=
  lit "rumpelpod-compose-"
  ++ hex_encode lib (take 8 (sha256_digest lib (BUILD_CACHE_DOMAIN ++ project_digest ++ as_bytes service))).

Definition build_cache_tags (m : Model) : result compose_error (option (list (str * str))) :=
  f ← fingerprint_services (mkFingerprint BUILD_CACHE_DOMAIN [] []) (build_services m);
  match f with
  | None => Ok None
  | Some f =>
      cs ← hash_contexts (fp_contexts f);
      ds ← hash_dockerfiles (fp_dockerfiles f);
      let digest := sha256_digest lib (fp_bytes f ++ cs ++ ds) in
      Ok (Some (map (fun kv => (kv.1, service_tag digest kv.1)) (build_services m)))
  end.
End BuildCache.

(** ** The override file *)

Fixpoint fresh_volume (fuel : nat) (keys : gset (list N)) (index : nat) : option str :=
  match fuel with
  | O => None
  | S fuel =>
      let candidate := lit "rumpelpod_mount_" ++ show (N.of_nat index) in
      if bool_decide (candidate ∈ keys) then fresh_volume fuel keys (S index) else Some candidate
  end.

(** The logical volumes given to the named sources, in order of allocation. *)
Fixpoint allocate_mounts (sources : list str) (keys : gset (list N)) (named : list (str * str))
    : option (list (str * str)) :=
  match sources with
  | [] => Some named
  | source :: sources =>
      if existsb (fun kv => bool_decide (kv.1 = source)) named then allocate_mounts sources keys named
      else
        logical ← fresh_volume (S (size keys)) keys (length named);
        allocate_mounts sources ({[logical]} ∪ keys) (named ++ [(source, logical)])
  end.

Definition volume_sources (mounts : list MountObject) : list str :=
  omap mount_source (List.filter (fun m => bool_decide (mount_type m = Volume)) mounts).

Definition volume_keys (m : Model) : gset (list N) :=
  list_to_set (map fst (default [] (json_get "volumes" (model_value m) ≫= as_object))).

Definition named_mounts (m : Model) (mounts : list MountObject) : option (list (str * str)) :=
  allocate_mounts (volume_sources mounts) (volume_keys m) [].

Section Override.
(** [serde_json::to_string] of a string and of a list of strings. *)
Context (yaml_scalar : str -> str) (json_strings : list str -> str).

Definition line (indent : nat) (s : str) : str := replicate indent c_space ++ s ++ [c_nl].
Definition entry (indent : nat) (k v : str) : str := line indent (k ++ lit ": " ++ v).

Definition mount_lines (named : list (str * str)) (m : MountObject) : str :=
  let source := match mount_type m with
                | Volume => mount_source m ≫= fun s => snd <$> List.find (fun kv => bool_decide (kv.1 = s)) named
                | Bind | Tmpfs => mount_source m
                end in
  line 6 (lit "- type: " ++ mount_type_name (mount_type m))
  ++ match source with Some s => entry 8 "source" (yaml_scalar s) | None => [] end
  ++ entry 8 "target" (yaml_scalar (mount_target m))
  ++ (if bool_decide (mount_read_only m = Some true) then line 8 "read_only: true" else []).

Definition agent_lines (pod_name prepared_image container_repo_path : str) (dc : DevContainer)
    (mounts : list MountObject) (named : list (str * str)) : str :=
  let environment := sort_keys (map_to_list (<[lit "SSH_AUTH_SOCK" := SSH_AGENT_SOCK_PATH]> (default ∅ (dc_container_env dc)))) in
  entry 6 (yaml_scalar LABEL_DOCKER_CONTAINER_REPO_PATH) (yaml_scalar container_repo_path)
  ++ entry 6 (yaml_scalar LABEL_DOCKER_POD_NAME) (yaml_scalar pod_name)
  ++ entry 4 "image" (yaml_scalar prepared_image)
  ++ line 4 "environment:"
  ++ (environment ≫= fun kv => entry 6 (yaml_scalar kv.1) (yaml_scalar kv.2))
  ++ match user dc with Some u => entry 4 "user" (yaml_scalar u) | None => [] end
  ++ (if bool_decide (length mounts = 0) then [] else line 4 "volumes:" ++ (mounts ≫= mount_lines named))
  ++ (if bool_decide (dc_privileged dc = Some true) then line 4 "privileged: true" else [])
  ++ (if bool_decide (dc_init dc = Some true) then line 4 "init: true" else [])
  ++ match dc_cap_add dc with Some c => entry 4 "cap_add" (json_strings c) | None => [] end
  ++ match dc_security_opt dc with Some c => entry 4 "security_opt" (json_strings c) | None => [] end
  ++ (if bool_decide (dc_override_command dc = Some true)
      then line 4 "entrypoint: []" ++ line 4 (lit "command: [" ++ [c_quote] ++ lit "sleep" ++ [c_quote] ++ lit ", "
             ++ [c_quote] ++ lit "infinity" ++ [c_quote] ++ lit "]")
      else []).

Definition service_lines (agent_service repo_path : str) (agent : str) (service : str) : str :=
  line 2 (yaml_scalar service ++ [c_colon])
  ++ line 4 "ports: !reset []" ++ line 4 "container_name: !reset null"
  ++ (if bool_decide (service = agent_service) then line 4 "pull_policy: never" else [])
  ++ line 4 "labels:"
  ++ entry 6 (yaml_scalar LABEL_DOCKER_REPO_PATH) (yaml_scalar repo_path)
  ++ (if bool_decide (service = agent_service) then agent else []).

(** [None] is a logical volume that could not be allocated. *)
Definition generate_override (m : Model) (agent_service pod_name prepared_image repo_path container_repo_path : str)
    (dc : DevContainer) (mounts : list MountObject) : option str :=
  named ← named_mounts m mounts;
  let agent := agent_lines pod_name prepared_image container_repo_path dc mounts named in
  let svcs := map fst (sort_keys (map (fun s => (s, tt)) (elements (services m)))) in
  Some (line 0 "services:"
        ++ (svcs ≫= service_lines agent_service repo_path agent)
        ++ (if bool_decide (length named = 0) then []
            else line 0 "volumes:"
                 ++ (sort_keys named ≫= fun kv => line 2 (yaml_scalar kv.2 ++ [c_colon])
                                                  ++ entry 4 "name" (yaml_scalar kv.1)))).
End Override.

(** ** The services a selection starts *)

Definition service_deps (m : Model) (service : str) : result compose_error (list str) :=
  model_service m service ≫= dependencies service.

(** The selection and everything it refers to, directly or not. *)
Inductive required (m : Model) (selected : list str) : str -> Prop :=
| required_selected s : s ∈ selected -> required m selected s
| required_dependency s deps d :
    required m selected s -> service_deps m s = Ok deps -> d ∈ deps -> required m selected d.

Lemma sum_list_with_Permutation {A} (f : A -> nat) (l k : list A) : l ≡ₚ k -> sum_list_with f l = sum_list_with f k.
Proof. induction 1; cbn; lia. Qed.

Lemma sum_elements_insert (f : str -> nat) (x : str) (X : gset (list N)) : x ∉ X ->
  sum_list_with f (elements ({[x]} ∪ X)) = f x + sum_list_with f (elements X).
Proof. intros H. by rewrite (sum_list_with_Permutation f _ _ (elements_union_singleton X x H)). Qed.

(** The dependencies of the services that are not started yet. *)
Definition waiting (m : Model) (started : gset (list N)) : nat :=
  sum_list_with (dependency_count m) (elements (services m ∖ started)).

Lemma waiting_start m s started : s ∈ services m -> s ∉ started ->
  waiting m started = dependency_count m s + waiting m ({[s]} ∪ started).
Proof.
  intros Hs Hn. unfold waiting.
  rewrite <- (sum_elements_insert (dependency_count m) s) by set_solver. do 2 f_equal.
  apply set_eq. intros x. destruct (decide (x = s)) as [->|]; set_solver.
Qed.

Record start_inv (m : Model) (selected pending : list str) (started : gset (list N)) : Prop := {
  start_sound x : x ∈ pending \/ x ∈ started -> required m selected x;
  start_selected x : x ∈ selected -> x ∈ pending \/ x ∈ started;
  start_closed x deps d : x ∈ started -> service_deps m x = Ok deps -> d ∈ deps -> d ∈ pending \/ d ∈ started;
}.

Lemma start_loop_spec m selected fuel : forall pending started,
  start_inv m selected pending started ->
  length pending + waiting m started < fuel ->
  exists r, start_loop fuel m pending started = Returned r /\
    match r with
    | Ok started' => forall s, s ∈ started' <-> required m selected s
    | Err e => exists s, required m selected s /\ (validate_model_service m s = Err e \/ service_deps m s = Err e)
    end.
Proof.
  induction fuel as [|fuel IH]; intros pending started Hinv Hf; [lia|]. cbn [start_loop].
  destruct pending as [|s pending].
  - eexists. split; [done|]. intros s. split; [intros Hs; apply (start_sound _ _ _ _ Hinv); auto|].
    induction 1 as [s Hs|s deps d _ IHs Hd Hin].
    + destruct (start_selected _ _ _ _ Hinv s Hs) as [?%not_elem_of_nil|]; done.
    + destruct (start_closed _ _ _ _ Hinv s deps d IHs Hd Hin) as [?%not_elem_of_nil|]; done.
  - assert (required m selected s) as Hreq by (apply (start_sound _ _ _ _ Hinv); left; by left).
    destruct (validate_model_service m s) as [[]|e] eqn:Ev; [|by eexists; split; [done|exists s; auto]].
    unfold validate_model_service in Ev. case_bool_decide as Hin; [|done]. cbn [length] in Hf.
    case_bool_decide as Hst.
    + apply IH; [|lia]. split.
      * intros x [Hx|Hx]; apply (start_sound _ _ _ _ Hinv); [left; by right|by right].
      * intros x Hx. destruct (start_selected _ _ _ _ Hinv x Hx) as [[->|?]%elem_of_cons|?]; auto.
      * intros x deps d Hx Hd Hdd.
        destruct (start_closed _ _ _ _ Hinv x deps d Hx Hd Hdd) as [[->|?]%elem_of_cons|?]; auto.
    + fold (service_deps m s). destruct (service_deps m s) as [deps|e] eqn:Ed.
      2:{ eexists. split; [done|]. exists s. auto. }
      apply IH.
      * split.
        -- intros x [[Hx|Hx]%elem_of_app|[->%elem_of_singleton|Hx]%elem_of_union]; [|by apply (start_sound _ _ _ _ Hinv); left; right|done|by apply (start_sound _ _ _ _ Hinv); right].
           eapply required_dependency; [exact Hreq|exact Ed|by apply elem_of_reverse].
        -- intros x Hx. destruct (start_selected _ _ _ _ Hinv x Hx) as [[->|?]%elem_of_cons|?]; set_solver.
        -- intros x deps' d [->%elem_of_singleton|Hx]%elem_of_union Hd Hdd.
           ++ left. rewrite Ed in Hd. injection Hd as <-. apply elem_of_app. left. by apply elem_of_reverse.
           ++ destruct (start_closed _ _ _ _ Hinv x deps' d Hx Hd Hdd) as [[->|?]%elem_of_cons|?]; set_solver.
      * rewrite length_app, length_reverse. rewrite (waiting_start m s started) in Hf by done.
        assert (dependency_count m s = length deps) as Hc.
        { unfold dependency_count. change (model_service m s ≫= dependencies s) with (service_deps m s). by rewrite Ed. }
        lia.
Qed.

(** [C10] Computing the services a selection starts always ends, cycles of dependencies
    included, and the answer is exactly the selection with everything it requires through
    [depends_on], [links], [volumes_from] and shared namespaces; an error is the error of one
    of those services, missing or malformed. *)
Theorem services_started_closure m selected :
  exists r, services_started_with m selected = Returned r /\
    match r with
    | Ok started => forall s, s ∈ started <-> required m selected s
    | Err e => exists s, required m selected s /\ (validate_model_service m s = Err e \/ service_deps m s = Err e)
    end.
Proof.
  unfold services_started_with. apply start_loop_spec.
  - split.
    + intros x [Hx|?%elem_of_empty]; [|done]. rewrite elem_of_reverse in Hx. by apply required_selected.
    + intros x Hx. left. by apply elem_of_reverse.
    + intros x deps d ?%elem_of_empty. done.
  - unfold start_fuel, waiting. rewrite length_reverse.
    replace (services m ∖ ∅) with (services m) by set_solver. lia.
Qed.

(** ** Logical volumes *)

Definition candidate (i : nat) : str := lit "rumpelpod_mount_" ++ show (N.of_nat i).

Lemma candidate_inj i j : candidate i = candidate j -> i = j.
Proof. intros H%app_inv_head%show_inj. lia. Qed.

Lemma fresh_volume_None fuel keys : forall i, fresh_volume fuel keys i = None ->
  forall j, i <= j < i + fuel -> candidate j ∈ keys.
Proof.
  induction fuel as [|fuel IH]; intros i; cbn [fresh_volume]; [lia|].
  change (lit "rumpelpod_mount_" ++ show (N.of_nat i)) with (candidate i).
  case_bool_decide as Hin; [|done]. intros H j Hj.
  destruct (decide (j = i)) as [->|]; [done|]. apply (IH (S i)); [done|lia].
Qed.

Lemma fresh_volume_Some fuel keys i v : fresh_volume fuel keys i = Some v -> v ∉ keys.
Proof. revert i. induction fuel as [|fuel IH]; intros i; cbn; [done|]. case_bool_decide; [apply IH|by intros [= <-]]. Qed.

(** More candidates than keys: one is free. *)
Lemma fresh_volume_total keys i : exists v, fresh_volume (S (size keys)) keys i = Some v /\ v ∉ keys.
Proof.
  destruct (fresh_volume (S (size keys)) keys i) as [v|] eqn:E; [by exists v; eauto using fresh_volume_Some|].
  exfalso. pose proof (fresh_volume_None _ _ _ E) as Hall.
  set (cs := map candidate (seq i (S (size keys)))).
  assert (size (list_to_set cs : gset (list N)) = S (size keys)) as Hsize.
  { rewrite size_list_to_set; [unfold cs; by rewrite length_map, length_seq|].
    unfold cs. apply NoDup_fmap_2; [intros a b; apply candidate_inj|apply NoDup_seq]. }
  assert ((list_to_set cs : gset (list N)) ⊆ keys) as Hsub.
  { intros x Hx. apply elem_of_list_to_set, list_elem_of_fmap in Hx as (j & -> & Hj%elem_of_seq).
    apply Hall. lia. }
  apply subseteq_size in Hsub. lia.
Qed.

Record mounts_inv (keys0 keys : gset (list N)) (named : list (str * str)) : Prop := {
  mi_keys : keys = keys0 ∪ list_to_set (map snd named);
  mi_fresh : Forall (fun n => n ∉ keys0) (map snd named);
  mi_names : NoDup (map snd named);
  mi_sources : NoDup (map fst named);
}.

Lemma mounts_inv_add keys0 keys named source v :
  mounts_inv keys0 keys named -> source ∉ map fst named -> v ∉ keys ->
  mounts_inv keys0 ({[v]} ∪ keys) (named ++ [(source, v)]).
Proof.
  intros [Hk Hf Hn Hs] Hsrc Hv. rewrite Hk in Hv. split; rewrite ?map_app; cbn [map].
  - rewrite list_to_set_app_L, Hk. cbn [list_to_set]. set_solver.
  - apply Forall_app. split; [done|]. constructor; [set_solver|done].
  - apply NoDup_app. split_and!; [done| |apply NoDup_singleton].
    intros x Hx ->%list_elem_of_singleton. apply Hv. apply elem_of_union_r. by apply elem_of_list_to_set.
  - apply NoDup_app. split_and!; [done| |apply NoDup_singleton].
    intros x Hx ->%list_elem_of_singleton. done.
Qed.

Lemma allocate_mounts_spec keys0 sources : forall keys named,
  mounts_inv keys0 keys named ->
  exists named' keys', allocate_mounts sources keys named = Some named' /\ mounts_inv keys0 keys' named' /\
    (forall s, s ∈ map fst named' <-> s ∈ sources \/ s ∈ map fst named).
Proof.
  induction sources as [|source sources IH]; intros keys named Hinv; cbn [allocate_mounts].
  - exists named, keys. split_and!; [done..|]. intros s. split; [auto|]. by intros [?%not_elem_of_nil|].
  - destruct (existsb _ named) eqn:E.
    + apply existsb_eq_map in E. destruct (IH _ _ Hinv) as (n & k & -> & Hi & Hm).
      exists n, k. split_and!; [done..|]. intros s. rewrite Hm, elem_of_cons. naive_solver.
    + assert (source ∉ map fst named) as Hsrc.
      { intros Hin. apply existsb_eq_map in Hin. congruence. }
      destruct (fresh_volume_total keys (length named)) as (v & -> & Hv). cbn [mbind option_bind].
      destruct (IH _ _ (mounts_inv_add _ _ _ source v Hinv Hsrc Hv)) as (n & k & -> & Hi & Hm).
      exists n, k. split_and!; [done..|]. intros s. rewrite Hm, map_app, elem_of_app, elem_of_cons. cbn.
      rewrite list_elem_of_singleton. naive_solver.
Qed.

(** The override gives every named volume of the configuration its own logical volume:
    the search for a free name always ends, the names differ from each other and from the
    volumes the project already has, and exactly the sources of volume mounts get one. *)
Theorem logical_volumes_distinct m mounts :
  exists named, named_mounts m mounts = Some named /\
    NoDup (map fst named) /\ NoDup (map snd named) /\
    Forall (fun n => n ∉ volume_keys m) (map snd named) /\
    (forall s, s ∈ map fst named <-> s ∈ volume_sources mounts).
Proof.
  unfold named_mounts.
  destruct (allocate_mounts_spec (volume_keys m) (volume_sources mounts) (volume_keys m) [])
    as (named & keys & -> & [_ Hf Hn Hs] & Hm).
  { split; cbn; [by rewrite union_empty_r_L|constructor|constructor|constructor]. }
  exists named. split_and!; try done. intros s. rewrite Hm. split; [|auto]. by intros [|?%not_elem_of_nil].
Qed.

(** ** Creation labels *)

Lemma obj_get_cons k k' v o : obj_get k ((k', v) :: o) = if bool_decide (k' = k) then Some v else obj_get k o.
Proof. unfold obj_get. cbn [json_get List.find fst]. by case_bool_decide. Qed.

Lemma obj_get_insert k v o : obj_get k (obj_insert k v o) = Some v.
Proof.
  unfold obj_get, json_get. induction o as [|[k' v'] o IH]; cbn; [by rewrite bool_decide_true|].
  destruct (decide (k' = k)) as [->|Hk]; [rewrite bool_decide_true by done; cbn; by rewrite bool_decide_true|].
  rewrite bool_decide_false by done. cbn. by rewrite bool_decide_false.
Qed.

Lemma obj_get_insert_ne k k' v o : k <> k' -> obj_get k (obj_insert k' v o) = obj_get k o.
Proof.
  intros Hne. unfold obj_get, json_get. induction o as [|[k1 v1] o IH]; cbn.
  - by rewrite bool_decide_false.
  - destruct (decide (k1 = k')) as [->|Hk].
    + rewrite (bool_decide_true (k' = k')) by done. cbn. by rewrite bool_decide_false.
    + rewrite (bool_decide_false (k1 = k')) by done. cbn. case_bool_decide; done.
Qed.

(** A resource with the creation label, or an external one. *)
Definition labelled (creation : str) (r : json) : Prop :=
  json_get "external" r = Some (JBool true) \/
  (json_get "labels" r ≫= json_get LABEL_CREATION) = Some (JString creation).

Lemma label_resource_spec creation kv kv' : label_resource creation kv = Ok kv' ->
  kv'.1 = kv.1 /\ labelled creation kv'.2.
Proof.
  unfold label_resource. destruct kv as [k v]. cbn [fst snd]. destruct (as_object v) as [o|] eqn:Eo; [|done].
  cbn [context mbind result_bind]. destruct v; try done. cbn in Eo. injection Eo as ->.
  case_bool_decide as Hx.
  - intros [= <-]. split; [done|]. left. cbn [snd].
    change (json_get "external" (JObject o)) with (obj_get "external" o).
    destruct (obj_get "external" o) as [[]|]; cbn in Hx; congruence.
  - destruct (as_object _) as [labels|] eqn:El; [|done]. cbn [context mbind result_bind]. intros [= <-].
    split; [done|]. right. cbn [snd].
    change (json_get "labels" (JObject ?x)) with (obj_get "labels" x). rewrite obj_get_insert. cbn [mbind option_bind].
    change (json_get LABEL_CREATION (JObject ?x)) with (obj_get LABEL_CREATION x). apply obj_get_insert.
Qed.

Lemma mapM_Ok {Er A B} (f : A -> result Er B) l k : mapM f l = Ok k -> Forall2 (fun x y => f x = Ok y) l k.
Proof.
  revert k. induction l as [|x l IH]; intros k; cbn; [by intros [= <-]|].
  destruct (f x) as [y|] eqn:E; cbn; [|done]. destruct (mapM f l) as [ys|]; cbn; [|done].
  intros [= <-]. constructor; auto.
Qed.

Definition resources_labelled (creation kind : str) (value : list (str * json)) : Prop :=
  forall r, obj_get kind value = Some r -> exists o, r = JObject o /\ Forall (fun kv => labelled creation kv.2) o.

Definition resource_names (kind : str) (value : list (str * json)) : option (list str) :=
  (fun o => map fst o) <$> (obj_get kind value ≫= as_object).

Lemma label_kind_spec creation kind value value' : label_kind creation kind value = Ok value' ->
  resources_labelled creation kind value' /\
  resource_names kind value' = resource_names kind value /\
  forall k, k <> kind -> obj_get k value' = obj_get k value.
Proof.
  unfold label_kind, resources_labelled, resource_names. destruct (obj_get kind value) as [r|] eqn:Er.
  - destruct (as_object r) as [o|] eqn:Eo; [|done]. cbn [context mbind result_bind].
    destruct (mapM _ o) as [o'|] eqn:Em; [|done]. cbn [mbind result_bind]. intros [= <-].
    apply mapM_Ok in Em. rewrite obj_get_insert. cbn [mbind option_bind as_object]. rewrite Eo. split_and!.
    + intros r' [= <-]. exists o'. split; [done|]. clear Eo Er.
      induction Em as [|kv kv' o o' Hkv _ IH]; [done|]. constructor; [by eapply label_resource_spec|]. done.
    + cbn. f_equal. clear Eo Er. induction Em as [|kv kv' o o' Hkv _ IH]; [done|]. cbn.
      apply label_resource_spec in Hkv as [-> _]. by rewrite IH.
    + intros k Hk. by apply obj_get_insert_ne.
  - intros [= <-]. rewrite Er. done.
Qed.

(** Everything a project creates for a pod can be found again: labelling keeps the services
    and networks by name, gives each that is not external the label of the creation, and
    leaves every other part of the model, volumes included, as it is. *)
Theorem creation_labels_everything m creation value :
  model_value m = JObject value ->
  match label_creation m creation with
  | Err _ => True
  | Ok m' => exists value', model_value m' = JObject value' /\
      resources_labelled creation "services" value' /\ resources_labelled creation "networks" value' /\
      resource_names "services" value' = resource_names "services" value /\
      resource_names "networks" value' = resource_names "networks" value /\
      services m' = services m /\
      forall k, k <> lit "services" -> k <> lit "networks" -> obj_get k value' = obj_get k value
  end.
Proof.
  intros Hm. unfold label_creation. rewrite Hm.
  destruct (label_kind creation "services" value) as [v1|] eqn:E1; [|done]. cbn [mbind result_bind].
  destruct (label_kind creation "networks" v1) as [v2|] eqn:E2; [|done]. cbn [mbind result_bind].
  apply label_kind_spec in E1 as (Hl1 & Hn1 & Ho1). apply label_kind_spec in E2 as (Hl2 & Hn2 & Ho2).
  assert (lit "services" <> lit "networks") as Hne by (by vm_compute).
  assert (lit "networks" <> lit "services") as Hne' by (by vm_compute).
  assert (obj_get "services" v2 = obj_get "services" v1) as Hs by (by apply Ho2).
  assert (obj_get "networks" v1 = obj_get "networks" value) as Hnw by (by apply Ho1).
  exists v2. split; [done|]. split; [intros r; rewrite Hs; apply Hl1|]. split; [done|].
  split; [unfold resource_names in *; by rewrite Hs|]. split; [unfold resource_names in *; by rewrite Hn2, Hnw|].
  split; [|intros k Hk1 Hk2; by rewrite Ho2, Ho1].
  unfold services, service_list, services_object. cbn [model_value]. rewrite Hm.
  change (json_get "services" (JObject ?x)) with (obj_get "services" x).
  unfold resource_names in Hn1. rewrite Hs. cbn [mbind option_bind].
  destruct (obj_get "services" v1 ≫= as_object) as [a|], (obj_get "services" value ≫= as_object) as [b|];
    cbn in Hn1 |- *; simplify_eq; [by rewrite Hn1|done].
Qed.

Lemma creation_labels_everything_witness :
  let value := [(lit "services", JObject [(lit "app", JObject [(lit "image", JString "i")])]);
                (lit "networks", JObject [(lit "ext", JObject [(lit "external", JBool true)])]);
                (lit "volumes", JObject [(lit "v", JObject [])])] in
  exists m', label_creation (mkModel (JObject value)) "c1" = Ok m' /\
    services m' = services (mkModel (JObject value)) /\
    json_get "volumes" (model_value m') = json_get "volumes" (JObject value).
Proof.
  intros value.
  pose proof (creation_labels_everything (mkModel (JObject value)) "c1" value eq_refl) as H.
  destruct (label_creation (mkModel (JObject value)) "c1") as [m'|e] eqn:E;
    [|exfalso; vm_compute in E; discriminate].
  destruct H as (value' & Hv & _ & _ & _ & _ & Hs & Ho). exists m'. split; [reflexivity|]. split; [exact Hs|].
  rewrite Hv. apply Ho; vm_compute; discriminate.
Defined.

(** ** The fingerprint tells configurations apart *)

Lemma length_le_bytes k n : length (le_bytes k n) = k.
Proof. revert n. induction k as [|k IH]; intros n; cbn; [done|]. by rewrite IH. Qed.

Lemma le_bytes_inj k : forall n m, (n < 256 ^ N.of_nat k)%N -> (m < 256 ^ N.of_nat k)%N ->
  le_bytes k n = le_bytes k m -> n = m.
Proof.
  induction k as [|k IH]; intros n m Hn Hm H.
  - cbn in Hn, Hm. lia.
  - cbn [le_bytes] in H.
    assert (n mod 256 = m mod 256 /\ le_bytes k (n / 256) = le_bytes k (m / 256))%N as [H0 H']
      by (split; [exact (f_equal (fun l => default 0%N (head l)) H)|exact (f_equal (@tail N) H)]). clear H.
    rewrite Nat2N.inj_succ, N.pow_succ_r' in Hn, Hm.
    assert (n / 256 = m / 256)%N as Hd.
    { apply IH; [apply N.Div0.div_lt_upper_bound; lia..|done]. }
    rewrite (N.div_mod' n 256), (N.div_mod' m 256). by rewrite H0, Hd.
Qed.

(** A length that a [u64] holds. *)
Definition fits {A} (l : list A) : Prop := (N.of_nat (length l) < 2 ^ 64)%N.

Lemma le64_inj {A B} (a : list A) (b : list B) (r1 r2 : list N) : fits a -> fits b ->
  le64 (length a) ++ r1 = le64 (length b) ++ r2 -> length a = length b /\ r1 = r2.
Proof.
  intros Ha Hb H. apply app_inj_1 in H as [H ->]; [|by unfold le64; rewrite !length_le_bytes].
  split; [|done]. apply le_bytes_inj in H; [lia| |]; done.
Qed.

Lemma framed_inj a b r1 r2 : fits a -> fits b -> framed a ++ r1 = framed b ++ r2 -> a = b /\ r1 = r2.
Proof.
  intros Ha Hb. unfold framed. rewrite <- !app_assoc. intros H.
  apply le64_inj in H as [Hl H]; [|done..]. by apply app_inj_1 in H.
Qed.

Definition scalars (s : str) : Prop := Forall (fun c => is_scalar c = true) s.

Lemma as_bytes_inj s t : scalars s -> scalars t -> as_bytes s = as_bytes t -> s = t.
Proof.
  intros Hs Ht H. pose proof (from_utf8_as_bytes s Hs) as E. rewrite H, from_utf8_as_bytes in E by done.
  by injection E.
Qed.

(** What a JSON text can hold: strings of Unicode scalar values, lengths within [u64]. *)
Definition string_ok (s : str) : Prop := scalars s /\ fits (as_bytes s).

Fixpoint encodable (v : json) : Prop :=
  match v with
  | JNull | JBool _ => True
  | JNumber n => fits (as_bytes (show_Z n))
  | JString s => string_ok s
  | JArray l => fits l /\ (fix all l := match l with [] => True | x :: l => encodable x /\ all l end) l
  | JObject o => fits o /\ (fix all (o : list (str * json)) :=
                              match o with [] => True | (k, x) :: o => string_ok k /\ encodable x /\ all o end) o
  end.

(** Objects up to the order of their keys. *)
Fixpoint canonical (v : json) : json :=
  match v with
  | JArray l => JArray (map canonical l)
  | JObject o => JObject (sort_keys (map (fun kv => (kv.1, canonical kv.2)) o))
  | _ => v
  end.

(** Induction through the lists of a JSON value. *)
Lemma json_nested_ind (P : json -> Prop) :
  P JNull -> (forall b, P (JBool b)) -> (forall n, P (JNumber n)) -> (forall s, P (JString s)) ->
  (forall l, Forall P l -> P (JArray l)) -> (forall o, Forall (fun kv => P kv.2) o -> P (JObject o)) ->
  forall v, P v.
Proof.
  intros Hnull Hbool Hnum Hstr Harr Hobj. fix IH 1.
  intros [|b|n|s|l|o]; [exact Hnull|exact (Hbool b)|exact (Hnum n)|exact (Hstr s)| |].
  - apply Harr. induction l as [|x l IHl]; constructor; [apply IH|exact IHl].
  - apply Hobj. induction o as [|[k x] o IHo]; constructor; [apply IH|exact IHo].
Qed.

Lemma show_Z_inj a b : show_Z a = show_Z b -> a = b.
Proof.
  assert (forall n m, c_hyphen :: show n <> show m) as Hne.
  { intros n m H. pose proof (show_digits m) as Hd. rewrite <- H in Hd.
    apply Forall_cons in Hd as [Hd _]. by vm_compute in Hd. }
  unfold show_Z. repeat case_bool_decide; intros E.
  - injection E as E%show_inj. lia.
  - by apply Hne in E.
  - symmetry in E. by apply Hne in E.
  - apply show_inj in E. lia.
Qed.

Lemma show_Z_ascii n : scalars (show_Z n).
Proof.
  assert (forall m, scalars (show m)) as H.
  { intros m. eapply Forall_impl; [exact (show_digits m)|]. intros c Hc.
    unfold is_ascii_digit in Hc. rewrite in_range_true in Hc. unfold is_scalar.
    apply orb_true_iff. left. apply in_range_true. lia. }
  unfold show_Z. case_bool_decide; [constructor; [done|apply H]|apply H].
Qed.

Lemma hash_string_inj s t r1 r2 : string_ok s -> string_ok t ->
  hash_string s ++ r1 = hash_string t ++ r2 -> s = t /\ r1 = r2.
Proof.
  intros [Hs1 Hs2] [Ht1 Ht2]. unfold hash_string. rewrite <- !app_assoc. intros H%app_inv_head.
  apply framed_inj in H as [H ->]; [|done..]. split; [by apply as_bytes_inj|done].
Qed.

(** Sorting by key does not look at the values. *)
Lemma insert_key_map {A B} (f : A -> B) k a l :
  insert_key (k, f a) (map (fun kv => (kv.1, f kv.2)) l) = map (fun kv => (kv.1, f kv.2)) (insert_key (k, a) l).
Proof. induction l as [|[k' a'] l IH]; cbn; [done|]. case_match; [done|]. cbn. by rewrite IH. Qed.

Lemma sort_keys_map {A B} (f : A -> B) (l : list (str * A)) :
  sort_keys (map (fun kv => (kv.1, f kv.2)) l) = map (fun kv => (kv.1, f kv.2)) (sort_keys l).
Proof. induction l as [|[k a] l IH]; cbn; [done|]. rewrite IH. apply insert_key_map. Qed.

Lemma insert_key_perm {A} (kv : str * A) l : insert_key kv l ≡ₚ kv :: l.
Proof. induction l as [|kv' l IH]; cbn; [done|]. case_match; [done|]. rewrite IH. constructor. Qed.

Lemma sort_keys_perm {A} (l : list (str * A)) : sort_keys l ≡ₚ l.
Proof. induction l as [|kv l IH]; cbn; [done|]. by rewrite insert_key_perm, IH. Qed.

(** The value is determined by the bytes in front of anything else. *)
Definition determined (v : json) : Prop := encodable v -> forall w r1 r2, encodable w ->
  hash_json_value v ++ r1 = hash_json_value w ++ r2 -> canonical v = canonical w /\ r1 = r2.

Lemma encodable_all l : (fix all l := match l with [] => True | x :: l => encodable x /\ all l end) l <-> Forall encodable l.
Proof. induction l as [|x l IH]; [by split|]. by rewrite IH, Forall_cons. Qed.

Lemma encodable_fields o :
  (fix all (o : list (str * json)) := match o with [] => True | (k, x) :: o => string_ok k /\ encodable x /\ all o end) o
  <-> Forall (fun kv => string_ok kv.1 /\ encodable kv.2) o.
Proof. induction o as [|[k x] o IH]; [by split|]. rewrite IH, Forall_cons. cbn. tauto. Qed.

Lemma array_determined l : Forall determined l -> forall k r1 r2,
  Forall encodable l -> Forall encodable k -> length l = length k ->
  concat (map hash_json_value l) ++ r1 = concat (map hash_json_value k) ++ r2 ->
  map canonical l = map canonical k /\ r1 = r2.
Proof.
  induction 1 as [|x l Hx _ IH]; intros [|y k] r1 r2 Hl Hk Hlen; try done.
  cbn [map concat]. rewrite <- !app_assoc. intros H.
  apply Forall_cons in Hl as [Hxe Hl]. apply Forall_cons in Hk as [Hye Hk].
  apply Hx in H as [-> H]; [|done..]. injection Hlen as Hlen. by apply IH in H as [-> ->].
Qed.

Lemma object_determined o : Forall (fun kv => determined kv.2) o -> forall p r1 r2,
  Forall (fun kv => string_ok kv.1 /\ encodable kv.2) o -> Forall (fun kv => string_ok kv.1 /\ encodable kv.2) p ->
  length o = length p ->
  concat (map (fun kv => hash_string kv.1 ++ hash_json_value kv.2) o) ++ r1 =
  concat (map (fun kv => hash_string kv.1 ++ hash_json_value kv.2) p) ++ r2 ->
  map (fun kv => (kv.1, canonical kv.2)) o = map (fun kv => (kv.1, canonical kv.2)) p /\ r1 = r2.
Proof.
  induction 1 as [|[k x] o Hx _ IH]; intros [|[k' y] p] r1 r2 Ho Hp Hlen; try done.
  cbn [map concat fst snd]. rewrite <- !app_assoc. intros H.
  apply Forall_cons in Ho as [[Hk Hxe] Ho]. apply Forall_cons in Hp as [[Hk' Hye] Hp]. cbn in *.
  apply hash_string_inj in H as [-> H]; [|done..]. apply Hx in H as [-> H]; [|done..].
  injection Hlen as Hlen. by apply IH in H as [-> ->].
Qed.

(** The bytes of an object go through its fields in key order. *)
Lemma hash_object o : hash_json_value (JObject o) =
  lit "object" ++ le64 (length (sort_keys o))
  ++ concat (map (fun kv => hash_string kv.1 ++ hash_json_value kv.2) (sort_keys o)).
Proof.
  cbn [hash_json_value]. rewrite (sort_keys_map hash_json_value), map_map.
  by rewrite (Permutation_length (sort_keys_perm o)).
Qed.

Lemma tags :
  lit "null" = [110; 117; 108; 108]%N /\ lit "bool" = [98; 111; 111; 108]%N /\
  lit "number" = [110; 117; 109; 98; 101; 114]%N /\ lit "string" = [115; 116; 114; 105; 110; 103]%N /\
  lit "array" = [97; 114; 114; 97; 121]%N /\ lit "object" = [111; 98; 106; 101; 99; 116]%N.
Proof. by vm_compute. Qed.

Lemma hash_tag v : exists body,
  hash_json_value v =
  match v with
  | JNull => lit "null" | JBool _ => lit "bool" | JNumber _ => lit "number"
  | JString _ => lit "string" | JArray _ => lit "array" | JObject _ => lit "object"
  end ++ body.
Proof. destruct v; cbn [hash_json_value]; try by eexists. exists []. by rewrite app_nil_r. Qed.

(** Equal bytes start with the same kind of value. *)
Lemma same_kind v w r1 r2 : hash_json_value v ++ r1 = hash_json_value w ++ r2 ->
  match v, w with
  | JNull, JNull | JBool _, JBool _ | JNumber _, JNumber _ | JString _, JString _
  | JArray _, JArray _ | JObject _, JObject _ => True
  | _, _ => False
  end.
Proof.
  destruct (hash_tag v) as [b1 ->], (hash_tag w) as [b2 ->].
  destruct tags as (-> & -> & -> & -> & -> & ->). by destruct v, w.
Qed.

Lemma hash_json_determined v : determined v.
Proof.
  induction v as [|b|n|s|l IH|o IH] using json_nested_ind; intros Hv w r1 r2 Hw H;
    pose proof (same_kind _ _ _ _ H) as Hk; destruct w; try done; clear Hk.
  - cbn [hash_json_value] in H. by apply app_inv_head in H.
  - cbn [hash_json_value] in H. rewrite <- !app_assoc in H. apply app_inv_head in H. injection H as Hb ->.
    by destruct b, b0.
  - cbn [hash_json_value] in H. rewrite <- !app_assoc in H. apply app_inv_head, framed_inj in H as [H ->]; [|done..].
    split; [|done]. apply as_bytes_inj, show_Z_inj in H; [by subst|apply show_Z_ascii..].
  - cbn [hash_json_value] in H. apply hash_string_inj in H as [-> ->]; done.
  - cbn [hash_json_value] in H. rewrite <- !app_assoc in H. apply app_inv_head in H.
    cbn [encodable] in Hv, Hw. destruct Hv as [Hfv Hv%encodable_all], Hw as [Hfw Hw%encodable_all].
    apply le64_inj in H as [Hl H]; [|done..]. apply (array_determined _ IH) in H as [Hc ->]; [|done..].
    split; [|done]. cbn [canonical]. by rewrite Hc.
  - rewrite !hash_object in H. rewrite <- !app_assoc in H. apply app_inv_head in H.
    cbn [encodable] in Hv, Hw. destruct Hv as [Hfv Hv%encodable_fields], Hw as [Hfw Hw%encodable_fields].
    assert (forall A (x : list (str * A)), fits x -> fits (sort_keys x)) as Hfs
      by (intros A x; unfold fits; by rewrite (Permutation_length (sort_keys_perm x))).
    apply le64_inj in H as [Hl H]; [|by apply Hfs..].
    rewrite <- (sort_keys_perm o) in IH. rewrite <- (sort_keys_perm o) in Hv.
    rewrite <- (sort_keys_perm fields) in Hw.
    apply (object_determined _ IH) in H as [Hc ->]; [|done..].
    split; [|done]. cbn [canonical]. by rewrite !(sort_keys_map canonical), Hc.
Qed.

(** The build fingerprint separates configurations: the bytes hashed for a JSON value,
    whatever is hashed after them, determine the value up to the order of object keys. *)
Theorem fingerprint_determines_value v w r1 r2 :
  encodable v -> encodable w ->
  hash_json_value v ++ r1 = hash_json_value w ++ r2 -> canonical v = canonical w /\ r1 = r2.
Proof. intros Hv Hw. by apply hash_json_determined. Qed.

Lemma fingerprint_determines_value_witness :
  let v := JObject [(lit "b", JArray [JNumber (-7); JNull]); (lit "a", JString "x")] in
  let w := JObject [(lit "a", JString "x"); (lit "b", JArray [JNumber (-7); JNull])] in
  canonical v = canonical w /\ [1%N] = [1%N].
Proof.
  assert (string_ok "a" /\ string_ok "b" /\ string_ok "x") as (Ha & Hb & Hx)
    by (unfold string_ok, scalars, fits; split_and!; solve [decide_now|vm_compute; reflexivity]).
  assert (fits (as_bytes (show_Z (-7)))) as Hn by (vm_compute; reflexivity).
  intros v w. apply (fingerprint_determines_value v w [1%N] [1%N]); [| |vm_compute; reflexivity];
    cbn [v w encodable]; split_and!; try done; vm_compute; reflexivity.
Defined.
