(* ===== verification/GitServer.v ===== *)
(** * The Git HTTP gateway (git_http_server.rs)

    The server through which pods fetch from and push to the host: bearer tokens, the Git
    directory and environment of [git-http-backend], the Git LFS store, and the SSH agents
    behind the agent relay.  Git itself, canonical paths and the system calls on files and
    sockets are parameters. *)
From stdpp Require Import gmap sorting.
From S2P Require Import Prelude Strs PodNames Access Db Bytes ExecStream Devcontainer.

(** ** Ambient SSH agents *)

Definition MAX_AMBIENT_SSH_AGENTS : nat := 32.
Definition MAX_SSH_AGENT_MESSAGE_SIZE : N := (256 * 1024)%N.
Definition u64_max : Z := (2 ^ 64 - 1)%Z.

Record AmbientSshAgentCandidate := mkCandidate { cand_generation : Z; socket_path : list N }.

#[export] Instance AmbientSshAgentCandidate_eq_dec : EqDecision AmbientSshAgentCandidate.
Proof. solve_decision. Defined.

(** [candidates] is the vector, oldest first. *)
Record AmbientSshAgentState := mkAgents {
  next_generation : Z;
  candidates : list AmbientSshAgentCandidate;
}.

Definition AmbientSshAgentState_default : AmbientSshAgentState := mkAgents 0 [].

Definition remember (path : str) (s : AmbientSshAgentState) : run AmbientSshAgentState :=
  let kept := List.filter (fun c => negb (bool_decide (socket_path c = path))) (candidates s) in
  generation ← or_panic (if bool_decide (next_generation s < u64_max)%Z
                         then Some (next_generation s + 1)%Z else None);
  let cs := kept ++ [mkCandidate generation path] in
  Returned (mkAgents generation
              (if bool_decide (MAX_AMBIENT_SSH_AGENTS < length cs)
               then drop (length cs - MAX_AMBIENT_SSH_AGENTS) cs else cs)).

(** The second locked section of [connect_latest_live], after the probe of [c] failed. *)
Definition discard_failed (c : AmbientSshAgentCandidate) (s : AmbientSshAgentState) : AmbientSshAgentState :=
  match last (candidates s) with
  | Some latest =>
      if bool_decide (cand_generation latest = cand_generation c)
      then mkAgents (next_generation s) (removelast (candidates s)) else s
  | None => s
  end.

(** [connect_latest_live] when no client registers meanwhile; [probe] is whether the socket
    answers. *)
Fixpoint connect_loop (fuel : nat) (probe : str -> bool) (s : AmbientSshAgentState)
    : run (option str * AmbientSshAgentState) :=
  match fuel with
  | O => Unfinished
  | S fuel =>
      match last (candidates s) with
      | None => Returned (None, s)
      | Some c => if probe (socket_path c) then Returned (Some (socket_path c), s)
                  else connect_loop fuel probe (discard_failed c s)
      end
  end.

Definition connect_latest_live (probe : str -> bool) (s : AmbientSshAgentState)
    : run (option str * AmbientSshAgentState) :=
  connect_loop (S (length (candidates s))) probe s.

Inductive probe_error := ProbeIo (e : io_error) | InvalidLength (n : N) | UnexpectedType (b : N).

(** What [connect_and_probe_ssh_agent] makes of the bytes the agent answers. *)
Definition probe_response (r : Reader) : result probe_error unit :=
  match read_exact 4 r with
  | Err e => Err (ProbeIo e)
  | Ok (bs, r) =>
      let length := from_be_bytes bs in
      if bool_decide (length = 0)%N || bool_decide (MAX_SSH_AGENT_MESSAGE_SIZE < length)%N
      then Err (InvalidLength length)
      else match read_exact (N.to_nat length) r with
           | Err e => Err (ProbeIo e)
           | Ok (response, _) =>
               match response with
               | [] => Err (ProbeIo UnexpectedEof)
               | t :: _ => if bool_decide (t = 5)%N || bool_decide (t = 12)%N then Ok tt else Err (UnexpectedType t)
               end
           end
  end.

(** ** Pods behind a token *)

Record PodInfo := mkPodInfo {
  info_repo_path : list N;
  info_git_dir : list N;
  info_submodule_git_dirs : list (list N * list N);
  info_pod_name : list N;
}.

Inductive server_error := DbFailed (e : db_error) | NoGitDir.

Definition is_ascii_hexdigit (b : N) : bool :=
  is_ascii_digit b || in_range 97 102 b || in_range 65 70 b.

Definition LFS_OID_LEN : nat := 64.

Definition is_valid_lfs_oid (oid : str) : bool :=
  bool_decide (len oid = LFS_OID_LEN) && forallb is_ascii_hexdigit (as_bytes oid).

(** Slicing the identifier panics inside a character. *)
Definition lfs_object_path (base oid : str) : run (option str) :=
  if negb (is_valid_lfs_oid oid) then Returned None
  else
    xx ← or_panic (slice_to oid 2);
    yy ← or_panic (slice oid 2 4);
    Returned (Some (path_join (path_join (path_join (path_join (path_join base "lfs") "objects") xx) yy) oid)).

Record LfsObject := mkLfsObject { obj_oid : list N; obj_size : N }.
Record LfsBatchRequest := mkBatch { batch_operation : list N; batch_objects : list LfsObject }.
Record LfsAction := mkAction { href : list N; action_header : option (list (list N * list N)) }.
Record LfsError := mkLfsError { err_code : N; err_message : list N }.
Record LfsObjectResponse := mkObjectResponse {
  resp_oid : list N;
  resp_size : N;
  resp_actions : option (list (list N * LfsAction));
  resp_error : option LfsError;
}.

#[export] Instance LfsAction_eq_dec : EqDecision LfsAction.
Proof. solve_decision. Defined.
#[export] Instance LfsError_eq_dec : EqDecision LfsError.
Proof. solve_decision. Defined.
#[export] Instance LfsObjectResponse_eq_dec : EqDecision LfsObjectResponse.
Proof. solve_decision. Defined.

(** What [git-http-backend] is run with, and the Git directory whose [host-head] was updated
    before. *)
Record CgiCall := mkCgi {
  cgi_host_head_dir : list N;
  cgi_env : list (list N * list N);
  cgi_uri : list N;
}.

Inductive Response :=
| Status (code : N)
| Bytes_ (code : N) (data : list N)
| Batch (objects : list LfsObjectResponse)
| Cgi (call : CgiCall).

(** The LFS objects on disk, by path. *)
Notation files := (gmap (list N) (list N)).

Section Server.

(** The [sha2] and [hex] crates. *)
Context (lib : HashLib).
(** [std::fs::canonicalize], and the submodules that [git] reports below a repository. *)
Context (canonicalize : str -> option str) (resolve_submodule_git_dirs : str -> list (str * str)).

Definition get_pod_info (db : Conn) (token : str) : result server_error (option PodInfo) :=
  match get_pod_by_token db token with
  | Err e => Err (DbFailed e)
  | Ok None => Ok None
  | Ok (Some record) =>
      let repo_path := Db.repo_path record in
      git_dir ← context NoGitDir (canonicalize (path_join repo_path ".git"));
      Ok (Some (mkPodInfo repo_path git_dir (resolve_submodule_git_dirs repo_path) (Db.name record)))
  end.

(** [h.starts_with("Bearer ")] and [&h\[7..\]] *)
Definition bearer_token (auth_header : option str) : option str :=
  h ← auth_header; strip_prefix "Bearer " h.

Definition authenticate (db : Conn) (auth_header : option str) : result N (PodInfo * str) :=
  token ← context 401%N (bearer_token auth_header);
  match get_pod_info db token with
  | Ok (Some info) => Ok (info, token)
  | Ok None => Err 401%N
  | Err _ => Err 500%N
  end.

(** *** Git LFS *)

Definition href_of (host oid : str) : str :=
  lit "http://" ++ host ++ lit "/rumpelpod.git/lfs/objects/" ++ oid.

Definition lfs_action (kind host token oid : str) : list (list N * LfsAction) :=
  [(kind, mkAction (href_of host oid) (Some [(lit "Authorization", lit "Bearer " ++ token)]))].

(** One object of a batch; [exists_] is [Path::exists]. *)
Definition batch_object (exists_ : str -> bool) (host token operation : str) (host_obj : str) (obj : LfsObject)
    : LfsObjectResponse :=
  let answer := mkObjectResponse (obj_oid obj) (obj_size obj) in
  if bool_decide (operation = lit "download") then
    if exists_ host_obj then answer (Some (lfs_action "download" host token (obj_oid obj))) None
    else answer None (Some (mkLfsError 404 "Object not found"))
  else if bool_decide (operation = lit "upload") then
    if exists_ host_obj then answer None None
    else answer (Some (lfs_action "upload" host token (obj_oid obj))) None
  else answer None (Some (mkLfsError 400 (lit "Unknown operation: " ++ operation))).

Fixpoint batch_loop (exists_ : str -> bool) (git_dir host token operation : str) (objects : list LfsObject)
    (out : list LfsObjectResponse) : run Response :=
  match objects with
  | [] => Returned (Batch out)
  | obj :: objects =>
      p ← lfs_object_path git_dir (obj_oid obj);
      match p with
      | None => Returned (Status 400)
      | Some host_obj =>
          batch_loop exists_ git_dir host token operation objects
            (out ++ [batch_object exists_ host token operation host_obj obj])
      end
  end.

Definition MAX_BATCH_BODY : N := (1024 * 1024)%N.
Definition MAX_LFS_BODY : N := (500 * 1024 * 1024)%N.

Definition file_exists (fs : files) (p : str) : bool := bool_decide (is_Some (fs !! p)).

(** [from_slice] is serde's decoding of the request. *)
Definition lfs_batch_handler (from_slice : list N -> option LfsBatchRequest) (db : Conn) (fs : files)
    (auth_header host_header : option str) (body : list N) : run Response :=
  match authenticate db auth_header with
  | Err code => Returned (Status code)
  | Ok (info, token) =>
      let host := default (lit "localhost") host_header in
      if bool_decide (MAX_BATCH_BODY < N.of_nat (length body))%N then Returned (Status 400)
      else match from_slice body with
           | None => Returned (Status 400)
           | Some req => batch_loop (file_exists fs) (info_git_dir info) host token (batch_operation req)
                           (batch_objects req) []
           end
  end.

(** [read_fails] is whether reading the file is an error. *)
Definition lfs_download_handler (read_fails : str -> bool) (db : Conn) (fs : files)
    (auth_header : option str) (oid : str) : run Response :=
  match authenticate db auth_header with
  | Err code => Returned (Status code)
  | Ok (info, _) =>
      p ← lfs_object_path (info_git_dir info) oid;
      match p with
      | None => Returned (Status 400)
      | Some file_path =>
          match fs !! file_path with
          | None => Returned (Status 404)
          | Some data => Returned (if read_fails file_path then Status 500 else Bytes_ 200 data)
          end
      end
  end.

(** How [tokio::fs::write] ends: a failure to open leaves the file, a failure to write leaves
    what was written of it. *)
Inductive write_outcome := Written | OpenFailed | Interrupted (n : nat).

Definition fs_write (o : write_outcome) (p : str) (data : list N) (fs : files) : result unit unit * files :=
  match o with
  | Written => (Ok tt, <[p := data]> fs)
  | OpenFailed => (Err tt, fs)
  | Interrupted n => (Err tt, <[p := take n data]> fs)
  end.

Definition lfs_upload_handler (create_dir_fails : bool) (o : write_outcome) (db : Conn) (fs : files)
    (auth_header : option str) (oid : str) (body : list N) : run (Response * files) :=
  match authenticate db auth_header with
  | Err code => Returned (Status code, fs)
  | Ok (info, _) =>
      p ← lfs_object_path (info_git_dir info) oid;
      match p with
      | None => Returned (Status 400, fs)
      | Some obj_path =>
          if bool_decide (MAX_LFS_BODY < N.of_nat (length body))%N then Returned (Status 400, fs)
          else if negb (bool_decide (hex_encode lib (sha256_digest lib body) = oid))
          then Returned (Status 400, fs)
          else if bool_decide (is_Some (parent obj_path)) && create_dir_fails then Returned (Status 500, fs)
          else let '(r, fs) := fs_write o obj_path body fs in
               Returned (Status (match r with Ok _ => 200 | Err _ => 500 end), fs)
      end
  end.

(** *** Git requests *)

Definition resolve_git_dir_for_request (uri_path : str) (info : PodInfo) : str :=
  let submodule_path :=
    rest ← strip_prefix "/submodules/" uri_path; fst <$> find_str "/rumpelpod.git" rest in
  match submodule_path with
  | Some displaypath =>
      match list_find (fun e => e.1 = displaypath) (info_submodule_git_dirs info) with
      | Some (_, (_, git_dir)) => git_dir
      | None => info_git_dir info
      end
  | None => info_git_dir info
  end.

Definition service_start (uri_path : str) : option str :=
  let at_ p := snd <$> find_str p uri_path in
  match at_ "/info/" with
  | Some r => Some r
  | None => match at_ "/git-" with
            | Some r => Some r
            | None => match at_ "/HEAD" with Some r => Some r | None => at_ "/objects/" end
            end
  end.

Definition rewrite_url_path (uri_path git_dir_name : str) : str :=
  match service_start uri_path with
  | Some service => [c_slash] ++ git_dir_name ++ service
  | None => [c_slash] ++ git_dir_name
  end.

Definition POD_NAME_ENV : str := "POD_NAME".
Definition SOCKET_PATH_ENV : str := "RUMPELPOD_DAEMON_SOCKET".

(** [uri_parses] is whether the rewritten text is a URI, [daemon_socket] what
    [daemon::socket_path] returns; a request is its path and query. *)
Definition handle_request (uri_parses : str -> bool) (daemon_socket : option str) (db : Conn)
    (auth_header : option str) (uri_path : str) (query : option str) : Response :=
  match bearer_token auth_header with
  | None => Status 401
  | Some token =>
      match get_pod_info db token with
      | Ok None => Status 401
      | Err _ => Status 500
      | Ok (Some info) =>
          match daemon_socket with
          | None => Status 500
          | Some daemon_socket =>
              let served_git_dir := resolve_git_dir_for_request uri_path info in
              let project_root := default [c_slash] (parent served_git_dir) in
              let git_dir_name := default (lit ".git") (Executor.file_name served_git_dir) in
              let with_query p := match query with Some q => p ++ lit "?" ++ q | None => p end in
              let new_uri := with_query (rewrite_url_path uri_path git_dir_name) in
              Cgi (mkCgi served_git_dir
                     [(lit "GIT_PROJECT_ROOT", project_root); (lit "GIT_HTTP_EXPORT_ALL", []);
                      (POD_NAME_ENV, info_pod_name info); (SOCKET_PATH_ENV, daemon_socket);
                      (lit "GIT_CONFIG_COUNT", lit "1"); (lit "GIT_CONFIG_KEY_0", lit "http.receivepack");
                      (lit "GIT_CONFIG_VALUE_0", lit "true")]
                     (if uri_parses new_uri then new_uri else with_query uri_path))
          end
      end
  end.

(** *** The agent relay *)

Inductive SshAgentBackend := Managed (path : list N) | Ambient.

(** [daemon::ssh_agent_dir]; [runtime_dir] is [XDG_RUNTIME_DIR] or its default. *)
Definition ssh_agent_dir (runtime_dir repo_path pod_name : str) : run str :=
  let hash := hex_encode lib (sha256_digest lib (as_bytes repo_path ++ as_bytes pod_name)) in
  hash_prefix ← or_panic (slice_to hash 12);
  Returned (path_join (path_join runtime_dir "rumpelpod/agents") hash_prefix).

(** [ambient_of] is the [sshAgent.ambient] setting of the repository's configuration. *)
Definition ssh_agent_handler (ambient_of : str -> option bool) (runtime_dir : str) (db : Conn)
    (auth_header : option str) : run (result N SshAgentBackend) :=
  match bearer_token auth_header with
  | None => Returned (Err 401%N)
  | Some token =>
      match get_pod_info db token with
      | Ok None => Returned (Err 401%N)
      | Err _ => Returned (Err 500%N)
      | Ok (Some info) =>
          match ambient_of (info_repo_path info) with
          | None => Returned (Err 500%N)
          | Some true => Returned (Ok Ambient)
          | Some false =>
              dir ← ssh_agent_dir runtime_dir (info_repo_path info) (info_pod_name info);
              Returned (Ok (Managed (path_join dir "agent.sock")))
          end
      end
  end.

End Server.

(** ** Ambient agents: newest first, and nothing newer is lost *)

Inductive agents_reachable : AmbientSshAgentState -> Prop :=
| agents_start : agents_reachable AmbientSshAgentState_default
| agents_remember path s s' : agents_reachable s -> remember path s = Returned s' -> agents_reachable s'
| agents_discard c s : agents_reachable s -> (cand_generation c <= next_generation s)%Z ->
    agents_reachable (discard_failed c s).

Record agents_ok (s : AmbientSshAgentState) : Prop := {
  agents_sorted : StronglySorted Z.lt (map cand_generation (candidates s));
  agents_bounded : Forall (fun c => (cand_generation c <= next_generation s)%Z) (candidates s);
  agents_paths : NoDup (map socket_path (candidates s));
  agents_capped : length (candidates s) <= MAX_AMBIENT_SSH_AGENTS;
}.

Lemma StronglySorted_snoc l x : StronglySorted Z.lt l -> Forall (fun y => (y < x)%Z) l -> StronglySorted Z.lt (l ++ [x]).
Proof.
  induction 1 as [|y l Hl IH Hy]; intros Hx; [repeat constructor|].
  apply Forall_cons in Hx as [Hyx Hx]. simpl. constructor; [by apply IH|].
  apply Forall_app. split; [done|by constructor].
Qed.

Lemma StronglySorted_filter f l : StronglySorted Z.lt (map cand_generation l) ->
  StronglySorted Z.lt (map cand_generation (List.filter f l)).
Proof.
  induction l as [|c l IH]; simpl; [done|]. inversion_clear 1 as [|? ? Hl Hc].
  destruct (f c); simpl; [|by apply IH]. constructor; [by apply IH|].
  rewrite Forall_map in *. rewrite Forall_forall in *. intros d [Hd _]%elem_of_bfilter. by apply Hc.
Qed.

Lemma StronglySorted_drop n l : StronglySorted Z.lt l -> StronglySorted Z.lt (drop n l).
Proof. intros H. revert n. induction H; intros [|n]; simpl; try constructor; auto. Qed.

Lemma NoDup_drop {A} n (l : list A) : NoDup l -> NoDup (drop n l).
Proof. rewrite <- (take_drop n l) at 1. by intros (_ & _ & ?)%NoDup_app. Qed.

Lemma last_removelast {A} (l : list A) x : last l = Some x -> l = removelast l ++ [x].
Proof.
  intros [l' ->]%last_Some. f_equal. by rewrite removelast_last.
Qed.

Lemma remember_ok path s s' : agents_ok s -> remember path s = Returned s' ->
  agents_ok s' /\ exists g, last (candidates s') = Some (mkCandidate g path).
Proof.
  intros [Hs Hb Hp _]. unfold remember. case_bool_decide as Hlt; [|done]. cbn [or_panic mbind run_bind].
  set (kept := List.filter _ _). set (c := mkCandidate _ path). intros [= <-].
  assert (StronglySorted Z.lt (map cand_generation (kept ++ [c]))) as Hsort.
  { rewrite map_app. apply StronglySorted_snoc; [by apply StronglySorted_filter|].
    rewrite Forall_map, Forall_forall in *. intros d [Hd _]%elem_of_bfilter.
    apply Hb in Hd. simpl. lia. }
  assert (Forall (fun d => cand_generation d <= next_generation s + 1)%Z (kept ++ [c])) as Hbound.
  { apply Forall_app. split; [|repeat constructor; simpl; lia].
    rewrite Forall_forall in *. intros d [Hd _]%elem_of_bfilter. apply Hb in Hd. lia. }
  assert (NoDup (map socket_path (kept ++ [c]))) as Hnd.
  { rewrite map_app. apply NoDup_app. split_and!; [by apply NoDup_map_filter| |apply NoDup_singleton].
    intros q Hq ->%list_elem_of_singleton. apply list_elem_of_fmap in Hq as (d & Hd & [_ Hf]%elem_of_bfilter).
    rewrite negb_true_iff, bool_decide_eq_false in Hf. by apply Hf. }
  case_bool_decide as Hlen; (split; [split|]); cbn [candidates next_generation]; auto.
  - rewrite <- skipn_map. by apply StronglySorted_drop.
  - by apply Forall_drop.
  - rewrite <- skipn_map. by apply NoDup_drop.
  - rewrite length_drop. lia.
  - eexists. rewrite drop_app_le; [apply last_snoc|]. rewrite length_app. simpl.
    unfold MAX_AMBIENT_SSH_AGENTS. lia.
  - lia.
  - eexists. apply last_snoc.
Qed.

Lemma discard_cases c s : agents_ok s ->
  discard_failed c s = s \/
  exists l d, candidates s = l ++ [d] /\ cand_generation d = cand_generation c /\
              discard_failed c s = mkAgents (next_generation s) l.
Proof.
  intros H. unfold discard_failed. destruct (last (candidates s)) as [d|] eqn:E; [|by left].
  case_bool_decide; [right|by left]. apply last_removelast in E. by exists (removelast (candidates s)), d.
Qed.

Lemma agents_ok_prefix s l d : agents_ok s -> candidates s = l ++ [d] ->
  agents_ok (mkAgents (next_generation s) l).
Proof.
  intros [Hs Hb Hp Hc] E. rewrite E in *. rewrite map_app in *. split; cbn [candidates next_generation].
  - by apply StronglySorted_app_1_l in Hs.
  - by apply Forall_app in Hb as [? _].
  - by apply NoDup_app in Hp as [? _].
  - rewrite length_app in Hc. lia.
Qed.

Lemma agents_reachable_ok s : agents_reachable s -> agents_ok s.
Proof.
  induction 1 as [|path s s' _ IH Hr|c s _ IH Hc].
  - split; simpl; [constructor|constructor|constructor|unfold MAX_AMBIENT_SSH_AGENTS; lia].
  - by eapply remember_ok in Hr as [? _].
  - destruct (discard_cases c s IH) as [->|(l & d & E & _ & ->)]; [done|by eapply agents_ok_prefix].
Qed.

Lemma discard_newer_kept c d s : agents_ok s -> d ∈ candidates s ->
  (cand_generation c < cand_generation d)%Z -> discard_failed c s = s.
Proof.
  intros Hok Hd Hlt. destruct (discard_cases c s Hok) as [?|(l & e & E & Hg & _)]; [done|].
  destruct Hok as [Hs _ _ _]. rewrite E in Hd, Hs. exfalso.
  rewrite map_app in Hs. apply elem_of_app in Hd as [Hd|Hd%list_elem_of_singleton]; [|subst; lia].
  assert (cand_generation d < cand_generation e)%Z; [|lia].
  eapply StronglySorted_app_1_elem_of; [exact Hs|by apply list_elem_of_fmap_2|by constructor].
Qed.

(** The sockets from the newest down to the first that answers. *)
Definition newest_live (probe : str -> bool) (cs : list AmbientSshAgentCandidate) : option str :=
  List.find probe (map socket_path (reverse cs)).

Lemma connect_loop_spec probe s : agents_ok s ->
  exists s' dead, connect_latest_live probe s = Returned (newest_live probe (candidates s), s') /\
    candidates s = candidates s' ++ dead /\
    Forall (fun c => probe (socket_path c) = false) dead /\
    newest_live probe (candidates s) = socket_path <$> last (candidates s').
Proof.
  unfold connect_latest_live. destruct s as [n cs]. cbn [candidates].
  induction cs as [|c cs IH] using rev_ind; intros Hok.
  { eexists (mkAgents n []), []. by split_and!. }
  rewrite length_app, Nat.add_comm. cbn [length Nat.add connect_loop candidates]. rewrite last_snoc.
  unfold newest_live. rewrite reverse_app. simpl. destruct (probe (socket_path c)) eqn:E.
  - eexists (mkAgents n (cs ++ [c])), []. cbn [candidates]. by rewrite last_snoc, app_nil_r.
  - assert (discard_failed c (mkAgents n (cs ++ [c])) = mkAgents n cs) as Hd.
    { unfold discard_failed. cbn [candidates next_generation]. rewrite last_snoc, bool_decide_true by done.
      by rewrite removelast_last. }
    rewrite Hd. destruct IH as (s' & dead & Hc & Hs & Hdead & Hl).
    { by apply (agents_ok_prefix _ _ c Hok). }
    exists s', (dead ++ [c]). split_and!; [done| | |done].
    + by rewrite app_assoc, <- Hs.
    + apply Forall_app. by split; [|constructor].
Qed.

(** Ambient SSH agents: whatever clients register and whatever probes fail, at most 32
    sockets are kept, each once, in the order of registration; the socket registered last is
    the first one tried; a probe that failed never discards a later registration; and
    [connect_latest_live] terminates with the newest socket that answers, having discarded
    exactly the newer ones, none of which answers. *)
Theorem ambient_agents_newest_live s :
  agents_reachable s ->
  agents_ok s /\
  (forall path s', remember path s = Returned s' -> socket_path <$> last (candidates s') = Some path) /\
  (forall c d, d ∈ candidates s -> (cand_generation c < cand_generation d)%Z -> discard_failed c s = s) /\
  (forall probe, exists s' dead,
     connect_latest_live probe s = Returned (newest_live probe (candidates s), s') /\
     candidates s = candidates s' ++ dead /\
     Forall (fun c => probe (socket_path c) = false) dead /\
     newest_live probe (candidates s) = socket_path <$> last (candidates s')).
Proof.
  intros Hok%agents_reachable_ok. split_and!; [done| | |].
  - intros path s' Hr. destruct (remember_ok path s s' Hok Hr) as [_ [g ->]]. done.
  - intros c d. by apply discard_newer_kept.
  - intros probe. by apply connect_loop_spec.
Qed.

Definition two_agents : AmbientSshAgentState := mkAgents 2 [mkCandidate 1 (lit "/a"); mkCandidate 2 (lit "/b")].

Lemma two_agents_reachable : agents_reachable two_agents.
Proof.
  apply (agents_remember (lit "/b") (mkAgents 1 [mkCandidate 1 (lit "/a")])); [|by vm_compute].
  by apply (agents_remember (lit "/a") AmbientSshAgentState_default); [constructor|vm_compute].
Qed.

Lemma ambient_agents_newest_live_witness :
  exists s' dead,
    connect_latest_live (fun p => bool_decide (p = lit "/a")) two_agents = Returned (Some (lit "/a"), s') /\
    candidates two_agents = candidates s' ++ dead /\
    Forall (fun c => bool_decide (socket_path c = lit "/a") = false) dead /\
    Some (lit "/a") = socket_path <$> last (candidates s').
Proof. apply (ambient_agents_newest_live two_agents two_agents_reachable). Defined.

(** ** The Git LFS store *)

Lemma split_at_ascii s i : ascii_only s -> i <= length s -> split_at s i = Some (take i s, drop i s).
Proof.
  intros Hs Hi. assert (len (take i s) = i) as Hl.
  { rewrite len_ascii by by apply Forall_take. rewrite length_take. lia. }
  pose proof (split_at_app (take i s) (drop i s)) as H. by rewrite take_drop, Hl in H.
Qed.

Definition hex_word (w : str) : Prop := w <> [] /\ Forall (fun b => is_ascii_hexdigit b = true) w.

Lemma hexdigit_ascii b : is_ascii_hexdigit b = true -> (b < 128)%N /\ b <> c_slash /\ b <> 46%N.
Proof.
  unfold is_ascii_hexdigit, is_ascii_digit, in_range. rewrite !orb_true_iff, !andb_true_iff, !bool_decide_eq_true.
  unfold c_slash. lia.
Qed.

Lemma valid_oid oid : is_valid_lfs_oid oid = true -> ascii_only oid /\ length oid = 64 /\ hex_word oid.
Proof.
  unfold is_valid_lfs_oid. rewrite andb_true_iff, bool_decide_eq_true, forallb_forall. intros [Hl Hb].
  assert (ascii_only oid) as Ha.
  { apply bytes_ascii_only, Forall_forall. intros b Hin. apply hexdigit_ascii, Hb. by apply list_elem_of_In. }
  rewrite len_ascii in Hl by done. rewrite as_bytes_ascii in Hb by done. split_and!; [done|done|].
  split; [by intros ->|]. apply Forall_forall. intros b Hin. apply Hb. by apply list_elem_of_In.
Qed.

Lemma hex_word_component w : hex_word w ->
  Executor.path_components w = [w] /\ starts_with [c_slash] w = false /\ w <> lit "..".
Proof.
  intros [Hne Hw]. rewrite Forall_forall in Hw. unfold Executor.path_components. rewrite split_free.
  - rewrite filter_cons_True; [split_and!; [done| |]|].
    + apply not_true_iff_false. intros (r & ->)%starts_with_true.
      assert (c_slash ∈ [c_slash] ++ r) as H%Hw%hexdigit_ascii by set_solver. naive_solver.
    + intros ->. assert (46%N ∈ lit "..") as H%Hw%hexdigit_ascii by decide_now. naive_solver.
    + split; [done|]. intros ->. assert (46%N ∈ lit ".") as H%Hw%hexdigit_ascii by decide_now. naive_solver.
  - intros H%Hw%hexdigit_ascii. naive_solver.
Qed.

Lemma hex_word_take n w : 0 < n -> hex_word w -> hex_word (take n w).
Proof. intros Hn [Hne Hw]. split; [|by apply Forall_take]. destruct w, n; done || lia. Qed.

Lemma lfs_object_path_eq base oid : is_valid_lfs_oid oid = true ->
  exists p, lfs_object_path base oid = Returned (Some p) /\
    Executor.path_components p =
      Executor.path_components base ++ [lit "lfs"; lit "objects"; take 2 oid; take 2 (drop 2 oid); oid].
Proof.
  intros Hv. pose proof (valid_oid oid Hv) as (Ha & Hl & Hh). unfold lfs_object_path. rewrite Hv. simpl.
  unfold slice_to, slice. rewrite !split_at_ascii by (done || lia). cbn.
  rewrite split_at_ascii by (by apply Forall_take || (rewrite length_take; lia)). cbn.
  assert (hex_word (drop 2 oid)) as Hd.
  { split; [|by apply Forall_drop, Hh]. intros H%(f_equal length). rewrite length_drop in H. simpl in H. lia. }
  replace (drop 2 (take 4 oid)) with (take 2 (drop 2 oid)) by (by rewrite skipn_firstn_comm).
  destruct (hex_word_component _ Hh) as (Hc1 & Hs1 & _).
  destruct (hex_word_component _ (hex_word_take 2 oid ltac:(lia) Hh)) as (Hc2 & Hs2 & _).
  destruct (hex_word_component _ (hex_word_take 2 _ ltac:(lia) Hd)) as (Hc3 & Hs3 & _).
  eexists. split; [reflexivity|].
  rewrite !path_components_join by (done || by vm_compute). rewrite Hc1, Hc2, Hc3, <- !app_assoc. done.
Qed.

Lemma lfs_object_path_invalid base oid : is_valid_lfs_oid oid = false -> lfs_object_path base oid = Returned None.
Proof. intros H. unfold lfs_object_path. by rewrite H. Qed.

(** Different objects have different paths. *)
Lemma lfs_object_path_inj b1 b2 o1 o2 p :
  lfs_object_path b1 o1 = Returned (Some p) -> lfs_object_path b2 o2 = Returned (Some p) -> o1 = o2.
Proof.
  intros H1 H2.
  destruct (is_valid_lfs_oid o1) eqn:V1; [|by rewrite lfs_object_path_invalid in H1].
  destruct (is_valid_lfs_oid o2) eqn:V2; [|by rewrite lfs_object_path_invalid in H2].
  destruct (lfs_object_path_eq b1 o1 V1) as (p1 & E1 & C1), (lfs_object_path_eq b2 o2 V2) as (p2 & E2 & C2).
  rewrite E1 in H1. rewrite E2 in H2. simplify_eq. rewrite C1 in C2.
  apply (f_equal last) in C2. by rewrite !last_app in C2; simplify_eq/=.
Qed.

(** Whatever text a pod sends as the identifier of an LFS object, computing its path never
    panics; it is refused unless it is 64 hexadecimal digits, and otherwise the path is five
    ordinary components below the Git directory, so no request reaches a file outside
    [lfs/objects]. *)
Theorem lfs_path_confined base oid :
  match lfs_object_path base oid with
  | Returned None => is_valid_lfs_oid oid = false
  | Returned (Some p) =>
      exists below, Executor.path_components p = Executor.path_components base ++ [lit "lfs"; lit "objects"] ++ below /\
        length below = 3 /\ Forall (fun w => w <> lit ".." /\ c_slash ∉ w /\ w <> []) below
  | Panicked | Unfinished => False
  end.
Proof.
  destruct (is_valid_lfs_oid oid) eqn:V; [|by rewrite lfs_object_path_invalid].
  destruct (lfs_object_path_eq base oid V) as (p & -> & Hc). exists [take 2 oid; take 2 (drop 2 oid); oid].
  split_and!; [done|done|]. pose proof (valid_oid oid V) as (_ & Hl & Hne & Hh).
  assert (forall w, w <> [] -> Forall (fun b => is_ascii_hexdigit b = true) w ->
                    w <> lit ".." /\ c_slash ∉ w /\ w <> []) as Hw.
  { intros w Hw1 Hw2. split_and!; [by apply hex_word_component| |done].
    rewrite Forall_forall in Hw2. intros H%Hw2%hexdigit_ascii. naive_solver. }
  assert (forall l : str, length l <> 0 -> l <> []) as Hlen by (by intros [] ?).
  repeat constructor; (apply Hw; [apply Hlen; rewrite ?length_take, ?length_drop; lia
                                 |repeat first [apply Forall_take|apply Forall_drop|done]]).
Qed.

Section Store.
Context (lib : HashLib).
Context (canonicalize : str -> option str) (resolve_submodule_git_dirs : str -> list (str * str)).

#[local] Notation upload := (lfs_upload_handler lib canonicalize resolve_submodule_git_dirs).
#[local] Notation download := (lfs_download_handler canonicalize resolve_submodule_git_dirs).
#[local] Notation batch := (lfs_batch_handler canonicalize resolve_submodule_git_dirs).
#[local] Notation auth := (authenticate canonicalize resolve_submodule_git_dirs).

Definition oid_of (data : list N) : str := hex_encode lib (sha256_digest lib data).

(** Every object of every repository is stored under its own digest. *)
Definition content_addressed (fs : files) : Prop :=
  forall git_dir oid p data, lfs_object_path git_dir oid = Returned (Some p) -> fs !! p = Some data -> oid_of data = oid.

(** An upload by any pod; a write may fail, but not part of the way. *)
Inductive store_step (fs fs' : files) : Prop :=
| upload_step create_dir_fails o db header oid body r :
    (forall n, o <> Interrupted n) -> upload create_dir_fails o db fs header oid body = Returned (r, fs') ->
    store_step fs fs'.

Lemma auth_error db header code : auth db header = Err code -> code = 401%N \/ code = 500%N.
Proof.
  unfold authenticate. destruct (bearer_token header); simpl; [|intros [= <-]; by left].
  destruct (get_pod_info _ _ _ _) as [[]|]; intros [= <-]; by auto.
Qed.

(** What an upload does to the store. *)
Lemma upload_cases create_dir_fails o db fs header oid body r fs' :
  upload create_dir_fails o db fs header oid body = Returned (r, fs') ->
  (fs' = fs /\ r <> Status 200) \/
  exists info token p, auth db header = Ok (info, token) /\ lfs_object_path (info_git_dir info) oid = Returned (Some p) /\
    oid_of body = oid /\ fs' = (fs_write o p body fs).2 /\ (r = Status 200 -> o = Written).
Proof.
  unfold lfs_upload_handler. destruct (auth db header) as [[info token]|code] eqn:Ea.
  2: { intros [= <- <-]. left. split; [done|]. intros [= ->]. by apply auth_error in Ea as [?|?]. }
  destruct (lfs_object_path _ oid) as [[p|]| |] eqn:E; try done; cbn [mbind run_bind].
  2: { intros [= <- <-]. by left. }
  case_bool_decide; [intros [= <- <-]; by left|]. case_bool_decide as Hh; cbn [negb]; [|intros [= <- <-]; by left].
  destruct (bool_decide (is_Some (parent p)) && create_dir_fails); [intros [= <- <-]; by left|].
  destruct (fs_write o p body fs) as [w fs''] eqn:Ew. intros [= <- <-]. right. exists info, token, p. split_and!; [done|done|done|by rewrite Ew|].
  destruct o; simplify_eq/=; congruence.
Qed.

Lemma store_step_ok fs fs' : content_addressed fs -> store_step fs fs' ->
  content_addressed fs' /\ dom fs ⊆ dom fs'.
Proof.
  intros Hc [cf o db header oid body r Ho H].
  apply upload_cases in H as [[-> _]|(info & token & p & _ & Hp & Hb & -> & _)]; [done|].
  destruct o as [| |n]; cbn [fs_write snd]; [|done|by destruct (Ho n)].
  split; [|set_solver]. intros gd oid' p' data Hp' [[<- <-]|[_ Hd]]%lookup_insert_Some; [|by eapply Hc].
  rewrite Hb. by eapply lfs_object_path_inj.
Qed.


(** A batch request for an object that is there. *)
Lemma batch_known info token p db fs header oid data from_slice host req size :
  auth db header = Ok (info, token) -> lfs_object_path (info_git_dir info) oid = Returned (Some p) -> fs !! p = Some data ->
  (N.of_nat (length req) <= MAX_BATCH_BODY)%N -> from_slice req = Some (mkBatch (lit "upload") [mkLfsObject oid size]) ->
  batch from_slice db fs header host req = Returned (Batch [mkObjectResponse oid size None None]).
Proof.
  intros Ha Hp Hl Hr Hs. unfold lfs_batch_handler. rewrite Ha, Hs, bool_decide_false by lia.
  cbn [batch_operation batch_objects batch_loop obj_oid]. rewrite Hp. cbn [mbind run_bind batch_loop app].
  unfold batch_object, file_exists. rewrite Hl. done.
Qed.

(** An upload that was accepted can be downloaded: by every pod of the repository, with
    exactly the uploaded bytes, and a further batch request for it asks for no upload. *)
Theorem lfs_upload_download create_dir_fails o db fs header oid body fs' header' info token info' token' :
  upload create_dir_fails o db fs header oid body = Returned (Status 200, fs') ->
  auth db header = Ok (info, token) -> auth db header' = Ok (info', token') ->
  info_git_dir info' = info_git_dir info ->
  download (fun _ => false) db fs' header' oid = Returned (Bytes_ 200 body) /\
  forall from_slice host req size, (N.of_nat (length req) <= MAX_BATCH_BODY)%N ->
    from_slice req = Some (mkBatch (lit "upload") [mkLfsObject oid size]) ->
    batch from_slice db fs' header' host req = Returned (Batch [mkObjectResponse oid size None None]).
Proof.
  intros Hu Ha Ha' Hg. assert (exists p, lfs_object_path (info_git_dir info) oid = Returned (Some p) /\ fs' !! p = Some body)
    as (p & Hp & Hl).
  { apply upload_cases in Hu as [[_ []]|(i & t & p & Hi & Hp & _ & -> & Ho)]; [done|].
    rewrite Ha in Hi. simplify_eq. rewrite (Ho eq_refl). exists p. split; [done|]. cbn [fs_write snd]. by rewrite lookup_insert_eq. }
  rewrite <- Hg in Hp. split.
  - unfold lfs_download_handler. rewrite Ha', Hp. cbn. by rewrite Hl.
  - by intros; apply (batch_known info' token' p _ _ _ _ body).
Qed.

Context {laws : HashLaws lib}.

Lemma oid_of_valid data : is_valid_lfs_oid (oid_of data) = true.
Proof.
  pose proof (hex_lower (sha256_digest lib data) (digest_bytes data)) as Hh.
  assert (Forall (fun b => is_ascii_hexdigit b = true) (oid_of data)) as Hx.
  { eapply Forall_impl; [exact Hh|]. intros b Hb. apply Is_true_true in Hb. unfold is_ascii_hexdigit. by rewrite Hb. }
  assert (ascii_only (oid_of data)) as Ha by (eapply Forall_impl; [exact Hx|]; by intros b [? _]%hexdigit_ascii).
  unfold is_valid_lfs_oid. rewrite len_ascii, as_bytes_ascii by done.
  rewrite bool_decide_true by (unfold oid_of; by rewrite hex_length, digest_length).
  apply forallb_forall. intros b Hb%list_elem_of_In. rewrite Forall_forall in Hx. by apply Hx.
Qed.

(** A write that is cut off half-way poisons its object: the upload fails, but the rest of
    the file stays under the object's name, so the next batch request of any pod is told that
    the object is there and its download succeeds with the truncated bytes. *)
Theorem lfs_interrupted_upload n db fs header body info token :
  auth db header = Ok (info, token) -> (N.of_nat (length body) <= MAX_LFS_BODY)%N -> n < length body ->
  exists fs', upload false (Interrupted n) db fs header (oid_of body) body = Returned (Status 500, fs') /\
    download (fun _ => false) db fs' header (oid_of body) = Returned (Bytes_ 200 (take n body)) /\
    take n body <> body /\
    forall from_slice host req size, (N.of_nat (length req) <= MAX_BATCH_BODY)%N ->
      from_slice req = Some (mkBatch (lit "upload") [mkLfsObject (oid_of body) size]) ->
      batch from_slice db fs' header host req = Returned (Batch [mkObjectResponse (oid_of body) size None None]).
Proof.
  intros Ha Hb Hn. destruct (lfs_object_path_eq (info_git_dir info) (oid_of body) (oid_of_valid body)) as (p & Hp & _).
  exists (<[p := take n body]> fs). split_and!.
  - unfold lfs_upload_handler. rewrite Ha, Hp. cbn [mbind run_bind].
    rewrite bool_decide_false by lia. rewrite bool_decide_true by done. cbn [negb]. by rewrite andb_false_r.
  - unfold lfs_download_handler. rewrite Ha, Hp. cbn [mbind run_bind]. by simplify_map_eq.
  - intros H%(f_equal length). rewrite length_take in H. lia.
  - intros. apply (batch_known info token p _ _ _ _ (take n body)); [done..|by simplify_map_eq|done|done].
Qed.

End Store.

(** *** Witnesses of the store *)

Definition same_path (p : str) : option str := Some p.
Definition no_submodules (_ : str) : list (str * str) := [].
Definition token_header (t : string) : option str := Some (lit "Bearer " ++ lit t).

Definition status_of (r : run (Response * files)) : option N :=
  match r with Returned (Status c, _) => Some c | _ => None end.

Definition stored (r : run (Response * files)) : nat :=
  match r with Returned (_, fs) => size fs | _ => 0 end.


Lemma lfs_upload_download_witness :
  let oid := oid_of ZeroHash.lib [1%N; 2%N] in
  exists fs', lfs_upload_handler ZeroHash.lib same_path no_submodules false Written example_db ∅ (token_header "t1") oid
                [1%N; 2%N] = Returned (Status 200, fs') /\
    lfs_download_handler same_path no_submodules (fun _ => false) example_db fs' (token_header "t2") oid =
      Returned (Bytes_ 200 [1%N; 2%N]).
Proof.
  intros oid.
  assert (status_of (lfs_upload_handler ZeroHash.lib same_path no_submodules false Written example_db ∅
                       (token_header "t1") oid [1%N; 2%N]) = Some 200%N) as Hc by (vm_compute; reflexivity).
  destruct (lfs_upload_handler _ _ _ _ _ _ _ _ _ _) as [[r fs']| |] eqn:E; [|done..].
  destruct r; [|done..]. injection Hc as ->. exists fs'. split; [done|].
  by apply (lfs_upload_download ZeroHash.lib same_path no_submodules false Written example_db ∅ (token_header "t1")
            oid [1%N; 2%N] fs' (token_header "t2") (mkPodInfo (lit "/a") (lit "/a/.git") [] (lit "dev")) (lit "t1")
            (mkPodInfo (lit "/a") (lit "/a/.git") [] (lit "work")) (lit "t2")); [|vm_compute..].
Defined.

Lemma lfs_interrupted_upload_witness :
  exists fs', lfs_upload_handler ZeroHash.lib same_path no_submodules false (Interrupted 1) example_db ∅ (token_header "t1")
      (oid_of ZeroHash.lib [1%N; 2%N]) [1%N; 2%N] = Returned (Status 500, fs') /\
    lfs_download_handler same_path no_submodules (fun _ => false) example_db fs' (token_header "t1")
      (oid_of ZeroHash.lib [1%N; 2%N]) = Returned (Bytes_ 200 [1%N]).
Proof.
  destruct (lfs_interrupted_upload ZeroHash.lib same_path no_submodules 1 example_db ∅ (token_header "t1") [1%N; 2%N] (laws := ZeroHash.laws)
              (mkPodInfo (lit "/a") (lit "/a/.git") [] (lit "dev")) (lit "t1")) as (fs' & H1 & H2 & _);
    [by vm_compute|by vm_compute|simpl; lia|]. by exists fs'.
Defined.

(** ** Requests of different pods *)

Definition env_var (k : str) (env : list (str * str)) : option str :=
  snd <$> List.find (fun kv => bool_decide (kv.1 = k)) env.

Section Gateway.
Context (canonicalize : str -> option str) (resolve_submodule_git_dirs : str -> list (str * str)).
Context (uri_parses : str -> bool) (daemon_socket : option str).

#[local] Notation handle := (handle_request canonicalize resolve_submodule_git_dirs uri_parses daemon_socket).

(** The Git directories of the repository of a pod: its own and those of its submodules. *)
Definition repo_git_dirs (repo_path : str) : list str :=
  option_list (canonicalize (path_join repo_path ".git")) ++ map snd (resolve_submodule_git_dirs repo_path).

Lemma served_dir_of_repo uri info git_dir :
  canonicalize (path_join (info_repo_path info) ".git") = Some git_dir -> info_git_dir info = git_dir ->
  info_submodule_git_dirs info = resolve_submodule_git_dirs (info_repo_path info) ->
  resolve_git_dir_for_request uri info ∈ repo_git_dirs (info_repo_path info).
Proof.
  intros Hc Hg Hs. unfold repo_git_dirs, resolve_git_dir_for_request. rewrite Hc, Hg, Hs. simpl.
  destruct (_ ≫= _) as [dp|]; [|by constructor].
  destruct (list_find _ _) as [[i [dp' gd]]|] eqn:E; [|by constructor].
  apply list_find_Some in E as (Hi & _). right. apply list_elem_of_fmap. exists (dp', gd). split; [done|].
  by eapply list_elem_of_lookup_2.
Qed.

(** The pod on whose behalf [git-http-backend] runs. *)
Lemma handle_request_pod db header uri query call : handle db header uri query = Cgi call ->
  exists token row, bearer_token header = Some token /\ row ∈ pods db /\ row_token row = token /\
    head (select_pods db (fun r => bool_decide (row_token r = token))) = Some row /\
    env_var POD_NAME_ENV (cgi_env call) = Some (row_name row) /\
    cgi_host_head_dir call ∈ repo_git_dirs (row_repo_path row) /\
    env_var (lit "GIT_PROJECT_ROOT") (cgi_env call) = Some (default [c_slash] (parent (cgi_host_head_dir call))).
Proof.
  unfold handle_request. destruct (bearer_token header) as [token|]; [|done].
  unfold get_pod_info, get_pod_by_token. destruct (select_pods db _) as [|row rows] eqn:Es; [done|].
  cbn [first_record]. destruct (row_to_pod_record row) as [rec|] eqn:Er; [|done]. cbn [mbind result_bind].
  destruct (canonicalize _) as [gd|] eqn:Ec; [|done]. cbn [context mbind result_bind].
  destruct daemon_socket as [sock|]; [|done]. intros [= <-].
  assert (row ∈ select_pods db (fun r => bool_decide (row_token r = token))) as Hin by (rewrite Es; by constructor).
  apply elem_of_bfilter in Hin as [Hin Ht%bool_decide_eq_true].
  assert (Db.repo_path rec = row_repo_path row /\ Db.name rec = row_name row) as [Hrp Hn].
  { unfold row_to_pod_record in Er. destruct (from_str _); simpl in Er; [|done]. by simplify_eq. }
  exists token, row. cbn [cgi_host_head_dir cgi_env]. rewrite <- Hrp, <- Hn. split_and!; try done.
  - by rewrite Es.
  - by apply (served_dir_of_repo _ (mkPodInfo (Db.repo_path rec) gd _ (Db.name rec)) gd).
Qed.


End Gateway.


(** ** Routing of submodule requests *)

(** A request path from its components. *)
Definition url_path (ws : list str) : str := ws ≫= fun w => c_slash :: w.

Definition slash_free (ws : list str) : Prop := Forall (fun w => c_slash ∉ w) ws.

(** The components from the first that satisfies the test on. *)
Fixpoint from_first (f : str -> list str -> bool) (ws : list str) : option (list str) :=
  match ws with
  | [] => None
  | w :: ws' => if f w ws' then Some ws else from_first f ws'
  end.

Lemma find_str_inside p s r : c_slash ∉ s ->
  find_str (c_slash :: p) (s ++ r) = prod_map (app s) Datatypes.id <$> find_str (c_slash :: p) r.
Proof.
  induction s as [|x s IH]; intros Hs; [change ([] ++ r) with r; by destruct (find_str (c_slash :: p) r) as [[]|]|].
  change ((x :: s) ++ r) with (x :: (s ++ r)). rewrite find_str_cons_no.
  - rewrite IH by set_solver. by destruct (find_str (c_slash :: p) r) as [[]|].
  - apply not_true_iff_false. intros (q & Hq)%starts_with_true. set_solver.
Qed.

(** Searching a path for a pattern that starts with a slash looks at each component. *)
Lemma find_component p (f : str -> list str -> bool) ws : slash_free ws ->
  (forall w ws', c_slash ∉ w -> slash_free ws' -> starts_with p (w ++ url_path ws') = f w ws') ->
  snd <$> find_str (c_slash :: p) (url_path ws) = url_path <$> from_first f ws.
Proof.
  intros Hws Hf. induction Hws as [|w ws Hw Hws IH]; [done|]. unfold url_path in *. rewrite bind_cons. simpl.
  assert (starts_with (c_slash :: p) (c_slash :: w ++ (ws ≫= fun w => c_slash :: w)) = f w ws) as Hs.
  { rewrite <- Hf by done. apply eq_true_iff_eq. rewrite !starts_with_true. split; intros [r Hr]; exists r; [by injection Hr|by rewrite Hr]. }
  rewrite Hs. destruct (f w ws); [done|]. rewrite find_str_inside by done. rewrite <- IH.
  by destruct (find_str _ _) as [[]|].
Qed.

Lemma starts_with_url p w ws' : c_slash ∉ p -> starts_with p (w ++ url_path ws') = starts_with p w.
Proof.
  intros Hp. apply eq_true_iff_eq. rewrite !starts_with_true. split.
  - revert w. induction p as [|x p IH]; intros w [r Hr]; [by exists w|].
    destruct w as [|y w].
    + exfalso. destruct ws' as [|v ws']; [done|]. unfold url_path in Hr. rewrite bind_cons in Hr.
      simpl in Hr. injection Hr as Hx _. set_solver.
    + simpl in Hr. injection Hr as -> Hr. destruct (IH ltac:(set_solver) w) as [q ->]; [by exists r|]. by exists q.
  - intros [r ->]. exists (r ++ url_path ws'). by rewrite app_assoc.
Qed.

Lemma starts_with_whole p w ws' : c_slash ∉ p -> c_slash ∉ w ->
  starts_with (p ++ [c_slash]) (w ++ url_path ws') = bool_decide (w = p) && negb (bool_decide (ws' = [])).
Proof.
  intros Hp Hw. apply eq_true_iff_eq.
  rewrite starts_with_true, andb_true_iff, negb_true_iff, bool_decide_eq_true, bool_decide_eq_false. split.
  - intros [r Hr]. rewrite <- app_assoc in Hr. simpl in Hr. destruct ws' as [|v ws'].
    + exfalso. unfold url_path in Hr. simpl in Hr. rewrite app_nil_r in Hr. subst. set_solver.
    + unfold url_path in Hr. rewrite bind_cons in Hr. simpl in Hr. by apply app_sep_inj_l in Hr as [-> _].
  - intros [-> Hne]. destruct ws' as [|v ws']; [done|]. exists (v ++ url_path ws').
    by rewrite <- app_assoc.
Qed.

Definition is_info (w : str) (ws : list str) : bool := bool_decide (w = lit "info") && negb (bool_decide (ws = [])).
Definition is_git (w : str) (_ : list str) : bool := starts_with "git-" w.

Lemma service_start_git ws : slash_free ws -> from_first is_info ws = None -> is_Some (from_first is_git ws) ->
  service_start (url_path ws) = url_path <$> from_first is_git ws.
Proof.
  intros Hws Hi [r Hg]. unfold service_start.
  change (lit "/info/") with (c_slash :: (lit "info" ++ [c_slash])).
  change (lit "/git-") with (c_slash :: lit "git-").
  rewrite (find_component (lit "info" ++ [c_slash]) is_info ws Hws), Hi
    by (intros; apply starts_with_whole; [decide_now|done]).
  rewrite (find_component (lit "git-") is_git ws Hws), Hg by (intros; apply starts_with_url; decide_now). done.
Qed.

Lemma service_start_info ws r : slash_free ws -> from_first is_info ws = Some r ->
  service_start (url_path ws) = Some (url_path r).
Proof.
  intros Hws Hi. unfold service_start. change (lit "/info/") with (c_slash :: (lit "info" ++ [c_slash])).
  by rewrite (find_component (lit "info" ++ [c_slash]) is_info ws Hws), Hi
    by (intros; apply starts_with_whole; [decide_now|done]).
Qed.

Lemma from_first_app f ws vs : Forall (fun w => forall vs, f w vs = false) ws -> from_first f (ws ++ vs) = from_first f vs.
Proof. induction 1 as [|w ws Hw _ IH]; [done|]. simpl. by rewrite Hw. Qed.

Lemma from_first_split f ws :
  exists a, ws = a ++ default [] (from_first f ws) /\
    (forall a1 w a2, a = a1 ++ w :: a2 -> f w (a2 ++ default [] (from_first f ws)) = false) /\
    (forall w r, from_first f ws = Some (w :: r) -> f w r = true) /\ from_first f ws <> Some [].
Proof.
  induction ws as [|w ws (a & Hws & Ha & Hr & Hn)].
  { exists []. split_and!; try done. by intros []. }
  simpl. destruct (f w ws) eqn:E.
  - exists []. split_and!; try done; [by intros []|naive_solver].
  - exists (w :: a). split_and!; try done; [by rewrite Hws at 1|].
    intros [|w' a1] v a2 Heq; simplify_eq/=; [by rewrite <- Hws|by apply (Ha a1)].
Qed.

Lemma split_url ws : slash_free ws -> split c_slash (url_path ws) = [] :: ws.
Proof.
  intros Hws. unfold url_path. induction Hws as [|w ws Hw Hws IH]; [done|]. rewrite bind_cons. simpl.
  f_equal. destruct Hws as [|v ws Hv Hws]; [by rewrite app_nil_r, split_free|].
  rewrite bind_cons in *. simpl in *. rewrite split_cons_sep by done. f_equal. by injection IH.
Qed.

Lemma url_path_inj a b : slash_free a -> slash_free b -> url_path a = url_path b -> a = b.
Proof. intros Ha Hb H%(f_equal (split c_slash)). rewrite !split_url in H by done. by injection H. Qed.

(** The components of the request for a service of the submodule at [dp]. *)
Definition submodule_request (dp : list str) (service : str) : list str :=
  lit "submodules" :: dp ++ [lit "rumpelpod.git"; service].

(** A submodule path without the component [info] and without components that start with
    [git-]. *)
Definition routable (dp : list str) : Prop := Forall (fun w => w <> lit "info" /\ starts_with "git-" w = false) dp.

Lemma routable_services dp service : starts_with "git-" service = true ->
  let ws := submodule_request dp service in
  match from_first is_info ws with Some r => Some r | None => from_first is_git ws end = Some [service] <-> routable dp.
Proof.
  intros Hs ws. unfold routable.
  assert (ws = (lit "submodules" :: dp ++ [lit "rumpelpod.git"]) ++ [service]) as Hws.
  { unfold ws, submodule_request. simpl. by rewrite <- app_assoc. }
  assert (forall f : str -> list str -> bool, (forall vs, f (lit "submodules") vs = false) -> (forall vs, f (lit "rumpelpod.git") vs = false) ->
            Forall (fun w => forall vs, f w vs = false) dp -> from_first f ws = from_first f [service]) as Hskip.
  { intros f H1 H2 Hf. rewrite Hws. apply from_first_app. constructor; [done|]. apply Forall_app. by split; [|constructor]. }
  split.
  - intros Hr. destruct (from_first is_info ws) as [r|] eqn:Ei.
    { exfalso. injection Hr as ->. destruct (from_first_split is_info ws) as (a & _ & _ & Hi & _).
      specialize (Hi _ _ Ei). unfold is_info in Hi. by rewrite andb_false_r in Hi. }
    destruct (from_first_split is_info ws) as (a & Ha & Hfi & _), (from_first_split is_git ws) as (b & Hb & Hfg & _).
    rewrite Ei in *. rewrite Hr in *. simpl in Ha, Hb. rewrite app_nil_r in Ha. subst a.
    rewrite Hws in Hb. apply app_inv_tail in Hb. subst b. apply Forall_forall. intros w Hw.
    apply list_elem_of_split in Hw as (d1 & d2 & ->). split.
    + intros ->. specialize (Hfi (lit "submodules" :: d1) (lit "info") (d2 ++ [lit "rumpelpod.git"; service])).
      unfold ws, submodule_request in Hfi. rewrite <- app_assoc in Hfi. specialize (Hfi eq_refl).
      unfold is_info in Hfi. by destruct d2.
    + apply (Hfg (lit "submodules" :: d1) w (d2 ++ [lit "rumpelpod.git"])). simpl. by rewrite <- app_assoc.
  - intros Hdp. rewrite (Hskip is_info), (Hskip is_git).
    + simpl. unfold is_info. rewrite andb_false_r. by unfold is_git; rewrite Hs.
    + by intros; vm_compute.
    + by intros; vm_compute.
    + eapply Forall_impl; [exact Hdp|]. by intros w [_ H] vs.
    + intros vs. unfold is_info. by rewrite bool_decide_false by by vm_compute.
    + intros vs. unfold is_info. by rewrite bool_decide_false by by vm_compute.
    + eapply Forall_impl; [exact Hdp|]. intros w [H _] vs. unfold is_info. by rewrite bool_decide_false.
Qed.

(** The request of a fetch or push for a submodule reaches its Git directory exactly when the
    path of the submodule has no component [info] and none that starts with [git-]: the URL is
    cut at the first such component instead of at the service, and [git-http-backend] is asked
    for a repository that does not exist. *)
Theorem submodule_requests_routed name dp service :
  slash_free dp -> c_slash ∉ service -> starts_with "git-" service = true ->
  rewrite_url_path (url_path (submodule_request dp service)) name = [c_slash] ++ name ++ url_path [service] <->
  routable dp.
Proof.
  intros Hdp Hsf Hs. set (ws := submodule_request dp service).
  assert (slash_free ws) as Hws.
  { constructor; [decide_now|]. apply Forall_app. split; [done|]. repeat constructor; [decide_now|done]. }
  rewrite <- (routable_services dp service Hs). fold ws.
  assert (exists r, service_start (url_path ws) = Some (url_path r) /\ slash_free r /\
            match from_first is_info ws with Some r => Some r | None => from_first is_git ws end = Some r) as (r & Hst & Hr & Hm).
  { destruct (from_first_split is_info ws) as (a & Ha & _), (from_first_split is_git ws) as (b & Hb & Hnone & _).
    destruct (from_first is_info ws) as [r|] eqn:Ei.
    - exists r. split_and!; [by apply service_start_info| |done]. rewrite Ha in Hws. by apply Forall_app in Hws as [_ ?].
    - destruct (from_first is_git ws) as [r|] eqn:Eg.
      + exists r. split_and!; [rewrite service_start_git, Eg by done; done| |done].
        rewrite Hb in Hws. by apply Forall_app in Hws as [_ ?].
      + exfalso. simpl in Hb. rewrite app_nil_r in Hb. subst b.
        assert (is_git service ([] ++ []) = false) as Hg; [|unfold is_git in Hg; congruence].
        apply (Hnone (lit "submodules" :: dp ++ [lit "rumpelpod.git"])).
        unfold ws, submodule_request. simpl. by rewrite <- app_assoc. }
  rewrite Hm. unfold rewrite_url_path. rewrite Hst. split.
  - intros [= H%app_inv_head]. f_equal. apply url_path_inj; [done|by repeat constructor|done].
  - by intros [= ->].
Qed.

Lemma submodule_requests_routed_witness :
  rewrite_url_path (lit "/submodules/vendor/lib/rumpelpod.git/git-receive-pack") (lit "lib") =
    lit "/lib/git-receive-pack" /\
  rewrite_url_path (lit "/submodules/vendor/git-tools/rumpelpod.git/git-receive-pack") (lit "git-tools") <>
    lit "/git-tools/git-receive-pack".
Proof.
  assert (forall dp, forallb (fun w => bool_decide (c_slash ∉ w)) dp = true -> slash_free dp) as Hf.
  { intros dp H. apply Forall_forall. intros w Hw%list_elem_of_In. rewrite forallb_forall in H.
    apply H in Hw. by apply bool_decide_eq_true in Hw. }
  split.
  - apply (submodule_requests_routed (lit "lib") [lit "vendor"; lit "lib"] (lit "git-receive-pack"));
      [apply Hf; by vm_compute|decide_now|by vm_compute|].
    repeat constructor; by vm_compute.
  - intros H. apply (submodule_requests_routed (lit "git-tools") [lit "vendor"; lit "git-tools"] (lit "git-receive-pack")) in H;
      [|apply Hf; by vm_compute|decide_now|by vm_compute].
    unfold routable in H. rewrite !Forall_cons in H. destruct H as (_ & [_ H] & _). by vm_compute in H.
Defined.

(** ** Managed SSH agents *)

Lemma ssh_agent_dir_shared lib runtime_dir repo_path tail name :
  ssh_agent_dir lib runtime_dir (repo_path ++ tail) name = ssh_agent_dir lib runtime_dir repo_path (tail ++ name).
Proof. unfold ssh_agent_dir. by rewrite !as_bytes_app, app_assoc. Qed.

(** Pods of different repositories can share one managed SSH agent: its directory is named
    after a digest of the repository path directly followed by the pod name, so moving
    characters from the end of the path to the front of the name does not change it, and the
    relay connects both pods to the same socket. *)
Theorem managed_agent_shared lib canonicalize subs ambient_of runtime_dir db h1 h2 t1 t2 i1 i2 tail :
  bearer_token h1 = Some t1 -> get_pod_info canonicalize subs db t1 = Ok (Some i1) ->
  bearer_token h2 = Some t2 -> get_pod_info canonicalize subs db t2 = Ok (Some i2) ->
  ambient_of (info_repo_path i1) = Some false -> ambient_of (info_repo_path i2) = Some false ->
  info_repo_path i1 = info_repo_path i2 ++ tail -> info_pod_name i2 = tail ++ info_pod_name i1 ->
  ssh_agent_handler lib canonicalize subs ambient_of runtime_dir db h1 =
  ssh_agent_handler lib canonicalize subs ambient_of runtime_dir db h2.
Proof.
  intros Hb1 Hg1 Hb2 Hg2 Ha1 Ha2 Hr Hn. unfold ssh_agent_handler.
  rewrite Hb1, Hg1, Ha1, Hb2, Hg2, Ha2, Hr, Hn. by rewrite ssh_agent_dir_shared.
Qed.

Lemma managed_agent_shared_witness :
  let db := pod_at "/w/foob" "ar" "t1" (pod_at "/w/foo" "bar" "t2" empty_conn) in
  let relay := ssh_agent_handler ZeroHash.lib same_path no_submodules (fun _ => Some false) (lit "/run") db in
  relay (token_header "t1") = relay (token_header "t2") /\
  exists p, relay (token_header "t1") = Returned (Ok (Managed p)).
Proof.
  intros db relay. split; [|eexists; vm_compute; reflexivity].
  apply (managed_agent_shared ZeroHash.lib same_path no_submodules (fun _ => Some false) (lit "/run") db
           (token_header "t1") (token_header "t2") (lit "t1") (lit "t2")
           (mkPodInfo (lit "/w/foob") (lit "/w/foob/.git") [] (lit "ar"))
           (mkPodInfo (lit "/w/foo") (lit "/w/foo/.git") [] (lit "bar")) (lit "b")); by vm_compute.
Defined.
