(* ===== verification/Daemon.v ===== *)
(** * Request handlers of the daemon (daemon.rs)

    How the daemon composes its parts when it serves a request: listing, stopping, deleting
    and recreating pods, handing out connections, and the decision of a launch between
    reconnecting and creating.  A handler works on the state of the daemon (the database, the
    table of connections, the cache of container ids, the refs of the repositories, the events
    sent so far) and on the state [E] of the container engines.  What reaches an engine, a
    cluster, git or a pod is a parameter; Engine.v models the engine's side of it.  A handler
    runs while it holds the lease of its pod (Lifecycle.v), so its accesses to that pod are not
    interleaved with those of another one. *)
From stdpp Require Import gmap sorting.
From S2P Require Import Prelude Strs PodNames Access Hosts Engine PodConn Json HostConn Conns Db.

(** ** Statuses *)

(** protocol.rs [PodStatus]; a container engine returns the four of [BackendStatus]. *)
Inductive ListStatus :=
| LStarting | LRunning | LStopped | LGone | LDisconnected | LStopping | LDeleting | LBroken.

#[export] Instance ListStatus_eq_dec : EqDecision ListStatus.
Proof. solve_decision. Defined.

#[export] Instance BackendStatus_eq_dec : EqDecision BackendStatus.
Proof. solve_decision. Defined.

Definition of_backend (s : BackendStatus) : ListStatus :=
  match s with
  | BRunning => LRunning
  | BStopped => LStopped
  | BGone => LGone
  | BDisconnected => LDisconnected
  end.

Definition cached_pod_status (db_status : Db.PodStatus) (connection_status : option PodConnectionStatus)
    : ListStatus :=
  match db_status with
  | Initializing | Error => LStopped
  | Stopping => LStopping
  | Deleting => LDeleting
  | DeleteFailed => LBroken
  | Ready =>
      match connection_status with
      | Some Connected | Some Connecting => LRunning
      | Some HostDisconnected | Some PodDisconnected | None => LDisconnected
      | Some Stopped => LStopped
      end
  end.

(** The status of a synchronised listing; [unreachable] is whether the pod's host is remote
    and was not queried. *)
Definition synced_pod_status (db_status : Db.PodStatus) (container : option PodBackendInfo) (unreachable : bool)
    : ListStatus :=
  match db_status with
  | Ready =>
      match container with
      | Some info => of_backend (info_status info)
      | None => if unreachable then LDisconnected else LGone
      end
  | Initializing | Error =>
      match container with
      | Some info => of_backend (info_status info)
      | None => if unreachable then LDisconnected else LStopped
      end
  | Stopping => LStopping
  | Deleting => LDeleting
  | DeleteFailed => LBroken
  end.

Inductive daemon_error :=
| DbError (e : db_error)
| PodNotFound
| PodIsStopping | PodIsDeleting | PodNotDeleted
| PodNotConnected
| InvalidHost
| ResolveFailed (e : resolve_error)
| ExecutorUnavailable
| ComposeInvalid
| BackendFailed (e : str)
| KubernetesStop
| ForgetWithWait
| OfflineSync
| Unavailable (e : str).

Definition validate_connect_status (s : Db.PodStatus) : result daemon_error unit :=
  match s with
  | Ready | Initializing | Error => Ok tt
  | Stopping => Err PodIsStopping
  | Deleting => Err PodIsDeleting
  | DeleteFailed => Err PodNotDeleted
  end.

(** ** The state of a pod's branch *)

Record PodGitInfo := mkGitInfo { repo_state : list N; last_commit_time : Z }.

(** [compute_git_info]: the commits of the host's HEAD and of the pod's primary ref, the
    committer time of the latter and the commits each is ahead of the other, as git2 gives
    them. *)
Definition compute_git_info (host_oid pod_oid : option str) (commit_time : option Z)
    (graph_ahead_behind : str -> str -> option (N * N)) : option PodGitInfo :=
  h ← host_oid; p ← pod_oid; t ← commit_time;
  state ← if bool_decide (h = p) then Some (lit "up to date")
          else ab ← graph_ahead_behind p h;
               Some (match ab with
                     | (0, 0) => lit "up to date"
                     | (a, 0) => lit "ahead " ++ show a
                     | (0, b) => lit "behind " ++ show b
                     | (a, b) => lit "ahead " ++ show a ++ lit ", behind " ++ show b
                     end%N);
  Some (mkGitInfo state t).

(** ** The daemon *)

Notation pod := (list N * list N)%type (only parsing).

Record Daemon := mkDaemon {
  d_db : Conn;
  d_pods : gmap (list N * list N) PodConnection;
  d_ids : gmap (list N * list N) (list N);
  d_warmed : gset (list N * list N);
  d_refs : gmap (list N) (gset (list N));
  d_events : list (list N * list N);
}.

#[export] Instance Daemon_updatable : Updatable Daemon := fun d =>
  mkDaemon (d_db d) (d_pods d) (d_ids d) (d_warmed d) (d_refs d) (d_events d).

Definition emit_status_changed (k : pod) (d : Daemon) : Daemon := d <| d_events ::= fun l => l ++ [k] |>.

Definition remove_pod (k : pod) (d : Daemon) : Daemon := d <| d_pods ::= fun m => fst (pods_remove k m) |>.

(** The terminal session it also ends is a process of its own. *)
Definition cleanup_codex_runtime (k : pod) (d : Daemon) : Daemon :=
  d <| d_pods ::= alter remove_codex_proxy k |>.

Inductive PodConnectionDisposition := Remove | Preserve.

Definition dispose (disposition : PodConnectionDisposition) (k : pod) (d : Daemon) : Daemon :=
  match disposition with
  | Remove => remove_pod k d
  | Preserve => d <| d_pods ::= alter reset_for_recreate k |>
  end.

Section Handlers.
Context {E P : Type}.
(** The clock, serde's decoding of a stored host, and the programs found on the path. *)
Context (now : str) (parse_host : str -> option Host) (which : str -> bool).
(** [executor::pod_id_for]. *)
Context (pod_id : pod -> str).
(** Opening an executor for a host, and the Compose project of a record, if it has one. *)
Context (host_executor : Host -> E -> bool * E).
Context (compose_project : PodRecord -> Host -> E -> result unit (option P) * E).
(** [project.down] or [executor.delete], and [project.stop] or [executor.stop]. *)
Context (backend_delete backend_stop : Host -> option P -> str -> E -> result str unit * E).
(** The Git directories of a repository and its submodules, and [git for-each-ref]. *)
Context (git_dirs : str -> list str) (for_each_ref : gset (list N) -> str -> option (list str)).

(** *** Refs of a deleted pod *)

Definition cleanup_pod_refs_in_git_dir (pod_name : str) (refs : gset (list N)) : gset (list N) :=
  let refs :=
    match for_each_ref refs (lit "refs/rumpelpod/*@" ++ pod_name) with
    | Some out => foldl (fun rs r => rs ∖ {[r]}) refs (List.filter (fun s => negb (bool_decide (s = []))) out)
    | None => refs
    end in
  refs ∖ {[lit "refs/rumpelpod/" ++ pod_name]}.

Definition cleanup_pod_refs (k : pod) (refs : gmap (list N) (gset (list N))) : gmap (list N) (gset (list N)) :=
  foldl (fun m dir => alter (cleanup_pod_refs_in_git_dir k.2) dir m) refs (git_dirs k.1).

(** *** Deleting *)

(** What follows a backend that confirmed the deletion. *)
Definition deletion_confirmed (k : pod) (d : Daemon) : Daemon :=
  emit_status_changed k
    (d <| d_ids ::= delete k |> <| d_refs ::= cleanup_pod_refs k |>
       <| d_db ::= fun c => fst (delete_pod c k.1 k.2) |>).

Definition set_pod_status (k : pod) (s : Db.PodStatus) (d : Daemon) : Daemon :=
  match get_pod (d_db d) k.1 k.2 with
  | Ok (Some record) => d <| d_db ::= fun c => update_pod_status c now (Db.id record) s |>
  | _ => d
  end.

(** The background task: one attempt for each delay. *)
Fixpoint delete_attempts (delays_secs : list nat) (host : Host) (project : option P) (k : pod) (d : Daemon) (e : E)
    : Daemon * E :=
  match delays_secs with
  | [] => (emit_status_changed k (set_pod_status k DeleteFailed d), e)
  | _ :: delays_secs =>
      let '(r, e) := backend_delete host project (pod_id k) e in
      match r with
      | Ok _ => (deletion_confirmed k d, e)
      | Err _ => delete_attempts delays_secs host project k d e
      end
  end.

Definition delete_delays : list nat := [0; 10; 60].

Definition is_kubernetes (h : Host) : bool := match h with Kubernetes _ _ _ _ _ _ _ => true | _ => false end.

(** The background task is run to its end; the answer does not wait for it. *)
Definition delete_pod_impl (k : pod) (wait : bool) (disposition : PodConnectionDisposition) (d : Daemon) (e : E)
    : result daemon_error unit * Daemon * E :=
  match get_pod (d_db d) k.1 k.2 with
  | Err x => (Err (DbError x), d, e)
  | Ok None => (Ok tt, emit_status_changed k (cleanup_codex_runtime k (remove_pod k d)), e)
  | Ok (Some record) =>
      match parse_host (Db.host record) with
      | None => (Err InvalidHost, d, e)
      | Some host =>
          let '(opened, e) := host_executor host e in
          if negb opened then (Err ExecutorUnavailable, d, e) else
          let '(project, e) := compose_project record host e in
          match project with
          | Err _ => (Err ComposeInvalid, d, e)
          | Ok project =>
              let d := d <| d_db ::= fun c => update_pod_status c now (Db.id record) Deleting |> in
              let d := cleanup_codex_runtime k (dispose disposition k (emit_status_changed k d)) in
              if is_kubernetes host || wait then
                let '(r, e) := backend_delete host project (pod_id k) e in
                match r with
                | Ok _ => (Ok tt, deletion_confirmed k d, e)
                | Err x => (Err (BackendFailed x), d, e)
                end
              else let '(d, e) := delete_attempts delete_delays host project k d e in (Ok tt, d, e)
          end
      end
  end.

(** [forget_intents] is [creation::forget]. *)
Definition delete_pod_handler (forget_intents : pod -> result daemon_error unit) (k : pod) (wait forget : bool)
    (d : Daemon) (e : E) : result daemon_error unit * Daemon * E :=
  if forget && wait then (Err ForgetWithWait, d, e)
  else if forget then
    match forget_intents k with
    | Err x => (Err x, d, e)
    | Ok _ => (Ok tt, deletion_confirmed k (cleanup_codex_runtime k (remove_pod k d)), e)
    end
  else delete_pod_impl k wait Remove d e.

Definition forget_gone_pod (k : pod) (d : Daemon) : Daemon :=
  (cleanup_codex_runtime k (remove_pod k d)) <| d_ids ::= delete k |>
    <| d_db ::= fun c => fst (delete_pod c k.1 k.2) |>.

(** *** Stopping *)

Definition stop_finished (k : pod) (d : Daemon) : Daemon := emit_status_changed k (set_pod_status k Ready d).

Definition stop_pod (k : pod) (wait : bool) (d : Daemon) (e : E) : result daemon_error unit * Daemon * E :=
  match get_pod (d_db d) k.1 k.2 with
  | Err x => (Err (DbError x), d, e)
  | Ok record =>
      let host := match record with
                  | Some record => context InvalidHost (parse_host (Db.host record))
                  | None => match resolve_container_tools which (Localhost Auto) with
                            | Ok h => Ok h
                            | Err x => Err (ResolveFailed x)
                            end
                  end in
      match host with
      | Err x => (Err x, d, e)
      | Ok host =>
          if is_kubernetes host then (Err KubernetesStop, d, e) else
          let '(opened, e) := host_executor host e in
          if negb opened then (Err ExecutorUnavailable, d, e) else
          let '(project, e) := match record with
                               | Some record => compose_project record host e
                               | None => (Ok None, e)
                               end in
          match project with
          | Err _ => (Err ComposeInvalid, d, e)
          | Ok project =>
              let d := match record with
                       | Some record => d <| d_db ::= fun c => update_pod_status c now (Db.id record) Stopping |>
                       | None => d
                       end in
              let d := cleanup_codex_runtime k
                         (emit_status_changed k d <| d_pods ::= pods_stop_events k |>) in
              let '(r, e) := backend_stop host project (pod_id k) e in
              (if wait then match r with Ok _ => Ok tt | Err x => Err (BackendFailed x) end else Ok tt,
               stop_finished k d, e)
          end
      end
  end.

(** *** Listing *)

Inductive PodListMode := Cached | Sync | Offline.

Record PodInfo := mkPodInfo {
  pi_name : list N;
  pi_status : ListStatus;
  pi_created : list N;
  pi_host : list N;
  pi_repo_state : option (list N);
  pi_container_id : option (list N);
  pi_last_commit_time : option Z;
  pi_claude_state : option ClaudeState;
  pi_codex_state : option CodexState;
}.

(** What a backend lists for a repository, whether a host is connected, and the branch of a
    pod. *)
Context (list_by_repo : Host -> str -> option (gmap (list N) PodBackendInfo)).
Context (host_connected : Host -> bool) (git_info : pod -> option PodGitInfo).
(** [pod.created_at.format("%Y-%m-%d %H:%M")] *)
Context (format_time : str -> str).

Notation status_maps := (gmap (list N) (option (gmap (list N) PodBackendInfo))).

(** The query for the host of one pod, unless that host was queried already or, in a cached
    listing, before. *)
Definition query_host (repo_path : str) (sync : bool) (warmed : gset (list N * list N)) (maps : status_maps)
    (record : PodRecord) : status_maps :=
  if negb sync && bool_decide ((repo_path, Db.host record) ∈ warmed) then maps
  else match parse_host (Db.host record) with
       | None => maps
       | Some h =>
           match maps !! Db.host record with
           | Some _ => maps
           | None =>
               let answer := match h with
                             | Ssh _ _ => if host_connected h then list_by_repo h repo_path else None
                             | Localhost _ | Kubernetes _ _ _ _ _ _ _ => list_by_repo h repo_path
                             end in
               <[Db.host record := answer]> maps
           end
       end.

Definition query_hosts (repo_path : str) (sync offline : bool) (warmed : gset (list N * list N))
    (records : list PodRecord) : status_maps :=
  if offline then ∅ else foldl (query_host repo_path sync warmed) ∅ records.

(** A backend that answered is authoritative for the ids of its pods. *)
Definition cache_ids (repo_path : str) (maps : status_maps) (d : Daemon) (record : PodRecord) : Daemon :=
  match maps !! Db.host record with
  | Some (Some status_map) =>
      d <| d_ids ::= fun ids =>
             match status_map !! Db.name record with
             | Some info => <[(repo_path, Db.name record) := info_container_id info]> ids
             | None => delete (repo_path, Db.name record) ids
             end |>
        <| d_warmed ::= fun w => {[(repo_path, Db.host record)]} ∪ w |>
  | _ => d
  end.

Definition list_entry (repo_path : str) (sync : bool) (maps : status_maps) (d : Daemon) (record : PodRecord) : PodInfo :=
  let k := (repo_path, Db.name record) in
  let host := parse_host (Db.host record) in
  let answer := mjoin (maps !! Db.host record) in
  let status :=
    if sync
    then synced_pod_status (Db.status record) (m ← answer; m !! Db.name record)
           (is_some_and is_remote host && bool_decide (answer = None))
    else cached_pod_status (Db.status record) (pods_status k (d_pods d)) in
  let running := bool_decide (status = LRunning) in
  mkPodInfo (Db.name record) status (format_time (Db.created_at record))
    (default (Db.host record) (Host_display <$> host))
    (repo_state <$> git_info k) (d_ids d !! k) (last_commit_time <$> git_info k)
    (if running then pods_claude_state k (d_pods d) else None)
    (if running then pods_codex_state k (d_pods d) else None).

(** A pod that is being created: its lock has tasks, and the database does not know it yet.
    [locks] holds the locks still referenced, with their number of tasks and host. *)
Definition starting_entries (repo_path : str) (known : list PodInfo) (locks : list (pod * (nat * list N))) : list PodInfo :=
  omap (fun '((repository, name), (tasks, host)) =>
          if negb (bool_decide (repository = repo_path)) || existsb (fun p => bool_decide (pi_name p = name)) known
             || bool_decide (tasks = 0) then None
          else Some (mkPodInfo name LStarting [] host None None None None None)) locks.

Definition list_pods_handler (sync_list_pod_refs : list PodRecord -> result daemon_error unit)
    (repo_path : str) (mode : PodListMode) (sync_refs : bool) (locks : list (pod * (nat * list N))) (d : Daemon)
    : result daemon_error (list PodInfo) * Daemon :=
  let '(sync, offline) := match mode with Cached => (false, false) | Sync => (true, false) | Offline => (false, true) end in
  if offline && sync_refs then (Err OfflineSync, d)
  else match list_pods (d_db d) repo_path with
       | Err x => (Err (DbError x), d)
       | Ok records =>
           match (if sync_refs then sync_list_pod_refs records else Ok tt) with
           | Err x => (Err x, d)
           | Ok _ =>
               let maps := query_hosts repo_path sync offline (d_warmed d) records in
               let d := foldl (cache_ids repo_path maps) d records in
               let entries := map (list_entry repo_path sync maps d) records in
               (Ok (entries ++ starting_entries repo_path entries locks), d)
           end
       end.

(** *** Handing out connections *)

Definition connected (c : PodConnection) : bool := bool_decide (PodConn.status c = Connected).

(** The endpoint a client executes commands through. *)
Definition exec_connection (k : pod) (d : Daemon) : result daemon_error (PodEndpoint * HttpVersion) :=
  match get_pod (d_db d) k.1 k.2 with
  | Err x => Err (DbError x)
  | Ok None => Err PodNotFound
  | Ok (Some record) =>
      if negb (bool_decide (Db.status record = Ready)) then Err PodNotConnected
      else
        c ← context PodNotConnected (d_pods d !! k);
        if negb (connected c) then Err PodNotConnected
        else
          ep ← context PodNotConnected (endpoint c);
          if negb (bool_decide (endpoint_token ep = Db.token record)) then Err PodNotConnected
          else v ← match event_http_version_of c with Ok v => Ok v | Err x => Err (Unavailable x) end;
               Ok (ep, v)
  end.

(** [default_socket] is [default_docker_socket]. *)
Definition initialize_docker_socket (default_socket : str) (h : Host) : run (option str) :=
  match h with
  | Localhost Docker => Prelude.Returned (Some default_socket)
  | Localhost Podman | Ssh _ Docker | Ssh _ Podman | Kubernetes _ _ _ _ _ _ _ => Prelude.Returned None
  | Localhost Auto | Ssh _ Auto => Panicked
  end.

(** The socket is the last thing to be computed, so its panic is the request's. *)
Record PreparedPodConnection := mkPrepared {
  prep_container_id : list N;
  prep_docker_socket : run (option (list N));
  prep_host : Host;
  prep_container_url : list N;
  prep_container_token : list N;
  prep_container_repo_path : list N;
}.

(** [repo_path_of] is the workspace of the stored devcontainer, or why it cannot be read. *)
Definition prepared_connection (default_socket : str) (repo_path_of : PodRecord -> result daemon_error str) (k : pod)
    (require_claude_config : bool) (d : Daemon) : result daemon_error (option PreparedPodConnection) * Daemon :=
  match get_pod (d_db d) k.1 k.2 with
  | Err x => (Err (DbError x), d)
  | Ok None => (Ok None, d)
  | Ok (Some record) =>
      if negb (bool_decide (Db.status record = Ready)) then (Ok None, d)
      else match (if require_claude_config then has_claude_config_copied (d_db d) (Db.id record) else Ok true) with
           | Err x => (Err (DbError x), d)
           | Ok false => (Ok None, d)
           | Ok true =>
               match d_pods d !! k with
               | None => (Ok None, d)
               | Some c =>
                   if negb (connected c) then (Ok None, d)
                   else match exec_endpoint c with
                        | None => (Ok None, d)
                        | Some (ep, container_id) =>
                            if negb (bool_decide (endpoint_token ep = Db.token record)) then (Ok None, d)
                            else match repo_path_of record with
                                 | Err x => (Err x, d)
                                 | Ok path =>
                                     (Ok (Some (mkPrepared container_id (initialize_docker_socket default_socket (PodConn.host c))
                                                  (PodConn.host c) (url ep) (endpoint_token ep) path)),
                                      d <| d_pods ::= alter request_connection k |>)
                                 end
                        end
               end
           end
  end.

(** *** Launching: reconnect or create *)

Inductive ReconnectPodResult := RConnected (r : list N) | RGone | RUnavailable (e : str).

(** The status check before a reconnect to a Kubernetes pod. *)
Definition k8s_reconnect_status (s : BackendStatus) : result ReconnectPodResult unit :=
  match s with
  | BRunning => Ok tt
  | BGone => Err RGone
  | BStopped | BDisconnected => Err (RUnavailable "k8s pod is not running")
  end.

(** Whether [reconnect_docker] has to start the container first. *)
Definition docker_was_stopped (start_stopped : bool) (s : BackendStatus) : result daemon_error bool :=
  match s with
  | BRunning => Ok false
  | BStopped => if start_stopped then Ok true else Err (Unavailable "pod is stopped")
  | BGone => Err (Unavailable "container not found")
  | BDisconnected => Err (Unavailable "pod is not available")
  end.

(** What becomes of a launch: the existing pod, or a new one is created, or an error. *)
Inductive launch_step := Reconnected (r : list N) | Create | LaunchFailed (e : daemon_error).

(** The first part of [launch_pod_impl].  [backend_status] is [status_async]; [stored_config]
    and [current_config] are whether the stored and the present configuration can be read;
    [reconnect] is [reconnect_pod_async]. *)
Definition launch_existing (backend_status : Host -> str -> E -> result daemon_error BackendStatus * E)
    (stored_config current_config : PodRecord -> result daemon_error unit)
    (reconnect : PodRecord -> Host -> E -> ReconnectPodResult * E)
    (k : pod) (d : Daemon) (e : E) : launch_step * Daemon * E :=
  match get_pod (d_db d) k.1 k.2 with
  | Err x => (LaunchFailed (DbError x), d, e)
  | Ok None => (Create, d, e)
  | Ok (Some existing) =>
      match parse_host (Db.host existing) with
      | None => (LaunchFailed InvalidHost, d, e)
      | Some host =>
          match resolve_docker_engine which host with
          | Err x => (LaunchFailed (ResolveFailed x), d, e)
          | Ok host =>
              let is_compose := negb (bool_decide (Db.compose_config existing = [])) in
              let '(status, e) :=
                if is_compose then (Ok BRunning, e)
                else let '(opened, e) := host_executor host e in
                     if opened then backend_status host (pod_id k) e else (Err ExecutorUnavailable, e) in
              match status with
              | Err x => (LaunchFailed x, d, e)
              | Ok BGone => (Create, forget_gone_pod k d, e)
              | Ok _ =>
                  match (if is_compose then stored_config existing else current_config existing) with
                  | Err x => (LaunchFailed x, d, e)
                  | Ok _ =>
                      let '(r, e) := reconnect existing host e in
                      match r with
                      | RConnected r => (Reconnected r, d, e)
                      | RUnavailable x => (LaunchFailed (Unavailable x), d, e)
                      | RGone =>
                          if is_compose then
                            let '(r, d, e) := delete_pod_impl k true Remove d e in
                            (match r with Ok _ => Create | Err x => LaunchFailed x end, d, e)
                          else (Create, forget_gone_pod k d, e)
                      end
                  end
              end
          end
      end
  end.

(** *** Recreating *)

Definition AGENT_NAMES : list str := [lit "claude"; lit "codex"; lit "grok"; lit "pi"].

(** What a pod server answers: the patch of the uncommitted changes and the files of each
    agent. *)
Record PodServer := mkServer {
  ps_patch : result daemon_error (list N);
  ps_agent_files : list N -> result daemon_error (option (list N));
}.

Fixpoint snapshot_agents (server : PodServer) (agents : list str) : result daemon_error (list (list N * list N)) :=
  match agents with
  | [] => Ok []
  | agent :: agents =>
      o ← ps_agent_files server agent;
      rest ← snapshot_agents server agents;
      Ok (match o with Some buf => (agent, buf) :: rest | None => rest end)
  end.

Definition snapshot : Type := (option (list N) * list (list N * list N))%type.

(** The snapshot that precedes the deletion.  [server] is the pod's server when its port is
    known, the proxy to it starts and it answers. *)
Definition take_snapshot (status : BackendStatus) (server : option PodServer) : result daemon_error snapshot :=
  if bool_decide (status = BRunning) then
    match server with
    | None => Ok (None, [])
    | Some server =>
        p ← ps_patch server;
        agents ← snapshot_agents server AGENT_NAMES;
        Ok (if bool_decide (p = []) then None else Some p, agents)
    end
  else Ok (None, []).

(** Whether the Claude configuration was copied to the pod before. *)
Definition copied_agent_configs (k : pod) (d : Daemon) : result daemon_error bool :=
  match get_pod (d_db d) k.1 k.2 with
  | Err x => Err (DbError x)
  | Ok None => Ok false
  | Ok (Some record) =>
      match has_claude_config_copied (d_db d) (Db.id record) with Ok b => Ok b | Err x => Err (DbError x) end
  end.

Definition mark_restored_agent_configs (k : pod) (copied_claude : bool) (restored : list str) (d : Daemon)
    : result daemon_error unit * Daemon :=
  if bool_decide (restored = []) then (Ok tt, d)
  else match get_pod (d_db d) k.1 k.2 with
       | Err x => (Err (DbError x), d)
       | Ok None => (Err PodNotFound, d)
       | Ok (Some record) =>
           (Ok tt, if copied_claude && bool_decide (lit "claude" ∈ restored)
                   then d <| d_db ::= fun c => mark_claude_config_copied c (Db.id record) |> else d)
       end.

(** The part of [recreate_pod_impl] from the snapshot on, for a pod of the database.
    [launch] is [launch_pod_impl] and [restore] the upload of a snapshot to the new pod. *)
Definition recreate_pod (status : result daemon_error BackendStatus) (server : option PodServer)
    (launch : Daemon -> E -> result daemon_error (list N) * Daemon * E)
    (restore : snapshot -> E -> result daemon_error unit * E)
    (k : pod) (d : Daemon) (e : E) : result daemon_error (list N) * Daemon * E :=
  match copied ← copied_agent_configs k d; s ← status; saved ← take_snapshot s server; Ok (copied, saved) with
  | Err x => (Err x, d, e)
  | Ok (copied, saved) =>
      let '(deleted, d, e) := delete_pod_impl k true Preserve d e in
      match deleted with
      | Err x => (Err x, d, e)
      | Ok _ =>
          let '(launched, d, e) := launch d e in
          match launched with
          | Err x => (Err x, d, e)
          | Ok r =>
              match saved with
              | (None, []) => (Ok r, d, e)
              | (_, agents) =>
                  let '(restored, e) := restore saved e in
                  match restored with
                  | Err x => (Err x, d, e)
                  | Ok _ => let '(m, d) := mark_restored_agent_configs k copied (map fst agents) d in (_ ← m; Ok r, d, e)
                  end
              end
          end
      end
  end.

(** *** Test cleanup *)

Definition delete_one (d : Daemon) (e : E) (record : PodRecord) : bool * Daemon * E :=
  let k := (Db.repo_path record, Db.name record) in
  match parse_host (Db.host record) with
  | None => (false, d, e)
  | Some host =>
      let '(project, e) := compose_project record host e in
      let '(r, e) :=
        match project with
        | Err _ => (Err (lit "invalid compose project"), e)
        | Ok (Some p) => backend_delete host (Some p) (pod_id k) e
        | Ok None => let '(opened, e) := host_executor host e in
                     if opened then backend_delete host None (pod_id k) e else (Err (lit "no executor"), e)
        end in
      match r with
      | Ok _ => (true, d <| d_ids ::= delete k |>, e)
      | Err _ => (false, d, e)
      end
  end.

Fixpoint delete_each (records : list PodRecord) (deleted : nat) (d : Daemon) (e : E) : nat * Daemon * E :=
  match records with
  | [] => (deleted, d, e)
  | record :: records =>
      let '(ok, d, e) := delete_one d e record in
      delete_each records (if ok then S deleted else deleted) d e
  end.

Definition delete_all_pods (d : Daemon) (e : E) : result daemon_error nat * Daemon * E :=
  match list_all_pods (d_db d) with
  | Err x => (Err (DbError x), d, e)
  | Ok records => let '(n, d, e) := delete_each records 0 d e in (Ok n, d, e)
  end.

End Handlers.

(** ** Lemmas *)

Definition with_status (now : str) (s : Db.PodStatus) (r : PodRow) : PodRow :=
  r <| row_status := as_str s |> <| row_updated_at := now |>.

Lemma get_pod_at c (k : pod) : conn_wf c -> get_pod c k.1 k.2 = Ok (record_of <$> view c !! k).
Proof. intros H. rewrite get_pod_view by done. by destruct k. Qed.

Lemma status_with_status now s r : Db.status (record_of (with_status now s r)) = s.
Proof. unfold record_of, with_status. rsimpl. by rewrite from_as_str. Qed.

Lemma update_status_wf c now id s : conn_wf c -> conn_wf (update_pod_status c now id s).
Proof. intros H. apply update_pods_wf; try done. intros r _. rsimpl. by rewrite from_as_str. Qed.

Lemma view_status c now (k : pod) row s : conn_wf c -> view c !! k = Some row ->
  view (update_pod_status c now (row_id row) s) = <[k := with_status now s row]> (view c).
Proof.
  intros Hwf Hk. unfold update_pod_status. rewrite view_update_pods by done. apply map_eq. intros k'.
  rewrite lookup_fmap. destruct (decide (k' = k)) as [->|Hne].
  - rewrite Hk, lookup_insert_eq. simpl. by rewrite bool_decide_true.
  - rewrite lookup_insert_ne by done. destruct (view c !! k') as [r|] eqn:E; [|done]. simpl.
    rewrite bool_decide_false; [done|]. intros Hid. apply Hne.
    apply view_lookup in E as [Hr <-]; [|apply Hwf]. apply view_lookup in Hk as [Hrow <-]; [|apply Hwf].
    f_equal. by eapply (NoDup_map_inj row_id); [apply Hwf| | |].
Qed.

Lemma record_of_id row : Db.id (record_of row) = row_id row.
Proof. done. Qed.

Section Deletes.
Context {E P : Type}.
Context (now : str) (parse_host : str -> option Host) (which : str -> bool) (pod_id : pod -> str).
Context (host_executor : Host -> E -> bool * E).
Context (compose_project : PodRecord -> Host -> E -> result unit (option P) * E).
Context (backend_delete backend_stop : Host -> option P -> str -> E -> result str unit * E).
Context (git_dirs : str -> list str) (for_each_ref : gset (list N) -> str -> option (list str)).

#[local] Notation confirmed := (deletion_confirmed git_dirs for_each_ref).
#[local] Notation attempts := (delete_attempts now pod_id backend_delete git_dirs for_each_ref).
#[local] Notation delete_impl :=
  (delete_pod_impl now parse_host pod_id host_executor compose_project backend_delete git_dirs for_each_ref).
#[local] Notation stop :=
  (stop_pod now parse_host which pod_id host_executor compose_project backend_stop).

(** The state [e'] of the engines is what a deletion of the pod on its host, which succeeded,
    left. *)
Definition engine_confirmed (k : pod) (row : PodRow) (e' : E) : Prop :=
  exists host project e0,
    parse_host (row_host row) = Some host /\ backend_delete host project (pod_id k) e0 = (Ok tt, e').

(** The pod's row is marked and its connection disposed of, before the engine is asked. *)
Definition deleting (k : pod) (row : PodRow) (disposition : PodConnectionDisposition) (d : Daemon) : Daemon :=
  cleanup_codex_runtime k (dispose disposition k
    (emit_status_changed k (d <| d_db ::= fun c => update_pod_status c now (row_id row) Deleting |>))).

Lemma attempts_spec delays host project k d e :
  let '(d', e') := attempts delays host project k d e in
  ((exists e0, backend_delete host project (pod_id k) e0 = (Ok tt, e')) /\ d' = confirmed k d) \/
  d' = emit_status_changed k (set_pod_status now k DeleteFailed d).
Proof.
  revert e. induction delays as [|delay delays IH]; intros e; simpl; [by right|].
  destruct (backend_delete host project (pod_id k) e) as [[[]|x] e'] eqn:Eb.
  - left. split; [|done]. by exists e.
  - apply IH.
Qed.

(** Every way a deletion of a known pod can end. *)
Inductive delete_outcome (k : pod) (row : PodRow) (disposition : PodConnectionDisposition) (wait : bool) (d : Daemon)
    : result daemon_error unit -> Daemon -> E -> Prop :=
| refused x e' : (forall y, x <> BackendFailed y) -> delete_outcome k row disposition wait d (Err x) d e'
| deleted e' : engine_confirmed k row e' ->
    delete_outcome k row disposition wait d (Ok tt) (confirmed k (deleting k row disposition d)) e'
| failed_waiting x e' :
    delete_outcome k row disposition wait d (Err (BackendFailed x)) (deleting k row disposition d) e'
| failed_background e' : wait = false ->
    delete_outcome k row disposition wait d (Ok tt)
      (emit_status_changed k (set_pod_status now k DeleteFailed (deleting k row disposition d))) e'.

Lemma delete_impl_cases k wait disposition d e row :
  conn_wf (d_db d) -> view (d_db d) !! k = Some row ->
  let '(r, d', e') := delete_impl k wait disposition d e in delete_outcome k row disposition wait d r d' e'.
Proof.
  intros Hwf Hk. unfold delete_pod_impl. rewrite get_pod_at, Hk by done. cbn [fmap option_fmap option_map].
  change (Db.host (record_of row)) with (row_host row).
  destruct (parse_host _) as [host|] eqn:Eh; [|by constructor].
  destruct (host_executor host e) as [[] e1]; cbn [negb]; [|by constructor].
  destruct (compose_project _ host e1) as [[project|x] e2]; [|by constructor].
  change (cleanup_codex_runtime k _) with (deleting k row disposition d).
  destruct (is_kubernetes host || wait) eqn:Ew.
  - destruct (backend_delete host project (pod_id k) e2) as [[[]|x] e3] eqn:Eb; [|constructor].
    constructor. by exists host, project, e2.
  - apply orb_false_iff in Ew as [_ ->].
    pose proof (attempts_spec delete_delays host project k (deleting k row disposition d) e2) as H.
    destruct (attempts _ _ _ _ _ _) as [d' e3]. destruct H as [[[e0 Hc] ->]| ->]; constructor; [|done].
    by exists host, project, e0.
Qed.

Lemma deleting_db k row disposition d : conn_wf (d_db d) -> view (d_db d) !! k = Some row ->
  conn_wf (d_db (deleting k row disposition d)) /\
  view (d_db (deleting k row disposition d)) = <[k := with_status now Deleting row]> (view (d_db d)).
Proof.
  intros Hwf Hk. assert (d_db (deleting k row disposition d) = update_pod_status (d_db d) now (row_id row) Deleting) as ->.
  { by destruct disposition. }
  split; [by apply update_status_wf|by apply view_status].
Qed.

Lemma set_status_db k s d row : conn_wf (d_db d) -> view (d_db d) !! k = Some row ->
  conn_wf (d_db (set_pod_status now k s d)) /\
  view (d_db (set_pod_status now k s d)) = <[k := with_status now s row]> (view (d_db d)).
Proof.
  intros Hwf Hk. unfold set_pod_status. rewrite get_pod_at, Hk by done. simpl.
  split; [by apply update_status_wf|by apply view_status].
Qed.

Lemma confirmed_db k d : conn_wf (d_db d) ->
  conn_wf (d_db (confirmed k d)) /\ view (d_db (confirmed k d)) = delete k (view (d_db d)).
Proof.
  intros Hwf. split; [by apply delete_pod_wf|].
  change (d_db (confirmed k d)) with (fst (delete_pod (d_db d) k.1 k.2)). rewrite view_delete by done. by destruct k.
Qed.

(** Nothing that belongs to another pod changes. *)
Definition others_kept (k : pod) (d d' : Daemon) : Prop :=
  forall k', k' <> k ->
    view (d_db d') !! k' = view (d_db d) !! k' /\ d_pods d' !! k' = d_pods d !! k' /\ d_ids d' !! k' = d_ids d !! k'.

Lemma deleting_rest k row disposition d k' : k' <> k ->
  d_pods (deleting k row disposition d) !! k' = d_pods d !! k' /\ d_ids (deleting k row disposition d) = d_ids d.
Proof.
  intros Hne. destruct disposition; (split; [|done]).
  - change (alter remove_codex_proxy k (delete k (d_pods d)) !! k' = d_pods d !! k').
    by rewrite lookup_alter_ne, lookup_delete_ne.
  - change (alter remove_codex_proxy k (alter reset_for_recreate k (d_pods d)) !! k' = d_pods d !! k').
    by rewrite !lookup_alter_ne.
Qed.

(** Deleting a pod: its row disappears from the database only after the engine confirmed
    the deletion on the pod's own host, and nothing of any other pod changes; when a waited deletion
    succeeds, the row, the connection and the cached container id are gone. *)
Theorem delete_needs_confirmation k wait disposition d e row :
  conn_wf (d_db d) -> view (d_db d) !! k = Some row ->
  let '(r, d', e') := delete_impl k wait disposition d e in
  conn_wf (d_db d') /\ others_kept k d d' /\
  (view (d_db d') !! k = None -> engine_confirmed k row e') /\
  (wait = true -> r = Ok tt -> view (d_db d') !! k = None /\ d_ids d' !! k = None /\
     (disposition = Remove -> d_pods d' !! k = None)).
Proof.
  intros Hwf Hk. pose proof (delete_impl_cases k wait disposition d e row Hwf Hk) as H.
  destruct (delete_impl _ _ _ _ _) as [[r d'] e'].
  pose proof (deleting_db k row disposition d Hwf Hk) as [Hwf1 Hv1].
  assert (view (d_db (deleting k row disposition d)) !! k = Some (with_status now Deleting row)) as Hk1
    by (rewrite Hv1; apply lookup_insert_eq).
  pose proof (fun k' => deleting_rest k row disposition d k') as Hrest.
  destruct H as [x ? _|? Hc|x ?|? ->].
  - split_and!; [done|by intros k'|rewrite Hk; done|done].
  - destruct (confirmed_db k (deleting k row disposition d) Hwf1) as [Hwf2 Hv2]. split_and!; [done| |done|].
    + intros k' Hne. rewrite Hv2, lookup_delete_ne, Hv1, lookup_insert_ne by done.
      destruct (Hrest k' Hne) as [Hp Hi]. split_and!; [done|done|].
      change (d_ids (confirmed k ?x)) with (delete k (d_ids x)). by rewrite lookup_delete_ne, Hi.
    + intros _ _. rewrite Hv2, lookup_delete_eq. split_and!; [done|apply lookup_delete_eq|].
      intros ->. change (alter remove_codex_proxy k (delete k (d_pods d)) !! k = None).
      by rewrite lookup_alter_eq, lookup_delete_eq.
  - split_and!; [done| |by rewrite Hk1|done]. intros k' Hne. destruct (Hrest k' Hne) as [Hp Hi].
    rewrite Hv1, lookup_insert_ne, Hi by done. done.
  - destruct (set_status_db k DeleteFailed _ _ Hwf1 Hk1) as [Hwf2 Hv2].
    unfold others_kept. change (d_db (emit_status_changed k ?x)) with (d_db x).
    split_and!; [done| |by rewrite Hv2, lookup_insert_eq|done].
    intros k' Hne. rewrite Hv2, !lookup_insert_ne, Hv1, lookup_insert_ne by done.
    destruct (Hrest k' Hne) as [Hp Hi]. unfold set_pod_status. rewrite get_pod_at, Hk1 by done. by rewrite <- Hp, <- Hi.
Qed.

(** What a failed deletion leaves behind.  In the background the pod ends up marked as not
    deleted and is listed as broken; when the client waits, or the pod runs on Kubernetes, the
    row keeps the status of a deletion in progress, so the pod is listed as being deleted and
    cannot be connected to although nothing deletes it any more. *)
Theorem delete_failure_status k wait disposition d e row :
  conn_wf (d_db d) -> view (d_db d) !! k = Some row ->
  let '(r, d', _) := delete_impl k wait disposition d e in
  (forall x, r = Err (BackendFailed x) ->
     exists record, get_pod (d_db d') k.1 k.2 = Ok (Some record) /\ Db.status record = Deleting /\
       validate_connect_status (Db.status record) = Err PodIsDeleting /\
       (forall c, cached_pod_status (Db.status record) c = LDeleting)) /\
  (r = Ok tt -> view (d_db d') !! k <> None ->
     exists record, get_pod (d_db d') k.1 k.2 = Ok (Some record) /\ Db.status record = DeleteFailed /\
       validate_connect_status (Db.status record) = Err PodNotDeleted /\
       (forall c, cached_pod_status (Db.status record) c = LBroken)).
Proof.
  intros Hwf Hk. pose proof (delete_impl_cases k wait disposition d e row Hwf Hk) as H.
  destruct (delete_impl _ _ _ _ _) as [[r d'] e'].
  pose proof (deleting_db k row disposition d Hwf Hk) as [Hwf1 Hv1].
  assert (view (d_db (deleting k row disposition d)) !! k = Some (with_status now Deleting row)) as Hk1
    by (rewrite Hv1; apply lookup_insert_eq).
  destruct H as [x ? Hx|? Hc|x ?|? ->]; split; try done.
  - intros y [= ->]. by destruct (Hx y).
  - intros _ Hne. destruct (confirmed_db k (deleting k row disposition d) Hwf1) as [_ Hv2].
    by rewrite Hv2, lookup_delete_eq in Hne.
  - intros _ _. exists (record_of (with_status now Deleting row)). rewrite get_pod_at, Hk1, status_with_status by done.
    by split_and!.
  - intros _ _. destruct (set_status_db k DeleteFailed _ _ Hwf1 Hk1) as [Hwf2 Hv2].
    exists (record_of (with_status now DeleteFailed (with_status now Deleting row))).
    change (d_db (emit_status_changed k ?x)) with (d_db x).
    rewrite get_pod_at, Hv2, lookup_insert_eq, status_with_status by done. by split_and!.
Qed.

Lemma stop_events_status c : PodConn.status (stop_events c) = Stopped.
Proof.
  unfold stop_events. set (c1 := set_connection_requested false _).
  transitivity (PodConn.status (set_status Stopped c1)); [reflexivity|apply set_status_frame].
Qed.

Lemma codex_status c : PodConn.status (remove_codex_proxy c) = PodConn.status c.
Proof. done. Qed.

Lemma stop_finished_db k d row : conn_wf (d_db d) -> view (d_db d) !! k = Some row ->
  view (d_db (stop_finished now k d)) = <[k := with_status now Ready row]> (view (d_db d)) /\
  d_pods (stop_finished now k d) = d_pods d /\ d_ids (stop_finished now k d) = d_ids d.
Proof.
  intros Hwf Hk. destruct (set_status_db k Ready d row Hwf Hk) as [_ Hv]. split; [exact Hv|].
  unfold stop_finished, set_pod_status. rewrite get_pod_at, Hk by done. done.
Qed.

(** Stopping a pod either fails before it changes anything, or it ends with the row of the
    pod ready, its connection stopped and no other pod touched, whether or not the engine
    stopped the container; so a stop that failed in the background is listed as stopped. *)
Theorem stop_outcome k wait d e row :
  conn_wf (d_db d) -> view (d_db d) !! k = Some row ->
  let '(r, d', _) := stop k wait d e in
  (d' = d /\ exists x, r = Err x /\ forall y, x <> BackendFailed y) \/
  (others_kept k d d' /\
   (exists record, get_pod (d_db d') k.1 k.2 = Ok (Some record) /\ Db.status record = Ready /\
      forall c, d_pods d !! k = Some c ->
        cached_pod_status (Db.status record) (pods_status k (d_pods d')) = LStopped) /\
   (wait = false -> r = Ok tt)).
Proof.
  intros Hwf Hk. unfold stop_pod. rewrite get_pod_at, Hk by done. cbn [fmap option_fmap option_map].
  destruct (parse_host _) as [host|]; cbn [context]; [|left; by eauto].
  destruct (is_kubernetes host); [left; by eauto|].
  destruct (host_executor host e) as [[] e1]; cbn [negb]; [|left; by eauto].
  destruct (compose_project _ host e1) as [[project|x] e2]; [|left; by eauto].
  destruct (backend_stop host project (pod_id k) e2) as [r e3]. right.
  change (Db.id (record_of row)) with (row_id row).
  set (d1 := cleanup_codex_runtime k _).
  assert (d_db d1 = update_pod_status (d_db d) now (row_id row) Stopping) as Hdb by done.
  assert (conn_wf (d_db d1)) as Hwf1 by (rewrite Hdb; by apply update_status_wf).
  assert (view (d_db d1) = <[k := with_status now Stopping row]> (view (d_db d))) as Hv1
    by (rewrite Hdb; by apply view_status).
  assert (d_pods d1 = alter remove_codex_proxy k (alter stop_events k (d_pods d))) as Hp1 by done.
  assert (view (d_db d1) !! k = Some (with_status now Stopping row)) as Hk1 by (rewrite Hv1; apply lookup_insert_eq).
  destruct (stop_finished_db k d1 _ Hwf1 Hk1) as (Hv & Hp & Hi). split_and!.
  - intros k' Hne. rewrite Hv, Hv1, !lookup_insert_ne, Hp, Hp1, !lookup_alter_ne, Hi by done. done.
  - exists (record_of (with_status now Ready (with_status now Stopping row))).
    destruct (set_status_db k Ready d1 _ Hwf1 Hk1) as [Hwf2 _].
    rewrite get_pod_at, Hv, lookup_insert_eq, status_with_status by done. split_and!; [done|done|].
    intros c Hc. unfold pods_status, PodConnectionKey. rewrite Hp, Hp1, !lookup_alter_eq, Hc. cbn [fmap option_fmap option_map].
    by rewrite codex_status, stop_events_status.
  - by intros ->.
Qed.

(** ** Recreating *)

#[local] Notation recreate :=
  (recreate_pod now parse_host pod_id host_executor compose_project backend_delete git_dirs for_each_ref).


(** Recreating a pod that is stopped, or whose server does not answer, deletes it without a
    snapshot: the new pod is launched and nothing is ever uploaded to it, so uncommitted changes
    are lost. *)
Theorem recreate_drops_changes s server launch restore restore' k d e :
  s <> BRunning \/ server = None ->
  recreate (Ok s) server launch restore k d e = recreate (Ok s) server launch restore' k d e /\
  forall copied d1 e1 v d2 e2,
    copied_agent_configs k d = Ok copied -> delete_impl k true Preserve d e = (Ok tt, d1, e1) ->
    launch d1 e1 = (Ok v, d2, e2) -> recreate (Ok s) server launch restore k d e = (Ok v, d2, e2).
Proof.
  intros Hs. assert (take_snapshot s server = Ok (None, [])) as Ht.
  { unfold take_snapshot. case_bool_decide; [|done]. by destruct Hs as [?| ->]. }
  unfold recreate_pod. split.
  - destruct (copied_agent_configs k d) as [copied|]; [|done]. cbn [mbind result_bind]. rewrite Ht. cbn [mbind result_bind].
    destruct (delete_impl k true Preserve d e) as [[[] d1] e1]; [|done]. by destruct (launch d1 e1) as [[[] d2] e2].
  - intros copied d1 e1 v d2 e2 -> Hd Hl. cbn [mbind result_bind]. rewrite Ht. cbn [mbind result_bind]. by rewrite Hd, Hl.
Qed.

(** ** Launching *)

#[local] Notation launch_old :=
  (launch_existing now parse_host which pod_id host_executor compose_project backend_delete git_dirs for_each_ref).

(** The pod's host, as its row has it, answered that there is no such pod: to the status check
    the launch begins with, or to the reconnect that follows. *)
Definition reported_gone (backend_status : Host -> str -> E -> result daemon_error BackendStatus * E)
    (reconnect : PodRecord -> Host -> E -> ReconnectPodResult * E) (k : pod) (row : PodRow) (e : E) : Prop :=
  exists stored host e1, parse_host (row_host row) = Some stored /\ resolve_docker_engine which stored = Ok host /\
    ((host_executor host e = (true, e1) /\ fst (backend_status host (pod_id k) e1) = Ok BGone) \/
     ((e1 = e \/ e1 = snd (backend_status host (pod_id k) (snd (host_executor host e)))) /\
      fst (reconnect (record_of row) host e1) = RGone)).


End Deletes.

(** ** Connections handed to clients *)

(** A client gets a pod's address and token only while the database has the pod as ready, its
    connection is connected to a live server, and the token is the one of the present pod: a
    pod that is being created, stopped, deleted or was recreated meanwhile is never handed out. *)
Theorem credentials_are_current k d :
  conn_wf (d_db d) ->
  (forall ep v, exec_connection k d = Ok (ep, v) ->
     exists row c, view (d_db d) !! k = Some row /\ Db.status (record_of row) = Ready /\
       d_pods d !! k = Some c /\ PodConn.status c = Connected /\ endpoint c = Some ep /\ endpoint_token ep = row_token row) /\
  (forall socket repo_path_of claude p d', prepared_connection socket repo_path_of k claude d = (Ok (Some p), d') ->
     exists row c ep, view (d_db d) !! k = Some row /\ Db.status (record_of row) = Ready /\
       d_pods d !! k = Some c /\ PodConn.status c = Connected /\ exec_endpoint c = Some (ep, prep_container_id p) /\
       prep_container_token p = row_token row /\ prep_container_url p = url ep /\ d_db d' = d_db d /\
       (claude = true -> row_claude_config_copied row = true)).
Proof.
  intros Hwf. unfold exec_connection, prepared_connection. rewrite get_pod_at by done.
  destruct (view (d_db d) !! k) as [row|] eqn:Hk; cbn [fmap option_fmap option_map]; [|by split].
  case_bool_decide as Hs; cbn [negb]; [|by split]. split.
  - intros ep v. destruct (d_pods d !! k) as [c|] eqn:Hc; cbn [context mbind result_bind]; [|done].
    unfold connected. case_bool_decide as Hcon; cbn [negb]; [|done].
    destruct (endpoint c) as [ep'|] eqn:He; cbn [context mbind result_bind]; [|done].
    case_bool_decide as Ht; cbn [negb]; [|done].
    destruct (event_http_version_of c); cbn [mbind result_bind]; [|done]. intros [= <- <-]. by exists row, c.
  - intros socket rp claude p d'.
    destruct (if claude then _ else _) as [[]|] eqn:Ecl; [|done..].
    destruct (d_pods d !! k) as [c|] eqn:Hc; [|done]. unfold connected. case_bool_decide as Hcon; cbn [negb]; [|done].
    destruct (exec_endpoint c) as [[ep cid]|] eqn:He; [|done]. case_bool_decide as Ht; cbn [negb]; [|done].
    destruct (rp (record_of row)) as [path|]; [|done]. intros [= <- <-]. exists row, c, ep. split_and!; try done.
    intros ->. unfold has_claude_config_copied in Ecl. apply view_lookup in Hk as [Hin _]; [|apply Hwf].
    destruct (select_pods _ _) as [|r rows] eqn:Esel; [done|]. injection Ecl as Ecl.
    assert (r ∈ select_pods (d_db d) (fun r => bool_decide (row_id r = Db.id (record_of row)))) as Hr by (rewrite Esel; by constructor).
    apply elem_of_bfilter in Hr as [Hr Hid%bool_decide_eq_true].
    rewrite <- Ecl. f_equal. by eapply (NoDup_map_inj row_id); [apply Hwf| | |].
Qed.

(** ** Refs of a deleted pod *)

(** [git for-each-ref] matches a pattern against the whole name of a ref, and an asterisk of it
    against any text without a slash. *)
Class GitLaws (for_each_ref : gset (list N) -> list N -> option (list (list N))) : Prop := {
  refs_matching refs pre post out r :
    for_each_ref refs (pre ++ lit "*" ++ post) = Some out ->
    Forall (fun c => c ∉ lit "*?[\") (pre ++ post) ->
    r ∈ out <-> r ∈ refs /\ exists m, r = pre ++ m ++ post /\ c_slash ∉ m;
}.

Lemma elem_of_remove_all (out : list (list N)) (refs : gset (list N)) r :
  r ∈ foldl (fun rs x => rs ∖ {[x]}) refs out <-> r ∈ refs /\ r ∉ out.
Proof.
  revert refs. induction out as [|x out IH]; intros refs; simpl; [set_solver|]. rewrite IH. set_solver.
Qed.

Lemma label_no_glob c : label_byte_ok c = true -> c ∉ lit "*?[\".
Proof.
  intros Hc Hin. change (lit "*?[\") with [42; 63; 91; 92]%N in Hin.
  repeat (apply elem_of_cons in Hin as [->|Hin]; [by vm_compute in Hc|]). by apply elem_of_nil in Hin.
Qed.

(** Deleting a pod removes its primary ref and exactly those of its branches whose name has
    no slash: refs of other pods stay, but so do those of the pod's own branches like
    [feature/x], because an asterisk of the pattern does not match a slash.  They are still
    there when a pod of the same name is created. *)
Theorem cleanup_keeps_nested_branches for_each_ref {laws : GitLaws for_each_ref} name refs out :
  dns_label name -> for_each_ref refs (lit "refs/rumpelpod/*@" ++ name) = Some out ->
  let refs' := cleanup_pod_refs_in_git_dir for_each_ref name refs in
  (forall branch, lit "refs/rumpelpod/" ++ branch ++ [c_at] ++ name ∈ refs' <->
     lit "refs/rumpelpod/" ++ branch ++ [c_at] ++ name ∈ refs /\ c_slash ∈ branch) /\
  (forall other r, dns_label other -> other <> name -> owned_ref other r -> r ∈ refs' <-> r ∈ refs) /\
  lit "refs/rumpelpod/" ++ name ∉ refs'.
Proof.
  intros Hn Hout refs'.
  assert (forall r, r ∈ refs' <-> r ∈ refs /\ r <> lit "refs/rumpelpod/" ++ name /\
            ~ exists m, r = lit "refs/rumpelpod/" ++ m ++ [c_at] ++ name /\ c_slash ∉ m) as Hr.
  { intros r. unfold refs', cleanup_pod_refs_in_git_dir. rewrite Hout.
    rewrite elem_of_difference, elem_of_singleton, elem_of_remove_all, elem_of_bfilter.
    change (lit "refs/rumpelpod/*@" ++ name) with (lit "refs/rumpelpod/" ++ lit "*" ++ [c_at] ++ name) in Hout.
    rewrite (refs_matching _ _ _ _ r Hout).
    2: { rewrite Forall_app. split; [decide_now|]. constructor; [decide_now|].
         eapply Forall_impl; [apply Hn|]. intros c Hc%Is_true_true. by apply label_no_glob. }
    rewrite negb_true_iff, bool_decide_eq_false. split.
    - intros [[Hin Hno] Hne]. split_and!; [done|done|]. intros (m & -> & Hm). apply Hno. split; [|done].
      split; [done|]. by exists m.
    - intros (Hin & Hne & Hno). split; [split; [done|]|done]. intros [[_ Hm] _]. by apply Hno. }
  split_and!.
  - intros branch. rewrite Hr. split.
    + intros (Hin & _ & Hno). split; [done|]. destruct (decide (c_slash ∈ branch)); [done|].
      exfalso. apply Hno. by exists branch.
    + intros [Hin Hsl]. split_and!; [done| |].
      * intros H%app_inv_head. apply (dns_label_no_at name Hn). rewrite <- H. set_solver.
      * intros (m & Heq%app_inv_head & Hm). apply app_sep_inj_r in Heq as [-> _]; [done|by apply dns_label_no_at..].
  - intros other r Ho Hne Hown. rewrite Hr. split; [naive_solver|]. intros Hin.
    assert (~ owned_ref name r) as Hnot by (intros H; apply Hne; by eapply owned_ref_disjoint).
    split_and!; [done| |].
    + intros ->. apply Hnot. by right.
    + intros (m & -> & _). apply Hnot. left. by exists m.
  - rewrite Hr. naive_solver.
Qed.

(** ** Listing *)

#[export] Instance PodListMode_eq_dec : EqDecision PodListMode.
Proof. solve_decision. Defined.

Section Listing.
Context (parse_host : str -> option Host).
Context (list_by_repo : Host -> str -> option (gmap (list N) PodBackendInfo)).
Context (host_connected : Host -> bool) (git_info : pod -> option PodGitInfo) (format_time : str -> str).

#[local] Notation listing := (list_pods_handler parse_host list_by_repo host_connected git_info format_time).
#[local] Notation queries := (query_hosts parse_host list_by_repo host_connected).

Lemma list_pods_rows c repo : conn_wf c ->
  exists rows, list_pods c repo = Ok (map record_of rows) /\
    (forall r, r ∈ rows <-> view c !! (repo, row_name r) = Some r) /\ NoDup (map row_name rows).
Proof.
  intros Hwf. exists (merge_sort name_le (select_pods c (fun r => bool_decide (row_repo_path r = repo)))).
  assert (forall r, r ∈ merge_sort name_le (select_pods c (fun r => bool_decide (row_repo_path r = repo))) <->
            r ∈ pods c /\ row_repo_path r = repo) as Hrows.
  { intros r. rewrite merge_sort_Permutation. unfold select_pods. by rewrite elem_of_bfilter, bool_decide_eq_true. }
  split_and!.
  - apply (read_rows_wf c); [done|]. by intros r [? _]%Hrows.
  - intros r. rewrite Hrows. rewrite view_lookup by apply Hwf. unfold pod_key. split; intros [? ?]; split; congruence.
  - rewrite merge_sort_Permutation. apply NoDup_names, Hwf.
Qed.

(** What the query of a host answered, when the host was asked. *)
Definition host_answer (repo : str) (h : Host) : option (gmap (list N) PodBackendInfo) :=
  match h with
  | Ssh _ _ => if host_connected h then list_by_repo h repo else None
  | _ => list_by_repo h repo
  end.

Lemma query_host_lookup repo warmed m r h :
  query_host parse_host list_by_repo host_connected repo true warmed m r !! h =
  match m !! h with
  | Some a => Some a
  | None => if bool_decide (Db.host r = h) then host_answer repo <$> parse_host h else None
  end.
Proof.
  unfold query_host. cbn [negb andb]. case_bool_decide as Hh.
  - subst h. destruct (parse_host (Db.host r)) as [x|]; simpl; [|by destruct (m !! Db.host r)].
    destruct (m !! Db.host r) eqn:E; [done|]. rewrite lookup_insert_eq. by destruct x.
  - destruct (parse_host (Db.host r)) as [x|]; [|by destruct (m !! h)].
    destruct (m !! Db.host r); [by destruct (m !! h)|]. rewrite lookup_insert_ne by done. by destruct (m !! h).
Qed.

(** In a synchronised listing every host of the repository's pods is asked, once. *)
Lemma query_hosts_sync repo warmed records h :
  queries repo true false warmed records !! h =
  if existsb (fun r => bool_decide (Db.host r = h)) records then host_answer repo <$> parse_host h else None.
Proof.
  unfold query_hosts.
  enough (forall m, foldl (query_host parse_host list_by_repo host_connected repo true warmed) m records !! h =
            match m !! h with
            | Some a => Some a
            | None => if existsb (fun r => bool_decide (Db.host r = h)) records
                      then host_answer repo <$> parse_host h else None
            end) as H by (rewrite H, lookup_empty; done).
  induction records as [|r records IH]; intros m; simpl; [by destruct (m !! h)|].
  rewrite IH, query_host_lookup. destruct (m !! h); [done|].
  case_bool_decide; simpl; [|done]. destruct (parse_host h); simpl; [done|]. by destruct (existsb _ records).
Qed.

Lemma cache_ids_ids repo maps d r :
  d_ids (cache_ids repo maps d r) =
  match maps !! Db.host r with
  | Some (Some m) => match m !! Db.name r with
                     | Some info => <[(repo, Db.name r) := info_container_id info]> (d_ids d)
                     | None => delete (repo, Db.name r) (d_ids d)
                     end
  | _ => d_ids d
  end.
Proof. unfold cache_ids. by destruct (maps !! Db.host r) as [[m|]|]. Qed.

Lemma cache_ids_other repo maps records d k :
  ~ (exists r, r ∈ records /\ k = (repo, Db.name r)) -> d_ids (foldl (cache_ids repo maps) d records) !! k = d_ids d !! k.
Proof.
  revert d. induction records as [|r records IH]; intros d Hno; simpl; [done|].
  rewrite IH by (intros (r' & ? & ?); apply Hno; exists r'; split; [by right|done]).
  rewrite cache_ids_ids. destruct (maps !! Db.host r) as [[m|]|]; [|done..].
  assert ((repo, Db.name r) <> k) as Hne by (intros <-; apply Hno; exists r; split; [by left|done]).
  destruct (m !! Db.name r); [by rewrite lookup_insert_ne|by rewrite lookup_delete_ne].
Qed.

Lemma cache_ids_at repo maps records d r m :
  NoDup (map Db.name records) -> r ∈ records -> maps !! Db.host r = Some (Some m) ->
  d_ids (foldl (cache_ids repo maps) d records) !! (repo, Db.name r) = info_container_id <$> m !! Db.name r.
Proof.
  intros Hnd Hin Hm. revert d. induction records as [|r' records IH]; intros d; [by apply elem_of_nil in Hin|].
  simpl. simpl in Hnd. apply NoDup_cons in Hnd as [Hni Hnd]. apply elem_of_cons in Hin as [<-|Hin]; [|by apply IH].
  rewrite cache_ids_other.
  - rewrite cache_ids_ids, Hm. destruct (m !! Db.name r); simpl; [by rewrite lookup_insert_eq|by rewrite lookup_delete_eq].
  - intros (r' & Hr' & [= Heq]). apply Hni. rewrite Heq. by apply list_elem_of_fmap_2.
Qed.

Lemma cache_ids_rest repo maps records d :
  d_db (foldl (cache_ids repo maps) d records) = d_db d /\ d_pods (foldl (cache_ids repo maps) d records) = d_pods d.
Proof.
  revert d. induction records as [|r records IH]; intros d; simpl; [done|].
  destruct (IH (cache_ids repo maps d r)) as [-> ->]. unfold cache_ids. by destruct (maps !! Db.host r) as [[m|]|].
Qed.

Lemma cache_ids_offline repo records d : foldl (cache_ids repo ∅) d records = d.
Proof. induction records as [|r records IH]; simpl; [done|]. unfold cache_ids at 2. by rewrite lookup_empty. Qed.

Lemma starting_names repo known locks name :
  name ∈ map pi_name (starting_entries repo known locks) <->
  name ∉ map pi_name known /\ exists n h, ((repo, name), (n, h)) ∈ locks /\ n <> 0.
Proof.
  unfold starting_entries. rewrite list_elem_of_fmap. split.
  - intros (p & -> & (([repository name'] & [n h]) & Hin & Hp)%list_elem_of_omap).
    destruct (negb _ || _ || _) eqn:Ec; [done|]. injection Hp as <-.
    apply orb_false_iff in Ec as [[Er Ek]%orb_false_iff En%bool_decide_eq_false].
    apply negb_false_iff, bool_decide_eq_true in Er as ->. split; [|by exists n, h].
    rewrite <- existsb_eq_map. simpl. by rewrite Ek.
  - intros [Hno (n & h & Hin & Hn)]. exists (mkPodInfo name LStarting [] h None None None None None). split; [done|].
    apply list_elem_of_omap. eexists. split; [exact Hin|]. simpl.
    rewrite (bool_decide_true (repo = repo)), (bool_decide_false (n = 0)) by done. simpl.
    destruct (existsb _ known) eqn:Ek; [|done]. by apply existsb_eq_map in Ek.
Qed.

Lemma starting_nodup repo known locks :
  NoDup (map fst locks) -> NoDup (map pi_name (starting_entries repo known locks)).
Proof.
  unfold starting_entries. induction locks as [|[[repository name] [n h]] locks IH]; simpl; [constructor|].
  intros [Hni Hnd]%NoDup_cons. destruct (negb _ || _ || _) eqn:Ec; simpl; [by apply IH|].
  apply NoDup_cons. split; [|by apply IH].
  apply orb_false_iff in Ec as [[Er _]%orb_false_iff _]. apply negb_false_iff, bool_decide_eq_true in Er as ->.
  intros [_ (n' & h' & Hin & _)]%starting_names. apply Hni. by apply (list_elem_of_fmap_2 fst) in Hin.
Qed.

Lemma listing_ok sync_list repo mode sync_refs locks d es d' :
  conn_wf (d_db d) -> listing sync_list repo mode sync_refs locks d = (Ok es, d') ->
  exists rows, (forall r, r ∈ rows <-> view (d_db d) !! (repo, row_name r) = Some r) /\
    NoDup (map row_name rows) /\
    let records := map record_of rows in
    let sync := bool_decide (mode = Sync) in
    let maps := queries repo sync (bool_decide (mode = Offline)) (d_warmed d) records in
    let entries := map (list_entry parse_host git_info format_time repo sync maps d') records in
    d' = foldl (cache_ids repo maps) d records /\ es = entries ++ starting_entries repo entries locks.
Proof.
  intros Hwf H. destruct (list_pods_rows (d_db d) repo Hwf) as (rows & Hl & Hin & Hnd). exists rows.
  split_and!; [done|done|]. unfold list_pods_handler in H.
  destruct mode, sync_refs; cbn [andb] in H; try done; rewrite Hl in H;
    try (destruct (sync_list (map record_of rows)) as [[]|]; [|done]); by injection H as <- <-.
Qed.

(** A listing has every pod of the repository in the database and every pod that is being
    created, and no other, each once; the database does not change, and an offline listing
    changes nothing. *)
Theorem listing_complete sync_list repo mode sync_refs locks d es d' :
  conn_wf (d_db d) -> NoDup (map fst locks) ->
  listing sync_list repo mode sync_refs locks d = (Ok es, d') ->
  NoDup (map pi_name es) /\
  (forall name, name ∈ map pi_name es <->
     is_Some (view (d_db d) !! (repo, name)) \/ exists n h, ((repo, name), (n, h)) ∈ locks /\ n <> 0) /\
  d_db d' = d_db d /\ d_pods d' = d_pods d /\ (mode = Offline -> d' = d).
Proof.
  intros Hwf Hlocks H. destruct (listing_ok _ _ _ _ _ _ _ _ Hwf H) as (rows & Hin & Hnd & Hd & Hes).
  set (entries := map _ (map record_of rows)) in Hes.
  assert (map pi_name entries = map row_name rows) as Hnames
    by (unfold entries; rewrite !map_map; by apply map_ext).
  assert (forall name, name ∈ map row_name rows <-> is_Some (view (d_db d) !! (repo, name))) as Hrows.
  { intros name. rewrite list_elem_of_fmap. split.
    - intros (r & -> & Hr%Hin). by eexists.
    - intros [r Hr]. exists r. assert (row_name r = name) as Hn by (apply view_lookup in Hr as [_ [= <-]]; [done|apply Hwf]).
      split; [done|]. apply Hin. by rewrite Hn. }
  subst es. rewrite map_app, Hnames. split_and!.
  - apply NoDup_app. split_and!; [done| |].
    + intros name Hname. rewrite starting_names, Hnames. naive_solver.
    + by apply starting_nodup.
  - intros name. rewrite elem_of_app, starting_names, Hnames, <- Hrows.
    destruct (decide (name ∈ map row_name rows)); naive_solver.
  - rewrite Hd. apply cache_ids_rest.
  - rewrite Hd. apply cache_ids_rest.
  - intros ->. rewrite Hd. apply cache_ids_offline.
Qed.

(** In a synchronised listing the engine that answered is authoritative: a ready pod has the
    engine's status and container id, or is gone.  An engine that did not answer makes the pods
    of a remote host disconnected, but those of the local one gone, although nothing is known
    of them. *)
Theorem sync_listing_authoritative sync_list repo sync_refs locks d es d' row h :
  conn_wf (d_db d) -> listing sync_list repo Sync sync_refs locks d = (Ok es, d') ->
  view (d_db d) !! (repo, row_name row) = Some row -> parse_host (row_host row) = Some h ->
  Db.status (record_of row) = Ready ->
  exists p, p ∈ es /\ pi_name p = row_name row /\ pi_container_id p = d_ids d' !! (repo, row_name row) /\
    match host_answer repo h with
    | Some m =>
        pi_container_id p = info_container_id <$> m !! row_name row /\
        pi_status p = default LGone (of_backend ∘ info_status <$> m !! row_name row)
    | None => pi_status p = if is_remote h then LDisconnected else LGone
    end.
Proof.
  intros Hwf H Hrow Hh Hs. destruct (listing_ok _ _ _ _ _ _ _ _ Hwf H) as (rows & Hin & Hnd & Hd & ->).
  rewrite bool_decide_true, bool_decide_false in * by done.
  set (maps := queries _ _ _ _ _) in *.
  assert (maps !! row_host row = Some (host_answer repo h)) as Hmap.
  { unfold maps. rewrite query_hosts_sync, Hh.
    assert (existsb (fun r => bool_decide (Db.host r = row_host row)) (map record_of rows) = true) as ->; [|done].
    apply existsb_eq_map. apply list_elem_of_fmap. exists (record_of row). split; [done|].
    by apply list_elem_of_fmap_2, Hin. }
  eexists. split; [apply elem_of_app; left; apply list_elem_of_fmap_2, (list_elem_of_fmap_2 record_of), Hin, Hrow|].
  assert (row ∈ rows) as Hr by (by apply Hin).
  split; [done|]. split; [done|]. unfold list_entry. cbn [pi_container_id pi_status].
  change (Db.host (record_of row)) with (row_host row). change (Db.name (record_of row)) with (row_name row).
  rewrite Hmap, Hs, Hh. destruct (host_answer repo h) as [m|]; cbn [mjoin option_join mbind option_bind synced_pod_status].
  - split; [|rewrite (bool_decide_false (Some m = None)), andb_false_r by done; by destruct (m !! row_name row)]. rewrite Hd.
    apply (cache_ids_at repo maps (map record_of rows) d (record_of row) m); [|by apply list_elem_of_fmap_2|done].
    rewrite map_map. exact Hnd.
  - rewrite (bool_decide_true (None = None)) by done. cbn. by destruct (is_remote h).
Qed.

End Listing.

(** ** Deleting a pod of a container engine *)

(** [executor.delete] of Engine.v as the daemon calls it, for a pod without a Compose project. *)
Definition docker_backend {E P} (cli : list str -> E -> option Output * E) (host : Host) (project : option P) (id : str) (e : E)
    : result str unit * E :=
  let '(r, e) := docker_delete cli id e in (match r with Ok _ => Ok tt | Err _ => Err (lit "docker rm failed") end, e).

Section EngineDeletes.
Context {E P : Type} (cli : list str -> E -> option Output * E).
Context (parse_inspect : str -> option (list Inspect)) (containers : E -> gmap (list N) Container).
Context {Hlaws : DockerLaws cli parse_inspect containers}.

Lemma docker_backend_spec host (project : option P) id e :
  let '(r, e') := docker_backend cli host project id e in
  (r = Ok tt /\ containers e' = delete id (containers e)) \/ ((exists x, r = Err x) /\ containers e' = containers e).
Proof.
  unfold docker_backend. destruct (docker_delete cli id e) as [r e'] eqn:Ed.
  destruct (docker_delete_spec cli parse_inspect containers _ _ _ _ Ed) as [[-> H]|[[x ->] H]]; [by left|right; by eauto].
Qed.

Lemma docker_attempts now pod_id git_dirs for_each_ref delays host (project : option P) k d e :
  let '(d', e') := delete_attempts now pod_id (docker_backend cli) git_dirs for_each_ref delays host project k d e in
  (d' = deletion_confirmed git_dirs for_each_ref k d /\ containers e' = delete (pod_id k) (containers e)) \/
  (d' = emit_status_changed k (set_pod_status now k DeleteFailed d) /\ containers e' = containers e).
Proof.
  revert e. induction delays as [|delay delays IH]; intros e; simpl; [by right|].
  pose proof (docker_backend_spec host project (pod_id k) e) as H.
  destruct (docker_backend cli host project (pod_id k) e) as [r e1]. destruct H as [[-> H]|[[x ->] H]]; [by left|].
  specialize (IH e1). destruct (delete_attempts _ _ _ _ _ _ _ _ _ _ _) as [d' e']. by rewrite <- H.
Qed.

End EngineDeletes.


(** ** Examples *)

Definition ex_key : pod := (lit "/a", lit "dev").
Definition ex_daemon : Daemon := mkDaemon example_db ∅ ∅ ∅ ∅ [].
Definition ex_host (_ : str) : option Host := Some (Localhost Docker).

Lemma ex_wf : conn_wf (d_db ex_daemon).
Proof. apply db_reachable_wf, example_db_reachable. Qed.

Lemma ex_view : view (d_db ex_daemon) !! ex_key = Some example_row.
Proof. vm_compute. reflexivity. Qed.

(** An engine with one container, as a flag: [true] while it is there; it refuses the first
    [n] requests. *)
Definition ex_delete (_ : Host) (_ : option unit) (_ : str) (e : nat * bool) : result str unit * (nat * bool) :=
  match e with (0, _) => (Ok tt, (0, false)) | (S n, b) => (Err (lit "busy"), (n, b)) end.

Definition ex_deletion (wait : bool) (n : nat) : result daemon_error unit * Daemon * (nat * bool) :=
  delete_pod_impl (lit "now") ex_host (fun k => k.2) (fun _ e => (true, e)) (fun _ _ e => (Ok None, e)) ex_delete
    (fun _ => []) (fun _ _ => None) ex_key wait Remove ex_daemon (n, true).

Lemma delete_needs_confirmation_witness :
  fst (fst (ex_deletion true 0)) = Ok tt /\ view (d_db (snd (fst (ex_deletion true 0)))) !! ex_key = None.
Proof.
  pose proof (delete_needs_confirmation (lit "now") ex_host (fun k => k.2) (fun _ e => (true, e)) (fun _ _ e => (Ok None, e))
    ex_delete (fun _ => []) (fun _ _ => None) ex_key true Remove ex_daemon (0, true) example_row ex_wf ex_view) as H.
  fold (ex_deletion true 0) in H. assert (fst (fst (ex_deletion true 0)) = Ok tt) as Hr by (vm_compute; reflexivity).
  destruct (ex_deletion true 0) as [[r d'] e']. cbn [fst] in Hr. split; [exact Hr|]. destruct H as (_ & _ & _ & H).
  exact (proj1 (H eq_refl Hr)).
Defined.

Lemma delete_failure_status_witness :
  exists record, get_pod (d_db (snd (fst (ex_deletion true 1)))) (lit "/a") (lit "dev") = Ok (Some record) /\
    Db.status record = Deleting.
Proof.
  pose proof (delete_failure_status (lit "now") ex_host (fun k => k.2) (fun _ e => (true, e)) (fun _ _ e => (Ok None, e))
    ex_delete (fun _ => []) (fun _ _ => None) ex_key true Remove ex_daemon (1, true) example_row ex_wf ex_view) as H.
  fold (ex_deletion true 1) in H.
  assert (fst (fst (ex_deletion true 1)) = Err (BackendFailed (lit "busy"))) as Hr by (vm_compute; reflexivity).
  destruct (ex_deletion true 1) as [[r d'] e']. cbn [fst] in Hr. destruct H as [H _].
  destruct (H _ Hr) as (record & Hg & Hs & _). exists record. exact (conj Hg Hs).
Defined.


Definition ex_stopped (wait : bool) : result daemon_error unit * Daemon * (nat * bool) :=
  stop_pod (lit "now") ex_host (fun _ => true) (fun k => k.2) (fun _ e => (true, e)) (fun _ _ e => (Ok None, e)) ex_delete
    ex_key wait ex_daemon (1, true).

(** The engine refused to stop the container; the request succeeded and the pod is ready. *)
Lemma stop_outcome_witness :
  fst (fst (ex_stopped false)) = Ok tt /\
  exists record, get_pod (d_db (snd (fst (ex_stopped false)))) (lit "/a") (lit "dev") = Ok (Some record) /\
    Db.status record = Ready.
Proof.
  pose proof (stop_outcome (lit "now") ex_host (fun _ => true) (fun k => k.2) (fun _ e => (true, e))
    (fun _ _ e => (Ok None, e)) ex_delete ex_key false ex_daemon (1, true) example_row ex_wf ex_view) as H.
  fold (ex_stopped false) in H. assert (fst (fst (ex_stopped false)) = Ok tt) as Hr by (vm_compute; reflexivity).
  destruct (ex_stopped false) as [[r d'] e']. cbn [fst snd] in *. split; [exact Hr|].
  destruct H as [[_ (x & Hx & _)]|[_ [(record & Hg & Hs & _) _]]]; [rewrite Hr in Hx; discriminate|].
  exists record. exact (conj Hg Hs).
Defined.

(** The stopped pod is deleted and launched anew, and the restoring function is never called. *)
Lemma recreate_drops_changes_witness :
  let recreate restore :=
    recreate_pod (lit "now") ex_host (fun k => k.2) (fun _ e => (true, e)) (fun _ _ e => (Ok None, e)) ex_delete
      (fun _ => []) (fun _ _ => None) (Ok BStopped) None (fun d e => (Ok (lit "new"), d, e)) restore
      ex_key ex_daemon (0, true) in
  recreate (fun _ e => (Ok tt, e)) = recreate (fun _ e => (Err PodNotFound, e)) /\
  fst (fst (recreate (fun _ e => (Err PodNotFound, e)))) = Ok (lit "new").
Proof.
  intros recreate. split; [|vm_compute; reflexivity].
  exact (proj1 (recreate_drops_changes (P:=unit) (lit "now") ex_host (fun k => k.2) (fun _ e => (true, e))
    (fun _ _ e => (Ok None, e)) ex_delete (fun _ => []) (fun _ _ => None) BStopped None (fun d e => (Ok (lit "new"), d, e))
    (fun _ e => (Ok tt, e)) (fun _ e => (Err PodNotFound, e)) ex_key ex_daemon (0, true)
    (or_intror eq_refl))).
Defined.


Lemma sync_listing_authoritative_witness :
  let d := ex_daemon <| d_db ::= fun c => update_pod_status c (lit "now") 1 Ready |> in
  let '(r, d') := list_pods_handler ex_host (fun _ _ => None) (fun _ => true) (fun _ => None) (fun t => t)
                    (fun _ => Ok tt) (lit "/a") Sync false [] d in
  exists es p, r = Ok es /\ p ∈ es /\ pi_name p = lit "dev" /\ pi_status p = LGone.
Proof.
  intros d. assert (conn_wf (d_db d)) as Hwf by (apply update_status_wf, ex_wf).
  assert (view (d_db d) !! ex_key = Some (with_status (lit "now") Ready example_row)) as Hv by (vm_compute; reflexivity).
  destruct (list_pods_handler _ _ _ _ _ _ _ _ _ _ _) as [r d'] eqn:El.
  assert (is_ok r = true) as Hr.
  { change r with (fst (r, d')). rewrite <- El. vm_compute. reflexivity. }
  destruct r as [es|]; [|discriminate].
  destruct (sync_listing_authoritative ex_host (fun _ _ => None) (fun _ => true) (fun _ => None) (fun t => t)
    (fun _ => Ok tt) (lit "/a") false [] d es d' (with_status (lit "now") Ready example_row) (Localhost Docker)
    Hwf El Hv eq_refl (status_with_status _ _ _)) as (p & Hin & Hn & _ & Hs).
  exists es, p. exact (conj eq_refl (conj Hin (conj Hn Hs))).
Defined.

Lemma listing_complete_witness :
  let '(r, _) := list_pods_handler ex_host (fun _ _ => None) (fun _ => true) (fun _ => None) (fun t => t)
                    (fun _ => Ok tt) (lit "/a") Cached false [((lit "/a", lit "new"), (1, lit "h"))] ex_daemon in
  exists es, r = Ok es /\ NoDup (map pi_name es) /\ lit "new" ∈ map pi_name es /\ lit "work" ∈ map pi_name es.
Proof.
  destruct (list_pods_handler _ _ _ _ _ _ _ _ _ _ _) as [r d'] eqn:El.
  assert (is_ok r = true) as Hr.
  { change r with (fst (r, d')). rewrite <- El. vm_compute. reflexivity. }
  destruct r as [es|]; [|discriminate].
  destruct (listing_complete ex_host (fun _ _ => None) (fun _ => true) (fun _ => None) (fun t => t) (fun _ => Ok tt)
    (lit "/a") Cached false [((lit "/a", lit "new"), (1, lit "h"))] ex_daemon es d' ex_wf ltac:(decide_now) El)
    as (Hnd & Hin & _).
  exists es. split; [reflexivity|]. split; [exact Hnd|]. split; apply Hin.
  - right. exists 1, (lit "h"). split; [left|discriminate].
  - left. vm_compute. eexists. reflexivity.
Defined.

Lemma credentials_are_current_witness :
  let c := connected_pod <| PodConn.token := lit "t1" |> <| resources ::= fun r =>
             r <| pod_server := Some (mkExecProxy 4000 true (lit "ctr")) |> |> in
  let d := mkDaemon (update_pod_status example_db (lit "now") 1 Ready) {[ex_key := c]} ∅ ∅ ∅ [] in
  exists ep, exec_connection ex_key d = Ok (ep, HTTP_2) /\ endpoint_token ep = lit "t1" /\
    exists row, view (d_db d) !! ex_key = Some row /\ endpoint_token ep = row_token row.
Proof.
  intros c d. assert (conn_wf (d_db d)) as Hwf by (apply update_status_wf, ex_wf).
  eexists. split; [vm_compute; reflexivity|]. split; [vm_compute; reflexivity|].
  destruct (proj1 (credentials_are_current ex_key d Hwf) (mkEndpoint (lit "http://127.0.0.1:4000") (lit "t1")) HTTP_2
    ltac:(vm_compute; reflexivity)) as (row & _ & Hv & _ & _ & _ & _ & Ht).
  exists row. exact (conj Hv Ht).
Defined.

(** A Git that lists refs by a pattern with one asterisk. *)
Module GlobGit.

Definition matches (pre post r : list N) : bool :=
  let m := take (length r - length pre - length post) (drop (length pre) r) in
  bool_decide (r = pre ++ m ++ post) && bool_decide (c_slash ∉ m).

Definition for_each_ref (refs : gset (list N)) (pattern : list N) : option (list (list N)) :=
  match split_once 42%N pattern with
  | Some (pre, post) => Some (List.filter (matches pre post) (elements refs))
  | None => None
  end.

Lemma matches_spec pre post r : matches pre post r = true <-> exists m, r = pre ++ m ++ post /\ c_slash ∉ m.
Proof.
  unfold matches. rewrite andb_true_iff, !bool_decide_eq_true. split.
  - intros [Hr Hm]. eexists. exact (conj Hr Hm).
  - intros (m & -> & Hm).
    assert (take (length (pre ++ m ++ post) - length pre - length post) (drop (length pre) (pre ++ m ++ post)) = m) as ->.
    { rewrite drop_app_length, !length_app. replace (_ - _ - _) with (length m) by lia. apply take_app_length. }
    done.
Qed.

#[export] Instance laws : GitLaws for_each_ref.
Proof.
  constructor. intros refs pre post out r Hout Hno. unfold for_each_ref in Hout.
  assert (split_once 42%N (pre ++ lit "*" ++ post) = Some (pre, post)) as Hs.
  { apply split_once_Some. split; [done|]. intros Hin. apply Forall_app in Hno as [Hno _].
    rewrite Forall_forall in Hno. apply (Hno _ Hin). vm_compute. by left. }
  rewrite Hs in Hout. injection Hout as <-. rewrite elem_of_bfilter, elem_of_elements. by rewrite matches_spec.
Qed.

End GlobGit.

Lemma cleanup_keeps_nested_branches_witness :
  let refs := {[lit "refs/rumpelpod/main@dev"; lit "refs/rumpelpod/feature/x@dev"; lit "refs/rumpelpod/main@work"]}
              : gset (list N) in
  let refs' := cleanup_pod_refs_in_git_dir GlobGit.for_each_ref (lit "dev") refs in
  lit "refs/rumpelpod/feature/x@dev" ∈ refs' /\ lit "refs/rumpelpod/main@dev" ∉ refs'.
Proof.
  intros refs refs'. assert (dns_label (lit "dev")) as Hd by (apply NameTheorems.validate_iff; vm_compute; reflexivity).
  destruct (cleanup_keeps_nested_branches GlobGit.for_each_ref (laws := GlobGit.laws) (lit "dev") refs
    (default [] (GlobGit.for_each_ref refs (lit "refs/rumpelpod/*@" ++ lit "dev"))) Hd ltac:(vm_compute; reflexivity))
    as (H & _ & _).
  split.
  - apply (H (lit "feature/x")). split; [decide_now|decide_now].
  - intros Hin. apply (H (lit "main")) in Hin as [_ Hsl].
    assert (c_slash ∉ lit "main") as Hno by decide_now. exact (Hno Hsl).
Defined.
