(* ===== verification/Image.v ===== *)
(** * Images (image.rs)

    Where an image is built and how it is called: the build mode of a host, the command lines
    of builds and of queries, the tag computed from a build's inputs, and [resolve_image], which
    reuses an image with that tag or builds it.  Running the commands, asking the registry and
    SHA-256 are parameters. *)
From stdpp Require Import gmap sorting.
From S2P Require Import Prelude Strs Bytes Hosts Db Json Subst Devcontainer PodSpec Engine Compose.

(** ** Build modes *)

Inductive BuildxMode :=
| Load (docker_host : Host) (docker_socket : option (list N)) (engine : ContainerEngine)
| Push (registry : list N) (builder : option (list N)) (engine : ContainerEngine).

Definition from_host (host : Host) (docker_socket : option (list N)) : BuildxMode :=
  match host with
  | Kubernetes _ _ registry _ _ builder image_builder => Push registry builder image_builder
  | Localhost engine | Ssh _ engine => Load host docker_socket engine
  end.

(** The tag that callers use to reference the built image. *)
Definition output_tag (mode : BuildxMode) (local_tag : str) : str :=
  match mode with
  | Load _ _ _ => lit "rumpelpod-" ++ local_tag
  | Push registry _ _ => registry ++ lit ":" ++ local_tag
  end.

(** ** Command lines *)

Definition apply_docker_host (docker_host : Host) (docker_socket : option (list N)) : run (list str) :=
  match docker_host with
  | Localhost Docker => Returned match docker_socket with Some s => [lit "-H"; lit "unix://" ++ s] | None => [] end
  | Localhost Podman => Returned match docker_socket with Some s => [lit "--url"; lit "unix://" ++ s] | None => [] end
  | Localhost Auto => Panicked
  | Ssh d Docker => Returned [lit "-H"; lit "ssh://" ++ d]
  | Ssh _ Podman => s ← or_panic docker_socket; Returned [lit "--url"; lit "unix://" ++ s]
  | Ssh _ Auto => Panicked
  | Kubernetes _ _ _ _ _ _ _ => Returned []
  end.

(** The program that serves a host's images. *)
Definition image_program (docker_host : Host) : str :=
  match image_builder_of docker_host with
  | Some Docker | Some Auto | None => lit "docker"
  | Some Podman => lit "podman"
  end.

Definition image_exists_args (image : str) (h : Host) (socket : option (list N)) : run (list str) :=
  target ← apply_docker_host h socket;
  Returned ([image_program h] ++ target ++ [lit "image"; lit "inspect"; image]).

Definition pull_image_args (image : str) (h : Host) (socket : option (list N)) : run (list str) :=
  target ← apply_docker_host h socket;
  Returned ([image_program h] ++ target ++ [lit "pull"; image]).

(** [order] is the order in which the hash map of build arguments is iterated. *)
Definition collect_build_args (order : gmap (list N) (list N) -> list (list N * list N)) (build : BuildOptions) : list str :=
  (order (default ∅ (b_args build)) ≫= fun '(k, v) => [lit "--build-arg"; k ++ lit "=" ++ v]) ++
  match b_target build with Some t => [lit "--target"; t] | None => [] end ++
  match b_cache_from build with
  | Some (SAString s) => [lit "--cache-from"; s]
  | Some (SAArray arr) => arr ≫= fun s => [lit "--cache-from"; s]
  | None => []
  end ++
  default [] (b_options build).

Inductive image_error :=
| BuilderNeedsDocker
| BuildFailed (message : list N)
| PushFailed
| NoDockerfile (path : list N)
| RegistryFailed
| AgentFailed
| NoSshSource
| ContextFailed.

(** The command of a build up to the Dockerfile, and the tag it loads into an engine. *)
Definition build_command (tag : str) (mode : BuildxMode) : run (result image_error (list str * option str)) :=
  match mode with
  | Load h socket Docker =>
      target ← apply_docker_host h socket;
      Returned (Ok ([lit "docker"] ++ target ++ [lit "buildx"; lit "build"; lit "--load"; lit "--provenance=false"; lit "--sbom=false";
                     lit "-t=" ++ lit "rumpelpod-" ++ tag], Some (lit "rumpelpod-" ++ tag)))
  | Load h socket Podman =>
      target ← apply_docker_host h socket;
      Returned (Ok ([lit "podman"] ++ target ++ [lit "build"; lit "-t"; lit "rumpelpod-" ++ tag], Some (lit "rumpelpod-" ++ tag)))
  | Load _ _ Auto | Push _ _ Auto => Panicked
  | Push registry builder Docker =>
      Returned (Ok ([lit "docker"; lit "buildx"; lit "build"] ++
                    match builder with Some b => [lit "--builder"; b] | None => [] end ++
                    [lit "--push"; lit "--provenance=false"; lit "--sbom=false"; lit "-t"; registry ++ lit ":" ++ tag], None))
  | Push registry (Some _) Podman => Returned (Err BuilderNeedsDocker)
  | Push registry None Podman => Returned (Ok ([lit "podman"; lit "build"; lit "-t"; registry ++ lit ":" ++ tag], None))
  end.

(** *** SSH sources of a build *)

(** [agent.build_source] of ssh_agent.rs. *)
Definition build_source (socket : str) (source : str) : str :=
  default source (split_once c_eq source ≫= fun '(id, _) => Some id) ++ lit "=" ++ socket.

Definition is_ssh_option (option : str) : bool := bool_decide (option = lit "--ssh") || starts_with (lit "--ssh=") option.

Fixpoint rewrite_ssh (socket : str) (options : list str) : result image_error (list str) :=
  match options with
  | [] => Ok []
  | option :: rest =>
      if bool_decide (option = lit "--ssh") then
        match rest with
        | [] => Err NoSshSource
        | source :: rest => rest ← rewrite_ssh socket rest; Ok (option :: build_source socket source :: rest)
        end
      else
        let option := match strip_prefix (lit "--ssh=") option with
                      | Some source => lit "--ssh=" ++ build_source socket source
                      | None => option
                      end in
        rest ← rewrite_ssh socket rest; Ok (option :: rest)
  end.

Definition configure_build_ssh (agent : result image_error (option (list N))) (options : list str) : result image_error (list str) :=
  if negb (existsb is_ssh_option options) then Ok options
  else match agent with
       | Err x => Err x
       | Ok None => Ok options
       | Ok (Some socket) => rewrite_ssh socket options
       end.

Section Builds.
Context {E : Type}.
(** Running a command, with the message of a failure, and whether [image inspect] succeeds. *)
Context (exec : list str -> E -> result str unit * E) (image_exists : str -> Host -> option (list N) -> E -> bool).
(** Whether a registry has the manifest of a tag. *)
Context (registry_image_exists : str -> E -> result image_error bool).

Definition run_buildx_build (tag dockerfile context_dir : str) (mode : BuildxMode) (extra_args : list str) (e : E)
    : run (result image_error unit * E) :=
  command ← build_command tag mode;
  match command with
  | Err x => Returned (Err x, e)
  | Ok (args, load_target) =>
      let '(r, e) := exec (args ++ [lit "-f=" ++ dockerfile] ++ extra_args ++ [context_dir]) e in
      match r with
      | Err msg =>
          match mode, load_target with
          | Load h socket _, Some local_tag =>
              if contains_str "already exists" msg && image_exists local_tag h socket e then Returned (Ok tt, e)
              else Returned (Err (BuildFailed msg), e)
          | _, _ => Returned (Err (BuildFailed msg), e)
          end
      | Ok _ =>
          match mode with
          | Push registry None Podman =>
              let '(r, e) := exec [lit "podman"; lit "push"; registry ++ lit ":" ++ tag] e in
              Returned (match r with Ok _ => Ok tt | Err _ => Err PushFailed end, e)
          | _ => Returned (Ok tt, e)
          end
      end
  end.

(** *** The tag of a build *)

Inductive ContextPathTagging := Include | Ignore.

(** An entry of the build context in the order of the walk: its path below the context and what
    it is.  [Other] is a socket, a pipe or a device. *)
Inductive EntryKind := EFile (mode : N) (content : list N) | EDir | ESymlink (target : list N) | EOther.
Record Entry := mkEntry { en_path : list N; en_kind : EntryKind }.

(** What one entry adds to the hash.  Paths and targets are texts; [len] is in bytes. *)
Definition hash_entry (en : Entry) : option (list N) :=
  let head := framed (as_bytes (en_path en)) in
  match en_kind en with
  | EFile mode content => Some (head ++ lit "f" ++ le_bytes 8 mode ++ framed content)
  | EDir => Some (head ++ lit "d")
  | ESymlink target => Some (head ++ lit "l" ++ framed (as_bytes target))
  | EOther => None
  end.

(** [.git] directly below the context is not entered; the root itself is skipped. *)
Definition in_git (en : Entry) : bool :=
  match split c_slash (en_path en) with d :: _ => bool_decide (d = lit ".git") | [] => false end.

Fixpoint hash_entries (entries : list Entry) : option (list N) :=
  match entries with
  | [] => Some []
  | en :: entries =>
      if bool_decide (en_path en = []) || in_git en then hash_entries entries
      else h ← hash_entry en; rest ← hash_entries entries; Some (h ++ rest)
  end.

Definition str_le_P (a b : list N) : Prop := str_le a b = true.
#[local] Instance str_le_P_dec : RelDecision str_le_P.
Proof. intros a b. unfold str_le_P. apply _. Defined.

Definition hashed_args (args : gmap (list N) (list N)) : list N :=
  merge_sort str_le_P (map fst (map_to_list args)) ≫= fun k => as_bytes k ++ as_bytes (default [] (args !! k)).

Definition image_preimage (build : BuildOptions) (dockerfile context_path : list N) (entries : list N) (tagging : ContextPathTagging)
    : list N :=
  dockerfile ++ match tagging with Include => context_path | Ignore => [] end ++ entries ++
  hashed_args (default ∅ (b_args build)) ++
  match b_target build with Some t => as_bytes t | None => [] end ++
  (default [] (b_options build) ≫= as_bytes) ++
  match b_cache_from build with
  | Some (SAString s) => as_bytes s
  | Some (SAArray arr) => arr ≫= as_bytes
  | None => []
  end.

Definition compute_image_tag (lib : HashLib) (build : BuildOptions) (dockerfile context_path : list N) (entries : list Entry)
    (tagging : ContextPathTagging) : result image_error str :=
  h ← context ContextFailed (hash_entries entries);
  Ok (hex_encode lib (take 8 (sha256_digest lib (image_preimage build dockerfile context_path h tagging)))).

(** *** Resolving an image *)

Record BuildFlags := mkBuildFlags { bf_no_cache : bool; bf_pull : bool; bf_force : bool }.
Record BuildResult := mkBuildResult { br_image : list N; br_built : bool }.

(** Whether the tag is there already: in the registry, or in the engine. *)
Definition tag_exists (mode : BuildxMode) (tag : str) (e : E) : result image_error bool :=
  match mode with
  | Push registry _ _ => registry_image_exists (registry ++ lit ":" ++ tag) e
  | Load h socket _ => Ok (image_exists (output_tag mode tag) h socket e)
  end.

(** [read_dockerfile] is the content of the file when it exists, [walk] the entries of the
    context; [agent] the socket of the repository's managed SSH agent, if it has one. *)
Definition resolve_image (lib : HashLib) (order : gmap (list N) (list N) -> list (list N * list N))
    (read_dockerfile : str -> option (list N)) (walk : str -> list Entry) (agent : result image_error (option (list N)))
    (join_path : str -> str -> str) (dc_image : option (list N)) (build : option BuildOptions) (host : Host) (repo_root : str)
    (flags : BuildFlags) (tagging : ContextPathTagging) (socket : option (list N)) (e : E)
    : run (result image_error BuildResult * E) :=
  match build with
  | None => image ← or_panic dc_image; Returned (Ok (mkBuildResult image false), e)
  | Some build =>
      dockerfile ← or_panic (b_dockerfile build);
      let dockerfile_path := join_path repo_root dockerfile in
      match read_dockerfile dockerfile_path with
      | None => Returned (Err (NoDockerfile dockerfile_path), e)
      | Some content =>
          ctx ← or_panic (b_context build);
          let context_path := join_path repo_root ctx in
          match compute_image_tag lib build content (as_bytes context_path) (walk context_path) tagging with
          | Err x => Returned (Err x, e)
          | Ok tag =>
              let mode := from_host host socket in
              match (if bf_force flags then Ok false else tag_exists mode tag e) with
              | Err x => Returned (Err x, e)
              | Ok true => Returned (Ok (mkBuildResult (output_tag mode tag) false), e)
              | Ok false =>
                  match configure_build_ssh agent
                          (collect_build_args order build ++ (if bf_no_cache flags then [lit "--no-cache"] else []) ++
                           (if bf_pull flags then [lit "--pull"] else [])) with
                  | Err x => Returned (Err x, e)
                  | Ok extra =>
                      '(r, e) ← run_buildx_build tag dockerfile_path context_path mode extra e;
                      Returned (match r with
                                | Ok _ => Ok (mkBuildResult (output_tag mode tag) true)
                                | Err x => Err x
                                end, e)
                  end
              end
          end
      end
  end.

End Builds.

(** ** The user of an image *)

Definition normalize_image_user (raw : str) : str :=
  let user := trim (default raw (head (split c_colon raw))) in
  if bool_decide (user = []) then lit "root" else user.

(** ** The hash of a build context *)

(** Sizes and modes that [u64] holds, texts of Unicode scalar values. *)
Definition entry_ok (en : Entry) : Prop :=
  scalars (en_path en) /\ fits (as_bytes (en_path en)) /\
  match en_kind en with
  | EFile mode content => (mode < 256 ^ 8)%N /\ fits content
  | ESymlink target => scalars target /\ fits (as_bytes target)
  | EDir | EOther => True
  end.

Definition visible (entries : list Entry) : list Entry :=
  List.filter (fun en => negb (bool_decide (en_path en = []) || in_git en)) entries.

Lemma hash_entry_inj a b ha hb r1 r2 : entry_ok a -> entry_ok b -> hash_entry a = Some ha -> hash_entry b = Some hb ->
  ha ++ r1 = hb ++ r2 -> a = b /\ r1 = r2.
Proof.
  destruct a as [pa ka], b as [pb kb]. intros (Hsa & Hfa & Hka) (Hsb & Hfb & Hkb) Ea Eb Heq. unfold hash_entry in Ea, Eb.
  cbn [en_path en_kind] in *.
  assert (exists ta, ha = framed (as_bytes pa) ++ ta) as [ta Hta] by (destruct ka; try done; injection Ea as <-; by eexists).
  assert (exists tb, hb = framed (as_bytes pb) ++ tb) as [tb Htb] by (destruct kb; try done; injection Eb as <-; by eexists).
  pose proof Heq as Hp. rewrite Hta, Htb, <- !app_assoc in Hp. apply framed_inj in Hp as [Hp _]; [|done..].
  apply as_bytes_inj in Hp as ->; [|done..]. clear Hta Htb.
  change (lit "f") with [102%N] in *. change (lit "d") with [100%N] in *. change (lit "l") with [108%N] in *.
  destruct ka as [ma ca| |ta'|], kb as [mb cb| |tb'|]; try done;
    apply Some_inj in Ea as <-; apply Some_inj in Eb as <-; rewrite <- !app_assoc in Heq; apply app_inv_head in Heq; try discriminate Heq.
  - apply (app_inv_head [102%N]) in Heq. destruct Hka as [Hma Hca], Hkb as [Hmb Hcb].
    apply app_inj_1 in Heq as [Hm Hc]; [|by rewrite !length_le_bytes].
    apply le_bytes_inj in Hm as ->; [|done..]. by apply framed_inj in Hc as [-> ->].
  - apply (app_inv_head [100%N]) in Heq. by subst.
  - apply (app_inv_head [108%N]) in Heq. destruct Hka as [Hsta Hfta], Hkb as [Hstb Hftb].
    apply framed_inj in Heq as [Ht ->]; [|done..]. by apply as_bytes_inj in Ht as ->.
Qed.

Lemma hash_entry_nonempty en h r : hash_entry en = Some h -> h ++ r <> [].
Proof. unfold hash_entry. destruct (en_kind en); intros [= <-]; done. Qed.

(** The hash of a build context is taken over a text from which the context can be read
    back: two contexts with the same text have the same files, modes, contents and links in the
    same places, apart from [.git] at the top. *)
Theorem context_hash_injective es es' h :
  Forall entry_ok es -> Forall entry_ok es' -> hash_entries es = Some h -> hash_entries es' = Some h ->
  visible es = visible es'.
Proof.
  assert (forall es h, hash_entries es = Some h ->
    exists hs, Forall2 (fun en h => hash_entry en = Some h) (visible es) hs /\ h = concat hs) as Hvis.
  { clear. induction es as [|en es IH]; intros h H; cbn [hash_entries visible List.filter] in *.
    - injection H as <-. by exists [].
    - destruct (bool_decide _ || in_git en); cbn [negb]; [by apply IH|].
      destruct (hash_entry en) as [he|] eqn:Ee; [|done]. cbn [mbind option_bind] in H.
      destruct (hash_entries es) as [hr|]; [|done]. cbn [mbind option_bind] in H. injection H as <-.
      destruct (IH hr eq_refl) as (hs & Hf & ->). exists (he :: hs). by split; [constructor|]. }
  intros Hok Hok' (hs & Hf & ->)%Hvis (hs' & Hf' & Heq)%Hvis.
  assert (Forall entry_ok (visible es)) as Hv by (apply Forall_forall; intros x [Hx _]%elem_of_bfilter; by eapply Forall_forall in Hok).
  assert (Forall entry_ok (visible es')) as Hv' by (apply Forall_forall; intros x [Hx _]%elem_of_bfilter; by eapply Forall_forall in Hok').
  clear Hok Hok'. revert hs' Heq Hf'. generalize (visible es') Hv'. clear Hv' es'. revert Hv.
  induction Hf as [|en h v hs Hh _ IH]; intros Hv v' Hv' hs' Heq Hf'.
  - destruct Hf' as [|en' h' v' hs' Hh' _]; [done|]. symmetry in Heq. by apply (hash_entry_nonempty _ _ _ Hh') in Heq.
  - destruct Hf' as [|en' h' v' hs' Hh' Hf']; [by apply (hash_entry_nonempty _ _ _ Hh) in Heq|].
    apply Forall_cons_1 in Hv as [He Hv]. apply Forall_cons_1 in Hv' as [He' Hv'].
    cbn [concat] in Heq. apply (hash_entry_inj en en') in Heq as [-> Heq]; [|done..]. f_equal. by eapply IH.
Qed.

Lemma context_hash_injective_witness :
  visible [mkEntry [] EDir; mkEntry (lit "a") (EFile 420 [1%N]); mkEntry (lit ".git/x") EDir] =
  visible [mkEntry (lit "a") (EFile 420 [1%N])].
Proof.
  assert (entry_ok (mkEntry [] EDir)) as H0 by (split; [constructor|split; [vm_compute; reflexivity|exact I]]).
  assert (entry_ok (mkEntry (lit "a") (EFile 420 [1%N]))) as H1
    by (split; [decide_now|split; [vm_compute; reflexivity|split; vm_compute; reflexivity]]).
  assert (entry_ok (mkEntry (lit ".git/x") EDir)) as H2 by (split; [decide_now|split; [vm_compute; reflexivity|exact I]]).
  refine (context_hash_injective _ _ (default [] (hash_entries [mkEntry (lit "a") (EFile 420 [1%N])])) _ _ _ _).
  - exact (Forall_cons_2 _ _ _ H0 (Forall_cons_2 _ _ _ H1 (Forall_cons_2 _ _ _ H2 (Forall_nil_2 _)))).
  - exact (Forall_cons_2 _ _ _ H1 (Forall_nil_2 _)).
  - vm_compute. reflexivity.
  - vm_compute. reflexivity.
Defined.

(** The rest of a build's tag is not so: an argument is hashed as its name followed by its
    value, so moving text from one to the other gives the same tag for different builds, and
    the image of the first is used for the second. *)
Theorem image_tag_collision lib order build dockerfile path es tagging a b v :
  (forall k v, order {[k := v]} = [(k, v)]) -> b <> [] ->
  let build1 := build <| b_args := Some {[a ++ b := v]} |> in
  let build2 := build <| b_args := Some {[a := b ++ v]} |> in
  compute_image_tag lib build1 dockerfile path es tagging = compute_image_tag lib build2 dockerfile path es tagging /\
  (c_eq ∉ a ++ b -> collect_build_args order build1 <> collect_build_args order build2).
Proof.
  intros Ho Hb build1 build2. split.
  - unfold compute_image_tag. destruct (hash_entries es) as [h|]; [|done]. cbn [context mbind result_bind]. do 3 f_equal.
    unfold image_preimage. cbn [b_args b_target b_options b_cache_from build1 build2].
    assert (forall k v, hashed_args {[k := v]} = as_bytes k ++ as_bytes v) as Hargs.
    { intros k w. unfold hashed_args. rewrite map_to_list_singleton. cbn [map fst].
      change (merge_sort str_le_P [k]) with [k]. cbn [mbind list_bind]. by rewrite lookup_singleton_eq, app_nil_r. }
    change (default ∅ (b_args build1)) with ({[a ++ b := v]} : gmap (list N) (list N)).
    change (default ∅ (b_args build2)) with ({[a := b ++ v]} : gmap (list N) (list N)).
    rewrite !Hargs, !as_bytes_app, <- !app_assoc. done.
  - intros Hno. unfold collect_build_args.
    change (default ∅ (b_args build1)) with ({[a ++ b := v]} : gmap (list N) (list N)).
    change (default ∅ (b_args build2)) with ({[a := b ++ v]} : gmap (list N) (list N)).
    rewrite !Ho. cbn [mbind list_bind app]. intros H. injection H as H.
    change (lit "=") with [c_eq] in H. change ([c_eq] ++ ?x) with (c_eq :: x) in H.
    apply app_sep_inj_l in H as [H _]; [|done|set_solver].
    apply Hb. apply (app_inv_head a). by rewrite H, app_nil_r.
Qed.

Lemma image_tag_collision_witness :
  compute_image_tag ZeroHash.lib (BuildOptions_default <| b_args := Some {[lit "A" ++ lit "B" := lit "C"]} |>) [] [] [] Ignore =
  compute_image_tag ZeroHash.lib (BuildOptions_default <| b_args := Some {[lit "A" := lit "B" ++ lit "C"]} |>) [] [] [] Ignore.
Proof.
  apply (image_tag_collision ZeroHash.lib map_to_list BuildOptions_default [] [] [] Ignore (lit "A") (lit "B") (lit "C")).
  - intros k v. apply map_to_list_singleton.
  - discriminate.
Defined.

(** ** Resolving *)

(** The command line names the image [t]: [-t t], or [-t=t]. *)
Definition names_image (t : str) (args : list str) : Prop :=
  (exists a b, args = a ++ [lit "-t"; t] ++ b) \/ (exists a b, args = a ++ [lit "-t=" ++ t] ++ b).

Lemma build_command_names tag mode args target :
  build_command tag mode = Returned (Ok (args, target)) ->
  names_image (output_tag mode tag) args /\ (forall t, target = Some t -> t = output_tag mode tag).
Proof.
  destruct mode as [h socket [| |]|registry [builder|] [| |]]; cbn [build_command output_tag]; try done.
  - destruct (apply_docker_host h socket) as [target'| |]; cbn [mbind run_bind]; [|done..]. intros [= <- <-].
    split; [|by intros t [= <-]]. right.
    exists ((lit "docker" :: target') ++ [lit "buildx"; lit "build"; lit "--load"; lit "--provenance=false"; lit "--sbom=false"]), [].
    by rewrite <- (app_assoc (lit "docker" :: target')).
  - destruct (apply_docker_host h socket) as [target'| |]; cbn [mbind run_bind]; [|done..]. intros [= <- <-].
    split; [|by intros t [= <-]]. left. exists ((lit "podman" :: target') ++ [lit "build"]), [].
    by rewrite <- (app_assoc (lit "podman" :: target')).
  - intros [= <- <-]. split; [|done]. left.
    by exists [lit "docker"; lit "buildx"; lit "build"; lit "--builder"; builder; lit "--push"; lit "--provenance=false"; lit "--sbom=false"], [].
  - intros [= <- <-]. split; [|done]. left.
    by exists [lit "docker"; lit "buildx"; lit "build"; lit "--push"; lit "--provenance=false"; lit "--sbom=false"], [].
  - intros [= <- <-]. split; [|done]. left. by exists [lit "podman"; lit "build"], [].
Qed.

Section Resolve.
Context {E : Type}.
Context (exec : list str -> E -> result str unit * E) (image_exists : str -> Host -> option (list N) -> E -> bool).
Context (registry_image_exists : str -> E -> result image_error bool).

(** A build that succeeded ran a command that names the image and succeeded, or failed only
    because the engine has the image already. *)
Lemma run_buildx_build_ok tag dockerfile dir mode extra e e' :
  run_buildx_build exec image_exists tag dockerfile dir mode extra e = Returned (Ok tt, e') ->
  exists args r e1, exec args e = (r, e1) /\ names_image (output_tag mode tag) args /\
    (r = Ok tt \/ exists h socket engine, mode = Load h socket engine /\ image_exists (output_tag mode tag) h socket e1 = true).
Proof.
  unfold run_buildx_build. destruct (build_command tag mode) as [[[args target]|x]| |] eqn:Ec; cbn [mbind run_bind]; try done.
  destruct (build_command_names _ _ _ _ Ec) as [Hn Ht].
  set (full := args ++ _). destruct (exec full e) as [r e1] eqn:Ee. intros H. exists full, r, e1.
  assert (names_image (output_tag mode tag) full) as Hfull.
  { destruct Hn as [(a & b & ->)|(a & b & ->)]; [left|right]; exists a; eexists; unfold full; by rewrite <- !app_assoc. }
  split_and!; [done|done|]. destruct r as [[]|msg]; [by left|right].
  destruct mode as [h socket engine|]; [|done]. destruct target as [t|]; [|done].
  destruct (contains_str _ _ && _) eqn:Ex; [|done]. apply andb_true_iff in Ex as [_ Ex].
  exists h, socket, engine. split; [done|]. by rewrite <- (Ht t eq_refl).
Qed.

(** Resolving an image built from a Dockerfile returns the tag of its inputs, qualified for
    the host.  An image that is there already is reused, without running anything, unless the
    build is forced; otherwise the build ran with exactly that name, and either succeeded or
    the engine has the image. *)
Theorem resolve_image_spec lib order read_dockerfile walk agent join_path dc_image build host root flags tagging socket e res e' :
  resolve_image exec image_exists registry_image_exists lib order read_dockerfile walk agent join_path dc_image (Some build)
    host root flags tagging socket e = Returned (Ok res, e') ->
  let mode := from_host host socket in
  exists content ctx tag, b_context build = Some ctx /\
    compute_image_tag lib build content (as_bytes (join_path root ctx)) (walk (join_path root ctx)) tagging = Ok tag /\
    br_image res = output_tag mode tag /\
    if br_built res then
      exists args r e1, exec args e = (r, e1) /\ names_image (br_image res) args /\
        (r = Ok tt \/ exists h s engine, mode = Load h s engine /\ image_exists (br_image res) h s e1 = true)
    else bf_force flags = false /\ tag_exists image_exists registry_image_exists mode tag e = Ok true /\ e' = e.
Proof.
  unfold resolve_image. destruct (b_dockerfile build) as [df|]; cbn [or_panic mbind run_bind]; [|done].
  destruct (read_dockerfile _) as [content|]; [|done].
  destruct (b_context build) as [ctx|]; cbn [or_panic mbind run_bind]; [|done].
  destruct (compute_image_tag _ _ _ _ _ _) as [tag|] eqn:Et; [|done].
  destruct (if bf_force flags then _ else _) as [[]|] eqn:Ex; [| |done].
  - intros [= <- <-]. exists content, ctx, tag. split_and!; [done|done|done|]. cbn. by destruct (bf_force flags).
  - destruct (configure_build_ssh _ _) as [extra|]; [|done].
    destruct (run_buildx_build _ _ _ _ _ _ _ _) as [[[[]|x] e1]| |] eqn:Er; cbn [mbind run_bind]; [|done..].
    intros [= <- <-]. exists content, ctx, tag. split_and!; [done|done|done|]. cbn.
    by eapply run_buildx_build_ok.
Qed.

End Resolve.

Definition ex_order : gmap (list N) (list N) -> list (list N * list N) := map_to_list.

Lemma resolve_image_spec_witness :
  let build := BuildOptions_default <| b_dockerfile := Some (lit "Dockerfile") |> <| b_context := Some (lit ".") |> in
  let resolve exists_ := resolve_image (fun _ (e : nat) => (Ok tt, S e)) (fun _ _ _ _ => exists_) (fun _ _ => Ok false) ZeroHash.lib ex_order
    (fun _ => Some (lit "FROM x")) (fun _ => []) (Ok None) (fun a b => a ++ lit "/" ++ b) None (Some build) (Localhost Docker)
    (lit "/r") (mkBuildFlags false false false) Include None 0 in
  exists res, resolve true = Returned (Ok res, 0) /\ br_built res = false /\
    exists res', resolve false = Returned (Ok res', 1) /\ br_built res' = true /\ br_image res' = br_image res.
Proof.
  intros build resolve.
  assert (exists res', resolve false = Returned (Ok res', 1) /\ br_built res' = true /\ br_image res' = lit "rumpelpod-0000000000000000")
    as (res' & H & Hb & Hi) by (eexists; split; [vm_compute; reflexivity|]; split; vm_compute; reflexivity).
  eexists. split; [vm_compute; reflexivity|]. split; [reflexivity|]. exists res'. split; [exact H|]. split; [exact Hb|].
  destruct (resolve_image_spec (fun _ (e : nat) => (Ok tt, S e)) (fun _ _ _ _ => false) (fun _ _ => Ok false) ZeroHash.lib ex_order
    (fun _ => Some (lit "FROM x")) (fun _ => []) (Ok None) (fun a b => a ++ lit "/" ++ b) None build (Localhost Docker)
    (lit "/r") (mkBuildFlags false false false) Include None 0 res' 1 H) as (content & ctx & tag & _ & _ & Himg & _).
  rewrite Hi. vm_compute. reflexivity.
Defined.
