(* ===== verification/Accounts.v ===== *)
(** * Accounts of the container user (prepared_image.rs)

    While an image is prepared, the container user gets the numbers of the user on the host:
    [/etc/passwd] and [/etc/group] are parsed, checked for conflicts and rewritten, and the
    files of the image change hands.  The file system of the image under construction is
    explicit state; a step that fails fails the build, so the state it leaves is dropped.  The
    user database the C library reads and the result of [chown] are parameters. *)
From stdpp Require Import gmap.
From S2P Require Import Prelude Strs Bytes Hosts Hooks.

(** ** Account files *)

Inductive prep_error :=
| EmptyRecord (line : nat)
| WrongFields (fields line : nat)
| EmptyFile
| InvalidId (line : nat)
| ReadFailed
| UserNotFound
| DuplicateUser
| UidTaken (existing : list N)
| ChownFailed (path : list N)
| ResolvedOther.

Fixpoint parse_records (expected_fields index : nat) (ls : list str) : result prep_error (list (list str)) :=
  match ls with
  | [] => Ok []
  | line :: ls =>
      if bool_decide (line = []) then Err (EmptyRecord (S index))
      else
        let fields := split c_colon line in
        if negb (bool_decide (length fields = expected_fields)) then Err (WrongFields (length fields) (S index))
        else records ← parse_records expected_fields (S index) ls; Ok (fields :: records)
  end.

Definition parse_account_file (contents : str) (expected_fields : nat) : result prep_error (list (list str)) :=
  records ← parse_records expected_fields 0 (lines contents);
  if bool_decide (records = []) then Err EmptyFile else Ok records.

Definition serialize_account_file (records : list (list str)) : str := unlines (map (join [c_colon]) records).

Definition parse_account_id (value : str) (line : nat) : result prep_error N :=
  context (InvalidId line) (parse_uint (Z.to_N u32_max) value).

(** [record[n]]; the parser checked the number of fields, so the index is in range. *)
Definition field (r : list str) (n : nat) : str := default [] (r !! n).

(** ** The image's file system *)

Record Meta := mkMeta { m_dev : N; m_uid : N; m_gid : N }.

#[export] Instance Meta_eq_dec : EqDecision Meta.
Proof. solve_decision. Defined.

(** The account files, as far as they can be read, and the entries below the root in the order
    they are walked. *)
Record Rootfs := mkRootfs {
  rf_passwd : option (list N);
  rf_group : option (list N);
  rf_root_dev : N;
  rf_files : list (list N * Meta);
}.

#[export] Instance Rootfs_updatable : Updatable Rootfs := fun f =>
  mkRootfs (rf_passwd f) (rf_group f) (rf_root_dev f) (rf_files f).

Record RemoteUserIdUpdate := mkIdUpdate { up_uid : N; up_gid : N }.

Section Accounts.
(** Whether [fchownat] succeeds on a path, and the entries of the user database that [getpwnam]
    and [getpwuid] find in an [/etc/passwd]. *)
Context (chown_ok : str -> bool).
Context (from_name : str -> str -> option (N * N)) (from_uid : str -> N -> option (N * N)).

Definition translate_meta (root_dev old_uid old_gid new_uid new_gid : N) (m : Meta) : Meta :=
  if negb (bool_decide (m_dev m = root_dev)) then m
  else
    mkMeta (m_dev m)
      (if negb (bool_decide (old_uid = new_uid)) && bool_decide (m_uid m = old_uid) then new_uid else m_uid m)
      (if negb (bool_decide (old_gid = new_gid)) && bool_decide (m_gid m = old_gid) then new_gid else m_gid m).

Fixpoint translate_root_filesystem_ownership (root_dev old_uid old_gid new_uid new_gid : N) (files : list (list N * Meta))
    : result prep_error (list (list N * Meta)) :=
  match files with
  | [] => Ok []
  | (path, m) :: files =>
      let m' := translate_meta root_dev old_uid old_gid new_uid new_gid m in
      if negb (bool_decide (m' = m)) && negb (chown_ok path) then Err (ChownFailed path)
      else rest ← translate_root_filesystem_ownership root_dev old_uid old_gid new_uid new_gid files;
           Ok ((path, m') :: rest)
  end.

Definition resolve_user (passwd : str) (name : str) : result prep_error (N * N) :=
  match from_name passwd name with
  | Some u => Ok u
  | None => context UserNotFound (uid ← parse_uint (Z.to_N u32_max) name; from_uid passwd uid)
  end.

Definition matching_users (user : str) (passwd : list (list str)) : list nat :=
  omap (fun '(index, record) => if bool_decide (field record 0 = user) then Some index else None) (imap pair passwd).

(** The UID is free: the loop over the user records. *)
Fixpoint check_uid_free (user_index : nat) (uid : N) (index : nat) (passwd : list (list str)) : result prep_error unit :=
  match passwd with
  | [] => Ok tt
  | record :: passwd =>
      u ← parse_account_id (field record 2) (S index);
      if negb (bool_decide (index = user_index)) && bool_decide (u = uid) then Err (UidTaken (field record 0))
      else check_uid_free user_index uid (S index) passwd
  end.

(** The first group that has the requested GID, unless the user has it already. *)
Fixpoint conflicting_group (old_gid gid : N) (index : nat) (group : list (list str)) : result prep_error (option str) :=
  match group with
  | [] => Ok None
  | record :: group =>
      g ← parse_account_id (field record 2) (S index);
      if negb (bool_decide (old_gid = gid)) && bool_decide (g = gid) then Ok (Some (field record 0))
      else conflicting_group old_gid gid (S index) group
  end.

Fixpoint renumber_groups (old_gid new_gid : N) (index : nat) (group : list (list str)) : result prep_error (list (list str)) :=
  match group with
  | [] => Ok []
  | record :: group =>
      g ← parse_account_id (field record 2) (S index);
      rest ← renumber_groups old_gid new_gid (S index) group;
      Ok ((if bool_decide (g = old_gid) then <[2 := show new_gid]> record else record) :: rest)
  end.

Definition is_numeric (user : str) : bool := forallb is_ascii_digit user.

Definition update_remote_user_ids (user : str) (requested : RemoteUserIdUpdate) (fs : Rootfs) : result prep_error Rootfs :=
  if bool_decide (user = lit "root") then Ok fs
  else if is_numeric user then Ok fs
  else
    passwd_contents ← context ReadFailed (rf_passwd fs);
    group_contents ← context ReadFailed (rf_group fs);
    passwd ← parse_account_file passwd_contents 7;
    group ← parse_account_file group_contents 4;
    user_index ← match matching_users user passwd with
                 | [index] => Ok index
                 | [] => Err UserNotFound
                 | _ => Err DuplicateUser
                 end;
    let record := default [] (passwd !! user_index) in
    old_uid ← parse_account_id (field record 2) (S user_index);
    old_gid ← parse_account_id (field record 3) (S user_index);
    if bool_decide (old_uid = 0%N) then Ok fs
    else
      _ ← check_uid_free user_index (up_uid requested) 0 passwd;
      conflict ← conflicting_group old_gid (up_gid requested) 0 group;
      let new_gid := match conflict with Some _ => old_gid | None => up_gid requested end in
      if bool_decide (old_uid = up_uid requested) && bool_decide (old_gid = new_gid) then Ok fs
      else
        fs ← (if bool_decide (old_gid = new_gid) then Ok fs
              else group ← renumber_groups old_gid new_gid 0 group;
                   Ok (fs <| rf_group := Some (serialize_account_file group) |>));
        let passwd := <[user_index := <[3 := show new_gid]> (<[2 := show (up_uid requested)]> record)]> passwd in
        let fs := fs <| rf_passwd := Some (serialize_account_file passwd) |> in
        files ← translate_root_filesystem_ownership (rf_root_dev fs) old_uid old_gid (up_uid requested) new_gid (rf_files fs);
        let fs := fs <| rf_files := files |> in
        resolved ← resolve_user (serialize_account_file passwd) user;
        if negb (bool_decide (resolved = (up_uid requested, new_gid))) then Err ResolvedOther else Ok fs.

End Accounts.

(** ** Reading account files back *)

Definition record_ok (n : nat) (r : list str) : Prop :=
  length r = n /\ Forall (fun f => c_colon ∉ f /\ c_nl ∉ f /\ c_cr ∉ f) r.

Lemma parse_records_spec n ls i records :
  parse_records n i ls = Ok records <->
  Forall (fun l => l <> [] /\ length (split c_colon l) = n) ls /\ records = map (split c_colon) ls.
Proof.
  revert i records. induction ls as [|l ls IH]; intros i records; simpl.
  - split; [by intros [= <-]|]. by intros [_ ->].
  - case_bool_decide as Hl; [split; [done|]; intros [[[]]%Forall_cons_1 _]; done|].
    case_bool_decide as Hn; cbn [negb]; [|split; [done|]; intros [[[]]%Forall_cons_1 _]; done].
    destruct (parse_records n (S i) ls) as [rs|e] eqn:E; cbn [mbind result_bind].
    + apply IH in E as [Hls ->]. split.
      * intros [= <-]. by split; [constructor|].
      * by intros [_ ->].
    + split; [done|]. intros [[_ Hls]%Forall_cons_1 ->].
      assert (parse_records n (S i) ls = Ok (map (split c_colon) ls)) as H by (by apply IH). congruence.
Qed.

Lemma record_line n r : 1 < n -> record_ok n r ->
  line_ok (join [c_colon] r) /\ join [c_colon] r <> [] /\ split c_colon (join [c_colon] r) = r.
Proof.
  intros Hn [Hlen Hr].
  assert (split c_colon (join [c_colon] r) = r) as Hs.
  { apply split_join; [by intros ->; simpl in *; lia|]. eapply Forall_impl; [exact Hr|]. by intros f (? & _). }
  assert (forall c, c <> c_colon -> (forall f, f ∈ r -> c ∉ f) -> c ∉ join [c_colon] r) as Hc.
  { intros c Hne. clear -Hne. induction r as [|f [|g r] IH]; intros H; [by intros ?%elem_of_nil|by apply H; left|].
    change (c ∉ f ++ [c_colon] ++ join [c_colon] (g :: r)). rewrite !elem_of_app. intros [?|[?%list_elem_of_singleton|?]].
    - by apply (H f); [left|].
    - by apply Hne.
    - by apply IH; [intros f' ?; apply H; right|]. }
  rewrite Forall_forall in Hr. split_and!; [split| |done].
  - apply Hc; [done|]. intros f Hf. apply (Hr f Hf).
  - apply not_true_iff_false. rewrite ends_with_true. intros [p Hp].
    assert (c_cr ∉ join [c_colon] r) as Hno by (apply Hc; [done|]; intros f Hf; apply (Hr f Hf)).
    apply Hno. rewrite Hp. set_solver.
  - intros He. rewrite He in Hs. simpl in Hs. subst r. simpl in Hlen. lia.
Qed.

Lemma serialize_parse n records : 1 < n -> records <> [] -> Forall (record_ok n) records ->
  parse_account_file (serialize_account_file records) n = Ok records.
Proof.
  intros Hn Hne Hr. unfold parse_account_file, serialize_account_file. rewrite lines_unlines.
  2: { apply Forall_map. eapply Forall_impl; [exact Hr|]. intros r H. by apply (record_line n). }
  assert (parse_records n 0 (map (join [c_colon]) records) = Ok records) as ->; [|by cbn; rewrite bool_decide_false].
  apply parse_records_spec. split.
  - apply Forall_map. eapply Forall_impl; [exact Hr|]. intros r H. destruct (record_line n r Hn H) as (_ & ? & Hs).
    split; [done|]. cbn. rewrite Hs. apply H.
  - rewrite map_map. clear -Hr Hn. induction Hr as [|r rs H _ IH]; [done|]. simpl. f_equal; [|done].
    symmetry. by apply (record_line n).
Qed.

Lemma elem_of_join x w sep ws : x ∈ w -> w ∈ ws -> x ∈ join sep ws.
Proof.
  intros Hx. induction ws as [|v [|v' ws] IH]; intros Hw; [by apply elem_of_nil in Hw| |].
  - by apply list_elem_of_singleton in Hw as <-.
  - change (x ∈ v ++ sep ++ join sep (v' :: ws)). apply elem_of_cons in Hw as [->|Hw]; [set_solver|].
    specialize (IH Hw). set_solver.
Qed.

Lemma elem_of_split x c s w : w ∈ split c s -> x ∈ w -> x ∈ s.
Proof. intros Hw Hx. rewrite <- (join_split c s). by eapply elem_of_join. Qed.

Lemma elem_of_strip_cr x l : x ∈ strip_cr l -> x ∈ l.
Proof.
  unfold strip_cr. destruct (strip_suffix [c_cr] l) as [r|] eqn:E; [|done]. apply strip_suffix_Some in E as ->. simpl. set_solver.
Qed.

Lemma lines_elem s l : l ∈ lines s -> c_nl ∉ l /\ forall x, x ∈ l -> x ∈ s.
Proof.
  unfold lines. pose proof (split_sep_free c_nl s) as Hf.
  pose proof (fun w x Hw Hx => elem_of_split x c_nl s w Hw Hx) as Hs.
  induction (split c_nl s) as [|w [|v ws] IH]; [by intros ?%elem_of_nil| |].
  - simpl. destruct w as [|y w]; [by intros ?%elem_of_nil|]. intros ->%list_elem_of_singleton.
    apply Forall_cons_1 in Hf as [Hf _]. split; [done|]. intros x. apply Hs. by left.
  - change (lines_of (w :: v :: ws)) with (strip_cr w :: lines_of (v :: ws)). apply Forall_cons_1 in Hf as [Hw Hf].
    intros [->|H]%elem_of_cons.
    + split; [by intros ?%elem_of_strip_cr|]. intros x ?%elem_of_strip_cr. by eapply Hs; [left|].
    + apply IH; [done| |done]. intros w' x ?. apply Hs. by right.
Qed.

Lemma parse_ok n contents records : c_cr ∉ contents -> parse_account_file contents n = Ok records ->
  records <> [] /\ Forall (record_ok n) records.
Proof.
  intros Hcr. unfold parse_account_file. destruct (parse_records n 0 (lines contents)) as [rs|e] eqn:E; [|done].
  cbn [mbind result_bind]. case_bool_decide as Hne; [done|]. intros [= <-]. split; [done|].
  apply parse_records_spec in E as [Hls ->]. apply Forall_map, Forall_forall. intros l Hl.
  rewrite Forall_forall in Hls. destruct (Hls l Hl) as [_ Hn]. destruct (lines_elem contents l Hl) as [Hnl Hsub].
  split; [done|]. apply Forall_forall. intros f Hf. split_and!.
  - pose proof (split_sep_free c_colon l) as Hs. rewrite Forall_forall in Hs. by apply Hs.
  - intros H. apply Hnl. by eapply elem_of_split.
  - intros H. apply Hcr, Hsub. by eapply elem_of_split.
Qed.

(** ** Renumbering *)

Lemma show_field n : c_colon ∉ show n /\ c_nl ∉ show n /\ c_cr ∉ show n.
Proof.
  pose proof (show_digits n) as H. rewrite Forall_forall in H.
  split_and!; intros Hin%H; by vm_compute in Hin.
Qed.

Lemma record_ok_insert n r i v : record_ok n r -> c_colon ∉ v /\ c_nl ∉ v /\ c_cr ∉ v -> record_ok n (<[i := v]> r).
Proof. intros [Hl Hr] Hv. split; [by rewrite length_insert|]. by apply Forall_insert. Qed.

Lemma parse_show_id n line : (n <= 2 ^ 32 - 1)%N -> parse_account_id (show n) line = Ok n.
Proof. intros H. unfold parse_account_id. by rewrite parse_uint_show. Qed.

Lemma field_insert_eq r i v : i < length r -> field (<[i := v]> r) i = v.
Proof. intros H. unfold field. by rewrite list_lookup_insert_eq. Qed.

Lemma field_insert_ne r i j v : i <> j -> field (<[i := v]> r) j = field r j.
Proof. intros H. unfold field. by rewrite list_lookup_insert_ne. Qed.

Lemma matching_users_unique user passwd i : matching_users user passwd = [i] ->
  exists r, passwd !! i = Some r /\ field r 0 = user /\
    forall j r', passwd !! j = Some r' -> field r' 0 = user -> j = i.
Proof.
  intros H.
  assert (forall j, j ∈ matching_users user passwd <-> exists r, passwd !! j = Some r /\ field r 0 = user) as Hm.
  { intros j. unfold matching_users. rewrite list_elem_of_omap. split.
    - intros ([k r] & (k' & r' & [= -> ->] & Hl)%elem_of_lookup_imap & Hx). case_bool_decide; [|done].
      injection Hx as ->. by exists r'.
    - intros (r & Hl & Hf). exists (j, r). split; [apply elem_of_lookup_imap; by exists j, r|]. by rewrite bool_decide_true. }
  rewrite H in Hm. destruct (proj1 (Hm i)) as (r & Hr & Hf); [by left|]. exists r. split_and!; [done|done|].
  intros j r' Hj Hf'. assert (j ∈ [i]) as ->%list_elem_of_singleton; [|done]. apply Hm. by exists r'.
Qed.

Lemma uid_free ui uid passwd : forall i0, check_uid_free ui uid i0 passwd = Ok tt ->
  forall j r, passwd !! j = Some r -> exists u, parse_account_id (field r 2) (S (i0 + j)) = Ok u /\ (i0 + j <> ui -> u <> uid).
Proof.
  induction passwd as [|r passwd IH]; intros i0 H j r' Hj; [done|]. cbn [check_uid_free] in H.
  destruct (parse_account_id (field r 2) (S i0)) as [u|] eqn:E; [|done]. cbn [mbind result_bind] in H.
  destruct (negb (bool_decide (i0 = ui)) && bool_decide (u = uid)) eqn:Ec; [done|].
  destruct j as [|j]; simpl in Hj.
  - injection Hj as <-. rewrite Nat.add_0_r. exists u. split; [done|]. intros Hne ->.
    by rewrite bool_decide_false, bool_decide_true in Ec.
  - destruct (IH (S i0) H j r' Hj) as (u' & Hu & Hne). rewrite <- plus_n_Sm. by exists u'.
Qed.

(** The number in a field, whatever line an error would name. *)
Definition id_of (v : str) : option N := parse_uint (Z.to_N u32_max) v.

Lemma parse_account_id_Ok v line u : parse_account_id v line = Ok u <-> id_of v = Some u.
Proof. unfold parse_account_id, id_of, context. destruct (parse_uint _ v); naive_solver. Qed.

Definition renumber (old_gid new_gid : N) (r : list str) : list str :=
  if bool_decide (id_of (field r 2) = Some old_gid) then <[2 := show new_gid]> r else r.

Lemma renumber_groups_spec old_gid new_gid group : forall i group',
  renumber_groups old_gid new_gid i group = Ok group' ->
  group' = map (renumber old_gid new_gid) group /\ Forall (fun r => is_Some (id_of (field r 2))) group.
Proof.
  induction group as [|r group IH]; intros i group' H; cbn [renumber_groups] in H; [by injection H as <-|].
  destruct (parse_account_id (field r 2) (S i)) as [g|] eqn:Eg; [|done]. cbn [mbind result_bind] in H.
  destruct (renumber_groups old_gid new_gid (S i) group) as [rest|] eqn:Er; [|done]. cbn [mbind result_bind] in H.
  injection H as <-. apply parse_account_id_Ok in Eg. destruct (IH _ _ Er) as [-> Hf]. split; [|constructor; [by eexists|done]].
  simpl. f_equal. unfold renumber. rewrite Eg. case_bool_decide as Hg; [by rewrite bool_decide_true by congruence|].
  by rewrite bool_decide_false by congruence.
Qed.

Lemma conflicting_group_None old_gid gid group : forall i,
  conflicting_group old_gid gid i group = Ok None ->
  old_gid = gid \/ Forall (fun r => id_of (field r 2) <> Some gid) group.
Proof.
  induction group as [|r group IH]; intros i H; cbn [conflicting_group] in H; [right; constructor|].
  destruct (parse_account_id (field r 2) (S i)) as [g|] eqn:Eg; [|done]. cbn [mbind result_bind] in H.
  apply parse_account_id_Ok in Eg. case_bool_decide as Ho; cbn [negb andb] in H; [by left|].
  case_bool_decide as Hg; [done|]. destruct (IH _ H) as [?|Hf]; [by left|right]. constructor; [congruence|done].
Qed.

Lemma translate_spec chown_ok dev ou og nu ng files files' :
  translate_root_filesystem_ownership chown_ok dev ou og nu ng files = Ok files' ->
  files' = map (fun f => (f.1, translate_meta dev ou og nu ng f.2)) files.
Proof.
  revert files'. induction files as [|[path m] files IH]; intros files'; cbn [translate_root_filesystem_ownership];
    [by intros [= <-]|].
  destruct (negb _ && negb _); [done|].
  destruct (translate_root_filesystem_ownership _ _ _ _ _ _ files) as [rest|]; [|done]. cbn [mbind result_bind].
  intros [= <-]. simpl. f_equal. by apply IH.
Qed.

(** What a renumbering did: [passwd] and [group] are the records before it, [i] is the user's. *)
Record renumbered (user : str) (requested : RemoteUserIdUpdate) (fs fs' : Rootfs) (passwd group : list (list str))
    (i : nat) (old_uid old_gid new_gid : N) : Prop := {
  rn_passwd : exists c, rf_passwd fs = Some c /\ parse_account_file c 7 = Ok passwd;
  rn_group : exists c, rf_group fs = Some c /\ parse_account_file c 4 = Ok group;
  rn_user : exists r, passwd !! i = Some r /\ field r 0 = user /\
    id_of (field r 2) = Some old_uid /\ id_of (field r 3) = Some old_gid;
  rn_nonroot : old_uid <> 0%N;
  (** Nobody else had the new UID. *)
  rn_uid_free : forall j r, j <> i -> passwd !! j = Some r -> id_of (field r 2) <> Some (up_uid requested);
  (** The user gets the requested group unless another group has its number. *)
  rn_gid : new_gid = old_gid \/
    (new_gid = up_gid requested /\ Forall (fun r => id_of (field r 2) <> Some new_gid) group);
  (** Afterwards the user database reads as before, except for the two numbers of the user. *)
  rn_passwd' : exists c, rf_passwd fs' = Some c /\
    parse_account_file c 7 =
      Ok (alter (fun r => <[3 := show new_gid]> (<[2 := show (up_uid requested)]> r)) i passwd);
  rn_group' : exists c, rf_group fs' = Some c /\
    parse_account_file c 4 = Ok (if bool_decide (old_gid = new_gid) then group else map (renumber old_gid new_gid) group);
  (** The files of the image's own file system follow. *)
  rn_files : rf_files fs' =
    map (fun f => (f.1, translate_meta (rf_root_dev fs) old_uid old_gid (up_uid requested) new_gid f.2)) (rf_files fs);
}.

(** No carriage returns: [lines] would drop one before each newline. *)
Definition no_cr (fs : Rootfs) : Prop :=
  (forall c, rf_passwd fs = Some c -> c_cr ∉ c) /\ (forall c, rf_group fs = Some c -> c_cr ∉ c).

Lemma alter_insert {A} (f : A -> A) i (l : list A) x : l !! i = Some x -> <[i := f x]> l = alter f i l.
Proof. revert i. induction l as [|y l IH]; intros [|i] H; simpl in *; [done..|by injection H as ->|]. f_equal. by apply IH. Qed.

Lemma renumber_record_ok old_gid new_gid r : record_ok 4 r -> record_ok 4 (renumber old_gid new_gid r).
Proof. intros H. unfold renumber. case_bool_decide; [|done]. apply record_ok_insert; [done|apply show_field]. Qed.

Lemma passwd_written i passwd uid gid : passwd <> [] -> Forall (record_ok 7) passwd ->
  let passwd' := alter (fun r => <[3 := show gid]> (<[2 := show uid]> r)) i passwd in
  parse_account_file (serialize_account_file passwd') 7 = Ok passwd'.
Proof.
  intros Hne Hok passwd'. apply serialize_parse; [lia| |].
  - unfold passwd'. destruct passwd as [|r passwd]; [done|]. by destruct i.
  - unfold passwd'. apply Forall_alter; [done|]. intros r Hl Hr.
    apply record_ok_insert; [apply record_ok_insert|]; [done|apply show_field..].
Qed.

Lemma group_written old_gid new_gid group : group <> [] -> Forall (record_ok 4) group ->
  let group' := map (renumber old_gid new_gid) group in
  parse_account_file (serialize_account_file group') 4 = Ok group'.
Proof.
  intros Hne Hok group'. apply serialize_parse; [lia|by unfold group'; destruct group|].
  apply Forall_map. eapply Forall_impl; [exact Hok|]. intros r. apply renumber_record_ok.
Qed.

Section Renumbering.
Context (chown_ok : str -> bool).
Context (from_name : str -> str -> option (N * N)) (from_uid : str -> N -> option (N * N)).

Lemma update_cases user requested fs fs' :
  no_cr fs -> update_remote_user_ids chown_ok from_name from_uid user requested fs = Ok fs' ->
  fs' = fs \/ exists passwd group i old_uid old_gid new_gid,
    renumbered user requested fs fs' passwd group i old_uid old_gid new_gid.
Proof.
  intros [Hcp Hcg]. unfold update_remote_user_ids.
  case_bool_decide as Hroot; [intros [= <-]; by left|]. destruct (is_numeric user); [intros [= <-]; by left|].
  destruct (rf_passwd fs) as [pc|] eqn:Epc; [|done]. destruct (rf_group fs) as [gc|] eqn:Egc; [|done].
  cbn [context mbind result_bind].
  destruct (parse_account_file pc 7) as [passwd|] eqn:Ep; [|done]. destruct (parse_account_file gc 4) as [group|] eqn:Eg; [|done].
  cbn [mbind result_bind]. destruct (matching_users user passwd) as [|i [|]] eqn:Em; [done| |done].
  destruct (matching_users_unique _ _ _ Em) as (r & Hr & Hname & _). cbn [mbind result_bind].
  rewrite Hr. cbn [default Datatypes.id].
  destruct (parse_account_id (field r 2) _) as [old_uid|] eqn:Eu; [|done].
  destruct (parse_account_id (field r 3) _) as [old_gid|] eqn:Ed; [|done]. cbn [mbind result_bind].
  apply parse_account_id_Ok in Eu, Ed. case_bool_decide as H0; [intros [= <-]; by left|].
  destruct (check_uid_free _ _ _ _) as [[]|] eqn:Ef; [|done].
  destruct (conflicting_group _ _ _ _) as [conflict|] eqn:Ec; [|done]. cbn [mbind result_bind].
  set (new_gid := match conflict with Some _ => old_gid | None => up_gid requested end).
  destruct (bool_decide (old_uid = _) && _); [intros [= <-]; by left|]. intros H. right.
  exists passwd, group, i, old_uid, old_gid, new_gid.
  destruct (parse_ok 7 pc passwd (Hcp _ eq_refl) Ep) as [Hpne Hpok]. destruct (parse_ok 4 gc group (Hcg _ eq_refl) Eg) as [Hgne Hgok].
  destruct (if bool_decide (old_gid = new_gid) then Ok fs else _) as [fs1|] eqn:Ew; [|done]. cbn [mbind result_bind] in H.
  rewrite (alter_insert (fun r => <[3 := show new_gid]> (<[2 := show (up_uid requested)]> r)) i passwd r Hr) in H.
  destruct (translate_root_filesystem_ownership _ _ _ _ _ _ _) as [files|] eqn:Et; [|done]. cbn [mbind result_bind] in H.
  destruct (resolve_user _ _ _ _) as [u|]; [|done]. cbn [mbind result_bind] in H. case_bool_decide as Hres; [|done]. cbn [negb] in H. injection H as <-.
  apply translate_spec in Et.
  assert (rf_root_dev fs1 = rf_root_dev fs /\ rf_files fs1 = rf_files fs /\
    exists c, rf_group fs1 = Some c /\
      parse_account_file c 4 = Ok (if bool_decide (old_gid = new_gid) then group else map (renumber old_gid new_gid) group))
    as (Hdev & Hfiles & Hgroup).
  { case_bool_decide; [injection Ew as <-; split_and!; [done|done|by exists gc]|].
    destruct (renumber_groups _ _ _ _) as [group'|] eqn:En; [|done]. injection Ew as <-.
    apply renumber_groups_spec in En as [-> _]. split_and!; [done|done|]. eexists. split; [done|]. by apply group_written. }
  constructor.
  - by exists pc.
  - by exists gc.
  - by exists r.
  - done.
  - intros j r' Hj Hr'. destruct (uid_free _ _ _ _ Ef j r' Hr') as (u' & Hu%parse_account_id_Ok & Hne).
    rewrite Hu. intros [= ->]. by apply Hne.
  - unfold new_gid. destruct conflict; [by left|]. destruct (conflicting_group_None _ _ _ _ Ec) as [?|?]; [by left|by right].
  - eexists. split; [done|]. by apply passwd_written.
  - exact Hgroup.
  - change (files = map (fun f => (f.1, translate_meta (rf_root_dev fs) old_uid old_gid (up_uid requested) new_gid f.2)) (rf_files fs)).
    rewrite Et. change (rf_root_dev (_ <| rf_passwd := _ |>)) with (rf_root_dev fs1).
    change (rf_files (_ <| rf_passwd := _ |>)) with (rf_files fs1). by rewrite Hdev, Hfiles.
Qed.

(** Renumbering the container user, when it succeeds and changes anything, changes in the
    user database exactly the two numbers of that user, gives it a UID nobody else has, and the
    requested GID unless another group has that one; the files of the image that belonged to the
    old numbers belong to the new ones.  The rewritten files parse to exactly these records. *)
Theorem update_user_ids_exact user requested fs fs' :
  no_cr fs -> update_remote_user_ids chown_ok from_name from_uid user requested fs = Ok fs' ->
  fs' = fs \/ exists passwd group i old_uid old_gid new_gid,
    renumbered user requested fs fs' passwd group i old_uid old_gid new_gid.
Proof. apply update_cases. Qed.

Definition uids_distinct (passwd : list (list str)) : Prop :=
  forall j k r s u, passwd !! j = Some r -> passwd !! k = Some s ->
    id_of (field r 2) = Some u -> id_of (field s 2) = Some u -> j = k.

Lemma renumbered_uids user requested fs fs' passwd group i old_uid old_gid new_gid :
  renumbered user requested fs fs' passwd group i old_uid old_gid new_gid ->
  (up_uid requested <= 2 ^ 32 - 1)%N -> uids_distinct passwd -> Forall (record_ok 7) passwd ->
  uids_distinct (alter (fun r => <[3 := show new_gid]> (<[2 := show (up_uid requested)]> r)) i passwd).
Proof.
  intros Hrn Hmax Hd Hok j k r s u Hj Hk Hu1 Hu2. set (f := fun r => _) in *.
  assert (forall j r, alter f i passwd !! j = Some r -> exists r0, passwd !! j = Some r0 /\
            field r 2 = if bool_decide (j = i) then show (up_uid requested) else field r0 2) as Hf.
  { clear -Hok. intros j r. case_bool_decide as Hji.
    - subst j. rewrite list_lookup_alter_eq. destruct (passwd !! i) as [r0|] eqn:E; [|done]. intros [= <-]. exists r0.
      split; [done|]. unfold f. rewrite field_insert_ne by done. apply field_insert_eq.
      rewrite Forall_forall in Hok. destruct (Hok r0) as [Hl _]; [by eapply list_elem_of_lookup_2|]. lia.
    - rewrite list_lookup_alter_ne by done. intros H. by exists r. }
  destruct (Hf j r Hj) as (r0 & Hr0 & Er), (Hf k s Hk) as (s0 & Hs0 & Es). rewrite Er in Hu1. rewrite Es in Hu2.
  assert (id_of (show (up_uid requested)) = Some (up_uid requested)) as Hshow by (apply (parse_account_id_Ok _ 0); by apply parse_show_id).
  destruct (decide (j = i)) as [->|Hji], (decide (k = i)) as [->|Hki];
    repeat (rewrite bool_decide_true in * by done); repeat (rewrite bool_decide_false in * by done);
    [done| | |by eapply Hd].
  - rewrite Hshow in Hu1. injection Hu1 as <-. by destruct (rn_uid_free _ _ _ _ _ _ _ _ _ _ Hrn k s0).
  - rewrite Hshow in Hu2. injection Hu2 as <-. by destruct (rn_uid_free _ _ _ _ _ _ _ _ _ _ Hrn j r0).
Qed.

(** Distinct users keep distinct UIDs. *)
Theorem update_keeps_uids_distinct user requested fs fs' c passwd :
  no_cr fs -> (up_uid requested <= 2 ^ 32 - 1)%N ->
  update_remote_user_ids chown_ok from_name from_uid user requested fs = Ok fs' ->
  rf_passwd fs = Some c -> parse_account_file c 7 = Ok passwd -> uids_distinct passwd ->
  exists c' passwd', rf_passwd fs' = Some c' /\ parse_account_file c' 7 = Ok passwd' /\ uids_distinct passwd'.
Proof.
  intros Hcr Hmax H Hc Hp Hd. destruct (update_cases _ _ _ _ Hcr H) as [->|(p & g & i & ou & og & ng & Hrn)]; [by exists c, passwd|].
  destruct (rn_passwd _ _ _ _ _ _ _ _ _ _ Hrn) as (c0 & Hc0 & Hp0).
  assert (p = passwd) as -> by congruence.
  destruct (rn_passwd' _ _ _ _ _ _ _ _ _ _ Hrn) as (c' & Hc' & Hp'). exists c'. eexists. split_and!; [done|exact Hp'|].
  destruct Hcr as [Hcr _]. destruct (parse_ok 7 c passwd (Hcr _ Hc) Hp) as [_ Hok]. by eapply renumbered_uids.
Qed.

(** A user whose entry names a GID that no group has. *)
Definition orphaned (fs : Rootfs) (j : nat) (r : list str) (gid : N) : Prop :=
  exists c passwd g group, rf_passwd fs = Some c /\ parse_account_file c 7 = Ok passwd /\ passwd !! j = Some r /\
    rf_group fs = Some g /\ parse_account_file g 4 = Ok group /\ Forall (fun g => id_of (field g 2) <> Some gid) group.

(** The other users of a renumbered group are forgotten: their entries keep the old GID, and
    afterwards no group has that number. *)
Theorem renumbering_orphans_shared_group user requested fs fs' :
  no_cr fs -> (up_gid requested <= 2 ^ 32 - 1)%N ->
  update_remote_user_ids chown_ok from_name from_uid user requested fs = Ok fs' ->
  fs' = fs \/ exists passwd group i old_uid old_gid new_gid,
    renumbered user requested fs fs' passwd group i old_uid old_gid new_gid /\
    (old_gid <> new_gid -> forall j r, j <> i -> passwd !! j = Some r -> id_of (field r 3) = Some old_gid ->
       orphaned fs' j r old_gid).
Proof.
  intros Hcr Hmax H. destruct (update_cases _ _ _ _ Hcr H) as [->|(p & g & i & ou & og & ng & Hrn)]; [by left|right].
  exists p, g, i, ou, og, ng. split; [done|]. intros Hne j r Hj Hr Hgid.
  destruct (rn_passwd' _ _ _ _ _ _ _ _ _ _ Hrn) as (c' & Hc' & Hp').
  destruct (rn_group' _ _ _ _ _ _ _ _ _ _ Hrn) as (g' & Hg' & Hgp). rewrite bool_decide_false in Hgp by done.
  destruct (rn_group _ _ _ _ _ _ _ _ _ _ Hrn) as (g0 & Hg0 & Hgp0).
  destruct Hcr as [_ Hcr]. destruct (parse_ok 4 g0 g (Hcr _ Hg0) Hgp0) as [_ Hok].
  exists c'. eexists. exists g'. eexists. split_and!; [done|exact Hp'| |done|exact Hgp|].
  - by rewrite list_lookup_alter_ne.
  - apply Forall_map. eapply Forall_impl; [exact Hok|]. intros x [Hl _]. cbn. unfold renumber.
    case_bool_decide as Hg; [|done]. rewrite field_insert_eq by lia.
    destruct (rn_gid _ _ _ _ _ _ _ _ _ _ Hrn) as [->|[Hng _]]; [done|].
    assert (id_of (show ng) = Some ng) as -> by (apply (parse_account_id_Ok _ 0); apply parse_show_id; by rewrite Hng). congruence.
Qed.

(** [getpwnam] finds the entry of a name that has exactly one. *)
Class PasswdLaws : Prop := {
  from_name_entry c passwd i r uid gid :
    parse_account_file c 7 = Ok passwd -> matching_users (field r 0) passwd = [i] -> passwd !! i = Some r ->
    id_of (field r 2) = Some uid -> id_of (field r 3) = Some gid -> from_name c (field r 0) = Some (uid, gid);
}.

Lemma check_uid_free_ok ui uid passwd : forall i0,
  (forall j r, passwd !! j = Some r -> exists u, id_of (field r 2) = Some u /\ (i0 + j <> ui -> u <> uid)) ->
  check_uid_free ui uid i0 passwd = Ok tt.
Proof.
  induction passwd as [|r passwd IH]; intros i0 H; [done|]. cbn [check_uid_free].
  destruct (H 0 r eq_refl) as (u & Hu & Hne). rewrite (proj2 (parse_account_id_Ok _ _ _) Hu). cbn [mbind result_bind].
  destruct (negb _ && _) eqn:E.
  - apply andb_true_iff in E as [Hi%negb_true_iff%bool_decide_eq_false ->%bool_decide_eq_true].
    rewrite Nat.add_0_r in Hne. by destruct (Hne Hi).
  - apply IH. intros j r' Hj. replace (S i0 + j) with (i0 + S j) by lia. apply (H (S j) r' Hj).
Qed.

Lemma conflicting_group_ok og gid group i : Forall (fun r => is_Some (id_of (field r 2))) group ->
  is_ok (conflicting_group og gid i group) = true.
Proof.
  intros H. revert i. induction H as [|r group [g Hg] _ IH]; intros i; [done|]. cbn [conflicting_group].
  rewrite (proj2 (parse_account_id_Ok _ _ _) Hg). cbn [mbind result_bind]. by destruct (negb _ && _).
Qed.

Lemma renumber_groups_ok og ng group i : Forall (fun r => is_Some (id_of (field r 2))) group ->
  renumber_groups og ng i group = Ok (map (renumber og ng) group).
Proof.
  intros H. revert i. induction H as [|r group [g Hg] _ IH]; intros i; [done|]. cbn [renumber_groups].
  rewrite (proj2 (parse_account_id_Ok _ _ _) Hg). cbn [mbind result_bind]. rewrite IH. cbn [mbind result_bind]. simpl.
  unfold renumber at 2. rewrite Hg. case_bool_decide as E; [by rewrite bool_decide_true by congruence|].
  by rewrite bool_decide_false by congruence.
Qed.

Lemma translate_ok dev ou og nu ng files : (forall path, chown_ok path = true) ->
  is_ok (translate_root_filesystem_ownership chown_ok dev ou og nu ng files) = true.
Proof.
  intros Hc. induction files as [|[path m] files IH]; [done|]. cbn [translate_root_filesystem_ownership].
  rewrite Hc, andb_false_r. by destruct (translate_root_filesystem_ownership _ _ _ _ _ _ files).
Qed.

Lemma matching_alter user passwd i r f : passwd !! i = Some r -> field (f r) 0 = field r 0 ->
  matching_users user (alter f i passwd) = matching_users user passwd.
Proof.
  intros Hr Hf. unfold matching_users.
  enough (forall n, omap (fun '(index, record) => if bool_decide (field record 0 = user) then Some index else None)
                      (imap (fun k x => (n + k, x)) (alter f i passwd)) =
                    omap (fun '(index, record) => if bool_decide (field record 0 = user) then Some index else None)
                      (imap (fun k x => (n + k, x)) passwd)) as H by apply (H 0).
  revert i Hr. induction passwd as [|x passwd IH]; intros i Hr n; [done|]. destruct i as [|i]; simpl in *.
  - injection Hr as ->. by rewrite Hf.
  - assert (forall l : list (list str), imap ((fun k x => (n + k, x)) ∘ S) l = imap (fun k x => (S n + k, x)) l) as Hs.
    { intros l. apply imap_ext. intros k y _. simpl. f_equal. lia. }
    rewrite !Hs. specialize (IH i Hr (S n)). case_bool_decide; [f_equal|]; exact IH.
Qed.

Context {laws : PasswdLaws}.

(** The renumbering succeeds for a user with one entry, when the account files are well
    formed, every number in them is one, and no one else has the requested UID. *)
Theorem update_user_ids_succeeds user requested fs c gc passwd group i r old_uid old_gid :
  no_cr fs -> (forall path, chown_ok path = true) ->
  (up_uid requested <= 2 ^ 32 - 1)%N -> (up_gid requested <= 2 ^ 32 - 1)%N -> (old_gid <= 2 ^ 32 - 1)%N ->
  rf_passwd fs = Some c -> rf_group fs = Some gc ->
  parse_account_file c 7 = Ok passwd -> parse_account_file gc 4 = Ok group ->
  matching_users user passwd = [i] -> passwd !! i = Some r ->
  id_of (field r 2) = Some old_uid -> id_of (field r 3) = Some old_gid ->
  (forall j s, passwd !! j = Some s -> exists u, id_of (field s 2) = Some u /\ (j <> i -> u <> up_uid requested)) ->
  Forall (fun s => is_Some (id_of (field s 2))) group ->
  exists fs', update_remote_user_ids chown_ok from_name from_uid user requested fs = Ok fs'.
Proof.
  intros [Hcp Hcg] Hchown Hu Hg Hog Hc Hgc Hp Hgp Hm Hr Hou Hogid Hfree Hgids. unfold update_remote_user_ids.
  case_bool_decide; [by eexists|]. destruct (is_numeric user); [by eexists|].
  rewrite Hc, Hgc. cbn [context mbind result_bind]. rewrite Hp, Hgp. cbn [mbind result_bind]. rewrite Hm. cbn [mbind result_bind].
  rewrite Hr. cbn [default Datatypes.id].
  rewrite (proj2 (parse_account_id_Ok _ _ _) Hou), (proj2 (parse_account_id_Ok _ _ _) Hogid). cbn [mbind result_bind].
  case_bool_decide; [by eexists|]. rewrite check_uid_free_ok by done. cbn [mbind result_bind].
  pose proof (conflicting_group_ok old_gid (up_gid requested) group 0 Hgids) as Hcf.
  destruct (conflicting_group _ _ _ _) as [conflict|]; [|done]. cbn [mbind result_bind].
  set (new_gid := match conflict with Some _ => old_gid | None => up_gid requested end).
  destruct (bool_decide (old_uid = _) && _); [by eexists|]. rewrite renumber_groups_ok by done. cbn [mbind result_bind].
  destruct (if bool_decide (old_gid = new_gid) then Ok fs else _) as [fs1|] eqn:E1; [|by case_bool_decide]. cbn [mbind result_bind].
  match goal with |- context [translate_root_filesystem_ownership ?a ?b ?c ?d ?e ?f ?g] =>
    pose proof (translate_ok b c d e f g Hchown) as Ht; destruct (translate_root_filesystem_ownership a b c d e f g); [|done] end.
  cbn [mbind result_bind].
  destruct (parse_ok 7 c passwd (Hcp _ Hc) Hp) as [Hne Hok].
  destruct (matching_users_unique _ _ _ Hm) as (r' & Hr' & Hname & _). assert (r' = r) as -> by congruence.
  assert (length r = 7) as Hlen.
  { rewrite Forall_forall in Hok. apply (Hok r). by eapply list_elem_of_lookup_2. }
  set (f := fun r : list str => <[3 := show new_gid]> (<[2 := show (up_uid requested)]> r)).
  assert (field (f r) 0 = field r 0) as Hf0 by (unfold f; by rewrite !field_insert_ne).
  change (<[3 := show new_gid]> (<[2 := show (up_uid requested)]> r)) with (f r).
  rewrite (alter_insert f i passwd r Hr).
  assert (new_gid <= 2 ^ 32 - 1)%N as Hng by (unfold new_gid; by destruct conflict).
  unfold resolve_user. rewrite <- Hname, <- Hf0.
  rewrite (from_name_entry _ (alter f i passwd) i (f r) (up_uid requested) new_gid).
  - cbn [mbind result_bind]. rewrite bool_decide_true by done. by eexists.
  - by apply passwd_written.
  - rewrite (matching_alter _ passwd i r f Hr Hf0), Hf0, Hname. done.
  - by rewrite list_lookup_alter_eq, Hr.
  - unfold f. rewrite field_insert_ne, field_insert_eq by (done || lia).
    apply (parse_account_id_Ok _ 0). by apply parse_show_id.
  - unfold f. rewrite field_insert_eq by (rewrite length_insert; lia).
    apply (parse_account_id_Ok _ 0). by apply parse_show_id.
Qed.

End Renumbering.

(** Account files survive a rewrite: what was parsed is parsed again from its serialisation,
    and a file of newline-terminated lines is reproduced byte for byte. *)
Theorem account_file_roundtrip n contents records :
  1 < n -> c_cr ∉ contents -> parse_account_file contents n = Ok records ->
  parse_account_file (serialize_account_file records) n = Ok records /\
  (forall ls, contents = unlines ls -> Forall line_ok ls -> serialize_account_file records = contents).
Proof.
  intros Hn Hcr Hp. destruct (parse_ok n contents records Hcr Hp) as [Hne Hok]. split; [by apply serialize_parse|].
  intros ls -> Hls. unfold parse_account_file in Hp. rewrite lines_unlines in Hp by done.
  destruct (parse_records n 0 ls) as [rs|] eqn:E; [|done]. cbn [mbind result_bind] in Hp.
  case_bool_decide; [done|]. injection Hp as <-. apply parse_records_spec in E as [_ ->].
  unfold serialize_account_file. f_equal. rewrite map_map. rewrite <- map_id. apply map_ext. intros l. apply join_split.
Qed.

(** ** An image with two users in one group *)

Module TwoUsers.

Definition passwd : list N :=
  unlines (map lit ["root:x:0:0:root:/root:/bin/sh"; "dev:x:1000:1000::/home/dev:/bin/sh"; "bob:x:1001:1000::/home/bob:/bin/sh"]).
Definition group : list N := unlines (map lit ["root:x:0:"; "dev:x:1000:"]).
Definition fs : Rootfs :=
  mkRootfs (Some passwd) (Some group) 7 [(lit "/home/dev", mkMeta 7 1000 1000); (lit "/proc", mkMeta 8 1000 0)].

Definition from_name (c name : str) : option (N * N) :=
  p ← ok (parse_account_file c 7);
  match matching_users name p with
  | [i] => r ← p !! i; u ← id_of (field r 2); g ← id_of (field r 3); Some (u, g)
  | _ => None
  end.

#[export] Instance laws : PasswdLaws from_name.
Proof.
  constructor. intros c p i r u g Hp Hm Hr Hu Hg. unfold from_name. rewrite Hp. cbn [ok mbind option_bind].
  rewrite Hm, Hr. cbn [mbind option_bind]. by rewrite Hu, Hg.
Qed.

Definition update (user : string) (uid gid : N) : result prep_error Rootfs :=
  update_remote_user_ids (fun _ => true) from_name (fun _ _ => None) (lit user) (mkIdUpdate uid gid) fs.

Lemma fs_no_cr : no_cr fs.
Proof. split; intros c H; injection H as <-; decide_now. Qed.

Definition after : Rootfs :=
  mkRootfs (Some (unlines (map lit ["root:x:0:0:root:/root:/bin/sh"; "dev:x:501:20::/home/dev:/bin/sh"; "bob:x:1001:1000::/home/bob:/bin/sh"])))
    (Some (unlines (map lit ["root:x:0:"; "dev:x:20:"]))) 7
    [(lit "/home/dev", mkMeta 7 501 20); (lit "/proc", mkMeta 8 1000 0)].

Lemma update_dev : update "dev" 501 20 = Ok after.
Proof. vm_compute. reflexivity. Qed.

End TwoUsers.

Lemma account_file_roundtrip_witness :
  exists records, parse_account_file TwoUsers.group 4 = Ok records /\
    serialize_account_file records = TwoUsers.group.
Proof.
  exists [map lit ["root"; "x"; "0"; ""]; map lit ["dev"; "x"; "1000"; ""]].
  assert (parse_account_file TwoUsers.group 4 = Ok [map lit ["root"; "x"; "0"; ""]; map lit ["dev"; "x"; "1000"; ""]]) as H
    by (vm_compute; reflexivity).
  split; [exact H|].
  apply (account_file_roundtrip 4 TwoUsers.group _ ltac:(lia) ltac:(decide_now) H) with (ls := map lit ["root:x:0:"; "dev:x:1000:"]);
    [reflexivity|]. repeat constructor; try decide_now; vm_compute; discriminate.
Defined.

Lemma update_user_ids_exact_witness :
  exists passwd group i old_uid old_gid new_gid,
    renumbered (lit "dev") (mkIdUpdate 501 20) TwoUsers.fs TwoUsers.after passwd group i old_uid old_gid new_gid.
Proof.
  destruct (update_user_ids_exact (fun _ => true) TwoUsers.from_name (fun _ _ => None) (lit "dev") (mkIdUpdate 501 20)
    TwoUsers.fs TwoUsers.after TwoUsers.fs_no_cr TwoUsers.update_dev) as [H|H]; [discriminate H|exact H].
Defined.

Lemma update_keeps_uids_distinct_witness :
  exists c' passwd', rf_passwd TwoUsers.after = Some c' /\ parse_account_file c' 7 = Ok passwd' /\ uids_distinct passwd'.
Proof.
  apply (update_keeps_uids_distinct (fun _ => true) TwoUsers.from_name (fun _ _ => None) (lit "dev") (mkIdUpdate 501 20)
    TwoUsers.fs TwoUsers.after TwoUsers.passwd (default [] (ok (parse_account_file TwoUsers.passwd 7))) TwoUsers.fs_no_cr
    ltac:(vm_compute; discriminate) TwoUsers.update_dev eq_refl ltac:(vm_compute; reflexivity)).
  intros [|[|[|j]]] [|[|[|k]]] r s u Hr Hs Hu1 Hu2; try reflexivity; try discriminate Hr; try discriminate Hs;
    vm_compute in Hr, Hs; injection Hr as <-; injection Hs as <-; vm_compute in Hu1, Hu2; congruence.
Defined.

(** Bob's group is gone. *)
Lemma renumbering_orphans_shared_group_witness :
  exists r, orphaned TwoUsers.after 2 r 1000 /\ field r 0 = lit "bob".
Proof.
  destruct (renumbering_orphans_shared_group (fun _ => true) TwoUsers.from_name (fun _ _ => None) (lit "dev") (mkIdUpdate 501 20)
    TwoUsers.fs TwoUsers.after TwoUsers.fs_no_cr ltac:(vm_compute; discriminate) TwoUsers.update_dev)
    as [H|(passwd & group & i & ou & og & ng & Hrn & H)]; [discriminate H|].
  destruct (rn_passwd _ _ _ _ _ _ _ _ _ _ Hrn) as (c & Hc & Hp). injection Hc as <-. vm_compute in Hp. injection Hp as <-.
  destruct (rn_user _ _ _ _ _ _ _ _ _ _ Hrn) as (r & Hr & Hn & _ & Hg).
  destruct (rn_group' _ _ _ _ _ _ _ _ _ _ Hrn) as (gc & Hgc & Hgp). injection Hgc as <-.
  destruct (rn_group _ _ _ _ _ _ _ _ _ _ Hrn) as (gc0 & Hgc0 & Hgp0). injection Hgc0 as <-.
  destruct i as [|[|[|i]]]; vm_compute in Hr; try discriminate Hr; injection Hr as <-; vm_compute in Hn; try discriminate Hn.
  vm_compute in Hg. injection Hg as <-. eexists. split.
  - refine (H _ 2 _ _ eq_refl _).
    + intros <-. rewrite bool_decide_true in Hgp by reflexivity. rewrite <- Hgp0 in Hgp. vm_compute in Hgp. discriminate Hgp.
    + discriminate.
    + vm_compute. reflexivity.
  - vm_compute. reflexivity.
Defined.

Lemma update_user_ids_succeeds_witness : exists fs', TwoUsers.update "bob" 501 20 = Ok fs'.
Proof.
  pose (bob := map lit ["bob"; "x"; "1001"; "1000"; ""; "/home/bob"; "/bin/sh"]).
  pose (users := [map lit ["root"; "x"; "0"; "0"; "root"; "/root"; "/bin/sh"];
                  map lit ["dev"; "x"; "1000"; "1000"; ""; "/home/dev"; "/bin/sh"]; bob]).
  pose (groups := [map lit ["root"; "x"; "0"; ""]; map lit ["dev"; "x"; "1000"; ""]]).
  refine (update_user_ids_succeeds (fun _ => true) TwoUsers.from_name (fun _ _ => None) (laws := TwoUsers.laws) (lit "bob")
    (mkIdUpdate 501 20) TwoUsers.fs TwoUsers.passwd TwoUsers.group users groups 2 bob 1001 1000 TwoUsers.fs_no_cr
    (fun _ => eq_refl) ltac:(vm_compute; discriminate) ltac:(vm_compute; discriminate) ltac:(vm_compute; discriminate)
    eq_refl eq_refl ltac:(vm_compute; reflexivity) ltac:(vm_compute; reflexivity) ltac:(vm_compute; reflexivity)
    eq_refl ltac:(vm_compute; reflexivity) ltac:(vm_compute; reflexivity) _ _).
  - intros [|[|[|j]]] s Hs; try discriminate Hs; injection Hs as <-; eexists; (split; [vm_compute; reflexivity|]);
      intros Hne; discriminate.
  - repeat constructor; eexists; vm_compute; reflexivity.
Defined.
