(* ===== verification/PreparedImage.v ===== *)
(** * Prepared images (prepared_image.rs)

    The image a pod is launched from is built on top of the devcontainer's image.  The daemon
    reads the versions of the agents on the host, computes a tag from everything that goes into
    the image, and unless an image with that tag exists writes a Dockerfile and a build context
    and runs the build, whose only command is [rumpel prepare-image] inside the container.
    SHA-256 and the version text of the build are parameters; so are the programs that a build
    runs. *)
From stdpp Require Import gmap.
From S2P Require Import Prelude Strs Bytes Hosts Hooks Devcontainer Engine Compose Image Accounts.

(** ** Versions of the agents *)

Definition version_char (c : char) : bool :=
  is_ascii_alphanumeric c || bool_decide (c ∈ [46; 45; 43]%N).

Definition version_ok (v : str) : bool :=
  match v with c :: _ => is_ascii_digit c | [] => false end && forallb version_char v.

Definition parse_codex_version (raw : str) : option str :=
  match split_whitespace raw with
  | name :: version :: rest =>
      if bool_decide (name = lit "codex-cli") && bool_decide (rest = []) && version_ok version then Some version else None
  | _ => None
  end.

Definition parse_grok_version (raw : str) : option str :=
  match split_whitespace raw with
  | name :: version :: _ => if bool_decide (name = lit "grok") && version_ok version then Some version else None
  | _ => None
  end.

(** What [detect_local_claude] and [detect_local_pi] read from the output of a program that
    succeeded. *)
Definition claude_version (raw : str) : option str := head (split_whitespace (trim raw)).

Definition c_v : char := 118%N.

Definition pi_version (raw : str) : option str :=
  trim_start_matches c_v <$>
    head (List.filter (fun token => match trim_start_matches c_v token with c :: _ => is_ascii_digit c | [] => false end)
            (split_whitespace raw)).

(** [install_grok_cli] asks the binary that is there before it downloads another one. *)
Definition grok_up_to_date (bin_exists : bool) (at_bin on_path : option str) (version : str) : bool :=
  if bin_exists then bool_decide (at_bin = Some version) else bool_decide (on_path = Some version).

(** ** Node.js *)

Definition PI_MIN_NODE : N * N * N := (22, 19, 0)%N.

Definition parse_part (p : option str) : option N :=
  s ← (fun s => trim_end_by (fun c => negb (is_ascii_digit c)) (trim_start_by (fun c => negb (is_ascii_digit c)) s)) <$> p;
  if bool_decide (s = []) then None else parse_uint (Z.to_N u64_max) s.

Definition version_ge (a b : N * N * N) : bool :=
  let '(a1, a2, a3) := a in let '(b1, b2, b3) := b in
  if bool_decide (a1 = b1) then if bool_decide (a2 = b2) then bool_decide (b3 <= a3)%N else bool_decide (b2 < a2)%N
  else bool_decide (b1 < a1)%N.

Definition node_version_at_least (version : str) (min : N * N * N) : bool :=
  let parts := split c_dot (trim_start_matches c_v (trim version)) in
  match parse_part (parts !! 0) with
  | None => false
  | Some major => version_ge (major, default 0%N (parse_part (parts !! 1)), default 0%N (parse_part (parts !! 2))) min
  end.

(** The file [install_node_standalone] picks from the list of checksums. *)
Definition node_tarball (arch shasums : str) : option str :=
  head (List.filter (fun name => starts_with (lit "node-v") name && ends_with (lit "-linux-" ++ arch ++ lit ".tar.gz") name)
          (omap (fun line => split_whitespace line !! 1) (lines shasums))).

(** ** What goes into an image *)

Inductive WorkspaceCloneMode := CloneLocal | CloneSkip.

(** The arguments that [compute_prepared_tag], [generate_dockerfile] and
    [assemble_build_context] share. *)
Record PrepareInputs := mkInputs {
  in_base_image : list N;
  in_workspace_clone : WorkspaceCloneMode;
  in_repo_path : list N;
  in_user : list N;
  in_user_id_update : option RemoteUserIdUpdate;
  in_claude : option (list N);
  in_pi : option (list N);
  in_codex : option (list N);
  in_grok : option (list N);
  in_mount_targets : list (list N);
  in_inject_system_prompt : bool;
  in_description_file : option (list N);
  in_devcontainer_json : list N;
  in_container_env_keys : list (list N);
}.

#[export] Instance PrepareInputs_updatable : Updatable PrepareInputs := fun i =>
  mkInputs (in_base_image i) (in_workspace_clone i) (in_repo_path i) (in_user i) (in_user_id_update i) (in_claude i)
    (in_pi i) (in_codex i) (in_grok i) (in_mount_targets i) (in_inject_system_prompt i) (in_description_file i)
    (in_devcontainer_json i) (in_container_env_keys i).

Definition SCHEMA_VERSION : N := 13%N.

Definition clone_mode_name (m : WorkspaceCloneMode) : str :=
  match m with CloneLocal => lit "local" | CloneSkip => lit "skip" end.

Definition opt_bytes (o : option (list N)) : list N := match o with Some v => as_bytes v | None => [] end.

Definition id_bytes (o : option RemoteUserIdUpdate) : list N :=
  match o with
  | Some update => [1%N] ++ to_le_bytes (up_uid update) ++ to_le_bytes (up_gid update)
  | None => [0%N]
  end.

(** The bytes given to the hasher, in order. *)
Definition prepared_preimage (version_info : str) (i : PrepareInputs) : list N :=
  as_bytes (in_base_image i) ++
  [0%N] ++ lit "workspace-clone=" ++ clone_mode_name (in_workspace_clone i) ++ [0%N] ++
  as_bytes version_info ++ as_bytes (in_repo_path i) ++ as_bytes (in_user i) ++
  id_bytes (in_user_id_update i) ++
  opt_bytes (in_claude i) ++ opt_bytes (in_pi i) ++
  lit "codex" ++ [0%N] ++ opt_bytes (in_codex i) ++ [0%N] ++
  lit "grok" ++ [0%N] ++ opt_bytes (in_grok i) ++ [0%N] ++
  (in_mount_targets i ≫= fun t => as_bytes t ++ [0%N]) ++
  to_le_bytes SCHEMA_VERSION ++ [if in_inject_system_prompt i then 1%N else 0%N] ++
  opt_bytes (in_description_file i) ++ as_bytes (in_devcontainer_json i) ++
  (in_container_env_keys i ≫= fun k => as_bytes k ++ [0%N]).

Definition compute_prepared_tag (lib : HashLib) (version_info : str) (i : PrepareInputs) : str :=
  hex_encode lib (take 8 (sha256_digest lib (prepared_preimage version_info i))).

(** ** The Dockerfile *)

Definition RUMPEL_CONTAINER_BIN : str := lit "/opt/rumpelpod/bin/rumpel".
Definition CONTAINER_ENV_KEYS_PATH : str := lit "/opt/rumpelpod/container-env-keys".
Definition BUILD_GIT_DIR_PATH : str := lit "/tmp/host-git-dir".

(** [" \\\n      --flag"]: each flag starts on a line of its own. *)
Definition on_new_line (flag : str) : str := [c_space; c_backslash; c_nl] ++ lit "      --" ++ flag.
Definition quoted_flag (flag value : str) : str := on_new_line flag ++ lit " '" ++ value ++ lit "'".
Definition opt_flag (flag : str) (o : option (list N)) : str :=
  match o with Some v => quoted_flag flag v | None => [] end.

Definition prepare_image_flags (i : PrepareInputs) : str :=
  opt_flag (lit "claude-version") (in_claude i) ++ opt_flag (lit "pi-version") (in_pi i) ++
  opt_flag (lit "codex-version") (in_codex i) ++ opt_flag (lit "grok-version") (in_grok i) ++
  (in_mount_targets i ≫= quoted_flag (lit "mount-target")) ++
  (if in_inject_system_prompt i then on_new_line (lit "inject-system-prompt") else []) ++
  opt_flag (lit "description-file") (in_description_file i) ++
  match in_user_id_update i with
  | Some update => quoted_flag (lit "user-uid") (show (up_uid update)) ++ quoted_flag (lit "user-gid") (show (up_gid update))
  | None => []
  end.

(** The command of the [RUN] instruction, after its mount. *)
Definition run_command (i : PrepareInputs) : str :=
  [c_backslash; c_nl] ++ lit "    " ++ RUMPEL_CONTAINER_BIN ++ lit " prepare-image" ++
  quoted_flag (lit "repo-path") (in_repo_path i) ++
  quoted_flag (lit "workspace-clone") (clone_mode_name (in_workspace_clone i)) ++
  quoted_flag (lit "user") (in_user i) ++ prepare_image_flags i.

Definition dockerfile_head (i : PrepareInputs) : str :=
  match in_workspace_clone i with
  | CloneLocal => unlines [lit "FROM scratch AS gateway"; lit "COPY gateway-git/ /"; []]
  | CloneSkip => []
  end ++
  unlines [lit "FROM " ++ in_base_image i; []; lit "ARG TARGETARCH"; lit "ARG BASE_USER=root"; lit "USER root"; [];
           lit "COPY --chmod=755 rumpel-linux-${TARGETARCH} " ++ RUMPEL_CONTAINER_BIN;
           lit "COPY devcontainer.json /opt/rumpelpod/devcontainer.json";
           lit "COPY container-env-keys " ++ CONTAINER_ENV_KEYS_PATH; []] ++
  lit "RUN " ++
  match in_workspace_clone i with
  | CloneLocal => lit "--mount=type=bind,from=gateway,target=" ++ BUILD_GIT_DIR_PATH ++ lit " "
  | CloneSkip => []
  end.

Definition generate_dockerfile (i : PrepareInputs) : str :=
  dockerfile_head i ++ run_command i ++ [c_nl] ++ unlines [[]; lit "USER ${BASE_USER}"].

(** ** Building *)

(** A file of the build context: a text, a copy of a file of the host, or the host's Git
    directory. *)
Inductive ContextFile := Text (s : list N) | CopyOf (path : list N) | GitDirCopy.

Definition keys_file (keys : list (list N)) : str := unlines keys.

Definition assemble_build_context (buildable_base : str) (binaries : list (str * str)) (i : PrepareInputs)
    : list (list N * ContextFile) :=
  [(lit "Dockerfile", Text (generate_dockerfile (i <| in_base_image := buildable_base |>)))] ++
  map (fun '(name, path) => (name, CopyOf path)) binaries ++
  [(lit "devcontainer.json", Text (in_devcontainer_json i));
   (lit "container-env-keys", Text (keys_file (in_container_env_keys i)))] ++
  match in_workspace_clone i with CloneLocal => [(lit "gateway-git", GitDirCopy)] | CloneSkip => [] end.

(** [image[7..23]] panics when the digest is shorter than sixteen characters. *)
Definition friendly_base (image : str) : run (option str) :=
  if negb (starts_with (lit "sha256:") image) then Returned None
  else digest ← or_panic (slice image 7 23); Returned (Some (lit "rumpelpod-base-" ++ digest)).

Inductive build_error := BuildError (e : image_error) | TagFailed | KubernetesUser | NoBinaries | InspectFailed.

(** The numbers are not changed for root, nor for a user that is itself a number. *)
Definition effective_id_update (user : str) (requested : option RemoteUserIdUpdate) : option RemoteUserIdUpdate :=
  if bool_decide (user = lit "root") || is_numeric user then None else requested.

Section Prepared.
Context {E : Type}.
Context (exec : list str -> E -> result str unit * E) (image_exists : str -> Host -> option (list N) -> E -> bool).
Context (registry_image_exists : str -> E -> result image_error bool).
(** The USER of an image, normalised, and the directory a build context is staged in. *)
Context (image_user : str -> E -> option str) (stage : list (list N * ContextFile) -> str).

Definition ensure_buildable_tag (image : str) (h : Host) (socket : option (list N)) (e : E) : run (result build_error str * E) :=
  friendly ← friendly_base image;
  match friendly with
  | None => Returned (Ok image, e)
  | Some friendly =>
      target ← apply_docker_host h socket;
      let '(r, e) := exec ([image_program h] ++ target ++ [lit "tag"; image; friendly]) e in
      Returned (match r with Ok _ => Ok friendly | Err _ => Err TagFailed end, e)
  end.

(** [i] holds the arguments that are used as they are: its user and numbers are replaced by those
    of [container_user] and [requested]. *)
Definition build_prepared_image (lib : HashLib) (version_info : str) (binaries : option (list (str * str)))
    (agent : result image_error (option (list N))) (i : PrepareInputs) (host : Host) (socket : option (list N))
    (container_user : option (list N)) (requested : option RemoteUserIdUpdate) (build_options : list str) (e : E)
    : run (result build_error BuildResult * E) :=
  let mode := from_host host socket in
  match image_user (in_base_image i) e with
  | None => Returned (Err InspectFailed, e)
  | Some image_user =>
      '(base, e) ← match mode with
                   | Load h socket _ => ensure_buildable_tag (in_base_image i) h socket e
                   | Push _ _ _ => Returned (Ok (in_base_image i), e)
                   end;
      match base with
      | Err x => Returned (Err x, e)
      | Ok base =>
          let user := default image_user container_user in
          let i := i <| in_user := user |> <| in_user_id_update := effective_id_update user requested |> in
          if negb (is_docker host) && negb (bool_decide (image_user = lit "root")) && negb (bool_decide (user = image_user))
          then Returned (Err KubernetesUser, e)
          else
            let tag := compute_prepared_tag lib version_info i in
            match tag_exists image_exists registry_image_exists mode tag e with
            | Err x => Returned (Err (BuildError x), e)
            | Ok true => Returned (Ok (mkBuildResult (output_tag mode tag) false), e)
            | Ok false =>
                match binaries with
                | None => Returned (Err NoBinaries, e)
                | Some binaries =>
                    let dir := stage (assemble_build_context base binaries i) in
                    match configure_build_ssh agent ((lit "--build-arg=BASE_USER=" ++ image_user) :: build_options) with
                    | Err x => Returned (Err (BuildError x), e)
                    | Ok extra =>
                        '(r, e) ← run_buildx_build exec image_exists tag (dir ++ lit "/Dockerfile") dir mode extra e;
                        Returned (match r with
                                  | Ok _ => Ok (mkBuildResult (output_tag mode tag) true)
                                  | Err x => Err (BuildError x)
                                  end, e)
                    end
                end
            end
      end
  end.

End Prepared.

(** ** Hooks baked into an image *)

(** A file of the hooks directory: its text, or a file that is not UTF-8 or not a file. *)
Inductive HookEntry := HookText (s : list N) | HookOpaque.

Definition has_code (cleaned : str) : bool :=
  existsb (fun l => negb (bool_decide (l = [])) && negb (starts_with (lit "#!") l)) (lines cleaned).

Definition clean_hook (h : HookEntry) : option HookEntry :=
  match h with
  | HookOpaque => Some HookOpaque
  | HookText content =>
      let cleaned := strip_host_hooks content in
      if bool_decide (cleaned = content) then Some h
      else if has_code cleaned then Some (HookText cleaned) else None
  end.

Definition remove_host_hooks (hooks : gmap (list N) HookEntry) : gmap (list N) HookEntry := omap clean_hook hooks.

(** ** The arguments of the build step *)

(** How Docker and a shell read a command: the instruction goes on at a newline that follows a
    backslash, words are separated by spaces and continuations, and quotes keep a value whole. *)
Fixpoint logical_line (s : str) : str :=
  match s with
  | [] => []
  | c :: s' =>
      if bool_decide (c = c_nl) then []
      else if bool_decide (c = c_backslash) then
        match s' with
        | x :: s'' => if bool_decide (x = c_nl) then c :: x :: logical_line s'' else c :: logical_line s'
        | [] => [c]
        end
      else c :: logical_line s'
  end.

Fixpoint skip_blank (s : str) : str :=
  match s with
  | c :: s' =>
      if bool_decide (c = c_space) then skip_blank s'
      else if bool_decide (c = c_backslash) then
        match s' with x :: s'' => if bool_decide (x = c_nl) then skip_blank s'' else s | [] => s end
      else s
  | [] => []
  end.

(** At most [n] words. *)
Fixpoint command_words (n : nat) (s : str) : option (list str) :=
  match skip_blank s with
  | [] => Some []
  | s => match n with
         | O => None
         | S n => '(w, r) ← shell_word false s; ws ← command_words n r; Some (w :: ws)
         end
  end.

Definition opt_words (flag : string) (o : option (list N)) : list str :=
  match o with Some v => [lit flag; v] | None => [] end.

(** The words [rumpel prepare-image] is to be run with. *)
Definition prepare_words (i : PrepareInputs) : list str :=
  [RUMPEL_CONTAINER_BIN; lit "prepare-image"; lit "--repo-path"; in_repo_path i; lit "--workspace-clone";
   clone_mode_name (in_workspace_clone i); lit "--user"; in_user i] ++
  opt_words "--claude-version" (in_claude i) ++ opt_words "--pi-version" (in_pi i) ++
  opt_words "--codex-version" (in_codex i) ++ opt_words "--grok-version" (in_grok i) ++
  (in_mount_targets i ≫= fun t => [lit "--mount-target"; t]) ++
  (if in_inject_system_prompt i then [lit "--inject-system-prompt"] else []) ++
  opt_words "--description-file" (in_description_file i) ++
  match in_user_id_update i with
  | Some u => [lit "--user-uid"; show (up_uid u); lit "--user-gid"; show (up_gid u)]
  | None => []
  end.

Definition plain (c : char) : bool :=
  negb (bool_decide (c = c_apostrophe)) && negb (bool_decide (c = c_backslash)) && negb (shell_stop c).

Definition separated (rest : str) : Prop := rest = [] \/ exists r, rest = c_space :: r.

Definition value_ok (v : str) : Prop := c_apostrophe ∉ v /\ c_nl ∉ v.

Lemma shell_word_separated rest : separated rest -> shell_word false rest = Some ([], rest).
Proof. by intros [->|[r ->]]. Qed.

Lemma shell_word_plain w rest : forallb plain w = true -> separated rest -> shell_word false (w ++ rest) = Some (w, rest).
Proof.
  intros Hw Hrest. induction w as [|c w IH]; [by apply shell_word_separated|]. cbn in Hw.
  apply andb_true_iff in Hw as [[[H1%negb_true_iff H2%negb_true_iff]%andb_true_iff H3%negb_true_iff]%andb_true_iff Hw].
  cbn [app shell_word]. by rewrite H1, H2, H3, (IH Hw).
Qed.

Lemma shell_word_quoted v rest : c_apostrophe ∉ v -> separated rest ->
  shell_word false (lit "'" ++ v ++ lit "'" ++ rest) = Some (v, rest).
Proof.
  intros Hv Hrest. change (lit "'") with [c_apostrophe]. cbn [app shell_word]. rewrite bool_decide_true by done.
  change (negb false) with true. induction v as [|c v IH].
  - cbn [app shell_word]. rewrite bool_decide_true by done. by apply shell_word_separated.
  - cbn [app shell_word]. rewrite bool_decide_false by set_solver. by rewrite IH by set_solver.
Qed.

Lemma skip_blank_word c s : plain c = true -> skip_blank (c :: s) = c :: s.
Proof.
  intros H. cbn. destruct (bool_decide (c = c_space)) eqn:E1; [apply bool_decide_eq_true in E1 as ->; done|].
  destruct (bool_decide (c = c_backslash)) eqn:E2; [apply bool_decide_eq_true in E2 as ->; done|done].
Qed.

Lemma words_plain n w rest ws : w <> [] -> forallb plain w = true -> separated rest ->
  command_words n rest = Some ws -> command_words (S n) (w ++ rest) = Some (w :: ws).
Proof.
  intros Hne Hw Hrest Hn. destruct w as [|c w]; [done|].
  assert (plain c = true) as Hc by (cbn in Hw; by apply andb_true_iff in Hw as [? _]).
  cbn [command_words]. change ((c :: w) ++ rest) with (c :: (w ++ rest)). rewrite skip_blank_word by done.
  change (c :: (w ++ rest)) with ((c :: w) ++ rest). rewrite shell_word_plain by done. cbn [mbind option_bind]. by rewrite Hn.
Qed.

Lemma words_quoted n v rest ws : c_apostrophe ∉ v -> separated rest ->
  command_words n rest = Some ws -> command_words (S n) (lit " '" ++ v ++ lit "'" ++ rest) = Some (v :: ws).
Proof.
  intros Hv Hrest Hn. change (lit " '") with (c_space :: lit "'"). cbn [command_words].
  change (skip_blank ((c_space :: lit "'") ++ v ++ lit "'" ++ rest)) with (c_apostrophe :: (v ++ lit "'" ++ rest)).
  cbv beta iota. change (c_apostrophe :: (v ++ lit "'" ++ rest)) with (lit "'" ++ v ++ lit "'" ++ rest).
  rewrite shell_word_quoted by done. cbn [mbind option_bind]. by rewrite Hn.
Qed.

Lemma command_words_blank n s s' : skip_blank s = skip_blank s' -> command_words n s = command_words n s'.
Proof. intros H. destruct n; cbn [command_words]; by rewrite H. Qed.

Definition flag_ok (flag : string) : Prop := flag <> EmptyString /\ forallb plain (lit flag) = true.

Lemma words_new_line n flag rest ws : forallb plain flag = true -> separated rest ->
  command_words n rest = Some ws -> command_words (S n) (on_new_line flag ++ rest) = Some ((lit "--" ++ flag) :: ws).
Proof.
  intros Hf Hrest Hn. rewrite <- (words_plain n (lit "--" ++ flag) rest ws); [|done|by rewrite forallb_app|done|done].
  apply command_words_blank. unfold on_new_line. change (lit "      --") with (lit "      " ++ lit "--"). by rewrite <- !app_assoc.
Qed.

Lemma words_flag n flag v rest ws : forallb plain flag = true -> c_apostrophe ∉ v -> separated rest ->
  command_words n rest = Some ws ->
  command_words (S (S n)) (quoted_flag flag v ++ rest) = Some ((lit "--" ++ flag) :: v :: ws).
Proof.
  intros Hf Hv Hrest Hn. unfold quoted_flag. rewrite <- !app_assoc. apply words_new_line; [done| |by apply words_quoted].
  right. by eexists.
Qed.

(** The text [t] adds the words [ws] in front of any command line. *)
Definition reads (t : str) (ws : list str) : Prop :=
  forall n rest ws', separated rest -> command_words n rest = Some ws' ->
    separated (t ++ rest) /\ command_words (length ws + n) (t ++ rest) = Some (ws ++ ws').

Lemma reads_nil : reads [] [].
Proof. by intros n rest ws'. Qed.

Lemma reads_app t1 ws1 t2 ws2 : reads t1 ws1 -> reads t2 ws2 -> reads (t1 ++ t2) (ws1 ++ ws2).
Proof.
  intros H1 H2 n rest ws' Hsep Hn. destruct (H2 n rest ws' Hsep Hn) as [Hsep2 Hn2].
  rewrite <- !app_assoc, length_app, <- Nat.add_assoc. by apply H1.
Qed.

Lemma reads_quoted flag v : forallb plain flag = true -> c_apostrophe ∉ v -> reads (quoted_flag flag v) [lit "--" ++ flag; v].
Proof.
  intros Hf Hv n rest ws' Hsep Hn. split; [right; by eexists|]. exact (words_flag n flag v rest ws' Hf Hv Hsep Hn).
Qed.

Lemma reads_new_line flag : forallb plain flag = true -> reads (on_new_line flag) [lit "--" ++ flag].
Proof. intros Hf n rest ws' Hsep Hn. split; [right; by eexists|]. by apply words_new_line. Qed.

Lemma reads_opt flag o : forallb plain flag = true -> (forall v, o = Some v -> c_apostrophe ∉ v) ->
  reads (opt_flag flag o) match o with Some v => [lit "--" ++ flag; v] | None => [] end.
Proof. intros Hf Ho. destruct o as [v|]; [|apply reads_nil]. apply reads_quoted; [done|by apply Ho]. Qed.

Lemma reads_bind flag vs : forallb plain flag = true -> Forall (fun v => c_apostrophe ∉ v) vs ->
  reads (vs ≫= quoted_flag flag) (vs ≫= fun v => [lit "--" ++ flag; v]).
Proof.
  intros Hf. induction 1 as [|v vs Hv _ IH]; [apply reads_nil|]. rewrite !bind_cons. apply reads_app; [by apply reads_quoted|done].
Qed.

(** Every value that ends up between quotes. *)
Definition quoted_values (i : PrepareInputs) : list str :=
  [in_repo_path i; in_user i] ++ option_list (in_claude i) ++ option_list (in_pi i) ++ option_list (in_codex i) ++
  option_list (in_grok i) ++ in_mount_targets i ++ option_list (in_description_file i).

Lemma digits_ok n : value_ok (show n).
Proof.
  pose proof (show_digits n) as H. rewrite Forall_forall in H. split; intros Hin%H; by vm_compute in Hin.
Qed.

Lemma reads_flags i : Forall value_ok (quoted_values i) ->
  reads (quoted_flag (lit "repo-path") (in_repo_path i) ++
         quoted_flag (lit "workspace-clone") (clone_mode_name (in_workspace_clone i)) ++
         quoted_flag (lit "user") (in_user i) ++ prepare_image_flags i)
        (drop 2 (prepare_words i)).
Proof.
  intros H. rewrite Forall_forall in H. unfold quoted_values in H.
  assert (forall v, v ∈ quoted_values i -> c_apostrophe ∉ v) as Hv by (intros v Hin; by apply H).
  assert (forall o, (forall v, o = Some v -> v ∈ quoted_values i) -> forall v, o = Some v -> c_apostrophe ∉ v) as Ho by eauto.
  unfold quoted_values in Hv, Ho.
  change (drop 2 (prepare_words i)) with
    ([lit "--repo-path"; in_repo_path i] ++ [lit "--workspace-clone"; clone_mode_name (in_workspace_clone i)] ++
     [lit "--user"; in_user i] ++ drop 8 (prepare_words i)).
  apply reads_app; [apply reads_quoted; [vm_compute; reflexivity|apply Hv; set_solver]|].
  apply reads_app; [apply reads_quoted; [vm_compute; reflexivity|destruct (in_workspace_clone i); decide_now]|].
  apply reads_app; [apply reads_quoted; [vm_compute; reflexivity|apply Hv; set_solver]|].
  change (drop 8 (prepare_words i)) with
    (opt_words "--claude-version" (in_claude i) ++ opt_words "--pi-version" (in_pi i) ++
     opt_words "--codex-version" (in_codex i) ++ opt_words "--grok-version" (in_grok i) ++
     (in_mount_targets i ≫= fun t => [lit "--mount-target"; t]) ++
     (if in_inject_system_prompt i then [lit "--inject-system-prompt"] else []) ++
     opt_words "--description-file" (in_description_file i) ++
     match in_user_id_update i with
     | Some u => [lit "--user-uid"; show (up_uid u)] ++ [lit "--user-gid"; show (up_gid u)]
     | None => []
     end).
  unfold prepare_image_flags.
  repeat (apply reads_app;
    [first [apply (reads_opt (lit "claude-version")) | apply (reads_opt (lit "pi-version")) | apply (reads_opt (lit "codex-version"))
           | apply (reads_opt (lit "grok-version")) | apply (reads_opt (lit "description-file"))
           | apply (reads_bind (lit "mount-target")) | destruct (in_inject_system_prompt i)];
     first [vm_compute; reflexivity | apply Ho; intros v ->; set_solver
           | apply (reads_new_line (lit "inject-system-prompt")); vm_compute; reflexivity | apply reads_nil
           | apply Forall_forall; intros v Hin; apply Hv; set_solver]|]).
  destruct (in_user_id_update i) as [u|]; [|apply reads_nil].
  apply reads_app; apply reads_quoted; first [vm_compute; reflexivity | apply digits_ok].
Qed.

(** The text [t] does not end the instruction. *)
Definition continues (t : str) : Prop := forall rest, logical_line (t ++ rest) = t ++ logical_line rest.

Lemma continues_app a b : continues a -> continues b -> continues (a ++ b).
Proof. intros Ha Hb rest. by rewrite <- !app_assoc, Ha, Hb. Qed.

Lemma continues_nil : continues [].
Proof. done. Qed.

Lemma continues_break : continues [c_backslash; c_nl].
Proof. done. Qed.

Lemma continues_text w c : c_nl ∉ w -> c <> c_nl -> c <> c_backslash -> continues (w ++ [c]).
Proof.
  intros Hw Hc1 Hc2 rest. induction w as [|x w IH].
  - cbn. by rewrite !bool_decide_false.
  - cbn [app logical_line]. rewrite (bool_decide_false (x = c_nl)) by set_solver. specialize (IH ltac:(set_solver)).
    case_bool_decide as Hx; [|by rewrite IH]. destruct w as [|y w]; cbn [app] in *.
    + by rewrite bool_decide_false, IH.
    + by rewrite bool_decide_false, IH by set_solver.
Qed.

Lemma continues_new_line flag : c_nl ∉ flag -> (forall w, flag <> w ++ [c_backslash]) -> continues (on_new_line flag).
Proof.
  intros Hf Hl. unfold on_new_line. change ([c_space; c_backslash; c_nl] ++ ?x) with (([] ++ [c_space]) ++ [c_backslash; c_nl] ++ x).
  apply continues_app; [apply continues_text; [set_solver|done..]|]. apply continues_app; [apply continues_break|].
  destruct flag as [|c flag _] using rev_ind; [change (lit "      --" ++ []) with (lit "      -" ++ [c_hyphen]); apply continues_text; decide_now|].
  rewrite app_assoc. apply continues_text.
  - rewrite not_elem_of_app. split; [decide_now|set_solver].
  - intros ->. set_solver.
  - intros ->. by apply (Hl flag).
Qed.

Lemma continues_flag flag v : c_nl ∉ flag -> c_nl ∉ v -> continues (quoted_flag flag v).
Proof.
  intros Hf Hv. unfold quoted_flag, on_new_line.
  change ([c_space; c_backslash; c_nl] ++ ?x) with (([] ++ [c_space]) ++ [c_backslash; c_nl] ++ x).
  rewrite <- !app_assoc.
  apply (continues_app ([] ++ [c_space])); [apply continues_text; [set_solver|done..]|]. apply continues_app; [apply continues_break|].
  rewrite !app_assoc. change (lit "'") with [c_apostrophe]. apply continues_text; [|done..].
  rewrite !not_elem_of_app. split_and!; [decide_now|done|decide_now|done].
Qed.

Lemma continues_opt flag o : c_nl ∉ flag -> (forall v, o = Some v -> c_nl ∉ v) -> continues (opt_flag flag o).
Proof. intros Hf Ho. destruct o as [v|]; [|done]. apply continues_flag; [done|by apply Ho]. Qed.

Lemma continues_bind flag vs : c_nl ∉ flag -> Forall (fun v => c_nl ∉ v) vs -> continues (vs ≫= quoted_flag flag).
Proof.
  intros Hf. induction 1 as [|v vs Hv _ IH]; [done|]. rewrite bind_cons. apply continues_app; [by apply continues_flag|done].
Qed.

Lemma continues_run i : Forall value_ok (quoted_values i) -> continues (run_command i).
Proof.
  intros H. rewrite Forall_forall in H. unfold quoted_values in H.
  assert (forall v, v ∈ quoted_values i -> c_nl ∉ v) as Hv by (intros v Hin; by apply H).
  assert (forall o, (forall v, o = Some v -> v ∈ quoted_values i) -> forall v, o = Some v -> c_nl ∉ v) as Ho by eauto.
  unfold quoted_values in Hv, Ho. unfold run_command, prepare_image_flags.
  apply continues_app; [apply continues_break|].
  change (lit "    " ++ RUMPEL_CONTAINER_BIN ++ lit " prepare-image" ++ ?x)
    with ((lit "    /opt/rumpelpod/bin/rumpel prepare-imag" ++ [101%N]) ++ x).
  apply continues_app; [apply continues_text; decide_now|].
  apply continues_app; [apply continues_flag; [decide_now|apply Hv; set_solver]|].
  apply continues_app; [apply continues_flag; [decide_now|destruct (in_workspace_clone i); decide_now]|].
  apply continues_app; [apply continues_flag; [decide_now|apply Hv; set_solver]|].
  repeat (apply continues_app;
    [first [apply continues_opt; [decide_now|apply Ho; intros v ->; set_solver]
           | apply continues_bind; [decide_now|apply Forall_forall; intros v Hin; apply Hv; set_solver]
           | destruct (in_inject_system_prompt i); [|apply continues_nil];
             change (lit "inject-system-prompt") with (lit "inject-system-promp" ++ [116%N]);
             apply continues_new_line; [decide_now|intros w Hw; apply app_inj_tail in Hw as [_ Hw]; discriminate Hw]]|]).
  destruct (in_user_id_update i) as [u|]; [|done].
  apply continues_app; apply continues_flag; first [decide_now | apply digits_ok].
Qed.

(** The build step runs [rumpel prepare-image] with exactly the intended arguments: as long
    as no value has an apostrophe or a newline, the instruction Docker reads is the whole
    command, and the shell splits it into these words. *)
Theorem dockerfile_arguments i :
  Forall value_ok (quoted_values i) ->
  (exists pre post, generate_dockerfile i = pre ++ run_command i ++ c_nl :: post /\
     logical_line (run_command i ++ c_nl :: post) = run_command i) /\
  command_words (length (prepare_words i)) (run_command i) = Some (prepare_words i).
Proof.
  intros H. split.
  - exists (dockerfile_head i), (unlines [[]; lit "USER ${BASE_USER}"]). split; [reflexivity|].
    rewrite continues_run by done. apply app_nil_r.
  - pose proof (reads_flags i H 0 [] [] ltac:(by left) eq_refl) as [Hsep Hw]. rewrite !app_nil_r, Nat.add_0_r in *.
    unfold run_command. set (flags := quoted_flag (lit "repo-path") _ ++ _) in *.
    change (length (prepare_words i)) with (S (S (length (drop 2 (prepare_words i))))).
    change (prepare_words i) with (RUMPEL_CONTAINER_BIN :: lit "prepare-image" :: drop 2 (prepare_words i)) at 2.
    transitivity (command_words (S (S (length (drop 2 (prepare_words i))))) (RUMPEL_CONTAINER_BIN ++ lit " prepare-image" ++ flags));
      [by apply command_words_blank|].
    apply words_plain; [done|vm_compute; reflexivity|right; by eexists|].
    transitivity (command_words (S (length (drop 2 (prepare_words i)))) (lit "prepare-image" ++ flags));
      [by apply command_words_blank|].
    by apply words_plain; [|vm_compute; reflexivity| |].
Qed.

Definition ex_inputs : PrepareInputs :=
  mkInputs (lit "ubuntu") CloneLocal (lit "/workspaces/r") (lit "dev") (Some (mkIdUpdate 501 20)) (Some (lit "2.1.79")) None None None
    [lit "/home/dev/.cache"] true None (lit "{}") [lit "TOKEN"].

Lemma dockerfile_arguments_witness :
  command_words 17 (run_command ex_inputs) =
  Some (map lit ["/opt/rumpelpod/bin/rumpel"; "prepare-image"; "--repo-path"; "/workspaces/r"; "--workspace-clone"; "local"; "--user";
                 "dev"; "--claude-version"; "2.1.79"; "--mount-target"; "/home/dev/.cache"; "--inject-system-prompt"; "--user-uid";
                 "501"; "--user-gid"; "20"]).
Proof.
  refine (proj2 (dockerfile_arguments ex_inputs _)).
  repeat (apply Forall_cons_2; [split; decide_now|]). apply Forall_nil_2.
Defined.

(** A path with an apostrophe leaves a quote open: the build step cannot be read. *)
Lemma apostrophe_breaks_build :
  command_words 50 (run_command (ex_inputs <| in_repo_path := lit "/workspaces/bob's" |>)) = None.
Proof. vm_compute. reflexivity. Qed.

(** The versions of Codex and Grok cannot break the command: whatever the programs print, a
    version that is accepted has only letters, digits, dots, hyphens and plus signs. *)
Theorem parsed_versions_safe raw v :
  parse_codex_version raw = Some v \/ parse_grok_version raw = Some v ->
  value_ok v /\ forallb version_char v = true /\ exists c r, v = c :: r /\ is_ascii_digit c = true.
Proof.
  assert (version_ok v = true -> value_ok v /\ forallb version_char v = true /\ exists c r, v = c :: r /\ is_ascii_digit c = true) as Hv.
  { unfold version_ok. intros [Hd Hall]%andb_true_iff. split_and!; [|done|by destruct v as [|c r]; [|exists c, r]].
    split; intros Hin; rewrite forallb_forall in Hall; apply list_elem_of_In, Hall in Hin; by vm_compute in Hin. }
  intros [H|H]; apply Hv; unfold parse_codex_version, parse_grok_version in H;
    destruct (split_whitespace raw) as [|name [|version rest]]; try done;
    destruct (_ && version_ok version) eqn:E; [|done| |done]; injection H as <-; by apply andb_true_iff in E as [_ E].
Qed.

Lemma parsed_versions_safe_witness : value_ok (lit "0.145.0").
Proof. apply (parsed_versions_safe (lit "codex-cli 0.145.0") (lit "0.145.0")). left. vm_compute. reflexivity. Defined.

(** ** The tag *)

(** The tag does not tell apart everything that goes into an image: the version of Claude and
    that of pi are hashed one after the other without a mark, as are the repository path and the
    user.  An image prepared for one is then reused for the other. *)
Theorem prepared_tag_collision lib version_info i v x user :
  let claude := i <| in_claude := Some v |> <| in_pi := None |> in
  let pi := i <| in_claude := None |> <| in_pi := Some v |> in
  let path1 := i <| in_repo_path := in_repo_path i ++ x |> <| in_user := user |> in
  let path2 := i <| in_user := x ++ user |> in
  compute_prepared_tag lib version_info claude = compute_prepared_tag lib version_info pi /\
  generate_dockerfile claude <> generate_dockerfile pi /\
  compute_prepared_tag lib version_info path1 = compute_prepared_tag lib version_info path2 /\
  (value_ok (in_repo_path i) -> value_ok x -> value_ok user -> x <> [] -> run_command path1 <> run_command path2).
Proof.
  intros claude pi path1 path2. split_and!.
  - reflexivity.
  - unfold generate_dockerfile. intros H.
    change (dockerfile_head claude) with (dockerfile_head i) in H. change (dockerfile_head pi) with (dockerfile_head i) in H.
    apply app_inv_head in H. unfold run_command in H.
    change (in_repo_path claude) with (in_repo_path i) in H. change (in_repo_path pi) with (in_repo_path i) in H.
    change (in_user claude) with (in_user i) in H. change (in_user pi) with (in_user i) in H.
    change (in_workspace_clone claude) with (in_workspace_clone i) in H. change (in_workspace_clone pi) with (in_workspace_clone i) in H.
    rewrite <- !app_assoc in H. do 7 apply app_inv_head in H.
    unfold prepare_image_flags in H. change (in_claude claude) with (Some v) in H. change (in_claude pi) with (@None (list N)) in H.
    change (in_pi pi) with (Some v) in H. cbn [opt_flag app] in H. unfold quoted_flag, on_new_line in H.
    rewrite <- !app_assoc in H. do 2 apply app_inv_head in H. by injection H.
  - unfold compute_prepared_tag, prepared_preimage.
    change (in_repo_path path1) with (in_repo_path i ++ x). change (in_user path1) with user.
    change (in_repo_path path2) with (in_repo_path i). change (in_user path2) with (x ++ user).
    rewrite !as_bytes_app, <- !app_assoc. done.
  - intros Hp Hx Hu Hne H. unfold run_command in H.
    change (in_repo_path path1) with (in_repo_path i ++ x) in H. change (in_repo_path path2) with (in_repo_path i) in H.
    do 4 apply app_inv_head in H. unfold quoted_flag in H. rewrite <- !app_assoc in H. do 3 apply app_inv_head in H.
    change (lit "'" ++ ?y) with (c_apostrophe :: y) in H.
    destruct x as [|c x]; [done|]. cbn [app] in H. injection H as Hc _. destruct Hx as [Hx _]. subst c. apply Hx. by left.
Qed.

Lemma prepared_tag_collision_witness :
  compute_prepared_tag ZeroHash.lib (lit "v1") (ex_inputs <| in_claude := Some (lit "1.0") |> <| in_pi := None |>) =
  compute_prepared_tag ZeroHash.lib (lit "v1") (ex_inputs <| in_claude := None |> <| in_pi := Some (lit "1.0") |>).
Proof. apply (prepared_tag_collision ZeroHash.lib (lit "v1") ex_inputs (lit "1.0") [] []). Defined.

Lemma utf8_char_nonzero c : c <> 0%N -> is_scalar c = true -> 0%N ∉ utf8_char c.
Proof.
  intros Hc Hs. unfold utf8_char. repeat case_bool_decide; rewrite ?elem_of_cons, ?elem_of_nil; intros Hin;
    repeat destruct Hin as [Hin|Hin]; try lia; try done.
Qed.

Lemma as_bytes_nonzero s : scalars s -> 0%N ∉ s -> 0%N ∉ as_bytes s.
Proof.
  intros Hs H0. unfold as_bytes. rewrite list_elem_of_bind. intros (c & Hb & Hc).
  eapply utf8_char_nonzero; [| |exact Hb]; [by intros ->|]. unfold scalars in Hs. rewrite Forall_forall in Hs. by apply Hs.
Qed.

Definition text_ok (s : str) : Prop := scalars s /\ 0%N ∉ s.

Lemma terminated_inj ts ts' : Forall text_ok ts -> Forall text_ok ts' ->
  (ts ≫= fun t => as_bytes t ++ [0%N]) = (ts' ≫= fun t => as_bytes t ++ [0%N]) -> ts = ts'.
Proof.
  intros H. revert ts'. induction H as [|t ts [Ht1 Ht2] _ IH]; intros [|t' ts'] H' Heq; [done| | |].
  - rewrite bind_cons in Heq. symmetry in Heq. by apply app_eq_nil in Heq as [[_ ?]%app_eq_nil _].
  - rewrite bind_cons in Heq. by apply app_eq_nil in Heq as [[_ ?]%app_eq_nil _].
  - apply Forall_cons_1 in H' as [[Ht1' Ht2'] H']. rewrite !bind_cons, <- !app_assoc in Heq.
    change ([0%N] ++ ?x) with (0%N :: x) in Heq. apply app_sep_inj_l in Heq as [Hb Heq]; [|by apply as_bytes_nonzero..].
    apply as_bytes_inj in Hb as ->; [|done..]. f_equal. by apply IH.
Qed.

Definition version_text (o : option (list N)) : Prop := forall v, o = Some v -> scalars v /\ v <> [].

Lemma opt_bytes_inj o o' : version_text o -> version_text o' -> opt_bytes o = opt_bytes o' -> o = o'.
Proof.
  intros Ho Ho'. destruct o as [v|], o' as [v'|]; simpl; [| | |done].
  - destruct (Ho v eq_refl) as [? _], (Ho' v' eq_refl) as [? _]. intros Heq. by rewrite (as_bytes_inj v v').
  - destruct (Ho v eq_refl) as [_ Hv]. destruct v as [|c v]; [done|]. unfold as_bytes. rewrite bind_cons.
    intros [H _]%app_eq_nil. by apply utf8_char_nonempty in H.
  - destruct (Ho' v' eq_refl) as [_ Hv]. destruct v' as [|c v]; [done|]. unfold as_bytes. rewrite bind_cons.
    intros H. symmetry in H. apply app_eq_nil in H as [H _]. by apply utf8_char_nonempty in H.
Qed.

#[local] Tactic Notation "heads" integer(n) hyp(H) := do n apply app_inv_head in H.

Definition ids_ok (o : option RemoteUserIdUpdate) : Prop :=
  forall u, o = Some u -> (up_uid u < 2 ^ 32)%N /\ (up_gid u < 2 ^ 32)%N.

Lemma id_bytes_inj o o' : ids_ok o -> ids_ok o' -> id_bytes o = id_bytes o' -> o = o'.
Proof.
  intros Ho Ho'. destruct o as [[u g]|], o' as [[u' g']|]; unfold id_bytes; cbn [up_uid up_gid app]; [|done..].
  destruct (Ho _ eq_refl) as [Hu Hg], (Ho' _ eq_refl) as [Hu' Hg']. cbn in *. intros H.
  apply (app_inv_head [1%N]) in H. apply app_inj_1 in H as [H1 H2]; [|done].
  apply (f_equal from_le_bytes) in H1, H2. rewrite !from_to_le_bytes in H1, H2 by done. by subst.
Qed.

(** No single change is missed: if two inputs differ in only one part (the base image, the
    clone mode, the path, the user, its numbers, one of the versions, the mount targets, the
    prompt, the devcontainer or the names of variables), different texts are hashed. *)
Theorem prepared_tag_sensitive version_info i :
  let pre := prepared_preimage version_info in
  (forall b b', scalars b -> scalars b' -> pre (i <| in_base_image := b |>) = pre (i <| in_base_image := b' |>) -> b = b') /\
  (forall m m', pre (i <| in_workspace_clone := m |>) = pre (i <| in_workspace_clone := m' |>) -> m = m') /\
  (forall p p', scalars p -> scalars p' -> pre (i <| in_repo_path := p |>) = pre (i <| in_repo_path := p' |>) -> p = p') /\
  (forall u u', scalars u -> scalars u' -> pre (i <| in_user := u |>) = pre (i <| in_user := u' |>) -> u = u') /\
  (forall u u', ids_ok u -> ids_ok u' -> pre (i <| in_user_id_update := u |>) = pre (i <| in_user_id_update := u' |>) -> u = u') /\
  (forall v v', version_text v -> version_text v' ->
     (pre (i <| in_claude := v |>) = pre (i <| in_claude := v' |>) -> v = v') /\
     (pre (i <| in_pi := v |>) = pre (i <| in_pi := v' |>) -> v = v') /\
     (pre (i <| in_codex := v |>) = pre (i <| in_codex := v' |>) -> v = v') /\
     (pre (i <| in_grok := v |>) = pre (i <| in_grok := v' |>) -> v = v') /\
     (pre (i <| in_description_file := v |>) = pre (i <| in_description_file := v' |>) -> v = v')) /\
  (forall ts ts', Forall text_ok ts -> Forall text_ok ts' ->
     (pre (i <| in_mount_targets := ts |>) = pre (i <| in_mount_targets := ts' |>) -> ts = ts') /\
     (pre (i <| in_container_env_keys := ts |>) = pre (i <| in_container_env_keys := ts' |>) -> ts = ts')) /\
  (forall b b', pre (i <| in_inject_system_prompt := b |>) = pre (i <| in_inject_system_prompt := b' |>) -> b = b') /\
  (forall j j', scalars j -> scalars j' -> pre (i <| in_devcontainer_json := j |>) = pre (i <| in_devcontainer_json := j' |>) -> j = j').
Proof.
  intros pre. unfold pre, prepared_preimage. split_and!.
  - intros b b' Hb Hb' H. apply app_inv_tail in H. by apply as_bytes_inj.
  - intros m m' H. heads 3 H. apply app_inv_tail in H. by destruct m, m'.
  - intros p p' Hp Hp' H. heads 6 H. apply app_inv_tail in H. by apply as_bytes_inj.
  - intros u u' Hu Hu' H. heads 7 H. apply app_inv_tail in H. by apply as_bytes_inj.
  - intros u u' Hu Hu' H. heads 8 H. apply app_inv_tail in H. by apply id_bytes_inj.
  - intros v v' Hv Hv'. split_and!; intros H.
    + heads 9 H. apply app_inv_tail in H. by apply opt_bytes_inj.
    + heads 10 H. apply app_inv_tail in H. by apply opt_bytes_inj.
    + heads 13 H. apply app_inv_tail in H. by apply opt_bytes_inj.
    + heads 17 H. apply app_inv_tail in H. by apply opt_bytes_inj.
    + heads 22 H. apply app_inv_tail in H. by apply opt_bytes_inj.
  - intros ts ts' Hts Hts'. split; intros H.
    + heads 19 H. apply app_inv_tail in H. by apply terminated_inj.
    + heads 24 H. by apply terminated_inj.
  - intros b b' H. heads 21 H. apply app_inv_tail in H. by destruct b, b'.
  - intros j j' Hj Hj' H. heads 23 H. apply app_inv_tail in H. by apply as_bytes_inj.
Qed.

(** ** Node.js *)

Lemma parse_part_show n : (n <= Z.to_N u64_max)%N -> parse_part (Some (show n)) = Some n.
Proof.
  intros Hn. unfold parse_part. cbn [fmap option_fmap option_map mbind option_bind].
  pose proof (show_digits n) as Hd. destruct (show_head n) as (c & r & Hs & _).
  assert (trim_start_by (fun c => negb (is_ascii_digit c)) (show n) = show n) as ->.
  { rewrite Hs in *. apply Forall_cons_1 in Hd as [Hc _]. cbn. by rewrite Hc. }
  rewrite trim_end_by_id.
  - rewrite bool_decide_false by (by rewrite Hs). by apply parse_uint_show.
  - intros x r' Hx. rewrite Hx in Hd. apply Forall_app in Hd as [_ [Hx' _]%Forall_cons_1]. by rewrite Hx'.
Qed.

Lemma version_ge_lex a1 a2 a3 b1 b2 b3 : version_ge (a1, a2, a3) (b1, b2, b3) = true <->
  (b1 < a1 \/ b1 = a1 /\ (b2 < a2 \/ b2 = a2 /\ b3 <= a3))%N.
Proof. unfold version_ge. repeat case_bool_decide; split; intros Hx; try done; lia. Qed.

Lemma show_no c n : is_ascii_digit c = false -> c ∉ show n.
Proof.
  intros Hc Hin. pose proof (show_digits n) as H. rewrite Forall_forall in H. apply H in Hin. congruence.
Qed.

Lemma digit_not_whitespace c : is_ascii_digit c = true -> is_whitespace c = false.
Proof.
  unfold is_ascii_digit, is_whitespace, in_range. intros [H1%bool_decide_eq_true H2%bool_decide_eq_true]%andb_true_iff.
  rewrite !orb_false_iff, !andb_false_iff, !bool_decide_eq_false. split_and!; [right; lia| |left; lia].
  rewrite !elem_of_cons, elem_of_nil. lia.
Qed.

(** A Node.js that prints [vX.Y.Z] is accepted exactly when its version is at least the
    required one, compared number by number. *)
Theorem node_version_spec a b c min1 min2 min3 :
  (a <= Z.to_N u64_max)%N -> (b <= Z.to_N u64_max)%N -> (c <= Z.to_N u64_max)%N ->
  node_version_at_least (lit "v" ++ join [c_dot] [show a; show b; show c] ++ [c_nl]) (min1, min2, min3) = true <->
  (min1 < a \/ min1 = a /\ (min2 < b \/ min2 = b /\ min3 <= c))%N.
Proof.
  intros Ha Hb Hc. unfold node_version_at_least.
  assert (trim (lit "v" ++ join [c_dot] [show a; show b; show c] ++ [c_nl]) = lit "v" ++ join [c_dot] [show a; show b; show c]) as ->.
  { unfold trim. change (lit "v") with [c_v]. set (body := join _ _).
    change (trim_start_by is_whitespace ([c_v] ++ body ++ [c_nl])) with ((c_v :: body) ++ [c_nl]).
    unfold trim_end_by. rewrite reverse_app. change (reverse [c_nl] ++ ?x) with (c_nl :: x).
    cbn [trim_start_by]. change (is_whitespace c_nl) with true. cbv iota.
    change (reverse (trim_start_by is_whitespace (reverse (c_v :: body)))) with (trim_end_by is_whitespace (c_v :: body)).
    apply trim_end_by_id. intros x r Hx.
    destruct (show_head c) as (hc & rc & Hs & _).
    assert (exists y r', show c = r' ++ [y]) as (y & r' & Hy).
    { destruct (show c) as [|? ? _] using rev_ind; [done|]. by eexists _, _. }
    assert (c_v :: body = (c_v :: show a ++ [c_dot] ++ show b ++ [c_dot] ++ r') ++ [y]) as Hbody.
    { unfold body. cbn [join]. rewrite Hy. cbn [app]. f_equal. by rewrite <- app_assoc, <- app_comm_cons, <- app_assoc. }
    change (c_v :: body = r ++ [x]) in Hx. rewrite Hbody in Hx. apply app_inj_tail in Hx as [_ <-].
    pose proof (show_digits c) as Hd. rewrite Hy in Hd. apply Forall_app in Hd as [_ [Hd _]%Forall_cons_1].
    by apply digit_not_whitespace. }
  assert (trim_start_matches c_v (lit "v" ++ join [c_dot] [show a; show b; show c]) = join [c_dot] [show a; show b; show c]) as ->.
  { change (lit "v") with [c_v]. unfold trim_start_matches. cbn [app trim_start_by]. change (is_char c_v c_v) with true. cbv iota.
    destruct (show_head a) as (h & r & Hs & _). pose proof (show_digits a) as Hd. rewrite Hs in *. apply Forall_cons_1 in Hd as [Hd _].
    cbn [join app trim_start_by]. destruct (is_char c_v h) eqn:E; [|done]. apply bool_decide_eq_true in E as ->. done. }
  rewrite split_join; [|done|repeat constructor; apply show_no; reflexivity].
  cbn [lookup list_lookup]. rewrite !parse_part_show by done. cbn [default Datatypes.id]. apply version_ge_lex.
Qed.

Lemma node_version_spec_witness : node_version_at_least (lit "v22.20.0" ++ [c_nl]) PI_MIN_NODE = true.
Proof. apply (node_version_spec 22 20 0 22 19 0); [vm_compute; discriminate..|]. lia. Defined.

(** ** Hooks *)

Lemma strip_lines_clean ls : Forall (fun l => managed l = false) (strip_lines ls).
Proof.
  enough (forall n ls, length ls <= n -> Forall (fun l => managed l = false) (strip_lines ls)) as H by (by apply (H (length ls))).
  clear. induction n as [|n IH]; intros [|l ls] Hn; try (by constructor); [simpl in Hn; lia|]. cbn [strip_lines].
  destruct (managed l) eqn:E; [|constructor; [done|apply IH; simpl in Hn; lia]].
  destruct ls as [|l' ls]; [constructor|]. apply IH. simpl in Hn. lia.
Qed.

Lemma strip_lines_id ls : Forall (fun l => managed l = false) ls -> strip_lines ls = ls.
Proof. induction 1 as [|l ls Hl _ IH]; [done|]. cbn [strip_lines]. by rewrite Hl, IH. Qed.

Lemma unlines_inj ls ls' : Forall line_ok ls -> Forall line_ok ls' -> unlines ls = unlines ls' -> ls = ls'.
Proof. intros H H' Heq. rewrite <- (lines_unlines ls H), <- (lines_unlines ls' H'). by rewrite Heq. Qed.

(** Cleaning the hooks of an image removes the host's blocks and keeps the user's code: a
    hook of newline-terminated lines keeps exactly the lines outside the managed blocks, a hook
    that had nothing else goes away, and a hook without a managed block is untouched.  Doing it
    again changes nothing. *)
Theorem host_hooks_removed hooks name ls :
  Forall line_ok ls -> hooks !! name = Some (HookText (unlines ls)) ->
  remove_host_hooks hooks !! name =
    (if bool_decide (strip_lines ls = ls) then Some (HookText (unlines ls))
     else if existsb (fun l => negb (bool_decide (l = [])) && negb (starts_with (lit "#!") l)) (strip_lines ls)
          then Some (HookText (unlines (strip_lines ls))) else None) /\
  Forall (fun l => managed l = false) (strip_lines ls) /\
  remove_host_hooks (remove_host_hooks hooks) !! name = remove_host_hooks hooks !! name.
Proof.
  intros Hls Hn.
  assert (Forall line_ok (strip_lines ls)) as Hstrip.
  { clear Hn. enough (forall n ls, length ls <= n -> Forall line_ok ls -> Forall line_ok (strip_lines ls)) as H by (by apply (H (length ls))).
    clear. induction n as [|n IH]; intros [|l ls] Hn H; try (by constructor); [simpl in Hn; lia|]. cbn [strip_lines].
    apply Forall_cons_1 in H as [Hl H]. destruct (managed l); [|constructor; [done|apply IH; [simpl in Hn; lia|done]]].
    destruct ls as [|l' ls]; [constructor|]. apply Forall_cons_1 in H as [_ H]. apply IH; [simpl in Hn; lia|done]. }
  assert (forall ls, Forall line_ok ls -> strip_lines ls = ls -> clean_hook (HookText (unlines ls)) = Some (HookText (unlines ls))) as Hid.
  { intros l Hl Hs. unfold clean_hook. rewrite bool_decide_true; [done|]. destruct l as [|x l]; [done|].
    by rewrite strip_unlines, Hs by (done || by rewrite Hs). }
  assert (clean_hook (HookText (unlines ls)) =
    if bool_decide (strip_lines ls = ls) then Some (HookText (unlines ls))
    else if existsb (fun l => negb (bool_decide (l = [])) && negb (starts_with (lit "#!") l)) (strip_lines ls)
         then Some (HookText (unlines (strip_lines ls))) else None) as Hc.
  { case_bool_decide as Hs; [by apply Hid|]. unfold clean_hook.
    destruct (decide (strip_lines ls = [])) as [He|Hne].
    - assert (ls <> []) as Hlne by (intros ->; done).
      assert (strip_host_hooks (unlines ls) = [c_nl]) as Hst.
      { unfold strip_host_hooks. rewrite lines_unlines, He, ends_with_nl by done. done. }
      rewrite Hst, He. cbn [existsb]. case_bool_decide as Hx; [|done].
      assert (Forall line_ok [[]]) as H1
        by (apply Forall_cons_2; [split; [set_solver|vm_compute; reflexivity]|apply Forall_nil_2]).
      assert (ls = [[]]) as ->; [by apply unlines_inj|]. vm_compute in He. discriminate He.
    - rewrite strip_unlines by done. rewrite bool_decide_false by (intros Heq; apply Hs; by apply unlines_inj).
      unfold has_code. by rewrite lines_unlines. }
  unfold remove_host_hooks. rewrite !lookup_omap, Hn. cbn [mbind option_bind]. rewrite Hc. split_and!; [done|apply strip_lines_clean|].
  case_bool_decide as Hs; [cbn [mbind option_bind]; by apply Hid|]. destruct (existsb _ _); [|done]. cbn [mbind option_bind].
  apply Hid; [done|]. apply strip_lines_id, strip_lines_clean.
Qed.

Lemma host_hooks_removed_witness :
  remove_host_hooks {[lit "pre-receive" := HookText (unlines [lit "#!/bin/sh"; HOST_PRE_RECEIVE_COMMENT; lit "exec rumpel"; lit "echo hi"])]}
    !! lit "pre-receive" = Some (HookText (unlines [lit "#!/bin/sh"; lit "echo hi"])).
Proof.
  assert (Forall line_ok [lit "#!/bin/sh"; HOST_PRE_RECEIVE_COMMENT; lit "exec rumpel"; lit "echo hi"]) as H
    by (repeat (apply Forall_cons_2; [split; [decide_now|vm_compute; reflexivity]|]); apply Forall_nil_2).
  rewrite (proj1 (host_hooks_removed _ _ _ H ltac:(apply lookup_singleton_eq))). vm_compute. reflexivity.
Defined.

(** ** Building or reusing *)

Section PreparedResolve.
Context {E : Type}.
Context (exec : list str -> E -> result str unit * E) (image_exists : str -> Host -> option (list N) -> E -> bool).
Context (registry_image_exists : str -> E -> result image_error bool).
Context (image_user : str -> E -> option str) (stage : list (list N * ContextFile) -> str).

(** A prepared image is named by the tag of what goes into it, with the user resolved from
    the devcontainer or the base image; it is reused when it exists, and otherwise the build ran
    with exactly that name.  On Kubernetes, where a container cannot be entered as another user,
    nothing is returned for a user other than that of a base image that is not root. *)
Theorem prepared_image_spec lib version_info binaries agent i host socket container_user requested options e res e' :
  build_prepared_image exec image_exists registry_image_exists image_user stage lib version_info binaries agent i host socket
    container_user requested options e = Returned (Ok res, e') ->
  exists iu e0, image_user (in_base_image i) e = Some iu /\
    let user := default iu container_user in
    let i' := i <| in_user := user |> <| in_user_id_update := effective_id_update user requested |> in
    let mode := from_host host socket in
    let tag := compute_prepared_tag lib version_info i' in
    br_image res = output_tag mode tag /\
    (is_docker host = false -> iu = lit "root" \/ user = iu) /\
    if br_built res then
      tag_exists image_exists registry_image_exists mode tag e0 = Ok false /\
      exists args r e1, exec args e0 = (r, e1) /\ names_image (br_image res) args /\
        (r = Ok tt \/ exists h s engine, mode = Load h s engine /\ image_exists (br_image res) h s e1 = true)
    else tag_exists image_exists registry_image_exists mode tag e0 = Ok true /\ e' = e0.
Proof.
  unfold build_prepared_image. destruct (image_user (in_base_image i) e) as [iu|]; [|done].
  set (tagged := match from_host host socket with Load _ _ _ => _ | Push _ _ _ => _ end).
  destruct tagged as [[[base|x] e0]| |]; cbn [mbind run_bind]; [|done..].
  destruct (negb (is_docker host) && _ && _) eqn:Ek; [done|].
  set (i' := i <| in_user := _ |> <| in_user_id_update := _ |>). set (tag := compute_prepared_tag lib version_info i').
  assert (is_docker host = false -> iu = lit "root" \/ default iu container_user = iu) as Hk.
  { intros Hd. rewrite Hd in Ek. cbn [negb andb] in Ek. apply andb_false_iff in Ek as [H|H]; apply negb_false_iff, bool_decide_eq_true in H; auto. }
  destruct (tag_exists _ _ _ tag e0) as [[]|] eqn:Ex; [| |done].
  - intros [= <- <-]. exists iu, e0. split; [done|]. cbn zeta. by split_and!.
  - destruct binaries as [binaries|]; [|done]. destruct (configure_build_ssh _ _) as [extra|]; [|done].
    destruct (run_buildx_build _ _ _ _ _ _ _ _) as [[[[]|x] e1]| |] eqn:Er; cbn [mbind run_bind]; [|done..].
    intros [= <- <-]. exists iu, e0. split; [done|]. cbn zeta. split_and!; [done|done|]. cbn [br_built br_image]. split; [done|]. by eapply run_buildx_build_ok.
Qed.

End PreparedResolve.

Lemma prepared_image_spec_witness :
  let build exists_ := build_prepared_image (fun _ (e : nat) => (Ok tt, S e)) (fun _ _ _ _ => exists_) (fun _ _ => Ok false)
    (fun _ _ => Some (lit "root")) (fun _ => lit "/tmp/ctx") ZeroHash.lib (lit "v1") (Some []) (Ok None) ex_inputs
    (Localhost Docker) None (Some (lit "dev")) None [] 0 in
  exists res, build true = Returned (Ok res, 0) /\ br_built res = false /\ br_image res = lit "rumpelpod-0000000000000000" /\
    exists res', build false = Returned (Ok res', 1) /\ br_built res' = true.
Proof.
  intros build.
  assert (exists res, build true = Returned (Ok res, 0) /\ br_built res = false) as (res & H & Hb)
    by (eexists; split; vm_compute; reflexivity).
  exists res. split; [exact H|]. split; [exact Hb|]. split; [|eexists; split; vm_compute; reflexivity].
  destruct (prepared_image_spec (fun _ (e : nat) => (Ok tt, S e)) (fun _ _ _ _ => true) (fun _ _ => Ok false)
    (fun _ _ => Some (lit "root")) (fun _ => lit "/tmp/ctx") ZeroHash.lib (lit "v1") (Some []) (Ok None) ex_inputs
    (Localhost Docker) None (Some (lit "dev")) None [] 0 res 0 H) as (iu & e0 & _ & Himg & _).
  rewrite Himg. vm_compute. reflexivity.
Defined.
