(* ===== verification/Sse.v ===== *)
(** * Server-sent events between the daemon and its clients (daemon/protocol.rs)

    A request that can take long is answered with a stream of events.  Three kinds of stream
    are written and read here: one result after progress messages ([streaming_result_response]
    and [read_sse_result]), the output of a launch ([streaming_launch_response] and
    [ClientLaunchProgress]), and the two notification streams ([reconnect_sse_response] and
    [ReconnectStream], [forward_daemon_events] and [read_daemon_event]).

    [serde_json] is a parameter, one [Serde] instance per type that is sent; [SerdeLaws] states
    the two facts the streams rely on.  A stream as the reader sees it is the list of what
    [BufRead::lines] yields, each a line or a read error. *)
From stdpp Require Import gmap.
From S2P Require Import Prelude Strs Hosts PodConn Hooks.

(** ** JSON text of a type *)

Class Serde (A : Type) := {
  to_string : A -> str;
  from_str : str -> result str A;
}.

(** What is written can be read back, and the text of a value is one line: characters below
    the space are escaped inside strings and the compact form writes none between values. *)
Class SerdeLaws (A : Type) `{Serde A} : Prop := {
  from_str_to_string a : from_str (to_string a) = Ok a;
  to_string_plain a : Forall (fun c => (32 <= c)%N) (to_string a);
}.

(** ** Data *)

Inductive io_line := Line (s : str) | ReadError (e : str).

Inductive OutputLine := Stdout (s : str) | Stderr (s : str).

Record LaunchResult := mkLaunchResult {
  lr_container_id : str;
  lr_docker_socket : option str;
  lr_host : Host;
  lr_image_built : bool;
  lr_container_url : str;
  lr_container_token : str;
  lr_container_repo_path : str;
}.

Record PodLaunchResponse := mkLaunchResponse {
  pl_container_id : str;
  pl_docker_socket : option str;
  pl_host : Host;
  pl_image_built : bool;
  pl_container_url : str;
  pl_container_token : str;
  pl_container_repo_path : str;
}.

Record ErrorResponse := mkErrorResponse { er_error : str }.

Inductive DaemonEvent :=
| Resync
| PodStatusChangedEv (repository pod : str)
| PodReviewChangedEv (repository pod : str).

(** ** Writing *)

Definition sse_event (event_type data : str) : str :=
  lit "event: " ++ event_type ++ [c_nl] ++ lit "data: " ++ data ++ [c_nl; c_nl].

(** The messages of one task as they reach the channel while the [SlowGuard] of another task
    sends [log]: [gaps] counts the log messages in front of each message, and its last entry
    those that are forwarded after the final one. *)
Fixpoint interleave {A} (log : A) (gaps : list nat) (main : list A) : list A :=
  match gaps, main with
  | g :: gaps, m :: main => replicate g log ++ m :: interleave log gaps main
  | g :: _, [] => replicate g log
  | [], _ => main
  end.

Section Streams.
  Context `{Serde str, Serde PodLaunchResponse, Serde ErrorResponse, Serde DaemonEvent}.

Definition log_message (description : str) : str := sse_event (lit "log") (to_string description).
Definition error_message (e : str) : str := sse_event (lit "error") (to_string (mkErrorResponse e)).

Definition streaming_result_response {T} `{Serde T} (description : str) (gaps : list nat)
    (op : result str T) : list str :=
  interleave (log_message description) gaps
    [match op with
     | Ok value => sse_event (lit "result") (to_string value)
     | Err e => error_message e
     end].

Definition to_response (r : LaunchResult) : PodLaunchResponse :=
  mkLaunchResponse (lr_container_id r) (lr_docker_socket r) (lr_host r) (lr_image_built r)
    (lr_container_url r) (lr_container_token r) (lr_container_repo_path r).

Definition output_message (line : OutputLine) : str :=
  let '(event_type, text) :=
    match line with
    | Stdout s => (lit "build_stdout", s)
    | Stderr s => (lit "build_stderr", s)
    end in
  sse_event event_type (to_string text).

(** [op] either fails, or gives the progress handle: the lines it yields and what its [finish]
    returns. *)
Definition streaming_launch_response (gaps : list nat)
    (op : result str (list OutputLine * result str LaunchResult)) : list str :=
  interleave (log_message (lit "launching pod...")) gaps
    match op with
    | Err e => [error_message e]
    | Ok (output, finish) =>
        map output_message output ++
        [match finish with
         | Ok r => sse_event (lit "result") (to_string (to_response r))
         | Err e => error_message e
         end]
    end.

(** What [broadcast::Receiver::recv] or the keepalive timer yields. *)
Inductive received (E : Type) := RecvOk (ev : E) | Lagged | Closed | Tick.
Arguments RecvOk {E} ev.
Arguments Lagged {E}.
Arguments Closed {E}.
Arguments Tick {E}.

Definition daemon_event_message (event : DaemonEvent) : str :=
  sse_event (lit "daemon_event") (to_string event).

Fixpoint forward_loop (rx : list (received DaemonEvent)) : list str :=
  match rx with
  | [] => []
  | RecvOk event :: rx => daemon_event_message event :: forward_loop rx
  | Lagged :: rx => daemon_event_message Resync :: forward_loop rx
  | Closed :: _ => []
  | Tick :: rx => (lit ": keepalive" ++ [c_nl; c_nl]) :: forward_loop rx
  end.

Definition forward_daemon_events (rx : list (received DaemonEvent)) : list str :=
  daemon_event_message Resync :: forward_loop rx.

Definition is_terminal (ev : ReconnectEvent) : bool :=
  match ev with EvConnected | EvStopped => true | _ => false end.

Definition reconnect_message (ev : ReconnectEvent) : str :=
  let '(event_type, data) :=
    match ev with
    | Attempting => (lit "attempting", lit "{}")
    | HostConnected => (lit "host_connected", lit "{}")
    | EvConnected => (lit "connected", lit "{}")
    | Failed error => (lit "failed", to_string (mkErrorResponse error))
    | EvStopped => (lit "stopped", lit "{}")
    end in
  sse_event event_type data.

Fixpoint reconnect_sse_response (rx : list (received ReconnectEvent)) : list str :=
  match rx with
  | [] => []
  | RecvOk event :: rx =>
      reconnect_message event :: if is_terminal event then [] else reconnect_sse_response rx
  | Lagged :: rx | Tick :: rx => reconnect_sse_response rx
  | Closed :: _ => []
  end.

(** ** Reading *)

(** The body of a response as [BufRead::lines] yields it when the stream ends normally. *)
Definition response_lines (messages : list str) : list io_line := map Line (lines (mjoin messages)).

Inductive SseItem (T : Type) := Log (msg : str) | Result (value : T) | Error (msg : str).
Arguments Log {T} msg.
Arguments Result {T} value.
Arguments Error {T} msg.

Definition expected_data (got : str) : str := lit "expected 'data: ' line, got: " ++ got.

(** The reader thread of [read_sse_result]: what it sends to the channel until it returns. *)
Fixpoint sse_reader {T} `{Serde T} (ls : list io_line) : list (result str (SseItem T)) :=
  match ls with
  | [] => [Err (lit "SSE stream closed without result")]
  | ReadError e :: _ => [Err (lit "reading SSE stream: " ++ e)]
  | Line line :: ls =>
      if bool_decide (line = []) then sse_reader ls
      else
        match strip_prefix (lit "event: ") line with
        | None => sse_reader ls
        | Some event_type =>
            match ls with
            | [] => [Err (lit "SSE stream ended mid-event")]
            | ReadError e :: _ => [Err (lit "reading SSE data line: " ++ e)]
            | Line data_line :: ls =>
                match strip_prefix (lit "data: ") data_line with
                | None => [Err (expected_data data_line)]
                | Some data =>
                    if bool_decide (event_type = lit "log") then
                      match from_str data with
                      | Ok msg => Ok (Log msg) :: sse_reader ls
                      | Err e => [Err (lit "parsing log event: " ++ e)]
                      end
                    else if bool_decide (event_type = lit "result") then
                      [match from_str data with
                       | Ok val => Ok (Result val)
                       | Err e => Err (lit "parsing result event: " ++ e)
                       end]
                    else if bool_decide (event_type = lit "error") then
                      [match from_str data with
                       | Ok err => Ok (Error (er_error err))
                       | Err e => Err (lit "parsing error event: " ++ e)
                       end]
                    else [Err (lit "unknown SSE event type: " ++ event_type)]
                end
            end
        end
  end.

(** The loop of the calling thread: [None] is a receive that timed out, the end of the list a
    channel whose sender is gone.  It gives what is printed to stderr and the outcome. *)
Fixpoint await_result {T} (description : str) (rx : list (option (result str (SseItem T))))
    : list str * result str T :=
  match rx with
  | Some (Ok (Log msg)) :: rx =>
      let '(printed, r) := await_result description rx in (msg :: printed, r)
  | Some (Ok (Result val)) :: _ => ([], Ok val)
  | Some (Ok (Error msg)) :: _ => ([], Err msg)
  | Some (Err e) :: _ => ([], Err e)
  | None :: rx =>
      let '(printed, r) := await_result description rx in ((lit "still waiting: " ++ description) :: printed, r)
  | [] => ([], Err (lit "SSE stream closed without result"))
  end.

Record ClientLaunchProgress := mkProgress {
  progress_lines : list io_line;
  progress_result : option (result str LaunchResult);
}.

Definition of_response (body : PodLaunchResponse) : LaunchResult :=
  mkLaunchResult (pl_container_id body) (pl_docker_socket body) (pl_host body) (pl_image_built body)
    (pl_container_url body) (pl_container_token body) (pl_container_repo_path body).

(** [ClientLaunchProgress::next] *)
Fixpoint progress_next (ls : list io_line) (result : option (result str LaunchResult))
    : option OutputLine * ClientLaunchProgress :=
  match ls with
  | [] => (None, mkProgress [] result)
  | ReadError e :: ls =>
      (None, mkProgress ls (Some (Err (lit "failed to read response stream: " ++ e))))
  | Line line :: ls =>
      if bool_decide (line = []) then progress_next ls result
      else
        match strip_prefix (lit "event: ") line with
        | None => progress_next ls result
        | Some event_type =>
            match ls with
            | [] => (None, mkProgress [] (Some (Err (lit "stream ended mid-event (no data line)"))))
            | ReadError e :: ls =>
                (None, mkProgress ls (Some (Err (lit "failed to read data line: " ++ e))))
            | Line data_line :: ls =>
                match strip_prefix (lit "data: ") data_line with
                | None => (None, mkProgress ls (Some (Err (expected_data data_line))))
                | Some data =>
                    if bool_decide (event_type = lit "build_stdout") || bool_decide (event_type = lit "build_stderr") then
                      match from_str data with
                      | Ok s =>
                          (Some (if bool_decide (event_type = lit "build_stdout") then Stdout s else Stderr s),
                           mkProgress ls result)
                      | Err e =>
                          (None, mkProgress ls (Some (Err (lit "failed to parse build output data: " ++ e))))
                      end
                    else if bool_decide (event_type = lit "result") then
                      (None, mkProgress ls (Some
                        match from_str data with
                        | Ok body => Ok (of_response body)
                        | Err e => Err (lit "failed to parse result data: " ++ e)
                        end))
                    else if bool_decide (event_type = lit "error") then
                      (None, mkProgress ls (Some (Err
                        match from_str data with
                        | Ok err => lit "server error: " ++ er_error err
                        | Err e => lit "failed to parse error data: " ++ e
                        end)))
                    else
                      (None, mkProgress ls (Some (Err (lit "unknown SSE event type: " ++ event_type))))
                end
            end
        end
  end.

Definition next (p : ClientLaunchProgress) : option OutputLine * ClientLaunchProgress :=
  progress_next (progress_lines p) (progress_result p).

(** [for line in &mut progress]: the lines up to the first [None].  A call of [next] that
    yields a line has consumed at least two lines of the stream, so the number of them bounds
    the loop ([drain_fuel]). *)
Fixpoint drain (fuel : nat) (p : ClientLaunchProgress) : list OutputLine * ClientLaunchProgress :=
  match fuel with
  | 0 => ([], p)
  | S fuel =>
      match next p with
      | (Some line, p) => let '(output, p) := drain fuel p in (line :: output, p)
      | (None, p) => ([], p)
      end
  end.

Definition drain_all (p : ClientLaunchProgress) : list OutputLine * ClientLaunchProgress :=
  drain (S (length (progress_lines p))) p.

Definition finish (p : ClientLaunchProgress) : result str LaunchResult :=
  default (Err (lit "server closed stream without sending a result")) (progress_result (snd (drain_all p))).

(** What [launch_pod] of enter.rs, [recreate] and [fork] do with the handle: print every line,
    then take the result. *)
Definition launch_client (ls : list io_line) : list OutputLine * result str LaunchResult :=
  let '(printed, p) := drain_all (mkProgress ls None) in (printed, finish p).

(** [read_daemon_event]: [None] is the end of the stream. *)
Fixpoint read_daemon_event (ls : list io_line) : option (result str DaemonEvent) * list io_line :=
  match ls with
  | [] => (None, [])
  | ReadError e :: ls => (Some (Err (lit "failed to read daemon event stream: " ++ e)), ls)
  | Line line :: ls =>
      if bool_decide (line = []) || starts_with [c_colon] line then read_daemon_event ls
      else
        match strip_prefix (lit "event: ") line with
        | None => (Some (Err (lit "unexpected daemon event stream line: " ++ line)), ls)
        | Some event_type =>
            if negb (bool_decide (event_type = lit "daemon_event")) then
              (Some (Err (lit "unknown daemon event type: " ++ event_type)), ls)
            else
              match ls with
              | [] => (Some (Err (lit "daemon event stream ended before its data")), [])
              | ReadError e :: ls => (Some (Err (lit "failed to read daemon event data: " ++ e)), ls)
              | Line data_line :: ls =>
                  match strip_prefix (lit "data: ") data_line with
                  | None => (Some (Err (lit "expected daemon event data, got: " ++ data_line)), ls)
                  | Some data =>
                      (Some match from_str data with
                            | Ok event => Ok event
                            | Err e => Err (lit "parsing daemon event: " ++ e)
                            end, ls)
                  end
              end
        end
  end.

(** [ReconnectStream::next] *)
Fixpoint reconnect_next (ls : list io_line) : option (result str ReconnectEvent) * list io_line :=
  match ls with
  | [] => (None, [])
  | ReadError e :: ls => (Some (Err (lit "failed to read event stream: " ++ e)), ls)
  | Line line :: ls =>
      if bool_decide (line = []) then reconnect_next ls
      else
        match strip_prefix (lit "event: ") line with
        | None => reconnect_next ls
        | Some event_type =>
            match ls with
            | [] => (Some (Err (lit "stream ended mid-event (no data line)")), [])
            | ReadError e :: ls => (Some (Err (lit "failed to read data line: " ++ e)), ls)
            | Line data_line :: ls =>
                match strip_prefix (lit "data: ") data_line with
                | None => (Some (Err (expected_data data_line)), ls)
                | Some data =>
                    (Some
                      (if bool_decide (event_type = lit "attempting") then Ok Attempting
                       else if bool_decide (event_type = lit "host_connected") then Ok HostConnected
                       else if bool_decide (event_type = lit "connected") then Ok EvConnected
                       else if bool_decide (event_type = lit "stopped") then Ok EvStopped
                       else if bool_decide (event_type = lit "failed") then
                         match from_str data with
                         | Ok f => Ok (Failed (er_error f))
                         | Err e => Err (lit "failed to parse failed event data: " ++ e)
                         end
                       else Err (lit "unknown SSE event type: " ++ event_type)), ls)
                end
            end
        end
  end.

(** Everything an iterator yields: at most one item per line. *)
Fixpoint collect {E} (step : list io_line -> option E * list io_line) (fuel : nat) (ls : list io_line) : list E :=
  match fuel with
  | 0 => []
  | S fuel => match step ls with (Some e, ls) => e :: collect step fuel ls | (None, _) => [] end
  end.

Definition daemon_events (ls : list io_line) : list (result str DaemonEvent) :=
  collect read_daemon_event (S (length ls)) ls.
Definition reconnect_events (ls : list io_line) : list (result str ReconnectEvent) :=
  collect reconnect_next (S (length ls)) ls.
End Streams.

Arguments RecvOk {E} ev.
Arguments Lagged {E}.
Arguments Closed {E}.
Arguments Tick {E}.
Arguments Log {T} msg.
Arguments Result {T} value.
Arguments Error {T} msg.

(** ** Frames *)

Definition plain (s : str) : Prop := Forall (fun c => (32 <= c)%N) s.

#[export] Instance plain_dec s : Decision (plain s).
Proof. unfold plain. apply _. Defined.

Lemma plain_app a b : plain a -> plain b -> plain (a ++ b).
Proof. apply Forall_app_2. Qed.

Lemma plain_line_ok s : plain s -> line_ok s.
Proof.
  intros Hp. split.
  - intros Hin. by pose proof (proj1 (Forall_forall _ _) Hp _ Hin).
  - apply bool_decide_eq_false. intros [r Hr%strip_suffix_Some]. subst s.
    apply Forall_app in Hp as [_ Hp]. by apply Forall_cons in Hp as [? _].
Qed.

(** The lines of one event. *)
Definition frame (td : str * str) : list io_line :=
  [Line (lit "event: " ++ td.1); Line (lit "data: " ++ td.2); Line []].

Definition plain_event (td : str * str) : Prop := plain td.1 /\ plain td.2.

Lemma sse_event_unlines t d : sse_event t d = unlines [lit "event: " ++ t; lit "data: " ++ d; []].
Proof. unfold sse_event, unlines. simpl. by rewrite <- !app_assoc. Qed.

Lemma response_frames es : Forall plain_event es ->
  response_lines (map (uncurry sse_event) es) = es ≫= frame.
Proof.
  intros Hp. unfold response_lines.
  set (f := fun td : str * str => [lit "event: " ++ td.1; lit "data: " ++ td.2; []]).
  assert (mjoin (map (uncurry sse_event) es) = unlines (es ≫= f)) as ->.
  { clear Hp. induction es as [|[t d] es IH]; [done|].
    rewrite bind_cons, unlines_app, <- IH. simpl. by rewrite sse_event_unlines. }
  rewrite lines_unlines.
  - clear Hp. induction es as [|td es IH]; [done|]. by rewrite !bind_cons, map_app, IH.
  - induction Hp as [|td es [Ht Hd] _ IH]; [constructor|]. rewrite bind_cons. apply Forall_app. split; [|done].
    repeat constructor; apply plain_line_ok; try apply plain_app; try done; decide_now.
Qed.

Ltac plain_now := repeat constructor; cbn [fst snd]; try decide_now; try apply to_string_plain.

(** ** One result *)

Section ResultStream.
  Context {T : Type} `{SerdeLaws str, SerdeLaws ErrorResponse, SerdeLaws T}.

Definition result_event (op : result str T) : str * str :=
  match op with
  | Ok value => (lit "result", to_string value)
  | Err e => (lit "error", to_string (mkErrorResponse e))
  end.

Lemma result_event_plain op : plain_event (result_event op).
Proof. destruct op; plain_now. Qed.

Definition log_event (description : str) : str * str := (lit "log", to_string description).

Lemma log_event_plain d : plain_event (log_event d).
Proof. plain_now. Qed.

Lemma interleave_map {A B} (f : A -> B) log gaps main :
  interleave (f log) gaps (map f main) = map f (interleave log gaps main).
Proof.
  revert gaps. induction main as [|m main IH]; intros [|g gaps]; [done| |done|]; simpl.
  - by rewrite <- fmap_replicate.
  - by rewrite IH, map_app, <- fmap_replicate.
Qed.

Lemma result_lines description gaps (op : result str T) :
  response_lines (streaming_result_response description gaps op) =
  interleave (log_event description) gaps [result_event op] ≫= frame.
Proof.
  rewrite <- response_frames.
  - f_equal. rewrite <- interleave_map. unfold streaming_result_response. by destruct op.
  - destruct gaps as [|g [|g' gaps]]; simpl; rewrite ?Forall_app; repeat split;
      repeat constructor; try apply result_event_plain; try apply Forall_replicate, log_event_plain.
Qed.

Lemma reader_log d rest :
  @sse_reader _ _ T _ (frame (log_event d) ++ rest) = Ok (Log d) :: sse_reader rest.
Proof.
  unfold frame, log_event. cbn [app fst snd sse_reader].
  rewrite bool_decide_false by done. rewrite !strip_prefix_app.
  rewrite bool_decide_true by done. by rewrite from_str_to_string.
Qed.

Definition final_item (op : result str T) : SseItem T :=
  match op with Ok v => Result v | Err e => Error e end.

Lemma reader_result (op : result str T) rest :
  sse_reader (frame (result_event op) ++ rest) =
  [Ok (final_item op)].
Proof.
  unfold frame. destruct op; cbn [app fst snd sse_reader result_event];
    rewrite (bool_decide_false (_ = [])) by done; rewrite !strip_prefix_app;
    rewrite !bool_decide_false by done; rewrite bool_decide_true by done; by rewrite from_str_to_string.
Qed.

Definition result_items (description : str) (n : nat) (op : result str T) : list (result str (SseItem T)) :=
  replicate n (Ok (Log description)) ++ [Ok (final_item op)].

Lemma reader_stream description gaps (op : result str T) :
  sse_reader (response_lines (streaming_result_response description gaps op)) =
  result_items description (default 0 (head gaps)) op.
Proof.
  rewrite result_lines. destruct gaps as [|g gaps]; cbn [interleave head from_option].
  - apply (reader_result op []).
  - rewrite bind_app, bind_cons. unfold result_items.
    induction g as [|g IH]; cbn [replicate mbind list_bind app]; [apply reader_result|].
    rewrite <- app_assoc, reader_log. cbn [default]. by rewrite IH.
Qed.

(** What is printed for a progress message and for a timeout. *)
Definition printed_line {A} (description shown : str) (o : option A) : str :=
  match o with Some _ => description | None => lit "still waiting: " ++ shown end.

Lemma await_items shown description n (op : result str T) rx :
  omap Datatypes.id rx = result_items description n op ->
  exists k, rx !! k = Some (Some (Ok (final_item op))) /\
    length (omap Datatypes.id (take k rx)) = n /\
    await_result shown rx =
      (map (printed_line description shown) (take k rx), op).
Proof.
  revert n. induction rx as [|[x|] rx IH]; intros n; cbn [omap list_omap Datatypes.id].
  - intros E. by destruct n.
  - intros E. destruct n as [|n].
    + apply (f_equal head) in E. injection E as ->. exists 0. by destruct op.
    + cbn in E. injection E as -> E. destruct (IH n E) as (k & Hf & Hk & Hr). exists (S k).
      cbn [take omap list_omap length map]. cbn. rewrite Hr. split_and!; [done|by f_equal|done].
  - intros E. destruct (IH n E) as (k & Hf & Hk & Hr). exists (S k). split_and!; [done..|]. cbn. by rewrite Hr.
Qed.

(** A request answered by [streaming_result_response] returns to its caller exactly what
    the operation returned, its value or its error message, however many progress messages the
    server interleaves before or after it and however often the client times out waiting.  What
    is printed meanwhile is one line per progress message and one per timeout, in order. *)
Theorem result_stream_roundtrip description shown gaps (op : result str T) rx :
  omap Datatypes.id rx = sse_reader (response_lines (streaming_result_response description gaps op)) ->
  exists k, rx !! k = Some (Some (Ok (final_item op))) /\
    length (omap Datatypes.id (take k rx)) = default 0 (head gaps) /\
    await_result shown rx =
      (map (printed_line description shown) (take k rx), op).
Proof. rewrite reader_stream. apply await_items. Qed.

(** A reader that finds no complete result event sends an error last. *)
Definition fails (items : list (result str (SseItem T))) : Prop :=
  exists logs e, items = map (fun m => Ok (Log m)) logs ++ [Err e].

Lemma await_fails shown items rx :
  fails items -> omap Datatypes.id rx = items -> exists e, (await_result shown rx).2 = Err e.
Proof.
  intros (logs & e & ->). revert logs. induction rx as [|[x|] rx IH]; intros logs E; [by destruct logs| |].
  - destruct logs as [|m logs]; injection E as -> E; [by eexists|].
    destruct (IH logs E) as [e' He]. exists e'. cbn. by destruct (await_result shown rx).
  - destruct (IH logs E) as [e' He]. exists e'. cbn. by destruct (await_result shown rx).
Qed.

(** The connection broke: the reader sees the end of the stream or a read error. *)
Definition broken (rest : list io_line) : Prop :=
  match rest with [] | ReadError _ :: _ => True | _ => False end.

Lemma reader_broken rest : broken rest -> fails (sse_reader rest).
Proof. destruct rest as [|[]]; [|done|]; intros _; exists []; by eexists. Qed.

Lemma reader_cut td k rest : k < 2 -> broken rest -> fails (sse_reader (take k (frame td) ++ rest)).
Proof.
  intros Hk Hb. destruct k as [|[|]]; [by apply reader_broken| |lia].
  cbn [take frame app sse_reader]. rewrite bool_decide_false by done. rewrite strip_prefix_app.
  destruct rest as [|[]]; try done; exists []; by eexists.
Qed.

Lemma reader_cut_log d k rest : broken rest -> fails (sse_reader (take k (frame (log_event d)) ++ rest)).
Proof.
  intros Hb. destruct (decide (k < 2)) as [|Hk]; [by apply reader_cut|].
  assert (sse_reader (take k (frame (log_event d)) ++ rest) = Ok (Log d) :: @sse_reader _ _ T _ rest) as ->.
  { destruct k as [|[|[|k]]]; [lia..| |rewrite take_ge by (simpl; lia); apply reader_log].
    cbn [take frame app]. unfold log_event. cbn [fst snd sse_reader].
    rewrite bool_decide_false by done. rewrite !strip_prefix_app.
    rewrite bool_decide_true by done. rewrite from_str_to_string. by destruct rest as [|[]]. }
  destruct (reader_broken rest Hb) as (logs & e & ->). by exists (d :: logs), e.
Qed.

(** A stream that breaks before the data line of its final event has arrived is never
    taken for a success: wherever it is cut and whether the connection closes or fails, the
    caller gets an error. *)
Theorem broken_stream_fails description shown gaps (op : result str T) k rest rx :
  k < 3 * default 0 (head gaps) + 2 -> broken rest ->
  omap Datatypes.id rx =
    sse_reader (take k (response_lines (streaming_result_response description gaps op)) ++ rest) ->
  exists e, (await_result shown rx).2 = Err e.
Proof.
  intros Hk Hb. apply await_fails. rewrite result_lines. clear rx.
  destruct gaps as [|g gaps]; cbn [interleave head from_option Datatypes.id] in *; [by apply reader_cut|].
  rewrite bind_app, bind_cons. revert k Hk. induction g as [|g IH]; intros k Hk; cbn [replicate mbind list_bind app].
  - rewrite take_app_le by (simpl; lia). apply reader_cut; [lia|done].
  - rewrite <- app_assoc. destruct (decide (k <= 3)).
    + rewrite take_app_le by (simpl; lia). by apply reader_cut_log.
    + rewrite take_app_ge by (simpl; lia). rewrite <- app_assoc, reader_log.
      destruct (IH (k - 3) ltac:(lia)) as (logs & e & E). exists (description :: logs), e.
      change (length (frame _)) with 3. cbn [mbind list_bind] in E |- *. by rewrite E.
Qed.
End ResultStream.

(** ** Launch output *)

(** What the client makes of one event: a line to print, or the end of the iteration with a
    result. *)
Inductive step_kind := Yields (l : OutputLine) | Ends (r : result str LaunchResult).

Fixpoint iterate (ks : list step_kind) (r : option (result str LaunchResult))
    : list OutputLine * (list step_kind * option (result str LaunchResult)) :=
  match ks with
  | [] => ([], ([], r))
  | Yields l :: ks => let '(out, rest) := iterate ks r in (l :: out, rest)
  | Ends r :: ks => ([], (ks, Some r))
  end.

Definition no_result : result str LaunchResult := Err (lit "server closed stream without sending a result").

Definition iterate_twice (ks : list step_kind) : list OutputLine * result str LaunchResult :=
  let '(out, (ks, r)) := iterate ks None in (out, default no_result (iterate ks r).2.2).

Section LaunchStream.
  Context `{SerdeLaws str, SerdeLaws PodLaunchResponse, SerdeLaws ErrorResponse}.

Definition kind_of (td : str * str) (k : step_kind) : Prop := forall ls r,
  progress_next (frame td ++ ls) r =
  match k with
  | Yields l => (Some l, mkProgress (Line [] :: ls) r)
  | Ends r' => (None, mkProgress (Line [] :: ls) (Some r'))
  end.

Lemma drain_kinds es ks blank r fuel :
  Forall2 kind_of es ks -> length es < fuel -> blank = [] \/ blank = [Line []] ->
  exists es', let '(out, (ks', r')) := iterate ks r in
    Forall2 kind_of es' ks' /\ length es' <= length es /\
    exists blank', (blank' = [] \/ blank' = [Line []]) /\
      drain fuel (mkProgress (blank ++ es ≫= frame) r) = (out, mkProgress (blank' ++ es' ≫= frame) r').
Proof.
  intros Hk. revert blank r fuel. induction Hk as [|td k es ks Hd Hk IH]; intros blank r fuel Hf Hb.
  - exists []. cbn. split; [constructor|]. split; [done|]. exists []. split; [by left|].
    destruct fuel; [lia|]. by destruct Hb as [-> | ->].
  - destruct fuel as [|fuel]; [simpl in Hf; lia|].
    assert (next (mkProgress (blank ++ (td :: es) ≫= frame) r) = progress_next (frame td ++ es ≫= frame) r) as En.
    { unfold next. by destruct Hb as [-> | ->]. }
    rewrite Hd in En. cbn [drain iterate]. rewrite En. destruct k as [l|r'].
    + destruct (IH [Line []] r fuel) as [es' IH']; [simpl in Hf; lia|by right|]. exists es'.
      destruct (iterate ks r) as [out [ks' r']]. destruct IH' as (Hk' & Hl & blank' & Hb' & Hd').
      split; [done|]. split; [simpl; lia|]. exists blank'. split; [done|].
      change (Line [] :: es ≫= frame) with ([Line []] ++ es ≫= frame). by rewrite Hd'.
    + exists es. split; [done|]. split; [simpl; lia|]. exists [Line []]. split; [by right|done].
Qed.

Lemma frames_length es : length (es ≫= frame) = 3 * length es.
Proof. induction es as [|td es IH]; [done|]. rewrite bind_cons, length_app, IH. simpl. lia. Qed.

Lemma client_kinds es ks : Forall2 kind_of es ks -> launch_client (es ≫= frame) = iterate_twice ks.
Proof.
  intros Hk. unfold launch_client, iterate_twice, drain_all.
  destruct (drain_kinds es ks [] None (S (length (es ≫= frame))) Hk) as [es' Hd];
    [rewrite frames_length; lia|by left|].
  destruct (iterate ks None) as [out [ks' r']]. destruct Hd as (Hk' & Hl & blank & Hb & Hd).
  cbn [progress_lines app] in *. rewrite Hd. f_equal. unfold finish, drain_all. cbn [progress_lines].
  destruct (drain_kinds es' ks' blank r' (S (length (blank ++ es' ≫= frame))) Hk') as [es'' Hd'];
    [rewrite length_app, frames_length; lia|done|].
  destruct (iterate ks' r') as [out' [ks'' r'']]. destruct Hd' as (_ & _ & blank'' & _ & ->). done.
Qed.

(** What the client reports for what [finish] returned on the server. *)
Definition shown (finish : result str LaunchResult) : result str LaunchResult :=
  match finish with Ok r => Ok r | Err e => Err (lit "server error: " ++ e) end.

Definition unknown_log : result str LaunchResult := Err (lit "unknown SSE event type: log").

Definition output_event (l : OutputLine) : str * str :=
  match l with Stdout s => (lit "build_stdout", to_string s) | Stderr s => (lit "build_stderr", to_string s) end.

Definition finish_event (finish : result str LaunchResult) : str * str :=
  match finish with
  | Ok r => (lit "result", to_string (to_response r))
  | Err e => (lit "error", to_string (mkErrorResponse e))
  end.

Ltac read_frame := unfold frame; cbn [app fst snd progress_next]; rewrite (bool_decide_false (_ = [])) by done;
  rewrite !strip_prefix_app.
Ltac decide_types := repeat first [rewrite (bool_decide_true (lit _ = lit _)) by done
                                  |rewrite (bool_decide_false (lit _ = lit _)) by done].

Lemma output_kind l : kind_of (output_event l) (Yields l).
Proof. intros ls r. destruct l; cbn [output_event]; read_frame; decide_types; by rewrite from_str_to_string. Qed.

Lemma finish_kind fin : kind_of (finish_event fin) (Ends (shown fin)).
Proof.
  intros ls r. destruct fin as [[]|]; cbn [finish_event]; read_frame; decide_types; by rewrite from_str_to_string.
Qed.

Lemma log_kind d : kind_of (log_event d) (Ends unknown_log).
Proof. intros ls r. unfold log_event. read_frame. by decide_types. Qed.

Lemma interleave_Forall2 {A B} (R : A -> B -> Prop) a b gaps l k :
  R a b -> Forall2 R l k -> Forall2 R (interleave a gaps l) (interleave b gaps k).
Proof.
  intros Hab Hl. revert gaps. induction Hl as [|x y l k Hxy Hl IH]; intros [|g gaps]; cbn [interleave].
  - constructor.
  - by apply Forall2_replicate.
  - by constructor.
  - apply Forall2_app; [by apply Forall2_replicate|]. by constructor.
Qed.

Definition launch_parts (op : result str (list OutputLine * result str LaunchResult)) :
    list OutputLine * result str LaunchResult :=
  match op with Ok p => p | Err e => ([], Err e) end.

Definition launch_events (gaps : list nat) (output : list OutputLine) (fin : result str LaunchResult) : list (str * str) :=
  interleave (log_event (lit "launching pod...")) gaps (map output_event output ++ [finish_event fin]).

Definition launch_kinds (gaps : list nat) (output : list OutputLine) (fin : result str LaunchResult) : list step_kind :=
  interleave (Ends unknown_log) gaps (map Yields output ++ [Ends (shown fin)]).

Lemma launch_kinds_ok gaps output fin :
  Forall2 kind_of (launch_events gaps output fin) (launch_kinds gaps output fin).
Proof.
  apply interleave_Forall2; [apply log_kind|]. apply Forall2_app; [|by constructor; [apply finish_kind|]].
  induction output; constructor; [apply output_kind|done].
Qed.

Lemma interleave_Forall {A} (P : A -> Prop) a gaps l : P a -> Forall P l -> Forall P (interleave a gaps l).
Proof.
  intros Ha Hl. revert gaps. induction Hl as [|x l Hx Hl IH]; intros [|g gaps]; cbn [interleave]; [done| |by constructor|].
  - by apply Forall_replicate.
  - apply Forall_app. split; [by apply Forall_replicate|]. by constructor.
Qed.

Lemma launch_frames gaps op :
  response_lines (streaming_launch_response gaps op) =
  launch_events gaps (launch_parts op).1 (launch_parts op).2 ≫= frame.
Proof.
  rewrite <- response_frames.
  - f_equal. unfold launch_events. rewrite <- interleave_map. unfold streaming_launch_response.
    destruct op as [[output fin]|]; [|done]. f_equal. cbn [launch_parts fst snd].
    rewrite map_app, map_map. f_equal; [|by destruct fin]. apply map_ext. by intros [].
  - apply interleave_Forall; [apply log_event_plain|]. apply Forall_app. split.
    + apply Forall_map, Forall_forall. intros [] _; plain_now.
    + destruct (launch_parts op).2; plain_now.
Qed.

(** Progress messages that reach the client in front of the final event, and after it. *)
Definition early_logs (gaps : list nat) (output : list OutputLine) : nat := sum_list (take (S (length output)) gaps).
Definition late_logs (gaps : list nat) (output : list OutputLine) : nat := default 0 (gaps !! S (length output)).

(** The number of lines in front of the first progress message. *)
Fixpoint leading_zeros (gaps : list nat) : nat :=
  match gaps with 0 :: gaps => S (leading_zeros gaps) | _ => 0 end.

Lemma second_pass gaps output fin r :
  (iterate (launch_kinds gaps output fin) r).2.2 =
  Some (if bool_decide (early_logs gaps output = 0) then shown fin else unknown_log).
Proof.
  unfold launch_kinds, early_logs. revert gaps. induction output as [|l output IH]; intros [|[|g] gaps]; try done.
  - cbn [interleave map app iterate]. specialize (IH []). cbn [interleave] in IH.
    by destruct (iterate _ r) as [? [? ?]].
  - cbn [interleave map app iterate replicate]. specialize (IH gaps).
    destruct (iterate _ r) as [? [? ?]]. done.
Qed.

Lemma both_passes gaps output fin :
  iterate_twice (launch_kinds gaps output fin) =
  (if bool_decide (early_logs gaps output = 0) then output else take (leading_zeros gaps) output,
   if bool_decide (early_logs gaps output = 1) ||
      (bool_decide (early_logs gaps output = 0) && bool_decide (late_logs gaps output = 0))
   then shown fin else unknown_log).
Proof.
  revert gaps. induction output as [|l output IH]; intros [|[|g] gaps].
  - done.
  - destruct gaps as [|[|] gaps]; done.
  - unfold iterate_twice, launch_kinds, early_logs. cbn [map app interleave replicate iterate].
    destruct g; [by destruct fin|done].
  - specialize (IH []). revert IH. unfold iterate_twice, launch_kinds. cbn [map app interleave iterate].
    destruct (iterate _ None) as [out [ks r]]. cbn. intros IH. by injection IH as -> ->.
  - specialize (IH gaps). revert IH. unfold iterate_twice, launch_kinds. cbn [map app interleave replicate iterate].
    destruct (iterate _ None) as [out [ks r]]. unfold early_logs, late_logs.
    cbn [length take sum_list lookup list_lookup leading_zeros fmap]. intros IH. injection IH as -> ->.
    change (Datatypes.id 0 + ?x) with x. by destruct (bool_decide (sum_list (take _ gaps) = 0)).
  - unfold iterate_twice, launch_kinds, early_logs. cbn [map app interleave replicate iterate leading_zeros take].
    destruct g as [|g]; cbn [replicate app iterate].
    + pose proof (second_pass gaps output fin (Some unknown_log)) as Hp. unfold launch_kinds, early_logs in Hp.
      destruct (iterate (interleave _ gaps _) _) as [? [? ?]]. cbn in Hp |- *. rewrite Hp. cbn.
      destruct (sum_list (take (S (length output)) gaps)); done.
    + done.
Qed.

(** What the caller of a launch, recreate or fork prints and returns, for every number and
    position of the progress messages the daemon sends while the operation is starting.  With
    none, every line of output is printed and the daemon's result is returned.  The client does
    not know these messages: with exactly one the result is still returned but the output after
    it is lost, and with more, or with one after the result, a launch that succeeded is reported
    as failed. *)
Theorem launch_stream_outcome gaps op :
  let '(output, fin) := launch_parts op in
  launch_client (response_lines (streaming_launch_response gaps op)) =
  (if bool_decide (early_logs gaps output = 0) then output else take (leading_zeros gaps) output,
   if bool_decide (early_logs gaps output = 1) ||
      (bool_decide (early_logs gaps output = 0) && bool_decide (late_logs gaps output = 0))
   then shown fin else unknown_log).
Proof.
  rewrite launch_frames. destruct (launch_parts op) as [output fin]. cbn [fst snd].
  rewrite (client_kinds _ _ (launch_kinds_ok gaps output fin)). apply both_passes.
Qed.
End LaunchStream.

(** ** Notifications *)

(** The events a stream delivers before the channel closes. *)
Fixpoint delivered {E} (rx : list (received E)) : list E :=
  match rx with
  | [] | Closed :: _ => []
  | RecvOk ev :: rx => ev :: delivered rx
  | Lagged :: rx | Tick :: rx => delivered rx
  end.

(** A list cut after its first terminal event. *)
Fixpoint through_terminal (evs : list ReconnectEvent) : list ReconnectEvent :=
  match evs with
  | [] => []
  | ev :: evs => ev :: if is_terminal ev then [] else through_terminal evs
  end.

(** What a [broadcast] receiver yields for the events sent to it: each in order, except that a
    receiver that fell behind skips the oldest ones and is told so. *)
Inductive broadcast {E} : list E -> list (received E) -> Prop :=
| bc_open : broadcast [] []
| bc_closed : broadcast [] [Closed]
| bc_event ev sent rx : broadcast sent rx -> broadcast (ev :: sent) (RecvOk ev :: rx)
| bc_lagged lost sent rx : lost <> [] -> broadcast sent rx -> broadcast (lost ++ sent) (Lagged :: rx)
| bc_tick sent rx : broadcast sent rx -> broadcast sent (Tick :: rx).

Section Notifications.
  Context `{SerdeLaws ErrorResponse, SerdeLaws DaemonEvent}.

Definition reconnect_event (ev : ReconnectEvent) : str * str :=
  match ev with
  | Attempting => (lit "attempting", lit "{}")
  | HostConnected => (lit "host_connected", lit "{}")
  | EvConnected => (lit "connected", lit "{}")
  | Failed error => (lit "failed", to_string (mkErrorResponse error))
  | EvStopped => (lit "stopped", lit "{}")
  end.

Lemma reconnect_event_plain ev : plain_event (reconnect_event ev).
Proof. destruct ev; plain_now. Qed.

Lemma reconnect_messages rx :
  reconnect_sse_response rx = map (uncurry sse_event) (map reconnect_event (through_terminal (delivered rx))).
Proof.
  induction rx as [|[ev| | |] rx IH]; try done. cbn [reconnect_sse_response delivered through_terminal map].
  f_equal. destruct (is_terminal ev); [done|exact IH].
Qed.

Lemma reconnect_read ev ls blank : blank = [] \/ blank = [Line []] ->
  reconnect_next (blank ++ frame (reconnect_event ev) ++ ls) = (Some (Ok ev), Line [] :: ls).
Proof.
  intros [-> | ->]; destruct ev; cbn [reconnect_event]; unfold frame; cbn [app fst snd reconnect_next];
    repeat first [rewrite (bool_decide_true ([] = [])) by done | rewrite (bool_decide_false (_ = [])) by done];
    rewrite !strip_prefix_app;
    repeat first [rewrite (bool_decide_true (lit _ = lit _)) by done
                 |rewrite (bool_decide_false (lit _ = lit _)) by done]; try done;
    by rewrite from_str_to_string.
Qed.

Lemma collect_reconnect evs blank fuel : length evs < fuel -> blank = [] \/ blank = [Line []] ->
  collect reconnect_next fuel (blank ++ map reconnect_event evs ≫= frame) = map Ok evs.
Proof.
  revert blank fuel. induction evs as [|ev evs IH]; intros blank [|fuel] Hf Hb; simpl in Hf; try lia.
  - by destruct Hb as [-> | ->].
  - cbn [map]. rewrite bind_cons. cbn [collect]. rewrite reconnect_read by done. f_equal.
    apply (IH [Line []]); [lia|by right].
Qed.

(** A client that follows a pod's reconnection sees exactly the events that were broadcast
    while it listened, in order and with their error texts, up to and including the first that
    says the pod is connected or stopped; the stream then ends. *)
Theorem reconnect_stream_faithful rx :
  reconnect_events (response_lines (reconnect_sse_response rx)) = map Ok (through_terminal (delivered rx)).
Proof.
  rewrite reconnect_messages, response_frames by (apply Forall_map, Forall_forall; intros ev _; apply reconnect_event_plain).
  unfold reconnect_events. apply (collect_reconnect _ []); [|by left].
  rewrite frames_length, length_map. lia.
Qed.

(** The lines of the messages [forward_daemon_events] sends. *)
Definition forwarded_block (r : received DaemonEvent) : list str :=
  match r with
  | RecvOk ev => [lit "event: daemon_event"; lit "data: " ++ to_string ev; []]
  | Lagged => [lit "event: daemon_event"; lit "data: " ++ to_string Resync; []]
  | Closed => []
  | Tick => [lit ": keepalive"; []]
  end.

Fixpoint until_closed (rx : list (received DaemonEvent)) : list (received DaemonEvent) :=
  match rx with [] | Closed :: _ => [] | r :: rx => r :: until_closed rx end.

Lemma daemon_message_block ev : daemon_event_message ev = unlines (forwarded_block (RecvOk ev)).
Proof. unfold daemon_event_message. by rewrite sse_event_unlines. Qed.

Lemma forward_blocks rx : mjoin (forward_loop rx) = unlines (until_closed rx ≫= forwarded_block).
Proof.
  induction rx as [|[ev| | |] rx IH]; [done| | |done|]; cbn [forward_loop until_closed];
    rewrite bind_cons, unlines_app, <- IH, ?daemon_message_block.
  1-2: done.
  change (mjoin (?a :: ?b)) with (a ++ mjoin b). by f_equal.
Qed.

Lemma block_lines_ok r : Forall line_ok (forwarded_block r).
Proof.
  destruct r; repeat constructor; apply plain_line_ok;
    first [decide_now | apply plain_app; [decide_now|apply to_string_plain]].
Qed.

Lemma forwarded_lines rx :
  response_lines (forward_daemon_events rx) =
  map Line ((RecvOk Resync :: until_closed rx) ≫= forwarded_block).
Proof.
  unfold response_lines, forward_daemon_events. change (mjoin (?a :: ?b)) with (a ++ mjoin b).
  rewrite daemon_message_block, forward_blocks, <- unlines_app, <- bind_cons, lines_unlines; [done|].
  generalize (RecvOk Resync :: until_closed rx). intros l. induction l as [|r l IH]; [constructor|].
  rewrite bind_cons. apply Forall_app. split; [apply block_lines_ok|done].
Qed.

(** What a subscriber is told for one receive. *)
Definition told (r : received DaemonEvent) : option DaemonEvent :=
  match r with RecvOk ev => Some ev | Lagged => Some Resync | Closed | Tick => None end.

Lemma read_block r ls blank : blank = [] \/ blank = [Line []] ->
  match told r with
  | Some ev =>
      read_daemon_event (blank ++ map Line (forwarded_block r) ++ ls) = (Some (Ok ev), Line [] :: ls)
  | None => read_daemon_event (blank ++ map Line (forwarded_block r) ++ ls) = read_daemon_event ls
  end.
Proof.
  intros Hb. assert (read_daemon_event (blank ++ map Line (forwarded_block r) ++ ls) =
                     read_daemon_event (map Line (forwarded_block r) ++ ls)) as ->.
  { by destruct Hb as [-> | ->]. }
  destruct r; cbn [told]; try done; cbn [forwarded_block map app read_daemon_event];
    change (starts_with [c_colon] (lit "event: daemon_event")) with false;
    rewrite (bool_decide_false (_ = [])) by done; cbn [orb];
    change (lit "event: daemon_event") with (lit "event: " ++ lit "daemon_event"); rewrite !strip_prefix_app;
    rewrite bool_decide_true by done; cbn [negb]; by rewrite from_str_to_string.
Qed.

Lemma collect_daemon rs blank fuel : length rs < fuel -> blank = [] \/ blank = [Line []] ->
  collect read_daemon_event fuel (blank ++ map Line (rs ≫= forwarded_block)) = map Ok (omap told rs).
Proof.
  revert blank fuel. induction rs as [|r rs IH]; intros blank [|fuel] Hf Hb; simpl in Hf; try lia.
  - by destruct Hb as [-> | ->].
  - rewrite bind_cons, map_app. pose proof (read_block r (map Line (rs ≫= forwarded_block)) blank Hb) as Hr.
    cbn [omap list_omap]. destruct (told r) as [ev|] eqn:Et.
    + cbn [collect map]. rewrite Hr. f_equal. apply (IH [Line []]); [lia|by right].
    + rewrite <- (IH [] (S fuel)) by (try lia; by left). cbn [collect app]. by rewrite Hr.
Qed.

Lemma until_closed_length rx : length (until_closed rx) <= length (until_closed rx ≫= forwarded_block).
Proof.
  induction rx as [|[] rx IH]; try done; cbn [until_closed]; rewrite bind_cons, length_app; cbn [length forwarded_block]; lia.
Qed.

Lemma daemon_stream rx :
  daemon_events (response_lines (forward_daemon_events rx)) = map Ok (Resync :: omap told (until_closed rx)).
Proof.
  rewrite forwarded_lines. unfold daemon_events.
  apply (collect_daemon (RecvOk Resync :: until_closed rx) []); [|by left].
  rewrite length_map, bind_cons, length_app. pose proof (until_closed_length rx). cbn [length forwarded_block]. lia.
Qed.

(** [C23] A subscriber of the daemon's events misses no invalidation.  It first gets a [Resync];
    after that every event that was sent is represented, in the order of sending, either by
    itself or by a [Resync] that stands for the events skipped when the subscriber fell behind;
    the stream carries no error, whatever keepalives are mixed in. *)
Theorem no_invalidation_lost sent rx : broadcast sent rx ->
  exists out, daemon_events (response_lines (forward_daemon_events rx)) = map Ok (Resync :: out) /\
    exists at_ : nat -> nat, (forall i j, i <= j -> at_ i <= at_ j) /\
      forall i ev, sent !! i = Some ev -> out !! at_ i = Some ev \/ out !! at_ i = Some Resync.
Proof.
  intros Hb. exists (omap told (until_closed rx)). split; [apply daemon_stream|].
  induction Hb as [| |ev sent rx Hb (f & Hm & Hf)|lost sent rx Hl Hb (f & Hm & Hf)|sent rx Hb IH].
  - by exists (fun i => i).
  - by exists (fun i => i).
  - exists (fun i => match i with 0 => 0 | S i => S (f i) end). split.
    + intros [|i] [|j] Hij; try lia. specialize (Hm i j). lia.
    + intros [|i] e; cbn; [intros [= ->]; by left|apply Hf].
  - exists (fun i => if bool_decide (i < length lost) then 0 else S (f (i - length lost))). split.
    + intros i j Hij. repeat case_bool_decide; try lia. specialize (Hm (i - length lost) (j - length lost)). lia.
    + intros i e Hi. case_bool_decide as Hc; [by right|]. cbn. apply Hf.
      by rewrite lookup_app_r in Hi by lia.
  - exact IH.
Qed.
End Notifications.

(** ** A concrete text format

    Any countable type has a one-line text: the bits of its code as digits.  It is not JSON; it
    shows that the laws asked of [serde_json] can hold. *)
Module DigitCodec.
Fixpoint digits (p : positive) : str :=
  match p with xH => [50%N] | xO p => 48%N :: digits p | xI p => 49%N :: digits p end.

Fixpoint undigits (s : str) : option positive :=
  match s with
  | [] => None
  | c :: s =>
      if bool_decide (c = 50%N) then Some xH
      else p ← undigits s; Some (if bool_decide (c = 48%N) then xO p else xI p)
  end.

Lemma undigits_digits p : undigits (digits p) = Some p.
Proof. induction p as [p IH|p IH|]; cbn; rewrite ?IH; done. Qed.

Lemma digits_plain p : plain (digits p).
Proof. induction p; repeat constructor; try done; lia. Qed.

Definition codec A `{Countable A} : Serde A := {|
  to_string a := digits (encode a);
  from_str s := match undigits s ≫= decode with Some a => Ok a | None => Err (lit "invalid text") end;
|}.

Lemma codec_laws A `{Countable A} : @SerdeLaws A (codec A).
Proof.
  split; [|intros a; apply digits_plain]. intros a. cbn. by rewrite undigits_digits; cbn; rewrite decode_encode.
Qed.

#[local] Instance ErrorResponse_eq_dec : EqDecision ErrorResponse.
Proof. solve_decision. Defined.
#[local] Instance ErrorResponse_countable : Countable ErrorResponse.
Proof. apply (inj_countable' er_error mkErrorResponse). by intros []. Defined.

#[local] Instance DaemonEvent_eq_dec : EqDecision DaemonEvent.
Proof. solve_decision. Defined.
#[local] Instance DaemonEvent_countable : Countable DaemonEvent.
Proof.
  refine (inj_countable'
    (fun ev => match ev with
               | Resync => inl ()
               | PodStatusChangedEv r p => inr (inl (r, p))
               | PodReviewChangedEv r p => inr (inr (r, p))
               end)
    (fun x => match x with
              | inl _ => Resync
              | inr (inl (r, p)) => PodStatusChangedEv r p
              | inr (inr (r, p)) => PodReviewChangedEv r p
              end) _).
  by intros [].
Defined.

#[local] Instance Toleration_countable : Countable KubernetesToleration.
Proof.
  apply (inj_countable' (fun t => (tol_key t, tol_value t, tol_effect t, tol_operator t))
    (fun '(k, v, e, o) => mkToleration k v e o)). by intros [].
Defined.

#[local] Instance Host_countable : Countable Host.
Proof.
  refine (inj_countable'
    (fun h => match h with
              | Localhost e => inl (engine_code e)
              | Ssh d e => inr (inl (d, engine_code e))
              | Kubernetes c n r s t b e => inr (inr (c, n, r, s, t, b, engine_code e))
              end)
    (fun x => match x with
              | inl e => Localhost (engine_of_code e)
              | inr (inl (d, e)) => Ssh d (engine_of_code e)
              | inr (inr (c, n, r, s, t, b, e)) => Kubernetes c n r s t b (engine_of_code e)
              end) _).
  by intros [[]|? []|??????[]].
Defined.

#[local] Instance PodLaunchResponse_eq_dec : EqDecision PodLaunchResponse.
Proof. solve_decision. Defined.
#[local] Instance PodLaunchResponse_countable : Countable PodLaunchResponse.
Proof.
  apply (inj_countable'
    (fun r => (pl_container_id r, pl_docker_socket r, pl_host r, pl_image_built r, pl_container_url r,
               pl_container_token r, pl_container_repo_path r))
    (fun '(i, d, h, b, u, t, p) => mkLaunchResponse i d h b u t p)). by intros [].
Defined.

#[export] Instance text_codec : Serde str := codec (list N).
#[export] Instance error_codec : Serde ErrorResponse := codec ErrorResponse.
#[export] Instance event_codec : Serde DaemonEvent := codec DaemonEvent.
#[export] Instance launch_codec : Serde PodLaunchResponse := codec PodLaunchResponse.
#[export] Instance text_laws : SerdeLaws str := codec_laws _.
#[export] Instance error_laws : SerdeLaws ErrorResponse := codec_laws _.
#[export] Instance event_laws : SerdeLaws DaemonEvent := codec_laws _.
#[export] Instance launch_laws : SerdeLaws PodLaunchResponse := codec_laws _.
End DigitCodec.

Definition example_launch : LaunchResult :=
  mkLaunchResult (lit "c1") None (Localhost Docker) true (lit "http://localhost:1") (lit "t") (lit "/repo").

Import DigitCodec.

Definition two_timeouts : list (option (result str (SseItem (list N)))) :=
  [None; Some (Ok (Log (lit "stopping"))); None; Some (Ok (Result (lit "done")))].

Lemma result_stream_roundtrip_witness :
  omap Datatypes.id two_timeouts =
    sse_reader (response_lines (streaming_result_response (lit "stopping") [1; 3] (Ok (lit "done")))) /\
  (await_result (lit "stop") two_timeouts).2 = Ok (lit "done").
Proof.
  assert (omap Datatypes.id two_timeouts = sse_reader (response_lines
            (streaming_result_response (lit "stopping") [1; 3] (Ok (lit "done"))))) as E
    by (vm_compute; reflexivity).
  split; [exact E|].
  destruct (result_stream_roundtrip (lit "stopping") (lit "stop") [1; 3] (Ok (lit "done")) two_timeouts E)
    as (k & _ & _ & ->). reflexivity.
Defined.

Lemma broken_stream_fails_witness :
  exists e, (await_result (T := list N) (lit "stop")
    [Some (Ok (Log (lit "stopping"))); Some (Err (lit "reading SSE data line: reset"))]).2 = Err e.
Proof.
  apply (broken_stream_fails (lit "stopping") (lit "stop") [1] (Ok (lit "done")) 4 [ReadError (lit "reset")]);
    [vm_compute; lia|exact I|vm_compute; reflexivity].
Defined.

Definition built : list OutputLine := [Stdout (lit "step 1"); Stderr (lit "warning"); Stdout (lit "step 2")].

Lemma launch_stream_outcome_witness :
  launch_client (response_lines (streaming_launch_response [] (Ok (built, Ok example_launch)))) =
    (built, Ok example_launch) /\
  launch_client (response_lines (streaming_launch_response [0; 1] (Ok (built, Ok example_launch)))) =
    ([Stdout (lit "step 1")], Ok example_launch) /\
  launch_client (response_lines (streaming_launch_response [2] (Ok (built, Ok example_launch)))) =
    ([], unknown_log).
Proof.
  split; [|split].
  - exact (launch_stream_outcome [] (Ok (built, Ok example_launch))).
  - exact (launch_stream_outcome [0; 1] (Ok (built, Ok example_launch))).
  - exact (launch_stream_outcome [2] (Ok (built, Ok example_launch))).
Defined.

Lemma reconnect_stream_faithful_witness :
  reconnect_events (response_lines (reconnect_sse_response
    [RecvOk (Failed (lit "refused")); Lagged; RecvOk EvConnected; RecvOk Attempting])) =
  [Ok (Failed (lit "refused")); Ok EvConnected].
Proof.
  exact (reconnect_stream_faithful [RecvOk (Failed (lit "refused")); Lagged; RecvOk EvConnected; RecvOk Attempting]).
Defined.

Definition review_event : DaemonEvent := PodReviewChangedEv (lit "/repo") (lit "one").

Lemma no_invalidation_lost_witness :
  exists out, daemon_events (response_lines (forward_daemon_events [Tick; Lagged; RecvOk Resync])) =
    map Ok (Resync :: out) /\ length out = 2.
Proof.
  destruct (no_invalidation_lost [review_event; review_event; Resync] [Tick; Lagged; RecvOk Resync]) as (out & E & _).
  - apply bc_tick, (bc_lagged [review_event; review_event]); [discriminate|]. apply bc_event, bc_open.
  - exists out. split; [exact E|]. apply (f_equal length) in E. rewrite length_map in E.
    vm_compute in E. injection E as E. exact (eq_sym E).
Defined.
