(* ===== verification/PodLifecycle.v ===== *)
(** * Lifecycle commands in the container (pod/lifecycle.rs)

    The pod server runs the devcontainer's lifecycle commands when it starts.  Commands that
    belong to the creation of the container leave a flag file, those of a start a flag in the
    server's memory.  Commands up to [waitFor] run before the pod is ready, the others in one
    background thread.

    What a program does is a parameter: [exec] gives the outcome of a command from the commands
    started before it, its label and its arguments.  Whether a flag file can be created and the
    iteration order of a hash map are parameters as well. *)
From stdpp Require Import gmap sorting.
From S2P Require Import Prelude Strs PodNames Devcontainer.

(** ** Data *)

Inductive outcome :=
| Exited (code : option Z) (stderr : list N)
| CannotRun (e : str).

Record LifecycleCommandResult := mkCommandResult {
  cr_name : list N;
  cr_exit_code : Z;
  cr_stderr : str;
}.

Record LifecycleResponse := mkLifecycleResponse {
  lr_results : list LifecycleCommandResult;
  lr_background : list (list N);
}.

(** The flag files of the container, the flag of the server, and the names of the commands
    started so far. *)
Record pod_state := mkPodState {
  flags : gset (list N);
  post_start_ran : bool;
  started : list (list N);
}.

#[export] Instance eta_pod_state : Updatable pod_state := fun s =>
  mkPodState (flags s) (post_start_ran s) (started s).

Definition ON_CREATE : list N := lit "onCreateCommand".
Definition UPDATE_CONTENT : list N := lit "updateContentCommand".
Definition POST_CREATE : list N := lit "postCreateCommand".
Definition POST_START : list N := lit "postStartCommand".

Section Run.
  Variable base64_encode : list N -> str.
  Variable exec : list (list N) -> str -> list str -> outcome.
  Variable creatable : list N -> bool.
  Variable iter : gmap (list N) StringOrArray -> list (list N * StringOrArray).

Definition flag_exists (name : list N) (st : pod_state) : bool := bool_decide (name ∈ flags st).

Definition set_flag (name : list N) (st : pod_state) : pod_state :=
  if creatable name then st <| flags := {[name]} ∪ flags st |> else st.

Definition mark_ran (name : list N) (st : pod_state) : pod_state :=
  if bool_decide (name = ON_CREATE) then set_flag (lit "on-create-ran") st
  else if bool_decide (name = POST_CREATE) then set_flag (lit "post-create-ran") st
  else if bool_decide (name = POST_START) then st <| post_start_ran := true |>
  else st.

Definition mark_ran_on_failure (failed_name : list N) (st : pod_state) : pod_state :=
  if bool_decide (failed_name = ON_CREATE) then
    set_flag (lit "post-create-ran") (set_flag (lit "on-create-ran") st)
  else if bool_decide (failed_name = UPDATE_CONTENT) then set_flag (lit "post-create-ran") st
  else if bool_decide (failed_name = POST_CREATE) then set_flag (lit "post-create-ran") st
  else if bool_decide (failed_name = POST_START) then st <| post_start_ran := true |>
  else st.

(** [args[0]] of an empty list panics. *)
Definition run_one_command (before : list (list N)) (name : str) (args : list str)
    : run (result str LifecycleCommandResult) :=
  match args with
  | [] => Panicked
  | _ =>
      Returned
        match exec before name args with
        | CannotRun e => Err e
        | Exited code stderr =>
            Ok (mkCommandResult name (default (-1)%Z code)
                  (if bool_decide (code = Some 0%Z) then [] else base64_encode stderr))
        end
  end.

Definition task_args (cmd_value : StringOrArray) : list str :=
  match cmd_value with
  | SAString s => [lit "sh"; lit "-c"; s]
  | SAArray a => a
  end.

(** Joining the threads of a parallel command. *)
Fixpoint join_tasks (handles : list (run (result str LifecycleCommandResult)))
    (first_failure : option LifecycleCommandResult) : result str (option LifecycleCommandResult) :=
  match handles with
  | [] => Ok first_failure
  | Returned (Ok r) :: handles =>
      join_tasks handles
        (if negb (bool_decide (cr_exit_code r = 0%Z)) && bool_decide (first_failure = None)
         then Some r else first_failure)
  | Returned (Err e) :: _ => Err e
  | _ :: _ => Err (lit "lifecycle command thread panicked")
  end.

Definition run_lifecycle_command (before : list (list N)) (name : list N) (cmd : LifecycleCommand)
    : run (result str LifecycleCommandResult) :=
  match cmd with
  | LCString s => run_one_command before name [lit "sh"; lit "-c"; s]
  | LCArray args => run_one_command before name args
  | LCObject map =>
      Returned
        (first_failure ← join_tasks
           (List.map (fun tv => run_one_command before (name ++ lit "/" ++ fst tv) (task_args (snd tv))) (iter map)) None;
         Ok match first_failure with
            | Some f => f
            | None => mkCommandResult name 0 []
            end)
  end.

Definition is_foreground (name : list N) (wait : WaitFor) : bool :=
  if bool_decide (name = ON_CREATE) then bool_decide (wait_rank OnCreateCommand <= wait_rank wait)
  else if bool_decide (name = UPDATE_CONTENT) then bool_decide (wait_rank UpdateContentCommand <= wait_rank wait)
  else if bool_decide (name = POST_CREATE) then bool_decide (wait_rank PostCreateCommand <= wait_rank wait)
  else if bool_decide (name = POST_START) then bool_decide (wait_rank PostStartCommand <= wait_rank wait)
  else true.

Definition entry : Type := list N * LifecycleCommand * bool.

Definition push_command (name : list N) (cmd : option LifecycleCommand) (should_run : bool) : list entry :=
  match cmd with Some cmd => [(name, cmd, should_run)] | None => [] end.

Definition sequence (config : LifecycleConfig) (st : pod_state) : list entry :=
  push_command ON_CREATE (on_create_command config) (negb (flag_exists (lit "on-create-ran") st)) ++
  push_command UPDATE_CONTENT (update_content_command config) true ++
  push_command POST_CREATE (post_create_command config) (negb (flag_exists (lit "post-create-ran") st)) ++
  push_command POST_START (post_start_command config) (negb (post_start_ran st)).

(** How the loop over the sequence ends: with a failed command or at its end, both of which
    give a response, with an error, or with a panic. *)
Inductive loop_end :=
| Complete (r : LifecycleResponse)
| FailedCommand (r : LifecycleResponse)
| LoopError (e : str)
| LoopPanic.

Definition start (name : list N) (st : pod_state) : pod_state := st <| started := started st ++ [name] |>.

Fixpoint run_loop (wait : WaitFor) (seq : list entry) (results : list LifecycleCommandResult)
    (background : list (list N)) (st : pod_state) : loop_end * pod_state :=
  match seq with
  | [] => (Complete (mkLifecycleResponse results background), st)
  | (name, cmd, should_run) :: seq =>
      if negb should_run then run_loop wait seq results background st
      else if is_foreground name wait then
        match run_lifecycle_command (started st) name cmd with
        | Returned result =>
            let st := mark_ran name (start name st) in
            match result with
            | Ok r =>
                if negb (bool_decide (cr_exit_code r = 0%Z)) then
                  (FailedCommand (mkLifecycleResponse (results ++ [r]) background), mark_ran_on_failure name st)
                else run_loop wait seq (results ++ [r]) background st
            | Err e => (LoopError e, st)
            end
        | _ => (LoopPanic, st)
        end
      else run_loop wait seq results (background ++ [name]) st
  end.

Definition find_command (seq : list entry) (name : list N) : option (list N * LifecycleCommand) :=
  (fun e => (e.1.1, e.1.2)) <$> List.find (fun e => bool_decide (e.1.1 = name) && e.2) seq.

(** [lifecycle::run]: what the call returns, the commands given to the background thread, and
    the state when it returns.  [dir_ok] says whether the flag directory can be created. *)
Definition lifecycle_run (config : LifecycleConfig) (dir_ok : bool) (st : pod_state)
    : run (result str LifecycleResponse) * list (list N * LifecycleCommand) * pod_state :=
  if negb dir_ok then (Returned (Err (lit "creating lifecycle flags directory")), [], st)
  else
    let seq := sequence config st in
    match run_loop (wait_for config) seq [] [] st with
    | (Complete r, st) => (Returned (Ok r), omap (find_command seq) (lr_background r), st)
    | (FailedCommand r, st) => (Returned (Ok r), [], st)
    | (LoopError e, st) => (Returned (Err e), [], st)
    | (LoopPanic, st) => (Panicked, [], st)
    end.

(** The background thread.  [stop] is the number of commands that complete before the container
    is stopped while the next one runs; [None] when it is not stopped. *)
Fixpoint run_background (bg_cmds : list (list N * LifecycleCommand)) (stop : option nat) (st : pod_state)
    : pod_state :=
  match bg_cmds with
  | [] => st
  | (name, cmd) :: bg_cmds =>
      match run_lifecycle_command (started st) name cmd with
      | Returned result =>
          let st := start name st in
          if bool_decide (stop = Some 0) then st
          else
            match result with
            | Ok _ => run_background bg_cmds (pred <$> stop) (mark_ran name st)
            | Err _ => st
            end
      | _ => st
      end
  end.

(** One start of the pod server in the container, and the starts of its whole life.  The flag
    of the server is new in each. *)
Record server_start := mkStart {
  s_config : LifecycleConfig;
  s_dir_ok : bool;
  s_stop : option nat;
}.

Definition serve (s : server_start) (st : pod_state) : pod_state :=
  let '(_, background, st) := lifecycle_run (s_config s) (s_dir_ok s) (st <| post_start_ran := false |>) in
  run_background background (s_stop s) st.

Definition container_life (starts : list server_start) (st : pod_state) : pod_state :=
  fold_left (fun st s => serve s st) starts st.
End Run.

Definition fresh_container : pod_state := mkPodState ∅ false [].

(** ** Lemmas *)

Section Frames.
  Variable creatable : list N -> bool.

Local Abbreviation mark := (mark_ran creatable).
Local Abbreviation mark_failure := (mark_ran_on_failure creatable).

Lemma set_flag_frame f st :
  flags st ⊆ flags (set_flag creatable f st) /\ started (set_flag creatable f st) = started st.
Proof. unfold set_flag. destruct (creatable f); cbn; split; try done. set_solver. Qed.

Lemma set_flag_elem f st : creatable f = true -> f ∈ flags (set_flag creatable f st).
Proof. intros H. unfold set_flag. rewrite H. cbn. set_solver. Qed.

Lemma mark_frame name st : flags st ⊆ flags (mark name st) /\ started (mark name st) = started st.
Proof. unfold mark_ran. repeat case_bool_decide; try done; apply set_flag_frame. Qed.

Lemma mark_failure_frame name st : flags st ⊆ flags (mark_failure name st) /\ started (mark_failure name st) = started st.
Proof.
  unfold mark_ran_on_failure. repeat case_bool_decide; try done; try apply set_flag_frame.
  destruct (set_flag_frame (lit "on-create-ran") st) as (Hf & Hs).
  destruct (set_flag_frame (lit "post-create-ran") (set_flag creatable (lit "on-create-ran") st)) as (Hf' & Hs').
  split; [set_solver|congruence].
Qed.

(** The flag file of a command that is run once per creation. *)
Definition flag_of (name : list N) : option (list N) :=
  if bool_decide (name = ON_CREATE) then Some (lit "on-create-ran")
  else if bool_decide (name = POST_CREATE) then Some (lit "post-create-ran")
  else None.

Definition flagged (st : pod_state) (name : list N) : Prop :=
  forall f, flag_of name = Some f -> creatable f = true -> f ∈ flags st.

Lemma mark_flagged name st : flagged (mark name st) name.
Proof.
  intros f. unfold flag_of, mark_ran. repeat case_bool_decide; intros [= <-]; apply set_flag_elem.
Qed.

(** What a run adds: the flags it keeps and the commands it starts. *)
Definition extends (st st' : pod_state) (names : list (list N)) : Prop :=
  flags st ⊆ flags st' /\ started st' = started st ++ names.

Lemma extends_refl st : extends st st [].
Proof. split; [done|by rewrite app_nil_r]. Qed.

Lemma extends_trans st st' st'' a b : extends st st' a -> extends st' st'' b -> extends st st'' (a ++ b).
Proof. intros [Hf Hs] [Hf' Hs']. split; [by transitivity (flags st')|]. by rewrite Hs', Hs, app_assoc. Qed.

Lemma extends_start name st : extends st (start name st) [name].
Proof. by split. Qed.

Lemma extends_mark name st : extends st (mark name (start name st)) [name].
Proof. destruct (mark_frame name (start name st)) as [Hf Hs]. split; [exact Hf|by rewrite Hs]. Qed.

Lemma extends_fail name st : extends st (mark_failure name (mark name (start name st))) [name].
Proof.
  destruct (extends_mark name st) as [Hf Hs]. destruct (mark_failure_frame name (mark name (start name st))) as [Hf' Hs'].
  split; [set_solver|congruence].
Qed.

Lemma flagged_mono st st' names name : extends st st' names -> flagged st name -> flagged st' name.
Proof. intros [Hf _] Hn f Hf' Hc. specialize (Hn f Hf' Hc). set_solver. Qed.

End Frames.

Definition due (wait : WaitFor) (foreground : bool) (seq : list entry) : list (list N) :=
  omap (fun e : entry => if e.2 && bool_decide (is_foreground e.1.1 wait = foreground) then Some e.1.1 else None) seq.

Definition succeeded (r : LifecycleCommandResult) : Prop := cr_exit_code r = 0%Z.

Section RunLemmas.
  Variable base64_encode : list N -> str.
  Variable exec : list (list N) -> str -> list str -> outcome.
  Variable creatable : list N -> bool.
  Variable iter : gmap (list N) StringOrArray -> list (list N * StringOrArray).

Local Abbreviation loop := (run_loop base64_encode exec creatable iter).
Local Abbreviation background_thread := (run_background base64_encode exec creatable iter).
Local Abbreviation mark := (mark_ran creatable).
Local Abbreviation mark_failure := (mark_ran_on_failure creatable).

(** The loop starts a prefix of the foreground commands that are due, in order, leaves the flag
    of each, and ends early only where a command fails. *)
Definition loop_spec (wait : WaitFor) (seq : list entry) (results : list LifecycleCommandResult)
    (background : list (list N)) (st : pod_state) (e : loop_end) (st' : pod_state)
    (names : list (list N)) : Prop :=
  extends st st' names /\ Forall (flagged creatable st') names /\
  match e with
  | Complete r => names = due wait true seq /\ lr_background r = background ++ due wait false seq /\
      exists rs, lr_results r = results ++ rs /\ length rs = length names /\ Forall succeeded rs
  | FailedCommand r =>
      exists pre name cmd post done_ rs f, seq = pre ++ (name, cmd, true) :: post /\ is_foreground name wait = true /\
        names = done_ ++ [name] /\ done_ = due wait true pre /\ lr_background r = background ++ due wait false pre /\
        lr_results r = results ++ rs ++ [f] /\ length rs = length done_ /\ Forall succeeded rs /\ ~ succeeded f /\
        exists st0, st' = mark_failure name st0
  | LoopError _ | LoopPanic => names `prefix_of` due wait true seq
  end.

Lemma run_loop_spec wait seq results background st :
  let '(e, st') := loop wait seq results background st in
  exists names, loop_spec wait seq results background st e st' names.
Proof.
  revert results background st. induction seq as [|[[name cmd] should_run] seq IH]; intros results background st.
  { exists []. split_and!; [apply extends_refl|constructor|done|by rewrite app_nil_r|].
    exists []. by rewrite app_nil_r. }
  cbn [run_loop]. destruct should_run; cbn [negb].
  2: { specialize (IH results background st). destruct (loop _ _ _ _ _) as [e st']. destruct IH as (names & He & Hf & IH).
       exists names. split_and!; [done..|]. destruct e; try done.
       destruct IH as (pre & n & c & post & d & rs & f & -> & ?). by exists ((name, cmd, false) :: pre), n, c, post, d, rs, f. }
  destruct (is_foreground name wait) eqn:Ef.
  - destruct (run_lifecycle_command _ _ _ _ _ _) as [result| |].
    2,3: exists []; split_and!; [apply extends_refl|constructor|apply prefix_nil].
    destruct result as [r|err]; [case_bool_decide as Hr; cbn [negb]|].
    + specialize (IH (results ++ [r]) background (mark name (start name st))).
      destruct (loop _ _ _ _ _) as [e st']. destruct IH as (names & He & Hf & IH).
      exists (name :: names). split_and!.
      * eapply (extends_trans _ _ _ [name]); [apply extends_mark|done].
      * constructor; [|done]. eapply flagged_mono; [exact He|apply mark_flagged].
      * destruct e as [r'|r'| |]; cbn [due omap list_omap fst snd andb]; rewrite ?Ef.
        -- destruct IH as (-> & -> & rs & -> & Hl & Hs). split_and!; [done..|]. exists (r :: rs).
           rewrite <- app_assoc. split_and!; [done|by cbn; f_equal|by constructor].
        -- destruct IH as (pre & n & c & post & d & rs & f & -> & Hfg & -> & -> & -> & -> & Hl & Hs & Hff & Hst).
           exists ((name, cmd, true) :: pre), n, c, post, (name :: due wait true pre), (r :: rs), f.
           cbn [due omap list_omap fst snd andb]. rewrite Ef. rewrite <- app_assoc. split_and!; try done.
           ++ by cbn; f_equal.
           ++ by constructor.
        -- rewrite bool_decide_true by done. by apply prefix_cons.
        -- rewrite bool_decide_true by done. by apply prefix_cons.
    + exists [name]. split_and!; [apply extends_fail| |].
      * constructor; [|constructor]. intros f Hf Hc.
        pose proof (mark_flagged creatable name (start name st) f Hf Hc) as Hin.
        destruct (mark_failure_frame creatable name (mark name (start name st))). set_solver.
      * exists [], name, cmd, seq, [], [], r. cbn. rewrite app_nil_r. split_and!; try done. by eexists.
    + exists [name]. split_and!; [apply extends_mark| |].
      * constructor; [apply mark_flagged|constructor].
      * cbn [due omap list_omap fst snd andb]. rewrite Ef, bool_decide_true by done. by apply prefix_cons, prefix_nil.
  - specialize (IH results (background ++ [name]) st). destruct (loop _ _ _ _ _) as [e st'].
    destruct IH as (names & He & Hf & IH). exists names. split_and!; [done..|].
    destruct e as [r'|r'| |]; cbn [due omap list_omap fst snd andb]; rewrite ?Ef; try done.
    + destruct IH as (-> & -> & Hrs). split_and!; [done| |done]. by rewrite <- app_assoc.
    + destruct IH as (pre & n & c & post & d & rs & f & -> & Hfg & -> & -> & -> & Hrs).
      exists ((name, cmd, true) :: pre), n, c, post, (due wait true pre), rs, f.
      cbn [due omap list_omap fst snd andb]. rewrite Ef. rewrite <- app_assoc. destruct_and! Hrs. by split_and!.
Qed.

End RunLemmas.

(** The commands of a sequence, by rank, and the order in which they appear. *)
Definition rank (name : list N) : nat :=
  if bool_decide (name = ON_CREATE) then 1
  else if bool_decide (name = UPDATE_CONTENT) then 2
  else if bool_decide (name = POST_CREATE) then 3
  else if bool_decide (name = POST_START) then 4
  else 0.

Definition entry_name (e : entry) : list N := e.1.1.

Lemma sequence_sorted config st :
  StronglySorted (fun a b => rank (entry_name a) < rank (entry_name b)) (sequence config st).
Proof.
  unfold sequence. destruct (on_create_command config), (update_content_command config),
    (post_create_command config), (post_start_command config); cbn;
    repeat constructor; vm_compute; lia.
Qed.

Lemma foreground_rank name wait : is_foreground name wait = bool_decide (rank name <= wait_rank wait).
Proof.
  unfold is_foreground, rank. repeat case_bool_decide; try done; simpl in *; lia.
Qed.

Lemma sequence_elem config st e :
  e ∈ sequence config st ->
  0 < rank (entry_name e) /\ (forall f, flag_of (entry_name e) = Some f -> e.2 = negb (flag_exists f st)).
Proof.
  unfold sequence. rewrite !elem_of_app.
  assert (forall n c b, e ∈ push_command n c b -> exists c', e = (n, c', b)) as Hp.
  { intros n [c|] b He; [|by apply not_elem_of_nil in He]. apply list_elem_of_singleton in He. by exists c. }
  intros [(c & ->)%Hp | [(c & ->)%Hp | [(c & ->)%Hp | (c & ->)%Hp]]].
  all: split; [vm_compute; lia|]; intros f; unfold flag_of, entry_name; cbn [fst snd];
    repeat (case_bool_decide as Hd; try (vm_compute in Hd; discriminate)); intros [= <-]; done.
Qed.

Lemma due_elem wait fg seq name :
  name ∈ due wait fg seq <-> exists e, e ∈ seq /\ entry_name e = name /\ e.2 = true /\ is_foreground name wait = fg.
Proof.
  unfold due. rewrite list_elem_of_omap. split.
  - intros (e & He & Hn). exists e. destruct e as [[n c] b]. cbn in *. destruct b; [|done]. cbn in Hn.
    case_bool_decide; [|done]. injection Hn as ->. done.
  - intros ([[n c] b] & He & <- & Hb & Hf). cbn in *. subst b. exists (n, c, true). split; [done|].
    cbn. by rewrite bool_decide_true.
Qed.

Lemma due_NoDup config st wait fg : NoDup (due wait fg (sequence config st)).
Proof.
  pose proof (sequence_sorted config st) as Hs. induction Hs as [|e seq Hs IH Hr]; [constructor|].
  cbn [due omap list_omap]. case_match eqn:E; [|exact IH]. constructor; [|exact IH].
  destruct (e.2 && _); [|done]. injection E as <-. intros (e' & He & Hn & _)%due_elem.
  rewrite Forall_forall in Hr. specialize (Hr e' He). unfold entry_name in *. rewrite Hn in Hr. lia.
Qed.

Lemma foreground_first config st pre e post wait :
  sequence config st = pre ++ e :: post -> is_foreground (entry_name e) wait = true -> due wait false pre = [].
Proof.
  intros Hs Hf. pose proof (sequence_sorted config st) as Ho. rewrite Hs in Ho.
  destruct (due wait false pre) as [|n l] eqn:E; [done|].
  assert (n ∈ due wait false pre) as Hn by (rewrite E; by left). apply due_elem in Hn as (e' & He & <- & _ & Hb).
  rewrite foreground_rank in Hf, Hb. apply bool_decide_eq_true in Hf. apply bool_decide_eq_false in Hb.
  apply StronglySorted_app in Ho as (Hc & _ & _). specialize (Hc e' e He ltac:(by left)). cbn in Hc. lia.
Qed.

Lemma find_due wait fg seq l : (forall n, n ∈ l -> n ∈ due wait fg seq) -> map fst (omap (find_command seq) l) = l.
Proof.
  induction l as [|n l IH]; intros Hl; [done|].
  assert (exists c, find_command seq n = Some (n, c)) as (c & E).
  { destruct (proj1 (due_elem _ _ _ _) (Hl n ltac:(by left))) as (e & He & Hn & Hb & _). unfold find_command.
    match goal with |- context [List.find ?p seq] => destruct (List.find p seq) as [e'|] eqn:Ef end.
    - apply List.find_some in Ef as [_ Hp]. apply andb_true_iff in Hp as [Hp%bool_decide_eq_true _].
      exists e'.1.2. cbn. by rewrite Hp.
    - exfalso. pose proof (List.find_none _ _ Ef e (proj1 (list_elem_of_In _ _) He)) as Hx. cbn in Hx.
      unfold entry_name in Hn. by rewrite bool_decide_true, Hb in Hx. }
  cbn [omap list_omap]. rewrite E. cbn. f_equal. apply IH. intros m Hm. apply Hl. by right.
Qed.

Section BackgroundLemmas.
  Variable base64_encode : list N -> str.
  Variable exec : list (list N) -> str -> list str -> outcome.
  Variable creatable : list N -> bool.
  Variable iter : gmap (list N) StringOrArray -> list (list N * StringOrArray).

Local Abbreviation background_thread := (run_background base64_encode exec creatable iter).
Local Abbreviation mark := (mark_ran creatable).

Lemma run_background_extends bg stop st : exists names, names `prefix_of` map fst bg /\
  extends st (background_thread bg stop st) names.
Proof.
  revert stop st. induction bg as [|[name cmd] bg IH]; intros stop st; cbn [run_background].
  { exists []. split; [done|apply extends_refl]. }
  destruct (run_lifecycle_command _ _ _ _ _ _) as [result| |];
    [|exists []; split; [apply prefix_nil|apply extends_refl]..].
  case_bool_decide.
  { exists [name]. split; [apply prefix_cons, prefix_nil|apply extends_start]. }
  destruct result as [r|err].
  - destruct (IH (pred <$> stop) (mark name (start name st))) as (names & Hp & He).
    exists (name :: names). split; [by apply prefix_cons|]. eapply (extends_trans _ _ _ [name]); [apply extends_mark|done].
  - exists [name]. split; [apply prefix_cons, prefix_nil|apply extends_start].
Qed.
End BackgroundLemmas.

(** ** Theorems *)

Definition occurrences (name : list N) (l : list (list N)) : nat := length (filter (fun n => n = name) l).

Lemma occurrences_app name a b : occurrences name (a ++ b) = occurrences name a + occurrences name b.
Proof. unfold occurrences. by rewrite filter_app, length_app. Qed.

Lemma occurrences_none name l : name ∉ l -> occurrences name l = 0.
Proof.
  induction l as [|n l IH]; intros Hn; [done|]. apply not_elem_of_cons in Hn as [Hne Hn]. unfold occurrences.
  rewrite filter_cons_False by (intros ->; done). by apply IH.
Qed.

Lemma occurrences_NoDup name l : NoDup l -> occurrences name l <= 1.
Proof.
  induction 1 as [|n l Hn Hd IH]; [by vm_compute; lia|]. unfold occurrences in *. destruct (decide (n = name)) as [->|Hne].
  - rewrite filter_cons_True by done. pose proof (occurrences_none name l Hn) as E. unfold occurrences in E. simpl. lia.
  - by rewrite filter_cons_False.
Qed.

Section LifecycleTheorems.
  Variable base64_encode : list N -> str.
  Variable exec : list (list N) -> str -> list str -> outcome.
  Variable creatable : list N -> bool.
  Variable iter : gmap (list N) StringOrArray -> list (list N * StringOrArray).

Local Abbreviation run_commands := (lifecycle_run base64_encode exec creatable iter).
Local Abbreviation serve_once := (serve base64_encode exec creatable iter).
Local Abbreviation life := (container_life base64_encode exec creatable iter).
Local Abbreviation background_thread := (run_background base64_encode exec creatable iter).

(** What one call starts, and what is left to the background thread. *)
Lemma lifecycle_run_starts config dir_ok st res bg st' :
  run_commands config dir_ok st = (res, bg, st') ->
  exists names, extends st st' names /\ Forall (flagged creatable st') names /\ NoDup names /\
    (forall n, n ∈ names -> n ∈ due (wait_for config) true (sequence config st)) /\
    (forall n, n ∈ map fst bg -> n ∈ due (wait_for config) false (sequence config st)).
Proof.
  unfold lifecycle_run. destruct dir_ok; cbn [negb].
  2: { intros [= _ <- <-]. exists []. split_and!; [apply extends_refl|constructor|constructor|set_solver|].
       intros n Hn. by apply not_elem_of_nil in Hn. }
  pose proof (run_loop_spec base64_encode exec creatable iter (wait_for config) (sequence config st) [] [] st) as Hl.
  destruct (run_loop _ _ _ _ _ _ _ _ _) as [e st1]. destruct Hl as (names & He & Hf & Hs).
  pose proof (due_NoDup config st (wait_for config) true) as Hd.
  assert (forall n, n ∈ map fst ([] : list (list N * LifecycleCommand)) ->
            n ∈ due (wait_for config) false (sequence config st)) as Hnone by (intros n Hn; by apply not_elem_of_nil in Hn).
  assert (names `prefix_of` due (wait_for config) true (sequence config st)) as Hp.
  { destruct e as [r|r| |]; try done.
    - by destruct Hs as (-> & _).
    - destruct Hs as (pre & n & c & post & d & rs & f & -> & Hfg & -> & -> & _). unfold due. rewrite omap_app.
      cbn [omap list_omap fst snd andb]. rewrite Hfg, bool_decide_true by done. by apply prefix_app, prefix_cons, prefix_nil. }
  assert (forall n, n ∈ names -> n ∈ due (wait_for config) true (sequence config st)) as Hin.
  { intros n Hn. destruct Hp as [k ->]. apply elem_of_app. by left. }
  assert (NoDup names) as Hnd. { destruct Hp as [k E]. rewrite E in Hd. by apply NoDup_app in Hd as [? _]. }
  destruct e as [r|r|err|]; intros [= _ <- <-]; exists names; split_and!; try done.
  destruct Hs as (_ & Hb & _). intros n. by rewrite Hb, (find_due (wait_for config) false).
Qed.

(** A command whose flag exists is never started again. *)
Lemma flag_blocks_serve s st name f :
  flag_of name = Some f -> f ∈ flags st ->
  exists names, extends st (serve_once s st) names /\ name ∉ names.
Proof.
  intros Hf Hin. unfold serve.
  destruct (run_commands (s_config s) (s_dir_ok s) (st <| post_start_ran := false |>)) as [[res bg] st1] eqn:Er.
  apply lifecycle_run_starts in Er as (names & He & _ & _ & Hn & Hb).
  destruct (run_background_extends base64_encode exec creatable iter bg (s_stop s) st1) as (names' & [k Hp] & He').
  assert (forall fg, name ∉ due (wait_for (s_config s)) fg (sequence (s_config s) (st <| post_start_ran := false |>))) as Hno.
  { intros fg (e & Hel & <- & Ht & _)%due_elem. apply sequence_elem in Hel as [_ Hel].
    rewrite (Hel f Hf) in Ht. unfold flag_exists in Ht. by rewrite bool_decide_true in Ht. }
  exists (names ++ names'). split; [exact (extends_trans st st1 _ _ _ He He')|].
  rewrite not_elem_of_app. split; [intros Hx; exact (Hno true (Hn _ Hx))|].
  intros Hx. apply (Hno false), Hb. rewrite Hp, elem_of_app. by left.
Qed.

Lemma flag_blocks_life starts st name f :
  flag_of name = Some f -> f ∈ flags st ->
  exists names, extends st (life starts st) names /\ name ∉ names.
Proof.
  intros Hf. revert st. induction starts as [|s starts IH]; intros st Hin.
  { exists []. split; [apply extends_refl|apply not_elem_of_nil]. }
  destruct (flag_blocks_serve s st name f Hf Hin) as (names & He & Hn).
  destruct (IH (serve_once s st)) as (names' & He' & Hn'); [destruct He; set_solver|].
  exists (names ++ names'). split; [exact (extends_trans _ _ _ _ _ He He')|]. by rewrite not_elem_of_app.
Qed.

Definition once (name f : list N) (st : pod_state) : Prop :=
  occurrences name (started st) <= 1 /\ (name ∈ started st -> f ∈ flags st).

Lemma once_serve s st name f :
  flag_of name = Some f -> creatable f = true -> is_foreground name (wait_for (s_config s)) = true ->
  once name f st -> once name f (serve_once s st).
Proof.
  intros Hf Hc Hfg [Hl Hi]. destruct (decide (name ∈ started st)) as [Hin|Hin].
  { destruct (flag_blocks_serve s st name f Hf (Hi Hin)) as (names & [Hfl Hs] & Hn). split; [|set_solver].
    rewrite Hs, occurrences_app, (occurrences_none name names Hn). lia. }
  unfold serve.
  destruct (run_commands (s_config s) (s_dir_ok s) (st <| post_start_ran := false |>)) as [[res bg] st1] eqn:Er.
  apply lifecycle_run_starts in Er as (names & He & Hm & Hd & Hn & Hb).
  destruct (run_background_extends base64_encode exec creatable iter bg (s_stop s) st1) as (names' & [k Hp] & [Hfl' Hs']).
  assert (name ∉ names') as Hno.
  { intros Hx. assert (name ∈ map fst bg) as Hy by (rewrite Hp, elem_of_app; by left).
    apply Hb, due_elem in Hy as (_ & _ & _ & _ & Hz). congruence. }
  destruct He as [Hfl Hs]. change (started (st <| post_start_ran := false |>)) with (started st) in Hs.
  split.
  - rewrite Hs', Hs, !occurrences_app, (occurrences_none name names' Hno), (occurrences_none _ _ Hin).
    pose proof (occurrences_NoDup name names Hd). lia.
  - rewrite Hs', Hs, !elem_of_app. intros [[Hx|Hx]|Hx]; [done| |done]. apply Hfl'.
    rewrite Forall_forall in Hm. exact (Hm name Hx f Hf Hc).
Qed.


(** [C32] The commands of one start run in the order of the specification.  The foreground
    commands that are due are started first to last, each one only after those before it
    succeeded; when all succeed, exactly the remaining due commands are handed to the background
    thread; when one fails, nothing is started after it and nothing is left to the background.
    The response has one result per command started. *)
Theorem lifecycle_order config st resp bg st' :
  run_commands config true st = (Returned (Ok resp), bg, st') ->
  exists names rest, due (wait_for config) true (sequence config st) = names ++ rest /\
    started st' = started st ++ names /\ length (lr_results resp) = length names /\
    lr_background resp = map fst bg /\
    ((Forall succeeded (lr_results resp) /\ rest = [] /\
      map fst bg = due (wait_for config) false (sequence config st)) \/
     (exists rs r, lr_results resp = rs ++ [r] /\ Forall succeeded rs /\ ~ succeeded r /\ bg = [])).
Proof.
  unfold lifecycle_run. cbn [negb].
  pose proof (run_loop_spec base64_encode exec creatable iter (wait_for config) (sequence config st) [] [] st) as Hl.
  destruct (run_loop _ _ _ _ _ _ _ _ _) as [e st1]. destruct Hl as (names & [_ Hst] & _ & Hs).
  destruct e as [r|r|err|]; intros [= <- <- <-].
  - destruct Hs as (-> & Hb & rs & Hr & Hlen & Hok). exists (due (wait_for config) true (sequence config st)), [].
    assert (map fst (omap (find_command (sequence config st)) (lr_background r)) = lr_background r) as Hm.
    { apply (find_due (wait_for config) false). intros n. by rewrite Hb. }
    rewrite app_nil_r, Hr, Hm, Hb. split_and!; try done. left. by split_and!.
  - destruct Hs as (pre & n & c & post & d & rs & f & Hseq & Hfg & -> & -> & Hb & Hr & Hlen & Hok & Hbad & _).
    assert (due (wait_for config) true (sequence config st) =
            due (wait_for config) true pre ++ n :: due (wait_for config) true post) as Hd.
    { rewrite Hseq. unfold due. rewrite omap_app. cbn [omap list_omap fst snd andb].
      by rewrite Hfg, bool_decide_true. }
    exists (due (wait_for config) true pre ++ [n]), (due (wait_for config) true post).
    rewrite <- app_assoc, Hr, Hb, !length_app, Hlen. split_and!; try done.
    + cbn. by rewrite (foreground_first config st pre (n, c, true) post (wait_for config) Hseq Hfg).
    + right. by exists rs, f.
Qed.

(** A failure during creation is final.  When a start stops at a failed [onCreateCommand],
    [updateContentCommand] or [postCreateCommand], no later start of the container runs
    [postCreateCommand], and none runs [onCreateCommand] if that was the one that failed. *)
Theorem failed_creation_final config st resp bg st' failed r starts :
  run_commands config true st = (Returned (Ok resp), bg, st') ->
  last (lr_results resp) = Some r -> ~ succeeded r -> last (started st') = Some failed ->
  failed <> POST_START -> creatable (lit "post-create-ran") = true -> creatable (lit "on-create-ran") = true ->
  exists later, started (life starts st') = started st' ++ later /\ POST_CREATE ∉ later /\
    (failed = ON_CREATE -> ON_CREATE ∉ later).
Proof.
  unfold lifecycle_run. cbn [negb].
  pose proof (run_loop_spec base64_encode exec creatable iter (wait_for config) (sequence config st) [] [] st) as Hl.
  destruct (run_loop _ _ _ _ _ _ _ _ _) as [e st1]. destruct Hl as (names & [_ Hst] & Hfl & Hs).
  destruct e as [r'|r'|err|]; intros [= <- <- <-] Hlast Hbad Hfail Hps Hc Hc'.
  - destruct Hs as (_ & _ & rs & Hr & _ & Hok). cbn in Hr. rewrite Hr in Hlast.
    destruct rs as [|x rs _] using rev_ind; [done|]. rewrite last_snoc in Hlast. injection Hlast as ->.
    apply Forall_app in Hok as [_ Hok]. by apply Forall_cons in Hok as [? _].
  - destruct Hs as (pre & n & c & post & d & rs & f & Hseq & Hfg & -> & _ & _ & _ & _ & _ & _ & st0 & Hst0).
    rewrite Hst, app_assoc, last_snoc in Hfail. injection Hfail as ->.
    assert ((failed, c, true) ∈ sequence config st) as Hel by (rewrite Hseq, elem_of_app; right; by left).
    apply sequence_elem in Hel as [Hrank _]. unfold entry_name in Hrank. cbn in Hrank.
    assert (lit "post-create-ran" ∈ flags st1) as Hpc.
    { rewrite Hst0. unfold mark_ran_on_failure. unfold rank in Hrank.
      repeat case_bool_decide; try (by apply set_flag_elem); try done; lia. }
    destruct (flag_blocks_life starts st1 POST_CREATE _ eq_refl Hpc) as (later & [_ Hs] & Hno).
    exists later. split_and!; [done..|]. intros ->.
    apply Forall_app in Hfl as [_ Hfl]. apply Forall_cons in Hfl as [Hfl _].
    destruct (flag_blocks_life starts st1 ON_CREATE _ eq_refl (Hfl _ eq_refl Hc')) as (later' & [_ Hs'] & Hno').
    rewrite Hs in Hs'. by apply app_inv_head in Hs' as <-.
Qed.
End LifecycleTheorems.

(** ** Witnesses *)

Module LifecycleExample.
Definition config (wait : WaitFor) : LifecycleConfig :=
  mkLifecycle (Some (LCString (lit "make setup"))) (Some (LCArray [lit "git"; lit "pull"]))
    (Some (LCString (lit "make test"))) (Some (LCString (lit "make serve"))) None wait.

(** Every command succeeds, except that [update] decides the content update. *)
Definition exec (update : Z) (before : list (list N)) (name : str) (args : list str) : outcome :=
  Exited (Some (if bool_decide (name = UPDATE_CONTENT) then update else 0%Z)) (lit "text").

Definition no_encoding (bs : list N) : str := bs.
Definition all_creatable (f : list N) : bool := true.
Definition in_order (m : gmap (list N) StringOrArray) : list (list N * StringOrArray) := map_to_list m.
End LifecycleExample.

Import LifecycleExample.


Lemma lifecycle_order_witness :
  exists names rest, due UpdateContentCommand true (sequence (config UpdateContentCommand) fresh_container) = names ++ rest /\
    names = [ON_CREATE; UPDATE_CONTENT].
Proof.
  destruct (lifecycle_run no_encoding (exec 0) all_creatable in_order (config UpdateContentCommand) true fresh_container)
    as [[res bg] st'] eqn:E.
  assert (exists resp, res = Returned (Ok resp)) as [resp ->].
  { vm_compute in E. injection E as <- _ _. eexists. reflexivity. }
  destruct (lifecycle_order no_encoding (exec 0) all_creatable in_order (config UpdateContentCommand) fresh_container
              resp bg st' E) as (names & rest & Hd & Hs & _).
  exists names, rest. split; [exact Hd|]. vm_compute in E. injection E as _ _ <-. exact (eq_sym Hs).
Defined.

Lemma failed_creation_final_witness :
  exists st' later, started (container_life no_encoding (exec 1) all_creatable in_order
      [mkStart (config PostStartCommand) true None] st') = started st' ++ later /\ POST_CREATE ∉ later.
Proof.
  destruct (lifecycle_run no_encoding (exec 1) all_creatable in_order (config PostStartCommand) true fresh_container)
    as [[res bg] st'] eqn:E.
  assert (exists resp, res = Returned (Ok resp)) as [resp ->].
  { vm_compute in E. injection E as <- _ _. eexists. reflexivity. }
  exists st'.
  destruct (failed_creation_final no_encoding (exec 1) all_creatable in_order (config PostStartCommand) fresh_container
              resp bg st' UPDATE_CONTENT (mkCommandResult UPDATE_CONTENT 1 (lit "text"))
              [mkStart (config PostStartCommand) true None] E) as (later & Hs & Hn & _).
  - vm_compute in E. injection E as <- _ _. reflexivity.
  - discriminate.
  - vm_compute in E. injection E as _ _ <-. reflexivity.
  - vm_compute. discriminate.
  - reflexivity.
  - reflexivity.
  - exists later. split; [exact Hs|exact Hn].
Defined.
