(* ===== verification/PodEvents.v ===== *)
(** * Agent states and the event stream of the pod server

    The hooks of Claude Code report to the pod server, which keeps one record per session and
    summarizes them (pod/claude.rs); the state of the setup task and of the agents is streamed
    to the daemon (the [/events] endpoint of pod/server.rs), which waits for a greeting
    ([read_greeting] of pod/client.rs) and then follows the state changes (Conns). *)
From stdpp Require Import gmap.
From S2P Require Import Prelude Strs PodConn Json Conns Hooks Sse.

(** ** Sessions of Claude Code (pod/claude.rs) *)

Inductive ClaudeHookEvent :=
| SessionStart | UserPromptSubmit | Stop | StopFailure | SessionEnd
| SubagentStart (agent_id : list N)
| SubagentStop (agent_id : list N).

Record Session := mkSession {
  main : ClaudeState;
  subagents : gset (list N);
}.

Abbreviation ClaudeSessions := (gmap (list N) Session).

Definition new_session : Session := mkSession WaitingForInput ∅.

Definition session_update (event : ClaudeHookEvent) (session : Session) : Session :=
  if negb (bool_decide (main session = ClaudeStopped)) || match event with SessionStart => true | _ => false end then
    match event with
    | SessionStart => mkSession WaitingForInput ∅
    | UserPromptSubmit => mkSession ClaudeProcessing (subagents session)
    | Stop => mkSession WaitingForInput (subagents session)
    | StopFailure => mkSession AuthError (subagents session)
    | SessionEnd => mkSession ClaudeStopped ∅
    | SubagentStart agent_id => mkSession (main session) ({[agent_id]} ∪ subagents session)
    | SubagentStop agent_id => mkSession (main session) (subagents session ∖ {[agent_id]})
    end
  else session.

(** The loop over the values of the hash map, in the order in which it yields them. *)
Fixpoint summarize (values : list Session) (result : ClaudeState) : ClaudeState :=
  match values with
  | [] => result
  | session :: values =>
      if negb (bool_decide (subagents session = ∅)) then ClaudeProcessing
      else
        match main session with
        | ClaudeProcessing => ClaudeProcessing
        | AuthError => summarize values AuthError
        | WaitingForInput => summarize values (if bool_decide (result = AuthError) then result else WaitingForInput)
        | ClaudeStopped => summarize values result
        end
  end.

Definition update_sessions (session_id : list N) (event : ClaudeHookEvent) (sessions : ClaudeSessions) : ClaudeSessions :=
  <[session_id := session_update event (default new_session (sessions !! session_id))]> sessions.

(** [ClaudeSessions::update], for an enumeration [values] of the updated map. *)
Definition update (values : ClaudeSessions -> list Session) (session_id : list N) (event : ClaudeHookEvent)
    (sessions : ClaudeSessions) : ClaudeSessions * ClaudeState :=
  let sessions := update_sessions session_id event sessions in
  (sessions, summarize (values sessions) ClaudeStopped).

(** *** What the summary promises *)

(** A session counts as working when its main agent is or any subagent is. *)
Definition working (s : Session) : Prop := main s = ClaudeProcessing \/ subagents s <> ∅.

#[export] Instance working_dec s : Decision (working s).
Proof. unfold working. apply _. Defined.

(** The most urgent state of a set of sessions: work in progress, then a failed login, then a
    session that waits for the user. *)
Definition overall (ss : list Session) : ClaudeState :=
  if bool_decide (Exists working ss) then ClaudeProcessing
  else if bool_decide (Exists (fun s => main s = AuthError) ss) then AuthError
  else if bool_decide (Exists (fun s => main s = WaitingForInput) ss) then WaitingForInput
  else ClaudeStopped.

(** The record of one session from the events that name it, in order. *)
Definition replay (events : list ClaudeHookEvent) : option Session :=
  match events with [] => None | _ => Some (fold_left (fun s e => session_update e s) events new_session) end.

Definition run_requests (requests : list (list N * ClaudeHookEvent)) : ClaudeSessions :=
  fold_left (fun ss r => update_sessions r.1 r.2 ss) requests ∅.

Definition events_of (id : list N) (requests : list (list N * ClaudeHookEvent)) : list ClaudeHookEvent :=
  omap (fun r => if bool_decide (r.1 = id) then Some r.2 else None) requests.

Definition urgency (c : ClaudeState) : nat :=
  match c with ClaudeStopped => 0 | WaitingForInput => 1 | AuthError => 2 | ClaudeProcessing => 3 end.

Lemma overall_cons s ss : overall (s :: ss) =
  if bool_decide (working s) || bool_decide (Exists working ss) then ClaudeProcessing
  else if bool_decide (main s = AuthError) || bool_decide (Exists (fun s => main s = AuthError) ss) then AuthError
  else if bool_decide (main s = WaitingForInput) || bool_decide (Exists (fun s => main s = WaitingForInput) ss)
  then WaitingForInput else ClaudeStopped.
Proof.
  unfold overall. rewrite <- !bool_decide_or.
  repeat (erewrite (bool_decide_ext (Exists _ (s :: ss))) by apply Exists_cons). done.
Qed.

Definition level (s : Session) : nat := if bool_decide (working s) then 3 else urgency (main s).

Lemma urgency_inj c c' : urgency c = urgency c' -> c = c'.
Proof. by destruct c, c'. Qed.

Lemma overall_level s ss : urgency (overall (s :: ss)) = Nat.max (level s) (urgency (overall ss)).
Proof.
  rewrite overall_cons. unfold overall, level.
  generalize (bool_decide (Exists working ss)) as b1.
  generalize (bool_decide (Exists (fun s => main s = AuthError) ss)) as b2.
  generalize (bool_decide (Exists (fun s => main s = WaitingForInput) ss)) as b3.
  intros b3 b2 b1. case_bool_decide as Hw; [by destruct b1, b2, b3|].
  assert (main s <> ClaudeProcessing) as Hm by (intros E; apply Hw; by left).
  destruct (main s); try done; by destruct b1, b2, b3.
Qed.

Lemma summarize_urgency ss r : r <> ClaudeProcessing ->
  urgency (summarize ss r) = Nat.max (urgency r) (urgency (overall ss)).
Proof.
  revert r. induction ss as [|s ss IH]; intros r Hr; [by destruct r|].
  assert (urgency (overall ss) <= 3) as Hb by (by destruct (overall ss); simpl; lia).
  rewrite overall_level. cbn [summarize]. case_bool_decide as Hs; cbn [negb].
  - assert (level s = urgency (main s)) as ->.
    { unfold level, working. case_bool_decide as Hw; [|done]. by destruct Hw as [->|]. }
    destruct (main s); rewrite ?IH by (try case_bool_decide; done); destruct r; repeat case_bool_decide; try done; simpl; lia.
  - assert (level s = 3) as -> by (unfold level; by rewrite bool_decide_true by (by right)).
    destruct r; simpl; lia.
Qed.

Lemma summarize_overall ss : summarize ss ClaudeStopped = overall ss.
Proof. apply urgency_inj. by rewrite summarize_urgency. Qed.

Lemma overall_perm ss ss' : ss ≡ₚ ss' -> overall ss = overall ss'.
Proof.
  intros Hp. unfold overall.
  assert (forall P : Session -> Prop, Exists P ss <-> Exists P ss') as He by (intros P; by rewrite Hp).
  repeat (erewrite (bool_decide_ext (Exists _ ss)) by apply He). done.
Qed.

Lemma fold_left_snoc {A B} (f : A -> B -> A) l x a : fold_left f (l ++ [x]) a = f (fold_left f l a) x.
Proof. by rewrite fold_left_app. Qed.

Lemma run_requests_lookup requests id : run_requests requests !! id = replay (events_of id requests).
Proof.
  induction requests as [|[id' e] requests IH] using rev_ind; [done|].
  unfold run_requests, events_of in *. rewrite fold_left_snoc, omap_app. unfold update_sessions at 1.
  cbn [omap list_omap fst snd]. destruct (decide (id' = id)) as [->|Hne].
  - rewrite lookup_insert_eq, IH, bool_decide_true by done. unfold replay.
    destruct (omap _ requests) as [|e0 es] eqn:E; [done|]. change ((e0 :: es) ++ [e]) with (e0 :: (es ++ [e])).
    f_equal. cbn [default from_option Datatypes.id]. symmetry. exact (fold_left_snoc _ (e0 :: es) e new_session).
  - rewrite lookup_insert_ne by done. rewrite bool_decide_false by done. by rewrite app_nil_r.
Qed.

(** [C29] The state the pod reports for Claude Code.  After any sequence of hook reports, each
    session is in the state its own reports put it in, whatever other sessions did in between,
    and the reported state is the most urgent one over all sessions and subagents; it does not
    depend on the order in which the hash map is iterated. *)
Theorem claude_state_spec requests id event values :
  (forall ss, values ss ≡ₚ map snd (map_to_list ss)) ->
  let '(sessions, reported) := update values id event (run_requests requests) in
  (forall i, sessions !! i = replay (events_of i (requests ++ [(id, event)]))) /\
  reported = overall (map snd (map_to_list sessions)).
Proof.
  intros Hv. unfold update. split.
  - intros i. rewrite <- run_requests_lookup. unfold run_requests. by rewrite fold_left_snoc.
  - rewrite summarize_overall. apply overall_perm, Hv.
Qed.

Definition ended : Session := mkSession ClaudeStopped ∅.

Lemma ended_absorbs e : e <> SessionStart -> session_update e ended = ended.
Proof. by destruct e. Qed.

Lemma stopped_is_ended events :
  main (fold_left (fun s e => session_update e s) events new_session) = ClaudeStopped ->
  fold_left (fun s e => session_update e s) events new_session = ended.
Proof.
  induction events as [|e events IH] using rev_ind; [done|]. rewrite fold_left_snoc.
  generalize dependent (fold_left (fun s e => session_update e s) events new_session). intros s IH Hm.
  unfold session_update in *. case_bool_decide as Hs; cbn [negb orb] in *.
  - destruct e; cbn in *; try done; by apply IH.
  - destruct e; cbn in *; try done.
Qed.

(** A session that has ended stays ended: whatever hooks of it arrive late, it contributes
    nothing to the reported state until a new [SessionStart]. *)
Theorem ended_session_stays_ended before late :
  SessionStart ∉ late -> replay (before ++ [SessionEnd] ++ late) = Some ended.
Proof.
  intros Hl. unfold replay. destruct (before ++ [SessionEnd] ++ late) as [|e es] eqn:E; [by destruct before|].
  rewrite <- E, !fold_left_app. f_equal. cbn [fold_left].
  pose proof (stopped_is_ended (before ++ [SessionEnd])) as Hb. rewrite fold_left_snoc in Hb. rewrite Hb.
  - clear E e es. induction late as [|e late IH]; [done|]. apply not_elem_of_cons in Hl as [Hne Hl].
    cbn [fold_left]. rewrite ended_absorbs by done. by apply IH.
  - unfold session_update. case_bool_decide; [|done]. by cbn [negb orb].
Qed.

(** ** The event stream (pod/server.rs) *)

Section Events.
  Context `{Serde json}.

Definition greeting_json (claude_state : option ClaudeState) (codex_state : option CodexState)
    (lifecycle_error : option str) : str :=
  to_string (JObject
    ([(lit "claude_state", encode_option encode_claude claude_state);
      (lit "codex_state", encode_option encode_codex codex_state)] ++
     match lifecycle_error with Some err => [(lit "lifecycle_error", JString err)] | None => [] end)).

(** What the [select!] of the setup loop yields: the watch of [setup_done], its sender gone, a
    progress message, a failed receive of one (the receiver lagged or the sender is gone), or
    the keepalive timer. *)
Inductive setup_event :=
| SetupChanged (done_ : bool)
| SetupGone
| ProgressMessage (msg : str)
| ProgressFailed
| KeepaliveTick.

(** The messages until the setup loop breaks; [None] if it has not. *)
Fixpoint setup_loop (evs : list setup_event) : list str * option (list setup_event) :=
  match evs with
  | [] => ([], None)
  | SetupChanged true :: evs | SetupGone :: evs | ProgressFailed :: evs => ([], Some evs)
  | SetupChanged false :: evs => setup_loop evs
  | ProgressMessage msg :: evs =>
      let '(out, rest) := setup_loop evs in (sse_event (lit "progress") msg :: out, rest)
  | KeepaliveTick :: evs =>
      let '(out, rest) := setup_loop evs in (sse_event (lit "keepalive") (lit "{}") :: out, rest)
  end.

Record server_state := mkServerState {
  sv_claude_state : option ClaudeState;
  sv_codex_state : option CodexState;
  sv_lifecycle_error : option str;
}.

(** The first task of [events_handler]: its messages and the state it leaves.  [ticks] counts
    the keepalives after the greeting; the state is the one at the time of the greeting. *)
Definition events_task (evs : list setup_event) (ticks : nat) (st : server_state) : list str * server_state :=
  match setup_loop evs with
  | (out, None) => (out, st)
  | (out, Some _) =>
      (out ++ [sse_event (lit "state") (greeting_json (sv_claude_state st) (sv_codex_state st) (sv_lifecycle_error st))] ++
         replicate ticks (sse_event (lit "keepalive") (lit "{}")),
       mkServerState (sv_claude_state st) (sv_codex_state st) None)
  end.

(** A change of an agent's state, and the message of the task that forwards it. *)
Inductive state_change := ClaudeChanged (val : option ClaudeState) | CodexChanged (val : option CodexState).

Definition change_event (ch : state_change) : str * str :=
  match ch with
  | ClaudeChanged val => (lit "claude_state", to_string (encode_option encode_claude val))
  | CodexChanged val => (lit "codex_state", to_string (encode_option encode_codex val))
  end.

Definition change_message (ch : state_change) : str := let '(t, d) := change_event ch in sse_event t d.

(** ** The reader (pod/client.rs) *)

(** The lines [read_line] returns, without the newline that ends each and that every use of them
    trims; a stream that ends in a newline has no further line. *)
Fixpoint drop_last_empty (ws : list str) : list str :=
  match ws with
  | [] => []
  | [w] => if bool_decide (w = []) then [] else [w]
  | w :: ws => w :: drop_last_empty ws
  end.

Definition stream_lines (body : str) : list str := drop_last_empty (split c_nl body).

Definition value_str (j : json) : option str := match j with JString s => Some s | _ => None end.

(** [read_greeting]: what is passed to [on_progress], and the result.  A [read_line] at the end
    of the stream leaves the line empty. *)
Fixpoint read_greeting (ls : list str) : list str * result str (option str) :=
  match ls with
  | [] => ([], Err (lit "event stream closed before state event"))
  | line :: ls =>
      if bool_decide (trim line = lit "event: state") then
        ([],
         match strip_prefix (lit "data: ") (trim (default [] (head ls))) with
         | None => Err (lit "malformed state event")
         | Some json_str =>
             match from_str json_str with
             | Err e => Err (lit "parsing state event: " ++ e)
             | Ok obj => Ok (json_get (lit "lifecycle_error") obj ≫= value_str)
             end
         end)
      else if bool_decide (trim line = lit "event: progress") then
        match ls with
        | data_line :: _ :: ls =>
            let '(shown, r) := read_greeting ls in
            (match strip_prefix (lit "data: ") (trim data_line) with
             | Some msg => msg :: shown
             | None => shown
             end, r)
        | [data_line] =>
            (option_list (strip_prefix (lit "data: ") (trim data_line)),
             Err (lit "event stream closed before state event"))
        | [] => ([], Err (lit "event stream closed before state event"))
        end
      else read_greeting ls
  end.

(** The wait for the greeting in [pod_connection.rs], up to the data line it parses. *)
Fixpoint wait_for_greeting (ls : list str) : option str :=
  match ls with
  | [] => None
  | line :: ls => if bool_decide (trim line = lit "event: state") then Some (default [] (head ls)) else wait_for_greeting ls
  end.
End Events.

(** ** From the pod to the daemon *)

(** Compact JSON text is not empty and does not end in white space. *)
Class JsonText `{SerdeLaws json} : Prop := {
  json_text_end j : exists r x, to_string j = r ++ [x] /\ is_whitespace x = false;
}.

Lemma stream_lines_cons l s : c_nl ∉ l -> stream_lines (l ++ [c_nl] ++ s) = l :: stream_lines s.
Proof.
  intros Hl. unfold stream_lines. simpl ([c_nl] ++ _). rewrite split_cons_sep by done.
  destruct (split c_nl s) as [|w ws] eqn:E; [by apply split_nonempty in E|done].
Qed.

Lemma stream_lines_unlines ls s : Forall (fun l => c_nl ∉ l) ls -> stream_lines (unlines ls ++ s) = ls ++ stream_lines s.
Proof.
  induction 1 as [|l ls Hl _ IH]; [done|]. rewrite unlines_cons, <- !app_assoc, stream_lines_cons by done.
  by rewrite IH.
Qed.

Lemma plain_no_nl s : plain s -> c_nl ∉ s.
Proof. intros Hp Hin. by pose proof (proj1 (Forall_forall _ _) Hp _ Hin). Qed.

Lemma stream_lines_event t d s : plain t -> plain d ->
  stream_lines (sse_event t d ++ s) = [lit "event: " ++ t; lit "data: " ++ d; []] ++ stream_lines s.
Proof.
  intros Ht Hd. rewrite sse_event_unlines. apply stream_lines_unlines.
  repeat constructor; try (apply not_elem_of_nil); apply plain_no_nl, plain_app; try done; decide_now.
Qed.

(** What is sent in front of the greeting. *)
Inductive note := NProgress (msg : str) | NKeepalive | NChange (ch : state_change).

(** Two tasks write to the same channel. *)
Inductive merge {A} : list A -> list A -> list A -> Prop :=
| merge_nil : merge [] [] []
| merge_left x a b l : merge a b l -> merge (x :: a) b (x :: l)
| merge_right x a b l : merge a b l -> merge a (x :: b) (x :: l).

Section Delivery.
  Context `{JT : JsonText}.

Definition note_event (n : note) : str * str :=
  match n with
  | NProgress msg => (lit "progress", msg)
  | NKeepalive => (lit "keepalive", lit "{}")
  | NChange ch => change_event ch
  end.

Definition note_message (n : note) : str := uncurry sse_event (note_event n).

Definition plain_note (n : note) : Prop := match n with NProgress msg => plain msg | _ => True end.

Lemma note_event_plain n : plain_note n -> plain_event (note_event n).
Proof. destruct n as [msg| |[]]; intros Hp; split; cbn; try done; try decide_now; apply to_string_plain. Qed.

(** What the client shows for a note: the text of a progress message, trimmed at its end. *)
Definition note_shown (n : note) : option str :=
  match n with NProgress msg => strip_prefix (lit "data: ") (trim (lit "data: " ++ msg)) | _ => None end.

Lemma trim_data j : trim (lit "data: " ++ to_string j) = lit "data: " ++ to_string j.
Proof.
  destruct (json_text_end j) as (r & x & E & Hx). apply trim_id.
  - intros y s Hs. change (lit "data: ") with (100%N :: lit "ata: ") in Hs. injection Hs as <- _. reflexivity.
  - intros y s Hs. rewrite E, app_assoc in Hs. by apply app_inj_tail in Hs as [_ <-].
Qed.

Lemma trim_data_not_event j t : trim (lit "data: " ++ to_string j) <> lit "event: " ++ t.
Proof. rewrite trim_data. by change (lit "data: ") with (100%N :: lit "ata: "). Qed.

Lemma read_greeting_note n ls : plain_note n ->
  read_greeting ([lit "event: " ++ (note_event n).1; lit "data: " ++ (note_event n).2; []] ++ ls) =
  (option_list (note_shown n) ++ (read_greeting ls).1, (read_greeting ls).2).
Proof.
  intros Hp. destruct n as [msg| |ch]; cbn [note_event fst snd app].
  - cbn [read_greeting]. rewrite bool_decide_false by (by vm_compute). rewrite bool_decide_true by (by vm_compute).
    unfold note_shown. destruct (read_greeting ls) as [shown r]. by destruct (strip_prefix _ _).
  - cbn [read_greeting]. rewrite !bool_decide_false by (by vm_compute). by destruct (read_greeting ls).
  - destruct ch as [val|val]; cbn [change_event fst snd read_greeting];
      rewrite (bool_decide_false (trim (lit "event: " ++ _) = _)) by (by vm_compute);
      rewrite (bool_decide_false (trim (lit "event: " ++ _) = _)) by (by vm_compute);
      rewrite (bool_decide_false (trim (lit "data: " ++ _) = _)) by apply (trim_data_not_event _ (lit "state"));
      rewrite (bool_decide_false (trim (lit "data: " ++ _) = _)) by apply (trim_data_not_event _ (lit "progress"));
      rewrite !bool_decide_false by (by vm_compute); by destruct (read_greeting ls).
Qed.

Lemma read_greeting_notes ns s : Forall plain_note ns ->
  read_greeting (stream_lines (mjoin (map note_message ns) ++ s)) =
  (omap note_shown ns ++ (read_greeting (stream_lines s)).1, (read_greeting (stream_lines s)).2).
Proof.
  induction 1 as [|n ns Hn _ IH]; [by destruct (read_greeting _)|].
  cbn [map]. change (mjoin (?a :: ?b)) with (a ++ mjoin b). rewrite <- app_assoc.
  destruct (note_event_plain n Hn) as [Ht Hd]. unfold note_message at 1.
  destruct (note_event n) as [t d] eqn:E. cbn [uncurry fst snd] in *. rewrite stream_lines_event by done.
  pose proof (read_greeting_note n (stream_lines (mjoin (map note_message ns) ++ s)) Hn) as Hr.
  rewrite E in Hr. cbn [fst snd] in Hr. rewrite Hr, IH. cbn [fst snd omap list_omap].
  by destruct (note_shown n).
Qed.

Lemma greeting_plain cl cx err : plain (greeting_json cl cx err).
Proof. apply to_string_plain. Qed.

Lemma read_state_event j s :
  read_greeting (stream_lines (sse_event (lit "state") (to_string j) ++ s)) =
  ([], Ok (json_get (lit "lifecycle_error") j ≫= value_str)).
Proof.
  rewrite stream_lines_event by (try apply to_string_plain; decide_now).
  cbn [app read_greeting head default from_option Datatypes.id]. rewrite bool_decide_true by (by vm_compute).
  by rewrite trim_data, strip_prefix_app, from_str_to_string.
Qed.

Lemma greeting_error cl cx err :
  json_get (lit "lifecycle_error")
    (JObject ([(lit "claude_state", encode_option encode_claude cl); (lit "codex_state", encode_option encode_codex cx)] ++
      match err with Some err => [(lit "lifecycle_error", JString err)] | None => [] end)) ≫= value_str = err.
Proof. by destruct err. Qed.

(** The notes of the setup loop. *)
Fixpoint setup_notes (evs : list setup_event) : list note :=
  match evs with
  | [] | SetupChanged true :: _ | SetupGone :: _ | ProgressFailed :: _ => []
  | SetupChanged false :: evs => setup_notes evs
  | ProgressMessage msg :: evs => NProgress msg :: setup_notes evs
  | KeepaliveTick :: evs => NKeepalive :: setup_notes evs
  end.

Lemma setup_loop_notes evs : (setup_loop evs).1 = map note_message (setup_notes evs).
Proof.
  induction evs as [|[[]| |msg| |] evs IH]; try done; cbn [setup_loop setup_notes map];
    destruct (setup_loop evs) as [out rest]; cbn in IH |- *; by rewrite IH.
Qed.

Lemma merge_map {A B} (f : A -> B) a b l : merge (map f a) (map f b) l -> exists l', l = map f l' /\ merge a b l'.
Proof.
  remember (map f a) as fa eqn:Ea. remember (map f b) as fb eqn:Eb. intros Hm. revert a b Ea Eb.
  induction Hm as [|x fa fb l Hm IH|x fa fb l Hm IH]; intros a b Ea Eb.
  - destruct a, b; try done. exists []. split; [done|constructor].
  - destruct a as [|y a]; [done|]. injection Ea as -> ->. destruct (IH a b eq_refl Eb) as (l' & -> & Hm').
    exists (y :: l'). split; [done|by constructor].
  - destruct b as [|y b]; [done|]. injection Eb as -> ->. destruct (IH a b Ea eq_refl) as (l' & -> & Hm').
    exists (y :: l'). split; [done|by constructor].
Qed.

Lemma merge_Forall {A} (P : A -> Prop) a b l : merge a b l -> Forall P a -> Forall P b -> Forall P l.
Proof.
  induction 1 as [|x a b l Hm IH|x a b l Hm IH]; intros Ha Hb; [done|..].
  - apply Forall_cons in Ha as [? ?]. constructor; auto.
  - apply Forall_cons in Hb as [? ?]. constructor; auto.
Qed.

Lemma merge_shown a b l : merge a b l -> omap note_shown b = [] -> omap note_shown l = omap note_shown a.
Proof.
  induction 1 as [|x a b l Hm IH|x a b l Hm IH]; intros Hb; [done|..]; cbn [omap list_omap] in *.
  - rewrite IH by done. done.
  - destruct (note_shown x); [done|]. by apply IH.
Qed.


(** A progress message with line breaks can stand in for the greeting.  The text of a
    message is sent without encoding, and the message of a failed lifecycle command ends in what
    the command wrote to stderr: a line [event: state] in it is taken for the greeting, and the
    client returns what the forged data says, whatever the server reports afterwards; the daemon
    accepts the same line. *)
Theorem progress_can_forge_greeting ns a b j rest :
  Forall plain_note ns -> plain a -> plain b -> trim b <> lit "event: state" -> trim (lit "data: " ++ a) <> lit "event: state" ->
  let msg := a ++ [c_nl] ++ b ++ [c_nl] ++ lit "event: state" ++ [c_nl] ++ lit "data: " ++ to_string j in
  let body := mjoin (map note_message ns) ++ sse_event (lit "progress") msg ++ rest in
  (read_greeting (stream_lines body)).2 = Ok (json_get (lit "lifecycle_error") j ≫= value_str) /\
  wait_for_greeting (stream_lines (sse_event (lit "progress") msg ++ rest)) = Some (lit "data: " ++ to_string j).
Proof.
  intros Hns Ha Hb Hb' Ha' msg body.
  assert (sse_event (lit "progress") msg =
          unlines [lit "event: progress"; lit "data: " ++ a; b; lit "event: state"; lit "data: " ++ to_string j; []]) as E.
  { unfold sse_event, msg, unlines. cbn [mbind list_bind].
    change (lit "event: progress") with (lit "event: " ++ lit "progress"). by rewrite <- !app_assoc. }
  assert (stream_lines (sse_event (lit "progress") msg ++ rest) =
          [lit "event: progress"; lit "data: " ++ a; b; lit "event: state"; lit "data: " ++ to_string j; []] ++ stream_lines rest) as El.
  { rewrite E. apply stream_lines_unlines.
    repeat (constructor; [first [apply not_elem_of_nil | apply plain_no_nl; first [done | decide_now |
      apply plain_app; [decide_now|first [done|apply to_string_plain]]]]|]). constructor. }
  split.
  - unfold body. rewrite read_greeting_notes by done. cbn [snd]. rewrite El. cbn [app read_greeting].
    rewrite bool_decide_false by (by vm_compute). rewrite bool_decide_true by (by vm_compute).
    rewrite (bool_decide_true (trim (lit "event: state") = _)) by (by vm_compute).
    cbn [head default from_option Datatypes.id]. by rewrite trim_data, strip_prefix_app, from_str_to_string.
  - rewrite El. cbn [app wait_for_greeting]. rewrite bool_decide_false by (by vm_compute).
    rewrite bool_decide_false by done. rewrite bool_decide_false by done. by rewrite bool_decide_true by (by vm_compute).
Qed.

(** What the daemon does with a state change at the epoch of its connection. *)
Definition apply_change (e : Z) (ch : state_change) (c : PodConnection) : PodConnection :=
  match ch with
  | ClaudeChanged val => set_claude_state_at_epoch val e c
  | CodexChanged val => set_codex_state_at_epoch val e c
  end.

Definition feed (e : Z) (ls : list str) (c : PodConnection) (pending : option str) : PodConnection * option str :=
  fold_left (fun '(c, pending) line => event_line (fun s => ok (from_str s)) e pending line c) ls (c, pending).

Lemma feed_app e a b c p : feed e (a ++ b) c p = let '(c', p') := feed e a c p in feed e b c' p'.
Proof. unfold feed. rewrite fold_left_app. by destruct (fold_left _ a _). Qed.

Lemma strip_data_not_event d : strip_prefix (lit "event: ") (lit "data: " ++ d) = None.
Proof. reflexivity. Qed.

Lemma feed_change e ch c : feed e [lit "event: " ++ (change_event ch).1; lit "data: " ++ (change_event ch).2; []] c None =
  (apply_change e ch c, None).
Proof.
  unfold feed. destruct ch as [val|val]; cbn [change_event fst snd fold_left]; unfold event_line.
  1: replace (trim (lit "event: " ++ lit "claude_state")) with (lit "event: " ++ lit "claude_state") by (by vm_compute).
  2: replace (trim (lit "event: " ++ lit "codex_state")) with (lit "event: " ++ lit "codex_state") by (by vm_compute).
  all: rewrite strip_prefix_app, trim_data, strip_data_not_event, strip_prefix_app.
  all: repeat first [rewrite (bool_decide_true (lit _ = lit _)) by done | rewrite (bool_decide_false (lit _ = lit _)) by done].
  all: rewrite from_str_to_string; cbn [ok mbind option_bind]; rewrite ?decode_encode_claude, ?decode_encode_codex; done.
Qed.

End Delivery.

(** ** Witnesses *)

#[local] Instance json_eq_dec : EqDecision json.
Proof.
  refine (fix go (x y : json) : Decision (x = y) :=
    match x, y with
    | JNull, JNull => left eq_refl
    | JBool b, JBool b' => cast_if (decide (b = b'))
    | JNumber n, JNumber n' => cast_if (decide (n = n'))
    | JString t, JString t' => cast_if (decide (t = t'))
    | JArray l, JArray l' => cast_if (@decide (l = l') (@list_eq_dec _ go l l'))
    | JObject l, JObject l' => cast_if (@decide (l = l') (@list_eq_dec _ (@prod_eq_dec _ _ _ go) l l'))
    | _, _ => right _
    end); clear go; abstract congruence.
Defined.

Fixpoint json_tree (j : json) : gen_tree (bool + Z + list N) :=
  match j with
  | JNull => GenNode 0 []
  | JBool b => GenLeaf (inl (inl b))
  | JNumber n => GenLeaf (inl (inr n))
  | JString s => GenLeaf (inr s)
  | JArray l => GenNode 1 (map json_tree l)
  | JObject fields => GenNode 2 (map (fun kv => GenNode 3 [GenLeaf (inr (fst kv)); json_tree (snd kv)]) fields)
  end.

Fixpoint tree_json (t : gen_tree (bool + Z + list N)) : json :=
  match t with
  | GenLeaf (inl (inl b)) => JBool b
  | GenLeaf (inl (inr n)) => JNumber n
  | GenLeaf (inr s) => JString s
  | GenNode 0 _ => JNull
  | GenNode 1 ts => JArray (map tree_json ts)
  | GenNode _ ts =>
      JObject (map (fun t => match t with
                             | GenNode _ [GenLeaf (inr k); v] => (k, tree_json v)
                             | _ => ([], JNull)
                             end) ts)
  end.

Fixpoint tree_json_tree (j : json) : tree_json (json_tree j) = j.
Proof.
  destruct j as [|b|n|s|l|fields]; cbn; try done; f_equal.
  - induction l as [|x l IH]; cbn; [done|]. by rewrite tree_json_tree, IH.
  - induction fields as [|[k v] fields IH]; cbn; [done|]. by rewrite tree_json_tree, IH.
Qed.

#[local] Instance json_countable : Countable json := inj_countable' json_tree tree_json tree_json_tree.

#[export] Instance json_codec : Serde json := DigitCodec.codec json.
#[export] Instance json_codec_laws : SerdeLaws json := DigitCodec.codec_laws json.

Lemma digits_end p : exists r, DigitCodec.digits p = r ++ [50%N].
Proof.
  induction p as [p [r IH]|p [r IH]|]; [exists (49%N :: r)|exists (48%N :: r)|by exists []]; cbn; by rewrite IH.
Qed.

#[export] Instance json_codec_text : JsonText.
Proof.
  constructor. intros j. destruct (digits_end (encode j)) as [r E]. exists r, 50%N. by split.
Qed.

Definition two_sessions : list (list N * ClaudeHookEvent) :=
  [(lit "a", SessionStart); (lit "b", UserPromptSubmit); (lit "a", SubagentStart (lit "x")); (lit "b", SessionEnd)].

Definition session_values (ss : ClaudeSessions) : list Session := map snd (map_to_list ss).

Lemma claude_state_spec_witness :
  (update session_values (lit "b") Stop (run_requests two_sessions)).2 = ClaudeProcessing.
Proof.
  pose proof (claude_state_spec two_sessions (lit "b") Stop session_values (fun ss => reflexivity _)) as Hs.
  rewrite (surjective_pairing (update session_values (lit "b") Stop (run_requests two_sessions))) in Hs.
  destruct Hs as [_ ->]. vm_compute. reflexivity.
Defined.

Lemma ended_session_stays_ended_witness :
  replay ([UserPromptSubmit] ++ [SessionEnd] ++ [SubagentStop (lit "x"); SubagentStart (lit "y")]) = Some ended.
Proof. apply (ended_session_stays_ended [UserPromptSubmit]). repeat (apply not_elem_of_cons; split; [discriminate|]). apply not_elem_of_nil. Defined.

Definition failed_setup : server_state := mkServerState None (Some Idle) (Some (lit "postCreateCommand failed")).


Lemma progress_can_forge_greeting_witness :
  (read_greeting (stream_lines
     (sse_event (lit "progress")
        (lit "failed" ++ [c_nl] ++ lit "trace" ++ [c_nl] ++ lit "event: state" ++ [c_nl] ++ lit "data: " ++ to_string (JObject [])) ++
      sse_event (lit "state") (greeting_json None None (Some (lit "postCreateCommand failed")))))).2 = Ok None.
Proof.
  refine (proj1 (progress_can_forge_greeting [] (lit "failed") (lit "trace") (JObject [])
    (sse_event (lit "state") (greeting_json None None (Some (lit "postCreateCommand failed")))) _ _ _ _ _)).
  - constructor.
  - apply (bool_decide_unpack (plain (lit "failed"))). vm_compute. exact I.
  - apply (bool_decide_unpack (plain (lit "trace"))). vm_compute. exact I.
  - vm_compute. discriminate.
  - vm_compute. discriminate.
Defined.

