(* ===== verification/PodEnv.v ===== *)
(** * The environment of a pod (pod/server.rs)

    At its start the pod server computes the environment of everything it runs: that of its own
    process, what the user's shell adds, and the [remoteEnv] of the devcontainer configuration
    with its references to host and container variables resolved.  It also tells a fork which
    variables were configured.  The output of the programs and the file contents are arguments;
    text that is not UTF-8 has been replaced as [from_utf8_lossy] does. *)
From stdpp Require Import gmap.
From S2P Require Import Prelude Strs Hooks PodNames Subst Devcontainer PreparedImage.

Definition c_nul : char := 0%N.

Abbreviation env_map := (gmap (list N) (list N)).

(** ** Probing the shell *)

Definition env_entry (entry : str) : option (list N * list N) :=
  '(key, value) ← split_once c_eq entry; if bool_decide (key = []) then None else Some (key, value).

(** The loop inserts in order, so that the last assignment of a name holds. *)
Definition parse_null_delimited_env (text : str) : env_map :=
  fold_left (fun map kv => <[kv.1 := kv.2]> map) (omap env_entry (split c_nul text)) ∅.

Definition skip : list (list N) := [lit "_"; lit "SHLVL"; lit "BASH_EXECUTION_STRING"].

(** [probe_env_impl]: [base_output] and [output] are the output of [env -0] run directly and by
    the shell, or why it could not be had. *)
Definition probe_env_impl (has_bash : bool) (base_output output : result str str) : result str env_map :=
  if negb has_bash then Ok ∅
  else
    base_text ← base_output;
    let base := parse_null_delimited_env base_text in
    text ← output;
    let probed := parse_null_delimited_env text in
    Ok (filter (fun kv => kv.1 ∉ skip /\ base !! kv.1 <> Some kv.2) probed).

(** ** The merged environment *)

Definition parse_local_env (local_env_args : list str) : env_map :=
  fold_left (fun map kv => <[kv.1 := kv.2]> map) (omap (split_once c_eq) local_env_args) ∅.

Definition pod_context (repo_path : str) : SubstitutionContext :=
  mkContext None None None (Some repo_path) (Some (basename_or_workspace repo_path)) None.

(** A value of [remoteEnv] with its references to the host's and the container's variables. *)
Definition resolve_remote_value (local_env process_env : env_map) (value : list N) : run (list N) :=
  after_local ← resolve_local_env_from_map value local_env;
  resolve_container_env_in_process process_env after_local.

(** Inserting every entry of one map into another. *)
Definition overlay (additions env : env_map) : env_map := additions ∪ env.

(** [resolve_pod_env]: [baked] is the parsed configuration of the image, [None] where it is
    missing or unreadable; [probe] runs the shell with the given flags. *)
Definition resolve_pod_env (repo_path : str) (local_env_args : list str) (baked : option DevContainer)
    (process_env : env_map) (probe : str -> result str env_map) : run (env_map * LifecycleConfig) :=
  let local_env := parse_local_env local_env_args in
  dc ← substitute (default DevContainer_default baked) (pod_context repo_path);
  let lifecycle_config := dc_lifecycle dc in
  resolved_remote ← map_values (resolve_remote_value local_env process_env) (default ∅ (dc_remote_env dc));
  let env :=
    match shell_flags_exec (default LoginInteractiveShell (dc_user_env_probe dc)) with
    | Some flags => overlay (match probe flags with Ok probed => probed | Err _ => ∅ end) process_env
    | None => process_env
    end in
  Returned (overlay resolved_remote env, lifecycle_config).

(** ** What a fork copies *)

(** [container_env_handler]: [contents] is the baked list of names, [None] where it cannot be
    read although it exists; a missing file is an empty list. *)
Definition container_env_handler (contents : option str) (process_env : env_map) : env_map :=
  match contents with
  | None => ∅
  | Some contents =>
      fold_left
        (fun out key =>
           if bool_decide (trim key = []) then out
           else match process_env !! trim key with Some value => <[trim key := value]> out | None => out end)
        (lines contents) ∅
  end.

(** ** Lemmas *)

Lemma fold_insert_lookup (kvs : list (list N * list N)) (m : env_map) k :
  NoDup (map fst kvs) ->
  fold_left (fun map kv => <[kv.1 := kv.2]> map) kvs m !! k =
  match (list_to_map kvs : env_map) !! k with Some v => Some v | None => m !! k end.
Proof.
  revert m. induction kvs as [|[k' v'] kvs IH]; intros m Hd; [done|].
  cbn [map fst] in Hd. apply NoDup_cons in Hd as [Hn Hd]. cbn [fold_left list_to_map foldr fst snd].
  rewrite IH by done. destruct (decide (k = k')) as [->|Hne].
  - rewrite lookup_insert_eq, (not_elem_of_list_to_map_1 kvs k') by done. by rewrite lookup_insert_eq.
  - by rewrite !lookup_insert_ne by done.
Qed.

(** The text [env -0] prints. *)
Definition render_env (kvs : list (list N * list N)) : str := kvs ≫= fun kv => kv.1 ++ [c_eq] ++ kv.2 ++ [c_nul].

Definition env_ok (kv : list N * list N) : Prop := kv.1 <> [] /\ c_eq ∉ kv.1 /\ c_nul ∉ kv.1 /\ c_nul ∉ kv.2.

#[export] Instance env_ok_dec kv : Decision (env_ok kv).
Proof. unfold env_ok. apply _. Defined.

Lemma split_render kvs : Forall env_ok kvs ->
  omap env_entry (split c_nul (render_env kvs)) = kvs.
Proof.
  induction 1 as [|[k v] kvs (Hk & He & Hn & Hv) _ IH]; [done|]. unfold render_env in *. rewrite bind_cons.
  cbn [fst snd] in *.
  replace ((k ++ [c_eq] ++ v ++ [c_nul]) ++ (kvs ≫= fun kv => kv.1 ++ [c_eq] ++ kv.2 ++ [c_nul]))
    with ((k ++ [c_eq] ++ v) ++ c_nul :: (kvs ≫= fun kv => kv.1 ++ [c_eq] ++ kv.2 ++ [c_nul]))
    by (by rewrite <- !app_assoc).
  rewrite split_cons_sep.
  - cbn [omap list_omap]. unfold env_entry at 1.
    assert (split_once c_eq (k ++ [c_eq] ++ v) = Some (k, v)) as -> by (by apply split_once_Some).
    cbn [mbind option_bind]. rewrite bool_decide_false by done. f_equal. exact IH.
  - rewrite !elem_of_app, list_elem_of_singleton. intros [?|[?|?]]; done.
Qed.

Lemma mapM_lookup (f : list N -> run (list N)) (kvs l : list (list N * list N)) :
  mapM (fun kv => v ← f kv.2; Returned (kv.1, v)) kvs = Returned l ->
  map fst l = map fst kvs /\
  forall k, match (list_to_map kvs : env_map) !! k with
            | Some v => exists v', f v = Returned v' /\ (list_to_map l : env_map) !! k = Some v'
            | None => (list_to_map l : env_map) !! k = None
            end.
Proof.
  revert l. induction kvs as [|[k v] kvs IH]; intros l.
  - intros [= <-]. by split.
  - cbn [mapM fst snd]. destruct (f v) as [v'| |] eqn:Ef; [|done..]. cbn [mbind run_bind].
    destruct (mapM _ kvs) as [l'| |]; [|done..]. intros [= <-]. destruct (IH l' eq_refl) as [Hm Hl].
    split; [cbn; by f_equal|]. intros j. cbn [list_to_map foldr fst snd]. destruct (decide (k = j)) as [->|Hne].
    + rewrite !lookup_insert_eq. by exists v'.
    + rewrite !lookup_insert_ne by done. apply Hl.
Qed.

Lemma map_values_lookup (f : list N -> run (list N)) (m m' : env_map) k :
  map_values f m = Returned m' ->
  match m !! k with
  | Some v => exists v', f v = Returned v' /\ m' !! k = Some v'
  | None => m' !! k = None
  end.
Proof.
  unfold map_values. destruct (mapM _ _) as [l| |] eqn:E; [|done..]. intros [= <-].
  destruct (mapM_lookup f (map_to_list m) l E) as [_ Hl]. specialize (Hl k).
  by rewrite (list_to_map_to_list m) in Hl.
Qed.

(** ** Theorems *)

(** The environment of a pod has a fixed precedence.  For every name, a [remoteEnv] entry of
    the configuration wins, with its references to host variables and to the variables of the
    server's process resolved; then what the shell probe added or changed, unless probing is
    switched off or fails; then the environment of the process.  No other name is defined. *)
Theorem pod_env_precedence repo_path args baked process_env probe env config dc :
  substitute (default DevContainer_default baked) (pod_context repo_path) = Returned dc ->
  resolve_pod_env repo_path args baked process_env probe = Returned (env, config) ->
  config = dc_lifecycle dc /\
  forall k,
    match default ∅ (dc_remote_env dc) !! k with
    | Some v => exists v', resolve_remote_value (parse_local_env args) process_env v = Returned v' /\ env !! k = Some v'
    | None =>
        env !! k =
        match (flags ← shell_flags_exec (default LoginInteractiveShell (dc_user_env_probe dc));
               probed ← ok (probe flags); probed !! k) with
        | Some v => Some v
        | None => process_env !! k
        end
    end.
Proof.
  intros Hs. unfold resolve_pod_env. rewrite Hs. cbn [mbind run_bind].
  destruct (map_values _ _) as [remote| |] eqn:Er; [|done..]. intros [= <- <-]. split; [done|].
  intros k. pose proof (map_values_lookup _ _ _ k Er) as Hk. unfold overlay. rewrite lookup_union.
  destruct (default ∅ (dc_remote_env dc) !! k) as [v|].
  - destruct Hk as (v' & Hv & Hr). exists v'. split; [done|]. rewrite Hr. by apply union_Some_l.
  - rewrite Hk, (left_id_L None union). destruct (shell_flags_exec _) as [flags|]; [|done].
    rewrite lookup_union. cbn. destruct (probe flags) as [probed|e]; cbn.
    + destruct (probed !! k) as [v|]; [by apply union_Some_l|by rewrite (left_id_L None union)].
    + rewrite lookup_empty. by rewrite (left_id_L None union).
Qed.

(** Probing reads back what the shell prints.  From the output of [env -0] the probe keeps
    exactly the variables whose value differs from the one outside the shell, except the three
    the shell sets itself; values may contain line breaks and equals signs. *)
Theorem probe_env_exact base_vars probed_vars env :
  Forall env_ok base_vars -> Forall env_ok probed_vars -> NoDup (map fst base_vars) -> NoDup (map fst probed_vars) ->
  probe_env_impl true (Ok (render_env base_vars)) (Ok (render_env probed_vars)) = Ok env ->
  forall k v, env !! k = Some v <->
    (k, v) ∈ probed_vars /\ k ∉ skip /\ (k, v) ∉ base_vars.
Proof.
  intros Hb Hp Nb Np [= <-] k v. rewrite map_lookup_filter_Some. cbn [fst snd].
  unfold parse_null_delimited_env. rewrite !split_render by done.
  rewrite !fold_insert_lookup, lookup_empty by done.
  assert (forall kvs, NoDup (map fst kvs) -> forall k v,
    match (list_to_map kvs : env_map) !! k with Some v => Some v | None => None end = Some v <-> (k, v) ∈ kvs) as Hl.
  { intros kvs Hd k' v'. rewrite (elem_of_list_to_map (M := gmap (list N)) kvs k' v' Hd).
    by destruct ((list_to_map kvs : env_map) !! k'). }
  rewrite Hl by done. rewrite <- (Hl base_vars Nb k v). done.
Qed.

(** A fork copies exactly the configured variables: reading back the list of names that the
    image build wrote gives the current values of those names in the pod, and nothing else. *)
Theorem container_env_exact keys process_env k :
  Forall (fun k => line_ok k /\ trim k = k /\ k <> []) keys ->
  container_env_handler (Some (keys_file keys)) process_env !! k =
  if bool_decide (k ∈ keys) then process_env !! k else None.
Proof.
  intros Hk. unfold container_env_handler, keys_file.
  rewrite lines_unlines by (eapply Forall_impl; [exact Hk|by intros ? [? _]]).
  cut (forall out : env_map, (forall j v, out !! j = Some v -> process_env !! j = Some v) ->
    fold_left (fun out key => if bool_decide (trim key = []) then out
      else match process_env !! trim key with Some value => <[trim key := value]> out | None => out end) keys out !! k =
    if bool_decide (k ∈ keys) then process_env !! k else out !! k).
  { intros Hc. by rewrite Hc by (intros j v; by rewrite lookup_empty). }
  induction Hk as [|key keys (_ & Ht & Hne) _ IH]; intros out Ho; [done|].
  cbn [fold_left]. rewrite Ht, bool_decide_false by done. rewrite IH.
  - destruct (decide (k = key)) as [->|Hkey].
    + rewrite (bool_decide_true (key ∈ key :: keys)) by (by left).
      case_bool_decide; [done|]. destruct (process_env !! key) as [v|] eqn:E; [by rewrite lookup_insert_eq|].
      destruct (out !! key) as [v|] eqn:Eo; [|done]. apply Ho in Eo. congruence.
    + rewrite (bool_decide_ext (k ∈ key :: keys) (k ∈ keys)) by (rewrite elem_of_cons; naive_solver).
      case_bool_decide; [done|]. destruct (process_env !! key); [by rewrite lookup_insert_ne|done].
  - intros j v. destruct (process_env !! key) as [w|] eqn:E; [|apply Ho].
    destruct (decide (j = key)) as [->|]; [by rewrite lookup_insert_eq, E|]. rewrite lookup_insert_ne by done. apply Ho.
Qed.

(** ** Witnesses *)

Definition example_dc : DevContainer :=
  DevContainer_default <| dc_remote_env := Some {[lit "EDITOR" := lit "${localEnv:EDITOR}"]} |>.

Definition example_process : env_map := list_to_map [(lit "PATH", lit "/bin"); (lit "EDITOR", lit "ed")].

Definition example_probe (flags : str) : result str env_map := Ok {[lit "PATH" := lit "/bin:/opt"]}.

Lemma pod_env_precedence_witness :
  exists env config, resolve_pod_env (lit "/repo") [lit "EDITOR=vi"] (Some example_dc) example_process example_probe =
    Returned (env, config) /\ env !! (lit "PATH") = Some (lit "/bin:/opt").
Proof.
  destruct (resolve_pod_env (lit "/repo") [lit "EDITOR=vi"] (Some example_dc) example_process example_probe)
    as [[env config]| |] eqn:E; [|vm_compute in E; discriminate..].
  exists env, config. split; [reflexivity|].
  destruct (substitute example_dc (pod_context (lit "/repo"))) as [dc| |] eqn:Es; [|vm_compute in Es; discriminate..].
  destruct (pod_env_precedence (lit "/repo") [lit "EDITOR=vi"] (Some example_dc) example_process example_probe env config dc Es E)
    as [_ Hk]. specialize (Hk (lit "PATH")).
  vm_compute in Es. injection Es as <-. vm_compute in Hk. exact Hk.
Defined.

Lemma probe_env_exact_witness :
  exists env, probe_env_impl true (Ok (render_env [(lit "A", lit "1")])) (Ok (render_env [(lit "A", lit "1"); (lit "B", lit "x=y")])) = Ok env /\
    env !! lit "B" = Some (lit "x=y").
Proof.
  destruct (probe_env_impl true (Ok (render_env [(lit "A", lit "1")])) (Ok (render_env [(lit "A", lit "1"); (lit "B", lit "x=y")])))
    as [env|] eqn:E; [|vm_compute in E; discriminate].
  exists env. split; [reflexivity|].
  apply (probe_env_exact [(lit "A", lit "1")] [(lit "A", lit "1"); (lit "B", lit "x=y")] env); try exact E;
    apply (bool_decide_unpack _); vm_compute; exact I.
Defined.

Lemma container_env_exact_witness :
  container_env_handler (Some (keys_file [lit "EDITOR"])) example_process !! lit "PATH" = None.
Proof.
  rewrite container_env_exact; [reflexivity|]. constructor; [|constructor].
  split; [split; [apply (bool_decide_unpack _); vm_compute; exact I|reflexivity]|]. split; [reflexivity|discriminate].
Defined.
