(* ===== verification/PodGit.v ===== *)
(** * The pod's git repository: publishing branches (git.rs, pod/server.rs)

    A pod pushes its branches to the gateway whenever they move; pushes that failed are made up
    for later.  Whether something is outstanding is decided from local refs only, and Git LFS
    payloads of new refs are uploaded by the program itself so that the push can skip the hook
    of Git LFS.

    The program reads the repository through git commands: [git] gives the output of a query,
    [git_stdin] that of a query with input.  A process that could not be run is [None]; text
    that is not UTF-8 is [None].  [GitView] states the documented output of the queries for a
    repository whose refs are known. *)
From stdpp Require Import gmap.
From S2P Require Import Prelude Strs Hooks Access.

Record git_output := mkGitOutput {
  go_code : option Z;
  go_stdout : option str;
  go_stderr : str;
}.

Definition ran_ok (o : git_output) : bool := bool_decide (go_code o = Some 0%Z).

Definition ANCESTOR_ARGS (a d : str) : list str := [lit "merge-base"; lit "--is-ancestor"; a; d].
Definition REV_PARSE_ARGS (refname : str) : list str := [lit "rev-parse"; lit "--verify"; lit "--quiet"; refname].
Definition POD_NAME_ARGS : list str := [lit "config"; lit "--get"; lit "rumpelpod.pod-name"].
Definition BRANCHES_ARGS : list str :=
  [lit "for-each-ref"; lit "--format=%(objectname) %(refname:lstrip=2)"; lit "refs/heads/"].
Definition HEADS_ARGS : list str :=
  [lit "for-each-ref"; lit "--format=%(refname:lstrip=2)%09%(objectname)%09%(upstream)"; lit "refs/heads/"].
Definition REMOTES_ARGS : list str := [lit "for-each-ref"; lit "--format=%(objectname)"; lit "refs/remotes/"].
Definition LFS_VERSION_ARGS : list str := [lit "lfs"; lit "version"].
Definition BATCH_CHECK_ARGS : list str :=
  [lit "cat-file"; lit "--batch-check=%(objectname) %(objecttype) %(objectsize)"].
Definition LFS_PUSH_ARGS (remote : str) : list str :=
  [lit "lfs"; lit "push"; lit "--object-id"; remote; lit "--stdin"].

Definition c_tab : char := 9%N.
Definition LFS_POINTER_MAX_BYTES : nat := 4096.

Section Git.
  Variable git : list str -> option git_output.
  Variable git_stdin : list str -> str -> option git_output.

(** ** Is anything outstanding? (pod/server.rs) *)

Definition primary_branch : result str str :=
  output ← context (lit "reading rumpelpod.pod-name") (git POD_NAME_ARGS);
  if negb (ran_ok output) then Err (lit "git config rumpelpod.pod-name failed: " ++ go_stderr output)
  else
    primary ← context (lit "primary branch was not UTF-8") (go_stdout output);
    if bool_decide (trim primary = []) then Err (lit "rumpelpod.pod-name is empty") else Ok (trim primary).

Definition ref_matches (refname sha : str) : result str bool :=
  output ← context (lit "resolving ref " ++ refname) (git (REV_PARSE_ARGS refname));
  match go_code output with
  | Some 0%Z =>
      tracked ← context (lit "tracked ref sha was not UTF-8") (go_stdout output);
      Ok (bool_decide (trim tracked = sha))
  | Some 1%Z => Ok false
  | _ => Err (lit "git rev-parse " ++ refname ++ lit " failed: " ++ go_stderr output)
  end.

Definition tracking_ref (branch pod_name : str) : str := lit "refs/remotes/rumpelpod/" ++ branch ++ lit "@" ++ pod_name.
Definition shortcut_ref (pod_name : str) : str := lit "refs/remotes/rumpelpod/" ++ pod_name.

Fixpoint needs_push_loop (pod_name primary : str) (listing : list str) : result str bool :=
  match listing with
  | [] => Ok false
  | line :: listing =>
      match split_once c_space line with
      | None => Err (lit "git for-each-ref returned malformed line: " ++ line)
      | Some (sha, branch) =>
          current ← ref_matches (tracking_ref branch pod_name) sha;
          if negb current then Ok true
          else if bool_decide (branch = primary) then
            shortcut_current ← ref_matches (shortcut_ref pod_name) sha;
            if negb shortcut_current then Ok true else needs_push_loop pod_name primary listing
          else needs_push_loop pod_name primary listing
      end
  end.

Definition needs_push (pod_name : str) : result str bool :=
  primary ← primary_branch;
  output ← context (lit "listing local branches") (git BRANCHES_ARGS);
  if negb (ran_ok output) then Err (lit "git for-each-ref failed: " ++ go_stderr output)
  else
    listing ← context (lit "branch listing was not UTF-8") (go_stdout output);
    needs_push_loop pod_name primary (lines listing).

(** ** Git LFS payloads of new refs (git.rs) *)

Definition git_lfs_available : result str bool :=
  output ← context (lit "checking git lfs availability") (git LFS_VERSION_ARGS);
  if ran_ok output then Ok true
  else if contains_str (lit "is not a git command") (go_stderr output) then Ok false
  else Err (lit "git lfs version failed: " ++ go_stderr output).

Definition is_ancestor (ancestor descendant : str) : result str bool :=
  output ← context (lit "checking whether " ++ ancestor ++ lit " is an ancestor of " ++ descendant)
             (git (ANCESTOR_ARGS ancestor descendant));
  match go_code output with
  | Some 0%Z => Ok true
  | Some 1%Z => Ok false
  | _ => Err (lit "git merge-base failed: " ++ go_stderr output)
  end.

Fixpoint ancestors_loop (newvalue : str) (listing : list str) : result str (list str) :=
  match listing with
  | [] => Ok []
  | line :: listing =>
      let candidate := trim line in
      if bool_decide (candidate = []) then ancestors_loop newvalue listing
      else
        yes ← is_ancestor candidate newvalue;
        rest ← ancestors_loop newvalue listing;
        Ok (if yes : bool then candidate :: rest else rest)
  end.

Definition remote_tracking_ancestors (newvalue : str) : result str (list str) :=
  output ← context (lit "listing remote-tracking refs") (git REMOTES_ARGS);
  if negb (ran_ok output) then Err (lit "git for-each-ref failed: " ++ go_stderr output)
  else
    listing ← context (lit "remote ref listing was not UTF-8") (go_stdout output);
    ancestors_loop newvalue (lines listing).

Definition rev_parse_optional (refname : str) : result str (option str) :=
  output ← context (lit "resolving ref " ++ refname) (git (REV_PARSE_ARGS refname));
  match go_code output with
  | Some 0%Z => sha ← context (lit "ref sha was not UTF-8") (go_stdout output); Ok (Some (trim sha))
  | Some 1%Z => Ok None
  | _ => Err (lit "git rev-parse " ++ refname ++ lit " failed: " ++ go_stderr output)
  end.

(** One line of the branch listing: name, commit, upstream. *)
Definition parse_branch_head (line : str) : result str (str * str * option str) :=
  let malformed := lit "git for-each-ref returned malformed line: " ++ line in
  '(branch, rest) ← context malformed (split_once c_tab line);
  '(sha, upstream) ← context malformed (split_once c_tab rest);
  Ok (branch, sha, if bool_decide (upstream = []) then None else Some upstream).

Definition local_branch_heads : result str (list (str * str * option str)) :=
  output ← context (lit "listing local branches") (git HEADS_ARGS);
  if negb (ran_ok output) then Err (lit "git for-each-ref failed: " ++ go_stderr output)
  else
    listing ← context (lit "branch listing was not UTF-8") (go_stdout output);
    mapM parse_branch_head (lines listing).

Definition object_ids_in_ref_update (oldvalues : list str) (newvalue : str) : result str (list str) :=
  output ← context (lit "listing objects in ref update")
    (git ([lit "rev-list"; lit "--objects"; newvalue] ++
          if bool_decide (oldvalues = []) then [] else lit "--not" :: oldvalues));
  if negb (ran_ok output) then Err (lit "git rev-list failed: " ++ go_stderr output)
  else
    listing ← context (lit "rev-list output was not UTF-8") (go_stdout output);
    Ok (map (fun line => match split_once c_space line with Some (object_id, _) => object_id | None => line end)
            (lines listing)).

(** One line of [cat-file --batch-check]: the blob if it is small enough for a pointer. *)
Definition check_line (line : str) : result str (option str) :=
  match split c_space line with
  | [object_id; object_type; object_size] =>
      if bool_decide (object_type = lit "blob") then
        size ← context (lit "parsing git blob size from line: " ++ line) (parse_uint (2 ^ 64 - 1) object_size);
        Ok (if bool_decide (size <= 4096)%N then Some object_id else None)
      else if bool_decide (object_type ∈ [lit "commit"; lit "tree"; lit "tag"]) then Ok None
      else Err (lit "unknown git object type: " ++ object_type)
  | _ => Err (lit "git cat-file returned malformed line: " ++ line)
  end.

Fixpoint check_lines (ls : list str) : result str (list str) :=
  match ls with
  | [] => Ok []
  | line :: ls => found ← check_line line; rest ← check_lines ls; Ok (option_list found ++ rest)
  end.

Definition small_blob_ids (object_ids : list str) : result str (list str) :=
  if bool_decide (object_ids = []) then Ok []
  else
    output ← context (lit "spawning git cat-file --batch-check") (git_stdin BATCH_CHECK_ARGS (unlines object_ids));
    if negb (ran_ok output) then Err (lit "git cat-file --batch-check failed: " ++ go_stderr output)
    else
      listing ← context (lit "cat-file output was not UTF-8") (go_stdout output);
      check_lines (lines listing).

Definition c_hex_ok (oid : str) : bool := bool_decide (len oid = 64) && forallb is_ascii_hexdigit oid.

Fixpoint find_oid (ls : list str) : option str :=
  match ls with
  | [] => None
  | line :: ls =>
      match strip_prefix (lit "oid sha256:") (trim_end_matches c_cr line) with
      | Some oid => if c_hex_ok oid then Some oid else find_oid ls
      | None => find_oid ls
      end
  end.

(** [lfs_oid_from_pointer] on the decoded content; content that is not UTF-8 is no pointer. *)
Definition lfs_oid_from_pointer (text : str) : option str :=
  if bool_decide (LFS_POINTER_MAX_BYTES < len text) then None
  else
    match lines text with
    | [] => None
    | version :: ls =>
        if bool_decide (trim_end_matches c_cr version = lit "version https://git-lfs.github.com/spec/v1")
        then find_oid ls else None
    end.

Definition lfs_oid_from_blob (blob_id : str) : result str (option str) :=
  output ← context (lit "reading git blob " ++ blob_id) (git [lit "cat-file"; lit "-p"; blob_id]);
  if negb (ran_ok output) then Err (lit "git cat-file -p " ++ blob_id ++ lit " failed: " ++ go_stderr output)
  else Ok (go_stdout output ≫= lfs_oid_from_pointer).

Fixpoint oids_loop (blob_ids : list str) : result str (list str) :=
  match blob_ids with
  | [] => Ok []
  | blob_id :: blob_ids =>
      found ← lfs_oid_from_blob blob_id; rest ← oids_loop blob_ids; Ok (option_list found ++ rest)
  end.

(** The set of payloads in a ref update, in the order of the set.  The order only affects the
    order of the upload; it is left to [elements]. *)
Definition lfs_oids_for_ref_update (oldvalues : list str) (newvalue : str) : result str (list str) :=
  if bool_decide (newvalue ∈ oldvalues) then Ok []
  else
    object_ids ← object_ids_in_ref_update oldvalues newvalue;
    blob_ids ← small_blob_ids object_ids;
    oids ← oids_loop blob_ids;
    Ok (elements (list_to_set oids : gset (list N))).

(** [upload_lfs_oids], with the uploads made so far. *)
Definition upload_lfs_oids (remote : str) (oids : list str) (uploads : list (list str))
    : result str (list (list str)) :=
  if bool_decide (oids = []) then Ok uploads
  else
    output ← context (lit "spawning git lfs push") (git_stdin (LFS_PUSH_ARGS remote) (unlines oids));
    if ran_ok output then Ok (uploads ++ [oids])
    else Err (lit "git lfs push --object-id failed: " ++ go_stderr output).

(** [prepare_lfs_for_new_ref]: whether to skip the hook of Git LFS, and what was uploaded. *)
Definition prepare_lfs_for_new_ref (remote newvalue : str) : result str (bool * list (list str)) :=
  if bool_decide (newvalue = ZERO_OID) then Ok (false, [])
  else
    available ← git_lfs_available;
    if negb available then Ok (false, [])
    else
      bases ← remote_tracking_ancestors newvalue;
      if bool_decide (bases = []) then Ok (false, [])
      else
        oids ← lfs_oids_for_ref_update bases newvalue;
        uploads ← upload_lfs_oids remote oids [];
        Ok (true, uploads).

Fixpoint prepare_loop (pod_name primary : str) (heads : list (str * str * option str)) (prepared_new_ref : bool)
    (uploads : list (list str)) : result str (bool * list (list str)) :=
  match heads with
  | [] => Ok (prepared_new_ref, uploads)
  | (branch, newvalue, _) :: heads =>
      tracked ← rev_parse_optional (tracking_ref branch pod_name);
      let new_namespaced_ref := bool_decide (tracked = None) in
      new_shortcut_ref ←
        (if bool_decide (branch = primary) then
           shortcut ← rev_parse_optional (shortcut_ref pod_name); Ok (bool_decide (shortcut = None))
         else Ok false);
      if negb new_namespaced_ref && negb new_shortcut_ref then
        prepare_loop pod_name primary heads prepared_new_ref uploads
      else
        bases ← remote_tracking_ancestors newvalue;
        if bool_decide (bases = []) then Ok (false, uploads)
        else
          oids ← lfs_oids_for_ref_update bases newvalue;
          uploads ← upload_lfs_oids (lit "rumpelpod") oids uploads;
          prepare_loop pod_name primary heads true uploads
  end.

Definition prepare_lfs_for_rumpelpod_push (pod_name : str) : result str (bool * list (list str)) :=
  available ← git_lfs_available;
  if negb available then Ok (false, [])
  else
    primary ← primary_branch;
    heads ← local_branch_heads;
    prepare_loop pod_name primary heads false [].

(** ** Pushing *)

Definition PUSH_ARGS : list str := [lit "push"; lit "rumpelpod"; lit "--force"; lit "--quiet"].

(** [recover_push]: the push it runs, if any, with the payloads uploaded before; [push] is the
    outcome of the push, given whether the hook of Git LFS is skipped. *)
Definition recover_push (push : bool -> option git_output) (pod_name : str)
    : result str (option (bool * list (list str))) :=
  outstanding ← needs_push pod_name;
  if negb outstanding then Ok None
  else
    '(skip_lfs_pre_push, uploads) ← prepare_lfs_for_rumpelpod_push pod_name;
    output ← context (lit "running gateway recovery push") (push skip_lfs_pre_push);
    if negb (ran_ok output) then Err (lit "git push rumpelpod exited: " ++ go_stderr output)
    else Ok (Some (skip_lfs_pre_push, uploads)).
End Git.

(** ** A repository whose refs are known *)

Record repo := mkRepo {
  rp_primary : list N;
  rp_heads : list (list N * list N * option (list N));
  rp_remotes : gmap (list N) (list N);
}.

Definition head_name (h : list N * list N * option (list N)) : list N := h.1.1.
Definition head_sha (h : list N * list N * option (list N)) : list N := h.1.2.

(** What [git check-ref-format] guarantees of a name, and an object name. *)
Definition c_star : char := 42%N.

Definition tidy (s : str) : Prop :=
  s <> [] /\ Forall (fun c => is_whitespace c = false /\ c <> c_colon /\ c <> c_star) s.

#[export] Instance tidy_dec s : Decision (tidy s).
Proof. unfold tidy. apply _. Defined.

Definition printed (text : str) : option git_output := Some (mkGitOutput (Some 0%Z) (Some text) []).
Definition absent : option git_output := Some (mkGitOutput (Some 1%Z) (Some []) []).

Class GitView (git : list str -> option git_output) (v : repo) : Prop := {
  view_primary : tidy (rp_primary v);
  view_names : Forall (fun h => tidy (head_name h) /\ tidy (head_sha h) /\ forall u, h.2 = Some u -> tidy u) (rp_heads v);
  view_unique : NoDup (map head_name (rp_heads v));
  view_shas : forall r s, rp_remotes v !! r = Some s -> tidy s;
  view_pod_name : git POD_NAME_ARGS = printed (rp_primary v ++ [c_nl]);
  view_branches : git BRANCHES_ARGS =
    printed (unlines (map (fun h => head_sha h ++ [c_space] ++ head_name h) (rp_heads v)));
  view_heads : git HEADS_ARGS =
    printed (unlines (map (fun h => head_name h ++ [c_tab] ++ head_sha h ++ [c_tab] ++ default [] h.2) (rp_heads v)));
  view_rev_parse r : starts_with (lit "refs/remotes/") r = true ->
    git (REV_PARSE_ARGS r) = match rp_remotes v !! r with Some s => printed (s ++ [c_nl]) | None => absent end;
}.

Lemma tidy_not_in c s : is_whitespace c = true \/ c = c_colon \/ c = c_star -> tidy s -> c ∉ s.
Proof.
  intros Hc [_ Hs] Hin. rewrite Forall_forall in Hs. destruct (Hs c Hin) as (Hw & H1 & H2).
  destruct Hc as [Hc|[Hc|Hc]]; congruence.
Qed.

Lemma tidy_no_cr s : tidy s -> ends_with [c_cr] s = false.
Proof.
  intros Hs. apply bool_decide_eq_false. intros [r Hr%strip_suffix_Some]. subst s.
  apply (tidy_not_in c_cr _ ltac:(by left) Hs). rewrite elem_of_app. right. by left.
Qed.

Lemma ends_with_app_tidy a s : tidy s -> ends_with [c_cr] (a ++ s) = false.
Proof.
  intros Hs. pose proof (tidy_no_cr s Hs) as Hc. destruct s as [|x s _] using rev_ind; [by destruct Hs|].
  apply bool_decide_eq_false. intros [r Hr%strip_suffix_Some]. rewrite app_assoc in Hr. apply app_inj_tail in Hr as [_ ->].
  apply bool_decide_eq_false in Hc. apply Hc. exists s. by apply strip_suffix_Some.
Qed.

Lemma trim_tidy s : tidy s -> trim (s ++ [c_nl]) = s.
Proof.
  intros [Hne Hs]. unfold trim. destruct s as [|x s]; [done|]. cbn [app trim_start_by].
  pose proof (proj1 (proj1 (proj1 (Forall_cons _ _ _) Hs))) as Hx. rewrite Hx. change (x :: s ++ [c_nl]) with ((x :: s) ++ [c_nl]).
  rewrite trim_end_by_snoc by done. apply trim_end_by_id. intros y r Hr.
  assert (Forall (fun c => is_whitespace c = false /\ c <> c_colon /\ c <> c_star) (r ++ [y])) as Hf.
  { by rewrite <- Hr. }
  apply Forall_app in Hf as [_ Hf]. by apply Forall_cons in Hf as [(? & _) _].
Qed.

(** ** What the decision means *)

(** The gateway has the branch: its tracking refs are where the branch is. *)
Definition published (v : repo) (pod_name : str) (h : list N * list N * option (list N)) : Prop :=
  rp_remotes v !! tracking_ref (head_name h) pod_name = Some (head_sha h) /\
  (head_name h = rp_primary v -> rp_remotes v !! shortcut_ref pod_name = Some (head_sha h)).

#[export] Instance published_dec v pod_name h : Decision (published v pod_name h).
Proof. unfold published. apply _. Defined.

Section Views.
  Context (git : list str -> option git_output) (git_stdin : list str -> str -> option git_output) (v : repo)
    `{GV : !GitView git v}.

Lemma primary_view : primary_branch git = Ok (rp_primary v).
Proof.
  unfold primary_branch. rewrite view_pod_name. cbn. rewrite trim_tidy by apply view_primary.
  rewrite bool_decide_false by apply view_primary. done.
Qed.

Lemma ref_matches_view r sha : starts_with (lit "refs/remotes/") r = true ->
  ref_matches git r sha = Ok (bool_decide (rp_remotes v !! r = Some sha)).
Proof.
  intros Hr. unfold ref_matches. rewrite view_rev_parse by done. destruct (rp_remotes v !! r) as [s|] eqn:E; cbn.
  - rewrite trim_tidy by (by eapply view_shas). f_equal. apply bool_decide_ext. naive_solver.
  - by rewrite bool_decide_false.
Qed.

Lemma tracking_is_remote b p : starts_with (lit "refs/remotes/") (tracking_ref b p) = true.
Proof. apply starts_with_true. exists (lit "rumpelpod/" ++ b ++ lit "@" ++ p). reflexivity. Qed.

Lemma shortcut_is_remote p : starts_with (lit "refs/remotes/") (shortcut_ref p) = true.
Proof. apply starts_with_true. exists (lit "rumpelpod/" ++ p). reflexivity. Qed.

Lemma branch_lines_view : lines (unlines (map (fun h => head_sha h ++ [c_space] ++ head_name h) (rp_heads v))) =
  map (fun h => head_sha h ++ [c_space] ++ head_name h) (rp_heads v).
Proof.
  apply lines_unlines, Forall_map. eapply Forall_impl; [apply view_names|]. intros h (Hn & Hs & _). split.
  - rewrite !elem_of_app, list_elem_of_singleton. intros [?|[?|?]]; [|done|].
    + by apply (tidy_not_in c_nl _ ltac:(by left) Hs).
    + by apply (tidy_not_in c_nl _ ltac:(by left) Hn).
  - rewrite app_assoc. by apply ends_with_app_tidy.
Qed.

Lemma needs_push_loop_view pod_name hs :
  Forall (fun h => tidy (head_name h) /\ tidy (head_sha h) /\ forall u, h.2 = Some u -> tidy u) hs ->
  needs_push_loop git pod_name (rp_primary v) (map (fun h => head_sha h ++ [c_space] ++ head_name h) hs) =
  Ok (negb (bool_decide (Forall (published v pod_name) hs))).
Proof.
  induction 1 as [|h hs (Hn & Hs & _) _ IH]; [done|]. cbn [map needs_push_loop].
  assert (split_once c_space (head_sha h ++ [c_space] ++ head_name h) = Some (head_sha h, head_name h)) as ->.
  { apply split_once_Some. split; [done|]. by apply (tidy_not_in c_space _ ltac:(by left)). }
  rewrite (ref_matches_view (tracking_ref (head_name h) pod_name)) by exact (tracking_is_remote (head_name h) pod_name). cbn [mbind result_bind].
  rewrite (bool_decide_ext (Forall (published v pod_name) (h :: hs))
             (published v pod_name h /\ Forall (published v pod_name) hs)) by apply Forall_cons.
  unfold published at 1. destruct (bool_decide_reflect (rp_remotes v !! tracking_ref (head_name h) pod_name = Some (head_sha h)))
    as [Ht|Ht]; cbn [negb]; [|rewrite bool_decide_false; [done|by intros [[? _] _]]].
  destruct (bool_decide_reflect (head_name h = rp_primary v)) as [Hp|Hp].
  - rewrite (ref_matches_view (shortcut_ref pod_name)) by exact (shortcut_is_remote pod_name). cbn [mbind result_bind].
    destruct (bool_decide_reflect (rp_remotes v !! shortcut_ref pod_name = Some (head_sha h))) as [Hc|Hc]; cbn [negb]; [|rewrite bool_decide_false; [done|intros [[_ ?] _]; auto]].
    rewrite IH. do 2 f_equal. apply bool_decide_ext. split; [done|by intros [_ ?]].
  - rewrite IH. do 2 f_equal. apply bool_decide_ext. split; [done|by intros [_ ?]].
Qed.

Lemma needs_push_view pod_name :
  needs_push git pod_name = Ok (negb (bool_decide (Forall (published v pod_name) (rp_heads v)))).
Proof.
  unfold needs_push. rewrite primary_view. cbn [mbind result_bind]. rewrite view_branches.
  unfold printed. cbn [context mbind result_bind]. change (ran_ok (mkGitOutput (Some 0%Z) ?a ?b)) with true.
  cbn [negb go_stdout context mbind result_bind]. rewrite branch_lines_view. apply needs_push_loop_view, view_names.
Qed.
End Views.

(** ** Refspecs (pod/git_setup.rs) *)

(** The refspecs [setup_git_impl] configures for the remote [rumpelpod]. *)
Definition push_refspec (pod_name : str) : str := lit "+refs/heads/*:refs/rumpelpod/*@" ++ pod_name.
Definition primary_push (primary pod_name : str) : str :=
  lit "+refs/heads/" ++ primary ++ lit ":refs/rumpelpod/" ++ pod_name.
Definition rumpelpod_fetch : str := lit "+refs/rumpelpod/*:refs/remotes/rumpelpod/*".

(** A refspec applied to a ref, as git documents it: a star on both sides stands for the same
    text. *)
Definition fill (pattern text : str) : str :=
  match split_once c_star pattern with Some (pre, post) => pre ++ text ++ post | None => pattern end.

Definition match_pattern (pattern name : str) : option str :=
  match split_once c_star pattern with
  | Some (pre, post) => rest ← strip_prefix pre name; strip_suffix post rest
  | None => if bool_decide (pattern = name) then Some [] else None
  end.

Definition apply_refspec (spec name : str) : option str :=
  '(src, dst) ← split_once c_colon (default spec (strip_prefix (lit "+") spec));
  text ← match_pattern src name;
  Some (fill dst text).

(** The tracking refs a successful push sets: every local branch that a push refspec matches is
    recorded under the ref that the fetch refspec gives its destination. *)
Definition tracking_updates (specs : list str) (fetch : str)
    (heads : list (list N * list N * option (list N))) : list (list N * list N) :=
  specs ≫= fun spec =>
    omap (fun h => dst ← apply_refspec spec (lit "refs/heads/" ++ head_name h);
                   tracked ← apply_refspec fetch dst;
                   Some (tracked, head_sha h)) heads.

Lemma split_star a b : c_star ∉ a -> split_once c_star (a ++ c_star :: b) = Some (a, b).
Proof. intros Ha. by apply split_once_Some. Qed.

Lemma apply_push_refspec pod_name b :
  apply_refspec (push_refspec pod_name) (lit "refs/heads/" ++ b) = Some (lit "refs/rumpelpod/" ++ b ++ lit "@" ++ pod_name).
Proof.
  unfold apply_refspec, push_refspec.
  change (lit "+refs/heads/*:refs/rumpelpod/*@" ++ pod_name) with
    (lit "+" ++ (lit "refs/heads/*" ++ c_colon :: (lit "refs/rumpelpod/" ++ c_star :: (lit "@" ++ pod_name)))).
  rewrite strip_prefix_app. cbn [default from_option Datatypes.id].
  rewrite (proj2 (split_once_Some c_colon _ (lit "refs/heads/*") _)) by (split; [done|decide_now]).
  cbn [mbind option_bind]. unfold match_pattern.
  change (lit "refs/heads/*") with (lit "refs/heads/" ++ c_star :: []).
  rewrite split_star by decide_now. rewrite strip_prefix_app. cbn [mbind option_bind].
  rewrite (proj2 (strip_suffix_Some [] b b)) by (by rewrite app_nil_r). cbn [mbind option_bind].
  unfold fill. rewrite split_star by decide_now. done.
Qed.

Lemma apply_primary_push primary pod_name b : tidy primary ->
  apply_refspec (primary_push primary pod_name) (lit "refs/heads/" ++ b) =
  if bool_decide (b = primary) then Some (fill (lit "refs/rumpelpod/" ++ pod_name) []) else None.
Proof.
  intros Hp. unfold apply_refspec, primary_push.
  replace (lit "+refs/heads/" ++ primary ++ lit ":refs/rumpelpod/" ++ pod_name) with
    (lit "+" ++ ((lit "refs/heads/" ++ primary) ++ c_colon :: (lit "refs/rumpelpod/" ++ pod_name)))
    by (by rewrite <- !app_assoc).
  rewrite strip_prefix_app. cbn [default from_option Datatypes.id].
  rewrite (proj2 (split_once_Some c_colon _ (lit "refs/heads/" ++ primary) (lit "refs/rumpelpod/" ++ pod_name))).
  2: { split; [done|]. rewrite not_elem_of_app. split; [decide_now|]. apply tidy_not_in; [by right; left|done]. }
  cbn [mbind option_bind]. unfold match_pattern.
  rewrite (proj2 (split_once_None c_star (lit "refs/heads/" ++ primary))).
  2: { rewrite not_elem_of_app. split; [decide_now|]. apply tidy_not_in; [by right; right|done]. }
  destruct (decide (b = primary)) as [->|Hne].
  - by rewrite !bool_decide_true.
  - rewrite !bool_decide_false; [done|done|]. intros E%app_inv_head. done.
Qed.

Lemma apply_fetch_refspec x : apply_refspec rumpelpod_fetch (lit "refs/rumpelpod/" ++ x) = Some (lit "refs/remotes/rumpelpod/" ++ x).
Proof.
  unfold apply_refspec, rumpelpod_fetch.
  change (lit "+refs/rumpelpod/*:refs/remotes/rumpelpod/*") with
    (lit "+" ++ ((lit "refs/rumpelpod/" ++ c_star :: []) ++ c_colon :: (lit "refs/remotes/rumpelpod/" ++ c_star :: []))).
  rewrite strip_prefix_app. cbn [default from_option Datatypes.id].
  rewrite (proj2 (split_once_Some c_colon _ (lit "refs/rumpelpod/" ++ c_star :: []) _)) by (split; [done|decide_now]).
  cbn [mbind option_bind]. unfold match_pattern. rewrite split_star by decide_now. rewrite strip_prefix_app.
  cbn [mbind option_bind]. rewrite (proj2 (strip_suffix_Some [] x x)) by (by rewrite app_nil_r). cbn [mbind option_bind].
  unfold fill. rewrite split_star by decide_now. by rewrite app_nil_r.
Qed.

Definition pod_specs (primary pod_name : str) : list str := [push_refspec pod_name; primary_push primary pod_name].

Lemma tracking_updates_spec primary pod_name heads : tidy primary -> c_star ∉ pod_name ->
  tracking_updates (pod_specs primary pod_name) rumpelpod_fetch heads =
  map (fun h => (tracking_ref (head_name h) pod_name, head_sha h)) heads ++
  map (fun h => (shortcut_ref pod_name, head_sha h)) (filter (fun h => head_name h = primary) heads).
Proof.
  intros Hp Hs. unfold tracking_updates, pod_specs. rewrite !bind_cons. cbn [mbind list_bind]. rewrite app_nil_r. f_equal.
  - induction heads as [|h heads IH]; [done|]. cbn [omap list_omap map]. rewrite apply_push_refspec.
    cbn [mbind option_bind]. rewrite apply_fetch_refspec. cbn [mbind option_bind]. by rewrite IH.
  - induction heads as [|h heads IH]; [done|]. cbn [omap list_omap]. rewrite apply_primary_push by done.
    rewrite filter_cons. case_bool_decide as Hh.
    + rewrite decide_True by done. cbn [mbind option_bind map].
      assert (fill (lit "refs/rumpelpod/" ++ pod_name) [] = lit "refs/rumpelpod/" ++ pod_name) as ->.
      { unfold fill. rewrite (proj2 (split_once_None _ _)); [done|]. rewrite not_elem_of_app. split; [decide_now|done]. }
      rewrite apply_fetch_refspec. cbn [mbind option_bind]. by rewrite IH.
    + rewrite decide_False by done. exact IH.
Qed.

Lemma tracking_ref_inj p b b' : tracking_ref b p = tracking_ref b' p -> b = b'.
Proof. unfold tracking_ref. intros E%app_inv_head. by apply app_inv_tail in E. Qed.

Lemma tracking_not_shortcut p b : tracking_ref b p <> shortcut_ref p.
Proof.
  unfold tracking_ref, shortcut_ref. intros E%app_inv_head. apply (f_equal length) in E. rewrite !length_app in E.
  change (length (lit "@")) with 1 in E. lia.
Qed.

Lemma updates_NoDup primary pod_name heads : NoDup (map head_name heads) ->
  NoDup (map fst (map (fun h => (tracking_ref (head_name h) pod_name, head_sha h)) heads ++
    map (fun h => (shortcut_ref pod_name, head_sha h)) (filter (fun h => head_name h = primary) heads))).
Proof.
  intros Hd. rewrite map_app, !map_map. cbn [fst]. apply NoDup_app. split_and!.
  - rewrite <- (map_map head_name (fun b => tracking_ref b pod_name)).
    apply (NoDup_fmap_2_strong (fun b => tracking_ref b pod_name)); [|done].
    intros x y _ _. apply tracking_ref_inj.
  - intros x Hx Hy. apply list_elem_of_fmap in Hx as (h & -> & _). apply list_elem_of_fmap in Hy as (h' & Hh & _).
    by apply tracking_not_shortcut in Hh.
  - clear -Hd. induction heads as [|h heads IH]; [constructor|]. cbn [map] in Hd. apply NoDup_cons in Hd as [Hn Hd].
    rewrite filter_cons. case_decide as Hh; [|by apply IH]. cbn [map]. apply NoDup_cons. split; [|by apply IH].
    intros Hx. apply list_elem_of_fmap in Hx as (h' & _ & [Hp Hin]%list_elem_of_filter). apply Hn.
    rewrite Hh, <- Hp. by apply (list_elem_of_fmap_2 head_name).
Qed.

(** ** Theorems *)

(** The decision to push is exact.  With the refs of the repository known, [needs_push] says
    yes exactly when some local branch differs from, or lacks, its tracking ref, or the primary
    branch differs from the shortcut of the pod. *)
Theorem needs_push_exact git v pod_name :
  GitView git v ->
  exists outstanding, needs_push git pod_name = Ok outstanding /\
    (outstanding = true <-> exists h, h ∈ rp_heads v /\ ~ published v pod_name h).
Proof.
  intros HV. eexists. split; [by apply needs_push_view|]. rewrite negb_true_iff, bool_decide_eq_false.
  split.
  - intros Hn. by apply not_Forall_Exists, Exists_exists in Hn; [|apply _].
  - intros (h & Hin & Hnot) Hf. rewrite Forall_forall in Hf. by apply Hnot, Hf.
Qed.

(** A successful recovery push leaves nothing outstanding.  Once git has recorded the push
    under the refspecs that the setup of the repository configured, the same check that asked
    for the push is satisfied, so a refresh of the gateway pushes only when something changed
    since. *)
Theorem recovery_push_settles git v v' pod_name :
  GitView git v' -> rp_primary v' = rp_primary v -> rp_heads v' = rp_heads v -> c_star ∉ pod_name ->
  rp_remotes v' = list_to_map (tracking_updates (pod_specs (rp_primary v) pod_name) rumpelpod_fetch (rp_heads v)) ∪ rp_remotes v ->
  needs_push git pod_name = Ok false.
Proof.
  intros HV Hp Hh Hs Hr. rewrite (needs_push_view git v'), bool_decide_true; [done|].
  rewrite Hh. apply Forall_forall. intros h Hin.
  assert (tidy (rp_primary v)) as Ht by (rewrite <- Hp; apply (view_primary (git := git))).
  assert (NoDup (map head_name (rp_heads v))) as Hd by (rewrite <- Hh; apply (view_unique (git := git))).
  rewrite tracking_updates_spec in Hr by done.
  pose proof (updates_NoDup (rp_primary v) pod_name (rp_heads v) Hd) as Hu.
  assert (forall r s, (r, s) ∈ map (fun h => (tracking_ref (head_name h) pod_name, head_sha h)) (rp_heads v) ++
    map (fun h => (shortcut_ref pod_name, head_sha h)) (filter (fun h => head_name h = rp_primary v) (rp_heads v)) ->
    rp_remotes v' !! r = Some s) as Hl.
  { intros r s Hrs. rewrite Hr. apply lookup_union_Some_l. by apply elem_of_list_to_map_1. }
  split.
  - apply Hl. rewrite elem_of_app. left. by apply (list_elem_of_fmap_2 (fun h => (tracking_ref (head_name h) pod_name, head_sha h))).
  - rewrite Hp. intros Hn. apply Hl. rewrite elem_of_app. right.
    apply (list_elem_of_fmap_2 (fun h => (shortcut_ref pod_name, head_sha h))). by apply list_elem_of_filter.
Qed.

Section Payloads.
  Context (git : list str -> option git_output) (git_stdin : list str -> str -> option git_output) (v : repo)
    `{GV : !GitView git v}.

(** The push creates a ref for the branch. *)
Definition creates_ref (pod_name : str) (h : list N * list N * option (list N)) : Prop :=
  rp_remotes v !! tracking_ref (head_name h) pod_name = None \/
  (head_name h = rp_primary v /\ rp_remotes v !! shortcut_ref pod_name = None).

Lemma rev_parse_view r : starts_with (lit "refs/remotes/") r = true ->
  rev_parse_optional git r = Ok (rp_remotes v !! r).
Proof.
  intros Hr. unfold rev_parse_optional. rewrite view_rev_parse by done. destruct (rp_remotes v !! r) as [s|] eqn:E; cbn; [|done].
  by rewrite trim_tidy by (by eapply view_shas).
Qed.

(** The payloads uploaded for a branch. *)
Definition payloads_of (h : list N * list N * option (list N)) (oids : list str) : Prop :=
  exists bases, remote_tracking_ancestors git (head_sha h) = Ok bases /\
    lfs_oids_for_ref_update git git_stdin bases (head_sha h) = Ok oids.

Lemma upload_shape remote oids uploads uploads' :
  upload_lfs_oids git_stdin remote oids uploads = Ok uploads' -> uploads' = uploads \/ uploads' = uploads ++ [oids].
Proof.
  unfold upload_lfs_oids. case_bool_decide; [intros [= ->]; by left|].
  destruct (git_stdin _ _) as [o|]; cbn; [|done]. destruct (ran_ok o); [intros [= <-]; by right|done].
Qed.

Lemma prepare_loop_uploads pod_name hs prepared uploads skip uploads' :
  prepare_loop git git_stdin pod_name (rp_primary v) hs prepared uploads = Ok (skip, uploads') ->
  forall oids, oids ∈ uploads' -> oids ∈ uploads \/ exists h, h ∈ hs /\ creates_ref pod_name h /\ payloads_of h oids.
Proof.
  revert prepared uploads. induction hs as [|[[b s] u] hs IH]; intros prepared uploads; cbn [prepare_loop].
  { intros [= _ <-] oids Ho. by left. }
  rewrite (rev_parse_view (tracking_ref b pod_name)) by exact (tracking_is_remote b pod_name). cbn [mbind result_bind].
  assert (forall oids, (exists h, h ∈ hs /\ creates_ref pod_name h /\ payloads_of h oids) ->
            exists h, h ∈ (b, s, u) :: hs /\ creates_ref pod_name h /\ payloads_of h oids) as Hmore.
  { intros oids (h & Hin & Hh). exists h. split; [by right|done]. }
  set (shortcut := if bool_decide (b = rp_primary v) then _ else _).
  assert (exists new, shortcut = Ok new /\ (new = true -> b = rp_primary v /\ rp_remotes v !! shortcut_ref pod_name = None)) as (new & -> & Hnew).
  { unfold shortcut. case_bool_decide as Hb; [|by exists false].
    rewrite (rev_parse_view (shortcut_ref pod_name)) by exact (shortcut_is_remote pod_name). cbn.
    eexists. split; [done|]. by intros ?%bool_decide_eq_true. }
  cbn [mbind result_bind].
  destruct (negb (bool_decide (rp_remotes v !! tracking_ref b pod_name = None)) && negb new) eqn:En.
  { intros Hr oids Ho. destruct (IH _ _ Hr oids Ho) as [?|?]; [by left|right; auto]. }
  assert (creates_ref pod_name (b, s, u)) as Hc.
  { unfold creates_ref. cbn. apply andb_false_iff in En as [En%negb_false_iff%bool_decide_eq_true|En%negb_false_iff];
      [by left|right; auto]. }
  destruct (remote_tracking_ancestors git s) as [bases|] eqn:Eb; cbn [mbind result_bind]; [|done].
  destruct (bool_decide (bases = [])); [intros [= _ <-] oids Ho; by left|].
  destruct (lfs_oids_for_ref_update git git_stdin bases s) as [oids|] eqn:Eo; cbn [mbind result_bind]; [|done].
  destruct (upload_lfs_oids _ _ _ _) as [up|] eqn:Eu; cbn [mbind result_bind]; [|done].
  intros Hr oids' Ho. destruct (IH _ _ Hr oids' Ho) as [Hin|?]; [|right; auto].
  apply upload_shape in Eu as [->| ->]; [by left|]. rewrite elem_of_app, list_elem_of_singleton in Hin.
  destruct Hin as [?| ->]; [by left|]. right. exists (b, s, u). split; [by left|]. split; [done|]. by exists bases.
Qed.

Lemma parse_head_line h : tidy (head_name h) -> tidy (head_sha h) -> (forall u, h.2 = Some u -> tidy u) ->
  parse_branch_head (head_name h ++ [c_tab] ++ head_sha h ++ [c_tab] ++ default [] h.2) = Ok h.
Proof.
  destruct h as [[b s] u]. unfold head_name, head_sha. cbn [fst snd]. intros Hb Hs Hu. unfold parse_branch_head.
  assert (split_once c_tab (b ++ [c_tab] ++ s ++ [c_tab] ++ default [] u) = Some (b, s ++ [c_tab] ++ default [] u)) as ->.
  { apply split_once_Some. split; [done|]. by apply (tidy_not_in c_tab _ ltac:(by left)). }
  cbn [context mbind result_bind].
  assert (split_once c_tab (s ++ [c_tab] ++ default [] u) = Some (s, default [] u)) as ->.
  { apply split_once_Some. split; [done|]. by apply (tidy_not_in c_tab _ ltac:(by left)). }
  cbn [context mbind result_bind]. destruct u as [u|]; cbn; [|done].
  rewrite bool_decide_false; [done|]. by destruct (Hu u eq_refl).
Qed.

Lemma mapM_heads hs :
  Forall (fun h => tidy (head_name h) /\ tidy (head_sha h) /\ forall u, h.2 = Some u -> tidy u) hs ->
  mapM parse_branch_head
    (map (fun h => head_name h ++ [c_tab] ++ head_sha h ++ [c_tab] ++ default [] h.2) hs) = Ok hs.
Proof.
  induction 1 as [|h hs (Hn & Hs & Hu) _ IH]; [done|]. cbn [map mapM]. rewrite parse_head_line by done.
  cbn [mbind result_bind]. by rewrite IH.
Qed.

Lemma head_line_ok h : tidy (head_name h) -> tidy (head_sha h) -> (forall u, h.2 = Some u -> tidy u) ->
  line_ok (head_name h ++ [c_tab] ++ head_sha h ++ [c_tab] ++ default [] h.2).
Proof.
  destruct h as [[b s] u]. unfold head_name, head_sha. cbn [fst snd]. intros Hb Hs Hu. split.
  - rewrite !not_elem_of_app, !not_elem_of_cons. split_and!; try done; try (by apply not_elem_of_nil);
      try (by apply (tidy_not_in c_nl _ ltac:(by left))).
    destruct u as [u|]; cbn; [|apply not_elem_of_nil]. apply (tidy_not_in c_nl _ ltac:(by left)). by apply Hu.
  - destruct u as [u|]; cbn [default from_option Datatypes.id].
    + rewrite !app_assoc. by apply ends_with_app_tidy, Hu.
    + rewrite app_nil_r, !app_assoc. apply bool_decide_eq_false. intros [r Hr%strip_suffix_Some].
      by apply app_inj_tail in Hr as [_ ?].
Qed.

Lemma heads_view : local_branch_heads git = Ok (rp_heads v).
Proof.
  unfold local_branch_heads. rewrite view_heads. unfold printed. cbn [context mbind result_bind].
  change (ran_ok (mkGitOutput (Some 0%Z) ?a ?b)) with true. cbn [negb go_stdout context mbind result_bind].
  rewrite lines_unlines; [apply mapM_heads, view_names|]. apply Forall_map.
  eapply Forall_impl; [apply view_names|]. intros h (Hn & Hs & Hu). by apply head_line_ok.
Qed.

(** A recovery push can leave Git LFS payloads behind.  When it has created refs it tells Git
    LFS to skip its own upload for the whole push, but it uploads payloads only for the branches
    whose refs it creates: a payload that occurs only in branches whose refs already exist, such
    as a branch that moved while the gateway was away, is not uploaded. *)
Theorem updated_payloads_skipped push pod_name uploads x :
  recover_push git git_stdin push pod_name = Ok (Some (true, uploads)) ->
  (forall h oids, h ∈ rp_heads v -> creates_ref pod_name h -> payloads_of h oids -> x ∉ oids) ->
  x ∉ mjoin uploads.
Proof.
  unfold recover_push. destruct (needs_push git pod_name) as [[]|]; cbn [mbind result_bind negb]; [|done..].
  unfold prepare_lfs_for_rumpelpod_push. destruct (git_lfs_available git) as [[]|]; cbn [mbind result_bind negb].
  3: done.
  2: destruct (push false) as [o|]; cbn; [|done]; by destruct (ran_ok o).
  rewrite (primary_view git v). cbn [mbind result_bind]. rewrite heads_view. cbn [mbind result_bind].
  destruct (prepare_loop _ _ _ _ _ _ _) as [[skip up]|] eqn:Ep; cbn [mbind result_bind]; [|done].
  destruct (push skip) as [o|]; cbn; [|done]. destruct (ran_ok o); cbn; [|done]. intros [= -> ->] Hx Hin.
  apply list_elem_of_join in Hin as (oids & Hin & Ho).
  destruct (prepare_loop_uploads _ _ _ _ _ _ Ep oids Ho) as [Hnil|(h & Hh & Hc & Hp)].
  - by apply not_elem_of_nil in Hnil.
  - exact (Hx h oids Hh Hc Hp Hin).
Qed.
End Payloads.

(** ** Witnesses *)

Module ExampleRepo.
Definition moved : repo :=
  mkRepo (lit "main") [(lit "feature", lit "bb", None); (lit "main", lit "aa", Some (lit "refs/remotes/host/main"))]
    (list_to_map [(tracking_ref (lit "main") (lit "pod"), lit "a0"); (shortcut_ref (lit "pod"), lit "a0")]).

Definition oid (c : char) : str := replicate 64 c.

Definition pointer : str :=
  unlines [lit "version https://git-lfs.github.com/spec/v1"; lit "oid sha256:" ++ oid 98%N; lit "size 5"].

Definition git (v : repo) (args : list str) : option git_output :=
  if bool_decide (args = POD_NAME_ARGS) then printed (rp_primary v ++ [c_nl])
  else if bool_decide (args = BRANCHES_ARGS) then
    printed (unlines (map (fun h => head_sha h ++ [c_space] ++ head_name h) (rp_heads v)))
  else if bool_decide (args = HEADS_ARGS) then
    printed (unlines (map (fun h => head_name h ++ [c_tab] ++ head_sha h ++ [c_tab] ++ default [] h.2) (rp_heads v)))
  else if bool_decide (args = REMOTES_ARGS) then printed (lit "a0" ++ [c_nl])
  else if bool_decide (args = LFS_VERSION_ARGS) then printed []
  else
    match args with
    | [_; _; _; r] =>
        if bool_decide (args = REV_PARSE_ARGS r) then
          match rp_remotes v !! r with Some s => printed (s ++ [c_nl]) | None => absent end
        else printed []
    | [_; _; _] => printed pointer
    | _ => printed (lit "b1 data.bin" ++ [c_nl])
    end.

Definition git_stdin (args : list str) (input : str) : option git_output :=
  if bool_decide (args = BATCH_CHECK_ARGS) then printed (lit "b1 blob 120" ++ [c_nl]) else printed [].

Definition push (skip : bool) : option git_output := printed [].

Lemma git_view v :
  tidy (rp_primary v) ->
  Forall (fun h => tidy (head_name h) /\ tidy (head_sha h) /\ forall u, h.2 = Some u -> tidy u) (rp_heads v) ->
  NoDup (map head_name (rp_heads v)) -> map_Forall (fun _ s => tidy s) (rp_remotes v) -> GitView (git v) v.
Proof.
  intros Hp Hn Hd Hs. split; try done.
  intros r Hr. unfold git. repeat (rewrite bool_decide_false by (intros [=])). cbn [REV_PARSE_ARGS].
  by rewrite bool_decide_true.
Qed.

Lemma upstream_tidy (u : option (list N)) : match u with Some u => bool_decide (tidy u) | None => true end = true ->
  forall x, u = Some x -> tidy x.
Proof. destruct u as [u|]; [|done]. intros H%bool_decide_eq_true x [= <-]. done. Qed.

Lemma example_heads_tidy :
  Forall (fun h => tidy (head_name h) /\ tidy (head_sha h) /\ forall u, h.2 = Some u -> tidy u) (rp_heads moved).
Proof.
  apply Forall_cons; split; [|apply Forall_cons; split; [|apply Forall_nil; exact I]].
  all: split; [decide_now|split; [decide_now|apply upstream_tidy; vm_compute; reflexivity]].
Qed.

#[export] Instance moved_view : GitView (git moved) moved.
Proof.
  apply git_view.
  - decide_now.
  - exact example_heads_tidy.
  - decide_now.
  - decide_now.
Qed.

Definition settled : repo :=
  mkRepo (rp_primary moved) (rp_heads moved)
    (list_to_map (tracking_updates (pod_specs (lit "main") (lit "pod")) rumpelpod_fetch (rp_heads moved)) ∪ rp_remotes moved).

#[export] Instance settled_view : GitView (git settled) settled.
Proof.
  apply git_view.
  - decide_now.
  - exact example_heads_tidy.
  - decide_now.
  - decide_now.
Qed.
End ExampleRepo.

Import ExampleRepo.

Lemma needs_push_exact_witness : exists h, h ∈ rp_heads moved /\ ~ published moved (lit "pod") h.
Proof.
  destruct (needs_push_exact (git moved) moved (lit "pod") moved_view) as (o & E & Ho).
  apply Ho. vm_compute in E. injection E as <-. reflexivity.
Defined.

Lemma recovery_push_settles_witness : needs_push (git settled) (lit "pod") = Ok false.
Proof.
  apply (recovery_push_settles (git settled) moved settled (lit "pod"));
    [exact settled_view|reflexivity|reflexivity| |reflexivity].
  apply (bool_decide_unpack _). vm_compute. exact I.
Defined.

Lemma updated_payloads_skipped_witness :
  recover_push (git moved) git_stdin push (lit "pod") = Ok (Some (true, [[oid 98%N]])) /\
  oid 97%N ∉ mjoin [[oid 98%N]].
Proof.
  assert (recover_push (git moved) git_stdin push (lit "pod") = Ok (Some (true, [[oid 98%N]]))) as E
    by (vm_compute; reflexivity).
  split; [exact E|].
  apply (updated_payloads_skipped (git moved) git_stdin moved push (lit "pod") _ _ E).
  intros h oids Hin Hc (bases & Hb & Ho). apply elem_of_cons in Hin as [->|Hin].
  - vm_compute in Hb. injection Hb as <-. vm_compute in Ho. injection Ho as <-.
    apply (bool_decide_unpack _). vm_compute. exact I.
  - apply list_elem_of_singleton in Hin as ->. vm_compute in Hb. injection Hb as <-. vm_compute in Ho. injection Ho as <-.
    apply (bool_decide_unpack _). vm_compute. exact I.
Defined.
