(* ===== verification/Pty.v ===== *)
(** * Terminal sessions that outlive their clients (pty_session.rs)

    A child on a pseudo-terminal is kept under a name, so that a client can detach and come
    back.  Sessions are created, replaced and terminated by concurrent tasks; a lock per name,
    kept in a table of weak references, serialises them.  The steps below are the critical
    sections of the code: between two steps of a task any other task, the reader of a terminal
    or a child may run.

    A session is identified by its id: the entry of that id in [terminals] stands for its
    descriptor, its child, its screen and its output channel, which are created together.
    Process ids are not reused in the model. *)
From stdpp Require Import gmap.
From S2P Require Import Prelude Strs.

Abbreviation size2 := (N * N)%type.

(** ** Data *)

(** The background task that reads the output of a child: reading, at the end of the output
    but not yet past [remove_session], or finished. *)
Inductive reader := Reading | Removing | Gone.

#[export] Instance reader_eq_dec : EqDecision reader.
Proof. solve_decision. Defined.

Record terminal := mkTerminal {
  tm_name : str;
  tm_alive : bool;       (* the child has not exited *)
  tm_reader : reader;
  tm_killed : bool;      (* [kill] was called for the child *)
  tm_winsize : size2;
  tm_screen : size2;
  tm_replaced : bool;    (* [Replaced] was sent to its clients *)
}.

#[export] Instance terminal_updatable : Updatable terminal := fun t =>
  mkTerminal (tm_name t) (tm_alive t) (tm_reader t) (tm_killed t) (tm_winsize t) (tm_screen t) (tm_replaced t).

Record PtySessions := mkPtySessions {
  inner : gmap (list N) N;
  next_id : N;
  terminals : gmap N terminal;
}.

#[export] Instance PtySessions_updatable : Updatable PtySessions := fun s =>
  mkPtySessions (inner s) (next_id s) (terminals s).

(** ** Operations under the lock of the table *)

Definition set_winsize (size : size2) (id : N) (s : PtySessions) : PtySessions :=
  s <| terminals ::= alter (fun t => t <| tm_winsize := size |>) id |>.

Definition set_screen (size : size2) (id : N) (s : PtySessions) : PtySessions :=
  s <| terminals ::= alter (fun t => t <| tm_screen := size |>) id |>.

(** [child_is_alive] *)
Definition child_is_alive (id : N) (s : PtySessions) : bool := is_some_and tm_alive (terminals s !! id).

(** [attach_existing] up to the release of the table; [ioctl] tells whether the size of the
    terminal could be set. *)
Definition attach_existing (ioctl : bool) (name : str) (size : size2) (s : PtySessions)
    : PtySessions * result str (option N) :=
  let s := match inner s !! name with
           | Some id => if child_is_alive id s then s else s <| inner ::= delete name |>
           | None => s
           end in
  match inner s !! name with
  | None => (s, Ok None)
  | Some id => if ioctl then (set_winsize size id s, Ok (Some id)) else (s, Err (lit "ioctl TIOCSWINSZ"))
  end.

(** [next_session_id]: [None] is the panic. *)
Definition next_session_id (s : PtySessions) : option (N * PtySessions) :=
  if bool_decide (next_id s < 2 ^ 64 - 1)%N then Some (next_id s, s <| next_id ::= N.succ |>) else None.

(** [spawn_session]; [ok] tells whether the command line is not empty and the system calls
    succeed. *)
Definition spawn_session (ok : bool) (name : str) (size : size2) (s : PtySessions)
    : run (result str (N * PtySessions)) :=
  if negb ok then Returned (Err (lit "forkpty"))
  else
    '(id, s) ← or_panic (next_session_id s);
    Returned (Ok (id, s <| terminals ::= <[id := mkTerminal name true Reading false size size false]> |>)).

(** [resize] *)
Definition resize (name : str) (size : size2) (s : PtySessions) : result str PtySessions :=
  match inner s !! name with
  | None => Err (lit "no such pty session: " ++ name)
  | Some id => Ok (set_screen size id (set_winsize size id s))
  end.

(** [remove_session] *)
Definition remove_session (name : str) (id : N) (s : PtySessions) : PtySessions :=
  if bool_decide (inner s !! name = Some id) then s <| inner ::= delete name |> else s.

(** [SessionWatch::is_current] *)
Definition is_current (name : str) (id : N) (s : PtySessions) : bool := bool_decide (inner s !! name = Some id).

(** ** Tasks *)

(** What a task does once it has the lock of its name. *)
Inductive critical := Recheck | Replace (id : N) | Terminate.

Inductive outcome := Attached (id : N) | Missing | Unavailable | WasReplaced (yes : bool) | Terminated | Failed | Crashed.

(** Where a task is: [spawn_or_attach] starts at [Attach], [SessionWatch::replace] at
    [Locking (Replace id)] and [terminate_with_cleanup] at [Locking Terminate]. *)
Inductive pc :=
| Attach (create : bool)
| Locking (k : critical) | Waiting (k : critical) | Locked (k : critical)
| Build | Insert (id : N) | Reattach
| SetSize (locked : bool) (id : N)
| ReplaceBuild (id : N) | ReplaceSwap (id : N) (size : size2) | ReplaceNotify (old : N) | ReplaceKill (old : N)
| TerminateKill (id : N)
| Done (r : outcome).

#[export] Instance critical_eq_dec : EqDecision critical.
Proof. solve_decision. Defined.
#[export] Instance outcome_eq_dec : EqDecision outcome.
Proof. solve_decision. Defined.
#[export] Instance pc_eq_dec : EqDecision pc.
Proof. solve_decision. Defined.

(** What the system and the caller's builder answer in a step: [built] is an error, no
    specification, or one with its session name. *)
Record answers := mkAnswers {
  ioctl_ok : bool;
  built : result str (option str);
  spawn_ok : bool;
  kill_ok : bool;
}.

Definition after_attach (locked : bool) (none : pc) (r : result str (option N)) : pc :=
  match r with
  | Ok (Some id) => SetSize locked id
  | Ok None => none
  | Err _ => Done Failed
  end.

(** [build_spec] and the check of the session name. *)
Definition after_build (name : str) (b : result str (option str)) (unavailable : outcome) (next : pc) : pc :=
  match b with
  | Err _ => Done Failed
  | Ok None => Done unavailable
  | Ok (Some spec_name) => if bool_decide (spec_name = name) then next else Done Failed
  end.

Definition kill (ok : bool) (id : N) (r : outcome) (s : PtySessions) : PtySessions * pc :=
  (s <| terminals ::= alter (fun t => t <| tm_killed := true |>) id |>, Done (if ok then r else Failed)).

(** One step of a task that does not touch the locks. *)
Definition run_pc (a : answers) (name : str) (size : size2) (p : pc) (s : PtySessions) : option (PtySessions * pc) :=
  match p with
  | Attach create =>
      let '(s, r) := attach_existing (ioctl_ok a) name size s in
      Some (s, after_attach false (if create then Locking Recheck else Done Missing) r)
  | Locked Recheck =>
      let '(s, r) := attach_existing (ioctl_ok a) name size s in
      Some (s, after_attach true Build r)
  | Build =>
      match after_build name (built a) Unavailable Build with
      | Build =>
          match spawn_session (spawn_ok a) name size s with
          | Returned (Ok (id, s)) => Some (s, Insert id)
          | Returned (Err _) => Some (s, Done Failed)
          | _ => Some (s, Done Crashed)
          end
      | p => Some (s, p)
      end
  | Insert id => Some (s <| inner ::= <[name := id]> |>, Reattach)
  | Reattach =>
      let '(s, r) := attach_existing (ioctl_ok a) name size s in
      Some (s, after_attach true (Done Missing) r)
  | SetSize _ id => Some (set_screen size id s, Done (Attached id))
  | Locked (Replace id) => Some (s, if is_current name id s then ReplaceBuild id else Done (WasReplaced false))
  | ReplaceBuild id =>
      Some (s, after_build name (built a) (WasReplaced false)
                 (ReplaceSwap id (default (0, 0)%N (tm_screen <$> terminals s !! id))))
  | ReplaceSwap id size =>
      match inner s !! name with
      | None => Some (s, Done (WasReplaced false))
      | Some old =>
          if negb (bool_decide (old = id)) || negb (child_is_alive old s) then Some (s, Done (WasReplaced false))
          else
            match spawn_session (spawn_ok a) name size s with
            | Returned (Ok (new, s)) => Some (s <| inner ::= <[name := new]> |>, ReplaceNotify old)
            | Returned (Err _) => Some (s, Done Failed)
            | _ => Some (s, Done Crashed)
            end
      end
  | ReplaceNotify old =>
      Some (s <| terminals ::= alter (fun t => t <| tm_replaced := true |>) old |>, ReplaceKill old)
  | ReplaceKill old => Some (kill (kill_ok a) old (WasReplaced true) s)
  | Locked Terminate =>
      Some (s <| inner ::= delete name |>,
            match inner s !! name with Some id => TerminateKill id | None => Done Terminated end)
  | TerminateKill id => Some (kill (kill_ok a) id Terminated s)
  | Locking _ | Waiting _ | Done _ => None
  end.

(** ** The locks *)

Record ptask := mkPtask {
  pt_name : str;
  pt_size : size2;
  pt_lock : option nat;    (* the strong reference to the lock of its name *)
  pt_pc : pc;
}.

#[export] Instance ptask_updatable : Updatable ptask := fun t => mkPtask (pt_name t) (pt_size t) (pt_lock t) (pt_pc t).

Record pty_world := mkPtyWorld {
  sess : PtySessions;
  creation_locks : gmap (list N) nat;   (* weak references *)
  next_lock : nat;
  lock_holder : gmap nat nat;           (* the locks that are held, with the task *)
  ptasks : gmap nat ptask;
}.

#[export] Instance pty_world_updatable : Updatable pty_world := fun w =>
  mkPtyWorld (sess w) (creation_locks w) (next_lock w) (lock_holder w) (ptasks w).

Definition pty_new : pty_world := mkPtyWorld (mkPtySessions ∅ 1 ∅) ∅ 0 ∅ ∅.

(** [strong_count() > 0] *)
Definition referenced (w : pty_world) (l : nat) : Prop := map_Exists (fun _ t => pt_lock t = Some l) (ptasks w).

#[export] Instance referenced_dec w l : Decision (referenced w l).
Proof. unfold referenced. apply _. Defined.

(** [creation_lock] *)
Definition creation_lock (name : str) (w : pty_world) : nat * pty_world :=
  let w := w <| creation_locks ::= filter (fun kv => referenced w kv.2) |> in
  match creation_locks w !! name with
  | Some l => (l, w)
  | None => (next_lock w, w <| creation_locks ::= <[name := next_lock w]> |> <| next_lock ::= S |>)
  end.

Definition goto (t : nat) (p : pc) (w : pty_world) : pty_world :=
  w <| ptasks ::= alter (fun k => k <| pt_pc := p |>) t |>.

(** A task that is done gives up the lock, and later its reference to it. *)
Definition unlock (t : nat) (w : pty_world) : pty_world :=
  w <| lock_holder ::= filter (fun kv => kv.2 <> t) |>.

Definition is_done (p : pc) : bool := match p with Done _ => true | _ => false end.

Definition task_step (a : answers) (t : nat) (w : pty_world) : option pty_world :=
  k ← ptasks w !! t;
  match pt_pc k with
  | Locking c =>
      let '(l, w) := creation_lock (pt_name k) w in
      Some (w <| ptasks ::= <[t := k <| pt_lock := Some l |> <| pt_pc := Waiting c |>]> |>)
  | Waiting c =>
      l ← pt_lock k;
      if bool_decide (lock_holder w !! l = None) then Some (goto t (Locked c) (w <| lock_holder ::= <[l := t]> |>))
      else None
  | Done _ => Some (w <| ptasks ::= delete t |>)
  | p =>
      '(s, p) ← run_pc a (pt_name k) (pt_size k) p (sess w);
      let w := goto t p (w <| sess := s |>) in
      Some (if is_done p then unlock t w else w)
  end.

(** How a task may start; the watch of a session can only be had from that session. *)
Definition start_ok (name : str) (p : pc) (s : PtySessions) : Prop :=
  match p with
  | Attach _ | Locking Terminate => True
  | Locking (Replace id) => tm_name <$> terminals s !! id = Some name
  | _ => False
  end.

Definition upd_terminal (id : N) (f : terminal -> terminal) (w : pty_world) : pty_world :=
  w <| sess ::= fun s => s <| terminals ::= alter f id |> |>.

Inductive pty_step (w : pty_world) : pty_world -> Prop :=
| p_start t name size p :
    ptasks w !! t = None -> start_ok name p (sess w) ->
    pty_step w (w <| ptasks ::= <[t := mkPtask name size None p]> |>)
| p_task a t w' : task_step a t w = Some w' -> pty_step w w'
| p_resize name size s' : resize name size (sess w) = Ok s' -> pty_step w (w <| sess := s' |>)
| p_exit id : pty_step w (upd_terminal id (fun t => t <| tm_alive := false |>) w)
| p_reader_end id tm :
    terminals (sess w) !! id = Some tm -> tm_reader tm = Reading ->
    pty_step w (upd_terminal id (fun t => t <| tm_reader := Removing |>) w)
| p_reader_remove id tm :
    terminals (sess w) !! id = Some tm -> tm_reader tm = Removing ->
    pty_step w (upd_terminal id (fun t => t <| tm_reader := Gone |>)
                 (w <| sess ::= remove_session (tm_name tm) id |>)).

Definition pty_reachable (w : pty_world) : Prop := rtc pty_step pty_new w.

(** ** The locks serialise the tasks of a name *)

Definition holding (p : pc) : bool :=
  match p with
  | Attach _ | Locking _ | Waiting _ | Done _ | SetSize false _ => false
  | _ => true
  end.

Record lock_inv (w : pty_world) : Prop := {
  lk_ref t k l : ptasks w !! t = Some k -> pt_lock k = Some l -> creation_locks w !! pt_name k = Some l;
  lk_held l t : lock_holder w !! l = Some t ->
    exists k, ptasks w !! t = Some k /\ pt_lock k = Some l /\ holding (pt_pc k) = true;
  lk_holds t k : ptasks w !! t = Some k -> holding (pt_pc k) = true ->
    exists l, pt_lock k = Some l /\ lock_holder w !! l = Some t;
  lk_fresh n l : creation_locks w !! n = Some l -> l < next_lock w;
}.

Lemma lock_exclusive w t1 t2 k1 k2 :
  lock_inv w -> ptasks w !! t1 = Some k1 -> ptasks w !! t2 = Some k2 -> pt_name k1 = pt_name k2 ->
  holding (pt_pc k1) = true -> holding (pt_pc k2) = true -> t1 = t2.
Proof.
  intros [] H1 H2 Hn Hh1 Hh2.
  destruct (lk_holds0 _ _ H1 Hh1) as (l1 & Hl1 & Ho1), (lk_holds0 _ _ H2 Hh2) as (l2 & Hl2 & Ho2).
  apply (lk_ref0 _ _ _ H1) in Hl1. apply (lk_ref0 _ _ _ H2) in Hl2. congruence.
Qed.

(** The steps that do not touch the locks. *)
Lemma run_pc_holding a name size p s s' p' :
  run_pc a name size p s = Some (s', p') -> holding p' = holding p \/ is_done p' = true.
Proof.
  intros H.
  assert (forall ioctl s1 r b q, attach_existing ioctl name size s = (s1, r) -> holding q = b \/ is_done q = true ->
            holding (after_attach b q r) = b \/ is_done (after_attach b q r) = true) as Ha.
  { intros ioctl s1 r b q _ Hq. destruct r as [[|]|]; cbn; auto. by destruct b; left. }
  destruct p as [create|[]|[]|[| |]| | | |lk ?| | | | | |]; cbn [run_pc] in H; try discriminate.
  1: destruct (attach_existing _ _ _ _) as [s1 r] eqn:E; injection H as <- <-; eapply Ha; [done|]; destruct create; auto.
  all: try (destruct (attach_existing _ _ _ _) as [s1 r] eqn:E; injection H as <- <-; eapply Ha; [done|]; auto).
  all: unfold after_build, kill in *; repeat (case_match; simplify_eq/=; auto); simplify_eq/=; auto.
Qed.

Lemma lock_inv_same w w' :
  lock_inv w -> creation_locks w' = creation_locks w -> next_lock w' = next_lock w ->
  lock_holder w' = lock_holder w -> ptasks w' = ptasks w -> lock_inv w'.
Proof. intros [] H1 H2 H3 H4. constructor; rewrite ?H1, ?H2, ?H3, ?H4; eauto. Qed.

Lemma lock_inv_goto w t k p :
  lock_inv w -> ptasks w !! t = Some k -> holding p = holding (pt_pc k) -> lock_inv (goto t p w).
Proof.
  intros [] Ht Hp. unfold goto. constructor; rproj.
  - intros t' k' l [(<- & k0 & ? & ->)|[? ?]]%lookup_alter_Some; rproj; eauto.
  - intros l t' (k0 & H1 & H2 & H3)%lk_held0. destruct (decide (t' = t)) as [->|Hne].
    + rewrite lookup_alter_eq, H1. eexists. split; [done|]. rproj. split; [done|]. by simplify_eq; rewrite Hp.
    + rewrite lookup_alter_ne by done. eauto.
  - intros t' k' [(<- & k0 & ? & ->)|[? ?]]%lookup_alter_Some; rproj; [|eauto]. simplify_eq. rewrite Hp. eauto.
  - eauto.
Qed.

Lemma lock_inv_finish w t k p :
  lock_inv w -> ptasks w !! t = Some k -> holding p = false -> lock_inv (unlock t (goto t p w)).
Proof.
  intros [] Ht Hp. unfold unlock, goto. constructor; rproj.
  - intros t' k' l [(<- & k0 & ? & ->)|[? ?]]%lookup_alter_Some; rproj; eauto.
  - intros l t' [H Hne]%map_lookup_filter_Some. cbn in Hne. rewrite lookup_alter_ne by done. eauto.
  - intros t' k' [(<- & k0 & ? & ->)|[Hne Hk]]%lookup_alter_Some Hh; rproj; [congruence|].
    destruct (lk_holds0 _ _ Hk Hh) as (l & Hl & Ho). exists l. split; [done|].
    apply map_lookup_filter_Some. split; [done|]. cbn. congruence.
  - eauto.
Qed.

Lemma creation_lock_spec w name l w' :
  lock_inv w -> creation_lock name w = (l, w') ->
  ptasks w' = ptasks w /\ lock_holder w' = lock_holder w /\ sess w' = sess w /\
  creation_locks w' !! name = Some l /\
  (forall t k l', ptasks w !! t = Some k -> pt_lock k = Some l' -> creation_locks w' !! pt_name k = Some l') /\
  (forall n l', creation_locks w' !! n = Some l' -> l' < next_lock w').
Proof.
  intros [] H. unfold creation_lock in H. cbv zeta in H. rproj.
  set (kept := filter (fun kv : list N * nat => referenced w kv.2) (creation_locks w)) in H.
  assert (forall t k l', ptasks w !! t = Some k -> pt_lock k = Some l' -> kept !! pt_name k = Some l') as Hk.
  { intros t k l' Ht Hl. apply map_lookup_filter_Some. split; [eauto|]. by exists t, k. }
  assert (forall n l', kept !! n = Some l' -> l' < next_lock w) as Hf.
  { intros n l' [? _]%map_lookup_filter_Some. eauto. }
  destruct (kept !! name) as [l0|] eqn:E; injection H as <- <-; rproj.
  - split_and!; try done.
  - split_and!; try done.
    + apply lookup_insert_eq.
    + intros t k l' Ht Hl. specialize (Hk t k l' Ht Hl). rewrite lookup_insert_ne; [done|].
      intros Hn. rewrite Hn, Hk in E. done.
    + intros n l' [[<- <-]|[_ Hn%Hf]]%lookup_insert_Some; lia.
Qed.

Lemma lock_inv_locking w t k l w' p :
  lock_inv w -> ptasks w !! t = Some k -> holding (pt_pc k) = false -> holding p = false ->
  creation_lock (pt_name k) w = (l, w') ->
  lock_inv (w' <| ptasks ::= <[t := k <| pt_lock := Some l |> <| pt_pc := p |>]> |>).
Proof.
  intros Hw Ht Hh Hp Hc. destruct (creation_lock_spec _ _ _ _ Hw Hc) as (E1 & E2 & _ & Hl & Hr & Hf).
  destruct Hw. constructor; rproj.
  - intros t' k' l' [[<- <-]|[? H]]%lookup_insert_Some; rproj; [congruence|]. rewrite E1 in H. eauto.
  - intros l' t'. rewrite E2, E1. intros (k0 & H1 & H2 & H3)%lk_held0.
    rewrite lookup_insert_ne; [eauto|]. intros <-. simplify_eq. congruence.
  - intros t' k' [[<- <-]|[? H]]%lookup_insert_Some; rproj; [congruence|]. rewrite E1 in H. rewrite E2. eauto.
  - eauto.
Qed.

Lemma lock_inv_acquire w t k l p :
  lock_inv w -> ptasks w !! t = Some k -> holding (pt_pc k) = false -> pt_lock k = Some l ->
  lock_holder w !! l = None -> holding p = true ->
  lock_inv (goto t p (w <| lock_holder ::= <[l := t]> |>)).
Proof.
  intros [] Ht Hh Hl Hno Hp. unfold goto. constructor; rproj.
  - intros t' k' l' [(<- & k0 & ? & ->)|[? ?]]%lookup_alter_Some; rproj; eauto.
  - intros l' t' [[<- <-]|[Hne H]]%lookup_insert_Some.
    + rewrite lookup_alter_eq, Ht. eexists. split; [done|]. by rproj.
    + destruct (lk_held0 _ _ H) as (k0 & H1 & H2 & H3). rewrite lookup_alter_ne; [eauto|].
      intros <-. simplify_eq.
  - intros t' k' [(<- & k0 & ? & ->)|[Hne Hk]]%lookup_alter_Some Hhold; rproj.
    + simplify_eq. exists l. by rewrite lookup_insert_eq.
    + destruct (lk_holds0 _ _ Hk Hhold) as (l' & Hl' & Ho). exists l'. split; [done|].
      rewrite lookup_insert_ne; [done|]. congruence.
  - eauto.
Qed.

(** How a step of a task looks to the invariants. *)
Inductive task_case (w : pty_world) (t : nat) (k : ptask) : pty_world -> Prop :=
| tc_locking c l w1 :
    pt_pc k = Locking c -> creation_lock (pt_name k) w = (l, w1) ->
    task_case w t k (w1 <| ptasks ::= <[t := k <| pt_lock := Some l |> <| pt_pc := Waiting c |>]> |>)
| tc_acquire c l :
    pt_pc k = Waiting c -> pt_lock k = Some l -> lock_holder w !! l = None ->
    task_case w t k (goto t (Locked c) (w <| lock_holder ::= <[l := t]> |>))
| tc_drop r : pt_pc k = Done r -> task_case w t k (w <| ptasks ::= delete t |>)
| tc_run a s p :
    run_pc a (pt_name k) (pt_size k) (pt_pc k) (sess w) = Some (s, p) ->
    task_case w t k (let w := goto t p (w <| sess := s |>) in if is_done p then unlock t w else w).

Lemma task_step_case a t w w' :
  task_step a t w = Some w' -> exists k, ptasks w !! t = Some k /\ task_case w t k w'.
Proof.
  unfold task_step. intros (k & Hk & H)%bind_Some. exists k. split; [done|].
  destruct (pt_pc k) eqn:Ep; cbn [mbind option_bind] in H.
  all: try (apply bind_Some in H as ([s' p'] & Hr & [= <-]); eapply tc_run; by rewrite Ep).
  - destruct (creation_lock _ _) as [l w1] eqn:El. injection H as <-. by eapply tc_locking.
  - apply bind_Some in H as (l & Hl & H). case_bool_decide; [|done]. injection H as <-. by eapply tc_acquire.
  - injection H as <-. by eapply tc_drop.
Qed.

Lemma lock_inv_step w w' : lock_inv w -> pty_step w w' -> lock_inv w'.
Proof.
  intros Hw [t name size p Ht Hs|a t w1 H|name size s' _|id|id tm _ _|id tm _ _]; try (by apply (lock_inv_same w)).
  - assert (holding p = false) as Hp by (destruct p; try done).
    destruct Hw. constructor; rproj.
    + intros t' k l [[<- <-]|[_ ?]]%lookup_insert_Some; [done|eauto].
    + intros l t' (k & H1 & H2 & H3)%lk_held0. rewrite lookup_insert_ne; [eauto|]. congruence.
    + intros t' k [[<- <-]|[_ ?]]%lookup_insert_Some; rproj; [cbn; congruence|eauto].
    + eauto.
  - destruct (task_step_case _ _ _ _ H) as (k & Hk & [c l w2 Ep Hc|c l Ep Hl Hno|r Ep|a' s p Hr]).
    + eapply lock_inv_locking; [done|done| |done|done]. by rewrite Ep.
    + eapply lock_inv_acquire; [done|done| |done|done|done]. by rewrite Ep.
    + destruct Hw. constructor; rproj.
      * intros t' k' l [_ ?]%lookup_delete_Some. eauto.
      * intros l t' (k' & H1 & H2 & H3)%lk_held0. rewrite lookup_delete_ne; [eauto|].
        intros <-. simplify_eq. by rewrite Ep in H3.
      * intros t' k' [_ ?]%lookup_delete_Some. eauto.
      * eauto.
    + cbv zeta. destruct (run_pc_holding _ _ _ _ _ _ _ Hr) as [Hh|Hd].
      * destruct (is_done p) eqn:Ed.
        -- apply (lock_inv_finish _ _ k); [by apply (lock_inv_same w)|done|by destruct p].
        -- apply (lock_inv_goto _ _ k); [by apply (lock_inv_same w)|done|done].
      * rewrite Hd. apply (lock_inv_finish _ _ k); [by apply (lock_inv_same w)|done|by destruct p].
Qed.

Lemma lock_inv_new : lock_inv pty_new.
Proof. constructor; cbn; intros *; by rewrite lookup_empty. Qed.

(** ** No child is forgotten *)

(** A child that can still be used: it runs, its output is read and nobody told it to end. *)
Definition usable (tm : terminal) : Prop := tm_alive tm = true /\ tm_reader tm = Reading /\ tm_killed tm = false.

(** The task is about to register the child or to end it. *)
Definition owns (p : pc) (id : N) : Prop :=
  p = Insert id \/ p = ReplaceNotify id \/ p = ReplaceKill id \/ p = TerminateKill id.

Lemma owns_holding p id : owns p id -> holding p = true.
Proof. by intros [->|[->|[->| ->]]]. Qed.

(** What a task may rely on where it is. *)
Definition pc_ok (name : str) (p : pc) (s : PtySessions) : Prop :=
  match p with
  | Build | TerminateKill _ => inner s !! name = None
  | Insert id => inner s !! name = None /\ exists tm, terminals s !! id = Some tm /\ tm_name tm = name /\ tm_replaced tm = false
  | ReplaceNotify id => inner s !! name <> Some id /\ tm_name <$> terminals s !! id = Some name
  | _ => True
  end.

Record sess_inv (w : pty_world) : Prop := {
  si_ids id tm : terminals (sess w) !! id = Some tm -> (id < next_id (sess w))%N;
  si_inner n id : inner (sess w) !! n = Some id ->
    exists tm, terminals (sess w) !! id = Some tm /\ tm_name tm = n /\ tm_replaced tm = false;
  si_task t k : ptasks w !! t = Some k -> pc_ok (pt_name k) (pt_pc k) (sess w);
  si_kept id tm : terminals (sess w) !! id = Some tm -> usable tm ->
    inner (sess w) !! tm_name tm = Some id \/
    exists t k, ptasks w !! t = Some k /\ pt_name k = tm_name tm /\ owns (pt_pc k) id;
}.

(** A terminal before and after a step of a task. *)
Record evolves (tm tm' : terminal) : Prop := {
  ev_name : tm_name tm' = tm_name tm;
  ev_alive : tm_alive tm' = tm_alive tm;
  ev_reader : tm_reader tm' = tm_reader tm;
  ev_killed : tm_killed tm = true -> tm_killed tm' = true;
}.

Lemma evolves_refl tm : evolves tm tm.
Proof. by constructor. Qed.

Lemma usable_before tm tm' : evolves tm tm' -> usable tm' -> usable tm.
Proof.
  intros [] (H1 & H2 & H3). repeat split; [congruence..|]. destruct (tm_killed tm); [|done].
  rewrite ev_killed0 in H3; done.
Qed.

Definition table_ok (s : PtySessions) : Prop :=
  (forall id tm, terminals s !! id = Some tm -> (id < next_id s)%N) /\
  (forall n id, inner s !! n = Some id ->
     exists tm, terminals s !! id = Some tm /\ tm_name tm = n /\ tm_replaced tm = false).

(** What a step of a task at [p] does to the table. *)
Record table_step (name : str) (p p' : pc) (s s' : PtySessions) : Prop := {
  ts_frame n : n <> name -> inner s' !! n = inner s !! n;
  ts_quiet : holding p = false -> inner s' !! name = inner s !! name \/ inner s' !! name = None;
  ts_old id tm : terminals s !! id = Some tm -> exists tm', terminals s' !! id = Some tm' /\ evolves tm tm' /\
    (tm_replaced tm' = tm_replaced tm \/ p = ReplaceNotify id);
  ts_new id tm' : terminals s' !! id = Some tm' ->
    is_Some (terminals s !! id) \/ id = next_id s /\ (next_id s < next_id s')%N /\ tm_name tm' = name;
  ts_ids : (next_id s <= next_id s')%N;
  ts_inner id : inner s' !! name = Some id ->
    exists tm, terminals s' !! id = Some tm /\ tm_name tm = name /\ tm_replaced tm = false;
  ts_pc : pc_ok name p' s';
  ts_kept id tm' : terminals s' !! id = Some tm' -> usable tm' ->
    terminals s !! id = None \/ inner s !! name = Some id \/ owns p id ->
    inner s' !! name = Some id \/ owns p' id;
}.

(** A step that changes only the position of the task. *)
Lemma ts_nop name p p' s :
  table_ok s -> pc_ok name p' s -> (forall id, owns p id -> inner s !! name = Some id \/ owns p' id) ->
  table_step name p p' s s.
Proof.
  intros [Hi Hn] Hp Ho. constructor; try done; eauto.
  - intros id tm H. exists tm. eauto using evolves_refl.
  - intros id tm' Ht _ [H|[H|H]]; [congruence|by left|by apply Ho].
Qed.

(** A change of one terminal that keeps its child. *)
Lemma ts_alter name p p' s f id0 :
  table_ok s -> (forall tm, evolves tm (f tm)) ->
  (forall tm, tm_replaced (f tm) = tm_replaced tm) \/
    p = ReplaceNotify id0 /\ inner s !! name <> Some id0 ->
  pc_ok name p' (s <| terminals ::= alter f id0 |>) ->
  (forall id tm', owns p id -> alter f id0 (terminals s) !! id = Some tm' -> usable tm' ->
     inner s !! name = Some id \/ owns p' id) ->
  table_step name p p' s (s <| terminals ::= alter f id0 |>).
Proof.
  intros [Hi Hn] He Hr Hp Ho. constructor; rproj; try done; eauto.
  - intros id tm H. destruct (decide (id0 = id)) as [->|Hne].
    + rewrite lookup_alter_eq, H. exists (f tm). split; [done|]. split; [done|]. destruct Hr as [Hr|[-> _]]; auto.
    + rewrite lookup_alter_ne by done. exists tm. eauto using evolves_refl.
  - intros id tm' [(<- & tm & -> & _)|[_ ->]]%lookup_alter_Some; eauto.
  - intros id Hid. destruct (Hn _ _ Hid) as (tm & Ht & H1 & H2). destruct (decide (id0 = id)) as [->|Hne].
    + rewrite lookup_alter_eq, Ht. exists (f tm). split; [done|]. rewrite (ev_name _ _ (He tm)). split; [done|].
      destruct Hr as [Hr|[_ Hr]]; [by rewrite Hr|done].
    + rewrite lookup_alter_ne by done. eauto.
  - intros id tm' Ht Hu [H|[H|H]]; [|by left|by eapply Ho].
    exfalso. apply lookup_alter_Some in Ht as [(<- & tm & ? & _)|[_ ?]]; congruence.
Qed.

(** [attach_existing] with the position that follows it. *)
Lemma ts_attach ioctl name size p q b s s' r :
  table_ok s -> attach_existing ioctl name size s = (s', r) -> (forall id, ~ owns p id) -> p <> Build ->
  (inner s' !! name = None -> pc_ok name q s') ->
  table_step name p (after_attach b q r) s s'.
Proof.
  intros Hok H Hp Hb Hq. unfold attach_existing in H.
  set (s1 := match inner s !! name with Some _ => _ | None => _ end) in H.
  assert (table_step name p (Done Missing) s s1) as Hs1.
  { subst s1. destruct (inner s !! name) as [id|] eqn:E.
    2: { apply ts_nop; [done|done|]. intros id Ho. by apply Hp in Ho. }
    destruct (child_is_alive id s) eqn:Ea.
    { apply ts_nop; [done|done|]. intros id' Ho. by apply Hp in Ho. }
    destruct Hok as [Hi Hn]. constructor; rproj; try done; eauto.
    - intros n Hne. by rewrite lookup_delete_ne.
    - intros _. right. apply lookup_delete_eq.
    - intros id' tm H'. exists tm. eauto using evolves_refl.
    - intros id'. by rewrite lookup_delete_eq.
    - intros id' tm' Ht (Ha & _) [H'|[H'|H']]; [congruence| |by apply Hp in H'].
      exfalso. simplify_eq. unfold child_is_alive in Ea. rewrite Ht in Ea. cbn in Ea. congruence. }
  assert (table_ok s1) as Hok1.
  { subst s1. destruct (inner s !! name) as [id|]; [|done]. destruct (child_is_alive id s); [done|].
    destruct Hok as [Hi Hn]. split; [done|]. intros n id'. rproj. intros [_ ?]%lookup_delete_Some. eauto. }
  destruct (inner s1 !! name) as [id|] eqn:Ei; [destruct ioctl|]; injection H as <- <-; cbn [after_attach].
  - destruct Hs1. unfold set_winsize.
    destruct (ts_alter name (Attach true) (Done Missing) s1 (fun t => t <| tm_winsize := size |>) id) as [g1 g2 g3 g4 g5 g6 g7 g8].
    { done. } { by intros []. } { left. by intros []. } { done. } { by intros ? ? [?|[?|[?|?]]]. }
    constructor; try done.
    + intros id' tm H1. destruct (ts_old0 _ _ H1) as (tm1 & H2 & [] & H4), (g3 _ _ H2) as (tm2 & H5 & [] & H7).
      exists tm2. split; [done|]. destruct H7 as [H7|H7]; [|done]. split; [constructor; [congruence..|auto]|].
      destruct H4 as [H4|H4]; [left; congruence|by right].
    + intros id' tm' H1. destruct (g4 _ _ H1) as [[tm1 H2]|(-> & H2 & _)]; [|by apply N.lt_irrefl in H2].
      destruct (ts_new0 _ _ H2) as [?|(? & ? & H3)]; [by left|right].
      destruct (g3 _ _ H2) as (tm2 & H5 & [] & _). rewrite H1 in H5. injection H5 as <-. by rewrite ev_name0.
    + intros id' tm' H1 Hu H2.
      assert (exists tm1, terminals s1 !! id' = Some tm1 /\ evolves tm1 tm') as (tm1 & H3 & He).
      { destruct (g4 _ _ H1) as [[tm1 H3]|(-> & H3 & _)]; [|by apply N.lt_irrefl in H3].
        exists tm1. destruct (g3 _ _ H3) as (tm2 & H5 & He & _). split; [done|]. congruence. }
      destruct (ts_kept0 id' tm1 H3 (usable_before _ _ He Hu) H2) as [?|[?|[?|[?|?]]]]; [by left|done..].
  - destruct Hs1. constructor; try done.
    intros id' tm' H1 Hu H2. destruct (ts_kept0 id' tm' H1 Hu H2) as [?|[?|[?|[?|?]]]]; [by left|done..].
  - destruct Hs1. constructor; try done; [by apply Hq|].
    intros id' tm' H1 Hu H2. destruct (ts_kept0 id' tm' H1 Hu H2) as [?|[?|[?|[?|?]]]]; [by left|done..].
Qed.

Lemma spawn_session_ok ok name size s id s' :
  spawn_session ok name size s = Returned (Ok (id, s')) ->
  id = next_id s /\ inner s' = inner s /\ next_id s' = N.succ (next_id s) /\
  terminals s' = <[id := mkTerminal name true Reading false size size false]> (terminals s).
Proof.
  unfold spawn_session, next_session_id. destruct ok; [|done]. case_bool_decide; [|done]. cbn. by intros [= <- <-].
Qed.

(** A new terminal, which the task owns or has registered. *)
Lemma ts_spawn ok name size p p' s id s1 f :
  table_ok s -> spawn_session ok name size s = Returned (Ok (id, s1)) ->
  (forall i, ~ owns p i) -> holding p = true ->
  (forall n, n <> name -> f (inner s) !! n = inner s !! n) ->
  f (inner s) !! name = None /\ p' = Insert id /\ inner s !! name = None \/
  f (inner s) !! name = Some id /\ (exists old, p' = ReplaceNotify old /\ inner s !! name = Some old) ->
  table_step name p p' s (s1 <| inner ::= f |>).
Proof.
  intros [Hi Hn] H Hp Hh Hf Hcase. destruct (spawn_session_ok _ _ _ _ _ _ H) as (-> & E1 & E2 & E3).
  assert (terminals s !! next_id s = None) as Hnone.
  { destruct (terminals s !! next_id s) eqn:E; [|done]. apply Hi in E. by apply N.lt_irrefl in E. }
  constructor; rproj; rewrite ?E1, ?E2, ?E3; try done.
  - congruence.
  - intros id tm H1. exists tm. rewrite lookup_insert_ne by congruence. eauto using evolves_refl.
  - intros id tm' [[<- <-]|[_ ?]]%lookup_insert_Some; [right|by left; eexists]. split_and!; [done|lia|done].
  - lia.
  - intros id. destruct Hcase as [(-> & _)|(-> & _)]; [done|]. intros [= <-]. rewrite lookup_insert_eq. by eexists.
  - destruct Hcase as [(Hc & -> & _)|(Hc & old & -> & Ho)]; cbn; rproj; rewrite ?E1, ?E3, Hc.
    + split; [done|]. rewrite lookup_insert_eq. by eexists.
    + destruct (Hn _ _ Ho) as (tm & Ht & Hnm & _). split; [congruence|].
      rewrite lookup_insert_ne by congruence. by rewrite Ht, <- Hnm.
  - intros id tm' Ht Hu Hb. destruct (decide (id = next_id s)) as [->|Hne].
    + destruct Hcase as [(_ & -> & _)|(-> & _)]; [right; by left|by left].
    + rewrite lookup_insert_ne in Ht by done. destruct Hb as [Hb|[Hb|Hb]]; [congruence| |by apply Hp in Hb].
      destruct Hcase as [(_ & _ & Hc)|(_ & old & -> & Ho)]; [congruence|]. rewrite Hb in Ho. injection Ho as <-.
      right. right. by left.
Qed.

Lemma ts_kill name p s id ok r :
  table_ok s -> (forall i, owns p i -> i = id) -> p <> Build ->
  table_step name p (kill ok id r s).2 s (kill ok id r s).1.
Proof.
  intros Hok Hp Hb. unfold kill. cbn [fst snd]. apply ts_alter; [done| |left; by intros []|done|].
  - intros []. by constructor.
  - intros i tm' Ho%Hp Ht (_ & _ & Hk). subst i. apply lookup_alter_Some in Ht as [(_ & tm & _ & ->)|[? _]]; done.
Qed.

Lemma sessions_same s : s <| inner ::= fun m => m |> = s.
Proof. by destruct s. Qed.

Ltac no_owner := let H := fresh in intros ? H; destruct H as [?|[?|[?|?]]]; by simplify_eq.

Lemma run_table a name size p s s' p' :
  table_ok s -> pc_ok name p s -> run_pc a name size p s = Some (s', p') -> table_step name p p' s s'.
Proof.
  intros Hok Hp H.
  destruct p as [create|[]|[]|[|id|]| |id| |lk id|id|id sz|id|id|id|]; cbn [run_pc] in H; try discriminate.
  - destruct (attach_existing _ _ _ _) as [s1 r] eqn:E. injection H as <- <-.
    eapply ts_attach; [done|done|no_owner|done|]. by destruct create.
  - destruct (attach_existing _ _ _ _) as [s1 r] eqn:E. injection H as <- <-.
    eapply ts_attach; [done|done|no_owner|done|]. done.
  - injection H as <- <-. apply ts_nop; [done|by destruct (is_current _ _ _)|no_owner].
  - injection H as <- <-. destruct Hok as [Hi Hn]. constructor; rproj; try done; eauto.
    + intros n Hne. by rewrite lookup_delete_ne.
    + intros i tm0 H0. exists tm0. eauto using evolves_refl.
    + intros id. by rewrite lookup_delete_eq.
    + destruct (inner s !! name); [|done]. cbn. apply lookup_delete_eq.
    + intros id tm' Ht Hu [Hb|[Hb|Hb]]; [congruence| |by destruct Hb as [?|[?|[?|?]]]].
      right. rewrite Hb. right. right. by right.
  - destruct (after_build name (built a) Unavailable Build) eqn:Eb; simplify_eq; try (apply ts_nop; [done| |no_owner]).
    all: try (unfold after_build in Eb; split_matches; done).
    destruct (spawn_session _ _ _ _) as [[[id s1]|]| |] eqn:Es; simplify_eq; try (apply ts_nop; [done|done|no_owner]).
    rewrite <- (sessions_same s'). eapply (ts_spawn _ _ _ _ _ _ _ _ (fun m => m)); [done|done|no_owner|done|done|]. by left.
  - injection H as <- <-. destruct Hp as (Hnone & tm & Ht & Hnm & Hr), Hok as [Hi Hn].
    constructor; rproj; try done; eauto.
    + intros n Hne. by rewrite lookup_insert_ne.
    + intros i tm0 H0. exists tm0. eauto using evolves_refl.
    + intros id'. rewrite lookup_insert_eq. intros [= <-]. eauto.
    + intros id' tm' Ht' Hu [Hb|[Hb|Hb]]; [congruence..|]. left. rewrite lookup_insert_eq.
      destruct Hb as [?|[?|[?|?]]]; simplify_eq; done.
  - destruct (attach_existing _ _ _ _) as [s1 r] eqn:E. injection H as <- <-.
    eapply ts_attach; [done|done|no_owner|done|]. done.
  - injection H as <- <-. unfold set_screen. apply ts_alter; [done|by intros []|left; by intros []|done|].
    intros i tm' Ho. by destruct Ho as [?|[?|[?|?]]].
  - injection H as <- <-. apply ts_nop; [done| |no_owner]. unfold after_build. by split_matches.
  - destruct (inner s !! name) as [old|] eqn:Ei; [|simplify_eq; apply ts_nop; [done|done|no_owner]].
    destruct (negb _ || negb _); [simplify_eq; apply ts_nop; [done|done|no_owner]|].
    destruct (spawn_session _ _ _ _) as [[[new s1]|]| |] eqn:Es; simplify_eq; try (apply ts_nop; [done|done|no_owner]).
    eapply (ts_spawn _ _ _ _ _ _ _ _ (fun m => <[name := new]> m)); [done|done|no_owner|done| |].
    + intros n Hne. by rewrite lookup_insert_ne.
    + right. rewrite lookup_insert_eq. split; [done|]. by exists old.
  - injection H as <- <-. destruct Hp as [Hni Hnm]. apply ts_alter; [done|by intros []|by right|done|].
    intros i tm' Ho _ _. right. right. right. left. destruct Ho as [?|[?|[?|?]]]; by simplify_eq.
  - injection H as <- <-. apply (ts_kill name (ReplaceKill id) s id (kill_ok a) (WasReplaced true)); [done| |done]. intros i Ho. destruct Ho as [?|[?|[?|?]]]; by simplify_eq.
  - injection H as <- <-. apply (ts_kill name (TerminateKill id) s id (kill_ok a) Terminated); [done| |done]. intros i Ho. destruct Ho as [?|[?|[?|?]]]; by simplify_eq.
Qed.

Lemma sess_inv_table w : sess_inv w -> table_ok (sess w).
Proof. intros []. by split. Qed.

(** Steps that leave the tasks alone and only let terminals evolve or end. *)
Lemma sess_inv_env w s :
  sess_inv w ->
  (forall n, inner s !! n = inner (sess w) !! n \/
     inner s !! n = None /\ forall id tm, inner (sess w) !! n = Some id -> terminals s !! id = Some tm -> ~ usable tm) ->
  next_id s = next_id (sess w) ->
  (forall id tm, terminals (sess w) !! id = Some tm -> exists tm', terminals s !! id = Some tm' /\
     tm_name tm' = tm_name tm /\ tm_replaced tm' = tm_replaced tm /\ (usable tm' -> usable tm)) ->
  (forall id tm', terminals s !! id = Some tm' -> is_Some (terminals (sess w) !! id)) ->
  sess_inv (w <| sess := s |>).
Proof.
  intros [] Hin Hid Hold Hnew. constructor; rproj.
  - intros id tm' H. destruct (Hnew _ _ H) as [tm Ht]. rewrite Hid. eauto.
  - intros n id H. destruct (Hin n) as [E|[E _]]; [|congruence]. rewrite E in H.
    destruct (si_inner0 _ _ H) as (tm & Ht & H1 & H2). destruct (Hold _ _ Ht) as (tm' & Ht' & E1 & E2 & _).
    exists tm'. split_and!; congruence.
  - intros t k Hk. specialize (si_task0 t k Hk).
    assert (inner (sess w) !! pt_name k = None -> inner s !! pt_name k = None) as Hn
      by (intros E; destruct (Hin (pt_name k)) as [E'|[E' _]]; congruence).
    destruct (pt_pc k); cbn in *; auto.
    + destruct si_task0 as (H1 & tm & Ht & H2 & H3). split; [auto|].
      destruct (Hold _ _ Ht) as (tm' & Ht' & E1 & E2 & _). exists tm'. split_and!; congruence.
    + destruct si_task0 as (H1 & H2). split; [destruct (Hin (pt_name k)) as [E'|[E' _]]; congruence|].
      apply fmap_Some in H2 as (tm & Ht & H2). destruct (Hold _ _ Ht) as (tm' & Ht' & E1 & _).
      rewrite Ht'. cbn. congruence.
  - intros id tm' Ht' Hu. destruct (Hnew _ _ Ht') as [tm Ht].
    destruct (Hold _ _ Ht) as (tm2 & Ht2 & E1 & _ & E3). rewrite Ht' in Ht2. injection Ht2 as <-. rewrite E1.
    destruct (si_kept0 _ _ Ht (E3 Hu)) as [H|H]; [|by right]. left.
    destruct (Hin (tm_name tm)) as [E|[_ E]]; [congruence|]. by destruct (E _ _ H Ht').
Qed.

Lemma sess_inv_alter w id f :
  sess_inv w -> (forall tm, tm_name (f tm) = tm_name tm /\ tm_replaced (f tm) = tm_replaced tm /\ (usable (f tm) -> usable tm)) ->
  sess_inv (upd_terminal id f w).
Proof.
  intros Hw Hf. apply (sess_inv_env w ((sess w) <| terminals ::= alter f id |>)); rproj; [done|by left|done| |].
  - intros i tm Ht. destruct (decide (id = i)) as [->|Hne].
    + rewrite lookup_alter_eq, Ht. by eexists.
    + rewrite lookup_alter_ne by done. eauto.
  - intros i tm' [(<- & tm & -> & _)|[_ ->]]%lookup_alter_Some; eauto.
Qed.

(** The step of a task, from its effect on the table. *)
Lemma sess_inv_run w t k k' s p w' :
  lock_inv w -> sess_inv w -> ptasks w !! t = Some k ->
  table_step (pt_name k) (pt_pc k) p (sess w) s ->
  sess w' = s -> pt_name k' = pt_name k -> pt_pc k' = p -> ptasks w' = <[t := k']> (ptasks w) -> sess_inv w'.
Proof.
  intros Hl [] Hk [] Es Hn' Hp' Et.
  assert (Hlate : forall id, is_Some (terminals (sess w) !! id) -> (id < next_id s)%N)
    by (intros id [tm H]; apply si_ids0 in H; lia).
  constructor; rewrite ?Es, ?Et.
  - intros id tm' H. destruct (ts_new0 _ _ H) as [?|(-> & ? & _)]; auto.
  - intros n id H. destruct (decide (n = pt_name k)) as [->|Hne]; [by apply ts_inner0|].
    rewrite ts_frame0 in H by done. destruct (si_inner0 _ _ H) as (tm & Ht & Hn & Hr).
    destruct (ts_old0 _ _ Ht) as (tm' & Ht' & He & Hrep). exists tm'. split; [done|].
    rewrite (ev_name _ _ He). split; [done|]. destruct Hrep as [Hrep|Hrep]; [congruence|].
    specialize (si_task0 t k Hk). rewrite Hrep in si_task0. destruct si_task0 as [_ Hnm].
    rewrite Ht in Hnm. cbn in Hnm. congruence.
  - intros t' k2 [[<- <-]|[Hne Hk']]%lookup_insert_Some; [by rewrite Hn', Hp'|]. clear Hn' Hp' Et k'. rename k2 into k'.
    destruct (holding (pt_pc k')) eqn:Hh; [|by destruct (pt_pc k') as [| | | | | | |[]| | | | | |]].
    pose proof (si_task0 t' k' Hk') as Hp'. pose proof (si_task0 t k Hk) as Hp.
    assert (inner s !! pt_name k' = inner (sess w) !! pt_name k' \/ inner s !! pt_name k' = None) as Hi.
    { destruct (decide (pt_name k' = pt_name k)) as [En|?]; [|left; by apply ts_frame0]. rewrite En. apply ts_quiet0.
      destruct (holding (pt_pc k)) eqn:Hhk; [|done]. destruct Hne. by eapply lock_exclusive. }
    assert (forall id tm, terminals (sess w) !! id = Some tm -> tm_name tm = pt_name k' ->
              exists tm', terminals s !! id = Some tm' /\ tm_name tm' = pt_name k' /\ tm_replaced tm' = tm_replaced tm) as Ho.
    { intros id tm Ht Hn. destruct (ts_old0 _ _ Ht) as (tm' & Ht' & He & Hr). exists tm'. split; [done|].
      rewrite (ev_name _ _ He). split; [done|]. destruct Hr as [Hr|Hr]; [done|]. exfalso.
      rewrite Hr in Hp. destruct Hp as [_ Hnm]. rewrite Ht in Hnm. cbn in Hnm. destruct Hne.
      eapply (lock_exclusive w); eauto; [congruence|by rewrite Hr]. }
    destruct (pt_pc k'); cbn in Hp' |- *; try done.
    + destruct Hi; congruence.
    + destruct Hp' as (H1 & tm & Ht & H2 & H3). split; [destruct Hi; congruence|].
      destruct (Ho _ _ Ht H2) as (tm' & ? & ? & ?). exists tm'. split_and!; congruence.
    + destruct Hp' as (H1 & H2). split; [destruct Hi; congruence|].
      apply fmap_Some in H2 as (tm & Ht & H2). destruct (Ho _ _ Ht (eq_sym H2)) as (tm' & E1 & E2 & _).
      rewrite E1. cbn. congruence.
    + destruct Hi; congruence.
  - intros id tm' Ht' Hu.
    assert (tm_name tm' <> pt_name k \/ ~ owns (pt_pc k) id /\ inner (sess w) !! pt_name k <> Some id /\ is_Some (terminals (sess w) !! id) \/
            inner s !! pt_name k = Some id \/ owns p id) as Hc.
    { destruct (decide (tm_name tm' = pt_name k)); [|by left]. right.
      destruct (terminals (sess w) !! id) eqn:E; [|right; eapply ts_kept0; eauto].
      destruct (decide (inner (sess w) !! pt_name k = Some id)); [right; eapply ts_kept0; eauto|].
      destruct (decide (pt_pc k = Insert id \/ pt_pc k = ReplaceNotify id \/ pt_pc k = ReplaceKill id \/ pt_pc k = TerminateKill id));
        [right; eapply ts_kept0; eauto|left]. split_and!; eauto. }
    assert (forall tm, terminals (sess w) !! id = Some tm -> tm_name tm' = tm_name tm /\ usable tm) as Hold.
    { intros tm Ht. destruct (ts_old0 _ _ Ht) as (tm2 & Ht2 & He & _). rewrite Ht' in Ht2. injection Ht2 as <-.
      split; [apply He|by eapply usable_before]. }
    assert (forall t2 k2, t2 <> t -> ptasks w !! t2 = Some k2 -> <[t := k']> (ptasks w) !! t2 = Some k2) as Hother
      by (intros t2 k2 ? ?; by rewrite lookup_insert_ne).
    destruct (decide (tm_name tm' = pt_name k)) as [En|Hne].
    + rewrite En. destruct Hc as [?|[(Ho & Hi & [tm Ht])|[?|Ho]]]; [done| |by left|].
      * destruct (Hold _ Ht) as [E1 Hu1]. destruct (si_kept0 _ _ Ht Hu1) as [H|(t2 & k2 & H1 & H2 & H3)]; [congruence|].
        right. exists t2, k2. split; [|by rewrite H2, <- En]. apply Hother; [|done]. intros ->. simplify_eq.
      * right. exists t, k'. by rewrite lookup_insert_eq, Hp'.
    + destruct (ts_new0 _ _ Ht') as [[tm Ht]|(_ & _ & ?)]; [|done]. destruct (Hold _ Ht) as [E1 Hu1].
      destruct (si_kept0 _ _ Ht Hu1) as [H|(t2 & k2 & H1 & H2 & H3)].
      * left. rewrite ts_frame0 by done. congruence.
      * right. exists t2, k2. split; [|by rewrite H2]. apply Hother; [|done]. intros ->. rewrite Hk in H1. injection H1 as <-. congruence.
Qed.

Lemma goto_insert t k p w : ptasks w !! t = Some k -> ptasks (goto t p w) = <[t := k <| pt_pc := p |>]> (ptasks w).
Proof.
  intros H. unfold goto. rproj. apply map_eq. intros j. destruct (decide (t = j)) as [<-|?].
  - by rewrite lookup_alter_eq, lookup_insert_eq, H.
  - by rewrite lookup_alter_ne, lookup_insert_ne.
Qed.

Lemma sess_inv_step w w' : lock_inv w -> sess_inv w -> pty_step w w' -> sess_inv w'.
Proof.
  intros Hl Hw [t name size p Ht Hs|a t w1 H|name size s' H|id|id tm Ht Hr|id tm Ht Hr].
  - destruct Hw. constructor; rproj; eauto.
    + intros t' k [[<- <-]|[_ ?]]%lookup_insert_Some; [|eauto]. cbn. by destruct p.
    + intros id tm H Hu. destruct (si_kept0 _ _ H Hu) as [?|(t' & k & H1 & H2)]; [by left|right].
      exists t', k. rewrite lookup_insert_ne; [done|]. congruence.
  - destruct (task_step_case _ _ _ _ H) as (k & Hk & [c l w2 Ep Hc|c l Ep Hlk Hno|r Ep|a' s p Hr]).
    + destruct (creation_lock_spec _ _ _ _ Hl Hc) as (E1 & _ & E3 & _).
      eapply (sess_inv_run w t k _ (sess w) (Waiting c)); [done|done|done| |done| | |by rproj; rewrite E1]; [|done..].
      apply ts_nop; [by apply sess_inv_table|done|]. rewrite Ep. no_owner.
    + pose proof (goto_insert t k (Locked c) (w <| lock_holder ::= <[l := t]> |>) Hk) as Hg.
      eapply (sess_inv_run w t k _ (sess w) (Locked c)); [done|done|done| |done| | |exact Hg]; [|done..].
      apply ts_nop; [by apply sess_inv_table|done|]. rewrite Ep. no_owner.
    + destruct Hw. constructor; rproj; eauto.
      * intros t' k' [_ ?]%lookup_delete_Some. eauto.
      * intros id tm Ht Hu. destruct (si_kept0 _ _ Ht Hu) as [?|(t' & k' & H1 & H2 & H3)]; [by left|right].
        exists t', k'. rewrite lookup_delete_ne; [done|]. intros <-. simplify_eq. rewrite Ep in H3.
        by destruct H3 as [?|[?|[?|?]]].
    + pose proof (goto_insert t k p (w <| sess := s |>) Hk) as Hg.
      eapply (sess_inv_run w t k (k <| pt_pc := p |>) s p); [done|done|done| | |done|done|].
      { eapply run_table; [by apply sess_inv_table|by apply (si_task _ Hw t)|done]. }
      all: cbv zeta; destruct (is_done p); try done; exact Hg.
  - unfold resize in H. destruct (inner (sess w) !! name) as [id|]; [|done]. injection H as <-.
    change (sess_inv (upd_terminal id (fun t => t <| tm_screen := size |>) (upd_terminal id (fun t => t <| tm_winsize := size |>) w))).
    apply sess_inv_alter; [apply sess_inv_alter; [done|]|]; by intros [].
  - apply sess_inv_alter; [done|]. intros []. cbn. split_and!; try done. by intros [? _].
  - apply sess_inv_alter; [done|]. intros []. cbn. split_and!; try done. by intros (_ & ? & _).
  - apply sess_inv_alter; [|intros []; cbn; split_and!; try done; by intros (_ & ? & _)].
    unfold remove_session. apply (sess_inv_env w); [done| |by case_bool_decide| |].
    + intros n. rproj. case_bool_decide as E; rproj; [|by left]. destruct (decide (n = tm_name tm)) as [->|?].
      * right. rewrite lookup_delete_eq. split; [done|]. intros i tm' E'. rewrite E in E'. injection E' as <-.
        rewrite Ht. intros [= <-] (_ & ? & _). congruence.
      * left. by rewrite lookup_delete_ne.
    + rproj. intros i tm' H. exists tm'. case_bool_decide; rproj; auto.
    + rproj. intros i tm' H. case_bool_decide; rproj; eauto.
Qed.

Lemma pty_inv w : pty_reachable w -> lock_inv w /\ sess_inv w.
Proof.
  unfold pty_reachable. revert w. apply rtc_ind_r.
  - split; [apply lock_inv_new|]. constructor; cbn; intros *; by rewrite lookup_empty.
  - intros w w' _ Hs [Hl Hw]. split; [by eapply lock_inv_step|by eapply sess_inv_step].
Qed.

(** [C21] The weak table of creation locks serialises the operations on a session name, and no
    child is forgotten: at any time at most one task works on a name, and while none does, every
    child of that name that runs, is read and was not told to end is the registered session, so
    there is at most one and clients can return to it. *)
Theorem no_child_forgotten w n :
  pty_reachable w ->
  (forall t1 t2 k1 k2, ptasks w !! t1 = Some k1 -> ptasks w !! t2 = Some k2 ->
     pt_name k1 = n -> pt_name k2 = n -> holding (pt_pc k1) = true -> holding (pt_pc k2) = true -> t1 = t2) /\
  ((forall t k, ptasks w !! t = Some k -> pt_name k = n -> holding (pt_pc k) = false) ->
   forall id tm, terminals (sess w) !! id = Some tm -> tm_name tm = n -> usable tm -> inner (sess w) !! n = Some id).
Proof.
  intros [Hl []]%pty_inv. split.
  - intros t1 t2 k1 k2 H1 H2 <- E. by apply (lock_exclusive w).
  - intros Hq id tm Ht <- Hu. destruct (si_kept0 _ _ Ht Hu) as [?|(t & k & H1 & H2 & H3%owns_holding)]; [done|].
    rewrite (Hq t k) in H3; done.
Qed.

(** Ending a session is complete: when [terminate_with_cleanup] returns successfully, no
    child of that name is left that runs, is read and was not told to end, however the tasks that
    create and replace sessions of that name were interleaved with it. *)
Theorem terminate_leaves_none a t w w' k k' :
  pty_reachable w -> task_step a t w = Some w' ->
  ptasks w !! t = Some k -> ptasks w' !! t = Some k' -> pt_pc k' = Done Terminated ->
  forall id tm, terminals (sess w') !! id = Some tm -> tm_name tm = pt_name k -> ~ usable tm.
Proof.
  intros Hr H Hk Hk' Hp id tm Ht Hn Hu. destruct (pty_inv w Hr) as [Hl Hw].
  assert (pty_reachable w') as [_ Hw']%pty_inv by (eapply rtc_r; [exact Hr|by eapply p_task]).
  destruct (task_step_case _ _ _ _ H) as (k0 & Hk0 & Hc). rewrite Hk in Hk0. injection Hk0 as <-.
  destruct Hc as [c l w1 _ _|c l _ _ _|r _|a' s p Hrun].
  - rproj. rewrite lookup_insert_eq in Hk'. by injection Hk' as <-.
  - unfold goto in Hk'. rproj. rewrite lookup_alter_eq, Hk in Hk'. by injection Hk' as <-.
  - rproj. by rewrite lookup_delete_eq in Hk'.
  - assert (p = Done Terminated) as ->.
    { assert (ptasks (goto t p (w <| sess := s |>)) !! t = Some k') as E by (cbv zeta in Hk'; by destruct (is_done p)).
      unfold goto in E. rproj. rewrite lookup_alter_eq, Hk in E. by injection E as <-. }
    cbv zeta in *. cbn [is_done] in *.
    assert (holding (pt_pc k) = true /\ inner s !! pt_name k = None) as [Hh Hnone].
    { pose proof (si_task _ Hw _ _ Hk) as Hpk. destruct (pt_pc k) as [create|[]|[]|[|i|]| |i| |lk i|i|i sz|i|i|i|];
        cbn [run_pc] in Hrun; try discriminate.
      all: unfold after_build, attach_existing, kill in Hrun; try (repeat (case_match; simplify_eq/=); done).
      split; [done|]. injection Hrun as <- _. apply lookup_delete_eq. }
    destruct (si_kept _ Hw' _ _ Ht Hu) as [E|(t2 & k2 & H1 & H2 & H3)].
    + rewrite Hn in E. change (inner s !! pt_name k = Some id) in E. congruence.
    + destruct (decide (t2 = t)) as [->|Hne].
      * rewrite Hk' in H1. injection H1 as <-. rewrite Hp in H3. by destruct H3 as [?|[?|[?|?]]].
      * assert (ptasks w !! t2 = Some k2) as Hk2.
        { unfold unlock, goto in H1. rproj. by rewrite lookup_alter_ne in H1. }
        apply Hne. apply (lock_exclusive w t2 t k2 k); [done|done|done|congruence|by eapply owns_holding|done].
Qed.

Lemma attach_existing_keeps ioctl name size s s' r id tm :
  attach_existing ioctl name size s = (s', r) -> inner s !! name = Some id -> terminals s !! id = Some tm ->
  inner s' !! name <> Some id -> tm_alive tm = false.
Proof.
  unfold attach_existing. intros H Hi Ht Hne. rewrite Hi in H. unfold child_is_alive in H. rewrite Ht in H. cbn in H.
  destruct (tm_alive tm); [|done]. exfalso. rewrite Hi in H. destruct ioctl; by injection H as <- _.
Qed.

(** The steps of a task that end the registered session of its name. *)
Lemma run_ends a name size p s s' p' id tm :
  run_pc a name size p s = Some (s', p') -> pc_ok name p s -> inner s !! name = Some id ->
  terminals s !! id = Some tm -> inner s' !! name <> Some id ->
  tm_alive tm = false \/ (exists size, p = ReplaceSwap id size) \/ p = Locked Terminate.
Proof.
  intros H Hp Hi Ht Hne.
  destruct p as [create|[]|[]|[|i|]| |i| |lk i|i|i sz|i|i|i|]; cbn [run_pc] in H; try discriminate; try (by injection H as <- _).
  - destruct (attach_existing _ _ _ _) eqn:E. injection H as <- _. left. by eapply attach_existing_keeps.
  - destruct (attach_existing _ _ _ _) eqn:E. injection H as <- _. left. by eapply attach_existing_keeps.
  - by right; right.
  - cbn in Hp. congruence.
  - cbn in Hp. destruct Hp. congruence.
  - destruct (attach_existing _ _ _ _) eqn:E. injection H as <- _. left. by eapply attach_existing_keeps.
  - right. left. rewrite Hi in H. destruct (decide (id = i)) as [->|Hni]; [by eexists|]. exfalso.
    rewrite bool_decide_false in H by done. by injection H as <- _.
Qed.

(** A session outlives its clients.  The registered session of a name stops being it only
    when its child has exited, its output has ended, its own watch replaces it, or the session is
    terminated; the reader or the watch of an earlier child of the name never ends it. *)
Theorem session_outlives_clients w w' n id :
  pty_reachable w -> pty_step w w' -> inner (sess w) !! n = Some id -> inner (sess w') !! n <> Some id ->
  exists tm, terminals (sess w) !! id = Some tm /\ tm_name tm = n /\
    (tm_alive tm = false \/ tm_reader tm = Removing \/
     exists t k, ptasks w !! t = Some k /\ pt_name k = n /\
       ((exists size, pt_pc k = ReplaceSwap id size) \/ pt_pc k = Locked Terminate)).
Proof.
  intros [Hl Hw]%pty_inv Hs Hi Hne. destruct (si_inner _ Hw _ _ Hi) as (tm & Ht & Hn & _).
  exists tm. split; [done|]. split; [done|].
  destruct Hs as [t name size p _ _|a t w1 H|name size s' H|id'|id' tm' _ _|id' tm' Ht' Hr]; try done.
  - apply task_step_case in H as (k & Hk & Hcase).
    destruct Hcase as [c l w2 Ep Hc|c l Ep Hlk Hno|r Ep|a' s p Hrun].
    + destruct (creation_lock_spec _ _ _ _ Hl Hc) as (_ & _ & E3 & _). destruct Hne. change (inner (sess w2) !! n = Some id). by rewrite E3.
    + done.
    + done.
    + assert (inner s !! n <> Some id) as Hne' by (cbv zeta in Hne; by destruct (is_done p)). clear Hne.
      assert (pt_name k = n) as En.
      { destruct (decide (n = pt_name k)) as [->|Hnn]; [done|]. exfalso. apply Hne'. rewrite <- Hi.
        eapply ts_frame; [eapply run_table; [by apply sess_inv_table|by apply (si_task _ Hw t)|done]|done]. }
      rewrite <- En in Hi, Hne'.
      destruct (run_ends _ _ _ _ _ _ _ _ _ Hrun (si_task _ Hw _ _ Hk) Hi Ht Hne') as [?|?]; [by left|].
      right. right. eauto.
  - unfold resize in H. destruct (inner (sess w) !! name); [|done]. by injection H as <-.
  - change (inner (remove_session (tm_name tm') id' (sess w)) !! n <> Some id) in Hne.
    unfold remove_session in Hne. case_bool_decide as E; rproj; [|done].
    destruct (decide (tm_name tm' = n)) as [E'|?]; [|by rewrite lookup_delete_ne in Hne].
    right. left. congruence.
Qed.

(** ** What an attaching client sees

    The reader of a terminal feeds every chunk of output to the screen and then broadcasts it.
    A client subscribes to the broadcast, is sent the screen, and then follows the broadcast.
    The screen is the vt100 library's. *)
Section Output.
  Context {screen : Type}.
  Variable process : screen -> list N -> screen.
  Variable alternate_screen : screen -> bool.
  Variables state_formatted cursor_state_formatted : screen -> list N.
  Variable blank : screen.

Definition ESC_ALTERNATE : list N := 27%N :: lit "[?1049h".

Definition build_screen_replay (sc : screen) : list N :=
  (if alternate_screen sc then ESC_ALTERNATE else []) ++ state_formatted sc ++ cursor_state_formatted sc.

Definition shown (chunks : list (list N)) : screen := foldl process blank chunks.

(** The capacity of the broadcast channel of a session. *)
Definition CHANNEL : nat := 256.

Inductive stage := Detached | Subscribed | Following.

Record output := mkOutput {
  o_chunks : list (list N);     (* processed by the screen *)
  o_sent : nat;                 (* how many of them were broadcast *)
  o_stage : stage;
  o_next : nat;                 (* the next chunk the client receives *)
  o_client : list (list N);     (* the messages the client was sent *)
  o_lagged : bool;
}.

#[local] Instance output_updatable : Updatable output := fun o =>
  mkOutput (o_chunks o) (o_sent o) (o_stage o) (o_next o) (o_client o) (o_lagged o).

Definition output_new : output := mkOutput [] 0 Detached 0 [] false.

(** The screen is sent unless its replay is empty. *)
Definition send_replay (o : output) : list (list N) :=
  let replay := build_screen_replay (shown (o_chunks o)) in if bool_decide (replay = []) then [] else [replay].

Inductive output_step (o : output) : output -> Prop :=
| o_process data :
    o_sent o = length (o_chunks o) -> output_step o (o <| o_chunks ::= fun c => c ++ [data] |>)
| o_send : o_sent o < length (o_chunks o) -> output_step o (o <| o_sent ::= S |>)
| o_subscribe : o_stage o = Detached -> output_step o (o <| o_stage := Subscribed |> <| o_next := o_sent o |>)
| o_replay :
    o_stage o = Subscribed -> output_step o (o <| o_stage := Following |> <| o_client ::= fun c => c ++ send_replay o |>)
| o_receive data :
    o_stage o = Following -> o_next o < o_sent o -> o_sent o <= o_next o + CHANNEL -> o_chunks o !! o_next o = Some data ->
    output_step o (o <| o_next ::= S |> <| o_client ::= fun c => c ++ [data] |>)
| o_lag :
    o_stage o = Following -> o_next o + CHANNEL < o_sent o ->
    output_step o (o <| o_next := o_sent o - CHANNEL |> <| o_lagged := true |>).

Definition output_reachable (o : output) : Prop := rtc output_step output_new o.

(** Chunks [i] to [j]. *)
Definition between (i j : nat) (c : list (list N)) : list (list N) := take (j - i) (drop i c).

Lemma between_app i j c d : j <= length c -> between i j (c ++ d) = between i j c.
Proof.
  intros H. unfold between. destruct (decide (i <= length c)).
  - rewrite drop_app_le by lia. rewrite take_app_le; [done|]. rewrite length_drop. lia.
  - replace (j - i) with 0 by lia. by rewrite !take_0.
Qed.

Lemma between_snoc i j c d : i <= j -> c !! j = Some d -> between i (S j) c = between i j c ++ [d].
Proof.
  intros Hij Hd. unfold between. replace (S j - i) with (S (j - i)) by lia.
  erewrite take_S_r; [done|]. rewrite lookup_drop. by replace (i + (j - i)) with j by lia.
Qed.

(** The client's messages once it follows the output and has not lagged: the screen after the
    first [r] chunks and then the chunks from [p], with [p <= r]. *)
Definition follows (o : output) : Prop :=
  exists p r, p <= r /\ r <= length (o_chunks o) /\ p <= o_next o /\
    let replay := build_screen_replay (shown (take r (o_chunks o))) in
    o_client o = (if bool_decide (replay = []) then [] else [replay]) ++ between p (o_next o) (o_chunks o).

Record output_inv (o : output) : Prop := {
  oi_sent : o_sent o <= length (o_chunks o);
  oi_next : o_next o <= o_sent o;
  oi_client : o_stage o <> Following -> o_client o = [];
  oi_follows : o_stage o = Following -> o_lagged o = false -> follows o;
}.

Lemma output_inv_step o o' : output_inv o -> output_step o o' -> output_inv o'.
Proof.
  intros [] Hs. destruct Hs as [data H|H|H|H|data H H1 H2 H3|H H1]; constructor; rproj; try done; try lia.
  - rewrite length_app. lia.
  - intros Hst Hl. destruct (oi_follows0 Hst Hl) as (p & r & H1 & H2 & H3 & H4). exists p, r. rproj. cbv zeta.
    rewrite take_app_le by done. rewrite between_app by lia. rewrite length_app. split_and!; [lia..|exact H4].
  - intros _. apply oi_client0. congruence.
  - intros _ _. exists (o_next o), (length (o_chunks o)). rproj. cbv zeta. rewrite take_ge by done.
    rewrite oi_client0 by congruence. unfold send_replay, between. replace (o_next o - o_next o) with 0 by lia.
    rewrite take_0, app_nil_r. split_and!; [lia..|done].
  - intros Hst Hl. destruct (oi_follows0 Hst Hl) as (p & r & H4 & H5 & H6 & H7). exists p, r. rproj. cbv zeta.
    rewrite (between_snoc _ _ _ data) by done. rewrite H7, app_assoc. split_and!; [lia..|done].
Qed.

(** A client that attaches misses no output: unless it falls behind by more than the channel
    holds, it is sent the screen as it is after some number of chunks, followed without gap by
    every chunk broadcast since an earlier or the same point. *)
Theorem attach_misses_nothing o :
  output_reachable o -> o_stage o = Following -> o_lagged o = false ->
  exists p r, p <= r <= length (o_chunks o) /\ p <= o_next o <= length (o_chunks o) /\
    let replay := build_screen_replay (shown (take r (o_chunks o))) in
    o_client o = (if bool_decide (replay = []) then [] else [replay]) ++ between p (o_next o) (o_chunks o).
Proof.
  intros Hr Hst Hl. assert (output_inv o) as [].
  { revert o Hr Hst Hl. unfold output_reachable. intros o Hr _ _. revert o Hr. apply rtc_ind_r; [by constructor|].
    intros ? ? _ ? ?. by eapply output_inv_step. }
  destruct (oi_follows0 Hst Hl) as (p & r & H1 & H2 & H3 & H4). exists p, r. split_and!; [lia..|exact H4].
Qed.

(** A client can be shown output twice: a chunk that arrives after the client subscribed and
    before the screen was sent to it is part of that screen and is sent again. *)
Theorem attach_repeats_output data :
  build_screen_replay (process blank data) <> [] ->
  exists o, output_reachable o /\ o_chunks o = [data] /\
    o_client o = [build_screen_replay (process blank data); data].
Proof.
  intros Hne. exists (mkOutput [data] 1 Following 1 [build_screen_replay (process blank data); data] false).
  split; [|done]. unfold output_reachable.
  eapply rtc_l; [by apply o_subscribe|]. eapply rtc_l; [by apply (o_process _ data)|].
  eapply rtc_l; [apply o_send; rsimpl; lia|]. eapply rtc_l; [by apply o_replay|].
  eapply rtc_l; [apply (o_receive _ data); rsimpl; try done; unfold CHANNEL; lia|].
  unfold send_replay. rsimpl. rewrite bool_decide_false by done. apply rtc_refl.
Qed.
End Output.

(** ** Witnesses *)

Module ExampleSession.
Definition yes : answers := mkAnswers true (Ok (Some (lit "claude"))) true true.

Definition begin (t : nat) (p : pc) (w : pty_world) : pty_world :=
  w <| ptasks ::= <[t := mkPtask (lit "claude") (80, 24)%N None p]> |>.

Fixpoint steps (n : nat) (t : nat) (w : pty_world) : option pty_world :=
  match n with 0 => Some w | S n => task_step yes t w ≫= steps n t end.

Lemma steps_reachable n t w w' : pty_reachable w -> steps n t w = Some w' -> pty_reachable w'.
Proof.
  revert w. induction n as [|n IH]; intros w Hr; cbn; [by intros [= <-]|].
  intros (w1 & H & H')%bind_Some. apply (IH w1); [|done]. eapply rtc_r; [exact Hr|by eapply p_task].
Qed.

Lemma begin_reachable t p w :
  pty_reachable w -> ptasks w !! t = None -> start_ok (lit "claude") p (sess w) -> pty_reachable (begin t p w).
Proof. intros Hr Ht Hs. eapply rtc_r; [exact Hr|by apply p_start]. Qed.

(** A client that finds no session starts one and leaves. *)
Definition created : pty_world := default pty_new (steps 9 1 (begin 1 (Attach true) pty_new)).

Lemma created_reachable : pty_reachable created.
Proof.
  apply (steps_reachable 9 1 (begin 1 (Attach true) pty_new)); [|vm_compute; reflexivity].
  apply begin_reachable; [apply rtc_refl|reflexivity|exact I].
Qed.

(** Somebody is about to end the session. *)
Definition ending : pty_world := default pty_new (steps 3 2 (begin 2 (Locking Terminate) created)).

Lemma ending_reachable : pty_reachable ending.
Proof.
  apply (steps_reachable 3 2 (begin 2 (Locking Terminate) created)); [|vm_compute; reflexivity].
  apply begin_reachable; [exact created_reachable|vm_compute; reflexivity|exact I].
Qed.

(** The child exits and a client comes back. *)
Definition late : pty_world :=
  begin 3 (Attach false) (upd_terminal 1 (fun t => t <| tm_alive := false |>) created).

Lemma late_reachable : pty_reachable late.
Proof.
  apply begin_reachable; [|vm_compute; reflexivity|exact I]. eapply rtc_r; [exact created_reachable|apply p_exit].
Qed.

Definition the_terminal : terminal := mkTerminal (lit "claude") true Reading false (80, 24)%N (80, 24)%N false.
End ExampleSession.

Import ExampleSession.

Lemma no_child_forgotten_witness : inner (sess created) !! lit "claude" = Some 1%N.
Proof.
  destruct (no_child_forgotten created (lit "claude") created_reachable) as [_ H].
  apply (H ltac:(intros t k Hk; vm_compute in Hk; discriminate) 1%N the_terminal);
    [vm_compute; reflexivity|reflexivity|repeat split].
Defined.

Lemma terminate_leaves_none_witness :
  exists w', task_step yes 2 ending = Some w' /\
    forall id tm, terminals (sess w') !! id = Some tm -> tm_name tm = lit "claude" -> ~ usable tm.
Proof.
  eexists. split; [vm_compute; reflexivity|].
  apply (terminate_leaves_none yes 2 ending _ (mkPtask (lit "claude") (80, 24)%N (Some 1) (TerminateKill 1))
           (mkPtask (lit "claude") (80, 24)%N (Some 1) (Done Terminated)));
    [exact ending_reachable|vm_compute; reflexivity..|reflexivity].
Defined.

Lemma session_outlives_clients_witness :
  exists tm, terminals (sess late) !! 1%N = Some tm /\ tm_name tm = lit "claude" /\
    (tm_alive tm = false \/ tm_reader tm = Removing \/
     exists t k, ptasks late !! t = Some k /\ pt_name k = lit "claude" /\
       ((exists size, pt_pc k = ReplaceSwap 1 size) \/ pt_pc k = Locked Terminate)).
Proof.
  destruct (task_step yes 3 late) as [w'|] eqn:E; [|vm_compute in E; discriminate].
  apply (session_outlives_clients late w' (lit "claude") 1%N late_reachable (p_task _ _ _ _ E)).
  - vm_compute. reflexivity.
  - vm_compute in E. injection E as <-. vm_compute. discriminate.
Defined.

(** A screen that remembers the bytes it was given. *)
Definition tape (sc data : list N) : list N := sc ++ data.

Lemma attach_misses_nothing_witness :
  exists p r, p <= r <= 1 /\ p <= 1 <= 1 /\
    [[104; 105]; [104; 105]]%N =
    (if bool_decide (build_screen_replay (fun _ => false) Datatypes.id (fun _ => []) (shown tape [] (take r [[104; 105]%N])) = [])
     then [] else [build_screen_replay (fun _ => false) Datatypes.id (fun _ => []) (shown tape [] (take r [[104; 105]%N]))]) ++
    between p 1 [[104; 105]%N].
Proof.
  assert (output_reachable tape (fun _ => false) Datatypes.id (fun _ => []) [] (mkOutput [[104; 105]%N] 1 Following 1 [[104; 105]; [104; 105]]%N false)) as H.
  { unfold output_reachable.
    eapply rtc_l; [by apply o_subscribe|]. eapply rtc_l; [by apply (o_process _ _ _ _ _ _ [104; 105]%N)|].
    eapply rtc_l; [apply o_send; rsimpl; lia|]. eapply rtc_l; [by apply o_replay|].
    eapply rtc_l; [apply (o_receive _ _ _ _ _ _ [104; 105]%N); rsimpl; try done; unfold CHANNEL; lia|]. apply rtc_refl. }
  exact (attach_misses_nothing _ _ _ _ _ _ H eq_refl eq_refl).
Defined.

Lemma attach_repeats_output_witness :
  exists o, output_reachable tape (fun _ => false) Datatypes.id (fun _ => []) [] o /\ o_chunks o = [[104; 105]%N] /\
    o_client o = [[104; 105]; [104; 105]]%N.
Proof.
  apply (attach_repeats_output tape (fun _ => false) Datatypes.id (fun _ => []) [] [104; 105]%N).
  vm_compute. discriminate.
Defined.
