(* ===== verification/Terminal.v ===== *)
(** * The client side of a terminal session (pty_attach.rs)

    [rumpel] attaches the local terminal to a session over a WebSocket: it forwards typed bytes
    and window sizes, writes what the session prints, and reconnects when the connection is
    lost.  A byte sequence typed by the user detaches.  [bridge_step] is one iteration of the
    concurrent read and write loops on one event; [attach_async] is the loop of connections. *)
From S2P Require Import Prelude Strs PodConn Pty.

(** ** Typed bytes *)

Definition DETACH_PREFIX : N := 1%N.
Definition DETACH_SUFFIX : N := 100%N.
Definition DETACH_SUFFIX_CTRL : N := 4%N.

Inductive StdinAction := Detach | Send (data : list N) | Nothing.

(** The loop of [process_stdin]: [None] when the detach sequence is complete. *)
Fixpoint scan_stdin (data : list N) (saw_ctrl_a : bool) (to_send : list N) : option (list N * bool) :=
  match data with
  | [] => Some (to_send, saw_ctrl_a)
  | byte :: data =>
      if saw_ctrl_a then
        if bool_decide (byte = DETACH_SUFFIX) || bool_decide (byte = DETACH_SUFFIX_CTRL) then None
        else if bool_decide (byte = DETACH_PREFIX) then scan_stdin data true (to_send ++ [DETACH_PREFIX])
        else scan_stdin data false (to_send ++ [DETACH_PREFIX; byte])
      else if bool_decide (byte = DETACH_PREFIX) then scan_stdin data true to_send
      else scan_stdin data false (to_send ++ [byte])
  end.

Definition process_stdin (data : list N) (saw_ctrl_a : bool) : StdinAction * bool :=
  match scan_stdin data saw_ctrl_a [] with
  | None => (Detach, false)
  | Some ([], saw) => (Nothing, saw)
  | Some (to_send, saw) => (Send to_send, saw)
  end.

(** What the write loop forwards of the chunks it reads: the messages, and whether it detached
    or still holds a prefix back. *)
Fixpoint forward_stdin (chunks : list (list N)) (saw : bool) : list (list N) * option bool :=
  match chunks with
  | [] => ([], Some saw)
  | chunk :: chunks =>
      match process_stdin chunk saw with
      | (Detach, _) => ([], None)
      | (Send data, saw) => let '(sent, r) := forward_stdin chunks saw in (data :: sent, r)
      | (Nothing, saw) => forward_stdin chunks saw
      end
  end.

(** ** The bridge *)

(** The control messages of pty_session.rs that the client distinguishes. *)
Inductive PtyControl :=
| CSession | CAttach | CResize (size : size2) | CSessionEnded | CSessionUnavailable | CSessionError (error : str).

Inductive server_msg := MBinary (data : list N) | MText (control : option PtyControl) | MClose | MOther.

Inductive client_msg := KBinary (data : list N) | KResize (size : size2) | KPing.

Inductive BridgeOutcome := BDetached | BSessionEnded | BSessionUnavailable | BSessionError (error : str) | BConnectionLost.

Record bridge := mkBridge {
  received : bool;
  raw_active : bool;
  saw_ctrl_a : bool;
  written : list (list N);       (* to the local terminal *)
  forwarded : list client_msg;   (* to the session *)
}.

#[export] Instance bridge_updatable : Updatable bridge := fun b =>
  mkBridge (received b) (raw_active b) (saw_ctrl_a b) (written b) (forwarded b).

(** [deferred]: the terminal is not in raw mode yet. *)
Definition bridge_new (deferred : bool) : bridge := mkBridge true (negb deferred) false [] [].

Inductive bridge_event :=
| EStdin (chunk : option (list N))      (* [None] at the end of the input *)
| EWinch (size : option size2)
| ETick
| EMsg (msg : option server_msg) (written_ok : bool).  (* [None] when the socket fails or ends *)

Definition send_msg (ok : bool) (m : client_msg) (b : bridge) : bridge + BridgeOutcome :=
  if ok then inl (b <| forwarded ::= fun l => l ++ [m] |>) else inr BConnectionLost.

(** One event; [ok] tells whether a message can be sent. *)
Definition bridge_step (ok : bool) (ev : bridge_event) (b : bridge) : bridge + BridgeOutcome :=
  match ev with
  | EStdin None => inr BSessionEnded
  | EStdin (Some chunk) =>
      match process_stdin chunk (saw_ctrl_a b) with
      | (Detach, _) => inr BDetached
      | (Send data, saw) => send_msg ok (KBinary data) (b <| saw_ctrl_a := saw |>)
      | (Nothing, saw) => inl (b <| saw_ctrl_a := saw |>)
      end
  | EWinch None => inl b
  | EWinch (Some size) => send_msg ok (KResize size) b
  | ETick => if received b then send_msg ok KPing (b <| received := false |>) else inr BConnectionLost
  | EMsg None _ => inr BConnectionLost
  | EMsg (Some m) written_ok =>
      let b := b <| received := true |> in
      match m with
      | MBinary data =>
          let b := b <| raw_active := true |> in
          if written_ok then inl (b <| written ::= fun l => l ++ [data] |>) else inr BConnectionLost
      | MText (Some CSessionEnded) => inr BSessionEnded
      | MText (Some CSessionUnavailable) => inr BSessionUnavailable
      | MText (Some (CSessionError error)) => inr (BSessionError error)
      | MText _ => inl b
      | MClose => inr BConnectionLost
      | MOther => inl b
      end
  end.

(** Standard input is read only in raw mode. *)
Definition enabled (ev : bridge_event) (b : bridge) : bool :=
  match ev with EStdin _ => raw_active b | _ => true end.

(** The events of a bridge until it ends; an event that is not enabled does not happen. *)
Fixpoint run_bridge_events (evs : list (bool * bridge_event)) (b : bridge) : option (bridge + BridgeOutcome) :=
  match evs with
  | [] => Some (inl b)
  | (ok, ev) :: evs =>
      if negb (enabled ev b) then None
      else match bridge_step ok ev b with
           | inl b => run_bridge_events evs b
           | inr r => if bool_decide (evs = []) then Some (inr r) else None
           end
  end.

(** ** Reconnecting *)

Inductive ReconnectOutcome := RConnected | RStopped.

(** [wait_for_pod_reconnect] on the events of the daemon; a failed read ends them. *)
Fixpoint wait_for_pod_reconnect (events : list (result str ReconnectEvent)) : result str ReconnectOutcome :=
  match events with
  | Ok EvConnected :: _ => Ok RConnected
  | Ok EvStopped :: _ => Ok RStopped
  | Ok _ :: events => wait_for_pod_reconnect events
  | Err _ :: _ | [] => Err (lit "reconnect stream ended without connected event")
  end.

Inductive AttachOutcome := ADetached | ASessionEnded.

Inductive attach_error := InitialConnectionFailed (e : str) | SessionUnavailable | SessionFailed (e : str).

(** How one bridge ends the attachment; [None] to reconnect. *)
Definition bridge_result (o : BridgeOutcome) : option (result attach_error AttachOutcome) :=
  match o with
  | BDetached => Some (Ok ADetached)
  | BSessionEnded => Some (Ok ASessionEnded)
  | BSessionUnavailable => Some (Err SessionUnavailable)
  | BSessionError e => Some (Err (SessionFailed e))
  | BConnectionLost => None
  end.

(** One round of the reconnection loop: what the daemon said (if it was asked), and the outcome
    of the bridge if the connection could be made. *)
Record round := mkRound {
  r_daemon : option (list (result str ReconnectEvent));
  r_bridge : option BridgeOutcome;
}.

(** The loop: the result, [None] while it is still running, and the [create] flag of each session
    request it sent. *)
Fixpoint reconnect_loop (rounds : list round) : option (result attach_error AttachOutcome) * list bool :=
  match rounds with
  | [] => (None, [])
  | r :: rounds =>
      match wait_for_pod_reconnect <$> r_daemon r with
      | Some (Ok RStopped) => (Some (Ok ASessionEnded), [])
      | _ =>
          match r_bridge r with
          | None => reconnect_loop rounds
          | Some o =>
              match bridge_result o with
              | Some res => (Some res, [false])
              | None => let '(res, sent) := reconnect_loop rounds in (res, false :: sent)
              end
          end
      end
  end.

Definition attach_async (first : result str BridgeOutcome) (rounds : list round)
    : option (result attach_error AttachOutcome) * list bool :=
  match first with
  | Err e => (Some (Err (InitialConnectionFailed e)), [])
  | Ok o =>
      match bridge_result o with
      | Some res => (Some res, [true])
      | None => let '(res, sent) := reconnect_loop rounds in (res, true :: sent)
      end
  end.

(** ** Typed bytes reach the session *)

(** The prefix that is held back until the next byte. *)
Definition pending (saw : bool) : list N := if saw then [DETACH_PREFIX] else [].

Definition detaching (c : N) : Prop := c = DETACH_SUFFIX \/ c = DETACH_SUFFIX_CTRL.

(** The detach sequence occurs in the input. *)
Definition detaches (input : list N) : Prop :=
  exists before c after, input = before ++ DETACH_PREFIX :: c :: after /\ detaching c.

Lemma detaches_nil : ~ detaches [].
Proof. intros (before & c & after & H & _). by destruct before. Qed.

Lemma detaches_one x : ~ detaches [x].
Proof. intros (before & c & after & H & _). by destruct before as [|? []]. Qed.

Lemma detaches_cons x c l : detaches (x :: c :: l) <-> x = DETACH_PREFIX /\ detaching c \/ detaches (c :: l).
Proof.
  split.
  - intros (before & d & after & H & Hd). destruct before as [|y before]; simplify_eq/=.
    + by left.
    + right. exists before, d, after. done.
  - intros [[-> Hc]|(before & d & after & -> & Hd)].
    + exists [], c, l. done.
    + exists (x :: before), d, after. done.
Qed.

Lemma detaches_skip x l : x <> DETACH_PREFIX -> detaches (x :: l) <-> detaches l.
Proof.
  intros Hx. destruct l as [|c l].
  - split; [by intros ?%detaches_one|by intros ?%detaches_nil].
  - rewrite detaches_cons. naive_solver.
Qed.

Lemma detaches_app l m : detaches l -> detaches (l ++ m).
Proof.
  intros (before & c & after & -> & Hc). exists before, c, (after ++ m). split; [|done]. by rewrite <- app_assoc.
Qed.

Lemma scan_stdin_spec data saw acc :
  match scan_stdin data saw acc with
  | Some (out, saw') => out ++ pending saw' = acc ++ pending saw ++ data /\ ~ detaches (pending saw ++ data)
  | None => detaches (pending saw ++ data)
  end.
Proof.
  revert saw acc. induction data as [|x data IH]; intros saw acc; cbn [scan_stdin].
  { rewrite app_nil_r. split; [done|]. destruct saw; [apply detaches_one|apply detaches_nil]. }
  destruct saw; cbn [pending app].
  - destruct (bool_decide_reflect (x = DETACH_SUFFIX)) as [->|H1]; cbn [orb].
    { apply detaches_cons. left. split; [done|by left]. }
    destruct (bool_decide_reflect (x = DETACH_SUFFIX_CTRL)) as [->|H2].
    { apply detaches_cons. left. split; [done|by right]. }
    assert (~ detaching x) as Hx by (by intros [?|?]).
    destruct (bool_decide_reflect (x = DETACH_PREFIX)) as [->|H3].
    + specialize (IH true (acc ++ [DETACH_PREFIX])).
      destruct (scan_stdin _ _ _) as [[out saw']|].
      * destruct IH as [E Hd]. rewrite E, <- app_assoc. split; [done|]. rewrite detaches_cons. naive_solver.
      * apply detaches_cons. by right.
    + specialize (IH false (acc ++ [DETACH_PREFIX; x])).
      destruct (scan_stdin _ _ _) as [[out saw']|].
      * destruct IH as [E Hd]. rewrite E, <- app_assoc. split; [done|].
        rewrite detaches_cons, detaches_skip by done. naive_solver.
      * apply detaches_cons. right. by apply detaches_skip.
  - destruct (bool_decide_reflect (x = DETACH_PREFIX)) as [->|H3].
    + apply (IH true acc).
    + specialize (IH false (acc ++ [x])). destruct (scan_stdin _ _ _) as [[out saw']|].
      * destruct IH as [E Hd]. rewrite E, <- app_assoc. split; [done|]. by rewrite detaches_skip.
      * by apply detaches_skip.
Qed.

Lemma scan_stdin_app d1 d2 saw acc :
  scan_stdin (d1 ++ d2) saw acc =
  match scan_stdin d1 saw acc with Some (out, saw) => scan_stdin d2 saw out | None => None end.
Proof.
  revert saw acc. induction d1 as [|x d1 IH]; intros saw acc; cbn [scan_stdin app]; [done|].
  rewrite !IH. by repeat case_match.
Qed.

Lemma scan_stdin_acc d saw acc :
  scan_stdin d saw acc = prod_map (app acc) Datatypes.id <$> scan_stdin d saw [].
Proof.
  revert saw acc. induction d as [|x d IH]; intros saw acc; cbn [scan_stdin app]; [simpl; by rewrite app_nil_r|].
  rewrite (IH true (acc ++ _)), (IH false (acc ++ _)), (IH false (acc ++ [x])), (IH true acc).
  rewrite (IH true [_]), (IH false [_; _]), (IH false [x]).
  destruct (scan_stdin d true []) as [[]|], (scan_stdin d false []) as [[]|]; cbn;
    repeat case_match; cbn; rewrite <- ?app_assoc; done.
Qed.

Lemma forward_stdin_scan chunks saw :
  match forward_stdin chunks saw with
  | (sent, Some saw') => scan_stdin (concat chunks) saw [] = Some (concat sent, saw')
  | (sent, None) => exists before chunk after held, chunks = before ++ chunk :: after /\
      scan_stdin (concat before) saw [] = Some (concat sent, held) /\ scan_stdin (concat before ++ chunk) saw [] = None
  end.
Proof.
  revert saw. induction chunks as [|chunk chunks IH]; intros saw; cbn [forward_stdin]; [done|].
  assert (forall out saw1 sent r, scan_stdin chunk saw [] = Some (out, saw1) -> forward_stdin chunks saw1 = (sent, r) ->
    match r with
    | Some saw' => scan_stdin (concat (chunk :: chunks)) saw [] = Some (out ++ concat sent, saw')
    | None => exists before chunk0 after held, chunk :: chunks = before ++ chunk0 :: after /\
        scan_stdin (concat before) saw [] = Some (out ++ concat sent, held) /\ scan_stdin (concat before ++ chunk0) saw [] = None
    end) as Hnext.
  { intros out saw1 sent r Hs Hf. specialize (IH saw1). rewrite Hf in IH. destruct r as [saw'|].
    - cbn [concat]. by rewrite scan_stdin_app, Hs, scan_stdin_acc, IH.
    - destruct IH as (before & chunk0 & after & held & -> & H1 & H2). exists (chunk :: before), chunk0, after, held.
      rewrite scan_stdin_app, H1, scan_stdin_acc in H2. apply fmap_None in H2.
      cbn [concat]. rewrite <- app_assoc, !scan_stdin_app, Hs, (scan_stdin_acc (concat before) saw1 out), H1. cbn.
      split_and!; [done|done|]. by rewrite scan_stdin_app, scan_stdin_acc, H1; cbn; rewrite scan_stdin_acc, H2. }
  unfold process_stdin. destruct (scan_stdin chunk saw []) as [[[|x out] saw1]|] eqn:Es.
  - destruct (forward_stdin chunks saw1) as [sent r] eqn:Ef. apply (Hnext _ _ sent r eq_refl) in Ef. by destruct r.
  - destruct (forward_stdin chunks saw1) as [sent r] eqn:Ef. apply (Hnext _ _ sent r eq_refl) in Ef. by destruct r.
  - exists [], chunk, chunks, saw. done.
Qed.

(** Typed bytes are forwarded faithfully however they arrive in chunks: unless the detach
    sequence occurs in the input, the session gets every byte, apart from a final Ctrl-a that is
    held back.  The attachment ends exactly when the sequence occurs; of the chunk that completes
    it nothing is forwarded, what was typed before the sequence included. *)
Theorem stdin_forwarded chunks :
  match forward_stdin chunks false with
  | (sent, Some saw) => ~ detaches (concat chunks) /\ concat sent ++ pending saw = concat chunks
  | (sent, None) => exists before chunk after held, chunks = before ++ chunk :: after /\
      ~ detaches (concat before) /\ detaches (concat before ++ chunk) /\ concat sent ++ pending held = concat before
  end.
Proof.
  pose proof (forward_stdin_scan chunks false) as H. destruct (forward_stdin chunks false) as [sent [saw|]].
  - pose proof (scan_stdin_spec (concat chunks) false []) as Hs. rewrite H in Hs. by destruct Hs.
  - destruct H as (before & chunk & after & held & -> & H1 & H2). exists before, chunk, after, held.
    pose proof (scan_stdin_spec (concat before) false []) as Hs. rewrite H1 in Hs. destruct Hs.
    pose proof (scan_stdin_spec (concat before ++ chunk) false []) as Hd. rewrite H2 in Hd. done.
Qed.

(** ** A connection that went silent is noticed *)

Definition is_message (ev : bridge_event) : bool := match ev with EMsg (Some _) _ => true | _ => false end.

Lemma step_received ok ev b b' :
  bridge_step ok ev b = inl b' -> ev <> ETick -> received b' = received b || is_message ev.
Proof.
  intros H Ht. unfold bridge_step, send_msg in H.
  destruct ev as [[chunk|]|[size|]| |[m|] wok]; cbn [is_message]; rewrite ?orb_false_r, ?orb_true_r; try done.
  - destruct (process_stdin chunk (saw_ctrl_a b)) as [[] saw]; [done| |]; destruct ok; by simplify_eq.
  - destruct ok; by simplify_eq.
  - by simplify_eq.
  - destruct m as [data|[[]|]| |], wok; by simplify_eq.
Qed.

Lemma run_received evs b b' :
  run_bridge_events evs b = Some (inl b') -> Forall (fun e => e.2 <> ETick) evs ->
  received b' = received b || existsb (fun e => is_message e.2) evs.
Proof.
  revert b. induction evs as [|[ok ev] evs IH]; intros b; cbn [run_bridge_events existsb].
  { intros [= <-] _. by rewrite orb_false_r. }
  destruct (enabled ev b); [|done]. cbn [negb]. destruct (bridge_step ok ev b) as [b1|] eqn:E; [|by case_bool_decide].
  intros H [He Hes]%Forall_cons. rewrite (IH _ H Hes), (step_received _ _ _ _ E He). by rewrite orb_assoc.
Qed.

Lemma run_bridge_app e1 e2 b :
  e2 <> [] ->
  run_bridge_events (e1 ++ e2) b =
  match run_bridge_events e1 b with Some (inl b') => run_bridge_events e2 b' | _ => None end.
Proof.
  intros H2. revert b. induction e1 as [|[ok ev] e1 IH]; intros b; cbn [run_bridge_events app]; [done|].
  destruct (enabled ev b); [|done]. cbn [negb]. destruct (bridge_step ok ev b); [apply IH|].
  rewrite (bool_decide_false (e1 ++ e2 = [])); [by case_bool_decide|]. intros [_ ?]%app_nil. done.
Qed.

(** A silent connection is noticed, and only a silent one: between two ticks of the keepalive
    timer the bridge counts the messages of the session; at the second tick it reports the
    connection as lost exactly when there was none, whatever else happened in between. *)
Theorem silence_detected deferred before ok1 quiet b :
  run_bridge_events (before ++ (ok1, ETick) :: quiet) (bridge_new deferred) = Some (inl b) ->
  Forall (fun e => e.2 <> ETick) quiet ->
  (bridge_step true ETick b = inr BConnectionLost <-> existsb (fun e => is_message e.2) quiet = false).
Proof.
  intros H Hq. rewrite run_bridge_app in H by done.
  destruct (run_bridge_events before (bridge_new deferred)) as [[b1|]|]; try done. cbn [run_bridge_events enabled negb] in H.
  destruct (bridge_step ok1 ETick b1) as [b2|] eqn:E; [|by case_bool_decide].
  assert (received b2 = false) as H2.
  { cbn in E. destruct (received b1); [|done]. unfold send_msg in E. destruct ok1; [|done]. by injection E as <-. }
  pose proof (run_received _ _ _ H Hq) as Hr. rewrite H2, orb_false_l in Hr. rewrite <- Hr.
  unfold bridge_step, send_msg. destruct (received b); split; done.
Qed.

(** ** Reconnecting does not start another session *)

(** Where a request without the create flag can be. *)
Definition attaching (p : pc) : Prop :=
  match p with Attach false | SetSize false _ | Done _ => True | _ => False end.

Lemma attaching_step a t w w' k :
  ptasks w !! t = Some k -> attaching (pt_pc k) -> task_step a t w = Some w' ->
  next_id (sess w') = next_id (sess w) /\
  forall k', ptasks w' !! t = Some k' -> attaching (pt_pc k').
Proof.
  intros Hk Ha H. apply task_step_case in H as (k0 & Hk0 & Hc). rewrite Hk in Hk0. injection Hk0 as <-.
  destruct Hc as [c l w1 Ep _|c l Ep _ _|r Ep|a' s p Hrun]; rewrite ?Ep in Ha; try done.
  - split; [done|]. intros k'. rproj. by rewrite lookup_delete_eq.
  - cbv zeta. assert (next_id s = next_id (sess w) /\ attaching p) as [Hn Hp].
    { destruct (pt_pc k) as [[]|[]|[]|[]| | | |[] id| | | | | |]; try done; cbn [run_pc] in Hrun.
      - destruct (attach_existing _ _ _ _) as [s1 r] eqn:E. injection Hrun as <- <-. split.
        + unfold attach_existing in E. destruct (inner (sess w) !! _) eqn:Ei; [destruct (child_is_alive _ _)|].
          all: cbn in E; repeat (case_match; simplify_eq/=); done.
        + by destruct r as [[]|].
      - by injection Hrun as <- <-. }
    destruct (is_done p); (split; [done|]); unfold unlock, goto; intros k'; rproj;
      rewrite lookup_alter_eq, Hk; by intros [= <-].
Qed.

(** However often a client loses its connection, it asks for a new session at most once, with
    its first request; every later request is without the create flag, and such a request never
    starts a child, at any step of its way through the server. *)
Theorem reconnecting_never_spawns first rounds :
  (forall n, (attach_async first rounds).2 !! S n <> Some true) /\
  (forall a t w w' k, ptasks w !! t = Some k -> attaching (pt_pc k) -> task_step a t w = Some w' ->
     next_id (sess w') = next_id (sess w) /\ forall k', ptasks w' !! t = Some k' -> attaching (pt_pc k')).
Proof.
  split; [|intros; by eapply attaching_step].
  assert (forall n, (reconnect_loop rounds).2 !! n <> Some true) as Hr.
  { induction rounds as [|r rounds IH]; intros n; cbn [reconnect_loop]; [by destruct n|].
    destruct (wait_for_pod_reconnect <$> r_daemon r) as [[[]|]|]; try (by destruct n).
    all: destruct (r_bridge r) as [o|]; [|apply IH]; destruct (bridge_result o) as [res|]; [by destruct n as [|[]]|].
    all: destruct (reconnect_loop rounds) as [res sent]; destruct n as [|n]; [done|]; apply (IH n). }
  intros n. unfold attach_async. destruct first as [o|e]; [|done].
  destruct (bridge_result o) as [res|]; [by destruct n|]. specialize (Hr n).
  destruct (reconnect_loop rounds) as [res sent]. exact Hr.
Qed.

(** ** Witnesses *)

(** A tick, a window change that is forwarded, and silence until the next tick. *)
Lemma silence_detected_witness :
  exists b, run_bridge_events ([(true, EMsg (Some (MBinary [104]%N)) true)] ++ (true, ETick) :: [(true, EWinch (Some (80, 24)%N))])
              (bridge_new true) = Some (inl b) /\
    (bridge_step true ETick b = inr BConnectionLost <-> existsb (fun e => is_message e.2) [(true, EWinch (Some (80, 24)%N))] = false).
Proof.
  eexists. split; [vm_compute; reflexivity|].
  apply (silence_detected true [(true, EMsg (Some (MBinary [104]%N)) true)] true [(true, EWinch (Some (80, 24)%N))]).
  - vm_compute. reflexivity.
  - repeat constructor; discriminate.
Defined.

(** "hi" and the detach sequence in one chunk: "hi" is lost. *)
Example typed_text_lost : forward_stdin [[104; 105; 1; 100]%N] false = ([], None).
Proof. reflexivity. Qed.
