(* ===== verification/Codex.v ===== *)
(** * The Codex monitor and proxy of a pod (pod/codex.rs)

    The pod server follows the threads of the Codex daemon over a WebSocket and summarises them
    as one agent state, and it relays the frames of attached clients, in which it removes local
    permission defaults.  Messages are JSON values: [wsmsg] is what the socket yields, its text
    already parsed ([None] when it is not JSON). *)
From stdpp Require Import gmap.
From S2P Require Import Prelude Strs Hosts PodConn Json.

(** ** Thread states *)

Inductive ThreadActiveFlag := WaitingOnApproval | WaitingOnUserInput.
Inductive ThreadStatus := NotLoaded | ThreadIdle | SystemError | Active (active_flags : list ThreadActiveFlag).

#[export] Instance ThreadActiveFlag_eq_dec : EqDecision ThreadActiveFlag.
Proof. solve_decision. Defined.
#[export] Instance ThreadStatus_eq_dec : EqDecision ThreadStatus.
Proof. solve_decision. Defined.

(** [CodexThreads] *)
Abbreviation threads := (gmap (list N) ThreadStatus).

(** The state one thread contributes; an unloaded thread contributes none. *)
Definition thread_state (status : ThreadStatus) : option CodexState :=
  match status with
  | NotLoaded => None
  | ThreadIdle => Some Idle
  | SystemError => Some CodexError
  | Active active_flags => if existsb (fun _ => true) active_flags then Some Idle else Some CodexProcessing
  end.

(** The loop of [CodexThreads::state] over the values in the order of the hash map. *)
Fixpoint state_loop (statuses : list ThreadStatus) (r : option CodexState) : option CodexState :=
  match statuses with
  | [] => r
  | status :: statuses =>
      match thread_state status with
      | None => state_loop statuses r
      | Some CodexProcessing => Some CodexProcessing
      | Some state => state_loop statuses (if bool_decide (r = Some CodexError) then r else Some state)
      end
  end.

Definition state (m : threads) : option CodexState := state_loop (map snd (map_to_list m)) None.

(** ** Decoding *)

Definition json_str (j : json) : option str := match j with JString s => Some s | _ => None end.

(** [value\[key\]] *)
Definition json_index (k : str) (j : json) : json := default JNull (json_get k j).

(** Field [i] of the [n] fields of a derived struct: by name in an object, by position in an
    array. *)
Definition struct_field (k : str) (i n : nat) (j : json) : option json :=
  match j with
  | JObject _ => json_get k j
  | JArray l => if bool_decide (length l = n) then l !! i else None
  | _ => None
  end.

Definition decode_flag (j : json) : option ThreadActiveFlag :=
  s ← variant_name j;
  if bool_decide (s = lit "waitingOnApproval") then Some WaitingOnApproval
  else if bool_decide (s = lit "waitingOnUserInput") then Some WaitingOnUserInput
  else None.

Definition decode_list {A} (decode : json -> option A) (j : json) : option (list A) :=
  match j with JArray l => mapM decode l | _ => None end.

(** The tag of a variant: its name or its index. *)
Definition status_tag (j : json) : option nat :=
  match j with
  | JString s =>
      if bool_decide (s = lit "notLoaded") then Some 0 else if bool_decide (s = lit "idle") then Some 1
      else if bool_decide (s = lit "systemError") then Some 2 else if bool_decide (s = lit "active") then Some 3 else None
  | JNumber n => if bool_decide (0 <= n < 4)%Z then Some (Z.to_nat n) else None
  | _ => None
  end.

Definition decode_status (j : json) : option ThreadStatus :=
  '(tag, flags) ← match j with
                  | JObject _ => tag ← json_get (lit "type") j; Some (tag, json_get (lit "activeFlags") j)
                  | JArray (tag :: rest) => Some (tag, match rest with [flags] => Some flags | _ => None end)
                  | _ => None
                  end;
  match status_tag tag with
  | Some 0 => Some NotLoaded
  | Some 1 => Some ThreadIdle
  | Some 2 => Some SystemError
  | Some 3 => Active <$> (flags ≫= decode_list decode_flag)
  | _ => None
  end.

(** [ThreadStatusChanged] and [ThreadSnapshot]: two fields. *)
Definition decode_pair (id_field : str) (j : json) : option (str * ThreadStatus) :=
  id ← struct_field id_field 0 2 j ≫= json_str;
  status ← struct_field (lit "status") 1 2 j ≫= decode_status;
  Some (id, status).

(** [ReadThread] *)
Definition decode_read (j : json) : option (str * ThreadStatus) :=
  struct_field (lit "thread") 0 1 j ≫= decode_pair (lit "id").

(** [LoadedThreads]: a missing cursor is no cursor. *)
Definition decode_page (j : json) : option (list str * option str) :=
  data ← struct_field (lit "data") 0 2 j ≫= decode_list json_str;
  cursor ← match j, struct_field (lit "nextCursor") 1 2 j with
           | _, Some c => decode_option json_str c
           | JObject _, None => Some None
           | _, None => None
           end;
  Some (data, cursor).

(** [CodexThreads::notification] *)
Definition notification (msg : json) (m : threads) : result str threads :=
  let method := json_get (lit "method") msg ≫= json_str in
  if bool_decide (method = Some (lit "thread/status/changed")) then
    '(id, status) ← context (lit "parsing Codex thread status notification")
                      (decode_pair (lit "threadId") (json_index (lit "params") msg));
    Ok (<[id := status]> m)
  else if bool_decide (method = Some (lit "thread/started")) then
    '(id, status) ← context (lit "parsing Codex thread started notification")
                      (decode_read (json_index (lit "params") msg));
    Ok (<[id := status]> m)
  else Ok m.

(** ** One monitoring session *)

Inductive wsmsg := WText (obj : option json) | WOther | WError | WTimeout.

(** The watch channel: its value and the values it was changed to. *)
Record watch := mkWatch { w_value : option CodexState; w_changes : list (option CodexState) }.

Definition publish (m : threads) (tx : watch) : watch :=
  let current := state m in
  if bool_decide (w_value tx = current) then tx else mkWatch current (w_changes tx ++ [current]).

Definition has_id (id : str) (obj : json) : bool := bool_decide (json_get (lit "id") obj ≫= json_str = Some id).

Fixpoint handshake (msgs : list wsmsg) (m : threads) (tx : watch) : watch * result str (threads * list wsmsg) :=
  match msgs with
  | [] => (tx, Err (lit "connection closed during handshake"))
  | (WError | WTimeout) :: _ => (tx, Err (lit "reading handshake message"))
  | WText (Some obj) :: msgs =>
      match notification obj m with
      | Err e => (tx, Err e)
      | Ok m =>
          let tx := publish m tx in
          if has_id (lit "rumpelpod-init") obj then
            (tx, match json_get (lit "error") obj with
                 | Some _ => Err (lit "Codex monitor initialization failed")
                 | None => Ok (m, msgs)
                 end)
          else handshake msgs m tx
      end
  | (WText None | WOther) :: msgs => handshake msgs m tx
  end.

(** [monitor_request]: the result, the threads and what is still to be read. *)
Fixpoint monitor_request (method : str) (msgs : list wsmsg) (m : threads) : result str (json * threads * list wsmsg) :=
  match msgs with
  | [] => Err (lit "Codex monitor disconnected during " ++ method)
  | WTimeout :: _ => Err (lit "timed out reading Codex " ++ method)
  | WError :: _ => Err (lit "reading Codex monitor response")
  | WText None :: _ => Err (lit "parsing Codex monitor response")
  | WOther :: msgs => monitor_request method msgs m
  | WText (Some obj) :: msgs =>
      if has_id (lit "rumpelpod-state") obj then
        match json_get (lit "error") obj with
        | Some _ => Err (lit "Codex " ++ method ++ lit " failed")
        | None => r ← context (lit "Codex response missing result") (json_get (lit "result") obj); Ok (r, m, msgs)
        end
      else m ← notification obj m; monitor_request method msgs m
  end.

(** A thread read at startup does not replace what a notification said. *)
Definition or_insert_thread (id : str) (status : ThreadStatus) (m : threads) : threads :=
  match m !! id with Some _ => m | None => <[id := status]> m end.

Fixpoint read_threads (ids : list str) (msgs : list wsmsg) (m : threads) : result str (threads * list wsmsg) :=
  match ids with
  | [] => Ok (m, msgs)
  | _ :: ids =>
      '(r, m, msgs) ← monitor_request (lit "thread/read") msgs m;
      '(id, status) ← context (lit "parsing Codex thread snapshot") (decode_read r);
      read_threads ids msgs (or_insert_thread id status m)
  end.

(** Every page of the loaded threads; every page takes a message, so the number of messages
    bounds the number of pages. *)
Fixpoint load_pages (fuel : nat) (msgs : list wsmsg) (m : threads) : result str (threads * list wsmsg) :=
  match fuel with
  | 0 => Err []
  | S fuel =>
      '(r, m, msgs) ← monitor_request (lit "thread/loaded/list") msgs m;
      '(ids, next_cursor) ← context (lit "parsing loaded Codex threads") (decode_page r);
      '(m, msgs) ← read_threads ids msgs m;
      match next_cursor with None => Ok (m, msgs) | Some _ => load_pages fuel msgs m end
  end.

Fixpoint follow (msgs : list wsmsg) (m : threads) (tx : watch) : watch * result str threads :=
  match msgs with
  | [] => (tx, Ok m)
  | (WError | WTimeout) :: _ => (tx, Err (lit "reading notification"))
  | WText (Some obj) :: msgs =>
      match notification obj m with
      | Err e => (tx, Err e)
      | Ok m => follow msgs m (publish m tx)
      end
  | (WText None | WOther) :: msgs => follow msgs m tx
  end.

(** [run_codex_monitor] on the messages of one connection. *)
Definition run_codex_monitor (msgs : list wsmsg) (tx : watch) : watch * result str threads :=
  match handshake msgs ∅ tx with
  | (tx, Err e) => (tx, Err e)
  | (tx, Ok (m, msgs)) =>
      match load_pages (S (length msgs)) msgs m with
      | Err e => (tx, Err e)
      | Ok (m, msgs) => follow msgs m (publish m tx)
      end
  end.

(** [codex_state_monitor]: after a connection the state is unknown. *)
Definition send_none (tx : watch) : watch := mkWatch None (w_changes tx ++ [None]).

Definition monitor_round (msgs : list wsmsg) (tx : watch) : watch := send_none (run_codex_monitor msgs tx).1.

(** ** The proxy *)

(** [Map::remove] of a map that keeps its order: the last entry takes the place of the removed one. *)
Fixpoint swap_remove (k : str) (fields : list (str * json)) : list (str * json) :=
  match fields with
  | [] => []
  | f :: rest =>
      if bool_decide (f.1 = k) then
        match last rest with Some l => l :: take (length rest - 1) rest | None => [] end
      else f :: swap_remove k rest
  end.

(** [get_mut(key)] and an assignment through it. *)
Definition set_field (k : str) (v : json) (fields : list (str * json)) : list (str * json) :=
  map (fun f => if bool_decide (f.1 = k) then (f.1, v) else f) fields.

Definition PERMISSION_KEYS : list str :=
  [lit "approvalPolicy"; lit "approvalsReviewer"; lit "sandboxPolicy"; lit "permissions"].

Definition is_null (j : json) : bool := match j with JNull => true | _ => false end.

(** [is_some_and(|value| !value.is_null())] *)
Definition chosen (k : str) (j : json) : bool := is_some_and (fun v => negb (is_null v)) (json_get k j).

(** [use_app_server_permission_defaults] on a text message that is JSON: the changed message, if
    it is changed, and the flag. *)
Definition use_app_server_permission_defaults (request : json) (use_server_defaults : bool) : option json * bool :=
  if negb use_server_defaults then (None, false)
  else
    let method := json_get (lit "method") request ≫= json_str in
    if bool_decide (method = Some (lit "thread/settings/update")) then
      (None, negb (existsb (fun k => chosen k (json_index (lit "params") request)) PERMISSION_KEYS))
    else if negb (bool_decide (method = Some (lit "thread/start"))) then (None, true)
    else
      match request, json_get (lit "params") request with
      | JObject fields, Some (JObject params) =>
          if chosen (lit "permissions") (JObject params) then (None, false)
          else (Some (JObject (set_field (lit "params")
                  (JObject (swap_remove (lit "sandbox") (swap_remove (lit "approvalPolicy") params))) fields)), true)
      | _, _ => (None, true)
      end.

(** The texts forwarded to the daemon: a text that is not JSON, or is not changed, is passed on as
    it is. *)
Fixpoint forward_client (parse : str -> option json) (print : json -> str) (texts : list str) (flag : bool) : list str :=
  match texts with
  | [] => []
  | text :: texts =>
      match parse text with
      | None => text :: forward_client parse print texts flag
      | Some request =>
          let '(changed, flag) := use_app_server_permission_defaults request flag in
          from_option print text changed :: forward_client parse print texts flag
      end
  end.

(** ** The reason of a close frame *)

Fixpoint char_boundary (reason : str) (end_ : nat) : nat :=
  match split_at reason end_, end_ with
  | None, S end_ => char_boundary reason end_
  | _, _ => end_
  end.

(** The reason in [handle_codex_proxy]; [None] is a panic. *)
Definition close_reason (reason : str) : option str :=
  slice_to reason (char_boundary reason (min (len reason) 123)).

(** ** The summary does not depend on the order of the map *)

(** Some thread contributes the state. *)
Definition some_thread (s : CodexState) (l : list ThreadStatus) : Prop := exists status, status ∈ l /\ thread_state status = Some s.

(** The most urgent state of the threads: working, then failed, then idle. *)
Definition summary (l : list ThreadStatus) (r : option CodexState) : Prop :=
  match r with
  | Some CodexProcessing => some_thread CodexProcessing l
  | Some CodexError => ~ some_thread CodexProcessing l /\ some_thread CodexError l
  | Some Idle => ~ some_thread CodexProcessing l /\ ~ some_thread CodexError l /\ some_thread Idle l
  | None => forall s, ~ some_thread s l
  end.

#[export] Instance some_thread_proper s : Proper ((≡ₚ) ==> iff) (some_thread s).
Proof. intros l l' Hp. unfold some_thread. by setoid_rewrite Hp. Qed.

Lemma summary_unique l l' r r' : l ≡ₚ l' -> summary l r -> summary l' r' -> r = r'.
Proof.
  intros Hp. assert (forall s, some_thread s l <-> some_thread s l') as E by (intros s; by rewrite Hp).
  destruct r as [[]|], r' as [[]|]; cbn [summary]; naive_solver.
Qed.

Lemma some_thread_app s l l' : some_thread s (l ++ l') <-> some_thread s l \/ some_thread s l'.
Proof. unfold some_thread. set_solver. Qed.

Lemma some_thread_one s st : some_thread s [st] <-> thread_state st = Some s.
Proof. unfold some_thread. set_solver. Qed.

Lemma some_thread_nil s : ~ some_thread s [].
Proof. by intros (st & ?%not_elem_of_nil & _). Qed.

(** What the loop has seen so far, as threads. *)
Definition seen (r : option CodexState) : list ThreadStatus :=
  match r with None => [] | Some CodexProcessing => [Active []] | Some Idle => [ThreadIdle] | Some CodexError => [SystemError] end.

Lemma some_seen s r : some_thread s (seen r) <-> r = Some s.
Proof.
  destruct r as [[]|]; cbn [seen]; rewrite ?some_thread_one; cbn; try naive_solver.
  split; [by intros ?%some_thread_nil|done].
Qed.

(** Idle threads do not matter beside a failed one. *)
Lemma summary_same q q' r :
  (forall s, s = Idle \/ (some_thread s q <-> some_thread s q')) ->
  (some_thread Idle q <-> some_thread Idle q') \/ some_thread CodexError q -> summary q r -> summary q' r.
Proof.
  intros Hs Hi. pose proof (Hs CodexProcessing) as [?|HP]; [done|]. pose proof (Hs CodexError) as [?|HE]; [done|].
  destruct r as [[]|]; cbn; try naive_solver.
Qed.

Lemma state_loop_summary l r : r <> Some CodexProcessing -> summary (seen r ++ l) (state_loop l r).
Proof.
  revert r. induction l as [|st l IH]; intros r Hr; cbn [state_loop].
  { rewrite app_nil_r. destruct r as [[]|]; cbn [summary]; rewrite ?some_seen; try naive_solver. intros s. by rewrite some_seen. }
  destruct (thread_state st) as [s0|] eqn:Es.
  2: { eapply summary_same; [| |by apply IH]; [intros s; right|left];
         rewrite !some_thread_app, (some_thread_app _ [st] l), some_thread_one, Es; naive_solver. }
  assert (forall s, some_thread s (seen r ++ st :: l) <-> r = Some s \/ s0 = s \/ some_thread s l) as E.
  { intros s. change (st :: l) with ([st] ++ l). rewrite !some_thread_app, some_thread_one, some_seen, Es. naive_solver. }
  destruct s0.
  - cbn [summary]. apply E. naive_solver.
  - eapply summary_same; [| |apply (IH (if bool_decide (r = Some CodexError) then r else Some Idle))].
    + intros s. rewrite E, some_thread_app, some_seen. case_bool_decide; destruct s; naive_solver.
    + rewrite E, !some_thread_app, !some_seen. case_bool_decide; [by right; left|left]. naive_solver.
    + case_bool_decide; naive_solver.
  - eapply summary_same; [| |apply (IH (if bool_decide (r = Some CodexError) then r else Some CodexError))].
    + intros s. rewrite E, some_thread_app, some_seen. case_bool_decide; destruct s; naive_solver.
    + right. rewrite some_thread_app, some_seen. left. by case_bool_decide.
    + case_bool_decide; naive_solver.
Qed.

(** The state the pod reports for Codex is the most urgent one over its threads, whatever the
    order in which the hash map lists them: working if a thread works and waits for nobody, else
    failed if one failed, else idle if one is loaded, else none. *)
Theorem codex_state_spec (m : threads) statuses :
  statuses ≡ₚ map snd (map_to_list m) ->
  state_loop statuses None = state m /\ summary (map snd (map_to_list m)) (state m).
Proof.
  intros Hp. assert (forall l, summary l (state_loop l None)) as H by (intros l; by apply (state_loop_summary l None)).
  split; [|apply H]. by eapply summary_unique.
Qed.

(** ** The monitor tracks the threads of the daemon

    A daemon that follows the protocol: after the connection is made it notifies every change of
    a thread, and answers the initialisation, the listing of the loaded threads and the reads in
    turn, with notifications and unrelated messages anywhere in between. *)

Inductive smsg :=
| SChanged (id : str) (status : ThreadStatus)
| SStarted (id : str) (status : ThreadStatus)
| SOther (obj : json)
| SInit
| SPage (ids : list str) (next_cursor : option str)
| SRead (id : str) (status : ThreadStatus).

Definition encode_flag (f : ThreadActiveFlag) : json :=
  JString (match f with WaitingOnApproval => lit "waitingOnApproval" | WaitingOnUserInput => lit "waitingOnUserInput" end).

Definition encode_status (status : ThreadStatus) : json :=
  match status with
  | NotLoaded => JObject [(lit "type", JString (lit "notLoaded"))]
  | ThreadIdle => JObject [(lit "type", JString (lit "idle"))]
  | SystemError => JObject [(lit "type", JString (lit "systemError"))]
  | Active flags => JObject [(lit "type", JString (lit "active")); (lit "activeFlags", JArray (map encode_flag flags))]
  end.

Definition encode_thread (id_field id : str) (status : ThreadStatus) : json :=
  JObject [(id_field, JString id); (lit "status", encode_status status)].

Definition encode_notice (method : str) (params : json) : json :=
  JObject [(lit "method", JString method); (lit "params", params)].

Definition encode_response (id : str) (r : json) : json := JObject [(lit "id", JString id); (lit "result", r)].

Definition smsg_json (msg : smsg) : json :=
  match msg with
  | SChanged id status => encode_notice (lit "thread/status/changed") (encode_thread (lit "threadId") id status)
  | SStarted id status => encode_notice (lit "thread/started") (JObject [(lit "thread", encode_thread (lit "id") id status)])
  | SOther obj => obj
  | SInit => encode_response (lit "rumpelpod-init") (JObject [])
  | SPage ids next_cursor =>
      encode_response (lit "rumpelpod-state")
        (JObject [(lit "data", JArray (map JString ids)); (lit "nextCursor", encode_option JString next_cursor)])
  | SRead id status => encode_response (lit "rumpelpod-state") (JObject [(lit "thread", encode_thread (lit "id") id status)])
  end.

Definition wire (l : list smsg) : list wsmsg := map (fun m => WText (Some (smsg_json m))) l.

(** A message that is not an answer: a notification or something the monitor is not concerned with. *)
Definition unsolicited (msg : smsg) : Prop :=
  match msg with
  | SChanged _ _ | SStarted _ _ => True
  | SOther obj =>
      json_get (lit "id") obj ≫= json_str ∉ [Some (lit "rumpelpod-init"); Some (lit "rumpelpod-state")] /\
      json_get (lit "method") obj ≫= json_str ∉ [Some (lit "thread/status/changed"); Some (lit "thread/started")]
  | _ => False
  end.

(** The answers to the reads of a page. *)
Inductive reads : list str -> list smsg -> Prop :=
| reads_nil : reads [] []
| reads_cons id ids status quiet l :
    Forall unsolicited quiet -> reads ids l -> reads (id :: ids) (quiet ++ SRead id status :: l).

Inductive pages : list smsg -> Prop :=
| pages_last quiet ids l : Forall unsolicited quiet -> reads ids l -> pages (quiet ++ SPage ids None :: l)
| pages_more quiet ids cursor l rest :
    Forall unsolicited quiet -> reads ids l -> pages rest -> pages (quiet ++ SPage ids (Some cursor) :: l ++ rest).

(** The messages of a connection. *)
Inductive conversation : list smsg -> Prop :=
| conversation_intro quiet startup rest :
    Forall unsolicited quiet -> pages startup -> Forall unsolicited rest ->
    conversation (quiet ++ SInit :: startup ++ rest).

(** The threads of the daemon after the messages, and what the monitor records of them. *)
Definition changes (msg : smsg) (m : threads) : threads :=
  match msg with SChanged id status | SStarted id status => <[id := status]> m | _ => m end.

Definition records (msg : smsg) (m : threads) : threads :=
  match msg with SRead id status => or_insert_thread id status m | _ => changes msg m end.

Definition truth (m : threads) (l : list smsg) : threads := foldl (fun m msg => changes msg m) m l.
Definition recorded (m : threads) (l : list smsg) : threads := foldl (fun m msg => records msg m) m l.

Lemma json_get_here k v rest : json_get k (JObject ((k, v) :: rest)) = Some v.
Proof. unfold json_get. cbn [List.find fst]. by rewrite bool_decide_true. Qed.

Lemma json_get_next k k' v rest : k' <> k -> json_get k (JObject ((k', v) :: rest)) = json_get k (JObject rest).
Proof. intros H. unfold json_get. cbn [List.find fst]. by rewrite bool_decide_false. Qed.

Ltac lit_neq := let H := fresh in intros H; vm_compute in H; discriminate H.

(** Find the fields of a literal object. *)
Ltac jget := repeat (rewrite json_get_here || rewrite json_get_next by lit_neq); cbn [mbind option_bind].

Lemma decode_encode_flags flags : mapM decode_flag (map encode_flag flags) = Some flags.
Proof. induction flags as [|[] flags IH]; [done|..]; cbn [map mapM]; rewrite IH; vm_compute; reflexivity. Qed.

Lemma decode_encode_status status : decode_status (encode_status status) = Some status.
Proof.
  destruct status; try (vm_compute; reflexivity). unfold decode_status, encode_status. jget.
  change (status_tag (JString (lit "active"))) with (Some 3). cbn [decode_list]. by rewrite decode_encode_flags.
Qed.

Lemma decode_encode_pair f id status :
  f <> lit "status" -> decode_pair f (encode_thread f id status) = Some (id, status).
Proof.
  intros Hf. unfold decode_pair, encode_thread, struct_field. rewrite json_get_here, json_get_next, json_get_here by done.
  cbn [mbind option_bind json_str]. by rewrite decode_encode_status.
Qed.

Lemma decode_encode_read id status :
  decode_read (JObject [(lit "thread", encode_thread (lit "id") id status)]) = Some (id, status).
Proof. unfold decode_read, struct_field. jget. apply decode_encode_pair. lit_neq. Qed.

Lemma decode_encode_page ids cursor :
  decode_page (JObject [(lit "data", JArray (map JString ids)); (lit "nextCursor", encode_option JString cursor)]) = Some (ids, cursor).
Proof.
  assert (mapM json_str (map JString ids) = Some ids) as H.
  { induction ids as [|i ids IH]; [done|]. cbn [map mapM json_str]. by rewrite IH. }
  unfold decode_page, struct_field. jget. cbn [decode_list]. rewrite H. by destruct cursor.
Qed.

Lemma notification_changes msg m : unsolicited msg \/ msg = SInit -> notification (smsg_json msg) m = Ok (changes msg m).
Proof.
  intros H. destruct msg as [id st|id st|obj| |ids c|id st]; try (by destruct H).
  - unfold notification, smsg_json, encode_notice, json_index. jget. cbn [json_str default from_option Datatypes.id].
    rewrite bool_decide_true, decode_encode_pair by (done || lit_neq). done.
  - unfold notification, smsg_json, encode_notice, json_index. jget. cbn [json_str default from_option Datatypes.id].
    rewrite bool_decide_false, bool_decide_true by (done || (intros [= H']; revert H'; lit_neq)).
    by rewrite decode_encode_read.
  - destruct H as [[_ H]|?]; [|done]. unfold notification. rewrite !not_elem_of_cons in H. destruct H as (H1 & H2 & _).
    cbn [smsg_json]. by rewrite !bool_decide_false.
Qed.

(** Whether a message carries one of the two ids. *)
Lemma unsolicited_ids msg : unsolicited msg ->
  has_id (lit "rumpelpod-init") (smsg_json msg) = false /\ has_id (lit "rumpelpod-state") (smsg_json msg) = false.
Proof.
  destruct msg as [id st|id st|obj| | |]; cbn [unsolicited]; intros H; try done; unfold has_id.
  destruct H as [H _]. rewrite !not_elem_of_cons in H. destruct H as (H1 & H2 & _). cbn [smsg_json].
  by rewrite !bool_decide_false.
Qed.

Lemma records_unsolicited msg m : unsolicited msg -> records msg m = changes msg m.
Proof. by destruct msg. Qed.

Lemma handshake_quiet quiet rest m tx : Forall unsolicited quiet ->
  exists tx', handshake (wire (quiet ++ SInit :: rest)) m tx = (tx', Ok (recorded m quiet, wire rest)).
Proof.
  intros H. revert m tx. induction H as [|msg quiet Hm _ IH]; intros m tx; cbn [app wire map handshake].
  - rewrite notification_changes by (by right). unfold smsg_json, encode_response, has_id. jget.
    rewrite bool_decide_true by done. by eexists.
  - rewrite notification_changes by (by left). rewrite (proj1 (unsolicited_ids _ Hm)).
    destruct (IH (changes msg m) (publish (changes msg m) tx)) as [tx' E]. exists tx'.
    cbn [recorded foldl]. by rewrite records_unsolicited.
Qed.

(** The result of an answer. *)
Definition answer (msg : smsg) : option json :=
  match msg with SPage _ _ | SRead _ _ => json_get (lit "result") (smsg_json msg) | _ => None end.

Lemma request_quiet method quiet msg r rest m : Forall unsolicited quiet -> answer msg = Some r ->
  monitor_request method (wire (quiet ++ msg :: rest)) m = Ok (r, recorded m quiet, wire rest).
Proof.
  intros H Hr. revert m. induction H as [|q quiet Hq _ IH]; intros m; cbn [app wire map monitor_request].
  - assert (has_id (lit "rumpelpod-state") (smsg_json msg) = true /\ json_get (lit "error") (smsg_json msg) = None /\
            json_get (lit "result") (smsg_json msg) = Some r) as (-> & -> & ->); [|done].
    destruct msg; try done; cbn [answer] in Hr; unfold has_id, smsg_json, encode_response in *; revert Hr; jget; done.
  - rewrite (proj2 (unsolicited_ids _ Hq)), notification_changes by (by left). cbn [mbind result_bind].
    cbn [recorded foldl]. rewrite records_unsolicited by done. apply IH.
Qed.

Lemma answer_read id status :
  answer (SRead id status) = Some (JObject [(lit "thread", encode_thread (lit "id") id status)]).
Proof. unfold answer, smsg_json, encode_response. by jget. Qed.

Lemma answer_page ids cursor :
  answer (SPage ids cursor) =
  Some (JObject [(lit "data", JArray (map JString ids)); (lit "nextCursor", encode_option JString cursor)]).
Proof. unfold answer, smsg_json, encode_response. by jget. Qed.

Lemma recorded_app m l l' : recorded m (l ++ l') = recorded (recorded m l) l'.
Proof. apply foldl_app. Qed.

Lemma read_threads_reads ids l rest m : reads ids l ->
  read_threads ids (wire (l ++ rest)) m = Ok (recorded m l, wire rest).
Proof.
  intros H. revert m. induction H as [|id ids status quiet l Hq _ IH]; intros m; [done|]. cbn [read_threads].
  rewrite <- app_assoc. cbn [app]. rewrite (request_quiet _ _ _ _ _ _ Hq (answer_read id status)).
  cbn [mbind result_bind]. rewrite decode_encode_read. cbn [context mbind result_bind]. rewrite IH. by rewrite recorded_app.
Qed.

Lemma load_pages_pages l rest m fuel : pages l -> length l < fuel ->
  load_pages fuel (wire (l ++ rest)) m = Ok (recorded m l, wire rest).
Proof.
  intros H. revert m fuel. induction H as [quiet ids l Hq Hl|quiet ids cursor l more Hq Hl _ IH];
    intros m [|fuel] Hf; try lia; cbn [load_pages]; rewrite <- app_assoc; cbn [app];
    rewrite (request_quiet _ _ _ _ _ _ Hq (answer_page ids _));
    cbn [mbind result_bind]; rewrite decode_encode_page; cbn [context mbind result_bind]; rewrite <- ?app_assoc;
    rewrite read_threads_reads by done; cbn [mbind result_bind].
  - by rewrite recorded_app.
  - rewrite length_app in Hf. cbn [length] in Hf. rewrite length_app in Hf. rewrite IH by lia.
    rewrite recorded_app. cbn [recorded foldl]. by rewrite recorded_app.
Qed.

Lemma publish_value m tx : w_value (publish m tx) = state m.
Proof. unfold publish. by case_bool_decide. Qed.

Lemma follow_quiet rest m tx : Forall unsolicited rest -> w_value tx = state m ->
  exists tx', follow (wire rest) m tx = (tx', Ok (recorded m rest)) /\ w_value tx' = state (recorded m rest).
Proof.
  intros H. revert m tx. induction H as [|msg rest Hm _ IH]; intros m tx Hv; cbn [wire map follow]; [by exists tx|].
  rewrite notification_changes by (by left). cbn [recorded foldl]. rewrite records_unsolicited by done.
  apply IH, publish_value.
Qed.

Lemma monitor_recorded l tx : conversation l ->
  exists tx', run_codex_monitor (wire l) tx = (tx', Ok (recorded ∅ l)) /\ w_value tx' = state (recorded ∅ l).
Proof.
  intros [quiet startup rest Hq Hp Hr]. unfold run_codex_monitor.
  destruct (handshake_quiet quiet (startup ++ rest) ∅ tx Hq) as [tx1 ->].
  rewrite load_pages_pages; [|done|]. 2: { unfold wire. rewrite length_map, length_app. lia. }
  destruct (follow_quiet rest (recorded (recorded ∅ quiet) startup) (publish (recorded (recorded ∅ quiet) startup) tx1) Hr
    (publish_value _ _)) as (tx' & E & Hv).
  exists tx'. rewrite recorded_app. cbn [recorded foldl]. by rewrite recorded_app.
Qed.

(** *** The record is the truth *)

Definition mentions (id : str) (msg : smsg) : Prop :=
  match msg with SChanged i _ | SStarted i _ | SRead i _ => i = id | _ => False end.

(** A thread that is read is reported in a state it had since the connection was made. *)
Definition honest (m0 : threads) (l : list smsg) : Prop :=
  forall l1 id status l2, l = l1 ++ SRead id status :: l2 ->
    exists past, past `prefix_of` l1 /\ truth m0 past !! id = Some status.

(** The threads loaded when the connection was made are all listed, unless they change first. *)
Definition complete (m0 : threads) (l : list smsg) : Prop :=
  forall id, is_Some (m0 !! id) -> Exists (mentions id) l.

Lemma truth_app m l l' : truth m (l ++ l') = truth (truth m l) l'.
Proof. apply foldl_app. Qed.

Lemma truth_unmentioned m l id : ~ Exists (mentions id) l -> truth m l !! id = m !! id.
Proof.
  revert m. induction l as [|msg l IH]; intros m H; [done|]. rewrite Exists_cons in H. cbn [truth foldl].
  rewrite IH by tauto. destruct msg; cbn [changes]; try done; rewrite lookup_insert_ne; naive_solver.
Qed.

Lemma recorded_true m0 l : honest m0 l ->
  (forall id status, recorded ∅ l !! id = Some status -> truth m0 l !! id = Some status) /\
  (forall id, Exists (mentions id) l -> is_Some (recorded ∅ l !! id)).
Proof.
  induction l as [|msg l IH] using rev_ind; intros Hh.
  { split; [intros id status; cbn; by rewrite lookup_empty|by intros id ?%Exists_nil]. }
  destruct IH as [IH1 IH2].
  { intros l1 id status l2 ->. apply (Hh l1 id status (l2 ++ [msg])). by rewrite <- app_assoc. }
  rewrite recorded_app, truth_app. cbn [recorded truth foldl].
  assert (forall id st, (forall i s, <[id := st]> (recorded ∅ l) !! i = Some s -> <[id := st]> (truth m0 l) !! i = Some s) /\
            forall i, Exists (mentions i) l \/ id = i -> is_Some (<[id := st]> (recorded ∅ l) !! i)) as Hins.
  { intros id st. split.
    - intros i s. destruct (decide (id = i)) as [->|?]; [by rewrite !lookup_insert_eq|].
      rewrite !lookup_insert_ne by done. apply IH1.
    - intros i. destruct (decide (id = i)) as [->|?]; [by rewrite lookup_insert_eq|].
      rewrite lookup_insert_ne by done. intros [?|?]; [by apply IH2|done]. }
  destruct msg as [id st|id st|obj| |ids c|id st]; cbn [records changes]; setoid_rewrite Exists_app; setoid_rewrite Exists_cons;
    setoid_rewrite Exists_nil; cbn [mentions].
  1-2: destruct (Hins id st) as [H1 H2]; split; [exact H1|]; intros i; specialize (H2 i); naive_solver.
  1-3: split; [exact IH1|]; naive_solver.
  unfold or_insert_thread. destruct (recorded ∅ l !! id) as [s|] eqn:E.
  - split; [exact IH1|]. intros i [?|[<-|?]]; [by apply IH2|by rewrite E|done].
  - destruct (Hins id st) as [_ H2]. split; [|intros i; specialize (H2 i); naive_solver].
    intros i s. destruct (decide (id = i)) as [<-|?]; [|rewrite lookup_insert_ne by done; apply IH1].
    rewrite lookup_insert_eq. intros [= <-]. destruct (Hh l id st [] eq_refl) as (past & [later ->] & Hp).
    rewrite truth_app, truth_unmentioned; [done|]. intros Hm.
    destruct (IH2 id) as [s Hs]; [apply Exists_app; by right|]. congruence.
Qed.

(** [C31] The monitor follows the Codex daemon.  When the daemon notifies every change of a thread,
    answers in turn, lists the threads that were loaded when the connection was made, and reports
    each thread it is asked for in some state the thread had since then, the monitor ends up with
    exactly the threads of the daemon, and the state it publishes is theirs: a snapshot that was
    taken before a change never hides the change, wherever the messages cross. *)
Theorem monitor_tracks_threads m0 l tx :
  conversation l -> honest m0 l -> complete m0 l ->
  exists tx', run_codex_monitor (wire l) tx = (tx', Ok (truth m0 l)) /\ w_value tx' = state (truth m0 l).
Proof.
  intros Hc Hh Hm. destruct (recorded_true m0 l Hh) as [H1 H2].
  assert (recorded ∅ l = truth m0 l) as <-; [|by apply monitor_recorded].
  apply map_eq. intros id. destruct (recorded ∅ l !! id) as [s|] eqn:E; [symmetry; by apply H1|].
  destruct (truth m0 l !! id) as [s|] eqn:Et; [|done]. exfalso.
  assert (~ Exists (mentions id) l) as Hno by (intros ?%H2; rewrite E in *; by destruct 1 || naive_solver).
  rewrite truth_unmentioned in Et by done. apply Hno, Hm. by eexists.
Qed.

(** ** The proxy drops only local defaults *)

Lemma json_get_elem k v fields : NoDup (map fst fields) -> json_get k (JObject fields) = Some v <-> (k, v) ∈ fields.
Proof.
  intros Hn. unfold json_get. induction fields as [|[k' v'] fields IH]; cbn [List.find map fst] in *.
  { split; [done|by intros ?%not_elem_of_nil]. }
  apply NoDup_cons in Hn as [Hni Hn]. rewrite elem_of_cons. case_bool_decide as E; cbn [fst] in *.
  - cbn. subst k'. split; [intros [= ->]; by left|]. intros [[= ->]|Hin]; [done|]. destruct Hni.
    apply list_elem_of_fmap. by exists (k, v).
  - rewrite IH by done. split; [by right|]. intros [[= -> ->]|?]; done.
Qed.

Lemma json_get_perm k f f' : NoDup (map fst f) -> f ≡ₚ f' -> json_get k (JObject f) = json_get k (JObject f').
Proof.
  intros Hn Hp. assert (NoDup (map fst f')) as Hn' by (by rewrite <- Hp).
  apply option_eq. intros v. rewrite !json_get_elem by done. by rewrite Hp.
Qed.

Lemma last_first {A} (x : A) (l : list A) : last l = Some x -> x :: take (length l - 1) l ≡ₚ l.
Proof.
  intros [l' ->]%last_Some. rewrite length_app. cbn [length]. replace (length l' + 1 - 1) with (length l') by lia.
  rewrite take_app_length. apply Permutation_cons_append.
Qed.

Lemma swap_remove_perm k fields :
  (exists v, fields ≡ₚ (k, v) :: swap_remove k fields) \/ swap_remove k fields = fields /\ k ∉ map fst fields.
Proof.
  induction fields as [|[k' v'] fields IH]; cbn [swap_remove map fst]; [right; split; [done|apply not_elem_of_nil]|].
  case_bool_decide as E.
  - cbn [fst] in E. subst k'. left. exists v'. destruct (last fields) as [x|] eqn:El.
    + by rewrite last_first.
    + apply last_None in El. by subst.
  - cbn [fst] in E. destruct IH as [[v IH]|[IH Hni]].
    + left. exists v. rewrite IH at 1. apply Permutation_swap.
    + right. rewrite IH. split; [done|]. rewrite not_elem_of_cons. by split; [intros ->|].
Qed.

Lemma swap_remove_get k k' fields : NoDup (map fst fields) ->
  NoDup (map fst (swap_remove k' fields)) /\
  json_get k (JObject (swap_remove k' fields)) = if bool_decide (k = k') then None else json_get k (JObject fields).
Proof.
  intros Hn. destruct (swap_remove_perm k' fields) as [[v Hp]|[-> Hni]].
  - assert (NoDup (map fst ((k', v) :: swap_remove k' fields))) as Hn' by (by rewrite <- Hp).
    rewrite (json_get_perm k _ _ Hn Hp). cbn [map fst] in Hn'. apply NoDup_cons in Hn' as [Hni Hn']. split; [done|].
    case_bool_decide as E; [subst k'|by rewrite json_get_next].
    destruct (json_get k (JObject (swap_remove k fields))) as [w|] eqn:Ew; [|done].
    apply json_get_elem in Ew; [|done]. destruct Hni. apply list_elem_of_fmap. by exists (k, w).
  - split; [done|]. case_bool_decide as E; [subst k'|done]. destruct (json_get k (JObject fields)) as [w|] eqn:Ew; [|done].
    apply json_get_elem in Ew; [|done]. destruct Hni. apply list_elem_of_fmap. by exists (k, w).
Qed.

Lemma set_field_get k k' v fields :
  json_get k (JObject (set_field k' v fields)) =
  if bool_decide (k = k') then (fun _ => v) <$> json_get k (JObject fields) else json_get k (JObject fields).
Proof.
  unfold json_get, set_field. induction fields as [|[k1 v1] fields IH]; cbn [List.find map fst]; [by case_bool_decide|].
  destruct (bool_decide_reflect (k1 = k')) as [->|H1]; cbn [fst].
  - destruct (bool_decide_reflect (k' = k)) as [->|H2]; [by rewrite bool_decide_true|].
    rewrite IH. rewrite (bool_decide_false (k = k')) by done. done.
  - destruct (bool_decide_reflect (k1 = k)) as [->|H2]; [by rewrite bool_decide_false|]. apply IH.
Qed.

(** The user made an explicit choice of permissions. *)
Definition chooses (request : json) : bool :=
  let method := json_get (lit "method") request ≫= json_str in
  if bool_decide (method = Some (lit "thread/settings/update"))
  then existsb (fun k => chosen k (json_index (lit "params") request)) PERMISSION_KEYS
  else bool_decide (method = Some (lit "thread/start")) &&
       match request, json_get (lit "params") request with
       | JObject _, Some (JObject params) => chosen (lit "permissions") (JObject params)
       | _, _ => false
       end.

Lemma defaults_flag request :
  match use_app_server_permission_defaults request true with
  | (None, flag) => flag = negb (chooses request)
  | (Some _, flag) => flag = true /\ chooses request = false
  end.
Proof.
  unfold use_app_server_permission_defaults, chooses. cbn [negb].
  destruct (bool_decide (json_get (lit "method") request ≫= json_str = Some (lit "thread/settings/update"))); [done|].
  destruct (bool_decide (json_get (lit "method") request ≫= json_str = Some (lit "thread/start"))); cbn [negb andb]; [|done].
  destruct request as [| | | | |fields]; try done.
  destruct (json_get (lit "params") (JObject fields)) as [[| | | | |params]|]; try done.
  by destruct (chosen (lit "permissions") (JObject params)).
Qed.

(** While no permissions were chosen explicitly, the proxy changes exactly the requests that
    start a thread, and of these only the parameters "approvalPolicy" and "sandbox", which it
    removes; the flag is cleared by an explicit choice and by nothing else. *)
Theorem permission_defaults_exact request :
  match use_app_server_permission_defaults request true with
  | (None, flag) => flag = negb (chooses request)
  | (Some request', flag) =>
      flag = true /\ chooses request = false /\ json_get (lit "method") request ≫= json_str = Some (lit "thread/start") /\
      (forall k, k <> lit "params" -> json_get k request' = json_get k request) /\
      forall params, json_get (lit "params") request = Some (JObject params) -> NoDup (map fst params) ->
        exists params', json_get (lit "params") request' = Some (JObject params') /\
          forall k, json_get k (JObject params') =
            if bool_decide (k ∈ [lit "sandbox"; lit "approvalPolicy"]) then None else json_get k (JObject params)
  end.
Proof.
  unfold use_app_server_permission_defaults, chooses. cbn [negb].
  destruct (bool_decide (json_get (lit "method") request ≫= json_str = Some (lit "thread/settings/update"))); [done|].
  destruct (bool_decide_reflect (json_get (lit "method") request ≫= json_str = Some (lit "thread/start"))) as [Hm|Hm]; cbn [negb andb]; [|done].
  destruct request as [| | | | |fields]; try done.
  destruct (json_get (lit "params") (JObject fields)) as [[| | | | |params]|] eqn:Ep; try done.
  destruct (chosen (lit "permissions") (JObject params)); [done|]. split_and!; try done.
  - intros k Hk. rewrite set_field_get. by rewrite bool_decide_false.
  - intros params0 [= <-] Hn. eexists. rewrite set_field_get, bool_decide_true, Ep by done. split; [done|]. intros k.
    destruct (swap_remove_get k (lit "approvalPolicy") params Hn) as [Hn1 E1].
    destruct (swap_remove_get k (lit "sandbox") _ Hn1) as [_ E2]. rewrite E2, E1.
    destruct (bool_decide_reflect (k = lit "sandbox")) as [->|H1]; [by rewrite bool_decide_true by left|].
    destruct (bool_decide_reflect (k = lit "approvalPolicy")) as [->|H2]; [by rewrite bool_decide_true by (right; left)|].
    rewrite bool_decide_false; [done|]. rewrite !not_elem_of_cons. split_and!; try done. apply not_elem_of_nil.
Qed.

Lemma forward_client_off parse print texts : forward_client parse print texts false = texts.
Proof. induction texts as [|t texts IH]; [done|]. cbn. destruct (parse t); cbn; by rewrite IH. Qed.

(** Once the user has chosen permissions, everything the client sends afterwards reaches the
    daemon verbatim, and the choice itself does too. *)
Theorem explicit_permissions_kept parse print before text request after :
  parse text = Some request -> chooses request = true ->
  forward_client parse print (before ++ text :: after) true = forward_client parse print before true ++ text :: after.
Proof.
  intros Ht Hc. assert (forall flag, forward_client parse print (before ++ text :: after) flag =
    forward_client parse print before flag ++ text :: after) as H; [|by apply H].
  induction before as [|t before IH]; intros flag; cbn [app forward_client].
  - rewrite Ht. destruct flag.
    + pose proof (defaults_flag request) as H. destruct (use_app_server_permission_defaults request true) as [[|] flag'].
      * destruct H. congruence.
      * rewrite Hc in H. cbn in H. subst flag'. cbn. by rewrite forward_client_off.
    + cbn. by rewrite forward_client_off.
  - destruct (parse t); [|by rewrite IH]. destruct (use_app_server_permission_defaults _ _). by rewrite IH.
Qed.

(** ** The close reason fits its frame *)

Lemma split_at_zero s : split_at s 0 = Some ([], s).
Proof. by destruct s. Qed.

Lemma split_at_len s n a b : split_at s n = Some (a, b) -> s = a ++ b /\ len a = n.
Proof.
  revert n a b. induction s as [|x s IH]; intros n a b; cbn [split_at].
  - case_bool_decide; [|done]. by intros [= <- <-].
  - case_bool_decide; [by intros [= <- <-]|]. case_bool_decide as Hl; [done|].
    destruct (split_at s _) as [[a' b']|] eqn:E; [|done]. intros [= <- <-]. apply IH in E as [-> El].
    split; [done|]. unfold len, as_bytes in *. cbn. rewrite length_app. lia.
Qed.

Lemma char_boundary_spec reason n :
  exists a b, split_at reason (char_boundary reason n) = Some (a, b) /\ len a <= n /\
    forall e, len a < e <= n -> split_at reason e = None.
Proof.
  induction n as [|n IH]; cbn [char_boundary].
  - rewrite split_at_zero. exists [], reason. rewrite split_at_zero. split_and!; [done|done|lia].
  - destruct (split_at reason (S n)) as [[a b]|] eqn:E.
    + exists a, b. rewrite E. apply split_at_len in E as [_ E]. split_and!; [done|lia|lia].
    + destruct IH as (a & b & H1 & H2 & H3). exists a, b. split_and!; [done|lia|]. intros e He.
      destruct (decide (e = S n)) as [->|?]; [done|]. apply H3. lia.
Qed.

(** The reason of a close frame is cut at a character: computing it never panics, it is a
    prefix of the error text of at most 123 bytes, and it is the whole text or the next character
    would not fit. *)
Theorem close_reason_fits reason :
  exists shown rest, close_reason reason = Some shown /\ reason = shown ++ rest /\ len shown <= 123 /\
    (forall c rest', rest = c :: rest' -> 123 < len (shown ++ [c])).
Proof.
  unfold close_reason, slice_to. destruct (char_boundary_spec reason (min (len reason) 123)) as (a & b & H1 & H2 & H3).
  exists a, b. rewrite H1. destruct (split_at_len _ _ _ _ H1) as [E _]. split_and!; [done|done|lia|].
  intros c rest' ->. destruct (decide (len (a ++ [c]) <= 123)) as [Hle|]; [|lia]. exfalso.
  assert (reason = (a ++ [c]) ++ rest') as E' by (by rewrite <- app_assoc).
  assert (len a < len (a ++ [c]) /\ len (a ++ [c]) <= len reason) as [Hlt Hle'].
  { rewrite E'. unfold len, as_bytes. rewrite !bind_app, !length_app. cbn. rewrite app_nil_r.
    assert (0 < length (utf8_char c)); [|lia]. unfold utf8_char. repeat case_bool_decide; cbn; lia. }
  specialize (H3 (len (a ++ [c])) ltac:(lia)). rewrite E', split_at_app in H3. done.
Qed.

(** ** Witnesses *)

Lemma codex_state_spec_witness :
  state_loop [SystemError; Active [WaitingOnApproval]] None =
  state (list_to_map [(lit "a", Active [WaitingOnApproval]); (lit "b", SystemError)]).
Proof.
  apply (codex_state_spec (list_to_map [(lit "a", Active [WaitingOnApproval]); (lit "b", SystemError)])
           [SystemError; Active [WaitingOnApproval]]).
  vm_compute. first [apply Permutation_refl|apply Permutation_swap].
Defined.

(** A child starts to work while its older, idle state is on the way. *)
Module ExampleMonitor.
Definition loaded : threads := list_to_map [(lit "parent", Active []); (lit "child", ThreadIdle)].

Definition talk : list smsg :=
  [SInit; SPage [lit "parent"; lit "child"] None; SRead (lit "parent") (Active []);
   SChanged (lit "child") (Active []); SChanged (lit "parent") ThreadIdle; SRead (lit "child") ThreadIdle].

Lemma talk_conversation : conversation talk.
Proof.
  apply (conversation_intro [] [SPage [lit "parent"; lit "child"] None; SRead (lit "parent") (Active []);
    SChanged (lit "child") (Active []); SChanged (lit "parent") ThreadIdle; SRead (lit "child") ThreadIdle] []); [by constructor| |by constructor].
  apply (pages_last [] _ [SRead (lit "parent") (Active []);
    SChanged (lit "child") (Active []); SChanged (lit "parent") ThreadIdle; SRead (lit "child") ThreadIdle]); [by constructor|].
  apply (reads_cons _ _ _ []); [by constructor|].
  apply (reads_cons _ _ _ [SChanged (lit "child") (Active []); SChanged (lit "parent") ThreadIdle]); [by repeat constructor|constructor].
Qed.

Lemma talk_honest : honest loaded talk.
Proof.
  intros l1 id status l2 E. unfold talk in E. exists []. split; [apply prefix_nil|].
  do 6 (destruct l1 as [|? l1]; [simplify_eq/=; vm_compute; reflexivity|]; simplify_eq/=).
  all: by destruct l1.
Qed.

Lemma talk_complete : complete loaded talk.
Proof.
  intros id [s Hs]. unfold loaded in Hs. apply elem_of_list_to_map in Hs; [|decide_now].
  rewrite !elem_of_cons in Hs. destruct Hs as [[= -> ->]|[[= -> ->]|Hs]]; [| |by apply not_elem_of_nil in Hs].
  - do 2 apply Exists_cons_tl. by apply Exists_cons_hd.
  - do 3 apply Exists_cons_tl. by apply Exists_cons_hd.
Qed.
End ExampleMonitor.

Import ExampleMonitor.

Lemma monitor_tracks_threads_witness :
  exists tx', run_codex_monitor (wire talk) (mkWatch None []) = (tx', Ok (truth loaded talk)) /\
    w_value tx' = state (truth loaded talk).
Proof. apply (monitor_tracks_threads loaded talk); [apply talk_conversation|apply talk_honest|apply talk_complete]. Defined.

Definition choice : json :=
  JObject [(lit "method", JString (lit "thread/settings/update")); (lit "params", JObject [(lit "sandboxPolicy", JString (lit "x"))])].

Lemma explicit_permissions_kept_witness :
  forward_client (fun _ => Some choice) (fun _ => []) ([] ++ lit "choice" :: [lit "next"]) true =
  forward_client (fun _ => Some choice) (fun _ => []) [] true ++ lit "choice" :: [lit "next"].
Proof.
  apply (explicit_permissions_kept (fun _ => Some choice) (fun _ => []) [] (lit "choice") choice [lit "next"]);
    [reflexivity|vm_compute; reflexivity].
Defined.
