(* ===== verification/GitSetup.v ===== *)
(** * Setting up the repository of a pod (pod/git_setup.rs)

    On every start the pod server points the remotes "host" and "rumpelpod" of the repository at
    the gateway, with credentials that are scoped to its URL, configures the refspecs, installs
    the hook that pushes branches, and on the first start creates the branches of the pod.  All
    of it is done with git commands: [git] is the git program working on a repository of type
    [G], and [GitLaws] states the documented effect of the commands on the configuration and on
    the branches.  Configuration keys are compared as text; the program writes each key in one
    spelling. *)
From stdpp Require Import gmap.
From S2P Require Import Prelude Strs Hooks PodGit.

(** The hooks of a repository that the pod writes: their contents. *)
Record repo_hooks := mkHooks {
  reference_transaction : option str;
  pre_commit : option str;
}.

(** ** Commands *)

Section Setup.
  Context {G : Type}.
  Variable git : list str -> G -> G * option git_output.

Abbreviation world := (G * repo_hooks)%type.

Definition then_ {A B} (m : world -> world * result str A) (k : A -> world -> world * result str B)
    (w : world) : world * result str B :=
  match m w with (w, Ok a) => k a w | (w, Err e) => (w, Err e) end.

Notation "'let*' x := m 'in' k" := (then_ m (fun x => k)) (at level 100, x pattern, right associativity).

Definition ret {A} (r : result str A) (w : world) : world * result str A := (w, r).

(** [Command::output] *)
Definition output (args : list str) (w : world) : world * option git_output :=
  let '(g, o) := git args w.1 in ((g, w.2), o).

(** [CommandExt::success] *)
Definition success (args : list str) (w : world) : world * result str str :=
  match output args w with
  | (w, Some o) => (w, if ran_ok o then Ok (default [] (go_stdout o)) else Err (lit "command failed"))
  | (w, None) => (w, Err (lit "command not run"))
  end.

(** A command whose failure is ignored, or only looked at. *)
Definition attempt (args : list str) (w : world) : world * result str bool :=
  match success args w with (w, Ok _) => (w, Ok true) | (w, Err _) => (w, Ok false) end.

(** [str::replace] *)
Fixpoint replace_go (fuel : nat) (from to s : str) : str :=
  match fuel with
  | 0 => s
  | S fuel =>
      match find_str from s with
      | Some (before, rest) => before ++ to ++ replace_go fuel from to (drop (length from) rest)
      | None => s
      end
  end.

Definition replace (from to s : str) : str := replace_go (length s) from to s.

(** [run_git_with_secret] *)
Definition run_git_with_secret (args : list str) (token : str) : world -> world * result str unit := fun w =>
  match output args w with
  | (w, Some o) =>
      (w, if ran_ok o then Ok tt
          else Err (lit "Git with gateway credentials failed: " ++ replace token (lit "[REDACTED]") (go_stderr o)))
  | (w, None) => (w, Err (lit "running Git with gateway credentials"))
  end.

(** ** Gateway URLs *)

Definition MANAGED_REMOTES : list str := [lit "host"; lit "rumpelpod"].

Definition http_key (url setting : str) : str := lit "http." ++ url ++ lit "." ++ setting.
Definition remote_key (remote setting : str) : str := lit "remote." ++ remote ++ lit "." ++ setting.

Definition unset_git_config (key : str) : world -> world * result str unit := fun w =>
  match output [lit "config"; lit "--local"; lit "--unset-all"; key] w with
  | (w, Some o) =>
      (w, if bool_decide (go_code o = Some 0%Z) || bool_decide (go_code o = Some 5%Z) then Ok tt
          else Err (lit "removing Git setting " ++ key ++ lit ": " ++ go_stderr o))
  | (w, None) => (w, Err (lit "removing Git setting " ++ key))
  end.

(** The URL a managed remote had before. *)
Definition previous_url (remote : str) : world -> world * result str (option str) := fun w =>
  match output [lit "config"; lit "--local"; lit "--get"; remote_key remote (lit "url")] w with
  | (w, Some o) =>
      (w, match go_code o with
          | Some 0%Z => url ← context (lit "non-UTF-8 gateway URL") (go_stdout o); Ok (Some (trim url))
          | Some 1%Z => Ok None
          | _ => Err (lit "reading previous gateway URL failed")
          end)
  | (w, None) => (w, Err (lit "reading previous gateway URL"))
  end.

Fixpoint retire_urls (remotes : list str) (repo_url : str) : world -> world * result str unit :=
  match remotes with
  | [] => ret (Ok tt)
  | remote :: remotes =>
      let* old_url := previous_url remote in
      let* _ := match old_url with
                | Some old_url =>
                    if bool_decide (old_url = repo_url) then ret (Ok tt)
                    else let* _ := unset_git_config (http_key old_url (lit "extraHeader")) in
                         unset_git_config (http_key old_url (lit "followRedirects"))
                | None => ret (Ok tt)
                end in
      retire_urls remotes repo_url
  end.

Definition set_remote_url (remote url : str) : world -> world * result str unit :=
  let* added := attempt [lit "remote"; lit "add"; remote; url] in
  if added : bool then ret (Ok tt)
  else let* _ := success [lit "remote"; lit "set-url"; remote; url] in ret (Ok tt).

Definition configure_gateway_urls (repo_url token : str) : world -> world * result str unit :=
  let* _ := retire_urls MANAGED_REMOTES repo_url in
  let* _ := run_git_with_secret
              [lit "config"; http_key repo_url (lit "extraHeader"); lit "Authorization: Bearer " ++ token] token in
  let* _ := success [lit "config"; http_key repo_url (lit "followRedirects"); lit "false"] in
  let* _ := set_remote_url (lit "host") repo_url in
  set_remote_url (lit "rumpelpod") repo_url.

(** ** The hook *)

Definition POD_REFERENCE_TRANSACTION_HOOK : str :=
  unlines [lit "#!/bin/sh"; lit "# Installed by rumpelpod (pod)";
           lit "exec /opt/rumpelpod/bin/rumpel git-hook reference-transaction " ++ [c_quote] ++ lit "$@" ++ [c_quote]].

Definition HOOK_SIGNATURE : str := lit "Installed by rumpelpod (pod)".

(** The hook that is written, and [None] when it is installed already. *)
Definition new_hook (existing : option str) : option str :=
  match existing with
  | Some content =>
      if contains_str HOOK_SIGNATURE content then None
      else Some (trim_end (strip_host_hooks content) ++ [c_nl; c_nl] ++ POD_REFERENCE_TRANSACTION_HOOK)
  | None => Some POD_REFERENCE_TRANSACTION_HOOK
  end.

(** [install_hook_impl]: whether this is the first entry. *)
Definition install_hook_impl : world -> world * result str bool := fun w =>
  match new_hook (reference_transaction w.2) with
  | None => (w, Ok false)
  | Some content => ((w.1, mkHooks (Some content) (pre_commit w.2)), Ok true)
  end.

(** [install_pre_commit_hook] *)
Definition pre_commit_hook (description_file : str) : str :=
  unlines [lit "#!/bin/sh"; lit "# Installed by rumpelpod (pod pre-commit)";
           lit "exec /opt/rumpelpod/bin/rumpel git-hook pre-commit-description --file '" ++
           replace_char 39%N [39%N; 92%N; 39%N; 39%N] description_file ++ lit "'"].

Definition install_pre_commit_hook (description_file : option str) : world -> world * result str unit := fun w =>
  match description_file with
  | Some file => ((w.1, mkHooks (reference_transaction w.2) (Some (pre_commit_hook file))), Ok tt)
  | None => (w, Ok tt)
  end.

(** ** Branches *)

Record GitSetupBranch := mkBranch { gb_name : str; gb_base : str; gb_upstream : option str }.

Definition create_or_reset_branch (b : GitSetupBranch) : world -> world * result str unit :=
  let* branch_exists := attempt [lit "show-ref"; lit "--verify"; lit "--quiet"; lit "refs/heads/" ++ gb_name b] in
  let* _ := success (if branch_exists : bool
                     then [lit "branch"; lit "-f"; lit "--no-track"; gb_name b; gb_base b]
                     else [lit "branch"; lit "--no-track"; gb_name b; gb_base b]) in
  match gb_upstream b with
  | Some upstream => let* _ := success [lit "branch"; lit "--set-upstream-to"; upstream; gb_name b] in ret (Ok tt)
  | None => ret (Ok tt)
  end.

Fixpoint create_branches (bs : list GitSetupBranch) : world -> world * result str unit :=
  match bs with
  | [] => ret (Ok tt)
  | b :: bs => let* _ := create_or_reset_branch b in create_branches bs
  end.

(** ** Original remotes *)

Record GitRemote := mkRemote { gr_name : str; gr_url : str }.

Fixpoint remove_stale (existing : list str) (remotes : list GitRemote) : world -> world * result str unit :=
  match existing with
  | [] => ret (Ok tt)
  | name :: existing =>
      if bool_decide (name ∈ MANAGED_REMOTES) || existsb (fun r => bool_decide (gr_name r = name)) remotes
      then remove_stale existing remotes
      else let* _ := success [lit "remote"; lit "remove"; name] in remove_stale existing remotes
  end.

Fixpoint apply_remotes (existing : list str) (remotes : list GitRemote) : world -> world * result str unit :=
  match remotes with
  | [] => ret (Ok tt)
  | r :: remotes =>
      if bool_decide (gr_name r ∈ MANAGED_REMOTES) then apply_remotes existing remotes
      else
        let* _ := success (if bool_decide (gr_name r ∈ existing) then [lit "remote"; lit "set-url"; gr_name r; gr_url r]
                           else [lit "remote"; lit "add"; gr_name r; gr_url r]) in
        apply_remotes existing remotes
  end.

Definition configure_remotes (remotes : list GitRemote) : world -> world * result str unit :=
  if bool_decide (remotes = []) then ret (Ok tt)
  else
    let* listing := success [lit "remote"] in
    let* _ := remove_stale (lines listing) remotes in
    apply_remotes (lines listing) remotes.

(** ** [setup_git_impl] *)

Record GitIdentity := mkIdentity { gi_name : option str; gi_email : option str }.

Record GitSetupRequest := mkSetup {
  gs_url : str;
  gs_token : str;
  gs_pod_name : str;
  gs_extra_host_fetch : list str;
  gs_branches : list GitSetupBranch;
  gs_primary : str;
  gs_identity : option GitIdentity;
  gs_remotes : list GitRemote;
  gs_description_file : option str;
}.

Definition CONFIG_ADD (key value : str) : list str := [lit "config"; lit "--add"; key; value].
Definition CONFIG_SET (key value : str) : list str := [lit "config"; key; value].
Definition CONFIG_UNSET (key : str) : list str := [lit "config"; lit "--unset-all"; key].

Fixpoint add_all (key : str) (values : list str) : world -> world * result str unit :=
  match values with
  | [] => ret (Ok tt)
  | v :: values => let* _ := success (CONFIG_ADD key v) in add_all key values
  end.

Definition HOST_FETCH : list str :=
  [lit "+refs/heads/*:refs/remotes/host/*"; lit "+refs/rumpelpod/host-head:refs/remotes/host/HEAD"].

(** Replace the values of a key, which may have several. *)
Definition set_all (key : str) (values : list str) : world -> world * result str unit :=
  let* _ := attempt (CONFIG_UNSET key) in add_all key values.

Definition write_identity (setting : str) (value : option str) : world -> world * result str unit :=
  match value with
  | Some v => let* _ := success (CONFIG_SET setting v) in ret (Ok tt)
  | None => ret (Ok tt)
  end.

(** The part that runs on the first entry only. *)
Definition first_entry (req : GitSetupRequest) : world -> world * result str unit :=
  let* has_commit := attempt [lit "rev-parse"; lit "--verify"; lit "--quiet"; lit "HEAD"] in
  let* _ := (if has_commit : bool then success [lit "checkout"; lit "--detach"; lit "HEAD"] else ret (Ok [])) in
  let* _ := create_branches (gs_branches req) in
  let* _ := success [lit "checkout"; gs_primary req] in
  ret (Ok tt).

Definition setup_git_impl (req : GitSetupRequest) : world -> world * result str unit :=
  let* _ := configure_remotes (gs_remotes req) in
  let* _ := install_pre_commit_hook (gs_description_file req) in
  let* _ := success (CONFIG_SET (lit "rumpelpod.description-file") (default [] (gs_description_file req))) in
  let* _ := configure_gateway_urls (gs_url req) (gs_token req) in
  let* _ := set_all (remote_key (lit "host") (lit "fetch")) (HOST_FETCH ++ gs_extra_host_fetch req) in
  let* _ := success (CONFIG_SET (remote_key (lit "host") (lit "pushurl")) (lit "PUSH_DISABLED")) in
  let* _ := set_all (remote_key (lit "rumpelpod") (lit "push"))
              [push_refspec (gs_pod_name req); primary_push (gs_primary req) (gs_pod_name req)] in
  let* _ := success (CONFIG_SET (remote_key (lit "rumpelpod") (lit "fetch")) rumpelpod_fetch) in
  let* _ := success (CONFIG_SET (lit "rumpelpod.pod-name") (gs_primary req)) in
  let* _ := success [lit "fetch"; lit "host"] in
  let* is_first_entry := install_hook_impl in
  let* _ := (if is_first_entry : bool then first_entry req else ret (Ok tt)) in
  match gs_identity req with
  | Some identity =>
      let* _ := write_identity (lit "user.name") (gi_name identity) in
      write_identity (lit "user.email") (gi_email identity)
  | None => ret (Ok tt)
  end.
End Setup.

(** ** Git's documented behaviour *)

(** [remote_default]: the refspec that [git remote add] configures. *)
Definition remote_default (name : str) : str := lit "+refs/heads/*:refs/remotes/" ++ name ++ lit "/*".

(** The configuration as a map from keys to their values. *)
Definition upd (k : str) (v : list str) (f : str -> list str) : str -> list str :=
  fun k' => if bool_decide (k' = k) then v else f k'.

Definition failed (code : Z) : option git_output := Some (mkGitOutput (Some code) (Some []) []).

(** A key, as opposed to an option. *)
Definition is_key (k : str) : Prop := starts_with (lit "-") k = false.

Class GitLaws {G : Type} (git : list str -> G -> G * option git_output) := {
  conf : G -> str -> list str;
  heads : G -> gmap (list N) (list N);
  configured : G -> str -> bool;       (* whether a remote has any setting *)
  configured_settings g n : configured g n = false -> forall s, conf g (remote_key n s) = [];
  configured_url g n : conf g (remote_key n (lit "url")) <> [] -> configured g n = true;
  config_get k g :
    git [lit "config"; lit "--local"; lit "--get"; k] g =
    (g, match last (conf g k) with Some v => printed (v ++ [c_nl]) | None => absent end);
  config_set k v g : is_key k -> length (conf g k) <= 1 ->
    exists g', git (CONFIG_SET k v) g = (g', printed []) /\ heads g' = heads g /\
      forall k', conf g' k' = upd k [v] (conf g) k';
  config_add k v g :
    exists g', git (CONFIG_ADD k v) g = (g', printed []) /\ heads g' = heads g /\
      forall k', conf g' k' = upd k (conf g k ++ [v]) (conf g) k';
  config_unset k g :
    exists g', git (CONFIG_UNSET k) g = (g', if bool_decide (conf g k = []) then failed 5 else printed []) /\
      heads g' = heads g /\ forall k', conf g' k' = upd k [] (conf g) k';
  config_unset_local k g :
    git [lit "config"; lit "--local"; lit "--unset-all"; k] g = git (CONFIG_UNSET k) g;
  remote_add n u g : is_key n -> configured g n = false ->
    exists g', git [lit "remote"; lit "add"; n; u] g = (g', printed []) /\ heads g' = heads g /\
      forall k', conf g' k' = upd (remote_key n (lit "url")) [u] (upd (remote_key n (lit "fetch")) [remote_default n] (conf g)) k';
  remote_add_again n u g : configured g n = true -> git [lit "remote"; lit "add"; n; u] g = (g, failed 3);
  remote_set_url n u g : is_key n -> configured g n = true -> length (conf g (remote_key n (lit "url"))) <= 1 ->
    exists g', git [lit "remote"; lit "set-url"; n; u] g = (g', printed []) /\ heads g' = heads g /\
      forall k', conf g' k' = upd (remote_key n (lit "url")) [u] (conf g) k';
}.

Section Laws.
  Context {G : Type} (git : list str -> G -> G * option git_output) {L : GitLaws git}.

Local Abbreviation world := (G * repo_hooks)%type.

(** The configuration is known outside some keys. *)
Definition agree (ks : list str) (F f : str -> list str) : Prop := forall k, k ∉ ks -> f k = F k.

(** A step that succeeds, leaves the hooks and the branches alone and gives the configuration [F]. *)
Definition gives {A} (ks : list str) (m : world -> world * result str A) (w : world) (F : str -> list str) (r : A) : Prop :=
  exists g', m w = ((g', w.2), Ok r) /\ heads g' = heads w.1 /\ agree ks F (conf g').

Lemma gives_ext {A} ks ks' (m : world -> world * result str A) w F F' r :
  gives ks m w F r -> ks ⊆ ks' -> (forall k, k ∉ ks' -> F k = F' k) -> gives ks' m w F' r.
Proof.
  intros (g' & E & Hh & Hc) Hks HF. exists g'. split_and!; [done|done|]. intros k Hk. rewrite Hc, HF by set_solver. done.
Qed.

Lemma gives_then {A B} ks ks' (m : world -> world * result str A) (k : A -> world -> world * result str B) w F a F' b :
  gives ks m w F a ->
  (forall w', w'.2 = w.2 -> heads w'.1 = heads w.1 -> agree ks F (conf w'.1) -> gives ks' (k a) w' F' b) ->
  gives ks' (then_ m k) w F' b.
Proof.
  intros (g1 & E & Hh & Hc) Hk. destruct (Hk (g1, w.2) eq_refl Hh Hc) as (g2 & E2 & Hh2 & Hc2).
  exists g2. unfold then_. rewrite E. cbn in *. split_and!; [done|congruence|done].
Qed.

Lemma gives_ret {A} ks (r : A) w F : agree ks F (conf w.1) -> gives ks (ret (Ok r)) w F r.
Proof. intros HF. exists w.1. by destruct w. Qed.

Lemma success_printed args w g' t : git args w.1 = (g', printed t) -> success git args w = ((g', w.2), Ok t).
Proof. intros E. unfold success, output. by rewrite E. Qed.

Lemma attempt_failed args w g' c : git args w.1 = (g', failed c) -> c <> 0%Z -> attempt git args w = ((g', w.2), Ok false).
Proof.
  intros E Hc. unfold attempt, success, output. rewrite E. unfold failed, ran_ok. cbn [go_code].
  rewrite bool_decide_false; [done|]. by intros [= ?].
Qed.

Lemma attempt_printed args w g' t : git args w.1 = (g', printed t) -> attempt git args w = ((g', w.2), Ok true).
Proof. intros E. unfold attempt. by rewrite (success_printed _ _ _ _ E). Qed.

(** One changed key. *)
Lemma agree_upd ks F f f' k v : agree ks F f -> (forall k', f' k' = upd k v f k') -> agree ks (upd k v F) f'.
Proof. intros HF Hf' k' Hk. rewrite Hf'. unfold upd. case_bool_decide; [done|by apply HF]. Qed.

Lemma gives_set ks k v w F : agree ks F (conf w.1) -> is_key k -> k ∉ ks -> length (F k) <= 1 ->
  gives ks (success git (CONFIG_SET k v)) w (upd k [v] F) [] /\
  forall token, gives ks (run_git_with_secret git (CONFIG_SET k v) token) w (upd k [v] F) tt.
Proof.
  intros HF Hk Hks Hl. destruct (config_set k v w.1 Hk) as (g' & E & Hh & Hc); [by rewrite HF|].
  split; [|intros token]; exists g'; (split; [|split; [done|by eapply agree_upd]]).
  - by apply success_printed.
  - unfold run_git_with_secret, output. by rewrite E.
Qed.

Lemma gives_unset ks k w F : agree ks F (conf w.1) -> gives ks (unset_git_config git k) w (upd k [] F) tt.
Proof.
  intros HF. destruct (config_unset k w.1) as (g' & E & Hh & Hc). exists g'. split; [|split; [done|by eapply agree_upd]].
  unfold unset_git_config, output. rewrite config_unset_local, E. by case_bool_decide.
Qed.

(** After [set_all] the key is known. *)
Lemma gives_set_all ks key vs w F : agree (key :: ks) F (conf w.1) -> gives ks (set_all git key vs) w (upd key vs F) tt.
Proof.
  intros HF.
  assert (forall vs w F, agree ks F (conf w.1) -> gives ks (add_all git key vs) w (upd key (conf w.1 key ++ vs) F) tt) as Hadd.
  { clear. induction vs as [|v vs IH]; intros w F HF; cbn [add_all].
    - apply gives_ret. intros k Hk. unfold upd. case_bool_decide; subst; [by rewrite app_nil_r|by apply HF].
    - destruct (config_add key v w.1) as (g' & E & Hh & Hc).
      destruct (IH (g', w.2) (upd key (conf w.1 key ++ [v]) F)) as (g2 & E2 & Hh2 & Hc2); [by eapply agree_upd|].
      exists g2. unfold then_. rewrite (success_printed _ _ g' []) by done. cbn [fst snd] in *.
      split_and!; [done|congruence|]. intros k Hk. rewrite Hc2 by done. unfold upd.
      destruct (bool_decide_reflect (k = key)) as [->|?]; [|done]. rewrite Hc. unfold upd.
      rewrite bool_decide_true by done. by rewrite <- app_assoc. }
  destruct (config_unset key w.1) as (g' & E & Hh & Hc).
  destruct (Hadd vs (g', w.2) (upd key [] F)) as (g2 & E2 & Hh2 & Hc2).
  { intros k Hk. cbn. rewrite Hc. unfold upd. destruct (bool_decide_reflect (k = key)); [done|]. apply HF. set_solver. }
  exists g2. unfold set_all, then_.
  assert (exists b, attempt git (CONFIG_UNSET key) w = ((g', w.2), Ok b)) as [b ->].
  { case_bool_decide; [exists false; by apply (attempt_failed _ _ _ 5)|exists true; by eapply attempt_printed]. }
  cbn [fst snd] in *. split_and!; [done|congruence|]. intros k Hk. rewrite Hc2 by done. unfold upd.
  destruct (bool_decide_reflect (k = key)) as [->|?]; [|done]. rewrite Hc. unfold upd. by rewrite bool_decide_true.
Qed.

Lemma gives_set_remote ks n u w F : agree ks F (conf w.1) -> is_key n -> remote_key n (lit "url") ∉ ks ->
  length (F (remote_key n (lit "url"))) <= 1 ->
  gives (remote_key n (lit "fetch") :: ks) (set_remote_url git n u) w (upd (remote_key n (lit "url")) [u] F) tt.
Proof.
  intros HF Hk Hks Hl. unfold set_remote_url, then_. destruct (configured w.1 n) eqn:E.
  - destruct (remote_set_url n u w.1 Hk E) as (g' & Es & Hh & Hc); [by rewrite HF|]. exists g'.
    rewrite (attempt_failed _ _ w.1 3) by (done || by apply remote_add_again).
    rewrite (success_printed _ (w.1, w.2) g' []) by done. split_and!; [done|done|].
    intros k Hk'. eapply agree_upd; [done..|]. set_solver.
  - destruct (remote_add n u w.1 Hk E) as (g' & Es & Hh & Hc). exists g'. rewrite (attempt_printed _ _ g' []) by done.
    split_and!; [done|done|]. intros k [Hk1 Hk2]%not_elem_of_cons. rewrite Hc. unfold upd. case_bool_decide; [done|].
    rewrite bool_decide_false by done. by apply HF.
Qed.

(** *** Keys *)

Ltac key_neq := let H := fresh in intros H; vm_compute in H; discriminate H.

Lemma http_key_inj u u' s : http_key u s = http_key u' s -> u = u'.
Proof. unfold http_key. intros H. apply app_inv_head in H. by apply app_inv_tail in H. Qed.

Lemma app_last_neq {A} (a b : list A) x y : x <> y -> a ++ [x] <> b ++ [y].
Proof. intros Hxy H. apply app_inj_tail in H as [_ ?]. done. Qed.

Lemma http_header_redirects u u' : http_key u (lit "extraHeader") <> http_key u' (lit "followRedirects").
Proof.
  unfold http_key.
  change (lit "extraHeader") with (lit "extraHeade" ++ [114%N]). change (lit "followRedirects") with (lit "followRedirect" ++ [115%N]).
  rewrite !app_assoc. by apply app_last_neq.
Qed.

Lemma http_remote u s n s' : http_key u s <> remote_key n s'.
Proof. unfold http_key, remote_key. change (lit "http.") with (104%N :: lit "ttp."). by change (lit "remote.") with (114%N :: lit "emote."). Qed.

Lemma http_is_key u s : is_key (http_key u s).
Proof. unfold is_key, http_key. reflexivity. Qed.

Definition SETTINGS : list str := [lit "extraHeader"; lit "followRedirects"].

Lemma http_key_both u u' s s' : s ∈ SETTINGS -> s' ∈ SETTINGS -> http_key u s = http_key u' s' -> u = u' /\ s = s'.
Proof.
  unfold SETTINGS. rewrite !elem_of_cons. intros [->|[->|[]%elem_of_nil]] [->|[->|[]%elem_of_nil]] H.
  - by apply http_key_inj in H as ->.
  - by apply http_header_redirects in H.
  - by apply eq_sym, http_header_redirects in H.
  - by apply http_key_inj in H as ->.
Qed.

Definition word (s : str) : Prop := Forall (fun c => is_whitespace c = false) s.

#[export] Instance word_dec s : Decision (word s).
Proof. unfold word. apply _. Defined.

Lemma trim_word s : word s -> trim (s ++ [c_nl]) = s.
Proof.
  intros Hs. unfold trim. destruct s as [|x s]; [done|]. cbn [app trim_start_by].
  pose proof (proj1 (proj1 (Forall_cons _ _ _) Hs)) as Hx. rewrite Hx. change (x :: s ++ [c_nl]) with ((x :: s) ++ [c_nl]).
  rewrite trim_end_by_snoc by done. apply trim_end_by_id. intros y r Hr. unfold word in Hs. rewrite Hr in Hs.
  apply Forall_app in Hs as [_ Hs]. by apply Forall_cons in Hs as [? _].
Qed.

(** *** The gateway URLs *)

Definition URL (n : str) : str := remote_key n (lit "url").
Definition FETCH (n : str) : str := remote_key n (lit "fetch").

(** The URL of a managed remote, if it has one, is a single word. *)
Definition url_ok (f : str -> list str) (n : str) : Prop := f (URL n) = [] \/ exists u, f (URL n) = [u] /\ word u.

Lemma gives_previous ks n w F : agree ks F (conf w.1) -> URL n ∉ ks -> url_ok F n ->
  gives ks (previous_url git n) w F (last (F (URL n))).
Proof.
  intros HF Hks Hu. exists w.1. unfold previous_url, output. rewrite config_get. destruct w as [g h].
  cbn [fst snd] in *. change (remote_key n (lit "url")) with (URL n). rewrite (HF (URL n) Hks).
  destruct Hu as [E|(u & E & Hu)]; rewrite E; cbn [last]; [done|]. cbn. by rewrite trim_word.
Qed.

(** The settings of a URL are cleared when a remote with another URL is retired. *)
Definition retired (repo_url : str) (f : str -> list str) (n : str) : str -> list str :=
  match last (f (URL n)) with
  | Some u =>
      if bool_decide (u = repo_url) then f
      else upd (http_key u (lit "followRedirects")) [] (upd (http_key u (lit "extraHeader")) [] f)
  | None => f
  end.

Lemma retired_remote f n repo_url n' s : retired repo_url f n (remote_key n' s) = f (remote_key n' s).
Proof.
  unfold retired. destruct (last _) as [u|]; [|done]. case_bool_decide; [done|]. unfold upd.
  rewrite !bool_decide_false; [done|..]; by intros E%eq_sym%http_remote.
Qed.

Lemma gives_retire ks ns repo_url w F : agree ks F (conf w.1) -> Forall (fun n => URL n ∉ ks /\ url_ok F n) ns ->
  gives ks (retire_urls git ns repo_url) w (foldl (retired repo_url) F ns) tt.
Proof.
  revert w F. induction ns as [|n ns IH]; intros w F HF Hns; cbn [retire_urls foldl].
  { by apply gives_ret. }
  apply Forall_cons in Hns as [[Hks Hn] Hns].
  eapply gives_then; [by apply gives_previous|]. intros w1 Hw1 Hh1 Hc1.
  eapply (gives_then ks _ _ _ _ (retired repo_url F n) tt).
  - unfold retired. destruct (last (F (URL n))) as [u|]; [|by apply gives_ret].
    case_bool_decide; [by apply gives_ret|].
    eapply gives_then; [by apply gives_unset|]. intros w2 Hw2 Hh2 Hc2. by apply gives_unset.
  - intros w2 Hw2 Hh2 Hc2. apply IH; [done|]. eapply Forall_impl; [exact Hns|]. intros n' [H1 H2]. split; [done|].
    unfold url_ok, URL in *. by rewrite retired_remote.
Qed.

(** Retiring a remote clears the settings of its URL, unless it is the new one, and no others. *)
Lemma retired_http f n repo_url u s : s ∈ SETTINGS ->
  retired repo_url f n (http_key u s) =
  if bool_decide (last (f (URL n)) = Some u) && negb (bool_decide (u = repo_url)) then [] else f (http_key u s).
Proof.
  intros Hs. unfold retired. destruct (last _) as [v|]; [|done].
  destruct (bool_decide_reflect (v = repo_url)) as [->|Hv].
  - case_bool_decide as E; [|done]. injection E as ->. by rewrite bool_decide_true.
  - unfold upd. case_bool_decide as E1; [|case_bool_decide as E2].
    + apply http_key_both in E1 as [-> _]; [|done|by right; left]. by rewrite bool_decide_true, bool_decide_false.
    + apply http_key_both in E2 as [-> _]; [|done|by left]. by rewrite bool_decide_true, bool_decide_false.
    + rewrite (bool_decide_false (Some v = Some u)); [done|]. intros [= ->].
      unfold SETTINGS in Hs. rewrite !elem_of_cons in Hs. by destruct Hs as [->|[->|[]%elem_of_nil]].
Qed.

(** Only the gateway a managed remote points at has credentials. *)
Definition scoped (f : str -> list str) : Prop :=
  forall u s, s ∈ SETTINGS -> (forall n, n ∈ MANAGED_REMOTES -> f (URL n) <> [u]) -> f (http_key u s) = [].

(** The configuration after [configure_gateway_urls]. *)
Definition gateway_conf (repo_url token : str) (F : str -> list str) : str -> list str :=
  upd (URL (lit "rumpelpod")) [repo_url] (upd (URL (lit "host")) [repo_url]
    (upd (http_key repo_url (lit "followRedirects")) [lit "false"]
      (upd (http_key repo_url (lit "extraHeader")) [lit "Authorization: Bearer " ++ token]
        (foldl (retired repo_url) F MANAGED_REMOTES)))).

Definition FETCHES : list str := [FETCH (lit "rumpelpod"); FETCH (lit "host")].

Lemma gives_configure w repo_url token F :
  agree [] F (conf w.1) -> Forall (url_ok F) MANAGED_REMOTES ->
  (forall s, s ∈ SETTINGS -> length (F (http_key repo_url s)) <= 1) ->
  gives FETCHES (configure_gateway_urls git repo_url token) w (gateway_conf repo_url token F) tt.
Proof.
  intros HF Hu Hl. unfold configure_gateway_urls, gateway_conf. set (F0 := foldl (retired repo_url) F MANAGED_REMOTES).
  assert (forall s, s ∈ SETTINGS -> F0 (http_key repo_url s) = F (http_key repo_url s)) as Hf0.
  { intros s Hs. unfold F0, MANAGED_REMOTES. cbn [foldl]. rewrite !retired_http, (bool_decide_true (repo_url = repo_url)) by done.
    by rewrite !andb_false_r. }
  assert (forall n s, F0 (remote_key n s) = F (remote_key n s)) as Hr0.
  { intros n s. unfold F0, MANAGED_REMOTES. cbn [foldl]. by rewrite !retired_remote. }
  assert (forall n, n ∈ MANAGED_REMOTES -> length (F (URL n)) <= 1) as Hone.
  { intros n Hn. rewrite Forall_forall in Hu. destruct (Hu n Hn) as [->|(u & -> & _)]; cbn; lia. }
  eapply gives_then.
  { apply (gives_retire [] _ _ _ F); [done|]. eapply Forall_impl; [exact Hu|]. intros n H. split; [apply not_elem_of_nil|done]. }
  fold F0. intros w1 _ _ Hc1. eapply gives_then.
  { apply (gives_set [] (http_key repo_url (lit "extraHeader")) _ _ F0 Hc1 (http_is_key _ _) (not_elem_of_nil _)).
    rewrite Hf0 by (by left). apply Hl. by left. }
  intros w2 _ _ Hc2. eapply gives_then.
  { apply (gives_set [] (http_key repo_url (lit "followRedirects")) _ _ _ Hc2 (http_is_key _ _) (not_elem_of_nil _)).
    unfold upd. rewrite bool_decide_false by (intros E; by apply eq_sym, http_header_redirects in E).
    rewrite Hf0 by (by right; left). apply Hl. by right; left. }
  intros w3 _ _ Hc3. eapply gives_then.
  { apply (gives_set_remote [] (lit "host") repo_url _ _ Hc3); [reflexivity|apply not_elem_of_nil|].
    unfold upd. rewrite !bool_decide_false by (intros E; by apply eq_sym, http_remote in E). fold (URL (lit "host")).
    unfold URL. rewrite Hr0. apply (Hone (lit "host")). by left. }
  intros w4 _ _ Hc4. apply (gives_set_remote [FETCH (lit "host")] (lit "rumpelpod") repo_url _ _ Hc4); [reflexivity|decide_now|].
  unfold upd. rewrite (bool_decide_false (URL (lit "rumpelpod") = URL (lit "host"))) by key_neq.
  rewrite !bool_decide_false by (intros E; by apply eq_sym, http_remote in E).
  rewrite Hr0. apply (Hone (lit "rumpelpod")). by right; left.
Qed.

Lemma gateway_conf_remote repo_url token F n : n ∈ MANAGED_REMOTES -> gateway_conf repo_url token F (URL n) = [repo_url].
Proof.
  unfold MANAGED_REMOTES. rewrite !elem_of_cons. intros [->|[->|[]%elem_of_nil]]; unfold gateway_conf, upd.
  - rewrite bool_decide_false by key_neq. by rewrite bool_decide_true.
  - by rewrite bool_decide_true.
Qed.

Lemma gateway_conf_http repo_url token F u s : s ∈ SETTINGS ->
  gateway_conf repo_url token F (http_key u s) =
  if bool_decide (u = repo_url) then [if bool_decide (s = lit "extraHeader") then lit "Authorization: Bearer " ++ token else lit "false"]
  else foldl (retired repo_url) F MANAGED_REMOTES (http_key u s).
Proof.
  intros Hs. unfold gateway_conf. set (F0 := foldl _ _ _). unfold upd.
  rewrite (bool_decide_false (http_key u s = URL _)), (bool_decide_false (http_key u s = URL _)) by (intros E; by apply http_remote in E).
  destruct (bool_decide_reflect (http_key u s = http_key repo_url (lit "followRedirects"))) as [E|E].
  { apply http_key_both in E as [-> ->]; [|done|by right; left]. rewrite bool_decide_true by done. by rewrite bool_decide_false by key_neq. }
  destruct (bool_decide_reflect (http_key u s = http_key repo_url (lit "extraHeader"))) as [E'|E'].
  { apply http_key_both in E' as [-> ->]; [|done|by left]. by rewrite !bool_decide_true. }
  rewrite bool_decide_false; [done|]. intros ->. unfold SETTINGS in Hs. rewrite !elem_of_cons in Hs.
  by destruct Hs as [->|[->|[]%elem_of_nil]].
Qed.

(** [C22] Pointing the repository at a gateway scopes the credentials: from a state in which only
    the current gateways of the two managed remotes have credentials, it always succeeds, both
    remotes have the new URL, that URL has the token and no redirects, and no other URL keeps a
    credential or a redirect setting, so that a port that is reused never sees the token. *)
Theorem gateway_credentials_scoped w repo_url token :
  Forall (url_ok (conf w.1)) MANAGED_REMOTES -> scoped (conf w.1) ->
  (forall s, s ∈ SETTINGS -> length (conf w.1 (http_key repo_url s)) <= 1) ->
  exists g', configure_gateway_urls git repo_url token w = ((g', w.2), Ok tt) /\ heads g' = heads w.1 /\
    (forall n, n ∈ MANAGED_REMOTES -> conf g' (URL n) = [repo_url]) /\
    conf g' (http_key repo_url (lit "extraHeader")) = [lit "Authorization: Bearer " ++ token] /\
    conf g' (http_key repo_url (lit "followRedirects")) = [lit "false"] /\
    (forall u s, s ∈ SETTINGS -> u <> repo_url -> conf g' (http_key u s) = []).
Proof.
  intros Hu Hs Hl. destruct (gives_configure w repo_url token (conf w.1)) as (g' & E & Hh & Hc); [done..|].
  assert (forall n, n ∈ MANAGED_REMOTES -> URL n ∉ FETCHES) as H1.
  { unfold MANAGED_REMOTES. intros n. rewrite !elem_of_cons. intros [->|[->|[]%elem_of_nil]]; decide_now. }
  assert (forall u s, http_key u s ∉ FETCHES) as H2.
  { intros u s. unfold FETCHES. rewrite !not_elem_of_cons. split_and!; [apply http_remote..|apply not_elem_of_nil]. }
  exists g'. split_and!; [done|done| | | |].
  - intros n Hn. rewrite Hc by auto. by apply gateway_conf_remote.
  - rewrite Hc, gateway_conf_http by (done || by left). by rewrite !bool_decide_true.
  - rewrite Hc, gateway_conf_http by (done || by right; left). rewrite bool_decide_true by done. by rewrite bool_decide_false by key_neq.
  - intros u s Hset Hne. rewrite Hc, gateway_conf_http, bool_decide_false by done. unfold MANAGED_REMOTES. cbn [foldl].
    rewrite !retired_http by done. rewrite (bool_decide_false (u = repo_url)) by done. cbn [negb]. rewrite !andb_true_r.
    rewrite (retired_remote (conf w.1) (lit "host") repo_url (lit "rumpelpod") (lit "url") : retired _ _ _ (URL _) = _).
    fold (URL (lit "rumpelpod")).
    destruct (bool_decide_reflect (last (conf w.1 (URL (lit "rumpelpod"))) = Some u)) as [?|Hr]; [done|].
    destruct (bool_decide_reflect (last (conf w.1 (URL (lit "host"))) = Some u)) as [?|Hh']; [done|].
    apply Hs; [done|]. intros n Hn E'. unfold MANAGED_REMOTES in Hn. rewrite !elem_of_cons in Hn.
    destruct Hn as [->|[->|[]%elem_of_nil]]; rewrite E' in *; done.
Qed.
End Laws.

(** ** Branches are set up once *)

(** Only these commands change local branches. *)
Class BranchLaws {G : Type} (git : list str -> G -> G * option git_output) `{L : GitLaws G git} : Prop := {
  other_commands_keep_heads args g :
    head args ∉ [Some (lit "branch"); Some (lit "checkout")] -> heads (git args g).1 = heads g;
}.

Section Branches.
  Context {G : Type} (git : list str -> G -> G * option git_output) {L : GitLaws git} {B : BranchLaws git}.

Local Abbreviation world := (G * repo_hooks)%type.

(** A step that changes neither the branches nor the hook that pushes them. *)
Definition keeps {A} (m : world -> world * result str A) : Prop :=
  forall w, heads (m w).1.1 = heads w.1 /\ reference_transaction (m w).1.2 = reference_transaction w.2.

Lemma keeps_then {A C} (m : world -> world * result str A) (k : A -> world -> world * result str C) :
  keeps m -> (forall a, keeps (k a)) -> keeps (then_ m k).
Proof.
  intros Hm Hk w. unfold then_. pose proof (Hm w) as [H1 H2]. destruct (m w) as [w1 [a|e]]; cbn in *; [|done].
  destruct (Hk a w1) as [H3 H4]. split; congruence.
Qed.

Lemma keeps_ret {A} (r : result str A) : keeps (ret r).
Proof. by intros w. Qed.

Lemma keeps_output args w : head args ∉ [Some (lit "branch"); Some (lit "checkout")] ->
  heads (output git args w).1.1 = heads w.1 /\ (output git args w).1.2 = w.2.
Proof.
  intros H. unfold output. pose proof (other_commands_keep_heads args w.1 H) as Hh. by destruct (git args w.1) as [g o].
Qed.

Lemma keeps_success args : head args ∉ [Some (lit "branch"); Some (lit "checkout")] -> keeps (success git args).
Proof.
  intros H w. unfold success. destruct (keeps_output args w H) as [H1 H2].
  destruct (output git args w) as [w1 [o|]]; cbn in *; by rewrite H2.
Qed.

Lemma keeps_attempt args : head args ∉ [Some (lit "branch"); Some (lit "checkout")] -> keeps (attempt git args).
Proof. intros H w. unfold attempt. pose proof (keeps_success args H w) as Hs. by destruct (success git args w) as [w1 [o|e]]. Qed.

Ltac harmless := cbn [head]; decide_now.
Ltac keeps_all :=
  repeat first
    [ apply keeps_then; [|intros ?] | apply keeps_ret | apply keeps_success; harmless | apply keeps_attempt; harmless
    | case_match ].

Lemma keeps_unset k : keeps (unset_git_config git k).
Proof.
  intros w. unfold unset_git_config. destruct (keeps_output [lit "config"; lit "--local"; lit "--unset-all"; k] w) as [H1 H2]; [harmless|].
  destruct (output git _ w) as [w1 [o|]]; cbn in *; by rewrite H2.
Qed.

Lemma keeps_previous n : keeps (previous_url git n).
Proof.
  intros w. unfold previous_url. destruct (keeps_output [lit "config"; lit "--local"; lit "--get"; remote_key n (lit "url")] w) as [H1 H2]; [harmless|].
  destruct (output git _ w) as [w1 [o|]]; cbn in *; by rewrite H2.
Qed.

Lemma keeps_secret k v token : keeps (run_git_with_secret git [lit "config"; k; v] token).
Proof.
  intros w. unfold run_git_with_secret. destruct (keeps_output [lit "config"; k; v] w) as [H1 H2]; [harmless|].
  destruct (output git _ w) as [w1 [o|]]; cbn in *; by rewrite H2.
Qed.

Lemma keeps_retire ns url : keeps (retire_urls git ns url).
Proof.
  induction ns as [|n ns IH]; cbn [retire_urls]; [apply keeps_ret|].
  apply keeps_then; [apply keeps_previous|]. intros old. apply keeps_then; [|intros _; exact IH].
  destruct old; [|apply keeps_ret]. case_bool_decide; [apply keeps_ret|].
  apply keeps_then; [|intros _]; apply keeps_unset.
Qed.

Lemma keeps_set_remote n u : keeps (set_remote_url git n u).
Proof. unfold set_remote_url. keeps_all. Qed.

Lemma keeps_configure url token : keeps (configure_gateway_urls git url token).
Proof.
  unfold configure_gateway_urls. apply keeps_then; [apply keeps_retire|intros _].
  apply keeps_then; [apply keeps_secret|intros _]. apply keeps_then; [apply keeps_success; harmless|intros _].
  apply keeps_then; [|intros _]; apply keeps_set_remote.
Qed.

Lemma keeps_add_all k vs : keeps (add_all git k vs).
Proof. induction vs as [|v vs IH]; cbn [add_all]; [apply keeps_ret|]. apply keeps_then; [apply keeps_success; harmless|done]. Qed.

Lemma keeps_set_all k vs : keeps (set_all git k vs).
Proof. unfold set_all. apply keeps_then; [apply keeps_attempt; harmless|intros _; apply keeps_add_all]. Qed.

Lemma keeps_remotes rs : keeps (configure_remotes git rs).
Proof.
  unfold configure_remotes. case_bool_decide as Hrs; [apply keeps_ret|]. clear Hrs.
  apply keeps_then; [apply keeps_success; harmless|]. intros out.
  apply keeps_then.
  - induction (lines out) as [|n ns IH]; cbn [remove_stale]; [apply keeps_ret|]. case_match; [done|].
    apply keeps_then; [apply keeps_success; harmless|done].
  - intros _. generalize (lines out) as existing. intros existing. induction rs as [|r rs IH]; cbn [apply_remotes]; [apply keeps_ret|].
    case_bool_decide; [done|]. apply keeps_then; [|done]. case_bool_decide; apply keeps_success; harmless.
Qed.

(** The hook that pushes branches is in place. *)
Definition installed (w : world) : Prop := exists h, reference_transaction w.2 = Some h /\ contains_str HOOK_SIGNATURE h = true.

(** The parts of [setup_git_impl] before and after the hook. *)
Definition before_hook (req : GitSetupRequest) : world -> world * result str unit :=
  then_ (configure_remotes git (gs_remotes req)) (fun _ =>
  then_ (install_pre_commit_hook (gs_description_file req)) (fun _ =>
  then_ (success git (CONFIG_SET (lit "rumpelpod.description-file") (default [] (gs_description_file req)))) (fun _ =>
  then_ (configure_gateway_urls git (gs_url req) (gs_token req)) (fun _ =>
  then_ (set_all git (remote_key (lit "host") (lit "fetch")) (HOST_FETCH ++ gs_extra_host_fetch req)) (fun _ =>
  then_ (success git (CONFIG_SET (remote_key (lit "host") (lit "pushurl")) (lit "PUSH_DISABLED"))) (fun _ =>
  then_ (set_all git (remote_key (lit "rumpelpod") (lit "push"))
           [push_refspec (gs_pod_name req); primary_push (gs_primary req) (gs_pod_name req)]) (fun _ =>
  then_ (success git (CONFIG_SET (remote_key (lit "rumpelpod") (lit "fetch")) rumpelpod_fetch)) (fun _ =>
  then_ (success git (CONFIG_SET (lit "rumpelpod.pod-name") (gs_primary req))) (fun _ =>
  then_ (success git [lit "fetch"; lit "host"]) (fun _ => ret (Ok tt))))))))))).

Definition after_hook (req : GitSetupRequest) (is_first_entry : bool) : world -> world * result str unit :=
  then_ (if is_first_entry then first_entry git req else ret (Ok tt)) (fun _ =>
    match gs_identity req with
    | Some identity =>
        then_ (write_identity git (lit "user.name") (gi_name identity)) (fun _ =>
          write_identity git (lit "user.email") (gi_email identity))
    | None => ret (Ok tt)
    end).

Lemma then_assoc {A C D} (m : world -> world * result str A) (k : A -> world -> world * result str C)
    (l : C -> world -> world * result str D) w :
  then_ (then_ m k) l w = then_ m (fun a => then_ (k a) l) w.
Proof. unfold then_. by destruct (m w) as [w1 [a|e]]. Qed.

Lemma then_ext {A C} (m : world -> world * result str A) (k k' : A -> world -> world * result str C) w :
  (forall a w, k a w = k' a w) -> then_ m k w = then_ m k' w.
Proof. intros H. unfold then_. by destruct (m w) as [w1 [a|e]]. Qed.

Lemma setup_split req w :
  setup_git_impl git req w = then_ (before_hook req) (fun _ => then_ install_hook_impl (after_hook req)) w.
Proof.
  unfold setup_git_impl, before_hook. symmetry.
  repeat (rewrite then_assoc; apply then_ext; clear w; intros ? w). unfold then_ at 1. done.
Qed.

Lemma keeps_before req : keeps (before_hook req).
Proof.
  unfold before_hook. apply keeps_then; [apply keeps_remotes|intros _].
  apply keeps_then; [intros [g h]; by destruct (gs_description_file req)|intros _].
  apply keeps_then; [apply keeps_success; harmless|intros _]. apply keeps_then; [apply keeps_configure|intros _].
  apply keeps_then; [apply keeps_set_all|intros _]. apply keeps_then; [apply keeps_success; harmless|intros _].
  apply keeps_then; [apply keeps_set_all|intros _]. keeps_all.
Qed.

Lemma keeps_identity setting v : keeps (write_identity git setting v).
Proof. unfold write_identity. keeps_all. Qed.

Lemma keeps_reentry req : keeps (after_hook req false).
Proof.
  unfold after_hook. apply keeps_then; [apply keeps_ret|intros _]. destruct (gs_identity req); [|apply keeps_ret].
  apply keeps_then; [|intros _]; apply keeps_identity.
Qed.

(** Git commands do not touch the hooks. *)
Definition stays {A} (m : world -> world * result str A) : Prop := forall w, (m w).1.2 = w.2.

Lemma stays_then {A C} (m : world -> world * result str A) (k : A -> world -> world * result str C) :
  stays m -> (forall a, stays (k a)) -> stays (then_ m k).
Proof.
  intros Hm Hk w. unfold then_. pose proof (Hm w) as H1. destruct (m w) as [w1 [a|e]]; cbn in *; [|done].
  rewrite (Hk a w1). done.
Qed.

Lemma stays_ret {A} (r : result str A) : stays (ret r).
Proof. by intros w. Qed.

Lemma stays_success args : stays (success git args).
Proof. intros w. unfold success, output. by destruct (git args w.1) as [g [o|]]. Qed.

Lemma stays_attempt args : stays (attempt git args).
Proof. intros w. unfold attempt. pose proof (stays_success args w) as H. by destruct (success git args w) as [w1 [o|e]]. Qed.

Ltac stays_all :=
  repeat first
    [ apply stays_then; [|intros ?] | apply stays_ret | apply stays_success | apply stays_attempt | case_match ].

Lemma stays_after req b : stays (after_hook req b).
Proof.
  unfold after_hook, first_entry, write_identity. apply stays_then; [|intros _; stays_all].
  destruct b; [|apply stays_ret]. apply stays_then; [apply stays_attempt|intros has_commit].
  apply stays_then; [destruct has_commit; [apply stays_success|apply stays_ret]|intros _].
  apply stays_then; [|intros _; stays_all].
  induction (gs_branches req) as [|b bs IH]; cbn [create_branches]; [apply stays_ret|].
  apply stays_then; [|done]. unfold create_or_reset_branch. stays_all.
Qed.

Lemma contains_app p a s : p <> [] -> contains_str p s = true -> contains_str p (a ++ s) = true.
Proof.
  intros Hp. rewrite !contains_str_true by done. intros (x & y & ->). exists (a ++ x), y. by rewrite <- app_assoc.
Qed.

Lemma new_hook_signed old h : new_hook old = Some h -> contains_str HOOK_SIGNATURE h = true.
Proof.
  assert (contains_str HOOK_SIGNATURE POD_REFERENCE_TRANSACTION_HOOK = true) as Hc by (vm_compute; reflexivity).
  unfold new_hook. destruct old as [content|]; [|by intros [= <-]]. destruct (contains_str _ content); [done|]. intros [= <-].
  assert (HOOK_SIGNATURE <> []) as Hne by (intros H; vm_compute in H; discriminate H).
  apply (contains_app _ (trim_end _)); [done|]. by apply (contains_app _ [c_nl; c_nl]).
Qed.

Lemma installed_setup req w : installed w ->
  heads (setup_git_impl git req w).1.1 = heads w.1 /\ installed (setup_git_impl git req w).1.
Proof.
  intros (h & Hh & Hc). rewrite setup_split. unfold then_. destruct (keeps_before req w) as [H1 H2].
  destruct (before_hook req w) as [w1 [[]|e]]; cbn [fst snd] in *; [|split; [done|exists h; by rewrite H2]].
  unfold install_hook_impl, new_hook. rewrite H2, Hh, Hc.
  destruct (keeps_reentry req w1) as [H3 H4]. split; [congruence|]. exists h. split; [congruence|done].
Qed.

Lemma setup_changes_installs req w :
  heads (setup_git_impl git req w).1.1 <> heads w.1 -> installed (setup_git_impl git req w).1.
Proof.
  rewrite setup_split. unfold then_. destruct (keeps_before req w) as [H1 H2].
  destruct (before_hook req w) as [w1 [[]|e]]; cbn [fst snd] in *; [|done].
  unfold install_hook_impl. destruct (new_hook (reference_transaction w1.2)) as [content|] eqn:En.
  - intros _. unfold installed. rewrite (stays_after req true (w1.1, mkHooks (Some content) (pre_commit w1.2))).
    exists content. split; [done|by eapply new_hook_signed].
  - destruct (keeps_reentry req w1) as [H3 H4]. intros Hne. destruct Hne. congruence.
Qed.

(** The setups of the starts of a pod, whether they succeed or fail. *)
Definition run_setups (reqs : list GitSetupRequest) (w : world) : world :=
  foldl (fun w req => (setup_git_impl git req w).1) w reqs.

Lemma installed_setups reqs w : installed w -> heads (run_setups reqs w).1 = heads w.1.
Proof.
  revert w. induction reqs as [|req reqs IH]; intros w Hw; [done|]. cbn [run_setups foldl].
  destruct (installed_setup req w Hw) as [H1 H2]. fold (run_setups reqs (setup_git_impl git req w).1). by rewrite (IH _ H2).
Qed.

End Branches.

(** ** Secrets stay out of error messages *)

Lemma find_str_first (p s a b x y : list N) : find_str p s = Some (a, b) -> s = x ++ p ++ y -> length a <= length x.
Proof.
  revert a x. induction s as [|c s IH]; intros a x H E.
  - destruct x; [|done]. cbn [find_str] in H. case_match; [|done]. injection H as <- <-. done.
  - destruct (starts_with p (c :: s)) eqn:Es.
    + rewrite find_str_here in H by done. injection H as <- <-. cbn. lia.
    + rewrite find_str_cons_no in H by done. apply fmap_Some in H as ([a' b'] & Hf & H). injection H as -> ->.
      destruct x as [|c' x].
      * rewrite E in Es. cbn in Es. by rewrite starts_with_app in Es.
      * cbn in E. injection E as _ E. cbn. apply le_n_S. by eapply IH.
Qed.

(** A character that the text does not contain separates its occurrences. *)
Lemma occurs_sep (p : list N) c a b x y : c ∉ p -> a ++ c :: b = x ++ p ++ y ->
  (exists u v, a = u ++ p ++ v) \/ (exists u v, b = u ++ p ++ v).
Proof.
  intros Hc. revert x. induction a as [|d a IH]; intros x E; cbn in E.
  - destruct x as [|e x]; cbn in E.
    + destruct p as [|e p]; [left; by exists [], []|]. cbn in E. injection E as -> _. destruct Hc. by left.
    + injection E as _ E. right. by exists x, y.
  - destruct x as [|e x]; cbn in E.
    + clear IH. left. exists []. cbn. clear -Hc E.
      assert (forall l, l ++ c :: b = p ++ y -> exists v, l = p ++ v) as H.
      { clear -Hc. revert y. induction p as [|e p IHp]; intros y l E; [by exists l|].
        destruct l as [|f l]; cbn in E; [injection E as -> _; destruct Hc; by left|].
        injection E as -> E. apply not_elem_of_cons in Hc as [_ Hc]. destruct (IHp Hc y l E) as [v ->]. by exists v. }
      destruct (H (d :: a) E) as [v Hv]. exists v. exact Hv.
    + injection E as -> E. destruct (IH x E) as [(u & v & ->)|H]; [left; by exists (e :: u), v|by right].
Qed.

Lemma occurs_after (p r b x y : list N) : p <> [] -> Forall (fun c => c ∉ p) r -> r ++ b = x ++ p ++ y -> exists u v, b = u ++ p ++ v.
Proof.
  intros Hp. revert x y. induction r as [|c r IH]; intros x y Hr E; [by exists x, y|].
  apply Forall_cons in Hr as [Hc Hr]. destruct (occurs_sep p c [] (r ++ b) x y Hc E) as [(u & v & H)|(u & v & H)].
  - by destruct u, p.
  - by apply (IH u v).
Qed.

Lemma replace_go_gone (from to : list N) fuel s :
  from <> [] -> to <> [] -> Forall (fun c => c ∉ from) to -> length s <= fuel ->
  contains_str from (replace_go fuel from to s) = false.
Proof.
  intros Hf Ht Hd. revert s. induction fuel as [|fuel IH]; intros s Hl; cbn [replace_go].
  { destruct s; [|cbn in Hl; lia]. unfold contains_str. cbn [find_str]. by rewrite starts_with_nil. }
  destruct (find_str from s) as [[a b]|] eqn:E; [|unfold contains_str; by rewrite E].
  destruct (find_str_Some _ _ _ _ Hf E) as [-> (r & ->)%starts_with_true].
  rewrite drop_app_length.
  destruct (contains_str from (a ++ to ++ replace_go fuel from to r)) eqn:Ec; [|done]. exfalso.
  apply contains_str_true in Ec as (x & y & Ec); [|done].
  assert (contains_str from (replace_go fuel from to r) = false) as Hr.
  { apply IH. rewrite !length_app in Hl. destruct from; [done|]. cbn in Hl. lia. }
  destruct to as [|c to]; [done|]. apply Forall_cons in Hd as [Hc Hto].
  destruct (occurs_sep from c a (to ++ replace_go fuel from (c :: to) r) x y Hc Ec) as [(u & v & ->)|(u & v & Ho)].
  - pose proof (find_str_first _ _ _ _ u (v ++ from ++ r) E) as Hlen. rewrite <- !app_assoc in Hlen. specialize (Hlen eq_refl).
    rewrite !length_app in Hlen. destruct from; [done|]. cbn in Hlen. lia.
  - apply occurs_after in Ho as (u' & v' & Ho); [|done|done].
    assert (contains_str from (replace_go fuel from (c :: to) r) = true) by (apply contains_str_true; [done|by exists u', v']).
    congruence.
Qed.

(** A failed git command does not reveal the token: a token without the characters of the
    placeholder does not occur in what the error message repeats of git's output. *)
Theorem secret_redacted token stderr :
  token <> [] -> Forall (fun c => c ∉ token) (lit "[REDACTED]") ->
  contains_str token (replace token (lit "[REDACTED]") stderr) = false.
Proof. intros Ht Hd. apply replace_go_gone; [done| |done|done]. intros H. vm_compute in H. discriminate H. Qed.

(** ** Submodules *)

Record SubmoduleEntry := mkSub { sm_name : str; sm_path : str; sm_displaypath : str }.

#[export] Instance SubmoduleEntry_eq_dec : EqDecision SubmoduleEntry.
Proof. solve_decision. Defined.

(** One line of the listing of .gitmodules; a line without a space is skipped. *)
Definition submodule_line (prefix line : str) : option SubmoduleEntry :=
  '(key, path) ← split_once c_space line;
  let name := default path (strip_prefix (lit "submodule.") key ≫= strip_suffix (lit ".path")) in
  Some (mkSub name path (if bool_decide (prefix = []) then path else prefix ++ [c_slash] ++ path)).

(** One record of the index listing: the path if it is a gitlink. *)
Definition gitlink_record (record : str) : result str (option str) :=
  if bool_decide (record = []) then Ok None
  else
    '(meta, path) ← context (lit "unexpected git ls-files record: " ++ record) (split_once 9%N record);
    Ok (if starts_with (lit "160000 ") meta then Some path else None).

Definition gitlink_paths (listing : list str -> result str str) (paths : list str) : result str (list str) :=
  if bool_decide (paths = []) then Ok []
  else
    stdout ← listing paths;
    found ← mapM gitlink_record (split 0%N stdout);
    Ok (omap Datatypes.id found).

(** [detect_submodules_from_gitmodules]: [gitmodules] is the listing of .gitmodules, [None] when
    there is none or it cannot be read; [listing] is the index listing of some paths. *)
Definition detect_submodules_from_gitmodules (gitmodules : option str) (listing : list str -> result str str)
    (prefix : str) : result str (list SubmoduleEntry) :=
  match gitmodules with
  | None => Ok []
  | Some text =>
      let subs := omap (submodule_line prefix) (lines text) in
      gitlinks ← gitlink_paths listing (map sm_path subs);
      Ok (List.filter (fun sub => bool_decide (sm_path sub ∈ gitlinks)) subs)
  end.

(** [submodule_parent_dir], relative to the repository; [None] is the panic. *)
Definition submodule_parent_dir (sub : SubmoduleEntry) : option str :=
  if bool_decide (sm_displaypath sub = sm_path sub) then Some []
  else strip_suffix ([c_slash] ++ sm_path sub) (sm_displaypath sub).

(** What git prints for the entries of .gitmodules and for the index. *)
Definition gitmodules_line (e : str * str) : str := lit "submodule." ++ e.1 ++ lit ".path " ++ e.2.

Definition index_record (p : str) : str := lit "160000 0000 0" ++ [9%N] ++ p ++ [0%N].

Definition index_listing (index : list str) (paths : list str) : result str str :=
  Ok (List.filter (fun p => bool_decide (p ∈ paths)) index ≫= index_record).

(** Names and paths that the listings print in one piece. *)
Definition printable (s : str) : Prop := c_nl ∉ s /\ ends_with [c_cr] s = false /\ 0%N ∉ s.

Lemma submodule_line_ok prefix e : c_space ∉ e.1 ->
  submodule_line prefix (gitmodules_line e) =
  Some (mkSub e.1 e.2 (if bool_decide (prefix = []) then e.2 else prefix ++ [c_slash] ++ e.2)).
Proof.
  intros Hs. unfold submodule_line, gitmodules_line.
  assert (split_once c_space (lit "submodule." ++ e.1 ++ lit ".path " ++ e.2) =
          Some (lit "submodule." ++ e.1 ++ lit ".path", e.2)) as ->.
  { apply split_once_Some. split.
    - change (lit ".path ") with (lit ".path" ++ [c_space]). by rewrite <- !app_assoc.
    - rewrite !not_elem_of_app. split_and!; [decide_now|done|decide_now]. }
  cbn [mbind option_bind]. rewrite strip_prefix_app. cbn [mbind option_bind].
  by rewrite (proj2 (strip_suffix_Some (lit ".path") (e.1 ++ lit ".path") e.1)).
Qed.

Lemma split_records ps : Forall (fun p => 0%N ∉ p) ps -> split 0%N (ps ≫= index_record) = map (fun p => lit "160000 0000 0" ++ [9%N] ++ p) ps ++ [[]].
Proof.
  induction 1 as [|p ps Hp _ IH]; [done|]. rewrite bind_cons. unfold index_record at 1.
  replace ((lit "160000 0000 0" ++ [9%N] ++ p ++ [0%N]) ++ (ps ≫= index_record))
    with ((lit "160000 0000 0" ++ [9%N] ++ p) ++ 0%N :: (ps ≫= index_record)) by (by rewrite <- !app_assoc).
  rewrite split_cons_sep; [by rewrite IH|]. rewrite !not_elem_of_app. split_and!; [decide_now|decide_now|done].
Qed.

Lemma gitlink_index index paths : Forall (fun p => 0%N ∉ p) index -> paths <> [] ->
  gitlink_paths (index_listing index) paths = Ok (List.filter (fun p => bool_decide (p ∈ paths)) index).
Proof.
  intros Hi Hp. unfold gitlink_paths. rewrite bool_decide_false by done. unfold index_listing. cbn [mbind result_bind].
  set (ps := List.filter _ index).
  assert (Forall (fun p => 0%N ∉ p) ps) as Hps.
  { apply Forall_forall. intros p [Hin _]%elem_of_bfilter. by apply (proj1 (Forall_forall _ _) Hi). }
  rewrite split_records by done.
  assert (forall l, mapM gitlink_record (map (fun p => lit "160000 0000 0" ++ [9%N] ++ p) l ++ [[]]) = Ok (map Some l ++ [None])) as ->.
  { induction l as [|p l IH]; [vm_compute; reflexivity|]. cbn [map].
    assert (gitlink_record (lit "160000 0000 0" ++ [9%N] ++ p) = Ok (Some p)) as E.
    { unfold gitlink_record. rewrite bool_decide_false by (intros H; vm_compute in H; discriminate H).
      by rewrite (proj2 (split_once_Some 9%N _ (lit "160000 0000 0") p)) by (split; [done|decide_now]). }
    rewrite <- app_comm_cons. change (mapM gitlink_record (?x :: ?l)) with (y ← gitlink_record x; k ← mapM gitlink_record l; mret (y :: k)).
    by rewrite E, IH. }
  cbn [mbind result_bind]. f_equal. clear. induction ps as [|p ps IH]; [done|]. cbn. by rewrite IH.
Qed.

Lemma lines_gitmodules es : Forall (fun e => printable e.1 /\ printable e.2 /\ e.2 <> []) es ->
  lines (unlines (map gitmodules_line es)) = map gitmodules_line es.
Proof.
  intros H. apply lines_unlines, Forall_map. eapply Forall_impl; [exact H|]. intros [n p] ((Hn & _) & (Hp & Hc & _) & Hne). cbn in *.
  unfold line_ok, gitmodules_line. split.
  - rewrite !not_elem_of_app. split_and!; [decide_now|done|decide_now|done].
  - apply not_true_is_false. intros [r E]%ends_with_true. destruct (exists_last Hne) as (p' & x & ->). cbn [fst snd] in E.
    rewrite !app_assoc in E. apply app_inj_tail in E as [_ ->].
    assert (ends_with [c_cr] (p' ++ [c_cr]) = true) by (apply ends_with_true; by exists p'). congruence.
Qed.

(** Reading .gitmodules is exact for submodules whose names have no space: the detected
    submodules are the recorded ones that the index has as gitlinks, in the order of the file,
    with their names and their paths below the prefix, and the directory of the parent that is
    computed for each is the prefix; computing it does not panic. *)
Theorem submodules_detected es index prefix :
  Forall (fun e => printable e.1 /\ printable e.2 /\ e.2 <> [] /\ c_space ∉ e.1) es -> Forall (fun p => 0%N ∉ p) index ->
  exists subs, detect_submodules_from_gitmodules (Some (unlines (map gitmodules_line es))) (index_listing index) prefix = Ok subs /\
    map (fun s => (sm_name s, sm_path s)) subs = List.filter (fun e => bool_decide (e.2 ∈ index)) es /\
    Forall (fun s => submodule_parent_dir s = Some prefix) subs.
Proof.
  intros He Hi. unfold detect_submodules_from_gitmodules. rewrite lines_gitmodules.
  2: { eapply Forall_impl; [exact He|]. naive_solver. }
  set (entry := fun e : str * str => mkSub e.1 e.2 (if bool_decide (prefix = []) then e.2 else prefix ++ [c_slash] ++ e.2)).
  assert (omap (submodule_line prefix) (map gitmodules_line es) = map entry es) as ->.
  { clear -He. induction He as [|e es (_ & _ & _ & He) _ IH]; [done|]. cbn [map]. cbn [omap list_omap]. rewrite submodule_line_ok by done. by rewrite <- IH. }
  assert (forall e, submodule_parent_dir (entry e) = Some prefix) as Hparent.
  { intros e. unfold submodule_parent_dir, entry. cbn [sm_displaypath sm_path].
    destruct (bool_decide_reflect (prefix = [])) as [->|Hne]; [by rewrite bool_decide_true|].
    rewrite bool_decide_false; [by apply strip_suffix_Some|]. intros E%(f_equal length). rewrite !length_app in E.
    destruct prefix; [done|]. cbn in E. lia. }
  assert (exists gitlinks, gitlink_paths (index_listing index) (map sm_path (map entry es)) = Ok gitlinks /\
    forall e, e ∈ es -> (e.2 ∈ gitlinks <-> e.2 ∈ index)) as (gitlinks & -> & Hg).
  { destruct es as [|e0 es]; [exists []; split; [done|]; by intros e ?%not_elem_of_nil|].
    rewrite gitlink_index by done. eexists. split; [done|]. intros e Hin. rewrite elem_of_bfilter, bool_decide_eq_true.
    rewrite map_map. rewrite list_elem_of_fmap. naive_solver. }
  cbn [mbind result_bind]. eexists. split; [done|]. split.
  - clear -Hg. induction es as [|e es IH]; [done|]. cbn [map List.filter].
    assert (bool_decide (sm_path (entry e) ∈ gitlinks) = bool_decide (e.2 ∈ index)) as ->.
    { apply bool_decide_ext, Hg. by left. }
    rewrite <- IH by (intros e' ?; apply Hg; by right). case_bool_decide; [|done]. cbn [map]. by destruct e.
  - apply Forall_forall. intros s [(e & -> & _)%list_elem_of_fmap _]%elem_of_bfilter. apply Hparent.
Qed.

(** A submodule whose name has a space is never set up: its line is read as another path,
    so it is skipped unless the index has a gitlink at that path. *)
Theorem spaced_submodule_skipped name1 name2 path index prefix :
  c_space ∉ name1 -> printable (name1 ++ [c_space] ++ name2) -> printable path -> path <> [] ->
  Forall (fun p => 0%N ∉ p) index -> name2 ++ lit ".path " ++ path ∉ index ->
  detect_submodules_from_gitmodules (Some (unlines [gitmodules_line (name1 ++ [c_space] ++ name2, path)]))
    (index_listing index) prefix = Ok [].
Proof.
  intros Hs Hp1 Hp2 Hne Hi Hno. unfold detect_submodules_from_gitmodules.
  change [gitmodules_line (name1 ++ [c_space] ++ name2, path)] with (map gitmodules_line [(name1 ++ [c_space] ++ name2, path)]).
  rewrite lines_gitmodules by (by apply Forall_singleton). cbn [map omap list_omap].
  assert (exists n d, submodule_line prefix (gitmodules_line (name1 ++ [c_space] ++ name2, path)) =
            Some (mkSub n (name2 ++ lit ".path " ++ path) d)) as (n & d & E).
  { unfold submodule_line, gitmodules_line. cbn [fst snd].
    assert (split_once c_space (lit "submodule." ++ (name1 ++ [c_space] ++ name2) ++ lit ".path " ++ path) =
            Some (lit "submodule." ++ name1, name2 ++ lit ".path " ++ path)) as ->.
    { apply split_once_Some. split; [by rewrite <- !app_assoc|]. rewrite not_elem_of_app. split; [decide_now|done]. }
    by do 2 eexists. }
  rewrite E. cbn [map sm_path]. rewrite gitlink_index by done. cbn [mbind result_bind List.filter sm_path].
  rewrite bool_decide_false; [done|]. intros [? _]%elem_of_bfilter. done.
Qed.

(** ** A small git, for the witnesses *)

(** The configuration and the branches of a repository. *)
Definition mini_repo : Type := gmap (list N) (list (list N)) * gmap (list N) (list N).

Definition mini_conf (g : mini_repo) (k : str) : list str := default [] (g.1 !! k).
Definition mini_put (k : str) (v : list str) (g : mini_repo) : mini_repo := (<[k := v]> g.1, g.2).

Definition mini_configured (g : mini_repo) (n : str) : bool :=
  existsb (fun kv => starts_with (remote_key n []) kv.1 && negb (bool_decide (kv.2 = []))) (map_to_list g.1).

Definition mini_unset (k : str) (g : mini_repo) : mini_repo * option git_output :=
  (mini_put k [] g, if bool_decide (mini_conf g k = []) then failed 5 else printed []).

Definition mini_set (k v : str) (g : mini_repo) : mini_repo * option git_output :=
  if starts_with (lit "-") k then (g, failed 129)
  else if bool_decide (length (mini_conf g k) <= 1) then (mini_put k [v] g, printed []) else (g, failed 5).

Definition mini_remote (verb n u : str) (g : mini_repo) : mini_repo * option git_output :=
  if bool_decide (verb = lit "add") then
    if mini_configured g n then (g, failed 3)
    else (mini_put (remote_key n (lit "url")) [u] (mini_put (remote_key n (lit "fetch")) [remote_default n] g), printed [])
  else if mini_configured g n then (mini_put (remote_key n (lit "url")) [u] g, printed []) else (g, failed 2).

Definition mini_branch (name base : str) (g : mini_repo) : mini_repo * option git_output :=
  ((g.1, <[name := base]> g.2), printed []).

Definition mini_git (args : list str) (g : mini_repo) : mini_repo * option git_output :=
  match args with
  | [a; b; c] =>
      if bool_decide (a = lit "config") then if bool_decide (b = lit "--unset-all") then mini_unset c g else mini_set b c g
      else (g, printed [])
  | [a; b; c; d] =>
      if bool_decide (a = lit "config") then
        if bool_decide (b = lit "--add") then (mini_put c (mini_conf g c ++ [d]) g, printed [])
        else if bool_decide (c = lit "--get") then
          (g, match last (mini_conf g d) with Some v => printed (v ++ [c_nl]) | None => absent end)
        else mini_unset d g
      else if bool_decide (a = lit "remote") then mini_remote b c d g
      else if bool_decide (a = lit "branch") then mini_branch c d g
      else if bool_decide (a = lit "show-ref") then (g, if bool_decide (is_Some (g.2 !! drop 11 d)) then printed [] else failed 1)
      else (g, printed [])
  | [a; b; c; d; e] => if bool_decide (a = lit "branch") then mini_branch d e g else (g, printed [])
  | _ => (g, printed [])
  end.

Lemma mini_put_conf k v g k' : mini_conf (mini_put k v g) k' = upd k v (mini_conf g) k'.
Proof.
  unfold mini_conf, mini_put, upd. cbn [fst]. case_bool_decide as E; [subst; by rewrite lookup_insert_eq|].
  by rewrite lookup_insert_ne.
Qed.

Lemma mini_configured_true g n s : mini_conf g (remote_key n s) <> [] -> mini_configured g n = true.
Proof.
  unfold mini_conf. destruct (g.1 !! remote_key n s) as [v|] eqn:E; [|done]. cbn. intros Hv. apply existsb_exists.
  exists (remote_key n s, v). split; [by apply list_elem_of_In, elem_of_map_to_list|]. cbn. rewrite bool_decide_false by done.
  rewrite andb_true_r. apply starts_with_true. exists s. unfold remote_key. by rewrite app_nil_r, <- !app_assoc.
Qed.

Lemma upd_ext k v f f' k' : (forall k, f k = f' k) -> upd k v f k' = upd k v f' k'.
Proof. intros H. unfold upd. by case_bool_decide. Qed.

#[refine] Instance mini_laws : GitLaws mini_git :=
  { conf := mini_conf; heads := snd; configured := mini_configured }.
Proof.
  - intros g n H s. destruct (decide (mini_conf g (remote_key n s) = [])) as [|Hne]; [done|].
    by rewrite (mini_configured_true _ _ _ Hne) in H.
  - intros g n. apply mini_configured_true.
  - reflexivity.
  - intros k v g Hk Hl. unfold CONFIG_SET. exists (mini_put k [v] g). unfold mini_git.
    rewrite bool_decide_true by done. rewrite bool_decide_false by (intros ->; discriminate Hk).
    unfold mini_set. rewrite Hk, bool_decide_true by done. split_and!; [done..|]. apply mini_put_conf.
  - intros k v g. eexists. split; [reflexivity|]. split; [done|]. apply mini_put_conf.
  - intros k g. eexists. split; [reflexivity|]. split; [done|]. apply mini_put_conf.
  - reflexivity.
  - intros n u g _ Hc. eexists. split; [|split].
    + change (mini_git [lit "remote"; lit "add"; n; u] g) with (mini_remote (lit "add") n u g). unfold mini_remote.
      by rewrite Hc, bool_decide_true.
    + done.
    + intros k'. rewrite mini_put_conf. apply upd_ext, mini_put_conf.
  - intros n u g Hc. change (mini_git [lit "remote"; lit "add"; n; u] g) with (mini_remote (lit "add") n u g).
    unfold mini_remote. by rewrite Hc, bool_decide_true.
  - intros n u g _ Hc _. eexists. split; [|split].
    + change (mini_git [lit "remote"; lit "set-url"; n; u] g) with (mini_remote (lit "set-url") n u g). unfold mini_remote.
      by rewrite Hc, bool_decide_false.
    + done.
    + apply mini_put_conf.
Defined.

#[export] Instance mini_branch_laws : BranchLaws mini_git.
Proof.
  constructor. intros args g Hh. unfold mini_git. cbn.
  assert (head args <> Some (lit "branch")) as Hb by (intros E; apply Hh; rewrite E; by left).
  unfold mini_unset, mini_set, mini_remote, mini_put.
  repeat (case_match; try done); subst; cbn in *; by case_bool_decide; subst.
Qed.

(** A repository whose remotes point at a gateway that is gone. *)
Definition mini_old : mini_repo :=
  mini_put (URL (lit "host")) [lit "http://old"] (
  mini_put (URL (lit "rumpelpod")) [lit "http://old"] (
  mini_put (http_key (lit "http://old") (lit "extraHeader")) [lit "Authorization: Bearer t"] (
  mini_put (http_key (lit "http://old") (lit "followRedirects")) [lit "false"] (∅, ∅)))).

Definition no_hooks : repo_hooks := mkHooks None None.

Lemma mini_old_scoped : scoped (mini_conf mini_old).
Proof.
  intros u s Hs Hne. assert (u <> lit "http://old") as Hu.
  { intros ->. apply (Hne (lit "host")); [by left|vm_compute; reflexivity]. }
  unfold mini_old. rewrite !mini_put_conf. unfold upd, URL. rewrite mini_put_conf. unfold upd. rewrite mini_put_conf. unfold upd.
  rewrite mini_put_conf. unfold upd.
  repeat (rewrite bool_decide_false; [|first [apply http_remote | intros E; apply http_key_both in E; [tauto|done|decide_now]]]).
  by vm_compute.
Qed.

Lemma gateway_credentials_scoped_witness :
  exists g', configure_gateway_urls mini_git (lit "http://new") (lit "u") (mini_old, no_hooks) = ((g', no_hooks), Ok tt) /\
    mini_conf g' (http_key (lit "http://old") (lit "extraHeader")) = [].
Proof.
  destruct (gateway_credentials_scoped mini_git (mini_old, no_hooks) (lit "http://new") (lit "u")) as (g' & H & _ & _ & _ & _ & Ho).
  - apply Forall_cons_2; [|apply Forall_singleton]; right; exists (lit "http://old"); (split; [vm_compute; reflexivity|decide_now]).
  - apply mini_old_scoped.
  - intros s Hs. unfold SETTINGS in Hs. rewrite !elem_of_cons in Hs. destruct Hs as [->|[->|[]%elem_of_nil]]; vm_compute; lia.
  - exists g'. split; [exact H|]. apply (Ho (lit "http://old")); [by left|]. intros E. vm_compute in E. discriminate E.
Defined.

Definition mini_request (base : str) : GitSetupRequest :=
  mkSetup (lit "http://new") (lit "u") (lit "pod") [] [mkBranch (lit "pod") base None] (lit "pod") None [] None.


Lemma secret_redacted_witness :
  contains_str (lit "tok") (replace (lit "tok") (lit "[REDACTED]") (lit "fatal: bad tok")) = false.
Proof. apply (secret_redacted (lit "tok") (lit "fatal: bad tok")); [intros H; vm_compute in H; discriminate H|decide_now]. Defined.

Lemma submodules_detected_witness :
  exists subs, detect_submodules_from_gitmodules (Some (unlines (map gitmodules_line [(lit "a", lit "libs/a"); (lit "b", lit "b")])))
      (index_listing [lit "libs/a"]) (lit "top") = Ok subs /\
    map (fun s => (sm_name s, sm_path s)) subs = [(lit "a", lit "libs/a")].
Proof.
  destruct (submodules_detected [(lit "a", lit "libs/a"); (lit "b", lit "b")] [lit "libs/a"] (lit "top")) as (subs & H & Hm & _).
  - apply Forall_cons_2; [|apply Forall_singleton]; cbn;
      repeat split; first [decide_now | intros H; vm_compute in H; discriminate H].
  - decide_now.
  - exists subs. split; [exact H|]. rewrite Hm. vm_compute. reflexivity.
Defined.

Lemma spaced_submodule_skipped_witness :
  detect_submodules_from_gitmodules (Some (unlines [gitmodules_line (lit "my" ++ [c_space] ++ lit "lib", lit "libs/my")]))
    (index_listing [lit "libs/my"]) [] = Ok [].
Proof.
  apply (spaced_submodule_skipped (lit "my") (lit "lib") (lit "libs/my") [lit "libs/my"] []);
    [decide_now|repeat split; decide_now|repeat split; decide_now|intros H; vm_compute in H; discriminate H|decide_now|decide_now].
Defined.
