(* ===== verification/FileCopy.v ===== *)
(** * Copying files in and out of a pod (cp.rs, the file handlers of pod/server.rs, and the
    bind mounts that daemon.rs uploads)

    Files travel as tar archives: [rumpel cp] archives on one side and extracts on the other,
    and the bind mounts of a pod on a remote host are uploaded once.  The model has a file
    system of directories and regular files, by absolute path; symbolic links, permissions and
    the compression of the transfer are left out.  The archive library and the directory walk
    are parameters, with what the code relies on as the class [TarLib]. *)
From stdpp Require Import gmap.
From S2P Require Import Prelude Strs PodNames ExecStream PodSpec.

(** ** File systems *)

Abbreviation path := (list (list N)).

Inductive node := Dir | File (content : list N).

#[export] Instance node_eq_dec : EqDecision node.
Proof. solve_decision. Defined.

Abbreviation fs := (gmap (list (list N)) node).

Definition DOTDOT : str := lit "..".

(** Directories are resolved from left to right; [..] leaves one. *)
Fixpoint walk_dirs (f : fs) (cur : path) (p : path) : option path :=
  match p with
  | [] => Some cur
  | c :: p =>
      if bool_decide (c = DOTDOT) then walk_dirs f (removelast cur) p
      else match f !! (cur ++ [c]) with
           | Some Dir => walk_dirs f (cur ++ [c]) p
           | _ => None
           end
  end.

(** [std::fs::create_dir_all] *)
Fixpoint create_dir_all (f : fs) (cur : path) (p : path) : fs * result str unit :=
  match p with
  | [] => (f, Ok tt)
  | c :: p =>
      if bool_decide (c = DOTDOT) then create_dir_all f (removelast cur) p
      else match f !! (cur ++ [c]) with
           | Some Dir => create_dir_all f (cur ++ [c]) p
           | Some (File _) => (f, Err (lit "not a directory"))
           | None => create_dir_all (<[cur ++ [c] := Dir]> f) (cur ++ [c]) p
           end
  end.

(** The path of a file whose parent directory exists. *)
Definition locate (f : fs) (p : path) : option path :=
  c ← last p;
  if bool_decide (c = DOTDOT) then None else
  dir ← walk_dirs f [] (removelast p);
  Some (dir ++ [c]).

(** [std::fs::symlink_metadata] and [Path::is_dir] *)
Definition stat (f : fs) (p : path) : option node :=
  match last p with
  | None => Some Dir
  | Some c =>
      if bool_decide (c = DOTDOT) then (fun _ => Dir) <$> walk_dirs f [] p
      else q ← locate f p; f !! q
  end.

Definition is_dir (f : fs) (p : path) : bool := bool_decide (stat f p = Some Dir).

(** The components of a path given as text, from the current directory. *)
Definition absolute (cwd : path) (p : str) : path :=
  if starts_with [c_slash] p then Executor.path_components p else cwd ++ Executor.path_components p.

(** ** Archives *)

Record entry := mkEntry { e_path : str; e_node : node }.

(** What arrives of an archive: its entries, and whether the stream failed after them. *)
Abbreviation stream := (list entry * result str unit)%type.

(** The path of an entry below a name of the archive. *)
Definition entry_at (name : path) (e : path * node) : entry := mkEntry (join [c_slash] (name ++ e.1)) e.2.

(** A listing of the tree at [p]: every node once, by relative path, in any order. *)
Definition enumerates (f : fs) (p : path) (l : list (path * node)) : Prop :=
  NoDup l.*1 /\ (forall rel n, (rel, n) ∈ l <-> f !! (p ++ rel) = Some n).

(** The tar and walkdir crates.  [append_dir_all f p] is the listing of the tree at [p] that was
    archived, and whether archiving it succeeded; [walk] is that of the directory walk;
    [append_path f p] is the content of a file; [unpack] writes a regular file. *)
Class TarLib := {
  append_dir_all : fs -> path -> list (path * node) * result str unit;
  walk : fs -> path -> list (path * node) * result str unit;
  append_path : fs -> path -> result str (list N);
  unpack : path -> list N -> fs -> fs * result str unit;
  append_dir_all_ok f p l : append_dir_all f p = (l, Ok tt) -> enumerates f p l;
  walk_ok f p l : walk f p = (l, Ok tt) -> enumerates f p l;
  append_path_ok f p c : append_path f p = Ok c -> f !! p = Some (File c);
  unpack_changes f q c q' : q' <> q -> (unpack q c f).1 !! q' = f !! q';
  unpack_ok f q c : f !! removelast q = Some Dir -> q <> [] -> f !! q <> Some Dir ->
    unpack q c f = (<[q := File c]> f, Ok tt);
}.

Section Copy.
  Context `{TarLib}.

(** One entry of an archive, at its target. *)
Definition extract_entry (target : path) (n : node) (f : fs) : fs * result str unit :=
  match n with
  | Dir => create_dir_all f [] target
  | File c =>
      match create_dir_all f [] (removelast target) with
      | (f, Err e) => (f, Err e)
      | (f, Ok _) =>
          match locate f target with
          | Some q => unpack q c f
          | None => (f, Err (lit "extracting"))
          end
      end
  end.

(** The loop over the entries; [target_of] is [None] for an entry that is skipped. *)
Fixpoint extract (target_of : str -> option path) (es : list entry) (ended : result str unit) (f : fs)
    : fs * result str unit :=
  match es with
  | [] => (f, ended)
  | e :: es =>
      match target_of (e_path e) with
      | None => extract target_of es ended f
      | Some target =>
          match extract_entry target (e_node e) f with
          | (f, Ok _) => extract target_of es ended f
          | (f, Err err) => (f, Err err)
          end
      end
  end.

(** [Path::strip_prefix("_")]: the components after the wrapper, unless there are none. *)
Definition strip_wrapper (p : str) : option path :=
  if starts_with [c_slash] p || bool_decide (head (split c_slash p) = Some (lit ".")) then None
  else match Executor.path_components p with
       | w :: rest => if bool_decide (w = lit "_") && negb (bool_decide (rest = [])) then Some rest else None
       | [] => None
       end.

Definition copy_target (dest : path) (dest_is_dir : bool) (p : str) : option path :=
  relative ← strip_wrapper p;
  Some (if dest_is_dir then dest ++ relative else dest ++ tail relative).

Definition untar_to_local (s : stream) (dest : path) (f : fs) : fs * result str unit :=
  extract (copy_target dest (is_dir f dest)) s.1 s.2 f.

Definition cp_upload_impl (dest : path) (s : stream) (f : fs) : fs * result str unit :=
  extract (copy_target dest (is_dir f dest)) s.1 s.2 f.

(** The entries that were written before the archive was finished or given up; dropping the
    archive finishes what was written. *)
Definition archive (f : fs) (text : str) (p : path) : stream :=
  match stat f p with
  | None => ([], Err (lit "stat"))
  | Some n =>
      match Executor.file_name text with
      | None => ([], Err (lit "no file name"))
      | Some name =>
          match n with
          | Dir => let '(l, r) := append_dir_all f p in (map (entry_at [lit "_"; name]) l, r)
          | File _ =>
              match append_path f p with
              | Ok c => ([entry_at [lit "_"; name] ([], File c)], Ok tt)
              | Err e => ([], Err e)
              end
          end
      end
  end.

Definition tar_local_path (f : fs) (text : str) (p : path) : result str stream :=
  match stat f p with None => Err (lit "stat") | Some _ => Ok (archive f text p) end.

Definition cp_download_impl (f : fs) (text : str) (p : path) : stream := archive f text p.

(** The response streams what was written; the result of archiving is only printed. *)
Definition cp_download_handler (f : fs) (text : str) : result str stream :=
  let p := Executor.path_components text in
  match stat f p with
  | None => Err (lit "stat")
  | Some _ => Ok ((cp_download_impl f text p).1, Ok tt)
  end.

(** [rumpel cp POD:SRC DEST] and [rumpel cp SRC POD:DEST], between the host and the pod. *)
Definition cp_from_pod (pod : fs) (resolved : str) (cwd : path) (local_path : str) (host : fs) : fs * result str unit :=
  match cp_download_handler pod resolved with
  | Err e => (host, Err e)
  | Ok response => untar_to_local response (absolute cwd local_path) host
  end.

Definition cp_to_pod (host : fs) (cwd : path) (local_path : str) (resolved : str) (pod : fs) : fs * result str unit :=
  match tar_local_path host local_path (absolute cwd local_path) with
  | Err e => (pod, Err e)
  | Ok (es, archived) =>
      match cp_upload_impl (Executor.path_components resolved) (es, Ok tt) pod with
      | (pod, Err e) => (pod, Err e)
      | (pod, Ok _) => (pod, archived)
      end
  end.

(** *** Bind mounts *)

(** [Path::join] of the stripped target and a relative path, as text. *)
Definition mount_name (target : str) : str := default target (strip_prefix [c_slash] target).

Definition bind_entries (host : fs) (b : BindSource) : stream :=
  let source := Executor.path_components (bind_source b) in
  let name := Executor.path_components (mount_name (bind_target b)) in
  if is_dir host source then
    let '(l, r) := walk host source in (map (entry_at name) l, r)
  else
    match append_path host source with
    | Ok c => ([entry_at name ([default [] (Executor.file_name (bind_source b))], File c)], Ok tt)
    | Err e => ([], Err e)
    end.

Fixpoint bind_archive (host : fs) (binds : list BindSource) : stream :=
  match binds with
  | [] => ([], Ok tt)
  | b :: binds =>
      match bind_entries host b with
      | (es, Err e) => (es, Err e)
      | (es, Ok _) => let '(es', r) := bind_archive host binds in (es ++ es', r)
      end
  end.

(** [Path::new("/").join] of the path of an entry *)
Definition mount_target (p : str) : option path := Some (Executor.path_components p).

Definition init_mounts_impl (s : stream) (f : fs) : fs * result str unit := extract mount_target s.1 s.2 f.

(** The producer reports its failure both in the stream and to the caller. *)
Definition upload_bind_mounts (host : fs) (binds : list BindSource) (pod : fs) : fs * result str unit :=
  if bool_decide (binds = []) then (pod, Ok tt)
  else
    let '(es, produced) := bind_archive host binds in
    match init_mounts_impl (es, produced) pod with
    | (pod, Ok _) => (pod, produced)
    | (pod, Err e) => (pod, Err e)
    end.
End Copy.

(** *** The command line *)

Inductive CopyDirection :=
| FromPod (pod_name container_path local_path : str)
| ToPod (pod_name local_path container_path : str).

Definition parse_pod_path (arg : str) : option (str * str) :=
  if bool_decide (arg = lit "-") then None
  else
    '(pod, p) ← split_once c_colon arg;
    if bool_decide (pod = []) then None else Some (pod, p).

Definition parse_direction (src dest : str) : result str CopyDirection :=
  match parse_pod_path src, parse_pod_path dest with
  | Some (pod, p), None => Ok (FromPod pod p dest)
  | None, Some (pod, p) => Ok (ToPod pod src p)
  | None, None => Err (lit "neither src nor dest uses POD:PATH syntax")
  | Some _, Some _ => Err (lit "both src and dest use POD:PATH syntax")
  end.

Definition resolve_container_path (container_path container_repo_path : str) : str :=
  if starts_with [c_slash] container_path then container_path
  else path_join container_repo_path container_path.

(** ** Paths *)

Definition name_ok (c : str) : Prop := c <> [] /\ c <> lit "." /\ c <> DOTDOT /\ c_slash ∉ c.
Definition path_ok (p : path) : Prop := Forall name_ok p.

#[export] Instance name_ok_dec c : Decision (name_ok c).
Proof. unfold name_ok. apply _. Defined.

#[export] Instance path_ok_dec p : Decision (path_ok p).
Proof. unfold path_ok. apply _. Defined.

(** A file system is a tree. *)
Definition wf (f : fs) : Prop :=
  f !! [] = Some Dir /\ forall p c n, f !! (p ++ [c]) = Some n -> f !! p = Some Dir /\ name_ok c.

Lemma prefix_app_cases {A} (q p r : list A) : q `prefix_of` p ++ r ->
  q `prefix_of` p \/ exists r', q = p ++ r' /\ r' `prefix_of` r.
Proof.
  revert q. induction p as [|x p IH]; intros q Hq; [right; by exists q|].
  destruct q as [|y q]; [left; apply prefix_nil|]. cbn in Hq.
  pose proof (prefix_cons_inv_1 _ _ _ _ Hq) as ->. apply prefix_cons_inv_2 in Hq.
  destruct (IH q Hq) as [Hp|(r' & -> & Hr)]; [left; by apply prefix_cons|right; by exists r'].
Qed.

Lemma prefix_snoc_cases {A} (q p : list A) c : q `prefix_of` p ++ [c] -> q `prefix_of` p \/ q = p ++ [c].
Proof.
  intros [Hp|(r & -> & [k Hk])]%prefix_app_cases; [by left|]. destruct r as [|x [|y r]]; simplify_eq/=.
  - left. by rewrite app_nil_r.
  - by right.
Qed.

Lemma wf_prefix f p n q : wf f -> f !! p = Some n -> q `prefix_of` p -> q <> p -> f !! q = Some Dir.
Proof.
  intros [Hr Hw]. revert n q. induction p as [|c p IH] using rev_ind; intros n q Hn Hq Hne.
  - by apply prefix_nil_inv in Hq.
  - apply Hw in Hn as [Hn _]. apply prefix_snoc_cases in Hq as [Hq|]; [|done].
    destruct (decide (q = p)) as [->|]; [done|]. by apply (IH Dir).
Qed.

Lemma wf_names f p rel n : wf f -> f !! (p ++ rel) = Some n -> path_ok rel.
Proof.
  intros Hf. revert n. induction rel as [|c rel IH] using rev_ind; intros n Hn; [by constructor|].
  rewrite app_assoc in Hn. apply (proj2 Hf) in Hn as [Hn Hc]. apply Forall_app. split; [by eapply IH|by apply Forall_singleton].
Qed.

Lemma wf_leaf f p c rel n : wf f -> f !! p = Some (File c) -> f !! (p ++ rel) = Some n -> rel = [].
Proof.
  intros Hf Hp Hn. destruct rel as [|x rel]; [done|]. assert (f !! p = Some Dir); [|congruence].
  apply (wf_prefix f (p ++ x :: rel) n); [done..|by apply prefix_app_r|]. intros E. apply (f_equal length) in E. rewrite length_app in E. cbn in E. lia.
Qed.

(** Text and components agree. *)
Definition component_ok (c : str) : Prop := c <> [] /\ c <> lit "." /\ c_slash ∉ c.

Lemma path_components_ok p : path_ok p -> Forall component_ok p.
Proof. intros H. eapply Forall_impl; [exact H|]. by intros c (? & ? & _ & ?). Qed.

Lemma components_join p : Forall component_ok p -> Executor.path_components (join [c_slash] p) = p.
Proof.
  intros Hp. destruct (decide (p = [])) as [->|Hne]; [vm_compute; reflexivity|].
  unfold Executor.path_components. rewrite split_join; [|done|].
  - induction Hp as [|c p (H1 & H2 & _) _ IH]; [done|]. rewrite filter_cons_True by done. f_equal.
    destruct (decide (p = [])) as [->|]; [done|by apply IH].
  - eapply Forall_impl; [exact Hp|]. by intros c (_ & _ & ?).
Qed.

Lemma file_name_ok text name : Executor.file_name text = Some name -> name_ok name.
Proof.
  unfold Executor.file_name. destruct (last _) as [w|] eqn:E; [|done]. case_bool_decide as Hd; [done|]. intros [= <-].
  apply last_Some in E as [l E]. assert (w ∈ Executor.path_components text) as Hw by (rewrite E; apply elem_of_app; right; by left).
  apply list_elem_of_filter in Hw as [[H1 H2] Hw]. split_and!; [done..|].
  by apply (proj1 (Forall_forall _ _) (split_sep_free c_slash text)).
Qed.

Lemma strip_wrapper_ok p : Forall component_ok p -> p <> [] -> strip_wrapper (join [c_slash] (lit "_" :: p)) = Some p.
Proof.
  intros Hp Hne. unfold strip_wrapper.
  assert (Forall component_ok (lit "_" :: p)) as Hp' by (constructor; [split_and!; decide_now|done]).
  rewrite components_join by done.
  rewrite split_join; [|done|eapply Forall_impl; [exact Hp'|]; by intros c (_ & _ & ?)].
  rewrite (bool_decide_false (head _ = _)) by (intros E; vm_compute in E; discriminate E).
  assert (starts_with [c_slash] (join [c_slash] (lit "_" :: p)) = false) as -> by (destruct p; [done|vm_compute; reflexivity]).
  cbn [orb]. rewrite bool_decide_true, bool_decide_false by done. done.
Qed.

(** ** Directories *)

Lemma not_dotdot c : name_ok c -> c <> DOTDOT.
Proof. by intros (_ & _ & ? & _). Qed.

Lemma walk_dirs_ok f cur p : path_ok p ->
  (forall q, q `prefix_of` p -> q <> [] -> f !! (cur ++ q) = Some Dir) -> walk_dirs f cur p = Some (cur ++ p).
Proof.
  intros Hp. revert cur. induction Hp as [|c p Hc Hp IH]; intros cur Hd; [by rewrite app_nil_r|].
  cbn [walk_dirs]. rewrite bool_decide_false by (by apply not_dotdot).
  rewrite (Hd [c]); [|apply prefix_cons, prefix_nil|done].
  rewrite IH; [by rewrite <- app_assoc|]. intros q Hq Hne. rewrite <- app_assoc. apply Hd; [by apply prefix_cons|done].
Qed.

Lemma create_dir_all_ok f cur p : path_ok p ->
  (forall q c, q `prefix_of` p -> f !! (cur ++ q) <> Some (File c)) ->
  exists f', create_dir_all f cur p = (f', Ok tt) /\
    (forall q, q `prefix_of` p -> q <> [] -> f' !! (cur ++ q) = Some Dir) /\
    (forall q, (forall q', q' `prefix_of` p -> q' <> [] -> q <> cur ++ q') -> f' !! q = f !! q).
Proof.
  intros Hp. revert f cur. induction Hp as [|c p Hc Hp IH]; intros f cur Hn.
  { exists f. split_and!; [done| |done]. by intros q ->%prefix_nil_inv. }
  cbn [create_dir_all]. rewrite bool_decide_false by (by apply not_dotdot).
  assert (exists f1, (match f !! (cur ++ [c]) with
    | Some Dir => create_dir_all f (cur ++ [c]) p
    | Some (File _) => (f, Err (lit "not a directory"))
    | None => create_dir_all (<[cur ++ [c] := Dir]> f) (cur ++ [c]) p
    end) = create_dir_all f1 (cur ++ [c]) p /\ f1 !! (cur ++ [c]) = Some Dir /\ (forall q, q <> cur ++ [c] -> f1 !! q = f !! q))
    as (f1 & -> & Hf1 & Hu).
  { destruct (f !! (cur ++ [c])) as [[|x]|] eqn:E; [by exists f| |].
    - destruct (Hn [c] x); [apply prefix_cons, prefix_nil|done].
    - exists (<[cur ++ [c] := Dir]> f). split_and!; [done|apply lookup_insert_eq|]. intros q Hq. by apply lookup_insert_ne. }
  assert (forall q, cur ++ c :: q = (cur ++ [c]) ++ q) as Ha by (intros q; by rewrite <- app_assoc).
  destruct (IH f1 (cur ++ [c])) as (f' & E & Hd & Ho).
  { intros q x Hq. destruct (decide (q = [])) as [->|Hne]; [rewrite app_nil_r; congruence|].
    rewrite Hu by (intros Eq; apply (f_equal length) in Eq; rewrite !length_app in Eq; destruct q; [done|]; cbn in Eq; lia).
    rewrite <- Ha. apply Hn. by apply prefix_cons. }
  exists f'. split; [done|]. split.
  - intros q Hq Hne. destruct q as [|y q]; [done|]. pose proof (prefix_cons_inv_1 _ _ _ _ Hq) as ->. apply prefix_cons_inv_2 in Hq.
    rewrite Ha. destruct (decide (q = [])) as [->|]; [|by apply Hd]. rewrite app_nil_r. rewrite Ho; [done|].
    intros q' _ Hne' Eq. apply (f_equal length) in Eq. rewrite !length_app in Eq. destruct q'; [done|]. cbn in Eq. lia.
  - intros q Hq. rewrite Ho; [apply Hu; apply (Hq [c]); [apply prefix_cons, prefix_nil|done]|].
    intros q' Hq' _. rewrite <- Ha. apply Hq; [by apply prefix_cons|done].
Qed.

Lemma removelast_snoc {A} (l : list A) x : removelast (l ++ [x]) = l.
Proof. rewrite removelast_app by done. by rewrite app_nil_r. Qed.

Lemma locate_ok f d c : path_ok (d ++ [c]) -> (forall q, q `prefix_of` d -> q <> [] -> f !! q = Some Dir) ->
  locate f (d ++ [c]) = Some (d ++ [c]).
Proof.
  intros [Hd Hc]%Forall_app Hq. unfold locate. rewrite last_snoc. cbn [mbind option_bind].
  rewrite bool_decide_false by (apply not_dotdot, (proj1 (Forall_singleton _ _) Hc)).
  rewrite removelast_snoc, (walk_dirs_ok f [] d); [done|done|exact Hq].
Qed.

Lemma stat_ok f p n : wf f -> path_ok p -> f !! p = Some n -> stat f p = Some n.
Proof.
  intros Hf Hp Hn. unfold stat. destruct p as [|c p _] using rev_ind; [cbn; by rewrite (proj1 Hf) in Hn|].
  rewrite last_snoc. rewrite bool_decide_false.
  - rewrite locate_ok; [exact Hn|done|]. intros q Hq Hne. apply (wf_prefix f (p ++ [c]) n); [done..|by apply prefix_app_r|].
    intros ->. by apply prefix_snoc_not in Hq.
  - apply not_dotdot. apply Forall_app in Hp as [_ Hc]. exact (proj1 (Forall_singleton _ _) Hc).
Qed.

Section Extract.
  Context `{TarLib}.

(** An entry fits when nothing of the other kind is in its way. *)
Definition fits (f : fs) (target : path) (n : node) : Prop :=
  (forall q c, q `prefix_of` target -> q <> target -> f !! q <> Some (File c)) /\
  match n with Dir => forall c, f !! target <> Some (File c) | File _ => f !! target <> Some Dir end.

Lemma extract_entry_ok f target n : path_ok target -> f !! [] = Some Dir -> fits f target n ->
  exists f', extract_entry target n f = (f', Ok tt) /\ f' !! target = Some n /\
    (forall q, q `prefix_of` target -> q <> target -> f' !! q = Some Dir) /\
    (forall q, ~ q `prefix_of` target -> f' !! q = f !! q).
Proof.
  intros Ht Hroot [Ha Hk]. destruct n as [|c]; cbn [extract_entry].
  - destruct (create_dir_all_ok f [] target) as (f' & E & Hd & Ho); [done| |].
    { intros q x Hq. destruct (decide (q = target)) as [->|]; [apply Hk|by apply Ha]. }
    exists f'. rewrite E. cbn [app] in *.
    assert (forall q, q `prefix_of` target -> f' !! q = Some Dir) as Hall.
    { intros q Hq. destruct (decide (q = [])) as [->|]; [|by apply Hd]. rewrite Ho; [done|]. by intros ? _ ?. }
    split_and!; [done|by apply Hall|auto|]. intros q Hq. apply Ho. by intros q' ? _ ->.
  - destruct target as [|x d _] using rev_ind; [by destruct Hk|]. rewrite removelast_snoc.
    apply Forall_app in Ht as Htd. destruct Htd as [Hpd _].
    assert (forall q : path, q `prefix_of` d -> q `prefix_of` d ++ [x] /\ q <> d ++ [x]) as Hpre.
    { intros q Hq. split; [by apply prefix_app_r|]. intros ->. by apply prefix_snoc_not in Hq. }
    destruct (create_dir_all_ok f [] d) as (f1 & E & Hd & Ho); [done| |].
    { intros q y Hq. by apply Ha; apply Hpre. }
    cbn [app] in *. rewrite E, locate_ok by done.
    assert (forall q, q `prefix_of` d -> f1 !! q = Some Dir) as Hall.
    { intros q Hq. destruct (decide (q = [])) as [->|]; [|by apply Hd]. rewrite Ho; [done|]. by intros ? _ ?. }
    rewrite unpack_ok; [|by rewrite removelast_snoc; apply Hall|by destruct d|].
    + eexists. split_and!; [done|apply lookup_insert_eq| |].
      * intros q [Hq| ->]%prefix_snoc_cases Hne; [|done]. rewrite lookup_insert_ne by done. by apply Hall.
      * intros q Hq. rewrite lookup_insert_ne by (by intros <-). apply Ho. intros q' Hq' _ ->. apply Hq. by apply Hpre.
    + rewrite Ho; [done|]. intros q' Hq' _ <-. by apply prefix_snoc_not in Hq'.
Qed.

(** The nodes of a tree: what lies above a node is a directory. *)
Definition tree (l : list (path * node)) : Prop :=
  NoDup l.*1 /\ forall rel n rel' n', (rel, n) ∈ l -> (rel', n') ∈ l -> rel `prefix_of` rel' -> rel <> rel' -> n = Dir.

Lemma prefix_base {A} (b rel rel' : list A) : b ++ rel `prefix_of` b ++ rel' <-> rel `prefix_of` rel'.
Proof. split; [apply prefix_app_inv|apply prefix_app]. Qed.

Lemma app_base {A} (b rel rel' : list A) : rel <> rel' -> b ++ rel <> b ++ rel'.
Proof. intros Hne E. by apply app_inv_head in E. Qed.

Lemma extract_tree target_of b name l f :
  Forall (fun e => target_of (e_path (entry_at name e)) = Some (b ++ e.1) /\ path_ok (b ++ e.1) /\ fits f (b ++ e.1) e.2) l ->
  tree l -> f !! [] = Some Dir ->
  exists f', extract target_of (map (entry_at name) l) (Ok tt) f = (f', Ok tt) /\
    (forall rel n, (rel, n) ∈ l -> f' !! (b ++ rel) = Some n) /\
    (forall rel n q, (rel, n) ∈ l -> q `prefix_of` b ++ rel -> q <> b ++ rel -> f' !! q = Some Dir) /\
    (forall q, (forall rel n, (rel, n) ∈ l -> ~ q `prefix_of` b ++ rel) -> f' !! q = f !! q).
Proof.
  revert f. induction l as [|[rel n] l IH]; intros f Hl [Hnd Ht] Hroot.
  { exists f. split_and!; [done|by intros rel n ?%not_elem_of_nil|by intros rel n q ?%not_elem_of_nil|done]. }
  apply Forall_cons in Hl as [(Htgt & Hok & Hfit) Hl]. cbn [fst snd] in *. apply NoDup_cons in Hnd as [Hnew Hnd].
  destruct (extract_entry_ok f (b ++ rel) n) as (f1 & E1 & Hn1 & Ha1 & Ho1); [done..|].
  cbn [map extract]. rewrite Htgt. cbn [e_node entry_at snd]. rewrite E1.
  assert (forall rel' n', (rel', n') ∈ l -> rel' <> rel) as Hdiff.
  { intros rel' n' Hin ->. apply Hnew, list_elem_of_fmap. by exists (rel, n'). }
  destruct (IH f1) as (f' & E & Hin & Habove & Hout).
  - apply Forall_forall. intros [rel' n'] He. apply (proj1 (Forall_forall _ _) Hl) in He as Hf. destruct Hf as (H1 & H2 & H3 & H4).
    cbn [fst snd] in *. split_and!; [done..|]. split.
    + intros q c Hq Hne. destruct (decide (q = b ++ rel)) as [->|Hq1].
      { rewrite Hn1. rewrite (Ht rel n rel' n'); [done|by left|by right|by apply prefix_base in Hq|intros <-; done]. }
      destruct (decide (q `prefix_of` b ++ rel)) as [Hq2|Hq2]; [by rewrite Ha1|]. rewrite Ho1 by done. by apply H3.
    + destruct (decide (b ++ rel' `prefix_of` b ++ rel)) as [Hq|Hq].
      * rewrite Ha1 by (done || exact (app_base _ _ _ (Hdiff _ _ He))). apply prefix_base in Hq.
        rewrite (Ht rel' n' rel n); [done|by right|by left|done|exact (Hdiff _ _ He)].
      * rewrite Ho1 by done. exact H4.
  - split; [done|]. intros r1 m1 r2 m2 ? ?. apply (Ht _ _ _ m2); by right.
  - destruct (decide (b ++ rel = [])) as [E0|E0].
    { rewrite <- E0, Hn1. rewrite E0 in Hfit. destruct n as [|c]; [done|]. by destruct Hfit as [_ ?]. }
    apply Ha1; [apply prefix_nil|done].
  - exists f'. split; [done|].
    (* a path that the first entry made a directory stays one *)
    assert (forall q, f1 !! q = Some Dir -> (forall rel' n', (rel', n') ∈ l -> q = b ++ rel' -> n' = Dir) -> f' !! q = Some Dir) as Hstay.
    { intros q Hq Hdir. destruct (decide (Exists (fun e => q `prefix_of` b ++ e.1) l)) as [Hex|Hno].
      - apply Exists_exists in Hex as ([rel' n'] & Hin' & Hp). cbn in Hp.
        destruct (decide (q = b ++ rel')) as [->|]; [|by eapply Habove]. by rewrite (Hin _ _ Hin'), (Hdir _ _ Hin' eq_refl).
      - rewrite Hout; [done|]. intros rel' n' Hin' Hp. apply Hno, Exists_exists. by exists (rel', n'). }
    split_and!.
    + intros rel' n' [[= -> ->]|Hin']%elem_of_cons; [|by apply Hin]. destruct n as [|c].
      * apply Hstay; [done|]. intros rel' n' Hin' E'%app_inv_head. by destruct (Hdiff rel' n').
      * rewrite Hout; [done|]. intros rel' n' Hin' Hp%prefix_base.
        assert (File c = Dir); [|done]. apply (Ht rel (File c) rel' n'); [by left|by right|done|]. intros ->. by apply (Hdiff rel' n').
    + intros rel' n' q [[= -> ->]|Hin']%elem_of_cons Hq Hne; [|by eapply Habove].
      apply Hstay; [by apply Ha1|]. intros rel' n' Hin' ->. apply prefix_base in Hq.
      apply (Ht rel' n' rel n); [by right|by left|done|exact (Hdiff _ _ Hin')].
    + intros q Hq. rewrite Hout by (intros rel' n' ?; by apply (Hq rel' n'); right). apply Ho1. by apply (Hq rel n); left.
Qed.

(** Copying the tree at [p] of [src] to [b] is possible. *)
Definition no_conflict (src : fs) (p : path) (dst : fs) (b : path) : Prop :=
  forall rel n, src !! (p ++ rel) = Some n -> fits dst (b ++ rel) n.

(** [dst'] is [dst] with the tree at [p] of [src] copied to [b]. *)
Definition copied (src : fs) (p : path) (dst dst' : fs) (b : path) : Prop :=
  (forall rel n, src !! (p ++ rel) = Some n -> dst' !! (b ++ rel) = Some n) /\
  (forall q, q `prefix_of` b -> q <> b -> dst' !! q = Some Dir) /\
  (forall q, ~ q `prefix_of` b -> (forall rel, q = b ++ rel -> src !! (p ++ rel) = None) -> dst' !! q = dst !! q).

Lemma enumerates_tree src p l : wf src -> enumerates src p l -> tree l.
Proof.
  intros Hw [Hnd Hl]. split; [done|]. intros rel n rel' n' Hr Hr' Hp Hne. apply Hl in Hr, Hr'.
  assert (src !! (p ++ rel) = Some Dir); [|congruence]. apply (wf_prefix src (p ++ rel') n'); [done..|by apply prefix_base|].
  intros E. by apply app_inv_head in E.
Qed.

Lemma extract_copied src p dst b name l target_of :
  wf src -> is_Some (src !! p) -> enumerates src p l -> path_ok b -> dst !! [] = Some Dir -> no_conflict src p dst b ->
  (forall rel, path_ok rel -> target_of (join [c_slash] (name ++ rel)) = Some (b ++ rel)) ->
  exists dst', extract target_of (map (entry_at name) l) (Ok tt) dst = (dst', Ok tt) /\ copied src p dst dst' b.
Proof.
  intros Hw [n0 Hp] He Hb Hroot Hnc Ht. pose proof (enumerates_tree _ _ _ Hw He) as Htree. destruct He as [_ Hl].
  destruct (extract_tree target_of b name l dst) as (dst' & E & Hin & Habove & Hout); [|done..|].
  - apply Forall_forall. intros [rel n] He. apply Hl in He. assert (path_ok rel) by (by eapply wf_names). cbn [fst snd].
    split_and!; [by apply Ht|by apply Forall_app|by apply Hnc].
  - exists dst'. split; [done|]. assert (([], n0) ∈ l) as H0 by (apply Hl; by rewrite app_nil_r). split_and!.
    + intros rel n Hr. by apply Hin, Hl.
    + intros q Hq Hne. apply (Habove [] n0); rewrite ?app_nil_r; done.
    + intros q Hq Hno. apply Hout. intros rel n Hr%Hl [Hpre|(r & -> & Hpre)]%prefix_app_cases; [done|].
      specialize (Hno r eq_refl). destruct (decide (r = rel)) as [->|Hne]; [congruence|].
      rewrite (wf_prefix src (p ++ rel) n (p ++ r)) in Hno; [done..|by apply prefix_base|by apply app_base].
Qed.
End Extract.

Section Theorems.
  Context `{TarLib}.

Lemma enumerates_file src p c : wf src -> src !! p = Some (File c) -> enumerates src p [([], File c)].
Proof.
  intros Hw Hc. split; [apply NoDup_singleton|]. intros rel n. rewrite list_elem_of_singleton. split.
  - intros [= -> ->]. by rewrite app_nil_r.
  - intros Hn. pose proof (wf_leaf _ _ _ _ _ Hw Hc Hn) as ->. rewrite app_nil_r in Hn. congruence.
Qed.

(** A successful archive holds the whole tree. *)
Lemma archive_complete src text p name es : wf src -> path_ok p -> is_Some (src !! p) -> Executor.file_name text = Some name ->
  archive src text p = (es, Ok tt) -> exists l, es = map (entry_at [lit "_"; name]) l /\ enumerates src p l.
Proof.
  intros Hw Hp [n Hn] Hname. unfold archive. rewrite (stat_ok src p n), Hname by done. destruct n as [|c].
  - destruct (append_dir_all src p) as [l r] eqn:E. intros [= <- ->]. exists l. split; [done|by apply append_dir_all_ok].
  - destruct (append_path src p) as [c'|] eqn:E; [|done]. intros [= <-]. apply append_path_ok in E. simplify_eq.
    exists [([], File c)]. split; [done|by apply enumerates_file].
Qed.

(** Where [cp] puts a source with this name. *)
Definition copy_base (dst : fs) (dest : path) (name : str) : path := if is_dir dst dest then dest ++ [name] else dest.

Lemma copy_target_ok dst dest name rel : name_ok name -> path_ok rel ->
  copy_target dest (is_dir dst dest) (join [c_slash] ([lit "_"; name] ++ rel)) = Some (copy_base dst dest name ++ rel).
Proof.
  intros Hname Hrel. unfold copy_target, copy_base. cbn [app].
  rewrite strip_wrapper_ok by (done || by apply path_components_ok; constructor). cbn [mbind option_bind].
  destruct (is_dir dst dest); [by rewrite <- app_assoc|done].
Qed.

Lemma copy_base_ok dst dest name : path_ok dest -> name_ok name -> path_ok (copy_base dst dest name).
Proof. intros. unfold copy_base. case_match; [|done]. apply Forall_app. split; [done|by apply Forall_singleton]. Qed.

Lemma copy_extracts src text p name es dst dest :
  wf src -> path_ok p -> is_Some (src !! p) -> Executor.file_name text = Some name -> archive src text p = (es, Ok tt) ->
  path_ok dest -> dst !! [] = Some Dir -> no_conflict src p dst (copy_base dst dest name) ->
  exists dst', extract (copy_target dest (is_dir dst dest)) es (Ok tt) dst = (dst', Ok tt) /\
    copied src p dst dst' (copy_base dst dest name).
Proof.
  intros Hw Hp Hs Hname Ha Hdest Hroot Hnc. pose proof (file_name_ok _ _ Hname) as Hn.
  destruct (archive_complete src text p name es) as (l & -> & He); [done..|].
  apply extract_copied; [done..|by apply copy_base_ok|done|done|]. intros rel Hrel. by apply copy_target_ok.
Qed.

(** [rumpel cp] into a pod copies the tree: when the source can be read and nothing of the
    other kind is in the way, it succeeds, the pod has every file and directory of the source
    below the destination (inside it, under the name of the source, when the destination is a
    directory), and nothing else of the pod changes but missing parents of the destination. *)
Theorem cp_to_pod_copies host cwd local_path resolved pod name es :
  let p := absolute cwd local_path in
  let dest := Executor.path_components resolved in
  wf host -> path_ok p -> is_Some (host !! p) -> Executor.file_name local_path = Some name ->
  archive host local_path p = (es, Ok tt) ->
  path_ok dest -> pod !! [] = Some Dir -> no_conflict host p pod (copy_base pod dest name) ->
  exists pod', cp_to_pod host cwd local_path resolved pod = (pod', Ok tt) /\
    copied host p pod pod' (copy_base pod dest name).
Proof.
  intros p dest Hw Hp [n Hn] Hname Ha Hdest Hroot Hnc.
  destruct (copy_extracts host local_path p name es pod dest) as (pod' & E & Hc); [done..|].
  exists pod'. split; [|done]. unfold cp_to_pod, tar_local_path. fold p. rewrite (stat_ok host p n) by done. rewrite Ha.
  unfold cp_upload_impl. cbn [fst snd]. fold dest. by rewrite E.
Qed.


(** Failures are reported in one direction only.  When the source cannot be archived
    completely, copying into a pod fails; copying out of a pod gives exactly the result of the
    entries that were written, and for a path without a name, such as a parent directory, it
    reports success and copies nothing. *)
Theorem cp_failures_reported host cwd local_path resolved pod e es :
  (archive host local_path (absolute cwd local_path) = (es, Err e) ->
   is_ok (cp_to_pod host cwd local_path resolved pod).2 = false) /\
  (archive pod resolved (Executor.path_components resolved) = (es, Err e) -> stat pod (Executor.path_components resolved) <> None ->
   cp_from_pod pod resolved cwd local_path host = untar_to_local (es, Ok tt) (absolute cwd local_path) host) /\
  (Executor.file_name resolved = None -> stat pod (Executor.path_components resolved) <> None ->
   cp_from_pod pod resolved cwd local_path host = (host, Ok tt)).
Proof.
  split_and!.
  - intros Ha. unfold cp_to_pod, tar_local_path. destruct (stat _ _); [|done]. rewrite Ha.
    by destruct (cp_upload_impl _ _ _) as [pod' [[]|]].
  - intros Ha Hs. unfold cp_from_pod, cp_download_handler. destruct (stat _ _); [|done]. unfold cp_download_impl. by rewrite Ha.
  - intros Hname Hs. unfold cp_from_pod, cp_download_handler. destruct (stat _ _) as [n|] eqn:E; [|done].
    unfold cp_download_impl, archive. rewrite E, Hname. done.
Qed.
End Theorems.

Lemma create_dir_all_changes f cur p q : DOTDOT ∉ p -> (create_dir_all f cur p).1 !! q <> f !! q ->
  exists p1, p1 `prefix_of` p /\ q = cur ++ p1.
Proof.
  revert f cur. induction p as [|c p IH]; intros f cur Hp; [done|]. apply not_elem_of_cons in Hp as [Hc Hp].
  cbn [create_dir_all]. rewrite bool_decide_false by done.
  assert (forall f1, (create_dir_all f1 (cur ++ [c]) p).1 !! q <> f1 !! q -> exists p1, p1 `prefix_of` c :: p /\ q = cur ++ p1) as Hstep.
  { intros f1 Hne. destruct (IH f1 (cur ++ [c]) Hp Hne) as (p1 & Hp1 & ->). exists (c :: p1). split; [by apply prefix_cons|by rewrite <- app_assoc]. }
  destruct (f !! (cur ++ [c])) as [[|x]|]; [apply Hstep|done|]. intros Hne.
  destruct (decide (q = cur ++ [c])) as [->|Hq]; [exists [c]; split; [apply prefix_cons, prefix_nil|done]|].
  apply (Hstep (<[cur ++ [c] := Dir]> f)). by rewrite lookup_insert_ne.
Qed.

Lemma walk_dirs_exact f cur p r : DOTDOT ∉ p -> walk_dirs f cur p = Some r -> r = cur ++ p.
Proof.
  revert cur. induction p as [|c p IH]; intros cur Hp; cbn [walk_dirs]; [intros [= <-]; by rewrite app_nil_r|].
  apply not_elem_of_cons in Hp as [Hc Hp]. rewrite bool_decide_false by done. destruct (f !! _) as [[|]|]; [|done..].
  intros ->%IH; [|done]. by rewrite <- app_assoc.
Qed.

Lemma removelast_prefix {A} (l : list A) : removelast l `prefix_of` l.
Proof. destruct l as [|x l _] using rev_ind; [done|]. rewrite removelast_snoc. by apply prefix_app_r. Qed.

Lemma locate_exact f p q : DOTDOT ∉ p -> locate f p = Some q -> q = p.
Proof.
  unfold locate. destruct p as [|c p _] using rev_ind; [done|]. rewrite last_snoc, removelast_snoc, not_elem_of_app.
  cbn [mbind option_bind]. intros [Hp _]. case_bool_decide; [done|]. destruct (walk_dirs f [] p) as [d|] eqn:E; [|done].
  apply walk_dirs_exact in E as ->; [|done]. by intros [= <-].
Qed.

Lemma create_dir_all_app f cur p r : path_ok p -> (forall q, q `prefix_of` p -> q <> [] -> f !! (cur ++ q) = Some Dir) ->
  create_dir_all f cur (p ++ r) = create_dir_all f (cur ++ p) r.
Proof.
  intros Hp. revert cur. induction Hp as [|c p Hc Hp IH]; intros cur Hd; [by rewrite app_nil_r|]. cbn [app create_dir_all].
  rewrite bool_decide_false by (by apply not_dotdot). rewrite (Hd [c]) by (done || apply prefix_cons, prefix_nil).
  rewrite IH; [by rewrite <- app_assoc|]. intros q Hq Hne. rewrite <- app_assoc. apply Hd; [by apply prefix_cons|done].
Qed.

Lemma walk_dirs_app f cur p r : path_ok p -> (forall q, q `prefix_of` p -> q <> [] -> f !! (cur ++ q) = Some Dir) ->
  walk_dirs f cur (p ++ r) = walk_dirs f (cur ++ p) r.
Proof.
  intros Hp. revert cur. induction Hp as [|c p Hc Hp IH]; intros cur Hd; [by rewrite app_nil_r|]. cbn [app walk_dirs].
  rewrite bool_decide_false by (by apply not_dotdot). rewrite (Hd [c]) by (done || apply prefix_cons, prefix_nil).
  rewrite IH; [by rewrite <- app_assoc|]. intros q Hq Hne. rewrite <- app_assoc. apply Hd; [by apply prefix_cons|done].
Qed.

Lemma app_longer {A} (a b c : list A) : length b <> length c -> a ++ b <> a ++ c.
Proof. intros Hl E. apply app_inv_head in E. by subst. Qed.

Section Confinement.
  Context `{TarLib}.

Lemma extract_entry_changes f target n q : DOTDOT ∉ target -> (extract_entry target n f).1 !! q <> f !! q -> q `prefix_of` target.
Proof.
  intros Ht. destruct n as [|c]; cbn [extract_entry].
  - by intros (p1 & Hp & ->)%create_dir_all_changes.
  - assert (DOTDOT ∉ removelast target) as Hr.
    { intros Hin. apply Ht. destruct (removelast_prefix target) as [k ->]. apply elem_of_app. by left. }
    pose proof (create_dir_all_changes f [] (removelast target) q Hr) as Hd.
    destruct (create_dir_all f [] (removelast target)) as [f1 [[]|e]]; cbn [fst] in *.
    2: { intros (p1 & Hp & ->)%Hd. cbn [app]. etransitivity; [exact Hp|apply removelast_prefix]. }
    intros Hne. destruct (decide (f1 !! q = f !! q)) as [E|Hne1].
    2: { apply Hd in Hne1 as (p1 & Hp & ->). cbn [app]. etransitivity; [exact Hp|apply removelast_prefix]. }
    destruct (locate f1 target) as [q'|] eqn:El; [|done]. apply locate_exact in El as ->; [|done].
    destruct (decide (q = target)) as [->|Hq]; [done|]. rewrite unpack_changes in Hne by done. done.
Qed.

Lemma extract_changes target_of dest es ended f q :
  Forall (fun e => forall t, target_of (e_path e) = Some t -> DOTDOT ∉ t /\ dest `prefix_of` t) es ->
  (extract target_of es ended f).1 !! q <> f !! q -> q `prefix_of` dest \/ dest `prefix_of` q.
Proof.
  intros Hes. revert f. induction Hes as [|e es He _ IH]; intros f; cbn [extract]; [done|].
  destruct (target_of (e_path e)) as [t|]; [|apply IH]. destruct (He t eq_refl) as [Ht [r ->]].
  pose proof (extract_entry_changes f (dest ++ r) (e_node e) q Ht) as Hc.
  assert (q `prefix_of` dest ++ r -> q `prefix_of` dest \/ dest `prefix_of` q) as Hq.
  { intros [|(r' & -> & _)]%prefix_app_cases; [by left|right; by apply prefix_app_r]. }
  destruct (extract_entry (dest ++ r) (e_node e) f) as [f1 [[]|err]]; cbn [fst] in *; [|by intros ?%Hc%Hq].
  intros Hne. destruct (decide (f1 !! q = f !! q)) as [E|Hne1]; [|by apply Hq, Hc]. apply (IH f1). congruence.
Qed.

Lemma copy_target_below dest b p t : DOTDOT ∉ dest -> DOTDOT ∉ Executor.path_components p ->
  copy_target dest b p = Some t -> DOTDOT ∉ t /\ dest `prefix_of` t.
Proof.
  intros Hd Hp. unfold copy_target, strip_wrapper. destruct (_ || _); [done|].
  destruct (Executor.path_components p) as [|w rest]; [done|]. destruct (_ && _); [|done]. cbn [mbind option_bind].
  apply not_elem_of_cons in Hp as [_ Hp]. intros [= <-]. destruct b; (split; [|by apply prefix_app_r]); apply not_elem_of_app.
  - done.
  - split; [done|]. destruct rest; [done|]. by apply not_elem_of_cons in Hp as [_ ?].
Qed.

(** An archive without parent components is extracted below the destination: whatever it
    holds and however extraction ends, nothing changes but missing parents of the destination
    and what lies below it. *)
Theorem extraction_confined s dest f q :
  DOTDOT ∉ dest -> Forall (fun e => DOTDOT ∉ Executor.path_components (e_path e)) s.1 ->
  (untar_to_local s dest f).1 !! q <> f !! q -> q `prefix_of` dest \/ dest `prefix_of` q.
Proof.
  intros Hd Hs. apply extract_changes. eapply Forall_impl; [exact Hs|]. intros e He t. by apply copy_target_below.
Qed.

(** The archive of a pod that wants to write beside the destination. *)
Definition escaping (name : str) (content : list N) : stream :=
  ([mkEntry (join [c_slash] [lit "_"; lit "x"; DOTDOT; DOTDOT; name]) (File content)], Ok tt).

(** Nothing refuses parent components: a pod can answer [rumpel cp] with an archive whose
    extraction into a directory of the host overwrites any file beside that directory. *)
Theorem extraction_escapes dir k name content f :
  path_ok (dir ++ [k]) -> name_ok name ->
  (forall q, q `prefix_of` dir ++ [k] -> f !! q = Some Dir) -> f !! (dir ++ [k; lit "x"]) = None ->
  f !! (dir ++ [name]) <> Some Dir ->
  exists f', untar_to_local (escaping name content) (dir ++ [k]) f = (f', Ok tt) /\
    f' !! (dir ++ [name]) = Some (File content).
Proof.
  intros Hp Hname Hd Hx Hn. unfold untar_to_local, escaping. cbn [fst snd].
  assert (is_dir f (dir ++ [k]) = true) as ->.
  { apply bool_decide_true. unfold stat. rewrite last_snoc, bool_decide_false.
    - rewrite locate_ok by (done || (intros; apply Hd; by apply prefix_app_r)). by apply Hd.
    - apply not_dotdot. apply Forall_app in Hp as [_ Hk]. exact (proj1 (Forall_singleton _ _) Hk). }
  assert (copy_target (dir ++ [k]) true (join [c_slash] [lit "_"; lit "x"; DOTDOT; DOTDOT; name]) =
          Some (dir ++ [k; lit "x"; DOTDOT; DOTDOT; name])) as Ht.
  { unfold copy_target. rewrite strip_wrapper_ok; [cbn; by rewrite <- app_assoc| |done].
    destruct Hname as (H1 & H2 & _ & H3). repeat apply Forall_cons_2; [split_and!; decide_now..|by split_and!|constructor]. }
  assert (name_ok (lit "x")) as Hxn by decide_now.
  set (f1 := <[dir ++ [k; lit "x"] := Dir]> f).
  assert (create_dir_all f [] (dir ++ [k; lit "x"; DOTDOT; DOTDOT]) = (f1, Ok tt)) as Ec.
  { change (dir ++ [k; lit "x"; DOTDOT; DOTDOT]) with (dir ++ [k] ++ [lit "x"; DOTDOT; DOTDOT]).
    rewrite app_assoc, create_dir_all_app by (done || (intros; by apply Hd)). cbn [app create_dir_all].
    rewrite bool_decide_false by (by apply not_dotdot). rewrite <- app_assoc. cbn [app]. by rewrite Hx. }
  assert (forall q, q `prefix_of` dir ++ [k; lit "x"] -> f1 !! q = Some Dir) as Hd1.
  { intros q Hq. unfold f1. destruct (decide (q = dir ++ [k; lit "x"])) as [->|Hne]; [apply lookup_insert_eq|].
    rewrite lookup_insert_ne by done. apply Hd. change [k; lit "x"] with ([k] ++ [lit "x"]) in *. rewrite app_assoc in *.
    by apply prefix_snoc_cases in Hq as [|]. }
  assert (locate f1 (dir ++ [k; lit "x"; DOTDOT; DOTDOT; name]) = Some (dir ++ [name])) as El.
  { change [k; lit "x"; DOTDOT; DOTDOT; name] with ([k; lit "x"] ++ [DOTDOT; DOTDOT] ++ [name]). rewrite !app_assoc.
    unfold locate. rewrite last_snoc, removelast_snoc. cbn [mbind option_bind]. rewrite bool_decide_false by (by apply not_dotdot).
    rewrite walk_dirs_app; [|apply Forall_app in Hp as [? Hk]; apply Forall_app; split; [done|]; apply Forall_cons in Hk as [? _]; by repeat apply Forall_cons_2|].
    2: { intros q Hq _. by apply Hd1. }
    cbn [app walk_dirs]. rewrite bool_decide_true by done.
    change [k; lit "x"] with ([k] ++ [lit "x"]). rewrite app_assoc, !removelast_snoc. done. }
  cbn [extract e_path e_node]. rewrite Ht. cbn [extract_entry].
  change [k; lit "x"; DOTDOT; DOTDOT; name] with ([k; lit "x"; DOTDOT; DOTDOT] ++ [name]).
  rewrite app_assoc, removelast_snoc, Ec, <- app_assoc. cbn [app]. rewrite El, unpack_ok.
  - eexists. split; [done|apply lookup_insert_eq].
  - rewrite removelast_snoc. apply Hd1. by apply prefix_app_r.
  - by destruct dir.
  - unfold f1. rewrite lookup_insert_ne by (by apply app_longer). done.
Qed.
End Confinement.

(** ** Bind mounts *)

Lemma prefix_comparable {A} (a b l : list A) : a `prefix_of` l -> b `prefix_of` l -> a `prefix_of` b \/ b `prefix_of` a.
Proof.
  intros [ka ->] Hb. apply prefix_app_cases in Hb as [|(r & -> & _)]; [by right|left; by apply prefix_app_r].
Qed.

Definition apart (t t' : path) : Prop := ~ t `prefix_of` t' /\ ~ t' `prefix_of` t.

Section Mounts.
  Context `{TarLib}.

Definition source_path (b : BindSource) : path := Executor.path_components (bind_source b).
Definition target_path (b : BindSource) : path := Executor.path_components (mount_name (bind_target b)).

Lemma extract_app target_of es1 es2 ended f f1 :
  extract target_of es1 (Ok tt) f = (f1, Ok tt) -> extract target_of (es1 ++ es2) ended f = extract target_of es2 ended f1.
Proof.
  revert f. induction es1 as [|e es1 IH]; intros f; cbn [extract app]; [by intros [= ->]|].
  destruct (target_of (e_path e)); [|apply IH]. destruct (extract_entry _ _ _) as [f2 [|]]; [apply IH|done].
Qed.

(** A directory of the host that can be read, with a target it can be copied to. *)
Definition mountable (host pod : fs) (b : BindSource) : Prop :=
  path_ok (source_path b) /\ host !! source_path b = Some Dir /\ (walk host (source_path b)).2 = Ok tt /\
  path_ok (target_path b) /\ no_conflict host (source_path b) pod (target_path b).

Lemma no_conflict_apart src p dst dst' t src' p' t' : copied src' p' dst dst' t' -> apart t' t ->
  no_conflict src p dst t -> no_conflict src p dst' t.
Proof.
  intros (_ & Hd & Ho) [Ha1 Ha2] Hnc rel n Hn. destruct (Hnc rel n Hn) as [H1 H2].
  assert (forall q, q `prefix_of` t ++ rel -> (q `prefix_of` t' /\ dst' !! q = Some Dir) \/ dst' !! q = dst !! q) as Hq.
  { intros q Hq. destruct (decide (q `prefix_of` t')) as [Hp|Hp].
    - left. split; [done|]. apply Hd; [done|]. intros ->. by destruct (prefix_comparable t' t (t ++ rel)); [..|by apply prefix_app_r| |].
    - right. apply Ho; [done|]. intros r ->. exfalso.
      destruct (prefix_comparable t' t (t ++ rel)); [etransitivity; [|exact Hq]; by apply prefix_app_r|by apply prefix_app_r|done|done]. }
  split.
  - intros q c Hp Hne. destruct (Hq q Hp) as [[_ ->]| ->]; [done|by apply H1].
  - destruct (Hq (t ++ rel)) as [[Hp _]| ->]; [done| |done]. destruct Ha2. etransitivity; [|exact Hp]. by apply prefix_app_r.
Qed.

Lemma mounts_extract host binds pod : wf host -> pod !! [] = Some Dir -> Forall (mountable host pod) binds ->
  ForallOrdPairs apart (map target_path binds) ->
  exists es pod', bind_archive host binds = (es, Ok tt) /\ init_mounts_impl (es, Ok tt) pod = (pod', Ok tt) /\
    (forall b rel n, b ∈ binds -> host !! (source_path b ++ rel) = Some n -> pod' !! (target_path b ++ rel) = Some n) /\
    (forall q, (forall b, b ∈ binds -> apart (target_path b) q) -> pod' !! q = pod !! q).
Proof.
  intros Hw. revert pod. induction binds as [|b binds IH]; intros pod Hroot Hm Hap.
  { exists [], pod. split_and!; [done|done|by intros b rel n ?%not_elem_of_nil|done]. }
  apply Forall_cons in Hm as [(Hs & Hdir & Hwalk & Ht & Hnc) Hm].
  cbn [map] in Hap. inversion Hap as [|? ? Hfirst Hrest]; subst.
  destruct (walk host (source_path b)) as [l r] eqn:Ew. cbn [snd] in Hwalk. subst r.
  destruct (extract_copied host (source_path b) pod (target_path b) (target_path b) l mount_target) as (pod1 & E1 & Hc);
    [done|by rewrite Hdir|by apply walk_ok|done..| |].
  { intros rel Hrel. unfold mount_target. rewrite components_join; [done|]. by apply path_components_ok, Forall_app. }
  assert (pod1 !! [] = Some Dir) as Hroot1.
  { destruct Hc as (Hc1 & Hc2 & _). destruct (decide (target_path b = [])) as [E|E].
    - specialize (Hc1 [] Dir). rewrite E, !app_nil_r in Hc1. by apply Hc1.
    - apply Hc2; [apply prefix_nil|done]. }
  assert (forall b', b' ∈ binds -> apart (target_path b) (target_path b')) as Hap1.
  { intros b' Hb'. apply (proj1 (Forall_forall _ _) Hfirst), list_elem_of_fmap. by exists b'. }
  destruct (IH pod1 Hroot1) as (es & pod' & Ea & Ex & Hin & Hout); [|done|].
  { apply Forall_forall. intros b' Hb'. destruct (proj1 (Forall_forall _ _) Hm b' Hb') as (H1 & H2 & H3 & H4 & H5).
    split_and!; [done..|]. by eapply no_conflict_apart; [exact Hc|apply Hap1|]. }
  exists (map (entry_at (target_path b)) l ++ es), pod'. split_and!.
  - cbn [bind_archive]. unfold bind_entries. fold (source_path b) (target_path b).
    assert (is_dir host (source_path b) = true) as -> by (apply bool_decide_true; by apply stat_ok). by rewrite Ew, Ea.
  - unfold init_mounts_impl. cbn [fst snd]. by rewrite (extract_app _ _ _ _ _ _ E1).
  - intros b' rel n [->|Hb']%elem_of_cons Hn; [|by eapply Hin]. rewrite Hout; [by apply (proj1 Hc)|].
    intros b' Hb'. destruct (Hap1 b' Hb') as [H1 H2]. split; intros Hp.
    + destruct (prefix_comparable (target_path b) (target_path b') (target_path b ++ rel)); [by apply prefix_app_r|done..].
    + apply H1. etransitivity; [|exact Hp]. by apply prefix_app_r.
  - intros q Hq. rewrite Hout by (intros b' ?; apply Hq; by right). destruct (Hq b) as [H1 H2]; [by left|].
    apply (proj2 (proj2 Hc)); [done|]. intros rel ->. destruct H1. by apply prefix_app_r.
Qed.

(** The directories a pod on a remote host would have bound are uploaded completely: with
    readable sources, targets of which none contains another and nothing of another kind in the
    way, uploading succeeds, the pod has every file and directory of every source below its
    target, and nothing away from the targets changes. *)
Theorem bind_mounts_uploaded host binds pod : wf host -> pod !! [] = Some Dir -> Forall (mountable host pod) binds ->
  ForallOrdPairs apart (map target_path binds) ->
  exists pod', upload_bind_mounts host binds pod = (pod', Ok tt) /\
    (forall b rel n, b ∈ binds -> host !! (source_path b ++ rel) = Some n -> pod' !! (target_path b ++ rel) = Some n) /\
    (forall q, (forall b, b ∈ binds -> apart (target_path b) q) -> pod' !! q = pod !! q).
Proof.
  intros Hw Hroot Hm Hap. unfold upload_bind_mounts. case_bool_decide as Hb.
  { subst. exists pod. split_and!; [done|by intros b rel n ?%not_elem_of_nil|done]. }
  destruct (mounts_extract host binds pod) as (es & pod' & Ea & Ex & Hin & Hout); [done..|].
  exists pod'. by rewrite Ea, Ex.
Qed.

(** A file that would have been bound at a path is uploaded into a directory of that path:
    after the upload the target is a directory that contains the file under the name it has on
    the host, and not the file. *)
Theorem bind_file_nested host b pod c name :
  host !! source_path b = Some (File c) -> wf host -> path_ok (source_path b) -> append_path host (source_path b) = Ok c ->
  Executor.file_name (bind_source b) = Some name -> path_ok (target_path b) -> pod !! [] = Some Dir ->
  fits pod (target_path b ++ [name]) (File c) ->
  exists pod', upload_bind_mounts host [b] pod = (pod', Ok tt) /\ pod' !! target_path b = Some Dir /\
    pod' !! (target_path b ++ [name]) = Some (File c).
Proof.
  intros Hc Hw Hs Ha Hname Ht Hroot Hfit. pose proof (file_name_ok _ _ Hname) as Hn.
  assert (path_ok (target_path b ++ [name])) as Hok by (apply Forall_app; split; [done|by apply Forall_singleton]).
  destruct (extract_entry_ok pod (target_path b ++ [name]) (File c)) as (pod' & E & H1 & H2 & _); [done..|].
  exists pod'. split_and!; [|apply H2; [by apply prefix_app_r|]|done].
  - unfold upload_bind_mounts. cbn [bind_archive]. unfold bind_entries. fold (source_path b) (target_path b).
    unfold is_dir. rewrite (stat_ok host _ _ Hw Hs Hc). rewrite (bool_decide_false (Some (File c) = Some Dir)) by done.
    rewrite Ha, Hname. change (default [] (Some name)) with name. cbn [app]. rewrite bool_decide_false by done. unfold init_mounts_impl, mount_target. cbn [fst snd extract entry_at e_path].
    rewrite components_join by (by apply path_components_ok). cbn [e_node entry_at snd]. by rewrite E.
  - intros E0. apply (f_equal length) in E0. rewrite length_app in E0. cbn in E0. lia.
Qed.
End Mounts.

(** ** Witnesses *)

Fixpoint below (p q : path) : option path :=
  match p, q with
  | [], _ => Some q
  | x :: p, y :: q => if bool_decide (x = y) then below p q else None
  | _ :: _, [] => None
  end.

Lemma below_Some p q rel : below p q = Some rel <-> q = p ++ rel.
Proof.
  revert q. induction p as [|x p IH]; intros q; cbn; [split; [by intros [= ->]|by intros ->]|].
  destruct q as [|y q]; [done|]. case_bool_decide as E; [subst; rewrite IH; split; [by intros ->|by intros [= ->]]|].
  split; [done|]. by intros [= ? ?].
Qed.

Definition listing (f : fs) (p : path) : list (path * node) :=
  omap (fun e : path * node => (fun rel => (rel, e.2)) <$> below p e.1) (map_to_list f).

Lemma listing_enumerates f p : enumerates f p (listing f p).
Proof.
  assert (forall (rel : path) (n : node) (l : list (path * node)), (rel, n) ∈ omap (fun e : path * node => (fun rel => (rel, e.2)) <$> below p e.1) l <-> (p ++ rel, n) ∈ l) as Hin.
  { intros rel n l. rewrite list_elem_of_omap. split.
    - intros ([q m] & Hq & (r & Hr & [= -> ->])%fmap_Some). apply below_Some in Hr. cbn in Hr. by subst.
    - intros Hq. exists (p ++ rel, n). split; [done|]. cbn. by rewrite (proj2 (below_Some p (p ++ rel) rel)). }
  split.
  - pose proof (NoDup_fst_map_to_list f) as Hnd. unfold listing. induction (map_to_list f) as [|[q n] l IH]; [constructor|].
    cbn in Hnd. apply NoDup_cons in Hnd as [Hnew Hnd]. cbn [omap list_omap fst snd].
    destruct (below p q) as [rel|] eqn:E; cbn [fmap option_fmap option_map]; [|by apply IH]. apply below_Some in E as ->.
    cbn [fmap list_fmap]. constructor; [|by apply IH]. intros ([rel' n'] & [= ->] & Hr)%list_elem_of_fmap.
    apply Hin in Hr. apply Hnew, list_elem_of_fmap. by exists (p ++ rel', n').
  - intros rel n. unfold listing. rewrite Hin. apply elem_of_map_to_list.
Qed.

Definition plain_file (f : fs) (p : path) : result str (list N) :=
  match f !! p with Some (File c) => Ok c | _ => Err (lit "not a file") end.

Definition plain_unpack (q : path) (c : list N) (f : fs) : fs * result str unit :=
  if bool_decide (f !! removelast q = Some Dir /\ q <> [] /\ f !! q <> Some Dir) then (<[q := File c]> f, Ok tt)
  else (f, Err (lit "unpack")).

#[refine] Instance plain_tar : TarLib :=
  { append_dir_all f p := (listing f p, Ok tt); walk f p := (listing f p, Ok tt);
    append_path := plain_file; unpack := plain_unpack }.
Proof.
  - intros f p l [= <-]. apply listing_enumerates.
  - intros f p l [= <-]. apply listing_enumerates.
  - intros f p c. unfold plain_file. destruct (f !! p) as [[|]|]; [done| |done]. by intros [= ->].
  - intros f q c q' Hne. unfold plain_unpack. case_bool_decide; [|done]. by apply lookup_insert_ne.
  - intros f q c H1 H2 H3. unfold plain_unpack. by rewrite bool_decide_true.
Defined.

Definition parent_ok (f : fs) (q : path) : Prop :=
  match last q with None => True | Some c => f !! removelast q = Some Dir /\ name_ok c end.

#[export] Instance parent_ok_dec f q : Decision (parent_ok f q).
Proof. unfold parent_ok. case_match; apply _. Defined.

Lemma wf_check f : f !! [] = Some Dir /\ map_Forall (fun q _ => parent_ok f q) f -> wf f.
Proof.
  intros [Hr Hf]. split; [done|]. intros p c n Hn. apply Hf in Hn. unfold parent_ok in Hn.
  by rewrite last_snoc, removelast_snoc in Hn.
Qed.

(** Nothing conflicts with a fresh place in a file system without files. *)
Lemma no_conflict_fresh src p dst b :
  map_Forall (fun q n => n = Dir /\ (~ b `prefix_of` q)) dst -> no_conflict src p dst b.
Proof.
  intros Hd rel n _. split.
  - intros q c _ _ Hq. by destruct (Hd q (File c) Hq).
  - destruct n as [|c]; [intros c Hq; by destruct (Hd _ _ Hq)|]. intros Hq. destruct (Hd _ _ Hq) as [_ Hn]. apply Hn. by apply prefix_app_r.
Qed.

Definition EXAMPLE_HOST : fs :=
  {[ [] := Dir; [lit "a"] := Dir; [lit "a"; lit "f"] := File (lit "1"); [lit "a"; lit "d"] := Dir; [lit "a"; lit "d"; lit "g"] := File (lit "2") ]}.
Definition EXAMPLE_POD : fs := {[ [] := Dir; [lit "w"] := Dir ]}.

Lemma example_wf : wf EXAMPLE_HOST.
Proof. apply wf_check. decide_now. Defined.

Lemma cp_to_pod_copies_witness :
  exists pod', cp_to_pod EXAMPLE_HOST [] (lit "a") (lit "/w") EXAMPLE_POD = (pod', Ok tt) /\
    pod' !! [lit "w"; lit "a"; lit "d"; lit "g"] = Some (File (lit "2")).
Proof.
  destruct (cp_to_pod_copies EXAMPLE_HOST [] (lit "a") (lit "/w") EXAMPLE_POD (lit "a")
              (archive EXAMPLE_HOST (lit "a") [lit "a"]).1) as (pod' & E & Hc & _).
  - apply example_wf.
  - decide_now.
  - exists Dir. vm_compute. reflexivity.
  - vm_compute. reflexivity.
  - vm_compute. reflexivity.
  - decide_now.
  - vm_compute. reflexivity.
  - apply no_conflict_fresh. decide_now.
  - exists pod'. split; [exact E|]. apply (Hc [lit "d"; lit "g"]). vm_compute. reflexivity.
Defined.


Lemma cp_failures_reported_witness :
  cp_from_pod EXAMPLE_HOST (lit "/a/d/..") [] (lit "new") EXAMPLE_POD = (EXAMPLE_POD, Ok tt).
Proof.
  apply (proj2 (proj2 (cp_failures_reported EXAMPLE_POD [] (lit "new") (lit "/a/d/..") EXAMPLE_HOST (lit "e") [])));
    [vm_compute; reflexivity|intros E; vm_compute in E; discriminate E].
Defined.

Lemma extraction_confined_witness :
  (untar_to_local ([mkEntry (lit "_/a/f") (File (lit "1"))], Ok tt) [lit "w"] EXAMPLE_POD).1 !! [lit "etc"] = None.
Proof.
  destruct (decide ((untar_to_local ([mkEntry (lit "_/a/f") (File (lit "1"))], Ok tt) [lit "w"] EXAMPLE_POD).1 !! [lit "etc"] =
                    EXAMPLE_POD !! [lit "etc"])) as [E|Hne]; [exact E|].
  destruct (extraction_confined ([mkEntry (lit "_/a/f") (File (lit "1"))], Ok tt) [lit "w"] EXAMPLE_POD [lit "etc"]) as [Hp|Hp];
    [decide_now|decide_now|exact Hne| |]; exfalso; destruct Hp as [k Hk]; vm_compute in Hk; discriminate Hk.
Defined.

Lemma extraction_escapes_witness :
  exists f', untar_to_local (escaping (lit "authorized_keys") (lit "k")) [lit "w"] EXAMPLE_POD = (f', Ok tt) /\
    f' !! [lit "authorized_keys"] = Some (File (lit "k")).
Proof.
  apply (extraction_escapes [] (lit "w") (lit "authorized_keys") (lit "k") EXAMPLE_POD).
  - decide_now.
  - decide_now.
  - intros q [Hq| ->]%(prefix_snoc_cases q [] (lit "w")); [apply prefix_nil_inv in Hq as ->|]; vm_compute; reflexivity.
  - vm_compute. reflexivity.
  - intros E. vm_compute in E. discriminate E.
Defined.

Lemma bind_mounts_uploaded_witness :
  exists pod', upload_bind_mounts EXAMPLE_HOST [mkBindSource (lit "/a") (lit "/mnt/data")] EXAMPLE_POD = (pod', Ok tt) /\
    pod' !! [lit "mnt"; lit "data"; lit "f"] = Some (File (lit "1")).
Proof.
  destruct (bind_mounts_uploaded EXAMPLE_HOST [mkBindSource (lit "/a") (lit "/mnt/data")] EXAMPLE_POD) as (pod' & E & Hin & _).
  - apply example_wf.
  - vm_compute. reflexivity.
  - apply Forall_singleton. split_and!; [decide_now|vm_compute; reflexivity|vm_compute; reflexivity|decide_now|].
    apply no_conflict_fresh. decide_now.
  - repeat constructor.
  - exists pod'. split; [exact E|]. apply (Hin (mkBindSource (lit "/a") (lit "/mnt/data")) [lit "f"]); [by left|]. vm_compute. reflexivity.
Defined.

Lemma bind_file_nested_witness :
  exists pod', upload_bind_mounts EXAMPLE_HOST [mkBindSource (lit "/a/f") (lit "/etc/f.conf")] EXAMPLE_POD = (pod', Ok tt) /\
    pod' !! [lit "etc"; lit "f.conf"] = Some Dir.
Proof.
  destruct (bind_file_nested EXAMPLE_HOST (mkBindSource (lit "/a/f") (lit "/etc/f.conf")) EXAMPLE_POD (lit "1") (lit "f")) as (pod' & E & Hd & _).
  - vm_compute. reflexivity.
  - apply example_wf.
  - decide_now.
  - vm_compute. reflexivity.
  - vm_compute. reflexivity.
  - decide_now.
  - vm_compute. reflexivity.
  - rewrite <- (app_nil_r (_ ++ _)). apply (no_conflict_fresh {[ [] := File (lit "1") ]} []); [decide_now|vm_compute; reflexivity].
  - exists pod'. split; [exact E|]. exact Hd.
Defined.
