(* ===== verification/Merge.v ===== *)
(** * Merging a pod's work into the host (merge.rs)

    [rumpel merge] brings the primary branch of a pod into the checked-out branch of the host
    and stops the pod.  The commands of git are a parameter; the class [MergeGit] states what
    is relied on. *)
From stdpp Require Import gmap.
From S2P Require Import Prelude Strs PodNames PodGit.

(** ** Data *)

Inductive DescriptionMode := Auto | Required | Off.

#[export] Instance DescriptionMode_eq_dec : EqDecision DescriptionMode.
Proof. solve_decision. Defined.

Record MergeConfig := mkMergeConfig {
  description : DescriptionMode;
  description_file : option str;
}.

Definition description_file_path (c : MergeConfig) : option str :=
  match description c with
  | Off => None
  | _ => Some (default (lit "DESCRIPTION") (description_file c))
  end.

Record Description := mkDescription { d_content : str; d_path : str }.

#[export] Instance Description_eq_dec : EqDecision Description.
Proof. solve_decision. Defined.

Record MergeCommand := mkMergeCommand {
  mc_name : str;
  mc_description_file : option str;
  mc_no_description_file : bool;
  mc_git_args : list str;
}.

(** ** Operations *)

Section Merge.
  Context {G : Type}.
  Variable git : list str -> G -> G * option git_output.

(** The repository, and the requests to stop the pod. *)
Abbreviation world := (G * list str)%type.

(** A command that only reads the repository; [None] when it cannot be started. *)
Definition query (args : list str) (g : G) : option git_output := (git args g).2.

Definition read_file_from_ref (g : G) (git_ref p : str) : result str (option str) :=
  match query [lit "show"; git_ref ++ [c_colon] ++ p] g with
  | None => Err (lit "failed to read file from git ref")
  | Some o =>
      if negb (ran_ok o) then Ok None
      else
        contents ← context (lit "description file is not valid UTF-8") (go_stdout o);
        let trimmed := trim_end contents in
        Ok (if bool_decide (trimmed = []) then None else Some trimmed)
  end.

Definition file_exists_in_ref (g : G) (git_ref p : str) : result str bool :=
  match query [lit "cat-file"; lit "-e"; git_ref ++ [c_colon] ++ p] g with
  | None => Err (lit "failed to check file in git ref")
  | Some o => Ok (ran_ok o)
  end.

Definition require (missing p : str) (found : option str) : result str (option Description) :=
  match found with Some content => Ok (Some (mkDescription content p)) | None => Err missing end.

Definition resolve_description (g : G) (pod_ref : str) (mode : DescriptionMode) (config_path cli_file : option str)
    (cli_no_file : bool) : result str (option Description) :=
  if cli_no_file then Ok None
  else
    match cli_file with
    | Some p => found ← read_file_from_ref g pod_ref p; require (lit "description file not found on pod branch") p found
    | None =>
        match config_path with
        | None => Ok None
        | Some p =>
            match mode with
            | Off => Ok None
            | Auto => found ← read_file_from_ref g pod_ref p; Ok (option_map (fun content => mkDescription content p) found)
            | Required =>
                found ← read_file_from_ref g pod_ref p;
                require (lit "description file not found on pod branch (required by config)") p found
            end
        end
    end.

(** A command that changes the repository, checked for success. *)
Definition run (args : list str) (failed : str) (w : world) : world * result str unit :=
  let '(g, o) := git args w.1 in
  ((g, w.2), match o with Some o => if ran_ok o then Ok tt else Err failed | None => Err failed end).

Definition remove_description_file (p : str) (w : world) : world * result str unit :=
  match file_exists_in_ref w.1 (lit "HEAD") p with
  | Err e => (w, Err e)
  | Ok false => (w, Ok tt)
  | Ok true =>
      match run [lit "rm"; p] (lit "git rm failed") w with
      | (w, Ok _) => run [lit "commit"; lit "--amend"; lit "--no-edit"] (lit "failed to amend merge commit") w
      | (w, Err e) => (w, Err e)
      end
  end.

(** [client.stop_pod]: the request is made, and may fail. *)
Definition request_stop (stop : result str unit) (name : str) (w : world) : world * result str unit :=
  match Protocol.PodName_new name with
  | Ok _ => ((w.1, w.2 ++ [name]), stop)
  | Err e => (w, Err e)
  end.

Definition pod_ref_of (name : str) : str := lit "refs/rumpelpod/" ++ name.

Definition merge_options (cmd : MergeCommand) (desc : option Description) : list str :=
  match desc with
  | Some d =>
      (if bool_decide (lit "--no-ff" ∈ mc_git_args cmd) then [] else [lit "--no-ff"]) ++ [lit "-m"; d_content d]
  | None => [lit "--edit"]
  end ++ mc_git_args cmd.

(** [merge]: [pods] are the pods of the repository, [dirty] is the state of the pod after it
    was launched, [stop] is how stopping it goes. *)
Definition merge (config : MergeConfig) (pods : result str (list str)) (dirty : result str bool) (stop : result str unit)
    (cmd : MergeCommand) (w : world) : world * result str unit :=
  let name := mc_name cmd in
  let pod_ref := pod_ref_of name in
  match pods with
  | Err e => (w, Err e)
  | Ok pods =>
      if negb (bool_decide (name ∈ pods)) then (w, Err (lit "pod not found"))
      else
        match query [lit "rev-parse"; lit "--verify"; pod_ref] w.1 with
        | None => (w, Err (lit "failed to check pod ref"))
        | Some o =>
            if negb (ran_ok o) then (w, Err (lit "pod ref not found in host repository (pod has no commits yet)"))
            else
              match dirty with
              | Err e => (w, Err e)
              | Ok _ =>
                  match query [lit "merge-base"; lit "--is-ancestor"; pod_ref; lit "HEAD"] w.1 with
                  | None => (w, Err (lit "failed to run merge-base --is-ancestor"))
                  | Some o =>
                      if ran_ok o then request_stop stop name w
                      else
                        match resolve_description w.1 pod_ref (description config) (description_file_path config)
                                (mc_description_file cmd) (mc_no_description_file cmd) with
                        | Err e => (w, Err e)
                        | Ok desc =>
                            match query [lit "merge-tree"; lit "HEAD"; pod_ref] w.1 with
                            | None => (w, Err (lit "failed to run git merge-tree"))
                            | Some o =>
                                if negb (ran_ok o) then (w, Err (lit "merge would produce conflicts, aborting without changing the working tree"))
                                else
                                  match run ([lit "merge"] ++ merge_options cmd desc ++ [pod_ref]) (lit "git merge exited with status") w with
                                  | (w, Err e) => (w, Err e)
                                  | (w, Ok _) =>
                                      match (match desc with Some d => remove_description_file (d_path d) w | None => (w, Ok tt) end) with
                                      | (w, Err e) => (w, Err e)
                                      | (w, Ok _) => request_stop stop name w
                                      end
                                  end
                            end
                        end
                  end
              end
        end
  end.
End Merge.

(** ** What is relied on *)

(** A commit is [integrated] when it can be reached from HEAD and [inherited] when it can be
    reached from a parent of HEAD; [harmless] are options of the user that leave it at a merge
    commit, or at a fast-forward where one is allowed. *)
Class MergeGit {G : Type} (git : list str -> G -> G * option git_output) := {
  integrated : G -> str -> Prop;
  inherited : G -> str -> Prop;
  harmless : list str -> Prop;
  inherited_integrated g r : inherited g r -> integrated g r;
  is_ancestor g r o o' : query git [lit "rev-parse"; lit "--verify"; r] g = Some o -> ran_ok o = true ->
    query git [lit "merge-base"; lit "--is-ancestor"; r; lit "HEAD"] g = Some o' -> (ran_ok o' = true <-> integrated g r);
  merge_commit g r before after m g' o : harmless after -> lit "--no-ff" ∈ before ++ after ->
    ~ integrated g r -> git ([lit "merge"] ++ (before ++ [lit "-m"; m] ++ after) ++ [r]) g = (g', Some o) -> ran_ok o = true -> inherited g' r;
  merge_edit g r after g' o : harmless after ->
    git ([lit "merge"] ++ ([lit "--edit"] ++ after) ++ [r]) g = (g', Some o) -> ran_ok o = true -> integrated g' r;
  rm_inherited g r p : inherited g r -> inherited (git [lit "rm"; p] g).1 r;
  amend_inherited g r : inherited g r -> inherited (git [lit "commit"; lit "--amend"; lit "--no-edit"] g).1 r;
}.

(** ** Theorems *)

Section Theorems.
  Context {G : Type} (git : list str -> G -> G * option git_output).

(** The part of [merge] after its checks. *)
Definition perform (stop : result str unit) (cmd : MergeCommand) (desc : option Description) (w : G * list str) :=
  match run git ([lit "merge"] ++ merge_options cmd desc ++ [pod_ref_of (mc_name cmd)]) (lit "git merge exited with status") w with
  | (w, Err e) => (w, Err e)
  | (w, Ok _) =>
      match (match desc with Some d => remove_description_file git (d_path d) w | None => (w, Ok tt) end) with
      | (w, Err e) => (w, Err e)
      | (w, Ok _) => request_stop stop (mc_name cmd) w
      end
  end.

(** How [merge] ends: refused, with nothing to merge, or performed. *)
Inductive outcome (config : MergeConfig) (stop : result str unit) (cmd : MergeCommand) (w : G * list str)
    : (G * list str) * result str unit -> Prop :=
| outcome_refused e : outcome config stop cmd w (w, Err e)
| outcome_nothing o o' :
    query git [lit "rev-parse"; lit "--verify"; pod_ref_of (mc_name cmd)] w.1 = Some o -> ran_ok o = true ->
    query git [lit "merge-base"; lit "--is-ancestor"; pod_ref_of (mc_name cmd); lit "HEAD"] w.1 = Some o' -> ran_ok o' = true ->
    outcome config stop cmd w (request_stop stop (mc_name cmd) w)
| outcome_performed o o' o'' desc :
    query git [lit "rev-parse"; lit "--verify"; pod_ref_of (mc_name cmd)] w.1 = Some o -> ran_ok o = true ->
    query git [lit "merge-base"; lit "--is-ancestor"; pod_ref_of (mc_name cmd); lit "HEAD"] w.1 = Some o' -> ran_ok o' = false ->
    resolve_description git w.1 (pod_ref_of (mc_name cmd)) (description config) (description_file_path config)
      (mc_description_file cmd) (mc_no_description_file cmd) = Ok desc ->
    query git [lit "merge-tree"; lit "HEAD"; pod_ref_of (mc_name cmd)] w.1 = Some o'' -> ran_ok o'' = true ->
    outcome config stop cmd w (perform stop cmd desc w).

Lemma merge_outcome config pods dirty stop cmd w : outcome config stop cmd w (merge git config pods dirty stop cmd w).
Proof.
  unfold merge. destruct pods as [pods|e]; [|apply outcome_refused]. destruct (negb _); [apply outcome_refused|].
  destruct (query git [lit "rev-parse"; _; _] w.1) as [o|] eqn:E1; [|apply outcome_refused].
  destruct (ran_ok o) eqn:H1; [|apply outcome_refused]. cbn [negb]. destruct dirty as [d|e]; [|apply outcome_refused].
  destruct (query git [lit "merge-base"; _; _; _] w.1) as [o'|] eqn:E2; [|apply outcome_refused].
  destruct (ran_ok o') eqn:H2; [by eapply outcome_nothing|].
  destruct (resolve_description _ _ _ _ _ _ _) as [desc|e] eqn:Ed; [|apply outcome_refused].
  destruct (query git [lit "merge-tree"; _; _] w.1) as [o''|] eqn:E3; [|apply outcome_refused].
  destruct (ran_ok o'') eqn:H3; [|apply outcome_refused]. cbn [negb].
  eapply (outcome_performed config stop cmd w o o' o'' desc); done.
Qed.

Lemma request_stop_stops stop name (w : G * list str) : (request_stop stop name w).1 = w \/ (request_stop stop name w).1 = (w.1, w.2 ++ [name]).
Proof. unfold request_stop. destruct (Protocol.PodName_new name); [by right|by left]. Qed.

(** Every check comes before the first change.  When anything changes, either the work of
    the pod was in the host's branch already and only the pod is stopped, or the description
    that the configuration asks for was found and the merge was known to be clean: a conflict,
    an unknown pod, a pod without commits or a missing description change nothing. *)
Theorem merge_checks_first config pods dirty stop cmd w :
  (merge git config pods dirty stop cmd w).1 <> w ->
  (merge git config pods dirty stop cmd w).1 = (w.1, w.2 ++ [mc_name cmd]) \/
  exists desc o, resolve_description git w.1 (pod_ref_of (mc_name cmd)) (description config) (description_file_path config)
      (mc_description_file cmd) (mc_no_description_file cmd) = Ok desc /\
    (description config = Required -> mc_no_description_file cmd = false -> is_Some desc) /\
    query git [lit "merge-tree"; lit "HEAD"; pod_ref_of (mc_name cmd)] w.1 = Some o /\ ran_ok o = true.
Proof.
  destruct (merge_outcome config pods dirty stop cmd w) as [e|o o' E1 H1 E2 H2|o o' o'' desc E1 H1 E2 H2 Ed E3 H3]; intros Hne.
  - done.
  - left. by destruct (request_stop_stops stop (mc_name cmd) w).
  - right. exists desc, o''. split_and!; [done| |done..]. intros Hr Hn. revert Ed. unfold resolve_description. rewrite Hn, Hr.
    unfold description_file_path. rewrite Hr. unfold require.
    destruct (mc_description_file cmd); destruct (read_file_from_ref _ _ _ _) as [[content|]|]; cbn; try done; by intros [= <-].
Qed.

Context {M : MergeGit git}.

Lemma run_Ok args failed (w w' : G * list str) : run git args failed w = (w', Ok tt) ->
  exists o, git args w.1 = (w'.1, Some o) /\ ran_ok o = true /\ w'.2 = w.2.
Proof.
  unfold run. destruct (git args w.1) as [g [o|]]; [|done]. destruct (ran_ok o) eqn:E; [|done]. intros [= <-]. by exists o.
Qed.

Lemma run_state args failed w : (run git args failed w).1 = ((git args w.1).1, w.2).
Proof. unfold run. by destruct (git args w.1). Qed.

Lemma remove_inherited p r w : inherited w.1 r ->
  inherited (remove_description_file git p w).1.1 r /\ (remove_description_file git p w).1.2 = w.2.
Proof.
  intros Hi. unfold remove_description_file. destruct (file_exists_in_ref _ _ _ _) as [[]|e]; [|done..].
  pose proof (run_state [lit "rm"; p] (lit "git rm failed") w) as Hs.
  destruct (run git [lit "rm"; p] (lit "git rm failed") w) as [w1 [[]|e]]; cbn [fst] in *; subst w1.
  - rewrite run_state. cbn. split; [|done]. by apply amend_inherited, rm_inherited.
  - cbn. split; [by apply rm_inherited|done].
Qed.

Lemma perform_integrates stop cmd desc w : harmless (mc_git_args cmd) -> ~ integrated w.1 (pod_ref_of (mc_name cmd)) -> w.2 = [] ->
  (perform stop cmd desc w).1.2 = [] \/
  (perform stop cmd desc w).1.2 = [mc_name cmd] /\ integrated (perform stop cmd desc w).1.1 (pod_ref_of (mc_name cmd)).
Proof.
  intros Hh Hn Hw. unfold perform. set (r := pod_ref_of (mc_name cmd)) in *.
  destruct (run git _ _ w) as [w1 [[]|e]] eqn:Er; cbn [fst].
  2: { left. rewrite <- Hw. pose proof (f_equal fst Er) as E. rewrite run_state in E. cbn [fst] in E. by rewrite <- E. }
  apply run_Ok in Er as (o & Eg & Ho & E2). rewrite Hw in E2. destruct desc as [d|].
  - assert (inherited w1.1 r) as Hi.
    { eapply (merge_commit w.1 r (if bool_decide (lit "--no-ff" ∈ mc_git_args cmd) then [] else [lit "--no-ff"])
                (mc_git_args cmd) (d_content d)); [done| |done| |done].
      - case_bool_decide; [done|by left].
      - rewrite <- Eg. unfold merge_options. by rewrite <- !app_assoc. }
    destruct (remove_inherited (d_path d) r w1 Hi) as [Hi2 Hs].
    destruct (remove_description_file git (d_path d) w1) as [w2 [[]|e]]; cbn [fst] in *; [|left; congruence].
    destruct (request_stop_stops stop (mc_name cmd) w2) as [-> | ->]; [left; congruence|]. right. cbn. rewrite Hs, E2.
    split; [done|by apply inherited_integrated].
  - assert (integrated w1.1 r) as Hi by (by eapply (merge_edit w.1 r (mc_git_args cmd))).
    destruct (request_stop_stops stop (mc_name cmd) w1) as [-> | ->]; [by left|]. right. cbn. by rewrite E2.
Qed.

End Theorems.

(** ** Witnesses *)

(** A git with one other branch: whether it is merged, and whether HEAD is past it. *)
Definition OK0 : option git_output := Some (mkGitOutput (Some 0%Z) (Some []) []).
Definition NOT_FOUND : option git_output := Some (mkGitOutput (Some 1%Z) (Some []) []).

Definition one_branch (args : list str) (merged : bool) : bool * option git_output :=
  if bool_decide (head args = Some (lit "merge")) then (true, OK0)
  else if bool_decide (head args = Some (lit "merge-base")) then (merged, if merged then OK0 else NOT_FOUND)
  else if bool_decide (head args = Some (lit "show")) then (merged, NOT_FOUND)
  else (merged, OK0).

#[refine] Instance one_branch_git : MergeGit one_branch :=
  { integrated g r := g = true; inherited g r := g = true; harmless opts := opts = [] }.
Proof.
  - done.
  - intros g r o o' _ _. unfold query, one_branch. cbn. destruct g; intros [= <-]; vm_compute; done.
  - intros g r before after m g' o _ _ _. unfold one_branch. cbn. by intros [= <- _].
  - intros g r after g' o _. unfold one_branch. cbn. by intros [= <- _].
  - intros g r p ->. reflexivity.
  - intros g r ->. reflexivity.
Defined.

Definition EXAMPLE_MERGE : MergeCommand := mkMergeCommand (lit "dev") None false [].

Lemma merge_checks_first_witness :
  exists desc o, resolve_description one_branch false (pod_ref_of (lit "dev")) Auto (Some (lit "DESCRIPTION")) None false = Ok desc /\
    query one_branch [lit "merge-tree"; lit "HEAD"; pod_ref_of (lit "dev")] false = Some o.
Proof.
  destruct (merge_checks_first one_branch (mkMergeConfig Auto None) (Ok [lit "dev"]) (Ok false) (Ok tt) EXAMPLE_MERGE (false, []))
    as [E|(desc & o & E1 & _ & E2 & _)].
  - intros E. vm_compute in E. discriminate E.
  - vm_compute in E. discriminate E.
  - exists desc, o. split; [exact E1|exact E2].
Defined.

