(* ===== verification/Fork.v ===== *)
(** * Forking a pod (daemon.rs [fork_pod_impl], pod/server.rs [build_state_response])

    A fork is a new pod with the branches, the uncommitted changes and the agent state of an
    existing one.  The daemon asks the source for its state, plans the branches of the fork,
    launches it and restores the rest.  The branches travel through the host: the source pushes
    them, and the fork fetches them as [source-pod/<branch>]. *)
From stdpp Require Import gmap.
From S2P Require Import Prelude Strs PodNames Access Db PodConn Hooks PodGit GitSetup.

(** ** The state of the source *)

Record BranchInfo := mkBranchInfo { bi_name : str; bi_sha : str; bi_upstream : option str }.

#[export] Instance BranchInfo_eq_dec : EqDecision BranchInfo.
Proof. solve_decision. Defined.

Record StateResponse := mkState {
  st_branches : list BranchInfo;
  st_primary : str;
  st_claude : bool;
  st_codex : bool;
  st_pi : bool;
  st_grok : bool;
  st_dirty : bool;
  st_remotes : list GitRemote;
  st_description_file : option str;
}.

(** One line of the listing of the branches. *)
Definition branch_line (line : str) : option BranchInfo :=
  let parts := split 0%N line in
  let name := default [] (parts !! 0) in
  let sha := default [] (parts !! 1) in
  let upstream_raw := default [] (parts !! 2) in
  if bool_decide (name = []) || bool_decide (sha = []) then None
  else Some (mkBranchInfo name sha (if bool_decide (upstream_raw = []) then None else Some upstream_raw)).

Definition LIST_BRANCHES : list str :=
  [lit "for-each-ref"; lit "for-each-ref"; lit "refs/heads/"; lit "--format=%(refname:short)%00%(objectname)%00%(upstream:short)"].

Section State.
  Variable git : list str -> option git_output.

(** [Command::success], then the text of its output *)
Definition text_of (args : list str) (what : str) : result str str :=
  match git args with
  | Some o => if ran_ok o then context what (go_stdout o) else Err what
  | None => Err what
  end.

(** [exists_in_home] is whether a path exists in the home directory, [remotes] are those of the
    repository. *)
Definition build_state_response (exists_in_home : str -> bool) (remotes : result str (list GitRemote)) : result str StateResponse :=
  branches_text ← text_of LIST_BRANCHES (lit "listing local branches");
  primary ← text_of [lit "config"; lit "rumpelpod.pod-name"] (lit "reading rumpelpod.pod-name");
  dirty_out ← text_of [lit "status"; lit "--porcelain"] (lit "git status --porcelain");
  description ← text_of [lit "config"; lit "--get"; lit "rumpelpod.description-file"] (lit "reading description policy for fork");
  let description := default description (strip_suffix [c_nl] description) in
  remotes ← remotes;
  Ok (mkState (omap branch_line (lines branches_text)) (trim primary)
        (exists_in_home (lit ".claude") || exists_in_home (lit ".claude.json")) (exists_in_home (lit ".codex"))
        (exists_in_home (lit ".pi")) (exists_in_home (lit ".grok"))
        (negb (bool_decide (dirty_out = []))) remotes
        (if bool_decide (description = []) then None else Some description)).
End State.

(** ** The plan *)

Definition fork_branch (st : StateResponse) (new_name : str) (branch_set : gset str) (b : BranchInfo) : GitSetupBranch :=
  mkBranch (if bool_decide (bi_name b = st_primary st) then new_name else bi_name b)
    (lit "source-pod/" ++ bi_name b)
    (rewrite_upstream (bi_upstream b) (st_primary st) new_name branch_set).

Definition fork_branches (st : StateResponse) (new_name : str) : list GitSetupBranch :=
  map (fork_branch st new_name (list_to_set (map bi_name (st_branches st)))) (st_branches st).

Record GitSetupParams := mkParams {
  gp_branches : list GitSetupBranch;
  gp_primary : str;
  gp_extra_host_fetch : list str;
  gp_remotes : list GitRemote;
  gp_description_file : option str;
}.

Definition fork_git_setup (st : StateResponse) (source new_name : str) : GitSetupParams :=
  mkParams (fork_branches st new_name) new_name
    [lit "+refs/rumpelpod/*@" ++ source ++ lit ":refs/remotes/source-pod/*"] (st_remotes st) (st_description_file st).

(** [cli::validate_pod_name] *)
Definition pod_name_char (c : char) : bool :=
  is_ascii_alphanumeric c || bool_decide (c = c_hyphen) || bool_decide (c = 95%N) || bool_decide (c = c_dot).

Definition validate_pod_name (name : str) : result str str :=
  if bool_decide (name = []) then Err (lit "pod name must not be empty")
  else if negb (forallb pod_name_char name) then Err (lit "invalid character in pod name")
  else Ok name.

(** ** [fork_pod_impl] *)

Inductive ForkEvent :=
| Pushed                              (* the source pushed its branches *)
| Launched (setup : GitSetupParams)
| Disconnected                        (* the connection of the new pod was removed *)
| Uploaded (agent : str) (files : list N)
| Patched (patch : list N)
| Marked.                             (* the copy of the agent's configuration was recorded *)

(** What the database, the connections and the two pods answer. *)
Record ForkEnv := mkForkEnv {
  fe_source_status : option PodStatus;
  fe_new_exists : bool;
  fe_host : result str unit;
  fe_claude : option ClaudeState;
  fe_codex : option CodexState;
  fe_endpoint : option str;
  fe_connect : result str unit;
  fe_push : result str unit;
  fe_state : result str StateResponse;
  fe_container_env : result str unit;
  fe_patch : result str (list N);
  fe_agent_files : str -> result str (option (list N));
  fe_local_env : result str unit;
  fe_configure : result str unit;
  fe_launch : GitSetupParams -> result str unit;
  fe_connect_new : result str unit;
  fe_put : str -> list N -> result str unit;
  fe_apply : list N -> result str unit;
  fe_copied : result str bool;
  fe_new_record : result str unit;
  fe_mark : result str unit;
}.

(** A result with the events before it. *)
Definition logged (A : Type) : Type := list ForkEvent * result str A.

Definition log_bind {A B} (m : logged A) (k : A -> logged B) : logged B :=
  match m with
  | (evs, Ok a) => let '(evs', r) := k a in (evs ++ evs', r)
  | (evs, Err e) => (evs, Err e)
  end.

Notation "'do' x <- m ; k" := (log_bind m (fun x => k)) (at level 100, x pattern, right associativity).

Definition step {A} (r : result str A) : logged A := ([], r).
Definition event {A} (ev : ForkEvent) (r : result str A) : logged A := (match r with Ok _ => [ev] | Err _ => [] end, r).

Definition snapshot_agent (env : ForkEnv) (has : bool) (agent : str) : logged (list (str * list N)) :=
  if has then
    do files <- step (fe_agent_files env agent);
    step (Ok (match files with Some buf => [(agent, buf)] | None => [] end))
  else step (Ok []).

Fixpoint upload_agents (env : ForkEnv) (buffers : list (str * list N)) : logged unit :=
  match buffers with
  | [] => step (Ok tt)
  | (agent, buf) :: buffers => do _ <- event (Uploaded agent buf) (fe_put env agent buf); upload_agents env buffers
  end.

Definition processing (env : ForkEnv) : bool :=
  bool_decide (fe_claude env = Some ClaudeProcessing) || bool_decide (fe_codex env = Some CodexProcessing).

Definition admit_fork (env : ForkEnv) (source new_name : str) (allow_processing : bool) : result str unit :=
  _ ← validate_pod_name new_name;
  status ← context (lit "source pod does not exist") (fe_source_status env);
  if bool_decide (source = new_name) then Err (lit "source and new name must differ")
  else if fe_new_exists env then Err (lit "pod already exists")
  else if negb (bool_decide (status = Ready)) then Err (lit "source pod is not running")
  else
    _ ← fe_host env;
    if processing env && negb allow_processing then Err (lit "source pod is processing")
    else
      _ ← context (lit "source pod has no live exec proxy") (fe_endpoint env);
      fe_connect env.

Definition dirty_patch (env : ForkEnv) (st : StateResponse) : logged (option (list N)) :=
  if st_dirty st then
    do p <- step (fe_patch env);
    step (Ok (if bool_decide (p = []) then None else Some p))
  else step (Ok None).

(** Launching the fork; a failure removes the connection that was prepared for it. *)
Definition launch_fork (env : ForkEnv) (setup : GitSetupParams) : logged unit :=
  match fe_launch env setup with
  | Ok _ => ([Launched setup], Ok tt)
  | Err e => ([Disconnected], Err e)
  end.

Definition fork_pod_impl (env : ForkEnv) (source new_name : str) (allow_processing : bool) : logged unit :=
  do _ <- step (admit_fork env source new_name allow_processing);
  do _ <- event Pushed (fe_push env);
  do st <- step (fe_state env);
  do _ <- step (fe_container_env env);
  do patch <- dirty_patch env st;
  do claude <- snapshot_agent env (st_claude st) (lit "claude");
  do codex <- snapshot_agent env (st_codex st) (lit "codex");
  do pi <- snapshot_agent env (st_pi st) (lit "pi");
  do grok <- snapshot_agent env (st_grok st) (lit "grok");
  let buffers := claude ++ codex ++ pi ++ grok in
  do _ <- step (fe_local_env env);
  do _ <- step (fe_configure env);
  do _ <- launch_fork env (fork_git_setup st source new_name);
  do _ <- step (fe_connect_new env);
  do _ <- upload_agents env buffers;
  do _ <- (match patch with Some p => event (Patched p) (fe_apply env p) | None => step (Ok tt) end);
  do copied <- step (fe_copied env);
  if bool_decide (buffers = []) then step (Ok tt)
  else
    do _ <- step (fe_new_record env);
    if copied && bool_decide (lit "claude" ∈ buffers.*1) then event Marked (fe_mark env) else step (Ok tt).

(** ** The state that is read is the state of the source *)

(** What git prints for a branch. *)
Definition print_branch (b : BranchInfo) : str :=
  bi_name b ++ [0%N] ++ bi_sha b ++ [0%N] ++ default [] (bi_upstream b).

Definition field_ok (s : str) : Prop := c_nl ∉ s /\ 0%N ∉ s /\ ends_with [c_cr] s = false.

#[export] Instance field_ok_dec s : Decision (field_ok s).
Proof. unfold field_ok. apply _. Defined.

Definition branch_ok (b : BranchInfo) : Prop :=
  bi_name b <> [] /\ bi_sha b <> [] /\ bi_upstream b <> Some [] /\
  field_ok (bi_name b) /\ field_ok (bi_sha b) /\ field_ok (default [] (bi_upstream b)).

#[export] Instance branch_ok_dec b : Decision (branch_ok b).
Proof. unfold branch_ok. apply _. Defined.

Lemma print_branch_line b : branch_ok b -> line_ok (print_branch b) /\ branch_line (print_branch b) = Some b.
Proof.
  destruct b as [name sha up]. intros (Hn & Hs & Hu & (Hn1 & Hn2 & Hn3) & (Hs1 & Hs2 & _) & (Hu1 & Hu2 & Hu3)).
  unfold print_branch. cbn [bi_name bi_sha bi_upstream] in *. set (u := default [] up) in *. split; [split|].
  - rewrite !not_elem_of_app. split_and!; [done|decide_now|done|decide_now|done].
  - apply not_true_is_false. intros [r E]%ends_with_true. destruct u as [|x u' _] using rev_ind.
    + rewrite app_nil_r, !app_assoc in E. by apply app_inj_tail in E as [_ [=]].
    + rewrite !app_assoc in E. apply app_inj_tail in E as [_ ->].
      assert (ends_with [c_cr] (u' ++ [c_cr]) = true) by (apply ends_with_true; by exists u'). congruence.
  - unfold branch_line. assert (split 0%N (name ++ [0%N] ++ sha ++ [0%N] ++ u) = [name; sha; u]) as ->.
    { cbn [app]. rewrite split_cons_sep, split_cons_sep by done. by rewrite split_free. }
    cbn [lookup list_lookup default from_option]. rewrite !bool_decide_false by done. cbn [orb]. f_equal. f_equal.
    unfold u. destruct up as [up|]; [|done]. cbn. by rewrite bool_decide_false by (by intros ->).
Qed.

Lemma text_printed git args what t : git args = printed t -> text_of git args what = Ok t.
Proof. intros Hg. unfold text_of. by rewrite Hg. Qed.

Lemma listed_branches bs : Forall branch_ok bs -> omap branch_line (lines (unlines (map print_branch bs))) = bs.
Proof.
  intros Hbs. rewrite lines_unlines by (apply Forall_map; eapply Forall_impl; [exact Hbs|]; intros b Hb; by apply print_branch_line).
  induction Hbs as [|b bs Hb _ IH]; [done|]. cbn [map omap list_omap]. rewrite (proj2 (print_branch_line b Hb)). by f_equal.
Qed.

(** The branches a fork starts from are the branches of the source: reading back the
    listing of git gives every local branch, with its commit and its upstream, in order. *)
Theorem state_branches_exact git exists_in_home remotes bs st :
  git LIST_BRANCHES = printed (unlines (map print_branch bs)) -> Forall branch_ok bs ->
  build_state_response git exists_in_home remotes = Ok st -> st_branches st = bs.
Proof.
  intros Hg Hbs. unfold build_state_response. rewrite (text_printed git LIST_BRANCHES _ _ Hg). cbn [mbind result_bind].
  rewrite listed_branches by done.
  destruct (text_of git [lit "config"; _] _) as [t1|]; [|done]. destruct (text_of git [lit "status"; _] _) as [t2|]; [|done].
  destruct (text_of git [lit "config"; _; _] _) as [t3|]; [|done]. destruct remotes as [rs|]; [|done]. cbn. by intros [= <-].
Qed.

(** ** The events of a fork *)

(** The files that are transferred for an agent. *)
Definition transferred (env : ForkEnv) (has : bool) (agent : str) : list (str * list N) :=
  if has then match fe_agent_files env agent with Ok (Some buf) => [(agent, buf)] | _ => [] end else [].

Definition all_transferred (env : ForkEnv) (st : StateResponse) : list (str * list N) :=
  transferred env (st_claude st) (lit "claude") ++ transferred env (st_codex st) (lit "codex") ++
  transferred env (st_pi st) (lit "pi") ++ transferred env (st_grok st) (lit "grok").

Lemma log_bind_Ok {A B} (m : logged A) (k : A -> logged B) log b : log_bind m k = (log, Ok b) ->
  exists l1 a l2, m = (l1, Ok a) /\ k a = (l2, Ok b) /\ log = l1 ++ l2.
Proof.
  destruct m as [l1 [a|e]]; cbn; [|done]. destruct (k a) as [l2 r] eqn:E. intros [= <- ->]. by exists l1, a, l2.
Qed.

Lemma step_Ok {A} (r : result str A) log a : step r = (log, Ok a) -> log = [] /\ r = Ok a.
Proof. unfold step. by intros [= <- ->]. Qed.

Lemma event_Ok {A} ev (r : result str A) log a : event ev r = (log, Ok a) -> log = [ev] /\ r = Ok a.
Proof. unfold event. destruct r; [|done]. by intros [= <- ->]. Qed.

Lemma snapshot_Ok env has agent log bufs : snapshot_agent env has agent = (log, Ok bufs) ->
  log = [] /\ bufs = transferred env has agent.
Proof.
  unfold snapshot_agent, transferred. destruct has; [|by intros [-> [= ->]]%step_Ok].
  intros (l1 & files & l2 & [-> ->]%step_Ok & [-> [= <-]]%step_Ok & ->)%log_bind_Ok. by destruct files.
Qed.

Lemma upload_Ok env bufs log : upload_agents env bufs = (log, Ok tt) -> log = map (fun ab => Uploaded ab.1 ab.2) bufs.
Proof.
  revert log. induction bufs as [|[agent buf] bufs IH]; intros log; cbn [upload_agents map fst snd]; [by intros [-> _]%step_Ok|].
  by intros (l1 & [] & l2 & [-> _]%event_Ok & ->%IH & ->)%log_bind_Ok.
Qed.

Lemma admit_Ok env source new_name allow : admit_fork env source new_name allow = Ok tt ->
  fe_source_status env = Some Ready /\ fe_new_exists env = false /\ source <> new_name /\ (processing env = true -> allow = true).
Proof.
  unfold admit_fork. destruct (validate_pod_name new_name); [|done]. destruct (fe_source_status env) as [status|]; [|done].
  cbn [mbind result_bind context]. case_bool_decide; [done|]. destruct (fe_new_exists env); [done|].
  destruct (bool_decide_reflect (status = Ready)) as [->|]; [|done]. cbn [negb]. destruct (fe_host env); [|done]. cbn [mbind result_bind].
  intros Hr. split_and!; [done..|]. intros Hp. rewrite Hp in Hr. by destruct allow.
Qed.

Lemma dirty_patch_Ok env st log patch : dirty_patch env st = (log, Ok patch) ->
  log = [] /\ if st_dirty st then exists p, fe_patch env = Ok p /\ patch = (if bool_decide (p = []) then None else Some p) else patch = None.
Proof.
  unfold dirty_patch. destruct (st_dirty st); [|by intros [-> [= ->]]%step_Ok].
  intros (? & p & ? & [-> ->]%step_Ok & [-> [= <-]]%step_Ok & ->)%log_bind_Ok. split; [done|]. by exists p.
Qed.

Lemma launch_Ok env setup log : launch_fork env setup = (log, Ok tt) -> log = [Launched setup].
Proof. unfold launch_fork. destruct (fe_launch env setup); [|done]. by intros [= <-]. Qed.

Definition patch_events (patch : option (list N)) : list ForkEvent := match patch with Some p => [Patched p] | None => [] end.

Lemma patched_Ok env patch log :
  match patch with Some p => event (Patched p) (fe_apply env p) | None => step (Ok tt) end = (log, Ok tt) -> log = patch_events patch.
Proof. destruct patch; [by intros [-> _]%event_Ok|by intros [-> _]%step_Ok]. Qed.

(** A fork that succeeds is complete.  Its source was running, under another name, and not
    in the middle of a turn unless that was allowed; the source pushed its branches before the
    fork was launched with their plan, and after the launch the files of every agent the source
    has state of and then the uncommitted changes were transferred, and nothing else. *)
Theorem fork_complete env source new_name allow log :
  fork_pod_impl env source new_name allow = (log, Ok tt) ->
  fe_source_status env = Some Ready /\ fe_new_exists env = false /\ source <> new_name /\
  (processing env = true -> allow = true) /\
  exists st, fe_state env = Ok st /\
    exists patched marked, log = [Pushed; Launched (fork_git_setup st source new_name)] ++
      map (fun ab => Uploaded ab.1 ab.2) (all_transferred env st) ++ patched ++ marked /\
    (if st_dirty st then exists p, fe_patch env = Ok p /\ patched = (if bool_decide (p = []) then [] else [Patched p])
     else patched = []) /\
    (marked = [] \/ marked = [Marked] /\ fe_copied env = Ok true /\ lit "claude" ∈ (all_transferred env st).*1).
Proof.
  unfold fork_pod_impl. intros (? & [] & l1 & [-> Ha]%step_Ok & H1 & ->)%log_bind_Ok.
  apply log_bind_Ok in H1 as (? & [] & l2 & [-> _]%event_Ok & H1 & ->).
  apply log_bind_Ok in H1 as (? & st & l3 & [-> Hst]%step_Ok & H1 & ->).
  apply log_bind_Ok in H1 as (? & [] & l4 & [-> _]%step_Ok & H1 & ->).
  apply log_bind_Ok in H1 as (? & patch & l5 & [-> Hpatch]%dirty_patch_Ok & H1 & ->).
  apply log_bind_Ok in H1 as (? & b1 & l6 & [-> ->]%snapshot_Ok & H1 & ->).
  apply log_bind_Ok in H1 as (? & b2 & l7 & [-> ->]%snapshot_Ok & H1 & ->).
  apply log_bind_Ok in H1 as (? & b3 & l8 & [-> ->]%snapshot_Ok & H1 & ->).
  apply log_bind_Ok in H1 as (? & b4 & l9 & [-> ->]%snapshot_Ok & H1 & ->).
  cbv zeta in H1. fold (all_transferred env st) in H1.
  apply log_bind_Ok in H1 as (? & [] & l10 & [-> _]%step_Ok & H1 & ->).
  apply log_bind_Ok in H1 as (? & [] & l11 & [-> _]%step_Ok & H1 & ->).
  apply log_bind_Ok in H1 as (? & [] & l12 & ->%launch_Ok & H1 & ->).
  apply log_bind_Ok in H1 as (? & [] & l13 & [-> _]%step_Ok & H1 & ->).
  apply log_bind_Ok in H1 as (? & [] & l14 & ->%upload_Ok & H1 & ->).
  apply log_bind_Ok in H1 as (? & [] & l15 & ->%patched_Ok & H1 & ->).
  apply log_bind_Ok in H1 as (? & copied & l16 & [-> Hc]%step_Ok & H1 & ->).
  apply admit_Ok in Ha as (Hs & Hn & Hd & Hpr). split_and!; [done..|]. exists st. split; [done|].
  exists (patch_events patch), l16. split_and!; [done| |].
  - destruct (st_dirty st); [|by subst patch]. destruct Hpatch as (p & Hp & ->). exists p. split; [done|]. by destruct (bool_decide (p = [])).
  - case_bool_decide; [left; by apply step_Ok in H1 as [-> _]|].
    apply log_bind_Ok in H1 as (? & [] & l17 & [-> _]%step_Ok & H1 & ->). destruct copied; cbn [andb] in H1; [|left; by apply step_Ok in H1 as [-> _]].
    destruct (bool_decide_reflect (lit "claude" ∈ (all_transferred env st).*1)) as [Hin|];
      [right; by apply event_Ok in H1 as [-> _]|left; by apply step_Ok in H1 as [-> _]].
Qed.

(** ** The name of a fork *)

Lemma podid_label s id : Executor.PodId_new s = Ok id -> dns_label s.
Proof.
  unfold Executor.PodId_new. destruct (Executor.validate_dns_1123_label s) as [[]|] eqn:E; [|done]. intros _.
  apply NameTheorems.validate_iff. by rewrite <- NameTheorems.executor_agrees, E.
Qed.

Lemma trim_end_matches_elem x s c : c ∈ s -> c <> x -> c ∈ trim_end_matches x s.
Proof.
  intros Hc Hne. unfold trim_end_matches. destruct (trim_end_by_prefix (is_char x) s) as (d & Hd & Hp).
  rewrite Hd in Hc. apply elem_of_app in Hc as [|Hc]; [done|]. apply (proj1 (Forall_forall _ _) Hp) in Hc. unfold is_char in Hc.
  by apply bool_decide_unpack in Hc.
Qed.

(** A fork may be given a name the rest of the program cannot handle: a name with an upper
    case letter, an underscore or a dot among its first thirty characters passes the check that
    [fork_pod_impl] makes, and the identifier that is derived for the fork then panics. *)
Theorem fork_name_panics lib a c b repo_path :
  HashLaws lib -> Forall pod_name_char (a ++ c :: b) -> label_byte_ok c = false -> length a < 30 ->
  validate_pod_name (a ++ c :: b) = Ok (a ++ c :: b) /\
  Executor.pod_id_for lib (Protocol.mkPodName (a ++ c :: b)) repo_path = None.
Proof.
  intros Hlib Hv Hc Ha. split.
  { unfold validate_pod_name. rewrite bool_decide_false by (by destruct a).
    assert (forallb pod_name_char (a ++ c :: b) = true) as ->; [|done]. by apply Is_true_true, forallb_True. }
  unfold Executor.pod_id_for. destruct (PodIdTheorems.max_pod_eq lib repo_path) as [-> Hm]. cbn [mbind option_bind].
  destruct (Executor.PodId_new _) as [id|] eqn:E; [|done]. exfalso. apply podid_label in E as [_ _ Hch _ _].
  assert (c ∈ take (47 - length (Executor.basename_segment repo_path)) (a ++ c :: b)) as Hin.
  { rewrite take_app_ge by lia. apply elem_of_app. right.
    destruct (_ - length a) eqn:Ed; [lia|]. by left. }
  apply (trim_end_matches_elem c_hyphen) in Hin; [|by intros ->].
  rewrite !Forall_app in Hch. destruct Hch as (_ & _ & Hch & _). apply (proj1 (Forall_forall _ _) Hch) in Hin. by rewrite Hc in Hin.
Qed.

(** ** The branches of a fork *)

(** The commands of git that create branches: [branch_heads] are the local branches,
    [tracking] the remote-tracking ones, by short name. *)
Class BranchGit {G : Type} (git : list str -> G -> G * option git_output) := {
  branch_heads : G -> gmap (list N) (list N);
  tracking : G -> gmap (list N) (list N);
  checked_out : G -> option str;
  show_ref g n : git [lit "show-ref"; lit "--verify"; lit "--quiet"; lit "refs/heads/" ++ n] g =
    (g, if bool_decide (is_Some (branch_heads g !! n)) then printed [] else absent);
  branch_create g n base sha : branch_heads g !! n = None -> branch_heads g !! base = None -> tracking g !! base = Some sha ->
    exists g', git [lit "branch"; lit "--no-track"; n; base] g = (g', printed []) /\
      branch_heads g' = <[n := sha]> (branch_heads g) /\ tracking g' = tracking g /\ checked_out g' = checked_out g;
  branch_reset g n base sha : is_Some (branch_heads g !! n) -> branch_heads g !! base = None -> tracking g !! base = Some sha ->
    checked_out g <> Some n ->
    exists g', git [lit "branch"; lit "-f"; lit "--no-track"; n; base] g = (g', printed []) /\
      branch_heads g' = <[n := sha]> (branch_heads g) /\ tracking g' = tracking g /\ checked_out g' = checked_out g;
  upstream_set g u n : is_Some (branch_heads g !! n) -> is_Some (branch_heads g !! u) \/ is_Some (tracking g !! u) ->
    exists g', git [lit "branch"; lit "--set-upstream-to"; u; n] g = (g', printed []) /\
      branch_heads g' = branch_heads g /\ tracking g' = tracking g /\ checked_out g' = checked_out g;
  upstream_missing g u n : branch_heads g !! u = None -> tracking g !! u = None ->
    git [lit "branch"; lit "--set-upstream-to"; u; n] g = (g, failed 128);
}.

Section Branches.
  Context {G : Type} (git : list str -> G -> G * option git_output) {L : BranchGit git}.

Definition known (g : G) (u : str) : Prop := is_Some (branch_heads g !! u) \/ is_Some (tracking g !! u).

Lemma success_ok args (w : G * repo_hooks) g' t : git args w.1 = (g', printed t) -> success git args w = ((g', w.2), Ok t).
Proof. intros E. unfold success, output. by rewrite E. Qed.

(** The commands that put a branch in place, without its upstream. *)
Lemma branch_placed n base sha (w : G * repo_hooks) : branch_heads w.1 !! base = None -> tracking w.1 !! base = Some sha -> checked_out w.1 = None ->
  exists g', success git (if bool_decide (is_Some (branch_heads w.1 !! n))
                          then [lit "branch"; lit "-f"; lit "--no-track"; n; base]
                          else [lit "branch"; lit "--no-track"; n; base]) w = ((g', w.2), Ok []) /\
    branch_heads g' = <[n := sha]> (branch_heads w.1) /\ tracking g' = tracking w.1 /\ checked_out g' = None.
Proof.
  intros Hb Ht Hc. case_bool_decide as Hn.
  - destruct (branch_reset w.1 n base sha) as (g' & E & H1 & H2 & H3); [done..|by rewrite Hc|].
    exists g'. split_and!; [by apply success_ok|done|done|congruence].
  - destruct (branch_create w.1 n base sha) as (g' & E & H1 & H2 & H3); [by apply eq_None_not_Some|done..|].
    exists g'. split_and!; [by apply success_ok|done|done|congruence].
Qed.

Lemma attempt_show n (w : G * repo_hooks) :
  attempt git [lit "show-ref"; lit "--verify"; lit "--quiet"; lit "refs/heads/" ++ n] w =
  (w, Ok (bool_decide (is_Some (branch_heads w.1 !! n)))).
Proof.
  unfold attempt, success, output. rewrite show_ref. destruct w as [g h]. cbn [fst snd].
  by case_bool_decide.
Qed.

Lemma create_or_reset_ok b sha (w : G * repo_hooks) :
  branch_heads w.1 !! gb_base b = None -> tracking w.1 !! gb_base b = Some sha -> checked_out w.1 = None ->
  (forall u, gb_upstream b = Some u -> u = gb_name b \/ known w.1 u) ->
  exists g', create_or_reset_branch git b w = ((g', w.2), Ok tt) /\
    branch_heads g' = <[gb_name b := sha]> (branch_heads w.1) /\ tracking g' = tracking w.1 /\ checked_out g' = None.
Proof.
  intros Hb Ht Hc Hu. unfold create_or_reset_branch, then_. rewrite attempt_show.
  destruct (branch_placed (gb_name b) (gb_base b) sha w) as (g' & E & H1 & H2 & H3); [done..|]. rewrite E.
  destruct (gb_upstream b) as [u|]; [|by exists g'].
  destruct (upstream_set g' u (gb_name b)) as (g2 & E2 & H4 & H5 & H6).
  - rewrite H1, lookup_insert_eq. done.
  - rewrite H1, H2. destruct (decide (u = gb_name b)) as [->|Hne]; [left; by rewrite lookup_insert_eq|].
    rewrite lookup_insert_ne by done. by destruct (Hu u eq_refl).
  - rewrite (success_ok _ (g', w.2) g2 [] E2). exists g2. split_and!; [done|congruence..].
Qed.

(** The branches after a plan, whose later entries win. *)
Definition planned (plan : list (GitSetupBranch * str)) (h : gmap (list N) (list N)) : gmap (list N) (list N) :=
  foldl (fun h bs => <[gb_name bs.1 := bs.2]> h) h plan.

(** Every upstream exists by the time it is set. *)
Fixpoint upstreams_known (g : G) (names : list str) (bs : list GitSetupBranch) : Prop :=
  match bs with
  | [] => True
  | b :: bs => (forall u, gb_upstream b = Some u -> u ∈ gb_name b :: names \/ known g u) /\ upstreams_known g (gb_name b :: names) bs
  end.

Lemma create_branches_ok plan names g (w : G * repo_hooks) :
  Forall (fun bs => tracking w.1 !! gb_base bs.1 = Some bs.2 /\ branch_heads w.1 !! gb_base bs.1 = None /\
            Forall (fun bs' => gb_name bs'.1 <> gb_base bs.1) plan) plan ->
  checked_out w.1 = None -> upstreams_known g names (map fst plan) ->
  tracking g = tracking w.1 -> (forall n, is_Some (branch_heads w.1 !! n) <-> n ∈ names \/ is_Some (branch_heads g !! n)) ->
  exists g', create_branches git (map fst plan) w = ((g', w.2), Ok tt) /\ branch_heads g' = planned plan (branch_heads w.1).
Proof.
  revert names w. induction plan as [|[b sha] plan IH]; intros names [gw h] Hp Hc Hu Htr Hk; [by exists gw|].
  apply Forall_cons in Hp as [(Ht & Hb & Hn) Hp]. cbn [map fst snd upstreams_known] in *. destruct Hu as [Hu Hus].
  destruct (create_or_reset_ok b sha (gw, h)) as (g1 & E1 & H1 & H2 & H3); [done..| |].
  { intros u Eu. destruct (Hu u Eu) as [[->|Hin]%elem_of_cons|[Hin|Hin]]; [by left|..]; right; unfold known; cbn [fst].
    - left. apply Hk. by left.
    - left. apply Hk. by right.
    - right. by rewrite <- Htr. }
  destruct (IH (gb_name b :: names) (g1, h)) as (g' & E & Hh).
  - apply Forall_forall. intros [b' sha'] Hin. apply (proj1 (Forall_forall _ _) Hp) in Hin as (Ht' & Hb' & Hn'). cbn [fst snd] in *.
    apply Forall_cons in Hn' as [Hn0 Hn']. cbn [fst] in Hn0. rewrite H2, H1, lookup_insert_ne by done. done.
  - done.
  - done.
  - cbn [fst] in *. congruence.
  - intros n. cbn [fst] in *. rewrite H1, lookup_insert_is_Some, elem_of_cons, Hk. destruct (decide (gb_name b = n)); naive_solver.
  - exists g'. split; [|by rewrite Hh; cbn [fst]; rewrite H1]. cbn [create_branches]. unfold then_ at 1. rewrite E1. exact E.
Qed.

Lemma planned_notin plan h n : n ∉ map (fun bs => gb_name bs.1) plan -> planned plan h !! n = h !! n.
Proof.
  revert h. induction plan as [|[b sha] plan IH]; intros h Hn; [done|]. cbn [map fst] in Hn. apply not_elem_of_cons in Hn as [Hne Hn].
  change (planned ((b, sha) :: plan) h) with (planned plan (<[gb_name b := sha]> h)). rewrite IH by done. by apply lookup_insert_ne.
Qed.

Lemma planned_last plan1 b (sha : list N) plan2 h : gb_name b ∉ map (fun bs => gb_name bs.1) plan2 ->
  planned (plan1 ++ (b, sha) :: plan2) h !! gb_name b = Some sha.
Proof.
  intros Hn. unfold planned. rewrite foldl_app.
  change (planned plan2 (<[gb_name b := sha]> (planned plan1 h)) !! gb_name b = Some sha).
  rewrite planned_notin by done. apply lookup_insert_eq.
Qed.

(** The source's branches were pushed and fetched, and every upstream exists in time. *)
Definition fork_name (st : StateResponse) (new_name : str) (b : BranchInfo) : str :=
  if bool_decide (bi_name b = st_primary st) then new_name else bi_name b.

Definition fetched (st : StateResponse) (new_name : str) (g : G) : Prop :=
  checked_out g = None /\
  Forall (fun b => tracking g !! (lit "source-pod/" ++ bi_name b) = Some (bi_sha b) /\
            branch_heads g !! (lit "source-pod/" ++ bi_name b) = None /\
            starts_with (lit "source-pod/") (fork_name st new_name b) = false) (st_branches st).

Definition fork_plan (st : StateResponse) (new_name : str) : list (GitSetupBranch * str) :=
  map (fun b => (fork_branch st new_name (list_to_set (map bi_name (st_branches st))) b, bi_sha b)) (st_branches st).

Lemma fork_plan_branches st new_name : map fst (fork_plan st new_name) = fork_branches st new_name.
Proof. unfold fork_plan, fork_branches. by rewrite map_map. Qed.

Lemma fork_plan_names st new_name : map (fun bs => gb_name bs.1) (fork_plan st new_name) = map (fork_name st new_name) (st_branches st).
Proof. unfold fork_plan. by rewrite map_map. Qed.

Lemma fork_created st new_name (w : G * repo_hooks) :
  fetched st new_name w.1 -> upstreams_known w.1 [] (fork_branches st new_name) ->
  exists g', create_branches git (fork_branches st new_name) w = ((g', w.2), Ok tt) /\
    branch_heads g' = planned (fork_plan st new_name) (branch_heads w.1).
Proof.
  intros [Hc Hf] Hu. rewrite <- fork_plan_branches in *. apply (create_branches_ok _ [] w.1); [|done..|].
  - apply Forall_forall. intros bs (b & -> & Hb)%list_elem_of_fmap. cbn [fst snd gb_base fork_branch].
    destruct (proj1 (Forall_forall _ _) Hf b Hb) as (H1 & H2 & _). split_and!; [done..|].
    apply Forall_forall. intros bs' (b' & -> & Hb')%list_elem_of_fmap. cbn [fst gb_name fork_branch]. fold (fork_name st new_name b').
    destruct (proj1 (Forall_forall _ _) Hf b' Hb') as (_ & _ & H3). intros E. rewrite E in H3. by rewrite starts_with_app in H3.
  - intros n. split; [by right|]. by intros [?%not_elem_of_nil|].
Qed.


(** A branch of the source that already has the name of the fork takes the place of the
    primary branch: when it is listed after the primary branch, the primary branch of the fork
    is at the commit of that other branch. *)
Theorem fork_name_clash st new_name (w : G * repo_hooks) l1 p l2 c l3 :
  fetched st new_name w.1 -> upstreams_known w.1 [] (fork_branches st new_name) ->
  NoDup (map bi_name (st_branches st)) -> st_branches st = l1 ++ p :: l2 ++ c :: l3 ->
  bi_name p = st_primary st -> bi_name c = new_name -> st_primary st <> new_name ->
  exists g', create_branches git (fork_branches st new_name) w = ((g', w.2), Ok tt) /\
    fork_name st new_name p = new_name /\ branch_heads g' !! new_name = Some (bi_sha c).
Proof.
  intros Hf Hu Hnd Eb Hp Hc Hne. destruct (fork_created st new_name w) as (g' & E & Hh); [done..|]. exists g'. split; [done|].
  assert (forall x, bi_name x <> st_primary st -> fork_name st new_name x = bi_name x) as Hsec.
  { intros x Hx. unfold fork_name. by rewrite bool_decide_false. }
  split; [unfold fork_name; by rewrite bool_decide_true|].
  assert (map bi_name (st_branches st) = map bi_name (l1 ++ p :: l2) ++ bi_name c :: map bi_name l3) as En.
  { rewrite Eb, !map_app. cbn [map]. rewrite map_app. cbn [map]. by rewrite <- app_assoc. }
  rewrite En in Hnd. apply NoDup_app in Hnd as (_ & Hdis & Hl3). apply NoDup_cons in Hl3 as [Hc3 _].
  rewrite Hh. unfold fork_plan. set (bs := list_to_set _). rewrite Eb, app_comm_cons, app_assoc, map_app. cbn [map].
  assert (gb_name (fork_branch st new_name bs c) = new_name) as Egb by (unfold fork_branch; cbn; by rewrite bool_decide_false by congruence).
  set (entry := fun b => (fork_branch st new_name bs b, bi_sha b)).
  pose proof (planned_last (map entry (l1 ++ p :: l2)) (fork_branch st new_name bs c) (bi_sha c) (map entry l3) (branch_heads w.1)) as HL.
  rewrite Egb in HL. apply HL. rewrite map_map. unfold entry. cbn [fst gb_name fork_branch].
  intros (x & Ex & Hx)%list_elem_of_fmap.
  assert (bi_name x <> st_primary st) as Hxp.
  { intros Exp. apply (Hdis (bi_name p)); [rewrite map_app; apply elem_of_app; right; by left|].
    apply elem_of_cons. right. apply list_elem_of_fmap. exists x. split; [congruence|done]. }
  rewrite bool_decide_false in Ex by done. apply Hc3, list_elem_of_fmap. exists x. split; [congruence|done].
Qed.

(** A fork fails when a branch of its source tracks another one that is listed later: the
    upstream is set before the branch it names exists. *)
Theorem fork_forward_upstream_fails st new_name (w : G * repo_hooks) b u rest :
  fetched st new_name w.1 -> st_branches st = b :: rest -> bi_upstream b = Some u ->
  u ∈ map bi_name rest -> u <> st_primary st -> u <> fork_name st new_name b ->
  starts_with (lit "host/") u = false -> starts_with (lit "rumpelpod/") u = false ->
  branch_heads w.1 !! u = None -> tracking w.1 !! u = None ->
  is_ok (create_branches git (fork_branches st new_name) w).2 = false.
Proof.
  intros [Hc Hf] Eb Eu Hin Hp Hn Hh Hr Hu1 Hu2. rewrite Eb in Hf. apply Forall_cons in Hf as [(H1 & H2 & _) _].
  unfold fork_branches. set (bs := list_to_set _). assert (u ∈ bs) as Hbs.
  { unfold bs. apply elem_of_list_to_set. rewrite Eb. cbn [map]. by right. }
  rewrite Eb. cbn [map create_branches]. unfold then_ at 1. set (fb := fork_branch st new_name bs b).
  assert (gb_upstream fb = Some u) as Hup.
  { unfold fb, fork_branch. cbn [gb_upstream]. rewrite Eu. unfold rewrite_upstream. cbn [mbind option_bind].
    unfold starts_with in Hh, Hr. destruct (strip_prefix (lit "host/") u); [done|]. destruct (strip_prefix (lit "rumpelpod/") u); [done|].
    by rewrite (bool_decide_false (u = st_primary st)), (bool_decide_true (u ∈ bs)) by done. }
  unfold create_or_reset_branch, then_. rewrite attempt_show. rewrite Hup.
  destruct (branch_placed (gb_name fb) (gb_base fb) (bi_sha b) w) as (g' & E & Hg1 & Hg2 & _); [done..|]. rewrite E.
  unfold success, output. cbn [fst snd]. rewrite upstream_missing; [done| |congruence].
  rewrite Hg1, lookup_insert_ne; [done|]. by intros <-.
Qed.
End Branches.

(** ** Witnesses *)

(** A git with local and remote-tracking branches and a detached HEAD. *)
Definition toy_repo : Type := gmap (list N) (list N) * gmap (list N) (list N).

Definition toy_branch (n base : str) (g : toy_repo) : toy_repo * option git_output :=
  ((<[n := default [] (g.2 !! base)]> g.1, g.2), printed []).

Definition toy_git (args : list str) (g : toy_repo) : toy_repo * option git_output :=
  match args with
  | [a; b; c; d] =>
      if bool_decide (a = lit "show-ref") then
        (g, if bool_decide (is_Some (g.1 !! default [] (strip_prefix (lit "refs/heads/") d))) then printed [] else absent)
      else if bool_decide (b = lit "--no-track") then toy_branch c d g
      else (g, if bool_decide (g.1 !! c = None /\ g.2 !! c = None) then failed 128 else printed [])
  | [a; b; c; d; e] => toy_branch d e g
  | _ => (g, printed [])
  end.

#[refine] Instance toy_laws : BranchGit toy_git :=
  { branch_heads := fst; tracking := snd; checked_out _ := None }.
Proof.
  - intros g n. unfold toy_git. rewrite bool_decide_true by done. by rewrite strip_prefix_app.
  - intros g n base sha _ _ Ht. eexists. split; [reflexivity|]. cbn. by rewrite Ht.
  - intros g n base sha _ _ Ht _. eexists. split; [reflexivity|]. cbn. by rewrite Ht.
  - intros g u n _ Hu. exists g. split; [|done].
    change (toy_git [lit "branch"; lit "--set-upstream-to"; u; n] g)
      with (g, if bool_decide (g.1 !! u = None /\ g.2 !! u = None) then failed 128 else printed []).
    rewrite bool_decide_false; [done|]. intros [E1 E2]. rewrite E1, E2 in Hu. by destruct Hu as [[? ?]|[? ?]].
  - intros g u n E1 E2. change (toy_git [lit "branch"; lit "--set-upstream-to"; u; n] g)
      with (g, if bool_decide (g.1 !! u = None /\ g.2 !! u = None) then failed 128 else printed []).
    by rewrite bool_decide_true.
Defined.

Definition EXAMPLE_BRANCHES : list BranchInfo :=
  [mkBranchInfo (lit "dev") (lit "c1") (Some (lit "host/main")); mkBranchInfo (lit "topic") (lit "c2") (Some (lit "dev"))].

Definition example_state (bs : list BranchInfo) : StateResponse := mkState bs (lit "dev") true false false false true [] None.

Definition EXAMPLE_REPO : toy_repo :=
  (∅, {[ lit "host/main" := lit "c0"; lit "source-pod/dev" := lit "c1"; lit "source-pod/topic" := lit "c2" ]}).

Definition no_repo_hooks : repo_hooks := mkHooks None None.

Definition example_source (args : list str) : option git_output :=
  if bool_decide (args = LIST_BRANCHES) then printed (unlines (map print_branch EXAMPLE_BRANCHES)) else printed (lit "dev").

Lemma state_branches_exact_witness :
  forall st, build_state_response example_source (fun _ => false) (Ok []) = Ok st -> st_branches st = EXAMPLE_BRANCHES.
Proof.
  intros st. apply (state_branches_exact example_source (fun _ => false) (Ok []) EXAMPLE_BRANCHES); [vm_compute; reflexivity|].
  decide_now.
Defined.

Definition EXAMPLE_ENV : ForkEnv :=
  mkForkEnv (Some Ready) false (Ok tt) None None (Some (lit "http://pod")) (Ok tt) (Ok tt) (Ok (example_state EXAMPLE_BRANCHES))
    (Ok tt) (Ok (lit "patch")) (fun _ => Ok (Some (lit "files"))) (Ok tt) (Ok tt) (fun _ => Ok tt) (Ok tt) (fun _ _ => Ok tt)
    (fun _ => Ok tt) (Ok true) (Ok tt) (Ok tt).

Lemma fork_complete_witness :
  exists patched marked, (fork_pod_impl EXAMPLE_ENV (lit "dev") (lit "dev2") false).1 =
    [Pushed; Launched (fork_git_setup (example_state EXAMPLE_BRANCHES) (lit "dev") (lit "dev2")); Uploaded (lit "claude") (lit "files")]
      ++ patched ++ marked.
Proof.
  destruct (fork_complete EXAMPLE_ENV (lit "dev") (lit "dev2") false (fork_pod_impl EXAMPLE_ENV (lit "dev") (lit "dev2") false).1)
    as (_ & _ & _ & _ & st & Hst & patched & marked & E & _); [vm_compute; reflexivity|].
  injection Hst as <-. exists patched, marked. exact E.
Defined.

Lemma fork_name_panics_witness :
  Executor.pod_id_for ZeroHash.lib (Protocol.mkPodName (lit "My_Pod")) (lit "/home/me/repo") = None.
Proof.
  apply (fork_name_panics ZeroHash.lib (lit "My") 95%N (lit "Pod") (lit "/home/me/repo")).
  - apply ZeroHash.laws.
  - decide_now.
  - vm_compute. reflexivity.
  - vm_compute. lia.
Defined.


Lemma fork_name_clash_witness :
  exists g', create_branches toy_git (fork_branches (example_state EXAMPLE_BRANCHES) (lit "topic")) (EXAMPLE_REPO, no_repo_hooks) =
      ((g', no_repo_hooks), Ok tt) /\ g'.1 !! lit "topic" = Some (lit "c2").
Proof.
  destruct (fork_name_clash toy_git (example_state EXAMPLE_BRANCHES) (lit "topic") (EXAMPLE_REPO, no_repo_hooks) []
              (mkBranchInfo (lit "dev") (lit "c1") (Some (lit "host/main"))) []
              (mkBranchInfo (lit "topic") (lit "c2") (Some (lit "dev"))) []) as (g' & E & _ & Hb).
  - split; [reflexivity|decide_now].
  - split; [intros u Hu; vm_compute in Hu; injection Hu as <-; right; right; eexists; vm_compute; reflexivity|].
    split; [intros u Hu; vm_compute in Hu; injection Hu as <-; left; decide_now|exact I].
  - decide_now.
  - reflexivity.
  - reflexivity.
  - reflexivity.
  - intros E. vm_compute in E. discriminate E.
  - exists g'. split; [exact E|exact Hb].
Defined.

Lemma fork_forward_upstream_fails_witness :
  is_ok (create_branches toy_git (fork_branches (example_state
    [mkBranchInfo (lit "a") (lit "c1") (Some (lit "topic")); mkBranchInfo (lit "topic") (lit "c2") None]) (lit "dev2"))
    ((∅, {[ lit "source-pod/a" := lit "c1"; lit "source-pod/topic" := lit "c2" ]}), no_repo_hooks)).2 = false.
Proof.
  apply (fork_forward_upstream_fails toy_git (example_state
    [mkBranchInfo (lit "a") (lit "c1") (Some (lit "topic")); mkBranchInfo (lit "topic") (lit "c2") None]) (lit "dev2")
    ((∅, {[ lit "source-pod/a" := lit "c1"; lit "source-pod/topic" := lit "c2" ]}), no_repo_hooks)
    (mkBranchInfo (lit "a") (lit "c1") (Some (lit "topic"))) (lit "topic") [mkBranchInfo (lit "topic") (lit "c2") None]);
    first [reflexivity | decide_now | vm_compute; reflexivity | split; [reflexivity|decide_now] | intros E; vm_compute in E; discriminate E].
Defined.
