(* ===== verification/AgentFiles.v ===== *)
(** * The files of the agents (the agent handlers of pod/server.rs, pod/codex/snapshot.rs)

    Forks and recreated pods take over what the agents keep in the home directory: the daemon
    downloads an archive from one pod and uploads it to the other.  The same upload brings the
    user's own configuration from the host into a new pod.  The file system and the archives
    are those of FileCopy; parsing and printing JSON, the backup of an SQLite database and the
    deletion of its enrollments are parameters.  The substitution that tests ask for is left
    out. *)
From stdpp Require Import gmap.
From S2P Require Import Prelude Strs PodNames Json ExecStream Devcontainer PodSpec Compose FileCopy.

(** ** Which files *)

Definition agent_paths (agent : str) : option (list str) :=
  if bool_decide (agent = lit "claude") then Some [lit ".claude.json"; lit ".claude"]
  else if bool_decide (agent = lit "codex") then Some [lit ".codex"]
  else if bool_decide (agent = lit "pi") then Some [lit ".pi"]
  else if bool_decide (agent = lit "grok") then Some [lit ".grok"]
  else None.

Definition SNAPSHOT_SOURCE_FILE : str := lit ".codex/.rumpelpod-snapshot-source".
Definition CONFIG_INITIALIZED_FILE : str := lit ".codex/.rumpelpod-config-initialized".

(** [Path::starts_with] compares components. *)
Definition starts_at (p : path) (rel : path) : bool := bool_decide (p `prefix_of` rel).

(** [filter_entry] of the walk of ~/.codex, for one path below it. *)
Definition keep_entry (rel : path) : bool :=
  negb (bool_decide (rel = [lit ".rumpelpod-snapshot-source"])) &&
  negb (starts_at [lit "app-server-control"] rel) &&
  negb (starts_at [lit "packages"; lit "app-server-daemon"; lit "install.lock.d"] rel) &&
  negb (starts_at [lit ".tmp"] rel) && negb (starts_at [lit "tmp"] rel) &&
  negb (match rel with [name] => ends_with (lit ".sqlite-wal") name || ends_with (lit ".sqlite-shm") name | _ => false end) &&
  (negb (starts_at [lit "app-server-daemon"] rel) || bool_decide (rel = [lit "app-server-daemon"]) ||
   bool_decide (rel = [lit "app-server-daemon"; lit "settings.json"])).

Fixpoint prefixes {A} (l : list A) : list (list A) :=
  match l with [] => [[]] | x :: l => [] :: map (cons x) (prefixes l) end.

(** The walk does not descend into what it leaves out. *)
Definition walked (rel : path) : bool := forallb keep_entry (prefixes rel).

(** [Path::extension] of a name *)
Definition extension (name : str) : option str :=
  '(stem, ext) ← rsplit_once c_dot name;
  if bool_decide (stem = []) then None else Some ext.

Definition is_database (rel : path) : bool :=
  match rel with [name] => bool_decide (extension name = Some (lit "sqlite")) | _ => false end.

(** ** Archives *)

Section Agents.
  Context `{TarLib}.
  Variable backup : list N -> result str (list N).

(** One entry of the walk of ~/.codex. *)
Definition codex_entry (e : path * node) : result str entry :=
  if is_database e.1 then
    match e.2 with
    | File c => c ← backup c; Ok (entry_at [lit ".codex"] (e.1, File c))
    | Dir => Err (lit "opening Codex database for snapshot")
    end
  else Ok (entry_at [lit ".codex"] e).

Fixpoint codex_entries (es : list (path * node)) (ended : result str unit) : stream :=
  match es with
  | [] => ([], ended)
  | e :: es =>
      match codex_entry e with
      | Err err => ([], Err err)
      | Ok x => let '(xs, r) := codex_entries es ended in (x :: xs, r)
      end
  end.

Definition archive_state (f : fs) (home : path) (pod_name : str) : stream :=
  let '(es, ended) := walk f (home ++ [lit ".codex"]) in
  let '(xs, r) := codex_entries (List.filter (fun e => walked e.1) es) ended in
  (mkEntry SNAPSHOT_SOURCE_FILE (File pod_name) :: xs, r).

Definition archive_path (f : fs) (home : path) (rel : str) : stream :=
  let full := home ++ [rel] in
  if is_dir f full then let '(es, r) := append_dir_all f full in (map (entry_at [rel]) es, r)
  else match append_path f full with
       | Ok c => ([entry_at [rel] ([], File c)], Ok tt)
       | Err e => ([], Err e)
       end.

Fixpoint archive_paths (f : fs) (home : path) (agent pod_name : str) (rels : list str) : stream :=
  match rels with
  | [] => ([], Ok tt)
  | rel :: rels =>
      let '(es, r) := if bool_decide (agent = lit "codex") then archive_state f home pod_name else archive_path f home rel in
      match r with
      | Err e => (es, Err e)
      | Ok _ => let '(es', r') := archive_paths f home agent pod_name rels in (es ++ es', r')
      end
  end.

(** [agent_files_get_handler]: [None] is the answer that there is no state; a failure ends the
    stream with an error. *)
Definition agent_files_get_handler (f : fs) (home : path) (agent pod_name : str) : option stream :=
  paths ← agent_paths agent;
  let existing := List.filter (fun rel => bool_decide (is_Some (stat f (home ++ [rel])))) paths in
  if bool_decide (existing = []) then None else Some (archive_paths f home agent pod_name existing).

(** ** Restoring *)

Definition exists_at (f : fs) (p : path) : bool := bool_decide (is_Some (stat f p)).

Definition at_home (home : path) (rel : str) : path := home ++ Executor.path_components rel.

Definition preserve_credentials (f : fs) (home : path) : bool :=
  exists_at f (at_home home CONFIG_INITIALIZED_FILE) || exists_at f (at_home home (lit ".codex/auth.json")).

(** Whether two relative paths are equal. *)
Definition same_path (a b : str) : bool :=
  bool_decide (Executor.path_components a = Executor.path_components b) &&
  bool_decide ((head (split c_slash a) = Some (lit ".")) <-> (head (split c_slash b) = Some (lit "."))).

Definition CREDENTIALS : list str := [lit ".codex/auth.json"; lit ".codex/config.toml"].

Definition node_text (n : node) : str := match n with File c => c | Dir => [] end.

(** The loop over the entries; [source] is the pod a Codex snapshot comes from. *)
Fixpoint restore (agent : str) (home : path) (preserve : bool) (es : list entry) (ended : result str unit)
    (source : option str) (f : fs) : fs * result str (option str) :=
  match es with
  | [] => (f, match ended with Ok _ => Ok source | Err e => Err e end)
  | e :: es =>
      let rel := e_path e in
      if bool_decide (rel = []) || starts_with [c_slash] rel then restore agent home preserve es ended source f
      else if bool_decide (agent = lit "codex") && same_path rel SNAPSHOT_SOURCE_FILE
      then restore agent home preserve es ended (Some (node_text (e_node e))) f
      else if preserve && bool_decide (source = None) && bool_decide (rel ∈ CREDENTIALS)
      then restore agent home preserve es ended source f
      else
        match extract_entry (at_home home rel) (e_node e) f with
        | (f, Ok _) => restore agent home preserve es ended source f
        | (f, Err err) => (f, Err err)
        end
  end.

(** [std::fs::write] *)
Definition write_file (p : path) (c : list N) (f : fs) : fs * result str unit :=
  match f !! removelast p, f !! p with
  | Some Dir, Some Dir => (f, Err (lit "is a directory"))
  | Some Dir, _ => (<[p := File c]> f, Ok tt)
  | _, _ => (f, Err (lit "no such directory"))
  end.

(** *** Claude settings *)

Variable from_json : list N -> option (list (str * json)).
Variable pretty : list (str * json) -> list N.

Definition BIN : str := lit "/opt/rumpelpod/bin/rumpel".

Definition hook_value (matcher command : str) : json :=
  JArray [JObject [(lit "matcher", JString matcher);
    (lit "hooks", JArray [JObject [(lit "type", JString (lit "command")); (lit "command", JString command)]])]].

Definition NOTIFY_EVENTS : list (str * str) :=
  [(lit "SessionStart", lit "startup|resume|clear"); (lit "UserPromptSubmit", []); (lit "Stop", []);
   (lit "StopFailure", lit "authentication_failed"); (lit "SessionEnd", []); (lit "SubagentStart", []); (lit "SubagentStop", [])].

Definition status_line (pod_name : str) : json :=
  let escaped := pod_name ≫= (fun c => if bool_decide (c = 39%N) then lit "'\''" else [c]) in
  JObject [(lit "type", JString (lit "command"));
           (lit "command", JString (lit "echo 'Rumpelpod: " ++ escaped ++ lit " | Ctrl-a d to detach'"))].

Definition rewrite_settings (pod_name : str) (permission_hook : option bool) (obj : list (str * json)) : list (str * json) :=
  let obj := obj_insert (lit "statusLine") (status_line pod_name) obj in
  let hooks := match obj_get (lit "hooks") obj with Some (JObject h) => h | _ => [] end in
  let hooks := foldl (fun h em => obj_insert em.1 (hook_value em.2 (BIN ++ lit " claude-hook notify-state")) h) hooks NOTIFY_EVENTS in
  let hooks := match permission_hook with
               | Some true => obj_insert (lit "PermissionRequest") (hook_value [] (BIN ++ lit " claude-hook permission-request")) hooks
               | Some false => obj_remove (lit "PermissionRequest") hooks
               | None => hooks
               end in
  obj_insert (lit "hooks") (JObject hooks) obj.

Definition rewrite_claude_settings (home : path) (pod_name : str) (permission_hook : option bool) (f : fs) : fs * result str unit :=
  let p := at_home home (lit ".claude/settings.json") in
  match stat f p with
  | Some Dir => (f, Err (lit "reading settings.json"))
  | o =>
      let raw := match o with Some (File c) => c | _ => lit "{}" end in
      let obj := rewrite_settings pod_name permission_hook (default [] (from_json raw)) in
      match create_dir_all f [] (removelast p) with
      | (f, Ok _) => write_file p (pretty obj) f
      | (f, Err e) => (f, Err e)
      end
  end.

(** *** The identity of a forked Codex *)

Variable clear_enrollments : list N -> result str (list N).

Definition codex_home (home : path) : path := home ++ [lit ".codex"].

Definition is_state_database (name : str) : bool := starts_with (lit "state_") name && ends_with (lit ".sqlite") name.

Fixpoint clear_databases (p : path) (names : list str) (f : fs) : fs * result str unit :=
  match names with
  | [] => (f, Ok tt)
  | name :: names =>
      if negb (is_state_database name) then clear_databases p names f
      else match f !! (p ++ [name]) with
           | Some (File c) =>
               match clear_enrollments c with
               | Ok c => clear_databases p names (<[p ++ [name] := File c]> f)
               | Err e => (f, Err e)
               end
           | _ => (f, Err (lit "opening forked Codex state database"))
           end
  end.

(** [read_dir]: the names in a directory *)
Definition read_dir (f : fs) (p : path) : list str :=
  omap (fun e : path * node => match below p e.1 with Some [name] => Some name | _ => None end) (map_to_list f).

Definition reset_settings (home : path) (f : fs) : fs * result str unit :=
  let p := codex_home home ++ [lit "app-server-daemon"; lit "settings.json"] in
  match f !! p with
  | None => (f, Ok tt)
  | Some Dir => (f, Err (lit "reading forked Codex daemon settings"))
  | Some (File c) =>
      match from_json c with
      | None => (f, Err (lit "parsing forked Codex daemon settings"))
      | Some settings => (<[p := File (pretty (obj_insert (lit "remoteControlEnabled") (JBool false) settings))]> f, Ok tt)
      end
  end.

Definition reset_fork_identity (home : path) (f : fs) : fs * result str unit :=
  let id := codex_home home ++ [lit "installation_id"] in
  match f !! id with
  | Some Dir => (f, Err (lit "resetting forked Codex installation identity"))
  | _ =>
      match reset_settings home (delete id f) with
      | (f, Err e) => (f, Err e)
      | (f, Ok _) =>
          match f !! codex_home home with
          | Some Dir => clear_databases (codex_home home) (read_dir f (codex_home home)) f
          | _ => (f, Err (lit "reading forked Codex home"))
          end
      end
  end.

Definition agent_files_put_impl (agent : str) (s : stream) (home : path) (pod_name : str) (permission_hook : option bool)
    (f : fs) : fs * result str unit :=
  let preserve := bool_decide (agent = lit "codex") && preserve_credentials f home in
  match restore agent home preserve s.1 s.2 None f with
  | (f, Err e) => (f, Err e)
  | (f, Ok source) =>
      if bool_decide (agent = lit "claude") then rewrite_claude_settings home pod_name permission_hook f
      else if bool_decide (agent = lit "codex") then
        if bool_decide (source = None) && negb preserve && negb (exists_at f (at_home home (lit ".codex/auth.json")))
        then (f, Err (lit "no codex credentials found on the host or in the pod. Run `codex login` first."))
        else match source with
             | Some source => if bool_decide (source = pod_name) then (f, Ok tt) else reset_fork_identity home f
             | None => (f, Ok tt)
             end
      else if bool_decide (agent = lit "pi") || bool_decide (agent = lit "grok") then (f, Ok tt)
      else (f, Err (lit "unknown agent"))
  end.

Definition agent_files_put_handler (agent : str) (s : stream) (home : path) (pod_name : str) (permission_hook : option bool)
    (f : fs) : fs * result str unit :=
  match agent_paths agent with
  | None => (f, Err (lit "unknown agent"))
  | Some _ => agent_files_put_impl agent s home pod_name permission_hook f
  end.
End Agents.

(** ** Objects *)

Lemma obj_get_insert_if k v k' o : obj_get k' (obj_insert k v o) = if bool_decide (k' = k) then Some v else obj_get k' o.
Proof. destruct (bool_decide_reflect (k' = k)) as [->|Hne]; [apply obj_get_insert|by apply obj_get_insert_ne]. Qed.

Lemma obj_get_remove k k' o : obj_get k' (obj_remove k o) = if bool_decide (k' = k) then None else obj_get k' o.
Proof.
  unfold obj_remove. induction o as [|[x y] o IH]; cbn [List.filter fst].
  - by case_bool_decide.
  - destruct (bool_decide_reflect (x = k)) as [->|Hx]; cbn [negb].
    + rewrite IH, obj_get_cons. destruct (bool_decide_reflect (k' = k)) as [->|Hne]; [done|]. by rewrite bool_decide_false by (by intros ->).
    + rewrite !obj_get_cons, IH. destruct (bool_decide_reflect (x = k')) as [->|Hne]; [by rewrite bool_decide_false|done].
Qed.

Lemma obj_get_inserts (value : str * str -> json) evs h k :
  obj_get k (foldl (fun h em => obj_insert em.1 (value em) h) h evs) =
  match List.find (fun em => bool_decide (em.1 = k)) (reverse evs) with Some em => Some (value em) | None => obj_get k h end.
Proof.
  revert h. induction evs as [|em evs IH] using rev_ind; intros h; [done|].
  rewrite foldl_app, reverse_app. cbn [foldl List.find app reverse rev_append]. rewrite obj_get_insert_if, IH.
  destruct (bool_decide_reflect (k = em.1)) as [->|Hne]; [by rewrite bool_decide_true|]. by rewrite bool_decide_false by (by intros <-).
Qed.

(** The hooks of the rewritten settings. *)
Definition hooks_of (obj : list (str * json)) : list (str * json) :=
  match obj_get (lit "hooks") obj with Some (JObject h) => h | _ => [] end.

(** Restoring the settings of Claude keeps what is the user's: every entry but the status
    line and the hooks is as uploaded, the seven events that report the state of a session have
    exactly the program's hook, the permission hook is present or absent as asked for, and every
    other hook of the user is kept. *)
Theorem claude_settings_rewritten pod_name permission_hook obj :
  let obj' := rewrite_settings pod_name permission_hook obj in
  (forall k, k ∉ [lit "statusLine"; lit "hooks"] -> obj_get k obj' = obj_get k obj) /\
  obj_get (lit "statusLine") obj' = Some (status_line pod_name) /\
  (forall event matcher, (event, matcher) ∈ NOTIFY_EVENTS ->
     obj_get event (hooks_of obj') = Some (hook_value matcher (BIN ++ lit " claude-hook notify-state"))) /\
  (forall want, permission_hook = Some want -> (obj_get (lit "PermissionRequest") (hooks_of obj') <> None <-> want = true)) /\
  (forall event, event ∉ map fst NOTIFY_EVENTS -> permission_hook = None \/ event <> lit "PermissionRequest" ->
     obj_get event (hooks_of obj') = obj_get event (hooks_of obj)).
Proof.
  intros obj'. unfold obj', rewrite_settings. set (obj1 := obj_insert (lit "statusLine") _ obj).
  assert (lit "hooks" <> lit "statusLine") as Hd by (intros E; vm_compute in E; discriminate E).
  assert (obj_get (lit "hooks") obj1 = obj_get (lit "hooks") obj) as Hh1 by (unfold obj1; rewrite obj_get_insert_if; by rewrite bool_decide_false).
  change (match obj_get (lit "hooks") obj1 with Some (JObject h) => h | _ => [] end) with (hooks_of obj1).
  assert (hooks_of obj1 = hooks_of obj) as -> by (unfold hooks_of; by rewrite Hh1).
  set (h1 := foldl _ (hooks_of obj) NOTIFY_EVENTS).
  set (h2 := match permission_hook with Some true => _ | Some false => _ | None => h1 end).
  assert (hooks_of (obj_insert (lit "hooks") (JObject h2) obj1) = h2) as ->.
  { unfold hooks_of. rewrite obj_get_insert_if. by rewrite bool_decide_true. }
  assert (forall k, k <> lit "PermissionRequest" \/ permission_hook = None -> obj_get k h2 = obj_get k h1) as Hother.
  { intros k Hk. unfold h2. destruct permission_hook as [[]|]; [| |done];
      (rewrite obj_get_insert_if || rewrite obj_get_remove); rewrite bool_decide_false; [done| |done|]; by destruct Hk. }
  assert (forall k, obj_get k h1 = match List.find (fun em => bool_decide (em.1 = k)) (reverse NOTIFY_EVENTS) with
    | Some em => Some (hook_value em.2 (BIN ++ lit " claude-hook notify-state")) | None => obj_get k (hooks_of obj) end) as Hh.
  { intros k. unfold h1. apply (obj_get_inserts (fun em => hook_value em.2 (BIN ++ lit " claude-hook notify-state"))). }
  split_and!.
  - intros k Hk. rewrite !not_elem_of_cons in Hk. destruct Hk as (H1 & H2 & _). rewrite obj_get_insert_if, bool_decide_false by done.
    unfold obj1. by rewrite obj_get_insert_if, bool_decide_false.
  - rewrite obj_get_insert_if, bool_decide_false by done. unfold obj1. by rewrite obj_get_insert_if, bool_decide_true.
  - intros event matcher He. assert (Forall (fun em => em.1 <> lit "PermissionRequest" /\
      List.find (fun em' => bool_decide (em'.1 = em.1)) (reverse NOTIFY_EVENTS) = Some em) NOTIFY_EVENTS) as Hall by decide_now.
    destruct (proj1 (Forall_forall _ _) Hall _ He) as [H1 H2]. rewrite Hother, Hh by (by left). cbn [fst] in *. by rewrite H2.
  - intros want ->. unfold h2. destruct want; [rewrite obj_get_insert_if|rewrite obj_get_remove]; by rewrite bool_decide_true.
  - intros event He Hp. rewrite Hother, Hh by tauto. destruct (List.find _ _) as [em|] eqn:Ef; [|done].
    apply List.find_some in Ef as [Hin Heq]. apply bool_decide_eq_true in Heq. destruct He. rewrite <- Heq.
    apply list_elem_of_fmap. exists em. split; [done|]. apply elem_of_reverse. by apply list_elem_of_In.
Qed.

(** ** Credentials *)

Section Restore.
  Context `{TarLib}.

Definition AUTH : path := [lit ".codex"; lit "auth.json"].
Definition CONFIG : path := [lit ".codex"; lit "config.toml"].

(** Entries as the host writes them: plain relative paths, none of them below a credential or a
    mark of a snapshot, and a credential under its usual name. *)
Definition plain_entry (e : entry) : Prop :=
  e_path e <> [] /\ starts_with [c_slash] (e_path e) = false /\ DOTDOT ∉ Executor.path_components (e_path e) /\
  same_path (e_path e) SNAPSHOT_SOURCE_FILE = false /\
  (forall q, q ∈ [AUTH; CONFIG] -> q `prefix_of` Executor.path_components (e_path e) -> e_path e ∈ CREDENTIALS).

Lemma restore_preserves home es ended f q : DOTDOT ∉ home -> q ∈ [AUTH; CONFIG] -> Forall plain_entry es ->
  (restore (lit "codex") home true es ended None f).1 !! (home ++ q) = f !! (home ++ q).
Proof.
  intros Hh Hq Hes. revert f. induction Hes as [|e es (Hne & Hs & Hd & Hm & Hc) _ IH]; intros f; cbn [restore]; [by destruct ended|].
  rewrite (bool_decide_false (e_path e = [])), Hs, Hm by done. rewrite (bool_decide_true (lit "codex" = lit "codex")) by done.
  rewrite (bool_decide_true (@None str = None)) by done. cbn [orb andb].
  destruct (bool_decide_reflect (e_path e ∈ CREDENTIALS)) as [|Hn]; [apply IH|].
  pose proof (extract_entry_changes f (at_home home (e_path e)) (e_node e) (home ++ q)) as Hch.
  assert ((extract_entry (at_home home (e_path e)) (e_node e) f).1 !! (home ++ q) = f !! (home ++ q)) as E.
  { destruct (decide ((extract_entry (at_home home (e_path e)) (e_node e) f).1 !! (home ++ q) = f !! (home ++ q))) as [|Hne']; [done|].
    exfalso. apply Hn, (Hc q Hq). apply (prefix_app_inv home). apply Hch; [|done]. by apply not_elem_of_app. }
  destruct (extract_entry _ _ f) as [f1 [[]|err]]; cbn [fst] in *; [|done]. by rewrite IH.
Qed.

(** Once a pod has a Codex login, uploading the user's files from the host does not replace
    it: the credentials and the configuration of Codex in the pod are as before, whatever else
    the upload holds and however it ends. *)
Theorem codex_login_survives_upload from_json pretty clear s home pod_name permission_hook f q :
  preserve_credentials f home = true -> DOTDOT ∉ home -> Forall plain_entry s.1 -> q ∈ [AUTH; CONFIG] ->
  (agent_files_put_impl from_json pretty clear (lit "codex") s home pod_name permission_hook f).1 !! (home ++ q) = f !! (home ++ q).
Proof.
  intros Hp Hh Hs Hq. unfold agent_files_put_impl. rewrite Hp. rewrite (bool_decide_true (lit "codex" = lit "codex")) by done. cbn [andb].
  pose proof (restore_preserves home s.1 s.2 f q Hh Hq Hs) as Hr.
  assert (forall es ended f, Forall plain_entry es -> forall f' o, restore (lit "codex") home true es ended None f = (f', Ok o) -> o = None) as Hnone.
  { clear. intros es ended f Hes. revert f. induction Hes as [|e es (Hne & Hs & _ & Hm & _) _ IH]; intros f f' o; cbn [restore].
    - destruct ended; [|done]. by intros [= _ <-].
    - rewrite (bool_decide_false (e_path e = [])), Hs, Hm by done. rewrite (bool_decide_true (lit "codex" = lit "codex")) by done.
      cbn [orb andb]. destruct (_ && _); [apply IH|]. destruct (extract_entry _ _ f) as [f1 [[]|]]; [apply IH|done]. }
  destruct (restore (lit "codex") home true s.1 s.2 None f) as [f' [o|e]] eqn:E; cbn [fst] in *; [|done].
  apply Hnone in E as ->; [|done]. rewrite (bool_decide_false (lit "codex" = lit "claude")) by (intros X; vm_compute in X; discriminate X).
  cbn [negb andb]. rewrite andb_false_r. done.
Qed.

(** ** The identity of a fork *)

Context (from_json : list N -> option (list (str * json))) (pretty : list (str * json) -> list N)
  (clear : list N -> result str (list N)).

Lemma clear_databases_keeps p names f q : (forall name, is_state_database name = true -> q <> p ++ [name]) ->
  (clear_databases clear p names f).1 !! q = f !! q.
Proof.
  intros Hq. revert f. induction names as [|name names IH]; intros f; cbn [clear_databases]; [done|].
  destruct (is_state_database name) eqn:E; cbn [negb]; [|apply IH]. destruct (f !! (p ++ [name])) as [[|c]|]; [done| |done].
  destruct (clear c) as [c'|]; [|done]. rewrite IH. apply lookup_insert_ne. intros Eq. by apply (Hq name).
Qed.

(** Settings with remote control disabled. *)
Definition disabled (o : list (str * json)) : list (str * json) := obj_insert (lit "remoteControlEnabled") (JBool false) o.

Definition INSTALLATION (home : path) : path := codex_home home ++ [lit "installation_id"].
Definition DAEMON_SETTINGS (home : path) : path := codex_home home ++ [lit "app-server-daemon"; lit "settings.json"].

Lemma reset_identity home f f' : (forall c o, from_json c = Some o -> from_json (pretty (disabled o)) = Some (disabled o)) ->
  reset_fork_identity from_json pretty clear home f = (f', Ok tt) ->
  f' !! INSTALLATION home = None /\
  (forall c, f' !! DAEMON_SETTINGS home = Some (File c) -> exists o, from_json c = Some o /\ obj_get (lit "remoteControlEnabled") o = Some (JBool false)).
Proof.
  intros Hjson. unfold reset_fork_identity. fold (INSTALLATION home).
  assert (exists f1 r, reset_settings from_json pretty home (delete (INSTALLATION home) f) = (f1, r) /\ f1 !! INSTALLATION home = None /\
    (r = Ok tt -> forall c, f1 !! DAEMON_SETTINGS home = Some (File c) ->
       exists o, from_json c = Some o /\ obj_get (lit "remoteControlEnabled") o = Some (JBool false))) as (f1 & r & Er & H1 & H2).
  { unfold reset_settings. fold (DAEMON_SETTINGS home).
    assert (DAEMON_SETTINGS home <> INSTALLATION home) as Hne by (intros E; by apply app_inv_head in E).
    rewrite lookup_delete_ne by done. destruct (f !! DAEMON_SETTINGS home) as [[|c]|] eqn:E.
    - do 2 eexists. split; [done|]. split; [apply lookup_delete_eq|]. done.
    - destruct (from_json c) as [o|] eqn:Ej; do 2 eexists; (split; [done|]).
      + rewrite lookup_insert_ne by done. split; [apply lookup_delete_eq|]. intros _ c'. rewrite lookup_insert_eq. intros [= <-].
        exists (disabled o). split; [by apply (Hjson c)|]. unfold disabled. rewrite obj_get_insert_if. by rewrite bool_decide_true.
      + split; [apply lookup_delete_eq|done].
    - do 2 eexists. split; [done|]. split; [apply lookup_delete_eq|]. intros _ c'. rewrite lookup_delete_ne by done. congruence. }
  rewrite Er. destruct (f !! INSTALLATION home) as [[|c]|]; [done| |]; (destruct r as [[]|]; [|done]);
    (destruct (f1 !! codex_home home) as [[|]|]; [|done..]); intros E; pose proof (f_equal fst E) as E'; cbn [fst] in E'; subst f';
    (split; [rewrite clear_databases_keeps; [done|]; intros name Hn Eq; apply app_inv_head in Eq; injection Eq as <-; vm_compute in Hn; discriminate Hn|]);
    intros c'; rewrite clear_databases_keeps by (intros name _ Eq; by apply app_inv_head in Eq); by apply H2.
Qed.
End Restore.

(** ** Snapshots of Codex *)

Lemma codex_path rel : path_ok rel -> rel <> [lit ".rumpelpod-snapshot-source"] ->
  let p := join [c_slash] ([lit ".codex"] ++ rel) in
  p <> [] /\ starts_with [c_slash] p = false /\ same_path p SNAPSHOT_SOURCE_FILE = false /\
  Executor.path_components p = [lit ".codex"] ++ rel.
Proof.
  intros Hrel Hne p.
  assert (Executor.path_components p = [lit ".codex"] ++ rel) as Hc.
  { unfold p. apply components_join. constructor; [split_and!; decide_now|by apply path_components_ok]. }
  split_and!; [..|done].
  - intros E. rewrite E in Hc. vm_compute in Hc. discriminate Hc.
  - unfold p. destruct rel; vm_compute; reflexivity.
  - unfold same_path. rewrite Hc. rewrite bool_decide_false; [done|]. intros E. apply Hne.
    change (Executor.path_components SNAPSHOT_SOURCE_FILE) with ([lit ".codex"] ++ [lit ".rumpelpod-snapshot-source"]) in E.
    by apply app_inv_head in E.
Qed.

Section Snapshot.
  Context `{TarLib}.
  Variable backup : list N -> result str (list N).

Lemma restore_extract home preserve S l ended f :
  Forall (fun e => path_ok e.1 /\ e.1 <> [lit ".rumpelpod-snapshot-source"]) l ->
  restore (lit "codex") home preserve (map (entry_at [lit ".codex"]) l) ended (Some S) f =
  let '(f', r) := extract (fun p => Some (at_home home p)) (map (entry_at [lit ".codex"]) l) ended f in
  (f', match r with Ok _ => Ok (Some S) | Err e => Err e end).
Proof.
  intros Hl. revert f. induction Hl as [|e l [Hok Hne] _ IH]; intros f; cbn [map restore extract]; [by destruct ended|].
  destruct (codex_path e.1 Hok Hne) as (H1 & H2 & H3 & _). cbn [e_path entry_at].
  rewrite (bool_decide_false (_ = [])), H2, H3 by done. rewrite andb_false_r. cbn [orb].
  rewrite (bool_decide_false (Some S = None)), andb_false_r by done. cbn [andb].
  destruct (extract_entry _ _ f) as [f1 [[]|err]]; [apply IH|done].
Qed.

(** What a snapshot has of a node. *)
Definition snapshot_of (e e' : path * node) : Prop :=
  e'.1 = e.1 /\ if is_database e.1 then exists c c', e.2 = File c /\ backup c = Ok c' /\ e'.2 = File c' else e'.2 = e.2.

Lemma codex_entries_ok l es : codex_entries backup l (Ok tt) = (es, Ok tt) ->
  exists l', es = map (entry_at [lit ".codex"]) l' /\ Forall2 snapshot_of l l'.
Proof.
  revert es. induction l as [|[rel n] l IH]; intros es; cbn [codex_entries]; [intros [= <-]; by exists []|].
  unfold codex_entry. cbn [fst snd]. destruct (codex_entries backup l (Ok tt)) as [xs r].
  destruct (is_database rel) eqn:Ed.
  - destruct n as [|c]; [done|]. destruct (backup c) as [c'|] eqn:Eb; [|done]. cbn [mbind result_bind]. intros [= <- ->].
    destruct (IH xs eq_refl) as (l' & -> & Hl). exists ((rel, File c') :: l'). split; [done|]. constructor; [|done].
    split; [done|]. cbn. rewrite Ed. eauto.
  - intros [= <- ->]. destruct (IH xs eq_refl) as (l' & -> & Hl). exists ((rel, n) :: l'). split; [done|]. constructor; [|done].
    split; [done|]. cbn. by rewrite Ed.
Qed.

Lemma snapshot_kind e e' : snapshot_of e e' -> e'.1 = e.1 /\ (e'.2 = Dir <-> e.2 = Dir).
Proof. intros [E He]. split; [done|]. destruct (is_database e.1); [destruct He as (c & c' & -> & _ & ->)|rewrite He]; naive_solver. Qed.

Lemma fits_kind f t n n' : (n' = Dir <-> n = Dir) -> fits f t n -> fits f t n'.
Proof. intros Hk [H1 H2]. split; [done|]. destruct n, n'; naive_solver. Qed.

Lemma snapshot_tree l l' : Forall2 snapshot_of l l' -> tree l -> tree l'.
Proof.
  intros Hl [Hnd Ht]. assert (l'.*1 = l.*1) as E.
  { clear -Hl. induction Hl as [|e e' l l' [He _] _ IH]; [done|]. cbn. by rewrite He, IH. }
  split; [by rewrite E|]. assert (forall rel n', (rel, n') ∈ l' -> exists n, (rel, n) ∈ l /\ (n' = Dir <-> n = Dir)) as Hin.
  { intros rel n' Hin. apply list_elem_of_lookup in Hin as [i Hi]. destruct (Forall2_lookup_r _ _ _ _ _ Hl Hi) as ([rel0 n] & Hi' & Hs).
    apply snapshot_kind in Hs as [E1 E2]. cbn in *. subst. exists n. split; [by eapply list_elem_of_lookup_2|done]. }
  intros rel n rel' n' (m & Hm & Hk)%Hin (m' & Hm' & _)%Hin Hp Hne. apply Hk. by eapply (Ht rel m rel' m').
Qed.

Lemma elem_of_prefixes_self {A} (l : list A) : l ∈ prefixes l.
Proof. induction l as [|x l IH]; cbn; [by left|]. right. apply list_elem_of_fmap. by exists l. Qed.

Lemma walked_keep rel : walked rel = true -> keep_entry rel = true.
Proof.
  unfold walked. rewrite forallb_forall. intros Hall. apply Hall, list_elem_of_In, elem_of_prefixes_self.
Qed.

Lemma keep_not_marker rel : keep_entry rel = true -> rel <> [lit ".rumpelpod-snapshot-source"].
Proof. intros Hk ->. vm_compute in Hk. discriminate Hk. Qed.

(** The loop restores the snapshot of a home directory into another one. *)
Lemma snapshot_restored src home S es dst preserve :
  wf src -> path_ok home -> archive_state backup src home S = (es, Ok tt) ->
  dst !! [] = Some Dir -> no_conflict src (codex_home home) dst (codex_home home) ->
  exists dst', restore (lit "codex") home preserve es (Ok tt) None dst = (dst', Ok (Some S)) /\
    forall rel n, src !! (codex_home home ++ rel) = Some n -> walked rel = true ->
      exists n', snapshot_of (rel, n) (rel, n') /\ dst' !! (codex_home home ++ rel) = Some n'.
Proof.
  intros Hw Hh. unfold archive_state. fold (codex_home home).
  destruct (walk src (codex_home home)) as [l ended] eqn:Ewalk. destruct (codex_entries backup _ ended) as [xs r] eqn:Ex. intros [= <- ->].
  assert (ended = Ok tt) as ->.
  { clear -Ex. revert xs Ex. induction (List.filter _ l) as [|e l' IH]; intros xs; cbn; [by intros [= _ ->]|].
    destruct (codex_entry backup e); [|done]. destruct (codex_entries backup l' ended) as [ys q]. intros [= _ ->]. by eapply IH. }
  intros Hroot Hnc. apply codex_entries_ok in Ex as (l' & -> & Hs).
  pose proof (walk_ok _ _ _ Ewalk) as He. pose proof (enumerates_tree _ _ _ Hw He) as [Hnd Htree]. destruct He as [_ Hl].
  assert (tree (List.filter (fun e => walked e.1) l)) as Hft.
  { split; [|intros rel n rel' n' [H1 _]%elem_of_bfilter [H2 _]%elem_of_bfilter; by apply (Htree rel n rel' n')].
    clear -Hnd. induction l as [|e l IH]; [constructor|]. cbn in Hnd. apply NoDup_cons in Hnd as [Hn Hnd]. cbn [List.filter].
    destruct (walked e.1); [|by apply IH]. cbn. constructor; [|by apply IH]. intros (e' & E & [Hin _]%elem_of_bfilter)%list_elem_of_fmap.
    apply Hn, list_elem_of_fmap. by exists e'. }
  assert (forall e', e' ∈ l' -> exists n, (e'.1, n) ∈ l /\ walked e'.1 = true /\ (e'.2 = Dir <-> n = Dir)) as Hback.
  { intros e' Hin. apply list_elem_of_lookup in Hin as [i Hi]. destruct (Forall2_lookup_r _ _ _ _ _ Hs Hi) as ([rel n] & Hi' & Hk).
    apply snapshot_kind in Hk as [E1 E2]. apply list_elem_of_lookup_2, elem_of_bfilter in Hi' as [H1 H2]. cbn in *. subst.
    by exists n. }
  assert (Forall (fun e => path_ok e.1 /\ e.1 <> [lit ".rumpelpod-snapshot-source"]) l') as Hok.
  { apply Forall_forall. intros e' (n & Hin & Hwalked & _)%Hback. apply Hl in Hin. split; [by eapply wf_names|].
    by apply keep_not_marker, walked_keep. }
  assert (restore (lit "codex") home preserve (mkEntry SNAPSHOT_SOURCE_FILE (File S) :: map (entry_at [lit ".codex"]) l') (Ok tt) None dst =
          restore (lit "codex") home preserve (map (entry_at [lit ".codex"]) l') (Ok tt) (Some S) dst) as -> by (vm_compute; reflexivity).
  rewrite restore_extract by done.
  destruct (extract_tree (fun p => Some (at_home home p)) (codex_home home) [lit ".codex"] l' dst) as (dst' & E & Hin & _ & _);
    [|by eapply snapshot_tree|done|].
  - apply Forall_forall. intros e' He'. destruct (Hback e' He') as (n & Hn & _ & Hk). apply Hl in Hn.
    destruct (proj1 (Forall_forall _ _) Hok e' He') as [Hp Hm]. destruct (codex_path e'.1 Hp Hm) as (_ & _ & _ & Hc).
    split_and!.
    + cbn [e_path entry_at]. unfold at_home. rewrite Hc. unfold codex_home. by rewrite <- app_assoc.
    + apply Forall_app. split; [|done]. apply Forall_app. split; [done|]. apply Forall_singleton. decide_now.
    + eapply fits_kind; [exact Hk|]. by apply Hnc.
  - rewrite E. exists dst'. split; [done|]. intros rel n Hn Hwalked. apply Hl in Hn.
    assert ((rel, n) ∈ List.filter (fun e => walked e.1) l) as Hf by (by apply elem_of_bfilter).
    apply list_elem_of_lookup in Hf as [i Hi]. destruct (Forall2_lookup_l _ _ _ _ _ Hs Hi) as ([rel' n'] & Hi' & Hk).
    pose proof (proj1 (snapshot_kind _ _ Hk)) as E1. cbn in E1. subst rel'. exists n'. split; [done|].
    apply Hin. by eapply list_elem_of_lookup_2.
Qed.

Context (from_json : list N -> option (list (str * json))) (pretty : list (str * json) -> list N)
  (clear : list N -> result str (list N)).

(** Recreating a pod keeps the state of Codex: restoring a snapshot under the same name
    succeeds and gives every file of the old home directory that belongs to a snapshot, its
    databases as backed up, also over credentials the new pod already has. *)
Theorem codex_snapshot_restored src home S es dst permission_hook :
  wf src -> path_ok home -> archive_state backup src home S = (es, Ok tt) ->
  dst !! [] = Some Dir -> no_conflict src (codex_home home) dst (codex_home home) ->
  exists dst', agent_files_put_impl from_json pretty clear (lit "codex") (es, Ok tt) home S permission_hook dst = (dst', Ok tt) /\
    forall rel n, src !! (codex_home home ++ rel) = Some n -> walked rel = true ->
      exists n', snapshot_of (rel, n) (rel, n') /\ dst' !! (codex_home home ++ rel) = Some n'.
Proof.
  intros Hw Hh Ha Hroot Hnc. unfold agent_files_put_impl. cbn [fst snd].
  destruct (snapshot_restored src home S es dst (bool_decide (lit "codex" = lit "codex") && preserve_credentials dst home))
    as (dst' & E & Hin); [done..|]. rewrite E. exists dst'. split; [|done].
  rewrite (bool_decide_false (lit "codex" = lit "claude")) by (intros X; vm_compute in X; discriminate X).
  rewrite (bool_decide_true (lit "codex" = lit "codex")), (bool_decide_false (Some S = None)), (bool_decide_true (S = S)) by done. done.
Qed.

(** A fork never takes over the identity of its source: restoring a snapshot under another
    name, when it succeeds, leaves no installation id, and the settings of the Codex daemon have
    remote control disabled. *)
Theorem codex_fork_identity_fresh src home S es dst pod_name permission_hook dst' :
  (forall c o, from_json c = Some o -> from_json (pretty (disabled o)) = Some (disabled o)) -> S <> pod_name ->
  wf src -> path_ok home -> archive_state backup src home S = (es, Ok tt) ->
  dst !! [] = Some Dir -> no_conflict src (codex_home home) dst (codex_home home) ->
  agent_files_put_impl from_json pretty clear (lit "codex") (es, Ok tt) home pod_name permission_hook dst = (dst', Ok tt) ->
  dst' !! INSTALLATION home = None /\
  (forall c, dst' !! DAEMON_SETTINGS home = Some (File c) ->
     exists o, from_json c = Some o /\ obj_get (lit "remoteControlEnabled") o = Some (JBool false)).
Proof.
  intros Hjson Hne Hw Hh Ha Hroot Hnc. unfold agent_files_put_impl. cbn [fst snd].
  destruct (snapshot_restored src home S es dst (bool_decide (lit "codex" = lit "codex") && preserve_credentials dst home))
    as (dst1 & E & _); [done..|]. rewrite E.
  rewrite (bool_decide_false (lit "codex" = lit "claude")) by (intros X; vm_compute in X; discriminate X).
  rewrite (bool_decide_true (lit "codex" = lit "codex")), (bool_decide_false (Some S = None)), (bool_decide_false (S = pod_name)) by done.
  cbn [andb]. by apply reset_identity.
Qed.
End Snapshot.

(** ** Witnesses *)

Definition toy_json (c : list N) : option (list (str * json)) := Some [(lit "remoteControlEnabled", JBool false)].
Definition toy_pretty (o : list (str * json)) : list N := lit "{}".
Definition toy_backup (c : list N) : result str (list N) := Ok c.

Definition HOME : path := [lit "home"].

Definition EXAMPLE_CODEX : fs :=
  {[ [] := Dir; [lit "home"] := Dir; [lit "home"; lit ".codex"] := Dir;
     [lit "home"; lit ".codex"; lit "installation_id"] := File (lit "id");
     [lit "home"; lit ".codex"; lit "state_1.sqlite"] := File (lit "db") ]}.

Definition EXAMPLE_HOME : fs := {[ [] := Dir; [lit "home"] := Dir ]}.

Lemma example_codex_wf : wf EXAMPLE_CODEX.
Proof. apply wf_check. decide_now. Defined.

Lemma codex_snapshot_restored_witness :
  exists dst', agent_files_put_impl toy_json toy_pretty toy_backup (lit "codex")
      ((archive_state toy_backup EXAMPLE_CODEX HOME (lit "dev")).1, Ok tt) HOME (lit "dev") None EXAMPLE_HOME = (dst', Ok tt) /\
    exists n', dst' !! (HOME ++ [lit ".codex"; lit "installation_id"]) = Some n'.
Proof.
  destruct (codex_snapshot_restored toy_backup toy_json toy_pretty toy_backup EXAMPLE_CODEX HOME (lit "dev")
              (archive_state toy_backup EXAMPLE_CODEX HOME (lit "dev")).1 EXAMPLE_HOME None) as (dst' & E & Hin).
  - apply example_codex_wf.
  - decide_now.
  - vm_compute. reflexivity.
  - vm_compute. reflexivity.
  - apply no_conflict_fresh. decide_now.
  - exists dst'. split; [exact E|]. destruct (Hin [lit "installation_id"] (File (lit "id"))) as (n' & _ & Hn);
      [vm_compute; reflexivity|vm_compute; reflexivity|]. exists n'. exact Hn.
Defined.

Lemma codex_fork_identity_fresh_witness :
  (agent_files_put_impl toy_json toy_pretty toy_backup (lit "codex")
     ((archive_state toy_backup EXAMPLE_CODEX HOME (lit "dev")).1, Ok tt) HOME (lit "fork") None EXAMPLE_HOME).1
     !! INSTALLATION HOME = None.
Proof.
  apply (codex_fork_identity_fresh toy_backup toy_json toy_pretty toy_backup EXAMPLE_CODEX HOME (lit "dev")
              (archive_state toy_backup EXAMPLE_CODEX HOME (lit "dev")).1 EXAMPLE_HOME (lit "fork") None).
  - intros c o Ho. injection Ho as <-. vm_compute. reflexivity.
  - intros E. vm_compute in E. discriminate E.
  - apply example_codex_wf.
  - decide_now.
  - vm_compute. reflexivity.
  - vm_compute. reflexivity.
  - apply no_conflict_fresh. decide_now.
  - vm_compute. reflexivity.
Defined.

Lemma codex_login_survives_upload_witness :
  (agent_files_put_impl toy_json toy_pretty toy_backup (lit "codex")
     ([mkEntry (lit ".codex/auth.json") (File (lit "host login"))], Ok tt) HOME (lit "dev") None
     (<[HOME ++ AUTH := File (lit "pod login")]> EXAMPLE_CODEX)).1 !! (HOME ++ AUTH) = Some (File (lit "pod login")).
Proof.
  etransitivity; [apply (codex_login_survives_upload toy_json toy_pretty toy_backup
    ([mkEntry (lit ".codex/auth.json") (File (lit "host login"))], Ok tt) HOME (lit "dev") None
    (<[HOME ++ AUTH := File (lit "pod login")]> EXAMPLE_CODEX) AUTH)|].
  - vm_compute. reflexivity.
  - decide_now.
  - apply Forall_singleton. split_and!; [intros E; vm_compute in E; discriminate E|vm_compute; reflexivity|decide_now|vm_compute; reflexivity|].
    intros q _ _. by left.
  - by left.
  - vm_compute. reflexivity.
Defined.
