(* ===== verification/Submodules.v ===== *)
(** * Submodules in a pod (the end of pod/git_setup.rs)

    On the first start of a pod its submodules are cloned through the gateway, recursively, and
    set up like the repository itself; on later starts they are set up again, and when the
    gateway moves their URLs follow.  The repositories of the pod are kept by directory; a git
    command that is run in one of them acts on it alone.  [gitmodules] and [listing] read the
    .gitmodules file and the index of a repository, [ancestor] is the repository that git finds
    from a directory that is not the top of one ([None]: there is no such directory), and
    [submodule_update] is the git command that clones a submodule, with its environment. *)
From stdpp Require Import gmap.
From S2P Require Import Prelude Strs Hosts ExecStream Hooks PodGit GitSetup.

Definition sub_url (base_url displaypath : str) : str :=
  base_url ++ lit "/submodules/" ++ displaypath ++ lit "/rumpelpod.git".

Abbreviation environ := (gmap (list N) (list N)).

(** *** Credentials of a clone *)

Definition KEY (i : N) : str := lit "GIT_CONFIG_KEY_" ++ show i.
Definition VALUE (i : N) : str := lit "GIT_CONFIG_VALUE_" ++ show i.
Definition COUNT : str := lit "GIT_CONFIG_COUNT".

(** [usize] *)
Definition USIZE_MAX : N := 18446744073709551615.

(** The environment of [git submodule update] in [clone_recursive]. *)
Definition clone_env (url token : str) (env : environ) : result str environ :=
  config_count ← match env !! COUNT with
                 | Some value => context (lit "invalid GIT_CONFIG_COUNT") (parse_uint USIZE_MAX value)
                 | None => Ok 0%N
                 end;
  if bool_decide (USIZE_MAX < config_count + 2)%N then Err (lit "GIT_CONFIG_COUNT overflow")
  else
    let redirect_index := (config_count + 1)%N in
    Ok (<[VALUE redirect_index := lit "false"]> (<[KEY redirect_index := http_key url (lit "followRedirects")]>
         (<[VALUE config_count := lit "Authorization: Bearer " ++ token]> (<[KEY config_count := http_key url (lit "extraHeader")]>
           (<[COUNT := show (config_count + 2)]> env))))).

(** ** Configuring one *)

Section Configure.
  Context {G : Type}.
  Variable git : list str -> G -> G * option git_output.

Local Abbreviation world := (G * repo_hooks)%type.
Local Notation "'let*' x := m 'in' k" := (then_ m (fun x => k)) (at level 100, x pattern, right associativity).

(** [git rev-parse --git-dir]: the status is not looked at. *)
Definition resolve_git_dir : world -> world * result str unit := fun w =>
  match output git [lit "rev-parse"; lit "--git-dir"] w with
  | (w, Some _) => (w, Ok tt)
  | (w, None) => (w, Err (lit "resolving submodule git dir"))
  end.

(** The hook is installed without an answer whether it was there. *)
Definition install_submodule_hook : world -> world * result str unit := fun w =>
  ((w.1, match new_hook (reference_transaction w.2) with
         | Some content => mkHooks (Some content) (pre_commit w.2)
         | None => w.2
         end), Ok tt).

Definition submodule_first_entry (pod_name : str) : world -> world * result str unit :=
  let* branch_exists := attempt git [lit "show-ref"; lit "--verify"; lit "--quiet"; lit "refs/heads/" ++ pod_name] in
  let* _ := success git (if branch_exists : bool
                         then [lit "branch"; lit "-f"; lit "--no-track"; pod_name; lit "host/HEAD"]
                         else [lit "branch"; lit "--no-track"; pod_name; lit "host/HEAD"]) in
  let* _ := success git [lit "checkout"; pod_name] in
  ret (Ok tt).

(** [configure_submodule], in the repository that git finds in the directory of the submodule *)
Definition configure_submodule (sub : SubmoduleEntry) (base_url token pod_name : str) (is_first_entry : bool)
    : world -> world * result str unit :=
  let* _ := resolve_git_dir in
  let* _ := configure_gateway_urls git (sub_url base_url (sm_displaypath sub)) token in
  let* _ := set_all git (remote_key (lit "host") (lit "fetch")) HOST_FETCH in
  let* _ := success git (CONFIG_SET (remote_key (lit "host") (lit "pushurl")) (lit "PUSH_DISABLED")) in
  let* _ := set_all git (remote_key (lit "rumpelpod") (lit "push")) [push_refspec pod_name; primary_push pod_name pod_name] in
  let* _ := success git (CONFIG_SET (remote_key (lit "rumpelpod") (lit "fetch")) rumpelpod_fetch) in
  let* _ := success git [lit "fetch"; lit "host"] in
  let* _ := install_submodule_hook in
  if is_first_entry then submodule_first_entry pod_name else ret (Ok tt).

(** ** All of them *)

(** The repositories of the pod by directory. *)
Abbreviation repos := (gmap (list N) world).

Variable gitmodules : G -> option str.
Variable listing : G -> list str -> result str str.
Variable ancestor : str -> option str.
Variable submodule_update : str -> str -> environ -> repos -> repos * option git_output.

Definition has_git (rs : repos) (dir : str) : bool := bool_decide (is_Some (rs !! dir)).

(** A directory that is not a repository is the empty place of a submodule. *)
Definition detect (rs : repos) (dir prefix : str) : result str (list SubmoduleEntry) :=
  match rs !! dir with
  | Some w => detect_submodules_from_gitmodules (gitmodules w.1) (listing w.1) prefix
  | None => Ok []
  end.

(** A git command in a directory acts on the repository that git finds there. *)
Definition inside {A} (dir : str) (m : world -> world * result str A) (rs : repos) : repos * result str A :=
  match (if has_git rs dir then Some dir else ancestor dir) with
  | None => (rs, Err (lit "no such directory"))
  | Some top =>
      match rs !! top with
      | Some w => let '(w, r) := m w in (<[top := w]> rs, r)
      | None => (rs, Err (lit "not a git repository"))
      end
  end.

(** [None]: deeper than the fuel. *)
Fixpoint detect_existing_submodules_recursive (fuel : nat) (rs : repos) (parent_dir prefix : str)
    : option (result str (list SubmoduleEntry)) :=
  match fuel with
  | 0 => None
  | S fuel =>
      match detect rs parent_dir prefix with
      | Err e => Some (Err e)
      | Ok subs =>
          (fix go (subs : list SubmoduleEntry) : option (result str (list SubmoduleEntry)) :=
             match subs with
             | [] => Some (Ok [])
             | sub :: subs =>
                 let sub_worktree := path_join parent_dir (sm_path sub) in
                 if negb (has_git rs sub_worktree) then go subs
                 else
                   match detect_existing_submodules_recursive fuel rs sub_worktree (sm_displaypath sub) with
                   | None => None
                   | Some (Err e) => Some (Err e)
                   | Some (Ok nested) =>
                       match go subs with
                       | Some (Ok rest) => Some (Ok (sub :: nested ++ rest))
                       | r => r
                       end
                   end
             end) subs
      end
  end.

(** [run_git_with_secret] with the command that clones. *)
Definition update_submodule (parent_dir path token : str) (env : environ) (rs : repos) : repos * result str unit :=
  match submodule_update parent_dir path env rs with
  | (rs, Some o) =>
      (rs, if ran_ok o then Ok tt
           else Err (lit "Git with gateway credentials failed: " ++ replace token (lit "[REDACTED]") (go_stderr o)))
  | (rs, None) => (rs, Err (lit "running Git with gateway credentials"))
  end.

(** One iteration of [clone_recursive] before it recurses. *)
Definition clone_one (base_url token : str) (env : environ) (parent_dir : str) (sub : SubmoduleEntry) (rs : repos)
    : repos * result str unit :=
  let url := sub_url base_url (sm_displaypath sub) in
  match inside parent_dir (success git [lit "submodule"; lit "init"; sm_path sub]) rs with
  | (rs, Err e) => (rs, Err e)
  | (rs, Ok _) =>
      match inside parent_dir (success git (CONFIG_SET (lit "submodule." ++ sm_name sub ++ lit ".url") url)) rs with
      | (rs, Err e) => (rs, Err e)
      | (rs, Ok _) =>
          match clone_env url token env with
          | Err e => (rs, Err e)
          | Ok env' => update_submodule parent_dir (sm_path sub) token env' rs
          end
      end
  end.

Fixpoint clone_recursive (fuel : nat) (base_url token : str) (env : environ) (parent_dir prefix : str) (rs : repos)
    : option (repos * result str (list SubmoduleEntry)) :=
  match fuel with
  | 0 => None
  | S fuel =>
      match detect rs parent_dir prefix with
      | Err e => Some (rs, Err e)
      | Ok subs =>
          (fix go (subs : list SubmoduleEntry) (rs : repos) : option (repos * result str (list SubmoduleEntry)) :=
             match subs with
             | [] => Some (rs, Ok [])
             | sub :: subs =>
                 match clone_one base_url token env parent_dir sub rs with
                 | (rs, Err e) => Some (rs, Err e)
                 | (rs, Ok _) =>
                     match clone_recursive fuel base_url token env (path_join parent_dir (sm_path sub)) (sm_displaypath sub) rs with
                     | None => None
                     | Some (rs, Err e) => Some (rs, Err e)
                     | Some (rs, Ok nested) =>
                         match go subs rs with
                         | Some (rs, Ok rest) => Some (rs, Ok (sub :: nested ++ rest))
                         | r => r
                         end
                     end
                 end
             end) subs rs
      end
  end.

Fixpoint each (subs : list SubmoduleEntry) (act : SubmoduleEntry -> repos -> repos * result str unit) (rs : repos)
    : repos * result str unit :=
  match subs with
  | [] => (rs, Ok tt)
  | sub :: subs => match act sub rs with (rs, Ok _) => each subs act rs | (rs, Err e) => (rs, Err e) end
  end.

(** The loops of [setup_submodules_impl] over the submodules. *)
Definition configure_submodules (all_subs : list SubmoduleEntry) (root base_url token pod_name : str) (is_first_entry : bool)
    (rs : repos) : repos * result str unit :=
  each all_subs (fun sub => inside (path_join root (sm_displaypath sub)) (configure_submodule sub base_url token pod_name is_first_entry)) rs.

Definition setup_submodules_impl (fuel : nat) (env : environ) (root base_url token pod_name : str) (is_first_entry : bool)
    (rs : repos) : option (repos * result str unit) :=
  match detect rs root [] with
  | Err e => Some (rs, Err e)
  | Ok submodules =>
      if bool_decide (submodules = []) then Some (rs, Ok tt)
      else if is_first_entry then
        match clone_recursive fuel base_url token env root [] rs with
        | None => None
        | Some (rs, Err e) => Some (rs, Err e)
        | Some (rs, Ok all_subs) => Some (configure_submodules all_subs root base_url token pod_name true rs)
        end
      else Some (configure_submodules submodules root base_url token pod_name false rs)
  end.

(** [refresh_submodule_gateway_url]; the panic of [submodule_parent_dir] is the first error *)
Definition refresh_submodule_gateway_url (root base_url token : str) (sub : SubmoduleEntry) (rs : repos) : repos * result str unit :=
  let url := sub_url base_url (sm_displaypath sub) in
  match submodule_parent_dir sub with
  | None => (rs, Err (lit "panic"))
  | Some parent =>
      let parent_dir := if bool_decide (parent = []) then root else path_join root parent in
      match inside parent_dir (success git (CONFIG_SET (lit "submodule." ++ sm_name sub ++ lit ".url") url)) rs with
      | (rs, Err e) => (rs, Err e)
      | (rs, Ok _) => inside (path_join root (sm_displaypath sub)) (configure_gateway_urls git url token) rs
      end
  end.

Definition refresh_submodule_gateway_urls (fuel : nat) (root base_url token : str) (rs : repos)
    : option (repos * result str unit) :=
  match detect_existing_submodules_recursive fuel rs root [] with
  | None => None
  | Some (Err e) => Some (rs, Err e)
  | Some (Ok subs) => Some (each subs (refresh_submodule_gateway_url root base_url token) rs)
  end.
End Configure.

(** ** Theorems *)

(** The configuration git reads from its environment. *)
Definition env_count (env : environ) : option N :=
  match env !! COUNT with Some value => parse_uint USIZE_MAX value | None => Some 0%N end.

Definition git_env_entry (env : environ) (i : N) : option (str * str) :=
  k ← env !! KEY i; v ← env !! VALUE i; Some (k, v).

Definition env_config (env : environ) : option (list (str * str)) :=
  n ← env_count env; mapM (git_env_entry env) (N.of_nat <$> seq 0 (N.to_nat n)).

Lemma KEY_VALUE i j : KEY i <> VALUE j.
Proof. intros E. apply (f_equal (take 12)) in E. vm_compute in E. discriminate E. Qed.

Lemma KEY_COUNT i : KEY i <> COUNT.
Proof. intros E. apply (f_equal (take 12)) in E. vm_compute in E. discriminate E. Qed.

Lemma VALUE_COUNT i : VALUE i <> COUNT.
Proof. intros E. apply (f_equal (take 12)) in E. vm_compute in E. discriminate E. Qed.

Lemma KEY_inj i j : KEY i = KEY j -> i = j.
Proof. unfold KEY. intros E%app_inv_head. by apply show_inj. Qed.

Lemma VALUE_inj i j : VALUE i = VALUE j -> i = j.
Proof. unfold VALUE. intros E%app_inv_head. by apply show_inj. Qed.

Lemma insert_pair_entry k v env i j :
  git_env_entry (<[VALUE j := v]> (<[KEY j := k]> env)) i = if bool_decide (i = j) then Some (k, v) else git_env_entry env i.
Proof.
  unfold git_env_entry. pose proof (KEY_VALUE i j) as H1. pose proof (KEY_VALUE j i) as H2.
  rewrite (lookup_insert_ne _ (VALUE j) (KEY i)) by congruence. case_bool_decide as Hij.
  - subst. by rewrite !lookup_insert_eq.
  - assert (KEY i <> KEY j) as H3 by (by intros ?%KEY_inj). assert (VALUE i <> VALUE j) as H4 by (by intros ?%VALUE_inj).
    rewrite (lookup_insert_ne _ (KEY j) (KEY i)) by congruence. rewrite (lookup_insert_ne _ (VALUE j) (VALUE i)) by congruence.
    by rewrite (lookup_insert_ne _ (KEY j) (VALUE i)) by congruence.
Qed.

Lemma insert_count_entry c env i : git_env_entry (<[COUNT := c]> env) i = git_env_entry env i.
Proof.
  unfold git_env_entry. pose proof (KEY_COUNT i). pose proof (VALUE_COUNT i).
  rewrite (lookup_insert_ne _ COUNT (KEY i)) by congruence. by rewrite (lookup_insert_ne _ COUNT (VALUE i)) by congruence.
Qed.

Lemma mapM_entries {A B} (f g : A -> option B) l : (forall x, x ∈ l -> f x = g x) -> mapM f l = mapM g l.
Proof. intros H. apply Forall_mapM_ext, Forall_forall. exact H. Qed.

Lemma mapM_app_option {A B} (f : A -> option B) l1 l2 : mapM f (l1 ++ l2) = (x ← mapM f l1; y ← mapM f l2; Some (x ++ y)).
Proof.
  induction l1 as [|a l1 IH]; cbn; [by destruct (mapM f l2)|]. destruct (f a); cbn; [|done]. rewrite IH.
  destruct (mapM f l1); cbn; [|done]. by destruct (mapM f l2).
Qed.

(** The credentials of a clone are added to the configuration that git gets through its
    environment: what was configured there stays, in place and in order, the header with the
    token and the refusal of redirects follow it, for the URL of the submodule only, and the
    count never wraps around. *)
Theorem clone_env_extends url token env config env' :
  env_config env = Some config -> clone_env url token env = Ok env' ->
  env_config env' = Some (config ++ [(http_key url (lit "extraHeader"), lit "Authorization: Bearer " ++ token);
                                     (http_key url (lit "followRedirects"), lit "false")]) /\
  (forall k, k <> COUNT -> (forall i, k <> KEY i /\ k <> VALUE i) -> env' !! k = env !! k).
Proof.
  unfold env_config, clone_env. intros Hc. fold (env_count env) in Hc.
  destruct (env_count env) as [n|] eqn:En; [|done]. cbn [mbind option_bind] in Hc.
  assert ((match env !! COUNT with Some value => context (lit "invalid GIT_CONFIG_COUNT") (parse_uint USIZE_MAX value) | None => Ok 0%N end)
          = Ok n) as ->.
  { revert En. unfold env_count. destruct (env !! COUNT); [|by intros [= <-]]. by intros ->. }
  cbn [mbind result_bind]. case_bool_decide as Hmax; [done|]. intros [= <-].
  set (env0 := <[COUNT := show (n + 2)]> env). set (env1 := <[VALUE n := _]> (<[KEY n := _]> env0)).
  split.
  - assert (env_count (<[VALUE (n + 1)%N := lit "false"]> (<[KEY (n + 1)%N := http_key url (lit "followRedirects")]> env1)) = Some (n + 2)%N) as ->.
    { unfold env_count, env1, env0. rewrite !lookup_insert_ne by (apply VALUE_COUNT || apply KEY_COUNT). rewrite lookup_insert_eq.
      apply parse_uint_show. lia. }
    cbn [mbind option_bind]. replace (N.to_nat (n + 2)) with (N.to_nat n + 2) by lia.
    rewrite seq_app, fmap_app, mapM_app_option.
    rewrite (mapM_entries _ (git_env_entry env) (_ <$> seq 0 (N.to_nat n))).
    2: { intros i (j & -> & Hj%elem_of_seq)%list_elem_of_fmap. unfold env1, env0. rewrite !insert_pair_entry.
         rewrite (bool_decide_false (N.of_nat j = (n + 1)%N)), (bool_decide_false (N.of_nat j = n)) by lia. apply insert_count_entry. }
    rewrite Hc. cbn [mbind option_bind seq fmap list_fmap]. cbn [mapM].
    replace (N.of_nat (0 + N.to_nat n)) with n by lia. replace (N.of_nat (S (0 + N.to_nat n))) with (n + 1)%N by lia.
    unfold env1. rewrite !insert_pair_entry, (bool_decide_false (n = (n + 1)%N)) by lia. by rewrite !bool_decide_true.
  - intros k Hk Hi. unfold env1, env0. rewrite !lookup_insert_ne; [done|..]; intros <-; naive_solver.
Qed.

(** *** Where the submodules are *)

Section Placed.
  Context {G : Type}.
  Variable git : list str -> G -> G * option git_output.
  Variable gitmodules : G -> option str.
  Variable listing : G -> list str -> result str str.
  Variable ancestor : str -> option str.
  Variable submodule_update : str -> str -> environ -> gmap (list N) (G * repo_hooks) -> gmap (list N) (G * repo_hooks) * option git_output.

(** Every submodule lies below the repository or below a submodule before it. *)
Fixpoint placed (seen : list str) (subs : list SubmoduleEntry) : Prop :=
  match subs with
  | [] => True
  | sub :: subs =>
      (exists parent, parent ∈ seen /\ submodule_parent_dir sub = Some parent /\
         sm_displaypath sub = if bool_decide (parent = []) then sm_path sub else parent ++ [c_slash] ++ sm_path sub) /\
      placed (sm_displaypath sub :: seen) subs
  end.

Lemma placed_weaken seen seen' subs : seen ⊆ seen' -> placed seen subs -> placed seen' subs.
Proof.
  revert seen seen'. induction subs as [|sub subs IH]; intros seen seen' Hs; cbn; [done|].
  intros [(parent & Hp & H) Hr]. split; [exists parent; set_solver|]. eapply IH; [|exact Hr]. set_solver.
Qed.

Lemma placed_app seen l1 l2 : placed seen l1 -> placed seen l2 -> placed seen (l1 ++ l2).
Proof.
  revert seen. induction l1 as [|sub l1 IH]; intros seen; cbn; [done|]. intros [H1 H2] H3. split; [done|].
  apply IH; [done|]. eapply placed_weaken; [|done]. set_solver.
Qed.

Lemma submodule_line_parent prefix line sub : submodule_line prefix line = Some sub ->
  submodule_parent_dir sub = Some prefix /\
  sm_displaypath sub = if bool_decide (prefix = []) then sm_path sub else prefix ++ [c_slash] ++ sm_path sub.
Proof.
  unfold submodule_line. destruct (split_once c_space line) as [[key path]|]; [|done]. cbn [mbind option_bind]. intros [= <-].
  unfold submodule_parent_dir. cbn [sm_displaypath sm_path]. split; [|done].
  destruct (bool_decide_reflect (prefix = [])) as [->|Hne]; [by rewrite bool_decide_true|].
  rewrite bool_decide_false; [by apply strip_suffix_Some|]. intros E%(f_equal length). rewrite !length_app in E.
  destruct prefix; [done|]. cbn in E. lia.
Qed.

Lemma detect_parent rs dir prefix subs : detect gitmodules listing rs dir prefix = Ok subs ->
  Forall (fun sub => submodule_parent_dir sub = Some prefix /\
    sm_displaypath sub = if bool_decide (prefix = []) then sm_path sub else prefix ++ [c_slash] ++ sm_path sub) subs.
Proof.
  unfold detect. destruct (rs !! dir) as [w|]; [|intros [= <-]; constructor].
  unfold detect_submodules_from_gitmodules. destruct (gitmodules w.1) as [text|]; [|intros [= <-]; constructor].
  destruct (gitlink_paths _ _) as [links|e]; [|done]. cbn [mbind result_bind]. intros [= <-].
  apply Forall_forall. intros sub [(line & _ & Hl)%list_elem_of_omap _]%elem_of_bfilter. by eapply submodule_line_parent.
Qed.

Lemma placed_cons seen prefix sub nested rest :
  prefix ∈ seen ->
  submodule_parent_dir sub = Some prefix /\
    sm_displaypath sub = (if bool_decide (prefix = []) then sm_path sub else prefix ++ [c_slash] ++ sm_path sub) ->
  placed (sm_displaypath sub :: seen) nested -> placed seen rest -> placed seen (sub :: nested ++ rest).
Proof.
  intros Hp Hs Hn Hr. cbn. split; [by exists prefix|]. apply placed_app; [done|]. eapply placed_weaken; [|done]. set_solver.
Qed.

Lemma detect_existing_placed fuel rs dir prefix all seen :
  detect_existing_submodules_recursive gitmodules listing fuel rs dir prefix = Some (Ok all) ->
  prefix ∈ seen -> placed seen all.
Proof.
  revert dir prefix all seen. induction fuel as [|fuel IH]; intros dir prefix all seen; cbn; [done|].
  destruct (detect gitmodules listing rs dir prefix) as [subs|e] eqn:Ed; [|done].
  pose proof (detect_parent _ _ _ _ Ed) as Hsubs. clear Ed. intros Hgo Hp. revert all Hgo.
  induction Hsubs as [|sub subs Hs _ IHs]; intros all; [by intros [= <-]|].
  destruct (negb _); [apply IHs|].
  destruct (detect_existing_submodules_recursive _ _ _ _ _ _) as [[nested|e]|] eqn:En; [|done..].
  match goal with |- context [match ?go with _ => _ end] => destruct go as [[rest|e]|] eqn:Er; [|done..] end.
  intros [= <-]. eapply placed_cons; [done|done| |by apply IHs]. eapply IH; [done|]. by left.
Qed.

Lemma clone_placed fuel base token env dir prefix rs rs' all seen :
  clone_recursive git gitmodules listing ancestor submodule_update fuel base token env dir prefix rs = Some (rs', Ok all) ->
  prefix ∈ seen -> placed seen all.
Proof.
  revert dir prefix rs rs' all seen. induction fuel as [|fuel IH]; intros dir prefix rs rs' all seen; cbn; [done|].
  destruct (detect gitmodules listing rs dir prefix) as [subs|e] eqn:Ed; [|done].
  pose proof (detect_parent _ _ _ _ Ed) as Hsubs. clear Ed. intros Hgo Hp. revert rs rs' all Hgo.
  induction Hsubs as [|sub subs Hs _ IHs]; intros rs rs' all; [by intros [= <- <-]|].
  destruct (clone_one _ _ _ _ _ _ _ _ _) as [rs1 [[]|e]]; [|done].
  destruct (clone_recursive _ _ _ _ _ _ _ _ _ _ _ _) as [[rs2 [nested|e]]|] eqn:En; [|done..].
  match goal with |- context [match ?go with _ => _ end] => destruct go as [[rs3 [rest|e]]|] eqn:Er; [|done..] end.
  intros [= <- <-]. eapply placed_cons; [done|done| |by eapply IHs]. eapply IH; [done|]. by left.
Qed.

(** The submodules of a pod are found parents first.  In the list of the submodules that
    are cloned on the first start, and in that of the existing ones whose URLs follow the
    gateway, every submodule lies directly below the repository or below a submodule that
    comes before it, under its local path, and the directory of its parent that is computed
    from its entry is that one, so that computing it never panics. *)
Theorem submodules_parents_first fuel base token env root rs all :
  ((exists rs', clone_recursive git gitmodules listing ancestor submodule_update fuel base token env root [] rs = Some (rs', Ok all)) \/
   detect_existing_submodules_recursive gitmodules listing fuel rs root [] = Some (Ok all)) ->
  placed [[]] all.
Proof. intros [[rs' H]|H]; [eapply clone_placed|eapply detect_existing_placed]; (exact H || by left). Qed.

(** *** The search ends *)

(** Git keeps relative paths in the index. *)
Definition relative_index : Prop :=
  forall g paths links, gitlink_paths (listing g) paths = Ok links -> Forall (fun p => p <> [] /\ starts_with [c_slash] p = false) links.

Lemma detect_relative rs dir prefix subs : relative_index -> detect gitmodules listing rs dir prefix = Ok subs ->
  Forall (fun sub => length dir < length (path_join dir (sm_path sub))) subs.
Proof using Type. clear git ancestor submodule_update.
  intros Hrel. unfold detect. destruct (rs !! dir) as [w|]; [|intros [= <-]; constructor].
  unfold detect_submodules_from_gitmodules. destruct (gitmodules w.1) as [text|]; [|intros [= <-]; constructor].
  destruct (gitlink_paths _ _) as [links|e] eqn:El; [|done]. cbn [mbind result_bind]. intros [= <-].
  apply Forall_forall. intros sub [_ Hin%bool_decide_eq_true]%elem_of_bfilter.
  destruct (proj1 (Forall_forall _ _) (Hrel _ _ _ El) _ Hin) as [Hne Hs]. unfold path_join. rewrite Hs.
  assert (0 < length (sm_path sub)) by (destruct (sm_path sub); [done|cbn; lia]).
  destruct (_ || _); rewrite !length_app; cbn; lia.
Qed.

(** The search for the existing submodules ends, however they are nested: a depth beyond the
    longest directory of a repository is never reached, because each step goes to a longer
    directory that is one. *)
Theorem detect_existing_terminates rs root prefix bound fuel :
  relative_index -> (forall dir, is_Some (rs !! dir) -> length dir <= bound) -> bound - length root < fuel ->
  exists r, detect_existing_submodules_recursive gitmodules listing fuel rs root prefix = Some r.
Proof using Type. clear git ancestor submodule_update.
  intros Hrel Hb. revert root prefix. induction fuel as [|fuel IH]; intros root prefix Hf; [lia|]. cbn.
  destruct (detect gitmodules listing rs root prefix) as [subs|e] eqn:Ed; [|by eexists].
  pose proof (detect_relative _ _ _ _ Hrel Ed) as Hsubs. clear Ed.
  induction Hsubs as [|sub subs Hs _ IHs]; [by eexists|].
  unfold has_git at 1. case_bool_decide as Hg; cbn [negb]; [|exact IHs].
  destruct (IH (path_join root (sm_path sub)) (sm_displaypath sub)) as [r ->]; [specialize (Hb _ Hg); lia|].
  destruct r as [nested|e]; [|by eexists]. destruct IHs as [[rest|e] ->]; by eexists.
Qed.
End Placed.

(** *** Branches of submodules *)

Section Reentry.
  Context {G : Type} (git : list str -> G -> G * option git_output) {L : GitLaws git} {B : BranchLaws git}.
  Variable gitmodules : G -> option str.
  Variable listing : G -> list str -> result str str.
  Variable ancestor : str -> option str.
  Variable submodule_update : str -> str -> environ -> gmap (list N) (G * repo_hooks) -> gmap (list N) (G * repo_hooks) * option git_output.

(** A step that leaves the branches alone. *)
Definition keeps_heads {A} (m : G * repo_hooks -> (G * repo_hooks) * result str A) : Prop := forall w, heads (m w).1.1 = heads w.1.

Lemma keeps_heads_of {A} (m : G * repo_hooks -> (G * repo_hooks) * result str A) : keeps git m -> keeps_heads m.
Proof. intros H w. apply H. Qed.

Lemma keeps_heads_then {A C} (m : G * repo_hooks -> (G * repo_hooks) * result str A) (k : A -> G * repo_hooks -> (G * repo_hooks) * result str C) :
  keeps_heads m -> (forall a, keeps_heads (k a)) -> keeps_heads (then_ m k).
Proof.
  intros Hm Hk w. unfold then_. pose proof (Hm w) as H1. destruct (m w) as [w1 [a|e]]; cbn in *; [|done].
  by rewrite (Hk a w1).
Qed.

Lemma configure_reentry_heads sub base token pod : keeps_heads (configure_submodule git sub base token pod false).
Proof.
  unfold configure_submodule.
  apply keeps_heads_then; [|intros _].
  { intros w. unfold resolve_git_dir. destruct (keeps_output git [lit "rev-parse"; lit "--git-dir"] w) as [H _]; [cbn [head]; decide_now|].
    by destruct (output git _ w) as [w1 [o|]]. }
  apply keeps_heads_then; [apply keeps_heads_of, keeps_configure; done|intros _].
  apply keeps_heads_then; [apply keeps_heads_of, keeps_set_all; done|intros _].
  apply keeps_heads_then; [apply keeps_heads_of, keeps_success; [done|cbn [head]; decide_now]|intros _].
  apply keeps_heads_then; [apply keeps_heads_of, keeps_set_all; done|intros _].
  apply keeps_heads_then; [apply keeps_heads_of, keeps_success; [done|cbn [head]; decide_now]|intros _].
  apply keeps_heads_then; [apply keeps_heads_of, keeps_success; [done|cbn [head]; decide_now]|intros _].
  by apply keeps_heads_then.
Qed.

Lemma inside_heads {A} dir (m : G * repo_hooks -> (G * repo_hooks) * result str A) rs d : keeps_heads m ->
  (fun w => heads w.1) <$> (inside ancestor dir m rs).1 !! d = (fun w => heads w.1) <$> rs !! d.
Proof.
  intros Hm. unfold inside. destruct (if has_git rs dir then _ else _) as [top|]; [|done].
  destruct (rs !! top) as [w|] eqn:E; [|done]. pose proof (Hm w) as H. destruct (m w) as [w' r]. cbn in *.
  destruct (decide (d = top)) as [->|Hd]; [|by rewrite lookup_insert_ne]. rewrite lookup_insert_eq, E. cbn. by rewrite H.
Qed.

(** Starting a pod again never moves a branch of a submodule, of a nested one or of the
    repository: whatever the submodules are and however the commands fail, all local branches of
    all repositories of the pod are as before. *)
Theorem submodule_branches_kept fuel env root base token pod rs rs' r d :
  setup_submodules_impl git gitmodules listing ancestor submodule_update fuel env root base token pod false rs = Some (rs', r) ->
  (fun w => heads w.1) <$> rs' !! d = (fun w => heads w.1) <$> rs !! d.
Proof.
  unfold setup_submodules_impl. destruct (detect gitmodules listing rs root []) as [subs|e]; [|by intros [= <- <-]].
  case_bool_decide as Hsubs; [by intros [= <- <-]|]. clear Hsubs. intros [= H]. revert rs H. unfold configure_submodules.
  induction subs as [|sub subs IH]; intros rs; cbn [each]; [by intros [= <- <-]|].
  pose proof (inside_heads (path_join root (sm_displaypath sub)) (configure_submodule git sub base token pod false) rs d
                (configure_reentry_heads _ _ _ _)) as Hi.
  destruct (inside _ _ _ _) as [rs1 [[]|e]]; cbn in Hi; [|intros [= <- <-]; by rewrite Hi].
  intros H. by rewrite (IH _ H), Hi.
Qed.
End Reentry.

(** ** A small tree of repositories, for the witnesses *)

Definition mini_gitmodules (g : mini_repo) : option str := head (mini_conf g (lit ".gitmodules")).

(** The index has relative paths. *)
Definition index_path (p : str) : bool := bool_decide (p <> []) && negb (starts_with [c_slash] p) && bool_decide (0%N ∉ p).

Definition mini_listing (g : mini_repo) : list str -> result str str :=
  index_listing (List.filter index_path (mini_conf g (lit "index"))).

(** A repository with one submodule. *)
Definition mini_super (name path : str) (g : mini_repo) : mini_repo :=
  mini_put (lit "index") [path] (mini_put (lit ".gitmodules") [unlines [gitmodules_line (name, path)]] g).

Definition mini_parent (dir : str) : option str := Some (lit "/repo").

(** The submodule at libs/a has one of its own. *)
Definition mini_update (parent path : str) (env : environ) (rs : gmap (list N) (mini_repo * repo_hooks))
    : gmap (list N) (mini_repo * repo_hooks) * option git_output :=
  (<[path_join parent path := (if bool_decide (path = lit "libs/a") then mini_super (lit "b") (lit "sub/b") mini_old else mini_old, no_hooks)]> rs,
   printed []).

Definition mini_tree : gmap (list N) (mini_repo * repo_hooks) :=
  {[ lit "/repo" := (mini_super (lit "a") (lit "libs/a") mini_old, no_hooks) ]}.

(** The starts of the pod of [mini_tree]. *)
Definition mini_clone : option (gmap (list N) (mini_repo * repo_hooks) * result str (list SubmoduleEntry)) :=
  clone_recursive mini_git mini_gitmodules mini_listing mini_parent mini_update 3 (lit "http://new") (lit "u") ∅ (lit "/repo") [] mini_tree.

Definition mini_reentry : option (gmap (list N) (mini_repo * repo_hooks) * result str unit) :=
  setup_submodules_impl mini_git mini_gitmodules mini_listing mini_parent mini_update 2 ∅ (lit "/repo")
    (lit "http://new") (lit "u") (lit "pod") false mini_tree.

(** Starting a pod again takes the remotes of the repository away when a submodule is not checked
    out: git finds the repository itself in the empty directory of the submodule, so its remotes
    are pointed at the submodule. *)
Theorem reentry_repoints_repository :
  match mini_reentry with
  | Some (rs, Ok _) => (fun w => mini_conf w.1 (URL (lit "host"))) <$> rs !! lit "/repo" = Some [sub_url (lit "http://new") (lit "libs/a")]
  | _ => False
  end.
Proof. vm_compute. reflexivity. Qed.

Lemma submodules_parents_first_witness :
  match mini_clone with
  | Some (_, Ok all) => map sm_displaypath all = [lit "libs/a"; lit "libs/a/sub/b"] /\ placed [[]] all
  | _ => False
  end.
Proof.
  assert (match mini_clone with Some (_, Ok all) => map sm_displaypath all = [lit "libs/a"; lit "libs/a/sub/b"] | _ => False end) as H
    by (vm_compute; reflexivity).
  destruct mini_clone as [[rs [all|e]]|] eqn:E; [|exact H|exact H]. split; [exact H|].
  apply (submodules_parents_first mini_git mini_gitmodules mini_listing mini_parent mini_update 3 (lit "http://new") (lit "u") ∅
           (lit "/repo") mini_tree). left. exists rs. exact E.
Defined.

Lemma mini_relative : relative_index mini_listing.
Proof.
  intros g paths links. destruct (decide (paths = [])) as [->|Hp]; [intros [= <-]; constructor|].
  unfold mini_listing. rewrite gitlink_index; [|apply Forall_forall|done].
  - intros [= <-]. apply Forall_forall. intros p [[_ Hp']%elem_of_bfilter _]%elem_of_bfilter. revert Hp'.
    unfold index_path. rewrite !andb_true_iff, negb_true_iff, !bool_decide_eq_true. naive_solver.
  - intros p [_ Hp']%elem_of_bfilter. revert Hp'. unfold index_path. rewrite !andb_true_iff, !bool_decide_eq_true. naive_solver.
Qed.

Lemma detect_existing_terminates_witness :
  exists r, detect_existing_submodules_recursive mini_gitmodules mini_listing 6 mini_tree (lit "/repo") [] = Some r.
Proof.
  apply (detect_existing_terminates mini_gitmodules mini_listing mini_tree (lit "/repo") [] 5 6); [exact mini_relative| |vm_compute; lia].
  intros dir [w H]. unfold mini_tree in H. apply lookup_singleton_Some in H as [<- _]. vm_compute. lia.
Defined.

Lemma submodule_branches_kept_witness :
  match mini_reentry with
  | Some (rs, Ok _) => (fun w => heads w.1) <$> rs !! lit "/repo" = (fun w => heads w.1) <$> mini_tree !! lit "/repo"
  | _ => False
  end.
Proof.
  assert (match mini_reentry with Some (_, Ok _) => True | _ => False end) as H by (vm_compute; exact I).
  destruct mini_reentry as [[rs [u|e]]|] eqn:E; [|exact H|exact H].
  exact (submodule_branches_kept mini_git mini_gitmodules mini_listing mini_parent mini_update 2 ∅ (lit "/repo")
           (lit "http://new") (lit "u") (lit "pod") mini_tree rs (Ok u) (lit "/repo") E).
Defined.

Definition mini_env : environ := {[ COUNT := lit "1"; KEY 0 := lit "a.b"; VALUE 0 := lit "c" ]}.

Lemma clone_env_extends_witness :
  match clone_env (lit "http://g") (lit "t") mini_env with
  | Ok env' =>
      env_config env' = Some [(lit "a.b", lit "c"); (http_key (lit "http://g") (lit "extraHeader"), lit "Authorization: Bearer t");
                              (http_key (lit "http://g") (lit "followRedirects"), lit "false")]
  | Err _ => False
  end.
Proof.
  assert (match clone_env (lit "http://g") (lit "t") mini_env with Ok _ => True | Err _ => False end) as H by (vm_compute; exact I).
  assert (env_config mini_env = Some [(lit "a.b", lit "c")]) as Hc by (vm_compute; reflexivity).
  destruct (clone_env (lit "http://g") (lit "t") mini_env) as [env'|e] eqn:E; [|exact H].
  exact (proj1 (clone_env_extends (lit "http://g") (lit "t") mini_env [(lit "a.b", lit "c")] env' Hc E)).
Defined.
