(* ===== verification/Proxies.v ===== *)
(** * Proxies between the host and a pod (exec_proxy.rs, tcp_proxy.rs, executor/podman_ssh.rs,
    streaming_upload.rs, port_file.rs)

    A TCP connection to a pod is carried by a program that is executed there: [forward_streams]
    on the host copies between the socket of the client and the pipes of the executed program,
    [run_tcp_proxy] in the pod between these pipes and the socket of the server.  Each of the two
    runs one copying loop per direction; the loops, the client and the server interleave freely,
    and what the environment chooses (how many bytes a read returns, when a peer closes or
    fails) is part of the events.  The accept loop of the listener, archive uploads and the files
    that advertise ports follow. *)
From stdpp Require Import gmap.
From S2P Require Import Prelude Strs Hosts Bytes.

(** ** One direction of a connection *)

(** What a read finds after the bytes. *)
Inductive source := Open | AtEof | Reset.

(** How a loop ended. *)
Inductive ending := Eof | Failed.

#[export] Instance source_eq_dec : EqDecision source.
Proof. solve_decision. Defined.
#[export] Instance ending_eq_dec : EqDecision ending.
Proof. solve_decision. Defined.

Record half := mkHalf {
  hf_sent : list N;          (* all that was sent to this direction *)
  hf_unread : list N;        (* what was not read yet *)
  hf_source : source;
  hf_writable : bool;        (* writes succeed *)
  hf_delivered : list N;     (* what was written *)
  hf_end : option ending;    (* the loop has ended and shut the sink down *)
}.

#[export] Instance half_updatable : Updatable half := fun h =>
  mkHalf (hf_sent h) (hf_unread h) (hf_source h) (hf_writable h) (hf_delivered h) (hf_end h).

Definition fresh_half : half := mkHalf [] [] Open true [] None.

Definition BUFFER : N := 65536.

(** One iteration of the copying loop, in which the read returns at most [n] bytes; nothing
    happens while the read blocks. *)
Definition copy_once (n : N) (h : half) : half :=
  match hf_end h with
  | Some _ => h
  | None =>
      match hf_unread h with
      | [] =>
          match hf_source h with
          | Open => h
          | AtEof => h <| hf_end := Some Eof |>
          | Reset => h <| hf_end := Some Failed |>
          end
      | bytes =>
          let k := N.to_nat (N.max 1 (N.min n BUFFER)) in
          if hf_writable h
          then h <| hf_unread ::= drop k |> <| hf_delivered ::= (fun d => d ++ take k bytes) |>
          else h <| hf_unread ::= drop k |> <| hf_end := Some Failed |>
      end
  end.

(** The other end of the source and of the sink. *)
Definition arrive (bytes : list N) (h : half) : half :=
  match hf_source h with
  | Open => h <| hf_sent ::= (fun s => s ++ bytes) |> <| hf_unread ::= (fun u => u ++ bytes) |>
  | _ => h
  end.

Definition close_source (h : half) : half := match hf_source h with Open => h <| hf_source := AtEof |> | _ => h end.
Definition reset_source (h : half) : half := h <| hf_source := Reset |> <| hf_unread := [] |>.
Definition break_sink (h : half) : half := h <| hf_writable := false |>.

(** ** The two programs *)

Inductive ConnectionKind := PodHttp | ForwardedTcp.

Record duplex := mkDuplex { dx_up : half; dx_down : half }.

#[export] Instance duplex_updatable : Updatable duplex := fun d => mkDuplex (dx_up d) (dx_down d).

Definition ended (h : half) : bool := bool_decide (hf_end h <> None).

(** [forward_streams]: [select!] ends with either loop, [join!] with both. *)
Definition host_over (kind : ConnectionKind) (d : duplex) : bool :=
  match kind with
  | PodHttp => ended (dx_up d) || ended (dx_down d)
  | ForwardedTcp => ended (dx_up d) && ended (dx_down d)
  end.

(** [run_tcp_proxy]: the process exits when the server has closed its side. *)
Definition pod_over (d : duplex) : bool := ended (dx_down d).

Record chain := mkChain { ch_kind : ConnectionKind; ch_host : duplex; ch_pod : duplex }.

#[export] Instance chain_updatable : Updatable chain := fun c => mkChain (ch_kind c) (ch_host c) (ch_pod c).

Definition fresh_chain (kind : ConnectionKind) : chain :=
  mkChain kind (mkDuplex fresh_half fresh_half) (mkDuplex fresh_half fresh_half).

(** What a loop wrote to a pipe arrives at the other program; the pipe ends with the loop or
    with its program. *)
Definition feed (src : half) (src_over : bool) (dst : half) : half :=
  let dst := arrive (drop (length (hf_sent dst)) (hf_delivered src)) dst in
  if ended src || src_over then close_source dst else dst.

Definition settle (c : chain) : chain :=
  let gone := host_over (ch_kind c) (ch_host c) in
  let exited := pod_over (ch_pod c) in
  let broken_if (b : bool) (h : half) := if b then break_sink h else h in
  mkChain (ch_kind c)
    (mkDuplex (broken_if exited (dx_up (ch_host c))) (feed (dx_down (ch_pod c)) exited (dx_down (ch_host c))))
    (mkDuplex (feed (dx_up (ch_host c)) gone (dx_up (ch_pod c))) (broken_if gone (dx_down (ch_pod c)))).

Inductive chain_event :=
| ClientSends (bytes : list N) | ClientCloses | ClientResets | ClientUnwritable
| ServerSends (bytes : list N) | ServerCloses | ServerResets | ServerUnwritable
| HostUp (n : N) | HostDown (n : N) | PodUp (n : N) | PodDown (n : N)
| TransportLost.

Definition happen (e : chain_event) (c : chain) : chain :=
  let on_host f := c <| ch_host ::= fun d => if host_over (ch_kind c) d then d else f d |> in
  let on_pod f := c <| ch_pod ::= fun d => if pod_over d then d else f d |> in
  match e with
  | ClientSends bytes => c <| ch_host ::= fun d => d <| dx_up ::= arrive bytes |> |>
  | ClientCloses => c <| ch_host ::= fun d => d <| dx_up ::= close_source |> |>
  | ClientResets => c <| ch_host ::= fun d => d <| dx_up ::= reset_source |> |>
  | ClientUnwritable => c <| ch_host ::= fun d => d <| dx_down ::= break_sink |> |>
  | ServerSends bytes => c <| ch_pod ::= fun d => d <| dx_down ::= arrive bytes |> |>
  | ServerCloses => c <| ch_pod ::= fun d => d <| dx_down ::= close_source |> |>
  | ServerResets => c <| ch_pod ::= fun d => d <| dx_down ::= reset_source |> |>
  | ServerUnwritable => c <| ch_pod ::= fun d => d <| dx_up ::= break_sink |> |>
  | HostUp n => on_host (fun d => d <| dx_up ::= copy_once n |>)
  | HostDown n => on_host (fun d => d <| dx_down ::= copy_once n |>)
  | PodUp n => on_pod (fun d => d <| dx_up ::= copy_once n |>)
  | PodDown n => on_pod (fun d => d <| dx_down ::= copy_once n |>)
  | TransportLost =>
      c <| ch_host ::= fun d => mkDuplex (break_sink (dx_up d)) (reset_source (dx_down d)) |>
        <| ch_pod ::= fun d => mkDuplex (reset_source (dx_up d)) (break_sink (dx_down d)) |>
  end.

Definition chain_step (c : chain) (e : chain_event) : chain := settle (happen e c).
Definition chain_run (kind : ConnectionKind) (es : list chain_event) : chain := foldl chain_step (fresh_chain kind) es.

(** ** Bytes are neither invented nor reordered *)

Definition half_ok (h : half) : Prop :=
  hf_delivered h `prefix_of` hf_sent h /\
  match hf_end h with
  | Some Eof => hf_source h <> Open /\ hf_delivered h = hf_sent h
  | Some Failed => True
  | None => if decide (hf_source h = Reset) then hf_unread h = [] else hf_sent h = hf_delivered h ++ hf_unread h
  end.

Ltac half_cases h := destruct h as [sent unread src writable delivered end_]; unfold half_ok in *; cbn in *.

Lemma copy_once_ok n h : half_ok h -> half_ok (copy_once n h).
Proof.
  intros H. unfold copy_once. half_cases h. destruct end_ as [e|]; [done|]. destruct H as [Hp H].
  destruct unread as [|b unread]; [destruct src; unfold half_ok; rsimpl|].
  - done.
  - rewrite app_nil_r in H. by subst.
  - done.
  - destruct (decide (src = Reset)); [done|]. subst sent. destruct writable; unfold half_ok; rsimpl.
    + rewrite decide_False by done. rewrite <- app_assoc, (take_drop _ (b :: unread)). split; [|done].
      rewrite <- (take_drop (N.to_nat (N.max 1 (N.min n BUFFER))) (b :: unread)) at 2. rewrite app_assoc. by apply prefix_app_r.
    + done.
Qed.

Lemma arrive_ok bs h : half_ok h -> half_ok (arrive bs h).
Proof.
  intros H. unfold arrive. half_cases h. destruct src; [|done|done]. destruct H as [Hp H]. unfold half_ok. rsimpl.
  split; [by apply prefix_app_r|]. destruct end_ as [[]|]; [naive_solver|done|]. by rewrite H, <- app_assoc.
Qed.

Lemma close_source_ok h : half_ok h -> half_ok (close_source h).
Proof. intros H. unfold close_source. half_cases h. destruct src; [|done|done]. unfold half_ok. rsimpl. destruct end_ as [[]|]; naive_solver. Qed.

Lemma reset_source_ok h : half_ok h -> half_ok (reset_source h).
Proof. intros H. unfold reset_source. half_cases h. unfold half_ok. rsimpl. destruct end_ as [[]|]; naive_solver. Qed.

Lemma break_sink_ok h : half_ok h -> half_ok (break_sink h).
Proof. by intros H; half_cases h. Qed.

(** Two loops that are joined by a pipe. *)
Definition linked (src : half) (src_over : bool) (dst : half) : Prop :=
  hf_sent dst `prefix_of` hf_delivered src /\
  match hf_source dst with
  | Open => True
  | AtEof => hf_sent dst = hf_delivered src /\ (ended src = true \/ src_over = true)
  | Reset => True
  end.

(** ... and what is in the pipe has arrived. *)
Definition caught_up (src dst : half) : Prop := hf_source dst = Open -> hf_sent dst = hf_delivered src.

Lemma linked_mono src o dst src' o' dst' :
  linked src o dst -> hf_delivered src `prefix_of` hf_delivered src' ->
  (ended src = true \/ o = true -> hf_delivered src' = hf_delivered src /\ (ended src' = true \/ o' = true)) ->
  hf_sent dst' = hf_sent dst -> hf_source dst' = hf_source dst \/ hf_source dst' = Reset ->
  linked src' o' dst'.
Proof.
  intros [Hp H] Hd Ho Hs Hsrc. unfold linked. rewrite Hs. split; [by etrans|]. destruct Hsrc as [->| ->]; [|done].
  destruct (hf_source dst); [done| |done]. destruct H as [-> H]. by destruct (Ho H) as [-> ?].
Qed.

Lemma feed_linked src o dst : linked src o dst -> linked src o (feed src o dst) /\ caught_up src (feed src o dst).
Proof.
  intros [Hp H]. unfold feed. set (rest := drop (length (hf_sent dst)) (hf_delivered src)).
  assert (hf_sent dst ++ rest = hf_delivered src) as Hr.
  { destruct Hp as [l Hl]. unfold rest. by rewrite Hl, drop_app_length. }
  clearbody rest. unfold arrive, close_source, linked, caught_up.
  destruct (hf_source dst) eqn:Es; destruct (ended src) eqn:Ee, o eqn:Eo; cbn [orb]; rewrite ?Es; rsimpl; rewrite ?Es, ?Hr; naive_solver.
Qed.

Lemma feed_ok src o dst : half_ok dst -> half_ok (feed src o dst).
Proof. intros H. unfold feed. case_match; [apply close_source_ok|]; by apply arrive_ok. Qed.

(** How a half may change by an event: what was delivered stays, an end is final, and the
    source is left alone or reset. *)
Record evolves (h h' : half) : Prop := {
  ev_delivered : hf_delivered h `prefix_of` hf_delivered h';
  ev_ended : ended h = true -> ended h' = true /\ hf_delivered h' = hf_delivered h;
}.

Record same_input (h h' : half) : Prop := {
  si_sent : hf_sent h' = hf_sent h;
  si_source : hf_source h' = hf_source h \/ hf_source h' = Reset;
}.

Lemma dir_evolves_refl h h' : hf_delivered h' = hf_delivered h -> hf_end h' = hf_end h -> evolves h h'.
Proof. intros Hd He. unfold ended. split; unfold ended; rewrite Hd; [done|]. by rewrite He. Qed.

Lemma copy_once_evolves n h : evolves h (copy_once n h).
Proof.
  unfold copy_once. destruct (hf_end h) as [e|] eqn:E; [by apply dir_evolves_refl|].
  assert (ended h = false) as Hn by (unfold ended; by rewrite E).
  repeat case_match; split; rsimpl; try done; try congruence. by apply prefix_app_r.
Qed.

Lemma copy_once_input n h : same_input h (copy_once n h).
Proof. unfold copy_once. repeat case_match; split; rsimpl; auto. Qed.

Lemma arrive_evolves bs h : evolves h (arrive bs h).
Proof. unfold arrive. apply dir_evolves_refl; by case_match. Qed.

Lemma close_evolves h : evolves h (close_source h).
Proof. unfold close_source. apply dir_evolves_refl; by case_match. Qed.

Lemma reset_evolves h : evolves h (reset_source h).
Proof. by apply dir_evolves_refl. Qed.

Lemma break_evolves h : evolves h (break_sink h).
Proof. by apply dir_evolves_refl. Qed.

Lemma reset_input h : same_input h (reset_source h).
Proof. split; [done|by right]. Qed.

Lemma break_input h : same_input h (break_sink h).
Proof. split; [done|by left]. Qed.

Lemma feed_evolves src o dst : evolves dst (feed src o dst).
Proof. unfold feed, arrive, close_source. apply dir_evolves_refl; repeat case_match; done. Qed.

#[export] Hint Resolve copy_once_ok arrive_ok close_source_ok reset_source_ok break_sink_ok feed_ok copy_once_evolves copy_once_input
  arrive_evolves close_evolves reset_evolves break_evolves reset_input break_input feed_evolves : rumpel.

Lemma evolves_same h : evolves h h.
Proof. by apply dir_evolves_refl. Qed.

Lemma same_input_same h : same_input h h.
Proof. split; auto. Qed.

#[export] Hint Resolve evolves_same same_input_same : rumpel.

Definition duplex_ok (d : duplex) : Prop := half_ok (dx_up d) /\ half_ok (dx_down d).

Definition chain_linked (c : chain) : Prop :=
  linked (dx_up (ch_host c)) (host_over (ch_kind c) (ch_host c)) (dx_up (ch_pod c)) /\
  linked (dx_down (ch_pod c)) (pod_over (ch_pod c)) (dx_down (ch_host c)).

Definition chain_caught_up (c : chain) : Prop :=
  caught_up (dx_up (ch_host c)) (dx_up (ch_pod c)) /\ caught_up (dx_down (ch_pod c)) (dx_down (ch_host c)).

Definition chain_ok (c : chain) : Prop := duplex_ok (ch_host c) /\ duplex_ok (ch_pod c) /\ chain_linked c.

(** A program that is over stays so, and its loops deliver nothing more. *)
Definition duplex_evolves (over : duplex -> bool) (d d' : duplex) : Prop :=
  evolves (dx_up d) (dx_up d') /\ evolves (dx_down d) (dx_down d') /\
  (over d = true -> hf_delivered (dx_up d') = hf_delivered (dx_up d) /\ hf_delivered (dx_down d') = hf_delivered (dx_down d)).

Lemma over_stays kind d d' : evolves (dx_up d) (dx_up d') -> evolves (dx_down d) (dx_down d') ->
  (host_over kind d = true -> host_over kind d' = true) /\ (pod_over d = true -> pod_over d' = true).
Proof.
  intros Hu Hd. unfold host_over, pod_over. split; [|apply Hd].
  destruct kind; rewrite ?orb_true_iff, ?andb_true_iff; pose proof (ev_ended _ _ Hu); pose proof (ev_ended _ _ Hd); naive_solver.
Qed.

Lemma happen_evolves e c :
  duplex_evolves (host_over (ch_kind c)) (ch_host c) (ch_host (happen e c)) /\
  duplex_evolves pod_over (ch_pod c) (ch_pod (happen e c)) /\ ch_kind (happen e c) = ch_kind c.
Proof.
  unfold duplex_evolves. destruct c as [kind host pod].
  destruct e; unfold happen; rsimpl; repeat (case_match; rsimpl); split_and!; auto with rumpel; try done;
    unfold arrive, close_source; intros _; split; repeat case_match; done.
Qed.

Lemma happen_ok e c : duplex_ok (ch_host c) -> duplex_ok (ch_pod c) -> duplex_ok (ch_host (happen e c)) /\ duplex_ok (ch_pod (happen e c)).
Proof.
  unfold duplex_ok. destruct c as [kind host pod].
  intros [H1 H2] [H3 H4]; destruct e; unfold happen; rsimpl; repeat (case_match; rsimpl); auto 10 with rumpel.
Qed.

Lemma happen_input e c :
  same_input (dx_up (ch_pod c)) (dx_up (ch_pod (happen e c))) /\ same_input (dx_down (ch_host c)) (dx_down (ch_host (happen e c))).
Proof. destruct c as [kind host pod]. destruct e; unfold happen; rsimpl; repeat (case_match; rsimpl); auto with rumpel. Qed.

Definition broken_if (b : bool) (h : half) : half := if b then break_sink h else h.

Lemma broken_if_same b h : hf_delivered (broken_if b h) = hf_delivered h /\ ended (broken_if b h) = ended h.
Proof. by destruct b. Qed.

Lemma feed_ended src o dst : ended (feed src o dst) = ended dst.
Proof. unfold feed, ended, arrive, close_source. repeat case_match; done. Qed.

Lemma feed_delivered src o dst : hf_delivered (feed src o dst) = hf_delivered dst.
Proof. unfold feed, arrive, close_source. repeat case_match; done. Qed.

Lemma settle_evolves c :
  duplex_evolves (host_over (ch_kind c)) (ch_host c) (ch_host (settle c)) /\
  duplex_evolves pod_over (ch_pod c) (ch_pod (settle c)) /\ ch_kind (settle c) = ch_kind c.
Proof.
  unfold duplex_evolves, settle. cbn. split_and!; try done.
  - case_match; auto with rumpel.
  - auto with rumpel.
  - intros _. rewrite feed_delivered. by case_match.
  - auto with rumpel.
  - case_match; auto with rumpel.
  - intros _. rewrite feed_delivered. by case_match.
Qed.

Lemma linked_broken b src o dst : linked src o dst -> linked (broken_if b src) o dst.
Proof. by destruct b. Qed.

Lemma caught_broken b src dst : caught_up src dst -> caught_up (broken_if b src) dst.
Proof. by destruct b. Qed.

Lemma settle_ok c : chain_ok c -> chain_ok (settle c) /\ chain_caught_up (settle c).
Proof.
  intros ([H1 H2] & [H3 H4] & [L1 L2]). destruct (feed_linked _ _ _ L1) as [L1' C1], (feed_linked _ _ _ L2) as [L2' C2].
  assert (host_over (ch_kind c) (ch_host (settle c)) = host_over (ch_kind c) (ch_host c)) as E1.
  { unfold host_over, settle. cbn. rewrite feed_ended. by repeat case_match. }
  assert (pod_over (ch_pod (settle c)) = pod_over (ch_pod c)) as E2 by (unfold pod_over, settle; cbn; by repeat case_match).
  unfold chain_ok, chain_linked, chain_caught_up, duplex_ok. change (ch_kind (settle c)) with (ch_kind c). rewrite E1, E2.
  unfold settle. cbn. fold broken_if.
  change (if pod_over (ch_pod c) then break_sink (dx_up (ch_host c)) else dx_up (ch_host c)) with (broken_if (pod_over (ch_pod c)) (dx_up (ch_host c))).
  change (if host_over (ch_kind c) (ch_host c) then break_sink (dx_down (ch_pod c)) else dx_down (ch_pod c))
    with (broken_if (host_over (ch_kind c) (ch_host c)) (dx_down (ch_pod c))).
  split_and!; auto using linked_broken, caught_broken with rumpel; unfold broken_if; case_match; auto with rumpel.
Qed.

Lemma happen_linked e c : chain_linked c -> chain_linked (happen e c).
Proof.
  intros [L1 L2]. destruct (happen_evolves e c) as ((Hu & Hd & Ho) & (Pu & Pd & Po) & Hk).
  destruct (happen_input e c) as [[I1 I2] [I3 I4]].
  destruct (over_stays (ch_kind c) _ _ Hu Hd) as [S1 _], (over_stays (ch_kind c) _ _ Pu Pd) as [_ S2].
  unfold chain_linked. rewrite Hk. split.
  - apply (linked_mono _ _ _ _ _ _ L1); [apply Hu| |done|done].
    intros [H|H]; [destruct (ev_ended _ _ Hu H)|destruct (Ho H)]; auto.
  - apply (linked_mono _ _ _ _ _ _ L2); [apply Pd| |done|done].
    intros [H|H]; [destruct (ev_ended _ _ Pd H)|destruct (Po H)]; auto.
Qed.

Lemma step_ok c e : chain_ok c -> chain_ok (chain_step c e) /\ chain_caught_up (chain_step c e).
Proof.
  intros (H1 & H2 & L). apply settle_ok. destruct (happen_ok e c H1 H2). split_and!; [done|done|by apply happen_linked].
Qed.

Lemma run_ok kind es : chain_ok (chain_run kind es) /\ chain_caught_up (chain_run kind es) /\ ch_kind (chain_run kind es) = kind.
Proof.
  unfold chain_run. induction es as [|e es IH] using rev_ind.
  - split_and!; try done; cbn; unfold duplex_ok, half_ok, linked, caught_up; cbn; split_and!; done.
  - rewrite foldl_snoc. destruct IH as (H & _ & Hk). destruct (step_ok _ e H) as [H1 H2]. split_and!; [done|done|].
    unfold chain_step. rewrite (proj2 (proj2 (settle_evolves _))). by rewrite (proj2 (proj2 (happen_evolves e _))).
Qed.

(** [C25] A forwarded connection is a pipe: in any interleaving of the two programs, the client,
    the server and faults, what the server gets is a prefix of what the client sent and what the
    client gets a prefix of what the server sent, in order and without duplicates; and when the
    loops of a direction have ended at the end of their input, nothing is missing. *)
Theorem proxied_bytes_exact kind es :
  let c := chain_run kind es in
  hf_delivered (dx_up (ch_pod c)) `prefix_of` hf_sent (dx_up (ch_host c)) /\
  hf_delivered (dx_down (ch_host c)) `prefix_of` hf_sent (dx_down (ch_pod c)) /\
  (hf_end (dx_up (ch_host c)) = Some Eof -> hf_end (dx_up (ch_pod c)) = Some Eof -> hf_source (dx_up (ch_pod c)) <> Reset ->
   hf_delivered (dx_up (ch_pod c)) = hf_sent (dx_up (ch_host c))) /\
  (hf_end (dx_down (ch_pod c)) = Some Eof -> hf_end (dx_down (ch_host c)) = Some Eof -> hf_source (dx_down (ch_host c)) <> Reset ->
   hf_delivered (dx_down (ch_host c)) = hf_sent (dx_down (ch_pod c))).
Proof.
  intros c. destruct (run_ok kind es) as (([A1 A2] & [B1 B2] & [L1 L2]) & _ & _). fold c in A1, A2, B1, B2, L1, L2.
  unfold half_ok, linked in *.
  split_and!.
  - etrans; [apply B1|]. etrans; [apply L1|apply A1].
  - etrans; [apply A2|]. etrans; [apply L2|apply B2].
  - intros E1 E2 Hr. rewrite E1 in A1. rewrite E2 in B1. destruct A1 as (_ & _ & <-), B1 as (_ & Ho & ->), L1 as [_ L1].
    by destruct (hf_source (dx_up (ch_pod c))); [|destruct L1|].
  - intros E1 E2 Hr. rewrite E1 in B2. rewrite E2 in A2. destruct B2 as (_ & _ & <-), A2 as (_ & Ho & ->), L2 as [_ L2].
    by destruct (hf_source (dx_down (ch_host c))); [|destruct L2|].
Qed.

(** ** Half-closes *)

Lemma step_evolves c e :
  duplex_evolves (host_over (ch_kind c)) (ch_host c) (ch_host (chain_step c e)) /\
  duplex_evolves pod_over (ch_pod c) (ch_pod (chain_step c e)) /\ ch_kind (chain_step c e) = ch_kind c.
Proof.
  unfold chain_step. destruct (happen_evolves e c) as ((Hu & Hd & Ho) & (Pu & Pd & Po) & Hk).
  destruct (settle_evolves (happen e c)) as ((Hu' & Hd' & Ho') & (Pu' & Pd' & Po') & Hk').
  assert (forall a b c, evolves a b -> evolves b c -> evolves a c) as Htrans.
  { intros a b d [A1 A2] [B1 B2]. split; [by etrans|]. intros H. destruct (A2 H) as [H1 <-]. by apply B2. }
  rewrite Hk in Ho'. destruct (over_stays (ch_kind c) _ _ Hu Hd) as [S1 _], (over_stays (ch_kind c) _ _ Pu Pd) as [_ S2].
  split; [|split; [|congruence]]; (split; [|split]); eauto.
  - intros H. destruct (Ho H) as [<- <-]. by apply Ho', S1.
  - intros H. destruct (Po H) as [<- <-]. by apply Po', S2.
Qed.

Lemma steps_final es c :
  (host_over (ch_kind c) (ch_host c) = true ->
   hf_delivered (dx_up (ch_host (foldl chain_step c es))) = hf_delivered (dx_up (ch_host c)) /\
   hf_delivered (dx_down (ch_host (foldl chain_step c es))) = hf_delivered (dx_down (ch_host c))) /\
  (pod_over (ch_pod c) = true ->
   hf_delivered (dx_up (ch_pod (foldl chain_step c es))) = hf_delivered (dx_up (ch_pod c)) /\
   hf_delivered (dx_down (ch_pod (foldl chain_step c es))) = hf_delivered (dx_down (ch_pod c))).
Proof.
  revert c. induction es as [|e es IH]; intros c; [done|]. cbn [foldl].
  destruct (step_evolves c e) as ((Hu & Hd & Ho) & (Pu & Pd & Po) & Hk).
  destruct (over_stays (ch_kind c) _ _ Hu Hd) as [S1 _], (over_stays (ch_kind c) _ _ Pu Pd) as [_ S2].
  destruct (IH (chain_step c e)) as [IH1 IH2]. rewrite Hk in IH1. split; intros H.
  - destruct (Ho H) as [<- <-]. by apply IH1, S1.
  - destruct (Po H) as [<- <-]. by apply IH2, S2.
Qed.

(** Replies can still flow. *)
Record flowing (c : chain) : Prop := {
  fl_ok : chain_ok c;
  fl_caught : chain_caught_up c;
  fl_kind : ch_kind c = ForwardedTcp;
  fl_pod : hf_end (dx_down (ch_pod c)) = None /\ hf_writable (dx_down (ch_pod c)) = true /\ hf_source (dx_down (ch_pod c)) <> Reset;
  fl_host : hf_end (dx_down (ch_host c)) = None /\ hf_writable (dx_down (ch_host c)) = true /\ hf_source (dx_down (ch_host c)) = Open;
}.

Lemma settle_down c : pod_over (ch_pod c) = false -> host_over (ch_kind c) (ch_host c) = false ->
  dx_down (ch_pod (settle c)) = dx_down (ch_pod c) /\
  dx_down (ch_host (settle c)) = arrive (drop (length (hf_sent (dx_down (ch_host c)))) (hf_delivered (dx_down (ch_pod c)))) (dx_down (ch_host c)).
Proof. unfold settle, feed, pod_over. cbn. intros -> ->. done. Qed.

Lemma flowing_over c : flowing c -> pod_over (ch_pod c) = false /\ host_over (ch_kind c) (ch_host c) = false.
Proof.
  intros [_ _ Hk (H1 & _) (H2 & _)]. unfold pod_over, host_over, ended. rewrite Hk, H1, H2. split; [done|by rewrite andb_false_r].
Qed.

Lemma one_byte : N.to_nat (N.max 1 (N.min 1 BUFFER)) = 1.
Proof. reflexivity. Qed.

Lemma flow_pod c b u : flowing c -> hf_unread (dx_down (ch_pod c)) = b :: u ->
  flowing (chain_step c (PodDown 1)) /\ hf_unread (dx_down (ch_pod (chain_step c (PodDown 1)))) = u /\
  hf_sent (dx_down (ch_pod (chain_step c (PodDown 1)))) = hf_sent (dx_down (ch_pod c)).
Proof.
  intros Hf Hu. destruct (flowing_over c Hf) as [Ho1 Ho2]. destruct Hf as [Hok Hc Hk (P1 & P2 & P3) (H1 & H2 & H3)].
  destruct (step_ok c (PodDown 1) Hok) as [Hok' Hc'].
  assert (dx_down (ch_pod (happen (PodDown 1) c)) = copy_once 1 (dx_down (ch_pod c))) as E.
  { unfold happen. destruct c as [kind host pod]. rsimpl. by rewrite Ho1. }
  assert (copy_once 1 (dx_down (ch_pod c)) = (dx_down (ch_pod c)) <| hf_unread ::= drop 1 |> <| hf_delivered ::= (fun d => d ++ take 1 (b :: u)) |>) as E'.
  { unfold copy_once. by rewrite P1, Hu, P2, one_byte. }
  assert (dx_down (ch_host (happen (PodDown 1) c)) = dx_down (ch_host c) /\ ch_host (happen (PodDown 1) c) = ch_host c
          /\ ch_kind (happen (PodDown 1) c) = ch_kind c) as (E2 & E3 & E4).
  { unfold happen. destruct c as [kind host pod]. rsimpl. done. }
  destruct (settle_down (happen (PodDown 1) c)) as [S1 S2].
  { unfold pod_over, ended. rewrite E, E'. rsimpl. by rewrite P1. }
  { by rewrite E3, E4. }
  unfold chain_step. split_and!.
  - split; [done|done|exact (eq_trans (proj2 (proj2 (step_evolves c (PodDown 1)))) Hk)| |].
    + rewrite S1, E, E'. rsimpl. done.
    + rewrite S2, E2. unfold arrive. rewrite H3. rsimpl. done.
  - rewrite S1, E, E'. rsimpl. by rewrite Hu.
  - rewrite S1, E, E'. done.
Qed.

Lemma flow_host c b u : flowing c -> hf_unread (dx_down (ch_host c)) = b :: u ->
  flowing (chain_step c (HostDown 1)) /\ hf_unread (dx_down (ch_host (chain_step c (HostDown 1)))) = u /\
  dx_down (ch_pod (chain_step c (HostDown 1))) = dx_down (ch_pod c).
Proof.
  intros Hf Hu. destruct (flowing_over c Hf) as [Ho1 Ho2]. destruct Hf as [Hok Hc Hk (P1 & P2 & P3) (H1 & H2 & H3)].
  destruct (step_ok c (HostDown 1) Hok) as [Hok' Hc'].
  assert (dx_down (ch_host (happen (HostDown 1) c)) = copy_once 1 (dx_down (ch_host c)) /\ dx_up (ch_host (happen (HostDown 1) c)) = dx_up (ch_host c)) as [E E0].
  { unfold happen. destruct c as [kind host pod]. rsimpl. by rewrite Ho2. }
  assert (copy_once 1 (dx_down (ch_host c)) = (dx_down (ch_host c)) <| hf_unread ::= drop 1 |> <| hf_delivered ::= (fun d => d ++ take 1 (b :: u)) |>) as E'.
  { unfold copy_once. by rewrite H1, Hu, H2, one_byte. }
  assert (ch_pod (happen (HostDown 1) c) = ch_pod c /\ ch_kind (happen (HostDown 1) c) = ch_kind c) as (E3 & E4).
  { unfold happen. destruct c as [kind host pod]. rsimpl. done. }
  destruct (settle_down (happen (HostDown 1) c)) as [S1 S2].
  { by rewrite E3. }
  { rewrite E4, Hk. unfold host_over, ended. rewrite E, E'. rsimpl. by rewrite H1, andb_false_r. }
  assert (drop (length (hf_sent (dx_down (ch_host c)))) (hf_delivered (dx_down (ch_pod c))) = []) as Hd.
  { rewrite <- (proj2 Hc H3). apply drop_all. }
  unfold chain_step. split_and!.
  - split; [done|done|exact (eq_trans (proj2 (proj2 (step_evolves c (HostDown 1)))) Hk)| |].
    + by rewrite S1, E3.
    + rewrite S2, E, E'. unfold arrive. rsimpl. rewrite H3. rsimpl. done.
  - rewrite S2, E3, E, E'. unfold arrive. rsimpl. rewrite H3. rsimpl. by rewrite Hd, Hu, app_nil_r.
  - by rewrite S1, E3.
Qed.

Lemma drain_pod c : flowing c -> exists k, let c' := foldl chain_step c (replicate k (PodDown 1)) in
  flowing c' /\ hf_unread (dx_down (ch_pod c')) = [] /\ hf_sent (dx_down (ch_pod c')) = hf_sent (dx_down (ch_pod c)).
Proof.
  remember (hf_unread (dx_down (ch_pod c))) as u eqn:Eu. revert c Eu. induction u as [|b u IH]; intros c Eu Hf.
  - exists 0. split_and!; [done|by rewrite Eu|done].
  - destruct (flow_pod c b u Hf (eq_sym Eu)) as (Hf' & Hu & Hs). destruct (IH _ (eq_sym Hu) Hf') as (k & Hk).
    exists (S k). cbn in *. by rewrite Hs in Hk.
Qed.

Lemma drain_host c : flowing c -> exists k, let c' := foldl chain_step c (replicate k (HostDown 1)) in
  flowing c' /\ hf_unread (dx_down (ch_host c')) = [] /\ dx_down (ch_pod c') = dx_down (ch_pod c).
Proof.
  remember (hf_unread (dx_down (ch_host c))) as u eqn:Eu. revert c Eu. induction u as [|b u IH]; intros c Eu Hf.
  - exists 0. split_and!; [done|by rewrite Eu|done].
  - destruct (flow_host c b u Hf (eq_sym Eu)) as (Hf' & Hu & Hs). destruct (IH _ (eq_sym Hu) Hf') as (k & Hk).
    exists (S k). cbn in *. by rewrite Hs in Hk.
Qed.

Lemma flowing_delivered c : flowing c -> hf_unread (dx_down (ch_pod c)) = [] -> hf_unread (dx_down (ch_host c)) = [] ->
  hf_delivered (dx_down (ch_host c)) = hf_sent (dx_down (ch_pod c)).
Proof.
  intros [([_ [_ A]] & [_ [_ B]] & _) [_ Hc] _ (P1 & _ & P3) (H1 & _ & H3)] Hu1 Hu2.
  rewrite H1, H3, decide_False in A by done. rewrite P1, decide_False in B by done.
  rewrite Hu1, app_nil_r in B. rewrite Hu2, app_nil_r in A. rewrite <- A, B. by apply Hc.
Qed.

(** A forwarded service can answer after the client has half-closed its side: whatever
    happened before, and whether the client is still sending or not, as long as the way back is
    not broken all that the server has sent still reaches the client. *)
Theorem replies_after_half_close es :
  let c := chain_run ForwardedTcp es in
  hf_end (dx_down (ch_pod c)) = None -> hf_writable (dx_down (ch_pod c)) = true -> hf_source (dx_down (ch_pod c)) <> Reset ->
  hf_end (dx_down (ch_host c)) = None -> hf_writable (dx_down (ch_host c)) = true -> hf_source (dx_down (ch_host c)) <> Reset ->
  exists i j, let c' := chain_run ForwardedTcp (es ++ replicate i (PodDown 1) ++ replicate j (HostDown 1)) in
    hf_delivered (dx_down (ch_host c')) = hf_sent (dx_down (ch_pod c)).
Proof.
  intros c P1 P2 P3 H1 H2 H3. destruct (run_ok ForwardedTcp es) as (Hok & Hc & Hk). fold c in Hok, Hc, Hk.
  assert (flowing c) as Hf.
  { split; [done..|]. split_and!; [done|done|]. destruct Hok as (_ & _ & _ & [_ L]). unfold pod_over, ended in L. rewrite P1 in L.
    destruct (hf_source (dx_down (ch_host c))); [done| |done]. by destruct L as [_ [?|?]]. }
  destruct (drain_pod c Hf) as (i & Hf1 & Hu1 & Hs1). destruct (drain_host _ Hf1) as (j & Hf2 & Hu2 & Hp2).
  exists i, j. cbv zeta. unfold chain_run. rewrite !foldl_app. fold (chain_run ForwardedTcp es). fold c.
  rewrite (flowing_delivered _ Hf2); [by rewrite Hp2|by rewrite Hp2|done].
Qed.

(** A request to the pod server is over when its client has closed its side: from then on
    nothing more is delivered to the client, whatever the server still sends. *)
Theorem http_request_abandoned es es' :
  ended (dx_up (ch_host (chain_run PodHttp es))) = true ->
  hf_delivered (dx_down (ch_host (chain_run PodHttp (es ++ es')))) = hf_delivered (dx_down (ch_host (chain_run PodHttp es))).
Proof.
  intros H. unfold chain_run at 1. rewrite foldl_app. fold (chain_run PodHttp es).
  apply (proj1 (steps_final es' (chain_run PodHttp es))). destruct (run_ok PodHttp es) as (_ & _ & ->). cbn. by rewrite H.
Qed.

(** A server that half-closes its side first loses the rest of its input: the proxy in the pod
    exits with the direction from the server, and what the client sent and it did not copy is
    never delivered. *)
Theorem server_half_close_loses_input kind bytes es' :
  bytes <> [] ->
  let es := [ClientSends bytes; HostUp BUFFER; ServerCloses; PodDown 1] in
  hf_sent (dx_up (ch_host (chain_run kind es))) = bytes /\
  hf_delivered (dx_up (ch_pod (chain_run kind (es ++ es')))) = [] /\ hf_writable (dx_up (ch_pod (chain_run kind es))) = true.
Proof.
  intros Hb es. destruct bytes as [|b bytes]; [done|]. unfold chain_run at 2. rewrite foldl_app. fold (chain_run kind es).
  destruct (steps_final es' (chain_run kind es)) as [_ Hp].
  destruct kind; cbn in *; split_and!; try done; by apply Hp.
Qed.

(** ** The accept loop *)

(** The bridges of a listener with whether they still run; [al_backlog] are the results of
    [accept] that wait, a connection or an error. *)
Record accept_state := mkAccept {
  al_alive : bool;
  al_dropped : bool;               (* the handle was dropped *)
  al_reset : bool;                 (* a reset was sent and not seen *)
  al_bridges : list (N * bool);
  al_backlog : list (option N);
}.

#[export] Instance accept_state_updatable : Updatable accept_state := fun s =>
  mkAccept (al_alive s) (al_dropped s) (al_reset s) (al_bridges s) (al_backlog s).

Definition start_proxy : accept_state := mkAccept true false false [] [].

(** Dropping the set of bridges aborts them. *)
Definition leave (s : accept_state) : accept_state := s <| al_alive := false |> <| al_bridges := [] |>.

(** The first bridge that has ended, removed. *)
Fixpoint join_next (bs : list (N * bool)) : option (list (N * bool)) :=
  match bs with
  | [] => None
  | (id, true) :: bs => cons (id, true) <$> join_next bs
  | (_, false) :: bs => Some bs
  end.

(** One turn of [accept_loop]; the [select!] takes the first branch that is ready, and the turn
    does nothing when none is. *)
Definition accept_turn (s : accept_state) : accept_state :=
  if negb (al_alive s) then s
  else if al_dropped s then leave s
  else if al_reset s then s <| al_reset := false |> <| al_bridges ::= map (fun b => (b.1, false)) |>
  else
    match join_next (al_bridges s) with
    | Some bs => s <| al_bridges := bs |>
    | None =>
        match al_backlog s with
        | Some id :: rest => s <| al_bridges ::= (fun bs => bs ++ [(id, true)]) |> <| al_backlog := rest |>
        | None :: rest => leave (s <| al_backlog := rest |>)
        | [] => s
        end
    end.

Inductive accept_event := Turn | DropHandle | ResetConnections | BridgeEnds (id : N) | Connects (r : option N).

Definition accept_happen (s : accept_state) (e : accept_event) : accept_state :=
  match e with
  | Turn => accept_turn s
  | DropHandle => s <| al_dropped := true |>
  | ResetConnections => if al_dropped s then s else s <| al_reset := true |>
  | BridgeEnds id => s <| al_bridges ::= map (fun b => if bool_decide (b.1 = id) then (b.1, false) else b) |>
  | Connects r => s <| al_backlog ::= (fun l => l ++ [r]) |>
  end.

Definition running (s : accept_state) : list N := omap (fun b => if b.2 : bool then Some b.1 else None) (al_bridges s).

Lemma join_next_spec bs : match join_next bs with
  | Some bs' => length bs' < length bs /\ omap (fun b => if b.2 : bool then Some b.1 else None) bs' = omap (fun b : N * bool => if b.2 : bool then Some b.1 else None) bs
  | None => Forall (fun b => b.2 = true) bs end.
Proof.
  induction bs as [|[id [|]] bs IH]; cbn; [constructor| |split; [lia|done]].
  destruct (join_next bs) as [bs'|]; cbn; [destruct IH as [H1 ->]; split; [lia|done]|by constructor].
Qed.

Definition turns (k : nat) (s : accept_state) : accept_state := Nat.iter k accept_turn s.

(** The ended bridges are collected before the next connection is accepted. *)
Lemma serve_next s id rest :
  al_alive s = true -> al_dropped s = false -> al_reset s = false -> al_backlog s = Some id :: rest ->
  exists k, k <= S (length (al_bridges s)) /\ let s' := turns k s in
    al_alive s' = true /\ al_backlog s' = rest /\ running s' = running s ++ [id].
Proof.
  remember (length (al_bridges s)) as n eqn:En. revert s En. induction (lt_wf n) as [n _ IH]. intros s En Ha Hd Hr Hb.
  pose proof (join_next_spec (al_bridges s)) as Hj. destruct (join_next (al_bridges s)) as [bs|] eqn:Ej.
  - assert (accept_turn s = s <| al_bridges := bs |>) as Et by (unfold accept_turn; by rewrite Ha, Hd, Hr, Ej).
    destruct Hj as [Hl Hrun].
    destruct (IH (length bs)) with (s := s <| al_bridges := bs |>) as (k & Hk & H); [lia|done..|].
    exists (S k). split; [lia|]. unfold turns. rewrite Nat.iter_succ_r, Et. fold (turns k (s <| al_bridges := bs |>)).
    destruct H as (H1 & H2 & H3). split_and!; [done|done|]. rewrite H3. f_equal. exact Hrun.
  - exists 1. split; [lia|]. cbn. unfold accept_turn. rewrite Ha, Hd, Hr, Ej, Hb. cbn. split_and!; [done|done|].
    unfold running. cbv beta delta [update_field]. cbn [al_bridges]. by rewrite omap_app.
Qed.

(** Resetting the connections of a proxy, when the transport to the host was lost, ends all
    its bridges in one turn and keeps the listener: it stays alive, the connections that wait
    are kept, and the next of them is served although none of the old bridges is. *)
Theorem reset_keeps_listener s id rest :
  al_alive s = true -> al_dropped s = false -> al_backlog s = Some id :: rest ->
  let s1 := accept_turn (accept_happen s ResetConnections) in
  al_alive s1 = true /\ running s1 = [] /\ al_backlog s1 = al_backlog s /\
  exists k, k <= S (length (al_bridges s)) /\ running (turns k s1) = [id] /\ al_backlog (turns k s1) = rest.
Proof.
  intros Ha Hd Hb s1.
  assert (s1 = s <| al_reset := false |> <| al_bridges ::= map (fun b => (b.1, false)) |>) as E.
  { unfold s1, accept_happen, accept_turn. rewrite Hd. destruct s; rsimpl. by subst. }
  assert (running s1 = []) as Hrun.
  { rewrite E. unfold running. clear E. rsimpl. induction (al_bridges s) as [|b bs IH]; [done|]. exact IH. }
  destruct (serve_next s1 id rest) as (k & Hk & _ & H2 & H3); [by rewrite E..|].
  split_and!; [by rewrite E|done|by rewrite E|]. exists k.
  split_and!; [|by rewrite H3, Hrun|done]. rewrite E in Hk. rsimpl. by rewrite length_map in Hk.
Qed.

Lemma leave_running s : running (leave s) = [].
Proof. done. Qed.

(** A proxy does not outlive its handle: once the handle was dropped the next turn ends the
    loop, no matter what else is ready, and a loop that has ended reports that it is not alive
    and runs no bridge, now and after anything that follows. *)
Theorem dropped_proxy_ends es s :
  al_dropped s = true ->
  let s' := foldl accept_happen (accept_turn s) es in (al_alive s = true -> running s' = []) /\ al_alive s' = false.
Proof.
  intros Hd s'.
  assert (forall s es, al_alive s = false -> al_bridges s = [] -> al_bridges (foldl accept_happen s es) = [] /\ al_alive (foldl accept_happen s es) = false) as Hdead.
  { clear. intros s es. revert s. induction es as [|e es IH]; intros s Ha Hb; [done|]. cbn [foldl].
    assert (al_alive (accept_happen s e) = false /\ al_bridges (accept_happen s e) = []) as [? ?]; [|by apply IH].
    destruct e; unfold accept_happen, accept_turn; rewrite ?Ha; cbn; [done|done|by case_match|by rsimpl; rewrite Hb|done]. }
  assert (forall s es, al_alive s = false -> al_alive (foldl accept_happen s es) = false) as Hd2.
  { clear. intros s es. revert s. induction es as [|e es IH]; intros s Ha; [done|]. cbn [foldl]. apply IH.
    destruct e; unfold accept_happen, accept_turn; rewrite ?Ha; cbn; [done|done|by case_match|done|done]. }
  destruct (al_alive s) eqn:Ea.
  - destruct (Hdead (accept_turn s) es) as [H1 H2]; [by unfold accept_turn; rewrite Ea, Hd..|].
    split; [intros _; unfold s', running; by rewrite H1|done].
  - split; [done|]. apply Hd2. unfold accept_turn. by rewrite Ea.
Qed.

(** ** Podman over SSH (executor/podman_ssh.rs) *)

(** A connection to the local socket and the executed "podman system dial-stdio". *)
Record podman_bridge := mkPodman {
  pb_up : half;           (* from the client to the program *)
  pb_down : half;         (* from the program to the client *)
  pb_exited : bool;       (* the program has exited and its error output ended *)
  pb_hup : bool;          (* the client has closed both sides *)
}.

#[export] Instance podman_bridge_updatable : Updatable podman_bridge := fun b =>
  mkPodman (pb_up b) (pb_down b) (pb_exited b) (pb_hup b).

Definition failed_half (h : half) : bool := bool_decide (hf_end h = Some Failed).

(** [bridge_connection]: the request never completes but fails, the response is complete with
    the output and the exit of the program, and [wait_disconnected] ends with the client. *)
Definition podman_over (b : podman_bridge) : bool :=
  failed_half (pb_up b) || (failed_half (pb_down b) || (ended (pb_down b) && pb_exited b)) || pb_hup b.

Inductive podman_event :=
| PClientSends (bytes : list N) | PClientHalfCloses | PClientHangsUp
| PProgramWrites (bytes : list N) | PProgramExits | PProgramUnwritable | PClientUnwritable
| PUp (n : N) | PDown (n : N).

Definition podman_step (b : podman_bridge) (e : podman_event) : podman_bridge :=
  match e with
  | PClientSends bytes => b <| pb_up ::= arrive bytes |>
  | PClientHalfCloses => b <| pb_up ::= close_source |>
  | PClientHangsUp => b <| pb_up ::= close_source |> <| pb_down ::= break_sink |> <| pb_hup := true |>
  | PProgramWrites bytes => if pb_exited b then b else b <| pb_down ::= arrive bytes |>
  | PProgramExits => b <| pb_down ::= close_source |> <| pb_up ::= break_sink |> <| pb_exited := true |>
  | PProgramUnwritable => b <| pb_up ::= break_sink |>
  | PClientUnwritable => b <| pb_down ::= break_sink |>
  | PUp n => if podman_over b then b else b <| pb_up ::= copy_once n |>
  | PDown n => if podman_over b then b else b <| pb_down ::= copy_once n |>
  end.

Definition podman_run (es : list podman_event) : podman_bridge := foldl podman_step (mkPodman fresh_half fresh_half false false) es.

Lemma podman_run_ok es : half_ok (pb_up (podman_run es)) /\ half_ok (pb_down (podman_run es)).
Proof.
  unfold podman_run. induction es as [|e es IH] using rev_ind; [split; by unfold half_ok; cbn|]. rewrite foldl_snoc.
  destruct IH as [H1 H2]. destruct (foldl podman_step _ es) as [up down exited hup]. cbn in H1, H2.
  destruct e; unfold podman_step; rsimpl; repeat (case_match; rsimpl); auto with rumpel.
Qed.

(** A response of Podman is never cut off by the end of the request: a connection that is
    over although the client did not hang up and no copying failed has delivered all that the
    program wrote, and the program has exited; in particular the end of the request alone, a
    half-close, does not end it. *)
Theorem podman_response_complete es :
  let b := podman_run es in
  podman_over b = true -> pb_hup b = false -> failed_half (pb_up b) = false -> failed_half (pb_down b) = false ->
  pb_exited b = true /\ hf_delivered (pb_down b) = hf_sent (pb_down b).
Proof.
  intros b. unfold podman_over. intros Ho Hh Hu Hd. rewrite Hh, Hu, Hd, orb_false_r in Ho. cbn in Ho.
  apply andb_true_iff in Ho as [He Hx]. split; [done|]. destruct (podman_run_ok es) as [_ [_ H]]. fold b in H.
  unfold ended in He. unfold failed_half in Hd. destruct (hf_end (pb_down b)) as [[]|]; [by destruct H| |done].
  by rewrite bool_decide_true in Hd.
Qed.

(** ** Archive uploads *)

(** What [produce] does with its writer. *)
Inductive producer :=
| Write (bytes : list N) (k : result io_error nat -> producer)
| Produced (r : result str unit).

(** The blocking task: producing, sending the error of the archive, or returned. *)
Inductive upload_phase := Producing (p : producer) | Reporting (e : str) | Returned (r : result str unit).

Record upload := mkUpload {
  ul_phase : upload_phase;
  ul_queue : list (result str (list N));      (* the channel *)
  ul_received : list (result str (list N));   (* what the HTTP body has yielded *)
  ul_cancelled : bool;
  ul_closed : bool;                           (* the body was dropped *)
}.

#[export] Instance upload_updatable : Updatable upload := fun u =>
  mkUpload (ul_phase u) (ul_queue u) (ul_received u) (ul_cancelled u) (ul_closed u).

Definition StreamingUpload_new (p : producer) : upload := mkUpload (Producing p) [] [] false false.

Definition CAPACITY : nat := 2.

(** [UploadWriter::send]: the queue and the result; [None] while it blocks. *)
Definition upload_send (chunk : result str (list N)) (u : upload) : option (upload * result io_error unit) :=
  if ul_cancelled u then Some (u, Err BrokenPipe)
  else if ul_closed u then Some (u, Err BrokenPipe)
  else if bool_decide (length (ul_queue u) < CAPACITY) then Some (u <| ul_queue ::= (fun q => q ++ [chunk]) |>, Ok tt)
  else None.

Definition MAX_CHUNK : N := 65536.

(** [UploadWriter::write] *)
Definition upload_write (bytes : list N) (u : upload) : option (upload * result io_error nat) :=
  let n := length (take (N.to_nat MAX_CHUNK) bytes) in
  if bool_decide (n <> 0) then
    match upload_send (Ok (take n bytes)) u with
    | Some (u, Ok _) => Some (u, Ok n)
    | Some (u, Err e) => Some (u, Err e)
    | None => None
    end
  else Some (u, Ok n).

Inductive upload_event := Produce | Consume | Finish | CloseBody.

Definition upload_step (u : upload) (e : upload_event) : upload :=
  match e with
  | Produce =>
      match ul_phase u with
      | Producing (Write bytes k) =>
          match upload_write bytes u with
          | Some (u, r) => u <| ul_phase := Producing (k r) |>
          | None => u
          end
      | Producing (Produced (Err e)) => u <| ul_phase := Reporting e |>
      | Producing (Produced (Ok x)) => u <| ul_phase := Returned (Ok x) |>
      | Reporting e =>
          match upload_send (Err e) u with
          | Some (u, _) => u <| ul_phase := Returned (Err e) |>
          | None => u
          end
      | Returned _ => u
      end
  | Consume =>
      match ul_queue u with
      | chunk :: rest => if ul_closed u then u else u <| ul_queue := rest |> <| ul_received ::= (fun l => l ++ [chunk]) |>
      | [] => u
      end
  | Finish => u <| ul_cancelled := true |>
  | CloseBody => u <| ul_closed := true |>
  end.

Definition upload_run (p : producer) (es : list upload_event) : upload := foldl upload_step (StreamingUpload_new p) es.

(** The body ended without an error. *)
Definition body_complete (u : upload) : bool :=
  match ul_phase u, ul_queue u with Returned _, [] => forallb (fun c => match c with Ok _ => true | Err _ => false end) (ul_received u) | _, _ => false end.

Definition chunks_ok (l : list (result str (list N))) : Prop := Forall (fun c => match c with Ok _ => True | Err _ => False end) l.

Definition upload_ok (u : upload) : Prop :=
  length (ul_queue u) <= CAPACITY /\
  (ul_cancelled u = false -> ul_closed u = false ->
   match ul_phase u with
   | Producing _ | Reporting _ | Returned (Ok _) => chunks_ok (ul_received u ++ ul_queue u)
   | Returned (Err e) => exists l, ul_received u ++ ul_queue u = l ++ [Err e] /\ chunks_ok l
   end).

Lemma send_ok chunk u u' r : upload_send chunk u = Some (u', r) -> length (ul_queue u) <= CAPACITY ->
  length (ul_queue u') <= CAPACITY /\ ul_phase u' = ul_phase u /\
  (ul_cancelled u' = false -> ul_closed u' = false ->
   r = Ok tt /\ ul_cancelled u = false /\ ul_closed u = false /\ ul_received u' ++ ul_queue u' = (ul_received u ++ ul_queue u) ++ [chunk]).
Proof.
  unfold upload_send. destruct (ul_cancelled u) eqn:E1; [intros [= <- <-]; by rewrite ?E1, ?E2|].
  destruct (ul_closed u) eqn:E2; [intros [= <- <-]; by rewrite ?E1, ?E2|].
  case_bool_decide as Hl; [|done]. intros [= <- <-] _. rsimpl. split_and!; [rewrite length_app; cbn; lia|done|].
  intros _ _. split_and!; [done..|]. by rewrite app_assoc.
Qed.

Lemma write_ok bytes u u' r : upload_write bytes u = Some (u', r) -> length (ul_queue u) <= CAPACITY ->
  length (ul_queue u') <= CAPACITY /\
  (ul_cancelled u' = false -> ul_closed u' = false ->
   ul_cancelled u = false /\ ul_closed u = false /\
   exists l, chunks_ok l /\ ul_received u' ++ ul_queue u' = (ul_received u ++ ul_queue u) ++ l).
Proof.
  unfold upload_write. case_bool_decide as Hn.
  - destruct (upload_send _ u) as [[u1 r1]|] eqn:Es; [|done]. intros Hr Hl.
    destruct (send_ok _ _ _ _ Es Hl) as (H1 & _ & H2). assert (u' = u1) as -> by (destruct r1; congruence).
    split; [done|]. intros Hc Hd. destruct (H2 Hc Hd) as (_ & ? & ? & ->). split_and!; [done..|].
    eexists. split; [|done]. by apply Forall_singleton.
  - intros [= <- <-] Hl. split; [done|]. intros Hc Hd. split_and!; [done..|]. exists []. split; [constructor|by rewrite app_nil_r].
Qed.

Lemma upload_step_ok u e : upload_ok u -> upload_ok (upload_step u e).
Proof.
  intros [Hl H]. unfold upload_ok. destruct e; cbn [upload_step].
  - destruct (ul_phase u) as [[bytes k|[x|e]]|e|r] eqn:Ep.
    + destruct (upload_write bytes u) as [[u' r]|] eqn:Ew; [|by rewrite Ep]. destruct (write_ok _ _ _ _ Ew Hl) as [H1 H2].
      rsimpl. split; [done|]. intros Hc Hd. destruct (H2 Hc Hd) as (Hc' & Hd' & l & Hok & ->). apply Forall_app. split; [exact (H Hc' Hd')|done].
    + rsimpl. auto.
    + rsimpl. auto.
    + destruct (upload_send (Err e) u) as [[u' r]|] eqn:Es; [|by rewrite Ep]. destruct (send_ok _ _ _ _ Es Hl) as (H1 & _ & H2).
      rsimpl. split; [done|]. intros Hc Hd. destruct (H2 Hc Hd) as (_ & Hc' & Hd' & ->). eexists. split; [done|]. auto.
    + by rewrite Ep.
  - destruct (ul_queue u) as [|c q] eqn:Eq; [by rewrite Eq|]. destruct (ul_closed u) eqn:Ec; [rewrite Eq, Ec; auto|]. rsimpl.
    split; [lia|]. intros Hc Hd. specialize (H Hc eq_refl). by rewrite <- app_assoc.
  - rsimpl. done.
  - rsimpl. done.
Qed.

Lemma upload_run_ok p es : upload_ok (upload_run p es).
Proof.
  unfold upload_run. induction es as [|e es IH] using rev_ind.
  - split; [cbn; unfold CAPACITY; lia|]. constructor.
  - rewrite foldl_snoc. by apply upload_step_ok.
Qed.

(** [C39] An archive that could not be produced is never taken for a complete one: as long as the
    upload is not cancelled, a body that ends without an error comes from a producer that
    succeeded.  The channel never holds more than two chunks. *)
Theorem failed_archive_not_complete p es :
  let u := upload_run p es in
  length (ul_queue u) <= CAPACITY /\
  (ul_cancelled u = false -> ul_closed u = false -> body_complete u = true -> exists x, ul_phase u = Returned (Ok x)).
Proof.
  intros u. destruct (upload_run_ok p es) as [Hl H]. fold u in Hl, H. split; [done|]. intros Hc Hd. specialize (H Hc Hd).
  unfold body_complete. destruct (ul_phase u) as [|e|[x|e]]; [done|done|by exists x|].
  destruct (ul_queue u) as [|c q]; [|done]. rewrite app_nil_r in H. destruct H as (l & -> & _). rewrite forallb_app. cbn.
  by rewrite andb_false_r.
Qed.

(** Finishing an upload never hangs: once it was cancelled, or the body dropped, no write
    blocks, and the producer returns after as many turns as it has writes left, whether or not
    anyone reads. *)
Theorem upload_finish_returns u :
  ul_cancelled u = true \/ ul_closed u = true -> exists k r, ul_phase (Nat.iter k (fun u => upload_step u Produce) u) = Returned r.
Proof.
  intros Hc.
  assert (forall chunk u, ul_cancelled u = true \/ ul_closed u = true -> upload_send chunk u = Some (u, Err BrokenPipe)) as Hsend.
  { clear. intros chunk u H. unfold upload_send. destruct (ul_cancelled u); [done|]. destruct H as [H|H]; [done|]. by rewrite H. }
  assert (forall e u, ul_cancelled u = true \/ ul_closed u = true -> ul_phase u = Reporting e ->
            exists k r, ul_phase (Nat.iter k (fun u => upload_step u Produce) u) = Returned r) as Hrep.
  { clear -Hsend. intros e u Hc Hp. exists 1, (Err e). cbn. rewrite Hp, Hsend by done. done. }
  destruct (ul_phase u) as [p|e|r] eqn:Ep; [|by eapply Hrep|by exists 0, r].
  revert u Hc Ep. induction p as [bytes k IH|r]; intros u Hc Ep.
  - assert (exists r, upload_step u Produce = u <| ul_phase := Producing (k r) |>) as [r Er].
    { cbn. rewrite Ep. unfold upload_write. case_bool_decide; [rewrite Hsend by done|]; by eexists. }
    destruct (IH r (u <| ul_phase := Producing (k r) |>)) as (n & r' & Hn); [done..|]. exists (S n), r'.
    rewrite Nat.iter_succ_r, Er. exact Hn.
  - destruct r as [x|e].
    + exists 1, (Ok x). cbn. by rewrite Ep.
    + destruct (Hrep e (u <| ul_phase := Reporting e |>)) as (n & r' & Hn); [done..|]. exists (S n), r'.
      rewrite Nat.iter_succ_r. cbn [upload_step]. rewrite Ep. exact Hn.
Qed.

(** ** Port files *)

(** The file of a port: its text, [None] when it is absent.  Other read errors are errors of the
    readers too. *)
Definition U16_MAX : N := 65535.

Definition parse_port (raw : str) : result str N :=
  let trimmed := trim raw in
  if bool_decide (trimmed = []) then Err (lit "port file is empty")
  else context (lit "parsing port file") (parse_uint U16_MAX trimmed).

Definition read_required (file : result str (option str)) : result str N :=
  match file with
  | Ok (Some raw) => parse_port raw
  | _ => Err (lit "reading port file")
  end.

Definition read_preferred (file : result str (option str)) : result str (option N) :=
  match file with
  | Ok (Some raw) => port ← parse_port raw; Ok (Some port)
  | Ok None => Ok None
  | Err _ => Err (lit "reading port file")
  end.

(** [write_atomic] replaces the file as a whole; [remove_if_present] succeeds when it is absent. *)
Definition write_atomic (port : N) (file : option str) : option str := Some (show port).
Definition remove_if_present (file : option str) : option str := None.

Lemma trim_digits s : Forall (fun c => is_ascii_digit c = true) s -> trim s = s.
Proof.
  intros H. assert (forall x, is_ascii_digit x = true -> is_whitespace x = false) as Hd.
  { intros x Hx. unfold is_ascii_digit in Hx. apply in_range_true in Hx. apply not_true_is_false. unfold is_whitespace.
    rewrite !orb_true_iff, !in_range_true, bool_decide_eq_true, !elem_of_cons, elem_of_nil. lia. }
  apply trim_id.
  - intros x r ->. apply Hd. by apply Forall_cons in H as [? _].
  - intros x r ->. apply Hd. apply Forall_app in H as [_ H]. by apply Forall_cons in H as [? _].
Qed.

(** A port that was written is read back, by both readers, whatever the file held before; a
    file that was removed is reported as absent; and a reader that returns a port read it from
    the file, there is no default. *)
Theorem port_file_roundtrip port old :
  (port <= U16_MAX)%N ->
  read_required (Ok (write_atomic port old)) = Ok port /\
  read_preferred (Ok (write_atomic port old)) = Ok (Some port) /\
  read_preferred (Ok (remove_if_present old)) = Ok None /\
  (exists e, read_required (Ok (remove_if_present old)) = Err e) /\
  forall file p, read_required file = Ok p -> (p <= U16_MAX)%N /\
    exists raw, file = Ok (Some raw) /\ parse_uint U16_MAX (trim raw) = Some p /\ read_preferred file = Ok (Some p).
Proof.
  intros Hp.
  assert (parse_port (show port) = Ok port) as E.
  { unfold parse_port. rewrite trim_digits by apply show_digits. rewrite bool_decide_false; [by rewrite parse_uint_show|].
    destruct (show_head port) as (c & r & -> & _). done. }
  cbn. rewrite E. split_and!; [done|done|done|by eexists|].
  intros [[raw|]|e] p; cbn; [|done|done]. unfold parse_port. case_bool_decide; [done|].
  destruct (parse_uint U16_MAX (trim raw)) as [q|] eqn:Eq; [|done]. cbn. intros [= ->]. split; [|by exists raw].
  unfold parse_uint in Eq. by repeat case_match; simplify_eq; case_bool_decide.
Qed.

(** ** Witnesses *)

Definition exchange : list chain_event :=
  [ClientSends [1; 2]; HostUp BUFFER; ClientCloses; HostUp BUFFER; PodUp BUFFER; PodUp BUFFER; ServerSends [7; 8; 9]]%N.

Definition finish_exchange : list chain_event := [PodDown BUFFER; ServerCloses; PodDown BUFFER; HostDown BUFFER; HostDown BUFFER].

Lemma proxied_bytes_exact_witness :
  hf_delivered (dx_up (ch_pod (chain_run ForwardedTcp (exchange ++ finish_exchange)))) = [1; 2]%N /\
  hf_delivered (dx_down (ch_host (chain_run ForwardedTcp (exchange ++ finish_exchange)))) = [7; 8; 9]%N.
Proof.
  destruct (proxied_bytes_exact ForwardedTcp (exchange ++ finish_exchange)) as (_ & _ & Hu & Hd).
  split; [rewrite Hu|rewrite Hd]; try (vm_compute; reflexivity); intros H; vm_compute in H; discriminate H.
Defined.

Lemma replies_after_half_close_witness :
  exists i j, hf_delivered (dx_down (ch_host (chain_run ForwardedTcp (exchange ++ replicate i (PodDown 1) ++ replicate j (HostDown 1))))) = [7; 8; 9]%N.
Proof.
  destruct (replies_after_half_close exchange) as (i & j & H);
    [vm_compute; reflexivity|vm_compute; reflexivity|intros E; vm_compute in E; discriminate E
    |vm_compute; reflexivity|vm_compute; reflexivity|intros E; vm_compute in E; discriminate E|].
  exists i, j. rewrite H. vm_compute. reflexivity.
Defined.

Lemma http_request_abandoned_witness :
  hf_delivered (dx_down (ch_host (chain_run PodHttp (exchange ++ finish_exchange)))) = [].
Proof. rewrite (http_request_abandoned exchange finish_exchange); vm_compute; reflexivity. Defined.

Lemma server_half_close_loses_input_witness :
  hf_delivered (dx_up (ch_pod (chain_run ForwardedTcp ([ClientSends [1; 2]%N; HostUp BUFFER; ServerCloses; PodDown 1] ++ [PodUp 2; PodUp 2])))) = [].
Proof. apply (server_half_close_loses_input ForwardedTcp [1; 2]%N [PodUp 2; PodUp 2]). discriminate. Defined.

Lemma podman_response_complete_witness :
  hf_delivered (pb_down (podman_run [PClientHalfCloses; PUp 1; PProgramWrites [1; 2]%N; PProgramExits; PDown BUFFER; PDown 1])) = [1; 2]%N.
Proof. apply (podman_response_complete [PClientHalfCloses; PUp 1; PProgramWrites [1; 2]%N; PProgramExits; PDown BUFFER; PDown 1]); vm_compute; reflexivity. Defined.

Definition busy_listener : accept_state := mkAccept true false false [(1%N, true); (2%N, false)] [Some 3%N].

Lemma reset_keeps_listener_witness :
  exists k, running (turns k (accept_turn (accept_happen busy_listener ResetConnections))) = [3%N].
Proof.
  destruct (reset_keeps_listener busy_listener 3%N []) as (_ & _ & _ & k & _ & H & _); [reflexivity..|]. exists k. exact H.
Defined.

Lemma dropped_proxy_ends_witness :
  running (foldl accept_happen (accept_turn (accept_happen busy_listener DropHandle)) [Connects (Some 4%N); Turn]) = [].
Proof. apply (dropped_proxy_ends [Connects (Some 4%N); Turn] (accept_happen busy_listener DropHandle)); reflexivity. Defined.

(** An archive whose third write fails after the body was read. *)
Definition failing_archive : producer :=
  Write [1]%N (fun _ => Write [2]%N (fun _ => Produced (Err (lit "unreadable file")))).

Lemma failed_archive_not_complete_witness :
  exists x, ul_phase (upload_run (Write [1]%N (fun _ => Produced (Ok tt))) [Produce; Produce; Consume]) = Returned (Ok x).
Proof.
  apply (proj2 (failed_archive_not_complete (Write [1]%N (fun _ => Produced (Ok tt))) [Produce; Produce; Consume])); reflexivity.
Defined.

Lemma upload_finish_returns_witness :
  exists k r, ul_phase (Nat.iter k (fun u => upload_step u Produce) (upload_run failing_archive [Produce; Produce; Produce; Produce; Finish])) = Returned r.
Proof. apply (upload_finish_returns (upload_run failing_archive [Produce; Produce; Produce; Produce; Finish])). left. reflexivity. Defined.

Lemma port_file_roundtrip_witness : read_required (Ok (write_atomic 8080 None)) = Ok 8080%N.
Proof. apply (port_file_roundtrip 8080 None). unfold U16_MAX. lia. Defined.
