(* ===== verification/Registry.v ===== *)
(** * The registry client (registry.rs)

    The user of a base image is read from its registry without pulling it: an image reference is
    parsed, the registry is probed for the authentication it wants, credentials are looked up in
    the authentication files, and the manifest and the configuration of the image are fetched.
    [send] is the HTTP client with the registry behind it, [from_str] the JSON parser, [decode64]
    the base64 decoder, [read_file] and [run_helper] the files and the credential helpers of the
    host.  The requests that are sent are recorded, in order. *)
From S2P Require Import Prelude Strs Hosts Bytes Json ExecStream Hooks Compose.

(** ** Image references *)

Record ImageRef := mkImageRef { registry : str; repository : str; reference : str }.

#[export] Instance ImageRef_eq_dec : EqDecision ImageRef.
Proof. solve_decision. Defined.

Definition HUB : str := lit "registry-1.docker.io".

Definition auth_config_key (r : ImageRef) : str :=
  if bool_decide (registry r = HUB) then lit "https://index.docker.io/v1/" else registry r.

(** The name and the tag or digest. *)
Definition split_reference (image : str) : str * str :=
  match split_once c_at image with
  | Some (name, digest) => (name, digest)
  | None =>
      match rsplit_once c_colon image with
      | Some (name, tag) => if contains_char c_slash tag then (image, lit "latest") else (name, tag)
      | None => (image, lit "latest")
      end
  end.

Definition is_hostname (first : str) : bool :=
  contains_char c_dot first || contains_char c_colon first || bool_decide (first = lit "localhost").

Definition split_registry (name : str) : str * str :=
  match split_once c_slash name with
  | Some (first, rest) => if is_hostname first then (first, rest) else (lit "docker.io", name)
  | None => (lit "docker.io", lit "library/" ++ name)
  end.

Definition hub_host (registry : str) : str := if bool_decide (registry = lit "docker.io") then HUB else registry.

Definition parse_image_ref (image : str) : ImageRef :=
  let '(name, reference) := split_reference image in
  let '(registry, repository) := split_registry name in
  mkImageRef (hub_host registry) repository reference.

Definition registry_scheme (registry : str) : str :=
  let host := hd registry (split c_colon registry) in
  if bool_decide (host = lit "localhost") || ends_with (lit ".localhost") host || starts_with (lit "127.") host ||
     starts_with (lit "10.") host || starts_with (lit "192.168.") host
  then lit "http" else lit "https".

(** ** Challenges *)

Inductive AuthChallenge := Bearer_challenge (realm service : str) | Basic_challenge.
Inductive Credential := Bearer (token : str) | Basic (user pass : str).

#[export] Instance Credential_eq_dec : EqDecision Credential.
Proof. solve_decision. Defined.

Definition eq_ignore_ascii_case (a b : str) : bool := bool_decide (map to_ascii_lowercase a = map to_ascii_lowercase b).

(** The last value of each of the two parameters. *)
Definition challenge_part (acc : option str * option str) (part : str) : option str * option str :=
  match split_once c_eq (trim part) with
  | Some (key, value) =>
      let value := trim_matches c_quote value in
      if bool_decide (trim key = lit "realm") then (Some value, acc.2)
      else if bool_decide (trim key = lit "service") then (acc.1, Some value)
      else acc
  | None => acc
  end.

Definition parse_www_authenticate (header : str) : result str AuthChallenge :=
  let '(scheme_word, rest) := default (header, []) (split_once c_space header) in
  let '(realm, service) := foldl challenge_part (None, None) (split c_comma rest) in
  if eq_ignore_ascii_case scheme_word (lit "Bearer") then
    realm ← context (lit "missing realm in Bearer challenge") realm;
    Ok (Bearer_challenge realm (default [] service))
  else if eq_ignore_ascii_case scheme_word (lit "Basic") then Ok Basic_challenge
  else Err (lit "unsupported auth scheme " ++ scheme_word ++ lit "; expected Bearer or Basic").

(** ** Credentials *)

(** The environment that the files are looked up in. *)
Record auth_env := mkAuthEnv { ae_registry_auth_file : option str; ae_home : option str; ae_runtime_dir : option str }.

Definition auth_config_paths (e : auth_env) : list str :=
  option_list (ae_registry_auth_file e) ++
  option_list ((fun home => path_join home (lit ".docker/config.json")) <$> ae_home e) ++
  option_list ((fun dir => path_join dir (lit "containers/auth.json")) <$> ae_runtime_dir e) ++
  option_list ((fun home => path_join home (lit ".config/containers/auth.json")) <$> ae_home e).

Record request := mkRequest { rq_url : str; rq_query : list (str * str); rq_auth : option Credential }.
Record response := mkResponse { rs_status : N; rs_www_authenticate : option str; rs_text : str }.

(** The requests that were sent, and a result. *)
Abbreviation logged A := (list request * result str A)%type.

(** Chained [Value::get]. *)
Fixpoint json_path (ks : list str) (j : json) : option json :=
  match ks with
  | [] => Some j
  | k :: ks => json_get k j ≫= json_path ks
  end.

Section Client.
  Variable from_str : str -> option json.
  Variable decode64 : str -> option (list N).
  Variable read_file : str -> option str.
  Variable run_helper : str -> str -> option str.   (* the output of "docker-credential-X get" *)

Definition auth_candidates (registry : str) : list str :=
  [registry; lit "https://" ++ registry; lit "https://" ++ registry ++ lit "/v1/"; lit "https://" ++ registry ++ lit "/v2/"].

(** One entry of "auths". *)
Definition auth_entry (auths : json) (key : str) : option (str * str) :=
  auth ← json_path [key; lit "auth"] auths ≫= as_string;
  decoded ← decode64 auth ≫= from_utf8;
  split_once c_colon decoded.

Fixpoint first_some {A B} (f : A -> option B) (l : list A) : option B :=
  match l with
  | [] => None
  | x :: l => match f x with Some y => Some y | None => first_some f l end
  end.

Definition credentials_from_auths (config : json) (registry : str) : option (str * str) :=
  auths ← json_get (lit "auths") config;
  first_some (auth_entry auths) (auth_candidates registry).

(** A field of the answer of a helper, under either of its names. *)
Definition aliased (a b : str) (j : json) : option str :=
  match json_get a j, json_get b j with
  | Some x, None | None, Some x => as_string x
  | _, _ => None
  end.

Definition credentials_from_helper (helper registry : str) : option (str * str) :=
  stdout ← run_helper (lit "docker-credential-" ++ helper) registry;
  j ← from_str stdout;
  username ← aliased (lit "username") (lit "Username") j;
  secret ← aliased (lit "secret") (lit "Secret") j;
  Some (username, secret).

Definition credentials_from_config (path registry : str) : option (str * str) :=
  content ← read_file path;
  config ← from_str content;
  let from_cred_helpers :=
    helper ← json_path [lit "credHelpers"; registry] config ≫= as_string; credentials_from_helper helper registry in
  let from_store :=
    store ← json_get (lit "credsStore") config ≫= as_string; credentials_from_helper store registry in
  match from_cred_helpers with
  | Some c => Some c
  | None => match from_store with Some c => Some c | None => credentials_from_auths config registry end
  end.

Definition registry_credentials (e : auth_env) (registry : str) : option (str * str) :=
  first_some (fun path => credentials_from_config path registry) (auth_config_paths e).

(** ** Requests *)

Variable send : request -> result str response.

Definition log_bind {A B} (m : logged A) (k : A -> logged B) : logged B :=
  match m with
  | (log, Ok a) => let '(log', r) := k a in (log ++ log', r)
  | (log, Err e) => (log, Err e)
  end.

Local Notation "'let+' x := m 'in' k" := (log_bind m (fun x => k)) (at level 100, x pattern, right associativity).

Definition give {A} (r : result str A) : logged A := ([], r).

Definition get (r : request) : logged response := ([r], send r).

Definition is_success (status : N) : bool := in_range 200 299 status.

(** [error_for_status] fails for 4xx and 5xx. *)
Definition error_for_status (r : response) : result str response :=
  if in_range 400 599 (rs_status r) then Err (lit "HTTP status error") else Ok r.

Definition json_body (r : response) : result str json := context (lit "parsing JSON") (from_str (rs_text r)).

Definition manifest_url (scheme : str) (r : ImageRef) : str :=
  scheme ++ lit "://" ++ registry r ++ lit "/v2/" ++ repository r ++ lit "/manifests/" ++ reference r.
Definition blob_url (scheme : str) (r : ImageRef) (digest : str) : str :=
  scheme ++ lit "://" ++ registry r ++ lit "/v2/" ++ repository r ++ lit "/blobs/" ++ digest.
Definition probe_url (scheme : str) (r : ImageRef) : str := scheme ++ lit "://" ++ registry r ++ lit "/v2/".

Definition token_of (j : json) : option str :=
  match json_get (lit "token") j with
  | Some t => as_string t
  | None => json_get (lit "access_token") j ≫= as_string
  end.

Definition authenticate (e : auth_env) (image_ref : ImageRef) (scheme : str) : logged (option Credential) :=
  let+ resp := get (mkRequest (probe_url scheme image_ref) [] None) in
  if negb (bool_decide (rs_status resp = 401%N)) then give (Ok None)
  else
    let+ www_auth := give (context (lit "registry returned 401 without WWW-Authenticate header") (rs_www_authenticate resp)) in
    let+ challenge := give (parse_www_authenticate www_auth) in
    match challenge with
    | Bearer_challenge realm service =>
        let scope := lit "repository:" ++ repository image_ref ++ lit ":pull" in
        let auth := (fun up => Basic up.1 up.2) <$> registry_credentials e (auth_config_key image_ref) in
        let+ resp := get (mkRequest realm [(lit "scope", scope); (lit "service", service)] auth) in
        let+ token_resp := give (r ← error_for_status resp; json_body r) in
        let+ token := give (context (lit "no token in auth response") (token_of token_resp)) in
        give (Ok (Some (Bearer token)))
    | Basic_challenge =>
        let+ up := give (context (lit "registry requires Basic auth but no credentials are configured")
                           (registry_credentials e (auth_config_key image_ref))) in
        give (Ok (Some (Basic up.1 up.2)))
    end.

Definition fetch_manifest (image_ref : ImageRef) (scheme : str) (cred : option Credential) : logged json :=
  let+ resp := get (mkRequest (manifest_url scheme image_ref) [] cred) in
  give (r ← error_for_status resp; json_body r).

Definition fetch_blob (image_ref : ImageRef) (scheme digest : str) (cred : option Credential) : logged json :=
  let+ resp := get (mkRequest (blob_url scheme image_ref digest) [] cred) in
  give (r ← error_for_status resp; json_body r).

Definition MANIFESTS : list str :=
  [lit "application/vnd.docker.distribution.manifest.v2+json"; lit "application/vnd.oci.image.manifest.v1+json"].
Definition INDEXES : list str :=
  [lit "application/vnd.docker.distribution.manifest.list.v2+json"; lit "application/vnd.oci.image.index.v1+json"].

Definition media_type (manifest : json) : str := default [] (json_get (lit "mediaType") manifest ≫= as_string).

Definition own_digest (manifest : json) : option str :=
  json_path [lit "config"; lit "digest"] manifest ≫= as_string.

(** The digest of the first entry of an index. *)
Definition first_digest (manifest : json) : result str str :=
  manifests ← context (lit "manifest list has no manifests array") (json_get (lit "manifests") manifest ≫= as_array);
  entry ← context (lit "manifest list is empty") (head manifests);
  context (lit "manifest entry has no digest") (json_get (lit "digest") entry ≫= as_string).

(** [None]: more nested indexes than the fuel. *)
Fixpoint config_digest_from_manifest (fuel : nat) (manifest : json) (image_ref : ImageRef) (scheme : str) (cred : option Credential)
    : option (logged str) :=
  if bool_decide (media_type manifest ∈ MANIFESTS) then Some (give (context (lit "manifest has no config digest") (own_digest manifest)))
  else if bool_decide (media_type manifest ∈ INDEXES) then
    match first_digest manifest with
    | Err e => Some (give (Err e))
    | Ok digest =>
        match fetch_manifest (mkImageRef (registry image_ref) (repository image_ref) digest) scheme cred with
        | (log, Err e) => Some (log, Err e)
        | (log, Ok platform_manifest) =>
            match fuel with
            | 0 => None
            | S fuel =>
                '(log', r) ← config_digest_from_manifest fuel platform_manifest image_ref scheme cred; Some (log ++ log', r)
            end
        end
    end
  else Some (give (Err (lit "unsupported manifest media type: " ++ media_type manifest))).

Definition config_user (config : json) : str :=
  default [] (json_path [lit "config"; lit "User"] config ≫= as_string).

(** [fetch_image_user_async] *)
Definition fetch_image_user (fuel : nat) (e : auth_env) (image : str) : option (logged str) :=
  let image_ref := parse_image_ref image in
  let scheme := registry_scheme (registry image_ref) in
  match (let+ cred := authenticate e image_ref scheme in
         let+ manifest := fetch_manifest image_ref scheme cred in give (Ok (cred, manifest))) with
  | (log, Err e) => Some (log, Err e)
  | (log, Ok (cred, manifest)) =>
      '(log', r) ← config_digest_from_manifest fuel manifest image_ref scheme cred;
      Some (let+ _ := (log ++ log', Ok tt) in
            let+ digest := give r in
            let+ config := fetch_blob image_ref scheme digest cred in give (Ok (config_user config)))
  end.

(** [image_manifest_exists_async] *)
Definition image_manifest_exists (e : auth_env) (image : str) : logged bool :=
  let image_ref := parse_image_ref image in
  let scheme := registry_scheme (registry image_ref) in
  let+ cred := authenticate e image_ref scheme in
  let+ resp := get (mkRequest (manifest_url scheme image_ref) [] cred) in
  if is_success (rs_status resp) then give (Ok true)
  else if bool_decide (rs_status resp = 404%N) then give (Ok false)
  else
    let text_lower := map to_ascii_lowercase (rs_text resp) in
    if contains_str (lit "manifest unknown") text_lower || contains_str (lit "not found") text_lower then give (Ok false)
    else give (Err (lit "registry manifest lookup failed for " ++ image)).
End Client.

(** ** References are parsed as written *)

Lemma contains_char_true c s : contains_char c s = true <-> c ∈ s.
Proof. apply bool_decide_eq_true. Qed.

Lemma split_reference_digest name digest : c_at ∉ name -> split_reference (name ++ [c_at] ++ digest) = (name, digest).
Proof. intros H. unfold split_reference. by rewrite (proj2 (split_once_Some c_at _ name digest)). Qed.

Lemma split_reference_tag name tag : c_at ∉ name -> c_at ∉ tag -> c_slash ∉ tag -> c_colon ∉ tag ->
  split_reference (name ++ [c_colon] ++ tag) = (name, tag).
Proof.
  intros H1 H2 H3 H4. unfold split_reference.
  rewrite (proj2 (split_once_None c_at _)) by (rewrite !not_elem_of_app; split_and!; [done|decide_now|done]).
  rewrite (proj2 (rsplit_once_Some c_colon _ name tag)) by done. unfold contains_char. by rewrite bool_decide_false.
Qed.

Lemma split_reference_latest name : c_at ∉ name -> (forall a b, name = a ++ c_colon :: b -> c_slash ∈ b) ->
  split_reference name = (name, lit "latest").
Proof.
  intros H1 H2. unfold split_reference. rewrite (proj2 (split_once_None c_at _)) by done.
  destruct (rsplit_once c_colon name) as [[a b]|] eqn:E; [|done]. apply rsplit_once_Some in E as [E _].
  unfold contains_char. by rewrite bool_decide_true by (by eapply H2).
Qed.

Lemma split_registry_host host repo : is_hostname host = true -> c_slash ∉ host -> split_registry (host ++ [c_slash] ++ repo) = (host, repo).
Proof. intros H1 H2. unfold split_registry. rewrite (proj2 (split_once_Some c_slash _ host repo)) by done. by rewrite H1. Qed.

(** An image reference with an explicit registry is parsed into its parts: registry, port
    included, repository, and tag or digest, with "latest" when neither is given. *)
Theorem explicit_reference_parsed host repo tag :
  is_hostname host = true -> c_slash ∉ host -> c_at ∉ host -> c_at ∉ repo ->
  (c_at ∉ tag -> c_slash ∉ tag -> c_colon ∉ tag ->
   parse_image_ref (host ++ [c_slash] ++ repo ++ [c_colon] ++ tag) = mkImageRef (hub_host host) repo tag) /\
  parse_image_ref (host ++ [c_slash] ++ repo ++ [c_at] ++ tag) = mkImageRef (hub_host host) repo tag /\
  (c_colon ∉ repo -> parse_image_ref (host ++ [c_slash] ++ repo) = mkImageRef (hub_host host) repo (lit "latest")).
Proof.
  intros Hh Hs Ha Hr.
  assert (c_at ∉ host ++ [c_slash] ++ repo) as Hname by (rewrite !not_elem_of_app; split_and!; [done|decide_now|done]).
  unfold parse_image_ref. split_and!.
  - intros H1 H2 H3. rewrite !app_assoc, <- (app_assoc host). rewrite <- (app_assoc (host ++ _)).
    rewrite split_reference_tag by done. by rewrite split_registry_host.
  - rewrite !app_assoc, <- (app_assoc host). rewrite <- (app_assoc (host ++ _)).
    rewrite split_reference_digest by done. by rewrite split_registry_host.
  - intros Hc. rewrite split_reference_latest; [by rewrite split_registry_host|done|].
    intros a b E. destruct (decide (c_slash ∈ b)) as [|Hb]; [done|]. exfalso.
    assert (forall l l' x y : list N, c_slash ∉ y -> l ++ c_slash :: l' = x ++ c_colon :: y -> c_colon ∈ l') as Hgen.
    { clear. intros l. induction l as [|z l IH]; intros l' x y Hy E.
      - destruct x as [|z x]; cbn in E; [done|]. injection E as <- ->. rewrite elem_of_app. right. left.
      - destruct x as [|z' x]; cbn in E.
        + injection E as -> E. destruct Hy. rewrite <- E, elem_of_app. right. left.
        + injection E as -> E. by eapply IH. }
    apply Hc. by eapply (Hgen host).
Qed.

(** Docker Hub shorthand is completed: a bare name is in "library", and a name whose first
    part does not look like a host is a repository of Docker Hub. *)
Theorem hub_reference_parsed name user tag :
  c_slash ∉ name -> c_at ∉ name -> c_slash ∉ user -> c_at ∉ user -> is_hostname user = false ->
  c_at ∉ tag -> c_slash ∉ tag -> c_colon ∉ tag ->
  parse_image_ref (name ++ [c_colon] ++ tag) = mkImageRef HUB (lit "library/" ++ name) tag /\
  parse_image_ref ((user ++ [c_slash] ++ name) ++ [c_colon] ++ tag) = mkImageRef HUB (user ++ [c_slash] ++ name) tag.
Proof.
  intros Hn Hna Hu Hua Hh H1 H2 H3.
  assert (hub_host (lit "docker.io") = HUB) as Ehub by reflexivity. split; unfold parse_image_ref.
  - rewrite split_reference_tag by done. unfold split_registry. rewrite (proj2 (split_once_None _ _)) by done. by rewrite Ehub.
  - rewrite split_reference_tag; [|rewrite !not_elem_of_app; split_and!; [done|decide_now|done]|done..].
    unfold split_registry. rewrite (proj2 (split_once_Some c_slash _ user name)) by done. by rewrite Hh, Ehub.
Qed.

(** A reference with both a tag and a digest is not parsed: the tag ends up in the repository. *)
Theorem tag_and_digest_misparsed host repo tag digest :
  is_hostname host = true -> c_slash ∉ host -> c_at ∉ host -> c_at ∉ repo -> c_at ∉ tag ->
  parse_image_ref (host ++ [c_slash] ++ (repo ++ [c_colon] ++ tag) ++ [c_at] ++ digest) =
  mkImageRef (hub_host host) (repo ++ [c_colon] ++ tag) digest.
Proof.
  intros Hh Hs Ha Hr Ht. unfold parse_image_ref. rewrite (app_assoc host), (app_assoc (host ++ _)), <- (app_assoc host).
  rewrite split_reference_digest by (rewrite !not_elem_of_app; split_and!; try done; decide_now).
  by rewrite split_registry_host.
Qed.

(** ** Challenges *)

(** A parameter as a registry writes it. *)
Definition quoted (key value : str) : str := key ++ [c_eq] ++ [c_quote] ++ value ++ [c_quote].

(** A value that needs no escapes. *)
Definition plain_value (s : str) : Prop := c_comma ∉ s /\ c_quote ∉ s.

Lemma trim_matches_quoted value : c_quote ∉ value -> trim_matches c_quote ([c_quote] ++ value ++ [c_quote]) = value.
Proof.
  intros Hq. unfold trim_matches, trim_end_matches, trim_start_matches. cbn [app trim_start_by]. unfold is_char at 2.
  rewrite bool_decide_true by done.
  assert (trim_start_by (is_char c_quote) (value ++ [c_quote]) = if bool_decide (value = []) then [] else value ++ [c_quote]) as ->.
  { destruct value as [|x value]; cbn; [done|]. unfold is_char. rewrite bool_decide_false; [done|]. intros ->. destruct Hq. by left. }
  case_bool_decide; [by subst|]. rewrite trim_end_by_snoc by (unfold is_char; by rewrite bool_decide_true).
  apply trim_end_by_id. intros x r ->. unfold is_char. apply bool_decide_eq_false. intros ->. apply Hq. rewrite elem_of_app. right. left.
Qed.

Lemma trim_quoted key value x k : key = x :: k -> is_whitespace x = false -> trim (quoted key value) = quoted key value.
Proof.
  intros -> Hx. apply trim_id; intros y r; [by intros [= <- _]|]. unfold quoted. rewrite !app_assoc.
  intros [_ <-]%app_inj_tail. reflexivity.
Qed.

Lemma challenge_part_realm acc realm : plain_value realm -> challenge_part acc (quoted (lit "realm") realm) = (Some realm, acc.2).
Proof.
  intros [_ Hq]. unfold challenge_part. rewrite (trim_quoted _ _ 114%N (lit "ealm")) by reflexivity. unfold quoted.
  rewrite (proj2 (split_once_Some c_eq _ (lit "realm") ([c_quote] ++ realm ++ [c_quote]))) by (split; [done|decide_now]).
  rewrite trim_matches_quoted by done. rewrite bool_decide_true by (vm_compute; reflexivity). done.
Qed.

Lemma challenge_part_service acc service : plain_value service -> challenge_part acc (quoted (lit "service") service) = (acc.1, Some service).
Proof.
  intros [_ Hq]. unfold challenge_part. rewrite (trim_quoted _ _ 115%N (lit "ervice")) by reflexivity. unfold quoted.
  rewrite (proj2 (split_once_Some c_eq _ (lit "service") ([c_quote] ++ service ++ [c_quote]))) by (split; [done|decide_now]).
  rewrite trim_matches_quoted by done.
  rewrite bool_decide_false by (intros H; vm_compute in H; discriminate H). rewrite bool_decide_true by (vm_compute; reflexivity). done.
Qed.

(** A challenge is read back: the realm and the service of a Bearer challenge, in any case
    of the scheme and either order of the parameters, come out as the registry wrote them. *)
Theorem bearer_challenge_parsed scheme realm service :
  eq_ignore_ascii_case scheme (lit "Bearer") = true -> c_space ∉ scheme -> plain_value realm -> plain_value service ->
  parse_www_authenticate (scheme ++ [c_space] ++ quoted (lit "realm") realm ++ [c_comma] ++ quoted (lit "service") service) =
    Ok (Bearer_challenge realm service) /\
  parse_www_authenticate (scheme ++ [c_space] ++ quoted (lit "service") service ++ [c_comma] ++ quoted (lit "realm") realm) =
    Ok (Bearer_challenge realm service).
Proof.
  intros Hs Hsp Hr Hv.
  assert (forall k v, c_comma ∉ k -> plain_value v -> c_comma ∉ quoted k v) as Hq.
  { intros k v Hk [Hc _]. unfold quoted. rewrite !not_elem_of_app. split_and!; [done|decide_now|decide_now|done|decide_now]. }
  assert (c_comma ∉ lit "realm" /\ c_comma ∉ lit "service") as [K1 K2] by (split; decide_now).
  assert (forall rest, split_once c_space (scheme ++ [c_space] ++ rest) = Some (scheme, rest)) as H1.
  { intros rest. by apply split_once_Some. }
  assert (forall a b, c_comma ∉ a -> c_comma ∉ b -> split c_comma (a ++ [c_comma] ++ b) = [a; b]) as H2.
  { intros a b Ha Hb. cbn [app]. by rewrite split_cons_sep, split_free. }
  unfold parse_www_authenticate. split; rewrite H1; cbn [from_option default Datatypes.id]; cbv beta iota; rewrite H2 by auto; cbn [foldl].
  - by rewrite challenge_part_realm, challenge_part_service, Hs.
  - by rewrite challenge_part_service, challenge_part_realm, Hs.
Qed.

(** ** Where credentials go *)

Section Scope.
  Variable from_str : str -> option json.
  Variable decode64 : str -> option (list N).
  Variable read_file : str -> option str.
  Variable run_helper : str -> str -> option str.
  Variable send : request -> result str response.

Local Abbreviation credentials := (registry_credentials from_str decode64 read_file run_helper).

Lemma log_forall {A B} (P : request -> Prop) (m : logged A) (k : A -> logged B) :
  Forall P m.1 -> (forall a, m.2 = Ok a -> Forall P (k a).1) -> Forall P (log_bind m k).1.
Proof.
  destruct m as [log [a|e]]; cbn; intros H1 H2; [|done]. specialize (H2 a eq_refl). destruct (k a) as [log' r]. by apply Forall_app.
Qed.

(** The answer of the registry to the probe. *)
Definition challenged (scheme : str) (r : ImageRef) : option AuthChallenge :=
  match send (mkRequest (probe_url scheme r) [] None) with
  | Ok resp =>
      if bool_decide (rs_status resp = 401%N) then
        www ← rs_www_authenticate resp; match parse_www_authenticate www with Ok c => Some c | Err _ => None end
      else None
  | Err _ => None
  end.

(** The request goes to the registry itself. *)
Definition to_registry (scheme : str) (r : ImageRef) (q : request) : Prop := starts_with (probe_url scheme r) (rq_url q) = true.

(** A token that the token server of the registry issued. *)
Definition issued (scheme : str) (r : ImageRef) (token : str) : Prop :=
  exists realm service q resp j, challenged scheme r = Some (Bearer_challenge realm service) /\ rq_url q = realm /\
    send q = Ok resp /\ from_str (rs_text resp) = Some j /\ token_of j = Some token.

(** What a request may carry. *)
Definition scoped_request (e : auth_env) (scheme : str) (r : ImageRef) (q : request) : Prop :=
  match rq_auth q with
  | None => True
  | Some (Basic u p) =>
      credentials e (auth_config_key r) = Some (u, p) /\
      (to_registry scheme r q \/ exists service, challenged scheme r = Some (Bearer_challenge (rq_url q) service))
  | Some (Bearer t) => to_registry scheme r q /\ issued scheme r t
  end.

(** What a credential is good for. *)
Definition scoped_credential (e : auth_env) (scheme : str) (r : ImageRef) (cred : option Credential) : Prop :=
  match cred with
  | None => True
  | Some (Basic u p) => credentials e (auth_config_key r) = Some (u, p)
  | Some (Bearer t) => issued scheme r t
  end.

Lemma scoped_own e scheme r cred q : scoped_credential e scheme r cred -> rq_auth q = cred -> to_registry scheme r q ->
  scoped_request e scheme r q.
Proof. unfold scoped_request, scoped_credential. intros H -> Hu. destruct cred as [[t|u p]|]; auto. Qed.

Lemma authenticate_scoped e r scheme :
  Forall (scoped_request e scheme r) (authenticate from_str decode64 read_file run_helper send e r scheme).1 /\
  forall cred, (authenticate from_str decode64 read_file run_helper send e r scheme).2 = Ok cred -> scoped_credential e scheme r cred.
Proof.
  unfold authenticate, get. set (probe := mkRequest (probe_url scheme r) [] None).
  destruct (send probe) as [resp|err] eqn:Es; cbn; [|split; [by apply Forall_singleton|done]].
  destruct (bool_decide_reflect (rs_status resp = 401%N)) as [E401|E401]; cbn; [|split; [by apply Forall_singleton|by intros cred [= <-]]].
  destruct (rs_www_authenticate resp) as [www|] eqn:Ew; cbn; [|split; [by apply Forall_singleton|done]].
  destruct (parse_www_authenticate www) as [c|err] eqn:Ec; cbn; [|split; [by apply Forall_singleton|done]].
  assert (challenged scheme r = Some c) as Hch.
  { unfold challenged. fold probe. rewrite Es, bool_decide_true, Ew by done. cbn. by rewrite Ec. }
  destruct c as [realm service|].
  - set (q := mkRequest realm _ _).
    assert (Forall (scoped_request e scheme r) [probe; q]) as Hlog.
    { apply Forall_cons_2; [done|]. apply Forall_singleton. unfold scoped_request, q. cbn [rq_auth rq_url].
      destruct (credentials e (auth_config_key r)) as [[u p]|]; cbn; [|done]. eauto. }
    destruct (send q) as [resp2|err] eqn:Eq; cbn; [|done].
    destruct (error_for_status resp2) as [resp3|err] eqn:E3; cbn; [|done].
    assert (resp3 = resp2) as -> by (unfold error_for_status in E3; case_match; [done|congruence]).
    unfold json_body. destruct (from_str (rs_text resp2)) as [j|] eqn:Ej; cbn; [|done].
    destruct (token_of j) as [t|] eqn:Et; cbn; [|done]. split; [done|]. intros cred [= <-]. by exists realm, service, q, resp2, j.
  - destruct (credentials e (auth_config_key r)) as [[u p]|] eqn:Ek; cbn; (split; [by apply Forall_singleton|]); [|done].
    by intros cred [= <-].
Qed.

Lemma manifest_to_registry scheme r q : registry q = registry r -> starts_with (probe_url scheme r) (manifest_url scheme q) = true.
Proof.
  intros E. apply starts_with_true. unfold probe_url, manifest_url. rewrite E. exists (repository q ++ lit "/manifests/" ++ reference q).
  by rewrite <- !app_assoc.
Qed.

Lemma blob_to_registry scheme r d : starts_with (probe_url scheme r) (blob_url scheme r d) = true.
Proof. apply starts_with_true. unfold probe_url, blob_url. exists (repository r ++ lit "/blobs/" ++ d). by rewrite <- !app_assoc. Qed.

Lemma fetch_manifest_log q scheme cred :
  (fetch_manifest from_str send q scheme cred).1 = [mkRequest (manifest_url scheme q) [] cred].
Proof. unfold fetch_manifest, get, give, log_bind. by destruct (send _). Qed.

Lemma fetch_blob_log q scheme d cred : (fetch_blob from_str send q scheme d cred).1 = [mkRequest (blob_url scheme q d) [] cred].
Proof. unfold fetch_blob, get, give, log_bind. by destruct (send _). Qed.

Lemma fetch_manifest_scoped e r scheme cred q : scoped_credential e scheme r cred -> registry q = registry r ->
  Forall (scoped_request e scheme r) (fetch_manifest from_str send q scheme cred).1.
Proof.
  intros Hc E. rewrite fetch_manifest_log. apply Forall_singleton. eapply scoped_own; [exact Hc|done|]. by apply manifest_to_registry.
Qed.

Lemma config_digest_scoped e r scheme cred fuel m log res : scoped_credential e scheme r cred ->
  config_digest_from_manifest from_str send fuel m r scheme cred = Some (log, res) -> Forall (scoped_request e scheme r) log.
Proof.
  intros Hc. revert m log res. induction fuel as [|fuel IH]; intros m log res; cbn [config_digest_from_manifest];
    (case_bool_decide; [by intros [= <- <-]|]; case_bool_decide; [|by intros [= <- <-]]);
    (destruct (first_digest m) as [d|err]; [|by intros [= <- <-]]).
  all: pose proof (fetch_manifest_scoped e r scheme cred (mkImageRef (registry r) (repository r) d) Hc eq_refl) as Hf.
  all: destruct (fetch_manifest _ _ _ _ _) as [log1 [m'|err]]; [|by intros [= <- <-]]; try done.
  destruct (config_digest_from_manifest _ _ fuel m' r scheme cred) as [[log2 r2]|] eqn:E; [|done]. intros [= <- <-].
  apply Forall_app. split; [done|]. by eapply IH.
Qed.

(** Credentials stay with their registry.  Of all requests that looking up the user of an
    image sends, however the registry answers, those with configured credentials carry the ones
    that are configured for this registry, and go to the registry itself or to the token server
    that its own challenge named; those with a token go to the registry, with a token that this
    token server issued. *)
Theorem credentials_stay_with_registry fuel e image log res :
  fetch_image_user from_str decode64 read_file run_helper send fuel e image = Some (log, res) ->
  Forall (scoped_request e (registry_scheme (registry (parse_image_ref image))) (parse_image_ref image)) log.
Proof.
  unfold fetch_image_user. set (r := parse_image_ref image). set (scheme := registry_scheme (registry r)).
  destruct (authenticate_scoped e r scheme) as [Ha Hcred].
  destruct (authenticate _ _ _ _ _ e r scheme) as [log0 [cred|err]]; cbn [log_bind fst snd] in *; [|by intros [= <- <-]].
  specialize (Hcred cred eq_refl). pose proof (fetch_manifest_scoped e r scheme cred r Hcred eq_refl) as Hm.
  destruct (fetch_manifest _ _ r scheme cred) as [log1 [m|err]]; cbn [log_bind fst snd give] in *.
  2: { intros [= <- <-]. by apply Forall_app. }
  destruct (config_digest_from_manifest _ _ fuel m r scheme cred) as [[log2 r2]|] eqn:Ed; cbn [mbind option_bind]; [|done].
  pose proof (config_digest_scoped e r scheme cred fuel m log2 r2 Hcred Ed) as Hd.
  intros [= H]. apply (f_equal fst) in H. cbn [fst] in H. rewrite <- H. clear H.
  destruct r2 as [d|err]; cbn [fst]; [|rewrite !Forall_app; auto].
  assert (Forall (scoped_request e scheme r)
            (log_bind (fetch_blob from_str send r scheme d cred) (fun config => give (Ok (config_user config)))).1) as Hb.
  { apply log_forall; [|constructor]. rewrite fetch_blob_log. apply Forall_singleton.
    eapply scoped_own; [exact Hcred|done|]. apply blob_to_registry. }
  destruct (log_bind (fetch_blob from_str send r scheme d cred) _) as [log3 r3]. cbn [fst] in *. rewrite !Forall_app. auto.
Qed.

(** *** The configuration of an image *)

(** The digest of the configuration is that of the manifest, or that of the first image of an
    index. *)
Inductive config_of (r : ImageRef) (scheme : str) (cred : option Credential) : json -> str -> Prop :=
| config_own m d : media_type m ∈ MANIFESTS -> own_digest m = Some d -> config_of r scheme cred m d
| config_first m d m' d' :
    media_type m ∉ MANIFESTS -> media_type m ∈ INDEXES -> first_digest m = Ok d ->
    (fetch_manifest from_str send (mkImageRef (registry r) (repository r) d) scheme cred).2 = Ok m' ->
    config_of r scheme cred m' d' -> config_of r scheme cred m d'.

(** Following an index is exact: with some fuel the search returns a digest exactly when the
    chain of first entries leads to a manifest with that digest. *)
Theorem config_digest_exact r scheme cred m d :
  (exists fuel log, config_digest_from_manifest from_str send fuel m r scheme cred = Some (log, Ok d)) <-> config_of r scheme cred m d.
Proof.
  split.
  - intros (fuel & log & H). revert m log H. induction fuel as [|fuel IH]; intros m log; cbn [config_digest_from_manifest].
    all: case_bool_decide as Hm; [destruct (own_digest m) as [d'|] eqn:Eo; intros [= <- E]; subst; by apply config_own|].
    all: case_bool_decide as Hi; [|done]; destruct (first_digest m) as [d'|err] eqn:Ef; [|done].
    all: destruct (fetch_manifest _ _ _ _ _) as [log1 [m'|err]] eqn:Efm; [|done]; try done.
    destruct (config_digest_from_manifest _ _ fuel m' r scheme cred) as [[log2 r2]|] eqn:E; [|done]. intros [= <- ->].
    eapply config_first; [done|done|done|by rewrite Efm|]. by eapply IH.
  - induction 1 as [m d Hm Ho|m d m' d' Hm Hi Hf Hfm _ (fuel & log & IH)].
    + exists 0, []. cbn [config_digest_from_manifest]. rewrite bool_decide_true by done. by rewrite Ho.
    + exists (S fuel). cbn [config_digest_from_manifest]. rewrite bool_decide_false, bool_decide_true, Hf by done.
      destruct (fetch_manifest _ _ _ _ _) as [log1 r1]. cbn in Hfm. subst r1. rewrite IH. by eexists.
Qed.
End Scope.

(** ** A small registry, for the witnesses *)

Definition example_ref : str := lit "ghcr.io/owner/app:v1".
Definition example_env : auth_env := mkAuthEnv None (Some (lit "/home/u")) None.

(** Texts stand for the JSON values they are parsed to. *)
Definition example_json (s : str) : option json :=
  if bool_decide (s = lit "CONFIG") then
    Some (JObject [(lit "auths", JObject [(lit "ghcr.io", JObject [(lit "auth", JString (lit "u:p"))])])])
  else if bool_decide (s = lit "TOKEN") then Some (JObject [(lit "token", JString (lit "t"))])
  else if bool_decide (s = lit "INDEX") then
    Some (JObject [(lit "mediaType", JString (lit "application/vnd.oci.image.index.v1+json"));
                   (lit "manifests", JArray [JObject [(lit "digest", JString (lit "sha256:1"))]])])
  else if bool_decide (s = lit "MANIFEST") then
    Some (JObject [(lit "mediaType", JString (lit "application/vnd.oci.image.manifest.v1+json"));
                   (lit "config", JObject [(lit "digest", JString (lit "sha256:2"))])])
  else if bool_decide (s = lit "BLOB") then Some (JObject [(lit "config", JObject [(lit "User", JString (lit "app"))])])
  else None.

Definition example_file (path : str) : option str :=
  if bool_decide (path = lit "/home/u/.docker/config.json") then Some (lit "CONFIG") else None.

Definition example_send (q : request) : result str response :=
  let url := rq_url q in
  if bool_decide (url = lit "https://ghcr.io/v2/") then
    Ok (mkResponse 401 (Some (lit "Bearer " ++ quoted (lit "realm") (lit "https://ghcr.io/token") ++ [c_comma] ++ quoted (lit "service") (lit "ghcr.io"))) [])
  else if bool_decide (url = lit "https://ghcr.io/token") then Ok (mkResponse 200 None (lit "TOKEN"))
  else if bool_decide (url = lit "https://ghcr.io/v2/owner/app/manifests/v1") then Ok (mkResponse 200 None (lit "INDEX"))
  else if bool_decide (url = lit "https://ghcr.io/v2/owner/app/manifests/sha256:1") then Ok (mkResponse 200 None (lit "MANIFEST"))
  else if bool_decide (url = lit "https://ghcr.io/v2/owner/app/blobs/sha256:2") then Ok (mkResponse 200 None (lit "BLOB"))
  else Err (lit "no such host").

Definition example_lookup : option (logged str) :=
  fetch_image_user example_json (fun s => Some s) example_file (fun _ _ => None) example_send 1 example_env example_ref.

Lemma credentials_stay_with_registry_witness :
  match example_lookup with
  | Some (log, r) =>
      r = Ok (lit "app") /\ length log = 5 /\
      Forall (scoped_request example_json (fun s => Some s) example_file (fun _ _ => None) example_send example_env (lit "https") (parse_image_ref example_ref)) log
  | None => False
  end.
Proof.
  assert (match example_lookup with Some (log, r) => r = Ok (lit "app") /\ length log = 5 | None => False end) as H
    by (vm_compute; split; reflexivity).
  destruct example_lookup as [[log r]|] eqn:E; [|exact H]. destruct H as [H1 H2]. split; [exact H1|]. split; [exact H2|].
  exact (credentials_stay_with_registry _ _ _ _ _ 1 example_env example_ref log r E).
Defined.

Lemma explicit_reference_parsed_witness :
  parse_image_ref (lit "localhost:5000" ++ [c_slash] ++ lit "app" ++ [c_colon] ++ lit "v2") = mkImageRef (lit "localhost:5000") (lit "app") (lit "v2").
Proof.
  destruct (explicit_reference_parsed (lit "localhost:5000") (lit "app") (lit "v2")) as [H _]; [vm_compute; reflexivity|decide_now..|].
  rewrite H; [vm_compute; reflexivity|decide_now..].
Defined.

Lemma hub_reference_parsed_witness :
  parse_image_ref (lit "ubuntu" ++ [c_colon] ++ lit "22.04") = mkImageRef HUB (lit "library/ubuntu") (lit "22.04").
Proof.
  destruct (hub_reference_parsed (lit "ubuntu") (lit "user") (lit "22.04")) as [H _];
    [decide_now..|vm_compute; reflexivity|decide_now|decide_now|decide_now|]. rewrite H. vm_compute. reflexivity.
Defined.

Lemma tag_and_digest_misparsed_witness :
  parse_image_ref (lit "ghcr.io" ++ [c_slash] ++ (lit "app" ++ [c_colon] ++ lit "v1") ++ [c_at] ++ lit "sha256:1") =
  mkImageRef (lit "ghcr.io") (lit "app:v1") (lit "sha256:1").
Proof.
  rewrite (tag_and_digest_misparsed (lit "ghcr.io") (lit "app") (lit "v1") (lit "sha256:1"));
    [vm_compute; reflexivity|vm_compute; reflexivity|decide_now..].
Defined.

Lemma bearer_challenge_parsed_witness :
  parse_www_authenticate (lit "bearer" ++ [c_space] ++ quoted (lit "realm") (lit "https://a/token") ++ [c_comma] ++ quoted (lit "service") (lit "x")) =
  Ok (Bearer_challenge (lit "https://a/token") (lit "x")).
Proof. apply (bearer_challenge_parsed (lit "bearer") (lit "https://a/token") (lit "x")); [vm_compute; reflexivity|decide_now|split; decide_now..]. Defined.
