(* ===== verification/LlmCache.v ===== *)
(** * The cache proxy for model requests (llm/cache_proxy.rs)

    Tests replay the answers of model providers from a cache on disk.  A request is reduced to
    the fields that determine its answer, text that varies between runs is normalised, and the
    hash of the rest names the cached response; a miss is forwarded to the provider, one at a
    time, unless the proxy is offline.  Bodies are lists of bytes.  [from_slice] and [to_vec] are
    the JSON parser and printer, [replace_all] the regular expressions of the regex crate, [lib]
    the hash, [write_meta] and [read_meta] the JSON line of a cached response, and [upstream] the
    providers. *)
From stdpp Require Import gmap.
From S2P Require Import Prelude Strs Hosts Bytes Json Compose.

(** ** Providers *)

Record ProviderConfig := mkProvider {
  cache_subdir : str;
  upstream_base : str;
  api_key_env : str;
  cache_fields : list str;
}.

Inductive AuthStyle := XApiKey | BearerToken.

Definition provider_config (provider : str) : option (ProviderConfig * AuthStyle) :=
  if bool_decide (provider = lit "anthropic") then
    Some (mkProvider (lit "claude-cli") (lit "https://api.anthropic.com") (lit "ANTHROPIC_API_KEY")
            [lit "model"; lit "messages"; lit "stream"], XApiKey)
  else if bool_decide (provider = lit "openai") then
    Some (mkProvider (lit "codex") (lit "https://api.openai.com") (lit "OPENAI_API_KEY")
            [lit "messages"; lit "input"; lit "stream"], BearerToken)
  else if bool_decide (provider = lit "xai") then
    Some (mkProvider (lit "grok") (lit "https://api.x.ai") (lit "XAI_API_KEY")
            [lit "model"; lit "messages"; lit "input"; lit "stream"], BearerToken)
  else None.

(** ** The fields of a request *)

Definition get_str (k : str) (j : json) : option str := json_get k j ≫= as_string.

(** [Map::remove] moves the last field to the place of the removed one. *)
Fixpoint swap_remove (k : str) (o : list (str * json)) : list (str * json) :=
  match o with
  | [] => []
  | kv :: rest =>
      if bool_decide (kv.1 = k) then
        match last rest with
        | Some kv' => kv' :: take (length rest - 1) rest
        | None => []
        end
      else kv :: swap_remove k rest
  end.

Definition TOOL_RESULTS : list str := [lit "function_call_output"; lit "custom_tool_call_output"].

Definition is_tool_result (item : json) : bool :=
  match get_str (lit "type") item with Some t => bool_decide (t ∈ TOOL_RESULTS) | None => false end.

Definition is_environment_context (item : json) : bool :=
  match json_get (lit "content") item ≫= as_array with
  | Some content =>
      existsb (fun part => match get_str (lit "text") part with
                           | Some text => starts_with (lit "<environment_context>") (trim_start_by is_whitespace text)
                           | None => false
                           end) content
  | None => false
  end.

(** The items that are kept. *)
Definition keep_input (item : json) : bool :=
  (bool_decide (get_str (lit "role") item = Some (lit "user")) && negb (is_environment_context item)) ||
  bool_decide (get_str (lit "type") item = Some (lit "agent_message")).

Definition drop_id (item : json) : json :=
  match item with JObject o => JObject (swap_remove (lit "id") o) | j => j end.

(** [value["k"] = v] on an object. *)
Definition set_field (k : str) (v : json) (j : json) : json :=
  match j with JObject o => JObject (obj_insert k v o) | j => j end.

Definition strip_openai_non_user_input (value : json) : json :=
  match json_get (lit "input") value ≫= as_array with
  | None => value
  | Some input =>
      let tool_results := length (List.filter is_tool_result input) in
      let value := set_field (lit "input") (JArray (map drop_id (List.filter keep_input input))) value in
      if bool_decide (0 < tool_results) then set_field (lit "tool_result_count") (JNumber (Z.of_nat tool_results)) value
      else value
  end.

Definition is_skills_reminder (item : json) : bool :=
  match get_str (lit "content") item with
  | Some content => contains_str (lit "The following skills are available for use") content
  | None => false
  end.

Definition strip_non_user_messages (value : json) : json :=
  match json_get (lit "messages") value ≫= as_array with
  | None => value
  | Some messages =>
      set_field (lit "messages")
        (JArray (List.filter (fun item => bool_decide (get_str (lit "role") item = Some (lit "user")) && negb (is_skills_reminder item)) messages)) value
  end.

(** ** Normalised text *)

(** [slice::windows(n).position]: what comes before the first occurrence and what after it. *)
Definition find_after (p data : list N) : option (list N * list N) :=
  '(before, rest) ← find_str p data; Some (before, drop (length p) rest).

Definition DATE_LEN : nat := 10.
Definition FIXED : list N := lit "0000-00-00".

(** The loop of [replace_dates_between] over the rest of the data; [None]: the fuel is not enough. *)
Fixpoint replace_dates_go (fuel : nat) (prefix suffix data : list N) : option (list N) :=
  match fuel with
  | 0 => None
  | S fuel =>
      if bool_decide (data = []) then Some []
      else
        match find_after prefix data with
        | None => Some data
        | Some (before, after) =>
            if bool_decide (length after < DATE_LEN + length suffix)
               || negb (bool_decide (take (length suffix) (drop DATE_LEN after) = suffix)) then
              rest ← replace_dates_go fuel prefix suffix after; Some (before ++ prefix ++ rest)
            else
              rest ← replace_dates_go fuel prefix suffix (drop DATE_LEN after); Some (before ++ prefix ++ FIXED ++ rest)
        end
  end.

Definition replace_dates_between (prefix suffix data : list N) : list N :=
  default [] (replace_dates_go (S (length data)) prefix suffix data).

Definition LOCALHOST : list N := lit "127.0.0.1:".

Fixpoint skip_digits (data : list N) : list N :=
  match data with
  | [] => []
  | b :: rest => if is_ascii_digit b then skip_digits rest else data
  end.

Fixpoint replace_port_go (fuel : nat) (data : list N) : option (list N) :=
  match fuel with
  | 0 => None
  | S fuel =>
      if bool_decide (data = []) then Some []
      else
        match find_after LOCALHOST data with
        | None => Some data
        | Some (before, after) =>
            rest ← replace_port_go fuel (skip_digits after);
            Some (before ++ LOCALHOST ++ (if bool_decide (length (skip_digits after) < length after) then [48%N] else []) ++ rest)
        end
  end.

Definition replace_localhost_port (data : list N) : list N := default [] (replace_port_go (S (length data)) data).

(** ** Keys *)

Section Key.
  Variable from_slice : list N -> option json.
  Variable to_vec : json -> list N.
  Variable replace_all : str -> list N -> list N -> list N.   (* pattern, replacement, text *)
  Variable lib : HashLib.

Definition extract_cache_fields (provider : str) (body : list N) (fields : list str) : list N :=
  match from_slice body with
  | None => body
  | Some j =>
      let key_fields := omap (fun field => (fun v => (field, v)) <$> json_get field j) fields in
      let key_value := JObject key_fields in
      let key_value := if bool_decide (provider = lit "openai") then strip_openai_non_user_input key_value else key_value in
      let key_value := if bool_decide (provider = lit "xai") then strip_non_user_messages key_value else key_value in
      to_vec key_value
  end.

Definition AGENT_ID : str := lit "\ba[0-9a-f]{16}\b".
Definition TASK_DIR : str := lit "/tmp/claude-[0-9]+/[^" ++ [c_quote] ++ lit "\\\s]+/tasks/".
Definition USAGE : str := lit "<usage>.*?</usage>".

Definition normalize_subagent_metadata (data : list N) : list N :=
  let data := replace_all AGENT_ID (lit "agent-id") data in
  let data := replace_all TASK_DIR (lit "/tmp/claude-0/workspace/session/tasks/") data in
  replace_all USAGE (lit "<usage></usage>") data.

Definition normalize_cache_fields (data : list N) : list N :=
  let data := replace_dates_between (lit "<current_date>") (lit "</current_date>") data in
  let data := replace_dates_between (lit "Today's date is ") (lit ".") data in
  let data := replace_dates_between (lit "Today's date: ") (lit "\n") data in
  let data := replace_localhost_port data in
  normalize_subagent_metadata data.

Definition compute_cache_key (provider method path_and_query : str) (body : list N) (fields : list str) : str :=
  let cache_fields := normalize_cache_fields (extract_cache_fields provider body fields) in
  hex_encode lib (sha256_digest lib (as_bytes method ++ [c_nl] ++ as_bytes path_and_query ++ [c_nl] ++ cache_fields)).
End Key.

(** ** Requests and answers *)

(** Header values that are not visible ASCII have no text. *)
Record llm_request := mkLlmRequest {
  lr_provider : str;
  lr_rest : str;
  lr_query : option str;
  lr_method : str;
  lr_headers : list (str * option str);
  lr_body : option (list N);       (* [None]: it could not be read, or is larger than 10 MiB *)
}.

Record forwarded := mkForwarded { fw_method : str; fw_url : str; fw_headers : list (str * str); fw_body : list N }.

Record answer := mkAnswer { an_status : N; an_headers : list (str * option str); an_body : list N }.

Record ResponseMeta := mkMeta { rm_status : N; rm_path : str; rm_headers : gmap (list N) (list N) }.

Inductive reply := Reply (status : N) (headers : gmap (list N) (list N)) (body : list N) | Panicked.

Definition is_websocket_upgrade (headers : list (str * option str)) : bool := existsb (fun h => bool_decide (h.1 = lit "upgrade")) headers.

Definition AUTH_HEADERS : list str := [lit "authorization"; lit "x-api-key"].

Definition should_forward_request_header (name : str) (is_upgrade : bool) : bool :=
  if bool_decide (name ∈ [lit "host"; lit "transfer-encoding"] ++ AUTH_HEADERS) then false
  else if bool_decide (name = lit "connection") then is_upgrade
  else true.

Definition should_forward_response_header (name : str) (status : N) : bool :=
  if bool_decide (name = lit "transfer-encoding") then false
  else if bool_decide (name = lit "connection") then bool_decide (status = 101%N)
  else true.

(** The headers of a forwarded request: those of the client that are passed on, then the key. *)
Definition forward_headers (headers : list (str * option str)) (auth : AuthStyle) (real_api_key : str) : list (str * str) :=
  let is_upgrade := is_websocket_upgrade headers in
  map (fun h => (h.1, default [] h.2)) (List.filter (fun h => should_forward_request_header h.1 is_upgrade) headers) ++
  [match auth with
   | XApiKey => (lit "x-api-key", real_api_key)
   | BearerToken => (lit "authorization", lit "Bearer " ++ real_api_key)
   end].

Definition response_headers (a : answer) : gmap (list N) (list N) :=
  foldl (fun m h => if should_forward_response_header h.1 (an_status a)
                    then match h.2 with Some v => <[h.1 := v]> m | None => m end else m) ∅ (an_headers a).

Definition build_response (meta : ResponseMeta) (body : list N) : reply :=
  Reply (if in_range 100 999 (rm_status meta) then rm_status meta else 200%N) (rm_headers meta) body.

Definition is_offline_mode (var : option str) : bool :=
  match var with
  | Some s => bool_decide (s = lit "1") || bool_decide (map to_ascii_lowercase s = lit "true")
  | None => false
  end.

(** ** The handler *)

(** The files of the cache by provider and key, the requests that were forwarded, and whether
    the lock was poisoned by a panic. *)
Record llm_state := mkLlm {
  ls_responses : gmap (list N * list N) (list N);
  ls_requests : gmap (list N * list N) (list N);
  ls_forwarded : list ((list N * list N) * forwarded);   (* with provider and key *)
  ls_poisoned : bool;
}.

#[export] Instance llm_state_updatable : Updatable llm_state := fun s =>
  mkLlm (ls_responses s) (ls_requests s) (ls_forwarded s) (ls_poisoned s).

Section Handler.
  Variable from_slice : list N -> option json.
  Variable to_vec : json -> list N.
  Variable to_pretty : json -> list N.
  Variable replace_all : str -> list N -> list N -> list N.
  Variable lib : HashLib.
  Variable write_meta : ResponseMeta -> list N.
  Variable read_meta : list N -> option ResponseMeta.
  Variable env : str -> option str.
  Variable upstream : forwarded -> option answer.     (* [None]: the request failed *)

Local Abbreviation cache_key := (compute_cache_key from_slice to_vec replace_all lib).

Definition cache_get (subdir key : str) (s : llm_state) : option (ResponseMeta * list N) :=
  data ← ls_responses s !! (subdir, key);
  '(line, body) ← split_once c_nl data;
  meta ← read_meta line;
  Some (meta, body).

Definition cache_put (subdir key : str) (meta : ResponseMeta) (response_body request_body : list N) (s : llm_state) : llm_state :=
  s <| ls_responses ::= <[(subdir, key) := write_meta meta ++ [c_nl] ++ response_body]> |>
    <| ls_requests ::= <[(subdir, key) := match from_slice request_body with Some j => to_pretty j | None => request_body end]> |>.

Definition path_and_query (r : llm_request) : str :=
  [c_slash] ++ lr_rest r ++ match lr_query r with Some q => lit "?" ++ q | None => [] end.

(** A request that can be served: its provider, body and key. *)
Record prepared := mkPrepared { pr_config : ProviderConfig; pr_auth : AuthStyle; pr_body : list N; pr_key : str }.

Definition prepare (r : llm_request) : result reply prepared :=
  match provider_config (lr_provider r) with
  | None => Err (Reply 400 ∅ (as_bytes (lit "unknown LLM provider: " ++ lr_provider r)))
  | Some (config, auth) =>
      match lr_body r with
      | None => Err (Reply 400 ∅ [])
      | Some body => Ok (mkPrepared config auth body (cache_key (lr_provider r) (lr_method r) (path_and_query r) body (cache_fields config)))
      end
  end.

Definition OFFLINE_MISS : str :=
  lit "cache miss in offline mode. Re-run with RUMPELPOD_TEST_LLM_OFFLINE=0 to populate the cache.".

(** The handler up to the lock: an answer, or the request that is to be forwarded. *)
Definition lookup_phase (r : llm_request) (s : llm_state) : result reply prepared :=
  match prepare r with
  | Err e => Err e
  | Ok p =>
      match cache_get (cache_subdir (pr_config p)) (pr_key p) s with
      | Some (meta, body) => Err (build_response meta body)
      | None =>
          if is_offline_mode (env (lit "RUMPELPOD_TEST_LLM_OFFLINE")) then Err (Reply 503 ∅ (as_bytes OFFLINE_MISS))
          else Ok p
      end
  end.

(** A panic with the lock held poisons it. *)
Definition panic_locked (s : llm_state) : llm_state * reply := (s <| ls_poisoned := true |>, Panicked).

(** The task that forwards, with the lock held. *)
Definition forward_phase (r : llm_request) (p : prepared) (s : llm_state) : llm_state * reply :=
  if ls_poisoned s then (s, Panicked)
  else
    match cache_get (cache_subdir (pr_config p)) (pr_key p) s with
    | Some (meta, body) => (s, build_response meta body)
    | None =>
        match env (api_key_env (pr_config p)) with
        | None => panic_locked s
        | Some real_api_key =>
            let q := mkForwarded (lr_method r) (upstream_base (pr_config p) ++ path_and_query r)
                       (forward_headers (lr_headers r) (pr_auth p) real_api_key) (pr_body p) in
            let s := s <| ls_forwarded ::= (fun l => l ++ [((cache_subdir (pr_config p), pr_key p), q)]) |> in
            match upstream q with
            | None => panic_locked s
            | Some a =>
                let meta := mkMeta (an_status a) (path_and_query r) (response_headers a) in
                (cache_put (cache_subdir (pr_config p)) (pr_key p) meta (an_body a) (pr_body p) s, build_response meta (an_body a))
            end
        end
    end.

(** [handle_llm_cache_proxy] when no other request runs at the same time. *)
Definition handle_llm_cache_proxy (r : llm_request) (s : llm_state) : llm_state * reply :=
  match lookup_phase r s with
  | Err reply => (s, reply)
  | Ok p => forward_phase r p s
  end.
End Handler.

(** ** Replaying *)

(** The JSON line of a cached response is one line and is read back. *)
Class MetaLaws (write_meta : ResponseMeta -> list N) (read_meta : list N -> option ResponseMeta) : Prop := {
  meta_line m : c_nl ∉ write_meta m;
  meta_read m : read_meta (write_meta m) = Some m;
}.

Section Replay.
  Variable from_slice : list N -> option json.
  Variable to_vec to_pretty : json -> list N.
  Variable replace_all : str -> list N -> list N -> list N.
  Variable lib : HashLib.
  Variable write_meta : ResponseMeta -> list N.
  Variable read_meta : list N -> option ResponseMeta.
  Context {ML : MetaLaws write_meta read_meta}.

Local Abbreviation forward_in := (forward_phase from_slice to_pretty write_meta read_meta).
Local Abbreviation lookup_in := (lookup_phase from_slice to_vec replace_all lib read_meta).
Local Abbreviation handle_in := (handle_llm_cache_proxy from_slice to_vec to_pretty replace_all lib write_meta read_meta).
Local Abbreviation get := (cache_get read_meta).
Local Abbreviation prepare_in := (prepare from_slice to_vec replace_all lib).

Lemma get_put subdir key meta body req s :
  get subdir key (cache_put from_slice to_pretty write_meta subdir key meta body req s) = Some (meta, body).
Proof.
  unfold cache_get, cache_put. rsimpl. rewrite lookup_insert_eq. cbn.
  rewrite (proj2 (split_once_Some c_nl _ (write_meta meta) body)) by (split; [done|apply meta_line]). cbn. by rewrite meta_read.
Qed.

Lemma get_put_ne subdir key subdir' key' meta body req s : (subdir', key') <> (subdir, key) ->
  get subdir' key' (cache_put from_slice to_pretty write_meta subdir key meta body req s) = get subdir' key' s.
Proof. intros H. unfold cache_get, cache_put. rsimpl. by rewrite lookup_insert_ne by congruence. Qed.

(** What a forwarding task leaves in the cache is what it answered. *)
Lemma forward_caches env upstream r p s s' rep : forward_in env upstream r p s = (s', rep) -> rep <> Panicked ->
  exists meta body, get (cache_subdir (pr_config p)) (pr_key p) s' = Some (meta, body) /\ rep = build_response meta body.
Proof.
  unfold forward_phase. destruct (ls_poisoned s); [by intros [= <- <-]|].
  destruct (get (cache_subdir (pr_config p)) (pr_key p) s) as [[meta body]|] eqn:Eg; [intros [= <- <-] _; eauto|].
  destruct (env _) as [k|]; [|by intros [= <- <-]]. destruct (upstream _) as [a|]; [|by intros [= <- <-]].
  intros [= <- <-] _. rewrite get_put. eauto.
Qed.

(** A cached answer is replayed exactly.  Once a request was answered through the lock, every
    request with the same key gets the same status, headers and body, online or offline, with
    whatever API keys and providers, and nothing is forwarded or written for it. *)
Theorem answers_replayed env upstream env' upstream' r p s s' rep r' p' :
  forward_in env upstream r p s = (s', rep) -> rep <> Panicked ->
  prepare_in r' = Ok p' -> cache_subdir (pr_config p') = cache_subdir (pr_config p) -> pr_key p' = pr_key p ->
  handle_in env' upstream' r' s' = (s', rep).
Proof.
  intros Hf Hr Hp Hs Hk. destruct (forward_caches _ _ _ _ _ _ _ Hf Hr) as (meta & body & Hg & ->).
  unfold handle_llm_cache_proxy, lookup_phase. by rewrite Hp, Hs, Hk, Hg.
Qed.

(** *** One call per request *)

(** Requests between the lookup and the lock. *)
Inductive llm_event (env : str -> option str) (upstream : forwarded -> option answer) :
    llm_state * list (llm_request * prepared) -> llm_state * list (llm_request * prepared) -> Prop :=
| llm_lookup r p s waiting : lookup_in env r s = Ok p -> llm_event env upstream (s, waiting) (s, waiting ++ [(r, p)])
| llm_forward r p before after s s' rep :
    forward_in env upstream r p s = (s', rep) -> llm_event env upstream (s, before ++ (r, p) :: after) (s', before ++ after).

Definition calls (id : list N * list N) (s : llm_state) : nat := length (List.filter (fun c => bool_decide (c.1 = id)) (ls_forwarded s)).

Definition called_once (s : llm_state) : Prop :=
  forall id, calls id s = 0 \/ (calls id s = 1 /\ (is_Some (get id.1 id.2 s) \/ ls_poisoned s = true)).

Lemma calls_snoc id s c q : calls id (s <| ls_forwarded ::= (fun l => l ++ [(c, q)]) |>) = calls id s + (if bool_decide (c = id) then 1 else 0).
Proof. unfold calls. rsimpl. rewrite List.filter_app, length_app. cbn. by case_bool_decide. Qed.

Lemma forward_called_once env upstream r p s s' rep : forward_in env upstream r p s = (s', rep) -> called_once s -> called_once s'.
Proof.
  unfold forward_phase. intros H Hs. destruct (ls_poisoned s) eqn:Ep; [by injection H as <- <-|].
  destruct (get (cache_subdir (pr_config p)) (pr_key p) s) as [[meta body]|] eqn:Eg; [by injection H as <- <-|].
  destruct (env _) as [k|]; [|injection H as <- <-; intros id; destruct (Hs id) as [H0|[H1 _]]; [by left|by right; split; [|right]]].
  set (id0 := (cache_subdir (pr_config p), pr_key p)) in *.
  assert (calls id0 s = 0) as H0.
  { destruct (Hs id0) as [|[_ [[x Hx]|Hx]]]; [done| |congruence]. cbn in Hx. congruence. }
  destruct (upstream _) as [a|]; injection H as <- <-; intros id.
  - set (s1 := s <| ls_forwarded ::= _ |>).
    assert (calls id (cache_put from_slice to_pretty write_meta (cache_subdir (pr_config p)) (pr_key p)
              (mkMeta (an_status a) (path_and_query r) (response_headers a)) (an_body a) (pr_body p) s1) = calls id s1) as -> by done.
    unfold s1. rewrite calls_snoc. case_bool_decide as Hid.
    + subst id. rewrite H0. right. split; [done|left]. unfold id0. cbn [fst snd]. rewrite get_put. done.
    + rewrite Nat.add_0_r. destruct (Hs id) as [H1|(H1 & [H2|H2])]; [by left| |congruence].
      right. split; [done|left]. rewrite get_put_ne by (by destruct id). exact H2.
  - change (calls id ?x) with (calls id (s <| ls_forwarded ::= (fun l => l ++ [(id0, mkForwarded (lr_method r)
      (upstream_base (pr_config p) ++ path_and_query r) (forward_headers (lr_headers r) (pr_auth p) k) (pr_body p))]) |>)).
    rewrite calls_snoc. case_bool_decide as Hid; [subst; rewrite H0; right; split; [done|by right]|].
    rewrite Nat.add_0_r. destruct (Hs id) as [H1|[H1 _]]; [by left|right; split; [done|by right]].
Qed.

(** No request is forwarded twice.  In every interleaving of any number of requests, also
    when many of them miss the cache before the first of them has the lock, at most one request
    per provider and key is sent to a provider. *)
Theorem forwarded_at_most_once env upstream s waiting id :
  rtc (llm_event env upstream) (mkLlm ∅ ∅ [] false, []) (s, waiting) -> calls id s <= 1.
Proof.
  intros H. assert (called_once s) as Hs; [|destruct (Hs id) as [->|[-> _]]; lia].
  remember (mkLlm ∅ ∅ [] false, []) as x eqn:Ex. remember (s, waiting) as y eqn:Ey.
  assert (called_once x.1) as Hx by (subst x; by left). clear Ex.
  assert (called_once y.1) as Hy; [|by subst y].
  clear Ey. induction H as [x|x y z Hxy _ IH]; [done|]. apply IH. destruct Hxy; [done|]. by eapply forward_called_once.
Qed.

(** *** Failures *)

Lemma poisoned_stays env upstream r s : ls_poisoned s = true -> ls_poisoned (handle_in env upstream r s).1 = true /\
  ls_responses (handle_in env upstream r s).1 = ls_responses s.
Proof.
  intros Hs. unfold handle_llm_cache_proxy. destruct (lookup_in env r s) as [p|rep]; [|done]. unfold forward_phase. by rewrite Hs.
Qed.

(** A failed request to a provider breaks the proxy for good: the panic of its task poisons the
    lock, so that from then on every request that misses the cache panics, also when the provider
    answers again; only requests that were cached before are still served. *)
Theorem failed_forward_breaks_proxy env upstream r p s later r' p' env' upstream' :
  lookup_in env r s = Ok p -> (forall q, upstream q = None) -> ls_poisoned s = false ->
  let s1 := (handle_in env upstream r s).1 in
  let s2 := foldl (fun s r => (handle_in env' upstream' r s).1) s1 later in
  (handle_in env upstream r s).2 = Panicked /\ (lookup_in env' r' s2 = Ok p' -> handle_in env' upstream' r' s2 = (s2, Panicked)).
Proof.
  intros Hl Hu Hp s1 s2.
  assert (get (cache_subdir (pr_config p)) (pr_key p) s = None) as Hg.
  { unfold lookup_phase in Hl. destruct (prepare_in r) as [p0|rep]; [|done]. destruct (get _ _ s) as [[meta body]|] eqn:Eg; [done|].
    destruct (is_offline_mode _); [done|]. by injection Hl as <-. }
  assert (ls_poisoned s1 = true /\ (handle_in env upstream r s).2 = Panicked) as [H1 H2].
  { unfold s1, handle_llm_cache_proxy. rewrite Hl. unfold forward_phase. rewrite Hp, Hg. destruct (env _); [rewrite Hu|]; done. }
  assert (ls_poisoned s2 = true) as H3.
  { unfold s2. clear -H1. revert H1. generalize s1. induction later as [|x later IH]; intros s0 H; [done|]. cbn. by apply IH, poisoned_stays. }
  split; [done|]. intros Hl'. unfold handle_llm_cache_proxy. rewrite Hl'. unfold forward_phase. by rewrite H3.
Qed.

(** Offline the proxy only reads: nothing is forwarded, cached or poisoned, a request is
    answered from the cache or with an error, and it never panics. *)
Theorem offline_only_reads env upstream r s :
  is_offline_mode (env (lit "RUMPELPOD_TEST_LLM_OFFLINE")) = true ->
  (handle_in env upstream r s).1 = s /\
  match prepare_in r with
  | Ok p => (handle_in env upstream r s).2 =
      match get (cache_subdir (pr_config p)) (pr_key p) s with
      | Some (meta, body) => build_response meta body
      | None => Reply 503 ∅ (as_bytes OFFLINE_MISS)
      end
  | Err rep => (handle_in env upstream r s).2 = rep /\ exists headers body, rep = Reply 400 headers body
  end.
Proof.
  intros Ho. unfold handle_llm_cache_proxy, lookup_phase. destruct (prepare_in r) as [p|rep] eqn:Ep.
  - destruct (get _ _ s) as [[meta body]|]; [done|]. by rewrite Ho.
  - split; [done|]. split; [done|]. revert Ep. unfold prepare. repeat case_match; intros [= <-]; eauto.
Qed.
End Replay.

(** The credentials of the client are never passed on: whatever headers it sends, the only
    header of a forwarded request that authenticates is the one with the key of the proxy. *)
Theorem client_credentials_dropped headers auth key n v :
  (n, v) ∈ forward_headers headers auth key -> n ∈ AUTH_HEADERS ->
  (n, v) = match auth with XApiKey => (lit "x-api-key", key) | BearerToken => (lit "authorization", lit "Bearer " ++ key) end.
Proof.
  unfold forward_headers. rewrite elem_of_app, list_elem_of_singleton. intros [(h & E & [_ Hf]%elem_of_bfilter)%list_elem_of_fmap|E] Hn; [|done].
  injection E as -> _. exfalso. revert Hf. unfold should_forward_request_header. rewrite bool_decide_true; [done|].
  rewrite elem_of_app. by right.
Qed.

(** ** Normalisation *)

(** A text in which a marker first occurs at the end. *)
Definition first_at_end (p a : list N) : Prop := find_str p (a ++ p) = Some (a, p).

Lemma find_first p a r : p <> [] -> first_at_end p a -> find_str p (a ++ p ++ r) = Some (a, p ++ r).
Proof.
  intros Hp. unfold first_at_end. induction a as [|x a IH]; intros H.
  - apply find_str_here, starts_with_app.
  - cbn [app] in *. destruct (starts_with p (x :: a ++ p)) eqn:E; [by rewrite find_str_here in H|].
    rewrite find_str_cons_no in H by done. apply fmap_Some in H as ([a' b'] & Hf & [= <- <-]).
    destruct (starts_with p (x :: a ++ p ++ r)) eqn:E2.
    + exfalso. apply starts_with_true in E2 as [t Et]. apply not_true_iff_false in E. apply E. apply starts_with_true.
      exists (take (length (x :: a ++ p) - length p) t).
      assert (take (length (x :: a ++ p)) (x :: a ++ p ++ r) = x :: a ++ p) as Ht.
      { rewrite app_assoc. change (x :: (a ++ p) ++ r) with ((x :: a ++ p) ++ r). by rewrite take_app_length. }
      rewrite <- Ht at 1. rewrite Et, take_app. rewrite (take_ge p) by (cbn; rewrite length_app; lia). done.
    + rewrite find_str_cons_no by done. by rewrite (IH Hf).
Qed.

Lemma find_after_first p a r : p <> [] -> first_at_end p a -> find_after p (a ++ p ++ r) = Some (a, r).
Proof. intros Hp H. unfold find_after. rewrite find_first by done. cbn. by rewrite drop_app_length. Qed.

Lemma find_after_length p data before after : p <> [] -> find_after p data = Some (before, after) ->
  data = before ++ p ++ after /\ length after < length data.
Proof.
  intros Hp. unfold find_after. destruct (find_str p data) as [[b r]|] eqn:E; [|done]. cbn. intros [= <- <-].
  destruct (find_str_Some _ _ _ _ Hp E) as [-> (t & ->)%starts_with_true]. rewrite drop_app_length. split; [done|].
  rewrite !length_app. destruct p; [done|]. cbn. lia.
Qed.

Section Dates.
  Variable prefix suffix : list N.
  Hypothesis prefix_nonempty : prefix <> [].

Lemma dates_enough fuel data : length data < fuel -> exists out, replace_dates_go fuel prefix suffix data = Some out.
Proof using prefix_nonempty.
  revert data. induction fuel as [|fuel IH]; intros data Hl; [lia|]. cbn [replace_dates_go].
  case_bool_decide; [by eexists|]. destruct (find_after prefix data) as [[before after]|] eqn:E; [|by eexists].
  apply find_after_length in E as [_ Ha]; [|done]. case_match.
  - destruct (IH after) as [out ->]; [lia|]. by eexists.
  - destruct (IH (drop DATE_LEN after)) as [out ->]; [rewrite length_drop; lia|]. by eexists.
Qed.

Lemma dates_fuel fuel fuel' data out : replace_dates_go fuel prefix suffix data = Some out -> fuel <= fuel' ->
  replace_dates_go fuel' prefix suffix data = Some out.
Proof.
  revert fuel' data out. induction fuel as [|fuel IH]; intros fuel' data out; [done|]. destruct fuel' as [|fuel']; [lia|].
  cbn [replace_dates_go]. case_bool_decide; [done|]. destruct (find_after prefix data) as [[before after]|]; [|done]. intros Hgo Hl. revert Hgo.
  case_match; (destruct (replace_dates_go fuel prefix suffix _) as [rest|] eqn:E; [|done]; rewrite (IH fuel' _ rest); [done|done|lia]).
Qed.

Lemma dates_between_go fuel data : length data < fuel -> replace_dates_go fuel prefix suffix data = Some (replace_dates_between prefix suffix data).
Proof using prefix_nonempty.
  intros Hl. unfold replace_dates_between. destruct (dates_enough (S (length data)) data) as [out E]; [lia|]. rewrite E.
  eapply dates_fuel; [exact E|lia].
Qed.

(** One turn of the loop. *)
Lemma dates_between_step a r : first_at_end prefix a ->
  replace_dates_between prefix suffix (a ++ prefix ++ r) =
  a ++ prefix ++
  if bool_decide (DATE_LEN + length suffix <= length r /\ starts_with suffix (drop DATE_LEN r) = true)
  then FIXED ++ replace_dates_between prefix suffix (drop DATE_LEN r) else replace_dates_between prefix suffix r.
Proof using prefix_nonempty.
  intros Ha. pose proof (dates_between_go (S (length (a ++ prefix ++ r))) (a ++ prefix ++ r) ltac:(lia)) as H. cbn [replace_dates_go] in H.
  rewrite bool_decide_false in H by (destruct a, prefix; done). rewrite find_after_first in H by done.
  assert (length r < length (a ++ prefix ++ r)) as Hl by (rewrite !length_app; destruct prefix; [done|cbn; lia]).
  destruct (bool_decide_reflect (DATE_LEN + length suffix <= length r /\ starts_with suffix (drop DATE_LEN r) = true)) as [[H1 H2]|Hn].
  - rewrite (bool_decide_false (length r < _)) in H by lia. apply starts_with_true in H2 as [t Ht].
    rewrite (bool_decide_true (take _ _ = suffix)) in H by (by rewrite Ht, take_app_length). cbn [orb negb] in H.
    rewrite dates_between_go in H by (rewrite length_drop; lia). cbn [mbind option_bind] in H. apply (inj Some) in H. by rewrite <- H.
  - assert (bool_decide (length r < DATE_LEN + length suffix) || negb (bool_decide (take (length suffix) (drop DATE_LEN r) = suffix)) = true) as Hc.
    { destruct (decide (length r < DATE_LEN + length suffix)); [by rewrite bool_decide_true|]. rewrite orb_true_iff. right.
      rewrite bool_decide_false; [done|]. intros Ht. apply Hn. split; [lia|]. apply starts_with_true.
      exists (drop (length suffix) (drop DATE_LEN r)). by rewrite <- Ht at 1; rewrite take_drop. }
    rewrite Hc in H. rewrite dates_between_go in H by lia. cbn [mbind option_bind] in H. apply (inj Some) in H. by rewrite <- H.
Qed.

(** A text with dates in it. *)
Fixpoint dated (texts dates : list (list N)) (tail : list N) : list N :=
  match texts, dates with
  | a :: texts, d :: dates => a ++ prefix ++ d ++ dated texts dates tail
  | _, _ => tail
  end.

(** Dates do not reach the key: texts that differ only in the dates between the markers,
    any number of them, are normalised to the same text.  What is between the markers need not
    be a date: any ten bytes are replaced. *)
Theorem dates_normalised texts dates dates' tail :
  Forall (first_at_end prefix) texts -> Forall (fun a => starts_with suffix a = true) (drop 1 texts) -> starts_with suffix tail = true ->
  Forall2 (fun d d' => length d = DATE_LEN /\ length d' = DATE_LEN) dates dates' ->
  replace_dates_between prefix suffix (dated texts dates tail) = replace_dates_between prefix suffix (dated texts dates' tail).
Proof using prefix_nonempty.
  intros Ht Hs Htail Hd. revert texts Ht Hs. induction Hd as [|d d' dates dates' [H1 H2] Hd IH]; intros texts Ht Hs.
  { by destruct texts. }
  destruct texts as [|a texts]; [done|]. apply Forall_cons in Ht as [Ha Ht]. cbn [drop] in Hs. cbn [dated].
  assert (forall ds, starts_with suffix (dated texts ds tail) = true) as Hrest.
  { intros ds. destruct texts as [|a' texts], ds as [|d0 ds]; try done. cbn [dated].
    apply Forall_cons in Hs as [(t & ->)%starts_with_true _]. apply starts_with_true. exists (t ++ prefix ++ d0 ++ dated texts ds tail).
    by rewrite <- app_assoc. }
  assert (forall d ds, length d = DATE_LEN -> DATE_LEN + length suffix <= length (d ++ dated texts ds tail) /\
            starts_with suffix (drop DATE_LEN (d ++ dated texts ds tail)) = true /\ drop DATE_LEN (d ++ dated texts ds tail) = dated texts ds tail) as Hdrop.
  { intros x ds Hx. rewrite <- Hx, drop_app_length, length_app. destruct (proj1 (starts_with_true _ _) (Hrest ds)) as [t E].
    rewrite E, length_app. rewrite <- E. split_and!; [lia|apply Hrest|done]. }
  rewrite !dates_between_step by done. destruct (Hdrop d dates H1) as (A1 & A2 & ->), (Hdrop d' dates' H2) as (B1 & B2 & ->).
  rewrite !bool_decide_true by done. rewrite (IH texts Ht); [done|]. destruct texts; [done|]. by apply Forall_cons in Hs as [_ ?].
Qed.
End Dates.

(** *** Ports *)

Lemma skip_digits_app ds r : Forall (fun c => is_ascii_digit c = true) ds -> skip_digits (ds ++ r) = skip_digits r.
Proof. induction 1 as [|c ds Hc _ IH]; [done|]. cbn. by rewrite Hc. Qed.

Lemma skip_digits_length data : length (skip_digits data) <= length data.
Proof. induction data as [|b data IH]; cbn; [done|]. case_match; cbn; lia. Qed.

Lemma localhost_nonempty : LOCALHOST <> [].
Proof. intros H. vm_compute in H. discriminate H. Qed.

Lemma port_enough fuel data : length data < fuel -> exists out, replace_port_go fuel data = Some out.
Proof.
  revert data. induction fuel as [|fuel IH]; intros data Hl; [lia|]. cbn [replace_port_go].
  case_bool_decide; [by eexists|]. destruct (find_after LOCALHOST data) as [[before after]|] eqn:E; [|by eexists].
  apply find_after_length in E as [_ Ha]; [|apply localhost_nonempty]. pose proof (skip_digits_length after).
  destruct (IH (skip_digits after)) as [out ->]; [lia|]. by eexists.
Qed.

Lemma port_fuel fuel fuel' data out : replace_port_go fuel data = Some out -> fuel <= fuel' -> replace_port_go fuel' data = Some out.
Proof.
  revert fuel' data out. induction fuel as [|fuel IH]; intros fuel' data out; [done|]. destruct fuel' as [|fuel']; [lia|].
  cbn [replace_port_go]. case_bool_decide; [done|]. destruct (find_after LOCALHOST data) as [[before after]|]; [|done]. intros Hgo Hl. revert Hgo.
  destruct (replace_port_go fuel _) as [rest|] eqn:E; [|done]. rewrite (IH fuel' _ rest); [done|done|lia].
Qed.

Lemma port_step a r : first_at_end LOCALHOST a ->
  replace_localhost_port (a ++ LOCALHOST ++ r) =
  a ++ LOCALHOST ++ (if bool_decide (length (skip_digits r) < length r) then [48%N] else []) ++ replace_localhost_port (skip_digits r).
Proof.
  intros Ha. unfold replace_localhost_port. set (data := a ++ LOCALHOST ++ r).
  pose proof (skip_digits_length r) as Hs. assert (length r < length data) as Hl.
  { unfold data. rewrite !length_app. assert (0 < length LOCALHOST) by (vm_compute; lia). lia. }
  destruct (port_enough (S (length (skip_digits r))) (skip_digits r)) as [out E]; [lia|]. rewrite E. cbn [replace_port_go].
  rewrite bool_decide_false by (intros [_ [E' _]%app_nil]%app_nil; by apply localhost_nonempty).
  rewrite (find_after_first LOCALHOST a r localhost_nonempty Ha : find_after LOCALHOST data = _).
  by rewrite (port_fuel _ (length data) _ _ E) by lia.
Qed.

(** The random port of the local server does not reach the key: texts that differ in the
    port after its address are normalised to the same text. *)
Theorem ports_normalised a ds ds' r :
  first_at_end LOCALHOST a -> ds <> [] -> ds' <> [] ->
  Forall (fun c => is_ascii_digit c = true) ds -> Forall (fun c => is_ascii_digit c = true) ds' ->
  replace_localhost_port (a ++ LOCALHOST ++ ds ++ r) = replace_localhost_port (a ++ LOCALHOST ++ ds' ++ r).
Proof.
  intros Ha H1 H2 D1 D2. rewrite !port_step, !skip_digits_app by done. pose proof (skip_digits_length r).
  assert (forall d : list N, d <> [] -> bool_decide (length (skip_digits r) < length (d ++ r)) = true) as Hlt.
  { intros d Hd. apply bool_decide_eq_true. rewrite length_app. destruct d; [done|]. cbn. lia. }
  by rewrite !Hlt.
Qed.

(** *** Codex messages *)

(** Give an item another id, in the same place. *)
Fixpoint set_first (k : str) (v : json) (o : list (str * json)) : list (str * json) :=
  match o with
  | [] => []
  | kv :: rest => if bool_decide (kv.1 = k) then (k, v) :: rest else kv :: set_first k v rest
  end.

Definition same_but_id (i i' : json) : Prop := i' = i \/ exists o v, i = JObject o /\ i' = JObject (set_first (lit "id") v o).

(** What is neither kept nor counted. *)
Definition noise (item : json) : bool := negb (keep_input item) && negb (is_tool_result item).

Lemma swap_remove_set k v o : swap_remove k (set_first k v o) = swap_remove k o.
Proof.
  induction o as [|kv o IH]; [done|]. cbn [set_first]. destruct (bool_decide (kv.1 = k)) eqn:E; cbn [swap_remove].
  - cbn [fst]. by rewrite (bool_decide_true (k = k)), E.
  - by rewrite E, IH.
Qed.

Lemma get_set_first k k' v o : k' <> k -> json_get k' (JObject (set_first k v o)) = json_get k' (JObject o).
Proof.
  intros Hne. unfold json_get. induction o as [|kv o IH]; [done|]. cbn [set_first].
  destruct (bool_decide_reflect (kv.1 = k)) as [E|E]; cbn [List.find fst].
  - rewrite bool_decide_false by done. rewrite E, bool_decide_false by done. done.
  - destruct (bool_decide (kv.1 = k')); [done|]. exact IH.
Qed.

Lemma same_but_id_signal i i' : same_but_id i i' ->
  keep_input i' = keep_input i /\ is_tool_result i' = is_tool_result i /\ drop_id i' = drop_id i.
Proof.
  intros [->|(o & v & -> & ->)]; [done|].
  assert (forall k, k ∈ [lit "type"; lit "role"; lit "content"] -> json_get k (JObject (set_first (lit "id") v o)) = json_get k (JObject o)) as Hg.
  { intros k Hk. apply get_set_first. intros ->. revert Hk. decide_now. }
  unfold keep_input, is_tool_result, is_environment_context, get_str, drop_id.
  rewrite !Hg by decide_now. by rewrite swap_remove_set.
Qed.

Lemma filter_noise (f : json -> bool) l : (forall i, noise i = true -> f i = false) ->
  List.filter f (List.filter (fun i => negb (noise i)) l) = List.filter f l.
Proof.
  intros Hf. induction l as [|i l IH]; [done|]. cbn. destruct (noise i) eqn:E; cbn; [by rewrite (Hf i E)|].
  rewrite IH. done.
Qed.

Lemma same_input l l' : Forall2 same_but_id (List.filter (fun i => negb (noise i)) l) (List.filter (fun i => negb (noise i)) l') ->
  length (List.filter is_tool_result l) = length (List.filter is_tool_result l') /\
  map drop_id (List.filter keep_input l) = map drop_id (List.filter keep_input l').
Proof.
  intros H.
  assert (forall i, noise i = true -> is_tool_result i = false /\ keep_input i = false) as Hn.
  { intros i. unfold noise. rewrite andb_true_iff, !negb_true_iff. tauto. }
  rewrite <- (filter_noise is_tool_result l), <- (filter_noise is_tool_result l') by (intros i Hi; by apply Hn).
  rewrite <- (filter_noise keep_input l), <- (filter_noise keep_input l') by (intros i Hi; by apply Hn).
  clear Hn. induction H as [|i i' x y Hi _ [IH1 IH2]]; [done|]. apply same_but_id_signal in Hi as (H1 & H2 & H3). cbn.
  rewrite H1, H2. split; case_match; cbn; congruence.
Qed.

Definition field (k : str) (v : option json) : list (str * json) := match v with Some v => [(k, v)] | None => [] end.

Lemma strip_input m l st :
  strip_openai_non_user_input (JObject (field (lit "messages") m ++ [(lit "input", JArray l)] ++ field (lit "stream") st)) =
  let value := JObject (field (lit "messages") m ++ [(lit "input", JArray (map drop_id (List.filter keep_input l)))] ++ field (lit "stream") st) in
  if bool_decide (0 < length (List.filter is_tool_result l))
  then set_field (lit "tool_result_count") (JNumber (Z.of_nat (length (List.filter is_tool_result l)))) value else value.
Proof.
  assert (bool_decide (lit "messages" = lit "input") = false) as E1 by (vm_compute; reflexivity).
  assert (bool_decide (lit "input" = lit "input") = true) as E2 by (vm_compute; reflexivity).
  unfold strip_openai_non_user_input, json_get, set_field. destruct m as [m|]; cbn [field app List.find fst snd]; rewrite ?E1, E2;
    cbn [fmap option_fmap option_map mbind option_bind as_array snd obj_insert]; rewrite ?E1, E2; cbn [obj_insert]; rewrite ?E2; done.
Qed.

(** The key of a Codex request depends on the conversation only: requests whose inputs agree
    up to the ids of their items and up to items that are neither messages of a user or an agent
    nor tool results have the same key, so that generated ids, the injected environment and
    system prompts do not matter. *)
Theorem openai_key_stable from_slice to_vec replace_all lib method path body body' j j' l l' :
  from_slice body = Some j -> from_slice body' = Some j' ->
  json_get (lit "messages") j = json_get (lit "messages") j' -> json_get (lit "stream") j = json_get (lit "stream") j' ->
  json_get (lit "input") j = Some (JArray l) -> json_get (lit "input") j' = Some (JArray l') ->
  Forall2 same_but_id (List.filter (fun i => negb (noise i)) l) (List.filter (fun i => negb (noise i)) l') ->
  let fields := [lit "messages"; lit "input"; lit "stream"] in
  compute_cache_key from_slice to_vec replace_all lib (lit "openai") method path body fields =
  compute_cache_key from_slice to_vec replace_all lib (lit "openai") method path body' fields.
Proof.
  intros Hj Hj' Hm Hs Hi Hi' Hl fields. apply same_input in Hl as [H1 H2]. unfold compute_cache_key. do 6 f_equal.
  unfold extract_cache_fields. rewrite Hj, Hj'. rewrite (bool_decide_true (lit "openai" = lit "openai")) by done.
  assert (forall v x, json_get (lit "input") v = Some (JArray x) ->
    omap (fun f => (fun y => (f, y)) <$> json_get f v) fields =
    field (lit "messages") (json_get (lit "messages") v) ++ [(lit "input", JArray x)] ++ field (lit "stream") (json_get (lit "stream") v)) as Hf.
  { intros v x E. unfold fields. cbn [omap list_omap]. rewrite E.
    by destruct (json_get (lit "messages") v), (json_get (lit "stream") v). }
  rewrite (Hf j l Hi), (Hf j' l' Hi'), !strip_input, Hm, Hs, H1, H2. done.
Qed.

(** ** Witnesses *)

(** A provider that answers "ok" and a JSON parser that knows no JSON. *)
Definition no_json (data : list N) : option json := None.
Definition no_text (j : json) : list N := [].
Definition no_regex (pattern replacement data : list N) : list N := data.
Definition keys (name : str) : option str := if bool_decide (name = lit "RUMPELPOD_TEST_LLM_OFFLINE") then None else Some (lit "key").
Definition offline (name : str) : option str := Some (lit "1").
Definition answers (q : forwarded) : option answer := Some (mkAnswer 200 [] (lit "ok")).

Definition example_llm_request (body : str) : llm_request :=
  mkLlmRequest (lit "openai") (lit "v1/responses") None (lit "POST") [(lit "authorization", Some (lit "Bearer client"))] (Some body).

Definition ZeroLib : HashLib := mkHashLib (fun m => m) (fun m => m).

#[export] Instance ResponseMeta_eq_dec : EqDecision ResponseMeta.
Proof. solve_decision. Defined.

#[export] Instance ResponseMeta_countable : Countable ResponseMeta.
Proof.
  apply (inj_countable' (fun m => (rm_status m, rm_path m, rm_headers m)) (fun x => mkMeta x.1.1 x.1.2 x.2)).
  by intros [].
Defined.

(** A metadata line: the number that encodes the metadata, in binary with "0" and "1". *)
Fixpoint bits (p : positive) : list N :=
  match p with xH => [] | xO p => 48%N :: bits p | xI p => 49%N :: bits p end.

Fixpoint unbits (l : list N) : positive :=
  match l with [] => xH | b :: l => if bool_decide (b = 48%N) then xO (unbits l) else xI (unbits l) end.

Lemma unbits_bits p : unbits (bits p) = p.
Proof. induction p as [p IH|p IH|]; cbn; rewrite ?IH; done. Qed.

Definition write_bits (m : ResponseMeta) : list N := bits (encode m).
Definition read_bits (line : list N) : option ResponseMeta := decode (unbits line).

#[export] Instance bits_laws : MetaLaws write_bits read_bits.
Proof.
  split.
  - intros m. unfold write_bits. generalize (encode m). intros p. induction p as [p IH|p IH|]; cbn; [| |apply not_elem_of_nil];
      apply not_elem_of_cons; (split; [discriminate|done]).
  - intros m. unfold read_bits, write_bits. rewrite unbits_bits. apply decode_encode.
Qed.

Definition no_llm : llm_state := mkLlm ∅ ∅ [] false.

Definition example_prepared : result reply prepared := prepare no_json no_text no_regex ZeroLib (example_llm_request (lit "hi")).

Definition first_answer : option (llm_state * reply) :=
  match example_prepared with
  | Ok p => Some (forward_phase no_json no_text write_bits read_bits keys answers (example_llm_request (lit "hi")) p no_llm)
  | Err _ => None
  end.

Lemma answers_replayed_witness :
  match first_answer with
  | Some (s, Reply status headers body) =>
      handle_llm_cache_proxy no_json no_text no_text no_regex ZeroLib write_bits read_bits offline (fun _ => None)
        (example_llm_request (lit "hi")) s = (s, Reply status headers body)
  | _ => False
  end.
Proof.
  unfold first_answer.
  assert (match example_prepared with
          | Ok p => match (forward_phase no_json no_text write_bits read_bits keys answers (example_llm_request (lit "hi")) p no_llm).2 with
                    | Reply _ _ _ => True | Panicked => False end
          | Err _ => False end) as H by (vm_compute; exact I).
  destruct example_prepared as [p|e] eqn:Ep; [|exact H].
  destruct (forward_phase no_json no_text write_bits read_bits keys answers (example_llm_request (lit "hi")) p no_llm)
    as [s [status headers body|]] eqn:E; [|exact H].
  apply (answers_replayed no_json no_text no_text no_regex ZeroLib write_bits read_bits keys answers offline (fun _ => None)
           (example_llm_request (lit "hi")) p no_llm s (Reply status headers body) (example_llm_request (lit "hi")) p);
    [exact E|discriminate|exact Ep|reflexivity|reflexivity].
Defined.

(** Two requests miss the cache before either of them is forwarded. *)
Definition run_forward (p : prepared) (s : llm_state) : llm_state * reply :=
  forward_phase no_json no_text write_bits read_bits keys answers (example_llm_request (lit "hi")) p s.

Lemma forwarded_at_most_once_witness :
  match example_prepared with
  | Ok p => calls (lit "codex", pr_key p) (run_forward p (run_forward p no_llm).1).1 <= 1
  | Err _ => False
  end.
Proof.
  destruct example_prepared as [p|e] eqn:Ep; [|vm_compute in Ep; discriminate Ep].
  apply (forwarded_at_most_once no_json no_text no_text no_regex ZeroLib write_bits read_bits keys answers
           (run_forward p (run_forward p no_llm).1).1 []).
  assert (lookup_phase no_json no_text no_regex ZeroLib read_bits keys (example_llm_request (lit "hi")) no_llm = Ok p) as Hl.
  { unfold lookup_phase. fold example_prepared. rewrite Ep. reflexivity. }
  eapply rtc_l; [apply (llm_lookup _ _ _ _ _ _ _ _ _ (example_llm_request (lit "hi")) p no_llm []); exact Hl|].
  eapply rtc_l; [apply (llm_lookup _ _ _ _ _ _ _ _ _ (example_llm_request (lit "hi")) p no_llm); exact Hl|].
  eapply rtc_l; [apply (llm_forward _ _ _ _ _ _ _ _ _ (example_llm_request (lit "hi")) p [] [(example_llm_request (lit "hi"), p)] no_llm (run_forward p no_llm).1 (run_forward p no_llm).2);
                 apply surjective_pairing|].
  eapply rtc_l; [apply (llm_forward _ _ _ _ _ _ _ _ _ (example_llm_request (lit "hi")) p [] [] (run_forward p no_llm).1 (run_forward p (run_forward p no_llm).1).1
                   (run_forward p (run_forward p no_llm).1).2); apply surjective_pairing|].
  apply rtc_refl.
Defined.

Lemma failed_forward_breaks_proxy_witness :
  (handle_llm_cache_proxy no_json no_text no_text no_regex ZeroLib write_bits read_bits keys (fun _ => None)
     (example_llm_request (lit "hi")) no_llm).2 = Panicked.
Proof.
  destruct example_prepared as [p|e] eqn:Ep; [|vm_compute in Ep; discriminate Ep].
  apply (failed_forward_breaks_proxy no_json no_text no_text no_regex ZeroLib write_bits read_bits keys (fun _ => None)
           (example_llm_request (lit "hi")) p no_llm [] (example_llm_request (lit "hi")) p keys answers); [|reflexivity|reflexivity].
  unfold lookup_phase. fold example_prepared. rewrite Ep. reflexivity.
Defined.

Lemma offline_only_reads_witness :
  (handle_llm_cache_proxy no_json no_text no_text no_regex ZeroLib write_bits read_bits offline answers (example_llm_request (lit "hi")) no_llm).1 = no_llm.
Proof. apply (offline_only_reads no_json no_text no_text no_regex ZeroLib write_bits read_bits offline answers). vm_compute. reflexivity. Defined.

Lemma client_credentials_dropped_witness :
  (lit "authorization", lit "Bearer key") = (lit "authorization", lit "Bearer " ++ lit "key").
Proof.
  apply (client_credentials_dropped (lr_headers (example_llm_request [])) BearerToken (lit "key") (lit "authorization") (lit "Bearer key")); decide_now.
Defined.

Lemma dates_normalised_witness :
  replace_dates_between (lit "Today's date is ") (lit ".") (dated (lit "Today's date is ") [lit "x "] [lit "2026-06-24"] (lit ". y")) =
  replace_dates_between (lit "Today's date is ") (lit ".") (dated (lit "Today's date is ") [lit "x "] [lit "2026-06-25"] (lit ". y")).
Proof.
  apply (dates_normalised (lit "Today's date is ") (lit ".")).
  - intros H. vm_compute in H. discriminate H.
  - apply Forall_singleton. vm_compute. reflexivity.
  - constructor.
  - reflexivity.
  - apply Forall2_cons. split; [split; reflexivity|constructor].
Defined.

Lemma ports_normalised_witness :
  replace_localhost_port (lit "http://" ++ LOCALHOST ++ lit "33049" ++ lit "/r.git") =
  replace_localhost_port (lit "http://" ++ LOCALHOST ++ lit "4" ++ lit "/r.git").
Proof.
  apply (ports_normalised (lit "http://") (lit "33049") (lit "4") (lit "/r.git"));
    [vm_compute; reflexivity|discriminate|discriminate|decide_now|decide_now].
Defined.

(** Two requests that differ in the id of a message. *)
Definition message (id : str) : json :=
  JObject [(lit "role", JString (lit "user")); (lit "id", JString id); (lit "content", JString (lit "hi"))].
Definition parse_message (body : list N) : option json := Some (JObject [(lit "input", JArray [message body])]).

Lemma openai_key_stable_witness :
  compute_cache_key parse_message no_text no_regex ZeroLib (lit "openai") [] [] (lit "m1") [lit "messages"; lit "input"; lit "stream"] =
  compute_cache_key parse_message no_text no_regex ZeroLib (lit "openai") [] [] (lit "m2") [lit "messages"; lit "input"; lit "stream"].
Proof.
  apply (openai_key_stable parse_message no_text no_regex ZeroLib [] [] (lit "m1") (lit "m2")
           (JObject [(lit "input", JArray [message (lit "m1")])]) (JObject [(lit "input", JArray [message (lit "m2")])])
           [message (lit "m1")] [message (lit "m2")]); try reflexivity.
  apply Forall2_cons. split; [|constructor]. right. eexists _, (JString (lit "m2")). split; reflexivity.
Defined.
