(* ===== verification/Initialize.v ===== *)
(** * The initializer of a devcontainer (initialize.rs)

    Before a pod is created its initializeCommand runs on the host.  The environment of the
    command is that of the daemon with the variables the configuration refers to taken from the
    client, and with the variables that select the container engine set for the host of the pod;
    the same values are substituted into the configuration.  Output is read back from files in
    chunks and passed on line by line.  [find_raw] and [find_and_load] read the configuration,
    [spawn] runs a program: its status and what it wrote. *)
From stdpp Require Import gmap.
From S2P Require Import Prelude Strs Hosts Json Subst Devcontainer Sse.

Abbreviation environment := (gmap (list N) (list N)).

(** ** The environment *)

Record EnvironmentOverrides := mkOverrides { eo_set : environment; eo_remove : gset (list N) }.

Definition ssh_url (destination : str) : str := lit "ssh://" ++ destination.

Definition backend_environment (host : Host) (docker_socket : option str) : run (result str EnvironmentOverrides) :=
  match host with
  | Localhost Docker =>
      Returned (socket ← context (lit "local Docker socket is unavailable") docker_socket;
                Ok (mkOverrides {[ lit "DOCKER_HOST" := lit "unix://" ++ socket ]} {[ lit "DOCKER_CONTEXT" ]}))
  | Ssh destination Docker =>
      Returned (Ok (mkOverrides {[ lit "DOCKER_HOST" := ssh_url destination ]} {[ lit "DOCKER_CONTEXT" ]}))
  | Ssh destination Podman =>
      Returned (Ok (mkOverrides {[ lit "DOCKER_HOST" := ssh_url destination; lit "CONTAINER_HOST" := ssh_url destination ]}
                      {[ lit "DOCKER_CONTEXT"; lit "CONTAINER_CONNECTION" ]}))
  | Localhost Podman =>
      Returned (Ok (mkOverrides ∅ {[ lit "DOCKER_HOST"; lit "DOCKER_CONTEXT"; lit "CONTAINER_HOST"; lit "CONTAINER_CONNECTION" ]}))
  | Kubernetes _ _ _ _ _ _ _ => Returned (Ok (mkOverrides ∅ ∅))
  | Localhost Auto | Ssh _ Auto => Panicked
  end.

Definition with_agent (ssh_auth_sock : option str) (b : EnvironmentOverrides) : EnvironmentOverrides :=
  match ssh_auth_sock with
  | Some socket => mkOverrides (<[lit "SSH_AUTH_SOCK" := socket]> (eo_set b)) (eo_remove b)
  | None => mkOverrides (eo_set b) ({[ lit "SSH_AUTH_SOCK" ]} ∪ eo_remove b)
  end.

(** The environment of the client with the overrides, and the variables to remove from that of
    the daemon; [names] are those the configuration refers to. *)
Definition override_environment (names : gset (list N)) (b : EnvironmentOverrides) (local_env : environment)
    : environment * gset (list N) :=
  let remove_env := filter (fun name => local_env !! name = None) names in
  let local_env := filter (fun kv => kv.1 ∉ eo_remove b) local_env in
  let remove_env := remove_env ∪ eo_remove b in
  (eo_set b ∪ local_env, remove_env ∖ dom (eo_set b)).

(** [Command::envs] and [env_remove] on the environment of the daemon. *)
Definition child_environment (daemon_env env : environment) (remove_env : gset (list N)) : environment :=
  filter (fun kv => kv.1 ∉ remove_env) (env ∪ daemon_env).

(** ** Output *)

Definition LINE_LIMIT : N := 65536.

(** The pieces of a chunk between newlines: the lines it completes and the rest. *)
Fixpoint chunk_lines (line : list N) (pieces : list (list N)) : list (list N) * list N :=
  match pieces with
  | [] => ([], line)
  | [piece] => ([], line ++ piece)
  | piece :: pieces => let '(out, rest) := chunk_lines [] pieces in (strip_cr (line ++ piece) :: out, rest)
  end.

(** One turn of the loop of [emit_output]; a line that grew too long is passed on as it is. *)
Definition emit_chunk (line chunk : list N) : list (list N) * list N :=
  let '(out, rest) := chunk_lines line (split c_nl chunk) in
  if bool_decide (LINE_LIMIT <= N.of_nat (length rest))%N then (out ++ [rest], []) else (out, rest).

Fixpoint emit_chunks (line : list N) (chunks : list (list N)) : list (list N) :=
  match chunks with
  | [] => if bool_decide (line = []) then [] else [line]
  | chunk :: chunks => let '(out, line) := emit_chunk line chunk in out ++ emit_chunks line chunks
  end.

(** [emit_output]: [chunks] is what the reads return.  A receiver that is gone stays gone, so what
    it gets is a prefix of the lines that are offered to it; nothing else depends on it. *)
Definition emit_output (stream : str -> OutputLine) (lossy : list N -> str) (chunks : list (list N)) : list OutputLine :=
  map (fun line => stream (lossy line)) (emit_chunks [] chunks).

(** ** Running *)

Definition command_is_empty (command : LifecycleCommand) : bool :=
  match command with
  | LCString s => bool_decide (trim s = [])
  | LCArray l => bool_decide (l = [])
  | LCObject m => bool_decide (m = ∅)
  end.

(** What a program did: whether it succeeded, and the chunks of its output. *)
Record finished := mkFinished { fi_success : bool; fi_stdout : list (list N); fi_stderr : list (list N) }.

Section Run.
  Variable lossy : list N -> str.
  Variable spawn : list str -> environment -> result str finished.

(** The lines that are offered and the outcome. *)
Abbreviation ran := (list OutputLine * result str unit)%type.

Definition run_one (name : str) (args : list str) (env : environment) : ran :=
  match args with
  | [] => ([], Ok tt)
  | _ =>
      match spawn args env with
      | Err e => ([], Err (lit "spawning " ++ name))
      | Ok f =>
          (emit_output Stdout lossy (fi_stdout f) ++ emit_output Stderr lossy (fi_stderr f),
           if fi_success f then Ok tt else Err (name ++ lit " exited"))
      end
  end.

Definition shell (command : str) : list str := [lit "/bin/sh"; lit "-c"; command].

Definition run_parallel (commands : list (str * StringOrArray)) (env : environment) : list OutputLine * result str unit :=
  let results := map (fun c => run_one (lit "initializeCommand/" ++ c.1)
                                 (match c.2 with SAString s => shell s | SAArray l => l end) env) commands in
  (concat (map fst results),
   foldl (fun acc r => match acc, r with Ok _, Err e => Err e | _, _ => acc end) (Ok tt) (map snd results)).

Definition run_initialize_command (command : LifecycleCommand) (env : environment) : list OutputLine * result str unit :=
  match command with
  | LCString s => run_one (lit "initializeCommand") (shell s) env
  | LCArray l => run_one (lit "initializeCommand") l env
  | LCObject m => run_parallel (map_to_list m) env
  end.

(** ** [run_async] *)

Variable lib : HashLib.
Variable json_string : list N -> list N.
Variable canonicalize : str -> option str.
Variable daemon_env : environment.

(** The environment of the client afterwards, the lines and the outcome. *)
Definition run_async (find_raw : result str (option str)) (find_and_load : result str (option DevContainer))
    (repo_path pod_name : str) (host : Host) (docker_socket ssh_auth_sock : option str) (local_env : environment)
    : run (environment * (list OutputLine * result str unit)) :=
  match find_raw with
  | Err e => Returned (local_env, ([], Err e))
  | Ok raw =>
      names ← collect_local_env_var_names (default (lit "{}") raw);
      backend ← backend_environment host docker_socket;
      match backend with
      | Err e => Returned (local_env, ([], Err e))
      | Ok b =>
          let '(local_env, remove_env) := override_environment names (with_agent ssh_auth_sock b) local_env in
          match find_and_load with
          | Err e => Returned (local_env, ([], Err e))
          | Ok None => Returned (local_env, ([], Ok tt))
          | Ok (Some dc) =>
              match dc_initialize_command dc with
              | None => Returned (local_env, ([], Ok tt))
              | Some command =>
                  if command_is_empty command then Returned (local_env, ([], Ok tt))
                  else
                    dc ← resolve_devcontainer_vars lib json_string canonicalize dc repo_path pod_name local_env;
                    match dc_initialize_command dc with
                    | None => Returned (local_env, ([], Err (lit "initializeCommand disappeared during variable substitution")))
                    | Some command =>
                        let '(out, r) := run_initialize_command command (child_environment daemon_env local_env remove_env) in
                        Returned (local_env, (Stderr (lit "running initializeCommand...") :: out, r))
                    end
              end
          end
      end
  end.
End Run.

(** ** Theorems *)

(** The initializer sees the values that are substituted: for every variable the
    configuration refers to and every variable that selects the container engine or the SSH
    agent, the environment of the command has exactly the value that substitution uses, or
    neither has one, whatever the environment of the daemon is. *)
Theorem child_agrees_with_substitution names host docker_socket ssh_auth_sock local_env daemon_env b name :
  backend_environment host docker_socket = Returned (Ok b) ->
  let o := with_agent ssh_auth_sock b in
  let '(local_env', remove_env) := override_environment names o local_env in
  name ∈ names ∪ dom (eo_set o) ∪ eo_remove o ->
  child_environment daemon_env local_env' remove_env !! name = local_env' !! name.
Proof.
  intros _ o. cbn. intros Hn. unfold child_environment.
  set (env' := eo_set o ∪ filter _ local_env). set (rm := _ ∖ _).
  destruct (decide (name ∈ rm)) as [Hr|Hr].
  - rewrite map_lookup_filter_None_2 by (right; intros x _ Hx; by apply Hx). symmetry. unfold rm in Hr.
    apply elem_of_difference in Hr as [Hr Hd]. unfold env'. rewrite lookup_union_None. split; [by apply not_elem_of_dom|].
    apply map_lookup_filter_None_2. apply elem_of_union in Hr as [[Hl _]%elem_of_filter|Hr]; [by left|right; naive_solver].
  - assert (is_Some (env' !! name)) as [v Hv].
    { unfold env'. destruct (eo_set o !! name) as [v|] eqn:Es; [rewrite (lookup_union_Some_l _ _ _ v) by done; done|].
      rewrite lookup_union_r by done. unfold rm in Hr. rewrite elem_of_difference, elem_of_union, elem_of_filter, elem_of_dom, Es in Hr.
      destruct (local_env !! name) as [v|] eqn:El.
      - exists v. apply map_lookup_filter_Some_2; [done|]. cbn. intros Hrm. apply Hr. split; [by right|]. by intros [? ?].
      - exfalso. apply Hr. split; [|by intros [? ?]]. rewrite !elem_of_union, elem_of_dom, Es in Hn.
        destruct Hn as [[Hn|[? ?]]|Hn]; [by left|done|by right]. }
    rewrite Hv. apply map_lookup_filter_Some_2; [|done]. by rewrite (lookup_union_Some_l _ _ _ v).
Qed.

(** *** Lines *)

Lemma split_app_last c a b : exists ws w, split c a = ws ++ [w] /\ split c (a ++ b) = ws ++ split c (w ++ b) /\ c ∉ w.
Proof.
  destruct (exists_last (split_nonempty c a)) as (ws & w & E). exists ws, w.
  pose proof (split_sep_free c a) as Hf. rewrite E in Hf. apply Forall_app in Hf as [Hws [Hw _]%Forall_cons].
  split; [exact E|]. split; [|exact Hw].
  pose proof (join_split c a) as Hj. rewrite E in Hj. rewrite <- Hj. clear Hj E.
  induction Hws as [|x ws Hx _ IH]; [done|].
  assert (forall t, join [c] (x :: ws ++ [w]) ++ t = x ++ c :: (join [c] (ws ++ [w]) ++ t)) as Hjoin.
  { intros t. destruct ws as [|y ws]; cbn; by rewrite <- app_assoc. }
  change ((x :: ws) ++ [w]) with (x :: ws ++ [w]). rewrite Hjoin, split_cons_sep by done. rewrite IH. done.
Qed.

Lemma lines_of_app ws vs : vs <> [] -> lines_of (ws ++ vs) = map strip_cr ws ++ lines_of vs.
Proof.
  intros Hv. induction ws as [|w ws IH]; [done|]. cbn [app map]. rewrite <- IH. destruct (ws ++ vs) eqn:E; [|done].
  apply app_nil in E as [_ ->]. done.
Qed.

Lemma chunk_lines_spec line ws w : chunk_lines line (ws ++ [w]) =
  match ws with [] => ([], line ++ w) | x :: ws => (strip_cr (line ++ x) :: map strip_cr ws, w) end.
Proof.
  revert line. induction ws as [|x ws IH]; intros line; [done|]. cbn [app].
  assert (chunk_lines line (x :: ws ++ [w]) = let '(out, rest) := chunk_lines [] (ws ++ [w]) in (strip_cr (line ++ x) :: out, rest)) as ->.
  { cbn [chunk_lines]. destruct (ws ++ [w]) eqn:E; [by destruct ws|done]. }
  rewrite IH. by destruct ws.
Qed.

Lemma emit_chunks_lines line chunks :
  c_nl ∉ line -> Forall (fun w => N.of_nat (length w) < LINE_LIMIT)%N (split c_nl (line ++ concat chunks)) ->
  emit_chunks line chunks = lines_of (split c_nl (line ++ concat chunks)).
Proof.
  revert line. induction chunks as [|chunk chunks IH]; intros line Hl Hs; cbn [emit_chunks concat] in *.
  { rewrite app_nil_r, split_free by done. cbn. done. }
  destruct (split_app_last c_nl chunk []) as (ws & w & E & _ & Hw).
  assert (split c_nl (line ++ chunk) = match ws with [] => [line ++ w] | x :: ws => (line ++ x) :: ws ++ [w] end) as Esplit.
  { destruct ws as [|x ws].
    - cbn in E. pose proof (join_split c_nl chunk) as Hj. rewrite E in Hj. cbn in Hj. rewrite <- Hj. apply split_free.
      by rewrite not_elem_of_app.
    - pose proof (join_split c_nl chunk) as Hj. rewrite E in Hj.
      pose proof (split_sep_free c_nl chunk) as Hf. rewrite E in Hf. apply Forall_cons in Hf as [Hx Hf].
      assert (chunk = x ++ c_nl :: join [c_nl] (ws ++ [w])) as -> by (rewrite <- Hj; by destruct ws).
      rewrite app_assoc, split_cons_sep by (by rewrite not_elem_of_app). rewrite split_join; [done|by destruct ws|done]. }
  unfold emit_chunk. rewrite E, chunk_lines_spec. rewrite app_assoc in Hs |- *.
  destruct (split_app_last c_nl (line ++ chunk) (concat chunks)) as (ws' & w' & E1 & E2 & Hw').
  rewrite E2 in Hs |- *. apply Forall_app in Hs as [_ Hs]. rewrite lines_of_app by apply split_nonempty.
  assert ((match ws with [] => ([], line ++ w) | x :: ws => (strip_cr (line ++ x) :: map strip_cr ws, w) end) = (map strip_cr ws', w')) as ->.
  { rewrite E1 in Esplit. destruct ws as [|x ws].
    - apply (app_inj_2 ws' [] [w'] [line ++ w]) in Esplit as [-> [= ->]]; [done|done].
    - change ((line ++ x) :: ws ++ [w]) with (((line ++ x) :: ws) ++ [w]) in Esplit. apply app_inj_tail in Esplit as [-> ->]. done. }
  rewrite <- (IH w') by done. case_bool_decide as Hlen; [|done]. exfalso.
  destruct (split_app_last c_nl w' (concat chunks)) as (vs & v & Ev & Ev2 & _).
  rewrite split_free in Ev by done. destruct vs as [|? [|]]; [|done|done]. injection Ev as <-.
  assert (exists y r, split c_nl (w' ++ concat chunks) = (w' ++ y) :: r) as (y & r & Ey).
  { clear -Hw'. destruct (split_once c_nl (concat chunks)) as [[y r]|] eqn:Eo.
    - apply split_once_Some in Eo as [-> Hy]. exists y. rewrite app_assoc, split_cons_sep by (by rewrite not_elem_of_app). by eexists.
    - apply split_once_None in Eo. exists (concat chunks). rewrite split_free by (by rewrite not_elem_of_app). by eexists. }
  rewrite Ey in Hs. apply Forall_cons in Hs as [Hs _]. rewrite length_app in Hs. lia.
Qed.

(** Output is passed on line by line, however it is read: with lines of less than 64 KiB,
    the lines that are passed on are the lines of the whole output, for every way the reads cut
    it into chunks. *)
Theorem output_lines_exact stream lossy chunks :
  Forall (fun w => N.of_nat (length w) < LINE_LIMIT)%N (split c_nl (concat chunks)) ->
  emit_output stream lossy chunks = map (fun line => stream (lossy line)) (lines (concat chunks)).
Proof. intros H. unfold emit_output, lines. by rewrite (emit_chunks_lines [] chunks (not_elem_of_nil _) H). Qed.

(** *** Parallel commands *)

Lemma first_error_spec (rs : list (result str unit)) :
  match foldl (fun acc r => match acc, r with Ok _, Err e => Err e | _, _ => acc end) (Ok tt : result str unit) rs with
  | Ok _ => Forall (fun r => r = Ok tt) rs
  | Err e => exists before after, rs = before ++ Err e :: after /\ Forall (fun r => r = Ok tt) before
  end.
Proof.
  assert (forall e (rs : list (result str unit)), foldl (fun acc r => match acc, r with Ok _, Err e => Err e | _, _ => acc end) (Err e : result str unit) rs = Err e) as Herr.
  { intros e l. induction l; [done|]. cbn. done. }
  induction rs as [|[[]|e] rs IH]; cbn [foldl]; [constructor| |].
  - destruct (foldl _ (Ok tt) rs) as [[]|e]; [by constructor|]. destruct IH as (before & after & -> & H).
    exists (Ok tt :: before), after. split; [done|by constructor].
  - rewrite Herr. exists [], rs. split; [done|constructor].
Qed.

(** The commands of an object all run, whatever the others do: the output of each is passed
    on, the whole succeeds exactly when all of them succeed, and otherwise the error is that of
    the first one that failed. *)
Theorem parallel_commands lossy spawn commands env :
  let result c := run_one lossy spawn (lit "initializeCommand/" ++ c.1) (match c.2 with SAString s => shell s | SAArray l => l end) env in
  (run_parallel lossy spawn commands env).1 = concat (map (fun c => (result c).1) commands) /\
  match (run_parallel lossy spawn commands env).2 with
  | Ok _ => Forall (fun c => (result c).2 = Ok tt) commands
  | Err e => exists before c after, commands = before ++ c :: after /\ (result c).2 = Err e /\ Forall (fun c => (result c).2 = Ok tt) before
  end.
Proof.
  intros result. unfold run_parallel. cbn [fst snd]. rewrite !map_map. split; [done|].
  pose proof (first_error_spec (map (fun c => (result c).2) commands)) as H. unfold result in *.
  destruct (foldl _ _ _) as [[]|e].
  - rewrite Forall_map in H. exact H.
  - destruct H as (before & after & E & Hb). apply map_eq_app in E as (cs & cs' & -> & E1 & E2).
    destruct cs' as [|c cs']; [done|]. injection E2 as E2 _. exists cs, c, cs'. split_and!; [done|done|]. rewrite <- E1 in Hb.
    rewrite Forall_map in Hb. exact Hb.
Qed.

(** ** Witnesses *)

Lemma child_agrees_with_substitution_witness :
  let env' := override_environment {[ lit "TOKEN" ]} (with_agent None (mkOverrides {[ lit "DOCKER_HOST" := lit "ssh://h" ]} {[ lit "DOCKER_CONTEXT" ]})) ∅ in
  child_environment {[ lit "TOKEN" := lit "daemon"; lit "DOCKER_HOST" := lit "daemon" ]} env'.1 env'.2 !! lit "DOCKER_HOST" = Some (lit "ssh://h").
Proof.
  pose proof (child_agrees_with_substitution {[ lit "TOKEN" ]} (Ssh (lit "h") Docker) None None ∅
                {[ lit "TOKEN" := lit "daemon"; lit "DOCKER_HOST" := lit "daemon" ]}
                (mkOverrides {[ lit "DOCKER_HOST" := lit "ssh://h" ]} {[ lit "DOCKER_CONTEXT" ]}) (lit "DOCKER_HOST")) as H.
  cbv zeta. etransitivity; [apply H; [vm_compute; reflexivity|decide_now]|vm_compute; reflexivity].
Defined.

Lemma output_lines_exact_witness :
  emit_output Stdout id [lit "on"; lit "e" ++ [c_cr]; [c_nl] ++ lit "two"] = [Stdout (lit "one"); Stdout (lit "two")].
Proof.
  rewrite (output_lines_exact Stdout id [lit "on"; lit "e" ++ [c_cr]; [c_nl] ++ lit "two"]); [vm_compute; reflexivity|decide_now].
Defined.
