(* ===== verification/AgentConfig.v ===== *)
(** * Configuration of agents that is copied into a pod (daemon.rs)

    When a pod is created the daemon copies what Claude Code and pi need to run in it from the
    home directory of the user, and nothing of other projects: ~/.claude.json is reduced to
    listed keys, the history to the entries of the repository, paths of the host are replaced by
    those of the pod.  [from_slice], [to_vec] and [to_pretty] parse and print JSON objects, [read]
    reads a file below the home directory and [list_dir] the files below a directory. *)
From stdpp Require Import gmap.
From S2P Require Import Prelude Strs Hosts Json ExecStream Compose.

Abbreviation object := (list (list N * json)).

(** Why a file could not be read. *)
Inductive read_error := NotFound | Unreadable (e : str).

(** Whitelisted keys of ~/.claude.json. *)
Definition KEEP_KEYS : list str :=
  [lit "anonymousId"; lit "autoUpdates"; lit "autoUpdatesProtectedForNative"; lit "birthdayHatAnimationCount";
   lit "bypassPermissionsModeAccepted"; lit "cachedChromeExtensionInstalled"; lit "cachedDynamicConfigs";
   lit "cachedExtraUsageDisabledReason"; lit "cachedGrowthBookFeatures"; lit "cachedStatsigGates"; lit "changelogLastFetched";
   lit "claudeCodeFirstTokenDate"; lit "clientDataCache"; lit "customApiKeyResponses"; lit "effortCalloutDismissed";
   lit "effortCalloutV2Dismissed"; lit "feedbackSurveyState"; lit "firstStartTime"; lit "fullscreenUpsellSeenCount";
   lit "groveConfigCache"; lit "hasAcknowledgedCostThreshold"; lit "hasCompletedOnboarding"; lit "hasSeenTasksHint";
   lit "hasShownOpus45Notice"; lit "hasShownOpus46Notice"; lit "hasVisitedExtraUsage"; lit "hasVisitedPasses"; lit "installMethod";
   lit "lastOnboardingVersion"; lit "lastReleaseNotesSeen"; lit "lspRecommendationDisabled"; lit "numStartups"; lit "oauthAccount";
   lit "officialMarketplaceAutoInstallAttempted"; lit "officialMarketplaceAutoInstalled"; lit "opus45MigrationComplete";
   lit "opus46FeedSeenCount"; lit "opusProMigrationComplete"; lit "passesEligibilityCache"; lit "passesLastSeenCampaign";
   lit "passesLastSeenRemaining"; lit "passesUpsellSeenCount"; lit "penguinModeOrgEnabled"; lit "primaryApiKey";
   lit "promptQueueUseCount"; lit "s1mAccessCache"; lit "s1mNonSubscriberAccessCache"; lit "sonnet1m45MigrationComplete";
   lit "sonnet45MigrationComplete"; lit "sonnet45MigrationTimestamp"; lit "subscriptionNoticeCount"; lit "thinkingMigrationComplete";
   lit "tipsHistory"; lit "toolUsage"; lit "userID"].

Definition keep_key (k : str) : bool := bool_decide (k ∈ KEEP_KEYS).

(** The settings of the repository for the pod. *)
Definition project_entry (obj : object) (repo_path : str) : object :=
  let entry := default [] (projects ← obj_get (lit "projects") obj ≫= as_object; obj_get repo_path projects ≫= as_object) in
  obj_insert (lit "hasCompletedProjectOnboarding") (JBool true) (obj_insert (lit "hasTrustDialogAccepted") (JBool true) entry).

(** The object that [strip_claude_json] prints. *)
Definition stripped_object (obj : object) (repo_path container_repo_path : str) : object :=
  obj_insert (lit "projects") (JObject [(container_repo_path, JObject (project_entry obj repo_path))])
    (List.filter (fun kv => keep_key kv.1) obj).

Definition claude_project_dir_name (repo_path : str) : str :=
  map (fun c => if is_ascii_alphanumeric c then c else c_hyphen) repo_path.

Section Copy.
  Variable from_slice : list N -> option object.
  Variable to_vec to_pretty : object -> list N.

Definition strip_claude_json (data : list N) (repo_path container_repo_path : str) : list N :=
  match from_slice data with
  | None => lit "{}"
  | Some obj => to_pretty (stripped_object obj repo_path container_repo_path)
  end.

(** One line of the history. *)
Definition history_line (repo_path container_repo_path : str) (line : list N) : list N :=
  if bool_decide (line = []) then []
  else
    match from_slice line with
    | None => []
    | Some obj =>
        if bool_decide ((obj_get (lit "project") obj ≫= as_string) = Some repo_path)
        then to_vec (obj_insert (lit "project") (JString container_repo_path) obj) ++ [c_nl]
        else []
    end.

Definition filter_history (data : list N) (repo_path container_repo_path : str) : list N :=
  split c_nl data ≫= history_line repo_path container_repo_path.

Definition force_pi_trust (raw : option (list N)) : result str (list N) :=
  obj ← match raw with
        | Some data => context (lit "parsing ~/.pi/agent/settings.json") (from_slice data)
        | None => Ok []
        end;
  Ok (to_pretty (obj_insert (lit "defaultProjectTrust") (JString (lit "always")) obj)).

(** ** The archives *)

Variable read : str -> result read_error (list N).
Variable list_dir : str -> option (list (str * list N)).

Definition read_optional (rel : str) : result str (option (list N)) :=
  match read rel with
  | Ok data => Ok (Some data)
  | Err NotFound => Ok None
  | Err (Unreadable e) => Err (lit "reading ~/" ++ rel)
  end.

Definition member (rel : str) (data : option (list N)) : list (str * list N) :=
  match data with Some d => [(rel, d)] | None => [] end.

(** [keychain] is what the login keychain has. *)
Definition read_local_credentials (keychain : option (list N)) : result str (option (list N)) :=
  data ← read_optional (lit ".claude/.credentials.json");
  Ok (match data with Some d => Some d | None => keychain end).

(** The archive of [copy_claude_config_via_pod]. *)
Definition claude_archive (keychain : option (list N)) (repo_path container_repo_path : str) (copy_sessions : bool)
    : result str (list (str * list N)) :=
  claude_json ← read_optional (lit ".claude.json");
  credentials ← read_local_credentials keychain;
  settings ← read_optional (lit ".claude/settings.json");
  let history :=
    match read (lit ".claude/history.jsonl") with
    | Ok raw => let f := filter_history raw repo_path container_repo_path in if bool_decide (f = []) then None else Some f
    | Err _ => None
    end in
  let project_files :=
    if copy_sessions then default [] (list_dir (lit ".claude/projects/" ++ claude_project_dir_name repo_path)) else [] in
  Ok (member (lit ".claude.json") ((fun data => strip_claude_json data repo_path container_repo_path) <$> claude_json) ++
      member (lit ".claude/.credentials.json") credentials ++
      member (lit ".claude/settings.json") settings ++
      member (lit ".claude/history.jsonl") history ++
      map (fun f => (lit ".claude/projects/" ++ claude_project_dir_name container_repo_path ++ [c_slash] ++ f.1, f.2)) project_files).

Definition PI_CONFIG_COPIED_SENTINEL : str := lit ".pi/agent/.rumpelpod-config-copied".

(** The archive of [copy_pi_config_via_pod]. *)
Definition pi_archive (trust_workspace : bool) : result str (list (str * list N)) :=
  auth ← read_optional (lit ".pi/agent/auth.json");
  models ← read_optional (lit ".pi/agent/models.json");
  raw ← read_optional (lit ".pi/agent/settings.json");
  settings ← (if trust_workspace then Some <$> force_pi_trust raw else Ok raw);
  Ok (member (lit ".pi/agent/auth.json") auth ++ member (lit ".pi/agent/settings.json") settings ++
      member (lit ".pi/agent/models.json") models ++ [(PI_CONFIG_COPIED_SENTINEL, lit "1" ++ [c_nl])]).
End Copy.

(** ** Theorems *)

Lemma obj_get_filter_keep k obj : keep_key k = true -> obj_get k (List.filter (fun kv => keep_key kv.1) obj) = obj_get k obj.
Proof.
  intros Hk. unfold obj_get, json_get. induction obj as [|[k' v] obj IH]; [done|]. cbn [List.filter fst].
  destruct (keep_key k') eqn:E; cbn [List.find fst]; (destruct (bool_decide_reflect (k' = k)) as [->|?]; [try done; congruence|exact IH]).
Qed.

Lemma obj_get_filter_drop k obj : keep_key k = false -> obj_get k (List.filter (fun kv => keep_key kv.1) obj) = None.
Proof.
  intros Hk. unfold obj_get, json_get. induction obj as [|[k' v] obj IH]; [done|]. cbn [List.filter fst].
  destruct (keep_key k') eqn:E; [|exact IH]. cbn [List.find fst]. rewrite bool_decide_false by congruence. exact IH.
Qed.

(** Nothing of other projects is copied in ~/.claude.json: of the file of the user, the copy
    has the listed keys, with their values, and no other key but "projects"; that has one entry,
    for the path in the pod, with the settings of this repository, in which trust and onboarding
    are accepted. *)
Theorem claude_json_stripped obj repo_path container_repo_path :
  let obj' := stripped_object obj repo_path container_repo_path in
  let settings := default [] (projects ← obj_get (lit "projects") obj ≫= as_object; obj_get repo_path projects ≫= as_object) in
  (forall k, k ∈ KEEP_KEYS -> obj_get k obj' = obj_get k obj) /\
  (forall k, k ∉ KEEP_KEYS -> k <> lit "projects" -> obj_get k obj' = None) /\
  exists entry, obj_get (lit "projects") obj' = Some (JObject [(container_repo_path, JObject entry)]) /\
    obj_get (lit "hasTrustDialogAccepted") entry = Some (JBool true) /\
    obj_get (lit "hasCompletedProjectOnboarding") entry = Some (JBool true) /\
    forall k, k <> lit "hasTrustDialogAccepted" -> k <> lit "hasCompletedProjectOnboarding" -> obj_get k entry = obj_get k settings.
Proof.
  assert (lit "projects" ∉ KEEP_KEYS) as Hproj by decide_now.
  assert (lit "hasTrustDialogAccepted" <> lit "hasCompletedProjectOnboarding") as Hne by (intros H; vm_compute in H; discriminate H).
  intros obj' settings. unfold obj', stripped_object. split_and!.
  - intros k Hk. rewrite obj_get_insert_ne by (intros ->; done). apply obj_get_filter_keep. by apply bool_decide_eq_true.
  - intros k Hk Hp. rewrite obj_get_insert_ne by done. apply obj_get_filter_drop. by apply bool_decide_eq_false.
  - rewrite obj_get_insert. eexists. split; [done|]. unfold project_entry. fold settings. split_and!.
    + rewrite obj_get_insert_ne by done. apply obj_get_insert.
    + apply obj_get_insert.
    + intros k H1 H2. by rewrite !obj_get_insert_ne.
Qed.

(** *** History *)

(** JSON objects are printed on one line and read back. *)
Class ObjectLaws (from_slice : list N -> option object) (to_vec : object -> list N) : Prop := {
  object_line o : c_nl ∉ to_vec o;
  object_some o : to_vec o <> [];
  object_read o : from_slice (to_vec o) = Some o;
}.

Section History.
  Variable from_slice : list N -> option object.
  Variable to_vec : object -> list N.
  Context {OL : ObjectLaws from_slice to_vec}.

(** The entries of a history: its lines that are JSON objects. *)
Definition entries (data : list N) : list object := omap (fun line => if bool_decide (line = []) then None else from_slice line) (split c_nl data).

Definition of_project (path : str) (o : object) : bool := bool_decide ((obj_get (lit "project") o ≫= as_string) = Some path).

Lemma split_history ls tail : Forall (fun o => c_nl ∉ to_vec o) ls ->
  split c_nl ((ls ≫= fun o => to_vec o ++ [c_nl]) ++ tail) = map to_vec ls ++ split c_nl tail.
Proof.
  induction 1 as [|o ls Ho _ IH]; [done|]. rewrite bind_cons. rewrite <- !app_assoc. cbn [app]. rewrite split_cons_sep by done. by rewrite IH.
Qed.

(** The history in the pod is the history of this repository: its entries are exactly those
    of the file of the user that are of the repository, in order, with the path of the
    repository replaced by that in the pod; entries of other projects and damaged lines are not
    copied. *)
Theorem history_filtered data repo_path container_repo_path :
  entries (filter_history from_slice to_vec data repo_path container_repo_path) =
  map (obj_insert (lit "project") (JString container_repo_path)) (List.filter (of_project repo_path) (entries data)).
Proof using OL.
  set (kept := map (obj_insert (lit "project") (JString container_repo_path)) (List.filter (of_project repo_path) (entries data))).
  assert (filter_history from_slice to_vec data repo_path container_repo_path = (kept ≫= fun o => to_vec o ++ [c_nl])) as ->.
  { unfold filter_history, kept, entries. induction (split c_nl data) as [|line ls IH]; [done|]. rewrite bind_cons, IH. cbn [omap list_omap].
    unfold history_line at 1. case_bool_decide; [done|]. destruct (from_slice line) as [o|]; [|done]. cbn [List.filter]. fold (of_project repo_path o).
    by destruct (of_project repo_path o). }
  unfold entries at 1. rewrite <- (app_nil_r (kept ≫= _)), split_history.
  2: { apply Forall_forall. intros o _. apply object_line. }
  rewrite omap_app. cbn. rewrite app_nil_r. induction kept as [|o l IH]; [done|]. cbn.
  rewrite bool_decide_false by apply object_some. rewrite object_read. by rewrite IH.
Qed.
End History.

(** *** Files *)

Definition CLAUDE_FILES : list str := [lit ".claude.json"; lit ".claude/.credentials.json"; lit ".claude/settings.json"; lit ".claude/history.jsonl"].

(** Only four files and the sessions of the repository are copied. *)
Lemma claude_archive_files from_slice to_vec to_pretty read list_dir keychain repo_path container_repo_path copy_sessions files rel data :
  claude_archive from_slice to_vec to_pretty read list_dir keychain repo_path container_repo_path copy_sessions = Ok files ->
  (rel, data) ∈ files ->
  rel ∈ CLAUDE_FILES \/
  exists f, rel = lit ".claude/projects/" ++ claude_project_dir_name container_repo_path ++ [c_slash] ++ f /\ copy_sessions = true /\
    exists fs, list_dir (lit ".claude/projects/" ++ claude_project_dir_name repo_path) = Some fs /\ (f, data) ∈ fs.
Proof.
  unfold claude_archive. destruct (read_optional read (lit ".claude.json")) as [j|]; [|done]. cbn [mbind result_bind].
  destruct (read_local_credentials read keychain) as [cr|]; [|done]. cbn [mbind result_bind].
  destruct (read_optional read (lit ".claude/settings.json")) as [st|]; [|done]. cbn [mbind result_bind]. intros [= <-].
  assert (forall r d, (rel, data) ∈ member r d -> rel = r) as Hm.
  { intros r [d|]; cbn; [|by intros ?%not_elem_of_nil]. rewrite list_elem_of_singleton. congruence. }
  rewrite !elem_of_app. intros [H|[H|[H|[H|H]]]]; [apply Hm in H as ->; left; decide_now..|].
  apply list_elem_of_fmap in H as ([f d] & [= -> ->] & Hf). right. exists f. split; [done|]. destruct copy_sessions; [|by apply not_elem_of_nil in Hf].
  split; [done|]. destruct (list_dir _) as [fs|]; [by exists fs|by apply not_elem_of_nil in Hf].
Qed.

(** The sessions of another project are copied when its path differs from that of the repository
    only in characters that are not letters or digits: both share one directory. *)
Theorem session_directories_collide parent a b c d :
  is_ascii_alphanumeric c = false -> is_ascii_alphanumeric d = false ->
  claude_project_dir_name (parent ++ a ++ [c] ++ b) = claude_project_dir_name (parent ++ a ++ [d] ++ b).
Proof. intros Hc Hd. unfold claude_project_dir_name. rewrite !map_app. cbn [map]. by rewrite Hc, Hd. Qed.

(** With trust forced, the settings of pi in the pod always trust the workspace and keep all
    other settings; settings that cannot be read are an error and nothing is copied. *)
Theorem pi_trust_forced from_slice to_pretty raw out :
  force_pi_trust from_slice to_pretty raw = Ok out ->
  exists obj, match raw with Some data => from_slice data = Some obj | None => obj = [] end /\
    out = to_pretty (obj_insert (lit "defaultProjectTrust") (JString (lit "always")) obj) /\
    forall k, obj_get k (obj_insert (lit "defaultProjectTrust") (JString (lit "always")) obj) =
      if bool_decide (k = lit "defaultProjectTrust") then Some (JString (lit "always")) else obj_get k obj.
Proof.
  unfold force_pi_trust. destruct raw as [data|]; [destruct (from_slice data) as [obj|] eqn:E; [|done]|]; cbn [mbind result_bind context]; intros [= <-].
  - exists obj. split_and!; [done|done|]. intros k. case_bool_decide; [subst; apply obj_get_insert|by apply obj_get_insert_ne].
  - exists []. split_and!; [done|done|]. intros k. case_bool_decide; [subst; apply obj_get_insert|]. by rewrite obj_get_insert_ne.
Qed.

(** ** Witnesses *)

(** JSON values as trees, and objects as lines of "0" and "1". *)
Abbreviation leaf := (list N + (Z + bool))%type.

Fixpoint to_tree (j : json) : gen_tree leaf :=
  match j with
  | JNull => GenNode 0 []
  | JBool b => GenLeaf (inr (inr b))
  | JNumber n => GenLeaf (inr (inl n))
  | JString s => GenLeaf (inl s)
  | JArray l => GenNode 1 (map to_tree l)
  | JObject o => GenNode 2 (map (fun kv => GenNode 3 [GenLeaf (inl kv.1); to_tree kv.2]) o)
  end.

Fixpoint of_tree (t : gen_tree leaf) : json :=
  match t with
  | GenLeaf (inl s) => JString s
  | GenLeaf (inr (inl n)) => JNumber n
  | GenLeaf (inr (inr b)) => JBool b
  | GenNode 0 _ => JNull
  | GenNode 1 l => JArray (map of_tree l)
  | GenNode _ l => JObject (map (fun t => match t with GenNode _ [GenLeaf (inl k); v] => (k, of_tree v) | _ => ([], JNull) end) l)
  end.

Lemma of_to_tree : forall j, of_tree (to_tree j) = j.
Proof.
  fix IH 1. intros [|b|n|s|l|o]; cbn; [done..| |].
  - f_equal. induction l as [|j l IHl]; [done|]. cbn. f_equal; [apply IH|apply IHl].
  - f_equal. induction o as [|[k v] o IHo]; [done|]. cbn. f_equal; [f_equal; apply IH|apply IHo].
Qed.

#[export] Instance json_countable_eq : EqDecision json.
Proof. intros a b. destruct (decide (to_tree a = to_tree b)) as [E|E]; [left; by rewrite <- (of_to_tree a), E, of_to_tree|right; by intros ->]. Defined.

#[export] Instance json_countable : Countable json := inj_countable' to_tree of_tree of_to_tree.

Fixpoint binary (p : positive) : list N := match p with xH => [49%N] | xO p => 48%N :: binary p | xI p => 49%N :: binary p end.
Fixpoint unbinary (l : list N) : positive :=
  match l with [] => xH | [_] => xH | b :: l => if bool_decide (b = 48%N) then xO (unbinary l) else xI (unbinary l) end.

Lemma binary_some p : exists b l, binary p = b :: l.
Proof. destruct p; cbn; by do 2 eexists. Qed.

Lemma unbinary_binary p : unbinary (binary p) = p.
Proof.
  induction p as [p IH|p IH|]; cbn [binary unbinary]; [| |done]; destruct (binary_some p) as (b & l & E); rewrite E in *; by rewrite IH.
Qed.

Definition toy_print (o : object) : list N := binary (countable.encode o).
Definition toy_read (data : list N) : option object := countable.decode (unbinary data).

#[export] Instance toy_objects : ObjectLaws toy_read toy_print.
Proof.
  split; intros o; unfold toy_read, toy_print.
  - generalize (countable.encode o). intros p. induction p as [p IH|p IH|]; cbn; rewrite not_elem_of_cons; (split; [discriminate|done || apply not_elem_of_nil]).
  - intros H. destruct (binary_some (countable.encode o)) as (b & l & E). by rewrite E in H.
  - rewrite unbinary_binary. apply decode_encode.
Qed.

Definition entry_of (path : str) : object := [(lit "project", JString path)].

Lemma history_filtered_witness :
  entries toy_read (filter_history toy_read toy_print (toy_print (entry_of (lit "/a")) ++ [c_nl] ++ toy_print (entry_of (lit "/b"))) (lit "/b") (lit "/w")) =
  [entry_of (lit "/w")].
Proof. rewrite (history_filtered toy_read toy_print). vm_compute. reflexivity. Defined.

Lemma pi_trust_forced_witness :
  exists obj, obj = [] /\ force_pi_trust toy_read toy_print None = Ok (toy_print (obj_insert (lit "defaultProjectTrust") (JString (lit "always")) obj)).
Proof.
  destruct (pi_trust_forced toy_read toy_print None (toy_print [(lit "defaultProjectTrust", JString (lit "always"))])) as (obj & -> & H & _);
    [vm_compute; reflexivity|]. exists []. split; [reflexivity|]. rewrite <- H. vm_compute. reflexivity.
Defined.

Lemma session_directories_collide_witness :
  claude_project_dir_name (lit "/home/u/" ++ lit "app" ++ [c_slash] ++ lit "web") = claude_project_dir_name (lit "/home/u/" ++ lit "app" ++ [c_hyphen] ++ lit "web").
Proof. apply (session_directories_collide (lit "/home/u/") (lit "app") (lit "web") c_slash c_hyphen); vm_compute; reflexivity. Defined.
