(* ===== verification/Config.v ===== *)
(** * The configuration file and the choice of the host (config.rs, cli.rs, enter.rs)

    [.rumpelpod.json] is decoded by the code [serde] derives from the types of config.rs, over a
    JSON value; [json5] turns the text of the file into that value.  A struct is read from an
    object ([serde] also takes an array of the fields in order, which no caller writes and
    which is left out).  Then follow the flags of the command line, the choice of the host and of
    the devcontainer file, and the JSON form of [Host], which the daemon receives and stores. *)
From stdpp Require Import gmap sorting.
From S2P Require Import Prelude Strs Merge Hosts Db Json ExecStream Compose Devcontainer PreparedImage.

(** ** What [serde] derives *)

Abbreviation object := (list (list N * json)).

(** [deny_unknown_fields]: every field is known, none is given twice. *)
Definition strict_fields (known : list str) (j : json) : option object :=
  match j with
  | JObject fs =>
      if bool_decide (Forall (fun k => k ∈ known) (map fst fs)) && bool_decide (NoDup (map fst fs)) then Some fs else None
  | _ => None
  end.

(** Without it, unknown fields are skipped. *)
Definition lenient_fields (known : list str) (j : json) : option object :=
  match j with
  | JObject fs =>
      let fs := filter (fun kv => kv.1 ∈ known) fs in
      if bool_decide (NoDup (map fst fs)) then Some fs else None
  | _ => None
  end.

Definition required_field {A} (k : str) (decode : json -> option A) (fs : object) : option A := obj_get k fs ≫= decode.

Definition optional {A} (k : str) (decode : json -> option A) (fs : object) : option (option A) :=
  match obj_get k fs with None => Some None | Some j => decode_option decode j end.

Definition defaulted {A} (k : str) (d : A) (decode : json -> option A) (fs : object) : option A :=
  match obj_get k fs with None => Some d | Some j => decode j end.

Definition decode_string (j : json) : option str := match j with JString s => Some s | _ => None end.
Definition decode_bool (j : json) : option bool := match j with JBool b => Some b | _ => None end.
Definition decode_vec {A} (decode : json -> option A) (j : json) : option (list A) :=
  match j with JArray l => mapM decode l | _ => None end.

(** [BTreeMap]: in the order of the keys, a later entry replaces an earlier one. *)
Fixpoint btree_insert (k v : str) (m : list (str * str)) : list (str * str) :=
  match m with
  | [] => [(k, v)]
  | (k', v') :: m' =>
      if bool_decide (k = k') then (k, v) :: m'
      else if str_le k k' then (k, v) :: m
      else (k', v') :: btree_insert k v m'
  end.

Definition decode_btree (j : json) : option (list (str * str)) :=
  match j with
  | JObject fs =>
      kvs ← mapM (fun kv => v ← decode_string kv.2; Some (kv.1, v)) fs;
      Some (fold_left (fun m kv => btree_insert kv.1 kv.2 m) kvs [])
  | _ => None
  end.

(** ** Hosts as JSON *)

Definition decode_engine (j : json) : option ContainerEngine :=
  s ← variant_name j;
  if bool_decide (s = lit "auto") then Some Hosts.Auto
  else if bool_decide (s = lit "docker") then Some Docker
  else if bool_decide (s = lit "podman") then Some Podman
  else None.

Definition encode_engine (e : ContainerEngine) : json :=
  match e with
  | Hosts.Auto => JString (lit "auto")
  | Docker => JString (lit "docker")
  | Podman => JString (lit "podman")
  end.

(** [skip_serializing_if = "Option::is_none"] *)
Definition skip_none {A} (k : str) (encode : A -> json) (o : option A) : object :=
  match o with Some a => [(k, encode a)] | None => [] end.

Definition decode_toleration (j : json) : option KubernetesToleration :=
  fs ← strict_fields [lit "key"; lit "value"; lit "effect"; lit "operator"] j;
  key ← required_field (lit "key") decode_string fs;
  value ← optional (lit "value") decode_string fs;
  effect ← required_field (lit "effect") decode_string fs;
  operator ← optional (lit "operator") decode_string fs;
  Some (mkToleration key value effect operator).

Definition encode_toleration (t : KubernetesToleration) : json :=
  JObject ([(lit "key", JString (tol_key t))] ++ skip_none (lit "value") JString (tol_value t)
           ++ [(lit "effect", JString (tol_effect t))] ++ skip_none (lit "operator") JString (tol_operator t)).

Definition encode_selector (l : list (str * str)) : json := JObject (map (fun kv => (kv.1, JString kv.2)) l).

(** [Serialize for Host] *)
Definition encode_host (h : Host) : json :=
  match h with
  | Localhost engine => JObject [(lit "Localhost", JObject [(lit "engine", encode_engine engine)])]
  | Ssh destination engine =>
      JObject [(lit "Ssh", JObject [(lit "ssh_destination", JString destination); (lit "engine", encode_engine engine)])]
  | Kubernetes context namespace registry node_selector tolerations builder image_builder =>
      JObject [(lit "Kubernetes",
        JObject ([(lit "context", JString context); (lit "namespace", JString namespace); (lit "registry", JString registry)]
                 ++ skip_none (lit "node_selector") encode_selector node_selector
                 ++ skip_none (lit "tolerations") (fun l => JArray (map encode_toleration l)) tolerations
                 ++ skip_none (lit "builder") JString builder
                 ++ [(lit "image_builder", encode_engine image_builder)]))]
  end.

Definition decode_variant (variant : str) (content : json) : option Host :=
  if bool_decide (variant = lit "Localhost") then
    fs ← lenient_fields [lit "engine"] content;
    engine ← defaulted (lit "engine") Hosts.Auto decode_engine fs;
    Some (Localhost engine)
  else if bool_decide (variant = lit "Ssh") then
    fs ← lenient_fields [lit "ssh_destination"; lit "engine"] content;
    destination ← required_field (lit "ssh_destination") decode_string fs;
    engine ← defaulted (lit "engine") Hosts.Auto decode_engine fs;
    Some (Ssh destination engine)
  else if bool_decide (variant = lit "Kubernetes") then
    fs ← lenient_fields [lit "context"; lit "namespace"; lit "registry"; lit "node_selector"; lit "tolerations";
                         lit "builder"; lit "image_builder"] content;
    context ← required_field (lit "context") decode_string fs;
    namespace ← required_field (lit "namespace") decode_string fs;
    registry ← required_field (lit "registry") decode_string fs;
    node_selector ← optional (lit "node_selector") decode_btree fs;
    tolerations ← optional (lit "tolerations") (decode_vec decode_toleration) fs;
    builder ← optional (lit "builder") decode_string fs;
    image_builder ← defaulted (lit "image_builder") Hosts.Auto decode_engine fs;
    Some (Kubernetes context namespace registry node_selector tolerations builder image_builder)
  else None.

(** [Deserialize for Host]: the string form is that of versions before Podman. *)
Definition decode_host (j : json) : option Host :=
  match j with
  | JString s => if bool_decide (s = lit "Localhost") then Some (Localhost Hosts.Auto) else None
  | JObject [(variant, content)] => decode_variant variant content
  | _ => None
  end.

(** ** The configuration file *)

Record SshAgentConfig := mkSshAgentConfig { sa_keys : option (list str); sa_ambient : bool }.

Record ClaudeConfig := mkClaudeConfig {
  dangerously_skip_permissions : bool;
  dangerously_skip_permissions_hook : bool;
  sessions : option unit;
}.

Record KubernetesConfig := mkKubernetesConfig {
  kc_context : str;
  kc_namespace : option str;
  kc_registry : str;
  kc_node_selector : option (list (str * str));
  kc_tolerations : option (list KubernetesToleration);
  kc_builder : option str;
}.

Record JsonConfig := mkJsonConfig {
  jc_workspace_clone_mode : WorkspaceCloneMode;
  jc_claude : ClaudeConfig;
  jc_codex_bypass_approvals_and_sandbox : bool;
  jc_pi_trust_workspace : bool;
  jc_grok_always_approve : bool;
  jc_merge : MergeConfig;
  jc_ssh_agent : SshAgentConfig;
  jc_inject_system_prompt : bool;
  jc_host : option str;
  jc_devcontainer : option str;
  jc_container_engine : option ContainerEngine;
  jc_kubernetes : option KubernetesConfig;
}.

Definition decode_clone_mode (j : json) : option WorkspaceCloneMode :=
  s ← variant_name j;
  if bool_decide (s = lit "local") then Some CloneLocal
  else if bool_decide (s = lit "skip") then Some CloneSkip
  else None.

(** [WorkspaceCloneConfig] has the one field [mode], which has no default. *)
Definition decode_workspace_clone (j : json) : option WorkspaceCloneMode :=
  fs ← strict_fields [lit "mode"] j;
  required_field (lit "mode") decode_clone_mode fs.

Definition decode_build (j : json) : option WorkspaceCloneMode :=
  fs ← strict_fields [lit "workspaceClone"] j;
  defaulted (lit "workspaceClone") CloneLocal decode_workspace_clone fs.

Definition decode_ssh_agent (j : json) : option SshAgentConfig :=
  fs ← strict_fields [lit "keys"; lit "ambient"] j;
  keys ← optional (lit "keys") (decode_vec decode_string) fs;
  ambient ← defaulted (lit "ambient") false decode_bool fs;
  if ambient && match keys with Some ks => negb (bool_decide (ks = [])) | None => false end then None
  else Some (mkSshAgentConfig keys ambient).

Definition SshAgentConfig_default : SshAgentConfig := mkSshAgentConfig None false.

Definition decode_sessions (j : json) : option unit := fs ← strict_fields [] j; Some tt.

Definition decode_claude_config (j : json) : option ClaudeConfig :=
  fs ← strict_fields [lit "dangerouslySkipPermissions"; lit "dangerouslySkipPermissionsHook"; lit "sessions"] j;
  skip ← defaulted (lit "dangerouslySkipPermissions") true decode_bool fs;
  hook ← defaulted (lit "dangerouslySkipPermissionsHook") false decode_bool fs;
  sess ← optional (lit "sessions") decode_sessions fs;
  Some (mkClaudeConfig skip hook sess).

(** [Default for ClaudeConfig] *)
Definition ClaudeConfig_default : ClaudeConfig := mkClaudeConfig true false None.

(** [CodexConfig], [PiConfig] and [GrokConfig] have one switch each. *)
Definition decode_switch (field : str) (j : json) : option bool :=
  fs ← strict_fields [field] j;
  defaulted field true decode_bool fs.

Definition CodexConfig_default : bool := true.
Definition PiConfig_default : bool := true.
Definition GrokConfig_default : bool := true.

Definition decode_description_mode (j : json) : option DescriptionMode :=
  v ← decode_string j;
  if bool_decide (v = lit "auto") then Some Merge.Auto
  else if bool_decide (v = lit "required") then Some Merge.Required
  else if bool_decide (v = lit "off") then Some Off
  else None.

Definition decode_merge (j : json) : option MergeConfig :=
  fs ← strict_fields [lit "description"; lit "descriptionFile"] j;
  mode ← defaulted (lit "description") Merge.Auto decode_description_mode fs;
  file ← optional (lit "descriptionFile") decode_string fs;
  Some (mkMergeConfig mode file).

Definition MergeConfig_default : MergeConfig := mkMergeConfig Merge.Auto None.

Definition decode_kubernetes (j : json) : option KubernetesConfig :=
  fs ← strict_fields [lit "context"; lit "namespace"; lit "registry"; lit "nodeSelector"; lit "tolerations"; lit "builder"] j;
  context ← required_field (lit "context") decode_string fs;
  namespace ← optional (lit "namespace") decode_string fs;
  registry ← required_field (lit "registry") decode_string fs;
  node_selector ← optional (lit "nodeSelector") decode_btree fs;
  tolerations ← optional (lit "tolerations") (decode_vec decode_toleration) fs;
  builder ← optional (lit "builder") decode_string fs;
  Some (mkKubernetesConfig context namespace registry node_selector tolerations builder).

Definition CONFIG_FIELDS : list str :=
  [lit "build"; lit "claude"; lit "codex"; lit "pi"; lit "grok"; lit "merge"; lit "sshAgent"; lit "injectSystemPrompt";
   lit "host"; lit "devcontainer"; lit "containerEngine"; lit "kubernetes"].

Definition decode_config (j : json) : option JsonConfig :=
  fs ← strict_fields CONFIG_FIELDS j;
  build ← defaulted (lit "build") CloneLocal decode_build fs;
  claude ← defaulted (lit "claude") ClaudeConfig_default decode_claude_config fs;
  codex ← defaulted (lit "codex") CodexConfig_default (decode_switch (lit "dangerouslyBypassApprovalsAndSandbox")) fs;
  pi ← defaulted (lit "pi") PiConfig_default (decode_switch (lit "trustWorkspace")) fs;
  grok ← defaulted (lit "grok") GrokConfig_default (decode_switch (lit "alwaysApprove")) fs;
  merge ← defaulted (lit "merge") MergeConfig_default decode_merge fs;
  ssh_agent ← defaulted (lit "sshAgent") SshAgentConfig_default decode_ssh_agent fs;
  inject ← defaulted (lit "injectSystemPrompt") true decode_bool fs;
  host ← optional (lit "host") decode_string fs;
  devcontainer ← optional (lit "devcontainer") decode_string fs;
  engine ← optional (lit "containerEngine") decode_engine fs;
  kubernetes ← optional (lit "kubernetes") decode_kubernetes fs;
  Some (mkJsonConfig build claude codex pi grok merge ssh_agent inject host devcontainer engine kubernetes).

Inductive config_error :=
| ReadFailedAt (path : str)
| ParseFailedAt (path : str)
| HostAndKubernetes (path : str)
| DefaultConfig
| InvalidHost (e : host_parse_error)
| HostAndContextFlags
| CurrentDirectory
| InvalidDevcontainerFlag (e : dc_error)
| InvalidDevcontainer (e : dc_error).

Section Config.

(** The file, the [json5] crate, URLs, the working directory and the kinds of files. *)
Context (exists_file : str -> bool) (read_to_string : str -> option str) (json5 : str -> option json).
Context (Url_parse : str -> option Url) (current_dir : option str) (metadata : str -> result IoError FileKind).

Definition load_json_config (repo_root : str) : result config_error JsonConfig :=
  let config_path := path_join repo_root (lit ".rumpelpod.json") in
  if exists_file config_path then
    contents ← context (ReadFailedAt config_path) (read_to_string config_path);
    config ← context (ParseFailedAt config_path) (json5 contents ≫= decode_config);
    if bool_decide (is_Some (jc_host config)) && bool_decide (is_Some (jc_kubernetes config))
    then Err (HostAndKubernetes config_path)
    else Ok config
  else context DefaultConfig (json5 (lit "{}") ≫= decode_config).

(** ** The command line *)

Record ContainerConfigArgs := mkArgs {
  arg_devcontainer : option str;
  arg_host : option str;
  arg_kubernetes_context : option str;
  arg_kubernetes_namespace : option str;
  arg_kubernetes_registry : option str;
  arg_container_engine : option ContainerEngine;
}.

(** What [clap] checks of these flags: [conflicts_with_all] and [requires]. *)
Definition args_accepted (a : ContainerConfigArgs) : Prop :=
  (is_Some (arg_host a) -> arg_kubernetes_context a = None /\ arg_kubernetes_namespace a = None) /\
  (is_Some (arg_kubernetes_context a) <-> is_Some (arg_kubernetes_registry a)) /\
  (is_Some (arg_kubernetes_namespace a) -> is_Some (arg_kubernetes_context a)).

(** Outer [None]: the [expect] on a missing registry. *)
Definition resolve_host (a : ContainerConfigArgs) : option (result config_error (option Host)) :=
  match arg_kubernetes_context a with
  | Some ctx =>
      let namespace := default (lit "default") (arg_kubernetes_namespace a) in
      if bool_decide (is_Some (arg_host a)) then Some (Err HostAndContextFlags)
      else
        registry ← arg_kubernetes_registry a;
        Some (Ok (Some (Kubernetes ctx namespace registry None None None (default Hosts.Auto (arg_container_engine a)))))
  | None =>
      match arg_host a with
      | Some h =>
          Some (match Host_parse Url_parse h with
                | Ok host => Ok (Some (with_container_engine host (default Hosts.Auto (arg_container_engine a))))
                | Err e => Err (InvalidHost e)
                end)
      | None => Some (Ok (Localhost <$> arg_container_engine a))
      end
  end.

Definition determine_host (repo_root : str) (host_override : option Host) : result config_error Host :=
  match host_override with
  | Some h => Ok h
  | None =>
      json_config ← load_json_config repo_root;
      let engine := default Hosts.Auto (jc_container_engine json_config) in
      match jc_host json_config with
      | Some host_str =>
          match Host_parse Url_parse host_str with
          | Ok host => Ok (with_container_engine host engine)
          | Err e => Err (InvalidHost e)
          end
      | None =>
          match jc_kubernetes json_config with
          | Some k => Ok (Kubernetes (kc_context k) (default (lit "default") (kc_namespace k)) (kc_registry k)
                            (kc_node_selector k) (kc_tolerations k) (kc_builder k) engine)
          | None => Ok (Localhost engine)
          end
      end
  end.

Definition is_absolute (p : str) : bool := starts_with [c_slash] p.

Definition determine_devcontainer (repo_root : str) (devcontainer_override : option str)
    : result config_error (option str) :=
  match devcontainer_override with
  | Some path =>
      path ← (if is_absolute path then Ok path
              else dir ← context CurrentDirectory current_dir; Ok (path_join dir path));
      match resolve_config_path metadata path with
      | Ok p => Ok (Some p)
      | Err e => Err (InvalidDevcontainerFlag e)
      end
  | None =>
      json_config ← load_json_config repo_root;
      match jc_devcontainer json_config with
      | None => Ok None
      | Some path =>
          let path := if is_absolute path then path else path_join repo_root path in
          match resolve_config_path metadata path with
          | Ok p => Ok (Some p)
          | Err e => Err (InvalidDevcontainer e)
          end
      end
  end.
End Config.

(** ** Hosts survive being sent and stored *)

Definition key_lt (a b : str * str) : Prop := str_le a.1 b.1 = true /\ a.1 <> b.1.

(** Maps are in the order of their keys. *)
Definition host_wf (h : Host) : Prop :=
  match h with
  | Kubernetes _ _ _ (Some l) _ _ _ => StronglySorted key_lt l
  | _ => True
  end.

Lemma btree_insert_last m k v : Forall (fun kv => str_le kv.1 k = true /\ kv.1 <> k) m -> btree_insert k v m = m ++ [(k, v)].
Proof.
  induction 1 as [|[k' v'] m [Hle Hne] _ IH]; cbn in *; [done|].
  rewrite bool_decide_false by (by intros ->). destruct (str_le k k') eqn:E; [|by rewrite IH].
  destruct Hne. by apply str_le_antisym.
Qed.

Lemma btree_fold l : forall m, StronglySorted key_lt (m ++ l) -> fold_left (fun m kv => btree_insert kv.1 kv.2 m) l m = m ++ l.
Proof.
  induction l as [|[k v] l IH]; intros m Hs; cbn; [by rewrite app_nil_r|].
  rewrite btree_insert_last.
  - rewrite IH; rewrite <- (assoc_L (++)); done.
  - apply StronglySorted_app in Hs as (Hmid & _ & _). apply Forall_forall. intros kv Hkv.
    apply (Hmid kv (k, v)); [done|]. left.
Qed.

Lemma btree_insert_sorted k v m : StronglySorted key_lt m ->
  StronglySorted key_lt (btree_insert k v m) /\
  (forall kv, kv ∈ btree_insert k v m -> kv.1 = k \/ kv ∈ m).
Proof.
  induction 1 as [|[k' v'] m Hs IH Hall]; cbn.
  { split; [by repeat constructor|]. intros kv ->%list_elem_of_singleton. by left. }
  rewrite Forall_forall in Hall. case_bool_decide as Hk; [subst k'|destruct (str_le k k') eqn:E].
  - split; [constructor; [done|by apply Forall_forall]|].
    intros kv [->|?]%elem_of_cons; [by left|right; by right].
  - split; [|intros kv [->|?]%elem_of_cons; [by left|by right]].
    constructor; [by constructor; [|apply Forall_forall]|]. constructor; [done|].
    apply Forall_forall. intros kv Hkv. destruct (Hall kv Hkv) as [Hle Hne]. cbn in *. split; [by eapply str_le_trans|].
    cbn. intros ->. apply Hne. by apply str_le_antisym.
  - destruct IH as [IHs IHin]. split.
    + constructor; [done|]. apply Forall_forall. intros kv [Heq|Hin]%IHin; [|by apply Hall].
      split; cbn; rewrite Heq; [|by intros ->]. destruct (str_le_total k k'); congruence.
    + intros kv [->|[?|?]%IHin]%elem_of_cons; [right; left|by left|right; by right].
Qed.

Lemma decode_btree_sorted j l : decode_btree j = Some l -> StronglySorted key_lt l.
Proof.
  destruct j; cbn; try done. destruct (mapM _ _) as [kvs|]; cbn; [|done]. intros <-%(inj Some).
  assert (H : forall m, StronglySorted key_lt m -> StronglySorted key_lt (fold_left (fun m kv => btree_insert kv.1 kv.2 m) kvs m)).
  { induction kvs as [|kv kvs IH]; intros m Hm; cbn; [done|]. apply IH. by apply btree_insert_sorted. }
  apply H. constructor.
Qed.

Lemma btree_roundtrip l : StronglySorted key_lt l -> decode_btree (encode_selector l) = Some l.
Proof.
  intros Hs. unfold encode_selector, decode_btree.
  replace (mapM _ _) with (Some l); [cbn; by rewrite (btree_fold l [] Hs)|].
  clear Hs. induction l as [|[k v] l IH]; cbn; [done|]. by rewrite <- IH.
Qed.

Lemma engine_roundtrip e : decode_engine (encode_engine e) = Some e.
Proof. by destruct e; vm_compute. Qed.

Lemma toleration_roundtrip t : decode_toleration (encode_toleration t) = Some t.
Proof. by destruct t as [k [v|] e [o|]]; vm_compute. Qed.

Lemma tolerations_roundtrip l : mapM decode_toleration (map encode_toleration l) = Some l.
Proof. induction l as [|t l IH]; cbn [mapM map]; [done|]. by rewrite toleration_roundtrip; cbn; rewrite IH. Qed.

Lemma strict_known known fs : Forall (fun k => k ∈ known) (map fst fs) -> NoDup (map fst fs) ->
  strict_fields known (JObject fs) = Some fs.
Proof. intros. cbn. by rewrite !bool_decide_true. Qed.

Lemma lenient_known known fs : Forall (fun k => k ∈ known) (map fst fs) -> NoDup (map fst fs) ->
  lenient_fields known (JObject fs) = Some fs.
Proof.
  intros Hk Hn. cbn. assert (E : filter (fun kv => kv.1 ∈ known) fs = fs).
  { clear Hn. induction fs as [|kv fs IH]; cbn in Hk; [done|]. apply Forall_cons in Hk as [H1 H2].
    rewrite filter_cons_True by done. by rewrite IH. }
  rewrite E. by rewrite bool_decide_true.
Qed.

(** Looks a literal field up in a list of literal fields. *)
Ltac lookup_fields :=
  repeat (rewrite obj_get_cons; first [rewrite bool_decide_true by decide_now | rewrite bool_decide_false by decide_now]).

Lemma host_json_form h : host_wf h -> decode_host (encode_host h) = Some h.
Proof.
  destruct h as [e|d e|c n r ns t b ib]; intros Hwf; unfold decode_host, encode_host, decode_variant;
    repeat first [rewrite bool_decide_true by decide_now | rewrite bool_decide_false by decide_now].
  - rewrite lenient_known by decide_now. cbn [mbind option_bind]. unfold defaulted. lookup_fields. by rewrite engine_roundtrip.
  - rewrite lenient_known by decide_now. cbn [mbind option_bind]. unfold required_field, defaulted. lookup_fields. cbn. by rewrite engine_roundtrip.
  - destruct ns as [l|], t as [ts|], b as [b|]; cbn [skip_none app];
      rewrite lenient_known by decide_now; cbn [mbind option_bind]; unfold required_field, optional, defaulted;
      lookup_fields; cbn [mbind option_bind decode_string];
      try (unfold decode_option, encode_selector at 1; fold (encode_selector l)); cbn [mbind option_bind];
      rewrite ?(btree_roundtrip l Hwf); cbn; rewrite ?tolerations_roundtrip; cbn; by rewrite engine_roundtrip.
Qed.

Lemma optional_Some {A} k (decode : json -> option A) fs a : optional k decode fs = Some (Some a) ->
  exists j, obj_get k fs = Some j /\ decode j = Some a.
Proof.
  unfold optional, decode_option. intros H. case_match; [|done].
  case_match; try done; apply fmap_Some in H as (a' & ? & [= ->]); eauto.
Qed.

(** A host that was decoded is well formed. *)
Lemma decode_host_wf j h : decode_host j = Some h -> host_wf h.
Proof.
  destruct j as [| | |s| |[|[variant content] [|? ?]]]; cbn [decode_host]; try done.
  { case_bool_decide; [|done]. by intros <-%(inj Some). }
  unfold decode_variant. repeat case_bool_decide; [..|done]; intros Hd;
    repeat match goal with H : _ ≫= _ = Some _ |- _ => apply bind_Some in H as (? & ? & H) end; simplify_eq; [done..|].
  cbn. case_match; [subst|done].
  match goal with H : optional (lit "node_selector") _ _ = _ |- _ => apply optional_Some in H as (j & _ & Hj) end.
  by eapply decode_btree_sorted.
Qed.

(** [C36] A host that the daemon received or read from the database is read back unchanged from
    the text it stores, with the engine, the order of its maps and the absent fields; and the
    string that versions before Podman stored is still the local host. *)
Theorem host_json_roundtrip :
  (forall h, host_wf h -> decode_host (encode_host h) = Some h) /\
  (forall j h, decode_host j = Some h -> host_wf h /\ decode_host (encode_host h) = Some h) /\
  decode_host (JString (lit "Localhost")) = Some (Localhost Hosts.Auto).
Proof.
  split; [apply host_json_form|]. split; [|by vm_compute].
  intros j h Hj. apply decode_host_wf in Hj. by auto using host_json_form.
Qed.

Definition example_cluster : Host :=
  Kubernetes (lit "ctx") (lit "ns") (lit "ghcr.io/me") (Some [(lit "arch", lit "arm"); (lit "pool", lit "dev")])
    (Some [mkToleration (lit "pool") (Some (lit "dev")) (lit "NoSchedule") None]) None Podman.

Lemma host_json_roundtrip_witness :
  decode_host (encode_host example_cluster) = Some example_cluster /\
  host_wf example_cluster.
Proof.
  destruct host_json_roundtrip as (H1 & H2 & _).
  assert (Hwf : host_wf example_cluster) by (repeat constructor; decide_now).
  split; [by apply H1|]. apply (H2 (encode_host example_cluster)). by apply H1.
Defined.

(** ** The settings that are read *)

Lemma obj_get_snoc k k' v fs : obj_get k (fs ++ [(k', v)]) =
  match obj_get k fs with Some j => Some j | None => if bool_decide (k' = k) then Some v else None end.
Proof.
  induction fs as [|[k0 v0] fs IH]; cbn [app]; [by rewrite obj_get_cons|].
  rewrite !obj_get_cons. by destruct (bool_decide (k0 = k)).
Qed.

Lemma obj_get_notin k (fs : object) : k ∉ map fst fs -> obj_get k fs = None.
Proof.
  induction fs as [|[k0 v0] fs IH]; cbn [map fst]; [done|]. rewrite not_elem_of_cons, obj_get_cons.
  intros [Hne Hn]. rewrite bool_decide_false by done. by apply IH.
Qed.

Lemma defaulted_other {A} k k' v (d : A) decode fs : k' <> k -> defaulted k d decode (fs ++ [(k', v)]) = defaulted k d decode fs.
Proof. intros Hne. unfold defaulted. rewrite obj_get_snoc, (bool_decide_false (k' = k)) by done. by destruct (obj_get k fs). Qed.

Lemma optional_other {A} k k' v (decode : json -> option A) fs : k' <> k -> optional k decode (fs ++ [(k', v)]) = optional k decode fs.
Proof. intros Hne. unfold optional. rewrite obj_get_snoc, (bool_decide_false (k' = k)) by done. by destruct (obj_get k fs). Qed.

Lemma defaulted_same {A} k v (d : A) decode fs : k ∉ map fst fs -> decode v = Some d ->
  defaulted k d decode (fs ++ [(k, v)]) = defaulted k d decode fs.
Proof.
  intros Hn Hd. unfold defaulted. rewrite obj_get_snoc, bool_decide_true by done. by rewrite (obj_get_notin k fs Hn).
Qed.

Lemma strict_snoc known fs k v : k ∈ known -> k ∉ map fst fs ->
  strict_fields known (JObject (fs ++ [(k, v)])) =
  (fun fs => fs ++ [(k, v)]) <$> strict_fields known (JObject fs).
Proof.
  intros Hk Hn. cbn. rewrite map_app. cbn [map fst].
  rewrite (bool_decide_ext (Forall _ (map fst fs ++ [k])) (Forall (fun k => k ∈ known) (map fst fs))), (bool_decide_ext (NoDup (map fst fs ++ [k])) (NoDup (map fst fs))).
  - by destruct (bool_decide _ && bool_decide _).
  - rewrite NoDup_app. split; [tauto|]. intros Hd. split; [done|]. split; [|apply NoDup_singleton].
    by intros x Hx ->%list_elem_of_singleton.
  - rewrite Forall_app, Forall_singleton. tauto.
Qed.

Definition SECTIONS : list str := [lit "build"; lit "claude"; lit "codex"; lit "pi"; lit "grok"; lit "merge"; lit "sshAgent"].

Lemma strict_same known j fs : strict_fields known j = Some fs -> j = JObject fs.
Proof. destruct j; cbn; try done. case_match; [|done]. by intros <-%(inj Some). Qed.

Lemma decode_config_section fs section : section ∈ SECTIONS -> section ∉ map fst fs ->
  decode_config (JObject (fs ++ [(section, JObject [])])) = decode_config (JObject fs).
Proof.
  intros Hs Hn. unfold decode_config.
  rewrite strict_snoc; [|unfold SECTIONS in Hs; repeat (apply elem_of_cons in Hs as [->|Hs]; [decide_now|]); by apply not_elem_of_nil in Hs|done].
  destruct (strict_fields CONFIG_FIELDS (JObject fs)) as [fs'|] eqn:E; [|done].
  apply strict_same in E as [= <-]. cbn [fmap option_fmap option_map mbind option_bind].
  unfold SECTIONS in Hs.
  repeat (apply elem_of_cons in Hs as [->|Hs]; [
    rewrite (defaulted_same _ _ _ _ fs Hn) by (by vm_compute);
    rewrite ?defaulted_other by decide_now; rewrite ?optional_other by decide_now; done|]).
  by apply not_elem_of_nil in Hs.
Qed.



(** The fields of the sections. *)
Definition SECTION_FIELDS : list (str * list str) :=
  [(lit "build", [lit "workspaceClone"]);
   (lit "claude", [lit "dangerouslySkipPermissions"; lit "dangerouslySkipPermissionsHook"; lit "sessions"]);
   (lit "codex", [lit "dangerouslyBypassApprovalsAndSandbox"]); (lit "pi", [lit "trustWorkspace"]);
   (lit "grok", [lit "alwaysApprove"]); (lit "merge", [lit "description"; lit "descriptionFile"]);
   (lit "sshAgent", [lit "keys"; lit "ambient"]);
   (lit "kubernetes", [lit "context"; lit "namespace"; lit "registry"; lit "nodeSelector"; lit "tolerations"; lit "builder"])].

Lemma strict_unknown known gs k : k ∈ map fst gs -> k ∉ known -> strict_fields known (JObject gs) = None.
Proof.
  intros Hk Hn. cbn. rewrite bool_decide_false; [done|]. rewrite Forall_forall. intros H. by apply Hn, H.
Qed.

Lemma optional_None {A} k (decode : json -> option A) fs gs : obj_get k fs = Some (JObject gs) -> decode (JObject gs) = None ->
  optional k decode fs = None.
Proof. intros Hg Hd. unfold optional. rewrite Hg. cbn. by rewrite Hd. Qed.

Lemma defaulted_None {A} k (d : A) decode fs j : obj_get k fs = Some j -> decode j = None -> defaulted k d decode fs = None.
Proof. intros Hg Hd. unfold defaulted. by rewrite Hg. Qed.

Lemma bind_fails {A B} (m : option A) (f : A -> option B) : m = None \/ (forall a, f a = None) -> m ≫= f = None.
Proof. intros [->|H]; [done|]. by destruct m; cbn. Qed.

(** A misspelt setting is never ignored: a field that the program does not know, at the top of
    the file or in a section, makes the file unreadable. *)
Theorem unknown_setting_refused fs field :
  (field ∈ map fst fs -> field ∉ CONFIG_FIELDS -> decode_config (JObject fs) = None) /\
  (forall section known gs, (section, known) ∈ SECTION_FIELDS -> obj_get section fs = Some (JObject gs) ->
     field ∈ map fst gs -> field ∉ known -> decode_config (JObject fs) = None).
Proof.
  split.
  - intros Hf Hk. unfold decode_config. by rewrite (strict_unknown _ _ _ Hf Hk).
  - intros section known gs Hs Hg Hf Hk. unfold decode_config.
    destruct (strict_fields CONFIG_FIELDS (JObject fs)) as [fs'|] eqn:E; [|done]. apply strict_same in E as [= <-].
    cbn [mbind option_bind]. pose proof (strict_unknown known gs field Hf Hk) as Hbad.
    unfold SECTION_FIELDS in Hs.
    repeat (apply elem_of_cons in Hs as [[= -> ->]|Hs]; [
      repeat (apply bind_fails; first [left; apply (defaulted_None _ _ _ _ _ Hg); cbv beta delta [decode_build decode_claude_config decode_switch decode_merge decode_ssh_agent]; by rewrite Hbad
        | left; apply (optional_None _ _ _ _ Hg); cbv beta delta [decode_kubernetes]; by rewrite Hbad
        | right; intros ?]); done|]).
    by apply not_elem_of_nil in Hs.
Qed.

Lemma unknown_setting_refused_witness :
  decode_config (JObject [(lit "hots", JString (lit "localhost"))]) = None /\
  decode_config (JObject [(lit "merge", JObject [(lit "descriptionfile", JString (lit "D"))])]) = None.
Proof.
  split.
  - apply (unknown_setting_refused [(lit "hots", JString (lit "localhost"))] (lit "hots")); decide_now.
  - apply (unknown_setting_refused [(lit "merge", JObject [(lit "descriptionfile", JString (lit "D"))])] (lit "descriptionfile"))
      with (section := lit "merge") (known := [lit "description"; lit "descriptionFile"])
           (gs := [(lit "descriptionfile", JString (lit "D"))]); [decide_now|by vm_compute|decide_now..].
Defined.

(** ** The host and the devcontainer file *)

Section Choice.
  Context (exists_file : str -> bool) (read_to_string : str -> option str) (json5 : str -> option json).
  Context (Url_parse : str -> option Url) (current_dir : option str) (metadata : str -> result IoError FileKind).
  Abbreviation load := (load_json_config exists_file read_to_string json5).
  Abbreviation choose_host := (determine_host exists_file read_to_string json5 Url_parse).
  Abbreviation choose_devcontainer := (determine_devcontainer exists_file read_to_string json5 current_dir metadata).

Definition on_kubernetes (h : Host) : bool := match h with Kubernetes _ _ _ _ _ _ _ => true | _ => false end.

Lemma Host_parse_not_kubernetes s h : Host_parse Url_parse s = Ok h -> on_kubernetes h = false.
Proof. unfold Host_parse. intros H. repeat (case_match; simplify_eq; try done). Qed.

Lemma engine_set h e : on_kubernetes h = false ->
  image_builder_of (with_container_engine h e) = Some e /\ on_kubernetes (with_container_engine h e) = false.
Proof. by destruct h. Qed.

(** What the flags say, when they are accepted. *)
Definition flags_host (a : ContainerConfigArgs) (r : result config_error (option Host)) : Prop :=
  match r with
  | Ok (Some h) =>
      image_builder_of h = Some (default Hosts.Auto (arg_container_engine a)) /\
      on_kubernetes h = bool_decide (is_Some (arg_kubernetes_context a))
  | Ok None => arg_host a = None /\ arg_kubernetes_context a = None /\ arg_container_engine a = None
  | Err e => exists s e', arg_host a = Some s /\ Host_parse Url_parse s = Err e' /\ e = InvalidHost e'
  end.

Lemma resolve_host_flags a : args_accepted a -> exists r, resolve_host Url_parse a = Some r /\ flags_host a r.
Proof.
  destruct a as [d h c n r e]. intros (Hh & Hr & _). unfold resolve_host. cbn in *.
  destruct c as [c|]; [|destruct h as [h|]].
  - assert (h = None) as -> by (destruct h; [|done]; by destruct Hh). cbn.
    destruct (proj1 Hr (mk_is_Some _ _ eq_refl)) as [rg ->]. cbn. eexists. by split; [done|].
  - destruct (Host_parse Url_parse h) as [host|er] eqn:E; eexists; (split; [done|]); cbn; [|eauto].
    apply engine_set. by eapply Host_parse_not_kubernetes.
  - eexists. split; [done|]. by destruct e; cbn.
Qed.

(** The host of a pod and the engine it uses come from one place.  Flags that select a host,
    with the engine given by a flag or automatic, replace the configuration file, which is
    then not read; without such flags the host and the engine are those of the file, a cluster
    exactly when the file names one.  Accepted flags never panic and fail only on a host that
    is no host. *)
Theorem host_from_one_source a repo :
  args_accepted a ->
  exists r, resolve_host Url_parse a = Some r /\ flags_host a r /\
    match r with
    | Ok (Some h) => choose_host repo (Some h) = Ok h
    | Ok None =>
        match load repo with
        | Err e => choose_host repo None = Err e
        | Ok c =>
            match choose_host repo None with
            | Ok h => image_builder_of h = Some (default Hosts.Auto (jc_container_engine c)) /\
                      (jc_host c = None -> on_kubernetes h = bool_decide (is_Some (jc_kubernetes c)))
            | Err e => exists s e', jc_host c = Some s /\ Host_parse Url_parse s = Err e' /\ e = InvalidHost e'
            end
        end
    | Err _ => True
    end.
Proof.
  intros Ha. destruct (resolve_host_flags a Ha) as (r & Hr & Hf). exists r. split_and!; [done..|].
  destruct r as [[h|]|e]; [done| |done]. cbn.
  destruct (load repo) as [c|e]; cbn; [|done].
  destruct (jc_host c) as [s|] eqn:Es.
  - destruct (Host_parse Url_parse s) as [host|er] eqn:E; cbn; [|eauto].
    split; [|done]. apply engine_set. by eapply Host_parse_not_kubernetes.
  - by destruct (jc_kubernetes c).
Qed.

Lemma ssh_agent_exclusive j c : decode_ssh_agent j = Some c -> sa_ambient c = true -> default [] (sa_keys c) = [].
Proof.
  unfold decode_ssh_agent. intros H.
  repeat match goal with H : _ ≫= _ = Some _ |- _ => apply bind_Some in H as (? & ? & H) end.
  case_match eqn:Eb; [done|]. simplify_eq. cbn. intros ->. cbn in Eb. case_match; [|done]. subst.
  apply negb_false_iff, bool_decide_eq_true in Eb. by subst.
Qed.

Lemma decode_config_agent j c : decode_config j = Some c -> sa_ambient (jc_ssh_agent c) = true -> default [] (sa_keys (jc_ssh_agent c)) = [].
Proof.
  unfold decode_config. intros Hd.
  repeat match goal with H : _ ≫= _ = Some _ |- _ => apply bind_Some in H as (? & ? & H) end. simplify_eq. cbn.
  match goal with H : defaulted (lit "sshAgent") _ _ _ = _ |- _ => rename H into Ha end.
  unfold defaulted in Ha. case_match; [by eapply ssh_agent_exclusive|]. by simplify_eq.
Qed.

(** The text of the empty configuration, as every JSON parser reads it. *)
Hypothesis json5_empty : json5 (lit "{}") = Some (JObject []).

Lemma decode_empty : decode_config (JObject []) =
  Some (mkJsonConfig CloneLocal ClaudeConfig_default true true true MergeConfig_default SshAgentConfig_default true None None None None).
Proof. by vm_compute. Qed.

Lemma load_exclusive repo c : load repo = Ok c -> jc_host c = None \/ jc_kubernetes c = None.
Proof.
  unfold load_json_config. destruct (exists_file _).
  - destruct (read_to_string _) as [t|]; cbn; [|done]. destruct (json5 t ≫= decode_config) as [c'|]; cbn; [|done].
    case_match eqn:Eb; [done|]. intros [= ->].
    apply andb_false_iff in Eb as [Hb%bool_decide_eq_false|Hb%bool_decide_eq_false]; apply eq_None_not_Some in Hb; auto.
  - rewrite json5_empty. cbn [mbind option_bind]. rewrite decode_empty. intros [= <-]. by left.
Qed.

(** A configuration that was loaded is consistent: it does not name both a host and a
    cluster, and it does not forward the user's SSH agent while giving keys for the
    isolated one.  Without a file every setting has the value an empty file gives it. *)
Theorem loaded_config_consistent repo c :
  load repo = Ok c ->
  (jc_host c = None \/ jc_kubernetes c = None) /\
  (sa_ambient (jc_ssh_agent c) = true -> default [] (sa_keys (jc_ssh_agent c)) = []) /\
  (exists_file (path_join repo (lit ".rumpelpod.json")) = false -> Some c = decode_config (JObject [])).
Proof.
  intros Hl. split_and!; [by eapply load_exclusive|..].
  - unfold load_json_config in Hl. intros Ha.
    destruct (exists_file _); [destruct (read_to_string _) as [t|]; cbn in Hl; [|done]; destruct (json5 t) as [j|]
      |destruct (json5 (lit "{}")) as [j|]]; cbn in Hl; try done;
      (destruct (decode_config j) as [c'|] eqn:E; cbn in Hl; [|done]); repeat case_match; simplify_eq; by eapply decode_config_agent.
  - intros He. unfold load_json_config in Hl. rewrite He, json5_empty in Hl. cbn [mbind option_bind] in Hl.
    destruct (decode_config (JObject [])); by simplify_eq/=.
Qed.

(** The flag for the engine replaces the cluster of the configuration file by the local host,
    although the help text speaks of the engine for local execution and image builds only,
    and the file gives an engine together with a cluster to build its images. *)
Theorem engine_flag_replaces_host e repo c k :
  load repo = Ok c -> jc_kubernetes c = Some k ->
  (exists h, choose_host repo None = Ok h /\ on_kubernetes h = true) /\
  exists o, resolve_host Url_parse (mkArgs None None None None None (Some e)) = Some (Ok o) /\
    choose_host repo o = Ok (Localhost e).
Proof.
  intros Hl Hk. destruct (load_exclusive repo c Hl) as [Hh|Hh]; [|congruence].
  split; [|by exists (Some (Localhost e))].
  unfold determine_host. rewrite Hl. cbn. rewrite Hh, Hk. eauto.
Qed.

Lemma join_absolute base p : is_absolute base = true -> is_absolute (path_join base p) = true.
Proof.
  unfold is_absolute, path_join. intros Hb. destruct (starts_with [c_slash] p) eqn:E; [done|].
  unfold starts_with in *. rewrite bool_decide_eq_true in *. destruct Hb as [r Hr].
  apply strip_prefix_Some in Hr as ->. case_match; rewrite <- ?(assoc_L (++)); by rewrite strip_prefix_app.
Qed.

Lemma resolved_is_json path p : resolve_config_path metadata path = Ok p -> is_absolute path = true ->
  is_file metadata p = true /\ extension p = Some (lit "json") /\ is_absolute p = true.
Proof.
  unfold resolve_config_path. intros H Ha.
  destruct (metadata path) as [[]|[]]; cbn in H; try done;
    (destruct (bool_decide _) eqn:Ee in H; cbn in H; [|done]); apply bool_decide_eq_true in Ee;
    (destruct (is_file metadata _) eqn:Ef in H; cbn in H; [|done]); simplify_eq; auto using join_absolute.
Qed.

(** A devcontainer file that was selected, by a flag relative to the working directory or by
    the configuration relative to the repository, is sent to the daemon as the absolute path
    of an existing JSON file; a selection is never silently dropped. *)
Theorem selected_devcontainer_exists repo flag :
  is_absolute repo = true -> (forall d, current_dir = Some d -> is_absolute d = true) ->
  match choose_devcontainer repo flag with
  | Ok (Some p) => is_file metadata p = true /\ extension p = Some (lit "json") /\ is_absolute p = true
  | Ok None => flag = None /\ exists c, load repo = Ok c /\ jc_devcontainer c = None
  | Err _ => True
  end.
Proof.
  intros Hr Hc. unfold determine_devcontainer. destruct flag as [path|].
  - destruct (is_absolute path) eqn:Ea; cbn.
    + destruct (resolve_config_path metadata path) as [p|] eqn:E; [|done]. by eapply resolved_is_json.
    + destruct current_dir as [d|]; cbn; [|done].
      destruct (resolve_config_path metadata (path_join d path)) as [p|] eqn:E; [|done].
      eapply resolved_is_json; eauto using join_absolute.
  - destruct (load repo) as [c|] eqn:El; cbn; [|done].
    destruct (jc_devcontainer c) as [path|] eqn:Ed; [|eauto].
    destruct (resolve_config_path metadata _) as [p|] eqn:E; [|done].
    eapply resolved_is_json; [done|]. destruct (is_absolute path) eqn:Ea; auto using join_absolute.
Qed.
End Choice.

(** ** Examples *)

Definition example_text : json :=
  JObject [(lit "kubernetes", JObject [(lit "context", JString (lit "ctx")); (lit "registry", JString (lit "ghcr.io/me"))]);
           (lit "containerEngine", JString (lit "docker")); (lit "devcontainer", JString (lit "c"))].
Definition example_json5 (s : str) : option json :=
  if bool_decide (s = lit "{}") then Some (JObject []) else Some example_text.
Definition example_kubernetes : KubernetesConfig := mkKubernetesConfig (lit "ctx") None (lit "ghcr.io/me") None None None.
Definition example_config : JsonConfig :=
  mkJsonConfig CloneLocal ClaudeConfig_default true true true MergeConfig_default SshAgentConfig_default true
    None (Some (lit "c")) (Some Docker) (Some example_kubernetes).
Definition example_metadata (p : str) : result IoError FileKind :=
  if bool_decide (p = lit "/r/c") then Ok IsDir
  else if bool_decide (p = lit "/r/c/devcontainer.json") then Ok IsFile else Err NotFound.

Lemma example_loaded : load_json_config (fun _ => true) (fun _ => Some (lit "file")) example_json5 (lit "/r") = Ok example_config.
Proof. by vm_compute. Qed.

Lemma host_from_one_source_witness : exists h,
  resolve_host (fun _ => None) (mkArgs None (Some (lit "localhost")) None None None (Some Podman)) = Some (Ok (Some h)) /\
  image_builder_of h = Some Podman.
Proof.
  assert (Ha : args_accepted (mkArgs None (Some (lit "localhost")) None None None (Some Podman))).
  { unfold args_accepted. cbn. split_and!; [done|split; by intros [? ?]|by intros [? ?]]. }
  destruct (host_from_one_source (fun _ => true) (fun _ => Some (lit "file")) example_json5 (fun _ => None) _ (lit "/r") Ha)
    as (r & Hr & Hf & _).
  exists (Localhost Podman). split; [by vm_compute|].
  assert (E : resolve_host (fun _ => None) (mkArgs None (Some (lit "localhost")) None None None (Some Podman)) = Some (Ok (Some (Localhost Podman)))) by (by vm_compute).
  rewrite E in Hr. injection Hr as <-. exact (proj1 Hf).
Defined.

Lemma loaded_config_consistent_witness : sa_ambient (jc_ssh_agent example_config) = false /\ jc_host example_config = None.
Proof.
  destruct (loaded_config_consistent (fun _ => true) (fun _ => Some (lit "file")) example_json5 eq_refl (lit "/r") example_config)
    as (Hx & _); [by vm_compute|].
  split; [done|]. by destruct Hx.
Defined.

Lemma engine_flag_replaces_host_witness : exists o,
  resolve_host (fun _ => None) (mkArgs None None None None None (Some Podman)) = Some (Ok o) /\
  determine_host (fun _ => true) (fun _ => Some (lit "file")) example_json5 (fun _ => None) (lit "/r") o = Ok (Localhost Podman).
Proof.
  apply (engine_flag_replaces_host (fun _ => true) (fun _ => Some (lit "file")) example_json5 (fun _ => None) eq_refl Podman
           (lit "/r") example_config example_kubernetes); by vm_compute.
Defined.

Lemma selected_devcontainer_exists_witness :
  is_file example_metadata (lit "/r/c/devcontainer.json") = true /\
  determine_devcontainer (fun _ => true) (fun _ => Some (lit "file")) example_json5 (Some (lit "/w")) example_metadata (lit "/r") None
  = Ok (Some (lit "/r/c/devcontainer.json")).
Proof.
  assert (E : determine_devcontainer (fun _ => true) (fun _ => Some (lit "file")) example_json5 (Some (lit "/w")) example_metadata (lit "/r") None
    = Ok (Some (lit "/r/c/devcontainer.json"))) by (by vm_compute).
  split; [|exact E].
  pose proof (selected_devcontainer_exists (fun _ => true) (fun _ => Some (lit "file")) example_json5 (Some (lit "/w")) example_metadata
    (lit "/r") None) as H.
  rewrite E in H. apply H; [by vm_compute|]. intros d [= <-]. by vm_compute.
Defined.
