(* ===== verification/Enter.v ===== *)
(** * Entering a pod (enter.rs)

    [rumpel enter] uses the prepared connection of a pod when the daemon has one and the pod's server
    answers; otherwise it chooses the host, asks before it creates a pod, and has the daemon
    launch it.  Then it runs the command at the place in the pod that corresponds to the
    working directory.  [action] is what the command does to the outside, in order; what the
    daemon, the executor, git and the system answer are parameters. *)
From stdpp Require Import gmap.
From S2P Require Import Prelude Strs PodNames Registry Merge Hosts ExecStream Subst Devcontainer PreparedImage GitSetup Sse FileCopy Config.

(** ** Paths *)

Fixpoint strip_components (base path : list str) : option (list str) :=
  match base, path with
  | [], _ => Some path
  | b :: base, p :: path => if bool_decide (b = p) then strip_components base path else None
  | _ :: _, [] => None
  end.

Inductive enter_error :=
| EnterFailed (e : str)
| EnterConfig (e : config_error)
| EnterDevcontainer (e : dc_error)
| NotUnder (path base : str)
| NameNotUtf8
| ValueNotUtf8 (key : str)
| InvalidName (e : str)
| DoesNotExist (pod : str)
| CreationCancelled
| NoSocket
| WorkdirFailed (dir : str)
| CommandExited (status : Z).

(** [Path::strip_prefix]; the working directory has no redundant separators, so the rest is its
    components. *)
Definition relative_path (base path : str) : result enter_error str :=
  context (NotUnder path base)
    (if bool_decide (is_absolute base = is_absolute path)
     then join [c_slash] <$> strip_components (Executor.path_components base) (Executor.path_components path)
     else None).

Definition container_workdir (current_dir : option str) (container_repo_path repo_root : str) : result enter_error str :=
  dir ← context (EnterFailed (lit "failed to get current directory")) current_dir;
  relative ← relative_path repo_root dir;
  Ok (path_join container_repo_path relative).

(** Equality of paths. *)
Definition same_path (p q : str) : bool :=
  bool_decide (is_absolute p = is_absolute q) && bool_decide (Executor.path_components p = Executor.path_components q).

(** ** Data *)

(** [PreparedPodConnection] as the client gets it. *)
Record ClientConnection := mkConnection {
  cn_container_id : str;
  cn_docker_socket : option str;
  cn_host : Host;
  cn_container_url : str;
  cn_container_token : str;
  cn_container_repo_path : str;
}.

(** [From<LaunchResult> for PreparedPodConnection] *)
Definition of_launch (r : LaunchResult) : ClientConnection :=
  mkConnection (lr_container_id r) (lr_docker_socket r) (lr_host r) (lr_container_url r) (lr_container_token r)
    (lr_container_repo_path r).

Record PodLaunchParams := mkLaunchParams {
  lp_pod_name : str;
  lp_repo_path : str;
  lp_devcontainer_path : option str;
  lp_host_branch : option str;
  lp_host : Host;
  lp_git_identity : option GitIdentity;
  lp_claude_cli_path : option str;
  lp_codex_cli_path : option str;
  lp_pi_cli_path : option str;
  lp_grok_cli_path : option str;
  lp_inject_system_prompt : bool;
  lp_description_file : option str;
  lp_local_env_vars : gmap (list N) (list N);
  lp_client_env : gmap (list N) (list N);
  lp_ssh_auth_sock : option str;
}.

Inductive ExecutorKind :=
| DockerSocket (socket : str)
| ContainerHost (h : Host)
| ClusterExecutor (ctx namespace : str).

Record exec_call := mkCall {
  call_on : ExecutorKind;
  call_container : str;
  call_command : list str;
  call_tty : bool;
  call_user_root : bool;
}.

Inductive action := Prompted | Launched (p : PodLaunchParams) | Executed (c : exec_call).

Record EnterCommand := mkEnter {
  en_name : str;
  en_container_config : ContainerConfigArgs;
  en_create : bool;
  en_command : list str;
}.

(** What the invoking shell and the repository are. *)
Record Client := mkClient {
  cl_repo_root : result str str;
  cl_current_dir : option str;
  cl_stdin_terminal : bool;
  cl_stderr_terminal : bool;
  cl_answer : result str str;                      (* the line read from the terminal *)
  cl_env : list (option str * option str);         (* [None] is not UTF-8 *)
  cl_vars : gmap (list N) (list N);                (* [std::env::var], for the references of the file *)
  cl_host_branch : str -> option str;
  cl_git_identity : str -> GitIdentity;
  cl_which : str -> option str;
}.

(** ** The environment *)

Fixpoint collect_client_env (vars : list (option str * option str)) (env : gmap (list N) (list N))
    : result enter_error (gmap (list N) (list N)) :=
  match vars with
  | [] => Ok env
  | (key, value) :: vars =>
      key ← context NameNotUtf8 key;
      value ← context (ValueNotUtf8 key) value;
      collect_client_env vars (<[key := value]> env)
  end.

(** [ClientContext::current] *)
Definition current_ssh_auth_sock (env : gmap (list N) (list N)) : option str :=
  match env !! lit "SSH_AUTH_SOCK" with
  | Some v => if bool_decide (v = []) then None else Some v
  | None => None
  end.

(** ** Confirmation *)

Definition confirm_pod_creation (cl : Client) (pods : result str (list str)) (pod_name : str) (create : bool)
    : list action * result enter_error unit :=
  match pods with
  | Err e => ([], Err (EnterFailed e))
  | Ok pods =>
      if bool_decide (pod_name ∈ pods) then ([], Ok tt)
      else if create then ([], Ok tt)
      else if negb (cl_stderr_terminal cl) || negb (cl_stdin_terminal cl) then ([], Err (DoesNotExist pod_name))
      else
        ([Prompted],
         match cl_answer cl with
         | Err e => Err (EnterFailed e)
         | Ok line =>
             let answer := trim line in
             if bool_decide (answer = []) || eq_ignore_ascii_case answer (lit "y") || eq_ignore_ascii_case answer (lit "yes")
             then Ok tt
             else Err CreationCancelled
         end)
  end.

Section Enter.
  (** The configuration file, as in Config. *)
  Context (exists_file : str -> bool) (read_to_string : str -> option str) (json5 : str -> option Json.json).
  Context (Url_parse : str -> option Url) (metadata : str -> result IoError FileKind).
  (** The daemon, the pod's server and the executors. *)
  Context (prepared : str -> result str (option ClientConnection)) (answers : ClientConnection -> bool).
  Context (list_pods : result str (list str)) (launch : PodLaunchParams -> result str LaunchResult).
  Context (open_executor : ExecutorKind -> result str unit) (exec_interactive : exec_call -> result str Z).

Definition lift {E A} (f : E -> enter_error) (r : result E A) : result enter_error A :=
  match r with Ok a => Ok a | Err e => Err (f e) end.

Definition collect_local_env (vars : gmap (list N) (list N)) (repo_root : str) (devcontainer_path : option str)
    : Prelude.run (result enter_error (gmap (list N) (list N))) :=
  match find_raw metadata read_to_string repo_root devcontainer_path with
  | Err e => Returned (Err (EnterDevcontainer e))
  | Ok raw => env ← collect_local_env_vars vars (default (lit "{}") raw); Returned (Ok env)
  end.

(** [launch_pod] up to the request. *)
Definition launch_params (cl : Client) (pod_name : str) (host_override : option Host) (devcontainer_override : option str)
    : Prelude.run (result enter_error PodLaunchParams) :=
  match
    repo_root ← lift EnterFailed (cl_repo_root cl);
    host ← lift EnterConfig (determine_host exists_file read_to_string json5 Url_parse repo_root host_override);
    devcontainer_path ← lift EnterConfig (determine_devcontainer exists_file read_to_string json5 (cl_current_dir cl) metadata
                                            repo_root devcontainer_override);
    Ok (repo_root, host, devcontainer_path)
  with
  | Err e => Returned (Err e)
  | Ok (repo_root, host, devcontainer_path) =>
      local_env_vars ← collect_local_env (cl_vars cl) repo_root devcontainer_path;
      Returned (
        local_env_vars ← local_env_vars;
        client_env ← collect_client_env (cl_env cl) ∅;
        json_config ← lift EnterConfig (load_json_config exists_file read_to_string json5 repo_root);
        name ← lift InvalidName (Protocol.PodName_new pod_name);
        Ok (mkLaunchParams pod_name repo_root devcontainer_path (cl_host_branch cl repo_root) host
              (Some (cl_git_identity cl repo_root)) (cl_which cl (lit "claude")) (cl_which cl (lit "codex"))
              (cl_which cl (lit "pi")) (cl_which cl (lit "grok")) (jc_inject_system_prompt json_config)
              (description_file_path (jc_merge json_config)) local_env_vars client_env (current_ssh_auth_sock (cl_vars cl))))
  end.

Definition launch_pod (cl : Client) (pod_name : str) (host_override : option Host) (devcontainer_override : option str)
    : list action * Prelude.run (result enter_error LaunchResult) :=
  match launch_params cl pod_name host_override devcontainer_override with
  | Returned (Ok p) => ([Launched p], Returned (lift EnterFailed (launch p)))
  | Returned (Err e) => ([], Returned (Err e))
  | Panicked => ([], Panicked)
  | Unfinished => ([], Unfinished)
  end.

Definition prepared_pod_connection (pod_name : str) : result enter_error (option ClientConnection) :=
  connection ← lift EnterFailed (prepared pod_name);
  Ok (match connection with
      | Some c => if answers c then Some c else None
      | None => None
      end).

(** ** Running the command *)

Definition executor_for (c : ClientConnection) : Prelude.run (result enter_error ExecutorKind) :=
  match cn_host c with
  | Localhost Docker => Returned (socket ← context NoSocket (cn_docker_socket c); Ok (DockerSocket socket))
  | Localhost Podman => Returned (Ok (ContainerHost (cn_host c)))
  | Localhost Hosts.Auto => Panicked
  | Ssh _ _ => Returned (Ok (ContainerHost (cn_host c)))
  | Kubernetes ctx namespace _ _ _ _ _ => Returned (Ok (ClusterExecutor ctx namespace))
  end.

Definition container_exec (workdir : str) (command : list str) : list str :=
  [RUMPEL_CONTAINER_BIN; lit "container-exec"; lit "--workdir"; workdir; lit "--"] ++ command.

Definition enter_prepared (cl : Client) (c : ClientConnection) (repo_root : str) (command : list str) (tty create_workdir : bool)
    : list action * Prelude.run (result enter_error Z) :=
  match container_workdir (cl_current_dir cl) (cn_container_repo_path c) repo_root with
  | Err e => ([], Returned (Err e))
  | Ok workdir =>
      match executor_for c with
      | Panicked => ([], Panicked)
      | Unfinished => ([], Unfinished)
      | Returned (Err e) => ([], Returned (Err e))
      | Returned (Ok executor) =>
          match open_executor executor with
          | Err e => ([], Returned (Err (EnterFailed e)))
          | Ok _ =>
              let mkdir := mkCall executor (cn_container_id c) [lit "mkdir"; lit "-p"; workdir] false true in
              let exec := mkCall executor (cn_container_id c) (container_exec workdir command) tty true in
              let finish before :=
                (before ++ [Executed exec], Returned (lift EnterFailed (exec_interactive exec))) in
              if create_workdir && is_docker (cn_host c) && negb (same_path workdir (cn_container_repo_path c)) then
                match exec_interactive mkdir with
                | Err e => ([Executed mkdir], Returned (Err (EnterFailed e)))
                | Ok status =>
                    if bool_decide (status = 0%Z) then finish [Executed mkdir]
                    else ([Executed mkdir], Returned (Err (WorkdirFailed workdir)))
                end
              else finish []
          end
      end
  end.

(** The connection [enter] uses. *)
Definition connection_for (cl : Client) (cmd : EnterCommand) (repo_root : str)
    : list action * Prelude.run (result enter_error ClientConnection) :=
  match prepared_pod_connection (en_name cmd) with
  | Err e => ([], Returned (Err e))
  | Ok (Some connection) => ([], Returned (Ok connection))
  | Ok None =>
      match resolve_host Url_parse (en_container_config cmd) with
      | None => ([], Panicked)
      | Some (Err e) => ([], Returned (Err (EnterConfig e)))
      | Some (Ok host_override) =>
          let '(asked, confirmed) := confirm_pod_creation cl list_pods (en_name cmd) (en_create cmd) in
          match confirmed with
          | Err e => (asked, Returned (Err e))
          | Ok _ =>
              let '(launched, r) := launch_pod cl (en_name cmd) host_override (arg_devcontainer (en_container_config cmd)) in
              (asked ++ launched, (fmap of_launch : result enter_error LaunchResult -> _) <$> r)
          end
      end
  end.

Definition enter (cl : Client) (cmd : EnterCommand) : list action * Prelude.run (result enter_error unit) :=
  match cl_repo_root cl with
  | Err e => ([], Returned (Err (EnterFailed e)))
  | Ok repo_root =>
      let '(before, connection) := connection_for cl cmd repo_root in
      match connection with
      | Returned (Ok c) =>
          let '(execs, status) := enter_prepared cl c repo_root (en_command cmd) (cl_stdin_terminal cl) true in
          (before ++ execs,
           status ← status;
           Returned (status ← status; if bool_decide (status = 0%Z) then Ok tt else Err (CommandExited status)))
      | Returned (Err e) => (before, Returned (Err e))
      | Panicked => (before, Panicked)
      | Unfinished => (before, Unfinished)
      end
  end.
End Enter.

(** ** Paths *)

Lemma strip_components_Some b p r : strip_components b p = Some r <-> p = b ++ r.
Proof.
  revert p. induction b as [|x b IH]; intros p; cbn; [split; [by intros [= ->]|by intros ->]|].
  destruct p as [|y p]; [done|]. case_bool_decide; [subst; rewrite IH; split; [by intros ->|by intros [= ->]]|].
  split; [done|]. by intros [= ? ?].
Qed.

Lemma components_ok p : Forall component_ok (Executor.path_components p).
Proof.
  apply Forall_forall. intros w Hw. apply list_elem_of_filter in Hw as [[H1 H2] Hw].
  pose proof (split_sep_free c_slash p) as Hs. rewrite Forall_forall in Hs. repeat split; auto.
Qed.

Lemma join_relative rel : Forall component_ok rel -> starts_with [c_slash] (join [c_slash] rel) = false.
Proof.
  intros H. unfold starts_with. apply bool_decide_eq_false. intros [r Hr]. apply strip_prefix_Some in Hr.
  destruct H as [|w ws (H1 & _ & H3) H]; [done|]. destruct w as [|x w]; [done|].
  assert (x = c_slash) as -> by (destruct ws; cbn in Hr; congruence). apply H3. left.
Qed.

Lemma components_path_join base rel : Forall component_ok rel ->
  Executor.path_components (path_join base (join [c_slash] rel)) = Executor.path_components base ++ rel.
Proof. intros H. rewrite path_components_join by (by apply join_relative). by rewrite (components_join rel H). Qed.

Lemma starts_with_one (c x : N) s : starts_with [c] (x :: s) = bool_decide (c = x).
Proof.
  unfold starts_with. change (strip_prefix [c] (x :: s)) with (if bool_decide (c = x) then Some s else None).
  by destruct (bool_decide (c = x)).
Qed.

Lemma join_same_root base rel : Forall component_ok rel -> base <> [] \/ rel = [] ->
  is_absolute (path_join base (join [c_slash] rel)) = is_absolute base.
Proof.
  intros H Hb. unfold path_join. rewrite (join_relative rel H). destruct base as [|x base].
  { destruct Hb as [|Hb]; [done|]. by rewrite Hb. }
  unfold is_absolute. case_match; cbn [app]; by rewrite !starts_with_one.
Qed.

Section Running.
  Context (open_executor : ExecutorKind -> result str unit) (exec_interactive : exec_call -> result str Z).

Lemma workdir_place dir crp repo w : container_workdir (Some dir) crp repo = Ok w ->
  exists rel, Executor.path_components dir = Executor.path_components repo ++ rel /\
    Executor.path_components w = Executor.path_components crp ++ rel /\
    same_path w crp = bool_decide (rel = []).
Proof.
  unfold container_workdir, relative_path. cbn. case_bool_decide as Ha; cbn; [|done].
  destruct (strip_components _ _) as [rel|] eqn:E; cbn; [|done]. intros [= <-].
  apply strip_components_Some in E. exists rel.
  assert (Hok : Forall component_ok rel). { pose proof (components_ok dir) as H. rewrite E in H. by apply Forall_app in H as [_ H]. }
  pose proof (components_path_join crp rel Hok) as Hc. split_and!; [done..|].
  unfold same_path. rewrite Hc. destruct (bool_decide_reflect (rel = [])) as [Hr|Hr].
  - subst rel. rewrite (join_same_root crp [] Hok) by auto. rewrite app_nil_r, !bool_decide_true by done. done.
  - apply andb_false_intro2, bool_decide_eq_false. intros Hl. apply Hr. eapply app_inv_head. by rewrite app_nil_r.
Qed.

Ltac run_exec E :=
  match goal with |- context [exec_interactive ?x] => destruct (exec_interactive x) eqn:E end; cbn.

(** When a command was run, it ran once, as root through container-exec, in the directory of
    the pod that has the same place below the workspace as the working directory has below
    the repository.  That directory was created before exactly when it is not the workspace
    itself and the pod is a container.  Outside the repository nothing is run. *)
Theorem command_runs_in_place cl c repo command tty create dir :
  cl_current_dir cl = Some dir ->
  match enter_prepared open_executor exec_interactive cl c repo command tty create with
  | (acts, Returned (Ok status)) =>
      exists rel w executor,
        Executor.path_components dir = Executor.path_components repo ++ rel /\
        Executor.path_components w = Executor.path_components (cn_container_repo_path c) ++ rel /\
        let mkdir := mkCall executor (cn_container_id c) [lit "mkdir"; lit "-p"; w] false true in
        let exec := mkCall executor (cn_container_id c) (container_exec w command) tty true in
        exec_interactive exec = Ok status /\
        acts = (if create && is_docker (cn_host c) && negb (bool_decide (rel = [])) then [Executed mkdir] else []) ++ [Executed exec]
  | (acts, _) =>
      (forall rel, Executor.path_components dir <> Executor.path_components repo ++ rel) -> acts = []
  end.
Proof.
  intros Hd. unfold enter_prepared. rewrite Hd.
  destruct (container_workdir (Some dir) _ repo) as [w|e] eqn:Ew; [|done].
  apply workdir_place in Ew as (rel & Hdir & Hw & Hsame). rewrite Hsame.
  destruct (executor_for c) as [[executor|e]| |]; try done.
  destruct (open_executor executor) as [_|e]; [|done].
  destruct (create && is_docker (cn_host c) && negb (bool_decide (rel = []))) eqn:Em; cbn.
  - destruct (exec_interactive (mkCall _ _ [_; _; _] _ _)) as [status|e]; cbn; [|by intros H; destruct (H rel)].
    destruct (bool_decide (status = 0%Z)); cbn; [|by intros H'; destruct (H' rel)].
    run_exec Ex; [|by intros H'; destruct (H' rel)].
    exists rel, w, executor. by rewrite Em.
  - run_exec Ex; [|by intros H'; destruct (H' rel)].
    exists rel, w, executor. by rewrite Em.
Qed.
End Running.

(** ** Creating a pod *)

(** The user agreed at a terminal. *)
Definition consent (cl : Client) : Prop :=
  cl_stdin_terminal cl = true /\ cl_stderr_terminal cl = true /\
  exists line, cl_answer cl = Ok line /\ map to_ascii_lowercase (trim line) ∈ [[]; lit "y"; lit "yes"].

Definition is_launch (a : action) : bool := match a with Launched _ => true | _ => false end.
Definition is_exec (a : action) : bool := match a with Executed _ => true | _ => false end.

Lemma confirm_spec cl pods name create asked : confirm_pod_creation cl pods name create = (asked, Ok tt) ->
  (exists ps, pods = Ok ps /\ (name ∈ ps \/ create = true \/ consent cl)) /\
  Forall (fun a => a = Prompted) asked.
Proof.
  unfold confirm_pod_creation. destruct pods as [ps|]; [|done].
  case_bool_decide; [intros [= <-]; split; [eauto 6|constructor]|].
  destruct create; [intros [= <-]; split; [eauto 6|constructor]|].
  destruct (cl_stderr_terminal cl) eqn:E1, (cl_stdin_terminal cl) eqn:E2; cbn; try done.
  destruct (cl_answer cl) as [line|] eqn:E3; [|done]. case_match eqn:E4; [|done]. intros [= <-].
  split; [|by repeat constructor]. exists ps. split; [done|]. right; right. unfold consent. split_and!; [done..|].
  exists line. split; [done|]. apply orb_true_iff in E4 as [[E4|E4]%orb_true_iff|E4].
  - apply bool_decide_eq_true in E4 as ->. left.
  - apply bool_decide_eq_true in E4 as ->. decide_now.
  - apply bool_decide_eq_true in E4 as ->. decide_now.
Qed.

Section Creation.
  Context (exists_file : str -> bool) (read_to_string : str -> option str) (json5 : str -> option Json.json).
  Context (Url_parse : str -> option Url) (metadata : str -> result IoError FileKind).
  Context (prepared : str -> result str (option ClientConnection)) (answers : ClientConnection -> bool).
  Context (list_pods : result str (list str)) (launch : PodLaunchParams -> result str LaunchResult).
  Context (open_executor : ExecutorKind -> result str unit) (exec_interactive : exec_call -> result str Z).
  Abbreviation run_enter := (enter exists_file read_to_string json5 Url_parse metadata prepared answers list_pods launch
                               open_executor exec_interactive).

Lemma launch_params_name cl name h d p :
  launch_params exists_file read_to_string json5 Url_parse metadata cl name h d = Returned (Ok p) ->
  lp_pod_name p = name /\ dns_label name.
Proof.
  unfold launch_params. destruct (cl_repo_root cl) as [repo|]; cbn [lift mbind result_bind]; [|done].
  destruct (determine_host _ _ _ _ _ _) as [host|]; cbn [lift mbind result_bind]; [|done].
  destruct (determine_devcontainer _ _ _ _ _ _ _) as [dc|]; cbn [lift mbind result_bind]; [|done].
  destruct (collect_local_env _ _ _ _ _) as [[env|]| |]; cbn [mbind result_bind run_bind]; try done.
  destruct (collect_client_env _ _) as [cenv|]; cbn [mbind result_bind]; [|done].
  destruct (load_json_config _ _ _ _) as [jc|]; cbn [lift mbind result_bind]; [|done].
  destruct (Protocol.PodName_new name) as [n|] eqn:En; cbn; [|done]. intros [= <-].
  apply NameTheorems.PodName_new_Ok in En as [? _]. done.
Qed.

Lemma enter_prepared_execs cl c repo command tty create :
  Forall (fun a => is_exec a = true) (enter_prepared open_executor exec_interactive cl c repo command tty create).1.
Proof.
  unfold enter_prepared. repeat (case_match; try by constructor); cbn; by repeat constructor.
Qed.

(** What [enter] does before it has a connection: nothing, or it asks and launches. *)
Lemma connection_actions cl cmd repo :
  let '(before, _) := connection_for exists_file read_to_string json5 Url_parse metadata prepared answers list_pods launch
                        cl cmd repo in
  before = [] \/ before = [Prompted] \/
  exists asked p, before = asked ++ [Launched p] /\ (asked = [] \/ asked = [Prompted]) /\
    lp_pod_name p = en_name cmd /\ dns_label (en_name cmd) /\
    (forall c, prepared (en_name cmd) = Ok (Some c) -> answers c = false) /\
    exists ps, list_pods = Ok ps /\ (en_name cmd ∈ ps \/ en_create cmd = true \/ consent cl).
Proof.
  unfold connection_for, prepared_pod_connection.
  destruct (prepared (en_name cmd)) as [o|] eqn:Ep; cbn; [|by left].
  assert (Hno : match o with Some c => if answers c then Some c else None | None => None end = None ->
    forall c, (Ok o : result str _) = Ok (Some c) -> answers c = false).
  { intros H c [= ->]. by destruct (answers c). }
  destruct (match o with Some c => if answers c then Some c else None | None => None end); [by left|].
  specialize (Hno eq_refl).
  destruct (resolve_host _ _) as [[h|]|]; [|by left..].
  assert (Hasked : (confirm_pod_creation cl list_pods (en_name cmd) (en_create cmd)).1 = [] \/
                   (confirm_pod_creation cl list_pods (en_name cmd) (en_create cmd)).1 = [Prompted]).
  { unfold confirm_pod_creation. repeat (case_match; cbn; auto). }
  destruct (confirm_pod_creation _ _ _ _) as [asked [[]|e]] eqn:Ec; cbn in Hasked; [|tauto].
  apply confirm_spec in Ec as [Hc _]. unfold launch_pod.
  destruct (launch_params _ _ _ _ _ _ _ _ _) as [[p|]| |] eqn:El; try (rewrite app_nil_r; tauto).
  apply launch_params_name in El as [Hn Hd]. right; right. by exists asked, p.
Qed.

(** A pod is launched by [rumpel enter] only when no prepared connection answers, under a valid
    name, and only if the pod already exists, the user passed --create, or the user agreed
    at a terminal; there is at most one launch, and every command runs after it. *)
Theorem creation_needs_consent cl cmd :
  exists before execs, (run_enter cl cmd).1 = before ++ execs /\
    Forall (fun a => is_exec a = true) execs /\
    (before = [] \/ before = [Prompted] \/
     exists asked p, before = asked ++ [Launched p] /\ (asked = [] \/ asked = [Prompted]) /\
       lp_pod_name p = en_name cmd /\ dns_label (en_name cmd) /\
       (forall c, prepared (en_name cmd) = Ok (Some c) -> answers c = false) /\
       exists ps, list_pods = Ok ps /\ (en_name cmd ∈ ps \/ en_create cmd = true \/ consent cl)).
Proof.
  unfold enter. destruct (cl_repo_root cl) as [repo|e]; [|by exists [], []; auto].
  pose proof (connection_actions cl cmd repo) as Hc.
  destruct (connection_for _ _ _ _ _ _ _ _ _ _ _ _) as [before [[c|e]| |]]; cbn;
    [|by exists before, []; rewrite app_nil_r; auto..].
  pose proof (enter_prepared_execs cl c repo (en_command cmd) (cl_stdin_terminal cl) true) as He.
  destruct (enter_prepared _ _ _ _ _ _ _ _) as [execs status]. cbn in *. exists before, execs. auto.
Qed.
End Creation.

(** ** Examples *)

Definition example_client : Client :=
  mkClient (Ok (lit "/home/me/r")) (Some (lit "/home/me/r/src/a")) true true (Ok (lit "y")) [] ∅ (fun _ => None)
    (fun _ => mkIdentity None None) (fun _ => None).
Definition example_connection : ClientConnection :=
  mkConnection (lit "c1") None (Ssh (lit "dev") Docker) (lit "http://127.0.0.1:9") (lit "t") (lit "/workspaces/r").

Lemma command_runs_in_place_witness :
  exists rel w executor, Executor.path_components (lit "/home/me/r/src/a") = Executor.path_components (lit "/home/me/r") ++ rel /\
    Executor.path_components w = Executor.path_components (lit "/workspaces/r") ++ rel /\
    (enter_prepared (fun _ => Ok tt) (fun _ => Ok 0%Z) example_client example_connection (lit "/home/me/r") [lit "ls"] false true).1 =
    [Executed (mkCall executor (lit "c1") [lit "mkdir"; lit "-p"; w] false true);
     Executed (mkCall executor (lit "c1") (container_exec w [lit "ls"]) false true)].
Proof.
  pose proof (command_runs_in_place (fun _ => Ok tt) (fun _ => Ok 0%Z) example_client example_connection (lit "/home/me/r")
    [lit "ls"] false true (lit "/home/me/r/src/a") eq_refl) as H.
  destruct (enter_prepared _ _ _ _ _ _ _ _) as [acts [[status|e]| |]] eqn:E;
    [|vm_compute in E; discriminate E..].
  destruct H as (rel & w & executor & H1 & H2 & _ & H4). exists rel, w, executor. split_and!; [exact H1|exact H2|].
  cbn [fst]. rewrite H4. destruct rel as [|x rel]; [|reflexivity].
  exfalso. rewrite app_nil_r in H1. revert H1. vm_compute. discriminate.
Defined.
