(* ===== verification/CodexFrontend.v ===== *)
(** * The Codex frontend of the host (codex.rs, pty_session.rs)

    [rumpel codex] attaches to a terminal session of the daemon in which the Codex program runs,
    connected to the pod through a proxy.  The daemon builds that session from the pod's
    connection (PodConn), and replaces it when its screen shows that Codex gave up reconnecting
    and the server in the pod answers again.  Terminals, probes and requests are observations. *)
From stdpp Require Import gmap.
From S2P Require Import Prelude Strs PodNames Hosts PodConn Json Subst Config Enter.

(** ** The screen *)

(** The rows of the terminal and the row of the cursor. *)
Record Screen := mkScreen { sc_rows : list str; sc_cursor : nat }.

Definition c_bullet : char := 8226%N.
Definition c_chevron : char := 8250%N.
Definition c_em_dash : char := 8212%N.

Definition trim_start (s : str) : str := trim_start_by is_whitespace s.
Definition strip_bullet (row : str) : str := trim_start (trim_start_matches c_bullet (trim_start row)).
Definition blank (row : str) : bool := bool_decide (trim row = []).

(** [Iterator::rposition] *)
Fixpoint rposition (p : str -> bool) (rows : list str) : option nat :=
  match rows with
  | [] => None
  | row :: rows =>
      match rposition p rows with
      | Some i => Some (S i)
      | None => if p row then Some 0 else None
      end
  end.

Definition is_composer (row : str) : bool := starts_with [c_chevron] (trim_start row).
Definition is_status (row : str) : bool := starts_with (lit "Reconnect failed") (strip_bullet row).
Definition is_footer (row : str) : bool := ends_with (lit " quit") (trim_end row).
Definition is_queue (row : str) : bool := bool_decide (strip_bullet row = lit "Queued follow-up inputs").

Definition in_agent_center (rows : list str) : bool :=
  existsb (fun row => starts_with (lit "Agent command center") (trim_start row)) rows
  && match List.find (fun row => negb (blank row)) (rev rows) with
     | Some row => starts_with (lit "Reconnect failed " ++ [c_em_dash] ++ lit " agent list") (trim_start row)
     | None => false
     end.

(** The rows between the status and the composer. *)
Definition between_ok (between : list str) : bool :=
  forallb blank between
  || match List.find (fun row => negb (blank row)) between with Some row => is_queue row | None => false end.

(** [None]: the slice of the rows panics. *)
Definition reconnect_failed (s : Screen) : option bool :=
  let rows := sc_rows s in
  if in_agent_center rows then Some true
  else if bool_decide (length rows <= sc_cursor s) then None
  else
    match rposition is_composer (take (S (sc_cursor s)) rows) with
    | None => Some false
    | Some composer =>
        match rposition is_status (take composer rows) with
        | None => Some false
        | Some status =>
            Some (between_ok (drop (S status) (take composer rows)) && existsb is_footer (drop (S (sc_cursor s)) rows))
        end
    end.

(** ** The session *)

Definition CODEX_PROXY_TOKEN_ENV : str := lit "RUMPELPOD_CODEX_PROXY_TOKEN".
Definition codex_session_name (repo_path pod_name : str) : str := lit "codex:" ++ repo_path ++ [c_colon] ++ pod_name.

Record SessionSpec := mkSessionSpec {
  ss_name : str;
  ss_cmd : list str;
  ss_workdir : option str;
  ss_env : list str;
}.

Definition connected_codex_pod (c : option PodConnection) : option (str * str * option CodexState) :=
  c ← c;
  match status c with
  | Connected | Connecting => e ← endpoint c; Some (url e, endpoint_token e, codex_state c)
  | HostDisconnected | PodDisconnected | Stopped => None
  end.

Inductive codex_error := CodexNotFound | CodexConfigError (e : config_error) | CodexFailed (e : str) | NameChanged.

(** What a spec is built from: the connection in the registry, the configuration, what comes of
    offering the credentials of the host and of starting a proxy. *)
Record spec_inputs := mkInputs {
  si_connection : option PodConnection;
  si_config : result config_error JsonConfig;
  si_credentials : result str unit;
  si_started : result str (Z * str);
}.

Definition codex_command (codex_bin : str) (port : Z) (extra_args : list str) : list str :=
  [codex_bin; lit "--remote"; lit "ws://127.0.0.1:" ++ show (Z.to_N port); lit "--remote-auth-token-env"; CODEX_PROXY_TOKEN_ENV;
   lit "resume"; lit "--last"] ++ extra_args.

(** The new connection, whether credentials were offered, and the spec. *)
Definition build_codex_spec (i : spec_inputs) (repo_path pod_name : str) (codex_bin : option str) (no_bypass : bool)
    (extra_args : list str) : option PodConnection * bool * result codex_error (option SessionSpec) :=
  match connected_codex_pod (si_connection i), si_connection i with
  | Some (container_url, container_token, codex_state), Some c =>
      match codex_bin with
      | None => (Some c, false, Err CodexNotFound)
      | Some codex_bin =>
          match si_config i with
          | Err e => (Some c, false, Err (CodexConfigError e))
          | Ok config =>
              let bypass := negb no_bypass && jc_codex_bypass_approvals_and_sandbox config in
              let offered := bool_decide (codex_state = None) in
              match (if offered then si_credentials i else Ok tt) with
              | Err e => (Some c, offered, Err (CodexFailed e))
              | Ok _ =>
                  let '(c, proxy) := ensure_codex_proxy container_url container_token bypass (si_started i) c in
                  (Some c, offered,
                   match proxy with
                   | Err e => Err (CodexFailed e)
                   | Ok (port, token) =>
                       Ok (Some (mkSessionSpec (codex_session_name repo_path pod_name) (codex_command codex_bin port extra_args)
                                   None [CODEX_PROXY_TOKEN_ENV ++ [c_eq] ++ token]))
                   end)
              end
          end
      end
  | _, c => (c, false, Ok None)
  end.

(** ** Replacing a frontend that gave up *)

(** [SessionWatch::replace]: whether the session is current, the old child's session and life when
    the table is locked again, and what the system answers. *)
Record replace_obs := mkReplace {
  rp_current : bool;
  rp_inputs : spec_inputs;
  rp_old : option (bool * bool);
  rp_spawn : result str unit;
  rp_kill : result str unit;
}.

Definition replace_session (name repo_path pod_name codex_bin : str) (no_bypass : bool) (o : replace_obs)
    : result codex_error bool * list SessionSpec :=
  if negb (rp_current o) then (Ok false, [])
  else
    match (build_codex_spec (rp_inputs o) repo_path pod_name (Some codex_bin) no_bypass []).2 with
    | Err e => (Err e, [])
    | Ok None => (Ok false, [])
    | Ok (Some spec) =>
        if negb (bool_decide (ss_name spec = name)) then (Err NameChanged, [])
        else
          match rp_old o with
          | Some (true, true) =>
              match rp_spawn o with
              | Err e => (Err (CodexFailed e), [])
              | Ok _ => (match rp_kill o with Ok _ => Ok true | Err e => Err (CodexFailed e) end, [spec])
              end
          | _ => (Ok false, [])
          end
    end.

(** One turn of the second loop of [monitor]. *)
Record recovery_obs := mkRecovery {
  ro_current : bool;
  ro_daemon : bool;
  ro_connection : option PodConnection;
  ro_probe : str -> str -> result str unit;
  ro_replace : replace_obs;
}.

Inductive monitor_outcome := MonitorEnded (r : result codex_error unit) | MonitorRunning | MonitorPanicked.

Section Monitor.
  Context (name repo_path pod_name codex_bin : str) (no_bypass : bool).

Fixpoint recover (os : list recovery_obs) : monitor_outcome * list SessionSpec :=
  match os with
  | [] => (MonitorRunning, [])
  | o :: os =>
      if negb (ro_current o) then (MonitorEnded (Ok tt), [])
      else if negb (ro_daemon o) then (MonitorEnded (Ok tt), [])
      else
        match connected_codex_pod (ro_connection o) with
        | Some (url, token, _) =>
            match ro_probe o url token with
            | Ok _ =>
                match replace_session name repo_path pod_name codex_bin no_bypass (ro_replace o) with
                | (Ok true, spawned) => (MonitorEnded (Ok tt), spawned)
                | (Ok false, spawned) => let '(r, later) := recover os in (r, spawned ++ later)
                | (Err e, spawned) => (MonitorEnded (Err e), spawned)
                end
            | Err _ => recover os
            end
        | None => recover os
        end
  end.

(** The screens seen, each with whether the session changed afterwards. *)
Fixpoint monitor (screens : list (Screen * bool)) (os : list recovery_obs) : monitor_outcome * list SessionSpec :=
  match screens with
  | [] => (MonitorRunning, [])
  | (screen, changed) :: screens =>
      match reconnect_failed screen with
      | None => (MonitorPanicked, [])
      | Some true => recover os
      | Some false => if changed then monitor screens os else (MonitorEnded (Ok tt), [])
      end
  end.
End Monitor.

(** [probe_app_server] on the messages of the server: text or not, or an error. *)
Inductive ws_message := WsText (s : str) | WsOther.

Section Probe.
  Context (from_str : str -> option json).

Fixpoint probe_app_server (messages : list (result str ws_message)) : result str unit :=
  match messages with
  | [] => Err (lit "Codex closed before answering initialize")
  | Err e :: _ => Err e
  | Ok WsOther :: messages => probe_app_server messages
  | Ok (WsText text) :: messages =>
      match from_str text with
      | None => Err (lit "parsing response")
      | Some response =>
          match json_get (lit "id") response with
          | Some (JNumber 1) =>
              if bool_decide (json_get (lit "result") response = None) then Err (lit "Codex initialize probe failed") else Ok tt
          | _ => probe_app_server messages
          end
      end
  end.
End Probe.

(** ** The proxy of the daemon *)

(** [validate_codex_proxy_auth]; [header] is the Authorization header when it is text. *)
Definition validate_codex_proxy_auth (client_token : str) (header : option str) : result N unit :=
  if bool_decide (header = Some (lit "Bearer " ++ client_token)) then Ok tt else Err 401%N.

(** Connecting to the pod: at most fifty attempts. *)
Fixpoint connect_upstream (attempts : nat) (outcomes : nat -> bool) (i : nat) : option nat :=
  match attempts with
  | O => None
  | S attempts => if outcomes i then Some i else connect_upstream attempts outcomes (S i)
  end.

(** What the relay of one connection sees, in the order in which [select] takes it. *)
Inductive relay_event :=
| FromClient (m : str) (sent : bool)
| FromServer (m : str) (sent : bool)
| ClientEnd | ServerEnd | RelayError.

Fixpoint relay (evs : list relay_event) (to_server to_client : list str) : list str * list str * bool :=
  match evs with
  | [] => (to_server, to_client, true)
  | FromClient m true :: evs => relay evs (to_server ++ [m]) to_client
  | FromServer m true :: evs => relay evs to_server (to_client ++ [m])
  | _ :: _ => (to_server, to_client, false)
  end.

Definition proxy_connection (client_token : str) (header : option str) (outcomes : nat -> bool) (evs : list relay_event)
    : result N (list str * list str * bool) :=
  _ ← validate_codex_proxy_auth client_token header;
  match connect_upstream 50 outcomes 0 with
  | None => Err 0%N
  | Some _ => Ok (relay evs [] [])
  end.

(** ** The command *)

Inductive codex_attach_error := SessionUnavailable | AttachFailed (e : str).

Inductive codex_action := CodexAttached | CodexAction (a : action).

Section Command.
  Context (exists_file : str -> bool) (read_to_string : str -> option str) (json5 : str -> option json).
  Context (Url_parse : str -> option Url) (metadata : str -> result Devcontainer.IoError Devcontainer.FileKind).
  Context (list_pods : result str (list str)) (launch : PodLaunchParams -> result str Sse.LaunchResult).
  (** The first and the second attempt to attach. *)
  Context (attach1 attach2 : result codex_attach_error unit).

Definition codex (cl : Client) (cmd : EnterCommand) : list codex_action * Prelude.run (result enter_error unit) :=
  match cl_repo_root cl with
  | Err e => ([], Returned (Err (EnterFailed e)))
  | Ok repo_root =>
      match attach1 with
      | Ok _ => ([CodexAttached], Returned (Ok tt))
      | Err (AttachFailed e) => ([CodexAttached], Returned (Err (EnterFailed e)))
      | Err SessionUnavailable =>
          if bool_decide (cl_which cl (lit "codex") = None) then ([CodexAttached], Returned (Err (EnterFailed (lit "codex CLI not found in PATH"))))
          else
            match resolve_host Url_parse (en_container_config cmd) with
            | None => ([CodexAttached], Panicked)
            | Some (Err e) => ([CodexAttached], Returned (Err (EnterConfig e)))
            | Some (Ok host_override) =>
                let '(asked, confirmed) := confirm_pod_creation cl list_pods (en_name cmd) (en_create cmd) in
                match confirmed with
                | Err e => (CodexAttached :: map CodexAction asked, Returned (Err e))
                | Ok _ =>
                    let '(launched, r) := launch_pod exists_file read_to_string json5 Url_parse metadata launch cl (en_name cmd)
                                            host_override (arg_devcontainer (en_container_config cmd)) in
                    let before := CodexAttached :: map CodexAction (asked ++ launched) in
                    match r with
                    | Returned (Ok _) =>
                        (before ++ [CodexAttached],
                         Returned (match attach2 with
                                   | Ok _ => Ok tt
                                   | Err SessionUnavailable =>
                                       Err (EnterFailed (lit "pod connection remained unavailable after launch"))
                                   | Err (AttachFailed e) => Err (EnterFailed e)
                                   end))
                    | Returned (Err e) => (before, Returned (Err e))
                    | Panicked => (before, Panicked)
                    | Unfinished => (before, Unfinished)
                    end
                end
            end
      end
  end.
End Command.

(** ** What the screen means *)

(** The last row that satisfies [p]. *)
Definition last_row (p : str -> bool) (rows : list str) (i : nat) : Prop :=
  (exists row, rows !! i = Some row /\ p row = true) /\
  (forall j row, i < j -> rows !! j = Some row -> p row = false).

Lemma rposition_None p rows : rposition p rows = None -> forall j row, rows !! j = Some row -> p row = false.
Proof.
  induction rows as [|r rows IH]; cbn; [done|]. case_match; [done|]. destruct (p r) eqn:E; [done|].
  intros _ [|j] row; cbn; [by intros [= <-]|by apply IH].
Qed.

Lemma rposition_Some p rows i : rposition p rows = Some i <-> last_row p rows i.
Proof.
  revert i. induction rows as [|r rows IH]; intros i; cbn.
  { split; [done|]. intros [(row & H & _) _]. done. }
  destruct (rposition p rows) as [k|] eqn:E.
  - split.
    + intros [= <-]. destruct (proj1 (IH k) eq_refl) as [(row & H1 & H2) H3]. split; [by exists row|].
      intros [|j] row' Hj; [lia|]. cbn. apply H3. lia.
    + intros [(row & H1 & H2) H3]. f_equal. destruct i as [|i].
      * destruct (proj1 (IH k) eq_refl) as [(row' & H1' & H2') _]. rewrite (H3 (S k) row') in H2'; [done|lia|done].
      * f_equal. assert (Some k = Some i) as [= ->]; [|done]. apply IH. split; [by exists row|].
        intros j row' Hj Hr. apply (H3 (S j)); [lia|done].
  - pose proof (rposition_None p rows E) as Hn. destruct (p r) eqn:Er; split.
    + intros [= <-]. split; [by exists r|]. intros [|j] row Hj; [lia|]. cbn. apply Hn.
    + intros [(row & H1 & H2) _]. destruct i as [|i]; [done|]. cbn in H1. by rewrite (Hn i row H1) in H2.
    + done.
    + intros [(row & H1 & H2) _]. destruct i as [|i]; cbn in H1; [congruence|]. by rewrite (Hn i row H1) in H2.
Qed.

Lemma existsb_row (p : str -> bool) rows n :
  existsb p (drop n rows) = true <-> exists k row, n <= k /\ rows !! k = Some row /\ p row = true.
Proof.
  rewrite existsb_exists. split.
  - intros (row & Hin & Hp). apply list_elem_of_In, list_elem_of_lookup in Hin as [i Hi].
    rewrite lookup_drop in Hi. exists (n + i), row. split; [lia|done].
  - intros (k & row & Hk & Hr & Hp). exists row. split; [|done]. apply list_elem_of_In, list_elem_of_lookup.
    exists (k - n). rewrite lookup_drop. by replace (n + (k - n)) with k by lia.
Qed.

(** A frontend counts as having given up exactly when the last composer line at or above the
    cursor has, as the last failure status above it, one that is separated from it by blank
    rows or by the preview of queued input, and a row below the cursor ends in quit; or when
    the agent list says so in its last row.  With the cursor on the screen nothing panics. *)
Theorem reconnect_failed_spec s :
  sc_cursor s < length (sc_rows s) ->
  reconnect_failed s = Some true <->
    in_agent_center (sc_rows s) = true \/
    exists composer status,
      last_row is_composer (take (S (sc_cursor s)) (sc_rows s)) composer /\
      last_row is_status (take composer (sc_rows s)) status /\
      between_ok (drop (S status) (take composer (sc_rows s))) = true /\
      exists k row, sc_cursor s < k /\ sc_rows s !! k = Some row /\ is_footer row = true.
Proof.
  intros Hc. unfold reconnect_failed. destruct (in_agent_center (sc_rows s)); [by split; [left|]|].
  rewrite bool_decide_false by lia.
  destruct (rposition is_composer _) as [composer|] eqn:Ec; cycle 1.
  { split; [done|]. intros [?|(c & st & H & _)]; [done|]. apply rposition_Some in H. congruence. }
  destruct (rposition is_status _) as [status|] eqn:Es; cycle 1.
  { split; [done|]. intros [?|(c & st & H1 & H2 & _)]; [done|]. apply rposition_Some in H1.
    rewrite Ec in H1. injection H1 as ->. apply rposition_Some in H2. congruence. }
  split.
  - intros [= [Hb Hf]%andb_true_iff]. right. exists composer, status.
    rewrite <- !rposition_Some. split_and!; [done..|]. by apply existsb_row in Hf.
  - intros [?|(c & st & H1 & H2 & Hb & Hf)]; [done|]. rewrite <- !rposition_Some in H1, H2.
    rewrite Ec in H1. injection H1 as <-. rewrite Es in H2. injection H2 as <-.
    f_equal. apply andb_true_iff. split; [done|]. by apply existsb_row.
Qed.

(** A draft of four lines that was typed into the composer; the cursor is on the third. *)
Definition typed_draft : list str :=
  [[c_chevron] ++ lit " why does it say"; lit "  Reconnect failed"; lit "  " ++ [c_chevron] ++ lit " here";
   lit "  and then quit"].
Definition draft_screen : Screen :=
  mkScreen ([lit "  some answer"; []] ++ typed_draft ++ [[]; lit "  ? for shortcuts"]) 4.

Lemma reconnect_failed_spec_witness : exists composer status,
  last_row is_composer (take 5 (sc_rows draft_screen)) composer /\ last_row is_status (take composer (sc_rows draft_screen)) status.
Proof.
  destruct (proj1 (reconnect_failed_spec draft_screen ltac:(vm_compute; lia)) ltac:(by vm_compute)) as [H|(c & s & H1 & H2 & _)].
  - exfalso. revert H. vm_compute. discriminate.
  - exists c, s. exact (conj H1 H2).
Defined.

(** Text that the user types can request a restart of the frontend: a draft of several lines
    in the composer, on a screen without any failure status or quit footer of Codex, is taken
    for one, against the comment that a typed draft cannot be. *)
Theorem draft_requests_restart :
  reconnect_failed draft_screen = Some true /\
  reconnect_failed (mkScreen ([lit "  some answer"; []] ++ [[c_chevron] ++ lit " "; []; []; []] ++ [[]; lit "  ? for shortcuts"]) 4)
  = Some false.
Proof. by vm_compute. Qed.

(** ** Sessions *)

(** The session of a pod is its own: two pods whose names are valid have the same session name
    only if they are the same pod of the same repository. *)
Theorem codex_session_names_distinct repo1 repo2 n1 n2 :
  dns_label n1 -> dns_label n2 -> codex_session_name repo1 n1 = codex_session_name repo2 n2 -> repo1 = repo2 /\ n1 = n2.
Proof.
  intros H1 H2 E. unfold codex_session_name in E. apply app_inv_head in E.
  assert (Hfree : forall n, dns_label n -> c_colon ∉ n).
  { intros n Hn Hin. pose proof (dns_chars n Hn) as Hc. rewrite Forall_forall in Hc. specialize (Hc _ Hin).
    revert Hc. by vm_compute. }
  assert (Hs : forall r n, dns_label n -> rsplit_once c_colon (r ++ [c_colon] ++ n) = Some (r, n)).
  { intros r n Hn. apply rsplit_once_Some. split; [done|by apply Hfree]. }
  pose proof (Hs repo1 n1 H1) as E1. rewrite E, (Hs repo2 n2 H2) in E1. by injection E1 as -> ->.
Qed.

Lemma codex_session_names_distinct_witness : lit "/r" = lit "/r" /\ lit "a-1" = lit "a-1".
Proof.
  assert (H : dns_label (lit "a-1")) by (apply NameTheorems.validate_iff; by vm_compute).
  by apply (codex_session_names_distinct (lit "/r") (lit "/r") (lit "a-1") (lit "a-1") H H).
Defined.

(** The session that is built belongs to a pod that is connected or connecting, passes the
    token of its proxy in the environment only, skips approvals only if both the flag and
    the configuration allow it, offers the credentials of the host exactly when no Codex
    state is known, and its proxy leads to the server of that pod. *)
Theorem codex_spec_built i repo pod bin no_bypass args :
  match build_codex_spec i repo pod bin no_bypass args with
  | (c', offered, Ok (Some spec)) =>
      exists c url token state port secret config codex_bin c1,
        si_connection i = Some c /\ connected_codex_pod (Some c) = Some (url, token, state) /\
        (status c = Connected \/ status c = Connecting) /\
        offered = bool_decide (state = None) /\ (offered = true -> si_credentials i = Ok tt) /\
        si_config i = Ok config /\ bin = Some codex_bin /\
        c' = Some c1 /\
        codex_proxy (resources c1) =
          Some (mkCodexProxy port secret (negb no_bypass && jc_codex_bypass_approvals_and_sandbox config) url token) /\
        spec = mkSessionSpec (codex_session_name repo pod) (codex_command codex_bin port args) None
                 [CODEX_PROXY_TOKEN_ENV ++ [c_eq] ++ secret]
  | (c', offered, Ok None) => offered = false /\ c' = si_connection i /\ connected_codex_pod (si_connection i) = None
  | (_, offered, Err _) => offered = true -> exists c url token, si_connection i = Some c /\ connected_codex_pod (Some c) = Some (url, token, None)
  end.
Proof.
  unfold build_codex_spec. destruct (connected_codex_pod (si_connection i)) as [[[url token] state]|] eqn:Ec; [|done].
  destruct (si_connection i) as [c|]; [|done].
  destruct bin as [bin|]; [|done]. destruct (si_config i) as [config|]; [|done].
  destruct (if bool_decide (state = None) then _ else _) as [[]|e] eqn:Ei; cycle 1.
  { intros ->%bool_decide_eq_true. eauto. }
  destruct (ensure_codex_proxy _ _ _ _ _) as [c1 proxy] eqn:Ep.
  destruct proxy as [[port secret]|e]; [|intros ->%bool_decide_eq_true; eauto].
  exists c, url, token, state, port, secret, config, bin, c1. split_and!; try done.
  - unfold connected_codex_pod in Ec. cbn in Ec. destruct (status c); auto; done.
  - intros Hb. by rewrite Hb in Ei.
  - unfold ensure_codex_proxy in Ep. destruct (codex_proxy (resources c)) as [h|].
    + destruct (_ && _); [by injection Ep as <- <- <-|]. destruct (si_started i) as [[p t]|]; [|done]. by injection Ep as <- <- <-.
    + destruct (si_started i) as [[p t]|]; [|done]. by injection Ep as <- <- <-.
Qed.

Lemma replace_spawned name repo pod bin nb o spec :
  spec ∈ (replace_session name repo pod bin nb o).2 ->
  (replace_session name repo pod bin nb o).2 = [spec] /\ (replace_session name repo pod bin nb o).1 <> Ok false /\
  rp_current o = true /\ rp_old o = Some (true, true) /\ ss_name spec = name /\
  (build_codex_spec (rp_inputs o) repo pod (Some bin) nb []).2 = Ok (Some spec).
Proof.
  unfold replace_session. destruct (rp_current o); cbn; [|by intros ?%not_elem_of_nil].
  destruct (build_codex_spec _ _ _ _ _ _).2 as [[sp|]|]; cbn; try by intros ?%not_elem_of_nil.
  case_bool_decide; cbn; [|by intros ?%not_elem_of_nil].
  destruct (rp_old o) as [[[] []]|]; try by intros ?%not_elem_of_nil.
  destruct (rp_spawn o); cbn; [|by intros ?%not_elem_of_nil].
  intros ->%list_elem_of_singleton. split_and!; try done. by destruct (rp_kill o).
Qed.

Lemma recover_spawned name repo pod bin nb os :
  (recover name repo pod bin nb os).2 = [] \/
  exists o spec url token state, o ∈ os /\ (recover name repo pod bin nb os).2 = [spec] /\
    ro_current o = true /\ connected_codex_pod (ro_connection o) = Some (url, token, state) /\ ro_probe o url token = Ok tt /\
    spec ∈ (replace_session name repo pod bin nb (ro_replace o)).2.
Proof.
  induction os as [|o os IH]; cbn; [by left|].
  assert (Hlater : (recover name repo pod bin nb os).2 = [] \/
    exists o' spec url token state, o' ∈ o :: os /\ (recover name repo pod bin nb os).2 = [spec] /\
      ro_current o' = true /\ connected_codex_pod (ro_connection o') = Some (url, token, state) /\ ro_probe o' url token = Ok tt /\
      spec ∈ (replace_session name repo pod bin nb (ro_replace o')).2).
  { destruct IH as [IH|(o' & sp & u & t & st & Ho & H)]; [by left|right]. exists o', sp, u, t, st. split; [by right|done]. }
  destruct (ro_current o) eqn:E1; cbn; [|by left]. destruct (ro_daemon o); cbn; [|by left].
  destruct (connected_codex_pod (ro_connection o)) as [[[url token] state]|] eqn:E2; [|exact Hlater].
  destruct (ro_probe o url token) as [[]|] eqn:E3; [|exact Hlater].
  pose proof (replace_spawned name repo pod bin nb (ro_replace o)) as Hr.
  destruct (replace_session name repo pod bin nb (ro_replace o)) as [r spawned] eqn:E4. cbn in Hr.
  assert (Hone : spawned = [] \/ exists spec, spawned = [spec]).
  { destruct spawned as [|spec l]; [by left|right]. destruct (Hr spec) as [? _]; [left|]. eauto. }
  destruct Hone as [->|[spec ->]].
  - destruct r as [[]|]; cbn; [by left| |by left]. destruct (recover name repo pod bin nb os) as [r' later]. exact Hlater.
  - right. destruct (Hr spec) as (_ & Hnf & _); [left|]. destruct r as [[]|]; cbn; [|done|];
      (exists o, spec, url, token, state; split_and!; [left|done|done|done|done|rewrite E4; cbn; left]).
Qed.

Lemma codex_spec_built_cmd i repo pod bin nb args spec :
  (build_codex_spec i repo pod (Some bin) nb args).2 = Ok (Some spec) -> exists port, ss_cmd spec = codex_command bin port args.
Proof.
  unfold build_codex_spec. intros H. repeat case_match; simplify_eq/=; eauto.
Qed.

(** A frontend is replaced at most once, and only after its screen showed that it gave up,
    while its session is the current one and its program still runs, the pod is connected
    and the server in the pod answered a probe; the replacement resumes the last thread and
    does not repeat the arguments of the first start, which can hold a prompt. *)
Theorem frontend_replaced_once repo pod bin nb screens os :
  match (monitor (codex_session_name repo pod) repo pod bin nb screens os).2 with
  | [] => True
  | [spec] =>
      (exists screen changed, (screen, changed) ∈ screens /\ reconnect_failed screen = Some true) /\
      exists o url token state port, o ∈ os /\ ro_current o = true /\
        connected_codex_pod (ro_connection o) = Some (url, token, state) /\ ro_probe o url token = Ok tt /\
        rp_current (ro_replace o) = true /\ rp_old (ro_replace o) = Some (true, true) /\
        ss_name spec = codex_session_name repo pod /\ ss_cmd spec = codex_command bin port []
  | _ => False
  end.
Proof.
  set (name := codex_session_name repo pod).
  assert (H : (monitor name repo pod bin nb screens os).2 = [] \/
    (monitor name repo pod bin nb screens os).2 = (recover name repo pod bin nb os).2 /\
    exists screen changed, (screen, changed) ∈ screens /\ reconnect_failed screen = Some true).
  { induction screens as [|[sc ch] screens IH]; cbn; [by left|].
    destruct (reconnect_failed sc) as [[]|] eqn:E; [right; split; [done|]; exists sc, ch; split; [left|done]| |by left].
    destruct ch; [|by left]. destruct IH as [IH|(IH & s' & c' & Hin & Hs)]; [by left|right].
    split; [done|]. exists s', c'. split; [by right|done]. }
  destruct H as [->|[-> Hscreen]]; [done|].
  destruct (recover_spawned name repo pod bin nb os) as [->|(o & spec & url & token & state & Ho & -> & Hc & Hp & Hpr & Hsp)]; [done|].
  split; [done|]. apply replace_spawned in Hsp as (_ & _ & Hrc & Hold & Hname & Hb).
  pose proof (codex_spec_built_cmd _ _ _ _ _ _ _ Hb) as (port & Hcmd).
  by exists o, url, token, state, port.
Qed.

(** ** The proxy and the command *)

Definition forwarded (ev : relay_event) : bool :=
  match ev with FromClient _ sent | FromServer _ sent => sent | ClientEnd | ServerEnd | RelayError => false end.
Definition client_message (ev : relay_event) : option str := match ev with FromClient m _ => Some m | _ => None end.
Definition server_message (ev : relay_event) : option str := match ev with FromServer m _ => Some m | _ => None end.

Lemma relay_prefix pre rest a b :
  Forall (fun ev => forwarded ev = true) pre -> match rest with ev :: _ => forwarded ev = false | [] => True end ->
  relay (pre ++ rest) a b = (a ++ omap client_message pre, b ++ omap server_message pre, bool_decide (rest = [])).
Proof.
  intros Hpre Hrest. revert a b. induction Hpre as [|ev pre Hev _ IH]; intros a b; cbn [app].
  - rewrite !app_nil_r. destruct rest as [|[? []|? []| | |] rest]; cbn in *; try done.
  - destruct ev as [m []|m []| | |]; cbn in Hev; try done; cbn; rewrite IH; by rewrite <- ?(assoc_L (++)).
Qed.

Lemma connect_upstream_spec n outcomes i :
  match connect_upstream n outcomes i with
  | Some k => i <= k < i + n /\ outcomes k = true
  | None => forall k, i <= k < i + n -> outcomes k = false
  end.
Proof.
  revert i. induction n as [|n IH]; intros i; cbn; [intros; lia|]. destruct (outcomes i) eqn:E; [split; [lia|done]|].
  specialize (IH (S i)). destruct (connect_upstream n outcomes (S i)); [destruct IH; split; [lia|done]|].
  intros k Hk. destruct (decide (k = i)) as [->|]; [done|]. apply IH. lia.
Qed.

(** The local proxy serves only the program that has its token, gives up when the pod does
    not answer within fifty attempts, and otherwise forwards exactly the messages of either
    side, in order, up to the first end or error. *)
Theorem codex_proxy_exact client_token header outcomes pre rest :
  Forall (fun ev => forwarded ev = true) pre -> match rest with ev :: _ => forwarded ev = false | [] => True end ->
  match proxy_connection client_token header outcomes (pre ++ rest) with
  | Ok (to_server, to_client, running) =>
      header = Some (lit "Bearer " ++ client_token) /\ (exists i, i < 50 /\ outcomes i = true) /\
      to_server = omap client_message pre /\ to_client = omap server_message pre /\ running = bool_decide (rest = [])
  | Err 401%N => header <> Some (lit "Bearer " ++ client_token)
  | Err _ => forall i, i < 50 -> outcomes i = false
  end.
Proof.
  intros Hpre Hrest. unfold proxy_connection, validate_codex_proxy_auth. case_bool_decide as Hh; [|done].
  cbn [mbind result_bind]. pose proof (connect_upstream_spec 50 outcomes 0) as Hc.
  destruct (connect_upstream 50 outcomes 0) as [k|].
  - rewrite (relay_prefix pre rest [] [] Hpre Hrest). cbn [app]. split_and!; [done| |done..]. exists k. split; [lia|apply Hc].
  - intros i Hi. apply Hc. lia.
Qed.

Lemma codex_proxy_exact_witness :
  proxy_connection (lit "t") (Some (lit "Bearer t")) (fun i => bool_decide (3 <= i))
    ([FromClient (lit "a") true; FromServer (lit "b") true; FromClient (lit "c") true] ++ [ServerEnd; FromClient (lit "d") true])
  = Ok ([lit "a"; lit "c"], [lit "b"], false) /\ (exists i, i < 50 /\ bool_decide (3 <= i) = true).
Proof.
  assert (E : proxy_connection (lit "t") (Some (lit "Bearer t")) (fun i => bool_decide (3 <= i))
    ([FromClient (lit "a") true; FromServer (lit "b") true; FromClient (lit "c") true] ++ [ServerEnd; FromClient (lit "d") true])
    = Ok ([lit "a"; lit "c"], [lit "b"], false)) by (by vm_compute).
  split; [exact E|].
  pose proof (codex_proxy_exact (lit "t") (Some (lit "Bearer t")) (fun i => bool_decide (3 <= i))
    [FromClient (lit "a") true; FromServer (lit "b") true; FromClient (lit "c") true] [ServerEnd; FromClient (lit "d") true]
    ltac:(by repeat constructor) eq_refl) as H.
  rewrite E in H. apply H.
Defined.

Section Consent.
  Context (exists_file : str -> bool) (read_to_string : str -> option str) (json5 : str -> option json).
  Context (Url_parse : str -> option Url) (metadata : str -> result Devcontainer.IoError Devcontainer.FileKind).
  Context (list_pods : result str (list str)) (launch : PodLaunchParams -> result str Sse.LaunchResult).
  Context (attach1 attach2 : result codex_attach_error unit).

(** [rumpel codex] launches a pod only after the daemon had no session or connection for it and
    the Codex program was found, and under the same consent as [rumpel enter]; it attaches
    again only after a launch that succeeded. *)
Theorem codex_launch_needs_consent cl cmd p :
  CodexAction (Launched p) ∈ (codex exists_file read_to_string json5 Url_parse metadata list_pods launch attach1 attach2 cl cmd).1 ->
  attach1 = Err SessionUnavailable /\ is_Some (cl_which cl (lit "codex")) /\
  lp_pod_name p = en_name cmd /\ dns_label (en_name cmd) /\
  exists ps, list_pods = Ok ps /\ (en_name cmd ∈ ps \/ en_create cmd = true \/ consent cl).
Proof.
  unfold codex. destruct (cl_repo_root cl) as [repo|]; cbn [fst]; [|by intros ?%not_elem_of_nil].
  assert (Hone : CodexAction (Launched p) ∉ [CodexAttached]) by (by intros ?%list_elem_of_singleton).
  destruct attach1 as [[]|[|e]]; [done| |done]. case_bool_decide as Hw; [done|]. apply not_eq_None_Some in Hw.
  destruct (resolve_host _ _) as [[h|]|]; [|done..].
  destruct (confirm_pod_creation _ _ _ _) as [asked [[]|e]] eqn:Ec; cycle 1.
  { cbn [fst]. intros [?|Hin]%elem_of_cons; [done|]. apply list_elem_of_fmap in Hin as (a & [= <-] & Ha). exfalso.
    revert Ec Ha. unfold confirm_pod_creation. repeat case_match; intros [= <- <-]; set_solver. }
  apply confirm_spec in Ec as [Hc Hasked]. unfold launch_pod.
  assert (Hna : Launched p ∉ asked). { rewrite Forall_forall in Hasked. intros Hin. by specialize (Hasked _ Hin). }
  destruct (launch_params _ _ _ _ _ _ _ _ _) as [[p'|]| |] eqn:El; cycle 1.
  1-3: cbn [fst]; rewrite app_nil_r; intros [?|Hin]%elem_of_cons; [done|]; apply list_elem_of_fmap in Hin as (a & [= <-] & Ha); done.
  intros Hin. assert (Hp : p = p').
  { assert (Hin' : CodexAction (Launched p) ∈ (CodexAttached :: map CodexAction (asked ++ [Launched p'])) ++ [CodexAttached]).
    { revert Hin. cbn. destruct (launch p'); cbn; rewrite ?elem_of_cons, ?elem_of_app; tauto. }
    rewrite elem_of_app, elem_of_cons in Hin'. destruct Hin' as [[?|Hin']|?%Hone]; [done| |done].
    apply list_elem_of_fmap in Hin' as (a & [= <-] & Ha). apply elem_of_app in Ha as [?|Ha]; [done|].
    apply list_elem_of_singleton in Ha. by injection Ha. }
  subst p'. apply launch_params_name in El as [? ?]. done.
Qed.
End Consent.

Definition example_codex_client : Client :=
  mkClient (Ok (lit "/r")) (Some (lit "/r")) true true (Ok (lit "Yes")) [] ∅ (fun _ => None)
    (fun _ => GitSetup.mkIdentity None None) (fun _ => Some (lit "/bin/x")).
Definition example_params : PodLaunchParams :=
  mkLaunchParams (lit "dev") (lit "/r") None None (Localhost Auto) (Some (GitSetup.mkIdentity None None)) (Some (lit "/bin/x"))
    (Some (lit "/bin/x")) (Some (lit "/bin/x")) (Some (lit "/bin/x")) true (Some (lit "DESCRIPTION")) ∅ ∅ None.

Lemma codex_launch_needs_consent_witness : dns_label (lit "dev") /\ consent example_codex_client.
Proof.
  destruct (codex_launch_needs_consent (fun _ => false) (fun _ => None) (fun _ => Some (JObject [])) (fun _ => None)
    (fun _ => Err Devcontainer.NotFound) (Ok []) (fun _ => Err (lit "no engine")) (Err SessionUnavailable) (Ok tt)
    example_codex_client (mkEnter (lit "dev") (mkArgs None None None None None None) false []) example_params)
    as (_ & _ & _ & Hd & ps & [= <-] & [H|[H|H]]).
  - vm_compute. right. right. left.
  - split; [exact Hd|]. by apply not_elem_of_nil in H.
  - discriminate H.
  - exact (conj Hd H).
Defined.
