(* ===== verification/Commands.v ===== *)
(** * Commands that delete pods, and checks around commits (prune.rs, delete.rs, hook.rs, gateway.rs,
    pod/server.rs)

    [rumpel prune] and [rumpel delete] ask before they delete a pod whose commits are not merged, by
    what the daemon lists for it.  The pre-commit hook of a pod checks the description that
    [rumpel merge] reads.  [detect_submodules] orders the submodules of the host's repository;
    [snapshot_impl] and [apply_patch_impl] carry uncommitted changes. *)
From stdpp Require Import gmap sorting.
From S2P Require Import Prelude Strs PodNames PodGit Daemon Merge Registry.

(** ** Deleting *)

Definition is_prunable (s : ListStatus) : bool :=
  match s with
  | LStopped | LGone | LBroken => true
  | LStarting | LRunning | LDisconnected | LStopping | LDeleting => false
  end.

Definition is_ahead (repo_state : option str) : bool :=
  match repo_state with Some s => contains_str (lit "ahead") s | None => false end.

(** What happens to one pod: its deletion is requested, it is skipped, it counts as failed, or the
    command stops because the terminal cannot be read. *)
Inductive verdict := Delete | Skip | Refuse | Stop (e : str).

(** [interactive]: both ends are terminals; the answers are the lines typed. *)
Definition confirm_unmerged (force interactive : bool) (repo_state : option str) (answers : list (result str str))
    : verdict * list (result str str) :=
  if negb force && is_ahead repo_state then
    if interactive then
      match answers with
      | [] => (Skip, [])                            (* end of input is an empty answer *)
      | Err e :: answers => (Stop e, answers)
      | Ok answer :: answers => ((if eq_ignore_ascii_case (trim answer) (lit "y") then Delete else Skip), answers)
      end
    else (Refuse, answers)
  else (Delete, answers).

Record deletion := mkDeletion { requested : list str; failed_count : nat; stopped_by : option str }.

Definition request_delete (name : str) (r : deletion) : deletion := mkDeletion (name :: requested r) (failed_count r) (stopped_by r).
Definition count_failure (r : deletion) : deletion := mkDeletion (requested r) (S (failed_count r)) (stopped_by r).

Section Delete.
  Context (force interactive : bool) (delete_pod : str -> result str unit).

Fixpoint prune_loop (pods : list PodInfo) (answers : list (result str str)) : deletion :=
  match pods with
  | [] => mkDeletion [] 0 None
  | pod :: pods =>
      let '(v, answers) := confirm_unmerged force interactive (pi_repo_state pod) answers in
      match v with
      | Stop e => mkDeletion [] 0 (Some e)
      | Skip => prune_loop pods answers
      | Refuse => count_failure (prune_loop pods answers)
      | Delete =>
          let rest := prune_loop pods answers in
          request_delete (pi_name pod)
            (match delete_pod (pi_name pod) with Ok _ => rest | Err _ => count_failure rest end)
      end
  end.

Fixpoint delete_loop (pods : list PodInfo) (names : list str) (answers : list (result str str)) : deletion :=
  match names with
  | [] => mkDeletion [] 0 None
  | name :: names =>
      match List.find (fun p => bool_decide (pi_name p = name)) pods with
      | None => count_failure (delete_loop pods names answers)
      | Some pod =>
          let '(v, answers) := confirm_unmerged force interactive (pi_repo_state pod) answers in
          match v with
          | Stop e => mkDeletion [] 0 (Some e)
          | Skip => delete_loop pods names answers
          | Refuse => count_failure (delete_loop pods names answers)
          | Delete =>
              let rest := delete_loop pods names answers in
              match Protocol.PodName_new name with
              | Err _ => count_failure rest
              | Ok _ =>
                  request_delete name (match delete_pod name with Ok _ => rest | Err _ => count_failure rest end)
              end
          end
      end
  end.

(** The exit of either command. *)
Definition deletion_result (r : deletion) : result str unit :=
  match stopped_by r with
  | Some e => Err e
  | None => if bool_decide (failed_count r = 0) then Ok tt
            else Err (show (N.of_nat (failed_count r)) ++ lit " pod(s) could not be deleted")
  end.

Definition prune (pods : result str (list PodInfo)) (answers : list (result str str)) : list str * result str unit :=
  match pods with
  | Err e => ([], Err e)
  | Ok pods =>
      let prunable := List.filter (fun p => is_prunable (pi_status p)) pods in
      let r := prune_loop prunable answers in (requested r, deletion_result r)
  end.

Definition delete (pods : result str (list PodInfo)) (names : list str) (answers : list (result str str))
    : list str * result str unit :=
  match pods with
  | Err e => ([], Err e)
  | Ok pods => let r := delete_loop pods names answers in (requested r, deletion_result r)
  end.
End Delete.

(** ** The description of a branch *)

Inductive description_error :=
| DescriptionEmpty | SubjectEmpty | SubjectLong (n : nat) | SecondLine | BodyLong (line len : nat)
| NotStaged | NotUtf8 | CatFileFailed.

Fixpoint check_body (lineno : nat) (ls : list str) : result description_error unit :=
  match ls with
  | [] => Ok tt
  | l :: ls => if bool_decide (72 < length l) then Err (BodyLong lineno (length l)) else check_body (S lineno) ls
  end.

Definition check_description_format (content : str) : result description_error unit :=
  let trimmed := trim_end_matches c_nl content in
  if bool_decide (trimmed = []) then Err DescriptionEmpty
  else
    let ls := split c_nl trimmed in
    let subject := default [] (head ls) in
    if bool_decide (subject = []) then Err SubjectEmpty
    else if bool_decide (50 < length subject) then Err (SubjectLong (length subject))
    else if bool_decide (2 <= length ls) && negb (bool_decide (ls !! 1 = Some [])) then Err SecondLine
    else check_body 3 (drop 2 ls).

(** [output] is that of [git cat-file -p :<file>], [None] when git cannot be started. *)
Definition pre_commit_description (output : option git_output) : result description_error unit :=
  match output with
  | None => Err CatFileFailed
  | Some o =>
      if negb (ran_ok o) then Err NotStaged
      else
        content ← context NotUtf8 (go_stdout o);
        check_description_format content
  end.

(** ** Submodules of the host *)

Definition depth (displaypath : str) : nat := length (filter (fun c => c = c_slash) displaypath).

(** [sort_by_key], which is stable. *)
Fixpoint insert_by_depth (d : str) (l : list str) : list str :=
  match l with
  | [] => [d]
  | x :: l' => if bool_decide (depth d <= depth x) then d :: l else x :: insert_by_depth d l'
  end.
Definition sort_by_depth (l : list str) : list str := foldr insert_by_depth [] l.

Definition c_tab : char := 9%N.

(** The third of [splitn(3, '\t')]. *)
Definition displaypath_of (line : str) : option str :=
  ab ← split_once c_tab line;
  cd ← split_once c_tab ab.2;
  Some cd.2.

Definition detect_submodules (has_gitmodules : bool) (output : option git_output) : list str :=
  if negb has_gitmodules then []
  else
    match output with
    | Some o => if ran_ok o then sort_by_depth (omap displaypath_of (lines (default [] (go_stdout o)))) else []
    | None => []
    end.

(** ** Uncommitted changes *)

Section Patch.
  Context {G : Type}.
  (** A git command in the repository, with its input; removing a file of the repository. *)
  Context (git : list str -> str -> G -> G * option git_output) (remove_file : str -> G -> G).

Definition created_file (line : str) : option str :=
  rest ← strip_prefix (lit "create mode ") (trim_start_by is_whitespace line);
  ab ← split_once c_space rest;
  Some ab.2.

(** [parse_created_files]; an error is dropped by its caller. *)
Definition parse_created_files (patch : str) (g : G) : G * list str :=
  let '(g, o) := git [lit "apply"; lit "--summary"; lit "-"] patch g in
  (g, match o with
      | Some o => if ran_ok o then omap created_file (lines (default [] (go_stdout o))) else []
      | None => []
      end).

Definition apply_patch_impl (patch : str) (g : G) : G * result str unit :=
  let '(g, created) := parse_created_files patch g in
  let g := foldl (fun g file => remove_file file g) g created in
  match git [lit "apply"; lit "-"] patch g with
  | (g, None) => (g, Err (lit "spawning git apply"))
  | (g, Some o) =>
      if ran_ok o then ((git [lit "submodule"; lit "update"; lit "--recursive"] [] g).1, Ok tt)
      else (g, Err (lit "git apply failed: " ++ go_stderr o))
  end.

Definition snapshot_impl (g : G) : G * result str (option str) :=
  match git [lit "add"; lit "-A"] [] g with
  | (g, Some o) =>
      if ran_ok o then
        match git [lit "diff"; lit "--binary"; lit "--cached"] [] g with
        | (g, Some o) =>
            if ran_ok o then
              let diff := default [] (go_stdout o) in
              (g, Ok (if bool_decide (diff = []) then None else Some diff))
            else (g, Err (lit "git diff"))
        | (g, None) => (g, Err (lit "git diff"))
        end
      else (g, Err (lit "git add"))
  | (g, None) => (g, Err (lit "git add"))
  end.
End Patch.

(** ** Deletions are asked for *)

Lemma a_notin_digits n : 97%N ∉ show n.
Proof.
  intros Hin. pose proof (show_digits n) as H. rewrite Forall_forall in H. specialize (H _ Hin). revert H. by vm_compute.
Qed.

Lemma behind_not_ahead n : contains_str (lit "ahead") (lit "behind " ++ show n) = false.
Proof.
  apply not_true_is_false. intros H. apply contains_str_true in H as (a & b & E); [|by vm_compute].
  assert (Hin : 97%N ∈ lit "behind " ++ show n). { rewrite E. apply elem_of_app. right. apply elem_of_app. left. decide_now. }
  apply elem_of_app in Hin as [Hin|Hin]; [|by apply a_notin_digits in Hin].
  revert Hin. change (97%N ∉ lit "behind "). decide_now.
Qed.

(** What the listing says agrees with the branches: [ahead] is in the text exactly when the pod has
    commits that the host's HEAD does not have. *)
Lemma is_ahead_iff host pod time graph info :
  compute_git_info host pod time graph = Some info ->
  is_ahead (Some (repo_state info)) = true <->
  exists h p a b, host = Some h /\ pod = Some p /\ h <> p /\ graph p h = Some (a, b) /\ (0 < a)%N.
Proof.
  unfold compute_git_info. destruct host as [h|], pod as [p|], time as [t|]; cbn; try done.
  case_bool_decide as Hhp; cbn.
  { intros [= <-]. split; [by vm_compute|]. intros (? & ? & ? & ? & [= ->] & [= ->] & ? & _). done. }
  destruct (graph p h) as [[a b]|] eqn:Eg; cbn; [|done]. intros [= <-]. cbn [repo_state]. split.
  - intros H. exists h, p, a, b. split_and!; [done..|]. destruct a as [|a]; [|lia]. exfalso.
    destruct b as [|b]; cbn in H; [by vm_compute in H|]. by rewrite behind_not_ahead in H.
  - intros (h' & p' & a' & b' & [= <-] & [= <-] & _ & E & Ha). rewrite Eg in E. injection E as <- <-.
    destruct a as [|a]; [lia|]. unfold is_ahead. apply contains_str_true; [by vm_compute|].
    destruct b as [|b]; [exists [], (lit " " ++ show (N.pos a))|exists [], (lit " " ++ show (N.pos a) ++ lit ", behind " ++ show (N.pos b))]; done.
Qed.

(** The user confirmed a deletion at the terminal. *)
Definition confirmed_at_terminal (interactive : bool) (answers : list (result str str)) : Prop :=
  interactive = true /\ exists line, Ok line ∈ answers /\ map to_ascii_lowercase (trim line) = lit "y".

Lemma confirm_Delete force interactive st answers answers' :
  confirm_unmerged force interactive st answers = (Delete, answers') ->
  force = true \/ is_ahead st = false \/ confirmed_at_terminal interactive answers.
Proof.
  unfold confirm_unmerged. destruct force; cbn; [by left|]. destruct (is_ahead st); [|auto]. right; right.
  destruct interactive; [|done]. destruct answers as [|[line|e] answers]; [done| |done].
  split; [done|]. exists line. split; [left|]. revert H. unfold eq_ignore_ascii_case. case_bool_decide as Hy; [|done].
  intros _. rewrite Hy. by vm_compute.
Qed.

Lemma confirm_answers force interactive st answers v answers' :
  confirm_unmerged force interactive st answers = (v, answers') -> answers' ⊆ answers.
Proof. unfold confirm_unmerged. intros H. repeat case_match; simplify_eq; set_solver. Qed.

Lemma confirmed_mono interactive a b : a ⊆ b -> confirmed_at_terminal interactive a -> confirmed_at_terminal interactive b.
Proof. intros Hs [Hi (l & Hl & Hy)]. split; [done|]. exists l. split; [by apply Hs|done]. Qed.

Section Asked.
  Context (force interactive : bool) (delete_pod : str -> result str unit).

Definition permitted (answers : list (result str str)) (p : PodInfo) : Prop :=
  force = true \/ is_ahead (pi_repo_state p) = false \/ confirmed_at_terminal interactive answers.

Lemma permitted_mono a b p : a ⊆ b -> permitted a p -> permitted b p.
Proof. intros Hs [?|[?|?]]; unfold permitted; eauto using confirmed_mono. Qed.

Lemma requested_failure (name : str) r1 r2 (x : result str unit) :
  requested (request_delete name (match x with Ok _ => r1 | Err _ => r2 end)) = name :: requested (match x with Ok _ => r1 | Err _ => r2 end).
Proof. done. Qed.

Lemma prune_loop_permitted pods answers :
  Forall (fun name => exists p, p ∈ pods /\ pi_name p = name /\ permitted answers p)
    (requested (prune_loop force interactive delete_pod pods answers)).
Proof.
  revert answers. induction pods as [|p pods IH]; intros answers; cbn; [constructor|].
  destruct (confirm_unmerged _ _ _ _) as [v answers'] eqn:E. pose proof (confirm_answers _ _ _ _ _ _ E) as Hs.
  assert (Hrest : Forall (fun name => exists q, q ∈ p :: pods /\ pi_name q = name /\ permitted answers q)
    (requested (prune_loop force interactive delete_pod pods answers'))).
  { eapply Forall_impl; [apply IH|]. intros name (q & Hq & Hn & Hp). exists q. split_and!; [by right|done|by eapply permitted_mono]. }
  destruct v; cbn; [|done|done|constructor]. constructor; [|by destruct (delete_pod _)].
  exists p. split_and!; [left|done|]. by eapply confirm_Delete.
Qed.

Lemma delete_loop_permitted pods names answers :
  Forall (fun name => name ∈ names /\ dns_label name /\ exists p, p ∈ pods /\ pi_name p = name /\ permitted answers p)
    (requested (delete_loop force interactive delete_pod pods names answers)).
Proof.
  revert answers. induction names as [|n names IH]; intros answers; cbn; [constructor|].
  assert (Hrest : forall answers', answers' ⊆ answers ->
    Forall (fun name => name ∈ n :: names /\ dns_label name /\ exists p, p ∈ pods /\ pi_name p = name /\ permitted answers p)
    (requested (delete_loop force interactive delete_pod pods names answers'))).
  { intros a Ha. eapply Forall_impl; [apply IH|]. intros name (Hn & Hd & q & Hq & Hqn & Hp). split_and!; [by right|done|].
    exists q. split_and!; [done..|by eapply permitted_mono]. }
  destruct (List.find _ pods) as [p|] eqn:Ef; cbn; [|by apply Hrest].
  apply find_some in Ef as [Hin%list_elem_of_In Hn%bool_decide_eq_true].
  destruct (confirm_unmerged _ _ _ _) as [v answers'] eqn:E. pose proof (confirm_answers _ _ _ _ _ _ E) as Hs.
  destruct v; cbn; [|by apply Hrest|by apply Hrest|constructor].
  destruct (Protocol.PodName_new n) as [pn|] eqn:En; cbn; [|by apply Hrest].
  apply NameTheorems.PodName_new_Ok in En as [Hd _].
  constructor; [|by destruct (delete_pod _); apply Hrest]. split_and!; [left|done|].
  exists p. split_and!; [done..|]. by eapply confirm_Delete.
Qed.

End Asked.


(** Where the branches cannot be compared a pod counts as merged: in a repository whose HEAD has
    no commit, the deletion of every listed pod is requested without a question. *)
Theorem unknown_state_not_asked interactive delete_pod pods answers graph pod time :
  Forall (fun p => pi_repo_state p = repo_state <$> compute_git_info None pod time graph) pods ->
  (prune false interactive delete_pod (Ok pods) answers).1 =
  map pi_name (List.filter (fun p => is_prunable (pi_status p)) pods).
Proof.
  intros H. cbn. assert (H' : Forall (fun p => pi_repo_state p = None) (List.filter (fun p => is_prunable (pi_status p)) pods)).
  { apply Forall_forall. intros p Hp. apply list_elem_of_In, filter_In in Hp as [Hin _]. rewrite Forall_forall in H.
    by rewrite (H p) by (by apply list_elem_of_In). }
  clear H. induction H' as [|p ps Hp _ IH]; cbn; [done|]. rewrite Hp. cbn. unfold confirm_unmerged. cbn.
  destruct (delete_pod (pi_name p)); cbn; by rewrite IH.
Qed.

Lemma unknown_state_not_asked_witness :
  (prune false true (fun _ => Ok tt) (Ok [mkPodInfo (lit "dev") LGone [] [] None None None None None]) []).1 = [lit "dev"].
Proof.
  apply (unknown_state_not_asked true (fun _ => Ok tt) [mkPodInfo (lit "dev") LGone [] [] None None None None None] []
    (fun _ _ => None) None None). by repeat constructor.
Defined.

(** ** The description *)

(** A commit message: a subject of 1 to 50 characters, then nothing or a blank line and a body of
    lines of at most 72. *)
Definition commit_message (ls : list str) : Prop :=
  match ls with
  | [] => False
  | [subject] => 0 < length subject <= 50
  | subject :: second :: body => 0 < length subject <= 50 /\ second = [] /\ Forall (fun l => length l <= 72) body
  end.

Lemma check_body_Ok n ls : check_body n ls = Ok tt <-> Forall (fun l => length l <= 72) ls.
Proof.
  revert n. induction ls as [|l ls IH]; intros n; cbn; [by split|].
  rewrite Forall_cons. case_bool_decide as Hl; [split; [done|intros [? _]; lia]|]. rewrite IH. split; [|tauto]. intros ?. split; [lia|done].
Qed.

Lemma check_description_Ok content :
  check_description_format content = Ok tt <-> commit_message (split c_nl (trim_end_matches c_nl content)).
Proof.
  unfold check_description_format. set (t := trim_end_matches c_nl content).
  case_bool_decide as Ht; [rewrite Ht; cbn; split; [done|lia]|].
  destruct (split c_nl t) as [|subject ls] eqn:Es; [by destruct (split_nonempty c_nl t)|]. cbn [head default].
  destruct subject as [|x subject]; [rewrite bool_decide_true by done|rewrite bool_decide_false by done; set (sub := x :: subject)].
  { split; [done|]. destruct ls; cbn; [lia|intros [? _]; lia]. }
  assert (Hpos : 0 < length sub) by (cbn; lia). clearbody sub. change (id sub) with sub.
  case_bool_decide as H1; [split; [done|]; destruct ls; cbn; [lia|intros [? _]; lia]|].
  destruct ls as [|second body]; [cbn; split; [lia|done]|]. cbn [length lookup list_lookup drop].
  rewrite bool_decide_true by lia. cbn [andb].
  case_bool_decide as H2; cbn; [|split; [done|]; intros (_ & -> & _); done].
  injection H2 as ->. rewrite check_body_Ok. split; [|tauto]. intros ?. split_and!; [lia..|done|done].
Qed.

(** The hook accepts exactly the descriptions that are formed like a commit message, after
    the newlines at their end. *)
Theorem description_check_exact content :
  check_description_format content = Ok tt <-> commit_message (split c_nl (trim_end_matches c_nl content)).
Proof. apply check_description_Ok. Qed.

(** The hook and the merge disagree on a description that is only blanks: the hook accepts it,
    and the merge takes it for missing, so that it fails where a description is required. *)
Theorem blank_description_disagrees {G} (git : list str -> G -> G * option git_output) g ref p n err :
  0 < n <= 50 ->
  (git [lit "show"; ref ++ [c_colon] ++ p] g).2 = Some (mkGitOutput (Some 0%Z) (Some (replicate n c_space)) err) ->
  check_description_format (replicate n c_space) = Ok tt /\
  read_file_from_ref git g ref p = Ok None /\
  is_ok (resolve_description git g ref Merge.Required (Some p) None false) = false.
Proof.
  intros Hn Hg.
  assert (Hr : read_file_from_ref git g ref p = Ok None).
  { unfold read_file_from_ref, query. rewrite Hg. cbn.
    assert (E : trim_end (replicate n c_space) = []).
    { unfold trim_end, trim_end_by. rewrite reverse_replicate. clear. induction n as [|n IH]; [done|]. exact IH. }
    by rewrite E. }
  split_and!; [|done|].
  - apply check_description_Ok.
    assert (E : trim_end_matches c_nl (replicate n c_space) = replicate n c_space).
    { unfold trim_end_matches, trim_end_by. rewrite reverse_replicate.
      assert (Es : trim_start_by (is_char c_nl) (replicate n c_space) = replicate n c_space) by (by destruct n).
      by rewrite Es, reverse_replicate. }
    rewrite E, split_free; [cbn; rewrite length_replicate; lia|]. intros Hin%elem_of_replicate. destruct Hin as [Hin _]. discriminate Hin.
  - cbn. by rewrite Hr.
Qed.

Lemma blank_description_disagrees_witness :
  check_description_format (lit "   ") = Ok tt /\
  is_ok (resolve_description (fun _ (g : unit) => (g, Some (mkGitOutput (Some 0%Z) (Some (lit "   ")) []))) tt (lit "r")
           Merge.Required (Some (lit "DESCRIPTION")) None false) = false.
Proof.
  destruct (blank_description_disagrees (fun _ (g : unit) => (g, Some (mkGitOutput (Some 0%Z) (Some (lit "   ")) []))) tt (lit "r")
    (lit "DESCRIPTION") 3 []) as (H1 & _ & H3); [lia|by vm_compute|].
  split; [exact H1|exact H3].
Defined.

(** ** Submodules *)

Lemma insert_by_depth_perm d l : insert_by_depth d l ≡ₚ d :: l.
Proof. induction l as [|x l IH]; cbn; [done|]. case_bool_decide; [done|]. rewrite IH. apply Permutation_swap. Qed.

Lemma sort_by_depth_perm l : sort_by_depth l ≡ₚ l.
Proof. induction l as [|x l IH]; cbn; [done|]. rewrite insert_by_depth_perm. by f_equiv. Qed.

Definition depth_le (a b : str) : Prop := depth a <= depth b.

Lemma insert_by_depth_sorted d l : StronglySorted depth_le l -> StronglySorted depth_le (insert_by_depth d l).
Proof.
  unfold depth_le. induction 1 as [|x l Hs IH Hall]; cbn; [by repeat constructor|]. case_bool_decide as Hd.
  - constructor; [by constructor|]. constructor; [done|]. eapply Forall_impl; [exact Hall|]. cbn. lia.
  - constructor; [done|]. rewrite insert_by_depth_perm. constructor; [lia|done].
Qed.

Lemma depth_child a b : depth a < depth (a ++ [c_slash] ++ b).
Proof. unfold depth. rewrite !filter_app, !length_app, filter_cons_True by done. cbn. lia. Qed.

(** Submodules are visited with parents before children: every submodule that git lists is
    visited, and one below another comes later. *)
Theorem submodules_parents_before_children (o : git_output) :
  ran_ok o = true ->
  detect_submodules true (Some o) ≡ₚ omap displaypath_of (lines (default [] (go_stdout o))) /\
  forall i j p q, detect_submodules true (Some o) !! i = Some p -> detect_submodules true (Some o) !! j = Some (p ++ [c_slash] ++ q) -> i < j.
Proof.
  intros Ho. unfold detect_submodules. cbn. rewrite Ho. set (l := omap _ _). split; [apply sort_by_depth_perm|].
  assert (Hs : StronglySorted depth_le (sort_by_depth l)).
  { induction l as [|x l IH]; cbn; [constructor|by apply insert_by_depth_sorted]. }
  intros i j p q Hi Hj. destruct (decide (i < j)) as [|Hlt]; [done|]. exfalso.
  pose proof (depth_child p q) as Hd. cbn [app] in Hd.
  destruct (decide (i = j)) as [->|Hne]; [assert (E : p = p ++ c_slash :: q) by congruence; rewrite <- E in Hd; lia|].
  assert (Hle : depth_le (p ++ c_slash :: q) p); [|unfold depth_le in Hle; lia].
  assert (Hji : j < i) by lia. clear Hlt Hne Hd. revert i j Hi Hj Hji. induction Hs as [|x s Hs IH Hall]; intros i j Hi Hj Hji; [done|].
  destruct i as [|i]; [lia|]. destruct j as [|j]; cbn in *.
  - injection Hj as ->. rewrite Forall_forall in Hall. apply Hall. by eapply list_elem_of_lookup_2.
  - eapply IH; [exact Hi|exact Hj|lia].
Qed.

Lemma submodules_parents_before_children_witness :
  let line n := n ++ [c_tab] ++ n ++ [c_tab] ++ n ++ [c_nl] in
  let o := mkGitOutput (Some 0%Z) (Some (line (lit "a/b c/d") ++ line (lit "a"))) [] in
  detect_submodules true (Some o) = [lit "a"; lit "a/b c/d"] /\ 0 < 1.
Proof.
  intros line o. assert (E : detect_submodules true (Some o) = [lit "a"; lit "a/b c/d"]) by (by vm_compute).
  split; [exact E|].
  apply (proj2 (submodules_parents_before_children o eq_refl) 0 1 (lit "a") (lit "b c/d")); rewrite E; reflexivity.
Defined.
